(* ===== verification/_CoqProject ===== *)
-Q . S2P
Prelude.v
Records.v
Samples.v
Paths.v
Text.v
Fleet.v
Tombstones.v
Stores.v
MemStore.v
SampleStores.v
Contract.v
Filesystem.v
FsStore.v
FsLayout.v
FsCrash.v
FsStoreSpec.v
FsListing.v
FsSamples.v
FsRefine.v
FsBlobs.v
Ancestry.v
Merge.v
Tickets.v
Sync.v
Maintenance.v
Manifests.v
Shards.v
VectorIndex.v
RecordIndex.v
IndexCommit.v
Gc.v
Undelete.v
Auth.v
Http.v
Grpc.v
Remote.v
Daemon.v
RemoteRefine.v
RemoteSpec.v
CodeModel.v
Numerals.v
GraphStore.v
GraphQueries.v
Resolve.v
SqliteGraph.v
SourceWalk.v
Indexing.v
IndexDrivers.v
GraphSamples.v
IndexingSpec.v
GraphViews.v
S3Client.v
S3Store.v
S3Writes.v
S3Markers.v
S3Listing.v
S3ListingSpec.v
S3Races.v
Knowledge.v
KnowledgeSpec.v
KnowledgeQuery.v
Cli.v
CliSpec.v
GitStore.v
GitFiles.v
GitSpec.v
GitPull.v
GitSamples.v
Mcp.v
McpSpec.v
ParsePool.v
TicketHttp.v
TrackerSources.v
GitHubSource.v
TicketConfig.v
ConnectorSpec.v
Routes.v
Extract.v
ExtractWalk.v
ExtractSpec.v
