(* ===== verification/Prelude.v ===== *)
(** * Gonzalo: a verification library

    Gonzalo is a store of versioned records for fleets of agents: a library of
    record types and merge rules ([gonzalo-core], [gonzalo-domain]), substrates
    that persist records and content-addressed blobs (a file system, git, an
    object store, another daemon), a daemon that serves them
    ([gonzalo-server]), and clients of the store: sync, garbage collection,
    ticket ingest, a vector index and a knowledge store over it, a code graph
    with its indexer, the command line and a tool server for agents.  This
    development models these parts and proves what each promises the others.
    Paths below are under [src/crates/].

    ** The parts

    A [record] ([Records], [gonzalo-core/src/record.rs] and its neighbours) has
    a key, a revision (a counter and the hash of its body), the revisions it
    descends from, and a body.  Every substrate holds a map from keys to
    records and changes it only as one of four planners decides ([Tombstones],
    [tombstone.rs]): compare-and-swap on the revision, deletes that leave a
    tombstone, raw writes for replication, purges of tombstones.

    - [Stores] ([store.rs]): a [&dyn Store] is a record of operations on a
      world.  [StoreLaws] and [BlobStoreLaws] are the contract; every client
      below is proved against it, and [Contract] draws what follows for any
      sequence of calls.  [MemStore] ([memstore.rs]), [Ancestry]
      ([ancestry.rs]) are instances.
    - [Paths] ([paths.rs]): keys as path segments.  [Text] and [Numerals]
      hold what several parts do with text: trimming, splitting, decimal
      numerals, URL segments.
    - [Filesystem], [FsStore], [FsLayout], [FsCrash], [FsStoreSpec],
      [FsListing], [FsRefine], [FsBlobs]
      ([gonzalo-store-fs/src/lib.rs], [layout.rs], [tilde.rs]): the filesystem
      substrate as programs of [std::fs] calls over a tree with a durable part.
      It is related to [MemStore] by refinement rather than by the class,
      because its calls can fail and the machine can stop.
    - [GitStore], [GitFiles], [GitSpec], [GitPull]
      ([gonzalo-store-git/src/lib.rs], [diff.rs]): the git substrate over the
      same files and a class of what it asks of libgit2; reads, commits, pull,
      push, and the changed paths of a working tree.
    - [S3Client], [S3Store], [S3Writes], [S3Markers], [S3Listing],
      [S3ListingSpec], [S3Races] ([gonzalo-store-s3/src/lib.rs]): the object
      store substrate as programs of requests to a bucket that other programs
      write to between any two of them.
    - [Grpc], [Remote], [Daemon], [RemoteRefine], [RemoteSpec]
      ([gonzalo-server/src/grpc.rs], [gonzalo-store-server/src/lib.rs]): the
      gRPC adapter, the client over HTTP or gRPC, and the two connected through
      a network that may lose messages.
    - [Manifests] ([manifest.rs], [vector_manifest.rs]), [Gc] ([gc.rs]),
      [Undelete] ([undelete.rs]), [Maintenance] ([collect.rs], [reset.rs]):
      records that name blobs, and what removes or restores them.
    - [Merge] ([merge.rs]) and [Sync] ([sync.rs]): reconciling two stores.
      [Sync] settles each key by the histories of its two records and merges
      bodies with [Merge] over the versions [Ancestry] kept.
    - [Fleet] ([gonzalo-domain/src/fleet/]) and [Auth], [Http], [Routes]
      ([gonzalo-server/src/auth.rs], [http.rs], [service.rs]): who may do
      what, the record and blob routes of the daemon over any [Store], and with the
      ticket-sync and graph routes everything it serves over HTTP.
    - [Tickets] ([gonzalo-domain/src/ticket.rs], [codec.rs],
      [gonzalo-ticket/src/]): mirroring an external tracker.
    - [TicketHttp], [GitHubSource], [TrackerSources], [TicketConfig]
      ([gonzalo-ticket-github/src/] and its siblings,
      [gonzalo-ticket-config/src/lib.rs], the ticket commands of
      [gonzalo-cli/src/lib.rs]): each tracker's source over a function that
      sends requests, and the connections of a configuration.  [ConnectorSpec] reads
      the text they exchange and says what they promise.
    - [Shards], [VectorIndex], [RecordIndex], [IndexCommit]
      ([gonzalo-vector/src/shard.rs], [index.rs], [record_index.rs]): the
      vector index in memory and its durable form, a manifest record and a
      blob per shard, committed under optimistic concurrency.
    - [Knowledge], [KnowledgeSpec], [KnowledgeQuery]
      ([gonzalo-knowledge/src/lib.rs]): records split into chunks, indexed and
      queried over any [VectorIndex].
    - [CodeModel], [GraphStore], [GraphQueries], [Resolve], [SqliteGraph]
      ([gonzalo-graph/src/], [gonzalo-graph-sqlite/src/lib.rs]): slices of code
      graph, the queries over a view, the resolution of references, and the
      two graph stores.
    - [Extract], [ExtractWalk], [ExtractSpec] ([gonzalo-graph/src/builder.rs]):
      the slice of a source from its syntax tree, by language.
    - [SourceWalk], [Indexing], [IndexDrivers], [IndexingSpec], [GraphViews]
      ([gonzalo-cli/src/walk.rs], [lib.rs], [gonzalo-server/src/service.rs]):
      from a tree of sources to a manifest, slices and a graph, and the
      service's queries over them.
    - [ParsePool] ([gonzalo-parse/src/lib.rs]): the worker processes that
      parse.
    - [Cli], [CliSpec] ([gonzalo-cli/src/lib.rs]): the operator's commands.
    - [Mcp], [McpSpec] ([gonzalo-mcp/src/lib.rs], [main.rs]): the tools an
      agent calls, over the service.

    [Samples], [SampleStores], [FsSamples], [GitSamples] and [GraphSamples] hold the concrete inputs of the witnesses and model nothing.

    ** How code is translated

    An operation is a function of the world it runs in ([M W E A]): it returns
    a [result] and the world, which keeps the effects of a failed call.  Where
    what happens between two calls matters, an operation is a program of calls
    (the file system's [prog], the object store's [s3prog]) and runs are
    relations.  An async function is the sequence of its effects; where tasks
    run concurrently and their order shows, the order is a parameter
    ([HashOrder], [JoinOrder]).  Handles that share a store are two states with
    one world.  Machine integers are [N] or [Z] with wrap-around or saturation
    written out; strings are their bytes; [f32] is IEEE binary32
    ([SpecFloat]).  [BTreeMap] iteration is by sorted keys ([btree_items]
    below).  A library the repository calls is a class of what the code uses of
    it, with the documented facts as fields or hypotheses: [Blake3],
    [SerdeJson], [ManifestSerde], [SerdeRecord], [Git2], [S3Service], [Sqlite],
    the TOML parser, the HTTP client.

    ** What is proved

    - One record: compare-and-swap on every branch, bounded ordered histories,
      no lost update, the exact history of a chain of edits ([Tombstones],
      [Stores], [Contract]).
    - The filesystem: call-by-call refinement of [MemStore]; atomicity and
      durability of writes at every failing call and every crash; blobs are
      content-addressed; and where these stop (new directories, empty key
      components, hashes that are paths).
    - Git: call-by-call refinement of [MemStore] with one commit per write on
      the head before; a diverged pull reconciles every path; what a failed
      commit leaves visible.
    - The object store: every request of a write is the planner's decision on
      the record it replaces, under any interference and any failure; writers
      keep tombstones marked; a listing alone is the reference listing; and the
      interleavings where a listing, or two equal puts, go wrong.
    - The remote store: a call that its transport can carry is the service's call
      under the token's principal; a lossy network never makes an answer false; and
      the keys that a URL cannot carry, or carries to another key.
    - Two stores: one sync pass implements a per-key specification, sync ends in
      agreement, resurrects nothing and is idempotent; merges lose no line and
      are the three-way rule of values and fields, stated on its own.
    - Blobs: a collection frees exactly the garbage, and a deleted manifest
      survives it and can be restored.
    - The daemon: no request to any HTTP route reads or writes outside its token's
      scopes, where its key and hash are ones the stores keep their contract at;
      authorship is stamped, tombstones are guarded.
    - Tickets: ingest mirrors the source and a second ingest writes nothing;
      an ingest over GitHub's linked pages stores every issue and no pull
      request; what a state written to Jira, GitLab, Asana or a project board
      reads back as.
    - Vectors: shard bytes decode only to what was encoded and are a function of
      the contents; a query is the exact top-k; any number of stale handles
      committing in any order lose nothing; refused commits change nothing.
      Knowledge: the index mirrors the records ingested, and a query ranks
      records by their best chunk.
    - Extraction: a slice is a comprehension over the positions of the tree, so
      nothing is missed or counted twice; every name a reference is attributed
      to is in the slice, around it; a C header reads alike as C++; which type
      a receiver is given.
    - The code graph: the two backends answer alike, closures are exact and end;
      an indexing run leaves the view of the tree, by a walk or by changes that are
      exact, and the service answers from it; and what a failed run, or one by
      changes that are not exact, leaves behind.
    - The tools and commands: a server without writes changes nothing and
      answers only from views that exist; migrating is idempotent; durations
      are exact; a parse gets its own answer while none is dropped.

    ** Bounds and fuel

    Loops over finite data are folds.  [sync_with_ancestry] runs
    [MAX_SYNC_PASSES] passes, the index's commit [MAX_COMMIT_ATTEMPTS]
    attempts and the object store's write loop [MAX_WRITE_ATTEMPTS], as the
    code does.  The recursions that need fuel get enough of it: the UTF-8
    decoder its input's length ([Paths]), the structured merge the size of our
    side ([merge_value_eq]), the ingest loop the number of pages
    ([ingest_is_upserts]), [chunks] the length of the list ([concat_chunks]),
    trimming the length of the text, the text of an Atlassian document the size
    of its JSON, the board of a project the number of its pages (out of fuel is
    an error there and in the daemon's ticket sync), the impact queries and the resolved walk
    the number of references of the view ([GraphQueries], [Resolve]), the
    listing of a bucket more pages than objects ([S3ListingSpec]), decimal
    numerals 20 digits.  The durable index is proved for contents the shard
    format can express ([fits]: lengths below 2^16 and 2^32, blobs below 2^64
    bytes).

    ** Not modelled

    Third-party code: tree-sitter and its grammars (the tree of a source is a
    parameter of [build], and the slice of a source one of [Indexing]); libgit2, the AWS SDK, SQLite and serde themselves; embedding
    models and the HNSW index.  Of the daemon, the graph and ticket calls of
    [grpc.rs], configuration and start-up; of the SQLite store
    the migration of older files; of the command line, argument parsing,
    printing and the watch loop; of the MCP server the descriptions and schemas
    of its tools.  Tests, soak and benchmarks.  Errors carry their kind and text up to quoting and
    operating-system messages.  Interleavings inside one commit or one locked
    section are explored for the object store only: elsewhere a lock, or the
    store's atomic put, makes each one step. *)

From Stdlib Require Export Strings.Byte.
From stdpp Require Export sorting gmap sets fin_maps strings pretty numbers.
From stdpp Require Export base tactics option list.

(** ** Notations *)

Declare Scope gonzalo_scope.
Delimit Scope gonzalo_scope with gonzalo.

(** [Vec<u8>] and [&[u8]]. *)
Abbreviation bytes := (list Byte.byte).

#[export] Instance byte_eq_decision : EqDecision Byte.byte := Byte.byte_eq_dec.

(** ** Results and the state-and-error monad

    [result E A] is Rust's [Result<A, E>].  An [async fn] that reads and
    writes a store is a function of the world it runs in; the world survives
    an error, because the code stops at the first error and keeps every effect
    that already landed. *)

Inductive result (E A : Type) : Type :=
  | Ok (a : A)
  | Err (e : E).
Arguments Ok {E A} a.
Arguments Err {E A} e.

#[export] Instance result_eq_decision E A `{EqDecision E, EqDecision A} :
  EqDecision (result E A).
Proof. solve_decision. Defined.

#[export] Instance result_ret E : MRet (result E) := λ A a, Ok a.
#[export] Instance result_bind E : MBind (result E) := λ A B f m,
  match m with Ok a => f a | Err e => Err e end.
#[export] Instance result_fmap E : FMap (result E) := λ A B f m,
  match m with Ok a => Ok (f a) | Err e => Err e end.

Definition is_ok {E A} (r : result E A) : bool :=
  match r with Ok _ => true | Err _ => false end.

(** [Option::ok_or] and [Result::map_err]. *)
Definition ok_or {E A} (e : E) (o : option A) : result E A :=
  match o with Some a => Ok a | None => Err e end.

Definition map_err {E E' A} (f : E → E') (r : result E A) : result E' A :=
  match r with Ok a => Ok a | Err e => Err (f e) end.

Definition M (W E A : Type) : Type := W → result E A * W.

#[export] Instance M_ret W E : MRet (M W E) := λ A a w, (Ok a, w).
#[export] Instance M_bind W E : MBind (M W E) := λ A B f m w,
  match m w with
  | (Ok a, w') => f a w'
  | (Err e, w') => (Err e, w')
  end.

Definition throw {W E A} (e : E) : M W E A := λ w, (Err e, w).
(** [?] on a pure [Result]. *)
Definition lift {W E A} (r : result E A) : M W E A := λ w, (r, w).
(** [m.await] matched on its [Result] instead of propagated with [?]. *)
Definition try_with {W E A B} (m : M W E A) (k : result E A → M W E B) : M W E B :=
  λ w, let '(r, w') := m w in k r w'.

(** A [for] loop over a finite list with an accumulator. *)
Fixpoint foldM {W E A B} (f : B → A → M W E B) (acc : B) (l : list A) : M W E B :=
  match l with
  | [] => mret acc
  | x :: l' => acc' ← f acc x; foldM f acc' l'
  end.

Lemma foldM_nil {W E A B} (f : B → A → M W E B) acc : foldM f acc [] = mret acc.
Proof. reflexivity. Qed.

Lemma foldM_cons {W E A B} (f : B → A → M W E B) acc x l w :
  foldM f acc (x :: l) w =
    match f acc x w with
    | (Ok acc', w') => foldM f acc' l w'
    | (Err e, w') => (Err e, w')
    end.
Proof. reflexivity. Qed.

Lemma bind_ok {W E A B} (m : M W E A) (f : A → M W E B) w a w' :
  m w = (Ok a, w') → mbind f m w = f a w'.
Proof. intros H. unfold mbind, M_bind. by rewrite H. Qed.

Lemma bind_err {W E A B} (m : M W E A) (f : A → M W E B) w e w' :
  m w = (Err e, w') → mbind f m w = (Err e, w').
Proof. intros H. unfold mbind, M_bind. by rewrite H. Qed.

Lemma bind_inv_ok {W E A B} (m : M W E A) (f : A → M W E B) w b w' :
  mbind f m w = (Ok b, w') → ∃ a w1, m w = (Ok a, w1) ∧ f a w1 = (Ok b, w').
Proof. unfold mbind, M_bind. destruct (m w) as [[a|e] w1]; [by eauto|done]. Qed.

(** A loop whose every step succeeds succeeds, and an invariant every step
    keeps holds at the end. *)
Lemma foldM_inv {W E A B} (f : B → A → M W E B) (I : list A → B → W → Prop) l acc w :
  I [] acc w →
  (∀ done x todo acc w, l = done ++ x :: todo → I done acc w →
     ∃ acc' w', f acc x w = (Ok acc', w') ∧ I (done ++ [x]) acc' w') →
  ∃ acc' w', foldM f acc l w = (Ok acc', w') ∧ I l acc' w'.
Proof.
  intros H0 Hstep.
  assert (∀ todo done acc w, l = done ++ todo → I done acc w →
    ∃ acc' w', foldM f acc todo w = (Ok acc', w') ∧ I l acc' w') as Hgen.
  { induction todo as [|x todo IH]; intros done acc1 w1 Hl HI.
    - rewrite app_nil_r in Hl. subst. by eexists _, _.
    - destruct (Hstep done x todo acc1 w1 Hl HI) as (acc2 & w2 & Hf & HI2).
      rewrite foldM_cons, Hf. apply (IH (done ++ [x])); [|done].
      by rewrite <-app_assoc. }
  by apply (Hgen l []).
Qed.

(** ** Total orders

    Rust's [Ord] as a three-way comparison with its laws.  [#[derive(Ord)]]
    on a struct is the lexicographic comparison of its fields: a [cmp_via] of
    the tuple of fields. *)

Class Cmp (A : Type) := cmp : A → A → comparison.
#[export] Hint Mode Cmp ! : typeclass_instances.

Class CmpLaws (A : Type) `{Cmp A} := {
  cmp_eq_iff (x y : A) : cmp x y = Eq ↔ x = y;
  cmp_opp (x y : A) : cmp y x = CompOpp (cmp x y);
  cmp_lt_trans (x y z : A) : cmp x y = Lt → cmp y z = Lt → cmp x z = Lt
}.

#[export] Instance cmp_N : Cmp N := N.compare.
#[export] Instance cmp_Z : Cmp Z := Z.compare.
#[export] Instance cmp_nat : Cmp nat := Nat.compare.
#[export] Instance cmp_string : Cmp string := String.compare.
#[export] Instance cmp_prod A B `{Cmp A, Cmp B} : Cmp (A * B) := λ p q,
  match cmp p.1 q.1 with Eq => cmp p.2 q.2 | c => c end.
(** The comparison pulled back along a key function. *)
Definition cmp_via {A B} `{Cmp B} (f : A → B) : Cmp A := λ x y, cmp (f x) (f y).

#[export] Instance cmp_N_laws : CmpLaws N.
Proof.
  split; unfold cmp, cmp_N.
  - apply N.compare_eq_iff.
  - intros x y. apply N.compare_antisym.
  - intros x y z. rewrite !N.compare_lt_iff. lia.
Qed.

#[export] Instance cmp_Z_laws : CmpLaws Z.
Proof.
  split; unfold cmp, cmp_Z.
  - apply Z.compare_eq_iff.
  - intros x y. apply Z.compare_antisym.
  - intros x y z. rewrite !Z.compare_lt_iff. lia.
Qed.

#[export] Instance cmp_nat_laws : CmpLaws nat.
Proof.
  split; unfold cmp, cmp_nat.
  - apply Nat.compare_eq_iff.
  - intros x y. apply Nat.compare_antisym.
  - intros x y z. rewrite !Nat.compare_lt_iff. lia.
Qed.

Lemma ascii_compare_lt_trans (a b c : Ascii.ascii) :
  Ascii.compare a b = Lt → Ascii.compare b c = Lt → Ascii.compare a c = Lt.
Proof. unfold Ascii.compare. rewrite !N.compare_lt_iff. lia. Qed.

Lemma ascii_compare_refl (a : Ascii.ascii) : Ascii.compare a a = Eq.
Proof. apply N.compare_refl. Qed.

Lemma string_compare_refl (s : string) : String.compare s s = Eq.
Proof. induction s as [|a s IH]; simpl; [done|]. by rewrite ascii_compare_refl. Qed.

Lemma string_compare_lt_trans (x y z : string) :
  String.compare x y = Lt → String.compare y z = Lt → String.compare x z = Lt.
Proof.
  revert y z. induction x as [|a x IH]; intros [|b y] [|c z]; simpl; try done.
  destruct (Ascii.compare a b) eqn:Hab; try done.
  - apply Ascii.compare_eq_iff in Hab. subst b.
    destruct (Ascii.compare a c) eqn:Hac; try done. by apply IH.
  - destruct (Ascii.compare b c) eqn:Hbc; try done.
    + apply Ascii.compare_eq_iff in Hbc. subst c. by rewrite Hab.
    + by rewrite (ascii_compare_lt_trans a b c).
Qed.

#[export] Instance cmp_string_laws : CmpLaws string.
Proof.
  split; unfold cmp, cmp_string.
  - intros x y. split; [apply String.compare_eq_iff | intros ->].
    apply string_compare_refl.
  - intros x y. apply String.compare_antisym.
  - apply string_compare_lt_trans.
Qed.

#[export] Instance cmp_prod_laws A B `{CmpLaws A, CmpLaws B} : CmpLaws (A * B).
Proof.
  split; unfold cmp, cmp_prod.
  - intros [a b] [a' b']. simpl. destruct (cmp a a') eqn:Ha.
    + apply cmp_eq_iff in Ha. rewrite cmp_eq_iff. naive_solver.
    + split; [done|]. intros [= -> ->].
      by rewrite (proj2 (cmp_eq_iff a' a') eq_refl) in Ha.
    + split; [done|]. intros [= -> ->].
      by rewrite (proj2 (cmp_eq_iff a' a') eq_refl) in Ha.
  - intros [a b] [a' b']. simpl. rewrite (cmp_opp a a'), (cmp_opp b b').
    by destruct (cmp a a'), (cmp b b').
  - intros [a b] [a' b'] [a'' b'']. simpl.
    destruct (cmp a a') eqn:Ha; try done.
    + apply cmp_eq_iff in Ha. subst a'. destruct (cmp a a''); try done.
      apply cmp_lt_trans.
    + destruct (cmp a' a'') eqn:Ha'; try done.
      * apply cmp_eq_iff in Ha'. subst a''. by rewrite Ha.
      * by rewrite (cmp_lt_trans _ _ _ Ha Ha').
Qed.

Lemma cmp_via_laws {A B} `{CmpLaws B} (f : A → B) :
  Inj (=) (=) f → @CmpLaws A (cmp_via f).
Proof.
  intros Hf. split; unfold cmp, cmp_via; fold (@cmp B _).
  - intros x y. rewrite cmp_eq_iff. split; [apply Hf | by intros ->].
  - intros x y. apply cmp_opp.
  - intros x y z. apply cmp_lt_trans.
Qed.

(** [a <= b] in the order. *)
Definition ole {A} `{Cmp A} : relation A := λ x y, cmp x y ≠ Gt.
(** [a < b] in the order. *)
Definition olt {A} `{Cmp A} : relation A := λ x y, cmp x y = Lt.

#[export] Instance ole_dec {A} `{Cmp A} : RelDecision (ole (A:=A)) :=
  λ x y, not_dec (comparison_eq_dec (cmp x y) Gt).

#[export] Instance olt_dec {A} `{Cmp A} : RelDecision (olt (A:=A)) :=
  λ x y, comparison_eq_dec (cmp x y) Lt.

Section order.
Context `{CmpLaws A}.
Implicit Types x y z : A.

Lemma cmp_refl x : cmp x x = Eq.
Proof. by apply cmp_eq_iff. Qed.

Lemma ole_olt_eq x y : ole x y ↔ olt x y ∨ x = y.
Proof.
  unfold ole, olt. rewrite <-(cmp_eq_iff x y). destruct (cmp x y); intuition congruence.
Qed.

Lemma not_ole x y : ¬ ole x y ↔ olt y x.
Proof.
  unfold ole, olt. rewrite (cmp_opp x y). destruct (cmp x y); simpl; naive_solver.
Qed.

Lemma olt_irrefl x : ¬ olt x x.
Proof. unfold olt. by rewrite cmp_refl. Qed.

#[export] Instance ole_preorder : PreOrder (ole (A:=A)).
Proof.
  split.
  - intros x. apply ole_olt_eq. by right.
  - intros x y z. rewrite !ole_olt_eq. unfold olt.
    intros [Hxy|<-] [Hyz|<-]; [left; by eapply cmp_lt_trans | by left..|by right].
Qed.

#[export] Instance ole_antisymm : AntiSymm (=) (ole (A:=A)).
Proof.
  intros x y. rewrite (ole_olt_eq x y). intros [Hlt|?]; [|done].
  intros Hge. exfalso. apply not_ole in Hlt. done.
Qed.

#[export] Instance ole_total : Total (ole (A:=A)).
Proof.
  intros x y. destruct (decide (ole x y)) as [|Hn]; [by left|right].
  apply not_ole in Hn. apply ole_olt_eq. by left.
Qed.

#[export] Instance olt_transitive : Transitive (olt (A:=A)).
Proof. intros x y z. apply cmp_lt_trans. Qed.
End order.

(** *** Sorting and deduplication

    [v.sort(); v.dedup()]: [merge_sort] agrees with the standard library's
    stable sort because the orders are total.  [dedup] drops every element
    equal to the one before it. *)

Definition sort {A} `{Cmp A} (l : list A) : list A := merge_sort ole l.

Fixpoint dedup {A} `{EqDecision A} (l : list A) : list A :=
  match l with
  | x :: ((y :: _) as l') => if decide (x = y) then dedup l' else x :: dedup l'
  | _ => l
  end.

(** A strictly increasing list. *)
Definition increasing {A} `{Cmp A} (l : list A) : Prop := StronglySorted olt l.

Lemma string_app_assoc (x y z : string) : (x +:+ y) +:+ z = x +:+ (y +:+ z).
Proof. induction x as [|c x IH]; [done|]. change (String c ((x +:+ y) +:+ z) = String c (x +:+ (y +:+ z))). by rewrite IH. Qed.

Lemma string_app_nil_r (x : string) : x +:+ "" = x.
Proof. induction x as [|c x IH]; [done|]. exact (f_equal (String c) IH). Qed.

Lemma string_length_app (x y : string) :
  String.length (x +:+ y) = String.length x + String.length y.
Proof. induction x as [|c x IH]; [done|]. exact (f_equal S IH). Qed.

(** An element of a list is known by an attribute no two of them share. *)
Lemma NoDup_fmap_inj {A B} (f : A → B) (l : list A) x y :
  NoDup (f <$> l) → x ∈ l → y ∈ l → f x = f y → x = y.
Proof.
  induction l as [|z l IH]; [by intros _ ?%elem_of_nil|]. rewrite fmap_cons, NoDup_cons.
  intros [Hz Hnd] [->|Hx]%elem_of_cons [->|Hy]%elem_of_cons Heq; auto.
  - exfalso. apply Hz. rewrite Heq. by apply list_elem_of_fmap_2.
  - exfalso. apply Hz. rewrite <-Heq. by apply list_elem_of_fmap_2.
Qed.

Section sorting.
Context `{CmpLaws A} `{EqDecision A}.
Implicit Types l : list A.

Lemma sort_permutation l : sort l ≡ₚ l.
Proof. apply merge_sort_Permutation. Qed.

Lemma sort_sorted l : StronglySorted ole (sort l).
Proof. apply (StronglySorted_merge_sort _). Qed.

Lemma elem_of_sort x l : x ∈ sort l ↔ x ∈ l.
Proof. by rewrite sort_permutation. Qed.

Lemma NoDup_sort l : NoDup (sort l) ↔ NoDup l.
Proof. by rewrite sort_permutation. Qed.

(** Sorting forgets the input order. *)
Lemma sort_proper l1 l2 : l1 ≡ₚ l2 → sort l1 = sort l2.
Proof.
  intros Hp. apply (StronglySorted_unique ole).
  - apply sort_sorted.
  - apply sort_sorted.
  - by rewrite !sort_permutation.
Qed.

Lemma increasing_sort l : NoDup l → increasing (sort l).
Proof.
  intros Hnd. apply NoDup_sort in Hnd. revert Hnd.
  generalize (sort_sorted l). generalize (sort l). clear l.
  induction 1 as [|x l Hs IH Hx]; intros Hnd; [constructor|].
  apply NoDup_cons in Hnd as [Hnin Hnd]. constructor; [by apply IH|].
  rewrite Forall_forall in Hx |- *. intros y Hy.
  destruct (proj1 (ole_olt_eq x y) (Hx y Hy)) as [|<-]; done.
Qed.

Lemma increasing_NoDup l : increasing l → NoDup l.
Proof.
  induction 1 as [|x l Hs IH Hx]; constructor; [|done].
  rewrite Forall_forall in Hx. intros Hin. by apply Hx, olt_irrefl in Hin.
Qed.

Lemma increasing_sorted l : increasing l → StronglySorted ole l.
Proof.
  induction 1 as [|x l Hs IH Hx]; constructor; [done|].
  eapply Forall_impl; [done|]. intros y Hy. apply ole_olt_eq. by left.
Qed.

Lemma increasing_sort_id l : increasing l → sort l = l.
Proof.
  intros Hi. apply (StronglySorted_unique ole).
  - apply sort_sorted.
  - by apply increasing_sorted.
  - apply sort_permutation.
Qed.

(** Two increasing lists with the same elements are the same list. *)
Lemma increasing_unique l1 l2 :
  increasing l1 → increasing l2 → (∀ x, x ∈ l1 ↔ x ∈ l2) → l1 = l2.
Proof.
  intros H1 H2 Heq. apply (StronglySorted_unique ole).
  - by apply increasing_sorted.
  - by apply increasing_sorted.
  - apply NoDup_Permutation; [by apply increasing_NoDup..|done].
Qed.

Lemma dedup_cons x y l :
  dedup (x :: y :: l) = if decide (x = y) then dedup (y :: l) else x :: dedup (y :: l).
Proof. reflexivity. Qed.

Lemma elem_of_dedup x l : x ∈ dedup l ↔ x ∈ l.
Proof.
  induction l as [|y [|z l] IH]; [done..|]. rewrite dedup_cons.
  destruct (decide (y = z)) as [->|]; rewrite ?elem_of_cons, ?IH, ?elem_of_cons;
    intuition.
Qed.

Lemma dedup_increasing l : StronglySorted ole l → increasing (dedup l).
Proof.
  induction 1 as [|y [|z l] Hs IH Hy]; [constructor|repeat constructor|].
  rewrite dedup_cons. destruct (decide (y = z)) as [->|Hne]; [done|].
  constructor; [done|]. rewrite Forall_forall. intros x Hx.
  rewrite elem_of_dedup in Hx. rewrite Forall_forall in Hy.
  assert (olt y z) as Hyz.
  { destruct (proj1 (ole_olt_eq y z)) as [|]; [apply Hy; set_solver|done..]. }
  apply elem_of_cons in Hx as [->|Hx]; [done|].
  apply StronglySorted_inv in Hs as [_ Hz]. rewrite Forall_forall in Hz.
  destruct (proj1 (ole_olt_eq z x) (Hz x Hx)) as [|<-]; [by etrans|done].
Qed.

Lemma dedup_NoDup_id l : NoDup l → dedup l = l.
Proof.
  induction l as [|y [|z l] IH]; intros Hnd; [done..|]. rewrite dedup_cons.
  apply NoDup_cons in Hnd as [Hy Hnd]. destruct (decide (y = z)) as [->|].
  - exfalso. apply Hy. set_solver.
  - by rewrite IH.
Qed.

(** [sort] then [dedup] depends only on which elements are present. *)
Lemma dedup_sort_ext l1 l2 :
  (∀ x, x ∈ l1 ↔ x ∈ l2) → dedup (sort l1) = dedup (sort l2).
Proof.
  intros Heq. apply increasing_unique.
  - apply dedup_increasing, sort_sorted.
  - apply dedup_increasing, sort_sorted.
  - intros x. by rewrite !elem_of_dedup, !elem_of_sort.
Qed.

Lemma StronglySorted_filter (R : relation A) (P : A → Prop)
    `{!∀ x, Decision (P x)} l :
  StronglySorted R l → StronglySorted R (filter P l).
Proof.
  induction 1 as [|x l Hs IH Hx]; [constructor|].
  rewrite filter_cons. case_decide; [|done]. constructor; [done|].
  rewrite Forall_forall in Hx |- *. intros y Hy%list_elem_of_filter. naive_solver.
Qed.

Lemma StronglySorted_take (R : relation A) n l :
  StronglySorted R l → StronglySorted R (take n l).
Proof.
  intros Hs. rewrite <-(take_drop n l) in Hs.
  by apply StronglySorted_app_1_l in Hs.
Qed.

Lemma elem_of_take_1 (x : A) n l : x ∈ take n l → x ∈ l.
Proof. rewrite <-(take_drop n l) at 2. set_solver. Qed.

Lemma elem_of_drop_nonempty (x : A) n l : x ∈ drop n l → n < length l.
Proof.
  intros (l1 & l2 & Hs)%list_elem_of_split. apply (f_equal length) in Hs.
  rewrite length_drop, length_app in Hs. simpl in Hs. lia.
Qed.

Lemma StronglySorted_take_drop (R : relation A) n l x y :
  StronglySorted R l → x ∈ take n l → y ∈ drop n l → R x y.
Proof.
  intros Hs. rewrite <-(take_drop n l) in Hs. by apply StronglySorted_app_1_elem_of.
Qed.

Lemma length_dedup l : length (dedup l) ≤ length l.
Proof.
  induction l as [|y [|z l] IH]; [simpl; lia..|]. rewrite dedup_cons.
  case_decide; simpl in *; lia.
Qed.

Lemma length_sort l : length (sort l) = length l.
Proof. by rewrite sort_permutation. Qed.
End sorting.

Lemma list_filter_id {A} (P : A → Prop) `{!∀ x, Decision (P x)} (l : list A) :
  (∀ x, x ∈ l → P x) → filter P l = l.
Proof.
  induction l as [|x l IH]; intros HP; [done|].
  rewrite filter_cons, decide_True by (apply HP; set_solver).
  f_equal. apply IH. set_solver.
Qed.

(** *** Ordered maps and sets

    A [BTreeMap] is a [gmap] whose iteration order is the key order; a
    [BTreeSet] is a [gset] whose iteration order is the element order. *)

Section btree.
Context `{Countable K} `{!Cmp K, !CmpLaws K}.

Definition btree_keys {V} (m : gmap K V) : list K := sort (fst <$> map_to_list m).

Definition btree_items {V} (m : gmap K V) : list (K * V) :=
  omap (λ k, (k,.) <$> m !! k) (btree_keys m).

Definition btree_values {V} (m : gmap K V) : list V := snd <$> btree_items m.

Definition btree_elements (s : gset K) : list K := sort (elements s).

Lemma elem_of_btree_keys {V} (m : gmap K V) k : k ∈ btree_keys m ↔ is_Some (m !! k).
Proof.
  unfold btree_keys. rewrite elem_of_sort, list_elem_of_fmap. split.
  - intros ([k' v] & -> & Hin%elem_of_map_to_list). by exists v.
  - intros [v Hv]. exists (k, v). by rewrite elem_of_map_to_list.
Qed.

Lemma btree_keys_increasing {V} (m : gmap K V) : increasing (btree_keys m).
Proof. apply increasing_sort. apply NoDup_fst_map_to_list. Qed.

Lemma elem_of_btree_items {V} (m : gmap K V) k v :
  (k, v) ∈ btree_items m ↔ m !! k = Some v.
Proof.
  unfold btree_items. rewrite list_elem_of_omap. split.
  - intros (k' & _ & Heq). destruct (m !! k') eqn:Hk; simplify_eq/=. congruence.
  - intros Hv. exists k. rewrite elem_of_btree_keys, Hv. by eauto.
Qed.

Lemma fst_btree_items {V} (m : gmap K V) : (btree_items m).*1 = btree_keys m.
Proof.
  unfold btree_items.
  assert (Forall (λ k, is_Some (m !! k)) (btree_keys m)) as Hk
    by (by apply Forall_forall; intros; apply elem_of_btree_keys).
  induction Hk as [|k l [v Hv] Hl IH]; simpl; [done|]. rewrite Hv. simpl. f_equal. exact IH.
Qed.

Lemma elem_of_btree_values {V} (m : gmap K V) v :
  v ∈ btree_values m ↔ ∃ k, m !! k = Some v.
Proof.
  unfold btree_values. rewrite list_elem_of_fmap. split.
  - intros ([k v'] & -> & Hin%elem_of_btree_items). by exists k.
  - intros [k Hk%elem_of_btree_items]. by exists (k, v).
Qed.

Lemma elem_of_btree_elements (s : gset K) k : k ∈ btree_elements s ↔ k ∈ s.
Proof. unfold btree_elements. by rewrite elem_of_sort, elem_of_elements. Qed.

Lemma btree_elements_increasing (s : gset K) : increasing (btree_elements s).
Proof. apply increasing_sort, NoDup_elements. Qed.
End btree.

Lemma increasing_fst_filter {K V} `{Countable K, !Cmp K, !CmpLaws K} (m : gmap K V) (P : K * V → Prop)
    `{!∀ p, Decision (P p)} : increasing (filter P (btree_items m)).*1.
Proof.
  pose proof (btree_keys_increasing m) as Hi. rewrite <-fst_btree_items in Hi.
  induction (btree_items m) as [|[k v] l IH]; [constructor|].
  simpl in Hi. apply StronglySorted_inv in Hi as [Hi Hk].
  rewrite filter_cons. case_decide; [|by apply IH]. simpl. constructor; [by apply IH|].
  apply Forall_forall. intros x ([k' v'] & -> & [_ Hin]%list_elem_of_filter)%list_elem_of_fmap.
  rewrite Forall_forall in Hk. apply Hk. by apply (list_elem_of_fmap_2 fst _ (k', v')).
Qed.

Lemma elem_of_fst_filter {K V} `{Countable K, !Cmp K, !CmpLaws K} (m : gmap K V) (P : K * V → Prop)
    `{!∀ p, Decision (P p)} k :
  k ∈ (filter P (btree_items m)).*1 ↔ ∃ v, m !! k = Some v ∧ P (k, v).
Proof.
  rewrite list_elem_of_fmap. split.
  - intros ([k' v] & -> & [HP Hin%elem_of_btree_items]%list_elem_of_filter). by exists v.
  - intros (v & Hv & HP). exists (k, v). split; [done|].
    apply list_elem_of_filter. by rewrite elem_of_btree_items.
Qed.

(** ** Fixed-width integers *)

Definition u64_max : N := 2 ^ 64 - 1.
Definition i64_min : Z := - 2 ^ 63.
Definition i64_max : Z := 2 ^ 63 - 1.

(** [c + 1] on [u64]: the release build wraps. *)
Definition u64_succ (c : N) : N := (c + 1) `mod` 2 ^ 64.

Lemma u64_succ_small c : (c < u64_max)%N → u64_succ c = (c + 1)%N.
Proof. unfold u64_succ, u64_max. intros Hc. apply N.mod_small. lia. Qed.

(** ** Automation *)

Create HintDb gonzalo.
Create Rewrite HintDb gonzalo.
#[export] Hint Resolve sort_permutation sort_sorted btree_keys_increasing
  btree_elements_increasing : gonzalo.
#[export] Hint Resolve -> elem_of_btree_keys elem_of_btree_items : gonzalo.
#[export] Hint Rewrite @elem_of_sort @elem_of_dedup @elem_of_btree_keys
  @elem_of_btree_elements : gonzalo.

(** Case split on every [match], [if] and decision in sight, discarding the
    impossible branches. *)
Ltac crush_match := repeat (case_match || case_decide); simplify_eq/=.

(** ** Batches and tasks *)

(** [slice::chunks]. *)
Fixpoint chunks_fuel {A} (fuel n : nat) (l : list A) : list (list A) :=
  match fuel, l with
  | S f, _ :: _ => take n l :: chunks_fuel f n (drop n l)
  | _, _ => []
  end.
Definition chunks {A} (n : nat) (l : list A) : list (list A) := chunks_fuel (length l) n l.

(** The order in which the tasks of a [JoinSet] finish. *)
Class JoinOrder := {
  join_order {A} : list A → list A;
  join_order_perm {A} (l : list A) : join_order l ≡ₚ l
}.

Lemma concat_chunks {A} n (l : list A) : n ≠ 0 → concat (chunks n l) = l.
Proof.
  intros Hn. unfold chunks. assert (length l ≤ length l) as Hf by done. revert Hf.
  generalize (length l) at 2 3 as fuel. intros fuel. revert l.
  induction fuel as [|fuel IH]; intros [|x l] Hf; simpl in *; [done|lia|done|].
  destruct n as [|n]; [done|]. simpl. rewrite IH; [by rewrite take_drop|].
  rewrite length_drop. lia.
Qed.
