(* ===== verification/Records.v ===== *)
(** * Records: keys, revisions, bodies and the universal persisted unit

    Models [gonzalo-core]'s [identity.rs], [key.rs], [revision.rs],
    [record.rs], [error.rs] and the clock helper of [tombstone.rs].  A Rust
    [String] is a [string] read as its UTF-8 bytes; a [u64] is an [N], an
    [i64] a [Z].  blake3 is not in the repository: [Blake3] is the class of
    functions that can play it. *)

From S2P Require Export Prelude.

(** ** Keys *)

Record Identity := mkIdentity {
  id_id : string;
  id_display : option string
}.

Definition Identity_new (id : string) : Identity := mkIdentity id None.

Record RecordKey := mkKey {
  key_namespace : string;
  key_collection : string;
  key_id : string
}.

(** [impl Display for RecordKey]. *)
Definition key_to_string (k : RecordKey) : string :=
  key_namespace k +:+ "/" +:+ key_collection k +:+ "/" +:+ key_id k.

Record KeyPrefix := mkPrefix {
  prefix_namespace : option string;
  prefix_collection : option string
}.

Definition KeyPrefix_default : KeyPrefix := mkPrefix None None.

(** [Option::is_none_or]. *)
Definition is_none_or {A} (o : option A) (f : A → bool) : bool :=
  match o with None => true | Some x => f x end.

Definition prefix_matches (p : KeyPrefix) (k : RecordKey) : bool :=
  is_none_or (prefix_namespace p) (λ n, bool_decide (n = key_namespace k))
  && is_none_or (prefix_collection p) (λ c, bool_decide (c = key_collection k)).

#[export] Instance Identity_eq_dec : EqDecision Identity.
Proof. solve_decision. Defined.
#[export] Instance RecordKey_eq_dec : EqDecision RecordKey.
Proof. solve_decision. Defined.
#[export] Instance KeyPrefix_eq_dec : EqDecision KeyPrefix.
Proof. solve_decision. Defined.

Definition key_tuple (k : RecordKey) : string * string * string :=
  (key_namespace k, key_collection k, key_id k).

#[export] Instance key_tuple_inj : Inj (=) (=) key_tuple.
Proof. intros [???] [???]. unfold key_tuple. naive_solver. Qed.

#[export] Instance RecordKey_countable : Countable RecordKey :=
  inj_countable' key_tuple (λ '(n, c, i), mkKey n c i) ltac:(by intros []).

(** [#[derive(PartialOrd, Ord)]]: field by field. *)
#[export] Instance RecordKey_cmp : Cmp RecordKey := cmp_via key_tuple.
#[export] Instance RecordKey_cmp_laws : CmpLaws RecordKey := cmp_via_laws key_tuple _.

(** ** Content hashes and revisions *)

Record ContentHash := mkHash { hash_hex : string }.

#[export] Instance ContentHash_eq_dec : EqDecision ContentHash.
Proof. solve_decision. Defined.
#[export] Instance hash_hex_inj : Inj (=) (=) hash_hex.
Proof. intros [] []. naive_solver. Qed.
#[export] Instance ContentHash_countable : Countable ContentHash :=
  inj_countable' hash_hex mkHash ltac:(by intros []).
#[export] Instance ContentHash_cmp : Cmp ContentHash := cmp_via hash_hex.
#[export] Instance ContentHash_cmp_laws : CmpLaws ContentHash := cmp_via_laws hash_hex _.

(** [blake3::hash(bytes).to_hex()], from the [blake3] crate. *)
Class Blake3 := blake3_hex : bytes → string.

Definition bytes_of_string (s : string) : bytes := String.list_byte_of_string s.
Definition string_of_bytes (b : bytes) : string := String.string_of_list_byte b.

Lemma string_of_bytes_of_string s : string_of_bytes (bytes_of_string s) = s.
Proof. apply String.string_of_list_byte_of_string. Qed.

Lemma bytes_of_string_of_bytes b : bytes_of_string (string_of_bytes b) = b.
Proof. apply String.list_byte_of_string_of_list_byte. Qed.

Section revisions.
Context `{Blake3}.

Definition ContentHash_of (b : bytes) : ContentHash := mkHash (blake3_hex b).

Record Revision := mkRevision {
  rev_counter : N;
  rev_hash : ContentHash
}.

Definition Revision_initial (body : bytes) : Revision :=
  mkRevision 0 (ContentHash_of body).

Definition Revision_next (r : Revision) (body : bytes) : Revision :=
  mkRevision (u64_succ (rev_counter r)) (ContentHash_of body).
End revisions.

#[export] Instance Revision_eq_dec : EqDecision Revision.
Proof. solve_decision. Defined.

Definition rev_pair (r : Revision) : N * ContentHash := (rev_counter r, rev_hash r).
#[export] Instance rev_pair_inj : Inj (=) (=) rev_pair.
Proof. intros [] []. unfold rev_pair. naive_solver. Qed.
#[export] Instance Revision_countable : Countable Revision :=
  inj_countable' rev_pair (λ '(c, h), mkRevision c h) ltac:(by intros []).

(** ** Kinds, bodies and records *)

Inductive RecordKind :=
  | MemoryTier | Topic | Session | Checkpoint | Ticket | TicketEvent
  | GraphManifest | VectorManifest | Person | IdentityBinding | RoleGrant
  | ChannelConfig | LinkToken | AuditEntry | Tombstone.

#[export] Instance RecordKind_eq_dec : EqDecision RecordKind.
Proof. solve_decision. Defined.

Inductive MergeClass := AppendOnly | Structured | Opaque | Derived.

#[export] Instance MergeClass_eq_dec : EqDecision MergeClass.
Proof. solve_decision. Defined.

Definition merge_class (k : RecordKind) : MergeClass :=
  match k with
  | Topic | Session | TicketEvent => AppendOnly
  | MemoryTier | Ticket | Person | IdentityBinding | RoleGrant | ChannelConfig =>
      Structured
  | Checkpoint => Opaque
  | LinkToken | AuditEntry => Opaque
  | GraphManifest => Derived
  | VectorManifest => Opaque
  | Tombstone => Opaque
  end.

Inductive Body :=
  | Inline (b : bytes)
  | Blob (hash : ContentHash) (len : N).

#[export] Instance Body_eq_dec : EqDecision Body.
Proof. solve_decision. Defined.

Definition Body_blob `{Blake3} (content : bytes) : Body :=
  Blob (ContentHash_of content) (N.of_nat (length content)).

Definition body_bytes (b : Body) : bytes :=
  match b with
  | Inline b => b
  | Blob hash _ => bytes_of_string (hash_hex hash)
  end.

Record Meta := mkMeta {
  meta_author : Identity;
  meta_origin_system : string;
  meta_created : Z;
  meta_updated : Z;
  meta_labels : gmap string string
}.

#[export] Instance Meta_eq_dec : EqDecision Meta.
Proof. solve_decision. Defined.

Definition Meta_new (author : Identity) (origin_system : string) : Meta :=
  mkMeta author origin_system 0 0 ∅.

(** [meta.author = author.clone()]. *)
Definition set_author (m : Meta) (a : Identity) : Meta :=
  mkMeta a (meta_origin_system m) (meta_created m) (meta_updated m) (meta_labels m).
(** [meta.created = ..; meta.updated = ..]. *)
Definition set_times (m : Meta) (created updated : Z) : Meta :=
  mkMeta (meta_author m) (meta_origin_system m) created updated (meta_labels m).

Record record := mkRecord {
  rec_key : RecordKey;
  rec_kind : RecordKind;
  rec_revision : Revision;
  rec_parent : option Revision;
  rec_body : Body;
  rec_meta : Meta;
  rec_links : list RecordKey;
  rec_ancestors : list Revision;
  rec_deleted_at : option Z;
  rec_deleted_blob : option ContentHash;
  rec_deleted_kind : option RecordKind
}.

#[export] Instance record_eq_dec : EqDecision record.
Proof. solve_decision. Defined.

Definition Record_create `{Blake3} (key : RecordKey) (kind : RecordKind)
    (body : Body) (meta : Meta) : record :=
  mkRecord key kind (Revision_initial (body_bytes body)) None body meta [] []
    None None None.

Definition Record_update `{Blake3} (r : record) (body : Body) (meta : Meta) : record :=
  mkRecord (rec_key r) (rec_kind r)
    (Revision_next (rec_revision r) (body_bytes body)) (Some (rec_revision r))
    body meta (rec_links r) [] None None None.

Definition is_tombstone (r : record) : bool := bool_decide (rec_kind r = Tombstone).

(** [record.ancestors = ..], [record.meta = ..] and [record.revision = ..]. *)
Definition set_ancestors (r : record) (a : list Revision) : record :=
  mkRecord (rec_key r) (rec_kind r) (rec_revision r) (rec_parent r) (rec_body r)
    (rec_meta r) (rec_links r) a (rec_deleted_at r) (rec_deleted_blob r)
    (rec_deleted_kind r).
Definition set_meta (r : record) (m : Meta) : record :=
  mkRecord (rec_key r) (rec_kind r) (rec_revision r) (rec_parent r) (rec_body r)
    m (rec_links r) (rec_ancestors r) (rec_deleted_at r) (rec_deleted_blob r)
    (rec_deleted_kind r).
Definition set_revision (r : record) (v : Revision) : record :=
  mkRecord (rec_key r) (rec_kind r) v (rec_parent r) (rec_body r)
    (rec_meta r) (rec_links r) (rec_ancestors r) (rec_deleted_at r)
    (rec_deleted_blob r) (rec_deleted_kind r).

(** ** Errors *)

Inductive CoreError :=
  | NotFound (key : RecordKey)
  | Serde (msg : string)
  | Invalid (msg : string)
  | Backend (msg : string).

#[export] Instance CoreError_eq_dec : EqDecision CoreError.
Proof. solve_decision. Defined.

Abbreviation Result := (result CoreError).

(** ** Time

    [std::time::SystemTime] is a number of nanoseconds relative to the Unix
    epoch and [Duration] a number of nanoseconds. *)

Abbreviation SystemTime := Z.
Abbreviation Duration := N.

Definition nanos_per_milli : N := 1000000.
Definition as_millis (d : Duration) : N := d / nanos_per_milli.
Definition from_millis (n : N) : Duration := n * nanos_per_milli.
Definition from_secs (n : N) : Duration := n * 1000000000.

(** [t.duration_since(UNIX_EPOCH)]: the distance, tagged by its side. *)
Definition duration_since_epoch (t : SystemTime) : result Duration Duration :=
  if decide (0 ≤ t)%Z then Ok (Z.to_N t) else Err (Z.to_N (- t)).

(** [i64::try_from(n).unwrap_or(i64::MAX)] for an unsigned [n]. *)
Definition i64_saturate (n : N) : Z := Z.min (Z.of_N n) i64_max.

Definition now_ms (t : SystemTime) : Z :=
  match duration_since_epoch t with
  | Ok d => i64_saturate (as_millis d)
  | Err _ => i64_max
  end.

(** ** First facts *)

Lemma prefix_default_matches k : prefix_matches KeyPrefix_default k = true.
Proof. reflexivity. Qed.

Lemma prefix_matches_spec p k :
  prefix_matches p k = true ↔
    (∀ n, prefix_namespace p = Some n → n = key_namespace k) ∧
    (∀ c, prefix_collection p = Some c → c = key_collection k).
Proof.
  destruct p as [[n|] [c|]]; unfold prefix_matches; simpl;
    rewrite ?andb_true_iff, ?bool_decide_eq_true; naive_solver.
Qed.

Lemma is_tombstone_true r : is_tombstone r = true ↔ rec_kind r = Tombstone.
Proof. apply bool_decide_eq_true. Qed.

Lemma is_tombstone_false r : is_tombstone r = false ↔ rec_kind r ≠ Tombstone.
Proof. apply bool_decide_eq_false. Qed.

Lemma now_ms_bounds t : (0 ≤ now_ms t ≤ i64_max)%Z.
Proof.
  unfold now_ms, duration_since_epoch, i64_saturate, i64_max.
  case_decide; lia.
Qed.
