(* ===== verification/Samples.v ===== *)
(** * Samples: concrete inputs the theorems are instantiated at

    A hash function, keys, records and clocks small enough to evaluate.
    Nothing here models code; the witnesses of the later files use it. *)

From S2P Require Export Records.

(** The identity is a (collision-free) content hash. *)
Definition sample_hash : Blake3 := string_of_bytes.

Definition sample_key : RecordKey := mkKey "ns" "col" "id".
Definition sample_key2 : RecordKey := mkKey "ns" "col" "id2".
Definition sample_body (s : string) : Body := Inline (bytes_of_string s).
Definition sample_meta : Meta := mkMeta (Identity_new "alice") "test" 5 7 ∅.

Definition sample_rev (n : N) (s : string) : Revision :=
  mkRevision n (mkHash s).

(** A live [Topic] with a given counter, body and history. *)
Definition sample_record (k : RecordKey) (n : N) (s : string) (anc : list Revision) :
    record :=
  mkRecord k Topic (sample_rev n s) None (sample_body s) sample_meta [] anc
    None None None.

(** ** Any countable type as bytes

    A stand-in for the serde formats of the witnesses: the bits of stdpp's
    [encode]. *)

Fixpoint bits (p : positive) : bytes :=
  match p with
  | xH => []
  | xO p => Byte.x00 :: bits p
  | xI p => Byte.x01 :: bits p
  end.

Fixpoint of_bits (b : bytes) : positive :=
  match b with
  | [] => xH
  | Byte.x00 :: b => xO (of_bits b)
  | _ :: b => xI (of_bits b)
  end.

Lemma of_bits_bits p : of_bits (bits p) = p.
Proof. induction p; simpl; congruence. Qed.

Definition to_bits {A} `{Countable A} (x : A) : bytes := bits (encode x).
Definition from_bits {A} `{Countable A} (b : bytes) : option A := decode (of_bits b).

Lemma from_bits_to_bits {A} `{Countable A} (x : A) : from_bits (to_bits x) = Some x.
Proof. unfold from_bits, to_bits. rewrite of_bits_bits. apply decode_encode. Qed.

(** *** Records *)

#[export] Instance byte_countable : Countable Byte.byte :=
  inj_countable Byte.to_N Byte.of_N Byte.of_to_N.

#[export] Instance RecordKind_countable : Countable RecordKind.
Proof.
  refine (inj_countable' (λ k, match k with
      | MemoryTier => 0 | Topic => 1 | Session => 2 | Checkpoint => 3 | Ticket => 4
      | TicketEvent => 5 | GraphManifest => 6 | VectorManifest => 7 | Person => 8
      | IdentityBinding => 9 | RoleGrant => 10 | ChannelConfig => 11 | LinkToken => 12
      | AuditEntry => 13 | Tombstone => 14
      end) (λ n, nth n [MemoryTier; Topic; Session; Checkpoint; Ticket; TicketEvent;
        GraphManifest; VectorManifest; Person; IdentityBinding; RoleGrant; ChannelConfig;
        LinkToken; AuditEntry; Tombstone] Tombstone) _).
  by intros [].
Defined.

#[export] Instance Body_countable : Countable Body :=
  inj_countable'
    (λ b, match b with Inline b => inl b | Blob h n => inr (h, n) end)
    (λ s, match s with inl b => Inline b | inr (h, n) => Blob h n end) ltac:(by intros []).

#[export] Instance Meta_countable : Countable Meta :=
  inj_countable'
    (λ m, (id_id (meta_author m), id_display (meta_author m), meta_origin_system m,
           meta_created m, meta_updated m, meta_labels m))
    (λ '(i, d, o, c, u, l), mkMeta (mkIdentity i d) o c u l) ltac:(by intros [[]]).

#[export] Instance record_countable : Countable record :=
  inj_countable'
    (λ r, ((rec_key r, rec_kind r, rec_revision r, rec_parent r, rec_body r, rec_meta r),
           (rec_links r, rec_ancestors r, rec_deleted_at r, rec_deleted_blob r,
            rec_deleted_kind r)))
    (λ '((k, kd, v, p, b, m), (l, a, da, db, dk)), mkRecord k kd v p b m l a da db dk)
    ltac:(by intros []).
