(* ===== verification/Paths.v ===== *)
(** * Paths: the reversible encoding of key components

    Models [gonzalo-core]'s [paths.rs]: [segment] escapes every byte outside
    [[A-Za-z0-9_-]] as [%XX], [decode_segment] is its inverse, and
    [object_key] joins the three encoded components.  The theorems are the two
    facts the storage substrates rely on: the encoding is a bijection onto its
    image (two keys never share a path), and no encoded component holds a
    separator or a dot, so nothing escapes the root. *)

From S2P Require Import Records.

(** ** Bytes *)

Definition byte_code (b : Byte.byte) : N := Byte.to_N b.
(** Truncation to [u8]. *)
Definition byte_of (n : N) : Byte.byte := default Byte.x00 (Byte.of_N (n `mod` 256)).

Definition in_range (lo hi : N) (b : Byte.byte) : bool :=
  bool_decide (lo ≤ byte_code b ∧ byte_code b ≤ hi)%N.

Definition is_upper : Byte.byte → bool := in_range 65 90.
Definition is_lower : Byte.byte → bool := in_range 97 122.
Definition is_digit : Byte.byte → bool := in_range 48 57.

(** The unreserved set [[A-Za-z0-9_-]]. *)
Definition unreserved (b : Byte.byte) : bool :=
  is_upper b || is_lower b || is_digit b
  || bool_decide (byte_code b = 45%N) || bool_decide (byte_code b = 95%N).

Definition percent : Byte.byte := "%"%byte.
Definition slash : Byte.byte := "/"%byte.
Definition dot : Byte.byte := "."%byte.

(** ** Encoding *)

Definition HEX : bytes := bytes_of_string "0123456789ABCDEF".

Definition hex_digit (n : N) : Byte.byte := nth (N.to_nat n) HEX Byte.x00.

Definition segment_byte (b : Byte.byte) : bytes :=
  if unreserved b then [b]
  else [percent; hex_digit (N.shiftr (byte_code b) 4);
        hex_digit (N.land (byte_code b) 15)].

Definition segment_bytes (bs : bytes) : bytes := bs ≫= segment_byte.

Definition segment (s : string) : string :=
  string_of_bytes (segment_bytes (bytes_of_string s)).

(** ** Decoding *)

Definition hex_val (b : Byte.byte) : option N :=
  if is_digit b then Some (byte_code b - 48)%N
  else if in_range 65 70 b then Some (byte_code b - 65 + 10)%N
  else if in_range 97 102 b then Some (byte_code b - 97 + 10)%N
  else None.

Fixpoint decode_bytes (bs : bytes) : bytes :=
  match bs with
  | [] => []
  | b :: tl =>
      match tl with
      | h :: l :: rest =>
          if decide (b = percent) then
            match hex_val h, hex_val l with
            | Some hi, Some lo => byte_of (N.lor (N.shiftl hi 4) lo) :: decode_bytes rest
            | _, _ => b :: decode_bytes tl
            end
          else b :: decode_bytes tl
      | _ => b :: decode_bytes tl
      end
  end.

(** [String::from_utf8_lossy].  A lead byte fixes how many continuation bytes
    follow and the range of the first; the longest prefix of an ill-formed
    sequence becomes one U+FFFD. *)
Definition utf8_lead (b : Byte.byte) : option (nat * N * N) :=
  let n := byte_code b in
  if bool_decide (n < 128)%N then Some (0, 0%N, 0%N)
  else if bool_decide (194 ≤ n ≤ 223)%N then Some (1, 128%N, 191%N)
  else if bool_decide (n = 224)%N then Some (2, 160%N, 191%N)
  else if bool_decide (n = 237)%N then Some (2, 128%N, 159%N)
  else if bool_decide (225 ≤ n ≤ 239)%N then Some (2, 128%N, 191%N)
  else if bool_decide (n = 240)%N then Some (3, 144%N, 191%N)
  else if bool_decide (241 ≤ n ≤ 243)%N then Some (3, 128%N, 191%N)
  else if bool_decide (n = 244)%N then Some (3, 128%N, 143%N)
  else None.

(** How many of the [need] continuation bytes at the head of [bs] are well
    formed. *)
Fixpoint utf8_cont (need : nat) (lo hi : N) (bs : bytes) : nat :=
  match need, bs with
  | S need', b :: bs' => if in_range lo hi b then S (utf8_cont need' 128 191 bs') else 0
  | _, _ => 0
  end.

(** The first sequence of [b :: bs]: its length and whether it is well formed. *)
Definition utf8_step (b : Byte.byte) (bs : bytes) : nat * bool :=
  match utf8_lead b with
  | None => (1, false)
  | Some (need, lo, hi) =>
      let got := utf8_cont need lo hi bs in (S got, bool_decide (got = need))
  end.

Definition replacement : bytes := [Byte.xef; Byte.xbf; Byte.xbd].

Fixpoint utf8_lossy_fuel (fuel : nat) (bs : bytes) : bytes :=
  match fuel, bs with
  | S fuel', b :: tl =>
      let '(n, ok) := utf8_step b tl in
      (if ok then take n bs else replacement) ++ utf8_lossy_fuel fuel' (drop n bs)
  | _, _ => []
  end.

Definition from_utf8_lossy (bs : bytes) : bytes := utf8_lossy_fuel (length bs) bs.

Fixpoint utf8_valid_fuel (fuel : nat) (bs : bytes) : bool :=
  match fuel, bs with
  | S fuel', b :: tl =>
      let '(n, ok) := utf8_step b tl in ok && utf8_valid_fuel fuel' (drop n bs)
  | _, [] => true
  | O, _ :: _ => false
  end.

(** The byte sequences a Rust [String] may hold ([str::from_utf8(bs).is_ok()]). *)
Definition utf8_valid (bs : bytes) : bool := utf8_valid_fuel (length bs) bs.

Definition decode_segment (s : string) : string :=
  string_of_bytes (from_utf8_lossy (decode_bytes (bytes_of_string s))).

(** ** Object keys *)

Definition record_components (key : RecordKey) : string * string * string :=
  (segment (key_namespace key), segment (key_collection key),
   segment (key_id key) +:+ ".json").

Definition object_key (key : RecordKey) : string :=
  let '(ns, col, file) := record_components key in ns +:+ "/" +:+ col +:+ "/" +:+ file.

(** ** Per-byte facts, by computation over the 256 bytes *)

Lemma segment_byte_decodes b rest :
  decode_bytes (segment_byte b ++ rest) = b :: decode_bytes rest.
Proof.
  destruct b; try reflexivity; destruct rest as [|h [|l rest]]; reflexivity.
Qed.

Definition safe_byte (b : Byte.byte) : bool := unreserved b || bool_decide (b = percent).

Lemma segment_byte_safe b : forallb safe_byte (segment_byte b) = true.
Proof. destruct b; reflexivity. Qed.

Lemma segment_byte_nonempty b : segment_byte b ≠ [].
Proof. unfold segment_byte. by destruct (unreserved b). Qed.

(** ** The round trip *)

Lemma decode_segment_bytes bs : decode_bytes (segment_bytes bs) = bs.
Proof.
  induction bs as [|b bs IH]; [done|].
  change (segment_bytes (b :: bs)) with (segment_byte b ++ segment_bytes bs).
  by rewrite segment_byte_decodes, IH.
Qed.

#[export] Instance segment_bytes_inj : Inj (=) (=) segment_bytes.
Proof.
  intros bs1 bs2 H.
  by rewrite <-(decode_segment_bytes bs1), H, decode_segment_bytes.
Qed.

Lemma utf8_cont_le need lo hi bs : utf8_cont need lo hi bs ≤ length bs.
Proof.
  revert lo hi bs. induction need as [|need IH]; intros lo hi [|b bs]; simpl; try lia.
  destruct (in_range lo hi b); [|lia]. specialize (IH 128%N 191%N bs). lia.
Qed.

Lemma utf8_step_pos b bs : 1 ≤ (utf8_step b bs).1 ≤ S (length bs).
Proof.
  unfold utf8_step. destruct (utf8_lead b) as [[[need lo] hi]|]; simpl; [|lia].
  pose proof (utf8_cont_le need lo hi bs). lia.
Qed.

Lemma utf8_lossy_valid_fuel fuel bs :
  utf8_valid_fuel fuel bs = true → utf8_lossy_fuel fuel bs = bs.
Proof.
  revert bs. induction fuel as [|fuel IH]; intros [|b bs]; simpl; try done.
  destruct (utf8_step b bs) as [n ok]. rewrite andb_true_iff. intros [-> Hv].
  rewrite IH by done. apply take_drop.
Qed.

Lemma from_utf8_lossy_valid bs : utf8_valid bs = true → from_utf8_lossy bs = bs.
Proof. apply utf8_lossy_valid_fuel. Qed.

(** The decoder of UTF-8 text always consumes its whole input: fuel equal to
    the length is enough for any byte sequence. *)
Lemma utf8_lossy_fuel_enough fuel fuel' bs :
  length bs ≤ fuel → length bs ≤ fuel' →
  utf8_lossy_fuel fuel bs = utf8_lossy_fuel fuel' bs.
Proof.
  revert fuel' bs. induction fuel as [|fuel IH]; intros [|fuel'] [|b bs]; simpl; try lia; try done.
  intros H1 H2. pose proof (utf8_step_pos b bs) as Hp.
  destruct (utf8_step b bs) as [n ok]. simpl in Hp. f_equal.
  apply IH; rewrite length_drop; simpl; lia.
Qed.

(** ** Encoded components are inert *)

Lemma segment_bytes_safe bs : forallb safe_byte (segment_bytes bs) = true.
Proof.
  induction bs as [|b bs IH]; [done|].
  change (segment_bytes (b :: bs)) with (segment_byte b ++ segment_bytes bs).
  by rewrite forallb_app, segment_byte_safe, IH.
Qed.

Lemma safe_byte_not_separator b : safe_byte b = true → b ≠ slash ∧ b ≠ dot.
Proof. destruct b; done. Qed.

Lemma segment_bytes_inert bs : slash ∉ segment_bytes bs ∧ dot ∉ segment_bytes bs.
Proof.
  pose proof (segment_bytes_safe bs) as Hs. rewrite forallb_forall in Hs.
  split; intros Hin%list_elem_of_In%Hs%safe_byte_not_separator; naive_solver.
Qed.

Lemma bytes_of_string_app s1 s2 :
  bytes_of_string (s1 +:+ s2) = bytes_of_string s1 ++ bytes_of_string s2.
Proof.
  unfold bytes_of_string. induction s1 as [|c s1 IH]; simpl; [done|].
  unfold String.list_byte_of_string in *. simpl. by rewrite IH.
Qed.

#[export] Instance bytes_of_string_inj : Inj (=) (=) bytes_of_string.
Proof.
  intros s1 s2 H.
  by rewrite <-(string_of_bytes_of_string s1), H, string_of_bytes_of_string.
Qed.

Lemma split_at_separator (c : Byte.byte) (l1 l2 r1 r2 : list Byte.byte) :
  c ∉ l1 → c ∉ l2 → l1 ++ c :: r1 = l2 ++ c :: r2 → l1 = l2 ∧ r1 = r2.
Proof.
  revert l2. induction l1 as [|x l1 IH]; intros [|y l2]; simpl.
  - naive_solver.
  - rewrite elem_of_cons. naive_solver.
  - rewrite elem_of_cons. naive_solver.
  - rewrite !elem_of_cons. intros H1 H2 [= -> Heq].
    destruct (IH l2) as [-> ->]; naive_solver.
Qed.

Lemma bytes_of_segment s :
  bytes_of_string (segment s) = segment_bytes (bytes_of_string s).
Proof. apply bytes_of_string_of_bytes. Qed.

#[export] Instance segment_inj : Inj (=) (=) segment.
Proof.
  intros s1 s2 H. apply bytes_of_string_inj, segment_bytes_inj.
  by rewrite <-!bytes_of_segment, H.
Qed.

Lemma segment_inert s :
  slash ∉ bytes_of_string (segment s) ∧ dot ∉ bytes_of_string (segment s).
Proof. rewrite bytes_of_segment. apply segment_bytes_inert. Qed.

Lemma segment_bytes_unreserved bs : forallb unreserved bs = true → segment_bytes bs = bs.
Proof.
  induction bs as [|b bs IH]; [done|]. simpl. rewrite andb_true_iff. intros [Hb Hbs].
  unfold segment_byte. rewrite Hb. simpl. f_equal. by apply IH.
Qed.

Lemma decode_segment_segment s :
  utf8_valid (bytes_of_string s) = true → decode_segment (segment s) = s.
Proof.
  intros Hv. unfold decode_segment.
  rewrite bytes_of_segment, decode_segment_bytes, from_utf8_lossy_valid by done.
  apply string_of_bytes_of_string.
Qed.

(** ** The properties *)

(** Decoding the encoding of any Rust string (any well-formed UTF-8 byte
    sequence) gives the string back, so a key read from a directory listing is
    the key that was written. *)
Theorem segment_roundtrip (s : string) :
  utf8_valid (bytes_of_string s) = true → decode_segment (segment s) = s.
Proof.
  apply decode_segment_segment.
Qed.

Lemma segment_roundtrip_witness :
  decode_segment (segment "a/../50% off") = "a/../50% off".
Proof. apply segment_roundtrip. vm_compute. reflexivity. Defined.

(** Two keys share an object key exactly when they are the same key: no
    write can land on another key's object, whatever separators, dots or
    percent signs the components hold. *)
Theorem object_key_injective (k1 k2 : RecordKey) :
  object_key k1 = object_key k2 ↔ k1 = k2.
Proof.
  split; [|by intros ->].
  destruct k1 as [n1 c1 i1], k2 as [n2 c2 i2]. unfold object_key, record_components.
  cbn [key_namespace key_collection key_id].
  intros H%(f_equal bytes_of_string). rewrite !bytes_of_string_app in H.
  change (bytes_of_string "/") with [slash] in H. simpl app in H.
  apply split_at_separator in H as [Hn H]; [|apply segment_inert..].
  apply split_at_separator in H as [Hc H]; [|apply segment_inert..].
  apply (inj (.++ _)) in H.
  apply bytes_of_string_inj, segment_inj in Hn as ->.
  apply bytes_of_string_inj, segment_inj in Hc as ->.
  apply bytes_of_string_inj, segment_inj in H as ->. done.
Qed.

(** An encoded component is inert: it holds no path separator and no
    dot, whatever the key says, and a component already made of
    [[A-Za-z0-9_-]] is left as it is. *)
Theorem segment_is_inert (s : string) :
  slash ∉ bytes_of_string (segment s) ∧ dot ∉ bytes_of_string (segment s) ∧
  (segment s = s ↔ forallb unreserved (bytes_of_string s) = true).
Proof.
  split_and!; [apply segment_inert..|]. split.
  - intros Heq. apply (f_equal bytes_of_string) in Heq.
    rewrite bytes_of_segment in Heq. revert Heq.
    generalize (bytes_of_string s). intros bs Heq. apply forallb_forall.
    intros b Hb. apply list_elem_of_In in Hb.
    assert (length (segment_bytes bs) ≤ length bs) as Hlen by (rewrite Heq; lia).
    clear Heq. induction bs as [|b' bs IH]; [by apply elem_of_nil in Hb|].
    change (segment_bytes (b' :: bs)) with (segment_byte b' ++ segment_bytes bs) in Hlen.
    rewrite length_app in Hlen. simpl in Hlen.
    assert (∀ l, length l ≤ length (segment_bytes l)) as Hge.
    { induction l as [|c l IHl]; [simpl; lia|].
      change (segment_bytes (c :: l)) with (segment_byte c ++ segment_bytes l).
      rewrite length_app. pose proof (segment_byte_nonempty c).
      destruct (segment_byte c); simpl in *; [done|lia]. }
    pose proof (Hge bs). unfold segment_byte in Hlen.
    destruct (unreserved b') eqn:Hb'; simpl in Hlen; [|lia].
    apply elem_of_cons in Hb as [->|Hb]; [done|]. apply IH; [done|lia].
  - intros Hu. unfold segment. rewrite segment_bytes_unreserved by done.
    apply string_of_bytes_of_string.
Qed.
