(* ===== verification/Text.v ===== *)
(** * Text: trimming, splitting and reading numbers

    What several components use of Rust's [str]: splitting at blank lines, [trim] over
    the white space of Unicode, and reading an unsigned number; and what [url] does
    with the segments of a path. *)

From S2P Require Export Records.

(** ** Splitting and trimming *)

Definition newline : Ascii.ascii := Ascii.ascii_of_nat 10.
Definition newline_str : string := String newline "".

(** [split("\n\n")]. *)
Fixpoint split_blank (s : string) : list string :=
  match s with
  | "" => [""]
  | String a (String b s'' as s') =>
      if decide (a = newline ∧ b = newline) then "" :: split_blank s''
      else match split_blank s' with
           | [] => [String a ""]
           | x :: xs => String a x :: xs
           end
  | String a "" => [String a ""]
  end.

(** The code points of [char::is_whitespace] in UTF-8. *)
Definition whitespace : list bytes :=
  ((λ b, [b]) <$> [Byte.x09; Byte.x0a; Byte.x0b; Byte.x0c; Byte.x0d; Byte.x20]) ++
  [[Byte.xc2; Byte.x85]; [Byte.xc2; Byte.xa0]; [Byte.xe1; Byte.x9a; Byte.x80]] ++
  ((λ b, [Byte.xe2; Byte.x80; b]) <$>
    [Byte.x80; Byte.x81; Byte.x82; Byte.x83; Byte.x84; Byte.x85; Byte.x86; Byte.x87; Byte.x88;
     Byte.x89; Byte.x8a; Byte.xa8; Byte.xa9; Byte.xaf]) ++
  [[Byte.xe2; Byte.x81; Byte.x9f]; [Byte.xe3; Byte.x80; Byte.x80]].

(** Without the first of [ws] that the bytes begin with. *)
Definition strip_any (ws : list bytes) (s : bytes) : option bytes :=
  w ← list_find (λ w, take (length w) s = w) ws; Some (drop (length w.2) s).

Fixpoint strip_all (fuel : nat) (ws : list bytes) (s : bytes) : bytes :=
  match fuel with
  | 0 => s
  | S fuel => match strip_any ws s with Some s' => strip_all fuel ws s' | None => s end
  end.

(** [str::trim]; every step drops a byte. *)
Definition trim_bytes (s : bytes) : bytes :=
  let s := strip_all (length s) whitespace s in
  reverse (strip_all (length s) (reverse <$> whitespace) (reverse s)).

Definition trim (s : string) : string := string_of_bytes (trim_bytes (bytes_of_string s)).

(** [str::trim_end]. *)
Definition trim_end (s : string) : string :=
  let b := bytes_of_string s in
  string_of_bytes (reverse (strip_all (length b) (reverse <$> whitespace) (reverse b))).

(** ** Numbers *)

Definition digit_value (a : Ascii.ascii) : option N :=
  let n := Ascii.N_of_ascii a in
  if decide (48 ≤ n ∧ n ≤ 57)%N then Some (n - 48)%N else None.

Fixpoint parse_digits (acc : N) (s : string) : option N :=
  match s with
  | "" => Some acc
  | String a s' =>
      d ← digit_value a;
      let acc := (acc * 10 + d)%N in
      if decide (acc ≤ u64_max)%N then parse_digits acc s' else None
  end.

(** [str::parse::<usize>] on 64 bits. *)
Definition parse_usize (s : string) : option N :=
  let s := match s with
           | String a s' => if decide (a = Ascii.ascii_of_nat 43) then s' else s
           | "" => s
           end in
  if decide (s = "") then None else parse_digits 0 s.

(** ** URLs *)

(** The characters that [url]'s parser skips wherever they stand: tab, line feed
    and carriage return. *)
Definition url_skips (a : Ascii.ascii) : bool :=
  bool_decide (a ∈ [Ascii.ascii_of_nat 9; newline; Ascii.ascii_of_nat 13]).

Fixpoint without_skipped (s : string) : string :=
  match s with
  | "" => ""
  | String a s => if url_skips a then without_skipped s else String a (without_skipped s)
  end.

Definition dot_segment (s : string) : Prop := s = "." ∨ s = "..".
#[export] Instance dot_segment_dec s : Decision (dot_segment s) := _.

(** What [path_segments_mut().extend] appends, each segment percent-encoded: a
    segment given as [.] or [..] is left out, and the parser skips its characters. *)
Definition kept_segments (segs : list string) : list string :=
  without_skipped <$> filter (λ s, ¬ dot_segment s) segs.

(** A segment that is [.] or [..] only once its characters are skipped is parsed as
    one: it removes what stands before it instead of being appended. *)
Definition undotted (s : string) : Prop :=
  dot_segment (without_skipped s) → without_skipped s = s.

(** [url]'s [path_segments_mut().extend] on an [http] URL, where no segment is
    parsed as a dot segment and the path does not come to begin with an empty one
    (which the root path [/] already is). *)
Class UrlCrate := {
  extend_segments : list string → list string → list string;
  extend_segments_spec base segs :
    Forall undotted segs → head (base ++ kept_segments segs) ≠ Some "" →
    extend_segments base segs = base ++ kept_segments segs
}.

Lemma without_skipped_idem s : without_skipped (without_skipped s) = without_skipped s.
Proof.
  induction s as [|a s IH]; [done|]. cbn. destruct (url_skips a) eqn:Ha; [done|].
  cbn. by rewrite Ha, IH.
Qed.

Lemma unskipped_undotted s : without_skipped s = s → undotted s.
Proof. by intros Hs _. Qed.
#[export] Hint Resolve unskipped_undotted without_skipped_idem : core.
