(* ===== verification/Fleet.v ===== *)
(** * Fleet: access-control records, their ids and one-time link tokens

    Models [gonzalo-domain]'s [fleet/mod.rs], [fleet/keys.rs],
    [fleet/records.rs], [fleet/audit.rs] and [fleet/link.rs].  A composite id
    joins escaped components with [:], so it is unambiguous; an audit id is a
    zero-padded time and a nonce, so a listing is in time order; a link token
    stores only a hash of its secret and is redeemed at most once. *)

From S2P Require Export Records Paths.
From S2P Require Import Samples.

(** ** The types *)

Definition FLEET_NAMESPACE : string := "fleet".
Definition FLEET_AUDIT_NAMESPACE : string := "fleet-audit".
Definition PEOPLE_COLLECTION : string := "people".
Definition IDENTITY_BINDINGS_COLLECTION : string := "identity-bindings".
Definition ROLE_GRANTS_COLLECTION : string := "role-grants".
Definition CHANNELS_COLLECTION : string := "channels".
Definition LINK_TOKENS_COLLECTION : string := "link-tokens".
Definition AUDIT_ENTRIES_COLLECTION : string := "entries".

Inductive FleetRole := Viewer | Operator | Admin.

Inductive GrantScope := Fleet | Workspace (name : string).

Inductive Authenticator :=
  | Discord | Slack | Teams
  | Oidc (issuer : string)
  | Other (name : string).

Inductive FleetActor :=
  | ActorPerson (id : string)
  | ActorUnlinked (authenticator : Authenticator) (subject : string)
  | ActorService (name : string).

#[export] Instance FleetRole_eq_dec : EqDecision FleetRole.
Proof. solve_decision. Defined.
#[export] Instance GrantScope_eq_dec : EqDecision GrantScope.
Proof. solve_decision. Defined.
#[export] Instance Authenticator_eq_dec : EqDecision Authenticator.
Proof. solve_decision. Defined.
#[export] Instance FleetActor_eq_dec : EqDecision FleetActor.
Proof. solve_decision. Defined.

(** ** Ids *)

Inductive FleetKeyError :=
  | InvalidPersonId (id : string)
  | InvalidNonce (nonce : string)
  | NegativeTimestamp (at_ms : Z)
  | EmptyComponent (component : string).

Definition colon : Byte.byte := ":"%byte.
Definition hyphen : Byte.byte := "-"%byte.

(** [str::replace] of one ASCII character. *)
Definition replace (c : Byte.byte) (by_ : bytes) (s : bytes) : bytes :=
  s ≫= λ b, if decide (b = c) then by_ else [b].

Definition escape_bytes (s : bytes) : bytes :=
  replace colon (bytes_of_string "%3A") (replace percent (bytes_of_string "%25") s).

Definition escape (component : string) : string :=
  string_of_bytes (escape_bytes (bytes_of_string component)).

(** [c.is_ascii_alphanumeric() || c == '_' || c == '-'], on UTF-8 bytes: every
    byte of a non-ASCII character fails it. *)
Definition is_id_char (b : Byte.byte) : bool := unreserved b.

Definition non_empty (value component : string) : result FleetKeyError unit :=
  if decide (value = "") then Err (EmptyComponent component) else Ok tt.

Definition in_charset (lo hi : nat) (s : string) : bool :=
  bool_decide (lo ≤ String.length s ≤ hi) && forallb is_id_char (bytes_of_string s).

Definition validate_person_id (id : string) : result FleetKeyError unit :=
  if in_charset 1 64 id then Ok tt else Err (InvalidPersonId id).

Definition validate_nonce (nonce : string) : result FleetKeyError unit :=
  if in_charset 1 32 nonce then Ok tt else Err (InvalidNonce nonce).

Definition authenticator_segment (a : Authenticator) : result FleetKeyError string :=
  match a with
  | Discord => Ok "discord"
  | Slack => Ok "slack"
  | Teams => Ok "teams"
  | Oidc issuer =>
      _ ← non_empty issuer "issuer"; Ok ("oidc:" +:+ escape issuer)
  | Other name =>
      _ ← non_empty name "authenticator name"; Ok ("other:" +:+ escape name)
  end.

Definition scope_segment (s : GrantScope) : result FleetKeyError string :=
  match s with
  | Fleet => Ok "fleet"
  | Workspace workspace =>
      _ ← non_empty workspace "workspace"; Ok ("workspace:" +:+ escape workspace)
  end.

Definition binding_id (a : Authenticator) (subject : string) : result FleetKeyError string :=
  _ ← non_empty subject "subject";
  seg ← authenticator_segment a;
  Ok (seg +:+ ":" +:+ escape subject).

Definition grant_id (person : string) (scope : GrantScope) : result FleetKeyError string :=
  _ ← validate_person_id person;
  seg ← scope_segment scope;
  Ok (person +:+ ":" +:+ seg).

Definition channel_id (provider tenant channel : string) : result FleetKeyError string :=
  _ ← non_empty provider "provider";
  _ ← non_empty tenant "tenant";
  _ ← non_empty channel "channel id";
  Ok (escape provider +:+ ":" +:+ escape tenant +:+ ":" +:+ escape channel).

(** [{n:013}] for a non-negative number: decimal, zero-padded on the left. *)
Definition digit (n : N) : Ascii.ascii := Ascii.ascii_of_N (48 + n).

Fixpoint dec_fuel (fuel : nat) (n : N) : string :=
  match fuel with
  | 0 => ""
  | S fuel' =>
      if decide (n < 10)%N then String (digit n) ""
      else dec_fuel fuel' (n / 10) +:+ String (digit (n `mod` 10)) ""
  end.

(** An [i64] has at most 19 decimal digits. *)
Definition dec (n : N) : string := dec_fuel 20 n.

Fixpoint zeros (n : nat) : string :=
  match n with 0 => "" | S n' => String (digit 0) (zeros n') end.

Definition pad (width : nat) (s : string) : string :=
  zeros (width - String.length s) +:+ s.

Definition audit_id (at_ms : Z) (nonce : string) : result FleetKeyError string :=
  if decide (at_ms < 0)%Z then Err (NegativeTimestamp at_ms)
  else
    _ ← validate_nonce nonce;
    Ok (pad 13 (dec (Z.to_N at_ms)) +:+ "-" +:+ nonce).

(** ** The records *)

Record person := mkPerson {
  display_name : string;
  person_email : option string
}.

Definition Person_key (person_id : string) : result FleetKeyError RecordKey :=
  _ ← validate_person_id person_id;
  Ok (mkKey FLEET_NAMESPACE PEOPLE_COLLECTION person_id).

Record VerifiedEmail := mkVerifiedEmail { email_address : string; email_verified : bool }.

Inductive BindingOrigin :=
  | OriginLinkToken (token_hash : string)
  | OriginOperator (actor : FleetActor).

Record identity_binding := mkIdentityBinding {
  ib_authenticator : Authenticator;
  ib_subject : string;
  ib_person : string;
  ib_handle : option string;
  ib_email : option VerifiedEmail;
  ib_bound_at : Z;
  ib_bound_by : BindingOrigin
}.

Definition IdentityBinding_key_for (a : Authenticator) (subject : string) :
    result FleetKeyError RecordKey :=
  id ← binding_id a subject;
  Ok (mkKey FLEET_NAMESPACE IDENTITY_BINDINGS_COLLECTION id).

Definition IdentityBinding_key (b : identity_binding) : result FleetKeyError RecordKey :=
  IdentityBinding_key_for (ib_authenticator b) (ib_subject b).

Record role_grant := mkRoleGrant {
  rg_person : string;
  rg_scope : GrantScope;
  rg_role : FleetRole;
  rg_granted_by : FleetActor;
  rg_granted_at : Z
}.

Definition RoleGrant_key_for (person : string) (scope : GrantScope) :
    result FleetKeyError RecordKey :=
  id ← grant_id person scope;
  Ok (mkKey FLEET_NAMESPACE ROLE_GRANTS_COLLECTION id).

Definition RoleGrant_key (g : role_grant) : result FleetKeyError RecordKey :=
  RoleGrant_key_for (rg_person g) (rg_scope g).

Inductive Follows := FollowsFleet | FollowsWorkspaces (names : gset string).

Inductive EmptyFollowSet := EmptyFollows.

Definition Follows_workspaces (names : list string) : result EmptyFollowSet Follows :=
  let names : gset string := list_to_set names in
  if decide (names = ∅) then Err EmptyFollows else Ok (FollowsWorkspaces names).

(** What [Deserialize] does with a decoded wire value. *)
Definition Follows_of_wire (w : Follows) : result EmptyFollowSet Follows :=
  match w with
  | FollowsFleet => Ok FollowsFleet
  | FollowsWorkspaces names =>
      if decide (names = ∅) then Err EmptyFollows else Ok (FollowsWorkspaces names)
  end.

Inductive NotifyPreset := NotifyAll | NotifyTerminal | NotifyFailures.

Record channel_config := mkChannelConfig {
  cc_provider : string;
  cc_tenant : string;
  cc_channel : string;
  cc_follows : Follows;
  cc_notify : NotifyPreset;
  cc_ceiling : FleetRole
}.

Definition ChannelConfig_key_for (provider tenant channel : string) :
    result FleetKeyError RecordKey :=
  id ← channel_id provider tenant channel;
  Ok (mkKey FLEET_NAMESPACE CHANNELS_COLLECTION id).

Definition ChannelConfig_key (c : channel_config) : result FleetKeyError RecordKey :=
  ChannelConfig_key_for (cc_provider c) (cc_tenant c) (cc_channel c).

Inductive AuditResult := Succeeded | Denied | Failed (why : string).

Record audit_entry := mkAuditEntry {
  ae_actor : FleetActor;
  ae_action : string;
  ae_target : string;
  ae_at : Z;
  ae_surface_ref : option string;
  ae_result : AuditResult
}.

Definition AuditEntry_key (e : audit_entry) (nonce : string) : result FleetKeyError RecordKey :=
  id ← audit_id (ae_at e) nonce;
  Ok (mkKey FLEET_AUDIT_NAMESPACE AUDIT_ENTRIES_COLLECTION id).

(** ** Link tokens *)

Definition LINK_TOKEN_HASH_DOMAIN : bytes := bytes_of_string "gonzalo:link-token:v1".

(** A [[u8; 32]]. *)
Record LinkSecret := mkLinkSecret { secret_bytes : bytes }.

Definition secret_ok (s : LinkSecret) : Prop := length (secret_bytes s) = 32.

Inductive LinkSecretError := BadLinkSecret.

Definition is_lower_hex (b : Byte.byte) : bool := is_digit b || in_range 97 102 b.

(** [u8::from_str_radix(pair, 16)] on two hex digits. *)
Definition radix16 (hi lo : Byte.byte) : option Byte.byte :=
  h ← hex_val hi; l ← hex_val lo; Some (byte_of (16 * h + l)).

(** The loop over [as_chunks::<2>]. *)
Fixpoint parse_pairs (digits : bytes) : option bytes :=
  match digits with
  | hi :: lo :: rest => b ← radix16 hi lo; bs ← parse_pairs rest; Some (b :: bs)
  | _ => Some []
  end.

Definition LinkSecret_parse (hex : string) : result LinkSecretError LinkSecret :=
  let digits := bytes_of_string hex in
  if negb (bool_decide (length digits = 64) && forallb is_lower_hex digits)
  then Err BadLinkSecret
  else bs ← ok_or BadLinkSecret (parse_pairs digits); Ok (mkLinkSecret bs).

Definition lower_hex_digit (n : N) : Byte.byte :=
  nth (N.to_nat n) (bytes_of_string "0123456789abcdef") Byte.x00.

(** [{byte:02x}]. *)
Definition hex2 (b : Byte.byte) : bytes :=
  [lower_hex_digit (byte_code b / 16); lower_hex_digit (byte_code b `mod` 16)].

Definition LinkSecret_to_hex (s : LinkSecret) : string :=
  string_of_bytes (secret_bytes s ≫= hex2).

Record Consumption := mkConsumption {
  cons_person : string;
  cons_binding : RecordKey;
  cons_at : Z
}.

Record link_token := mkLinkToken {
  token_hash : string;
  lt_role : FleetRole;
  lt_scope : GrantScope;
  lt_person : option string;
  minted_by : FleetActor;
  minted_at : Z;
  expires_at : Z;
  consumed : option Consumption
}.

Inductive RedeemError := WrongSecret | Expired | AlreadyConsumed | PersonMismatch.

Section link.
Context `{Blake3}.

Definition LinkSecret_hash (s : LinkSecret) : string :=
  hash_hex (ContentHash_of (LINK_TOKEN_HASH_DOMAIN ++ secret_bytes s)).

Definition LinkToken_new (secret : LinkSecret) (role : FleetRole) (scope : GrantScope)
    (person : option string) (by_ : FleetActor) (at_ expires : Z) : link_token :=
  mkLinkToken (LinkSecret_hash secret) role scope person by_ at_ expires None.

Definition LinkToken_key (t : link_token) : RecordKey :=
  mkKey FLEET_NAMESPACE LINK_TOKENS_COLLECTION (token_hash t).

Definition key_for_secret (s : LinkSecret) : RecordKey :=
  mkKey FLEET_NAMESPACE LINK_TOKENS_COLLECTION (LinkSecret_hash s).

Definition redeem (t : link_token) (secret : LinkSecret) (person : string)
    (binding : RecordKey) (now_ms : Z) : result RedeemError link_token :=
  if decide (LinkSecret_hash secret ≠ token_hash t) then Err WrongSecret
  else if decide (expires_at t ≤ now_ms)%Z then Err Expired
  else if bool_decide (is_Some (consumed t)) then Err AlreadyConsumed
  else match lt_person t with
       | Some intended =>
           if decide (intended ≠ person) then Err PersonMismatch
           else Ok (mkLinkToken (token_hash t) (lt_role t) (lt_scope t) (lt_person t)
             (minted_by t) (minted_at t) (expires_at t)
             (Some (mkConsumption person binding now_ms)))
       | None => Ok (mkLinkToken (token_hash t) (lt_role t) (lt_scope t) (lt_person t)
             (minted_by t) (minted_at t) (expires_at t)
             (Some (mkConsumption person binding now_ms)))
       end.
End link.

(** ** Escaping *)

Definition esc_byte (b : Byte.byte) : bytes :=
  if decide (b = percent) then bytes_of_string "%25"
  else if decide (b = colon) then bytes_of_string "%3A" else [b].

Lemma escape_bytes_bind s : escape_bytes s = s ≫= esc_byte.
Proof.
  unfold escape_bytes, replace. induction s as [|b s IH]; [done|].
  rewrite !bind_cons, bind_app, IH. f_equal. unfold esc_byte.
  destruct (decide (b = percent)) as [->|Hp]; [done|].
  rewrite bind_singleton. done.
Qed.

Lemma esc_byte_decodes b rest : decode_bytes (esc_byte b ++ rest) = b :: decode_bytes rest.
Proof. destruct b; try reflexivity; destruct rest as [|h [|l rest]]; reflexivity. Qed.

#[export] Instance escape_bytes_inj : Inj (=) (=) escape_bytes.
Proof.
  intros x y. rewrite !escape_bytes_bind. intros H%(f_equal decode_bytes).
  assert (∀ s, decode_bytes (s ≫= esc_byte) = s) as Hdec.
  { induction s as [|b s IH]; [done|]. by rewrite bind_cons, esc_byte_decodes, IH. }
  by rewrite !Hdec in H.
Qed.

#[export] Instance escape_inj : Inj (=) (=) escape.
Proof.
  intros x y H%(f_equal bytes_of_string). unfold escape in H.
  rewrite !bytes_of_string_of_bytes in H. by apply bytes_of_string_inj, escape_bytes_inj.
Qed.

Lemma esc_byte_no_colon b : forallb (λ x, bool_decide (x ≠ colon)) (esc_byte b) = true.
Proof. destruct b; reflexivity. Qed.

Lemma escape_no_colon s : colon ∉ bytes_of_string (escape s).
Proof.
  unfold escape. rewrite bytes_of_string_of_bytes, escape_bytes_bind.
  intros (b & Hin & _)%list_elem_of_bind. pose proof (esc_byte_no_colon b) as Hb.
  rewrite forallb_forall in Hb. apply list_elem_of_In, Hb, bool_decide_eq_true in Hin. done.
Qed.

(** *** Ids as colon-separated parts *)

Fixpoint parts_bytes (ps : list string) : bytes :=
  match ps with
  | [] => []
  | [p] => bytes_of_string p
  | p :: ps' => bytes_of_string p ++ colon :: parts_bytes ps'
  end.

Lemma parts_bytes_inj ps qs :
  ps ≠ [] → qs ≠ [] →
  Forall (λ p, colon ∉ bytes_of_string p) ps → Forall (λ p, colon ∉ bytes_of_string p) qs →
  parts_bytes ps = parts_bytes qs → ps = qs.
Proof.
  intros Hps Hqs HP HQ. revert qs Hps Hqs HQ.
  induction HP as [|p ps Hp HP IH]; intros qs Hps Hqs HQ; [done|].
  destruct HQ as [|q qs Hq HQ]; [done|].
  destruct ps as [|p' ps], qs as [|q' qs]; intros Heq.
  - simpl in Heq. by apply bytes_of_string_inj in Heq as ->.
  - exfalso. apply Hp. change (parts_bytes [p]) with (bytes_of_string p) in Heq.
    rewrite Heq. simpl. set_solver.
  - exfalso. apply Hq. change (parts_bytes [q]) with (bytes_of_string q) in Heq.
    rewrite <-Heq. simpl. set_solver.
  - apply (split_at_separator colon) in Heq as [->%bytes_of_string_inj Heq]; [|done..].
    f_equal. by apply IH.
Qed.

Definition authenticator_parts (a : Authenticator) : list string :=
  match a with
  | Discord => ["discord"] | Slack => ["slack"] | Teams => ["teams"]
  | Oidc issuer => ["oidc"; escape issuer]
  | Other name => ["other"; escape name]
  end.

Definition scope_parts (s : GrantScope) : list string :=
  match s with Fleet => ["fleet"] | Workspace w => ["workspace"; escape w] end.

Lemma bytes_colon : bytes_of_string ":" = [colon].
Proof. reflexivity. Qed.

Lemma authenticator_segment_parts a seg :
  authenticator_segment a = Ok seg → bytes_of_string seg = parts_bytes (authenticator_parts a).
Proof.
  destruct a as [| | |issuer|name]; simpl; try (by intros [= <-]); unfold non_empty;
    case_decide; try done; intros [= <-]; reflexivity.
Qed.

Lemma scope_segment_parts s seg :
  scope_segment s = Ok seg → bytes_of_string seg = parts_bytes (scope_parts s).
Proof.
  destruct s as [|w]; simpl; [by intros [= <-]|]. unfold non_empty.
  case_decide; [done|]. by intros [= <-].
Qed.

Lemma parts_bytes_snoc ps q :
  ps ≠ [] → parts_bytes (ps ++ [q]) = parts_bytes ps ++ colon :: bytes_of_string q.
Proof.
  induction ps as [|p ps IH]; intros Hps; [done|]. destruct ps as [|p' ps]; [done|].
  change ((p :: p' :: ps) ++ [q]) with (p :: (p' :: ps) ++ [q]).
  change (parts_bytes (p :: (p' :: ps) ++ [q])) with
    (bytes_of_string p ++ colon :: parts_bytes ((p' :: ps) ++ [q])).
  rewrite IH by done. simpl. by rewrite <-app_assoc.
Qed.

Definition plain (p : string) : Prop := colon ∉ bytes_of_string p.

Lemma plain_by_computation p :
  forallb (λ x, bool_decide (x ≠ colon)) (bytes_of_string p) = true → plain p.
Proof.
  rewrite forallb_forall. intros Hp Hin%list_elem_of_In%Hp%bool_decide_eq_true. done.
Qed.

Lemma authenticator_parts_plain a : Forall plain (authenticator_parts a).
Proof.
  destruct a; repeat constructor; try apply escape_no_colon; by apply plain_by_computation.
Qed.

Lemma scope_parts_plain s : Forall plain (scope_parts s).
Proof.
  destruct s; repeat constructor; try apply escape_no_colon; by apply plain_by_computation.
Qed.

Lemma authenticator_parts_inj a a' : authenticator_parts a = authenticator_parts a' → a = a'.
Proof. destruct a, a'; simpl; intros [=]; try done; f_equal; by apply escape_inj. Qed.

Lemma scope_parts_inj s s' : scope_parts s = scope_parts s' → s = s'.
Proof. destruct s, s'; simpl; intros [=]; try done; f_equal; by apply escape_inj. Qed.

Lemma id_chars_plain p : forallb is_id_char (bytes_of_string p) = true → plain p.
Proof.
  rewrite forallb_forall. intros Hp Hin%list_elem_of_In%Hp. done.
Qed.

Lemma binding_id_parts a s id : binding_id a s = Ok id →
  bytes_of_string id = parts_bytes (authenticator_parts a ++ [escape s]).
Proof.
  unfold binding_id, non_empty. case_decide; [done|]. simpl.
  destruct (authenticator_segment a) as [seg|] eqn:E; [|done]. intros [= <-].
  rewrite parts_bytes_snoc by (by destruct a).
  by rewrite !bytes_of_string_app, (authenticator_segment_parts _ _ E).
Qed.

Lemma grant_id_parts p s id : grant_id p s = Ok id →
  plain p ∧ bytes_of_string id = parts_bytes (p :: scope_parts s).
Proof.
  unfold grant_id, validate_person_id. destruct (in_charset 1 64 p) eqn:Hc; [|done]. simpl.
  destruct (scope_segment s) as [seg|] eqn:E; [|done]. intros [= <-].
  apply andb_true_iff in Hc as [_ Hc]. split; [by apply id_chars_plain|].
  rewrite !bytes_of_string_app, (scope_segment_parts _ _ E). by destruct s.
Qed.

Lemma channel_id_parts p t c id : channel_id p t c = Ok id →
  bytes_of_string id = parts_bytes [escape p; escape t; escape c].
Proof.
  unfold channel_id, non_empty. repeat case_decide; try done. intros [= <-].
  by rewrite !bytes_of_string_app.
Qed.

(** No two fleet records share an id.  Whatever colons and percent signs the
    components hold (an OIDC issuer is a URL), a binding id determines the
    authenticator and subject, a grant id the person and scope, and a channel
    id the provider, tenant and channel. *)
Theorem fleet_ids_are_unambiguous :
  (∀ a s a' s' id, binding_id a s = Ok id → binding_id a' s' = Ok id → a = a' ∧ s = s') ∧
  (∀ p g p' g' id, grant_id p g = Ok id → grant_id p' g' = Ok id → p = p' ∧ g = g') ∧
  (∀ p t c p' t' c' id, channel_id p t c = Ok id → channel_id p' t' c' = Ok id →
     p = p' ∧ t = t' ∧ c = c').
Proof.
  split_and!.
  - intros a s a' s' id H1%binding_id_parts H2%binding_id_parts. rewrite H1 in H2.
    apply parts_bytes_inj in H2; [|by destruct a|by destruct a'|..];
      [|apply Forall_app; split; [apply authenticator_parts_plain|];
        repeat constructor; apply escape_no_colon..].
    apply app_inj_tail in H2 as [->%authenticator_parts_inj ->%escape_inj]. done.
  - intros p g p' g' id [Hp H1]%grant_id_parts [Hp' H2]%grant_id_parts. rewrite H1 in H2.
    apply parts_bytes_inj in H2; [|done..| |];
      [|constructor; [done|apply scope_parts_plain]..].
    by injection H2 as -> ->%scope_parts_inj.
  - intros p t c p' t' c' id H1%channel_id_parts H2%channel_id_parts. rewrite H1 in H2.
    apply parts_bytes_inj in H2; [|done..| |]; [|repeat constructor; apply escape_no_colon..].
    by injection H2 as ->%escape_inj ->%escape_inj ->%escape_inj.
Qed.


(** ** Audit ids in time order *)

Lemma string_cons_app c (x y : string) : String c x +:+ y = String c (x +:+ y).
Proof. reflexivity. Qed.

Lemma compare_common_prefix (p x y : string) :
  String.compare (p +:+ x) (p +:+ y) = String.compare x y.
Proof.
  induction p as [|c p IH]; [done|]. rewrite !string_cons_app. simpl.
  by rewrite ascii_compare_refl.
Qed.

Lemma compare_same_length (x y u v : string) :
  String.length x = String.length y → String.compare x y = Lt →
  String.compare (x +:+ u) (y +:+ v) = Lt.
Proof.
  revert y. induction x as [|c x IH]; intros [|d y] Hlen; try done.
  rewrite !string_cons_app. simpl in *. destruct (Ascii.compare c d); [|done..]. apply IH. lia.
Qed.

(** The number's last [w] decimal digits. *)
Fixpoint fixed (w : nat) (n : N) : string :=
  match w with
  | 0 => ""
  | S w' => fixed w' (n / 10) +:+ String (digit (n `mod` 10)) ""
  end.

Lemma length_fixed w n : String.length (fixed w n) = w.
Proof.
  revert n. induction w as [|w IH]; intros n; simpl; [done|].
  rewrite string_length_app, IH. simpl. lia.
Qed.

Lemma digit_code d : (d < 10)%N → Ascii.N_of_ascii (digit d) = (48 + d)%N.
Proof. intros Hd. unfold digit. apply Ascii.N_ascii_embedding. lia. Qed.

Lemma fixed_increasing w n m :
  (n < m)%N → (m < 10 ^ N.of_nat w)%N → String.compare (fixed w n) (fixed w m) = Lt.
Proof.
  revert n m. induction w as [|w IH]; intros n m Hlt Hm; simpl; [simpl in Hm; lia|].
  rewrite Nat2N.inj_succ, N.pow_succ_r in Hm by lia.
  pose proof (N.div_mod n 10 ltac:(lia)). pose proof (N.div_mod m 10 ltac:(lia)).
  pose proof (N.mod_lt n 10 ltac:(lia)). pose proof (N.mod_lt m 10 ltac:(lia)).
  destruct (decide (n / 10 < m / 10)%N) as [Hq|Hq].
  - apply compare_same_length; [by rewrite !length_fixed|]. apply IH; [done|].
    apply N.Div0.div_lt_upper_bound; lia.
  - pose proof (N.Div0.div_le_mono n m 10 ltac:(lia)).
    replace (m / 10)%N with (n / 10)%N by lia. rewrite compare_common_prefix. simpl.
    unfold Ascii.compare. rewrite !digit_code by done.
    destruct (N.compare_spec (48 + n `mod` 10) (48 + m `mod` 10)); [lia|done|lia].
Qed.

Lemma zeros_snoc k : zeros (S k) = zeros k +:+ String (digit 0) "".
Proof.
  induction k as [|k IH]; [done|]. change (zeros (S (S k))) with (String (digit 0) (zeros (S k))).
  rewrite IH at 1. by rewrite <-string_cons_app.
Qed.

Lemma fixed_zero w : fixed w 0 = zeros w.
Proof. induction w as [|w IH]; [done|]. rewrite zeros_snoc, <-IH. reflexivity. Qed.

Lemma pad_dec fuel w n :
  (n < 10 ^ N.of_nat (S w))%N → (n < 10 ^ N.of_nat fuel)%N →
  pad (S w) (dec_fuel fuel n) = fixed (S w) n.
Proof.
  revert w n. induction fuel as [|fuel IH]; intros w n Hw Hf.
  - simpl in Hf. replace n with 0%N by lia. rewrite fixed_zero. apply string_app_nil_r.
  - simpl. case_decide as Hn.
    + rewrite N.div_small, N.mod_small, fixed_zero by done. unfold pad. simpl.
      by rewrite Nat.sub_0_r.
    + rewrite Nat2N.inj_succ, N.pow_succ_r in Hf by lia.
      destruct w as [|w]; [simpl in Hw; lia|].
      assert (n / 10 < 10 ^ N.of_nat (S w))%N as Hw'.
      { rewrite Nat2N.inj_succ, N.pow_succ_r in Hw by lia.
        apply N.Div0.div_lt_upper_bound; lia. }
      rewrite <-(IH w) by (done || apply N.Div0.div_lt_upper_bound; lia).
      unfold pad. rewrite string_length_app, string_app_assoc. simpl String.length.
      by replace (S (S w) - (_ + 1)) with (S w - String.length (dec_fuel fuel (n / 10))) by lia.
Qed.

Lemma audit_id_ok at_ms nonce id : audit_id at_ms nonce = Ok id ↔
  (0 ≤ at_ms)%Z ∧ in_charset 1 32 nonce = true ∧
  id = pad 13 (dec (Z.to_N at_ms)) +:+ "-" +:+ nonce.
Proof.
  unfold audit_id, validate_nonce. case_decide; [split; [done|lia]|].
  destruct (in_charset 1 32 nonce); simpl; [|by split; [done|intros (_ & ? & _)]].
  split; [intros [= <-]; split_and!; [lia|done..]|]. by intros (_ & _ & ->).
Qed.

(** *** Reading the number back *)

Fixpoint undec (acc : N) (s : string) : N :=
  match s with
  | "" => acc
  | String c s' => undec (10 * acc + (Ascii.N_of_ascii c - 48)) s'
  end.

Lemma undec_app s t acc : undec acc (s +:+ t) = undec (undec acc s) t.
Proof.
  revert acc. induction s as [|c s IH]; intros acc; [done|]. rewrite string_cons_app. apply IH.
Qed.

Lemma undec_zeros k : undec 0 (zeros k) = 0%N.
Proof. by induction k. Qed.

Lemma undec_dec fuel (n : N) : (n < 10 ^ N.of_nat fuel)%N → undec 0 (dec_fuel fuel n) = n.
Proof.
  revert n. induction fuel as [|fuel IH]; intros n Hn; [simpl in *; lia|].
  rewrite Nat2N.inj_succ, N.pow_succ_r in Hn by lia. simpl.
  pose proof (N.div_mod n 10 ltac:(lia)). pose proof (N.mod_lt n 10 ltac:(lia)).
  case_decide; [unfold undec; rewrite digit_code by done; change (10 * 0)%N with 0%N; lia|].
  rewrite undec_app, IH by (apply N.Div0.div_lt_upper_bound; lia).
  unfold undec. rewrite digit_code by done. revert H H0. generalize (n `div` 10)%N (n `mod` 10)%N. clear. intros. lia.
Qed.

Lemma undec_pad w n : (n < 10 ^ 20)%N → undec 0 (pad w (dec n)) = n.
Proof. intros Hn. unfold pad. rewrite undec_app, undec_zeros. by apply undec_dec. Qed.

Definition no_hyphen (s : string) : Prop := hyphen ∉ bytes_of_string s.

Lemma no_hyphen_digit d : (d < 10)%N → no_hyphen (String (digit d) "").
Proof.
  intros Hd Hin. change (bytes_of_string _) with [Ascii.byte_of_ascii (digit d)] in Hin.
  apply list_elem_of_singleton, (f_equal Ascii.ascii_of_byte) in Hin.
  rewrite Ascii.ascii_of_byte_of_ascii in Hin.
  apply (f_equal Ascii.N_of_ascii) in Hin. rewrite digit_code in Hin by done.
  assert (Ascii.N_of_ascii (Ascii.ascii_of_byte hyphen) = 45%N) by reflexivity. lia.
Qed.

Lemma no_hyphen_app s t : no_hyphen s → no_hyphen t → no_hyphen (s +:+ t).
Proof. unfold no_hyphen. rewrite bytes_of_string_app. set_solver. Qed.

Lemma no_hyphen_zeros k : no_hyphen (zeros k).
Proof.
  induction k as [|k IH]; [by intros ?%elem_of_nil|]. rewrite zeros_snoc.
  apply no_hyphen_app; [done|]. by apply no_hyphen_digit.
Qed.

Lemma no_hyphen_dec fuel n : no_hyphen (dec_fuel fuel n).
Proof.
  revert n. induction fuel as [|fuel IH]; intros n; [by intros ?%elem_of_nil|]. simpl.
  case_decide; [by apply no_hyphen_digit|].
  apply no_hyphen_app; [done|]. apply no_hyphen_digit, N.mod_lt. lia.
Qed.

(** Listing the audit trail by id is listing it in time order.  Until the
    millisecond count needs a fourteenth digit (the year 2286), the id of an
    earlier entry compares below the id of a later one, whatever the nonces;
    and over the whole [i64] range two entries share an id only if they have
    both the time and the nonce in common. *)
Theorem audit_ids_sort_by_time at1 n1 id1 at2 n2 id2 :
  audit_id at1 n1 = Ok id1 → audit_id at2 n2 = Ok id2 →
  ((at1 < at2 < 10 ^ 13)%Z → String.compare id1 id2 = Lt) ∧
  ((at1 < 2 ^ 63)%Z → (at2 < 2 ^ 63)%Z → id1 = id2 → at1 = at2 ∧ n1 = n2).
Proof.
  rewrite !audit_id_ok. intros (H1 & _ & ->) (H2 & _ & ->). split.
  - intros Hlt. apply compare_same_length.
    + unfold dec. rewrite !pad_dec by (simpl; lia). by rewrite !length_fixed.
    + unfold dec. rewrite !pad_dec by (simpl; lia). apply fixed_increasing; simpl; lia.
  - intros B1 B2 Heq%(f_equal bytes_of_string). rewrite !bytes_of_string_app in Heq.
    apply (split_at_separator hyphen) in Heq
      as [Hd%bytes_of_string_inj Hn%bytes_of_string_inj];
      [|apply no_hyphen_app; [apply no_hyphen_zeros|apply no_hyphen_dec]..].
    split; [|done]. apply (f_equal (undec 0)) in Hd. rewrite !undec_pad in Hd by lia. lia.
Qed.

Lemma audit_ids_sort_by_time_witness :
  String.compare "0000000000999-zzz" "1700000000000-a" = Lt.
Proof.
  apply (audit_ids_sort_by_time 999 "zzz" _ 1700000000000 "a" _);
    [reflexivity|reflexivity|lia].
Defined.

(** ** Link secrets in hex *)

Lemma hex2_parses b rest : parse_pairs (hex2 b ++ rest) = bs ← parse_pairs rest; Some (b :: bs).
Proof. destruct b; reflexivity. Qed.

Lemma hex2_lower b : forallb is_lower_hex (hex2 b) = true.
Proof. destruct b; reflexivity. Qed.

Lemma radix16_hex2 hi lo b :
  is_lower_hex hi = true → is_lower_hex lo = true → radix16 hi lo = Some b → hex2 b = [hi; lo].
Proof.
  destruct hi; try discriminate; intros _;
    destruct lo; try discriminate; intros _ [= <-]; reflexivity.
Qed.

Lemma radix16_total hi lo :
  is_lower_hex hi = true → is_lower_hex lo = true → is_Some (radix16 hi lo).
Proof.
  unfold radix16. intros Hh Hl.
  assert (∀ c, is_lower_hex c = true → is_Some (hex_val c)) as Hv.
  { intros c. destruct c; try discriminate; intros _; by eexists. }
  destruct (Hv _ Hh) as [h ->], (Hv _ Hl) as [l ->]. by eexists.
Qed.

Lemma parse_pairs_hex bs : parse_pairs (bs ≫= hex2) = Some bs.
Proof.
  induction bs as [|b bs IH]; [done|]. rewrite bind_cons, hex2_parses, IH. done.
Qed.

Lemma length_bind_hex2 bs : length (bs ≫= hex2) = 2 * length bs.
Proof. induction bs as [|b bs IH]; [done|]. rewrite bind_cons, length_app, IH. simpl. lia. Qed.

Lemma bind_hex2_lower bs : forallb is_lower_hex (bs ≫= hex2) = true.
Proof.
  induction bs as [|b bs IH]; [done|]. by rewrite bind_cons, forallb_app, hex2_lower, IH.
Qed.

Lemma parse_pairs_inv n digits :
  length digits = 2 * n → forallb is_lower_hex digits = true →
  ∃ bs, parse_pairs digits = Some bs ∧ bs ≫= hex2 = digits ∧ length bs = n.
Proof.
  revert digits. induction n as [|n IH]; intros digits Hlen Hd.
  - apply length_zero_iff_nil in Hlen as ->. by exists [].
  - destruct digits as [|hi [|lo rest]]; [simpl in Hlen; lia..|]. simpl in Hd, Hlen.
    apply andb_true_iff in Hd as [Hhi Hd]. apply andb_true_iff in Hd as [Hlo Hd].
    destruct (IH rest ltac:(lia) Hd) as (bs & Hp & Hb & Hl).
    destruct (radix16_total hi lo Hhi Hlo) as [b Hr].
    assert (parse_pairs (hi :: lo :: rest) = Some (b :: bs)) as ->.
    { simpl. by rewrite Hr, Hp. }
    exists (b :: bs). split; [done|].
    rewrite bind_cons, (radix16_hex2 hi lo) by done. rewrite Hb. simpl. by rewrite Hl.
Qed.

(** The hex form of a link secret is exact in both directions.  Every
    32-byte secret parses back from its own hex, and a string is accepted
    exactly when it is the hex of some 32-byte secret, which is the one
    returned: no second spelling of a secret is accepted. *)
Theorem link_secret_hex_roundtrip :
  (∀ s, secret_ok s → LinkSecret_parse (LinkSecret_to_hex s) = Ok s) ∧
  (∀ hex s, LinkSecret_parse hex = Ok s ↔ secret_ok s ∧ LinkSecret_to_hex s = hex).
Proof.
  assert (∀ s, secret_ok s → LinkSecret_parse (LinkSecret_to_hex s) = Ok s) as Hrt.
  { intros [bs] Hs. unfold LinkSecret_parse, LinkSecret_to_hex. cbv zeta.
    rewrite bytes_of_string_of_bytes. unfold secret_ok in Hs. simpl in *.
    rewrite bind_hex2_lower, length_bind_hex2, Hs, parse_pairs_hex. done. }
  split; [done|]. intros hex s. split; [|by intros [Hs <-]; apply Hrt].
  unfold LinkSecret_parse. cbv zeta.
  destruct (bool_decide _ && _) eqn:Hd; simpl; [|done].
  apply andb_true_iff in Hd as [Hlen%bool_decide_eq_true Hd].
  destruct (parse_pairs_inv 32 _ Hlen Hd) as (bs & -> & Hb & Hl). intros [= <-].
  split; [done|]. unfold LinkSecret_to_hex. simpl. rewrite Hb. apply string_of_bytes_of_string.
Qed.

(** ** Redemption *)

Section redeem_once.
Context `{Blake3}.

Lemma redeem_ok t secret person binding now_ms t' :
  redeem t secret person binding now_ms = Ok t' ↔
  (LinkSecret_hash secret = token_hash t ∧ (now_ms < expires_at t)%Z ∧ consumed t = None ∧
     (lt_person t = None ∨ lt_person t = Some person)) ∧
  t' = mkLinkToken (token_hash t) (lt_role t) (lt_scope t) (lt_person t) (minted_by t)
         (minted_at t) (expires_at t) (Some (mkConsumption person binding now_ms)).
Proof.
  unfold redeem. repeat case_decide; [naive_solver lia..|]. case_bool_decide as Hc.
  { rewrite <-not_eq_None_Some in Hc. naive_solver. }
  rewrite <-eq_None_not_Some in Hc.
  destruct (lt_person t) as [i|]; [case_decide|]; naive_solver lia.
Qed.

(** A link token is redeemed at most once, by whoever holds its secret.
    Redeeming succeeds exactly when the secret hashes to the token's id, the
    token has not expired and is unconsumed, and the person is the intended one
    if it names one.  The result differs from the token only in its consumption
    stamp, so it is stored under the same key, the one computed from the secret;
    and no later redemption of it, by anyone and at any time, succeeds. *)
Theorem redeem_once t secret person binding now_ms t' :
  redeem t secret person binding now_ms = Ok t' →
  (LinkSecret_hash secret = token_hash t ∧ (now_ms < expires_at t)%Z ∧ consumed t = None ∧
     (lt_person t = None ∨ lt_person t = Some person)) ∧
  consumed t' = Some (mkConsumption person binding now_ms) ∧
  LinkToken_key t' = LinkToken_key t ∧ LinkToken_key t = key_for_secret secret ∧
  (∀ secret' person' binding' now', ∃ e,
     redeem t' secret' person' binding' now' = Err e ∧
     (LinkSecret_hash secret' = token_hash t → (now' < expires_at t)%Z →
        e = AlreadyConsumed)).
Proof.
  intros [Hpre ->]%redeem_ok. split; [done|]. split; [done|]. split; [done|]. split.
  { unfold LinkToken_key, key_for_secret. by destruct Hpre as [-> _]. }
  intros secret' person' binding' now'. unfold redeem. simpl.
  case_decide; [by eexists|]. case_decide as He; [exists Expired; split; [done|lia]|].
  by eexists.
Qed.

End redeem_once.

(** A token that expires at 100, for the secret of 32 zero bytes. *)
Definition sample_secret : LinkSecret := mkLinkSecret (replicate 32 Byte.x00).

Definition sample_token : link_token :=
  @LinkToken_new sample_hash sample_secret Operator Fleet (Some "ada")
    (ActorService "ariel-cli") 0 100.

Lemma redeem_once_witness :
  ∃ t', @redeem sample_hash sample_token sample_secret "ada" sample_key 99 = Ok t' ∧
    consumed t' = Some (mkConsumption "ada" sample_key 99).
Proof.
  eexists. split; [reflexivity|].
  eapply (@redeem_once sample_hash sample_token sample_secret "ada" sample_key 99).
  reflexivity.
Defined.
