(* ===== verification/Tombstones.v ===== *)
(** * Tombstones: the planners every store asks what to do

    Models [gonzalo-core]'s [tombstone.rs].  A store reads the current record
    inside its critical section, asks one of the four planners what to do and
    carries the plan out.  [fold_ancestors] bounds the history a record
    carries; [tombstone_winner] and [reconciled_record] build the record two
    diverged sides converge on. *)

From S2P Require Export Records Samples.

Definition DEFAULT_ANCESTOR_CAP : nat := 32.
Definition TOMBSTONE_DOMAIN : bytes := bytes_of_string "gonzalo:tombstone:v1".

Definition validate_ancestor_cap (cap : nat) : Result nat :=
  if decide (cap = 0) then Err (Backend "ancestor cap must be at least 1") else Ok cap.

Definition CONSUMER_TOMBSTONE_REJECTED : string :=
  "consumer put cannot write a tombstone; use delete_as".

Definition MANIFEST_TOMBSTONE_RECREATE_REJECTED : string :=
  "a deleted manifest is at this key; restore it with `gonzalo undelete`, "
  +:+ "or discard the tombstone with `gonzalo purge`".

(** ** Folding ancestors *)

(** [b.counter.cmp(&a.counter).then_with(|| b.hash.cmp(&a.hash))]: newest
    first. *)
#[export] Instance Revision_newest_first : Cmp Revision := λ a b,
  cmp (rev_pair b) (rev_pair a).

#[export] Instance Revision_newest_first_laws : CmpLaws Revision.
Proof.
  split; unfold cmp, Revision_newest_first; fold (@cmp (N * ContentHash) _).
  - intros x y. rewrite cmp_eq_iff. split; [|by intros ->]. intros H. symmetry.
    by apply rev_pair_inj.
  - intros x y. apply cmp_opp.
  - intros x y z H1 H2. by eapply cmp_lt_trans.
Qed.

Definition fold_ancestors (stored : Revision) (incoming : list Revision)
    (current : option record) (cap : nat) : list Revision :=
  let from_current :=
    match current with
    | Some c => rec_revision c :: rec_ancestors c
    | None => []
    end in
  take cap (filter (λ r, r ≠ stored) (dedup (sort (incoming ++ from_current)))).

(** ** Tombstones *)

Definition is_manifest_kind (k : RecordKind) : bool :=
  match k with GraphManifest | VectorManifest => true | _ => false end.

Section tombstones.
Context `{Blake3}.

Definition tombstone_hash : ContentHash := ContentHash_of TOMBSTONE_DOMAIN.

Definition tombstone_of (current : record) (now : Z) (cap : nat)
    (author : option Identity) : record :=
  let revision := mkRevision (u64_succ (rev_counter (rec_revision current)))
                    tombstone_hash in
  let ancestors := fold_ancestors revision [] (Some current) cap in
  let meta := match author with
              | Some a => set_author (rec_meta current) a
              | None => rec_meta current
              end in
  let meta := set_times meta (meta_created meta) now in
  let retains_body := is_manifest_kind (rec_kind current) in
  mkRecord (rec_key current) Tombstone revision (Some (rec_revision current))
    (if retains_body then rec_body current else Inline [])
    meta [] ancestors (Some now)
    (match rec_body current with Blob hash _ => Some hash | Inline _ => None end)
    (if retains_body then Some (rec_kind current) else None).

(** *** Plans *)

Record Conflict := mkConflict {
  cf_key : RecordKey;
  cf_expected : option Revision;
  cf_current : record
}.

Inductive PutPlan :=
  | PutWrite (r : record)
  | PutConflict (c : Conflict)
  | PutNotFound
  | PutRejected (reason : string).

Definition plan_put (current : option record) (r : record)
    (expected : option Revision) (now : Z) (cap : nat) : PutPlan :=
  if is_tombstone r then PutRejected CONSUMER_TOMBSTONE_REJECTED
  else
    match current with
    | None =>
        match expected with
        | Some _ => PutNotFound
        | None =>
            PutWrite (set_ancestors (set_meta r (set_times (rec_meta r) now now))
              (fold_ancestors (rec_revision r) (rec_ancestors r) None cap))
        end
    | Some t =>
        if is_tombstone t then
          match expected with
          | None =>
              if match rec_deleted_kind t with
                 | Some k => is_manifest_kind k | None => false end
              then PutRejected MANIFEST_TOMBSTONE_RECREATE_REJECTED
              else
                let revision := mkRevision (u64_succ (rev_counter (rec_revision t)))
                                  (ContentHash_of (body_bytes (rec_body r))) in
                PutWrite (mkRecord (rec_key r) (rec_kind r) revision
                  (Some (rec_revision t)) (rec_body r)
                  (set_times (rec_meta r) now now) (rec_links r)
                  (fold_ancestors revision (rec_ancestors r) (Some t) cap)
                  None None None)
          | Some _ => PutNotFound
          end
        else if decide (expected = Some (rec_revision t)) then
          PutWrite (set_ancestors
            (set_meta r (set_times (rec_meta r) (meta_created (rec_meta t)) now))
            (fold_ancestors (rec_revision r) (rec_ancestors r) (Some t) cap))
        else PutConflict (mkConflict (rec_key r) expected t)
    end.

Definition plan_put_raw (current : option record) (r : record)
    (expected : option Revision) (_now : Z) (cap : nat) : PutPlan :=
  match current, expected with
  | None, None =>
      PutWrite (set_ancestors r
        (fold_ancestors (rec_revision r) (rec_ancestors r) None cap))
  | None, Some _ => PutNotFound
  | Some c, expected =>
      if decide (expected = Some (rec_revision c)) then
        PutWrite (set_ancestors r
          (fold_ancestors (rec_revision r) (rec_ancestors r) (Some c) cap))
      else PutConflict (mkConflict (rec_key r) expected c)
  end.

Inductive DeletePlan :=
  | DeleteWrite (r : record)
  | DeleteNoop
  | DeleteConflict (c : Conflict).

Definition plan_delete (current : option record) (expected : option Revision)
    (now : Z) (cap : nat) (author : option Identity) : DeletePlan :=
  match current with
  | None => DeleteNoop
  | Some c =>
      if is_tombstone c then DeleteNoop
      else if decide (expected = None ∨ expected = Some (rec_revision c)) then
        DeleteWrite (tombstone_of c now cap author)
      else DeleteConflict (mkConflict (rec_key c) expected c)
  end.

Inductive PurgePlan :=
  | PurgeRemove
  | PurgeNoop
  | PurgeConflict (c : Conflict).

Definition plan_purge (current : option record) (expected : Revision) : PurgePlan :=
  match current with
  | None => PurgeNoop
  | Some c =>
      if decide (rec_revision c = expected) then PurgeRemove
      else PurgeConflict (mkConflict (rec_key c) (Some expected) c)
  end.

(** ** Reconciling two diverged records *)

Definition reconciled_ancestors (stored : Revision) (a b : record) (cap : nat) :
    list Revision :=
  fold_ancestors stored
    (rec_revision a :: rec_ancestors a ++ rec_revision b :: rec_ancestors b) None cap.

(** [(a.counter, &a.hash) >= (b.counter, &b.hash)]. *)
Definition rev_ge (a b : Revision) : bool :=
  bool_decide (ole (rev_pair b) (rev_pair a)).

Definition tombstone_winner (a b : record) (cap : nat) : record :=
  let winner := if rev_ge (rec_revision a) (rec_revision b) then a else b in
  set_ancestors winner (reconciled_ancestors (rec_revision winner) a b cap).

(** [for l in &b.links { if !links.contains(l) { links.push(l) } }]. *)
Definition union_links (a b : list RecordKey) : list RecordKey :=
  foldl (λ links l, if decide (l ∈ links) then links else links ++ [l]) a b.

Definition reconciled_record (a b : record) (body : Body) (author : Identity)
    (origin_system : string) (cap : nat) : record :=
  let revision :=
    mkRevision (u64_succ (N.max (rev_counter (rec_revision a))
                                (rev_counter (rec_revision b))))
      (ContentHash_of (body_bytes body)) in
  let ancestors := reconciled_ancestors revision a b cap in
  let labels := meta_labels (rec_meta b) ∪ meta_labels (rec_meta a) in
  let links := union_links (rec_links a) (rec_links b) in
  let parent :=
    if decide (rev_counter (rec_revision b) ≤ rev_counter (rec_revision a))%N
    then rec_revision a else rec_revision b in
  mkRecord (rec_key a) (rec_kind a) revision (Some parent) body
    (mkMeta author origin_system
      (Z.min (meta_created (rec_meta a)) (meta_created (rec_meta b)))
      (Z.max (meta_updated (rec_meta a)) (meta_updated (rec_meta b))) labels)
    links ancestors None None None.
End tombstones.

#[export] Instance Conflict_eq_dec : EqDecision Conflict.
Proof. solve_decision. Defined.
#[export] Instance PutPlan_eq_dec : EqDecision PutPlan.
Proof. solve_decision. Defined.
#[export] Instance DeletePlan_eq_dec : EqDecision DeletePlan.
Proof. solve_decision. Defined.
#[export] Instance PurgePlan_eq_dec : EqDecision PurgePlan.
Proof. solve_decision. Defined.

(** ** What a fold keeps *)

(** The revisions a fold draws from. *)
Definition history (incoming : list Revision) (current : option record) :
    list Revision :=
  incoming ++ match current with
              | Some c => rec_revision c :: rec_ancestors c | None => [] end.

Lemma fold_ancestors_alt stored incoming current cap :
  fold_ancestors stored incoming current cap =
    take cap (filter (λ r, r ≠ stored) (dedup (sort (history incoming current)))).
Proof. reflexivity. Qed.

Section folding.
Implicit Types (stored r : Revision) (incoming : list Revision).

Lemma fold_source_increasing stored l :
  increasing (filter (λ r, r ≠ stored) (dedup (sort l))).
Proof. apply StronglySorted_filter, dedup_increasing, sort_sorted. Qed.

Lemma elem_of_fold_source stored l r :
  r ∈ filter (λ r, r ≠ stored) (dedup (sort l)) ↔ r ∈ l ∧ r ≠ stored.
Proof. rewrite list_elem_of_filter, elem_of_dedup, elem_of_sort. naive_solver. Qed.

Lemma fold_ancestors_increasing stored incoming current cap :
  increasing (fold_ancestors stored incoming current cap).
Proof. rewrite fold_ancestors_alt. apply StronglySorted_take, fold_source_increasing. Qed.

Lemma fold_ancestors_length stored incoming current cap :
  length (fold_ancestors stored incoming current cap) ≤ cap.
Proof. rewrite fold_ancestors_alt, length_take. lia. Qed.

Lemma elem_of_fold_ancestors_1 stored incoming current cap r :
  r ∈ fold_ancestors stored incoming current cap →
  r ∈ history incoming current ∧ r ≠ stored.
Proof.
  rewrite fold_ancestors_alt. intros Hr.
  by apply elem_of_fold_source, (elem_of_take_1 _ cap).
Qed.

(** What a fold drops is older than everything it keeps, and is dropped only
    for want of room. *)
Lemma fold_ancestors_dropped stored incoming current cap r :
  r ∈ history incoming current → r ≠ stored →
  r ∉ fold_ancestors stored incoming current cap →
  length (fold_ancestors stored incoming current cap) = cap ∧
  ∀ k, k ∈ fold_ancestors stored incoming current cap → olt k r.
Proof.
  rewrite fold_ancestors_alt. intros Hr Hne Hnin.
  assert (r ∈ filter (λ r, r ≠ stored) (dedup (sort (history incoming current))))
    as Hin by by apply elem_of_fold_source.
  rewrite <-(take_drop cap (filter _ _)), elem_of_app in Hin.
  destruct Hin as [|Hin]; [done|]. split.
  - apply elem_of_drop_nonempty in Hin. rewrite length_take. lia.
  - intros k Hk. eapply StronglySorted_take_drop; [apply fold_source_increasing|done..].
Qed.

Lemma fold_source_length stored l :
  length (filter (λ r, r ≠ stored) (dedup (sort l))) ≤ length l.
Proof.
  trans (length (dedup (sort l))); [apply length_filter|].
  trans (length (sort l)); [apply length_dedup|]. by rewrite length_sort.
Qed.

Lemma fold_ancestors_length_history stored incoming current cap :
  length (fold_ancestors stored incoming current cap) ≤
    length (history incoming current).
Proof.
  rewrite fold_ancestors_alt, length_take.
  pose proof (fold_source_length stored (history incoming current)). lia.
Qed.

(** With room for every revision nothing is lost. *)
Lemma fold_ancestors_lossless stored incoming current cap r :
  length (history incoming current) ≤ cap →
  r ∈ fold_ancestors stored incoming current cap ↔
    r ∈ history incoming current ∧ r ≠ stored.
Proof.
  intros Hcap. split; [apply elem_of_fold_ancestors_1|]. intros [Hr Hne].
  rewrite fold_ancestors_alt, take_ge; [by apply elem_of_fold_source|].
  pose proof (fold_source_length stored (history incoming current)). lia.
Qed.

(** The newest revision of the history always survives. *)
Lemma fold_ancestors_newest stored incoming current cap r :
  0 < cap → r ∈ history incoming current → r ≠ stored →
  (∀ r', r' ∈ history incoming current → r' ≠ stored → ole r r') →
  head (fold_ancestors stored incoming current cap) = Some r.
Proof.
  intros Hcap Hr Hne Hnew. rewrite fold_ancestors_alt.
  pose proof (fold_source_increasing stored (history incoming current)) as Hi.
  pose proof (λ x, elem_of_fold_source stored (history incoming current) x) as Hel.
  destruct (filter _ _) as [|x l]; [exfalso; by apply (not_elem_of_nil r), Hel|].
  destruct cap as [|cap]; [lia|]. simpl. f_equal.
  assert (ole r x) as Hrx by (apply Hnew; apply Hel; set_solver).
  destruct (proj1 (elem_of_cons l r x) (proj2 (Hel r) (conj Hr Hne))) as [|Hin]; [done|].
  apply StronglySorted_inv in Hi as [_ Hx]. rewrite Forall_forall in Hx.
  exfalso. apply (not_ole r x); [by apply Hx|done].
Qed.

Lemma fold_ancestors_ext stored inc1 inc2 cur1 cur2 cap :
  (∀ r, r ≠ stored → r ∈ history inc1 cur1 ↔ r ∈ history inc2 cur2) →
  fold_ancestors stored inc1 cur1 cap = fold_ancestors stored inc2 cur2 cap.
Proof.
  intros Heq. rewrite !fold_ancestors_alt. f_equal. apply increasing_unique.
  - apply fold_source_increasing.
  - apply fold_source_increasing.
  - intros r. rewrite !elem_of_fold_source. naive_solver.
Qed.
End folding.

(** ** What the planners decide *)

(** A consumer read of a raw one: a tombstone looks absent. *)
Definition live (o : option record) : option record :=
  o ≫= λ r, if is_tombstone r then None else Some r.

Lemma live_Some o r : live o = Some r ↔ o = Some r ∧ is_tombstone r = false.
Proof. destruct o as [c|]; simpl; [|naive_solver]. destruct (is_tombstone c) eqn:?; naive_solver congruence. Qed.

Lemma live_None o : live o = None ↔ ∀ r, o = Some r → is_tombstone r = true.
Proof. destruct o as [c|]; simpl; [|naive_solver]. destruct (is_tombstone c) eqn:?; naive_solver congruence. Qed.

Lemma is_manifest_kind_live k : is_manifest_kind k = true → k ≠ Tombstone.
Proof. by destruct k. Qed.

Section planners.
Context `{Blake3}.

Lemma tombstone_of_is_tombstone c now cap a :
  is_tombstone (tombstone_of c now cap a) = true.
Proof. reflexivity. Qed.

Lemma tombstone_of_key c now cap a : rec_key (tombstone_of c now cap a) = rec_key c.
Proof. reflexivity. Qed.

Lemma tombstone_of_revision c now cap a :
  rec_revision (tombstone_of c now cap a) =
    mkRevision (u64_succ (rev_counter (rec_revision c))) tombstone_hash.
Proof. reflexivity. Qed.

(** The three ways a consumer write lands. *)
Variant lands (current : option record) (r : record) (now : Z) (cap : nat) :
    option Revision → record → Prop :=
  | lands_create : current = None →
      lands current r now cap None
        (set_ancestors (set_meta r (set_times (rec_meta r) now now))
          (fold_ancestors (rec_revision r) (rec_ancestors r) None cap))
  | lands_edit c : current = Some c → is_tombstone c = false →
      lands current r now cap (Some (rec_revision c))
        (set_ancestors (set_meta r (set_times (rec_meta r) (meta_created (rec_meta c)) now))
          (fold_ancestors (rec_revision r) (rec_ancestors r) current cap))
  | lands_recreate t v : current = Some t → is_tombstone t = true →
      (∀ k, rec_deleted_kind t = Some k → is_manifest_kind k = false) →
      v = mkRevision (u64_succ (rev_counter (rec_revision t)))
            (ContentHash_of (body_bytes (rec_body r))) →
      lands current r now cap None
        (mkRecord (rec_key r) (rec_kind r) v (Some (rec_revision t)) (rec_body r)
          (set_times (rec_meta r) now now) (rec_links r)
          (fold_ancestors v (rec_ancestors r) current cap) None None None).

Lemma plan_put_lands current r e now cap s :
  plan_put current r e now cap = PutWrite s ↔
    is_tombstone r = false ∧ lands current r now cap e s.
Proof.
  split.
  - unfold plan_put. intros Hp. destruct (is_tombstone r) eqn:Hr; [done|].
    split; [done|]. destruct current as [c|]; [destruct (is_tombstone c) eqn:Hc|].
    + destruct e as [e|]; [done|].
      destruct (rec_deleted_kind c) as [k|] eqn:Hk;
        [destruct (is_manifest_kind k) eqn:Hm; [done|]|];
        injection Hp as <-; apply (lands_recreate _ _ _ _ c); naive_solver.
    + case_decide; [|done]. subst e. injection Hp as <-. by apply (lands_edit _ _ _ _ c).
    + destruct e; [done|]. injection Hp as <-. by apply lands_create.
  - intros [Hr Hl]. unfold plan_put. rewrite Hr. destruct Hl as [-> | c -> Hc | t v -> Ht Hk ->].
    + done.
    + rewrite Hc. by rewrite decide_True.
    + rewrite Ht. destruct (rec_deleted_kind t) as [k|] eqn:E; [|done].
      by rewrite (Hk k).
Qed.

Lemma plan_put_conflict current r e now cap c :
  plan_put current r e now cap = PutConflict c →
    ∃ t, current = Some t ∧ c = mkConflict (rec_key r) e t ∧
      is_tombstone t = false ∧ e ≠ Some (rec_revision t).
Proof.
  unfold plan_put. destruct (is_tombstone r); [done|].
  destruct current as [t|]; [|by destruct e].
  destruct (is_tombstone t) eqn:Ht; [destruct e; [done|]; by repeat case_match|].
  case_decide; [done|]. intros [= <-]. by exists t.
Qed.

Lemma plan_put_not_found current r e now cap :
  plan_put current r e now cap = PutNotFound → is_Some e ∧ live current = None.
Proof.
  unfold plan_put. destruct (is_tombstone r); [done|].
  destruct current as [t|]; [|by destruct e].
  destruct (is_tombstone t) eqn:Ht; [destruct e; [|by repeat case_match]|by case_decide].
  intros _. simpl. by rewrite Ht.
Qed.

Lemma plan_put_rejected current r e now cap reason :
  plan_put current r e now cap = PutRejected reason →
    is_tombstone r = true ∨
    e = None ∧ live current = None ∧
    ∃ t k, current = Some t ∧ rec_deleted_kind t = Some k ∧ is_manifest_kind k = true.
Proof.
  unfold plan_put. destruct (is_tombstone r); [by left|]. right.
  destruct current as [t|]; [|by destruct e].
  destruct (is_tombstone t) eqn:Ht; [destruct e; [done|]|by case_decide].
  destruct (rec_deleted_kind t) as [k|] eqn:Hk; [|done].
  destruct (is_manifest_kind k) eqn:Hm; [|done]. simpl. rewrite Ht. naive_solver.
Qed.

(** A store write never moves the record to another key. *)
Lemma plan_put_key current r e now cap s :
  plan_put current r e now cap = PutWrite s → rec_key s = rec_key r.
Proof. intros [_ []]%plan_put_lands; reflexivity. Qed.

Lemma plan_put_live current r e now cap s :
  plan_put current r e now cap = PutWrite s → is_tombstone s = false.
Proof. intros [Hr Hl]%plan_put_lands. rewrite <-Hr. by destruct Hl. Qed.

Lemma plan_put_raw_write current r e now cap s :
  plan_put_raw current r e now cap = PutWrite s ↔
    e = rec_revision <$> current ∧
    s = set_ancestors r (fold_ancestors (rec_revision r) (rec_ancestors r) current cap).
Proof.
  unfold plan_put_raw. destruct current as [c|], e as [e|]; simpl;
    try case_decide; naive_solver.
Qed.

Lemma plan_put_raw_conflict current r e now cap c :
  plan_put_raw current r e now cap = PutConflict c ↔
    ∃ cur, current = Some cur ∧ e ≠ Some (rec_revision cur) ∧
      c = mkConflict (rec_key r) e cur.
Proof.
  unfold plan_put_raw. destruct current as [cur|], e as [e|]; simpl;
    try case_decide; naive_solver.
Qed.

Lemma plan_put_raw_key current r e now cap s :
  plan_put_raw current r e now cap = PutWrite s → rec_key s = rec_key r.
Proof. by intros [_ ->]%plan_put_raw_write. Qed.

Lemma plan_delete_write current e now cap a t :
  plan_delete current e now cap a = DeleteWrite t ↔
    ∃ c, current = Some c ∧ is_tombstone c = false ∧
      (e = None ∨ e = Some (rec_revision c)) ∧ t = tombstone_of c now cap a.
Proof.
  unfold plan_delete. destruct current as [c|]; [|naive_solver].
  destruct (is_tombstone c) eqn:Hc.
  { split; [done|]. intros (? & [= <-] & ? & _). congruence. }
  case_decide; split; [intros [= <-]; eauto | | done |]; intros (? & [= <-] & ? & ? & ->);
    done.
Qed.

Lemma plan_delete_conflict current e now cap a c :
  plan_delete current e now cap a = DeleteConflict c →
    is_tombstone (cf_current c) = false ∧ current = Some (cf_current c).
Proof.
  unfold plan_delete. destruct current as [t|]; [|done].
  destruct (is_tombstone t) eqn:Ht; [done|]. case_decide; [done|]. by intros [= <-].
Qed.
End planners.
#[export] Hint Resolve plan_put_key plan_put_live plan_put_raw_key : gonzalo.

(** ** The properties *)

Section properties.
Context `{Blake3}.

(** The history a record carries is canonical and bounded.  It is
    strictly newest-first, at most [cap] long, never names the record's own
    revision, holds only revisions the writer or the replaced record named,
    and a revision is dropped only when the list is full of newer ones.  Two
    substrates that fold the same set of revisions persist the same list,
    whatever order and however often each met them. *)
Theorem fold_ancestors_spec (stored : Revision) (incoming : list Revision)
    (current : option record) (cap : nat) :
  let kept := fold_ancestors stored incoming current cap in
  increasing kept ∧ length kept ≤ cap ∧ stored ∉ kept ∧
  (∀ r, r ∈ kept → r ∈ history incoming current) ∧
  (∀ r, r ∈ history incoming current → r ≠ stored → r ∉ kept →
     length kept = cap ∧ ∀ k, k ∈ kept → olt k r) ∧
  (∀ incoming' current',
     (∀ r, r ≠ stored → r ∈ history incoming current ↔ r ∈ history incoming' current') →
     kept = fold_ancestors stored incoming' current' cap).
Proof.
  intros kept. split_and!; [| | | | |intros incoming' current'; apply fold_ancestors_ext].
  - apply fold_ancestors_increasing.
  - apply fold_ancestors_length.
  - by intros [_ []]%elem_of_fold_ancestors_1.
  - by intros r [? _]%elem_of_fold_ancestors_1.
  - intros r. apply fold_ancestors_dropped.
Qed.

(** C11: a consumer [put] is a compare-and-swap on what a consumer can see.
    It writes exactly when the expected revision is the visible one (absent
    and deleted keys show none); what it writes is live, keeps the caller's
    key, kind, body, links and labels, is stamped by the store's clock
    ([created] survives edits), and carries a bounded history without its
    own revision.  A conflict shows the live record it lost to, [NotFound]
    means a revision was expected of a key that shows none, and a refusal is
    a tombstone or a create over a deleted manifest. *)
Theorem plan_put_compare_and_swap (current : option record) (r : record)
    (e : option Revision) (now : Z) (cap : nat) :
  match plan_put current r e now cap with
  | PutWrite s =>
      e = rec_revision <$> live current ∧ is_tombstone s = false ∧
      (rec_key s, rec_kind s, rec_body s, rec_links s) =
        (rec_key r, rec_kind r, rec_body r, rec_links r) ∧
      rec_meta s = set_times (rec_meta r)
        (default now (meta_created ∘ rec_meta <$> live current)) now ∧
      increasing (rec_ancestors s) ∧ length (rec_ancestors s) ≤ cap ∧
      rec_revision s ∉ rec_ancestors s
  | PutConflict c =>
      live current = Some (cf_current c) ∧ cf_expected c = e ∧
      e ≠ Some (rec_revision (cf_current c)) ∧ cf_key c = rec_key r
  | PutNotFound => is_Some e ∧ live current = None
  | PutRejected _ =>
      is_tombstone r = true ∨
      e = None ∧ live current = None ∧
      ∃ t k, current = Some t ∧ rec_deleted_kind t = Some k ∧ is_manifest_kind k = true
  end.
Proof.
  destruct (plan_put current r e now cap) eqn:Hp.
  - pose proof (plan_put_live _ _ _ _ _ _ Hp) as Hl.
    apply plan_put_lands in Hp as [Hr Hlands].
    assert (∀ st inc, st ∉ fold_ancestors st inc current cap) as Hself
      by (by intros ?? [_ []]%elem_of_fold_ancestors_1).
    destruct Hlands as [-> | c -> Hc | t v -> Ht Hk ->]; simpl; rewrite ?Hc, ?Ht;
      split_and!; auto using fold_ancestors_increasing, fold_ancestors_length.
  - apply plan_put_conflict in Hp as (t & -> & -> & Ht & ?). simpl. by rewrite Ht.
  - by apply plan_put_not_found in Hp.
  - by apply plan_put_rejected in Hp.
Qed.

Lemma tombstone_of_ancestors c now cap a r :
  length (rec_ancestors c) < cap →
  rev_counter r ≠ u64_succ (rev_counter (rec_revision c)) →
  r = rec_revision c ∨ r ∈ rec_ancestors c →
  r ∈ rec_ancestors (tombstone_of c now cap a).
Proof.
  intros Hcap Hne Hr. apply fold_ancestors_lossless; unfold history; simpl; [lia|].
  split; [set_solver|]. by intros ->.
Qed.

(** A deleted key never rejoins its past.  Deleting a live record and
    creating a new one at the same key gives three strictly increasing
    counters, the tombstone is the new record's parent, and with room in the
    history both the deleted revision and the tombstone are among the new
    record's ancestors (so a peer that holds either is behind, not
    diverged). *)
Theorem recreation_continues_the_chain (c r t s : record) (e : option Revision)
    (now now' : Z) (cap : nat) (a : option Identity) :
  plan_delete (Some c) e now cap a = DeleteWrite t →
  plan_put (Some t) r None now' cap = PutWrite s →
  (rev_counter (rec_revision c) < u64_max - 1)%N →
  length (rec_ancestors r) + length (rec_ancestors c) + 2 ≤ cap →
  (rev_counter (rec_revision c) < rev_counter (rec_revision t)
     < rev_counter (rec_revision s))%N ∧
  rec_parent s = Some (rec_revision t) ∧
  rec_revision t ∈ rec_ancestors s ∧ rec_revision c ∈ rec_ancestors s.
Proof.
  intros (c' & [= <-] & Hc & _ & Ht)%plan_delete_write [_ Hl]%plan_put_lands Hctr Hcap.
  assert (u64_succ (rev_counter (rec_revision c)) = rev_counter (rec_revision c) + 1)%N
    as Hs by (apply u64_succ_small; lia).
  assert (rec_revision c ∈ rec_ancestors t) as Hin.
  { subst t. apply tombstone_of_ancestors; [lia|lia|by left]. }
  assert (length (rec_ancestors t) ≤ S (length (rec_ancestors c))) as Hlen.
  { subst t. apply fold_ancestors_length_history. }
  assert (rev_counter (rec_revision t) = rev_counter (rec_revision c) + 1)%N as Htc
    by (by subst t).
  assert (is_tombstone t = true) as Htomb by (by subst t). clear Ht.
  inversion Hl as [Hn|? Hc'|t' v Ht' _ _ Hv Hs']; [done|].
  injection Ht' as <-. subst v. cbn.
  rewrite (u64_succ_small (rev_counter (rec_revision t))) by (unfold u64_max in *; lia).
  split_and!; [lia|lia|done|..];
    (apply fold_ancestors_lossless; unfold history; rewrite ?length_app; simpl; [lia|]);
    (split; [set_solver|]); intros Heq; apply (f_equal rev_counter) in Heq; simpl in Heq; lia.
Qed.

(** The tombstone-only fields of a live record are the client's, except after
    a recreation.  A create at a fresh key and an edit store [deleted_at],
    [deleted_blob] and [deleted_kind] as they came in the request, so a live
    record may carry them; only the recreation over a tombstone clears them. *)
Theorem live_records_keep_tombstone_fields (current : option record) (r s : record)
    (e : option Revision) (now : Z) (cap : nat) :
  plan_put current r e now cap = PutWrite s →
  is_tombstone s = false ∧
  (rec_deleted_at s, rec_deleted_blob s, rec_deleted_kind s) =
    match current with
    | Some t => if is_tombstone t then (None, None, None)
                else (rec_deleted_at r, rec_deleted_blob r, rec_deleted_kind r)
    | None => (rec_deleted_at r, rec_deleted_blob r, rec_deleted_kind r)
    end.
Proof.
  intros Hp. split; [by eapply plan_put_live|]. apply plan_put_lands in Hp as [_ Hl].
  destruct Hl as [->|c -> Hc|t v -> Ht _ _]; [done|by rewrite Hc|by rewrite Ht].
Qed.

Lemma rev_ge_total a b : rev_ge a b = false → rev_ge b a = true.
Proof.
  unfold rev_ge. rewrite bool_decide_eq_false, bool_decide_eq_true. intros Hn.
  by destruct (total ole (rev_pair a) (rev_pair b)).
Qed.

Lemma rev_ge_antisym a b : rev_ge a b = true → rev_ge b a = true → a = b.
Proof.
  unfold rev_ge. rewrite !bool_decide_eq_true. intros H1 H2.
  apply rev_pair_inj. by apply (anti_symm ole).
Qed.

Lemma reconciled_ancestors_comm stored a b cap :
  reconciled_ancestors stored a b cap = reconciled_ancestors stored b a cap.
Proof. apply fold_ancestors_ext. intros r _. unfold history. set_solver. Qed.

Lemma elem_of_reconciled_ancestors stored a b cap r :
  length (rec_ancestors a) + length (rec_ancestors b) + 2 ≤ cap →
  r ∈ reconciled_ancestors stored a b cap ↔
    (r = rec_revision a ∨ r ∈ rec_ancestors a ∨
     r = rec_revision b ∨ r ∈ rec_ancestors b) ∧ r ≠ stored.
Proof.
  intros Hcap. unfold reconciled_ancestors. rewrite fold_ancestors_lossless.
  - unfold history. set_solver.
  - unfold history. rewrite app_nil_r. simpl. rewrite length_app. simpl. lia.
Qed.

Lemma elem_of_union_links x a b : x ∈ union_links a b ↔ x ∈ a ∨ x ∈ b.
Proof.
  unfold union_links. revert a. induction b as [|y b IH]; intros a; simpl.
  - set_solver.
  - rewrite IH. case_decide; set_solver.
Qed.

Lemma NoDup_union_links a b : NoDup a → NoDup (union_links a b).
Proof.
  unfold union_links. revert a. induction b as [|y b IH]; intros a Ha; simpl; [done|].
  apply IH. case_decide; [done|]. apply NoDup_app. set_solver by eauto using NoDup_singleton.
Qed.

(** A pair of divergent tombstones converges on one record: both sides
    pick the same winner with the same ancestors whichever is named first,
    the winner's revision is the greater of the two and the loser's is in
    its history (when there is room), so the loser's store fast-forwards. *)
Theorem tombstone_winner_converges (a b : record) (cap : nat) :
  rec_revision a ≠ rec_revision b →
  length (rec_ancestors a) + length (rec_ancestors b) + 2 ≤ cap →
  tombstone_winner a b cap = tombstone_winner b a cap ∧
  ∃ w l, ((w = a ∧ l = b) ∨ (w = b ∧ l = a)) ∧
    rec_revision (tombstone_winner a b cap) = rec_revision w ∧
    olt (rev_pair (rec_revision l)) (rev_pair (rec_revision w)) ∧
    rec_revision l ∈ rec_ancestors (tombstone_winner a b cap).
Proof.
  intros Hne Hcap.
  assert (∀ x y, rec_revision x ≠ rec_revision y →
    length (rec_ancestors x) + length (rec_ancestors y) + 2 ≤ cap →
    rev_ge (rec_revision x) (rec_revision y) = true →
    tombstone_winner x y cap = tombstone_winner y x cap ∧
    rec_revision (tombstone_winner x y cap) = rec_revision x ∧
    olt (rev_pair (rec_revision y)) (rev_pair (rec_revision x)) ∧
    rec_revision y ∈ rec_ancestors (tombstone_winner x y cap)) as Hw.
  { intros x y Hxy Hc Hge. unfold tombstone_winner. rewrite Hge.
    destruct (rev_ge (rec_revision y) (rec_revision x)) eqn:Hge'.
    { by destruct Hxy; apply rev_ge_antisym. }
    split_and!; [by rewrite reconciled_ancestors_comm|done| |].
    - unfold rev_ge in Hge'. by apply bool_decide_eq_false, not_ole in Hge'.
    - apply elem_of_reconciled_ancestors; naive_solver. }
  destruct (rev_ge (rec_revision a) (rec_revision b)) eqn:Hge.
  - destruct (Hw a b) as (? & ? & ? & ?); [done..|]. split; [done|]. exists a, b. auto.
  - destruct (Hw b a) as (He & ? & ? & ?); [done|lia|by apply rev_ge_total|].
    split; [done|]. rewrite <-He. exists b, a. auto.
Qed.

(** A merged record supersedes both of its sources: its counter is past
    both, its history (given room) holds both revisions and all of both
    histories, its links are the union, its times span both, a label only
    one side has survives, and it is never a tombstone's shadow. *)
Theorem reconciled_record_supersedes (a b : record) (body : Body)
    (author : Identity) (origin : string) (cap : nat) :
  (N.max (rev_counter (rec_revision a)) (rev_counter (rec_revision b)) < u64_max)%N →
  (∀ r, r ∈ rec_ancestors a ∨ r ∈ rec_ancestors b →
     rev_counter r ≤ N.max (rev_counter (rec_revision a)) (rev_counter (rec_revision b)))%N →
  length (rec_ancestors a) + length (rec_ancestors b) + 2 ≤ cap →
  let m := reconciled_record a b body author origin cap in
  (rev_counter (rec_revision a) < rev_counter (rec_revision m) ∧
   rev_counter (rec_revision b) < rev_counter (rec_revision m))%N ∧
  (∀ r, r ∈ rec_ancestors m ↔
     r = rec_revision a ∨ r ∈ rec_ancestors a ∨
     r = rec_revision b ∨ r ∈ rec_ancestors b) ∧
  (∀ l, l ∈ rec_links m ↔ l ∈ rec_links a ∨ l ∈ rec_links b) ∧
  (∀ x, x = a ∨ x = b →
     meta_created (rec_meta m) ≤ meta_created (rec_meta x) ∧
     meta_updated (rec_meta x) ≤ meta_updated (rec_meta m))%Z ∧
  (∀ k v, meta_labels (rec_meta m) !! k = Some v ↔
     meta_labels (rec_meta b) !! k = Some v ∨
     meta_labels (rec_meta b) !! k = None ∧ meta_labels (rec_meta a) !! k = Some v) ∧
  rec_deleted_at m = None ∧ rec_deleted_blob m = None ∧ rec_deleted_kind m = None.
Proof.
  intros Hmax Hanc Hcap m.
  assert (rev_counter (rec_revision m) =
    N.max (rev_counter (rec_revision a)) (rev_counter (rec_revision b)) + 1)%N as Hm.
  { apply u64_succ_small. done. }
  split_and!; [rewrite Hm; lia | rewrite Hm; lia | | | | | done..].
  - intros r. etrans; [by apply elem_of_reconciled_ancestors|]. split; [tauto|].
    intros Hr. split; [done|]. intros Heq.
    apply (f_equal rev_counter) in Heq. unfold m in Hm. cbn in Hm, Heq. rewrite Hm in Heq.
    destruct Hr as [-> | [Hr | [-> | Hr]]];
      [lia|specialize (Hanc r (or_introl Hr)); lia
      |lia|specialize (Hanc r (or_intror Hr)); lia].
  - intros l. apply elem_of_union_links.
  - intros x [-> | ->]; cbn; lia.
  - intros k v. cbn. rewrite lookup_union_Some_raw. done.
Qed.
End properties.

(** ** Witnesses *)

Section witnesses.
#[local] Existing Instance sample_hash.

(** A live [Topic] that says it pins a blob. *)
Lemma live_records_keep_tombstone_fields_witness :
  let r := mkRecord sample_key Topic (sample_rev 0 "v") None (sample_body "v") sample_meta
             [] [] None (Some (mkHash "pinned")) None in
  ∃ s, plan_put None r None 9 3 = PutWrite s ∧ is_tombstone s = false ∧
    rec_deleted_blob s = Some (mkHash "pinned").
Proof.
  intros r. eexists. split; [reflexivity|].
  destruct (live_records_keep_tombstone_fields None r _ None 9 3 eq_refl) as [Ht Heq].
  split; [exact Ht|exact (f_equal (λ x, x.1.2) Heq)].
Defined.

Lemma recreation_continues_the_chain_witness :
  let c := sample_record sample_key 4 "v4" [sample_rev 3 "v3"] in
  let r := sample_record sample_key 0 "new" [] in
  let t := tombstone_of c 100 32 None in
  ∃ s, plan_put (Some t) r None 200 32 = PutWrite s ∧
    rec_revision t ∈ rec_ancestors s ∧ rec_revision c ∈ rec_ancestors s.
Proof.
  intros c r t. eexists. split; [vm_compute; reflexivity|].
  eapply (recreation_continues_the_chain c r t _ None 100 200 32 None);
    [reflexivity|vm_compute; reflexivity|vm_compute; reflexivity|vm_compute; lia].
Defined.

Lemma tombstone_winner_converges_witness :
  let a := tombstone_of (sample_record sample_key 4 "v4" []) 100 32 None in
  let b := tombstone_of (sample_record sample_key 6 "v6" []) 90 32 None in
  tombstone_winner a b 32 = tombstone_winner b a 32.
Proof.
  intros a b. eapply (tombstone_winner_converges a b 32); [by vm_compute|vm_compute; lia].
Defined.

Lemma reconciled_record_supersedes_witness :
  let a := sample_record sample_key 4 "v4" [sample_rev 3 "v3"] in
  let b := sample_record sample_key 6 "w6" [sample_rev 3 "v3"] in
  sample_rev 3 "v3" ∈
    rec_ancestors (reconciled_record a b (sample_body "m") (Identity_new "m") "o" 32).
Proof.
  intros a b. apply (reconciled_record_supersedes a b).
  - vm_compute; reflexivity.
  - intros r [-> %list_elem_of_singleton | -> %list_elem_of_singleton]; by vm_compute.
  - vm_compute; lia.
  - right. left. apply list_elem_of_singleton. reflexivity.
Defined.
End witnesses.
