(* ===== verification/Stores.v ===== *)
(** * Stores: the storage interface and what it promises

    Models [gonzalo-core]'s [store.rs].  A [&dyn Store] is a [Store W]: its
    methods as actions on a world [W] that may hold other stores, the blobs
    and the clock, so two handles may well share one world.  [StoreLaws] is
    the contract of the trait as its documentation and the conformance suite
    state it: every decision is a planner's.  Clients ([Sync], [Maintenance],
    [Gc], ...) are proved against the class; [MemStore] and the decorators are
    its instances. *)

From S2P Require Export Tombstones.

(** ** Outcomes *)

Inductive PutResult :=
  | Committed (r : Revision)
  | PutConflicted (c : Conflict).

Inductive DeleteResult :=
  | Deleted
  | DeleteConflicted (c : Conflict).

#[export] Instance PutResult_eq_dec : EqDecision PutResult.
Proof. solve_decision. Defined.
#[export] Instance DeleteResult_eq_dec : EqDecision DeleteResult.
Proof. solve_decision. Defined.

(** ** The record store *)

Record Store (W : Type) := mkStore {
  st_get : RecordKey → M W CoreError (option record);
  st_put : record → option Revision → M W CoreError PutResult;
  st_list : KeyPrefix → M W CoreError (list RecordKey);
  st_delete_as : RecordKey → option Revision → option Identity →
    M W CoreError DeleteResult;
  st_get_raw : RecordKey → M W CoreError (option record);
  st_list_raw : KeyPrefix → M W CoreError (list RecordKey);
  st_put_raw : record → option Revision → M W CoreError PutResult;
  st_purge : RecordKey → Revision → M W CoreError DeleteResult
}.
Arguments mkStore {W}.
Arguments st_get {W} s k w : rename.
Arguments st_put {W} s r e w : rename.
Arguments st_list {W} s p w : rename.
Arguments st_delete_as {W} s k e a w : rename.
Arguments st_get_raw {W} s k w : rename.
Arguments st_list_raw {W} s p w : rename.
Arguments st_put_raw {W} s r e w : rename.
Arguments st_purge {W} s k e w : rename.

Definition st_delete {W} (s : Store W) (k : RecordKey) (e : option Revision) :
  M W CoreError DeleteResult := st_delete_as s k e None.

(** ** Blobs *)

Record BlobEntry := mkBlobEntry {
  be_hash : ContentHash;
  be_modified_unix_ms : Z
}.

Definition BlobEntry_from_system_time (hash : ContentHash) (modified : SystemTime) :
    BlobEntry :=
  mkBlobEntry hash
    match duration_since_epoch modified with
    | Ok d => i64_saturate (as_millis d)
    | Err d => (- i64_saturate (as_millis d))%Z
    end.

Definition i64_checked_sub (a b : Z) : option Z :=
  let c := (a - b)%Z in
  if decide (i64_min ≤ c ≤ i64_max)%Z then Some c else None.

Definition BlobEntry_age (e : BlobEntry) (now : SystemTime) : option Duration :=
  let now_ms :=
    match duration_since_epoch now with
    | Ok d => i64_saturate (as_millis d)
    | Err d => (- i64_saturate (as_millis d))%Z
    end in
  age_ms ← i64_checked_sub now_ms (be_modified_unix_ms e);
  if decide (age_ms < 0)%Z then None else Some (from_millis (Z.to_N age_ms)).

(** An age is never overstated.  A blob written in the future has none, and
    otherwise its age is the clock's distance from its timestamp to the
    millisecond, so the sweep's comparison with [min_age] can only err towards
    keeping. *)
Theorem blob_age_spec (h : ContentHash) (ms : Z) (now : SystemTime) :
  (0 ≤ now)%Z → (i64_min ≤ ms ≤ i64_max)%Z →
  match BlobEntry_age (mkBlobEntry h ms) now with
  | Some age => (0 ≤ now - ms * 1000000)%Z ∧ (Z.of_N age ≤ now - ms * 1000000)%Z ∧
      (now / 1000000 ≤ i64_max → now - ms * 1000000 - Z.of_N age < 1000000)%Z
  | None => (now / 1000000 < ms ∨ i64_max < Z.min (now / 1000000) i64_max - ms)%Z
  end.
Proof.
  intros Hnow Hms. unfold BlobEntry_age, duration_since_epoch. simpl.
  rewrite decide_True by done. unfold i64_saturate, as_millis, nanos_per_milli.
  assert (Z.of_N (Z.to_N now / 1000000) = now / 1000000)%Z as ->
    by (rewrite N2Z.inj_div, Z2N.id by lia; done).
  unfold i64_checked_sub.
  pose proof (Z.div_mod now 1000000 ltac:(lia)) as Hdm.
  pose proof (Z.mod_pos_bound now 1000000 ltac:(lia)).
  set (q := (now / 1000000)%Z) in *. unfold i64_min, i64_max in *.
  destruct (decide (- 2 ^ 63 ≤ Z.min q (2 ^ 63 - 1) - ms ≤ 2 ^ 63 - 1)%Z); simpl; [|lia].
  destruct (decide (Z.min q (2 ^ 63 - 1) - ms < 0)%Z); simpl; [lia|].
  unfold from_millis, nanos_per_milli. rewrite N2Z.inj_mul, Z2N.id by lia.
  change (Z.of_N 1000000) with 1000000%Z. lia.
Qed.

Lemma blob_age_spec_witness :
  BlobEntry_age (mkBlobEntry (mkHash "h") 1000) 3500000000 = Some (from_millis 2500) ∧
  (0 ≤ 3500000000 - 1000 * 1000000)%Z.
Proof.
  split; [vm_compute; reflexivity|].
  refine (proj1 (blob_age_spec (mkHash "h") 1000 3500000000 _ _));
    unfold i64_min, i64_max; lia.
Defined.

Record BlobStore (W : Type) := mkBlobStore {
  bs_put_blob : bytes → M W CoreError ContentHash;
  bs_get_blob : ContentHash → M W CoreError (option bytes);
  bs_list_blobs : M W CoreError (list BlobEntry);
  bs_has_blob : ContentHash → M W CoreError bool;
  bs_delete_blob : ContentHash → M W CoreError unit
}.
Arguments mkBlobStore {W}.
Arguments bs_put_blob {W} s b w : rename.
Arguments bs_get_blob {W} s h w : rename.
Arguments bs_list_blobs {W} s w : rename.
Arguments bs_has_blob {W} s h w : rename.
Arguments bs_delete_blob {W} s h w : rename.

(** The defaulted [has_blob]. *)
Definition default_has_blob {W} (get : ContentHash → M W CoreError (option bytes))
    (h : ContentHash) : M W CoreError bool :=
  o ← get h; mret (bool_decide (is_Some o)).

(** ** Carrying out a plan on a map of records *)

Abbreviation records := (gmap RecordKey record).

Definition apply_put (plan : PutPlan) (key : RecordKey) (m : records) :
    Result PutResult * records :=
  match plan with
  | PutWrite stored => (Ok (Committed (rec_revision stored)), <[key := stored]> m)
  | PutConflict c => (Ok (PutConflicted c), m)
  | PutNotFound => (Err (NotFound key), m)
  | PutRejected reason => (Err (Invalid reason), m)
  end.

Definition apply_delete (plan : DeletePlan) (key : RecordKey) (m : records) :
    Result DeleteResult * records :=
  match plan with
  | DeleteWrite t => (Ok Deleted, <[key := t]> m)
  | DeleteNoop => (Ok Deleted, m)
  | DeleteConflict c => (Ok (DeleteConflicted c), m)
  end.

Definition apply_purge (plan : PurgePlan) (key : RecordKey) (m : records) :
    Result DeleteResult * records :=
  match plan with
  | PurgeRemove => (Ok Deleted, delete key m)
  | PurgeNoop => (Ok Deleted, m)
  | PurgeConflict c => (Ok (DeleteConflicted c), m)
  end.

(** ** The contract

    [contents] is what the store holds, [frame] everything the store leaves
    alone: another store's contents, the blobs, the clock. *)

(** Every record is stored under its own key. *)
Definition keyed (m : records) : Prop := ∀ k r, m !! k = Some r → rec_key r = k.

(** Every stored history is canonical: newest first, within the cap, without
    the record's own revision. *)
Definition well_formed (cap : nat) (r : record) : Prop :=
  increasing (rec_ancestors r) ∧ length (rec_ancestors r) ≤ cap ∧
  rec_revision r ∉ rec_ancestors r.

Section laws.
Context `{Blake3} {W F : Type}.

Class StoreLaws (s : Store W) (contents : W → records) (cap : nat) (frame : W → F) := {
  law_get k w : ∃ w',
    st_get s k w = (Ok (live (contents w !! k)), w') ∧
    contents w' = contents w ∧ frame w' = frame w;
  law_get_raw k w : ∃ w',
    st_get_raw s k w = (Ok (contents w !! k), w') ∧
    contents w' = contents w ∧ frame w' = frame w;
  law_list p w : keyed (contents w) → ∃ l w',
    st_list s p w = (Ok l, w') ∧ contents w' = contents w ∧ frame w' = frame w ∧
    NoDup l ∧
    ∀ k, k ∈ l ↔ is_Some (live (contents w !! k)) ∧ prefix_matches p k = true;
  law_list_raw p w : keyed (contents w) → ∃ l w',
    st_list_raw s p w = (Ok l, w') ∧ contents w' = contents w ∧ frame w' = frame w ∧
    NoDup l ∧
    ∀ k, k ∈ l ↔ is_Some (contents w !! k) ∧ prefix_matches p k = true;
  law_put r e w : ∃ now res w',
    st_put s r e w = (res, w') ∧ frame w' = frame w ∧
    (res, contents w') =
      apply_put (plan_put (contents w !! rec_key r) r e now cap) (rec_key r) (contents w);
  law_put_raw r e w : ∃ now res w',
    st_put_raw s r e w = (res, w') ∧ frame w' = frame w ∧
    (res, contents w') =
      apply_put (plan_put_raw (contents w !! rec_key r) r e now cap)
        (rec_key r) (contents w);
  law_delete_as k e a w : ∃ now res w',
    st_delete_as s k e a w = (res, w') ∧ frame w' = frame w ∧
    (res, contents w') =
      apply_delete (plan_delete (contents w !! k) e now cap a) k (contents w);
  law_purge k e w : ∃ res w',
    st_purge s k e w = (res, w') ∧ frame w' = frame w ∧
    (res, contents w') = apply_purge (plan_purge (contents w !! k) e) k (contents w)
}.

(** A content-addressed blob store: [blobs] maps a hash to its bytes and the
    time they were last written. *)
Class BlobStoreLaws (b : BlobStore W) (blobs : W → gmap ContentHash (bytes * Z))
    (frame : W → F) := {
  law_put_blob content w : ∃ w' t,
    bs_put_blob b content w = (Ok (ContentHash_of content), w') ∧
    frame w' = frame w ∧
    blobs w' = match blobs w !! ContentHash_of content with
               | Some _ => blobs w
               | None => <[ContentHash_of content := (content, t)]> (blobs w)
               end;
  law_get_blob h w : ∃ w',
    bs_get_blob b h w = (Ok (fst <$> blobs w !! h), w') ∧
    frame w' = frame w ∧ blobs w' = blobs w;
  law_has_blob h w : ∃ w',
    bs_has_blob b h w = (Ok (bool_decide (is_Some (blobs w !! h))), w') ∧
    frame w' = frame w ∧ blobs w' = blobs w;
  law_list_blobs w : ∃ l w',
    bs_list_blobs b w = (Ok l, w') ∧ frame w' = frame w ∧ blobs w' = blobs w ∧
    (∀ h, (∃ e, e ∈ l ∧ be_hash e = h) ↔ is_Some (blobs w !! h)) ∧
    (∀ h c t, blobs w !! h = Some (c, t) → mkBlobEntry h t ∈ l ∧
       ∀ e, e ∈ l → be_hash e = h → (be_modified_unix_ms e ≤ t)%Z);
  law_delete_blob h w : ∃ w',
    bs_delete_blob b h w = (Ok tt, w') ∧ frame w' = frame w ∧
    blobs w' = delete h (blobs w)
}.
End laws.

(** ** Lenses: one component of a world *)

Record Lens (W S : Type) := mkLens {
  lens_get : W → S;
  lens_set : S → W → W
}.
Arguments mkLens {W S}.
Arguments lens_get {W S}.
Arguments lens_set {W S}.

Class LensLaws {W S F} (l : Lens W S) (frame : W → F) := {
  lens_get_set x w : lens_get l (lens_set l x w) = x;
  lens_set_get w : lens_set l (lens_get l w) w = w;
  lens_frame x w : frame (lens_set l x w) = frame w
}.

Definition lens_fst {A B} : Lens (A * B) A := mkLens fst (λ x p, (x, p.2)).
Definition lens_snd {A B} : Lens (A * B) B := mkLens snd (λ x p, (p.1, x)).

#[export] Instance lens_fst_laws {A B} : LensLaws (@lens_fst A B) snd.
Proof. by split; intros; try destruct w. Qed.
#[export] Instance lens_snd_laws {A B} : LensLaws (@lens_snd A B) fst.
Proof. by split; intros; try destruct w. Qed.

Definition lens_id {A} : Lens A A := mkLens id (λ x _, x).
#[export] Instance lens_id_laws {A} : LensLaws (@lens_id A) (λ _, tt).
Proof. by split. Qed.

Definition compose_lens {W S T} (l : Lens W S) (l' : Lens S T) : Lens W T :=
  mkLens (lens_get l' ∘ lens_get l) (λ x w, lens_set l (lens_set l' x (lens_get l w)) w).

(** Running an action of a component on the world that holds it. *)
Definition zoom {W S E A} (l : Lens W S) (m : M S E A) : M W E A := λ w,
  let '(r, x) := m (lens_get l w) in (r, lens_set l x w).

(** ** Invariants every lawful store keeps *)

Section invariants.
Context `{Blake3}.

Lemma well_formed_fold r stored inc current cap :
  rec_revision r = stored →
  rec_ancestors r = fold_ancestors stored inc current cap → well_formed cap r.
Proof.
  intros Hs Ha. unfold well_formed. rewrite Hs, Ha. split_and!.
  - apply fold_ancestors_increasing.
  - apply fold_ancestors_length.
  - by intros [_ []]%elem_of_fold_ancestors_1.
Qed.

Lemma plan_put_well_formed current r e now cap s :
  plan_put current r e now cap = PutWrite s → well_formed cap s.
Proof. intros [_ []]%plan_put_lands; eapply well_formed_fold; reflexivity. Qed.

Lemma plan_put_raw_well_formed current r e now cap s :
  plan_put_raw current r e now cap = PutWrite s → well_formed cap s.
Proof. intros [_ ->]%plan_put_raw_write. eapply well_formed_fold; reflexivity. Qed.

Lemma tombstone_of_well_formed c now cap a : well_formed cap (tombstone_of c now cap a).
Proof. eapply well_formed_fold; reflexivity. Qed.

(** What a store holds is in order. *)
Definition contents_ok (cap : nat) (m : records) : Prop :=
  keyed m ∧ map_Forall (λ _, well_formed cap) m.

Lemma contents_ok_empty cap : contents_ok cap ∅.
Proof. split; [|apply map_Forall_empty]. by intros ??. Qed.

Lemma contents_ok_insert cap m k r :
  contents_ok cap m → rec_key r = k → well_formed cap r → contents_ok cap (<[k := r]> m).
Proof.
  intros [Hk Hw] Hr Hwf. split.
  - intros k' r' [[<- <-]|[_ ?]]%lookup_insert_Some; eauto.
  - by apply map_Forall_insert_2.
Qed.

Lemma contents_ok_delete cap m k : contents_ok cap m → contents_ok cap (delete k m).
Proof.
  intros [Hk Hw]. split; [|by apply map_Forall_delete].
  intros k' r' [_ ?]%lookup_delete_Some. eauto.
Qed.
#[local] Hint Resolve contents_ok_insert contents_ok_delete : core.

Lemma apply_put_ok cap m r plan :
  contents_ok cap m →
  (∀ s, plan = PutWrite s → rec_key s = rec_key r ∧ well_formed cap s) →
  contents_ok cap (apply_put plan (rec_key r) m).2.
Proof.
  intros Hm Hp. destruct plan as [s| | |]; simpl; [|done..].
  destruct (Hp s eq_refl). by apply contents_ok_insert.
Qed.

Lemma apply_delete_ok cap m k e now a :
  contents_ok cap m →
  contents_ok cap (apply_delete (plan_delete (m !! k) e now cap a) k m).2.
Proof.
  intros Hm. destruct (plan_delete (m !! k) e now cap a) eqn:Hp; simpl; [|done..].
  apply plan_delete_write in Hp as (c & Hc & _ & _ & ->).
  apply contents_ok_insert; [done| |apply tombstone_of_well_formed].
  destruct Hm as [Hk _]. by rewrite tombstone_of_key, (Hk k).
Qed.

Lemma apply_purge_ok cap m k e :
  contents_ok cap m → contents_ok cap (apply_purge (plan_purge (m !! k) e) k m).2.
Proof. intros Hm. destruct (plan_purge _ _); simpl; eauto. Qed.
End invariants.

(** ** Optimistic concurrency *)

Section concurrency.
Context `{Blake3} {W F : Type} (s : Store W) (contents : W → records) (cap : nat).
Context (frame : W → F) `{!StoreLaws s contents cap frame}.
Implicit Types w : W.

(** No lost update.  Two clients that read the same revision and write on
    top of it cannot both commit: once the first write (of a new revision)
    commits, the second is told of it, gets the first's record and changes
    nothing. *)
Theorem no_lost_update (r1 r2 : record) (v : Revision) w w1 :
  rec_key r1 = rec_key r2 → rec_revision r1 ≠ v → is_tombstone r2 = false →
  st_put s r1 (Some v) w = (Ok (Committed (rec_revision r1)), w1) →
  ∃ c w2, st_put s r2 (Some v) w1 = (Ok (PutConflicted c), w2) ∧
    contents w2 = contents w1 ∧ rec_revision (cf_current c) = rec_revision r1 ∧
    rec_body (cf_current c) = rec_body r1.
Proof.
  intros Hk Hv Ht Hrun. destruct (law_put r1 (Some v) w) as (now & res & w1' & Hrun' & _ & Heq).
  rewrite Hrun in Hrun'. injection Hrun' as <- <-.
  destruct (plan_put _ _ _ _ _) as [s1| | |] eqn:Hp; [|discriminate Heq..].
  injection Heq as _ Hc1. pose proof (plan_put_live _ _ _ _ _ _ Hp) as Hlive.
  apply plan_put_lands in Hp as [_ Hl].
  assert (rec_revision s1 = rec_revision r1 ∧ rec_body s1 = rec_body r1) as [Hrev Hb]
    by (by inversion Hl).
  destruct (law_put r2 (Some v) w1) as (now2 & res2 & w2 & Hrun2 & _ & Heq2).
  rewrite Hc1, Hk, lookup_insert, decide_True in Heq2 by done.
  unfold plan_put in Heq2. rewrite Ht, Hlive in Heq2.
  rewrite decide_False in Heq2 by congruence. injection Heq2 as -> Hc2.
  eexists _, w2. split_and!; [done| |done..]. by rewrite Hc2, Hc1, Hk.
Qed.
End concurrency.
