(* ===== verification/MemStore.v ===== *)
(** * MemStore: the reference store, and what follows from the contract

    Models [gonzalo-core]'s [memstore.rs].  The [Mutex]-protected map is a
    lens into the world, so one store is one region of shared memory and two
    handles to it are two copies of the same lens; the wall clock is a reading
    of the world.  [MemStore_laws] discharges the [Store] contract; the
    theorems of the last part hold of every store that does. *)

From S2P Require Export Stores.

Record MemStore (W : Type) := mkMemStore {
  ms_records : Lens W records;
  ms_cap : nat;
  ms_clock : option Z
}.
Arguments mkMemStore {W}.
Arguments ms_records {W}.
Arguments ms_cap {W}.
Arguments ms_clock {W}.

Section memstore.
Context `{Blake3} {W : Type}.
(** [SystemTime::now()]. *)
Variable wall : W → SystemTime.

Definition MemStore_new (region : Lens W records) : MemStore W :=
  mkMemStore region DEFAULT_ANCESTOR_CAP None.

(** Panics ([None]) on a cap of zero. *)
Definition with_ancestor_cap (s : MemStore W) (cap : nat) : option (MemStore W) :=
  match validate_ancestor_cap cap with
  | Ok cap => Some (mkMemStore (ms_records s) cap (ms_clock s))
  | Err _ => None
  end.

Definition with_clock (s : MemStore W) (now_ms : Z) : MemStore W :=
  mkMemStore (ms_records s) (ms_cap s) (Some now_ms).

Definition raw_snapshot (s : MemStore W) (w : W) : records := lens_get (ms_records s) w.

Definition MemStore_now (s : MemStore W) (w : W) : Z :=
  match ms_clock s with Some t => t | None => now_ms (wall w) end.

(** Shared by [put] and [put_raw]: lock, ask [plan], apply. *)
Definition MemStore_write (s : MemStore W) (r : record) (expected : option Revision)
    (plan : option record → record → option Revision → Z → nat → PutPlan) :
    M W CoreError PutResult := λ w,
  let g := lens_get (ms_records s) w in
  let key := rec_key r in
  match plan (g !! key) r expected (MemStore_now s w) (ms_cap s) with
  | PutWrite stored =>
      (Ok (Committed (rec_revision stored)),
       lens_set (ms_records s) (<[key := stored]> g) w)
  | PutConflict c => (Ok (PutConflicted c), w)
  | PutNotFound => (Err (NotFound key), w)
  | PutRejected reason => (Err (Invalid reason), w)
  end.

Definition MemStore_get (s : MemStore W) (key : RecordKey) :
    M W CoreError (option record) := λ w,
  (Ok (r ← lens_get (ms_records s) w !! key;
       if negb (is_tombstone r) then Some r else None), w).

Definition MemStore_put (s : MemStore W) (r : record) (expected : option Revision) :
    M W CoreError PutResult := MemStore_write s r expected plan_put.

Definition MemStore_list (s : MemStore W) (prefix : KeyPrefix) :
    M W CoreError (list RecordKey) := λ w,
  (Ok (rec_key <$>
     filter (λ r, negb (is_tombstone r) && prefix_matches prefix (rec_key r) = true)
       (btree_values (lens_get (ms_records s) w))), w).

Definition MemStore_delete_as (s : MemStore W) (key : RecordKey)
    (expected : option Revision) (author : option Identity) :
    M W CoreError DeleteResult := λ w,
  let now := MemStore_now s w in
  let g := lens_get (ms_records s) w in
  match plan_delete (g !! key) expected now (ms_cap s) author with
  | DeleteWrite tombstone =>
      (Ok Deleted, lens_set (ms_records s) (<[key := tombstone]> g) w)
  | DeleteNoop => (Ok Deleted, w)
  | DeleteConflict c => (Ok (DeleteConflicted c), w)
  end.

Definition MemStore_get_raw (s : MemStore W) (key : RecordKey) :
    M W CoreError (option record) := λ w,
  (Ok (lens_get (ms_records s) w !! key), w).

Definition MemStore_list_raw (s : MemStore W) (prefix : KeyPrefix) :
    M W CoreError (list RecordKey) := λ w,
  (Ok (filter (λ k, prefix_matches prefix k = true)
     (btree_keys (lens_get (ms_records s) w))), w).

Definition MemStore_put_raw (s : MemStore W) (r : record) (expected : option Revision) :
    M W CoreError PutResult := MemStore_write s r expected plan_put_raw.

Definition MemStore_purge (s : MemStore W) (key : RecordKey) (expected : Revision) :
    M W CoreError DeleteResult := λ w,
  let g := lens_get (ms_records s) w in
  match plan_purge (g !! key) expected with
  | PurgeRemove => (Ok Deleted, lens_set (ms_records s) (delete key g) w)
  | PurgeNoop => (Ok Deleted, w)
  | PurgeConflict c => (Ok (DeleteConflicted c), w)
  end.

(** [impl Store for MemStore]. *)
Definition mem_store (s : MemStore W) : Store W :=
  mkStore (MemStore_get s) (MemStore_put s) (MemStore_list s) (MemStore_delete_as s)
    (MemStore_get_raw s) (MemStore_list_raw s) (MemStore_put_raw s) (MemStore_purge s).
End memstore.

(** ** The contract holds *)

Lemma keyed_btree_values (m : records) :
  keyed m → rec_key <$> btree_values m = btree_keys m.
Proof.
  intros Hk. rewrite <-fst_btree_items. unfold btree_values. rewrite <-list_fmap_compose.
  apply list_fmap_ext. intros i [k r] Hi%list_elem_of_lookup_2%elem_of_btree_items.
  by apply Hk.
Qed.

Lemma get_live (o : option record) :
  (r ← o; if negb (is_tombstone r) then Some r else None) = live o.
Proof. destruct o as [r|]; simpl; [|done]. by destruct (is_tombstone r). Qed.

Lemma keyed_list_increasing (m : records) (P : record → Prop)
    `{!∀ r, Decision (P r)} :
  keyed m → increasing (rec_key <$> filter P (btree_values m)).
Proof.
  intros Hk. pose proof (keyed_btree_values m Hk) as Heq.
  pose proof (btree_keys_increasing m) as Hi. rewrite <-Heq in Hi. clear Heq.
  induction (btree_values m) as [|r l IH]; [constructor|].
  apply StronglySorted_inv in Hi as [Hi Hr]. rewrite filter_cons. case_decide; [|auto].
  constructor; [by apply IH|]. apply Forall_forall.
  intros x (r' & -> & [_ Hin]%list_elem_of_filter)%list_elem_of_fmap.
  eapply (proj1 (Forall_forall _ _) Hr). by apply list_elem_of_fmap_2.
Qed.

Section memstore_laws.
Context `{Blake3} {W F : Type} (wall : W → SystemTime) (s : MemStore W) (frame : W → F).
Context `{!LensLaws (ms_records s) frame}.

Notation contents := (lens_get (ms_records s)).

Lemma MemStore_write_spec r e plan w : ∃ res w',
  MemStore_write wall s r e plan w = (res, w') ∧ frame w' = frame w ∧
  (res, contents w') =
    apply_put (plan (contents w !! rec_key r) r e (MemStore_now wall s w) (ms_cap s))
      (rec_key r) (contents w).
Proof.
  unfold MemStore_write.
  destruct (plan _ _ _ _ _); eexists _, _; (split; [reflexivity|]); simpl;
    by rewrite ?lens_frame, ?lens_get_set.
Qed.

Lemma MemStore_list_spec p w :
  keyed (contents w) → ∃ l,
    MemStore_list s p w = (Ok l, w) ∧ increasing l ∧
    ∀ k, k ∈ l ↔ is_Some (live (contents w !! k)) ∧ prefix_matches p k = true.
Proof.
  intros Hk. eexists. split; [reflexivity|]. split; [by apply keyed_list_increasing|].
  intros k. rewrite list_elem_of_fmap. setoid_rewrite list_elem_of_filter.
  setoid_rewrite elem_of_btree_values. split.
  - intros (r & -> & [Ht Hp]%andb_true_iff & k' & Hr). pose proof (Hk _ _ Hr) as <-.
    apply negb_true_iff in Ht. split; [|done]. exists r. by apply live_Some.
  - intros [[r [Hr Ht]%live_Some] Hp]. exists r. pose proof (Hk _ _ Hr) as <-.
    split_and!; [done| |by eauto]. by rewrite Ht, Hp.
Qed.

#[export] Instance MemStore_laws :
  StoreLaws (mem_store wall s) contents (ms_cap s) frame.
Proof.
  split.
  - intros k w. exists w. split; [|done]. cbn. unfold MemStore_get. by rewrite get_live.
  - intros k w. by exists w.
  - intros p w Hk. destruct (MemStore_list_spec p w Hk) as (l & ? & ? & ?).
    exists l, w. split_and!; try done. by apply increasing_NoDup.
  - intros p w Hk. eexists _, w. split; [reflexivity|]. split_and!; [done..| |].
    + apply NoDup_filter, increasing_NoDup, btree_keys_increasing.
    + intros k. rewrite list_elem_of_filter, elem_of_btree_keys. tauto.
  - intros r e w. exists (MemStore_now wall s w). apply MemStore_write_spec.
  - intros r e w. exists (MemStore_now wall s w). apply MemStore_write_spec.
  - intros k e a w. exists (MemStore_now wall s w). cbn. unfold MemStore_delete_as.
    destruct (plan_delete _ _ _ _ _); eexists _, _; (split; [reflexivity|]); simpl;
      by rewrite ?lens_frame, ?lens_get_set.
  - intros k e w. cbn. unfold MemStore_purge.
    destruct (plan_purge _ _); eexists _, _; (split; [reflexivity|]); simpl;
      by rewrite ?lens_frame, ?lens_get_set.
Qed.
End memstore_laws.
