(* ===== verification/SampleStores.v ===== *)
(** * SampleStores: a world to instantiate the store theorems at

    Two [MemStore]s and an in-memory blob store side by side in one world, with
    their laws: the concrete stores the witnesses run. *)

From S2P Require Export Samples MemStore.

Abbreviation blob_map := (gmap ContentHash (bytes * Z)).

(** ** A content-addressed blob store in memory *)

Section blobs.
Context `{Blake3} {W F : Type} (l : Lens W blob_map) (frame : W → F) `{!LensLaws l frame}.

Definition mem_blobs : BlobStore W :=
  mkBlobStore
    (λ content w,
      (Ok (ContentHash_of content),
       match lens_get l w !! ContentHash_of content with
       | Some _ => w
       | None => lens_set l (<[ContentHash_of content := (content, 0%Z)]> (lens_get l w)) w
       end))
    (λ h w, (Ok (fst <$> lens_get l w !! h), w))
    (λ w, (Ok ((λ p, mkBlobEntry p.1 p.2.2) <$> map_to_list (lens_get l w)), w))
    (λ h w, (Ok (bool_decide (is_Some (lens_get l w !! h))), w))
    (λ h w, (Ok tt, lens_set l (delete h (lens_get l w)) w)).

#[export] Instance mem_blobs_laws : BlobStoreLaws mem_blobs (lens_get l) frame.
Proof.
  split; cbn.
  - intros content w. destruct (lens_get l w !! ContentHash_of content) eqn:E.
    + by exists w, 0%Z.
    + eexists _, 0%Z. split; [reflexivity|]. by rewrite lens_frame, lens_get_set.
  - intros h w. by exists w.
  - intros h w. by exists w.
  - intros w. eexists _, w. split; [reflexivity|]. split_and!; [done..| |].
    + intros h. setoid_rewrite list_elem_of_fmap. split.
      * intros (e & ([h' [c t]] & -> & Hin%elem_of_map_to_list) & <-). by exists (c, t).
      * intros [[c t] Hh%elem_of_map_to_list]. by eauto.
    + intros h c t Hh. setoid_rewrite list_elem_of_fmap. split.
      * exists (h, (c, t)). by rewrite elem_of_map_to_list.
      * intros e ([h' [c' t']] & -> & Hin%elem_of_map_to_list) Heq. simpl in *. simplify_eq.
        lia.
  - intros h w. eexists. split; [reflexivity|]. by rewrite lens_frame, lens_get_set.
Qed.
End blobs.

(** ** Two stores and the blobs *)

Definition sample_world : Type := (records * records) * blob_map.

Definition lens_a : Lens sample_world records :=
  mkLens (λ w, w.1.1) (λ x w, ((x, w.1.2), w.2)).
Definition lens_b : Lens sample_world records :=
  mkLens (λ w, w.1.2) (λ x w, ((w.1.1, x), w.2)).
Definition lens_blobs : Lens sample_world blob_map :=
  mkLens (λ w, w.2) (λ x w, (w.1, x)).

Definition sample_wall {W} : W → SystemTime := λ _, 1700000000000000000%Z.

Section sample_stores.
#[local] Existing Instance sample_hash.

Definition store_a : Store sample_world := mem_store sample_wall (mkMemStore lens_a 32 None).
Definition store_b : Store sample_world := mem_store sample_wall (mkMemStore lens_b 32 None).
Definition sample_blobs : BlobStore sample_world := mem_blobs lens_blobs.

(** A store alone in its world. *)
Definition sample_mem : MemStore records := mkMemStore lens_id 3 None.
Definition sample_store : Store records := mem_store sample_wall sample_mem.

#[export] Instance sample_store_laws : StoreLaws sample_store id 3 (λ _, tt).
Proof. exact (MemStore_laws sample_wall sample_mem (λ _, tt)). Qed.

#[export] Instance store_a_laws {F} (f : records * blob_map → F) :
  StoreLaws store_a (λ w, w.1.1) 32 (λ w : sample_world, f (w.1.2, w.2)).
Proof.
  assert (LensLaws lens_a (λ w : sample_world, f (w.1.2, w.2)))
    by (by split; intros; destruct w as [[] ?]).
  exact (MemStore_laws sample_wall (mkMemStore lens_a 32 None) _).
Qed.

#[export] Instance store_b_laws {F} (f : records * blob_map → F) :
  StoreLaws store_b (λ w, w.1.2) 32 (λ w : sample_world, f (w.1.1, w.2)).
Proof.
  assert (LensLaws lens_b (λ w : sample_world, f (w.1.1, w.2)))
    by (by split; intros; destruct w as [[] ?]).
  exact (MemStore_laws sample_wall (mkMemStore lens_b 32 None) _).
Qed.

#[export] Instance sample_blobs_laws {F} (f : records * records → F) :
  BlobStoreLaws sample_blobs (λ w, w.2) (λ w : sample_world, f w.1).
Proof.
  assert (LensLaws lens_blobs (λ w : sample_world, f w.1))
    by (by split; intros; destruct w as [[] ?]).
  exact (mem_blobs_laws lens_blobs _).
Qed.
End sample_stores.
