(* ===== verification/Contract.v ===== *)
(** * Contract: what every lawful store guarantees its clients

    Consequences of [StoreLaws] alone, so they hold of [MemStore], of the
    decorators and of any substrate that meets the contract.  The first part
    is the lemmas clients use; the second the theorems: an invariant over every
    sequence of calls, the absence of lost updates, and the exact history a
    chain of edits leaves. *)

From S2P Require Export SampleStores.

(** ** Calls as data *)

Inductive StoreOp :=
  | OpGet (k : RecordKey)
  | OpPut (r : record) (e : option Revision)
  | OpList (p : KeyPrefix)
  | OpDelete (k : RecordKey) (e : option Revision) (a : option Identity)
  | OpGetRaw (k : RecordKey)
  | OpListRaw (p : KeyPrefix)
  | OpPutRaw (r : record) (e : option Revision)
  | OpPurge (k : RecordKey) (e : Revision).

(** The world after a call, whatever it returned. *)
Definition run_op {W} (s : Store W) (op : StoreOp) (w : W) : W :=
  match op with
  | OpGet k => (st_get s k w).2
  | OpPut r e => (st_put s r e w).2
  | OpList p => (st_list s p w).2
  | OpDelete k e a => (st_delete_as s k e a w).2
  | OpGetRaw k => (st_get_raw s k w).2
  | OpListRaw p => (st_list_raw s p w).2
  | OpPutRaw r e => (st_put_raw s r e w).2
  | OpPurge k e => (st_purge s k e w).2
  end.

Definition run_ops {W} (s : Store W) (ops : list StoreOp) (w : W) : W :=
  foldl (λ w op, run_op s op w) w ops.

(** The consumer's edit loop body: read the live record, derive the next
    version with [Record::update], write it expecting what was read. *)
Definition edit `{Blake3} {W} (s : Store W) (k : RecordKey) (e : Body * Meta) :
    M W CoreError PutResult :=
  o ← st_get s k;
  match o with
  | None => throw (NotFound k)
  | Some r => st_put s (Record_update r e.1 e.2) (Some (rec_revision r))
  end.

(** Several edits in turn, collecting their outcomes. *)
Definition edits `{Blake3} {W} (s : Store W) (k : RecordKey) (es : list (Body * Meta)) :
    M W CoreError (list PutResult) :=
  foldM (λ outs e, out ← edit s k e; mret (outs ++ [out])) [] es.

(** The revision a write committed. *)
Definition committed (out : PutResult) : option Revision :=
  match out with Committed v => Some v | PutConflicted _ => None end.

(** The revisions a chain of edits of [v] passes through, newest first. *)
Definition edit_chain `{Blake3} (v : Revision) (es : list (Body * Meta)) : list Revision :=
  foldl (λ h e, match h with
                | v :: _ => Revision_next v (body_bytes e.1) :: h
                | [] => []
                end) [v] es.

(** ** Lemmas for clients *)

Section contract.
Context `{Blake3} {W F : Type} (s : Store W) (contents : W → records) (cap : nat).
Context (frame : W → F) `{!StoreLaws s contents cap frame}.
Implicit Types w : W.

Lemma put_raw_commits r e w :
  e = rec_revision <$> contents w !! rec_key r → ∃ w',
    st_put_raw s r e w = (Ok (Committed (rec_revision r)), w') ∧
    frame w' = frame w ∧
    contents w' = <[rec_key r := set_ancestors r
      (fold_ancestors (rec_revision r) (rec_ancestors r) (contents w !! rec_key r) cap)]>
      (contents w).
Proof.
  intros He. destruct (law_put_raw r e w) as (now & res & w' & Hrun & Hf & Heq).
  assert (plan_put_raw (contents w !! rec_key r) r e now cap = PutWrite (set_ancestors r
    (fold_ancestors (rec_revision r) (rec_ancestors r) (contents w !! rec_key r) cap)))
    as Hp by (by apply plan_put_raw_write).
  rewrite Hp in Heq. injection Heq as -> Hc. by exists w'.
Qed.

Lemma run_op_contents_ok op w :
  contents_ok cap (contents w) → contents_ok cap (contents (run_op s op w)).
Proof.
  intros Hok. destruct op as [k|r e|p|k e a|k|p|r e|k e]; simpl.
  - destruct (law_get k w) as (w' & -> & Hc & _). simpl. by rewrite Hc.
  - destruct (law_put r e w) as (now & res & w' & -> & _ & Heq).
    apply (f_equal snd) in Heq. simpl in *. rewrite Heq. apply apply_put_ok; [done|].
    eauto using plan_put_key, plan_put_well_formed.
  - destruct (law_list p w (proj1 Hok)) as (l & w' & -> & Hc & _). simpl. by rewrite Hc.
  - destruct (law_delete_as k e a w) as (now & res & w' & -> & _ & Heq).
    apply (f_equal snd) in Heq. simpl in *. rewrite Heq. by apply apply_delete_ok.
  - destruct (law_get_raw k w) as (w' & -> & Hc & _). simpl. by rewrite Hc.
  - destruct (law_list_raw p w (proj1 Hok)) as (l & w' & -> & Hc & _). simpl. by rewrite Hc.
  - destruct (law_put_raw r e w) as (now & res & w' & -> & _ & Heq).
    apply (f_equal snd) in Heq. simpl in *. rewrite Heq. apply apply_put_ok; [done|].
    eauto using plan_put_raw_key, plan_put_raw_well_formed.
  - destruct (law_purge k e w) as (res & w' & -> & _ & Heq).
    apply (f_equal snd) in Heq. simpl in *. rewrite Heq. by apply apply_purge_ok.
Qed.

(** Whatever sequence of calls a lawful store serves, successful or not, it
    keeps every record under its own key with a canonical history: newest
    first, no longer than the cap, never naming the record's own revision. *)
Theorem lawful_store_invariant (ops : list StoreOp) w :
  contents_ok cap (contents w) → contents_ok cap (contents (run_ops s ops w)).
Proof.
  unfold run_ops. revert w. induction ops as [|op ops IH]; intros w Hok; simpl; [done|].
  by apply IH, run_op_contents_ok.
Qed.

(** What one edit does to a live record in good order. *)
Lemma edit_commits k r b m w :
  keyed (contents w) → contents w !! k = Some r → is_tombstone r = false →
  ∃ r' w', edit s k (b, m) w = (Ok (Committed (Revision_next (rec_revision r) (body_bytes b))), w') ∧
    contents w' = <[k := r']> (contents w) ∧ rec_key r' = k ∧ is_tombstone r' = false ∧
    rec_revision r' = Revision_next (rec_revision r) (body_bytes b) ∧ rec_body r' = b ∧
    rec_ancestors r' = fold_ancestors (rec_revision r') [] (Some r) cap.
Proof.
  intros Hkeyed Hr Ht. destruct (law_get k w) as (w1 & Hget & Hc1 & _).
  assert (live (contents w !! k) = Some r) as Hlive by (by apply live_Some).
  rewrite Hlive in Hget. pose proof (Hkeyed _ _ Hr) as Hk.
  destruct (law_put (Record_update r b m) (Some (rec_revision r)) w1)
    as (now & res & w' & Hput & _ & Heq).
  rewrite Hc1 in Heq. cbn [rec_key Record_update] in Heq. rewrite Hk, Hr in Heq.
  unfold plan_put in Heq. change (is_tombstone (Record_update r b m)) with (is_tombstone r) in Heq.
  rewrite Ht, decide_True in Heq by done. injection Heq as -> Hc'.
  eexists _, w'. split_and!; [|exact Hc'|done..].
  unfold edit. by rewrite (bind_ok _ _ _ _ _ Hget).
Qed.

(** Stacking a newer revision on a history already in order. *)
Lemma fold_ancestors_push stored c older :
  increasing (rec_revision c :: older) → stored ∉ rec_revision c :: older →
  rec_ancestors c = take cap older →
  fold_ancestors stored [] (Some c) cap = take cap (rec_revision c :: older).
Proof.
  intros Hi Hs Ha. rewrite fold_ancestors_alt. unfold history. simpl app. rewrite Ha.
  assert (increasing (rec_revision c :: take cap older)) as Hi'.
  { apply StronglySorted_inv in Hi as [Hi Hx]. constructor; [by apply StronglySorted_take|].
    by apply Forall_take. }
  rewrite increasing_sort_id, dedup_NoDup_id by (done || by apply increasing_NoDup).
  rewrite list_filter_id.
  - destruct cap; [done|]. simpl. by rewrite take_take, Nat.min_l by lia.
  - intros x Hx ->. apply Hs. apply elem_of_cons in Hx as [->|Hx]; [set_solver|].
    apply elem_of_take_1 in Hx. set_solver.
Qed.

(** The state a chain of edits leaves. *)
Definition edited (k : RecordKey) (chain : list Revision) (w : W) : Prop :=
  keyed (contents w) ∧ increasing chain ∧
  ∃ r newest older, contents w !! k = Some r ∧ is_tombstone r = false ∧
    chain = newest :: older ∧ rec_revision r = newest ∧ rec_ancestors r = take cap older ∧
    Forall (λ v, rev_counter v ≤ rev_counter newest)%N chain.

Lemma newer_olt v v' : (rev_counter v < rev_counter v')%N → olt v' v.
Proof.
  intros Hlt. unfold olt, cmp, Revision_newest_first, rev_pair, cmp, cmp_prod. simpl.
  unfold cmp, cmp_N. by apply N.compare_lt_iff in Hlt as ->.
Qed.

Lemma edited_step k chain b m w :
  edited k chain w →
  (∀ v, v ∈ chain → rev_counter v < u64_max)%N → ∃ newest older w',
    chain = newest :: older ∧
    let v := Revision_next newest (body_bytes b) in
    edit s k (b, m) w = (Ok (Committed v), w') ∧ edited k (v :: chain) w'.
Proof.
  intros (Hkeyed & Hi & r & newest & older & Hr & Ht & -> & Hrev & Hanc & Hmax) Hsmall.
  destruct (edit_commits k r b m w Hkeyed Hr Ht)
    as (r' & w' & Hrun & Hc' & Hk' & Ht' & Hrev' & Hb' & Hanc').
  rewrite Hrev in *. exists newest, older, w'. split; [done|]. intros v.
  assert (rev_counter v = rev_counter newest + 1)%N as Hv.
  { apply u64_succ_small, Hsmall. set_solver. }
  assert (∀ x, x ∈ newest :: older → rev_counter x < rev_counter v)%N as Hlt.
  { intros x Hx. rewrite Forall_forall in Hmax. specialize (Hmax x Hx). simpl in Hmax. lia. }
  split; [done|]. split_and!.
  - rewrite Hc'. intros k' r0 [[<- <-]|[_ Hr0]]%lookup_insert_Some; [done|by apply Hkeyed].
  - constructor; [done|]. apply Forall_forall. intros x Hx. by apply newer_olt, Hlt.
  - exists r', v, (newest :: older). rewrite Hc', lookup_insert_eq.
    split_and!; try done.
    + fold v in Hrev'. rewrite Hanc', Hrev', (fold_ancestors_push v r older), Hrev by
        (rewrite ?Hrev; first [done | intros Hin%Hlt; lia]). done.
    + constructor; [done|]. apply Forall_forall. intros x Hx. apply Hlt in Hx. lia.
Qed.

Lemma edit_chain_snoc v es e :
  edit_chain v (es ++ [e]) = match edit_chain v es with
                             | x :: _ => Revision_next x (body_bytes e.1) :: edit_chain v es
                             | [] => []
                             end.
Proof. unfold edit_chain. by rewrite foldl_app. Qed.

(** The history a store keeps is the true one.  Create a record at a fresh
    key and edit it any number of times, each edit derived from what the store
    returned: every write commits, and the stored record carries exactly the
    revisions it went through, newest first, up to the store's cap. *)
Theorem edit_history_exact (k : RecordKey) (kind : RecordKind) (b : Body) (m : Meta)
    (es : list (Body * Meta)) w :
  keyed (contents w) → contents w !! k = None → kind ≠ Tombstone →
  (N.of_nat (length es) < u64_max)%N →
  let v0 := Revision_initial (body_bytes b) in
  ∃ w1 w2 outs r newest older,
    st_put s (Record_create k kind b m) None w = (Ok (Committed v0), w1) ∧
    edits s k es w1 = (Ok outs, w2) ∧ v0 :: omap committed outs = reverse (edit_chain v0 es) ∧
    contents w2 !! k = Some r ∧ is_tombstone r = false ∧
    edit_chain v0 es = newest :: older ∧
    rec_revision r = newest ∧ rec_ancestors r = take cap older.
Proof.
  intros Hkeyed Hnone Hkind Hlen v0.
  destruct (law_put (Record_create k kind b m) None w) as (now & res & w1 & Hput & _ & Heq).
  cbn [rec_key Record_create] in Heq. rewrite Hnone in Heq. unfold plan_put in Heq.
  rewrite (proj2 (is_tombstone_false _)) in Heq by done. injection Heq as -> Hc1.
  assert (edited k [v0] w1) as H0.
  { split_and!.
    - rewrite Hc1. intros k' r0 [[<- <-]|[_ Hr0]]%lookup_insert_Some; [done|by apply Hkeyed].
    - repeat constructor.
    - eexists _, v0, []. rewrite Hc1, lookup_insert_eq.
      split_and!; [done|by apply is_tombstone_false|done|done|done|].
      by repeat constructor. }
  destruct (foldM_inv (λ outs e, out ← edit s k e; mret (outs ++ [out]))
    (λ done outs w', edited k (edit_chain v0 done) w' ∧
       v0 :: omap committed outs = reverse (edit_chain v0 done) ∧
       ∀ v, v ∈ edit_chain v0 done → (rev_counter v ≤ N.of_nat (length done))%N)
    es [] w1) as (outs & w2 & Hrun & Hed & Houts & _).
  - split_and!; [done|done|]. intros v ->%list_elem_of_singleton. done.
  - intros done [b' m'] todo outs w' Hes (Hed & Houts & Hmax).
    destruct (edited_step k _ b' m' w' Hed) as (newest & older & w'' & Hch & Hrun & Hed').
    { intros v Hv%Hmax. apply (f_equal length) in Hes. rewrite length_app in Hes.
      simpl in Hes. lia. }
    exists (outs ++ [Committed (Revision_next newest (body_bytes b'))]), w''.
    rewrite edit_chain_snoc, Hch in *. split_and!.
    + by rewrite (bind_ok _ _ _ _ _ Hrun).
    + done.
    + rewrite omap_app, reverse_cons, <-Houts. done.
    + intros v [-> | Hv]%elem_of_cons.
      * rewrite length_app. simpl.
        assert (newest ∈ newest :: older) as Hn%Hmax by set_solver.
        rewrite u64_succ_small; [lia|].
        apply (f_equal length) in Hes. rewrite length_app in Hes. simpl in Hes. lia.
      * rewrite length_app. apply Hmax in Hv. lia.
  - destruct Hed as (_ & _ & r & newest & older & ? & ? & ? & ? & ? & _).
    exists w1, w2, outs, r, newest, older. by split_and!.
Qed.
End contract.

(** ** Witnesses: a [MemStore] over a map *)

Section witnesses.
#[local] Existing Instance sample_hash.

Definition sample_ops : list StoreOp :=
  [OpPut (sample_record sample_key 0 "v0" []) None;
   OpPut (sample_record sample_key 1 "v1" []) (Some (sample_rev 0 "v0"));
   OpDelete sample_key None None;
   OpPut (sample_record sample_key 0 "again" []) None].

Lemma lawful_store_invariant_witness : contents_ok 3 (run_ops sample_store sample_ops ∅).
Proof.
  apply (lawful_store_invariant sample_store id 3 (λ _, tt) sample_ops ∅).
  apply contents_ok_empty.
Defined.

Lemma no_lost_update_witness :
  let w : records := <[sample_key := sample_record sample_key 0 "v0" []]> ∅ in
  let r1 := sample_record sample_key 1 "mine" [] in
  let r2 := sample_record sample_key 1 "theirs" [] in
  let w1 := (st_put sample_store r1 (Some (sample_rev 0 "v0")) w).2 in
  ∃ c w2, st_put sample_store r2 (Some (sample_rev 0 "v0")) w1 = (Ok (PutConflicted c), w2).
Proof.
  intros w r1 r2 w1.
  destruct (no_lost_update sample_store id 3 (λ _, tt) r1 r2 (sample_rev 0 "v0") w w1)
    as (c & w2 & Hc & _); [reflexivity|done|reflexivity|vm_compute; reflexivity|].
  by exists c, w2.
Defined.

Lemma edit_history_exact_witness :
  ∃ (r : record) (newest : Revision) (older : list Revision),
    edit_chain (sample_rev 0 "v0")
      [(sample_body "v1", sample_meta); (sample_body "v2", sample_meta)] = newest :: older ∧
    rec_revision r = newest ∧ rec_ancestors r = take 3 older.
Proof.
  destruct (edit_history_exact sample_store id 3 (λ _, tt) sample_key Topic
    (sample_body "v0") sample_meta
    [(sample_body "v1", sample_meta); (sample_body "v2", sample_meta)] ∅)
    as (w1 & w2 & outs & r & newest & older & _ & _ & _ & _ & _ & H1 & H2 & H3);
    [by intros ??|reflexivity|done|vm_compute; reflexivity|].
  by exists r, newest, older.
Defined.
End witnesses.
