(* ===== verification/Filesystem.v ===== *)
(** * Filesystem: the calls of [std::fs] and what a crash leaves of them

    The substrate under [FsStore]: a tree of directories and files, the part
    of it that is on disk, and the [std::fs] and [flock] calls the store makes.
    A store operation is a [prog], a tree of calls, so that one definition
    serves three readings: [exec] runs it, [step] lets any call fail and any
    moment be the last before a crash, and [safe] is the crash-aware program
    logic whose invariant holds at every such moment ([safe_adequate]).

    Durability follows POSIX: [rename] is atomic, the bytes of a file are on
    disk once the file was synced, and a directory entry once its directory
    was. *)

From S2P Require Export Paths Stores.

(** ** Paths

    A [PathBuf] is its components: the root, the current directory and empty
    components are gone, as [Path::components] normalizes them, [..] is not.
    Joining an absolute path replaces the one before it. *)

Abbreviation path := (list string).

Fixpoint split_on (c : Byte.byte) (s : bytes) : list bytes :=
  match s with
  | [] => [[]]
  | b :: s' =>
      if decide (b = c) then [] :: split_on c s'
      else match split_on c s' with
           | w :: ws => (b :: w) :: ws
           | [] => [[b]]
           end
  end.

Definition components (s : string) : path :=
  filter (λ c, c ≠ "" ∧ c ≠ ".") (string_of_bytes <$> split_on slash (bytes_of_string s)).

Definition is_absolute (s : string) : bool :=
  bool_decide (head (bytes_of_string s) = Some slash).

Definition path_join (p : path) (s : string) : path :=
  if is_absolute s then components s else p ++ components s.

Definition parent (p : path) : path := removelast p.

(** What is before the last separator, if there is one. *)
Fixpoint before_last (c : Byte.byte) (s : bytes) : option bytes :=
  match s with
  | [] => None
  | b :: s' =>
      match before_last c s' with
      | Some w => Some (b :: w)
      | None => if decide (b = c) then Some [] else None
      end
  end.

(** [file_name] split at its last dot; a name that only starts with a dot is
    all stem. *)
Definition file_stem (s : string) : string :=
  match before_last dot (bytes_of_string s) with
  | None | Some [] => s
  | Some w => string_of_bytes w
  end.

(** [Path::with_extension] of a path that ends in a file name. *)
Definition with_extension (p : path) (ext : string) : path :=
  match last p with
  | Some s => parent p ++ [file_stem s +:+ "." +:+ ext]
  | None => p
  end.

(** [str::strip_suffix]. *)
Definition str_strip_suffix (suffix s : string) : option string :=
  let b := bytes_of_string s in
  let n := length b - length (bytes_of_string suffix) in
  if decide (drop n b = bytes_of_string suffix) then Some (string_of_bytes (take n b)) else None.

(** ** The tree and the disk *)

Inductive node :=
  | Dir
  | File (data : bytes) (synced : bool) (mtime : SystemTime).

#[export] Instance node_eq_dec : EqDecision node.
Proof. solve_decision. Defined.

Abbreviation tree := (gmap path node).

(** [fs_now] is what processes see, [fs_disk] the entries that are on disk;
    the [AtomicU64] behind temporary names and the clock complete the world. *)
Record FileSystem := mkFs {
  fs_now : tree;
  fs_disk : tree;
  fs_locks : gset path;
  fs_nonce : N;
  fs_clock : SystemTime
}.

Definition set_now (fs : FileSystem) (t : tree) : FileSystem :=
  mkFs t (fs_disk fs) (fs_locks fs) (fs_nonce fs) (fs_clock fs).
Definition set_disk (fs : FileSystem) (t : tree) : FileSystem :=
  mkFs (fs_now fs) t (fs_locks fs) (fs_nonce fs) (fs_clock fs).
Definition set_locks (fs : FileSystem) (l : gset path) : FileSystem :=
  mkFs (fs_now fs) (fs_disk fs) l (fs_nonce fs) (fs_clock fs).
Definition set_nonce (fs : FileSystem) (n : N) : FileSystem :=
  mkFs (fs_now fs) (fs_disk fs) (fs_locks fs) n (fs_clock fs).

(** The root of the tree always exists. *)
Definition node_at (t : tree) (p : path) : option node :=
  match p with [] => Some Dir | _ => t !! p end.

(** No component is the parent directory. *)
Definition plain (p : path) : Prop := ".." ∉ p.

(** Every entry has a proper name and is in a directory. *)
Definition closed (t : tree) : Prop :=
  ∀ p n, t !! p = Some n → plain p ∧ p ≠ [] ∧ node_at t (parent p) = Some Dir.

(** [io::Error]: its kind and its text. *)
Inductive io_error :=
  | ENOENT | ENOTDIR | EISDIR | EEXIST | EINVAL
  | EOther (msg : string).

#[export] Instance io_error_eq_dec : EqDecision io_error.
Proof. solve_decision. Defined.

Definition io_to_string (e : io_error) : string :=
  match e with
  | ENOENT => "No such file or directory (os error 2)"
  | ENOTDIR => "Not a directory (os error 20)"
  | EISDIR => "Is a directory (os error 21)"
  | EEXIST => "File exists (os error 17)"
  | EINVAL => "Invalid argument (os error 22)"
  | EOther msg => msg
  end.

Definition go (cur : path) (c : string) : path :=
  if decide (c = "..") then parent cur else cur ++ [c].

(** Path resolution: every component but the last must be a directory. *)
Fixpoint walk (t : tree) (cur rest : path) : result io_error path :=
  match rest with
  | [] => Ok cur
  | c :: rest' =>
      match node_at t cur with
      | Some Dir => walk t (go cur c) rest'
      | Some (File _ _ _) => Err ENOTDIR
      | None => Err ENOENT
      end
  end.

(** [create_dir_all]: what it has made when it stops, and why it stopped. *)
Fixpoint mkdirs (t : tree) (cur rest : path) : result io_error unit * tree :=
  match rest with
  | [] => (Ok tt, t)
  | c :: rest' =>
      match node_at t (go cur c) with
      | Some Dir => mkdirs t (go cur c) rest'
      | Some (File _ _ _) =>
          (Err (if decide (rest' = []) then EEXIST else ENOTDIR), t)
      | None => mkdirs (<[go cur c := Dir]> t) (go cur c) rest'
      end
  end.

Definition child_of (d p : path) : Prop := p ≠ [] ∧ parent p = d.
#[export] Instance child_of_dec d p : Decision (child_of d p).
Proof. unfold child_of. apply _. Defined.

Definition children (t : tree) (d : path) : list string :=
  omap (λ p, if decide (child_of d p) then last p else None) (map_to_list t).*1.

(** Flushing a directory makes its entries those on disk. *)
Definition sync_entries (d : path) (now disk : tree) : tree :=
  filter (λ e, child_of d e.1) now ∪ filter (λ e, ¬ child_of d e.1) disk.

(** ** The calls *)

Inductive call : Type → Type :=
  | Read (p : path) : call bytes
  | CreateDirAll (p : path) : call unit
  | OpenOrCreate (p : path) : call unit
  | Flock (p : path) : call unit
  | Unlock (p : path) : call unit
  | Create (p : path) : call unit
  | WriteAll (p : path) (b : bytes) : call unit
  | Open (p : path) : call unit
  | SyncAll (p : path) : call unit
  | Rename (p q : path) : call unit
  | RemoveFile (p : path) : call unit
  | ReadDir (p : path) : call (list string)
  | IsDir (p : path) : call bool
  | TryExists (p : path) : call bool
  | Modified (p : path) : call SystemTime
  | FetchAdd : call N
  | Now : call SystemTime.

(** [open] with the creation flags the code uses. *)
Definition open_file (fs : FileSystem) (p : path) (truncate : bool) :
    result io_error unit * FileSystem :=
  match walk (fs_now fs) [] p with
  | Err e => (Err e, fs)
  | Ok q =>
      let fresh := set_now fs (<[q := File [] false (fs_clock fs)]> (fs_now fs)) in
      match node_at (fs_now fs) q with
      | Some Dir => (Err EISDIR, fs)
      | Some (File _ _ _) => (Ok tt, if truncate then fresh else fs)
      | None => (Ok tt, fresh)
      end
  end.

(** The node a path leads to. *)
Definition look (t : tree) (p : path) : result io_error (path * node) :=
  match walk t [] p with
  | Err e => Err e
  | Ok q => match node_at t q with Some n => Ok (q, n) | None => Err ENOENT end
  end.

Definition sync_node (fs : FileSystem) (q : path) (n : node) : FileSystem :=
  match n with
  | Dir => set_disk fs (sync_entries q (fs_now fs) (fs_disk fs))
  | File d _ t => set_now fs (<[q := File d true t]> (fs_now fs))
  end.

(** [rename] of a file.  The store never renames a directory; that is reported
    as invalid here. *)
Definition rename_file (fs : FileSystem) (p q : path) : result io_error unit * FileSystem :=
  match look (fs_now fs) p, walk (fs_now fs) [] q with
  | Err e, _ => (Err e, fs)
  | _, Err e => (Err e, fs)
  | Ok (_, Dir), _ => (Err EINVAL, fs)
  | Ok (p', n), Ok q' =>
      match node_at (fs_now fs) q' with
      | Some Dir => (Err EISDIR, fs)
      | _ => (Ok tt, set_now fs (<[q' := n]> (delete p' (fs_now fs))))
      end
  end.

Definition exec_call {X} (c : call X) (fs : FileSystem) : result io_error X * FileSystem :=
  match c in call X return result io_error X * FileSystem with
  | Read p =>
      (n ← look (fs_now fs) p;
       match n.2 with File d _ _ => Ok d | Dir => Err EISDIR end, fs)
  | CreateDirAll p => let '(r, t) := mkdirs (fs_now fs) [] p in (r, set_now fs t)
  | OpenOrCreate p => open_file fs p false
  | Flock p => (Ok tt, set_locks fs ({[p]} ∪ fs_locks fs))
  | Unlock p => (Ok tt, set_locks fs (fs_locks fs ∖ {[p]}))
  | Create p => open_file fs p true
  | WriteAll p b =>
      (Ok tt, match look (fs_now fs) p with
              | Ok (q, File d _ _) =>
                  set_now fs (<[q := File (d ++ b) false (fs_clock fs)]> (fs_now fs))
              | _ => fs
              end)
  | Open p => (look (fs_now fs) p ≫= λ _, Ok tt, fs)
  | SyncAll p =>
      match look (fs_now fs) p with
      | Ok (q, n) => (Ok tt, sync_node fs q n)
      | Err _ => (Ok tt, fs)
      end
  | Rename p q => rename_file fs p q
  | RemoveFile p =>
      match look (fs_now fs) p with
      | Err e => (Err e, fs)
      | Ok (_, Dir) => (Err EISDIR, fs)
      | Ok (q, File _ _ _) => (Ok tt, set_now fs (delete q (fs_now fs)))
      end
  | ReadDir p =>
      (n ← look (fs_now fs) p;
       match n.2 with Dir => Ok (children (fs_now fs) n.1) | File _ _ _ => Err ENOTDIR end, fs)
  | IsDir p =>
      (n ← look (fs_now fs) p; Ok (match n.2 with Dir => true | File _ _ _ => false end), fs)
  | TryExists p =>
      (match look (fs_now fs) p with
       | Ok _ => Ok true
       | Err ENOENT => Ok false
       | Err e => Err e
       end, fs)
  | Modified p =>
      (n ← look (fs_now fs) p;
       match n.2 with File _ _ t => Ok t | Dir => Ok (fs_clock fs) end, fs)
  | FetchAdd => (Ok (fs_nonce fs), set_nonce fs ((fs_nonce fs + 1) `mod` 2 ^ 64))
  | Now => (Ok (fs_clock fs), fs)
  end.

(** What may be left when a call fails for a reason of the device's ([EOther]:
    no space, an I/O error): a file partly written, some of the directories
    made.  Reading the clock, the counter and releasing a lock
    cannot fail. *)
Definition fault {X} (c : call X) (fs fs' : FileSystem) : Prop :=
  match c with
  | Now | FetchAdd | Unlock _ => False
  | WriteAll p b => ∃ n, fs' = (exec_call (WriteAll p (take n b)) fs).2
  | CreateDirAll p => ∃ n, fs' = (exec_call (CreateDirAll (take n p)) fs).2
  | _ => fs' = fs
  end.

(** ** Programs *)

Inductive prog (A : Type) : Type :=
  | Ret (a : A)
  | Call {X} (c : call X) (k : result io_error X → prog A).
Arguments Ret {A} a.
Arguments Call {A X} c k.

#[export] Instance prog_ret : MRet prog := @Ret.
#[export] Instance prog_bind : MBind prog := λ A B f,
  fix go p := match p with Ret a => f a | Call c k => Call c (λ r, go (k r)) end.

(** The [?] operator in a program that returns a [Result]. *)
Definition tryp {A B} (m : prog (Result A)) (f : A → prog (Result B)) : prog (Result B) :=
  m ≫= λ r, match r with Ok a => f a | Err e => Ret (Err e) end.
Notation "x ←? m ; k" := (tryp m (λ x, k))
  (at level 100, m at next level, k at level 200, right associativity) : gonzalo_scope.
Notation "m ;? k" := (tryp m (λ _, k))
  (at level 100, k at level 200, right associativity) : gonzalo_scope.

(** A call as it is, and a call whose error is mapped into [Backend]. *)
Definition raw {X} (c : call X) : prog (result io_error X) := Call c Ret.
Definition sys {X} (c : call X) : prog (Result X) :=
  Call c (λ r, Ret (map_err (λ e, Backend (io_to_string e)) r)).

(** [SystemTime::now()], which does not fail. *)
Definition clock : prog SystemTime :=
  Call Now (λ r, Ret (match r with Ok t => t | Err _ => 0%Z end)).

Fixpoint exec {A} (p : prog A) (fs : FileSystem) : A * FileSystem :=
  match p with
  | Ret a => (a, fs)
  | Call c k => let '(r, fs') := exec_call c fs in exec (k r) fs'
  end.

(** One call, which either runs or fails. *)
Definition step {A} (s s' : prog A * FileSystem) : Prop :=
  match s.1 with
  | Ret _ => False
  | Call c k =>
      s' = (k (exec_call c s.2).1, (exec_call c s.2).2) ∨
      ∃ msg fs', fault c s.2 fs' ∧ s' = (k (Err (EOther msg)), fs')
  end.

(** ** Crashes

    What survives is a closed tree.  An entry that is the same in memory and
    on disk survives with its directory; of one that is not, either version
    may.  The bytes of a file that was not synced may be anything. *)
Definition image (n n' : node) : Prop :=
  match n, n' with
  | Dir, Dir => True
  | File d true t, File d' s' t' => d' = d ∧ s' = true ∧ t' = t
  | File _ false _, File _ _ _ => True
  | _, _ => False
  end.

Record crash (fs fs' : FileSystem) : Prop := {
  crash_closed : closed (fs_now fs');
  crash_disk : fs_disk fs' = fs_now fs';
  crash_locks : fs_locks fs' = ∅;
  crash_source p n' : fs_now fs' !! p = Some n' →
    ∃ n, (fs_now fs !! p = Some n ∨ fs_disk fs !! p = Some n) ∧ image n n';
  crash_lost p : fs_now fs' !! p = None → p ≠ [] →
    node_at (fs_now fs') (parent p) = Some Dir →
    fs_now fs !! p = None ∨ fs_disk fs !! p = None
}.

(** ** The program logic

    [I] holds at every moment, [Q] at the end; the flag says whether a call has
    failed on the way. *)
Fixpoint safe {A} (I : FileSystem → Prop) (Q : bool → A → FileSystem → Prop) (b : bool)
    (p : prog A) (fs : FileSystem) : Prop :=
  I fs ∧
  match p with
  | Ret a => Q b a fs
  | Call c k =>
      safe I Q b (k (exec_call c fs).1) (exec_call c fs).2 ∧
      ∀ msg fs', fault c fs fs' → safe I Q true (k (Err (EOther msg))) fs'
  end.

(** ** Laws of programs *)

Section programs.
Context {A B : Type}.
Implicit Types (p : prog A) (f : A → prog B) (fs : FileSystem).

Lemma exec_bind p f fs :
  exec (p ≫= f) fs = let '(a, fs') := exec p fs in exec (f a) fs'.
Proof.
  revert fs. induction p as [a|X c k IH]; intros fs; simpl; [done|].
  destruct (exec_call c fs) as [r fs']. apply IH.
Qed.

Lemma safe_now I Q b p fs : safe I Q b p fs → I fs.
Proof. destruct p; by intros [? _]. Qed.

Lemma safe_bind I Q b p f fs :
  safe I (λ b' a fs', safe I Q b' (f a) fs') b p fs → safe I Q b (p ≫= f) fs.
Proof.
  revert b fs. induction p as [a|X c k IH]; intros b fs; simpl.
  - by intros [_ ?].
  - intros (HI & Hok & Hf). split_and!; [done|by apply IH|].
    intros e fs' Hfault. by eapply IH, Hf.
Qed.

Lemma safe_mono I (Q Q' : bool → A → FileSystem → Prop) b p fs :
  (∀ b a fs, Q b a fs → Q' b a fs) → safe I Q b p fs → safe I Q' b p fs.
Proof.
  intros HQ. revert b fs. induction p as [a|X c k IH]; intros b fs; simpl.
  - intros []. split; eauto.
  - intros (? & ? & ?). split_and!; eauto.
Qed.

(** The logic is sound for runs without faults ... *)
Lemma safe_exec I Q b p fs : safe I Q b p fs → Q b (exec p fs).1 (exec p fs).2.
Proof.
  revert fs. induction p as [a|X c k IH]; intros fs; simpl; [by intros []|].
  intros (_ & Hok & _). destruct (exec_call c fs). by apply IH.
Qed.

(** ... and its invariant holds in every state any run can pass through,
    whichever calls fail, and its postcondition where the run ends. *)
Lemma safe_adequate I Q b p fs p' fs' :
  safe I Q b p fs → rtc step (p, fs) (p', fs') →
  I fs' ∧ ∀ a, p' = Ret a → ∃ b', Q b' a fs'.
Proof.
  intros Hs Hr. remember (p, fs) as s eqn:E. remember (p', fs') as s' eqn:E'.
  revert b p fs p' fs' E E' Hs.
  induction Hr as [s|s1 [p2 fs2] s3 Hst _ IH]; intros b p fs p' fs' -> Heq Hs.
  - injection Heq as -> ->. split; [by eapply safe_now|].
    intros a ->. destruct Hs as [_ ?]. by exists b.
  - destruct p as [a|X c k]; [done|]. destruct Hs as (_ & Hok & Hf).
    destruct Hst as [[= -> ->]|(e & fs3 & Hfault & [= -> ->])].
    + by eapply IH.
    + eapply IH; [done|done|]. by eapply Hf.
Qed.
End programs.

Lemma safe_tryp {A B} I Q b (m : prog (Result A)) (f : A → prog (Result B)) fs :
  safe I (λ b' r fs', match r with
    | Ok a => safe I Q b' (f a) fs'
    | Err e => I fs' ∧ Q b' (Err e) fs'
    end) b m fs → safe I Q b (tryp m f) fs.
Proof.
  intros Hs. apply safe_bind. eapply safe_mono; [|exact Hs].
  intros b' [a|e] fs'; simpl; auto.
Qed.

(** One call of [sys]: it runs, or fails and leaves what [fault] allows. *)
Lemma safe_sys {X} I Q b (c : call X) fs :
  I fs →
  safe I Q b (Ret (map_err (λ e, Backend (io_to_string e)) (exec_call c fs).1)) (exec_call c fs).2 →
  (∀ msg fs', fault c fs fs' → I fs' ∧ Q true (Err (Backend msg)) fs') →
  safe I Q b (sys c) fs.
Proof. intros HI Hok Hf. split_and!; [done|done|]. intros e fs' Hfault. by apply Hf. Qed.

Lemma exec_tryp {A B} (m : prog (Result A)) (f : A → prog (Result B)) fs :
  exec (tryp m f) fs =
    match exec m fs with
    | (Ok a, fs') => exec (f a) fs'
    | (Err e, fs') => (Err e, fs')
    end.
Proof. unfold tryp. rewrite exec_bind. by destruct (exec m fs) as [[] ?]. Qed.

(** ** Laws of trees *)

(** No strict prefix of a path is a file. *)
Definition unobstructed (t : tree) (p : path) : Prop :=
  ∀ q x r d s m, p = q ++ x :: r → node_at t q ≠ Some (File d s m).

Lemma parent_snoc (p : path) x : parent (p ++ [x]) = p.
Proof. apply removelast_last. Qed.

Lemma parent_app (p q : path) : q ≠ [] → parent (p ++ q) = p ++ parent q.
Proof. intros. by apply removelast_app. Qed.

Lemma node_at_ne t p : p ≠ [] → node_at t p = t !! p.
Proof. by destruct p. Qed.

Lemma node_at_app t p q n :
  closed t → q ≠ [] → node_at t (p ++ q) = Some n → node_at t p = Some Dir.
Proof.
  intros Hc. revert n. induction q as [|x q IH] using rev_ind; intros n Hq Hn; [done|].
  assert (p ++ q ++ [x] ≠ []) as Hne by (by destruct p, q).
  rewrite node_at_ne in Hn by done. apply Hc in Hn as (_ & _ & Hn).
  rewrite app_assoc, parent_snoc in Hn. destruct (decide (q = [])) as [->|].
  - by rewrite app_nil_r in Hn.
  - by eapply IH.
Qed.

Lemma node_at_insert t p q n :
  p ≠ [] → node_at (<[p := n]> t) q = if decide (p = q) then Some n else node_at t q.
Proof.
  intros Hp. destruct q as [|x q]; simpl; [by rewrite decide_False|].
  case_decide as Heq; [by rewrite Heq, lookup_insert_eq|by rewrite lookup_insert_ne].
Qed.

Lemma node_at_delete t p q :
  p ≠ [] → node_at (delete p t) q = if decide (p = q) then None else node_at t q.
Proof.
  intros Hp. destruct q as [|x q]; simpl; [by rewrite decide_False|].
  case_decide as Heq; [by rewrite Heq, lookup_delete_eq|by rewrite lookup_delete_ne].
Qed.

(** Entering a node whose directory is there, over no directory. *)
Lemma closed_insert t p n :
  closed t → plain p → p ≠ [] → node_at t (parent p) = Some Dir →
  (node_at t p = Some Dir → n = Dir) → closed (<[p := n]> t).
Proof.
  intros Hc Hpl Hp Hpar Hn q n' Hq. rewrite lookup_insert_Some in Hq.
  assert (node_at (<[p := n]> t) (parent q) = Some Dir ↔
    if decide (p = parent q) then n = Dir else node_at t (parent q) = Some Dir) as ->.
  { rewrite node_at_insert by done. case_decide; naive_solver. }
  destruct Hq as [[<- _]|[Hne Hq]].
  - split_and!; [done..|]. case_decide as Heq; [|done]. apply Hn. by rewrite Heq at 1.
  - apply Hc in Hq as (? & ? & Hq). split_and!; [done..|]. case_decide as Heq; [|done].
    apply Hn. by rewrite Heq.
Qed.

(** Removing a file. *)
Lemma closed_delete t p : closed t → p ≠ [] → node_at t p ≠ Some Dir → closed (delete p t).
Proof.
  intros Hc Hp Hn q n' [_ Hq]%lookup_delete_Some. apply Hc in Hq as (? & ? & Hq). split_and!; [done..|].
  rewrite node_at_delete by done. case_decide; naive_solver.
Qed.

Lemma go_plain cur c : c ≠ ".." → go cur c = cur ++ [c].
Proof. intros. unfold go. by rewrite decide_False. Qed.

Lemma walk_plain t cur rest :
  closed t → plain rest →
  (∀ q x r d s m, rest = q ++ x :: r → node_at t (cur ++ q) ≠ Some (File d s m)) →
  walk t cur rest =
    if decide (rest = [] ∨ node_at t (cur ++ parent rest) = Some Dir)
    then Ok (cur ++ rest) else Err ENOENT.
Proof.
  intros Hc. revert cur. induction rest as [|c rest IH]; intros cur Hp Hf; simpl walk.
  - rewrite decide_True by auto. by rewrite app_nil_r.
  - pose proof (Hf [] c rest) as Hf0. rewrite app_nil_r in Hf0. simpl in Hf0.
    apply not_elem_of_cons in Hp as [Hne Hp]. rewrite go_plain by done.
    destruct (node_at t cur) as [[|d s m]|] eqn:Hcur.
    + rewrite IH; [|done|].
      * destruct rest as [|c' rest].
        { rewrite !decide_True; rewrite ?app_nil_r; auto. }
        change (parent (c :: c' :: rest)) with (c :: parent (c' :: rest)).
        rewrite <-!app_assoc. simpl. apply decide_ext. naive_solver.
      * intros q x r d s m Hr. rewrite <-app_assoc. apply (Hf (c :: q) x r). by rewrite Hr.
    + by edestruct Hf0.
    + rewrite decide_False; [done|]. intros [?|Hd]; [done|].
      destruct (decide (parent (c :: rest) = [])) as [E|E].
      * rewrite E, app_nil_r in Hd. congruence.
      * pose proof (node_at_app _ _ _ _ Hc E Hd). congruence.
Qed.

Lemma look_plain t p :
  closed t → plain p → unobstructed t p →
  look t p = match node_at t p with Some n => Ok (p, n) | None => Err ENOENT end.
Proof.
  intros Hc Hp Hu. unfold look. rewrite walk_plain by (done || apply Hu). simpl.
  case_decide as Hd; [done|]. destruct (node_at t p) eqn:Hn; [|done].
  destruct Hd. destruct (decide (p = [])) as [|Hne]; [by left|right].
  rewrite node_at_ne in Hn by done. by apply Hc in Hn as (_ & _ & ?).
Qed.

Lemma walk_in_dir t p :
  closed t → plain p → unobstructed t p → node_at t (parent p) = Some Dir →
  walk t [] p = Ok p.
Proof.
  intros Hc Hp Hu Hd. rewrite walk_plain by (done || apply Hu). simpl.
  rewrite decide_True; auto.
Qed.

(** Every entry of a tree can be looked up. *)
Lemma look_entry t p n : closed t → t !! p = Some n → look t p = Ok (p, n).
Proof.
  intros Hc Hn. pose proof (Hc _ _ Hn) as (Hp & Hne & _).
  rewrite look_plain; [by rewrite node_at_ne, Hn|done..|].
  intros q x r d s u ->. rewrite (node_at_app t q (x :: r) n); [done..|].
  by rewrite node_at_ne.
Qed.

(** What [create_dir_all p] makes of a tree: the directories above [p] and [p]
    itself, and nothing else. *)
Definition grown (t t' : tree) (p : path) : Prop :=
  closed t' ∧ (∀ q n, t !! q = Some n → t' !! q = Some n) ∧
  ∀ q n, t' !! q = Some n → t !! q = Some n ∨ t !! q = None ∧ n = Dir ∧ q `prefix_of` p.

Lemma grown_refl t p : closed t → grown t t p.
Proof. intros. split_and!; auto. Qed.

Lemma mkdirs_spec t cur rest :
  closed t → plain (cur ++ rest) → node_at t cur = Some Dir →
  (∀ q r d s m, rest = q ++ r → node_at t (cur ++ q) ≠ Some (File d s m)) →
  ∃ t', mkdirs t cur rest = (Ok tt, t') ∧ grown t t' (cur ++ rest) ∧
    node_at t' (cur ++ rest) = Some Dir.
Proof.
  intros Hc. revert t cur Hc. induction rest as [|c rest IH]; intros t cur Hc Hp Hcur Hf; simpl.
  { exists t. rewrite app_nil_r. auto using grown_refl. }
  assert (c ≠ "..") as Hne by (intros ->; apply Hp; set_solver). rewrite go_plain by done.
  assert (cur ++ [c] ≠ []) as Hcc by (by destruct cur).
  replace (cur ++ c :: rest) with ((cur ++ [c]) ++ rest) in * by (by rewrite <-app_assoc).
  destruct (node_at t (cur ++ [c])) as [[|d s m]|] eqn:Hn.
  - apply IH; [done..|]. intros q r d s m ->. rewrite <-app_assoc. by apply (Hf (c :: q) r).
  - by edestruct (Hf [c] rest).
  - destruct (IH (<[cur ++ [c]:=Dir]> t) (cur ++ [c])) as (t' & Hrun & (Hc' & Hin & Hout) & Hd).
    + apply closed_insert; [done| |done|by rewrite parent_snoc|done].
      intros Hin. apply Hp. set_solver.
    + done.
    + rewrite node_at_insert by done. by rewrite decide_True.
    + intros q r d s m -> . rewrite node_at_insert by done. case_decide; [done|].
      rewrite <-app_assoc. by apply (Hf (c :: q) r).
    + exists t'. split_and!; [done|split_and!|done]; [done| |].
      * intros q n Hq. apply Hin. rewrite lookup_insert_ne; [done|].
        intros <-. rewrite node_at_ne in Hn by done. congruence.
      * intros q n [[[<- <-]|[_ ?]]%lookup_insert_Some|(Hq & -> & ?)]%Hout; [|by left|].
        -- right. rewrite node_at_ne in Hn by done. split_and!; [done..|]. by exists rest.
        -- right. apply lookup_insert_None in Hq as []. done.
Qed.
