(* ===== verification/FsStore.v ===== *)
(** * FsStore: the filesystem substrate

    Models [gonzalo-store-fs]'s [lib.rs], [layout.rs] and [tilde.rs] as
    programs over [Filesystem].  Three things are shown.  The store refines
    the reference store: on a tree it laid out, every operation answers what
    [MemStore] answers and leaves the tree that holds what [MemStore] holds.
    A write is atomic and durable: whichever call fails, wherever the machine
    stops, the reboot finds the old record or the new one, and the new one
    once the write was reported.  And the limits: what the directories of a
    new collection, keys with an empty component and blob hashes that are
    paths do to these guarantees. *)

From S2P Require Export Filesystem MemStore.
From S2P Require Import Samples Fleet.
#[local] Open Scope gonzalo_scope.

(** ** Layout *)

Definition record_path (root : path) (key : RecordKey) : path :=
  let '(ns, col, file) := record_components key in path_join (path_join (path_join root ns) col) file.

Definition blobs_dir (root : path) : path := path_join root "blobs".

Definition blob_path (root : path) (hash : ContentHash) : path :=
  path_join (blobs_dir root) (hash_hex hash).

(** ** Home directories in store roots, on the text of a path *)

(** [PathBuf::push] on text. *)
Definition path_push (a b : string) : string :=
  if is_absolute b then b
  else if bool_decide (a = "") || bool_decide (last (bytes_of_string a) = Some slash)
  then a +:+ b else a +:+ "/" +:+ b.

Definition expand_tilde_with (p : string) (home : option string) : string :=
  match home with
  | None | Some "" => p
  | Some home =>
      if negb (utf8_valid (bytes_of_string p)) then p
      else if bool_decide (p = "~") then home
      else match bytes_of_string p with
           | Byte.x7e :: Byte.x2f :: rest => path_push home (string_of_bytes rest)
           | _ => p
           end
  end.

(** [serde_json] on a [Record]. *)
Class SerdeRecord := {
  to_vec_pretty : record → result string bytes;
  from_slice : bytes → result string record
}.

(** What is written reads back. *)
Class SerdeRecordLaws `{SerdeRecord} := {
  from_slice_to_vec (r : record) : ∃ b, to_vec_pretty r = Ok b ∧ from_slice b = Ok r
}.

Record FsStore := mkFsStore {
  fss_root : path;
  fss_cap : nat
}.

Definition FsStore_new (root : path) : FsStore := mkFsStore root DEFAULT_ANCESTOR_CAP.

Definition FsStore_with_ancestor_cap (s : FsStore) (cap : nat) : Result FsStore :=
  cap ← validate_ancestor_cap cap; Ok (mkFsStore (fss_root s) cap).

(** ** Locking, reading and publishing one record *)

(** [path.parent()] exists for every path but the root. *)
Definition with_parent (p : path) (f : path → prog (Result unit)) : prog (Result unit) :=
  match p with [] => Ret (Ok tt) | _ => f (parent p) end.

Definition lock_record (p : path) : prog (Result path) :=
  with_parent p (λ d, sys (CreateDirAll d)) ;?
  let lock_path := with_extension p "json.lock" in
  sys (OpenOrCreate lock_path) ;?
  sys (Flock lock_path) ;?
  Ret (Ok lock_path).

(** The guard of [lock_record], dropped at the end of the function. *)
Definition locked {A} (p : path) (body : prog (Result A)) : prog (Result A) :=
  lock ←? lock_record p;
  body ≫= λ r, Call (Unlock lock) (λ _, Ret r).

Definition fsync_dir (p : path) : prog (result io_error unit) :=
  raw (Open p) ≫= λ d,
  match d with
  | Err e => Ret (Err e)
  | Ok _ => raw (SyncAll p) ≫= λ r,
      Ret match r with
          | Ok _ => Ok tt
          | Err EINVAL => Ok tt
          | Err e => Err e
          end
  end.

Definition backend {A} (r : result io_error A) : Result A :=
  map_err (λ e, Backend (io_to_string e)) r.

Section fs.
Context `{Blake3} `{SerdeRecord}.

Definition read_current (p : path) : prog (Result (option record)) :=
  raw (Read p) ≫= λ r,
  Ret match r with
      | Ok bytes => Some <$> map_err Serde (from_slice bytes)
      | Err ENOENT => Ok None
      | Err e => Err (Backend (io_to_string e))
      end.

Definition write_durable (p : path) (r : record) : prog (Result unit) :=
  bytes ←? Ret (map_err Serde (to_vec_pretty r));
  let tmp := with_extension p "json.tmp" in
  sys (Create tmp) ;?
  sys (WriteAll tmp bytes) ;?
  sys (SyncAll tmp) ;?
  sys (Rename tmp p) ;?
  with_parent p (λ d, fsync_dir d ≫= λ r, Ret (backend r)).

Definition remove_durable (p : path) : prog (Result unit) :=
  raw (RemoveFile p) ≫= λ r,
  match r with
  | Ok _ | Err ENOENT => with_parent p (λ d, fsync_dir d ≫= λ r, Ret (backend r))
  | Err e => Ret (Err (Backend (io_to_string e)))
  end.

Definition put_locked (root : path) (r : record) (expected : option Revision) (cap : nat)
    (plan : option record → record → option Revision → Z → nat → PutPlan) :
    prog (Result PutResult) :=
  let key := rec_key r in
  let p := record_path root key in
  locked p
    (current ←? read_current p;
     clock ≫= λ t,
     match plan current r expected (now_ms t) cap with
     | PutWrite stored =>
         write_durable p stored ;? Ret (Ok (Committed (rec_revision stored)))
     | PutConflict c => Ret (Ok (PutConflicted c))
     | PutNotFound => Ret (Err (NotFound key))
     | PutRejected reason => Ret (Err (Invalid reason))
     end).

Definition purge_locked (root : path) (key : RecordKey) (expected : Revision) :
    prog (Result DeleteResult) :=
  let p := record_path root key in
  locked p
    (current ←? read_current p;
     match plan_purge current expected with
     | PurgeRemove => remove_durable p ;? Ret (Ok Deleted)
     | PurgeNoop => Ret (Ok Deleted)
     | PurgeConflict c => Ret (Ok (DeleteConflicted c))
     end).

Definition delete_locked (root : path) (key : RecordKey) (expected : option Revision)
    (cap : nat) (author : option Identity) : prog (Result DeleteResult) :=
  let p := record_path root key in
  locked p
    (current ←? read_current p;
     clock ≫= λ t,
     match plan_delete current expected (now_ms t) cap author with
     | DeleteWrite tombstone => write_durable p tombstone ;? Ret (Ok Deleted)
     | DeleteNoop => Ret (Ok Deleted)
     | DeleteConflict c => Ret (Ok (DeleteConflicted c))
     end).

(** ** Listing *)

(** A [for] loop whose body may return early. *)
Fixpoint forp {A B} (l : list A) (acc : B) (f : B → A → prog (Result B)) : prog (Result B) :=
  match l with
  | [] => Ret (Ok acc)
  | x :: l' => acc' ←? f acc x; forp l' acc' f
  end.

Definition to_string_lossy (name : string) : string :=
  string_of_bytes (from_utf8_lossy (bytes_of_string name)).

(** [file_type().await.map(|ft| !ft.is_dir()).unwrap_or(true)]: skip. *)
Definition not_dir (p : path) : prog bool :=
  raw (IsDir p) ≫= λ r, Ret match r with Ok d => negb d | Err _ => true end.

Definition collect_file (prefix : KeyPrefix) (ns_name col_name : string)
    (out : list RecordKey) (f : string) : list RecordKey :=
  match str_strip_suffix ".json" (to_string_lossy f) with
  | Some id =>
      let key := mkKey (decode_segment ns_name) (decode_segment col_name) (decode_segment id) in
      if prefix_matches prefix key then out ++ [key] else out
  | None => out
  end.

Definition collect_col (prefix : KeyPrefix) (ns_path : path) (ns_name : string)
    (out : list RecordKey) (col : string) : prog (Result (list RecordKey)) :=
  let col_path := ns_path ++ [col] in
  not_dir col_path ≫= λ skip : bool,
  if skip then Ret (Ok out)
  else
    let col_name := to_string_lossy col in
    files ←? sys (ReadDir col_path);
    Ret (Ok (foldl (collect_file prefix ns_name col_name) out files)).

Definition collect_ns (prefix : KeyPrefix) (root : path) (out : list RecordKey)
    (ns : string) : prog (Result (list RecordKey)) :=
  let ns_path := root ++ [ns] in
  not_dir ns_path ≫= λ skip : bool,
  if skip then Ret (Ok out)
  else
    cols ←? sys (ReadDir ns_path);
    forp cols out (collect_col prefix ns_path (to_string_lossy ns)).

Definition collect_keys (root : path) (prefix : KeyPrefix) : prog (Result (list RecordKey)) :=
  raw (ReadDir root) ≫= λ r,
  match r with
  | Ok namespaces => forp namespaces [] (collect_ns prefix root)
  | Err ENOENT => Ret (Ok [])
  | Err e => Ret (Err (Backend (io_to_string e)))
  end.

(** ** [impl Store for FsStore] *)

Variable s : FsStore.

Definition read_record (key : RecordKey) : prog (Result (option record)) :=
  read_current (record_path (fss_root s) key).

Definition listed_live (key : RecordKey) : prog bool :=
  read_record key ≫= λ r,
  Ret match r with
      | Ok (Some rec) => negb (is_tombstone rec)
      | Ok None => false
      | Err _ => true
      end.

Definition fs_get (key : RecordKey) : prog (Result (option record)) :=
  o ←? read_record key; Ret (Ok (live o)).

Definition fs_put (r : record) (expected : option Revision) : prog (Result PutResult) :=
  put_locked (fss_root s) r expected (fss_cap s) plan_put.

Definition fs_put_raw (r : record) (expected : option Revision) : prog (Result PutResult) :=
  put_locked (fss_root s) r expected (fss_cap s) plan_put_raw.

Definition fs_list (prefix : KeyPrefix) : prog (Result (list RecordKey)) :=
  keys ←? collect_keys (fss_root s) prefix;
  forp keys [] (λ out key,
    listed_live key ≫= λ l : bool, Ret (Ok (if l then out ++ [key] else out))).

Definition fs_delete_as (key : RecordKey) (expected : option Revision)
    (author : option Identity) : prog (Result DeleteResult) :=
  delete_locked (fss_root s) key expected (fss_cap s) author.

Definition fs_get_raw (key : RecordKey) : prog (Result (option record)) := read_record key.

Definition fs_list_raw (prefix : KeyPrefix) : prog (Result (list RecordKey)) :=
  collect_keys (fss_root s) prefix.

Definition fs_purge (key : RecordKey) (expected : Revision) : prog (Result DeleteResult) :=
  purge_locked (fss_root s) key expected.

Definition fs_store : Store FileSystem :=
  mkStore (λ k, exec (fs_get k)) (λ r e, exec (fs_put r e)) (λ p, exec (fs_list p))
    (λ k e a, exec (fs_delete_as k e a)) (λ k, exec (fs_get_raw k))
    (λ p, exec (fs_list_raw p)) (λ r e, exec (fs_put_raw r e)) (λ k e, exec (fs_purge k e)).

(** ** [impl BlobStore for FsStore] *)

(** [is_ascii_hexdigit() && !is_ascii_uppercase()], on every byte. *)
Definition is_blob_hash (name : string) : bool :=
  bool_decide (String.length name = 64)
  && forallb (λ b, (is_digit b || in_range 65 70 b || in_range 97 102 b) && negb (is_upper b))
       (bytes_of_string name).

(** The decision on one directory entry. *)
Definition blob_entry_from_dir_entry (name : string) (modified : result io_error SystemTime) :
    Result (option BlobEntry) :=
  if negb (is_blob_hash name) then Ok None
  else match modified with
       | Ok t => Ok (Some (BlobEntry_from_system_time (mkHash name) t))
       | Err ENOENT => Ok None
       | Err e => Err (Backend (io_to_string e))
       end.

(** [format!("tmp.{}.{nonce}", std::process::id())]. *)
Variable pid : N.
Definition tmp_extension (nonce : N) : string :=
  "tmp." +:+ dec pid +:+ "." +:+ dec nonce.

Definition fs_put_blob (content : bytes) : prog (Result ContentHash) :=
  let hash := ContentHash_of content in
  let p := blob_path (fss_root s) hash in
  present ←? sys (TryExists p);
  if present then Ret (Ok hash)
  else
    with_parent p (λ d, sys (CreateDirAll d)) ;?
    nonce ←? sys FetchAdd;
    let tmp := with_extension p (tmp_extension nonce) in
    sys (Create tmp) ;?
    sys (WriteAll tmp content) ;?
    sys (SyncAll tmp) ;?
    sys (Rename tmp p) ;?
    with_parent p (λ d, fsync_dir d ≫= λ r, Ret (backend r)) ;?
    Ret (Ok hash).

Definition fs_get_blob (hash : ContentHash) : prog (Result (option bytes)) :=
  raw (Read (blob_path (fss_root s) hash)) ≫= λ r,
  Ret match r with
      | Ok b => Ok (Some b)
      | Err ENOENT => Ok None
      | Err e => Err (Backend (io_to_string e))
      end.

Definition fs_list_blobs : prog (Result (list BlobEntry)) :=
  let dir := blobs_dir (fss_root s) in
  raw (ReadDir dir) ≫= λ r,
  match r with
  | Err ENOENT => Ret (Ok [])
  | Err e => Ret (Err (Backend (io_to_string e)))
  | Ok entries =>
      forp entries [] (λ out name0,
        let name := to_string_lossy name0 in
        if negb (is_blob_hash name) then Ret (Ok out)
        else
          raw (Modified (dir ++ [name0])) ≫= λ md,
          o ←? Ret (blob_entry_from_dir_entry name md);
          Ret (Ok (match o with Some e => out ++ [e] | None => out end)))
  end.

Definition fs_has_blob (hash : ContentHash) : prog (Result bool) :=
  sys (TryExists (blob_path (fss_root s) hash)).

Definition fs_delete_blob (hash : ContentHash) : prog (Result unit) :=
  raw (RemoveFile (blob_path (fss_root s) hash)) ≫= λ r,
  Ret match r with
      | Ok _ => Ok tt
      | Err ENOENT => Ok tt
      | Err e => Err (Backend (io_to_string e))
      end.

Definition fs_blobs : BlobStore FileSystem :=
  mkBlobStore (λ c, exec (fs_put_blob c)) (λ h, exec (fs_get_blob h)) (exec fs_list_blobs)
    (λ h, exec (fs_has_blob h)) (λ h, exec (fs_delete_blob h)).
End fs.
