(* ===== verification/FsLayout.v ===== *)
(** * FsLayout: what a laid-out tree holds

    The abstraction from directory trees to maps of records: which keys have a
    path of their own ([key_ok]), when a tree [holds] a map, and that the
    store's elementary changes (a scratch file, new directories, a published
    or removed record file) keep or update what it holds.  A listing of the
    tree is then the keys of the map. *)

From S2P Require Export FsStore.
#[local] Open Scope gonzalo_scope.

(** ** Names *)

Lemma split_on_absent c s : c ∉ s → split_on c s = [s].
Proof.
  induction s as [|b s IH]; [done|]. rewrite not_elem_of_cons. intros [Hb Hs]. simpl.
  rewrite decide_False by done. by rewrite IH.
Qed.

Lemma components_single s :
  slash ∉ bytes_of_string s → s ≠ "" → s ≠ "." → components s = [s].
Proof.
  intros Hs H1 H2. unfold components. rewrite split_on_absent by done.
  rewrite list_fmap_singleton, string_of_bytes_of_string, filter_cons, decide_True by done. done.
Qed.

Lemma path_join_single p s :
  slash ∉ bytes_of_string s → s ≠ "" → s ≠ "." → path_join p s = p ++ [s].
Proof.
  intros Hs H1 H2. unfold path_join, is_absolute. rewrite bool_decide_eq_false_2.
  - by rewrite components_single.
  - intros Hh. apply Hs. destruct (bytes_of_string s); simplify_eq/=. set_solver.
Qed.

Lemma segment_empty s : segment s = "" ↔ s = "".
Proof. split; [|by intros ->]. intros H. apply segment_inj. by rewrite H. Qed.

Lemma segment_not_dot s : dot ∈ bytes_of_string s → segment s = s → False.
Proof. intros Hd Heq. apply (proj2 (segment_inert s)). by rewrite Heq. Qed.

Lemma segment_neq s s' : dot ∈ bytes_of_string s' → segment s ≠ s'.
Proof. intros Hd <-. by apply (proj2 (segment_inert s)). Qed.

Lemma str_strip_suffix_app x suf : str_strip_suffix suf (x +:+ suf) = Some x.
Proof.
  unfold str_strip_suffix. rewrite bytes_of_string_app, length_app.
  replace (_ + _ - _) with (length (bytes_of_string x)) by lia.
  rewrite drop_app_length, decide_True, take_app_length by done.
  by rewrite string_of_bytes_of_string.
Qed.

Lemma str_strip_suffix_Some suf s x : str_strip_suffix suf s = Some x → s = x +:+ suf.
Proof.
  unfold str_strip_suffix. generalize (length (bytes_of_string s) - length (bytes_of_string suf)).
  intros n. case_decide as Hd; [|done]. intros [= <-]. apply bytes_of_string_inj.
  by rewrite bytes_of_string_app, bytes_of_string_of_bytes, <-Hd, take_drop.
Qed.

(** Two endings of which neither ends the other. *)
Lemma str_strip_suffix_other suf x tail :
  last (bytes_of_string tail) ≠ last (bytes_of_string suf) →
  tail ≠ "" → suf ≠ "" → str_strip_suffix suf (x +:+ tail) = None.
Proof.
  intros Hl Ht Hs. destruct (str_strip_suffix suf (x +:+ tail)) as [y|] eqn:E; [|done].
  apply str_strip_suffix_Some, (f_equal (last ∘ bytes_of_string)) in E. simpl in E.
  rewrite !bytes_of_string_app, !last_app in E.
  assert (∀ s, s ≠ "" → is_Some (last (bytes_of_string s))) as Hne.
  { intros s Hne. apply last_is_Some. intros E'. by apply Hne, bytes_of_string_inj. }
  destruct (Hne _ Ht) as [b Hb], (Hne _ Hs) as [b' Hb']. rewrite Hb, Hb' in *. congruence.
Qed.

(** *** ASCII names survive the lossy decoder *)

Definition ascii (s : bytes) : bool := forallb (λ b, bool_decide (byte_code b < 128)%N) s.

Lemma ascii_utf8 s : ascii s = true → utf8_valid s = true.
Proof.
  unfold utf8_valid. assert (∀ n, length s ≤ n → ascii s = true → utf8_valid_fuel n s = true) as H.
  { induction s as [|b s IH]; intros n Hn Ha; [by destruct n|].
    destruct n as [|n]; [simpl in Hn; lia|]. simpl in Ha. apply andb_true_iff in Ha as [Hb Ha].
    apply bool_decide_eq_true in Hb. cbn [utf8_valid_fuel]. unfold utf8_step, utf8_lead.
    rewrite bool_decide_eq_true_2 by done. simpl.
    apply IH; [simpl in Hn; lia|done]. }
  auto.
Qed.

Lemma to_string_lossy_ascii s : ascii (bytes_of_string s) = true → to_string_lossy s = s.
Proof.
  intros Ha. unfold to_string_lossy. rewrite from_utf8_lossy_valid by (by apply ascii_utf8).
  apply string_of_bytes_of_string.
Qed.

Lemma ascii_app a b : ascii (a ++ b) = ascii a && ascii b.
Proof. apply forallb_app. Qed.

Lemma ascii_segment s : ascii (bytes_of_string (segment s)) = true.
Proof.
  rewrite bytes_of_segment. pose proof (segment_bytes_safe (bytes_of_string s)) as Hs.
  unfold ascii. rewrite forallb_forall in *. intros b Hb%Hs. by destruct b.
Qed.

Lemma ascii_before_last c s w : ascii s = true → before_last c s = Some w → ascii w = true.
Proof.
  revert w. induction s as [|b s IH]; intros w; [done|]. simpl. rewrite andb_true_iff.
  intros [Hb Hs]. destruct (before_last c s) as [w'|] eqn:E; [intros [= <-]|destruct (decide (b = c)); intros; simplify_eq; done].
  simpl. by rewrite Hb, (IH w').
Qed.

Lemma ascii_file_stem s :
  ascii (bytes_of_string s) = true → ascii (bytes_of_string (file_stem s)) = true.
Proof.
  intros Hs. unfold file_stem. destruct (before_last _ _) as [[|b w]|] eqn:E; [done| |done].
  rewrite bytes_of_string_of_bytes. by eapply ascii_before_last.
Qed.

(** ** Keys with a path of their own

    Rust strings are UTF-8; an empty component would vanish from the path, and
    a collection of the namespace [blobs] must not be named like a blob. *)

Definition rust_string (s : string) : Prop := utf8_valid (bytes_of_string s) = true.

Record key_ok (k : RecordKey) : Prop := {
  ok_namespace : rust_string (key_namespace k) ∧ key_namespace k ≠ "";
  ok_collection : rust_string (key_collection k) ∧ key_collection k ≠ "";
  ok_id : rust_string (key_id k);
  ok_blobs : segment (key_namespace k) = "blobs" → is_blob_hash (segment (key_collection k)) = false
}.

Definition file_name (k : RecordKey) : string := segment (key_id k) +:+ ".json".
Definition key_dir (k : RecordKey) : path :=
  [segment (key_namespace k); segment (key_collection k)].
Definition key_path (k : RecordKey) : path := key_dir k ++ [file_name k].

Lemma file_name_ascii k : ascii (bytes_of_string (file_name k)) = true.
Proof. unfold file_name. by rewrite bytes_of_string_app, ascii_app, ascii_segment. Qed.

Lemma file_name_stem k : str_strip_suffix ".json" (file_name k) = Some (segment (key_id k)).
Proof. apply str_strip_suffix_app. Qed.

Lemma file_name_no_slash k : slash ∉ bytes_of_string (file_name k).
Proof.
  unfold file_name. rewrite bytes_of_string_app, not_elem_of_app. split; [apply segment_inert|].
  vm_compute. intros H. repeat (apply elem_of_cons in H as [|H]; [done|]). by apply elem_of_nil in H.
Qed.

Lemma file_name_neq k s : str_strip_suffix ".json" s = None → file_name k ≠ s.
Proof. intros Hs <-. by rewrite file_name_stem in Hs. Qed.

#[export] Instance key_path_inj : Inj (=) (=) key_path.
Proof.
  intros [n1 c1 i1] [n2 c2 i2] H. unfold key_path, key_dir, file_name in H. simpl in H.
  injection H as Hn Hc Hi.
  apply (f_equal (str_strip_suffix ".json")) in Hi. rewrite !str_strip_suffix_app in Hi.
  injection Hi as Hi. by apply (inj segment) in Hn, Hc, Hi; subst.
Qed.

Lemma record_path_ok root k : key_ok k → record_path root k = root ++ key_path k.
Proof.
  intros [[_ Hn] [_ Hc] _ _]. unfold record_path, record_components.
  assert (∀ s, s ≠ "" → segment s ≠ "" ∧ segment s ≠ ".") as Hs.
  { intros s Hs. split; [by rewrite segment_empty|].
    apply segment_neq. by apply (list_elem_of_singleton _ dot). }
  destruct (Hs _ Hn), (Hs _ Hc).
  rewrite !path_join_single; try done; try apply segment_inert.
  - unfold key_path, key_dir. by rewrite <-!app_assoc.
  - apply file_name_no_slash.
  - apply (file_name_neq k). reflexivity.
  - apply (file_name_neq k). reflexivity.
Qed.

(** The scratch files beside a record: its lock and its unpublished version. *)
Definition scratch_name (x : string) : Prop :=
  str_strip_suffix ".json" (to_string_lossy x) = None ∧ x ≠ "..".

Lemma scratch_extension k ext :
  ascii (bytes_of_string ext) = true → ext ≠ "" →
  last (bytes_of_string ext) ≠ Some "n"%byte → last (bytes_of_string ext) ≠ Some dot →
  scratch_name (file_stem (file_name k) +:+ "." +:+ ext).
Proof.
  intros Ha Hne Hl Hd. split.
  - rewrite to_string_lossy_ascii.
    + rewrite <-string_app_assoc. by apply str_strip_suffix_other.
    + rewrite !bytes_of_string_app, !ascii_app, Ha, ascii_file_stem; [done|apply file_name_ascii].
  - intros E%(f_equal (last ∘ bytes_of_string)). simpl in E.
    rewrite !bytes_of_string_app, !last_app in E.
    destruct (last (bytes_of_string ext)) eqn:El; [naive_solver|].
    apply last_None in El. apply Hne. by apply bytes_of_string_inj.
Qed.

Lemma with_extension_path root k ext :
  with_extension (root ++ key_path k) ext =
    root ++ key_dir k ++ [file_stem (file_name k) +:+ "." +:+ ext].
Proof.
  unfold with_extension, key_path. rewrite app_assoc, last_snoc, parent_snoc.
  by rewrite <-app_assoc.
Qed.

(** ** The abstraction *)

Definition is_file (n : node) : Prop := ∃ d s u, n = File d s u.

(** What may be where under the root. *)
Definition layout_ok (m : records) (p : path) (n : node) : Prop :=
  match p with
  | [] => n = Dir
  | [x] => match n with Dir => dot ∉ bytes_of_string x | File _ _ _ => dot ∈ bytes_of_string x end
  | [ns; col] =>
      to_string_lossy col = col ∧
      match n with
      | Dir => ns = "blobs" → is_blob_hash col = false ∧ dot ∉ bytes_of_string col
      | File _ _ _ => ns = "blobs" ∧ (is_blob_hash col = true ∨ dot ∈ bytes_of_string col)
      end
  | [_; _; f] =>
      is_file n ∧
      ∀ stem, str_strip_suffix ".json" (to_string_lossy f) = Some stem →
        ∃ k, is_Some (m !! k) ∧ key_path k = p
  | _ => False
  end.

(** Every entry under the root is the store's, and nothing stands in for a
    directory above it. *)
Definition laid_out (root : path) (t : tree) (m : records) : Prop :=
  (∀ p n, t !! (root ++ p) = Some n → layout_ok m p n) ∧
  (∀ q, q `prefix_of` root → ∀ d s u, node_at t q ≠ Some (File d s u)).

Section holds.
Context `{SerdeRecord}.

(** The file of a record. *)
Definition stores_record (t : tree) (p : path) (r : record) : Prop :=
  ∃ d s u, t !! p = Some (File d s u) ∧ from_slice d = Ok r.

Record holds (root : path) (t : tree) (m : records) : Prop := {
  holds_plain : plain root;
  holds_closed : closed t;
  holds_layout : laid_out root t m;
  holds_record k r : m !! k = Some r →
    key_ok k ∧ rec_key r = k ∧ stores_record t (root ++ key_path k) r
}.
End holds.

Lemma key_path_ne root k : root ++ key_path k ≠ [].
Proof. by destruct root. Qed.

Lemma scratch_path_ne root k x : root ++ key_dir k ++ [x] ≠ [].
Proof. by destruct root. Qed.

Lemma parent_key_path root k : parent (root ++ key_path k) = root ++ key_dir k.
Proof. unfold key_path. by rewrite app_assoc, parent_snoc. Qed.

Lemma parent_scratch root k x : parent (root ++ key_dir k ++ [x]) = root ++ key_dir k.
Proof. by rewrite app_assoc, parent_snoc. Qed.

Lemma segment_plain s : segment s ≠ "..".
Proof. apply segment_neq. apply elem_of_cons. by left. Qed.

Lemma plain_key_dir root k : plain root → plain (root ++ key_dir k).
Proof.
  unfold plain, key_dir. rewrite not_elem_of_app, !not_elem_of_cons.
  pose proof (segment_plain (key_namespace k)). pose proof (segment_plain (key_collection k)).
  pose proof (not_elem_of_nil (A:=string) ".."). naive_solver.
Qed.

Lemma plain_in_dir root k x : plain root → x ≠ ".." → plain (root ++ key_dir k ++ [x]).
Proof.
  intros Hr%(plain_key_dir _ k) Hx. unfold plain in *. rewrite app_assoc, not_elem_of_app.
  split; [done|]. rewrite list_elem_of_singleton. congruence.
Qed.

Lemma plain_key_path root k : plain root → plain (root ++ key_path k).
Proof. intros. apply plain_in_dir; [done|]. by apply file_name_neq. Qed.

Lemma prefix_app_cases {A} (q a b : list A) :
  q `prefix_of` a ++ b → q `prefix_of` a ∨ ∃ c, c ≠ [] ∧ c `prefix_of` b ∧ q = a ++ c.
Proof.
  intros [r Hr]. revert q Hr. induction a as [|x a IH]; intros [|y q] Hr; simpl in *.
  - left. by exists [].
  - right. exists (y :: q). split_and!; [done|by exists r|done].
  - left. by exists (x :: a).
  - injection Hr as -> Hr. destruct (IH _ Hr) as [[c ->]|(c & ? & ? & ->)].
    + left. by exists c.
    + right. by exists c.
Qed.

(** No file is in the way of a well-formed key. *)
Lemma laid_out_dirs root t m k q :
  laid_out root t m → key_ok k → q `prefix_of` root ++ key_dir k →
  ∀ d s u, node_at t q ≠ Some (File d s u).
Proof.
  intros [Hl Hr] Hk [Hq|(c & Hc & [e He] & ->)]%prefix_app_cases d s u; [by apply Hr|].
  rewrite node_at_ne by (by destruct root, c). intros Hn%Hl. unfold key_dir in He.
  destruct c as [|a [|b c]]; [done| |].
  { injection He as <- _. by apply (proj2 (segment_inert (key_namespace k))). }
  injection He as <- <- He. destruct c; [|done]. simpl in Hn. destruct Hn as (_ & Hns & [Hb|Hd]).
  - by rewrite (ok_blobs k Hk Hns) in Hb.
  - by apply (proj2 (segment_inert (key_collection k))).
Qed.

Lemma laid_out_unobstructed root t m k x :
  laid_out root t m → key_ok k → unobstructed t (root ++ key_dir k ++ [x]).
Proof.
  intros Hl Hk q y r d s u Heq. eapply laid_out_dirs; [done..|].
  rewrite app_assoc in Heq. destruct r as [|z r _] using rev_ind.
  - apply app_inj_tail in Heq as [<- _]. done.
  - change (y :: r ++ [z]) with ((y :: r) ++ [z]) in Heq.
    rewrite app_assoc in Heq. apply app_inj_tail in Heq as [-> _]. by exists (y :: r).
Qed.

(** The map's growth only allows more. *)
Lemma layout_ok_mono m m' p n :
  (∀ k, key_path k = p → is_Some (m !! k) → is_Some (m' !! k)) →
  layout_ok m p n → layout_ok m' p n.
Proof.
  intros Hm. destruct p as [|a [|b [|f [|? ?]]]]; simpl; try done.
  intros [Hf Hs]. split; [done|]. intros stem (k & Hk & Hp)%Hs. exists k. eauto.
Qed.

(** ** Elementary changes *)

Section changes.
Context `{SerdeRecord}.
Implicit Types (root : path) (t : tree) (m : records) (k : RecordKey).

Lemma holds_look root t m k x :
  holds root t m → key_ok k → x ≠ ".." →
  look t (root ++ key_dir k ++ [x]) =
    match t !! (root ++ key_dir k ++ [x]) with
    | Some n => Ok (root ++ key_dir k ++ [x], n)
    | None => Err ENOENT
    end.
Proof.
  intros [Hp Hc Hl _] Hk Hx. rewrite look_plain; [|done|by apply plain_in_dir|].
  - by rewrite node_at_ne by apply scratch_path_ne.
  - by eapply laid_out_unobstructed.
Qed.

Lemma holds_walk root t m k x :
  holds root t m → key_ok k → x ≠ ".." → node_at t (root ++ key_dir k) = Some Dir →
  walk t [] (root ++ key_dir k ++ [x]) = Ok (root ++ key_dir k ++ [x]).
Proof.
  intros [Hp Hc Hl _] Hk Hx Hd. apply walk_in_dir; [done|by apply plain_in_dir| |].
  - by eapply laid_out_unobstructed.
  - by rewrite parent_scratch.
Qed.

(** In a collection's directory there are only files. *)
Lemma holds_file root t m k x :
  holds root t m → t !! (root ++ key_dir k ++ [x]) ≠ Some Dir.
Proof. intros [_ _ [Hl _] _] Hd%Hl. by destruct Hd as [(? & ? & ? & ?) _]. Qed.

Lemma root_not_child root k x : ∀ q, q `prefix_of` root → root ++ key_dir k ++ [x] ≠ q.
Proof.
  intros q [r ->] Heq. apply (f_equal length) in Heq. rewrite !length_app in Heq.
  unfold key_dir in Heq. simpl in Heq. lia.
Qed.

Lemma laid_out_insert root t m k x n :
  laid_out root t m → layout_ok m (key_dir k ++ [x]) n →
  laid_out root (<[root ++ key_dir k ++ [x] := n]> t) m.
Proof.
  intros [Hl Hr] Hn. split.
  - intros p n' [[Heq <-]|[_ ?]]%lookup_insert_Some; [|by apply Hl].
    by apply app_inv_head in Heq as <-.
  - intros q Hq d s u. rewrite node_at_insert by apply scratch_path_ne.
    rewrite decide_False by (by apply root_not_child). by apply Hr.
Qed.

(** A scratch file comes, changes or goes. *)
Lemma scratch_layout m k x d s u :
  scratch_name x → layout_ok m (key_dir k ++ [x]) (File d s u).
Proof.
  intros [Hx _]. split; [by eexists _, _, _|]. intros stem Hs. congruence.
Qed.

Lemma scratch_not_record root k k' x :
  scratch_name x → root ++ key_dir k ++ [x] ≠ root ++ key_path k'.
Proof.
  intros [Hx _] Heq%app_inv_head. unfold key_path in Heq.
  apply app_inj_tail in Heq as [_ ->].
  rewrite to_string_lossy_ascii, file_name_stem in Hx by apply file_name_ascii. done.
Qed.

Lemma holds_scratch root t m k x d s u :
  holds root t m → scratch_name x → node_at t (root ++ key_dir k) = Some Dir →
  holds root (<[root ++ key_dir k ++ [x] := File d s u]> t) m.
Proof.
  intros Hh Hx Hd. pose proof Hh as [Hp Hc Hl Hrec]. split; [done| | |].
  - apply closed_insert; [done|by apply plain_in_dir, Hx|apply scratch_path_ne|by rewrite parent_scratch|].
    rewrite node_at_ne by apply scratch_path_ne. intros []%(holds_file _ _ _ _ _ Hh).
  - apply laid_out_insert; [done|by apply scratch_layout].
  - intros k' r (? & ? & Hs)%Hrec. split_and!; [done..|]. unfold stores_record.
    by rewrite lookup_insert_ne by (by apply scratch_not_record).
Qed.

Lemma holds_grown root t t' m k :
  holds root t m → key_ok k → grown t t' (root ++ key_dir k) → holds root t' m.
Proof.
  intros [Hp Hc [Hl Hr] Hrec] Hk (Hc' & Hin & Hout). split; [done..| |].
  - split.
    + intros p n [?|(_ & -> & Hq)]%Hout; [by apply Hl|].
      apply (prefix_app_inv root) in Hq as [e He]. unfold key_dir in He.
      destruct p as [|a [|b p]]; [done|injection He as <- _; apply segment_inert|].
      injection He as <- <- He. destruct p; [|done]. simpl. split; [apply to_string_lossy_ascii, ascii_segment|].
      intros Hns. split; [by apply ok_blobs|apply segment_inert].
    + intros q Hq d s u. destruct q as [|a q]; [done|]. simpl.
      intros [Hn|(_ & Hd & _)]%Hout; [|done]. by apply (Hr _ Hq d s u).
  - intros k' r (? & ? & d & s & u & Hn & Hd)%Hrec. split_and!; [done..|].
    exists d, s, u. eauto.
Qed.

(** Publishing a record. *)
Lemma holds_publish root t m k r d s u :
  holds root t m → key_ok k → rec_key r = k → from_slice d = Ok r →
  node_at t (root ++ key_dir k) = Some Dir →
  holds root (<[root ++ key_path k := File d s u]> t) (<[k := r]> m).
Proof.
  intros Hh Hk Hr Hd Hdir. pose proof Hh as [Hp Hc Hl Hrec]. split; [done| | |].
  - apply closed_insert; [done|by apply plain_key_path|apply key_path_ne|by rewrite parent_key_path|].
    rewrite node_at_ne by apply key_path_ne. intros []%(holds_file _ _ _ _ _ Hh).
  - apply (laid_out_insert root t _ k (file_name k)).
    + destruct Hl as [Hl Hroot]. split; [|done]. intros p n Hn%Hl.
      eapply layout_ok_mono; [|done]. intros k' _ ?. apply lookup_insert_is_Some'. by right.
    + split; [by eexists _, _, _|]. intros stem _. exists k. split; [|done].
      by rewrite lookup_insert_eq.
  - intros k' r' [[<- <-]|[Hne (? & ? & Hs)%Hrec]]%lookup_insert_Some.
    + split_and!; [done..|]. exists d, s, u. by rewrite lookup_insert_eq.
    + split_and!; [done..|]. unfold stores_record. rewrite lookup_insert_ne; [done|].
      intros Heq%app_inv_head. by apply (inj key_path) in Heq.
Qed.

Lemma holds_absent root t m k :
  holds root t m → m !! k = None → t !! (root ++ key_path k) = None.
Proof.
  intros [_ _ [Hl _] _] Hm. destruct (t !! (root ++ key_path k)) as [n|] eqn:Hn; [|done].
  apply Hl in Hn as [_ Hs]. destruct (Hs (segment (key_id k))) as (k' & [r Hr] & Heq).
  - rewrite to_string_lossy_ascii by apply file_name_ascii. apply file_name_stem.
  - apply (inj key_path) in Heq. congruence.
Qed.

(** Removing a scratch file, or a record. *)
Lemma holds_unscratch root t m k x :
  holds root t m → scratch_name x → holds root (delete (root ++ key_dir k ++ [x]) t) m.
Proof.
  intros Hh Hx. pose proof Hh as [Hp Hc [Hl Hr] Hrec]. split; [done| | |].
  - apply closed_delete; [done|apply scratch_path_ne|].
    rewrite node_at_ne by apply scratch_path_ne. by apply (holds_file _ _ _ _ _ Hh).
  - split; [by intros p n [_ ?%Hl]%lookup_delete_Some|].
    intros q Hq d s u. rewrite node_at_delete by apply scratch_path_ne.
    case_decide; [done|by apply Hr].
  - intros k' r (? & ? & Hs)%Hrec. split_and!; [done..|]. unfold stores_record.
    by rewrite lookup_delete_ne by (by apply scratch_not_record).
Qed.

Lemma holds_remove root t m k :
  holds root t m → holds root (delete (root ++ key_path k) t) (delete k m).
Proof.
  intros Hh. pose proof Hh as [Hp Hc [Hl Hr] Hrec]. split; [done| | |].
  - apply closed_delete; [done|apply key_path_ne|].
    rewrite node_at_ne by apply key_path_ne. by apply (holds_file _ _ _ _ _ Hh).
  - split.
    + intros p n [Hne Hn%Hl]%lookup_delete_Some. eapply layout_ok_mono; [|done].
      intros k' <- ?. rewrite lookup_delete_ne; [done|]. by intros ->.
    + intros q Hq d s u. rewrite node_at_delete by apply key_path_ne.
      case_decide; [done|by apply Hr].
  - intros k' r [Hne (? & ? & Hs)%Hrec]%lookup_delete_Some. split_and!; [done..|].
    unfold stores_record. rewrite lookup_delete_ne; [done|].
    intros Heq%app_inv_head. by apply (inj key_path) in Heq.
Qed.
End changes.
