(* ===== verification/FsCrash.v ===== *)
(** * FsCrash: what a laid-out tree holds after a crash, and how calls move it

    [durable]: the records a tree holds are on disk, directories included.
    [near]: the tree and the disk agree but for one key, the state between the
    [rename] (or [unlink]) of a write and the flush of its directory.
    [crash_near] is the recovery lemma: after a crash the tree holds what was
    in memory or what was on disk, and durably so.  Scratch files and new directories
    disturb nothing, publishing or removing a record leaves memory one key ahead of the
    disk, and flushing the directory closes the gap, provided the directory is itself on
    disk. *)

From S2P Require Export FsLayout.
#[local] Open Scope gonzalo_scope.

(** ** Durability *)

(** The entries along a path are on disk as they are in memory. *)
Definition stable (fs : FileSystem) (p : path) : Prop :=
  ∀ q, q `prefix_of` p → q ≠ [] → fs_disk fs !! q = fs_now fs !! q.

Definition synced (t : tree) (p : path) : Prop := ∃ d u, t !! p = Some (File d true u).

(** ** The unluckiest crash: only what was on disk survives *)

Definition above_on_disk (disk : tree) (p : path) : Prop :=
  p ≠ [] ∧ plain p ∧ Forall (λ i, node_at disk (take i p) = Some Dir) (seq 0 (length p)).
#[export] Instance above_on_disk_dec disk p : Decision (above_on_disk disk p).
Proof. unfold above_on_disk, plain. apply _. Defined.

Definition disk_only (fs : FileSystem) : FileSystem :=
  let t := filter (λ e, above_on_disk (fs_disk fs) e.1) (fs_disk fs) in
  mkFs t t ∅ (fs_nonce fs) (fs_clock fs).

Lemma above_on_disk_spec disk p q x r :
  above_on_disk disk p → p = q ++ x :: r → node_at disk q = Some Dir.
Proof.
  intros (_ & _ & Hf) ->. rewrite Forall_forall in Hf.
  specialize (Hf (length q)). rewrite take_app_length in Hf. apply Hf.
  apply elem_of_seq. rewrite length_app. simpl. lia.
Qed.

Lemma above_on_disk_parent disk p :
  p ≠ [] → plain p → above_on_disk disk (parent p) ∨ parent p = [] →
  node_at disk (parent p) = Some Dir → above_on_disk disk p.
Proof.
  intros Hne Hp Hpar Hd. split_and!; [done..|]. apply Forall_forall.
  intros i Hi%elem_of_seq. destruct p as [|x p _] using rev_ind; [done|].
  rewrite parent_snoc in *. rewrite length_app in Hi. simpl in Hi.
  rewrite take_app_le by lia. destruct (decide (i = length p)) as [->|Hi'].
  - by rewrite take_ge.
  - destruct Hpar as [(_ & _ & Hf)| ->]; [|simpl in *; lia].
    rewrite Forall_forall in Hf. apply Hf, elem_of_seq. lia.
Qed.

Lemma disk_only_lookup fs p n :
  fs_now (disk_only fs) !! p = Some n ↔ fs_disk fs !! p = Some n ∧ above_on_disk (fs_disk fs) p.
Proof. simpl. by rewrite map_lookup_filter_Some. Qed.

Lemma crash_disk_only fs : closed (fs_now fs) → crash fs (disk_only fs).
Proof.
  intros Hclosed. split.
  - intros p n [Hn Ha]%disk_only_lookup. pose proof Ha as (Hne & Hp & _).
    split_and!; [done..|]. destruct p as [|x p _] using rev_ind; [done|]. rewrite parent_snoc.
    destruct (decide (p = [])) as [->|Hp0]; [done|]. rewrite node_at_ne by done.
    apply disk_only_lookup. rewrite <-(node_at_ne (fs_disk fs)) by done.
    split; [by apply (above_on_disk_spec _ _ p x [] Ha)|].
    split_and!; [done| |].
    + intros Hdot. apply Hp. set_solver.
    + destruct Ha as (_ & _ & Hf). rewrite Forall_forall in Hf |- *. intros i Hi%elem_of_seq.
      specialize (Hf i). rewrite take_app_le in Hf by lia. apply Hf, elem_of_seq.
      rewrite length_app. lia.
  - done.
  - done.
  - intros p n [Hn _]%disk_only_lookup. exists n. split; [by right|].
    by destruct n as [|d [] u].
  - intros p Hc Hne Hd. destruct (fs_now fs !! p) as [n'|] eqn:Hnow; [|by left].
    right. destruct (fs_disk fs !! p) as [n|] eqn:Hn; [|done]. exfalso.
    assert (above_on_disk (fs_disk fs) p) as Ha; [|].
    + apply Hclosed in Hnow as (Hp & _ & _).
      destruct (decide (parent p = [])) as [E|E].
      * apply above_on_disk_parent; auto. by rewrite E.
      * rewrite node_at_ne in Hd by done. apply disk_only_lookup in Hd as [Hd Ha].
        apply above_on_disk_parent; auto. by rewrite node_at_ne.
    + assert (fs_now (disk_only fs) !! p = Some n) by (by apply disk_only_lookup). congruence.
Qed.

Section durability.
Context `{SerdeRecord}.
Implicit Types (fs c : FileSystem) (m : records).

Record durable (root : path) (fs : FileSystem) (m : records) : Prop := {
  durable_layout : laid_out root (fs_disk fs) m;
  durable_stable k : is_Some (m !! k) → stable fs (root ++ key_path k);
  durable_synced k : is_Some (m !! k) → synced (fs_now fs) (root ++ key_path k)
}.

(** A synced file that holds a record. *)
Definition committed_file (t : tree) (p : path) (r : record) : Prop :=
  ∃ d u, t !! p = Some (File d true u) ∧ from_slice d = Ok r.

(** Memory holds [ma] and the disk [mb]; they differ at most at [k].  Unless
    [k] is in a [fresh] directory, its directory is on disk. *)
Record near (root : path) (fs : FileSystem) (k : RecordKey) (fresh : bool)
    (ma mb : records) : Prop := {
  near_holds : holds root (fs_now fs) ma;
  near_layout : laid_out root (fs_disk fs) mb;
  near_agree k' : k' ≠ k → ma !! k' = mb !! k';
  near_stable k' : k' ≠ k → is_Some (ma !! k') → stable fs (root ++ key_path k');
  near_synced k' : is_Some (ma !! k') → synced (fs_now fs) (root ++ key_path k');
  near_disk r : mb !! k = Some r →
    key_ok k ∧ rec_key r = k ∧ committed_file (fs_disk fs) (root ++ key_path k) r;
  near_dirs : fresh = false → is_Some (ma !! k) → is_Some (mb !! k) → stable fs (root ++ key_dir k)
}.

Lemma near_durable root fs k m :
  holds root (fs_now fs) m → durable root fs m → near root fs k false m m.
Proof.
  intros Hh [Hl Hst Hsy]. split; try done.
  - intros k' _. apply Hst.
  - intros r Hr. destruct (holds_record _ _ _ Hh _ _ Hr) as (Hk & Hrk & d & s & u & Hd & Hp).
    split_and!; [done..|]. assert (is_Some (m !! k)) as Hin by eauto.
    destruct (Hsy k Hin) as (d' & u' & Hd'). rewrite Hd in Hd'. injection Hd' as -> -> ->.
    exists d', u'. rewrite (Hst k Hin); [done|done|apply key_path_ne].
  - intros _ Hin _ q Hq Hq0. apply (Hst k Hin); [|done].
    etrans; [exact Hq|]. unfold key_path. rewrite app_assoc. by apply prefix_app_r.
Qed.

(** ** Recovery *)

Section recovery.
Variables (root : path) (fs c : FileSystem) (k : RecordKey) (fresh : bool).
Variables (ma mb : records).
Hypothesis Hnear : near root fs k fresh ma mb.
Hypothesis Hcrash : crash fs c.

Let Hh : holds root (fs_now fs) ma := near_holds _ _ _ _ _ _ Hnear.

(** Directories that are on disk survive. *)
Lemma dirs_survive p :
  stable fs p → (∀ q, q `prefix_of` p → q ≠ [] → fs_now fs !! q = Some Dir) →
  node_at (fs_now c) p = Some Dir.
Proof.
  induction p as [|x p IH] using rev_ind; intros Hst Hd; [done|].
  assert (p ++ [x] ≠ []) as Hne by (by destruct p).
  rewrite node_at_ne by done.
  assert (node_at (fs_now c) p = Some Dir) as Hp.
  { apply IH; intros q Hq Hq0; [apply Hst|apply Hd]; try done; by apply prefix_app_r. }
  assert (fs_now fs !! (p ++ [x]) = Some Dir) as Hnow by (by apply Hd).
  assert (fs_disk fs !! (p ++ [x]) = Some Dir) as Hdisk by (by rewrite (Hst (p ++ [x]))).
  destruct (fs_now c !! (p ++ [x])) as [n'|] eqn:Hc.
  - destruct (crash_source _ _ Hcrash _ _ Hc) as (n & Hn & Hi).
    assert (n = Dir) as -> by (destruct Hn; congruence). by destruct n'.
  - destruct (crash_lost _ _ Hcrash _ Hc Hne); [by rewrite parent_snoc|congruence..].
Qed.

(** The directories above an entry of a closed tree. *)
Lemma closed_dirs t p x q :
  closed t → is_Some (t !! (p ++ [x])) → q `prefix_of` p → q ≠ [] → t !! q = Some Dir.
Proof.
  intros Hc [n Hn] [e ->] Hq. rewrite <-(node_at_ne t q) by done.
  apply (node_at_app t q (e ++ [x]) n); [done|by destruct e|].
  rewrite node_at_ne by (by destruct q). by rewrite app_assoc.
Qed.

Lemma key_dirs t m k' :
  holds root t m → is_Some (m !! k') →
  ∀ q, q `prefix_of` root ++ key_dir k' → q ≠ [] → t !! q = Some Dir.
Proof.
  intros Hm [r Hr] q Hq Hq0. destruct (holds_record _ _ _ Hm _ _ Hr) as (_ & _ & d & s & u & Hd & _).
  eapply (closed_dirs _ (root ++ key_dir k') (file_name k')); [apply Hm| |done..].
  rewrite <-app_assoc. by eexists.
Qed.

Lemma stable_parent p x : stable fs (p ++ [x]) → stable fs p.
Proof. intros Hst q Hq. apply Hst. by apply prefix_app_r. Qed.

(** A synced file whose directory survives and that is on disk survives. *)
Lemma file_survives p d u :
  p ≠ [] → node_at (fs_now c) (parent p) = Some Dir →
  fs_now fs !! p = Some (File d true u) → fs_disk fs !! p = Some (File d true u) →
  fs_now c !! p = Some (File d true u).
Proof.
  intros Hp Hdir Hnow Hdisk. destruct (fs_now c !! p) as [n'|] eqn:Hc.
  - destruct (crash_source _ _ Hcrash _ _ Hc) as (n & Hn & Hi).
    assert (n = File d true u) as -> by (destruct Hn; congruence).
    destruct n' as [|d' s' t']; [done|]. by destruct Hi as (-> & -> & ->).
  - destruct (crash_lost _ _ Hcrash _ Hc Hp Hdir); congruence.
Qed.

Lemma others_survive k' r :
  k' ≠ k → ma !! k' = Some r → committed_file (fs_now c) (root ++ key_path k') r.
Proof.
  intros Hne Hr. assert (is_Some (ma !! k')) as Hin by eauto.
  pose proof (near_stable _ _ _ _ _ _ Hnear k' Hne Hin) as Hst.
  destruct (near_synced _ _ _ _ _ _ Hnear k' Hin) as (d & u & Hd).
  exists d, u. destruct (holds_record _ _ _ Hh _ _ Hr) as (_ & _ & d' & s' & u' & Hd' & Hp).
  rewrite Hd in Hd'. injection Hd' as <- <- <-. split; [|done].
  apply file_survives; [apply key_path_ne| |done|by rewrite (Hst (root ++ key_path k'));
    [|done|apply key_path_ne]].
  rewrite parent_key_path. apply dirs_survive.
  - eapply stable_parent. unfold key_path in Hst. rewrite app_assoc in Hst. exact Hst.
  - by eapply key_dirs.
Qed.

Lemma image_layout m p n n' : image n n' → layout_ok m p n → layout_ok m p n'.
Proof.
  destruct n as [|d [] u], n' as [|d' s' u']; try done;
    destruct p as [|a [|b [|f [|? ?]]]]; simpl; try done.
  - intros _ [_ Hs]. split; [by eexists _, _, _|done].
  - intros _ [_ Hs]. split; [by eexists _, _, _|done].
Qed.

(** What the survivors hold, once the fate of [k] is known. *)
Lemma survivors m' :
  (∀ k', k' ≠ k → m' !! k' = ma !! k') →
  (is_Some (fs_now c !! (root ++ key_path k)) → is_Some (m' !! k)) →
  (∀ r, m' !! k = Some r → key_ok k ∧ rec_key r = k ∧
     committed_file (fs_now c) (root ++ key_path k) r) →
  holds root (fs_now c) m' ∧ durable root c m'.
Proof.
  intros Hag Hk Hrec.
  assert (∀ k' r, m' !! k' = Some r → key_ok k' ∧ rec_key r = k' ∧
     committed_file (fs_now c) (root ++ key_path k') r) as Hall.
  { intros k' r Hr. destruct (decide (k' = k)) as [->|Hne]; [by apply Hrec|].
    rewrite Hag in Hr by done. destruct (holds_record _ _ _ Hh _ _ Hr) as (? & ? & _).
    split_and!; [done..|]. by apply others_survive. }
  assert (∀ m p n', (∀ k', k' ≠ k → ma !! k' = m !! k') →
    fs_now c !! (root ++ p) = Some n' → layout_ok m p n' → layout_ok m' p n') as Hmono.
  { intros m p n' Hm Hn'. apply layout_ok_mono. intros k' <- Hin.
    destruct (decide (k' = k)) as [->|Hne]; [by apply Hk; eexists|]. rewrite Hag, Hm; done. }
  assert (laid_out root (fs_now c) m') as Hlay.
  { split.
    - intros p n' Hn'. destruct (crash_source _ _ Hcrash _ _ Hn') as (n & [Hn|Hn] & Hi).
      + eapply Hmono; [|done|]; [done|]. by eapply image_layout, Hh.
      + eapply Hmono; [by apply Hnear|done|]. by eapply image_layout, (near_layout _ _ _ _ _ _ Hnear).
    - intros q Hq d s u Hd. destruct q as [|a q]; [done|]. simpl in Hd.
      destruct (crash_source _ _ Hcrash _ _ Hd) as (n & Hn & Hi).
      destruct n as [|d' s' u']; [done|]. destruct Hn.
      + by apply (proj2 (holds_layout _ _ _ Hh) _ Hq d' s' u').
      + by apply (proj2 (near_layout _ _ _ _ _ _ Hnear) _ Hq d' s' u'). }
  split.
  - split; [apply Hh|apply Hcrash|done|]. intros k' r (? & ? & d & u & Hd & Hp)%Hall.
    split_and!; [done..|]. by exists d, true, u.
  - split.
    + by rewrite (crash_disk _ _ Hcrash).
    + intros k' _ q _ _. by rewrite (crash_disk _ _ Hcrash).
    + intros k' [r (_ & _ & d & u & Hd & _)%Hall]. by exists d, u.
Qed.

(** The recovery lemma. *)
Lemma crash_near :
  (holds root (fs_now c) ma ∧ durable root c ma) ∨
  (holds root (fs_now c) mb ∧ durable root c mb) ∨
  (fresh = true ∧ holds root (fs_now c) (delete k ma) ∧ durable root c (delete k ma)).
Proof.
  pose proof (near_agree _ _ _ _ _ _ Hnear) as Hag.
  destruct (fs_now c !! (root ++ key_path k)) as [n'|] eqn:Hc.
  - destruct (crash_source _ _ Hcrash _ _ Hc) as (n & [Hn|Hn] & Hi).
    + left. apply survivors; [done| |].
      * intros _. destruct (ma !! k) eqn:E; [done|].
        by rewrite (holds_absent _ _ _ _ Hh E) in Hn.
      * intros r Hr. destruct (holds_record _ _ _ Hh _ _ Hr) as (? & ? & d & s & u & Hd & Hp).
        destruct (near_synced _ _ _ _ _ _ Hnear k ltac:(eauto)) as (d' & u' & Hd').
        split_and!; [done..|]. rewrite Hd in Hd'. injection Hd' as -> -> ->.
        rewrite Hd in Hn. injection Hn as <-. destruct n' as [|d2 s2 u2]; [done|].
        destruct Hi as (-> & -> & ->). by exists d', u'.
    + right; left. apply survivors; [by intros; symmetry; apply Hag| |].
      * intros _. apply (near_layout _ _ _ _ _ _ Hnear) in Hn as [_ Hs].
        destruct (Hs (segment (key_id k))) as (k' & Hin & Heq).
        { rewrite to_string_lossy_ascii by apply file_name_ascii. apply file_name_stem. }
        by apply (inj key_path) in Heq as ->.
      * intros r (? & ? & d & u & Hd & Hp)%(near_disk _ _ _ _ _ _ Hnear).
        split_and!; [done..|]. rewrite Hd in Hn. injection Hn as <-.
        destruct n' as [|d2 s2 u2]; [done|]. destruct Hi as (-> & -> & ->). by exists d, u.
  - destruct (ma !! k) as [ra|] eqn:Ea.
    2: { left. apply survivors; [done|by rewrite Hc; intros []|]. by rewrite Ea. }
    destruct (mb !! k) as [rb|] eqn:Eb.
    2: { right; left. apply survivors; [by intros; symmetry; apply Hag| |].
         - by rewrite Hc; intros [].
         - by rewrite Eb. }
    right; right. destruct (Bool.bool_dec fresh true) as [Ef|Ef%not_true_is_false].
    { split; [done|]. apply survivors.
      - intros k' Hne. by rewrite lookup_delete_ne.
      - by rewrite Hc; intros [].
      - by rewrite lookup_delete_eq. }
    exfalso. assert (node_at (fs_now c) (root ++ key_dir k) = Some Dir) as Hdir.
    { apply dirs_survive; [by apply (near_dirs _ _ _ _ _ _ Hnear); eauto|]. eapply key_dirs; [done|by eexists]. }
    rewrite <-parent_key_path in Hdir.
    destruct (near_synced _ _ _ _ _ _ Hnear k ltac:(eauto)) as (? & ? & ?).
    destruct (near_disk _ _ _ _ _ _ Hnear _ Eb) as (_ & _ & ? & ? & ? & _).
    destruct (crash_lost _ _ Hcrash _ Hc (key_path_ne _ _) Hdir); congruence.
Qed.
End recovery.
End durability.

(** ** The store's calls *)

Lemma sync_entries_lookup d now disk p :
  sync_entries d now disk !! p = if decide (child_of d p) then now !! p else disk !! p.
Proof.
  unfold sync_entries. rewrite lookup_union, !map_lookup_filter. simpl.
  destruct (decide (child_of d p)) as [Hc|Hc].
  - destruct (now !! p) as [n|]; simpl.
    + rewrite option_guard_True by done. by destruct (disk !! p); simpl; repeat case_guard.
    + destruct (disk !! p); simpl; [|done]. by rewrite option_guard_False by auto.
  - destruct (now !! p) as [n|]; simpl.
    + rewrite option_guard_False by done. destruct (disk !! p); simpl; [|done].
      by rewrite option_guard_True.
    + destruct (disk !! p); simpl; [|done]. by rewrite option_guard_True.
Qed.

Lemma in_dir_not_prefix root k k' x q :
  (∀ k', root ++ key_dir k ++ [x] ≠ root ++ key_path k') →
  q `prefix_of` root ++ key_path k' → q ≠ root ++ key_dir k ++ [x].
Proof.
  intros Hx Hq ->. apply (Hx k'). destruct Hq as [e He].
  assert (e = []) as ->.
  { apply (f_equal length) in He. unfold key_path, key_dir in He.
    rewrite !length_app in He. simpl in He. destruct e; [done|simpl in He; lia]. }
  by rewrite app_nil_r in He.
Qed.

Lemma in_dir_not_dir root k k' x q :
  q `prefix_of` root ++ key_dir k' → q ≠ root ++ key_dir k ++ [x].
Proof.
  intros [e He] ->. apply (f_equal length) in He. unfold key_dir in He.
  rewrite !length_app in He. simpl in He. lia.
Qed.

Lemma key_path_not_prefix root k k' q :
  k' ≠ k → q `prefix_of` root ++ key_path k' → q ≠ root ++ key_path k.
Proof.
  intros Hne [e He] ->. assert (e = []) as ->.
  { apply (f_equal length) in He. unfold key_path, key_dir in He.
    rewrite !length_app in He. simpl in He. destruct e; [done|simpl in He; lia]. }
  rewrite app_nil_r in He. by apply app_inv_head, (inj key_path) in He.
Qed.

Lemma scratch_child root k x : child_of (root ++ key_dir k) (root ++ key_dir k ++ [x]).
Proof. split; [apply scratch_path_ne|apply parent_scratch]. Qed.

Section moves.
Context `{SerdeRecord}.
Variables (root : path) (k : RecordKey).
Implicit Types (fs : FileSystem) (m : records) (t : tree).

(** The directory of [k] exists, on disk too. *)
Definition dirs_ready (fs : FileSystem) : Prop :=
  stable fs (root ++ key_dir k) ∧ node_at (fs_now fs) (root ++ key_dir k) = Some Dir.

Lemma durable_change fs m t :
  durable root fs m →
  (∀ k' q, is_Some (m !! k') → q `prefix_of` root ++ key_path k' → q ≠ [] →
     t !! q = fs_now fs !! q) →
  durable root (set_now fs t) m.
Proof.
  intros [Hl Hst Hsy] Ht. split; [done| |].
  - intros k' Hin q Hq Hq0. simpl. rewrite (Ht k' q) by done. by apply (Hst k' Hin).
  - intros k' Hin. unfold synced. simpl. rewrite (Ht k'); [by apply Hsy|done|done|].
    apply key_path_ne.
Qed.

Lemma durable_scratch fs m x d s u :
  durable root fs m → scratch_name x →
  durable root (set_now fs (<[root ++ key_dir k ++ [x] := File d s u]> (fs_now fs))) m.
Proof.
  intros Hd Hx. apply durable_change; [done|]. intros k' q _ Hq _.
  rewrite lookup_insert_ne; [done|]. apply not_eq_sym, (in_dir_not_prefix root k k'); [|done].
  intros k2. by apply scratch_not_record.
Qed.

Lemma durable_unscratch fs m x :
  durable root fs m → scratch_name x →
  durable root (set_now fs (delete (root ++ key_dir k ++ [x]) (fs_now fs))) m.
Proof.
  intros Hd Hx. apply durable_change; [done|]. intros k' q _ Hq _.
  rewrite lookup_delete_ne; [done|]. apply not_eq_sym, (in_dir_not_prefix root k k'); [|done].
  intros k2. by apply scratch_not_record.
Qed.

Lemma durable_grown fs m t p :
  holds root (fs_now fs) m → durable root fs m → grown (fs_now fs) t p →
  durable root (set_now fs t) m.
Proof.
  intros Hh Hd (_ & Hin & _). apply durable_change; [done|].
  intros k' q Hk Hq Hq0. destruct (fs_now fs !! q) as [n|] eqn:Hn; [by apply Hin|].
  exfalso. destruct Hk as [r Hr], Hq as [e He].
  destruct (holds_record _ _ _ Hh _ _ Hr) as (_ & _ & d & s & u & Hfile & _).
  rewrite He in Hfile. destruct e as [|y e].
  - rewrite app_nil_r in Hfile. congruence.
  - assert (node_at (fs_now fs) q = Some Dir) as Hdir.
    { apply (node_at_app _ q (y :: e) (File d s u)); [apply Hh|done|].
      by rewrite node_at_ne by (by destruct q). }
    rewrite node_at_ne in Hdir by done. congruence.
Qed.

(** A file of the directory of [k] changes nothing about the directories. *)
Lemma dirs_ready_change fs t :
  dirs_ready fs →
  (∀ q, q `prefix_of` root ++ key_dir k → q ≠ [] → t !! q = fs_now fs !! q) →
  dirs_ready (set_now fs t).
Proof.
  intros [Hst Hd] Ht. split.
  - intros q Hq Hq0. simpl. rewrite Ht by done. by apply Hst.
  - assert (root ++ key_dir k ≠ []) as Hne by (by destruct root). simpl.
    rewrite node_at_ne in * by done. by rewrite Ht.
Qed.

Lemma dirs_ready_insert fs x n :
  dirs_ready fs → dirs_ready (set_now fs (<[root ++ key_dir k ++ [x] := n]> (fs_now fs))).
Proof.
  intros Hd. apply dirs_ready_change; [done|]. intros q Hq _.
  rewrite lookup_insert_ne; [done|]. by apply not_eq_sym, (in_dir_not_dir root k k).
Qed.

Lemma dirs_ready_delete fs x :
  dirs_ready fs → dirs_ready (set_now fs (delete (root ++ key_dir k ++ [x]) (fs_now fs))).
Proof.
  intros Hd. apply dirs_ready_change; [done|]. intros q Hq _.
  rewrite lookup_delete_ne; [done|]. by apply not_eq_sym, (in_dir_not_dir root k k).
Qed.

Lemma dirs_ready_grown fs t :
  closed (fs_now fs) → dirs_ready fs → grown (fs_now fs) t (root ++ key_dir k) →
  dirs_ready (set_now fs t).
Proof.
  intros Hc [Hst Hd] (_ & Hin & _). apply dirs_ready_change; [done|].
  intros q [e He] Hq0. destruct (fs_now fs !! q) as [n|] eqn:Hn; [by apply Hin|].
  exfalso. rewrite He in Hd. destruct e as [|y e].
  - rewrite app_nil_r, node_at_ne in Hd by done. congruence.
  - apply node_at_app in Hd; [|done..]. rewrite node_at_ne in Hd by done. congruence.
Qed.

(** Memory moves ahead of the disk ... *)
Lemma near_publish fs m r b u :
  holds root (fs_now fs) m → durable root fs m → key_ok k → rec_key r = k →
  from_slice b = Ok r → node_at (fs_now fs) (root ++ key_dir k) = Some Dir →
  near root (set_now fs (<[root ++ key_path k := File b true u]> (fs_now fs))) k false
    (<[k := r]> m) m.
Proof.
  intros Hh Hd Hk Hr Hb Hdir. pose proof (near_durable root fs k m Hh Hd) as [_ Hl _ _ _ Hdisk Hdirs].
  destruct Hd as [_ Hst Hsy]. split; simpl.
  - by apply holds_publish.
  - done.
  - intros k' Hne. by rewrite lookup_insert_ne.
  - intros k' Hne Hin q Hq Hq0. rewrite lookup_insert_ne in Hin by done. simpl.
    rewrite lookup_insert_ne by (by apply not_eq_sym, (key_path_not_prefix root k k')).
    by apply (Hst k' Hin).
  - intros k' Hin. destruct (decide (k' = k)) as [->|Hne].
    + exists b, u. by rewrite lookup_insert_eq.
    + rewrite lookup_insert_ne in Hin by done. unfold synced.
      rewrite lookup_insert_ne; [by apply Hsy|]. intros Heq%app_inv_head.
      by apply (inj key_path) in Heq.
  - done.
  - intros _ _ Hin q Hq Hq0. simpl. rewrite lookup_insert_ne by
      (by apply not_eq_sym, (in_dir_not_dir root k k)). by apply (Hdirs eq_refl Hin Hin).
Qed.

Lemma near_remove fs m :
  holds root (fs_now fs) m → durable root fs m →
  near root (set_now fs (delete (root ++ key_path k) (fs_now fs))) k false (delete k m) m.
Proof.
  intros Hh Hd. pose proof (near_durable root fs k m Hh Hd) as [_ Hl _ _ _ Hdisk _].
  destruct Hd as [_ Hst Hsy]. split; simpl.
  - by apply holds_remove.
  - done.
  - intros k' Hne. by rewrite lookup_delete_ne.
  - intros k' Hne Hin q Hq Hq0. rewrite lookup_delete_ne in Hin by done. simpl.
    rewrite lookup_delete_ne by (by apply not_eq_sym, (key_path_not_prefix root k k')).
    by apply (Hst k' Hin).
  - intros k' Hin. destruct (decide (k' = k)) as [->|Hne].
    + rewrite lookup_delete_eq in Hin. by destruct Hin.
    + rewrite lookup_delete_ne in Hin by done. unfold synced.
      rewrite lookup_delete_ne; [by apply Hsy|]. intros Heq%app_inv_head.
      by apply (inj key_path) in Heq.
  - done.
  - rewrite lookup_delete_eq. by intros _ [].
Qed.

(** ... and flushing the directory of [k] lets the disk catch up. *)
Definition flushed (fs : FileSystem) : FileSystem :=
  set_disk fs (sync_entries (root ++ key_dir k) (fs_now fs) (fs_disk fs)).

Lemma flushed_layout fs fresh ma mb :
  near root fs k fresh ma mb → laid_out root (fs_disk (flushed fs)) ma.
Proof.
  intros Hn. pose proof (near_holds _ _ _ _ _ _ Hn) as Hh. split.
  - intros p n. simpl. rewrite sync_entries_lookup. case_decide as Hc; [by apply Hh|].
    intros Hp%(near_layout _ _ _ _ _ _ Hn). eapply layout_ok_mono; [|exact Hp].
    intros k' <- Hin. destruct (decide (k' = k)) as [->|Hne].
    + destruct Hc. apply scratch_child.
    + by rewrite (near_agree _ _ _ _ _ _ Hn).
  - intros q Hq d s u. destruct q as [|a q]; [done|]. simpl.
    rewrite sync_entries_lookup. case_decide.
    + by apply (proj2 (holds_layout _ _ _ Hh) (a :: q)).
    + by apply (proj2 (near_layout _ _ _ _ _ _ Hn) (a :: q)).
Qed.

Lemma flushed_stable fs p : stable fs p → stable (flushed fs) p.
Proof.
  intros Hst q Hq Hq0. simpl. rewrite sync_entries_lookup. case_decide; [done|by apply Hst].
Qed.

Lemma flushed_key_stable fs :
  stable fs (root ++ key_dir k) → stable (flushed fs) (root ++ key_path k).
Proof.
  intros Hst q Hq Hq0. unfold key_path in Hq. rewrite app_assoc in Hq.
  destruct (decide (q = (root ++ key_dir k) ++ [file_name k])) as [->|Hne].
  - simpl. rewrite sync_entries_lookup, decide_True; [done|]. rewrite <-app_assoc.
    apply scratch_child.
  - apply (flushed_stable fs (root ++ key_dir k)); [done| |done].
    destruct Hq as [e He]. destruct e as [|y e _] using rev_ind.
    + by rewrite app_nil_r in He.
    + rewrite app_assoc in He. apply app_inj_tail in He as [-> _]. by exists e.
Qed.

Lemma durable_flush fs fresh ma mb :
  near root fs k fresh ma mb →
  (is_Some (ma !! k) → stable fs (root ++ key_dir k)) → durable root (flushed fs) ma.
Proof.
  intros Hn Hready. split.
  - by eapply flushed_layout.
  - intros k' Hin. destruct (decide (k' = k)) as [->|Hne].
    + by apply flushed_key_stable, Hready.
    + by apply flushed_stable, (near_stable _ _ _ _ _ _ Hn).
  - intros k' Hin. by apply (near_synced _ _ _ _ _ _ Hn).
Qed.

(** A record in a directory that is not on disk. *)
Lemma near_flush fs ma mb :
  near root fs k false ma mb → near root (flushed fs) k true ma ma.
Proof.
  intros Hn. pose proof (near_holds _ _ _ _ _ _ Hn) as Hh. split; [done|..].
  - by eapply flushed_layout.
  - done.
  - intros k' Hne Hin. by apply flushed_stable, (near_stable _ _ _ _ _ _ Hn).
  - apply (near_synced _ _ _ _ _ _ Hn).
  - intros r Hr. destruct (holds_record _ _ _ Hh _ _ Hr) as (? & ? & d & s & u & Hd & Hp).
    destruct (near_synced _ _ _ _ _ _ Hn k ltac:(eauto)) as (d' & u' & Hd').
    split_and!; [done..|]. rewrite Hd in Hd'. injection Hd' as -> -> ->.
    exists d', u'. split; [|done]. simpl. rewrite sync_entries_lookup, decide_True; [done|].
    apply scratch_child.
  - done.
Qed.
End moves.
