(* ===== verification/FsStoreSpec.v ===== *)
(** * FsStoreSpec: the store's operations, crash-aware

    Every locked operation of [FsStore] in the program logic of [Filesystem]:
    without faults it answers what the planner decided and leaves the tree that
    holds the planned map; whatever fails and wherever it stops, the tree holds
    the old map or the new one, and so does the tree a crash leaves; and once
    an operation has reported success the new map is on disk, when the
    directory of its key is. *)

From S2P Require Export FsCrash.
#[local] Open Scope gonzalo_scope.

(** One call that runs or fails, in sequence. *)
Lemma safe_step {X B} I (Q : bool → Result B → FileSystem → Prop) b (c : call X)
    (f : X → prog (Result B)) fs x fs' :
  I fs → exec_call c fs = (Ok x, fs') → safe I Q b (f x) fs' →
  (∀ msg fs'', fault c fs fs'' → I fs'' ∧ Q true (Err (Backend msg)) fs'') →
  safe I Q b (tryp (sys c) f) fs.
Proof.
  intros HI Hc Hok Hf. apply safe_tryp, safe_sys; [done| |].
  - rewrite Hc. simpl. split; [by eapply safe_now|done].
  - intros e fs'' H''%(Hf e). split; [by apply H''|]. apply H''.
Qed.

Lemma with_parent_ne p f : p ≠ [] → with_parent p f = f (parent p).
Proof. by destruct p. Qed.

(** Locks are no part of the tree. *)
Lemma crash_set_locks fs l c : crash (set_locks fs l) c → crash fs c.
Proof. intros []. by split. Qed.

Lemma set_now_eta fs : set_now fs (fs_now fs) = fs.
Proof. by destruct fs. Qed.

Section spec.
Context `{Blake3} `{SerdeRecordLaws}.
Variables (root : path) (k : RecordKey).
(** What is assumed: that the tree is durable, that the directory of [k] is on
    disk, that it is not. *)
Variables (dur ready gone : bool).
(** The map before and the map after. *)
Variables (m m1 : records).
Variable t0 : SystemTime.
Hypothesis Hk : key_ok k.

Definition recovered (c : FileSystem) (m : records) : Prop :=
  holds root (fs_now c) m ∧ durable root c m.

(** At every moment: the old map or the new one, now and after a crash. *)
Definition Inv (fs : FileSystem) : Prop :=
  (holds root (fs_now fs) m ∨ holds root (fs_now fs) m1) ∧
  (dur = true → ∀ c, crash fs c → recovered c m ∨ recovered c m1) ∧
  (gone = true → fs_disk fs !! (root ++ key_dir k) = None).

Definition Pre (fs : FileSystem) : Prop :=
  holds root (fs_now fs) m ∧ (dur = true → durable root fs m) ∧
  (ready = true → dirs_ready root k fs) ∧ fs_clock fs = t0 ∧
  (gone = true → fs_disk fs !! (root ++ key_dir k) = None).

Definition Finished (fs : FileSystem) : Prop :=
  holds root (fs_now fs) m1 ∧ (dur = true → ready = true → durable root fs m1).

Definition Post {A} (out : Result A) (b : bool) (r : Result A) (fs : FileSystem) : Prop :=
  Inv fs ∧ (b = false ∨ is_ok r = true → r = out ∧ Finished fs).

Lemma pre_inv fs : Pre fs → Inv fs.
Proof.
  intros (Hh & Hd & _ & _ & Hg). split_and!; [by left| |done]. intros Hdur c Hc.
  assert (near root fs k false m m) as Hn by (apply near_durable; auto).
  destruct (crash_near root fs c k false m m Hn Hc) as [?|[?|[? _]]]; [by left..|done].
Qed.

Lemma post_err {A} (out : Result A) e fs : Inv fs → Post out true (Err e) fs.
Proof. intros HI. split; [done|]. intros [?|?]; done. Qed.

Lemma inv_locks fs l : Inv fs → Inv (set_locks fs l).
Proof.
  intros (Hh & Hc & Hg). split_and!; [done| |done].
  intros Hdur c Hcr%crash_set_locks. by apply Hc.
Qed.

Lemma post_locks {A} (out : Result A) b r fs l : Post out b r fs → Post out b r (set_locks fs l).
Proof.
  intros [HI Hp]. split; [by apply inv_locks|]. intros [-> (Hh & Hd)]%Hp. split; [done|].
  split; [done|]. intros Hdur Hr. destruct (Hd Hdur Hr). by split.
Qed.

Lemma pre_locks fs l : Pre fs → Pre (set_locks fs l).
Proof.
  intros (? & Hd & Hr & ? & ?). split_and!; [done| |by intros []%Hr; split|done..].
  intros []%Hd. by split.
Qed.

Lemma pre_grown fs t : Pre fs → grown (fs_now fs) t (root ++ key_dir k) → Pre (set_now fs t).
Proof.
  intros (Hh & Hd & Hr & Ht & Hdisk) Hg. split_and!; [by eapply holds_grown| | |done..].
  - intros Hdur. eapply durable_grown; eauto.
  - intros Hr'. apply dirs_ready_grown; [apply Hh|auto|done].
Qed.

Lemma pre_scratch fs x d s u :
  Pre fs → scratch_name x → node_at (fs_now fs) (root ++ key_dir k) = Some Dir →
  Pre (set_now fs (<[root ++ key_dir k ++ [x] := File d s u]> (fs_now fs))).
Proof.
  intros (Hh & Hd & Hr & Ht & Hdisk) Hx Hdir. split_and!; [by apply holds_scratch| | |done..].
  - intros Hdur. by apply durable_scratch, Hx; auto.
  - intros Hr'. by apply dirs_ready_insert; auto.
Qed.

Lemma pre_unscratch fs x :
  Pre fs → scratch_name x →
  Pre (set_now fs (delete (root ++ key_dir k ++ [x]) (fs_now fs))).
Proof.
  intros (Hh & Hd & Hr & Ht & Hdisk) Hx. split_and!; [by apply holds_unscratch| | |done..].
  - intros Hdur. by apply durable_unscratch, Hx; auto.
  - intros Hr'. by apply dirs_ready_delete; auto.
Qed.

Lemma dir_insert t x n :
  node_at t (root ++ key_dir k) = Some Dir →
  node_at (<[root ++ key_dir k ++ [x] := n]> t) (root ++ key_dir k) = Some Dir.
Proof.
  intros Hd. rewrite node_at_insert by apply scratch_path_ne. rewrite decide_False; [done|].
  by apply not_eq_sym, (in_dir_not_dir root k k).
Qed.

Lemma dir_delete t x :
  node_at t (root ++ key_dir k) = Some Dir →
  node_at (delete (root ++ key_dir k ++ [x]) t) (root ++ key_dir k) = Some Dir.
Proof.
  intros Hd. rewrite node_at_delete by apply scratch_path_ne. rewrite decide_False; [done|].
  by apply not_eq_sym, (in_dir_not_dir root k k).
Qed.

(** *** The calls *)

Lemma call_mkdirs fs n :
  Pre fs → ∃ t, exec_call (CreateDirAll (take n (root ++ key_dir k))) fs = (Ok tt, set_now fs t) ∧
    grown (fs_now fs) t (root ++ key_dir k) ∧ node_at t (take n (root ++ key_dir k)) = Some Dir.
Proof.
  intros (Hh & _). set (d := root ++ key_dir k).
  destruct (mkdirs_spec (fs_now fs) [] (take n d)) as (t & Hrun & (Hc & Hin & Hout) & Hd).
  - apply Hh.
  - intros Hdots%elem_of_take_1. revert Hdots. apply plain_key_dir, Hh.
  - done.
  - intros q r d' s u Heq. eapply laid_out_dirs; [apply Hh|exact Hk|].
    exists (r ++ drop n d). change (d = q ++ r ++ drop n d).
    by rewrite app_assoc, <-Heq, take_drop.
  - exists t. simpl. rewrite Hrun. split_and!; [done| |done]. split_and!; [done..|].
    intros q n' [?|(? & ? & Hq)]%Hout; [by left|right]. split_and!; [done..|].
    etrans; [exact Hq|]. exists (drop n d).
    change (d = take n d ++ drop n d). by rewrite take_drop.
Qed.

Lemma call_open fs x truncate :
  Pre fs → x ≠ ".." → node_at (fs_now fs) (root ++ key_dir k) = Some Dir →
  ∃ d s u, open_file fs (root ++ key_dir k ++ [x]) truncate =
    (Ok tt, set_now fs (<[root ++ key_dir k ++ [x] := File d s u]> (fs_now fs))) ∧
    (truncate = true → d = []).
Proof.
  intros (Hh & _) Hx Hdir. unfold open_file.
  rewrite (holds_walk _ _ _ _ _ Hh) by done. rewrite node_at_ne by apply scratch_path_ne.
  destruct (fs_now fs !! (root ++ key_dir k ++ [x])) as [[|d s u]|] eqn:Hn.
  - by apply (holds_file _ _ _ _ _ Hh) in Hn.
  - destruct truncate; [by eexists [], false, _|]. exists d, s, u. split; [|done].
    by rewrite insert_id, set_now_eta.
  - by eexists [], false, _.
Qed.

Lemma call_look fs x n :
  holds root (fs_now fs) m → x ≠ ".." → fs_now fs !! (root ++ key_dir k ++ [x]) = Some n →
  look (fs_now fs) (root ++ key_dir k ++ [x]) = Ok (root ++ key_dir k ++ [x], n).
Proof. intros Hh Hx Hn. by rewrite (holds_look _ _ _ _ _ Hh), Hn by done. Qed.

Lemma look_dir ms fs :
  holds root (fs_now fs) ms → node_at (fs_now fs) (root ++ key_dir k) = Some Dir →
  look (fs_now fs) (root ++ key_dir k) = Ok (root ++ key_dir k, Dir).
Proof.
  intros Hh Hd. rewrite look_plain, Hd; [done|apply Hh|apply plain_key_dir, Hh|].
  intros q x r d s u Heq. eapply laid_out_dirs; [apply Hh|exact Hk|]. by exists (x :: r).
Qed.

Lemma exec_read fs :
  holds root (fs_now fs) m →
  exec (read_current (root ++ key_path k)) fs = (Ok (m !! k), fs).
Proof.
  intros Hh. pose proof (holds_look _ _ _ _ (file_name k) Hh Hk (file_name_neq k ".." eq_refl)) as Hlook.
  change (key_dir k ++ [file_name k]) with (key_path k) in Hlook.
  pose proof (holds_record _ _ _ Hh k) as Hrec. pose proof (holds_absent _ _ _ k Hh) as Habs.
  revert Hlook Hrec Habs. generalize (root ++ key_path k). intros p Hlook Hrec Habs.
  unfold read_current. simpl. rewrite Hlook. destruct (m !! k) as [r|].
  - destruct (Hrec r eq_refl) as (_ & _ & d & s & u & -> & Hd). simpl. by rewrite Hd.
  - by rewrite Habs.
Qed.

(** *** Taking the lock *)

Lemma safe_lock {A} (out : Result A) (f : path → prog (Result A)) b fs :
  Pre fs →
  (∀ lock fs', Pre fs' → node_at (fs_now fs') (root ++ key_dir k) = Some Dir →
     safe Inv (Post out) b (f lock) fs') →
  safe Inv (Post out) b (tryp (lock_record (root ++ key_path k)) f) fs.
Proof.
  intros Hpre Hf. apply safe_tryp. unfold lock_record.
  rewrite with_parent_ne by apply key_path_ne. rewrite parent_key_path, with_extension_path.
  assert (∀ e fs', Pre fs' → Inv fs' ∧ Post out true (Err e) fs') as Herr.
  { intros e fs' Hp%pre_inv. split; [done|by apply post_err]. }
  destruct (call_mkdirs fs (length (root ++ key_dir k)) Hpre) as (t & Hcall & Hg & Hdir).
  rewrite take_ge in Hcall, Hdir by done.
  eapply safe_step; [by apply pre_inv|exact Hcall| |].
  2: { intros e fs' [n ->]. destruct (call_mkdirs fs n Hpre) as (t' & -> & Hg' & _).
       split; [|by apply Herr, pre_grown]. by apply pre_inv, pre_grown. }
  assert (Pre (set_now fs t)) as Hp1 by (by apply pre_grown).
  set (x := file_stem (file_name k) +:+ "." +:+ "json.lock").
  assert (scratch_name x) as Hx by (by apply scratch_extension).
  destruct (call_open (set_now fs t) x false Hp1 (proj2 Hx) Hdir) as (d & s & u & Hopen & _).
  set (fs2 := set_now (set_now fs t) _) in Hopen.
  assert (Pre fs2) as Hp2 by (by apply pre_scratch).
  assert (node_at (fs_now fs2) (root ++ key_dir k) = Some Dir) as Hdir2 by (by apply dir_insert).
  eapply safe_step; [by apply pre_inv|exact Hopen| |].
  2: { intros e fs' ->. split; [by apply pre_inv|by apply Herr]. }
  eapply safe_step; [by apply pre_inv|reflexivity| |].
  2: { intros e fs' ->. split; [by apply pre_inv|by apply Herr]. }
  assert (Pre (set_locks fs2 ({[root ++ key_dir k ++ [x]]} ∪ fs_locks fs2))) as Hp3
    by (by apply pre_locks).
  split; [by apply pre_inv|]. by apply Hf.
Qed.

(** Reading the record at the start of the critical section. *)
Lemma safe_read {A} (out : Result A) (f : option record → prog (Result A)) b fs :
  Pre fs → safe Inv (Post out) b (f (m !! k)) fs →
  safe Inv (Post out) b (tryp (read_current (root ++ key_path k)) f) fs.
Proof.
  intros Hp Hf. pose proof (exec_read fs (proj1 Hp)) as Hread. pose proof (pre_inv _ Hp) as HI.
  apply safe_tryp. revert Hread. generalize (root ++ key_path k). intros p Hread.
  unfold read_current in *. apply safe_bind. simpl in Hread. injection Hread as Hread.
  simpl. rewrite Hread. split_and!; [done..|].
  intros msg fs' ->. by split_and!; [..|apply post_err].
Qed.

(** A locked body that starts by reading the record. *)
Lemma safe_locked {A} (out : Result A) (body : option record → prog (Result A)) fs :
  Pre fs →
  (∀ b fs', Pre fs' → node_at (fs_now fs') (root ++ key_dir k) = Some Dir →
     safe Inv (Post out) b (body (m !! k)) fs') →
  safe Inv (Post out) false
    (locked (root ++ key_path k) (current ←? read_current (root ++ key_path k); body current)) fs.
Proof.
  intros Hpre Hbody. apply safe_lock; [done|]. intros lock fs1 Hp1 Hdir. apply safe_bind.
  eapply safe_mono; [|apply safe_read; [done|by apply Hbody]].
  intros b r fs' Hp. simpl. split_and!; [apply Hp| |by apply post_locks|done].
  by apply inv_locks, Hp.
Qed.

(** *** Publishing and removing *)

(** Memory holds the new map, the disk the old one. *)
Definition Ahead (fs : FileSystem) : Prop :=
  holds root (fs_now fs) m1 ∧ node_at (fs_now fs) (root ++ key_dir k) = Some Dir ∧
  (dur = true → near root fs k false m1 m) ∧ (ready = true → dirs_ready root k fs) ∧
  (gone = true → fs_disk fs !! (root ++ key_dir k) = None).

Lemma ahead_inv fs : Ahead fs → Inv fs.
Proof.
  intros (Hh & _ & Hn & _ & Hg). split_and!; [by right| |done]. intros Hdur c Hc.
  destruct (crash_near root fs c k false m1 m (Hn Hdur) Hc) as [?|[?|[? _]]]; [by right|by left|done].
Qed.

Lemma flushed_inv fs : Ahead fs → Inv (flushed root k fs).
Proof.
  intros (Hh & _ & Hn & _ & Hg). split_and!; [by right| |].
  2: { intros Hgone. simpl. rewrite sync_entries_lookup, decide_False; [by apply Hg|].
       intros [_ Hpar]. unfold key_dir in Hpar. rewrite parent_app in Hpar by done.
       apply app_inv_head in Hpar. done. }
  intros Hdur c Hc. specialize (Hn Hdur).
  destruct (crash_near root _ c k true m1 m1 (near_flush root k fs m1 m Hn) Hc)
    as [?|[?|[_ Hrec]]]; [by right|by right|].
  destruct (m !! k) as [r|] eqn:Hr.
  - right. assert (durable root (flushed root k fs) m1) as Hd.
    { eapply durable_flush; [done|]. intros Hin. apply (near_dirs _ _ _ _ _ _ Hn); [done..|by eexists]. }
    destruct (crash_near root _ c k false m1 m1 (near_durable root (flushed root k fs) k m1 Hh Hd) Hc)
      as [?|[?|[? _]]]; done.
  - left. replace m with (delete k m1); [done|]. apply map_eq. intros k'.
    destruct (decide (k' = k)) as [->|Hne]; [by rewrite lookup_delete_eq|].
    by rewrite lookup_delete_ne, (near_agree _ _ _ _ _ _ Hn).
Qed.

Lemma flushed_finished fs : Ahead fs → Finished (flushed root k fs).
Proof.
  intros (Hh & _ & Hn & Hr & _). split; [done|]. intros Hdur Hready.
  eapply durable_flush; [by apply Hn|]. intros _. by apply Hr.
Qed.

(** What a publishing step may end with. *)
Definition lands (Q : bool → Result unit → FileSystem → Prop) : Prop :=
  (∀ e fs, Inv fs → Q true (Err e) fs) ∧ (∀ b fs, Inv fs → Finished fs → Q b (Ok tt) fs).

Lemma safe_flush Q b fs :
  lands Q → Ahead fs →
  safe Inv Q b
    (with_parent (root ++ key_path k) (λ d, fsync_dir d ≫= λ r, Ret (backend r))) fs.
Proof.
  intros [Herr Hok] Ha. pose proof Ha as (Hh & Hdir & _). pose proof (look_dir _ _ Hh Hdir) as Hlook.
  pose proof (ahead_inv _ Ha) as HI. pose proof (flushed_inv _ Ha) as HI'.
  pose proof (flushed_finished _ Ha) as Hfin.
  rewrite with_parent_ne, parent_key_path by apply key_path_ne.
  unfold flushed in *. revert Hlook HI' Hfin. generalize (root ++ key_dir k).
  intros p Hlook HI' Hfin. unfold fsync_dir. apply safe_bind, safe_bind. simpl.
  rewrite Hlook. simpl. rewrite Hlook.
  split_and!; auto; intros msg fs' ->; auto.
Qed.

Lemma safe_then {A} (a : A) b (p : prog (Result unit)) fs :
  (∀ Q, lands Q → safe Inv Q b p fs) → safe Inv (Post (Ok a)) b (p ;? Ret (Ok a)) fs.
Proof.
  intros Hp. apply safe_tryp, Hp. split; simpl.
  - intros e fs' HI. split; [done|by apply post_err].
  - intros b' fs' HI Hf. by split_and!.
Qed.

(** The scratch file of a write becomes the record file. *)
Lemma call_rename fs x d s u :
  holds root (fs_now fs) m → scratch_name x →
  node_at (fs_now fs) (root ++ key_dir k) = Some Dir →
  fs_now fs !! (root ++ key_dir k ++ [x]) = Some (File d s u) →
  rename_file fs (root ++ key_dir k ++ [x]) (root ++ key_path k) =
    (Ok tt, set_now fs (<[root ++ key_path k := File d s u]>
      (delete (root ++ key_dir k ++ [x]) (fs_now fs)))).
Proof.
  intros Hh Hx Hdir Hn. unfold rename_file.
  rewrite (call_look fs x (File d s u)) by (done || apply Hx).
  pose proof (holds_walk _ _ _ _ (file_name k) Hh Hk (file_name_neq k ".." eq_refl) Hdir) as Hw.
  change (key_dir k ++ [file_name k]) with (key_path k) in Hw. rewrite Hw, node_at_ne by apply key_path_ne.
  destruct (fs_now fs !! (root ++ key_path k)) as [[|? ? ?]|] eqn:E; [|done..].
  by apply (holds_file _ _ _ k (file_name k) Hh) in E.
Qed.

(** A step that fails, or leaves the old state. *)
Lemma safe_step_pre {X} Q b (c : call X) (f : X → prog (Result unit)) fs x fs' :
  lands Q → Pre fs → exec_call c fs = (Ok x, fs') → safe Inv Q b (f x) fs' →
  (∀ fs'', fault c fs fs'' → Pre fs'') → safe Inv Q b (tryp (sys c) f) fs.
Proof.
  intros [Herr _] Hp Hc Hok Hf. eapply safe_step; [by apply pre_inv|done..|].
  intros msg fs'' H''%Hf%pre_inv. auto.
Qed.

Lemma call_write fs x d s u bs :
  Pre fs → scratch_name x → fs_now fs !! (root ++ key_dir k ++ [x]) = Some (File d s u) →
  exec_call (WriteAll (root ++ key_dir k ++ [x]) bs) fs =
    (Ok tt, set_now fs (<[root ++ key_dir k ++ [x] := File (d ++ bs) false (fs_clock fs)]> (fs_now fs))).
Proof.
  intros (Hh & _) [_ Hx] Hn. pose proof (call_look fs x _ Hh Hx Hn) as Hlook.
  revert Hlook. generalize (root ++ key_dir k ++ [x]). intros p Hlook. simpl. by rewrite Hlook.
Qed.

Lemma call_sync fs x d s u :
  Pre fs → scratch_name x → fs_now fs !! (root ++ key_dir k ++ [x]) = Some (File d s u) →
  exec_call (SyncAll (root ++ key_dir k ++ [x])) fs =
    (Ok tt, set_now fs (<[root ++ key_dir k ++ [x] := File d true u]> (fs_now fs))).
Proof.
  intros (Hh & _) [_ Hx] Hn. pose proof (call_look fs x _ Hh Hx Hn) as Hlook.
  revert Hlook. generalize (root ++ key_dir k ++ [x]). intros p Hlook. simpl. by rewrite Hlook.
Qed.

Lemma ahead_publish fs x r bs u :
  Pre fs → scratch_name x → node_at (fs_now fs) (root ++ key_dir k) = Some Dir →
  rec_key r = k → m1 = <[k := r]> m → from_slice bs = Ok r →
  Ahead (set_now fs (<[root ++ key_path k := File bs true u]>
    (delete (root ++ key_dir k ++ [x]) (fs_now fs)))).
Proof.
  intros Hp Hx Hdir Hr Hm1 Hbs. pose proof (pre_unscratch fs x Hp Hx) as (Hh & Hd & Hrd & _ & Hg).
  apply (dir_delete _ x) in Hdir. split_and!; rewrite ?Hm1.
  - by apply holds_publish.
  - by apply (dir_insert _ (file_name k)).
  - intros Hdur. exact (near_publish root k (set_now fs _) m r bs u Hh (Hd Hdur) Hk Hr Hbs Hdir).
  - intros Hready. exact (dirs_ready_insert root k (set_now fs _) (file_name k) _ (Hrd Hready)).
  - done.
Qed.

Lemma safe_write Q r b fs :
  lands Q → Pre fs → node_at (fs_now fs) (root ++ key_dir k) = Some Dir →
  rec_key r = k → m1 = <[k := r]> m →
  safe Inv Q b (write_durable (root ++ key_path k) r) fs.
Proof.
  intros HQ Hp Hdir Hr Hm1. destruct (from_slice_to_vec r) as (bs & Hto & Hfrom).
  unfold write_durable. rewrite Hto, with_extension_path. apply safe_tryp.
  set (x := file_stem (file_name k) +:+ "." +:+ "json.tmp").
  assert (scratch_name x) as Hx by (by apply scratch_extension).
  simpl map_err. split; [by apply pre_inv|].
  destruct (call_open fs x true Hp (proj2 Hx) Hdir) as (d & s & u & Hopen & Hd). rewrite Hd in Hopen by done.
  eapply safe_step_pre; [done|exact Hp|exact Hopen| |by intros fs' ->].
  set (fs1 := set_now fs _). assert (Pre fs1) as Hp1 by (by apply pre_scratch).
  apply (dir_insert _ x (File [] s u)) in Hdir. change (node_at (fs_now fs1) (root ++ key_dir k) = Some Dir) in Hdir.
  assert (∀ bs', exec_call (WriteAll (root ++ key_dir k ++ [x]) bs') fs1 = _) as Hwrite
    by (intros bs'; apply (call_write fs1 x [] s u bs' Hp1 Hx), lookup_insert_eq).
  simpl app in Hwrite.
  eapply safe_step_pre; [done|exact Hp1|apply Hwrite| |].
  2: { intros fs' [n ->]. rewrite Hwrite. by apply pre_scratch. }
  set (fs2 := set_now fs1 _). assert (Pre fs2) as Hp2 by (by apply pre_scratch).
  apply (dir_insert _ x (File bs false (fs_clock fs1))) in Hdir.
  change (node_at (fs_now fs2) (root ++ key_dir k) = Some Dir) in Hdir.
  eapply safe_step_pre; [done|exact Hp2| | |by intros fs' ->].
  { apply (call_sync fs2 x bs false (fs_clock fs1) Hp2 Hx), lookup_insert_eq. }
  set (fs3 := set_now fs2 _). assert (Pre fs3) as Hp3 by (by apply pre_scratch).
  apply (dir_insert _ x (File bs true (fs_clock fs1))) in Hdir.
  change (node_at (fs_now fs3) (root ++ key_dir k) = Some Dir) in Hdir.
  eapply safe_step_pre; [done|exact Hp3| | |by intros fs' ->].
  { apply (call_rename fs3 x bs true (fs_clock fs1) (proj1 Hp3) Hx Hdir), lookup_insert_eq. }
  apply safe_flush; [done|]. by apply (ahead_publish fs3 x r bs (fs_clock fs1)).
Qed.

Lemma safe_remove Q b fs :
  lands Q → Pre fs → node_at (fs_now fs) (root ++ key_dir k) = Some Dir →
  is_Some (m !! k) → m1 = delete k m →
  safe Inv Q b (remove_durable (root ++ key_path k)) fs.
Proof.
  intros HQ Hp Hdir [r Hr] Hm1. pose proof Hp as (Hh & Hd & Hrd & _ & Hg).
  assert (∃ d s u, look (fs_now fs) (root ++ key_path k) = Ok (root ++ key_path k, File d s u))
    as (d & s & u & Hlook).
  { destruct (holds_record _ _ _ Hh _ _ Hr) as (_ & _ & d & s & u & Hn & _). exists d, s, u.
    exact (call_look fs (file_name k) _ Hh (file_name_neq k ".." eq_refl) Hn). }
  assert (Ahead (set_now fs (delete (root ++ key_path k) (fs_now fs)))) as Ha.
  { split_and!; rewrite ?Hm1.
    - by apply holds_remove.
    - by apply (dir_delete _ (file_name k)).
    - intros Hdur. by apply near_remove; auto.
    - intros Hready. by apply (dirs_ready_delete root k fs (file_name k)), Hrd.
    - done. }
  pose proof (safe_flush Q b _ HQ Ha) as Hflush. destruct HQ as [Herr _].
  unfold remove_durable. apply safe_bind. pose proof (pre_inv _ Hp) as HI.
  revert Hlook Hflush Ha. generalize (root ++ key_path k). intros p Hlook Hflush Ha%ahead_inv.
  simpl. rewrite Hlook. split_and!; [done..|]. intros msg fs' ->. auto.
Qed.

(** *** The operations *)

Lemma post_same {A} (out : Result A) b fs : Pre fs → m1 = m → Post out b out fs.
Proof.
  intros Hp Hm. pose proof (pre_inv _ Hp). destruct Hp as (Hh & Hd & _).
  split; [done|]. intros _. split; [done|]. split; rewrite Hm; auto.
Qed.

Lemma safe_clock {A} (out : Result A) (f : SystemTime → prog (Result A)) b fs :
  Pre fs → safe Inv (Post out) b (f t0) fs → safe Inv (Post out) b (clock ≫= f) fs.
Proof.
  intros Hp Hf. pose proof (pre_inv _ Hp) as HI. destruct Hp as (_ & _ & _ & Ht & _).
  simpl. rewrite Ht. by split_and!.
Qed.

Lemma safe_ret_same {A} (out : Result A) b fs :
  Pre fs → m1 = m → safe Inv (Post out) b (Ret out) fs.
Proof. intros Hp Hm. split; [by apply pre_inv|by apply post_same]. Qed.

Lemma safe_put_locked plan r e cap out fs :
  rec_key r = k → Pre fs →
  (∀ c s now, plan c r e now cap = PutWrite s → rec_key s = rec_key r) →
  (out, m1) = apply_put (plan (m !! k) r e (now_ms t0) cap) k m →
  safe Inv (Post out) false (put_locked root r e cap plan) fs.
Proof.
  intros Hr Hp Hplan Hout. unfold put_locked. rewrite Hr, record_path_ok by done.
  apply (safe_locked out (λ current, clock ≫= λ t, match plan current r e (now_ms t) cap with
    | PutWrite stored => write_durable _ stored ;? Ret (Ok (Committed (rec_revision stored)))
    | _ => _ end)); [done|].
  intros b fs' Hp' Hdir. apply safe_clock; [done|].
  destruct (plan (m !! k) r e (now_ms t0) cap) as [s|c| |reason] eqn:E;
    injection Hout as -> Hm1; [|by apply safe_ret_same..].
  apply Hplan in E. apply safe_then. intros Q HQ. apply safe_write; congruence.
Qed.

Lemma safe_delete_locked e cap a out fs :
  Pre fs → (out, m1) = apply_delete (plan_delete (m !! k) e (now_ms t0) cap a) k m →
  safe Inv (Post out) false (delete_locked root k e cap a) fs.
Proof.
  intros Hp Hout. unfold delete_locked. rewrite record_path_ok by done.
  apply (safe_locked out (λ current, clock ≫= λ t,
    match plan_delete current e (now_ms t) cap a with
    | DeleteWrite tomb => write_durable _ tomb ;? Ret (Ok Deleted)
    | _ => _ end)); [done|].
  intros b fs' Hp' Hdir. apply safe_clock; [done|].
  destruct (plan_delete (m !! k) e (now_ms t0) cap a) as [t| |c] eqn:E;
    injection Hout as -> Hm1; [|by apply safe_ret_same..].
  apply plan_delete_write in E as (c & Hc & _ & _ & ->).
  apply safe_then. intros Q HQ. apply safe_write; try done.
  rewrite tombstone_of_key. by apply (holds_record _ _ _ (proj1 Hp)) in Hc as (_ & ? & _).
Qed.

Lemma safe_purge_locked e out fs :
  Pre fs → (out, m1) = apply_purge (plan_purge (m !! k) e) k m →
  safe Inv (Post out) false (purge_locked root k e) fs.
Proof.
  intros Hp Hout. unfold purge_locked. rewrite record_path_ok by done.
  apply (safe_locked out (λ current,
    match plan_purge current e with
    | PurgeRemove => remove_durable _ ;? Ret (Ok Deleted)
    | _ => _ end)); [done|].
  intros b fs' Hp' Hdir.
  destruct (plan_purge (m !! k) e) as [| |c] eqn:E;
    injection Hout as -> Hm1; [|by apply safe_ret_same..].
  apply safe_then. intros Q HQ. apply safe_remove; try done.
  unfold plan_purge in E. destruct (m !! k); [by eexists|done].
Qed.
End spec.
