(* ===== verification/FsListing.v ===== *)
(** * FsListing: walking the tree lists the keys of the map

    [collect_keys] visits the namespaces, collections and record files of a
    laid-out tree and decodes each path back to its key: the result is exactly
    the matching keys of the map the tree holds, each once, in the order the
    directories happen to list their entries. *)

From S2P Require Export FsStoreSpec.
#[local] Open Scope gonzalo_scope.

(** ** Directory entries *)

Lemma elem_of_children t d x : x ∈ children t d ↔ is_Some (t !! (d ++ [x])).
Proof.
  unfold children. rewrite list_elem_of_omap. split.
  - intros (p & ([p' n] & -> & Hp%elem_of_map_to_list)%list_elem_of_fmap & Hx). simpl in Hx.
    destruct (decide (child_of d p')) as [[Hne Hpar]|]; [|done].
    destruct p' as [|y p' _] using rev_ind; [done|].
    rewrite last_snoc in Hx. injection Hx as ->. rewrite parent_snoc in Hpar. subst. by eexists.
  - intros [n Hn]. exists (d ++ [x]). split.
    + apply list_elem_of_fmap. exists (d ++ [x], n). by rewrite elem_of_map_to_list.
    + rewrite decide_True; [by rewrite last_snoc|]. split; [by destruct d|by apply parent_snoc].
Qed.

Lemma NoDup_children t d : NoDup (children t d).
Proof.
  unfold children. pose proof (NoDup_fst_map_to_list t) as Hnd.
  induction (map_to_list t).*1 as [|p l IH]; [constructor|].
  apply NoDup_cons in Hnd as [Hp Hnd]. simpl. specialize (IH Hnd).
  destruct (decide (child_of d p)) as [[Hne Hpar]|]; [|done].
  destruct p as [|y p _] using rev_ind; [done|]. rewrite last_snoc.
  apply NoDup_cons. split; [|done]. rewrite list_elem_of_omap.
  intros (q & Hq & Hy). destruct (decide (child_of d q)) as [[Hq0 Hqp]|]; [|done].
  destruct q as [|z q _] using rev_ind; [done|]. rewrite last_snoc in Hy. injection Hy as ->.
  rewrite parent_snoc in Hpar, Hqp. by subst.
Qed.

Lemma children_absent t d : closed t → node_at t d = None → children t d = [].
Proof.
  intros Hc Hd. destruct (children t d) as [|x l] eqn:E; [done|].
  assert (x ∈ children t d) as [n Hn]%elem_of_children by (rewrite E; set_solver).
  apply Hc in Hn as (_ & _ & Hn). rewrite parent_snoc in Hn. congruence.
Qed.

Lemma children_file t p d s u : closed t → t !! p = Some (File d s u) → children t p = [].
Proof.
  intros Hc Hp. destruct (children t p) as [|x l] eqn:E; [done|].
  assert (x ∈ children t p) as [n Hn]%elem_of_children by (rewrite E; set_solver).
  apply Hc in Hn as (_ & _ & Hn). rewrite parent_snoc, node_at_ne, Hp in Hn; [done|].
  by intros ->; apply Hc in Hp as (_ & ? & _).
Qed.

(** ** Loops *)

Lemma exec_forp {A B} (g : A → list B) (f : list B → A → prog (Result (list B))) l acc fs :
  (∀ x acc, x ∈ l → exec (f acc x) fs = (Ok (acc ++ g x), fs)) →
  exec (forp l acc f) fs = (Ok (acc ++ (l ≫= g)), fs).
Proof.
  revert acc. induction l as [|x l IH]; intros acc Hf; simpl.
  - by rewrite app_nil_r.
  - rewrite exec_tryp, Hf by set_solver. rewrite IH by (intros; apply Hf; set_solver).
    by rewrite app_assoc.
Qed.

Lemma exec_sys {X} (c : call X) fs r fs' :
  exec_call c fs = (r, fs') →
  exec (sys c) fs = (map_err (λ e, Backend (io_to_string e)) r, fs').
Proof. intros Hc. unfold sys. cbn [exec]. by rewrite Hc. Qed.

Lemma exec_raw_bind {X A} (c : call X) (f : result io_error X → prog A) fs r fs' :
  exec_call c fs = (r, fs') → exec (raw c ≫= f) fs = exec (f r) fs'.
Proof. intros Hc. rewrite exec_bind. unfold raw. cbn [exec]. by rewrite Hc. Qed.

Lemma bind_filter {A} (P : A → Prop) `{!∀ x, Decision (P x)} (l : list A) :
  (l ≫= λ x, if decide (P x) then [x] else []) = filter P l.
Proof.
  induction l as [|x l IH]; [done|]. rewrite filter_cons. cbn. rewrite <-IH.
  by destruct (decide (P x)).
Qed.

(** ** Keys *)

Definition file_keys (prefix : KeyPrefix) (ns col f : string) : list RecordKey :=
  collect_file prefix (to_string_lossy ns) (to_string_lossy col) [] f.

Definition col_keys (t : tree) (root : path) (prefix : KeyPrefix) (ns col : string) :
    list RecordKey :=
  if decide (t !! (root ++ [ns; col]) = Some Dir)
  then children t (root ++ [ns; col]) ≫= file_keys prefix ns col else [].

Definition tree_keys (t : tree) (root : path) (prefix : KeyPrefix) : list RecordKey :=
  children t root ≫= λ ns, children t (root ++ [ns]) ≫= col_keys t root prefix ns.

Lemma collect_file_app prefix ns col out f :
  collect_file prefix ns col out f = out ++ collect_file prefix ns col [] f.
Proof.
  unfold collect_file. destruct (str_strip_suffix _ _); [|by rewrite app_nil_r].
  case_match; [done|by rewrite app_nil_r].
Qed.

Lemma foldl_collect prefix ns col out files :
  foldl (collect_file prefix ns col) out files =
    out ++ (files ≫= collect_file prefix ns col []).
Proof.
  revert out. induction files as [|f files IH]; intros out; simpl; [by rewrite app_nil_r|].
  by rewrite IH, (collect_file_app _ _ _ out), app_assoc.
Qed.

Section listing.
Context `{SerdeRecord}.
Variables (root : path) (fs : FileSystem) (m : records).
Hypothesis Hh : holds root (fs_now fs) m.

Notation t := (fs_now fs).

Lemma key_dir_segment (k : RecordKey) ns col f :
  key_path k = [ns; col; f] →
  ns = segment (key_namespace k) ∧ col = segment (key_collection k) ∧ f = file_name k.
Proof. unfold key_path, key_dir. simpl. by intros [= <- <- <-]. Qed.

(** A file of the tree yields the key it stores, if it stores one. *)
Lemma elem_of_file_keys prefix ns col f k :
  is_Some (t !! (root ++ [ns; col; f])) →
  k ∈ file_keys prefix ns col f ↔
    is_Some (m !! k) ∧ prefix_matches prefix k = true ∧ key_path k = [ns; col; f].
Proof.
  intros [n Hn]. apply (proj1 (holds_layout _ _ _ Hh)) in Hn as [_ Hs]. unfold file_keys, collect_file.
  assert (∀ k', is_Some (m !! k') → key_path k' = [ns; col; f] →
    str_strip_suffix ".json" (to_string_lossy f) = Some (segment (key_id k')) ∧
    decode_segment (to_string_lossy ns) = key_namespace k' ∧
    decode_segment (to_string_lossy col) = key_collection k' ∧
    decode_segment (segment (key_id k')) = key_id k') as Hkey.
  { intros k' [r Hr] (-> & -> & ->)%key_dir_segment.
    destruct (holds_record _ _ _ Hh _ _ Hr) as ([[? _] [? _] ? _] & _ & _).
    rewrite !to_string_lossy_ascii by (apply ascii_segment || apply file_name_ascii).
    by rewrite file_name_stem, !decode_segment_segment. }
  destruct (str_strip_suffix ".json" (to_string_lossy f)) as [stem|] eqn:E.
  - destruct (Hs _ eq_refl) as (k' & Hin & Hp). destruct (Hkey _ Hin Hp) as ([= ->] & -> & -> & ->).
    replace (mkKey _ _ _) with k' by (by destruct k').
    assert (∀ k2, is_Some (m !! k2) ∧ prefix_matches prefix k2 = true ∧
      key_path k2 = [ns; col; f] ↔ k2 = k' ∧ prefix_matches prefix k' = true) as ->.
    { intros k2. split.
      - intros (? & ? & Hp2). assert (k2 = k') as -> by (apply (inj key_path); congruence). done.
      - by intros [-> ?]. }
    destruct (prefix_matches prefix k'); rewrite ?elem_of_nil; set_solver.
  - rewrite elem_of_nil. split; [done|]. intros (Hin & _ & Hp).
    by destruct (Hkey _ Hin Hp) as [? _].
Qed.

Lemma NoDup_file_keys prefix ns col f : NoDup (file_keys prefix ns col f).
Proof.
  unfold file_keys, collect_file. destruct (str_strip_suffix _ _); [|constructor].
  case_match; [apply NoDup_singleton|constructor].
Qed.

Lemma elem_of_col_keys prefix ns col k :
  k ∈ col_keys t root prefix ns col ↔
    is_Some (m !! k) ∧ prefix_matches prefix k = true ∧ key_dir k = [ns; col].
Proof.
  assert (∀ f, (root ++ [ns; col]) ++ [f] = root ++ [ns; col; f]) as Happ
    by (intros; by rewrite <-app_assoc).
  unfold col_keys. split.
  - case_decide as Hd; [|by intros ?%elem_of_nil].
    intros (f & Hk & Hf%elem_of_children)%list_elem_of_bind. rewrite Happ in Hf.
    apply elem_of_file_keys in Hk as (? & ? & Hp); [|done]. split_and!; [done..|].
    unfold key_path, key_dir in *. simpl in *. by injection Hp as -> -> _.
  - intros ([r Hr] & Hm & Hdir).
    destruct (holds_record _ _ _ Hh _ _ Hr) as (_ & _ & d & s & u & Hfile & _).
    unfold key_path in Hfile. rewrite Hdir in Hfile. simpl app in Hfile.
    assert (t !! (root ++ [ns; col]) = Some Dir) as Hd.
    { rewrite <-(node_at_ne t) by (by destruct root).
      apply (node_at_app _ _ [file_name k] (File d s u)); [apply Hh|done|].
      rewrite Happ, node_at_ne by (by destruct root). done. }
    rewrite decide_True by done. apply list_elem_of_bind. exists (file_name k).
    rewrite elem_of_children, Happ. split; [|by eexists].
    apply elem_of_file_keys; [by eexists|]. split_and!; [by eexists|done|].
    unfold key_path. by rewrite Hdir.
Qed.

Lemma NoDup_col_keys prefix ns col : NoDup (col_keys t root prefix ns col).
Proof.
  unfold col_keys. case_decide as Hd; [|constructor].
  apply NoDup_bind; [|intros; apply NoDup_file_keys|apply NoDup_children].
  intros f1 f2 k Hf1%elem_of_children Hf2%elem_of_children.
  rewrite <-app_assoc in Hf1, Hf2. intros (_ & _ & H1)%elem_of_file_keys; [|done].
  intros (_ & _ & H2)%elem_of_file_keys; [|done]. congruence.
Qed.

Lemma elem_of_tree_keys prefix k :
  k ∈ tree_keys t root prefix ↔ is_Some (m !! k) ∧ prefix_matches prefix k = true.
Proof.
  unfold tree_keys. setoid_rewrite list_elem_of_bind. setoid_rewrite list_elem_of_bind.
  setoid_rewrite elem_of_col_keys. setoid_rewrite elem_of_children. split.
  - by intros (ns & (col & (? & ? & _) & _) & _).
  - intros [[r Hr] Hm]. assert (is_Some (m !! k)) as Hin by eauto.
    exists (segment (key_namespace k)). split.
    + exists (segment (key_collection k)). split_and!; [done..|].
      rewrite <-app_assoc. exists Dir. apply (key_dirs root t m k Hh Hin); [done|by destruct root].
    + exists Dir. apply (key_dirs root t m k Hh Hin); [|by destruct root].
      exists [segment (key_collection k)]. by rewrite <-app_assoc.
Qed.

Lemma NoDup_tree_keys prefix : NoDup (tree_keys t root prefix).
Proof.
  apply NoDup_bind; [| |apply NoDup_children].
  - intros n1 n2 k _ _ (c1 & (_ & _ & H1)%elem_of_col_keys & _)%list_elem_of_bind
      (c2 & (_ & _ & H2)%elem_of_col_keys & _)%list_elem_of_bind. congruence.
  - intros ns _. apply NoDup_bind; [|intros; apply NoDup_col_keys|apply NoDup_children].
    intros c1 c2 k _ _ (_ & _ & H1)%elem_of_col_keys (_ & _ & H2)%elem_of_col_keys. congruence.
Qed.

(** ** The walk *)

Lemma exec_not_dir p n :
  t !! p = Some n →
  exec (not_dir p) fs = (match n with Dir => false | File _ _ _ => true end, fs).
Proof.
  intros Hn. pose proof (look_entry _ _ _ (holds_closed _ _ _ Hh) Hn) as Hlook.
  unfold not_dir. rewrite (exec_raw_bind _ _ _ (Ok (match n with Dir => true | _ => false end)) fs).
  - by destruct n.
  - cbn. by rewrite Hlook.
Qed.

Lemma exec_read_dir p :
  t !! p = Some Dir → exec_call (ReadDir p) fs = (Ok (children t p), fs).
Proof.
  intros Hn. pose proof (look_entry _ _ _ (holds_closed _ _ _ Hh) Hn) as Hlook.
  cbn. by rewrite Hlook.
Qed.

Lemma exec_collect_col prefix ns col acc :
  col ∈ children t (root ++ [ns]) →
  exec (collect_col prefix (root ++ [ns]) (to_string_lossy ns) acc col) fs =
    (Ok (acc ++ col_keys t root prefix ns col), fs).
Proof.
  intros [n Hn]%elem_of_children. unfold collect_col. rewrite exec_bind.
  rewrite (exec_not_dir _ _ Hn). unfold col_keys. rewrite <-app_assoc in Hn |- *. simpl app in *.
  destruct n as [|d s u].
  - rewrite decide_True by done. rewrite exec_tryp, (exec_sys _ _ _ _ (exec_read_dir _ Hn)).
    simpl. by rewrite foldl_collect.
  - rewrite decide_False by congruence. by rewrite app_nil_r.
Qed.

Lemma exec_collect_ns prefix ns acc :
  ns ∈ children t root →
  exec (collect_ns prefix root acc ns) fs =
    (Ok (acc ++ (children t (root ++ [ns]) ≫= col_keys t root prefix ns)), fs).
Proof.
  intros [n Hn]%elem_of_children. unfold collect_ns. rewrite exec_bind.
  rewrite (exec_not_dir _ _ Hn). destruct n as [|d s u].
  2: { by rewrite (children_file _ _ _ _ _ (holds_closed _ _ _ Hh) Hn), app_nil_r. }
  rewrite exec_tryp, (exec_sys _ _ _ _ (exec_read_dir _ Hn)).
  simpl. apply exec_forp. intros col acc'. apply exec_collect_col.
Qed.

Lemma exec_collect_keys prefix :
  exec (collect_keys root prefix) fs = (Ok (tree_keys t root prefix), fs).
Proof.
  unfold collect_keys.
  assert (look t root = match node_at t root with Some n => Ok (root, n) | None => Err ENOENT end)
    as Hlook.
  { apply look_plain; [apply Hh|apply Hh|]. intros q x r d s u Heq.
    apply (holds_layout _ _ _ Hh). by exists (x :: r). }
  assert (∀ d s u, node_at t root ≠ Some (File d s u)) as Hroot
    by (by apply (holds_layout _ _ _ Hh)).
  destruct (node_at t root) as [[|d s u]|] eqn:Hr.
  - rewrite (exec_raw_bind _ _ _ (Ok (children t root)) fs) by (cbn; by rewrite Hlook).
    rewrite (exec_forp (λ ns, children t (root ++ [ns]) ≫= col_keys t root prefix ns)); [done|].
    intros ns acc. apply exec_collect_ns.
  - by destruct (Hroot d s u).
  - rewrite (exec_raw_bind _ _ _ (Err ENOENT) fs) by (cbn; by rewrite Hlook). simpl.
    pose proof (children_absent _ _ (holds_closed _ _ _ Hh) Hr) as Hnil.
    unfold tree_keys. by rewrite Hnil.
Qed.

(** [list_raw] lists the keys of the map. *)
Lemma fs_list_raw_spec s prefix :
  fss_root s = root → ∃ l, exec (fs_list_raw s prefix) fs = (Ok l, fs) ∧ NoDup l ∧
    ∀ k, k ∈ l ↔ is_Some (m !! k) ∧ prefix_matches prefix k = true.
Proof.
  intros Hs. exists (tree_keys t root prefix). unfold fs_list_raw. rewrite Hs, exec_collect_keys.
  split_and!; [done|apply NoDup_tree_keys|apply elem_of_tree_keys].
Qed.

(** [list] those of the live records. *)
Lemma fs_list_spec s prefix :
  fss_root s = root → ∃ l, exec (fs_list s prefix) fs = (Ok l, fs) ∧ NoDup l ∧
    ∀ k, k ∈ l ↔ is_Some (live (m !! k)) ∧ prefix_matches prefix k = true.
Proof.
  intros Hs. unfold fs_list. rewrite exec_tryp, Hs, exec_collect_keys.
  exists (filter (λ k, is_Some (live (m !! k))) (tree_keys t root prefix)).
  split_and!.
  - rewrite (exec_forp (λ k, if decide (is_Some (live (m !! k))) then [k] else [])).
    + by rewrite bind_filter.
    + intros k acc [[r Hr] _]%elem_of_tree_keys. rewrite exec_bind.
      unfold listed_live, read_record. rewrite exec_bind, Hs, record_path_ok
        by (by apply (holds_record _ _ _ Hh k r)).
      rewrite (exec_read root k m) by (done || by apply (holds_record _ _ _ Hh k r)).
      destruct (decide (is_Some (live (m !! k)))) as [[r' [Hr' Ht]%live_Some]|Hl].
      * rewrite Hr'. simpl. by rewrite Ht.
      * rewrite Hr. simpl. destruct (is_tombstone r) eqn:Ht; simpl; [by rewrite app_nil_r|].
        destruct Hl. exists r. by apply live_Some.
  - apply NoDup_filter, NoDup_tree_keys.
  - intros k. rewrite list_elem_of_filter, elem_of_tree_keys. split; [naive_solver|].
    intros [[r [Hr Hl]%live_Some] Hm]. split_and!; [|by eexists|done].
    exists r. by apply live_Some.
Qed.
End listing.
