(* ===== verification/FsSamples.v ===== *)
(** * FsSamples: a serde format and a filesystem to instantiate the theorems at

    Records as the bits of stdpp's [encode], and an empty disk with a root
    directory.  Nothing here models code. *)

From S2P Require Export Samples Contract FsListing.

(** ** Any record as bytes *)

#[export] Instance bits_serde : SerdeRecord := {
  to_vec_pretty r := Ok (to_bits r);
  from_slice b := ok_or "not a record" (from_bits b)
}.

#[export] Instance bits_serde_laws : SerdeRecordLaws.
Proof. split. intros r. exists (to_bits r). split; [done|]. cbn. by rewrite from_bits_to_bits. Qed.

(** ** An empty store on disk *)

Definition sample_root : path := ["data"].
Definition sample_tree : tree := {[ sample_root := Dir ]}.
Definition sample_fs : FileSystem := mkFs sample_tree sample_tree ∅ 0 1700000000000000000.
Definition sample_fs_store : FsStore := mkFsStore sample_root 3.

Lemma sample_closed : closed sample_tree.
Proof.
  unfold sample_tree. intros p n [<- <-]%lookup_singleton_Some. split_and!; [|done|done].
  unfold plain, sample_root. rewrite list_elem_of_singleton. done.
Qed.

Lemma sample_laid_out m : laid_out sample_root sample_tree m.
Proof.
  unfold sample_tree. split.
  - intros p n [Heq <-]%lookup_singleton_Some. destruct p as [|x p]; [done|]. done.
  - intros q Hq d s u. destruct q as [|x q]; [done|]. simpl.
    by intros [_ ?]%lookup_singleton_Some.
Qed.

Lemma sample_holds : holds sample_root (fs_now sample_fs) ∅.
Proof.
  split; [|apply sample_closed|apply sample_laid_out|done].
  unfold plain, sample_root. rewrite list_elem_of_singleton. done.
Qed.

Lemma sample_durable : durable sample_root sample_fs ∅.
Proof. split; [apply sample_laid_out|by intros k []..]. Qed.

Lemma sample_key_ok : key_ok sample_key.
Proof. split; [split; [reflexivity|done]..|reflexivity|done]. Qed.
