(* ===== verification/FsRefine.v ===== *)
(** * FsRefine: the filesystem store against the reference store

    The theorems about [FsStore]: it refines [MemStore] call by call; its
    writes are atomic and, in a directory that is on disk, durable against any
    failing call and any crash; the first write of a new collection is not
    durable; and the two ways keys and hashes step outside the model's
    hypotheses, empty components and blob hashes that are paths. *)

From S2P Require Export FsListing Contract.
From S2P Require Import FsSamples.
#[local] Open Scope gonzalo_scope.

(** ** Calls and what they answer *)

Inductive Response :=
  | RRecord (r : Result (option record))
  | RKeys (r : Result (list RecordKey))
  | RPut (r : Result PutResult)
  | RDelete (r : Result DeleteResult).

Definition response_ok (r : Response) : bool :=
  match r with
  | RRecord r => is_ok r | RKeys r => is_ok r | RPut r => is_ok r | RDelete r => is_ok r
  end.

Definition respond {W A} (f : A → Response) (x : A * W) : Response * W := (f x.1, x.2).

Definition call_op {W} (s : Store W) (op : StoreOp) (w : W) : Response * W :=
  match op with
  | OpGet k => respond RRecord (st_get s k w)
  | OpPut r e => respond RPut (st_put s r e w)
  | OpList p => respond RKeys (st_list s p w)
  | OpDelete k e a => respond RDelete (st_delete_as s k e a w)
  | OpGetRaw k => respond RRecord (st_get_raw s k w)
  | OpListRaw p => respond RKeys (st_list_raw s p w)
  | OpPutRaw r e => respond RPut (st_put_raw s r e w)
  | OpPurge k e => respond RDelete (st_purge s k e w)
  end.

(** Directories list their entries in any order. *)
Inductive same_response : Response → Response → Prop :=
  | same_refl r : same_response r r
  | same_keys l l' : l ≡ₚ l' → same_response (RKeys (Ok l)) (RKeys (Ok l')).

(** The keys a call is about have paths of their own. *)
Definition op_ok (op : StoreOp) : Prop :=
  match op with
  | OpGet k | OpDelete k _ _ | OpGetRaw k | OpPurge k _ => key_ok k
  | OpPut r _ | OpPutRaw r _ => key_ok (rec_key r)
  | OpList _ | OpListRaw _ => True
  end.

Definition set_clock (fs : FileSystem) (t : SystemTime) : FileSystem :=
  mkFs (fs_now fs) (fs_disk fs) (fs_locks fs) (fs_nonce fs) t.

(** The reference store of the same cap, at the same moment. *)
Definition reference `{Blake3} (cap : nat) (t : SystemTime) : Store records :=
  mem_store (λ _, t) (mkMemStore lens_id cap None).

Section refine.
Context `{Blake3} `{SerdeRecord}.

(** A sequence of calls at given times, and their responses. *)
Fixpoint fs_run (s : FsStore) (ops : list (SystemTime * StoreOp)) (fs : FileSystem) :
    list Response * FileSystem :=
  match ops with
  | [] => ([], fs)
  | (t, op) :: ops =>
      let '(r, fs1) := call_op (fs_store s) op (set_clock fs t) in
      let '(rs, fs2) := fs_run s ops fs1 in (r :: rs, fs2)
  end.

Fixpoint mem_run (cap : nat) (ops : list (SystemTime * StoreOp)) (m : records) :
    list Response * records :=
  match ops with
  | [] => ([], m)
  | (t, op) :: ops =>
      let '(r, m1) := call_op (reference cap t) op m in
      let '(rs, m2) := mem_run cap ops m1 in (r :: rs, m2)
  end.
End refine.

(** A write as a program. *)
Definition fs_write `{Blake3} `{SerdeRecord} (s : FsStore) (op : StoreOp) : prog Response :=
  match op with
  | OpPut r e => fs_put s r e ≫= λ x, Ret (RPut x)
  | OpPutRaw r e => fs_put_raw s r e ≫= λ x, Ret (RPut x)
  | OpDelete k e a => fs_delete_as s k e a ≫= λ x, Ret (RDelete x)
  | OpPurge k e => fs_purge s k e ≫= λ x, Ret (RDelete x)
  | _ => Ret (RKeys (Ok []))
  end.

(** The key a write is about. *)
Definition written_key (op : StoreOp) : option RecordKey :=
  match op with
  | OpPut r _ | OpPutRaw r _ => Some (rec_key r)
  | OpDelete k _ _ | OpPurge k _ => Some k
  | _ => None
  end.

Lemma holds_keyed `{SerdeRecord} root t m : holds root t m → keyed m.
Proof. intros Hh k r Hr. by apply (holds_record _ _ _ Hh) in Hr as (_ & ? & _). Qed.

Lemma mem_write_apply plan cap t r e m :
  MemStore_write (λ _, t) (mkMemStore lens_id cap None) r e plan m =
    apply_put (plan (m !! rec_key r) r e (now_ms t) cap) (rec_key r) m.
Proof. unfold MemStore_write, MemStore_now. simpl. by destruct (plan _ _ _ _ _). Qed.

Lemma mem_delete_apply `{Blake3} cap t k e a m :
  MemStore_delete_as (λ _, t) (mkMemStore lens_id cap None) k e a m =
    apply_delete (plan_delete (m !! k) e (now_ms t) cap a) k m.
Proof. unfold MemStore_delete_as, MemStore_now. simpl. by destruct (plan_delete _ _ _ _ _). Qed.

Lemma mem_purge_apply cap k e m :
  MemStore_purge (mkMemStore lens_id cap None) k e m = apply_purge (plan_purge (m !! k) e) k m.
Proof. unfold MemStore_purge. simpl. by destruct (plan_purge _ _). Qed.

Section theorems.
Context `{Blake3} `{SerdeRecordLaws}.
Variable s : FsStore.
Notation root := (fss_root s).
Notation cap := (fss_cap s).

(** What a write guarantees of its response [x] and the tree it leaves. *)
Definition Written k dur ready gone m m1 (r : Response) (b : bool) (x : Response)
    (fs : FileSystem) : Prop :=
  Inv root k dur gone m m1 fs ∧
  (b = false ∨ response_ok x = true → x = r ∧ Finished root dur ready m1 fs).

Lemma safe_respond {A} (f : Result A → Response) k dur ready gone m m1 out p fs :
  (∀ x, response_ok (f x) = is_ok x) →
  safe (Inv root k dur gone m m1) (Post root k dur ready gone m m1 out) false p fs →
  safe (Inv root k dur gone m m1) (Written k dur ready gone m m1 (f out)) false
    (p ≫= λ x, Ret (f x)) fs.
Proof.
  intros Hf Hp. apply safe_bind. eapply safe_mono; [|exact Hp].
  intros b x fs' [HI Hx]. split; [done|]. split; [done|]. rewrite Hf. by intros [-> ?]%Hx.
Qed.

(** Every write in the program logic, whatever is assumed of the disk. *)
Lemma safe_write_op dur ready gone op k m fs :
  written_key op = Some k → key_ok k → Pre root k dur ready gone m (fs_clock fs) fs →
  let '(r, m1) := call_op (reference cap (fs_clock fs)) op m in
  safe (Inv root k dur gone m m1) (Written k dur ready gone m m1 r) false (fs_write s op) fs.
Proof.
  intros Hop Hk Hp.
  destruct op as [|r e| |k' e a| | |r e|k' e]; try done; simpl in Hop; injection Hop as <-;
    cbn [call_op reference mem_store st_put st_put_raw st_delete_as st_purge respond].
  - unfold MemStore_put. rewrite mem_write_apply.
    destruct (apply_put _ _ _) as [out m1] eqn:E. apply (safe_respond RPut); [done|].
    eapply safe_put_locked; [done..| |by symmetry]. intros *. apply plan_put_key.
  - rewrite mem_delete_apply. destruct (apply_delete _ _ _) as [out m1] eqn:E.
    apply (safe_respond RDelete); [done|]. by eapply safe_delete_locked.
  - unfold MemStore_put_raw. rewrite mem_write_apply.
    destruct (apply_put _ _ _) as [out m1] eqn:E. apply (safe_respond RPut); [done|].
    eapply safe_put_locked; [done..| |by symmetry]. intros *. apply plan_put_raw_key.
  - rewrite mem_purge_apply. destruct (apply_purge _ _ _) as [out m1] eqn:E.
    apply (safe_respond RDelete); [done|]. by eapply safe_purge_locked.
Qed.

Lemma call_write_op op k fs :
  written_key op = Some k → call_op (fs_store s) op fs = exec (fs_write s op) fs.
Proof.
  intros Hop. destruct op; try done; unfold fs_write; rewrite exec_bind; cbn;
    by destruct (exec _ fs).
Qed.

Lemma pre_plain k m fs : holds root (fs_now fs) m → Pre root k false false false m (fs_clock fs) fs.
Proof. intros Hh. by split_and!. Qed.

(** One call. *)
Lemma fs_step_refines t op m fs :
  holds root (fs_now fs) m → op_ok op →
  let '(r, fs') := call_op (fs_store s) op (set_clock fs t) in
  let '(r', m') := call_op (reference cap t) op m in
  same_response r r' ∧ holds root (fs_now fs') m'.
Proof.
  intros Hh Hop. change (fs_now fs) with (fs_now (set_clock fs t)) in Hh.
  assert (t = fs_clock (set_clock fs t)) as Ht by done. revert Hh Ht.
  generalize (set_clock fs t). clear fs. intros fs Hh ->.
  assert (∀ k, key_ok k → exec (read_record s k) fs = (Ok (m !! k), fs)) as Hread.
  { intros k Hk. unfold read_record. rewrite record_path_ok by done. by apply exec_read. }
  destruct (written_key op) as [k|] eqn:Hwk.
  - assert (key_ok k) as Hk by (by destruct op; simplify_eq/=).
    rewrite (call_write_op _ _ _ Hwk).
    pose proof (safe_write_op false false false op k m fs Hwk Hk (pre_plain k m fs Hh)) as Hs.
    destruct (call_op (reference cap _) op m) as [r m1].
    apply safe_exec in Hs as [_ Hs]. destruct (exec _ fs) as [x fs'].
    simpl in Hs. destruct Hs as [-> [Hm1 _]]; [by left|]. simpl. split; [constructor|done].
  - destruct op as [k|?|p|?|k|p|?|?]; try done;
      cbn [call_op fs_store st_get st_list st_get_raw st_list_raw reference mem_store].
    + unfold fs_get. rewrite exec_tryp, Hread by done. unfold MemStore_get, respond. rewrite get_live.
      split; [constructor|done].
    + destruct (fs_list_spec root fs m Hh s p eq_refl) as (l & -> & Hnd & Hl).
      destruct (MemStore_list_spec (mkMemStore lens_id cap None) p m (holds_keyed _ _ _ Hh))
        as (l' & Hrun & Hnd'%increasing_NoDup & Hl').
      rewrite Hrun. split; [|done]. apply same_keys, NoDup_Permutation; [done..|].
      intros k. by rewrite Hl, Hl'.
    + unfold fs_get_raw. rewrite Hread by done. split; [constructor|done].
    + destruct (fs_list_raw_spec root fs m Hh s p eq_refl) as (l & -> & Hnd & Hl).
      simpl. split; [|done]. apply same_keys, NoDup_Permutation; [done| |].
      * apply NoDup_filter, increasing_NoDup, btree_keys_increasing.
      * intros k. rewrite Hl, list_elem_of_filter, elem_of_btree_keys. naive_solver.
Qed.

(** C2: the filesystem store refines the reference store.  From a tree that
    holds a map, any sequence of calls at any times, on keys with paths of their
    own, is answered as [MemStore] answers it, lists up to the order of the
    directories, and leaves the tree that holds [MemStore]'s map. *)
Theorem fs_refines_memstore (ops : list (SystemTime * StoreOp)) (fs : FileSystem) (m : records) :
  holds root (fs_now fs) m → Forall (λ x, op_ok x.2) ops →
  Forall2 same_response (fs_run s ops fs).1 (mem_run cap ops m).1 ∧
  holds root (fs_now (fs_run s ops fs).2) (mem_run cap ops m).2.
Proof.
  intros Hh Hops. revert fs m Hh. induction Hops as [|[t op] ops Hop Hops IH]; intros fs m Hh.
  { by split; [constructor|]. }
  cbn. pose proof (fs_step_refines t op m fs Hh Hop) as Hstep.
  destruct (call_op (fs_store s) op (set_clock fs t)) as [r fs1], (call_op (reference cap t) op m)
    as [r' m1]. destruct Hstep as [Hr Hh1]. specialize (IH fs1 m1 Hh1).
  destruct (fs_run s ops fs1), (mem_run cap ops m1). destruct IH. split; [by constructor|done].
Qed.

(** C1: writes are atomic and durable.  Stop a put, delete or purge anywhere, with
    any of its calls having failed: the tree holds the old records or the new
    ones, and so does what a crash leaves.  Once the write has answered without
    an error the answer is the reference store's, and every crash leaves the new
    records, if the directory of the key was on disk when it began. *)
Theorem fs_writes_atomic_durable (op : StoreOp) (k : RecordKey) (m : records)
    (fs fs' : FileSystem) (p : prog Response) :
  written_key op = Some k → key_ok k → holds root (fs_now fs) m → durable root fs m →
  rtc step (fs_write s op, fs) (p, fs') →
  let '(r, m1) := call_op (reference cap (fs_clock fs)) op m in
  (holds root (fs_now fs') m ∨ holds root (fs_now fs') m1) ∧
  (∀ c, crash fs' c → recovered root c m ∨ recovered root c m1) ∧
  (∀ x, p = Ret x → response_ok x = true →
     x = r ∧ holds root (fs_now fs') m1 ∧
     (dirs_ready root k fs → durable root fs' m1 ∧ ∀ c, crash fs' c → recovered root c m1)).
Proof.
  intros Hop Hk Hh Hd Hrun.
  assert (Pre root k true false false m (fs_clock fs) fs) as Hp by (by split_and!).
  pose proof (safe_write_op true false false op k m fs Hop Hk Hp) as Hs.
  pose proof (λ Hready, safe_write_op true true false op k m fs Hop Hk
    (conj Hh (conj (λ _, Hd) (conj (λ _, Hready) (conj eq_refl (λ e, match Bool.diff_false_true e with end))))))
    as Hs'.
  destruct (call_op (reference cap (fs_clock fs)) op m) as [r m1].
  destruct (safe_adequate _ _ _ _ _ _ _ Hs Hrun) as ((Hnow & Hcr & _) & Hend).
  split_and!; [done|by apply Hcr|]. intros x -> Hx.
  destruct (Hend x eq_refl) as (b & _ & Hfin). destruct Hfin as [-> [Hm1 _]]; [by right|].
  split_and!; [done..|]. intros Hready.
  destruct (safe_adequate _ _ _ _ _ _ _ (Hs' Hready) Hrun) as [_ Hend'].
  destruct (Hend' _ eq_refl) as (b' & _ & Hfin'). destruct Hfin' as [_ [_ Hd1]]; [by right|].
  specialize (Hd1 eq_refl eq_refl). split; [done|]. intros c Hc.
  destruct (crash_near root fs' c k false m1 m1 (near_durable root fs' k m1 Hm1 Hd1) Hc)
    as [?|[?|[? _]]]; done.
Qed.

(** ** A directory that is not on disk *)

(** The first write of a collection is not durable.  When the directory of a
    key is not on disk, a write that creates its record succeeds, and a crash
    can undo it: no call makes the entry of a new directory durable. *)
Theorem fresh_directory_write_can_be_lost (op : StoreOp) (k : RecordKey) (m : records)
    (fs : FileSystem) :
  written_key op = Some k → key_ok k → holds root (fs_now fs) m → durable root fs m →
  fs_disk fs !! (root ++ key_dir k) = None →
  is_Some ((call_op (reference cap (fs_clock fs)) op m).2 !! k) →
  let '(x, fs') := exec (fs_write s op) fs in
  x = (call_op (reference cap (fs_clock fs)) op m).1 ∧
  holds root (fs_now fs') (call_op (reference cap (fs_clock fs)) op m).2 ∧
  ∃ c, crash fs' c ∧ recovered root c m ∧ m !! k = None.
Proof.
  intros Hop Hk Hh Hd Hnone Hsome.
  assert (Pre root k true false true m (fs_clock fs) fs) as Hp by (by split_and!).
  pose proof (safe_write_op true false true op k m fs Hop Hk Hp) as Hs.
  destruct (call_op (reference cap (fs_clock fs)) op m) as [r m1].
  apply safe_exec in Hs as [(Hnow & Hcr & Hgone) Hs]. destruct (exec _ fs) as [x fs'].
  simpl in *. destruct Hs as (-> & Hm1 & _); [by left|]. split_and!; [done..|].
  assert (root ++ key_dir k ≠ []) as Hne by (by destruct root).
  exists (disk_only fs'). pose proof (crash_disk_only fs' (holds_closed _ _ _ Hm1)) as Hcrash.
  assert (∀ m', holds root (fs_now (disk_only fs')) m' → m' !! k = None) as Hlost.
  { intros m' Hm'. destruct (m' !! k) as [r'|] eqn:E; [|done]. exfalso.
    destruct (holds_record _ _ _ Hm' _ _ E) as (_ & _ & d & sy & u & [_ Ha]%disk_only_lookup & _).
    apply (above_on_disk_spec _ _ (root ++ key_dir k) (file_name k) []) in Ha;
      [|by unfold key_path; rewrite app_assoc].
    rewrite node_at_ne, Hgone in Ha; done. }
  destruct (Hcr eq_refl _ Hcrash) as [[Hc ?]|[Hc ?]].
  { split; [done|]. split; [by split|by apply Hlost]. }
  destruct Hsome as [r' Hr']. by rewrite (Hlost m1 Hc) in Hr'.
Qed.
End theorems.

(** ** Witnesses: an empty store on disk *)

Section witnesses.
#[local] Existing Instance sample_hash.

Definition sample_timed_ops : list (SystemTime * StoreOp) :=
  [(1%Z, OpPut (sample_record sample_key 0 "v0" []) None);
   (2%Z, OpList KeyPrefix_default);
   (3%Z, OpDelete sample_key None None);
   (4%Z, OpGetRaw sample_key)].

Lemma fs_refines_memstore_witness :
  Forall2 same_response (fs_run sample_fs_store sample_timed_ops sample_fs).1
    (mem_run 3 sample_timed_ops ∅).1.
Proof.
  apply (fs_refines_memstore sample_fs_store sample_timed_ops sample_fs ∅ sample_holds).
  repeat constructor; done.
Defined.

Definition sample_write : StoreOp := OpPut (sample_record sample_key 0 "v0" []) None.

Lemma sample_write_creates :
  is_Some ((call_op (reference 3 (fs_clock sample_fs)) sample_write ∅).2 !! sample_key).
Proof. vm_compute. by eexists. Qed.

Lemma fresh_directory_write_can_be_lost_witness :
  ∃ c, crash (exec (fs_write sample_fs_store sample_write) sample_fs).2 c ∧
    recovered sample_root c ∅.
Proof.
  pose proof (fresh_directory_write_can_be_lost sample_fs_store sample_write sample_key ∅ sample_fs
    eq_refl sample_key_ok sample_holds sample_durable eq_refl sample_write_creates) as Hw.
  destruct (exec _ sample_fs) as [x fs']. destruct Hw as (_ & _ & c & ? & ? & _). by exists c.
Defined.

(** The run stops after its first call. *)
Definition first_call {A} (s : prog A * FileSystem) : prog A * FileSystem :=
  match s.1 with
  | Ret _ => s
  | Call c k => (k (exec_call c s.2).1, (exec_call c s.2).2)
  end.

Lemma fs_writes_atomic_durable_witness :
  let fs := (first_call (fs_write sample_fs_store sample_write, sample_fs)).2 in
  crash fs (disk_only fs) ∧
  (recovered sample_root (disk_only fs) ∅ ∨
   recovered sample_root (disk_only fs)
     (call_op (reference 3 (fs_clock sample_fs)) sample_write ∅).2).
Proof.
  pose proof (fs_writes_atomic_durable sample_fs_store sample_write sample_key ∅ sample_fs
    (first_call (fs_write sample_fs_store sample_write, sample_fs)).2
    (first_call (fs_write sample_fs_store sample_write, sample_fs)).1
    eq_refl sample_key_ok sample_holds sample_durable) as Hw.
  destruct (call_op _ _ _) as [r m1]. destruct Hw as ([Hh|Hh] & Hcr & _).
  - apply rtc_once. left. reflexivity.
  - assert (crash _ (disk_only _)) as Hc by apply (crash_disk_only _ (holds_closed _ _ _ Hh)).
    exact (conj Hc (Hcr _ Hc)).
  - assert (crash _ (disk_only _)) as Hc by apply (crash_disk_only _ (holds_closed _ _ _ Hh)).
    exact (conj Hc (Hcr _ Hc)).
Defined.
End witnesses.
