(* ===== verification/FsBlobs.v ===== *)
(** * FsBlobs: content-addressed blobs as files

    The [BlobStore] half of [FsStore].  On hashes of the right shape it is a
    content-addressed store beside the records ([fs_blobs_spec]).  It joins
    any other hash to its path unchecked, so a hash that climbs out of the
    blob directory reads and unlinks record files
    ([blob_hash_reaches_records]). *)

From S2P Require Export FsRefine.
From S2P Require Import FsSamples.
From S2P Require Fleet.
#[local] Open Scope gonzalo_scope.

(** ** Paths of blobs *)

Lemma hash_byte_plain b :
  (is_digit b || in_range 65 70 b || in_range 97 102 b) && negb (is_upper b) = true →
  b ≠ slash ∧ b ≠ dot ∧ bool_decide (byte_code b < 128)%N = true.
Proof. destruct b; done. Qed.

Lemma blob_hash_bytes s :
  is_blob_hash s = true →
  slash ∉ bytes_of_string s ∧ dot ∉ bytes_of_string s ∧ ascii (bytes_of_string s) = true ∧ s ≠ "".
Proof.
  unfold is_blob_hash. rewrite andb_true_iff, bool_decide_eq_true, forallb_forall.
  intros [Hlen Hs]. split_and!.
  - intros Hin%list_elem_of_In%Hs%hash_byte_plain. naive_solver.
  - intros Hin%list_elem_of_In%Hs%hash_byte_plain. naive_solver.
  - apply forallb_forall. intros b Hb%Hs%hash_byte_plain. apply Hb.
  - by intros ->.
Qed.

Lemma hash_name_neq s x : is_blob_hash s = true → dot ∈ bytes_of_string x → s ≠ x.
Proof. intros (_ & Hd & _)%blob_hash_bytes Hx ->. done. Qed.

Lemma blobs_dir_path root : blobs_dir root = root ++ ["blobs"].
Proof. apply path_join_single; [|done..]. apply (proj1 (segment_inert "blobs")). Qed.

Lemma blob_path_hash root h :
  is_blob_hash (hash_hex h) = true → blob_path root h = root ++ ["blobs"; hash_hex h].
Proof.
  intros Hh. pose proof (blob_hash_bytes _ Hh) as (? & _ & _ & ?). unfold blob_path.
  rewrite blobs_dir_path, path_join_single; [by rewrite <-app_assoc|done..|].
  apply hash_name_neq; [done|]. apply elem_of_cons. by left.
Qed.

(** The blobs of a tree. *)
Definition blob_at (root : path) (t : tree) (h : ContentHash) : option (bytes * SystemTime) :=
  match t !! (root ++ ["blobs"; hash_hex h]) with
  | Some (File d _ u) => if is_blob_hash (hash_hex h) then Some (d, u) else None
  | _ => None
  end.

(** ** Files of the blob directory *)

Section blobs.
Context `{Blake3} `{SerdeRecord}.
Variables (root : path) (m : records).

Definition blob_file (x : string) : Prop :=
  to_string_lossy x = x ∧
  (is_blob_hash x = true ∨ dot ∈ bytes_of_string x ∧ x ≠ "..").

Lemma blob_hash_file x : is_blob_hash x = true → blob_file x.
Proof. intros Hx. split; [|by left]. apply to_string_lossy_ascii. by destruct (blob_hash_bytes x Hx) as (_ & _ & ? & _). Qed.

Lemma blob_file_plain x : blob_file x → x ≠ "..".
Proof.
  intros [_ [Hx|[_ ?]]]; [|done]. apply hash_name_neq; [done|]. apply elem_of_cons. by left.
Qed.

Lemma blob_path_ne x : root ++ ["blobs"; x] ≠ [].
Proof. by destruct root. Qed.

Lemma blob_parent x : parent (root ++ ["blobs"; x]) = root ++ ["blobs"].
Proof. change ["blobs"; x] with (["blobs"] ++ [x]). by rewrite app_assoc, parent_snoc. Qed.

Lemma holds_not_blob_dir t x :
  holds root t m → blob_file x → t !! (root ++ ["blobs"; x]) ≠ Some Dir.
Proof.
  intros Hh Hx Hd. apply (proj1 (holds_layout _ _ _ Hh)) in Hd. destruct Hd as [_ Hd].
  destruct (Hd eq_refl) as [Hf Hdot].
  destruct Hx as [_ [Hx|[Hx _]]]; [by rewrite Hx in Hf|done].
Qed.

Lemma plain_blob x : plain root → x ≠ ".." → plain (root ++ ["blobs"; x]).
Proof.
  unfold plain. rewrite not_elem_of_app, !not_elem_of_cons. intros ??.
  pose proof (not_elem_of_nil (A:=string) ".."). naive_solver.
Qed.

Lemma blobs_no_dot : dot ∉ bytes_of_string "blobs".
Proof. exact (proj2 (segment_inert "blobs")). Qed.

Lemma blobs_dir_layout mb n : layout_ok mb ["blobs"] n → n = Dir.
Proof. destruct n as [|d s u]; [done|]. by intros ?%blobs_no_dot. Qed.

Lemma blob_unobstructed t x : holds root t m → unobstructed t (root ++ ["blobs"; x]).
Proof.
  intros Hh q y r d s u Heq. destruct (decide (r = [])) as [->|Hr].
  - change ["blobs"; x] with (["blobs"] ++ [x]) in Heq. rewrite app_assoc in Heq.
    apply app_inj_tail in Heq as [<- _]. rewrite node_at_ne by (by destruct root).
    by intros Hn%(proj1 (holds_layout _ _ _ Hh))%blobs_dir_layout.
  - destruct r as [|z r _] using rev_ind; [done|].
    change ["blobs"; x] with (["blobs"] ++ [x]) in Heq. rewrite app_assoc in Heq.
    change (y :: r ++ [z]) with ((y :: r) ++ [z]) in Heq. rewrite app_assoc in Heq.
    apply app_inj_tail in Heq as [Heq _]. destruct r as [|z' r _] using rev_ind.
    + apply app_inj_tail in Heq as [<- _]. apply (holds_layout _ _ _ Hh). done.
    + change (y :: r ++ [z']) with ((y :: r) ++ [z']) in Heq. rewrite app_assoc in Heq.
      apply app_inj_tail in Heq as [Heq _]. apply (holds_layout _ _ _ Hh). by exists (y :: r).
Qed.

Lemma look_blob t x :
  holds root t m → x ≠ ".." →
  look t (root ++ ["blobs"; x]) =
    match t !! (root ++ ["blobs"; x]) with
    | Some n => Ok (root ++ ["blobs"; x], n)
    | None => Err ENOENT
    end.
Proof.
  intros Hh Hx. rewrite look_plain; [|apply Hh|by apply plain_blob, Hx; apply Hh|by apply blob_unobstructed].
  by rewrite node_at_ne by apply blob_path_ne.
Qed.

Lemma walk_blob t x :
  holds root t m → x ≠ ".." → node_at t (root ++ ["blobs"]) = Some Dir →
  walk t [] (root ++ ["blobs"; x]) = Ok (root ++ ["blobs"; x]).
Proof.
  intros Hh Hx Hd. apply walk_in_dir; [apply Hh|by apply plain_blob, Hx; apply Hh| |].
  - by apply blob_unobstructed.
  - by rewrite blob_parent.
Qed.

Lemma blob_not_record k x : root ++ ["blobs"; x] ≠ root ++ key_path k.
Proof. intros Heq%app_inv_head. done. Qed.

Lemma holds_blob_insert t x d s u :
  holds root t m → blob_file x → node_at t (root ++ ["blobs"]) = Some Dir →
  holds root (<[root ++ ["blobs"; x] := File d s u]> t) m.
Proof.
  intros Hh Hx Hd. pose proof Hh as [Hp Hc [Hl Hr] Hrec]. split; [done| | |].
  - apply closed_insert; [done|by apply plain_blob, blob_file_plain|apply blob_path_ne
      |by rewrite blob_parent|].
    rewrite node_at_ne by apply blob_path_ne. by intros []%(holds_not_blob_dir _ _ Hh).
  - split.
    + intros p n [[Heq <-]|[_ ?]]%lookup_insert_Some; [|by apply Hl].
      apply app_inv_head in Heq as <-. simpl. destruct Hx as [? [|[]]]; auto.
    + intros q Hq d' s' u'. rewrite node_at_insert by apply blob_path_ne.
      rewrite decide_False; [by apply Hr|]. intros <-. destruct Hq as [e He].
      apply (f_equal length) in He. rewrite !length_app in He. simpl in He. lia.
  - intros k r (? & ? & Hs)%Hrec. split_and!; [done..|]. unfold stores_record.
    by rewrite lookup_insert_ne by apply blob_not_record.
Qed.

Lemma holds_blob_delete t x :
  holds root t m → blob_file x → holds root (delete (root ++ ["blobs"; x]) t) m.
Proof.
  intros Hh Hx. pose proof Hh as [Hp Hc [Hl Hr] Hrec]. split; [done| | |].
  - apply closed_delete; [done|apply blob_path_ne|].
    rewrite node_at_ne by apply blob_path_ne. by apply holds_not_blob_dir.
  - split; [by intros p n [_ ?%Hl]%lookup_delete_Some|].
    intros q Hq d s u. rewrite node_at_delete by apply blob_path_ne.
    case_decide; [done|by apply Hr].
  - intros k r (? & ? & Hs)%Hrec. split_and!; [done..|]. unfold stores_record.
    by rewrite lookup_delete_ne by apply blob_not_record.
Qed.

Lemma holds_blob_grown t t' :
  holds root t m → grown t t' (root ++ ["blobs"]) → holds root t' m.
Proof.
  intros [Hp Hc [Hl Hr] Hrec] (Hc' & Hin & Hout). split; [done..| |].
  - split.
    + intros p n [?|(_ & -> & Hq)]%Hout; [by apply Hl|].
      apply (prefix_app_inv root) in Hq as [e He].
      destruct p as [|a [|b p]]; [done|injection He as <- _; apply blobs_no_dot|done].
    + intros q Hq d s u. destruct q as [|a q]; [done|]. simpl.
      intros [Hn|(_ & Hd & _)]%Hout; [|done]. by apply (Hr _ Hq d s u).
  - intros k' r (? & ? & d & s & u & Hn & Hd)%Hrec. split_and!; [done..|].
    exists d, s, u. eauto.
Qed.

(** ** Writing a blob *)

Lemma exec_step {X B} (c : call X) (f : X → prog (Result B)) fs x fs' :
  exec_call c fs = (Ok x, fs') → exec (tryp (sys c) f) fs = exec (f x) fs'.
Proof. intros Hc. by rewrite exec_tryp, (exec_sys _ _ _ _ Hc). Qed.

Lemma before_last_absent c s : c ∉ s → before_last c s = None.
Proof.
  induction s as [|b s IH]; [done|]. rewrite not_elem_of_cons. intros [Hb Hs]. simpl.
  rewrite IH by done. by rewrite decide_False.
Qed.

Lemma ascii_dec_fuel fuel n : ascii (bytes_of_string (Fleet.dec_fuel fuel n)) = true.
Proof.
  assert (∀ d, (d < 10)%N → ascii (bytes_of_string (String (Fleet.digit d) "")) = true) as Hd.
  { intros d Hd. assert (d ∈ [0; 1; 2; 3; 4; 5; 6; 7; 8; 9]%N) as Hin
      by (rewrite !elem_of_cons; lia).
    repeat (apply elem_of_cons in Hin as [->|Hin]; [done|]). by apply elem_of_nil in Hin. }
  revert n. induction fuel as [|fuel IH]; intros n; [done|]. cbn [Fleet.dec_fuel].
  case_decide as Hn; [by apply Hd|]. rewrite bytes_of_string_app, ascii_app, IH.
  apply Hd, N.mod_lt. lia.
Qed.

Lemma ascii_tmp_extension pid n : ascii (bytes_of_string (tmp_extension pid n)) = true.
Proof.
  unfold tmp_extension. rewrite !bytes_of_string_app, !ascii_app.
  unfold Fleet.dec. by rewrite !ascii_dec_fuel.
Qed.

Lemma blob_tmp_name s ext :
  is_blob_hash s = true → ascii (bytes_of_string ext) = true →
  blob_file (file_stem s +:+ "." +:+ ext).
Proof.
  intros (_ & Hd & Hs & Hne)%blob_hash_bytes Hext. split.
  { apply to_string_lossy_ascii. rewrite !bytes_of_string_app, !ascii_app, Hext.
    by rewrite ascii_file_stem. }
  right. unfold file_stem. rewrite before_last_absent by done. split.
  - rewrite !bytes_of_string_app. set_solver.
  - intros Heq%(f_equal bytes_of_string). rewrite bytes_of_string_app in Heq.
    destruct (bytes_of_string s) as [|b l] eqn:E.
    + by apply Hne, bytes_of_string_inj.
    + injection Heq as -> _. set_solver.
Qed.

Lemma blob_tmp_path s ext :
  with_extension (root ++ ["blobs"; s]) ext = root ++ ["blobs"; file_stem s +:+ "." +:+ ext].
Proof.
  unfold with_extension. change ["blobs"; s] with (["blobs"] ++ [s]).
  rewrite app_assoc, last_snoc, parent_snoc. by rewrite <-app_assoc.
Qed.

(** The calls on a file of the blob directory. *)
Lemma blob_create fs x :
  holds root (fs_now fs) m → blob_file x → node_at (fs_now fs) (root ++ ["blobs"]) = Some Dir →
  exec_call (Create (root ++ ["blobs"; x])) fs =
    (Ok tt, set_now fs (<[root ++ ["blobs"; x] := File [] false (fs_clock fs)]> (fs_now fs))).
Proof.
  intros Hh Hx Hd. cbn. unfold open_file.
  rewrite (walk_blob _ _ Hh) by (done || by apply blob_file_plain).
  rewrite node_at_ne by apply blob_path_ne.
  destruct (fs_now fs !! _) as [[|? ? ?]|] eqn:Hn; [|done..].
  by apply (holds_not_blob_dir _ _ Hh Hx) in Hn.
Qed.

Lemma blob_write fs x d s u b :
  holds root (fs_now fs) m → blob_file x →
  fs_now fs !! (root ++ ["blobs"; x]) = Some (File d s u) →
  exec_call (WriteAll (root ++ ["blobs"; x]) b) fs =
    (Ok tt, set_now fs (<[root ++ ["blobs"; x] := File (d ++ b) false (fs_clock fs)]> (fs_now fs))).
Proof. intros Hh Hx Hn. cbn. by rewrite (look_blob _ _ Hh), Hn by by apply blob_file_plain. Qed.

Lemma blob_sync fs x d s u :
  holds root (fs_now fs) m → blob_file x →
  fs_now fs !! (root ++ ["blobs"; x]) = Some (File d s u) →
  exec_call (SyncAll (root ++ ["blobs"; x])) fs =
    (Ok tt, set_now fs (<[root ++ ["blobs"; x] := File d true u]> (fs_now fs))).
Proof. intros Hh Hx Hn. cbn. by rewrite (look_blob _ _ Hh), Hn by by apply blob_file_plain. Qed.

Lemma blob_rename fs x y d s u :
  holds root (fs_now fs) m → blob_file x → blob_file y →
  node_at (fs_now fs) (root ++ ["blobs"]) = Some Dir →
  fs_now fs !! (root ++ ["blobs"; x]) = Some (File d s u) →
  exec_call (Rename (root ++ ["blobs"; x]) (root ++ ["blobs"; y])) fs =
    (Ok tt, set_now fs (<[root ++ ["blobs"; y] := File d s u]>
      (delete (root ++ ["blobs"; x]) (fs_now fs)))).
Proof.
  intros Hh Hx Hy Hd Hn. cbn. unfold rename_file.
  rewrite (look_blob _ _ Hh), Hn by by apply blob_file_plain.
  rewrite (walk_blob _ _ Hh) by (done || by apply blob_file_plain).
  rewrite node_at_ne by apply blob_path_ne.
  destruct (fs_now fs !! (root ++ ["blobs"; y])) as [[|? ? ?]|] eqn:Hn'; [|done..].
  by apply (holds_not_blob_dir _ _ Hh Hy) in Hn'.
Qed.

(** The flush at the end changes only what is on disk. *)
Definition flush_blobs (fs : FileSystem) : FileSystem :=
  set_disk fs (sync_entries (root ++ ["blobs"]) (fs_now fs) (fs_disk fs)).

Lemma blob_flush {A} fs x (f : unit → prog (Result A)) :
  holds root (fs_now fs) m → node_at (fs_now fs) (root ++ ["blobs"]) = Some Dir →
  exec (tryp (with_parent (root ++ ["blobs"; x])
    (λ d, fsync_dir d ≫= λ r, Ret (backend r))) f) fs =
  exec (f tt) (flush_blobs fs).
Proof.
  intros Hh Hd. rewrite exec_tryp, with_parent_ne, blob_parent by apply blob_path_ne.
  rewrite node_at_ne in Hd by (by destruct root).
  pose proof (look_entry _ _ _ (holds_closed _ _ _ Hh) Hd) as Hlook.
  rewrite exec_bind. unfold fsync_dir.
  rewrite (exec_raw_bind (Open (root ++ ["blobs"])) _ _ (Ok tt) fs) by (cbn; by rewrite Hlook).
  rewrite (exec_raw_bind (SyncAll (root ++ ["blobs"])) _ _ (Ok tt)
    (flush_blobs fs))
    by (cbn; by rewrite Hlook).
  done.
Qed.

Lemma blob_dir_insert t x n :
  node_at t (root ++ ["blobs"]) = Some Dir →
  node_at (<[root ++ ["blobs"; x] := n]> t) (root ++ ["blobs"]) = Some Dir.
Proof.
  intros Hd. rewrite node_at_insert by apply blob_path_ne. rewrite decide_False; [done|].
  by intros Heq%app_inv_head.
Qed.

Lemma blob_dir_delete t x :
  node_at t (root ++ ["blobs"]) = Some Dir →
  node_at (delete (root ++ ["blobs"; x]) t) (root ++ ["blobs"]) = Some Dir.
Proof.
  intros Hd. rewrite node_at_delete by apply blob_path_ne. rewrite decide_False; [done|].
  by intros Heq%app_inv_head.
Qed.

(** The temporary file written, synced and renamed. *)
Lemma exec_publish_blob {A} fs x y content (f : unit → prog (Result A)) :
  holds root (fs_now fs) m → blob_file x → blob_file y →
  node_at (fs_now fs) (root ++ ["blobs"]) = Some Dir →
  exec (sys (Create (root ++ ["blobs"; x])) ;?
        sys (WriteAll (root ++ ["blobs"; x]) content) ;?
        sys (SyncAll (root ++ ["blobs"; x])) ;?
        sys (Rename (root ++ ["blobs"; x]) (root ++ ["blobs"; y])) ;?
        with_parent (root ++ ["blobs"; y]) (λ d, fsync_dir d ≫= λ r, Ret (backend r)) ;?
        f tt) fs =
  exec (f tt) (flush_blobs (set_now fs (<[root ++ ["blobs"; y] := File content true (fs_clock fs)]>
    (delete (root ++ ["blobs"; x]) (fs_now fs))))).
Proof.
  intros Hh Hx Hy Hd. rewrite (exec_step _ _ _ _ _ (blob_create fs x Hh Hx Hd)).
  set (fs1 := set_now fs _).
  assert (holds root (fs_now fs1) m) as Hh1 by (by apply holds_blob_insert).
  apply (blob_dir_insert _ x (File [] false (fs_clock fs))) in Hd.
  rewrite (exec_step _ _ _ _ _ (blob_write fs1 x [] false (fs_clock fs) content Hh1 Hx
    (lookup_insert_eq _ _ _))).
  set (fs2 := set_now fs1 _).
  assert (holds root (fs_now fs2) m) as Hh2 by (by apply holds_blob_insert).
  apply (blob_dir_insert _ x (File content false (fs_clock fs))) in Hd.
  rewrite (exec_step _ _ _ _ _ (blob_sync fs2 x content false (fs_clock fs) Hh2 Hx
    (lookup_insert_eq _ _ _))).
  set (fs3 := set_now fs2 _).
  assert (holds root (fs_now fs3) m) as Hh3 by (by apply holds_blob_insert).
  apply (blob_dir_insert _ x (File content true (fs_clock fs))) in Hd.
  rewrite (exec_step _ _ _ _ _ (blob_rename fs3 x y content true (fs_clock fs) Hh3 Hx Hy Hd
    (lookup_insert_eq _ _ _))).
  rewrite blob_flush.
  - f_equal. f_equal. unfold fs3, fs2, fs1, set_now. simpl. by rewrite !delete_insert_eq.
  - simpl. apply holds_blob_insert; [by apply holds_blob_delete|done|by apply blob_dir_delete].
  - simpl. by apply blob_dir_insert, blob_dir_delete.
Qed.

Lemma blob_at_insert t x h d s u :
  blob_at root (<[root ++ ["blobs"; x] := File d s u]> t) h =
    if decide (hash_hex h = x)
    then if is_blob_hash x then Some (d, u) else None
    else blob_at root t h.
Proof.
  unfold blob_at. case_decide as Heq.
  - by rewrite Heq, lookup_insert_eq.
  - rewrite lookup_insert_ne; [done|]. intros Heq'%app_inv_head. by injection Heq'.
Qed.

Lemma blob_at_delete t x h :
  blob_at root (delete (root ++ ["blobs"; x]) t) h =
    if decide (hash_hex h = x) then None else blob_at root t h.
Proof.
  unfold blob_at. case_decide as Heq.
  - by rewrite Heq, lookup_delete_eq.
  - rewrite lookup_delete_ne; [done|]. intros Heq'%app_inv_head. by injection Heq'.
Qed.

Lemma blob_at_grown t t' h :
  grown t t' (root ++ ["blobs"]) → blob_at root t' h = blob_at root t h.
Proof.
  intros (_ & Hin & Hout). unfold blob_at.
  destruct (t !! (root ++ ["blobs"; hash_hex h])) as [n|] eqn:Hn; [by rewrite (Hin _ _ Hn)|].
  destruct (t' !! (root ++ ["blobs"; hash_hex h])) as [n|] eqn:Hn'; [|done].
  by apply Hout in Hn' as [?|(_ & -> & _)]; [congruence|].
Qed.

(** ** The contract of the blob store *)

Variable pid : N.
Variable s : FsStore.
Hypothesis Hroot : fss_root s = root.

Lemma fs_get_blob_spec h fs :
  holds root (fs_now fs) m → is_blob_hash (hash_hex h) = true →
  exec (fs_get_blob s h) fs = (Ok (fst <$> blob_at root (fs_now fs) h), fs).
Proof.
  intros Hh Hb. unfold fs_get_blob. rewrite Hroot, blob_path_hash by done.
  pose proof (look_blob _ _ Hh (blob_file_plain _ (blob_hash_file _ Hb))) as Hlook.
  pose proof (holds_not_blob_dir _ _ Hh (blob_hash_file _ Hb)) as Hnd.
  unfold blob_at. rewrite Hb.
  destruct (fs_now fs !! _) as [[|d sy u]|] eqn:Hn; [done|..];
    (erewrite exec_raw_bind; [|cbn; rewrite Hlook; reflexivity]); done.
Qed.

Lemma exec_try_exists h fs :
  holds root (fs_now fs) m → is_blob_hash (hash_hex h) = true →
  exec_call (TryExists (blob_path root h)) fs =
    (Ok (bool_decide (is_Some (blob_at root (fs_now fs) h))), fs).
Proof.
  intros Hh Hb. rewrite blob_path_hash by done.
  pose proof (look_blob _ _ Hh (blob_file_plain _ (blob_hash_file _ Hb))) as Hlook.
  pose proof (holds_not_blob_dir _ _ Hh (blob_hash_file _ Hb)) as Hnd.
  unfold blob_at. rewrite Hb. cbn. rewrite Hlook.
  by destruct (fs_now fs !! _) as [[|d sy u]|] eqn:Hn.
Qed.

Lemma fs_delete_blob_spec h fs :
  holds root (fs_now fs) m → is_blob_hash (hash_hex h) = true →
  ∃ fs', exec (fs_delete_blob s h) fs = (Ok tt, fs') ∧ holds root (fs_now fs') m ∧
    ∀ h', blob_at root (fs_now fs') h' =
      if decide (h' = h) then None else blob_at root (fs_now fs) h'.
Proof.
  intros Hh Hb. unfold fs_delete_blob. rewrite Hroot, blob_path_hash by done.
  pose proof (look_blob _ _ Hh (blob_file_plain _ (blob_hash_file _ Hb))) as Hlook.
  pose proof (holds_not_blob_dir _ _ Hh (blob_hash_file _ Hb)) as Hnd.
  destruct (fs_now fs !! (root ++ ["blobs"; hash_hex h])) as [[|d sy u]|] eqn:Hn; [done|..];
    (erewrite exec_raw_bind; [|cbn; rewrite Hlook; reflexivity]); (eexists; split; [reflexivity|]).
  - split; [by apply holds_blob_delete; [|apply blob_hash_file]|]. intros h'. simpl. rewrite blob_at_delete.
    apply decide_ext. by split; [intros ->%(inj hash_hex)|intros ->].
  - split; [done|]. intros h'. case_decide as Heq; [|done]. subst. unfold blob_at. by rewrite Hn.
Qed.

Lemma fs_put_blob_spec content fs :
  let h := ContentHash_of content in
  holds root (fs_now fs) m → is_blob_hash (hash_hex h) = true →
  ∃ fs', exec (fs_put_blob s pid content) fs = (Ok h, fs') ∧ holds root (fs_now fs') m ∧
    ∀ h', blob_at root (fs_now fs') h' =
      if decide (h' = h ∧ blob_at root (fs_now fs) h = None) then Some (content, fs_clock fs)
      else blob_at root (fs_now fs) h'.
Proof.
  intros h Hh Hb. unfold fs_put_blob. fold h. clearbody h. rewrite Hroot.
  rewrite (exec_step _ _ _ _ _ (exec_try_exists h fs Hh Hb)).
  case_bool_decide as Hex.
  { exists fs. split_and!; [done..|]. intros h'. rewrite decide_False; [done|].
    intros [_ Hn]. rewrite Hn in Hex. by destruct Hex. }
  apply eq_None_not_Some in Hex. rewrite blob_path_hash by done.
  rewrite (with_parent_ne (root ++ _)), blob_parent by apply blob_path_ne.
  destruct (mkdirs_spec (fs_now fs) [] (root ++ ["blobs"])) as (t & Hrun & Hg & Hd).
  { apply Hh. }
  { simpl app. apply not_elem_of_app. split; [exact (holds_plain _ _ _ Hh)|]. by rewrite list_elem_of_singleton. }
  { done. }
  { intros q r d sy u Heq. destruct (prefix_app_cases q root ["blobs"]) as [?|(c & Hc & [e He] & ->)].
    - by exists r.
    - by apply (holds_layout _ _ _ Hh).
    - simpl. rewrite node_at_ne by (by destruct root, c). destruct c as [|x c]; [done|].
      injection He as <- He. destruct c; [|done].
      by intros Hn%(proj1 (holds_layout _ _ _ Hh))%blobs_dir_layout. }
  rewrite (exec_step (CreateDirAll (root ++ ["blobs"])) _ fs tt (set_now fs t)) by (cbn; by rewrite Hrun).
  rewrite (exec_step FetchAdd _ _ (fs_nonce fs) (set_nonce (set_now fs t) ((fs_nonce fs + 1) `mod` 2 ^ 64)))
    by done.
  set (fs1 := set_nonce _ _). rewrite blob_tmp_path.
  pose proof (holds_blob_grown _ _ Hh Hg) as Hh1.
  set (x := file_stem (hash_hex h) +:+ _). assert (blob_file x) as Hx by (apply blob_tmp_name; [done|apply ascii_tmp_extension]).
  rewrite (exec_publish_blob fs1 x (hash_hex h) content (λ _, Ret (Ok h)) Hh1 Hx (blob_hash_file _ Hb) Hd).
  eexists. split; [reflexivity|]. simpl. split.
  - apply holds_blob_insert; [by apply holds_blob_delete|by apply blob_hash_file|by apply blob_dir_delete].
  - intros h'. rewrite blob_at_insert, Hb, blob_at_delete, (blob_at_grown (fs_now fs) t) by done.
    destruct (decide (h' = h)) as [->|Hne].
    + by rewrite !decide_True.
    + rewrite decide_False by (by intros ?%(inj hash_hex)). rewrite (decide_False (P := _ ∧ _)) by naive_solver.
      case_decide as Heq; [|done]. unfold blob_at.
      destruct (is_blob_hash (hash_hex h')) eqn:Hb'; [|by destruct (fs_now fs !! _) as [[]|]].
      exfalso. destruct Hx as [_ [Hx|[Hx _]]]; [|by apply (proj1 (proj2 (blob_hash_bytes _ Hb'))); rewrite Heq].
      unfold x in Hx. apply blob_hash_bytes in Hx as (_ & Hdot & _). apply Hdot.
      rewrite !bytes_of_string_app. set_solver.
Qed.

Definition blob_entries (t : tree) (x : string) : list BlobEntry :=
  match t !! (root ++ ["blobs"; x]) with
  | Some (File _ _ u) =>
      if is_blob_hash x then [BlobEntry_from_system_time (mkHash x) u] else []
  | _ => []
  end.

Lemma elem_of_blob_entries t x e :
  e ∈ blob_entries t x ↔
    hash_hex (be_hash e) = x ∧
    ∃ c u, blob_at root t (be_hash e) = Some (c, u) ∧ e = BlobEntry_from_system_time (be_hash e) u.
Proof.
  unfold blob_entries, blob_at. split.
  - destruct (t !! (root ++ ["blobs"; x])) as [[|d sy u]|] eqn:Hn; try (by intros ?%elem_of_nil).
    destruct (is_blob_hash x) eqn:Hx; [|by intros ?%elem_of_nil].
    intros ->%list_elem_of_singleton. simpl. split; [done|]. exists d, u. by rewrite Hn, Hx.
  - intros (<- & c & u & Hb & He). destruct (t !! _) as [[|d sy u']|]; try done.
    destruct (is_blob_hash (hash_hex (be_hash e))); [|done]. injection Hb as _ ->.
    rewrite He at 1. apply list_elem_of_singleton. by destruct (be_hash e).
Qed.

Lemma exec_blob_entry fs x (out : list BlobEntry) :
  holds root (fs_now fs) m → x ∈ children (fs_now fs) (root ++ ["blobs"]) →
  exec (let name := to_string_lossy x in
        if negb (is_blob_hash name) then Ret (Ok out)
        else
          raw (Modified ((root ++ ["blobs"]) ++ [x])) ≫= λ md,
          o ←? Ret (blob_entry_from_dir_entry name md);
          Ret (Ok (match o with Some e => out ++ [e] | None => out end))) fs =
    (Ok (out ++ blob_entries (fs_now fs) x), fs).
Proof.
  intros Hh [n Hn]%elem_of_children. rewrite <-app_assoc in Hn |- *. simpl app in *.
  pose proof (look_entry _ _ _ (holds_closed _ _ _ Hh) Hn) as Hlook.
  pose proof (proj1 (holds_layout _ _ _ Hh) _ _ Hn) as [Hlossy Hlay]. cbv zeta. rewrite Hlossy.
  unfold blob_entries. rewrite Hn. destruct (is_blob_hash x) eqn:Hx.
  - destruct n as [|d sy u]; [by destruct (Hlay eq_refl); congruence|]. simpl negb. cbv iota.
    rewrite (exec_raw_bind (Modified _) _ _ (Ok u) fs) by (cbn; by rewrite Hlook).
    unfold blob_entry_from_dir_entry. by rewrite Hx.
  - simpl. destruct n; by rewrite app_nil_r.
Qed.

Lemma fs_list_blobs_spec fs :
  holds root (fs_now fs) m →
  ∃ l, exec (fs_list_blobs s) fs = (Ok l, fs) ∧ NoDup l ∧
    ∀ e, e ∈ l ↔ ∃ c u, blob_at root (fs_now fs) (be_hash e) = Some (c, u) ∧
      e = BlobEntry_from_system_time (be_hash e) u.
Proof.
  intros Hh. exists (children (fs_now fs) (root ++ ["blobs"]) ≫= blob_entries (fs_now fs)).
  split_and!.
  - unfold fs_list_blobs. rewrite Hroot, blobs_dir_path.
    destruct (fs_now fs !! (root ++ ["blobs"])) as [n|] eqn:Hd.
    + assert (n = Dir) as -> by (by eapply blobs_dir_layout, (proj1 (holds_layout _ _ _ Hh))).
      rewrite (exec_raw_bind _ _ _ _ _ (exec_read_dir root fs m Hh _ Hd)).
      rewrite (exec_forp (blob_entries (fs_now fs))); [done|].
      intros x acc Hx. by apply exec_blob_entry.
    + assert (node_at (fs_now fs) (root ++ ["blobs"]) = None) as Hnone
        by (rewrite node_at_ne; [done|by destruct root]).
      rewrite (children_absent _ _ (holds_closed _ _ _ Hh) Hnone).
      assert (look (fs_now fs) (root ++ ["blobs"]) = Err ENOENT) as Hlook.
      { rewrite look_plain, Hnone; [done|apply Hh| |].
        - apply not_elem_of_app. split; [exact (holds_plain _ _ _ Hh)|].
          by rewrite list_elem_of_singleton.
        - intros q x r d sy u Heq. apply (proj2 (holds_layout _ _ _ Hh)).
          destruct r as [|z r _] using rev_ind.
          + apply app_inj_tail in Heq as [<- _]. done.
          + change (x :: r ++ [z]) with ((x :: r) ++ [z]) in Heq. rewrite app_assoc in Heq.
            apply app_inj_tail in Heq as [-> _]. by exists (x :: r). }
      by rewrite (exec_raw_bind _ _ _ (Err ENOENT) fs) by (cbn; by rewrite Hlook).
  - apply NoDup_bind; [| |apply NoDup_children].
    + intros x y e _ _ [<- _]%elem_of_blob_entries [<- _]%elem_of_blob_entries. done.
    + intros x _. unfold blob_entries. repeat case_match; (apply NoDup_singleton || constructor).
  - intros e. rewrite list_elem_of_bind. setoid_rewrite elem_of_blob_entries. split.
    + by intros (x & (_ & ?) & _).
    + intros (c & u & Hb & He). exists (hash_hex (be_hash e)). split; [by eauto|].
      apply elem_of_children. rewrite <-app_assoc. unfold blob_at in Hb.
      destruct (fs_now fs !! _) as [n|] eqn:Hn; [|done]. by exists n.
Qed.
End blobs.

(** ** The theorems *)

Section theorems.
Context `{Blake3} `{SerdeRecord}.
Variables (s : FsStore) (pid : N).
Notation root := (fss_root s).

(** Every blob is stored under the hash of its bytes. *)
Definition addressed (t : tree) : Prop :=
  ∀ h c u, blob_at root t h = Some (c, u) → ContentHash_of c = h.

(** Blobs on disk are content-addressed.  A stored blob can be read back by
    its hash, is listed, and stays until it is deleted; neither storing nor
    deleting touches another blob or any record. *)
Theorem fs_blobs_content_addressed (content : bytes) (m : records) (fs : FileSystem) :
  let h := ContentHash_of content in
  holds root (fs_now fs) m → addressed (fs_now fs) → is_blob_hash (hash_hex h) = true →
  ∃ fs1 c l fs2,
    exec (fs_put_blob s pid content) fs = (Ok h, fs1) ∧
    holds root (fs_now fs1) m ∧ addressed (fs_now fs1) ∧
    exec (fs_get_blob s h) fs1 = (Ok (Some c), fs1) ∧ ContentHash_of c = h ∧
    exec (fs_has_blob s h) fs1 = (Ok true, fs1) ∧
    exec (fs_list_blobs s) fs1 = (Ok l, fs1) ∧ h ∈ be_hash <$> l ∧
    exec (fs_delete_blob s h) fs1 = (Ok tt, fs2) ∧ holds root (fs_now fs2) m ∧
    exec (fs_get_blob s h) fs2 = (Ok None, fs2) ∧
    ∀ h', h' ≠ h → blob_at root (fs_now fs1) h' = blob_at root (fs_now fs) h' ∧
      blob_at root (fs_now fs2) h' = blob_at root (fs_now fs) h'.
Proof.
  intros h Hh Ha Hb.
  destruct (fs_put_blob_spec root m pid s eq_refl content fs Hh Hb) as (fs1 & Hput & Hh1 & Hat1).
  fold h in Hput, Hat1.
  assert (addressed (fs_now fs1)) as Ha1.
  { intros h' c u. rewrite Hat1. case_decide as Hd; [|apply Ha].
    destruct Hd as [-> _]. by intros [= <- _]. }
  assert (∃ c u, blob_at root (fs_now fs1) h = Some (c, u)) as (c & u & Hc).
  { rewrite Hat1. destruct (blob_at root (fs_now fs) h) as [[c u]|] eqn:E.
    - rewrite decide_False by naive_solver. by eauto.
    - rewrite decide_True by done. by eauto. }
  destruct (fs_list_blobs_spec root m s eq_refl fs1 Hh1) as (l & Hl & _ & Hin).
  destruct (fs_delete_blob_spec root m s eq_refl h fs1 Hh1 Hb) as (fs2 & Hdel & Hh2 & Hat2).
  exists fs1, c, l, fs2. split_and!; try done.
  - by rewrite (fs_get_blob_spec root m s eq_refl h fs1 Hh1 Hb), Hc.
  - by eapply Ha1.
  - unfold fs_has_blob. rewrite (exec_sys _ _ _ _ (exec_try_exists root m h fs1 Hh1 Hb)), Hc. done.
  - apply list_elem_of_fmap. exists (BlobEntry_from_system_time h u). split; [done|].
    apply Hin. simpl. eauto.
  - rewrite (fs_get_blob_spec root m s eq_refl h fs2 Hh2 Hb), Hat2. by rewrite decide_True.
  - intros h' Hne. rewrite Hat2, decide_False by done. rewrite Hat1, decide_False by naive_solver.
    done.
Qed.

(** ** Hashes that are paths *)

Lemma split_on_app c a b : c ∉ a → split_on c (a ++ c :: b) = a :: split_on c b.
Proof.
  induction a as [|x a IH]; simpl.
  - intros _. by rewrite decide_True.
  - rewrite not_elem_of_cons. intros [Hx Ha]. rewrite decide_False by done. by rewrite IH.
Qed.

Lemma walk_app t cur p q :
  walk t cur (p ++ q) = match walk t cur p with Ok c => walk t c q | Err e => Err e end.
Proof.
  revert cur. induction p as [|x p IH]; intros cur; simpl; [done|].
  by destruct (node_at t cur) as [[]|].
Qed.

Definition climbing_hash (k : RecordKey) : ContentHash := mkHash ("../" +:+ object_key k).

Lemma climbing_components k : key_ok k → components ("../" +:+ object_key k) = ".." :: key_path k.
Proof.
  intros [[_ Hn] [_ Hc] _ _]. unfold components, object_key, record_components.
  rewrite !bytes_of_string_app. change (bytes_of_string "../") with ([dot; dot] ++ [slash]).
  change (bytes_of_string "/") with [slash]. rewrite <-app_assoc. simpl app at 2.
  rewrite split_on_app by (rewrite !not_elem_of_cons; by split_and!; [..|apply not_elem_of_nil]).
  rewrite split_on_app by apply segment_inert. rewrite split_on_app by apply segment_inert.
  fold (file_name k). rewrite split_on_absent
    by (rewrite <-bytes_of_string_app; apply (file_name_no_slash k)).
  cbn [fmap list_fmap]. rewrite <-bytes_of_string_app, !string_of_bytes_of_string.
  change (string_of_bytes [dot; dot]) with "..".
  apply list_filter_id. intros x Hx.
  change (x ∈ [".."; segment (key_namespace k); segment (key_collection k); file_name k]) in Hx.
  rewrite !elem_of_cons in Hx.
  destruct Hx as [->|[->|[->|[->|[]%elem_of_nil]]]]; [done|split..].
  - by rewrite segment_empty.
  - apply segment_neq. by apply (list_elem_of_singleton _ dot).
  - by rewrite segment_empty.
  - apply segment_neq. by apply (list_elem_of_singleton _ dot).
  - apply (file_name_neq k). reflexivity.
  - apply (file_name_neq k). reflexivity.
Qed.

Lemma climbing_path k :
  key_ok k → blob_path root (climbing_hash k) = root ++ "blobs" :: ".." :: key_path k.
Proof.
  intros Hk. unfold blob_path. rewrite blobs_dir_path. unfold path_join. simpl hash_hex.
  rewrite climbing_components by done. by rewrite <-app_assoc.
Qed.

Lemma look_climbing k m t n :
  holds root t m → key_ok k → t !! (root ++ ["blobs"]) = Some Dir →
  t !! (root ++ key_path k) = Some n →
  look t (blob_path root (climbing_hash k)) = Ok (root ++ key_path k, n).
Proof.
  intros Hh Hk Hb Hn. rewrite climbing_path by done.
  pose proof (look_entry _ _ _ (holds_closed _ _ _ Hh) Hn) as Hrec.
  pose proof (look_entry _ _ _ (holds_closed _ _ _ Hh) Hb) as Hblobs.
  unfold look in Hrec, Hblobs |- *.
  change (root ++ "blobs" :: ".." :: key_path k) with (root ++ ["blobs"] ++ [".."] ++ key_path k).
  rewrite (app_assoc root), walk_app.
  destruct (walk t [] (root ++ ["blobs"])) as [q|]; [|done].
  destruct (node_at t q) eqn:Hq; [|done]. injection Hblobs as -> ->.
  simpl app. cbn [walk]. rewrite Hq. unfold go. rewrite decide_True by done.
  rewrite parent_snoc. rewrite walk_app in Hrec.
  assert (walk t [] root = Ok root) as Hroot; [|by rewrite Hroot in Hrec].
  destruct (decide (root = [])) as [->|Hne]; [done|].
  pose proof Hb as (_ & _ & Hd)%(holds_closed _ _ _ Hh). rewrite parent_snoc, node_at_ne in Hd by done.
  pose proof (look_entry _ _ _ (holds_closed _ _ _ Hh) Hd) as Hlook. unfold look in Hlook.
  destruct (walk t [] root) as [q|]; [|done]. destruct (node_at t q); by simplify_eq.
Qed.

(** A blob hash is a path.  [get_blob] and [delete_blob] join the hash they
    are given to the blob directory unchecked, so the hash [../ns/col/id.json]
    reads the file of the record with that key, and unlinks it. *)
Theorem blob_hash_reaches_records (k : RecordKey) (r : record) (m : records) (fs : FileSystem) :
  holds root (fs_now fs) m → fs_now fs !! (root ++ ["blobs"]) = Some Dir → m !! k = Some r →
  let h := climbing_hash k in
  (∃ b, exec (fs_get_blob s h) fs = (Ok (Some b), fs) ∧ from_slice b = Ok r) ∧
  (∃ fs', exec (fs_delete_blob s h) fs = (Ok tt, fs') ∧ holds root (fs_now fs') (delete k m)).
Proof.
  intros Hh Hb Hr h. destruct (holds_record _ _ _ Hh _ _ Hr) as (Hk & _ & d & sy & u & Hn & Hd).
  pose proof (look_climbing k m _ _ Hh Hk Hb Hn) as Hlook. fold h in Hlook. split.
  - exists d. split; [|done]. unfold fs_get_blob.
    by rewrite (exec_raw_bind _ _ _ (Ok d) fs) by (cbn; by rewrite Hlook).
  - eexists. unfold fs_delete_blob. split.
    + by rewrite (exec_raw_bind _ _ _ (Ok tt)
        (set_now fs (delete (root ++ key_path k) (fs_now fs)))) by (cbn; by rewrite Hlook).
    + by apply holds_remove.
Qed.

(** Empty components collapse.  A key with an empty namespace and one with an
    empty collection share a file: one reads what was stored under the other. *)
Theorem empty_components_collide (c i : string) (fs : FileSystem) :
  c ≠ "" →
  mkKey "" c i ≠ mkKey c "" i ∧
  exec (fs_get s (mkKey "" c i)) fs = exec (fs_get s (mkKey c "" i)) fs.
Proof.
  intros Hc. split; [intros [= <- _]; by apply Hc|]. unfold fs_get, read_record.
  assert (∀ p : path, path_join p "" = p) as Hnil.
  { intros p. unfold path_join. simpl. apply app_nil_r. }
  unfold record_path, record_components. cbn [key_namespace key_collection key_id].
  change (segment "") with "". by rewrite !Hnil.
Qed.
End theorems.

Section witnesses.
(** A hash of the right shape for every content. *)
#[local] Instance zero_hash : Blake3 := λ _, string_of_bytes (repeat "0"%byte 64).

Lemma fs_blobs_content_addressed_witness :
  ∃ fs1 c, exec (fs_get_blob sample_fs_store (ContentHash_of [])) fs1 = (Ok (Some c), fs1).
Proof.
  destruct (fs_blobs_content_addressed sample_fs_store 1 [] ∅ sample_fs) as (fs1 & c & l & fs2 & Hw).
  - apply sample_holds.
  - intros h c u. unfold blob_at, sample_fs, sample_tree. simpl fs_now.
    rewrite lookup_singleton_ne; [done|]. done.
  - vm_compute. reflexivity.
  - exists fs1, c. apply Hw.
Defined.

(** A store that wrote one record and one blob. *)
Definition sample_blob_fs : FileSystem :=
  (exec (fs_put_blob sample_fs_store 1 []) sample_fs).2.
Definition sample_put : StoreOp := OpPut (sample_record sample_key 0 "v0" []) None.
Definition sample_record_fs : FileSystem :=
  (call_op (fs_store sample_fs_store) sample_put (set_clock sample_blob_fs 1)).2.

Lemma sample_record_holds :
  holds sample_root (fs_now sample_record_fs) (call_op (reference 3 1) sample_put ∅).2.
Proof.
  destruct (fs_put_blob_spec sample_root ∅ 1 sample_fs_store eq_refl [] sample_fs sample_holds)
    as (fs' & Hput & Hh & _); [vm_compute; reflexivity|].
  pose proof (fs_step_refines sample_fs_store 1 sample_put ∅ sample_blob_fs) as Hstep.
  unfold sample_record_fs. unfold sample_blob_fs in *. rewrite Hput in *.
  specialize (Hstep Hh sample_key_ok).
  destruct (call_op (fs_store sample_fs_store) _ _), (call_op (reference _ _) _ _). apply Hstep.
Qed.

Lemma blob_hash_reaches_records_witness :
  (∃ r b, exec (fs_get_blob sample_fs_store (mkHash "../ns/col/id.json")) sample_record_fs =
    (Ok (Some b), sample_record_fs) ∧ from_slice b = Ok r).
Proof.
  destruct ((call_op (reference 3 1) sample_put ∅).2 !! sample_key) as [r|] eqn:Hr;
    [|vm_compute in Hr; discriminate].
  exists r. apply (blob_hash_reaches_records sample_fs_store sample_key r _ sample_record_fs
    sample_record_holds); [vm_compute; reflexivity|exact Hr].
Defined.

Lemma empty_components_collide_witness :
  exec (fs_get sample_fs_store (mkKey "" "a" "b")) sample_fs =
    exec (fs_get sample_fs_store (mkKey "a" "" "b")) sample_fs.
Proof. by apply (empty_components_collide sample_fs_store "a" "b" sample_fs). Defined.
End witnesses.
