(* ===== verification/Ancestry.v ===== *)
(** * Ancestry: a store that retains every version it commits

    Models [gonzalo-core]'s [ancestry.rs].  [AncestryStore inner ancestry]
    delegates to [inner] and, once a write commits, puts the body's bytes in
    the blob store [ancestry] under their content hash.  The decorator meets
    the [Store] contract whenever its parts meet theirs, and an invariant over
    every sequence of calls says that the body of each stored version can be
    fetched by its revision hash: what [sync_with_ancestry] needs of it. *)

From S2P Require Export Contract.

Section ancestry.
Context `{Blake3} {W : Type}.
Variables (inner : Store W) (ancestry : BlobStore W).

(** The shared tail of [put] and [put_raw]. *)
Definition retain (r : record) (outcome : PutResult) : M W CoreError PutResult :=
  match outcome with
  | Committed _ => _ ← bs_put_blob ancestry (body_bytes (rec_body r)); mret outcome
  | PutConflicted _ => mret outcome
  end.

Definition Ancestry_put (r : record) (expected : option Revision) :
    M W CoreError PutResult :=
  outcome ← st_put inner r expected; retain r outcome.

Definition Ancestry_put_raw (r : record) (expected : option Revision) :
    M W CoreError PutResult :=
  outcome ← st_put_raw inner r expected; retain r outcome.

(** [impl Store for AncestryStore<S, B>]: everything else is [inner]'s. *)
Definition ancestry_store : Store W :=
  mkStore (st_get inner) Ancestry_put (st_list inner) (st_delete_as inner)
    (st_get_raw inner) (st_list_raw inner) Ancestry_put_raw (st_purge inner).
End ancestry.

(** Every blob is filed under the hash of its content. *)
Definition addressed `{Blake3} (m : gmap ContentHash (bytes * Z)) : Prop :=
  ∀ h c t, m !! h = Some (c, t) → h = ContentHash_of c.

(** A record whose revision names its body: what [Record::create] and
    [Record::update] build. *)
Definition honest `{Blake3} (r : record) : Prop :=
  rev_hash (rec_revision r) = ContentHash_of (body_bytes (rec_body r)).

Definition honest_op `{Blake3} (op : StoreOp) : Prop :=
  match op with
  | OpPut r _ | OpPutRaw r _ => is_tombstone r = false → honest r
  | _ => True
  end.

Section ancestry_laws.
Context `{Blake3} {W F : Type}.
Context (inner : Store W) (ancestry : BlobStore W).
Context (contents : W → records) (blobs : W → gmap ContentHash (bytes * Z)).
Context (cap : nat) (outer : W → F).
Context `{!StoreLaws inner contents cap (λ w, (blobs w, outer w))}.
Context `{!BlobStoreLaws ancestry blobs (λ w, (contents w, outer w))}.

(** What the tail adds to the blobs. *)
Lemma retain_spec r out w : ∃ w',
  retain ancestry r out w = (Ok out, w') ∧ contents w' = contents w ∧ outer w' = outer w ∧
  blobs w ⊆ blobs w' ∧ (addressed (blobs w) → addressed (blobs w')) ∧
  (∀ v, out = Committed v → is_Some (blobs w' !! ContentHash_of (body_bytes (rec_body r)))).
Proof.
  destruct out as [v|c]; simpl; [|by exists w].
  destruct (law_put_blob (body_bytes (rec_body r)) w) as (w' & t & Hrun & Hf & Hb).
  injection Hf as Hc Ho. exists w'.
  rewrite (bind_ok _ _ _ _ _ Hrun). split_and!; [done..| | |];
    rewrite Hb; destruct (blobs w !! ContentHash_of (body_bytes (rec_body r))) eqn:E.
  - done.
  - by apply insert_subseteq.
  - done.
  - intros Ha h c' t' [[<- [= <- <-]]|[_ Hh]]%lookup_insert_Some; [done|by eapply Ha].
  - intros. by rewrite E.
  - intros. by rewrite lookup_insert_eq.
Qed.

(** The decorated write in terms of the plain one. *)
Lemma retained_write (put : record → option Revision → M W CoreError PutResult) r e w plan :
  (∃ res w', put r e w = (res, w') ∧ (blobs w', outer w') = (blobs w, outer w) ∧
     (res, contents w') = apply_put plan (rec_key r) (contents w)) →
  ∃ res w',
    (out ← put r e; retain ancestry r out) w = (res, w') ∧ outer w' = outer w ∧
    (res, contents w') = apply_put plan (rec_key r) (contents w) ∧
    blobs w ⊆ blobs w' ∧ (addressed (blobs w) → addressed (blobs w')) ∧
    (∀ v, res = Ok (Committed v) →
       is_Some (blobs w' !! ContentHash_of (body_bytes (rec_body r)))).
Proof.
  intros (res & w1 & Hrun & Hf & Heq). injection Hf as Hb Ho.
  destruct res as [out|err].
  - destruct (retain_spec r out w1) as (w2 & Hrun2 & Hc2 & Ho2 & Hsub & Hadd & Hin).
    exists (Ok out), w2. rewrite (bind_ok _ _ _ _ _ Hrun), Hc2, Ho2, <-Hb.
    split_and!; try done. intros v [= ->]. by apply (Hin v).
  - exists (Err err), w1. rewrite (bind_err _ _ _ _ _ Hrun), Hb. by split_and!.
Qed.

#[export] Instance ancestry_store_laws :
  StoreLaws (ancestry_store inner ancestry) contents cap outer.
Proof.
  split; cbn.
  - intros k w. destruct (law_get k w) as (w' & ? & ? & [= _ ?]). by exists w'.
  - intros k w. destruct (law_get_raw k w) as (w' & ? & ? & [= _ ?]). by exists w'.
  - intros p w Hk. destruct (law_list p w Hk) as (l & w' & ? & ? & [= _ ?] & ?). by exists l, w'.
  - intros p w Hk. destruct (law_list_raw p w Hk) as (l & w' & ? & ? & [= _ ?] & ?).
    by exists l, w'.
  - intros r e w. destruct (law_put r e w) as (now & Hlaw).
    destruct (retained_write _ r e w _ Hlaw) as (res & w' & ? & ? & ? & _).
    by exists now, res, w'.
  - intros r e w. destruct (law_put_raw r e w) as (now & Hlaw).
    destruct (retained_write _ r e w _ Hlaw) as (res & w' & ? & ? & ? & _).
    by exists now, res, w'.
  - intros k e a w. destruct (law_delete_as k e a w) as (now & res & w' & ? & [= _ ?] & ?).
    by exists now, res, w'.
  - intros k e w. destruct (law_purge k e w) as (res & w' & ? & [= _ ?] & ?). by exists res, w'.
Qed.

(** Each stored version's body is retained under its revision hash. *)
Definition retained (w : W) : Prop :=
  addressed (blobs w) ∧
  ∀ k r, contents w !! k = Some r → is_tombstone r = false →
    honest r ∧ is_Some (blobs w !! rev_hash (rec_revision r)).

Lemma retained_same w w' :
  contents w' = contents w → blobs w' = blobs w → retained w → retained w'.
Proof. unfold retained. by intros -> ->. Qed.

(** A write that retains the version it stores keeps the invariant. *)
Lemma retained_put w w' r plan res :
  (res, contents w') = apply_put plan (rec_key r) (contents w) →
  (∀ s, plan = PutWrite s → is_tombstone s = false → honest s ∧ rec_body s = rec_body r) →
  blobs w ⊆ blobs w' → (addressed (blobs w) → addressed (blobs w')) →
  (∀ v, res = Ok (Committed v) →
     is_Some (blobs w' !! ContentHash_of (body_bytes (rec_body r)))) →
  retained w → retained w'.
Proof.
  intros Heq Hs Hsub Hadd Hin [Ha Hr]. split; [auto|]. intros k x Hx Ht.
  assert (∀ k x, contents w !! k = Some x → is_tombstone x = false →
    honest x ∧ is_Some (blobs w' !! rev_hash (rec_revision x))) as Hold.
  { intros k' x' Hx' Ht'. destruct (Hr k' x' Hx' Ht') as [? [c Hc]].
    split; [done|]. exists c. by eapply lookup_weaken. }
  destruct plan as [s| | |]; injection Heq as -> Hc; rewrite Hc in Hx; [|by eapply Hold..].
  apply lookup_insert_Some in Hx as [[<- <-]|[_ Hx]]; [|by eapply Hold].
  destruct (Hs s eq_refl Ht) as [Hh Hb]. split; [done|].
  unfold honest in Hh. rewrite Hh, Hb. by eapply Hin.
Qed.

Lemma retained_tombstones w w' k t :
  contents w' = <[k := t]> (contents w) → is_tombstone t = true →
  blobs w' = blobs w → retained w → retained w'.
Proof.
  intros Hc Htomb Hb [Ha Hr]. split; [by rewrite Hb|]. intros k' x Hx Ht.
  rewrite Hc in Hx. rewrite Hb.
  apply lookup_insert_Some in Hx as [[<- <-]|[_ Hx]]; [congruence|by eapply Hr].
Qed.

Lemma run_op_retained op w :
  honest_op op → keyed (contents w) → retained w →
  retained (run_op (ancestry_store inner ancestry) op w) ∧
  blobs w ⊆ blobs (run_op (ancestry_store inner ancestry) op w).
Proof.
  intros Hop Hk Hw. destruct op as [k|r e|p|k e a|k|p|r e|k e]; cbn in *.
  - destruct (law_get (s:=inner) k w) as (w' & -> & Hc & [= Hb _]). simpl. rewrite Hb.
    split; [by eapply retained_same|done].
  - destruct (law_put (s:=inner) r e w) as (now & Hlaw).
    destruct (retained_write _ r e w _ Hlaw) as (res & w' & Hrun & _ & Heq & Hsub & Hadd & Hin).
    unfold Ancestry_put. rewrite Hrun. simpl.
    split; [|done]. eapply retained_put; [exact Heq| |done..].
    intros s [Hr Hl]%plan_put_lands _. specialize (Hop Hr). by destruct Hl; simplify_eq.
  - destruct (law_list (s:=inner) p w Hk) as (l & w' & -> & Hc & [= Hb _] & _). simpl. rewrite Hb.
    split; [by eapply retained_same|done].
  - destruct (law_delete_as (s:=inner) k e a w) as (now & res & w' & -> & [= Hb _] & Heq). simpl.
    rewrite Hb. split; [|done].
    destruct (plan_delete _ _ _ _ _) eqn:Hp; injection Heq as _ Hc;
      [|by eapply retained_same..].
    apply plan_delete_write in Hp as (c & _ & _ & _ & ->).
    by eapply retained_tombstones.
  - destruct (law_get_raw (s:=inner) k w) as (w' & -> & Hc & [= Hb _]). simpl. rewrite Hb.
    split; [by eapply retained_same|done].
  - destruct (law_list_raw (s:=inner) p w Hk) as (l & w' & -> & Hc & [= Hb _] & _). simpl. rewrite Hb.
    split; [by eapply retained_same|done].
  - destruct (law_put_raw (s:=inner) r e w) as (now & Hlaw).
    destruct (retained_write _ r e w _ Hlaw) as (res & w' & Hrun & _ & Heq & Hsub & Hadd & Hin).
    unfold Ancestry_put_raw. rewrite Hrun. simpl.
    split; [|done]. eapply retained_put; [exact Heq| |done..].
    intros s [_ ->]%plan_put_raw_write Ht. by specialize (Hop Ht).
  - destruct (law_purge (s:=inner) k e w) as (res & w' & -> & [= Hb _] & Heq). simpl. rewrite Hb.
    split; [|done]. destruct (plan_purge _ _); injection Heq as _ Hc;
      [|by eapply retained_same..].
    destruct Hw as [Ha Hr]. split; [by rewrite Hb|]. intros k' x Hx. rewrite Hc in Hx.
    apply lookup_delete_Some in Hx as [_ Hx]. rewrite Hb. by eapply Hr.
Qed.

(** An ancestry store retains what it commits.  Through any sequence of
    calls that write honest records, every live record's body can be fetched
    by its revision hash, every retained blob is filed under its content's
    hash, and nothing once retained is ever lost, so a version a peer still
    names as a common ancestor can be found. *)
Theorem ancestry_retains_versions (ops : list StoreOp) w :
  Forall honest_op ops → contents_ok cap (contents w) → retained w →
  let w' := run_ops (ancestry_store inner ancestry) ops w in
  retained w' ∧ blobs w ⊆ blobs w'.
Proof.
  unfold run_ops. intros Hops. revert w.
  induction Hops as [|op ops Hop Hops IH]; intros w Hok Hw; simpl; [done|].
  destruct (run_op_retained op w Hop (proj1 Hok) Hw) as [Hw1 Hsub].
  destruct (IH (run_op (ancestry_store inner ancestry) op w)) as [Hw2 Hsub2]; [|done|].
  - by eapply run_op_contents_ok; [apply ancestry_store_laws|].
  - split; [done|]. by etrans.
Qed.
End ancestry_laws.

(** ** Witnesses *)

Section witnesses.
#[local] Existing Instance sample_hash.

Lemma ancestry_retains_versions_witness :
  let r := sample_record sample_key 0 "v0" [] in
  let w' : sample_world := run_ops (ancestry_store store_a sample_blobs) [OpPut r None] (∅, ∅, ∅) in
  retained (λ w : sample_world, w.1.1) (λ w, w.2) w'.
Proof.
  intros r w'.
  refine (proj1 (ancestry_retains_versions store_a sample_blobs (λ w : sample_world, w.1.1)
    (λ w, w.2) 32 (λ w, w.1.2) (StoreLaws0 := store_a_laws (λ p, (p.2, p.1)))
    (BlobStoreLaws0 := sample_blobs_laws (λ p, (p.1, p.2))) [OpPut r None] (∅, ∅, ∅) _ _ _)).
  - repeat constructor.
  - apply contents_ok_empty.
  - split; by intros ??.
Defined.
End witnesses.
