(* ===== verification/Merge.v ===== *)
(** * Merge: reconciling two bodies by merge class

    Models [gonzalo-core]'s [merge.rs].  JSON text and values are
    [serde_json]'s: [SerdeJson] is the class of what the merge uses of it.
    The structured merge recurses through object fields; [merge_value_fuel]
    bounds the depth by the size of our side, and [merge_value_eq] shows that
    bound is never reached. *)

From S2P Require Export Paths Records Samples.

(** ** serde_json *)

Class SerdeJson := {
  Value : Type;
  Value_eq_dec :: EqDecision Value;
  Null : Value;
  Object : gmap string Value → Value;
  as_object : Value → option (gmap string Value);
  from_slice : bytes → option Value;
  to_vec : Value → option bytes;
  value_size : Value → nat;
  as_object_Object m : as_object (Object m) = Some m;
  as_object_Null : as_object Null = None;
  from_slice_to_vec v b : to_vec v = Some b → from_slice b = Some v;
  value_size_field v m k x :
    as_object v = Some m → m !! k = Some x → value_size x < value_size v
}.

Inductive MergeOutcome := Merged (b : Body) | NeedsResolution.

#[export] Instance MergeOutcome_eq_dec : EqDecision MergeOutcome.
Proof. solve_decision. Defined.

(** ** Structured bodies *)

Section structured.
Context `{SerdeJson}.
Implicit Types v : Value.

(** One object field; [None] inside is an absent key, [None] outside a
    conflict.  [merge] is the recursive call. *)
Definition merge_field (merge : Value → Value → Value → option Value)
    (base ours theirs : option Value) : option (option Value) :=
  if decide (ours = theirs) then Some ours
  else if decide (ours = base) then Some theirs
  else if decide (theirs = base) then Some ours
  else match ours, theirs with
       | Some o, Some t => Some <$> merge (default Null base) o t
       | _, _ => None
       end.

(** The loop over the keys, in order, stopping at the first conflict. *)
Fixpoint merge_keys (merge : Value → Value → Value → option Value)
    (base ours theirs : gmap string Value) (keys : list string)
    (out : gmap string Value) : option (gmap string Value) :=
  match keys with
  | [] => Some out
  | key :: keys' =>
      match merge_field merge (base !! key) (ours !! key) (theirs !! key) with
      | None => None
      | Some (Some v) => merge_keys merge base ours theirs keys' (<[key := v]> out)
      | Some None => merge_keys merge base ours theirs keys' out
      end
  end.

(** The three key lists chained, sorted and deduplicated. *)
Definition object_keys (base ours theirs : gmap string Value) : list string :=
  dedup (sort ((map_to_list base).*1 ++ (map_to_list ours).*1 ++ (map_to_list theirs).*1)).

Definition merge_value_step (merge : Value → Value → Value → option Value)
    (base ours theirs : Value) : option Value :=
  if decide (ours = theirs) then Some ours
  else if decide (ours = base) then Some theirs
  else if decide (theirs = base) then Some ours
  else match as_object base, as_object ours, as_object theirs with
       | Some base_obj, Some ours_obj, Some theirs_obj =>
           Object <$> merge_keys merge base_obj ours_obj theirs_obj
             (object_keys base_obj ours_obj theirs_obj) ∅
       | _, _, _ => None
       end.

Fixpoint merge_value_fuel (fuel : nat) (base ours theirs : Value) : option Value :=
  match fuel with
  | 0 => None
  | S fuel' => merge_value_step (merge_value_fuel fuel') base ours theirs
  end.

Definition merge_value (base ours theirs : Value) : option Value :=
  merge_value_fuel (S (value_size ours)) base ours theirs.

Definition structured_merge (base ours theirs : Body) : MergeOutcome :=
  match from_slice (body_bytes base), from_slice (body_bytes ours),
        from_slice (body_bytes theirs) with
  | Some base, Some ours, Some theirs =>
      match merge_value base ours theirs with
      | Some merged =>
          match to_vec merged with
          | Some bytes => Merged (Inline bytes)
          | None => NeedsResolution
          end
      | None => NeedsResolution
      end
  | _, _, _ => NeedsResolution
  end.
End structured.

(** ** Append-only bodies *)

Definition newline : Byte.byte := Byte.x0a.

Definition strip_nl (line : bytes) : bytes :=
  match reverse line with
  | b :: rest => if decide (b = newline) then reverse rest else line
  | [] => line
  end.

(** [start] is the line read so far: everything since the last [\n]. *)
Fixpoint split_lines_from (start rest : bytes) : list bytes :=
  match rest with
  | [] => match start with [] => [] | _ => [start] end
  | b :: rest' =>
      if decide (b = newline) then (start ++ [b]) :: split_lines_from [] rest'
      else split_lines_from (start ++ [b]) rest'
  end.

Definition split_lines (b : bytes) : list bytes := split_lines_from [] b.

(** [zip], [take_while] and [count]. *)
Fixpoint shared_lines (ours theirs : list bytes) : nat :=
  match ours, theirs with
  | o :: ours', t :: theirs' =>
      if decide (strip_nl o = strip_nl t) then S (shared_lines ours' theirs') else 0
  | _, _ => 0
  end.

Definition append_only_merge (_base ours theirs : Body) : MergeOutcome :=
  let ours_lines := split_lines (body_bytes ours) in
  let theirs_lines := split_lines (body_bytes theirs) in
  let shared := shared_lines ours_lines theirs_lines in
  let tail := drop shared theirs_lines in
  let out := body_bytes ours in
  let out :=
    if decide (tail ≠ []) then
      match last out with
      | Some b => if decide (b ≠ newline) then out ++ [newline] else out
      | None => out
      end
    else out in
  Merged (Inline (out ++ concat tail)).

(** ** The dispatcher *)

Definition merge `{SerdeJson} (class : MergeClass) (base ours theirs : Body) :
    MergeOutcome :=
  match class with
  | AppendOnly => append_only_merge base ours theirs
  | Structured => structured_merge base ours theirs
  | Opaque => NeedsResolution
  | Derived => Merged ours
  end.

(** ** The depth bound is enough *)

Section structured_facts.
Context `{SerdeJson}.

Lemma merge_field_ext f g base ours theirs :
  (∀ b o t, ours = Some o → theirs = Some t → f b o t = g b o t) →
  merge_field f base ours theirs = merge_field g base ours theirs.
Proof.
  intros Hfg. unfold merge_field. repeat case_decide; try done.
  destruct ours as [o|], theirs as [t|]; try done. by rewrite (Hfg _ o t).
Qed.

Lemma merge_keys_ext f g base ours theirs keys out :
  (∀ k b o t, ours !! k = Some o → theirs !! k = Some t → f b o t = g b o t) →
  merge_keys f base ours theirs keys out = merge_keys g base ours theirs keys out.
Proof.
  intros Hfg. revert out. induction keys as [|k keys IH]; intros out; simpl; [done|].
  rewrite (merge_field_ext f g) by eauto.
  destruct (merge_field g _ _ _) as [[v|]|]; auto.
Qed.

Lemma merge_value_fuel_enough n n' base ours theirs :
  value_size ours < n → value_size ours < n' →
  merge_value_fuel n base ours theirs = merge_value_fuel n' base ours theirs.
Proof.
  revert n' base ours theirs. induction n as [|n IH]; intros [|n'] base ours theirs ??;
    try lia; simpl. unfold merge_value_step. repeat case_decide; try done.
  destruct (as_object base) as [mb|], (as_object ours) as [mo|] eqn:Ho,
    (as_object theirs) as [mt|]; try done. f_equal.
  apply merge_keys_ext. intros k b o t Hk _.
  apply IH; pose proof (value_size_field _ _ _ _ Ho Hk); lia.
Qed.

(** The recursion equation of the source. *)
Lemma merge_value_eq base ours theirs :
  merge_value base ours theirs = merge_value_step merge_value base ours theirs.
Proof.
  unfold merge_value at 1. simpl. unfold merge_value_step. repeat case_decide; try done.
  destruct (as_object base) as [mb|], (as_object ours) as [mo|] eqn:Ho,
    (as_object theirs) as [mt|]; try done. f_equal.
  apply merge_keys_ext. intros k b o t Hk _.
  apply merge_value_fuel_enough; [|lia].
  by eapply value_size_field.
Qed.

Lemma elem_of_object_keys base ours theirs k :
  k ∈ object_keys base ours theirs ↔
    is_Some (base !! k) ∨ is_Some (ours !! k) ∨ is_Some (theirs !! k).
Proof.
  unfold object_keys. rewrite elem_of_dedup, elem_of_sort, !elem_of_app.
  assert (∀ m : gmap string Value, k ∈ (map_to_list m).*1 ↔ is_Some (m !! k)) as Hm.
  { intros m. rewrite list_elem_of_fmap. split.
    - intros ([k' v] & -> & Hin%elem_of_map_to_list). by exists v.
    - intros [v Hv%elem_of_map_to_list]. by exists (k, v). }
  by rewrite !Hm.
Qed.

Lemma NoDup_object_keys base ours theirs : NoDup (object_keys base ours theirs).
Proof. apply increasing_NoDup, dedup_increasing, sort_sorted. Qed.

(** What the loop builds: each key is decided on its own. *)
Lemma merge_keys_Some f base ours theirs keys out out' :
  NoDup keys → (∀ k, k ∈ keys → out !! k = None) →
  merge_keys f base ours theirs keys out = Some out' →
  ∀ k, (k ∈ keys → merge_field f (base !! k) (ours !! k) (theirs !! k) = Some (out' !! k)) ∧
    (k ∉ keys → out' !! k = out !! k).
Proof.
  revert out. induction keys as [|x keys IH]; intros out Hnd Hfresh; simpl.
  - intros [= ->] k. split; [set_solver|done].
  - apply NoDup_cons in Hnd as [Hx Hnd].
    destruct (merge_field f _ _ _) as [[v|]|] eqn:Hf; [| |done]; intros Hrun k.
    + assert (∀ k', k' ∈ keys → <[x:=v]> out !! k' = None) as Hfr.
      { intros k' Hk'. rewrite lookup_insert_ne by set_solver. apply Hfresh. set_solver. }
      destruct (IH _ Hnd Hfr Hrun k) as [IH1 IH2]. split.
      * intros [-> | Hk]%elem_of_cons; [|auto].
        by rewrite Hf, (IH2 Hx), lookup_insert_eq.
      * intros Hk. rewrite IH2 by set_solver. apply lookup_insert_ne. set_solver.
    + assert (∀ k', k' ∈ keys → out !! k' = None) as Hfr by set_solver.
      destruct (IH _ Hnd Hfr Hrun k) as [IH1 IH2]. split.
      * intros [-> | Hk]%elem_of_cons; [|auto].
        rewrite Hf, (IH2 Hx). f_equal. symmetry. apply Hfresh. set_solver.
      * intros Hk. by rewrite IH2 by set_solver.
Qed.

Lemma merge_keys_None f base ours theirs keys out :
  merge_keys f base ours theirs keys out = None ↔
    ∃ k, k ∈ keys ∧ merge_field f (base !! k) (ours !! k) (theirs !! k) = None.
Proof.
  revert out. induction keys as [|x keys IH]; intros out; simpl; [set_solver|].
  destruct (merge_field f _ _ _) as [[v|]|] eqn:Hf.
  - rewrite IH. split; [set_solver|]. intros (k & [->|Hk]%elem_of_cons & Hk'); [congruence|eauto].
  - rewrite IH. split; [set_solver|]. intros (k & [->|Hk]%elem_of_cons & Hk'); [congruence|eauto].
  - split; [|done]. intros _. exists x. set_solver.
Qed.

(** At an object, the merge is the field rule at every key. *)
Lemma merge_objects_fields f base ours theirs out :
  merge_keys f base ours theirs (object_keys base ours theirs) ∅ = Some out →
  ∀ k, merge_field f (base !! k) (ours !! k) (theirs !! k) = Some (out !! k).
Proof.
  intros Hrun k.
  destruct (merge_keys_Some _ _ _ _ _ _ _ (NoDup_object_keys _ _ _)
    ltac:(intros; apply lookup_empty) Hrun k) as [Hin Hout].
  destruct (decide (k ∈ object_keys base ours theirs)) as [Hk|Hk]; [auto|].
  rewrite (Hout Hk). rewrite elem_of_object_keys in Hk.
  destruct (base !! k) eqn:Eb, (ours !! k) eqn:Eo, (theirs !! k) eqn:Et;
    try (exfalso; apply Hk; rewrite ?Eb, ?Eo, ?Et; by eauto). done.
Qed.

Lemma merge_value_sym_n n base ours theirs :
  value_size ours < n → value_size theirs < n →
  merge_value_fuel n base ours theirs = merge_value_fuel n base theirs ours.
Proof.
  revert base ours theirs. induction n as [|n IH]; intros base ours theirs Ho Ht; [lia|].
  simpl. unfold merge_value_step.
  destruct (decide (ours = theirs)) as [->|Hne]; [by rewrite decide_True|].
  rewrite (decide_False (P := theirs = ours)) by congruence.
  destruct (decide (ours = base)) as [->|].
  { by rewrite (decide_False (P := theirs = base)) by congruence. }
  case_decide; [done|].
  destruct (as_object base) as [mb|], (as_object ours) as [mo|] eqn:Eo,
    (as_object theirs) as [mt|] eqn:Et; try done. f_equal.
  assert (object_keys mb mo mt = object_keys mb mt mo) as ->.
  { apply dedup_sort_ext. set_solver. }
  generalize (object_keys mb mt mo) (∅ : gmap string Value).
  induction l as [|k l IHl]; intros out; simpl; [done|].
  assert (merge_field (merge_value_fuel n) (mb !! k) (mo !! k) (mt !! k) =
    merge_field (merge_value_fuel n) (mb !! k) (mt !! k) (mo !! k)) as ->.
  { unfold merge_field.
    destruct (decide (mo !! k = mt !! k)) as [->|Hk]; [by rewrite decide_True|].
    rewrite (decide_False (P := mt !! k = mo !! k)) by congruence.
    destruct (decide (mo !! k = mb !! k)) as [Hb|].
    { by rewrite (decide_False (P := mt !! k = mb !! k)) by congruence. }
    case_decide; [done|].
    destruct (mo !! k) eqn:Hko, (mt !! k) eqn:Hkt; try done. f_equal. apply IH.
    - pose proof (value_size_field _ _ _ _ Eo Hko). lia.
    - pose proof (value_size_field _ _ _ _ Et Hkt). lia. }
  destruct (merge_field _ _ _ _) as [[v|]|]; auto.
Qed.

(** *** The three-way rule

    Stated apart from the routine: a value, or a field that may be absent, on which
    the sides agree stays as it is; what only one side changed is taken from that
    side; an object that both changed is merged field by field; and there is no
    other way to merge. *)

Inductive three_way : Value → Value → Value → Value → Prop :=
  | agreed b x : three_way b x x x
  | theirs_changed b t : three_way b b t t
  | ours_changed b o : three_way b o b o
  | objects_changed b o t mb mo mt out :
      o ≠ t → o ≠ b → t ≠ b →
      as_object b = Some mb → as_object o = Some mo → as_object t = Some mt →
      (∀ k, three_way_field (mb !! k) (mo !! k) (mt !! k) (out !! k)) →
      three_way b o t (Object out)
with three_way_field :
    option Value → option Value → option Value → option Value → Prop :=
  | field_agreed b x : three_way_field b x x x
  | field_theirs_changed b t : three_way_field b b t t
  | field_ours_changed b o : three_way_field b o b o
  | field_changed b o t v :
      o ≠ t → Some o ≠ b → Some t ≠ b → three_way (default Null b) o t v →
      three_way_field b (Some o) (Some t) (Some v).

(** A field is decided by the rule when its values are. *)
Lemma merge_field_three_way f b o t x :
  (∀ vo vt v, o = Some vo → t = Some vt →
     f (default Null b) vo vt = Some v ↔ three_way (default Null b) vo vt v) →
  merge_field f b o t = Some x ↔ three_way_field b o t x.
Proof.
  intros Hf. unfold merge_field. split.
  - repeat case_decide; [intros [= <-]; subst; constructor..|].
    destruct o as [vo|], t as [vt|]; try done.
    destruct (f (default Null b) vo vt) as [v|] eqn:Hv; [|done]. intros [= <-].
    apply (Hf vo vt v eq_refl eq_refl) in Hv. constructor; congruence.
  - intros Hx. revert Hf. destruct Hx as [b' y|b' u|b' u|b' vo vt v Hne Ho Ht Hv]; intros Hf.
    + by rewrite decide_True.
    + case_decide; [congruence|]. by rewrite decide_True.
    + repeat case_decide; congruence.
    + rewrite !decide_False by congruence. by rewrite (proj2 (Hf vo vt v eq_refl eq_refl) Hv).
Qed.

(** The fields of the object that the loop builds. *)
Lemma merge_keys_three_way f mb mo mt out :
  (∀ k b o t v, mo !! k = Some o → mt !! k = Some t →
     f b o t = Some v ↔ three_way b o t v) →
  merge_keys f mb mo mt (object_keys mb mo mt) ∅ = Some out ↔
  ∀ k, three_way_field (mb !! k) (mo !! k) (mt !! k) (out !! k).
Proof.
  intros Hf.
  assert (∀ k x, merge_field f (mb !! k) (mo !! k) (mt !! k) = Some x ↔
    three_way_field (mb !! k) (mo !! k) (mt !! k) x) as Hfield.
  { intros k x. apply merge_field_three_way. intros vo vt v Ho Ht. by apply (Hf k). }
  split; [intros Hrun k; by apply Hfield, merge_objects_fields|]. intros Hout.
  destruct (merge_keys f mb mo mt (object_keys mb mo mt) ∅) as [out'|] eqn:Hrun.
  - f_equal. apply map_eq. intros k.
    pose proof (merge_objects_fields _ _ _ _ _ Hrun k) as Hk.
    rewrite (proj2 (Hfield k _) (Hout k)) in Hk. congruence.
  - apply merge_keys_None in Hrun as (k & _ & Hk).
    by rewrite (proj2 (Hfield k _) (Hout k)) in Hk.
Qed.

Lemma merge_value_three_way b o t v : merge_value b o t = Some v ↔ three_way b o t v.
Proof.
  remember (value_size o) as n eqn:Hn. revert b o t v Hn.
  induction (lt_wf n) as [n _ IH]. intros b o t v ->.
  rewrite merge_value_eq. unfold merge_value_step.
  assert (∀ mb mo mt out, as_object o = Some mo → as_object t = Some mt →
    merge_keys merge_value mb mo mt (object_keys mb mo mt) ∅ = Some out ↔
    ∀ k, three_way_field (mb !! k) (mo !! k) (mt !! k) (out !! k)) as Hkeys.
  { intros mb mo mt out Ho _. apply merge_keys_three_way. intros k b' o' t' v' Hk _.
    eapply IH; [|reflexivity]. by eapply value_size_field. }
  split.
  - repeat case_decide; [intros [= <-]; subst; constructor..|].
    destruct (as_object b) as [mb|] eqn:Hb, (as_object o) as [mo|] eqn:Ho,
      (as_object t) as [mt|] eqn:Ht; try done.
    destruct (merge_keys _ _ _ _ _ _) as [out|] eqn:Hrun; [|done]. intros [= <-].
    eapply objects_changed; [done..|]. by apply (Hkeys mb mo mt out eq_refl eq_refl).
  - intros Hm. clear IH. revert Hkeys.
    destruct Hm as [b' x|b' u|b' u|b' o' t' mb mo mt out Hne Hob Htb Hb Ho Ht Hout]; intros Hkeys.
    + by rewrite decide_True.
    + case_decide; [congruence|]. by rewrite decide_True.
    + repeat case_decide; congruence.
    + rewrite !decide_False, Hb, Ho, Ht by done.
      by rewrite (proj2 (Hkeys mb mo mt out Ho Ht) Hout).
Qed.

(** A field that both sides changed and that is not three objects has no merge. *)
Lemma three_way_conflict b o t mb mo mt k v :
  as_object b = Some mb → as_object o = Some mo → as_object t = Some mt →
  mo !! k ≠ mb !! k → mt !! k ≠ mb !! k → mo !! k ≠ mt !! k →
  mo !! k = None ∨ mt !! k = None ∨
    (as_object (default Null (mb !! k)) = None ∧
     mo !! k ≠ Some (default Null (mb !! k)) ∧ mt !! k ≠ Some (default Null (mb !! k))) →
  ¬ three_way b o t v.
Proof.
  intros Hb Ho Ht Hob Htb Hot Hclash Hm.
  destruct Hm as [|b'|b'|b' o' t' mb' mo' mt' out _ _ _ Hb' Ho' Ht' Hout]; simplify_eq.
  specialize (Hout k). inversion Hout as [| | |b'' vo vt v' ? ? ? Hv Eb Eo Et]; simplify_eq; try congruence.
  destruct Hclash as [Hc|[Hc|(Hc & Ho0 & Ht0)]]; [congruence..|].
  rewrite <-Eo in Ho0. rewrite <-Et in Ht0. inversion Hv; congruence.
Qed.
End structured_facts.

(** ** Lines *)

(** The lines of a body, compared the way the merge compares them. *)
Definition line_contents (b : bytes) : list bytes := strip_nl <$> split_lines b.

Lemma concat_split_lines_from start rest :
  concat (split_lines_from start rest) = start ++ rest.
Proof.
  revert start. induction rest as [|b rest IH]; intros start; simpl.
  - destruct start; simpl; by rewrite ?app_nil_r.
  - case_decide; simpl; rewrite IH; by rewrite <-?app_assoc.
Qed.

Lemma concat_split_lines b : concat (split_lines b) = b.
Proof. apply (concat_split_lines_from []). Qed.

Lemma split_lines_from_newline start x y :
  split_lines_from start (x ++ newline :: y) =
    split_lines_from start (x ++ [newline]) ++ split_lines y.
Proof.
  revert start. induction x as [|b x IH]; intros start; simpl.
  - done.
  - case_decide; simpl; by rewrite IH.
Qed.

Lemma strip_nl_snoc l : strip_nl (l ++ [newline]) = l.
Proof. unfold strip_nl. rewrite reverse_snoc, decide_True by done. apply reverse_involutive. Qed.

Lemma strip_nl_id l : newline ∉ l → strip_nl l = l.
Proof.
  intros Hl. unfold strip_nl. destruct (reverse l) as [|b rest] eqn:E; [done|].
  case_decide; [|done]. exfalso. apply Hl. rewrite <-(reverse_involutive l), E, elem_of_reverse.
  set_solver.
Qed.

(** Terminating a final line does not change its content. *)
Lemma split_lines_from_terminate start x b :
  newline ∉ start → last (start ++ x) = Some b → b ≠ newline →
  strip_nl <$> split_lines_from start (x ++ [newline]) =
    strip_nl <$> split_lines_from start x.
Proof.
  revert start. induction x as [|c x IH]; intros start Hs Hlast Hb; simpl.
  - rewrite app_nil_r in Hlast.
    destruct start as [|d start]; [done|]. simpl. f_equal.
    etrans; [apply (strip_nl_snoc (d :: start))|]. symmetry. by apply strip_nl_id.
  - case_decide as Hc; simpl.
    + f_equal. apply IH; [set_solver| |done].
      destruct x as [|d x]; simpl.
      * rewrite last_snoc in Hlast. simplify_eq.
      * by rewrite last_app_cons, last_cons_cons in Hlast.
    + apply IH; [set_solver|by rewrite <-app_assoc|done].
Qed.

Lemma split_lines_from_tail start rest l ls :
  split_lines_from start rest = l :: ls → ∃ y, ls = split_lines y.
Proof.
  revert start. induction rest as [|b rest IH]; intros start; simpl.
  - destruct start; [done|]. intros [= _ <-]. by exists [].
  - case_decide; [|by apply IH]. intros [= _ <-]. by exists rest.
Qed.

Lemma split_lines_drop n b : split_lines (concat (drop n (split_lines b))) = drop n (split_lines b).
Proof.
  assert (∃ y, drop n (split_lines b) = split_lines y) as [y ->].
  { revert b. induction n as [|n IH]; intros b; [by exists b|].
    destruct (split_lines b) as [|l ls] eqn:E; [by exists []|].
    destruct (split_lines_from_tail _ _ _ _ E) as [y ->]. apply IH. }
  by rewrite concat_split_lines.
Qed.

Lemma shared_lines_app l m : shared_lines l (l ++ m) = length l.
Proof. induction l as [|x l IH]; simpl; [done|]. by rewrite decide_True, IH. Qed.

Lemma shared_lines_take ours theirs :
  strip_nl <$> take (shared_lines ours theirs) theirs =
  strip_nl <$> take (shared_lines ours theirs) ours.
Proof.
  revert theirs. induction ours as [|o ours IH]; intros [|t theirs]; try done. simpl.
  case_decide as Heq; [|done]. simpl. by rewrite Heq, IH.
Qed.

(** [ours], its last line terminated if need be, then the tail. *)
Lemma append_line_contents ours theirs n :
  let tail := drop n (split_lines theirs) in
  let out := if decide (tail ≠ []) then
               match last ours with
               | Some b => if decide (b ≠ newline) then ours ++ [newline] else ours
               | None => ours
               end
             else ours in
  line_contents (out ++ concat tail) = line_contents ours ++ (strip_nl <$> tail).
Proof.
  intros tail out. unfold line_contents.
  assert (split_lines (concat tail) = tail) as Htail by apply split_lines_drop.
  unfold out. destruct (decide (tail ≠ [])) as [Hne|Hne].
  2: { apply dec_stable in Hne. rewrite Hne. simpl. by rewrite !app_nil_r. }
  destruct (last ours) as [b|] eqn:Hlast.
  - assert (split_lines (ours ++ [newline] ++ concat tail) =
      split_lines (ours ++ [newline]) ++ tail) as Hnl.
    { rewrite <-Htail at 2. apply split_lines_from_newline. }
    case_decide as Hb.
    + rewrite <-app_assoc, Hnl, fmap_app. f_equal.
      apply (split_lines_from_terminate [] ours b); [apply not_elem_of_nil|done..].
    + subst b. apply last_Some in Hlast as [x ->].
      rewrite <-fmap_app, <-app_assoc. f_equal. simpl app.
      unfold split_lines at 1. rewrite split_lines_from_newline. by rewrite Htail.
  - apply last_None in Hlast as ->. simpl. by rewrite Htail.
Qed.

(** The append-only merge loses nothing.  Our bytes come first, verbatim;
    the lines of the result are our lines followed by theirs past the shared
    prefix, so every line of theirs is there in order (blank and repeated lines
    included); and when theirs only appended to a finished body of ours the
    result is theirs. *)
Theorem append_only_loses_nothing (base ours theirs : Body) :
  ∃ out, append_only_merge base ours theirs = Merged (Inline out) ∧
    (∃ more, out = body_bytes ours ++ more) ∧
    line_contents out = line_contents (body_bytes ours) ++
      drop (shared_lines (split_lines (body_bytes ours)) (split_lines (body_bytes theirs)))
        (line_contents (body_bytes theirs)) ∧
    line_contents (body_bytes theirs) `sublist_of` line_contents out ∧
    (∀ more, body_bytes theirs = body_bytes ours ++ more →
       last (body_bytes ours) = None ∨ last (body_bytes ours) = Some newline →
       out = body_bytes theirs).
Proof.
  unfold append_only_merge. generalize (body_bytes ours) (body_bytes theirs). clear.
  intros ours theirs. set (n := shared_lines (split_lines ours) (split_lines theirs)).
  eexists. split; [reflexivity|].
  pose proof (append_line_contents ours theirs n) as Hlc. cbv zeta in Hlc.
  assert (strip_nl <$> drop n (split_lines theirs) = drop n (line_contents theirs)) as Hdrop
    by apply fmap_drop.
  rewrite Hdrop in Hlc. split_and!.
  - case_decide; [destruct (last ours); [case_decide|]|];
      rewrite <-?app_assoc; eexists; reflexivity.
  - exact Hlc.
  - rewrite Hlc. rewrite <-(take_drop n (line_contents theirs)) at 1.
    apply sublist_app; [|done]. unfold line_contents at 1.
    rewrite <-fmap_take. unfold n at 1. rewrite shared_lines_take.
    rewrite fmap_take. apply sublist_take.
  - intros more -> Hlast.
    assert (split_lines (ours ++ more) = split_lines ours ++ split_lines more) as Hs.
    { destruct Hlast as [->%last_None | [x ->]%last_Some]; [done|].
      rewrite <-app_assoc. apply split_lines_from_newline. }
    unfold n. rewrite Hs, shared_lines_app, drop_app_length, concat_split_lines.
    destruct Hlast as [-> | ->]; repeat case_decide; naive_solver.
Qed.

(** ** The structured merge on bodies *)

Section structured_bodies.
Context `{SerdeJson}.

Lemma merge_value_comm (base ours theirs : Value) :
  merge_value base ours theirs = merge_value base theirs ours.
Proof.
  unfold merge_value.
  set (n := S (max (value_size ours) (value_size theirs))).
  rewrite (merge_value_fuel_enough _ n), (merge_value_fuel_enough (S (value_size theirs)) n)
    by lia.
  apply merge_value_sym_n; lia.
Qed.

(** The structured merge of bodies has no favourite and never guesses.
    Swapping the sides gives the same body or the same refusal; a merged body
    parses back to the merged value; anything that is not JSON on any of the
    three sides, and any conflict, is left to the caller; and a side that did
    not change yields to the other. *)
Theorem structured_merge_fair (base ours theirs : Body) :
  structured_merge base ours theirs = structured_merge base theirs ours ∧
  match structured_merge base ours theirs with
  | Merged body => ∃ b o t v,
      from_slice (body_bytes base) = Some b ∧ from_slice (body_bytes ours) = Some o ∧
      from_slice (body_bytes theirs) = Some t ∧ merge_value b o t = Some v ∧
      from_slice (body_bytes body) = Some v ∧
      (o = b → v = t) ∧ (t = b → v = o) ∧ (o = t → v = o)
  | NeedsResolution => ∀ b o t v,
      from_slice (body_bytes base) = Some b → from_slice (body_bytes ours) = Some o →
      from_slice (body_bytes theirs) = Some t → merge_value b o t = Some v →
      to_vec v = None
  end.
Proof.
  unfold structured_merge. split.
  - destruct (from_slice (body_bytes base)) as [b|]; [|done].
    destruct (from_slice (body_bytes ours)) as [o|],
      (from_slice (body_bytes theirs)) as [t|]; try done.
    by rewrite merge_value_comm.
  - destruct (from_slice (body_bytes base)) as [b|]; [|done].
    destruct (from_slice (body_bytes ours)) as [o|]; [|done].
    destruct (from_slice (body_bytes theirs)) as [t|]; [|done].
    destruct (merge_value b o t) as [v|] eqn:Hm; [|intros; congruence].
    destruct (to_vec v) as [bytes|] eqn:Hv; [|intros; congruence].
    exists b, o, t, v. split_and!; try done; [by apply from_slice_to_vec| | |];
      intros ->; rewrite merge_value_eq in Hm; unfold merge_value_step in Hm;
      repeat case_decide; congruence.
Qed.

(** C34: the structured merge is the three-way rule.  It answers a body exactly when
    the three bodies are JSON, their values have a merge by the rule, and that can be
    written; the body is then the merge written out.  The rule, stated on its own:
    agreement stays, a change of one side is taken (a deletion included), objects
    that both changed are merged field by field.  In particular a field that both
    sides changed differently, when one of them deleted it or the base has no object
    there (an absent value counting as null), refuses the whole merge: neither side is
    kept. *)
Theorem structured_merge_fieldwise (base ours theirs : Body) :
  (∀ body, structured_merge base ours theirs = Merged body ↔ ∃ b o t v bytes,
     from_slice (body_bytes base) = Some b ∧ from_slice (body_bytes ours) = Some o ∧
     from_slice (body_bytes theirs) = Some t ∧ three_way b o t v ∧
     to_vec v = Some bytes ∧ body = Inline bytes) ∧
  (∀ b o t mb mo mt k,
     from_slice (body_bytes base) = Some b → from_slice (body_bytes ours) = Some o →
     from_slice (body_bytes theirs) = Some t →
     as_object b = Some mb → as_object o = Some mo → as_object t = Some mt →
     mo !! k ≠ mb !! k → mt !! k ≠ mb !! k → mo !! k ≠ mt !! k →
     mo !! k = None ∨ mt !! k = None ∨
       (as_object (default Null (mb !! k)) = None ∧
        mo !! k ≠ Some (default Null (mb !! k)) ∧ mt !! k ≠ Some (default Null (mb !! k))) →
     structured_merge base ours theirs = NeedsResolution).
Proof.
  unfold structured_merge. split.
  - intros body. destruct (from_slice (body_bytes base)) as [b|]; [|naive_solver].
    destruct (from_slice (body_bytes ours)) as [o|]; [|naive_solver].
    destruct (from_slice (body_bytes theirs)) as [t|]; [|naive_solver].
    destruct (merge_value b o t) as [v|] eqn:Hm.
    + apply merge_value_three_way in Hm as Hv. destruct (to_vec v) as [bytes|] eqn:Hb.
      * split; [intros [= <-]; by exists b, o, t, v, bytes|].
        intros (b' & o' & t' & v' & bs & [= <-] & [= <-] & [= <-] & Hv'%merge_value_three_way & Hb' & ->).
        congruence.
      * split; [done|].
        intros (b' & o' & t' & v' & bs & [= <-] & [= <-] & [= <-] & Hv'%merge_value_three_way & Hb' & ->).
        congruence.
    + split; [done|].
      intros (b' & o' & t' & v' & bs & [= <-] & [= <-] & [= <-] & Hv'%merge_value_three_way & _).
      congruence.
  - intros b o t mb mo mt k -> -> -> Hb Ho Ht Hob Htb Hot Hclash.
    destruct (merge_value b o t) as [v|] eqn:Hm; [|done].
    apply merge_value_three_way in Hm. exfalso.
    by eapply (three_way_conflict b o t mb mo mt k v).
Qed.
End structured_bodies.

(** ** A JSON of one's own

    A datatype that meets the [SerdeJson] laws, so the theorems above are not
    vacuous.  Its text form covers scalars and flat objects. *)

Module ToyJson.
Unset Elimination Schemes.
Inductive json := JNull | JStr (s : string) | JObj (m : gmap string json).
Set Elimination Schemes.

Fixpoint json_size (v : json) : nat :=
  match v with
  | JNull | JStr _ => 1
  | JObj m => S (map_fold (λ _ x n, json_size x + n) 0 m)
  end.

Fixpoint json_eq_dec (v1 v2 : json) {struct v1} : Decision (v1 = v2).
Proof.
  refine (match v1, v2 with
  | JNull, JNull => left eq_refl
  | JStr s1, JStr s2 => cast_if (decide (s1 = s2))
  | JObj m1, JObj m2 =>
      cast_if (@decide (m1 = m2) (@gmap_eq_dec _ _ _ _ (λ x y, json_eq_dec x y) m1 m2))
  | _, _ => right _
  end); clear json_eq_dec; abstract congruence.
Defined.

#[export] Instance json_eq_decision : EqDecision json := json_eq_dec.

Definition json_object (v : json) : option (gmap string json) :=
  match v with JObj m => Some m | _ => None end.

Lemma json_size_field v m k x :
  json_object v = Some m → m !! k = Some x → json_size x < json_size v.
Proof.
  destruct v as [| |m']; [done..|]. intros [= ->] Hk. simpl.
  rewrite (map_fold_delete_L (λ _ x n, json_size x + n) 0 k x m); [lia| |done].
  intros; lia.
Qed.

(** A flat object as a map of strings. *)
Definition flat (m : gmap string json) : gmap string string :=
  omap (λ v, match v with JStr s => Some s | _ => None end) m.

Definition json_text (v : json) : option bytes :=
  match v with
  | JNull => Some (bytes_of_string "n")
  | JStr s => Some (Byte.x73 :: bytes_of_string s)
  | JObj m => if decide (JStr <$> flat m = m)
              then Some (Byte.x6f :: to_bits (flat m)) else None
  end.

Definition json_parse (b : bytes) : option json :=
  match b with
  | Byte.x6e :: [] => Some JNull
  | Byte.x73 :: s => Some (JStr (string_of_bytes s))
  | Byte.x6f :: b => JObj ∘ fmap JStr <$> from_bits b
  | _ => None
  end.

Lemma json_parse_text v b : json_text v = Some b → json_parse b = Some v.
Proof.
  destruct v as [|s|m]; simpl.
  - by intros [= <-].
  - intros [= <-]. change (json_parse _) with
      (Some (JStr (string_of_bytes (bytes_of_string s)))).
    by rewrite string_of_bytes_of_string.
  - destruct (decide (JStr <$> flat m = m)) as [Hm|]; [|done]. intros [= <-].
    change (json_parse _) with (JObj ∘ fmap JStr <$> from_bits (A := gmap string string)
      (to_bits (flat m))).
    rewrite from_bits_to_bits. simpl. by rewrite Hm.
Qed.

Definition toy : SerdeJson := {|
  Value := json; Value_eq_dec := json_eq_dec; Null := JNull; Object := JObj;
  as_object := json_object; from_slice := json_parse; to_vec := json_text;
  value_size := json_size; as_object_Object _ := eq_refl; as_object_Null := eq_refl;
  from_slice_to_vec := json_parse_text; value_size_field := json_size_field
|}.
End ToyJson.

(** Edits of different fields are both kept; different edits of one field, or an edit
    against a deletion, are refused. *)
Definition toy_body (m : gmap string ToyJson.json) : Body :=
  Inline (default [] (to_vec (SerdeJson := ToyJson.toy) (ToyJson.JObj m))).

Lemma structured_merge_fieldwise_witness :
  let base : gmap string ToyJson.json := {[ "a" := ToyJson.JStr "0"; "b" := ToyJson.JStr "0" ]} in
  let a1 := <["a" := ToyJson.JStr "1"]> base in
  let b2 := <["b" := ToyJson.JStr "2"]> base in
  let a3 := <["a" := ToyJson.JStr "3"]> base in
  let merge := structured_merge (H := ToyJson.toy) in
  merge (toy_body base) (toy_body a1) (toy_body b2) =
    Merged (toy_body (<["a" := ToyJson.JStr "1"]> b2)) ∧
  merge (toy_body base) (toy_body a1) (toy_body a3) = NeedsResolution ∧
  merge (toy_body base) (toy_body a1) (toy_body (delete "a" base)) = NeedsResolution.
Proof.
  intros base a1 b2 a3 merge. split_and!.
  - apply (structured_merge_fieldwise (H := ToyJson.toy)).
    exists (ToyJson.JObj base), (ToyJson.JObj a1), (ToyJson.JObj b2),
      (ToyJson.JObj (<["a" := ToyJson.JStr "1"]> b2)). eexists.
    split_and!; [vm_compute; reflexivity..| |vm_compute; reflexivity|vm_compute; reflexivity].
    eapply (objects_changed (H := ToyJson.toy)); [by vm_compute..| | | |];
      [reflexivity..|]. intros k.
    destruct (decide (k = "a")) as [->|Ha]; [apply field_ours_changed|].
    destruct (decide (k = "b")) as [->|Hb]; [apply field_theirs_changed|].
    unfold a1, b2. rewrite !lookup_insert_ne by done. apply field_agreed.
  - eapply (proj2 (structured_merge_fieldwise (H := ToyJson.toy) (toy_body base) (toy_body a1)
      (toy_body a3)) _ _ _ base a1 a3 "a"); [reflexivity..|by vm_compute|by vm_compute|by vm_compute|].
    right; right. by vm_compute.
  - eapply (proj2 (structured_merge_fieldwise (H := ToyJson.toy) (toy_body base) (toy_body a1)
      (toy_body (delete "a" base))) _ _ _ base a1 (delete "a" base) "a");
      [reflexivity..|by vm_compute|by vm_compute|by vm_compute|].
    right; left. by vm_compute.
Defined.
