(* ===== verification/Tickets.v ===== *)
(** * Tickets: work items, their keys, state mapping and ingest

    Models [gonzalo-domain]'s [ticket.rs] and [codec.rs], and [gonzalo-ticket]'s
    [lib.rs] (record keys), [source.rs] (the provider boundary), [mapping.rs]
    and [ingest.rs].  The ingest loop follows the source's cursor, so it runs
    on fuel: [ingest_is_upserts] shows that whenever the source's pages come to
    an end, as many rounds as there are pages are enough, and that the run is
    the upserts of all their tickets in order. *)

From S2P Require Export Merge Stores.
From S2P Require Import SampleStores.

(** ** Typed bodies *)

(** [Serialize + DeserializeOwned] through serde_json's [to_vec] and
    [from_slice]. *)
Class RecordCodec (A : Type) := {
  codec_to_vec : A → result string bytes;
  codec_from_slice : bytes → result string A
}.

Definition to_body `{RecordCodec A} (x : A) : Result Body :=
  b ← map_err Serde (codec_to_vec x); Ok (Inline b).

Definition from_body `{RecordCodec A} (body : Body) : Result A :=
  match body with
  | Inline b => map_err Serde (codec_from_slice b)
  | Blob _ _ => Err (Backend "cannot decode a blob-backed body without a BlobStore")
  end.

(** ** The ticket model *)

Inductive Provider :=
  | GitHub | Jira | Linear | GitLab | Asana | AzureDevOps | Bugzilla
  | OtherProvider (name : string).

Inductive StateCategory :=
  | Triage | Backlog | Open | InProgress | Pending | Done | Canceled.

Inductive Resolution :=
  | ResolvedDone | WontDo | DuplicateOf | InvalidTicket | CannotReproduce | Moved
  | OtherResolution (name : string).

#[export] Instance Provider_eq_dec : EqDecision Provider.
Proof. solve_decision. Defined.
#[export] Instance StateCategory_eq_dec : EqDecision StateCategory.
Proof. solve_decision. Defined.

(** The derived [Ord]: declaration order. *)
Definition category_rank (c : StateCategory) : nat :=
  match c with
  | Triage => 0 | Backlog => 1 | Open => 2 | InProgress => 3
  | Pending => 4 | Done => 5 | Canceled => 6
  end.

Definition category_of_rank (n : nat) : option StateCategory :=
  [Triage; Backlog; Open; InProgress; Pending; Done; Canceled] !! n.

#[export] Instance StateCategory_countable : Countable StateCategory.
Proof. refine (inj_countable category_rank category_of_rank _). by intros []. Defined.

Record ticket_state := mkState {
  state_category : StateCategory;
  state_resolution : option Resolution;
  state_raw_name : string;
  state_raw_id : option string
}.

Inductive ActorRole := Requester | Assignee | Submitter | Follower.

Record Actor := mkActor {
  actor_role : ActorRole;
  actor_handle : string;
  actor_display : option string
}.

Record Container := mkContainer {
  container_kind : string;
  container_id : string;
  container_name : option string;
  container_primary : bool
}.

Inductive LinkKind := Blocks | BlockedBy | Relates | Parent | Child | Duplicate.

Inductive LinkTarget :=
  | TargetRecord (key : RecordKey)
  | TargetExternal (ref : string).

Record Link := mkLink { link_kind : LinkKind; link_target : LinkTarget }.

Inductive BodyFormat := Markdown | Adf | Html | PlainText.

Record TicketBody := mkTicketBody {
  tb_markdown : string;
  tb_format : BodyFormat;
  tb_raw : option string
}.

Inductive PriorityLevel := PriorityNone | Low | Medium | High | Urgent.

Record Priority := mkPriority { priority_level : PriorityLevel; priority_raw : option string }.

Record ticket `{SerdeJson} := mkTicket {
  tk_provider : Provider;
  tk_uid : string;
  tk_display : string;
  tk_item_type : string;
  tk_title : string;
  tk_state : ticket_state;
  tk_priority : option Priority;
  tk_actors : list Actor;
  tk_labels : list string;
  tk_containers : list Container;
  tk_links : list Link;
  tk_body : TicketBody;
  tk_fields : gmap string Value
}.

Arguments mkTicket {_}.

Record ticket_event := mkTicketEvent {
  te_ticket_uid : string;
  te_kind : string;
  te_author : string;
  te_at : Z;
  te_body : string
}.

(** ** Record keys *)

(** [str::to_lowercase]: Unicode case folding, from the standard library's
    tables. *)
Class Lowercase := to_lowercase : string → string.

Definition provider_slug `{Lowercase} (p : Provider) : string :=
  match p with
  | GitHub => "github"
  | Jira => "jira"
  | Linear => "linear"
  | GitLab => "gitlab"
  | Asana => "asana"
  | AzureDevOps => "azure-devops"
  | Bugzilla => "bugzilla"
  | OtherProvider name => to_lowercase name
  end.

Definition scoped_uid (uid : string) (scope : option string) : string :=
  match scope with
  | Some board => board +:+ "/" +:+ uid
  | None => uid
  end.

Definition record_key `{Lowercase} `{SerdeJson} (t : ticket) (scope : option string) :
    RecordKey :=
  mkKey "tickets" (provider_slug (tk_provider t)) (scoped_uid (tk_uid t) scope).

(** ** State mapping *)

Inductive StateSignal :=
  | IntrinsicState | NativeStatus
  | ScopedLabel (prefix : string)
  | Section_
  | CustomField (id : string)
  | Completed.

Record StateMapping := mkStateMapping {
  signal : StateSignal;
  by_value : gmap string StateCategory;
  default_category : StateCategory
}.

Inductive ReverseError :=
  | Unmapped (c : StateCategory)
  | Ambiguous (c : StateCategory) (columns : list string).

(** [eq_ignore_ascii_case]. *)
Definition ascii_lower (b : Byte.byte) : Byte.byte :=
  if is_upper b then byte_of (byte_code b + 32) else b.

Definition eq_ignore_ascii_case (x y : string) : bool :=
  bool_decide (ascii_lower <$> bytes_of_string x = ascii_lower <$> bytes_of_string y).

Definition find {A} (p : A → bool) (l : list A) : option A :=
  head (filter (λ x, p x = true) l).

Definition category_of (m : StateMapping) (raw_value : string) : StateCategory :=
  match by_value m !! raw_value with
  | Some cat => cat
  | None =>
      default (default_category m)
        (snd <$> find (λ kc, eq_ignore_ascii_case kc.1 raw_value) (btree_items (by_value m)))
  end.

Definition column_for (m : StateMapping) (category : StateCategory)
    (overrides : gmap StateCategory string) : result ReverseError string :=
  match overrides !! category with
  | Some col => Ok col
  | None =>
      let columns := (filter (λ kc, kc.2 = category) (btree_items (by_value m))).*1 in
      let columns := sort columns in
      match columns with
      | [] => Err (Unmapped category)
      | [col] => Ok col
      | _ => Err (Ambiguous category columns)
      end
  end.

Record FieldMapping := mkFieldMapping {
  fm_title : option string;
  fm_assignee : option string;
  fm_priority : option string;
  fm_status : option string
}.

(** ** The provider boundary *)

(** [Cursor(Option<String>)]. *)
Definition Cursor : Type := option string.

Record Capabilities := mkCapabilities {
  cap_push : bool;
  cap_transitions_required : bool;
  cap_custom_fields : bool;
  cap_single_assignee : bool;
  cap_hierarchy : bool;
  cap_relations : bool;
  cap_comments : bool
}.

Record Page `{SerdeJson} := mkPage { page_tickets : list ticket; page_next : Cursor }.
Arguments mkPage {_}.

Inductive SourceError :=
  | Unsupported (operation : string)
  | SourceBackend (msg : string).

Record TicketSource `{SerdeJson} (W : Type) := mkSource {
  capabilities : Capabilities;
  fetch_changed : Cursor → M W SourceError Page;
  source_get : string → M W SourceError ticket;
  set_state : string → StateCategory → M W SourceError unit;
  comment : string → string → M W SourceError unit
}.
Arguments mkSource {_} {W}.
Arguments capabilities {_} {W}.
Arguments fetch_changed {_} {W}.
Arguments source_get {_} {W}.
Arguments set_state {_} {W}.
Arguments comment {_} {W}.

(** A source with the defaulted write-back methods. *)
Definition read_only_source `{SerdeJson} {W} (c : Capabilities)
    (fetch : Cursor → M W SourceError Page) (get : string → M W SourceError ticket) :
    TicketSource W :=
  mkSource c fetch get
    (λ _ _, throw (Unsupported "set_state"))
    (λ _ _, throw (Unsupported "comment")).

(** ** Ingest *)

Record IngestSummary := mkSummary { imported : nat; updated : nat; unchanged : nat }.
Definition IngestSummary_default : IngestSummary := mkSummary 0 0 0.

Inductive IngestError :=
  | IngestSource (e : SourceError)
  | IngestStore (e : CoreError)
  | IngestConflict (c : Conflict).

Inductive Outcome := Imported | Updated | Unchanged.

Section ingest.
Context `{Blake3} `{Lowercase} `{SerdeJson} `{!RecordCodec ticket} {W : Type}.

(** [?] on an action whose error is converted by [From]. *)
Definition convert {E E' A} (f : E → E') (m : M W E A) : M W E' A := λ w,
  let '(r, w') := m w in (map_err f r, w').

Definition upsert (store : Store W) (t : ticket) (author : string) (scope : option string) :
    M W IngestError Outcome :=
  let key := record_key t scope in
  body ← lift (map_err IngestStore (to_body t));
  let new_hash := ContentHash_of (body_bytes body) in
  existing ← convert IngestStore (st_get store key);
  if match existing with
     | Some rec => bool_decide (rev_hash (rec_revision rec) = new_hash)
     | None => false end
  then mret Unchanged
  else
    let expected := rec_revision <$> existing in
    let meta := Meta_new (Identity_new author) "ticket-ingest" in
    let r := match existing with
             | Some current => Record_update current body meta
             | None => Record_create key Ticket body meta
             end in
    out ← convert IngestStore (st_put store r expected);
    match out with
    | Committed _ => mret (if bool_decide (is_Some existing) then Updated else Imported)
    | PutConflicted c => throw (IngestConflict c)
    end.

Definition tally (summary : IngestSummary) (o : Outcome) : IngestSummary :=
  match o with
  | Imported => mkSummary (S (imported summary)) (updated summary) (unchanged summary)
  | Updated => mkSummary (imported summary) (S (updated summary)) (unchanged summary)
  | Unchanged => mkSummary (imported summary) (updated summary) (S (unchanged summary))
  end.

(** The body of the [for] loop over a page. *)
Definition ingest_ticket (store : Store W) (author : string) (scope : option string)
    (summary : IngestSummary) (t : ticket) : M W IngestError IngestSummary :=
  o ← upsert store t author scope; mret (tally summary o).

(** The [loop] over pages, at most [fuel] of them; [None] is out of fuel. *)
Fixpoint ingest_from (fuel : nat) (source : TicketSource W) (store : Store W)
    (author : string) (scope : option string) (summary : IngestSummary) (cursor : Cursor) :
    M W IngestError (option IngestSummary) :=
  match fuel with
  | 0 => mret None
  | S fuel' =>
      page ← convert IngestSource (fetch_changed source cursor);
      summary ← foldM (ingest_ticket store author scope) summary (page_tickets page);
      if bool_decide (page_next page = None) || bool_decide (page_next page = cursor)
      then mret (Some summary)
      else ingest_from fuel' source store author scope summary (page_next page)
  end.

Definition ingest (fuel : nat) (source : TicketSource W) (store : Store W)
    (author : string) (scope : option string) : M W IngestError (option IngestSummary) :=
  ingest_from fuel source store author scope IngestSummary_default None.
End ingest.

(** ** State mapping, forwards and back *)

Lemma find_spec {A} (p : A → bool) l :
  match find p l with
  | Some x => x ∈ l ∧ p x = true
  | None => ∀ x, x ∈ l → p x = false
  end.
Proof.
  unfold find. induction l as [|x l IH]; simpl; [by intros x ?%elem_of_nil|].
  rewrite filter_cons. case_decide as Hx; simpl; [split; [left|done]|].
  destruct (head _) as [y|]; [split; [right|]; tauto|].
  intros y [->|Hy]%elem_of_cons; [by apply not_true_iff_false|by apply IH].
Qed.

(** What is written back reads back as the category that was meant.  The
    column chosen for a category is the override if there is one; otherwise it
    is the one column mapped to the category, and reading it gives the category
    again.  With no such column, or with several, nothing is chosen and the
    error says which, the several in order.  Reading a status finds the exact
    column if there is one, else a column equal to it but for ASCII case, and
    falls back to the default only when there is neither. *)
Theorem state_mapping_round_trips (m : StateMapping) (c : StateCategory)
    (overrides : gmap StateCategory string) (raw : string) :
  match column_for m c overrides with
  | Ok col => overrides !! c = Some col ∨
      overrides !! c = None ∧ category_of m col = c ∧
      ∀ col', by_value m !! col' = Some c ↔ col' = col
  | Err (Unmapped c') => c' = c ∧ overrides !! c = None ∧ ∀ col, by_value m !! col ≠ Some c
  | Err (Ambiguous c' cols) => c' = c ∧ overrides !! c = None ∧ 2 ≤ length cols ∧
      increasing cols ∧ ∀ col, col ∈ cols ↔ by_value m !! col = Some c
  end ∧
  (by_value m !! raw = Some (category_of m raw) ∨
   by_value m !! raw = None ∧
     ((∃ col, eq_ignore_ascii_case col raw = true ∧
        by_value m !! col = Some (category_of m raw)) ∨
      (∀ col cat, by_value m !! col = Some cat → eq_ignore_ascii_case col raw = false) ∧
      category_of m raw = default_category m)).
Proof.
  split.
  - unfold column_for. destruct (overrides !! c) as [col|] eqn:Ho; [by left|].
    assert (∀ col, col ∈ (filter (λ kc, kc.2 = c) (btree_items (by_value m))).*1 ↔
      by_value m !! col = Some c) as Hin.
    { intros col. rewrite elem_of_fst_filter. naive_solver. }
    pose proof (increasing_fst_filter (by_value m) (λ kc, kc.2 = c)) as Hinc.
    rewrite (increasing_sort_id _ Hinc).
    destruct (filter _ _).*1 as [|col [|col' cols]].
    + split_and!; [done..|]. intros col Hcol%Hin. by apply elem_of_nil in Hcol.
    + right. assert (by_value m !! col = Some c) as Hcol by (by apply Hin; left).
      split; [done|]. split; [unfold category_of; by rewrite Hcol|].
      intros col'. rewrite <-Hin. apply list_elem_of_singleton.
    + split_and!; [done..|simpl; lia|done|done].
  - unfold category_of. destruct (by_value m !! raw) as [cat|]; [by left|]. right. split; [done|].
    pose proof (find_spec (λ kc, eq_ignore_ascii_case kc.1 raw) (btree_items (by_value m))) as Hf.
    destruct (find _ _) as [[col cat]|]; simpl.
    + left. destruct Hf as [Hin%elem_of_btree_items Heq]. by exists col.
    + right. split; [|done]. intros col cat Hcol%elem_of_btree_items. by apply (Hf (col, cat)).
Qed.

(** ** Scoped ids *)

Lemma bytes_scoped uid board : bytes_of_string (scoped_uid uid (Some board)) =
  bytes_of_string board ++ slash :: bytes_of_string uid.
Proof. simpl. by rewrite !bytes_of_string_app. Qed.

(** A ticket's id tells boards apart only while no board name holds a slash.
    Among such names the scoped id determines the board and the uid.  With a
    slash in a name it does not: the board [a] and the uid [b/c] share their id
    with the board [a/b] and the uid [c], and with the unscoped uid [a/b/c], so
    two boards' records can be one. *)
Theorem scoped_uid_ambiguity :
  (∀ uid board uid' board',
     slash ∉ bytes_of_string board → slash ∉ bytes_of_string board' →
     scoped_uid uid (Some board) = scoped_uid uid' (Some board') →
     board = board' ∧ uid = uid') ∧
  scoped_uid "b/c" (Some "a") = scoped_uid "c" (Some "a/b") ∧
  scoped_uid "b/c" (Some "a") = scoped_uid "a/b/c" None.
Proof.
  split_and!; [|reflexivity..]. intros uid board uid' board' Hb Hb' Heq%(f_equal bytes_of_string).
  rewrite !bytes_scoped in Heq. apply (split_at_separator slash) in Heq as [H1 H2]; [|done..].
  split; by apply bytes_of_string_inj.
Qed.

(** ** Ingest *)

Section ingest_spec.
Context `{Blake3} `{Lowercase} `{SerdeJson} `{!RecordCodec ticket} {W F : Type}.
Context (store : Store W) (contents : W → records) (cap : nat) (frame : W → F).
Context `{!StoreLaws store contents cap frame}.
Context (author : string) (scope : option string).
Implicit Types (w : W) (t : ticket).

Abbreviation key t := (record_key t scope).

(** What [upsert] will do with a ticket, and what it needs: a body that
    serializes and a key that no deleted manifest occupies. *)
Definition outcome_at (m : records) t (b : bytes) : Outcome :=
  match live (m !! key t) with
  | None => Imported
  | Some r => if bool_decide (rev_hash (rec_revision r) = ContentHash_of b)
              then Unchanged else Updated
  end.

Definition acceptable (m : records) t : Prop :=
  ∀ r kind, m !! key t = Some r → is_tombstone r = true →
    rec_deleted_kind r = Some kind → is_manifest_kind kind = false.

(** The record a ticket is stored as. *)
Definition stores (m m' : records) t (b : bytes) (r : record) : Prop :=
  m' !! key t = Some r ∧ is_tombstone r = false ∧
  rev_hash (rec_revision r) = ContentHash_of b ∧
  (rec_body r = Inline b ∨ m !! key t = Some r).

Lemma upsert_put w t b (r : record) existing :
  acceptable (contents w) t → live (contents w !! key t) = existing →
  r = match existing with
      | Some current => Record_update current (Inline b)
          (Meta_new (Identity_new author) "ticket-ingest")
      | None => Record_create (key t) Ticket (Inline b)
          (Meta_new (Identity_new author) "ticket-ingest")
      end →
  (∀ current, existing = Some current → rec_key current = key t) →
  ∃ rev s w', st_put store r (rec_revision <$> existing) w = (Ok (Committed rev), w') ∧
    frame w' = frame w ∧ contents w' = <[key t := s]> (contents w) ∧
    rec_key s = key t ∧ is_tombstone s = false ∧
    rev_hash (rec_revision s) = ContentHash_of b ∧ rec_body s = Inline b.
Proof.
  intros Hacc Hlive Hr Hkey.
  assert (rec_key r = key t) as Hk.
  { subst r. destruct existing as [c|]; [exact (Hkey c eq_refl)|done]. }
  assert (is_tombstone r = false) as Hrt.
  { subst r. destruct existing as [c|]; [|done]. apply live_Some in Hlive as [_ ?]. done. }
  assert (∀ now, ∃ s, plan_put (contents w !! key t) r (rec_revision <$> existing) now cap
    = PutWrite s ∧ rec_key s = key t ∧ is_tombstone s = false ∧
    rev_hash (rec_revision s) = ContentHash_of b ∧ rec_body s = Inline b) as Hplan.
  { intros now. unfold plan_put. rewrite Hrt. destruct (contents w !! key t) as [c|] eqn:Hc.
    - simpl in Hlive. destruct (is_tombstone c) eqn:Ht; subst existing; simpl.
      + destruct (rec_deleted_kind c) as [kind|] eqn:Hkind;
          [rewrite (Hacc c kind) by done|]; eexists; (split; [reflexivity|]);
          subst r; split_and!; done.
      + rewrite decide_True by done. eexists. split; [reflexivity|]. subst r. by split_and!.
    - subst existing. eexists. split; [reflexivity|]. subst r. by split_and!. }
  destruct (law_put r (rec_revision <$> existing) w) as (now & res & w' & Hrun & Hf & Heq).
  rewrite Hk in Heq. destruct (Hplan now) as (s & Hp & Hs). rewrite Hp in Heq.
  injection Heq as -> Hc. by exists (rec_revision s), s, w'.
Qed.

Lemma upsert_run w t b :
  keyed (contents w) → acceptable (contents w) t → codec_to_vec t = Ok b →
  ∃ w' r, upsert store t author scope w = (Ok (outcome_at (contents w) t b), w') ∧
    frame w' = frame w ∧ stores (contents w) (contents w') t b r ∧ rec_key r = key t ∧
    (contents w' = contents w ∨
     outcome_at (contents w) t b ≠ Unchanged ∧ contents w' = <[key t := r]> (contents w)).
Proof.
  intros Hkeyed Hacc Hb. unfold upsert, outcome_at, to_body. cbv zeta. rewrite Hb.
  rewrite (bind_ok (lift _) _ w (Inline b) w) by reflexivity.
  destruct (law_get (key t) w) as (w1 & Hget & Hc1 & Hf1).
  rewrite (bind_ok _ _ w (live (contents w !! key t)) w1)
    by (unfold convert; by rewrite Hget).
  change (body_bytes (Inline b)) with b.
  destruct (live (contents w !! key t)) as [c|] eqn:Hlive; [case_bool_decide as Hh|].
  - exists w1, c. rewrite Hc1. apply live_Some in Hlive as [Hc Hct].
    split_and!; [done|done| |by apply Hkeyed|by left]. repeat split; auto.
  - pose proof (proj1 (live_Some _ _) Hlive) as [Hc _].
    destruct (upsert_put w1 t b _ (Some c) ltac:(by rewrite Hc1) ltac:(by rewrite Hc1) eq_refl)
      as (rev & s & w' & Hput & Hf & Hc' & Hs).
    { intros ? [= <-]. by apply Hkeyed. }
    exists w', s. rewrite (bind_ok _ _ w1 (Committed rev) w')
      by (unfold convert; simpl in Hput; simpl; by rewrite Hput).
    rewrite Hc', Hc1, Hf, Hf1. unfold stores. rewrite lookup_insert_eq.
    destruct Hs as (? & ? & ? & ?). split_and!; try done; [by left|by right].
  - destruct (upsert_put w1 t b _ None ltac:(by rewrite Hc1) ltac:(by rewrite Hc1) eq_refl)
      as (rev & s & w' & Hput & Hf & Hc' & Hs); [done|].
    exists w', s. rewrite (bind_ok _ _ w1 (Committed rev) w')
      by (unfold convert; simpl in Hput; simpl; by rewrite Hput).
    rewrite Hc', Hc1, Hf, Hf1. unfold stores. rewrite lookup_insert_eq.
    destruct Hs as (? & ? & ? & ?). split_and!; try done; [by left|by right].
Qed.

Definition encoded t : bytes :=
  match codec_to_vec t with Ok b => b | Err _ => [] end.

Definition serializes t : Prop := codec_to_vec t = Ok (encoded t).

(** What a run over [ts] leaves at the key of each ticket. *)
Definition mirrored (m m' : records) t : Prop := ∃ r, stores m m' t (encoded t) r.

Definition summary_of (m : records) (ts : list ticket) : IngestSummary :=
  foldl tally IngestSummary_default ((λ t, outcome_at m t (encoded t)) <$> ts).

Lemma outcome_at_ext m m' t b :
  m !! key t = m' !! key t → outcome_at m t b = outcome_at m' t b.
Proof. unfold outcome_at. by intros ->. Qed.

Lemma upserts_run ts w summary :
  keyed (contents w) → NoDup ((λ t, key t) <$> ts) →
  Forall (λ t, acceptable (contents w) t ∧ serializes t) ts →
  ∃ w', foldM (ingest_ticket store author scope) summary ts w =
      (Ok (foldl tally summary ((λ t, outcome_at (contents w) t (encoded t)) <$> ts)), w') ∧
    frame w' = frame w ∧ keyed (contents w') ∧
    (∀ k, k ∉ (λ t, key t) <$> ts → contents w' !! k = contents w !! k) ∧
    Forall (mirrored (contents w) (contents w')) ts.
Proof.
  revert w summary. induction ts as [|t ts IH]; intros w summary Hkeyed Hnd Hts.
  { exists w. split_and!; try done. }
  apply NoDup_cons in Hnd as [Hfresh Hnd]. apply Forall_cons in Hts as [[Hacc Hser] Hts].
  destruct (upsert_run w t (encoded t) Hkeyed Hacc Hser)
    as (w1 & r & Hrun & Hf1 & Hst & Hrk & Hc1).
  assert (∀ k, k ≠ key t → contents w1 !! k = contents w !! k) as Hother.
  { intros k Hk. destruct Hc1 as [->|[_ ->]]; [done|by rewrite lookup_insert_ne]. }
  assert (keyed (contents w1)) as Hkeyed1.
  { destruct Hc1 as [->|[_ ->]]; [done|]. intros k r' [[<- <-]|[_ ?]]%lookup_insert_Some; eauto. }
  assert (∀ t', t' ∈ ts → contents w1 !! key t' = contents w !! key t') as Hts1.
  { intros t' Ht'. apply Hother. intros Heq. apply Hfresh. rewrite <-Heq.
    exact (list_elem_of_fmap_2 (λ t, key t) ts t' Ht'). }
  destruct (IH w1 (tally summary (outcome_at (contents w) t (encoded t))) Hkeyed1 Hnd)
    as (w2 & Hrun2 & Hf2 & Hkeyed2 & Hother2 & Hm2).
  { rewrite Forall_forall in Hts |- *. intros t' Ht'. destruct (Hts t' Ht') as [Ha Hs].
    split; [|done]. intros r' kind Hr'. rewrite (Hts1 t' Ht') in Hr'. by apply Ha. }
  exists w2. rewrite foldM_cons. unfold ingest_ticket at 1.
  rewrite (bind_ok _ _ _ _ _ Hrun). unfold mret, M_ret. rewrite Hrun2, Hf2, Hf1. split.
  { do 2 f_equal. simpl. f_equal. apply list_fmap_ext. intros i t' Ht'.
    apply outcome_at_ext, Hts1. by eapply list_elem_of_lookup_2. }
  split_and!; [done|done| |].
  - intros k Hk. apply not_elem_of_cons in Hk as [Hk Hks]. by rewrite Hother2, Hother.
  - constructor.
    + exists r. destruct Hst as (Hr & ?). split; [by rewrite Hother2|done].
    + rewrite Forall_forall in Hm2 |- *. intros t' Ht'.
      destruct (Hm2 t' Ht') as (r' & ? & ? & ? & Hb). exists r'.
      by rewrite (Hts1 t' Ht') in Hb.
Qed.

(** A ticket whose record is live with its hash. *)
Definition up_to_date (m : records) t : Prop :=
  ∃ r, m !! key t = Some r ∧ is_tombstone r = false ∧
    rev_hash (rec_revision r) = ContentHash_of (encoded t).

Lemma upserts_noop ts w summary :
  keyed (contents w) → Forall (λ t, serializes t ∧ up_to_date (contents w) t) ts →
  ∃ w', foldM (ingest_ticket store author scope) summary ts w =
      (Ok (mkSummary (imported summary) (updated summary) (unchanged summary + length ts)), w') ∧
    frame w' = frame w ∧ contents w' = contents w.
Proof.
  revert w summary. induction ts as [|t ts IH]; intros w summary Hkeyed Hts.
  { exists w. simpl. rewrite Nat.add_0_r. by destruct summary. }
  apply Forall_cons in Hts as [[Hser (r & Hr & Hlive & Hh)] Hts].
  assert (outcome_at (contents w) t (encoded t) = Unchanged) as Ho.
  { unfold outcome_at. assert (live (contents w !! key t) = Some r) as -> by (by apply live_Some).
    by rewrite bool_decide_eq_true_2. }
  destruct (upsert_run w t (encoded t) Hkeyed) as (w1 & r1 & Hrun & Hf1 & _ & _ & Hc1);
    [intros ? ? ?; congruence|done|].
  rewrite Ho in Hrun, Hc1. destruct Hc1 as [Hc1|[? _]]; [|done].
  destruct (IH w1 (tally summary Unchanged)) as (w2 & Hrun2 & Hf2 & Hc2); [by rewrite Hc1..|].
  exists w2. rewrite foldM_cons. unfold ingest_ticket at 1.
  rewrite (bind_ok _ _ _ _ _ Hrun). unfold mret, M_ret. rewrite Hrun2, Hf2, Hf1, Hc2, Hc1.
  split; [|done]. simpl. by rewrite Nat.add_succ_r.
Qed.

(** *** Paging *)

(** The tickets a source's pages hold, following its cursor for at most [fuel]
    pages; [None] when they do not end by then, or a fetch fails. *)
Fixpoint tickets_from (pages : Cursor → result SourceError Page) (fuel : nat) (c : Cursor) :
    option (list ticket) :=
  match fuel with
  | 0 => None
  | S fuel' =>
      match pages c with
      | Err _ => None
      | Ok page =>
          if bool_decide (page_next page = None) || bool_decide (page_next page = c)
          then Some (page_tickets page)
          else (page_tickets page ++.) <$> tickets_from pages fuel' (page_next page)
      end
  end.

(** The source answers from a fixed listing and leaves the world alone. *)
Definition lists (source : TicketSource W) (pages : Cursor → result SourceError Page) : Prop :=
  ∀ c w, fetch_changed source c w = (pages c, w).

Lemma foldM_app {E A B} (f : B → A → M W E B) acc l l' w :
  foldM f acc (l ++ l') w =
    match foldM f acc l w with
    | (Ok acc', w') => foldM f acc' l' w'
    | (Err e, w') => (Err e, w')
    end.
Proof.
  revert acc w. induction l as [|x l IH]; intros acc w; [done|].
  change ((x :: l) ++ l') with (x :: l ++ l'). rewrite !foldM_cons.
  destruct (f acc x w) as [[] ?]; [apply IH|done].
Qed.

Lemma ingest_from_eq source pages n fuel c ts summary w :
  lists source pages → tickets_from pages n c = Some ts → n ≤ fuel →
  ingest_from fuel source store author scope summary c w =
    match foldM (ingest_ticket store author scope) summary ts w with
    | (Ok s, w') => (Ok (Some s), w')
    | (Err e, w') => (Err e, w')
    end.
Proof.
  intros Hl. revert fuel c ts summary w.
  induction n as [|n IH]; intros fuel c ts summary w Hts Hfuel; [done|].
  destruct fuel as [|fuel]; [lia|]. simpl in *.
  destruct (pages c) as [page|] eqn:Hp; [|done].
  rewrite (bind_ok _ _ w page w) by (unfold convert; by rewrite Hl, Hp).
  destruct (_ || _).
  - injection Hts as <-. unfold mbind, M_bind.
    by destruct (foldM _ _ (page_tickets page) w) as [[] ?].
  - destruct (tickets_from pages n (page_next page)) as [ts'|] eqn:Hts'; [|done].
    injection Hts as <-. rewrite foldM_app. unfold mbind, M_bind at 1.
    destruct (foldM _ _ (page_tickets page) w) as [[s|e] w1]; [|done].
    apply IH; [done|lia].
Qed.
End ingest_spec.

(** *** The properties *)

Section ingest_theorems.
Context `{Blake3} `{Lowercase} `{SerdeJson} `{!RecordCodec ticket} {W F : Type}.
Context (store : Store W) (contents : W → records) (cap : nat) (frame : W → F).
Context `{!StoreLaws store contents cap frame}.
Context (source : TicketSource W) (pages : Cursor → result SourceError Page).
Context (author : string) (scope : option string).
Implicit Types (w : W) (t : ticket).

(** Ingest makes the store mirror the source.  Once the source's pages end
    (in as many rounds as it has pages), whatever their number, every ticket is
    under its own key as a live record whose hash is that of the ticket's JSON,
    and whose body is that JSON unless a record with the hash was already there;
    the summary counts exactly which were new, changed and unchanged; and no
    other record, in the tickets namespace or out of it, is touched. *)
Theorem ingest_mirrors_source n fuel ts w :
  lists source pages → tickets_from pages n None = Some ts → n ≤ fuel →
  keyed (contents w) → NoDup ((λ t, record_key t scope) <$> ts) →
  Forall (λ t, acceptable scope (contents w) t ∧ serializes t) ts →
  ∃ w', ingest fuel source store author scope w
      = (Ok (Some (summary_of scope (contents w) ts)), w') ∧
    frame w' = frame w ∧ keyed (contents w') ∧
    Forall (mirrored scope (contents w) (contents w')) ts ∧
    ∀ k, (key_namespace k ≠ "tickets" ∨ k ∉ (λ t, record_key t scope) <$> ts) →
      contents w' !! k = contents w !! k.
Proof.
  intros Hl Hts Hfuel Hkeyed Hnd Hacc.
  destruct (upserts_run store contents cap frame author scope ts w IngestSummary_default
    Hkeyed Hnd Hacc) as (w' & Hrun & Hf & Hkeyed' & Hother & Hm).
  exists w'. unfold ingest.
  rewrite (ingest_from_eq store author scope source pages n fuel None ts _ _ Hl Hts Hfuel), Hrun.
  split_and!; [done..|]. intros k Hk. apply Hother. destruct Hk as [Hk|Hk]; [|done].
  intros (t & -> & _)%list_elem_of_fmap. done.
Qed.

(** A re-sync is free.  Ingesting an unchanged source a second time, from any
    state the first run could have left and whoever is named as the author,
    reports every ticket unchanged and writes nothing: no revision moves and no
    ancestor is spent. *)
Theorem resync_is_noop n fuel ts w w1 w2 author' :
  lists source pages → tickets_from pages n None = Some ts → n ≤ fuel →
  keyed (contents w) → NoDup ((λ t, record_key t scope) <$> ts) →
  Forall (λ t, acceptable scope (contents w) t ∧ serializes t) ts →
  ingest fuel source store author scope w
    = (Ok (Some (summary_of scope (contents w) ts)), w1) →
  contents w2 = contents w1 →
  ∃ w3, ingest fuel source store author' scope w2 = (Ok (Some (mkSummary 0 0 (length ts))), w3) ∧
    contents w3 = contents w1 ∧ frame w3 = frame w2.
Proof.
  intros Hl Hts Hfuel Hkeyed Hnd Hacc Hrun1 Hc12. unfold ingest in *.
  destruct (upserts_run store contents cap frame author scope ts w IngestSummary_default
    Hkeyed Hnd Hacc) as (w' & Hrun & _ & Hkeyed' & _ & Hm).
  rewrite (ingest_from_eq store author scope source pages n fuel None ts _ _ Hl Hts Hfuel), Hrun
    in Hrun1.
  injection Hrun1 as <-.
  destruct (upserts_noop store contents cap frame author' scope ts w2 IngestSummary_default)
    as (w3 & Hrun3 & Hf3 & Hc3).
  - by rewrite Hc12.
  - rewrite Hc12, Forall_forall in *. intros t Ht. split; [by apply Hacc|].
    destruct (Hm t Ht) as (r & ? & ? & ? & _). by exists r.
  - exists w3.
    rewrite (ingest_from_eq store author' scope source pages n fuel None ts _ _ Hl Hts Hfuel), Hrun3.
    by rewrite Hf3, Hc3, Hc12.
Qed.
End ingest_theorems.

(** ** A concrete run *)

Section witnesses.
#[local] Existing Instance sample_hash.
#[local] Existing Instance ToyJson.toy.
#[local] Instance sample_lowercase : Lowercase := id.

(** A ticket's title stands for its JSON. *)
#[local] Instance sample_codec : RecordCodec ticket := {
  codec_to_vec t := Ok (bytes_of_string (tk_title t));
  codec_from_slice _ := Err "not used"
}.

Definition sample_ticket (uid title : string) : ticket :=
  mkTicket GitHub uid uid "issue" title (mkState Open None "Open" None) None [] [] [] []
    (mkTicketBody "" Markdown None) ∅.

(** Two pages, of one ticket each. *)
Definition sample_pages (c : Cursor) : result SourceError Page :=
  match c with
  | None => Ok (mkPage [sample_ticket "o/r#1" "one"] (Some "2"))
  | Some _ => Ok (mkPage [sample_ticket "o/r#2" "two"] None)
  end.

Definition sample_source : TicketSource records :=
  read_only_source (mkCapabilities false false false false false false false)
    (λ c w, (sample_pages c, w)) (λ _, throw (SourceBackend "")).

Definition sample_tickets : list ticket :=
  [sample_ticket "o/r#1" "one"; sample_ticket "o/r#2" "two"].

Lemma sample_acceptable :
  Forall (λ t, acceptable (Some "board") ∅ t ∧ serializes t) sample_tickets.
Proof. repeat constructor; intros ??; discriminate. Qed.

Lemma sample_tickets_NoDup : NoDup ((λ t, record_key t (Some "board")) <$> sample_tickets).
Proof. refine (bool_decide_unpack _ _). vm_compute. exact I. Qed.

Lemma ingest_mirrors_source_witness :
  ∃ w', ingest 2 sample_source sample_store "sync" (Some "board") ∅
      = (Ok (Some (mkSummary 2 0 0)), w') ∧
    Forall (mirrored (Some "board") ∅ w') sample_tickets.
Proof.
  destruct (ingest_mirrors_source sample_store id 3 (λ _, tt) sample_source sample_pages
    "sync" (Some "board") 2 2 sample_tickets ∅) as (w' & Hrun & _ & _ & Hm & _).
  - by intros.
  - reflexivity.
  - lia.
  - by intros ??.
  - exact sample_tickets_NoDup.
  - exact sample_acceptable.
  - exists w'. split; [exact Hrun|exact Hm].
Defined.

Lemma resync_is_noop_witness :
  ∃ w3, ingest 2 sample_source sample_store "other" (Some "board")
          (ingest 2 sample_source sample_store "sync" (Some "board") ∅).2
      = (Ok (Some (mkSummary 0 0 2)), w3).
Proof.
  destruct (resync_is_noop sample_store id 3 (λ _, tt) sample_source sample_pages
    "sync" (Some "board") 2 2 sample_tickets ∅
    (ingest 2 sample_source sample_store "sync" (Some "board") ∅).2
    (ingest 2 sample_source sample_store "sync" (Some "board") ∅).2 "other")
    as (w3 & Hrun & _).
  - by intros.
  - reflexivity.
  - lia.
  - by intros ??.
  - exact sample_tickets_NoDup.
  - exact sample_acceptable.
  - vm_compute. reflexivity.
  - reflexivity.
  - exists w3. exact Hrun.
Defined.
End witnesses.
