(* ===== verification/Sync.v ===== *)
(** * Sync: reconciling two stores

    Models [gonzalo-core]'s [sync.rs].  [relate] compares two records by their
    histories, [sync_pass] walks the union of the raw keys in order and
    [sync_with_ancestry] repeats passes until one loses no race, at most
    [MAX_SYNC_PASSES] times.  [settle] is the specification: what one key's
    two records become.  The theorems say that over two lawful stores nobody
    else writes to, one pass implements [settle] on every key without a race,
    so sync reaches agreement on everything that is not reported as a
    conflict, and running it again changes nothing. *)

From S2P Require Export Merge Contract.

Record SyncConflict := mkSyncConflict {
  sc_key : RecordKey; sc_a : record; sc_b : record
}.

Record SyncReport := mkSyncReport {
  copied_to_a : list RecordKey;
  copied_to_b : list RecordKey;
  fast_forwarded_to_a : list RecordKey;
  fast_forwarded_to_b : list RecordKey;
  merged : list RecordKey;
  conflicts : list SyncConflict;
  unconverged : list RecordKey
}.

Definition SyncReport_default : SyncReport := mkSyncReport [] [] [] [] [] [] [].

Definition converged (r : SyncReport) : bool := bool_decide (unconverged r = []).

Definition MAX_SYNC_PASSES : nat := 16.

Inductive Relation := InSync | AAhead | BAhead | Diverged.

#[export] Instance Relation_eq_dec : EqDecision Relation.
Proof. solve_decision. Defined.

Definition relate (a b : record) : Relation :=
  if decide (rec_revision a = rec_revision b) then InSync
  else if decide (rec_revision b ∈ rec_ancestors a) then AAhead
  else if decide (rec_revision a ∈ rec_ancestors b) then BAhead
  else Diverged.

Definition lossless_cap (a b : record) : nat :=
  length (rec_ancestors a) + length (rec_ancestors b) + 2.

(** *** Reports and raced keys, as the loop pushes onto them *)

Definition SyncState : Type := SyncReport * list RecordKey.

Inductive Push := ToA | ToB | ForwardA | ForwardB | MergedBoth.

Definition push_key (p : Push) (k : RecordKey) (r : SyncReport) : SyncReport :=
  match p with
  | ToA => mkSyncReport (copied_to_a r ++ [k]) (copied_to_b r) (fast_forwarded_to_a r)
      (fast_forwarded_to_b r) (merged r) (conflicts r) (unconverged r)
  | ToB => mkSyncReport (copied_to_a r) (copied_to_b r ++ [k]) (fast_forwarded_to_a r)
      (fast_forwarded_to_b r) (merged r) (conflicts r) (unconverged r)
  | ForwardA => mkSyncReport (copied_to_a r) (copied_to_b r) (fast_forwarded_to_a r ++ [k])
      (fast_forwarded_to_b r) (merged r) (conflicts r) (unconverged r)
  | ForwardB => mkSyncReport (copied_to_a r) (copied_to_b r) (fast_forwarded_to_a r)
      (fast_forwarded_to_b r ++ [k]) (merged r) (conflicts r) (unconverged r)
  | MergedBoth => mkSyncReport (copied_to_a r) (copied_to_b r) (fast_forwarded_to_a r)
      (fast_forwarded_to_b r) (merged r ++ [k]) (conflicts r) (unconverged r)
  end.

Definition push_conflict (c : SyncConflict) (r : SyncReport) : SyncReport :=
  mkSyncReport (copied_to_a r) (copied_to_b r) (fast_forwarded_to_a r)
    (fast_forwarded_to_b r) (merged r) (conflicts r ++ [c]) (unconverged r).

Definition set_unconverged (r : SyncReport) (raced : list RecordKey) : SyncReport :=
  mkSyncReport (copied_to_a r) (copied_to_b r) (fast_forwarded_to_a r)
    (fast_forwarded_to_b r) (merged r) (conflicts r) raced.

(** [if landed { report.<field>.push(key) } else { raced.push(key) }]. *)
Definition landed_or_raced (p : Push) (k : RecordKey) (landed : bool) (st : SyncState) :
    SyncState :=
  if landed then (push_key p k st.1, st.2) else (st.1, st.2 ++ [k]).

Section sync.
Context `{Blake3} `{SerdeJson} {W : Type}.

Definition copy (dst : Store W) (rec : record) : M W CoreError bool :=
  res ← st_put_raw dst rec None;
  mret (match res with Committed _ => true | PutConflicted _ => false end).

Definition overwrite (dst : Store W) (rec : record) (expected : Revision) :
    M W CoreError bool :=
  try_with (st_put_raw dst rec (Some expected)) (λ res,
    match res with
    | Ok (Committed _) => mret true
    | Ok (PutConflicted _) => mret false
    | Err (NotFound _) => mret false
    | Err e => throw e
    end).

Definition build_merged (a b : record) (body : Body) : record :=
  reconciled_record a b body (Identity_new "gonzalo-sync") "sync" (lossless_cap a b).

(** The shared parent's body when the ancestry holds it, else an empty base;
    a failed lookup is no failure. *)
Definition ancestry_base (ancestry : option (BlobStore W)) (a b : record) :
    M W CoreError Body :=
  match ancestry, rec_parent a, rec_parent b with
  | Some anc, Some pa, Some pb =>
      if decide (pa = pb) then
        try_with (bs_get_blob anc (rev_hash pa)) (λ res,
          mret (match res with Ok (Some bytes) => Inline bytes | _ => Inline [] end))
      else mret (Inline [])
  | _, _, _ => mret (Inline [])
  end.

(** [overwrite] both sides; landed only if both did. *)
Definition overwrite_both (a b : Store W) (rec : record) (ea eb : Revision) :
    M W CoreError bool :=
  la ← overwrite a rec ea;
  lb ← overwrite b rec eb;
  mret (la && lb).

Definition sync_diverged (a b : Store W) (ancestry : option (BlobStore W))
    (key : RecordKey) (rec_a rec_b : record) (st : SyncState) : M W CoreError SyncState :=
  match is_tombstone rec_a, is_tombstone rec_b with
  | true, true =>
      let winner := tombstone_winner rec_a rec_b (lossless_cap rec_a rec_b) in
      landed ← overwrite_both a b winner (rec_revision rec_a) (rec_revision rec_b);
      mret (landed_or_raced MergedBoth key landed st)
  | true, false | false, true =>
      mret (push_conflict (mkSyncConflict key rec_a rec_b) st.1, st.2)
  | false, false =>
      base ← ancestry_base ancestry rec_a rec_b;
      match Merge.merge (merge_class (rec_kind rec_a)) base (rec_body rec_a) (rec_body rec_b) with
      | Merged body =>
          let m := build_merged rec_a rec_b body in
          landed ← overwrite_both a b m (rec_revision rec_a) (rec_revision rec_b);
          mret (landed_or_raced MergedBoth key landed st)
      | NeedsResolution =>
          mret (push_conflict (mkSyncConflict key rec_a rec_b) st.1, st.2)
      end
  end.

(** [match (ra, rb)]. *)
Definition sync_pair (a b : Store W) (ancestry : option (BlobStore W))
    (key : RecordKey) (ra rb : option record) (st : SyncState) : M W CoreError SyncState :=
  match ra, rb with
  | Some rec, None =>
      landed ← copy b rec; mret (landed_or_raced ToB key landed st)
  | None, Some rec =>
      landed ← copy a rec; mret (landed_or_raced ToA key landed st)
  | Some rec_a, Some rec_b =>
      match relate rec_a rec_b with
      | InSync => mret st
      | AAhead =>
          landed ← overwrite b rec_a (rec_revision rec_b);
          mret (landed_or_raced ForwardB key landed st)
      | BAhead =>
          landed ← overwrite a rec_b (rec_revision rec_a);
          mret (landed_or_raced ForwardA key landed st)
      | Diverged => sync_diverged a b ancestry key rec_a rec_b st
      end
  | None, None => mret st
  end.

(** The loop body of a pass. *)
Definition sync_key (a b : Store W) (ancestry : option (BlobStore W))
    (st : SyncState) (key : RecordKey) : M W CoreError SyncState :=
  ra ← st_get_raw a key;
  rb ← st_get_raw b key;
  sync_pair a b ancestry key ra rb st.

Definition sync_pass (a b : Store W) (ancestry : option (BlobStore W)) :
    M W CoreError SyncState :=
  la ← st_list_raw a KeyPrefix_default;
  lb ← st_list_raw b KeyPrefix_default;
  foldM (sync_key a b ancestry) (SyncReport_default, [])
    (btree_elements (list_to_set (la ++ lb))).

Fixpoint sync_passes (n : nat) (a b : Store W) (ancestry : option (BlobStore W))
    (report : SyncReport) : M W CoreError SyncReport :=
  match n with
  | 0 => mret report
  | S n' =>
      pass ← sync_pass a b ancestry;
      if decide (pass.2 = []) then mret pass.1
      else sync_passes n' a b ancestry (set_unconverged pass.1 pass.2)
  end.

Definition sync_with_ancestry (a b : Store W) (ancestry : option (BlobStore W)) :
    M W CoreError SyncReport :=
  sync_passes MAX_SYNC_PASSES a b ancestry SyncReport_default.

Definition sync (a b : Store W) : M W CoreError SyncReport :=
  sync_with_ancestry a b None.
End sync.

(** ** The specification of one key *)

Inductive Verdict := Nothing | Pushed (p : Push) | Conflicted.

(** A replication write as the destination stores it. *)
Definition stored (cap : nat) (current : option record) (r : record) : record :=
  set_ancestors r (fold_ancestors (rec_revision r) (rec_ancestors r) current cap).

Section settle.
Context `{Blake3} `{SerdeJson}.

(** The record two diverged ones become, when they can. *)
Definition reconcile (base : Body) (a b : record) : option record :=
  match is_tombstone a, is_tombstone b with
  | true, true => Some (tombstone_winner a b (lossless_cap a b))
  | false, false =>
      match Merge.merge (merge_class (rec_kind a)) base (rec_body a) (rec_body b) with
      | Merged body => Some (build_merged a b body)
      | NeedsResolution => None
      end
  | _, _ => None
  end.

Definition settle (cap_a cap_b : nat) (base : Body) (oa ob : option record) :
    option record * option record * Verdict :=
  match oa, ob with
  | None, None => (None, None, Nothing)
  | Some r, None => (oa, Some (stored cap_b None r), Pushed ToB)
  | None, Some r => (Some (stored cap_a None r), ob, Pushed ToA)
  | Some a, Some b =>
      match relate a b with
      | InSync => (oa, ob, Nothing)
      | AAhead => (oa, Some (stored cap_b ob a), Pushed ForwardB)
      | BAhead => (Some (stored cap_a oa b), ob, Pushed ForwardA)
      | Diverged =>
          match reconcile base a b with
          | Some m => (Some (stored cap_a oa m), Some (stored cap_b ob m), Pushed MergedBoth)
          | None => (oa, ob, Conflicted)
          end
      end
  end.

(** What the pass reports for a key. *)
Definition report_verdict (k : RecordKey) (oa ob : option record) (v : Verdict)
    (r : SyncReport) : SyncReport :=
  match v, oa, ob with
  | Pushed p, _, _ => push_key p k r
  | Conflicted, Some a, Some b => push_conflict (mkSyncConflict k a b) r
  | _, _, _ => r
  end.

Lemma tombstone_winner_key a b cap k :
  rec_key a = k → rec_key b = k → rec_key (tombstone_winner a b cap) = k.
Proof. intros Ha Hb. unfold tombstone_winner. simpl. by case_match. Qed.

Lemma reconcile_key base a b m k :
  reconcile base a b = Some m → rec_key a = k → rec_key b = k → rec_key m = k.
Proof.
  unfold reconcile. destruct (is_tombstone a), (is_tombstone b); try done.
  - intros [= <-] Ha Hb. unfold tombstone_winner. simpl. by case_match.
  - destruct (Merge.merge _ _ _ _); [|done]. by intros [= <-].
Qed.

Lemma relate_spec a b :
  match relate a b with
  | InSync => rec_revision a = rec_revision b
  | AAhead => rec_revision a ≠ rec_revision b ∧ rec_revision b ∈ rec_ancestors a
  | BAhead => rec_revision a ≠ rec_revision b ∧ rec_revision a ∈ rec_ancestors b ∧
      rec_revision b ∉ rec_ancestors a
  | Diverged => rec_revision a ≠ rec_revision b ∧ rec_revision b ∉ rec_ancestors a ∧
      rec_revision a ∉ rec_ancestors b
  end.
Proof. unfold relate. by repeat case_decide. Qed.
End settle.

(** ** The implementation meets it *)

Section refinement.
Context `{Blake3} `{SerdeJson} {W F : Type}.
Context (a b : Store W) (ancestry : option (BlobStore W)).
Context (ca cb : W → records) (bl : W → gmap ContentHash (bytes * Z)) (rest : W → F).
Context (cap_a cap_b : nat).
Context `{!StoreLaws a ca cap_a (λ w, (cb w, bl w, rest w))}.
Context `{!StoreLaws b cb cap_b (λ w, (ca w, bl w, rest w))}.
Context (Hancestry : match ancestry with
                     | Some anc => BlobStoreLaws anc bl (λ w, (ca w, cb w, rest w))
                     | None => True
                     end).
Implicit Types w : W.

(** The merge base of two records. *)
Definition base_of (blobs : gmap ContentHash (bytes * Z)) (ra rb : record) : Body :=
  match ancestry, rec_parent ra, rec_parent rb with
  | Some _, Some pa, Some pb =>
      if decide (pa = pb) then
        match blobs !! rev_hash pa with
        | Some (bytes, _) => Inline bytes
        | None => Inline []
        end
      else Inline []
  | _, _, _ => Inline []
  end.

Lemma ancestry_base_spec ra rb w : ∃ w',
  ancestry_base ancestry ra rb w = (Ok (base_of (bl w) ra rb), w') ∧
  ca w' = ca w ∧ cb w' = cb w ∧ bl w' = bl w ∧ rest w' = rest w.
Proof.
  unfold ancestry_base, base_of. destruct ancestry as [anc|]; [|by exists w].
  destruct (rec_parent ra) as [pa|], (rec_parent rb) as [pb|]; try (by exists w).
  case_decide; [|by exists w].
  destruct (law_get_blob (b := anc) (blobs := bl) (rev_hash pa) w) as (w' & Hg & [= ???] & ?).
  exists w'. unfold try_with. rewrite Hg.
  by destruct (bl w !! rev_hash pa) as [[]|].
Qed.

Lemma overwrite_lands {G} (dst : Store W) (c : W → records) cap (frame : W → G)
    `{!StoreLaws dst c cap frame} r cur w :
  c w !! rec_key r = Some cur → ∃ w',
    overwrite dst r (rec_revision cur) w = (Ok true, w') ∧ frame w' = frame w ∧
    c w' = <[rec_key r := stored cap (Some cur) r]> (c w).
Proof.
  intros Hcur. destruct (put_raw_commits dst c cap frame r (Some (rec_revision cur)) w)
    as (w' & Hrun & Hf & Hc); [by rewrite Hcur|].
  exists w'. unfold overwrite, try_with. rewrite Hrun. rewrite Hcur in Hc. by split_and!.
Qed.

Lemma copy_lands {G} (dst : Store W) (c : W → records) cap (frame : W → G)
    `{!StoreLaws dst c cap frame} r w :
  c w !! rec_key r = None → ∃ w',
    copy dst r w = (Ok true, w') ∧ frame w' = frame w ∧
    c w' = <[rec_key r := stored cap None r]> (c w).
Proof.
  intros Hnone. destruct (put_raw_commits dst c cap frame r None w)
    as (w' & Hrun & Hf & Hc); [by rewrite Hnone|].
  exists w'. unfold copy. rewrite (bind_ok _ _ _ _ _ Hrun). rewrite Hnone in Hc.
  by split_and!.
Qed.

(** The rest of the world, at both stores' expense. *)
Definition same_rest w w' : Prop := bl w' = bl w ∧ rest w' = rest w.

Lemma overwrite_both_lands m k ra rb w :
  rec_key m = k → ca w !! k = Some ra → cb w !! k = Some rb → ∃ w',
    overwrite_both a b m (rec_revision ra) (rec_revision rb) w = (Ok true, w') ∧
    same_rest w w' ∧
    ca w' = <[k := stored cap_a (Some ra) m]> (ca w) ∧
    cb w' = <[k := stored cap_b (Some rb) m]> (cb w).
Proof.
  intros <- Ha Hb. unfold overwrite_both, same_rest.
  destruct (overwrite_lands a ca cap_a _ m ra w Ha) as (w1 & H1 & [= ???] & Hc1).
  destruct (overwrite_lands b cb cap_b _ m rb w1) as (w2 & H2 & [= ???] & Hc2); [congruence|].
  exists w2. rewrite (bind_ok _ _ _ _ _ H1), (bind_ok _ _ _ _ _ H2).
  split_and!; [done|congruence..].
Qed.

(** Only key [k] changed, to [x] and [y]. *)
Definition key_becomes k (x y : option record) w w' : Prop :=
  same_rest w w' ∧
  (∀ k', ca w' !! k' = if decide (k' = k) then x else ca w !! k') ∧
  (∀ k', cb w' !! k' = if decide (k' = k) then y else cb w !! k').

Lemma lookup_updated (m m' : records) k r k' :
  m' = <[k := r]> m → m' !! k' = if decide (k' = k) then Some r else m !! k'.
Proof.
  intros ->. case_decide; subst; [apply lookup_insert_eq|by apply lookup_insert_ne].
Qed.

Lemma lookup_kept (m m' : records) k x k' :
  m' = m → m !! k = x → m' !! k' = if decide (k' = k) then x else m !! k'.
Proof. intros -> <-. by case_decide; subst. Qed.

(** The base a pair of records merges over. *)
Definition pair_base (blobs : gmap ContentHash (bytes * Z)) (oa ob : option record) : Body :=
  match oa, ob with Some ra, Some rb => base_of blobs ra rb | _, _ => Inline [] end.

(** One pair, as the specification has it. *)
Definition pair_settles k oa ob st w (x y : option record) (v : Verdict) : Prop := ∃ w',
  sync_pair a b ancestry k oa ob st w = (Ok (report_verdict k oa ob v st.1, st.2), w') ∧
  key_becomes k x y w w' ∧
  (∀ r, x = Some r → rec_key r = k) ∧ (∀ r, y = Some r → rec_key r = k).

Lemma pair_unchanged k oa ob st w v w' :
  ca w !! k = oa → cb w !! k = ob →
  (∀ r, oa = Some r → rec_key r = k) → (∀ r, ob = Some r → rec_key r = k) →
  same_rest w w' → ca w' = ca w → cb w' = cb w →
  sync_pair a b ancestry k oa ob st w = (Ok (report_verdict k oa ob v st.1, st.2), w') →
  pair_settles k oa ob st w oa ob v.
Proof.
  intros Ha Hb Hka Hkb Hr Hca Hcb Hrun. exists w'. split; [done|]. unfold key_becomes.
  split_and!; try done; intros k'; by apply lookup_kept.
Qed.

Lemma diverged_settles k ra rb st w :
  ca w !! k = Some ra → cb w !! k = Some rb → rec_key ra = k → rec_key rb = k →
  relate ra rb = Diverged →
  match reconcile (base_of (bl w) ra rb) ra rb with
  | Some m => pair_settles k (Some ra) (Some rb) st w
      (Some (stored cap_a (Some ra) m)) (Some (stored cap_b (Some rb) m)) (Pushed MergedBoth)
  | None => pair_settles k (Some ra) (Some rb) st w (Some ra) (Some rb) Conflicted
  end.
Proof.
  intros Ha Hb Hka Hkb Hrel.
  assert (∀ m w0, rec_key m = k → same_rest w w0 → ca w0 = ca w → cb w0 = cb w →
    sync_pair a b ancestry k (Some ra) (Some rb) st w =
      (landed ← overwrite_both a b m (rec_revision ra) (rec_revision rb);
       mret (landed_or_raced MergedBoth k landed st)) w0 →
    pair_settles k (Some ra) (Some rb) st w (Some (stored cap_a (Some ra) m))
      (Some (stored cap_b (Some rb) m)) (Pushed MergedBoth)) as Hmerge.
  { intros m w0 Hm [Hbl Hr] Hca Hcb Hrun.
    destruct (overwrite_both_lands m k ra rb w0 Hm) as (w' & Hw & [Hbl' Hr'] & Hca' & Hcb');
      [by rewrite Hca|by rewrite Hcb|].
    exists w'. rewrite Hrun, (bind_ok _ _ _ _ _ Hw). split; [done|].
    unfold key_becomes, same_rest. split_and!;
      [congruence|congruence|intros k'; rewrite <-Hca; by apply lookup_updated
      |intros k'; rewrite <-Hcb; by apply lookup_updated
      |by intros ? [= <-]|by intros ? [= <-]]. }
  assert (∀ w0, same_rest w w0 → ca w0 = ca w → cb w0 = cb w →
    sync_pair a b ancestry k (Some ra) (Some rb) st w =
      (Ok (push_conflict (mkSyncConflict k ra rb) st.1, st.2), w0) →
    pair_settles k (Some ra) (Some rb) st w (Some ra) (Some rb) Conflicted) as Hconfl.
  { intros w0 ? ? ? ?. eapply pair_unchanged;
      [done | done | by intros ? [= <-] | by intros ? [= <-] | done | done | done | done]. }
  assert (sync_pair a b ancestry k (Some ra) (Some rb) st =
    sync_diverged a b ancestry k ra rb st) as Hsd by (simpl; by rewrite Hrel).
  rewrite Hsd in *. unfold reconcile. unfold sync_diverged in *.
  destruct (is_tombstone ra) eqn:Ta, (is_tombstone rb) eqn:Tb.
  - apply (Hmerge (tombstone_winner ra rb (lossless_cap ra rb)) w);
      [by apply tombstone_winner_key|done..].
  - by apply (Hconfl w).
  - by apply (Hconfl w).
  - destruct (ancestry_base_spec ra rb w) as (w0 & Hbase & Hca0 & Hcb0 & Hbl0 & Hr0).
    rewrite (bind_ok _ _ _ _ _ Hbase) in *.
    destruct (Merge.merge _ _ _ _) as [body|] eqn:Hm.
    + by apply (Hmerge (build_merged ra rb body) w0).
    + by apply (Hconfl w0).
Qed.

Definition settled_pair k oa ob st w : Prop :=
  let '(x, y, v) := settle cap_a cap_b (pair_base (bl w) oa ob) oa ob in
  pair_settles k oa ob st w x y v.

Lemma pair_forwards k oa ob st w (x y : option record) p :
  (∀ r, x = Some r → rec_key r = k) → (∀ r, y = Some r → rec_key r = k) →
  (∃ w' act, act w = (Ok true, w') ∧ key_becomes k x y w w' ∧
     sync_pair a b ancestry k oa ob st = (landed ← act; mret (landed_or_raced p k landed st))) →
  pair_settles k oa ob st w x y (Pushed p).
Proof.
  intros Hx Hy (w' & act & Hact & Hk & Hrun). exists w'.
  rewrite Hrun, (bind_ok _ _ _ _ _ Hact). by destruct oa.
Qed.

Lemma pair_settled k st w :
  keyed (ca w) → keyed (cb w) → settled_pair k (ca w !! k) (cb w !! k) st w.
Proof.
  intros Hka Hkb. unfold settled_pair.
  destruct (ca w !! k) as [ra|] eqn:Ea, (cb w !! k) as [rb|] eqn:Eb; cbn [settle pair_base].
  - pose proof (Hka _ _ Ea) as Ka. pose proof (Hkb _ _ Eb) as Kb.
    destruct (relate ra rb) eqn:Hrel.
    + apply (pair_unchanged k _ _ st w Nothing w); try done; [by intros ? [= <-]..|].
      simpl. rewrite Hrel. by destruct st.
    + destruct (overwrite_lands b cb cap_b _ ra rb w) as (w' & Hact & [= ???] & Hc);
        [by rewrite Ka|].
      rewrite Ka in Hc. eapply pair_forwards; [by intros ? [= <-]|by intros ? [= <-]|].
      exists w', (overwrite b ra (rec_revision rb)). split; [done|].
      split; [|simpl; by rewrite Hrel]. unfold key_becomes.
      split_and!; [done|intros; by apply lookup_kept|intros; by apply lookup_updated].
    + destruct (overwrite_lands a ca cap_a _ rb ra w) as (w' & Hact & [= ???] & Hc);
        [by rewrite Kb|].
      rewrite Kb in Hc. eapply pair_forwards; [by intros ? [= <-]|by intros ? [= <-]|].
      exists w', (overwrite a rb (rec_revision ra)). split; [done|].
      split; [|simpl; by rewrite Hrel]. unfold key_becomes.
      split_and!; [done|intros; by apply lookup_updated|intros; by apply lookup_kept].
    + pose proof (diverged_settles k ra rb st w Ea Eb Ka Kb Hrel) as Hd.
      by destruct (reconcile _ _ _).
  - pose proof (Hka _ _ Ea) as Ka.
    destruct (copy_lands b cb cap_b _ ra w) as (w' & Hact & [= ???] & Hc); [by rewrite Ka|].
    rewrite Ka in Hc. eapply pair_forwards; [by intros ? [= <-]|by intros ? [= <-]|].
    exists w', (copy b ra). split; [done|]. split; [|done]. unfold key_becomes.
    split_and!; [done|intros; by apply lookup_kept|intros; by apply lookup_updated].
  - pose proof (Hkb _ _ Eb) as Kb.
    destruct (copy_lands a ca cap_a _ rb w) as (w' & Hact & [= ???] & Hc); [by rewrite Kb|].
    rewrite Kb in Hc. eapply pair_forwards; [by intros ? [= <-]|by intros ? [= <-]|].
    exists w', (copy a rb). split; [done|]. split; [|done]. unfold key_becomes.
    split_and!; [done|intros; by apply lookup_updated|intros; by apply lookup_kept].
  - apply (pair_unchanged k _ _ st w Nothing w); try done. by destruct st.
Qed.

Lemma sync_key_settles st k w :
  keyed (ca w) → keyed (cb w) →
  let '(x, y, v) := settle cap_a cap_b (pair_base (bl w) (ca w !! k) (cb w !! k))
                      (ca w !! k) (cb w !! k) in ∃ w',
  sync_key a b ancestry st k w =
    (Ok (report_verdict k (ca w !! k) (cb w !! k) v st.1, st.2), w') ∧
  key_becomes k x y w w' ∧
  (∀ r, x = Some r → rec_key r = k) ∧ (∀ r, y = Some r → rec_key r = k).
Proof.
  intros Hka Hkb.
  destruct (law_get_raw (s := a) k w) as (w1 & Hg1 & Hca1 & [= Hcb1 Hbl1 Hr1]).
  destruct (law_get_raw (s := b) k w1) as (w2 & Hg2 & Hcb2 & [= Hca2 Hbl2 Hr2]).
  rewrite Hcb1 in Hg2.
  assert (ca w2 = ca w ∧ cb w2 = cb w ∧ bl w2 = bl w ∧ rest w2 = rest w)
    as (Hca & Hcb & Hbl & Hr) by (split_and!; congruence).
  assert (sync_key a b ancestry st k w =
    sync_pair a b ancestry k (ca w !! k) (cb w !! k) st w2) as Hrun.
  { unfold sync_key. by rewrite (bind_ok _ _ _ _ _ Hg1), (bind_ok _ _ _ _ _ Hg2). }
  pose proof (pair_settled k st w2) as Hs. unfold settled_pair, pair_settles in Hs.
  rewrite Hca, Hcb, Hbl in Hs. rewrite Hrun. specialize (Hs Hka Hkb).
  destruct (settle _ _ _ _ _) as [[x y] v]. destruct Hs as (w' & Hw & Hk & Hx & Hy).
  exists w'. split; [done|]. split; [|done].
  unfold key_becomes, same_rest in *. by rewrite Hca, Hcb, Hbl, Hr in Hk.
Qed.

(** *** A whole pass *)

Definition settle_at w (k : RecordKey) : option record * option record * Verdict :=
  settle cap_a cap_b (pair_base (bl w) (ca w !! k) (cb w !! k)) (ca w !! k) (cb w !! k).

(** Both stores, settled key by key. *)
Definition settled w w' : Prop :=
  same_rest w w' ∧ keyed (ca w') ∧ keyed (cb w') ∧
  ∀ k, ca w' !! k = (settle_at w k).1.1 ∧ cb w' !! k = (settle_at w k).1.2.

Definition union_keys w : list RecordKey :=
  btree_elements (dom (ca w) ∪ dom (cb w)).

Definition report_key w (r : SyncReport) (k : RecordKey) : SyncReport :=
  report_verdict k (ca w !! k) (cb w !! k) (settle_at w k).2 r.

(** The report of a pass, key by key in order. *)
Definition settled_report w : SyncReport :=
  foldl (report_key w) SyncReport_default (union_keys w).

Lemma pass_keys w : keyed (ca w) → keyed (cb w) → ∃ la lb w',
  (la' ← st_list_raw a KeyPrefix_default;
   lb' ← st_list_raw b KeyPrefix_default; mret (la', lb')) w = (Ok (la, lb), w') ∧
  same_rest w w' ∧ ca w' = ca w ∧ cb w' = cb w ∧
  btree_elements (list_to_set (la ++ lb)) = union_keys w.
Proof.
  intros Hka Hkb.
  destruct (law_list_raw (s := a) KeyPrefix_default w Hka)
    as (la & w1 & H1 & Hca1 & [= Hcb1 Hbl1 Hr1] & Hnda & Hla).
  destruct (law_list_raw (s := b) KeyPrefix_default w1)
    as (lb & w2 & H2 & Hcb2 & [= Hca2 Hbl2 Hr2] & Hndb & Hlb); [by rewrite Hcb1|].
  exists la, lb, w2. rewrite (bind_ok _ _ _ _ _ H1), (bind_ok _ _ _ _ _ H2).
  unfold same_rest. split_and!; [done|congruence..|].
  unfold union_keys. f_equal. apply set_eq. intros k.
  rewrite elem_of_list_to_set, elem_of_app, elem_of_union, !elem_of_dom, Hla, Hlb, Hcb1.
  rewrite prefix_default_matches. naive_solver.
Qed.

Lemma sync_pass_settles w :
  keyed (ca w) → keyed (cb w) → ∃ w',
    sync_pass a b ancestry w = (Ok (settled_report w, []), w') ∧ settled w w'.
Proof.
  intros Hka Hkb.
  destruct (pass_keys w Hka Hkb) as (la & lb & w0 & Hl & Hr0 & Hca0 & Hcb0 & Hkeys).
  destruct (foldM_inv (sync_key a b ancestry)
    (λ done st w1, st = (foldl (report_key w) SyncReport_default done, []) ∧
       same_rest w w1 ∧ keyed (ca w1) ∧ keyed (cb w1) ∧
       ∀ k, (k ∈ done → ca w1 !! k = (settle_at w k).1.1 ∧ cb w1 !! k = (settle_at w k).1.2) ∧
            (k ∉ done → ca w1 !! k = ca w !! k ∧ cb w1 !! k = cb w !! k))
    (union_keys w) (SyncReport_default, []) w0)
    as (st & w' & Hrun & -> & Hr & Hka' & Hkb' & Hk).
  - split_and!; [done|done|by rewrite Hca0|by rewrite Hcb0|].
    intros k. rewrite Hca0, Hcb0. set_solver.
  - intros done k todo st w1 Hd (-> & [Hbl1 Hr1] & Hka1 & Hkb1 & Hk1).
    assert (k ∉ done) as Hnin.
    { assert (NoDup (union_keys w)) as Hnd
        by apply increasing_NoDup, btree_elements_increasing.
      rewrite Hd in Hnd. apply NoDup_app in Hnd. set_solver. }
    destruct (proj2 (Hk1 k) Hnin) as [Ea Eb].
    pose proof (sync_key_settles (foldl (report_key w) SyncReport_default done, []) k w1
      Hka1 Hkb1) as Hs. rewrite Ea, Eb, Hbl1 in Hs.
    destruct (settle cap_a cap_b _ _ _) as [[x y] v] eqn:Hsettle.
    destruct Hs as (w2 & Hrun & ([Hbl2 Hr2] & Hca2 & Hcb2) & Hx & Hy).
    eexists _, w2. split; [exact Hrun|].
    assert (settle_at w k = (x, y, v)) as Hat by done.
    split_and!.
    + assert (∀ r, report_key w r k = report_verdict k (ca w !! k) (cb w !! k) v r) as Hrk.
      { intros r. unfold report_key. by rewrite Hat. }
      by rewrite foldl_snoc, Hrk.
    + unfold same_rest. split; congruence.
    + intros k' r. rewrite Hca2. case_decide; [subst; apply Hx|apply Hka1].
    + intros k' r. rewrite Hcb2. case_decide; [subst; apply Hy|apply Hkb1].
    + intros k'. rewrite Hca2, Hcb2. destruct (decide (k' = k)) as [->|Hne].
      * rewrite Hat. set_solver.
      * destruct (Hk1 k') as [H1 H2]. split; intros Hin; [apply H1|apply H2]; set_solver.
  - exists w'. split.
    + unfold sync_pass. unfold mbind, M_bind in Hl |- *.
      destruct (st_list_raw a KeyPrefix_default w) as [[la'|] wa]; [|done].
      destruct (st_list_raw b KeyPrefix_default wa) as [[lb'|] wb]; [|done].
      injection Hl as -> -> ->. by rewrite Hkeys.
    + split; [done|]. split; [done|]. split; [done|]. intros k.
      destruct (decide (k ∈ union_keys w)) as [Hin|Hout]; [by apply Hk|].
      destruct (proj2 (Hk k) Hout) as [-> ->].
      unfold union_keys in Hout. rewrite elem_of_btree_elements, elem_of_union in Hout.
      rewrite !elem_of_dom in Hout. unfold settle_at.
      destruct (ca w !! k) eqn:Ea, (cb w !! k) eqn:Eb; [exfalso; apply Hout; by eauto..|].
      done.
Qed.

Lemma unconverged_report w : unconverged (settled_report w) = [].
Proof.
  unfold settled_report.
  assert (∀ l r, unconverged r = [] → unconverged (foldl (report_key w) r l) = []) as Hl.
  { induction l as [|k l IH]; intros r Hr; [done|]. simpl. apply IH.
    unfold report_key, report_verdict, push_conflict.
    destruct (settle_at w k).2 as [|[]|], (ca w !! k), (cb w !! k); done. }
  by apply Hl.
Qed.

Lemma sync_settles w :
  keyed (ca w) → keyed (cb w) → ∃ w',
    sync_with_ancestry a b ancestry w = (Ok (settled_report w), w') ∧ settled w w'.
Proof.
  intros Hka Hkb. destruct (sync_pass_settles w Hka Hkb) as (w' & Hrun & Hs).
  exists w'. split; [|done]. unfold sync_with_ancestry. simpl.
  rewrite (bind_ok _ _ _ _ _ Hrun). simpl. done.
Qed.

(** *** What settling means *)

Lemma stored_revision cap cur r : rec_revision (stored cap cur r) = rec_revision r.
Proof. reflexivity. Qed.

Lemma settle_cases ca' cb' base oa ob :
  let '(x, y, v) := settle ca' cb' base oa ob in
  match v with
  | Conflicted => ∃ ra rb, oa = Some ra ∧ ob = Some rb ∧ x = oa ∧ y = ob ∧
      relate ra rb = Diverged ∧ reconcile base ra rb = None
  | Nothing => x = oa ∧ y = ob ∧ rec_revision <$> oa = rec_revision <$> ob
  | Pushed _ => ∃ r r', x = Some r ∧ y = Some r' ∧ rec_revision r = rec_revision r'
  end.
Proof.
  destruct oa as [ra|], ob as [rb|]; cbn [settle]; [|by eauto..].
  pose proof (relate_spec ra rb) as Hs. destruct (relate ra rb) eqn:Hrel.
  - simpl. by rewrite Hs.
  - by eauto.
  - by eauto.
  - destruct (reconcile base ra rb) eqn:Hrec; [by eauto|]. by exists ra, rb.
Qed.

Lemma settle_in_sync ca' cb' base oa ob :
  rec_revision <$> oa = rec_revision <$> ob →
  settle ca' cb' base oa ob = (oa, ob, Nothing).
Proof.
  destruct oa as [ra|], ob as [rb|]; simpl; try done.
  intros [= Heq]. unfold relate. by rewrite decide_True.
Qed.

Lemma conflict_reported w k ra rb :
  (settle_at w k).2 = Conflicted → ca w !! k = Some ra → cb w !! k = Some rb →
  mkSyncConflict k ra rb ∈ conflicts (settled_report w).
Proof.
  intros Hv Ha Hb. unfold settled_report.
  assert (k ∈ union_keys w) as Hin.
  { apply elem_of_btree_elements, elem_of_union. left. apply elem_of_dom. by rewrite Ha. }
  revert Hin. generalize (union_keys w) SyncReport_default.
  assert (∀ c l r, c ∈ conflicts r → c ∈ conflicts (foldl (report_key w) r l)) as Hmono.
  { intros c. induction l as [|k' l IH]; intros r Hc; [done|]. simpl. apply IH.
    unfold report_key, report_verdict, push_conflict.
    destruct (settle_at w k').2 as [|[]|], (ca w !! k'), (cb w !! k'); simpl; set_solver. }
  induction l as [|k' l IH]; intros r Hin; [set_solver|]. simpl.
  apply elem_of_cons in Hin as [<-|Hin]; [|by apply IH]. apply Hmono.
  unfold report_key. rewrite Hv, Ha, Hb. simpl. set_solver.
Qed.

(** C16: one pass over two stores nobody else writes to settles every key as
    [settle] says, loses no race and reports each key under what happened to
    it; so [sync] returns after it, converged, and touches nothing else in the
    world. *)
Theorem sync_implements_settle w :
  keyed (ca w) → keyed (cb w) → ∃ w',
    sync_with_ancestry a b ancestry w = (Ok (settled_report w), w') ∧
    converged (settled_report w) = true ∧
    bl w' = bl w ∧ rest w' = rest w ∧
    ∀ k, (ca w' !! k, cb w' !! k) = (settle_at w k).1.
Proof.
  intros Hka Hkb. destruct (sync_settles w Hka Hkb) as (w' & Hrun & [Hbl Hr] & _ & _ & Hs).
  exists w'. split_and!; try done.
  - unfold converged. by rewrite unconverged_report.
  - intros k. destruct (Hs k) as [-> ->]. by destruct (settle_at w k) as [[] ?].
Qed.

(** C3: sync reaches agreement.  Afterwards each key is absent from both
    stores, or present in both at the same revision, or named in the report's
    conflicts with both records exactly as they were; and a conflict is always
    a true divergence: neither history knows the other's revision, and either
    exactly one side is deleted or the two live bodies have no safe merge. *)
Theorem sync_agreement w :
  keyed (ca w) → keyed (cb w) → ∃ report w',
    sync_with_ancestry a b ancestry w = (Ok report, w') ∧
    ∀ k, rec_revision <$> ca w' !! k = rec_revision <$> cb w' !! k ∨
      ∃ ra rb, mkSyncConflict k ra rb ∈ conflicts report ∧
        ca w !! k = Some ra ∧ cb w !! k = Some rb ∧
        ca w' !! k = Some ra ∧ cb w' !! k = Some rb ∧
        rec_revision ra ∉ rec_ancestors rb ∧ rec_revision rb ∉ rec_ancestors ra ∧
        (is_tombstone ra ≠ is_tombstone rb ∨
         is_tombstone ra = false ∧ is_tombstone rb = false ∧
         Merge.merge (merge_class (rec_kind ra)) (base_of (bl w) ra rb)
           (rec_body ra) (rec_body rb) = NeedsResolution).
Proof.
  intros Hka Hkb. destruct (sync_settles w Hka Hkb) as (w' & Hrun & _ & _ & _ & Hs).
  exists (settled_report w), w'. split; [done|]. intros k.
  destruct (Hs k) as [-> ->].
  pose proof (settle_cases cap_a cap_b (pair_base (bl w) (ca w !! k) (cb w !! k))
    (ca w !! k) (cb w !! k)) as Hc.
  fold (settle_at w k) in Hc. destruct (settle_at w k) as [[x y] v] eqn:Hat. simpl.
  destruct v.
  - destruct Hc as (-> & -> & Heq). by left.
  - destruct Hc as (r & r' & -> & -> & Heq). left. simpl. by rewrite Heq.
  - destruct Hc as (ra & rb & Ha & Hb & -> & -> & Hrel & Hrec). right. exists ra, rb.
    pose proof (relate_spec ra rb) as Hspec. rewrite Hrel in Hspec.
    destruct Hspec as (_ & Hba & Hab). split_and!; try done.
    + apply conflict_reported; [by rewrite Hat|done..].
    + rewrite Ha, Hb in Hrec. cbn [pair_base] in Hrec. unfold reconcile in Hrec.
      destruct (is_tombstone ra), (is_tombstone rb); try done; [by left..|right].
      by destruct (Merge.merge _ _ _ _).
Qed.

(** A side that is behind catches up, whether what it missed was an edit or
    a delete.  If B's revision is in the history of A's record, A is left as it
    is and B ends with A's record (only the history refolded to B's cap); so a
    deleted record is never resurrected by a peer that had not heard. *)
Theorem sync_fast_forwards w k ra rb :
  keyed (ca w) → keyed (cb w) →
  ca w !! k = Some ra → cb w !! k = Some rb →
  rec_revision rb ≠ rec_revision ra → rec_revision rb ∈ rec_ancestors ra →
  ∃ report w', sync_with_ancestry a b ancestry w = (Ok report, w') ∧
    ca w' !! k = Some ra ∧
    ∃ anc, cb w' !! k = Some (set_ancestors ra anc) ∧
      is_tombstone (set_ancestors ra anc) = is_tombstone ra ∧
      (∀ v, v ∈ anc → v ∈ rec_ancestors ra ∨ v = rec_revision rb ∨ v ∈ rec_ancestors rb).
Proof.
  intros Hka Hkb Ha Hb Hne Hin. destruct (sync_settles w Hka Hkb) as (w' & Hrun & _ & _ & _ & Hs).
  exists (settled_report w), w'. split; [done|]. destruct (Hs k) as [-> ->].
  unfold settle_at. rewrite Ha, Hb. cbn [settle pair_base].
  assert (relate ra rb = AAhead) as ->.
  { unfold relate. rewrite decide_False by congruence. by rewrite decide_True. }
  split; [done|]. eexists. split; [reflexivity|]. split; [done|].
  intros v [Hv _]%elem_of_fold_ancestors_1. unfold history in Hv. set_solver.
Qed.

(** *** Running it again *)

Lemma settled_again w w' k :
  settled w w' →
  settle_at w' k = match settle_at w k with
                   | (x, y, Conflicted) => (x, y, Conflicted)
                   | (x, y, _) => (x, y, Nothing)
                   end ∧
  ((settle_at w k).2 = Conflicted → ca w' !! k = ca w !! k ∧ cb w' !! k = cb w !! k).
Proof.
  intros ([Hbl _] & _ & _ & Hs). destruct (Hs k) as [Ha Hb].
  pose proof (settle_cases cap_a cap_b (pair_base (bl w) (ca w !! k) (cb w !! k))
    (ca w !! k) (cb w !! k)) as Hc. fold (settle_at w k) in Hc.
  assert (∀ x y v, settle_at w k = (x, y, v) → settle_at w' k =
    settle cap_a cap_b (pair_base (bl w) x y) x y) as Hat'.
  { intros x y v Hat. unfold settle_at at 1. rewrite Hbl, Ha, Hb. by rewrite Hat. }
  destruct (settle_at w k) as [[x y] v] eqn:Hat. rewrite (Hat' x y v eq_refl). simpl in *.
  destruct v.
  - destruct Hc as (-> & -> & Heq). by rewrite settle_in_sync.
  - destruct Hc as (r & r' & -> & -> & Heq). rewrite settle_in_sync; [done|]. simpl. congruence.
  - destruct Hc as (ra & rb & _ & _ & -> & -> & _). split; [exact Hat|done].
Qed.

(** The report of a run that found nothing to do but the given conflicts. *)
Definition only_conflicts (cs : list SyncConflict) : SyncReport :=
  mkSyncReport [] [] [] [] [] cs [].

Lemma settled_report_again w w' :
  settled w w' → union_keys w' = union_keys w →
  settled_report w' = only_conflicts (conflicts (settled_report w)).
Proof.
  intros Hw Hkeys. unfold settled_report. rewrite Hkeys. clear Hkeys.
  change SyncReport_default with (only_conflicts (conflicts SyncReport_default)) at 1.
  generalize (union_keys w) SyncReport_default.
  induction l as [|k l IH]; intros r; simpl; [done|]. rewrite <-IH. f_equal.
  destruct (settled_again w w' k Hw) as [Hat Hcf].
  unfold report_key, report_verdict. rewrite Hat.
  destruct (settle_at w k) as [[x y] v]. simpl in *. destruct v as [|p|].
  - by destruct (ca w !! k), (cb w !! k).
  - by destruct p.
  - destruct (Hcf eq_refl) as [-> ->]. by destruct (ca w !! k), (cb w !! k).
Qed.

Lemma settled_union_keys w w' : settled w w' → union_keys w' = union_keys w.
Proof.
  intros (_ & _ & _ & Hs). unfold union_keys. f_equal. apply set_eq. intros k.
  rewrite !elem_of_union, !elem_of_dom. destruct (Hs k) as [-> ->].
  unfold settle_at. destruct (ca w !! k) as [ra|], (cb w !! k) as [rb|]; cbn [settle].
  - destruct (relate ra rb); try destruct (reconcile _ _ _); simpl; naive_solver.
  - simpl. naive_solver.
  - simpl. naive_solver.
  - simpl. naive_solver.
Qed.

(** Sync is idempotent.  A second run right after the first writes nothing
    to either store and reports nothing but the first run's conflicts. *)
Theorem sync_idempotent w report w' :
  keyed (ca w) → keyed (cb w) →
  sync_with_ancestry a b ancestry w = (Ok report, w') →
  ∃ w'', sync_with_ancestry a b ancestry w' = (Ok (only_conflicts (conflicts report)), w'') ∧
    ca w'' = ca w' ∧ cb w'' = cb w'.
Proof.
  intros Hka Hkb Hrun. destruct (sync_settles w Hka Hkb) as (w1 & Hrun1 & Hs1).
  rewrite Hrun in Hrun1. injection Hrun1 as -> <-.
  destruct Hs1 as (Hrest & Hka' & Hkb' & Hs).
  destruct (sync_settles w' Hka' Hkb') as (w2 & Hrun2 & Hs2).
  assert (settled w w') as Hsettled by done.
  exists w2. rewrite Hrun2, (settled_report_again w w') by
    (done || by apply settled_union_keys). split; [done|].
  destruct Hs2 as (_ & _ & _ & Hs2).
  split; apply map_eq; intros k; destruct (Hs2 k) as [Ea Eb]; rewrite ?Ea, ?Eb;
    destruct (settled_again w w' k Hsettled) as [-> _];
    destruct (Hs k) as [Ec Ed]; rewrite ?Ec, ?Ed;
    by destruct (settle_at w k) as [[x y] []].
Qed.
End refinement.

(** ** Any two stores, in any interference *)

Section bounded.
Context `{Blake3} `{SerdeJson} {W : Type}.
Context (a b : Store W) (ancestry : option (BlobStore W)).

(** [n] passes in a row each lost a race. *)
Inductive raced_passes : nat → W → W → Prop :=
  | raced_none w : raced_passes 0 w w
  | raced_more n w w1 w2 st :
      sync_pass a b ancestry w = (Ok st, w1) → st.2 ≠ [] →
      raced_passes n w1 w2 → raced_passes (S n) w w2.

Lemma foldM_preserves {E A B} (f : B → A → M W E B) (P : B → Prop) l acc w acc' w' :
  (∀ acc x w acc' w', P acc → f acc x w = (Ok acc', w') → P acc') →
  P acc → foldM f acc l w = (Ok acc', w') → P acc'.
Proof.
  intros Hf. revert acc w. induction l as [|x l IH]; intros acc w HP.
  - by intros [= -> ->].
  - rewrite foldM_cons. destruct (f acc x w) as [[acc1|] w1] eqn:Hx; [|done].
    apply IH. by eapply Hf.
Qed.

Lemma bind_inv {E A B} (m : M W E A) (f : A → M W E B) w y w' :
  mbind f m w = (Ok y, w') → ∃ x w1, m w = (Ok x, w1) ∧ f x w1 = (Ok y, w').
Proof. unfold mbind, M_bind. destruct (m w) as [[x|] w1]; [eauto|done]. Qed.

Lemma landed_unconverged p k l (st : SyncState) :
  unconverged st.1 = [] → unconverged (landed_or_raced p k l st).1 = [].
Proof. destruct l, p; done. Qed.

Lemma sync_key_unconverged st k w st' w' :
  unconverged st.1 = [] → sync_key a b ancestry st k w = (Ok st', w') →
  unconverged st'.1 = [].
Proof.
  intros Hst (ra & w1 & _ & (rb & w2 & _ & Hrun)%bind_inv)%bind_inv.
  destruct ra as [ra|], rb as [rb|]; simpl in Hrun.
  - destruct (relate ra rb); [by injection Hrun as <- _| | |].
    + apply bind_inv in Hrun as (l & w3 & _ & [= <- _]). by apply landed_unconverged.
    + apply bind_inv in Hrun as (l & w3 & _ & [= <- _]). by apply landed_unconverged.
    + unfold sync_diverged in Hrun. destruct (is_tombstone ra), (is_tombstone rb).
      * apply bind_inv in Hrun as (l & w3 & _ & [= <- _]). by apply landed_unconverged.
      * by injection Hrun as <- _.
      * by injection Hrun as <- _.
      * apply bind_inv in Hrun as (base & w3 & _ & Hrun).
        destruct (Merge.merge _ _ _ _); [|by injection Hrun as <- _].
        apply bind_inv in Hrun as (l & w4 & _ & [= <- _]). by apply landed_unconverged.
  - apply bind_inv in Hrun as (l & w3 & _ & [= <- _]). by apply landed_unconverged.
  - apply bind_inv in Hrun as (l & w3 & _ & [= <- _]). by apply landed_unconverged.
  - by injection Hrun as <- _.
Qed.

Lemma sync_pass_unconverged w st w' :
  sync_pass a b ancestry w = (Ok st, w') → unconverged st.1 = [].
Proof.
  intros (la & w1 & _ & (lb & w2 & _ & Hrun)%bind_inv)%bind_inv.
  refine (foldM_preserves _ (λ st : SyncState, unconverged st.1 = []) _ _ _ _ _ _ _ Hrun);
    [|done].
  intros ?????. apply sync_key_unconverged.
Qed.

Lemma sync_passes_outcome n w report r w' :
  sync_passes n a b ancestry report w = (Ok r, w') → 0 < n →
  (∃ m w1 st, m < n ∧ raced_passes m w w1 ∧ sync_pass a b ancestry w1 = (Ok st, w') ∧
     st.2 = [] ∧ r = st.1) ∨
  (∃ w1 st, raced_passes (n - 1) w w1 ∧ sync_pass a b ancestry w1 = (Ok st, w') ∧
     st.2 ≠ [] ∧ r = set_unconverged st.1 st.2).
Proof.
  revert w report. induction n as [|n IH]; intros w report Hrun Hn; [lia|].
  simpl in Hrun. apply bind_inv in Hrun as (st & w1 & Hpass & Hrun).
  case_decide as Hst.
  - injection Hrun as <- <-. left. exists 0, w, st. split_and!; [lia|constructor|done..].
  - destruct n as [|n].
    + injection Hrun as <- <-. right. exists w, st. split_and!; [constructor|done..].
    + destruct (IH _ _ Hrun ltac:(lia)) as [(m & w2 & st2 & Hm & Hr & H2)|(w2 & st2 & Hr & H2)].
      * left. exists (S m), w2, st2. split_and!; [lia|by econstructor|apply H2..].
      * right. exists w2, st2. replace (S (S n) - 1) with (S (S n - 1)) by lia.
        split; [by econstructor|done].
Qed.

(** Sync is bounded and honest under any interference.  Whatever the stores
    do, a run that returns made at most [MAX_SYNC_PASSES] passes, and its
    report says [converged] exactly when its last pass lost no race;
    otherwise every pass raced and the keys the last one lost are named. *)
Theorem sync_bounded_and_honest (w w' : W) (report : SyncReport) :
  sync_with_ancestry a b ancestry w = (Ok report, w') →
  if converged report then
    ∃ m w1, m < MAX_SYNC_PASSES ∧ raced_passes m w w1 ∧
      sync_pass a b ancestry w1 = (Ok (report, []), w')
  else
    ∃ w1 rep, raced_passes (MAX_SYNC_PASSES - 1) w w1 ∧
      sync_pass a b ancestry w1 = (Ok (rep, unconverged report), w') ∧
      report = set_unconverged rep (unconverged report).
Proof.
  intros Hrun. apply sync_passes_outcome in Hrun; [|unfold MAX_SYNC_PASSES; lia].
  unfold converged. destruct Hrun as
    [(m & w1 & [rep raced] & Hm & Hr & Hp & Hst & ->)|(w1 & [rep raced] & Hr & Hp & Hst & ->)];
    simpl in *.
  - subst raced. rewrite bool_decide_true by by apply (sync_pass_unconverged _ _ _ Hp).
    by exists m, w1.
  - rewrite bool_decide_false by done. by exists w1, rep.
Qed.
End bounded.

(** ** Witnesses: two [MemStore]s and their ancestry *)

Section witnesses.
#[local] Existing Instance sample_hash.
#[local] Existing Instance ToyJson.toy.

#[local] Abbreviation sample_sync := (sync_with_ancestry store_a store_b (Some sample_blobs)).

(** A deleted the record B still has, and both hold one of their own. *)
Definition stale : record := sample_record sample_key 4 "v4" [sample_rev 3 "v3"].
Definition deleted : record := tombstone_of stale 100 32 None.
Definition mine : record := sample_record sample_key2 0 "mine" [].

Definition sync_world : sample_world :=
  (<[sample_key := deleted]> (<[sample_key2 := mine]> ∅), {[sample_key := stale]}, ∅).

Lemma sync_world_keyed : keyed sync_world.1.1 ∧ keyed sync_world.1.2.
Proof.
  split; intros k r; cbn [sync_world fst snd].
  - intros [[<- <-]|[_ [[<- <-]|[_ ?]]%lookup_insert_Some]]%lookup_insert_Some; done.
  - by intros [<- <-]%lookup_singleton_Some.
Qed.

Lemma sample_sync_runs : ∃ report w', sample_sync sync_world = (Ok report, w') ∧
  unconverged report = [].
Proof.
  destruct (sync_settles store_a store_b (Some sample_blobs) (λ w : sample_world, w.1.1)
    (λ w, w.1.2) (λ w, w.2) (λ _, tt) 32 32
    (StoreLaws0 := store_a_laws (λ p, (p.1, p.2, tt)))
    (StoreLaws1 := store_b_laws (λ p, (p.1, p.2, tt)))
    (sample_blobs_laws (λ p, (p.1, p.2, tt))) sync_world) as (w' & Hrun & _);
    [apply sync_world_keyed|apply sync_world_keyed|].
  eexists _, w'. split; [exact Hrun|apply unconverged_report].
Qed.

Lemma sync_implements_settle_witness : ∃ report w', sample_sync sync_world = (Ok report, w') ∧
  converged report = true.
Proof.
  destruct (sync_implements_settle store_a store_b (Some sample_blobs) (λ w : sample_world, w.1.1)
    (λ w, w.1.2) (λ w, w.2) (λ _, tt) 32 32
    (StoreLaws0 := store_a_laws (λ p, (p.1, p.2, tt)))
    (StoreLaws1 := store_b_laws (λ p, (p.1, p.2, tt)))
    (sample_blobs_laws (λ p, (p.1, p.2, tt))) sync_world) as (w' & Hrun & Hc & _);
    [apply sync_world_keyed|apply sync_world_keyed|].
  eexists _, w'. split; [exact Hrun|exact Hc].
Defined.

Lemma sync_agreement_witness : ∃ report w', sample_sync sync_world = (Ok report, w').
Proof.
  destruct (sync_agreement store_a store_b (Some sample_blobs) (λ w : sample_world, w.1.1)
    (λ w, w.1.2) (λ w, w.2) (λ _, tt) 32 32
    (StoreLaws0 := store_a_laws (λ p, (p.1, p.2, tt)))
    (StoreLaws1 := store_b_laws (λ p, (p.1, p.2, tt)))
    (sample_blobs_laws (λ p, (p.1, p.2, tt))) sync_world) as (report & w' & Hrun & _);
    [apply sync_world_keyed|apply sync_world_keyed|].
  exists report, w'. exact Hrun.
Defined.

Lemma sync_fast_forwards_witness : ∃ report w' r, sample_sync sync_world = (Ok report, w') ∧
  w'.1.2 !! sample_key = Some r ∧ is_tombstone r = true.
Proof.
  destruct (sync_fast_forwards store_a store_b (Some sample_blobs) (λ w : sample_world, w.1.1)
    (λ w, w.1.2) (λ w, w.2) (λ _, tt) 32 32
    (StoreLaws0 := store_a_laws (λ p, (p.1, p.2, tt)))
    (StoreLaws1 := store_b_laws (λ p, (p.1, p.2, tt)))
    (sample_blobs_laws (λ p, (p.1, p.2, tt))) sync_world sample_key deleted stale)
    as (report & w' & Hrun & _ & anc & Hb & Ht & _);
    [apply sync_world_keyed|apply sync_world_keyed|vm_compute; reflexivity
    |vm_compute; reflexivity|by vm_compute| |].
  - apply elem_of_cons. left. vm_compute. reflexivity.
  - exists report, w', (set_ancestors deleted anc).
    split; [exact Hrun|]. split; [exact Hb|]. rewrite Ht. reflexivity.
Defined.

Lemma sync_idempotent_witness : ∃ report w' w'',
  sample_sync sync_world = (Ok report, w') ∧
  sample_sync w' = (Ok (only_conflicts (conflicts report)), w'').
Proof.
  destruct sample_sync_runs as (report & w' & Hrun & _).
  destruct (sync_idempotent store_a store_b (Some sample_blobs) (λ w : sample_world, w.1.1)
    (λ w, w.1.2) (λ w, w.2) (λ _, tt) 32 32
    (StoreLaws0 := store_a_laws (λ p, (p.1, p.2, tt)))
    (StoreLaws1 := store_b_laws (λ p, (p.1, p.2, tt)))
    (sample_blobs_laws (λ p, (p.1, p.2, tt))) sync_world report w')
    as (w'' & Hrun' & _); [apply sync_world_keyed|apply sync_world_keyed|exact Hrun|].
  exists report, w', w''. split; [exact Hrun|exact Hrun'].
Defined.

Lemma sync_bounded_and_honest_witness : ∃ report w',
  sample_sync sync_world = (Ok report, w') ∧ converged report = true ∧
  ∃ m w1, m < MAX_SYNC_PASSES ∧
    raced_passes store_a store_b (Some sample_blobs) m sync_world w1.
Proof.
  destruct sample_sync_runs as (report & w' & Hrun & Hu).
  pose proof (sync_bounded_and_honest store_a store_b (Some sample_blobs)
    sync_world w' report Hrun) as Hb.
  assert (converged report = true) as Hc.
  { unfold converged. by apply bool_decide_eq_true. }
  rewrite Hc in Hb. destruct Hb as (m & w1 & Hm & Hr & _). exists report, w'.
  split; [exact Hrun|]. split; [exact Hc|]. exists m, w1. split; [exact Hm|exact Hr].
Defined.
End witnesses.
