(* ===== verification/Maintenance.v ===== *)
(** * Maintenance: collecting tombstones and resetting a namespace

    Models [gonzalo-core]'s [collect.rs] and [reset.rs].  Both walk a listing
    and act on each key under its revision; the theorems say what each run
    leaves at every key of a lawful store, and that nothing else moves. *)

From S2P Require Export Contract.

(** ** Collecting tombstones *)

Record CollectReport := mkCollectReport {
  purged : list RecordKey;
  unstamped : N;
  collect_conflicts : list RecordKey
}.

Definition i128_max : Z := 2 ^ 127 - 1.

(** [i128::try_from(horizon.as_millis()).unwrap_or(i128::MAX)]. *)
Definition horizon_ms (horizon : Duration) : Z :=
  Z.min (Z.of_N (as_millis horizon)) i128_max.

Section maintenance.
Context `{Blake3} {W : Type}.
Variable store : Store W.

(** The loop body of [collect]. *)
Definition collect_key (prefix : KeyPrefix) (horizon now_ms : Z) (report : CollectReport)
    (key : RecordKey) : M W CoreError CollectReport :=
  if negb (prefix_matches prefix key) then mret report
  else
    o ← st_get_raw store key;
    match o with
    | None => mret report
    | Some r =>
        if negb (is_tombstone r) then mret report
        else match rec_deleted_at r with
             | None => mret (mkCollectReport (purged report) (unstamped report + 1)
                         (collect_conflicts report))
             | Some deleted_at =>
                 if decide (now_ms - deleted_at < horizon)%Z then mret report
                 else
                   res ← st_purge store key (rec_revision r);
                   mret (match res with
                         | Deleted => mkCollectReport (purged report ++ [key])
                             (unstamped report) (collect_conflicts report)
                         | DeleteConflicted _ => mkCollectReport (purged report)
                             (unstamped report) (collect_conflicts report ++ [key])
                         end)
             end
    end.

Definition collect (prefix : KeyPrefix) (horizon : Duration) (now_ms : Z) :
    M W CoreError CollectReport :=
  keys ← st_list_raw store prefix;
  foldM (collect_key prefix (horizon_ms horizon) now_ms) (mkCollectReport [] 0 []) keys.

(** ** Resetting a namespace *)

Record ResetReport := mkResetReport {
  reset_deleted : list RecordKey;
  reset_conflicts : list RecordKey
}.

(** The loop body of [reset_as]. *)
Definition reset_key (prefix : KeyPrefix) (author : option Identity)
    (report : ResetReport) (key : RecordKey) : M W CoreError ResetReport :=
  if negb (prefix_matches prefix key) then mret report
  else
    o ← st_get store key;
    match o with
    | None => mret report
    | Some current =>
        res ← st_delete_as store key (Some (rec_revision current)) author;
        mret (match res with
              | Deleted => mkResetReport (reset_deleted report ++ [key])
                             (reset_conflicts report)
              | DeleteConflicted _ => mkResetReport (reset_deleted report)
                             (reset_conflicts report ++ [key])
              end)
    end.

Definition reset_as (prefix : KeyPrefix) (author : option Identity) :
    M W CoreError ResetReport :=
  match prefix_namespace prefix with
  | None => throw (Backend "reset requires a namespace")
  | Some _ =>
      keys ← st_list store prefix;
      foldM (reset_key prefix author) (mkResetReport [] []) keys
  end.

Definition reset (prefix : KeyPrefix) : M W CoreError ResetReport := reset_as prefix None.
End maintenance.

(** ** What a run leaves *)

Section theorems.
Context `{Blake3} {W F : Type} (store : Store W) (contents : W → records) (cap : nat).
Context (frame : W → F) `{!StoreLaws store contents cap frame}.
Implicit Types w : W.

(** What [collect] may purge at a key. *)
Definition collectable (prefix : KeyPrefix) (horizon : Duration) (now_ms : Z)
    (k : RecordKey) (o : option record) : bool :=
  prefix_matches prefix k &&
  match o with
  | Some r => is_tombstone r &&
      match rec_deleted_at r with
      | Some d => bool_decide (horizon_ms horizon ≤ now_ms - d)%Z
      | None => false
      end
  | None => false
  end.

Lemma collect_key_spec prefix horizon now report k w : ∃ report' w',
  collect_key store prefix (horizon_ms horizon) now report k w = (Ok report', w') ∧
  frame w' = frame w ∧ collect_conflicts report' = collect_conflicts report ∧
  purged report' = purged report ++
    (if collectable prefix horizon now k (contents w !! k) then [k] else []) ∧
  contents w' = (if collectable prefix horizon now k (contents w !! k)
                 then delete k (contents w) else contents w).
Proof.
  unfold collect_key, collectable. destruct (prefix_matches prefix k); simpl;
    [|by exists report, w; rewrite app_nil_r].
  destruct (law_get_raw (s := store) k w) as (w1 & Hg & Hc1 & Hf1).
  rewrite (bind_ok _ _ _ _ _ Hg).
  destruct (contents w !! k) as [r|] eqn:Hr; [|by exists report, w1; rewrite app_nil_r].
  destruct (is_tombstone r); simpl; [|by exists report, w1; rewrite app_nil_r].
  destruct (rec_deleted_at r) as [d|]; [|by eexists _, w1; rewrite app_nil_r].
  case_decide; [rewrite bool_decide_false by lia; by exists report, w1; rewrite app_nil_r|].
  rewrite bool_decide_true by lia.
  destruct (law_purge (s := store) k (rec_revision r) w1) as (res & w2 & Hp & Hf2 & Heq).
  rewrite Hc1, Hr in Heq. unfold plan_purge in Heq. rewrite decide_True in Heq by done.
  injection Heq as -> Hc2. rewrite (bind_ok _ _ _ _ _ Hp).
  eexists _, w2. split; [reflexivity|]. split_and!; [congruence|done..].
Qed.

(** Collection purges exactly the tombstones past the horizon.  Under the
    prefix, a tombstone stamped at least [horizon] ago disappears and is
    reported; a live record, a tombstone too young, one without a stamp or one
    from the future, and everything outside the prefix, stays as it was. *)
Theorem collect_purges_exactly (prefix : KeyPrefix) (horizon : Duration) (now_ms : Z) w :
  keyed (contents w) → ∃ report w',
    collect store prefix horizon now_ms w = (Ok report, w') ∧ frame w' = frame w ∧
    collect_conflicts report = [] ∧ NoDup (purged report) ∧
    (∀ k, k ∈ purged report ↔ collectable prefix horizon now_ms k (contents w !! k) = true) ∧
    (∀ k, contents w' !! k = if collectable prefix horizon now_ms k (contents w !! k)
                             then None else contents w !! k).
Proof.
  intros Hk.
  destruct (law_list_raw (s := store) prefix w Hk)
    as (keys & w1 & Hl & Hc1 & Hf1 & Hnd & Hkeys).
  set (cl k := collectable prefix horizon now_ms k (contents w !! k)).
  destruct (foldM_inv (collect_key store prefix (horizon_ms horizon) now_ms)
    (λ done report w', frame w' = frame w ∧ collect_conflicts report = [] ∧
       purged report = filter (λ k, cl k = true) done ∧
       ∀ k, contents w' !! k = if decide (k ∈ done ∧ cl k = true) then None
                               else contents w !! k) keys (mkCollectReport [] 0 []) w1)
    as (report & w2 & Hrun & Hf2 & Hcf & Hp & Hc2).
  - split_and!; [done..|]. intros k. rewrite Hc1, decide_False; set_solver.
  - intros done k todo report w0 Hd (Hf & Hcf & Hp & Hc).
    assert (k ∉ done) as Hnin.
    { rewrite Hd in Hnd. apply NoDup_app in Hnd. set_solver. }
    assert (contents w0 !! k = contents w !! k) as Hk0.
    { rewrite Hc, decide_False; naive_solver. }
    destruct (collect_key_spec prefix horizon now_ms report k w0)
      as (report' & w' & Hrun & Hf' & Hcf' & Hp' & Hc').
    rewrite Hk0 in Hp', Hc'. fold (cl k) in Hp', Hc'.
    exists report', w'. split; [done|]. split_and!; [congruence..| |].
    + rewrite Hp', Hp, filter_app. f_equal. rewrite filter_cons. by destruct (cl k).
    + intros k'. rewrite Hc'. destruct (decide (k' = k)) as [->|Hne].
      * destruct (cl k) eqn:Hcl.
        -- rewrite lookup_delete_eq, decide_True; [done|]. split; [set_solver|done].
        -- rewrite Hk0, decide_False; [done|]. naive_solver.
      * assert (contents w0 !! k' = (if cl k then delete k (contents w0) else contents w0) !! k')
          as <- by (destruct (cl k); by rewrite ?lookup_delete_ne by done).
        rewrite Hc. apply decide_ext. set_solver.
  - exists report, w2.
    assert (∀ k, cl k = true → k ∈ keys) as Hin.
    { intros k Hcl. apply Hkeys. unfold cl, collectable in Hcl.
      apply andb_true_iff in Hcl as [Hpre Hcl]. split; [|done].
      destruct (contents w !! k); [by eauto|done]. }
    split_and!; try done.
    + unfold collect. by rewrite (bind_ok _ _ _ _ _ Hl).
    + rewrite Hp. by apply NoDup_filter.
    + intros k. rewrite Hp, list_elem_of_filter. fold (cl k). naive_solver.
    + intros k. rewrite Hc2. fold (cl k). destruct (cl k) eqn:Hcl.
      * rewrite decide_True; auto.
      * rewrite decide_False; [done|]. naive_solver.
Qed.

Lemma reset_key_spec prefix author report k r w :
  prefix_matches prefix k = true → contents w !! k = Some r → is_tombstone r = false →
  ∃ now w', reset_key store prefix author report k w =
    (Ok (mkResetReport (reset_deleted report ++ [k]) (reset_conflicts report)), w') ∧
  frame w' = frame w ∧ contents w' = <[k := tombstone_of r now cap author]> (contents w).
Proof.
  intros Hp Hr Ht. unfold reset_key. rewrite Hp. simpl.
  destruct (law_get (s := store) k w) as (w1 & Hg & Hc1 & Hf1).
  rewrite (proj2 (live_Some _ _) (conj Hr Ht)) in Hg. rewrite (bind_ok _ _ _ _ _ Hg).
  destruct (law_delete_as (s := store) k (Some (rec_revision r)) author w1)
    as (now & res & w2 & Hd & Hf2 & Heq).
  rewrite Hc1, Hr in Heq.
  assert (plan_delete (Some r) (Some (rec_revision r)) now cap author =
    DeleteWrite (tombstone_of r now cap author)) as Hplan
    by (apply plan_delete_write; exists r; auto).
  rewrite Hplan in Heq. injection Heq as -> Hc2. rewrite (bind_ok _ _ _ _ _ Hd).
  exists now, w2. split_and!; [done|congruence|done].
Qed.

(** A reset deletes exactly what is live under its prefix.  Without a
    namespace it refuses and touches nothing.  With one, every live record
    under the prefix becomes its own tombstone, signed by the author when one
    is given, and is reported once; no conflict, no other key changes; and
    nothing live is left under the prefix, so a second run deletes nothing. *)
Theorem reset_deletes_exactly (prefix : KeyPrefix) (author : option Identity) w :
  keyed (contents w) →
  match prefix_namespace prefix with
  | None => reset_as store prefix author w =
      (Err (Backend "reset requires a namespace"), w)
  | Some _ => ∃ report w',
      reset_as store prefix author w = (Ok report, w') ∧ frame w' = frame w ∧
      reset_conflicts report = [] ∧ NoDup (reset_deleted report) ∧
      (∀ k, k ∈ reset_deleted report ↔
         is_Some (live (contents w !! k)) ∧ prefix_matches prefix k = true) ∧
      (∀ k, k ∈ reset_deleted report → ∃ r now, contents w !! k = Some r ∧
         contents w' !! k = Some (tombstone_of r now cap author)) ∧
      (∀ k, k ∉ reset_deleted report → contents w' !! k = contents w !! k) ∧
      (∀ k, prefix_matches prefix k = true → live (contents w' !! k) = None)
  end.
Proof.
  intros Hk. unfold reset_as. destruct (prefix_namespace prefix) as [n|]; [|done].
  destruct (law_list (s := store) prefix w Hk) as (keys & w1 & Hl & Hc1 & Hf1 & Hnd & Hkeys).
  destruct (foldM_inv (reset_key store prefix author)
    (λ done report w', frame w' = frame w ∧ reset_conflicts report = [] ∧
       reset_deleted report = done ∧
       (∀ k, k ∈ done → ∃ r now, contents w !! k = Some r ∧
          contents w' !! k = Some (tombstone_of r now cap author)) ∧
       (∀ k, k ∉ done → contents w' !! k = contents w !! k)) keys (mkResetReport [] []) w1)
    as (report & w2 & Hrun & Hf2 & Hcf & Hdel & Hin & Hout).
  - split_and!; [done..|set_solver|]. intros k _. by rewrite Hc1.
  - intros done k todo report w0 Hd (Hf & Hcf & Hdel & Hin & Hout).
    assert (k ∉ done) as Hnin.
    { rewrite Hd in Hnd. apply NoDup_app in Hnd. set_solver. }
    assert (is_Some (live (contents w !! k)) ∧ prefix_matches prefix k = true)
      as [[r [Hr Ht]%live_Some] Hp] by (apply Hkeys; rewrite Hd; set_solver).
    destruct (reset_key_spec prefix author report k r w0 Hp) as (now & w' & Hrun & Hf' & Hc');
      [by rewrite Hout|done|].
    eexists _, w'. split; [exact Hrun|]. simpl. split_and!; [congruence|done|by rewrite Hdel| |].
    + intros k' [Hk'| ->%list_elem_of_singleton]%elem_of_app.
      * destruct (Hin k' Hk') as (r' & now' & Hr' & Ht'). exists r', now'.
        split; [done|]. rewrite Hc'. rewrite lookup_insert_ne by set_solver. done.
      * exists r, now. by rewrite Hc', lookup_insert_eq.
    + intros k' Hk'. rewrite Hc'. rewrite lookup_insert_ne by set_solver. apply Hout. set_solver.
  - exists report, w2. rewrite Hdel in *. split_and!; try done.
    + by rewrite (bind_ok _ _ _ _ _ Hl).
    + intros k Hp. destruct (decide (k ∈ keys)) as [Hkin|Hkout].
      * destruct (Hin k Hkin) as (r & now & _ & ->). done.
      * rewrite (Hout k Hkout). apply eq_None_not_Some. intros Hlive. apply Hkout.
        by apply Hkeys.
Qed.
End theorems.

(** ** Witnesses *)

Section witnesses.
#[local] Existing Instance sample_hash.

Definition maintenance_world : records :=
  {[sample_key := tombstone_of (sample_record sample_key 4 "v4" []) 100 32 None]}.

Lemma maintenance_world_keyed : keyed maintenance_world.
Proof. intros k r; unfold maintenance_world; by intros [<- <-]%lookup_singleton_Some. Qed.

Lemma collect_purges_exactly_witness : ∃ report w',
  collect sample_store KeyPrefix_default (from_secs 1) 2000 maintenance_world =
    (Ok report, w') ∧ w' !! sample_key = None.
Proof.
  destruct (collect_purges_exactly sample_store id 3 (λ _, tt) KeyPrefix_default
    (from_secs 1) 2000 maintenance_world maintenance_world_keyed)
    as (report & w' & Hrun & _ & _ & _ & _ & Hc).
  exists report, w'. split; [exact Hrun|]. etrans; [apply (Hc sample_key)|].
  vm_compute. reflexivity.
Defined.

Lemma reset_deletes_exactly_witness : ∃ report w',
  reset_as sample_store (mkPrefix (Some "ns") None) None
    {[sample_key := sample_record sample_key 4 "v4" []]} = (Ok report, w') ∧
  live (w' !! sample_key) = None.
Proof.
  destruct (reset_deletes_exactly sample_store id 3 (λ _, tt) (mkPrefix (Some "ns") None) None
    {[sample_key := sample_record sample_key 4 "v4" []]})
    as (report & w' & Hrun & _ & _ & _ & _ & _ & _ & Hlive).
  - intros k r; unfold id; by intros [<- <-]%lookup_singleton_Some.
  - exists report, w'. split; [exact Hrun|]. apply (Hlive sample_key). vm_compute. reflexivity.
Defined.
End witnesses.
