(* ===== verification/Manifests.v ===== *)
(** * Manifests: which blobs make up a code graph or a vector index

    Models [gonzalo-core]'s [manifest.rs] and [vector_manifest.rs].  The JSON
    text of a manifest is serde's: [ManifestSerde] is the class of codecs that
    can play it. *)

From S2P Require Export Records Samples.

(** ** Graph manifests *)

Definition MANIFEST_COLLECTION : string := "graph-manifest".

Record manifest := mkManifest { entries : gmap string ContentHash }.

Definition Manifest_new : manifest := mkManifest ∅.

Definition Manifest_key (repo view_id : string) : RecordKey :=
  mkKey repo MANIFEST_COLLECTION view_id.

Definition Manifest_insert (m : manifest) (path : string) (hash : ContentHash) : manifest :=
  mkManifest (<[path := hash]> (entries m)).

Definition Manifest_get (m : manifest) (path : string) : option ContentHash :=
  entries m !! path.

Record Reconciliation := mkReconciliation {
  added : list string;
  modified : list string;
  deleted : list string;
  reconciled : manifest
}.

(** The loop over [desired] in key order, pushing onto [added] and
    [modified]. *)
Definition reconcile_step (current : gmap string ContentHash)
    (acc : list string * list string) (p : string * ContentHash) :
    list string * list string :=
  match current !! p.1 with
  | None => (acc.1 ++ [p.1], acc.2)
  | Some c => if decide (c ≠ p.2) then (acc.1, acc.2 ++ [p.1]) else acc
  end.

Definition Manifest_reconcile (m : manifest) (desired : gmap string ContentHash) :
    Reconciliation :=
  let '(added, modified) :=
    foldl (reconcile_step (entries m)) ([], []) (btree_items desired) in
  let deleted := filter (λ path, desired !! path = None) (btree_keys (entries m)) in
  mkReconciliation added modified deleted (mkManifest desired).

(** [collect] into a [BTreeMap]: a later entry for a path replaces an earlier
    one. *)
Definition desired_set `{Blake3} (files : list (string * bytes)) : gmap string ContentHash :=
  foldl (λ m '(path, content), <[path := ContentHash_of content]> m) ∅ files.

(** ** Vector manifests *)

Definition VECTOR_MANIFEST_COLLECTION : string := "vector-manifest".

(** [dim] is a [usize], [shards] and the entries' keys are [u16]. *)
Record vector_manifest := mkVectorManifest {
  vm_space : string;
  vm_dim : N;
  vm_shards : N;
  vm_entries : gmap N ContentHash
}.

Definition VectorManifest_new (space : string) (dim shards : N) : vector_manifest :=
  mkVectorManifest space dim shards ∅.

Definition VectorManifest_key (namespace index_id : string) : RecordKey :=
  mkKey namespace VECTOR_MANIFEST_COLLECTION index_id.

#[export] Instance vector_manifest_eq_dec : EqDecision vector_manifest.
Proof. solve_decision. Defined.

(** ** serde *)

Class ManifestSerde := {
  entries_to_vec : gmap string ContentHash → bytes;
  entries_from_slice : bytes → result string (gmap string ContentHash);
  vector_to_vec : vector_manifest → bytes;
  vector_from_slice : bytes → result string vector_manifest;
  entries_roundtrip e : entries_from_slice (entries_to_vec e) = Ok e;
  vector_roundtrip v : vector_from_slice (vector_to_vec v) = Ok v
}.

Section bodies.
Context `{ManifestSerde}.

Definition Manifest_to_body (m : manifest) : Body := Inline (entries_to_vec (entries m)).

Definition Manifest_from_body (body : Body) : Result manifest :=
  entries ← map_err Serde (entries_from_slice (body_bytes body));
  Ok (mkManifest entries).

Definition VectorManifest_to_body (v : vector_manifest) : Body := Inline (vector_to_vec v).

Definition VectorManifest_from_body (body : Body) : Result vector_manifest :=
  map_err Serde (vector_from_slice (body_bytes body)).

Lemma Manifest_from_to_body m : Manifest_from_body (Manifest_to_body m) = Ok m.
Proof.
  unfold Manifest_from_body, Manifest_to_body. simpl. rewrite entries_roundtrip.
  by destruct m.
Qed.

Lemma VectorManifest_from_to_body v : VectorManifest_from_body (VectorManifest_to_body v) = Ok v.
Proof.
  unfold VectorManifest_from_body, VectorManifest_to_body. simpl. by rewrite vector_roundtrip.
Qed.
End bodies.

(** ** Reconciling is a set difference *)

Lemma reconcile_fold current items a m :
  foldl (reconcile_step current) (a, m) items =
    (a ++ (filter (λ p : string * ContentHash, current !! p.1 = None) items).*1,
     m ++ (filter (λ p : string * ContentHash,
       is_Some (current !! p.1) ∧ current !! p.1 ≠ Some p.2) items).*1).
Proof.
  revert a m. induction items as [|[path hash] items IH]; intros a m; simpl.
  - by rewrite !app_nil_r.
  - unfold reconcile_step at 2. simpl. rewrite !filter_cons. simpl.
    destruct (current !! path) as [c|] eqn:Hc.
    + rewrite (decide_False (P := Some c = None)) by done.
      destruct (decide (c = hash)) as [->|Hne].
      * rewrite decide_False by naive_solver.
        rewrite (decide_False (P := is_Some (Some hash) ∧ _)) by naive_solver. apply IH.
      * rewrite decide_True by done.
        rewrite (decide_True (P := is_Some (Some c) ∧ _)) by (split; [by eauto|congruence]).
        rewrite IH. by rewrite <-app_assoc.
    + rewrite decide_True by done.
      rewrite (decide_False (P := is_Some None ∧ _)) by (intros [[? ?] _]; done).
      rewrite IH. by rewrite <-app_assoc.
Qed.

(** Reconciling a manifest with a working tree is the set difference.  The
    result is the tree; a path is added, modified or deleted exactly when its
    entry says so; each change set is strictly sorted, so no path is reported
    twice; and applying the change sets to the old manifest, with the tree's
    hashes, gives the new one. *)
Theorem manifest_reconcile_spec (m : manifest) (desired : gmap string ContentHash) :
  let r := Manifest_reconcile m desired in
  entries (reconciled r) = desired ∧
  (∀ p, p ∈ added r ↔ entries m !! p = None ∧ is_Some (desired !! p)) ∧
  (∀ p, p ∈ modified r ↔ ∃ h h', entries m !! p = Some h ∧ desired !! p = Some h' ∧ h ≠ h') ∧
  (∀ p, p ∈ deleted r ↔ is_Some (entries m !! p) ∧ desired !! p = None) ∧
  increasing (added r) ∧ increasing (modified r) ∧ increasing (deleted r) ∧
  (∀ p, desired !! p =
     if decide (p ∈ deleted r) then None
     else if decide (p ∈ added r ∨ p ∈ modified r) then desired !! p
     else entries m !! p).
Proof.
  unfold Manifest_reconcile. rewrite reconcile_fold. simpl.
  set (A := (filter (λ p : string * ContentHash, entries m !! p.1 = None)
    (btree_items desired)).*1).
  set (B := (filter (λ p : string * ContentHash,
    is_Some (entries m !! p.1) ∧ entries m !! p.1 ≠ Some p.2) (btree_items desired)).*1).
  set (D := filter (λ path, desired !! path = None) (btree_keys (entries m))).
  assert (∀ p, p ∈ A ↔ entries m !! p = None ∧ is_Some (desired !! p)) as HA.
  { intros p. unfold A. rewrite elem_of_fst_filter. simpl. unfold is_Some. naive_solver. }
  assert (∀ p, p ∈ B ↔
    ∃ h h', entries m !! p = Some h ∧ desired !! p = Some h' ∧ h ≠ h') as HB.
  { intros p. unfold B. rewrite elem_of_fst_filter. simpl. split.
    - intros (h' & Hd & [h Hh] & Hne). exists h, h'. split_and!; congruence.
    - intros (h & h' & Hh & Hd & Hne). exists h'. rewrite Hh. split_and!; [done|by eauto|congruence]. }
  assert (∀ p, p ∈ D ↔ is_Some (entries m !! p) ∧ desired !! p = None) as HD.
  { intros p. unfold D. rewrite list_elem_of_filter, elem_of_btree_keys. tauto. }
  split_and!; try done.
  - apply increasing_fst_filter.
  - apply increasing_fst_filter.
  - apply StronglySorted_filter, btree_keys_increasing.
  - intros p. case_decide as Hd; [by apply HD in Hd as [_ ?]|].
    case_decide as Hab; [done|]. rewrite HA, HB in Hab. rewrite HD in Hd.
    destruct (entries m !! p) as [h|] eqn:E, (desired !! p) as [h'|] eqn:E'; try done.
    + destruct (decide (h = h')) as [->|]; [done|]. exfalso. apply Hab. right. naive_solver.
    + exfalso. apply Hd. by eauto.
    + exfalso. apply Hab. left. by eauto.
Qed.

(** ** A codec to instantiate the class at *)

#[export] Instance vector_manifest_countable : Countable vector_manifest :=
  inj_countable' (λ v, (vm_space v, vm_dim v, vm_shards v, vm_entries v))
    (λ '(s, d, n, e), mkVectorManifest s d n e) ltac:(by intros []).

Definition sample_serde : ManifestSerde := {|
  entries_to_vec := to_bits;
  entries_from_slice b := ok_or "bad manifest" (from_bits b);
  vector_to_vec := to_bits;
  vector_from_slice b := ok_or "bad vector manifest" (from_bits b);
  entries_roundtrip e := f_equal (ok_or _) (from_bits_to_bits e);
  vector_roundtrip v := f_equal (ok_or _) (from_bits_to_bits v)
|}.
