(* ===== verification/Shards.v ===== *)
(** * Shards: the on-blob format of a durable vector index

    Models [gonzalo-vector]'s [shard.rs]: which shard a key belongs to, and the
    [GZVS] format of a shard.  Lengths are little-endian and truncated to their
    width, as the casts of the code do; a reader is a position in the bytes.
    An [f32] is its four bytes, which [to_le_bytes] and [from_le_bytes] expose
    unchanged. *)

From S2P Require Export Paths.
From S2P Require Import Samples.
From S2P Require Fleet.

(** ** Little-endian integers and floats *)

Fixpoint le_bytes (width : nat) (n : N) : bytes :=
  match width with
  | O => []
  | S w => byte_of n :: le_bytes w (n / 256)
  end.

Fixpoint le_val (b : bytes) : N :=
  match b with
  | [] => 0
  | x :: b' => byte_code x + 256 * le_val b'
  end.

Record f32 := mkF32 { f0 : Byte.byte; f1 : Byte.byte; f2 : Byte.byte; f3 : Byte.byte }.

#[export] Instance f32_eq_dec : EqDecision f32.
Proof. solve_decision. Defined.

Definition f32_to_le_bytes (f : f32) : bytes := [f0 f; f1 f; f2 f; f3 f].
Definition f32_from_le_bytes (b : bytes) : f32 :=
  mkF32 (nth 0 b Byte.x00) (nth 1 b Byte.x00) (nth 2 b Byte.x00) (nth 3 b Byte.x00).

Abbreviation vector := (list f32).
Abbreviation entry := (RecordKey * vector)%type.

Definition str_len (s : string) : N := N.of_nat (length (bytes_of_string s)).

(** ** Shard assignment *)

(** [u16::from_str_radix(s, 16)] on four digits; blake3's hex makes the
    [expect] behind it unreachable. *)
Definition from_str_radix_16 (b : bytes) : option N :=
  foldl (λ acc x, a ← acc; d ← hex_val x; Some (16 * a + d)%N) (Some 0%N) b.

Definition shard_of `{Blake3} (key : RecordKey) (shards : N) : N :=
  let s := key_namespace key +:+ "/" +:+ key_collection key +:+ "/" +:+ key_id key in
  let hex := hash_hex (ContentHash_of (bytes_of_string s)) in
  default 0%N (from_str_radix_16 (take 4 (bytes_of_string hex))) `mod` shards.

(** ** Encoding *)

Definition MAGIC : bytes := bytes_of_string "GZVS".
Definition VERSION : Byte.byte := Byte.x01.

Definition put_str16 (s : string) : bytes := le_bytes 2 (str_len s) ++ bytes_of_string s.

Definition encode_entry (e : entry) : bytes :=
  put_str16 (key_namespace e.1) ++ put_str16 (key_collection e.1) ++
  le_bytes 4 (str_len (key_id e.1)) ++ bytes_of_string (key_id e.1) ++
  (e.2 ≫= f32_to_le_bytes).

(** [sorted.sort_by(|a, b| a.0.cmp(&b.0))]. *)
Definition by_key : Cmp entry := cmp_via fst.
Definition sort_entries (l : list entry) : list entry := merge_sort (@ole _ by_key) l.

Definition encode_shard (dim : N) (entries : list entry) : bytes :=
  let sorted := sort_entries entries in
  MAGIC ++ [VERSION] ++ le_bytes 4 dim ++ le_bytes 4 (N.of_nat (length sorted)) ++
  (sorted ≫= encode_entry).

(** ** Decoding *)

(** [Reader::at]: an action of the position. *)
Abbreviation reader := (M N CoreError).

Section reader.
Variable input : bytes.

Definition rd_take (n : N) : reader bytes := λ at_,
  if decide (u64_max < at_ + n)%N then (Err (Backend "vector shard: length overflow"), at_)
  else if decide (N.of_nat (length input) < at_ + n)%N
       then (Err (Backend "vector shard: truncated"), at_)
       else (Ok (take (N.to_nat n) (drop (N.to_nat at_) input)), (at_ + n)%N).

Definition rd_u32 : reader N := b ← rd_take 4; mret (le_val b).

(** [String::from_utf8(..)]; the text of its error is left out. *)
Definition from_utf8 (what : string) (b : bytes) : Result string :=
  if utf8_valid b then Ok (string_of_bytes b)
  else Err (Backend ("vector shard: bad utf8" +:+ what +:+ ": ")).

Definition rd_str16 : reader string :=
  b ← rd_take 2; s ← rd_take (le_val b); lift (from_utf8 "" s).

Fixpoint repeatM {A} (n : nat) (m : reader A) : reader (list A) :=
  match n with
  | O => mret []
  | S n' => x ← m; xs ← repeatM n' m; mret (x :: xs)
  end.

Definition rd_f32 : reader f32 := b ← rd_take 4; mret (f32_from_le_bytes b).

Definition rd_entry (dim : N) : reader entry :=
  namespace ← rd_str16;
  collection ← rd_str16;
  id_len ← rd_u32;
  id ← rd_take id_len;
  id ← lift (from_utf8 " in id" id);
  vector ← repeatM (N.to_nat dim) rd_f32;
  mret (mkKey namespace collection id, vector).

Definition saturating_add (a b : N) : N := N.min (a + b) u64_max.
Definition saturating_mul (a b : N) : N := N.min (a * b) u64_max.

(** The entries, if that many can be left. *)
Definition rd_entries (dim count : N) : reader (list entry) := λ at_,
  let remaining := (N.of_nat (length input) - at_)%N in
  let min_entry_size := saturating_add 8 (saturating_mul dim 4) in
  if decide (remaining / min_entry_size < count)%N
  then (Err (Backend "vector shard: entry count exceeds remaining data"), at_)
  else repeatM (N.to_nat count) (rd_entry dim) at_.

Definition rd_shard : reader (N * list entry) :=
  magic ← rd_take 4;
  if decide (magic ≠ MAGIC) then throw (Backend "vector shard: bad magic") else
  version ← rd_take 1;
  if decide (version ≠ [VERSION])
  then throw (Backend ("vector shard: unsupported version " +:+ Fleet.dec (le_val version) +:+
                       ", expected 1")) else
  dim ← rd_u32;
  count ← rd_u32;
  entries ← rd_entries dim count;
  mret (dim, entries).
End reader.

Definition decode_shard (b : bytes) : Result (N * list entry) := (rd_shard b 0%N).1.

(** ** Little-endian facts *)

Lemma byte_code_lt b : (byte_code b < 256)%N.
Proof. pose proof (Byte.to_N_bounded b). unfold byte_code. lia. Qed.

Lemma byte_code_of n : byte_code (byte_of n) = (n `mod` 256)%N.
Proof.
  unfold byte_code, byte_of. destruct (Byte.of_N (n `mod` 256)) as [b|] eqn:E; simpl.
  - by apply Byte.to_of_N.
  - apply Byte.of_N_None_iff in E. pose proof (N.mod_lt n 256 ltac:(lia)). lia.
Qed.

Lemma length_le_bytes w n : length (le_bytes w n) = w.
Proof. revert n. induction w; intros; simpl; auto. Qed.

Lemma le_val_bytes w n : le_val (le_bytes w n) = (n `mod` 256 ^ N.of_nat w)%N.
Proof.
  revert n. induction w as [|w IH]; intros n; simpl le_bytes; simpl le_val.
  - by rewrite N.mod_1_r.
  - rewrite IH, byte_code_of, Nat2N.inj_succ, N.pow_succ_r'.
    rewrite N.Div0.mod_mul_r by lia. lia.
Qed.

Lemma le_val_small w n : (n < 256 ^ N.of_nat w)%N → le_val (le_bytes w n) = n.
Proof. intros. by rewrite le_val_bytes, N.mod_small. Qed.

Lemma f32_roundtrip f : f32_from_le_bytes (f32_to_le_bytes f) = f.
Proof. by destruct f. Qed.

(** ** Readers that read back what a writer wrote *)

(** On an input of a size memory can hold, [m] at the start of [b] returns [a]
    and stops after [b]. *)
Definition consumes {A} (m : bytes → reader A) (b : bytes) (a : A) : Prop :=
  ∀ pre post, (N.of_nat (length (pre ++ b ++ post)) ≤ u64_max)%N →
  m (pre ++ b ++ post) (N.of_nat (length pre)) = (Ok a, N.of_nat (length (pre ++ b))).

Lemma consumes_start {A} (m : bytes → reader A) b a post :
  consumes m b a → (N.of_nat (length (b ++ post)) ≤ u64_max)%N →
  m (b ++ post) 0%N = (Ok a, N.of_nat (length b)).
Proof. intros Hm. apply (Hm [] post). Qed.

Lemma consumes_ret {A} (a : A) : consumes (λ _, mret a) [] a.
Proof. intros pre post _. by rewrite app_nil_r. Qed.

Lemma consumes_bind {A B} (m : bytes → reader A) (k : A → bytes → reader B) b b' a r :
  consumes m b a → consumes (k a) b' r → consumes (λ i, m i ≫= λ x, k x i) (b ++ b') r.
Proof.
  intros Hm Hk pre post Hlen. rewrite <-app_assoc in *.
  rewrite (bind_ok _ _ _ _ _ (Hm pre (b' ++ post) Hlen)).
  rewrite (app_assoc pre b (b' ++ post)) in *. rewrite (Hk (pre ++ b) post Hlen).
  by rewrite <-app_assoc.
Qed.

Lemma consumes_map {A B} (m : bytes → reader A) (g : A → B) b a :
  consumes m b a → consumes (λ i, m i ≫= λ x, mret (g x)) b (g a).
Proof.
  intros Hm. rewrite <-(app_nil_r b).
  apply (consumes_bind m (λ x _, mret (g x)) b [] a); [done|apply consumes_ret].
Qed.

Lemma consumes_take n b : N.of_nat (length b) = n → consumes (λ i, rd_take i n) b b.
Proof.
  intros <- pre post Hlen. unfold rd_take. rewrite !length_app in Hlen.
  rewrite decide_False by lia. rewrite decide_False by (rewrite !length_app; lia).
  rewrite !Nat2N.id, drop_app_length, take_app_length, length_app. f_equal. lia.
Qed.

Lemma consumes_lift {A} (r : Result A) a : r = Ok a → consumes (λ _, lift r) [] a.
Proof. intros -> pre post _. unfold lift. by rewrite app_nil_r. Qed.

Lemma consumes_u32 n : (n < 2 ^ 32)%N → consumes rd_u32 (le_bytes 4 n) n.
Proof.
  intros Hn. rewrite <-(le_val_small 4 n) at 2 by done.
  by apply (consumes_map _ le_val), consumes_take.
Qed.

Lemma consumes_f32 f : consumes rd_f32 (f32_to_le_bytes f) f.
Proof.
  rewrite <-(f32_roundtrip f) at 2.
  by apply (consumes_map _ f32_from_le_bytes), consumes_take.
Qed.

Lemma from_utf8_ok what s :
  utf8_valid (bytes_of_string s) = true → from_utf8 what (bytes_of_string s) = Ok s.
Proof. intros Hs. unfold from_utf8. by rewrite Hs, string_of_bytes_of_string. Qed.

Lemma consumes_str16 s :
  (str_len s < 2 ^ 16)%N → utf8_valid (bytes_of_string s) = true →
  consumes rd_str16 (put_str16 s) s.
Proof.
  intros Hn Hs. unfold rd_str16, put_str16.
  eapply (consumes_bind (λ i, rd_take i 2)
    (λ b i, s ← rd_take i (le_val b); lift (from_utf8 "" s))); [by apply consumes_take|].
  rewrite le_val_small by done. rewrite <-(app_nil_r (bytes_of_string s)).
  eapply (consumes_bind (λ i, rd_take i (str_len s)) (λ s _, lift (from_utf8 "" s))).
  - by apply consumes_take.
  - by apply consumes_lift, from_utf8_ok.
Qed.

Lemma consumes_repeat {A} (m : bytes → reader A) (enc : A → bytes) l :
  (∀ x, x ∈ l → consumes m (enc x) x) →
  consumes (λ i, repeatM (length l) (m i)) (l ≫= enc) l.
Proof.
  induction l as [|x l IH]; intros Hm; [apply consumes_ret|].
  eapply (consumes_bind m (λ x i, xs ← repeatM (length l) (m i); mret (x :: xs)) (enc x)).
  - apply Hm. set_solver.
  - apply (consumes_map _ (cons x)), IH. intros y Hy. apply Hm. set_solver.
Qed.

(** What the format can express. *)
Record entry_ok (dim : N) (e : entry) : Prop := {
  ok_namespace : (str_len (key_namespace e.1) < 2 ^ 16)%N;
  ok_collection : (str_len (key_collection e.1) < 2 ^ 16)%N;
  ok_id : (str_len (key_id e.1) < 2 ^ 32)%N;
  ok_utf8 : utf8_valid (bytes_of_string (key_namespace e.1)) = true ∧
    utf8_valid (bytes_of_string (key_collection e.1)) = true ∧
    utf8_valid (bytes_of_string (key_id e.1)) = true;
  ok_dim : N.of_nat (length e.2) = dim
}.

Lemma consumes_entry dim e :
  entry_ok dim e → consumes (λ i, rd_entry i dim) (encode_entry e) e.
Proof.
  intros [Hn Hc Hi (Un & Uc & Ui) Hd]. destruct e as [[n c i] v]. cbn [fst snd key_namespace key_collection key_id] in *.
  unfold rd_entry, encode_entry. cbn [fst snd key_namespace key_collection key_id].
  eapply consumes_bind; [by apply consumes_str16|].
  eapply consumes_bind; [by apply consumes_str16|].
  eapply consumes_bind; [by apply consumes_u32|].
  eapply consumes_bind; [by apply consumes_take|].
  eapply (consumes_bind _ _ []); [by apply consumes_lift, from_utf8_ok|].
  apply (consumes_map _ (pair (mkKey n c i))).
  subst dim. rewrite Nat2N.id. apply consumes_repeat. intros. apply consumes_f32.
Qed.

(** ** Readers that only accept what a writer writes *)

(** Whatever [m] accepts is a piece [b] of the input related to the result. *)
Definition parses {A} (m : bytes → reader A) (R : A → bytes → Prop) : Prop :=
  ∀ pre rest a at_, m (pre ++ rest) (N.of_nat (length pre)) = (Ok a, at_) →
  ∃ b post, rest = b ++ post ∧ at_ = N.of_nat (length (pre ++ b)) ∧ R a b.

Lemma parses_weaken {A} (m : bytes → reader A) (R R' : A → bytes → Prop) :
  parses m R → (∀ a b, R a b → R' a b) → parses m R'.
Proof. intros Hm HR pre rest a at_ (b & post & ? & ? & ?)%Hm. exists b, post. auto. Qed.

Lemma parses_bind {A B} (m : bytes → reader A) (k : A → bytes → reader B)
    (R : A → bytes → Prop) (Q : B → bytes → Prop) :
  parses m R → (∀ x b, R x b → parses (k x) (λ r b', Q r (b ++ b'))) →
  parses (λ i, m i ≫= λ x, k x i) Q.
Proof.
  intros Hm Hk pre rest r at_ (x & at1 & H1 & H2)%bind_inv_ok.
  apply Hm in H1 as (b & rest' & -> & -> & HR). rewrite app_assoc in H2.
  apply (Hk _ _ HR) in H2 as (b' & post & -> & -> & HQ).
  exists (b ++ b'), post. by rewrite <-!app_assoc.
Qed.

Lemma parses_ret {A} (a : A) (R : A → bytes → Prop) : R a [] → parses (λ _, mret a) R.
Proof. intros HR pre rest x at_ [= <- <-]. exists [], rest. by rewrite app_nil_r. Qed.

Lemma parses_lift {A} (r : Result A) (R : A → bytes → Prop) :
  (∀ a, r = Ok a → R a []) → parses (λ _, lift r) R.
Proof.
  intros HR pre rest x at_. unfold lift. intros [= -> <-].
  exists [], rest. rewrite app_nil_r. auto.
Qed.

Lemma parses_take n : parses (λ i, rd_take i n) (λ a b, a = b ∧ N.of_nat (length b) = n).
Proof.
  intros pre rest a at_. unfold rd_take. case_decide; [done|]. case_decide as Hlen; [done|].
  rewrite length_app in Hlen. rewrite Nat2N.id, drop_app_length. intros [= <- <-].
  exists (take (N.to_nat n) rest), (drop (N.to_nat n) rest).
  assert (length (take (N.to_nat n) rest) = N.to_nat n) as Hn by (rewrite length_take; lia).
  rewrite take_drop, length_app, Hn. split_and!; [done|lia|done|lia].
Qed.

Lemma le_val_lt b : (le_val b < 256 ^ N.of_nat (length b))%N.
Proof.
  induction b as [|x b IH]; [done|]. simpl le_val. cbn [length].
  rewrite Nat2N.inj_succ, N.pow_succ_r'. pose proof (byte_code_lt x). lia.
Qed.

Lemma byte_of_code x y : byte_of (byte_code x + 256 * y) = x.
Proof.
  unfold byte_of, byte_code. rewrite (N.mul_comm 256), N.Div0.mod_add, N.mod_small by apply byte_code_lt.
  by rewrite Byte.of_to_N.
Qed.

Lemma le_bytes_val b : le_bytes (length b) (le_val b) = b.
Proof.
  induction b as [|x b IH]; [done|]. cbn [length le_bytes]. simpl le_val.
  rewrite byte_of_code. f_equal. pose proof (byte_code_lt x).
  replace ((byte_code x + 256 * le_val b) `div` 256)%N with (le_val b); [done|].
  rewrite (N.mul_comm 256), N.div_add, N.div_small by lia. done.
Qed.

Lemma parses_u32 : parses rd_u32 (λ n b, b = le_bytes 4 n ∧ (n < 2 ^ 32)%N).
Proof.
  apply (parses_bind _ (λ b _, mret (le_val b)) _ _ (parses_take 4)).
  intros b ? [<- Hb]. apply parses_ret. rewrite app_nil_r.
  assert (length b = 4) as Hl by lia. pose proof (le_val_lt b) as Hv. rewrite Hl in Hv.
  split; [|done]. by rewrite <-(le_bytes_val b) at 1; rewrite Hl.
Qed.

Lemma from_utf8_inv what b s :
  from_utf8 what b = Ok s → b = bytes_of_string s ∧ utf8_valid (bytes_of_string s) = true.
Proof.
  unfold from_utf8. destruct (utf8_valid b) eqn:E; [|done]. intros [= <-].
  by rewrite bytes_of_string_of_bytes.
Qed.

Lemma parses_str16 : parses rd_str16 (λ s b,
  b = put_str16 s ∧ (str_len s < 2 ^ 16)%N ∧ utf8_valid (bytes_of_string s) = true).
Proof.
  apply (parses_bind _ (λ b i, s ← rd_take i (le_val b); lift (from_utf8 "" s)) _ _ (parses_take 2)).
  intros l ? [<- Hl]. apply (parses_bind _ (λ b _, lift (from_utf8 "" b)) _ _ (parses_take _)).
  intros b ? [<- Hb]. apply parses_lift. intros s [-> Hs]%from_utf8_inv.
  assert (length l = 2) as Hl2 by lia. pose proof (le_val_lt l) as Hv. rewrite Hl2 in Hv.
  unfold put_str16, str_len. rewrite Hb, <-Hl2, le_bytes_val, app_nil_r. auto.
Qed.

Lemma parses_f32 : parses rd_f32 (λ f b, b = f32_to_le_bytes f ∧ True).
Proof.
  apply (parses_bind _ (λ b _, mret (f32_from_le_bytes b)) _ _ (parses_take 4)).
  intros b ? [<- Hb]. apply parses_ret. rewrite app_nil_r.
  destruct b as [|? [|? [|? [|? [|]]]]]; try (simpl in Hb; lia). done.
Qed.

Lemma parses_repeat {A} (m : bytes → reader A) (enc : A → bytes) (P : A → Prop) n :
  parses m (λ a b, b = enc a ∧ P a) →
  parses (λ i, repeatM n (m i)) (λ l b, b = l ≫= enc ∧ length l = n ∧ Forall P l).
Proof.
  intros Hm. induction n as [|n IH]; [by apply parses_ret|].
  apply (parses_bind _ (λ x i, xs ← repeatM n (m i); mret (x :: xs)) _ _ Hm).
  intros x ? [-> Hx]. apply (parses_bind _ (λ xs _, mret (x :: xs)) _ _ IH).
  intros l ? (-> & Hl & HP). apply parses_ret. rewrite app_nil_r.
  split_and!; [done|by f_equal/=|by constructor].
Qed.

Lemma parses_entry dim :
  parses (λ i, rd_entry i dim) (λ e b, b = encode_entry e ∧ entry_ok dim e).
Proof.
  unfold rd_entry. eapply parses_bind; [apply parses_str16|]. intros n ? (-> & Hn & Un).
  eapply parses_bind; [apply parses_str16|]. intros c ? (-> & Hc & Uc).
  eapply parses_bind; [apply parses_u32|]. intros l ? (-> & Hl).
  eapply parses_bind; [apply parses_take|]. intros i ? [<- Hi].
  eapply (parses_bind _ _ (λ s b, b = [] ∧ i = bytes_of_string s ∧ utf8_valid (bytes_of_string s) = true)).
  { apply parses_lift. intros s []%from_utf8_inv. auto. }
  intros s ? (-> & -> & Us).
  eapply parses_bind; [apply (parses_repeat rd_f32 f32_to_le_bytes (λ _, True)), parses_f32|].
  intros v ? (-> & Hv & _). apply parses_ret. unfold encode_entry, str_len.
  cbn [fst snd key_namespace key_collection key_id]. rewrite Hi, app_nil_r. simpl app at 1.
  split; [done|]. split; cbn [fst snd key_namespace key_collection key_id];
    unfold str_len; auto; lia.
Qed.

(** The bytes of a shard whose entries are listed in this order. *)
Definition shard_bytes (dim : N) (es : list entry) : bytes :=
  MAGIC ++ [VERSION] ++ le_bytes 4 dim ++ le_bytes 4 (N.of_nat (length es)) ++
  (es ≫= encode_entry).

Lemma encode_shard_alt dim es : encode_shard dim es = shard_bytes dim (sort_entries es).
Proof. done. Qed.

(** What a list of entries needs to be written. *)
Definition shard_ok (dim : N) (es : list entry) : Prop :=
  Forall (entry_ok dim) es ∧ (dim < 2 ^ 32)%N ∧ (N.of_nat (length es) < 2 ^ 32)%N.

Lemma parses_shard : parses rd_shard (λ r b, b = shard_bytes r.1 r.2 ∧ shard_ok r.1 r.2).
Proof.
  unfold rd_shard. eapply parses_bind; [apply parses_take|]. intros magic ? [<- _].
  case_decide as Hmg; [by intros ? ? ? ?|]. subst magic.
  eapply parses_bind; [apply parses_take|]. intros version ? [<- _].
  case_decide as Hv; [by intros ????|]. subst version.
  eapply parses_bind; [apply parses_u32|]. intros dim ? [-> Hd].
  eapply parses_bind; [apply parses_u32|]. intros count ? [-> Hc].
  eapply (parses_bind _ _ (λ es b, b = (es ≫= encode_entry) ∧
    length es = N.to_nat count ∧ Forall (entry_ok dim) es)).
  { intros pre rest es at_. unfold rd_entries. case_decide; [done|].
    apply (parses_repeat (λ i, rd_entry i dim) encode_entry (entry_ok dim)), parses_entry. }
  intros es ? (-> & Hl & Hes). apply parses_ret. rewrite app_nil_r. unfold shard_bytes, shard_ok.
  cbn [fst snd]. rewrite Hl, N2Nat.id. by rewrite ?app_nil_r.
Qed.

(** ** A shard is read back *)

Lemma length_floats (v : vector) : length (v ≫= f32_to_le_bytes) = 4 * length v.
Proof. induction v as [|f v IH]; [done|]. cbn [mbind list_bind]. rewrite length_app, IH. simpl. lia. Qed.

Lemma length_encode_entry dim e :
  entry_ok dim e → (8 + 4 * dim ≤ N.of_nat (length (encode_entry e)))%N.
Proof.
  intros [_ _ _ _ Hd]. unfold encode_entry, put_str16.
  rewrite !length_app, !length_le_bytes, length_floats. lia.
Qed.

Lemma length_encode_entries dim es :
  Forall (entry_ok dim) es →
  (N.of_nat (length es) * (8 + 4 * dim) ≤ N.of_nat (length (es ≫= encode_entry)))%N.
Proof.
  induction 1 as [|e es He Hes IH]; [simpl; lia|]. cbn [mbind list_bind length].
  apply length_encode_entry in He. rewrite length_app. fold (mbind encode_entry es). lia.
Qed.

Lemma consumes_entries dim es :
  shard_ok dim es →
  consumes (λ i, rd_entries i dim (N.of_nat (length es))) (es ≫= encode_entry) es.
Proof.
  intros (Hes & Hd & _) pre post Hlen. unfold rd_entries. rewrite decide_False.
  - rewrite Nat2N.id.
    apply (consumes_repeat (λ i, rd_entry i dim)); [|done]. intros e He.
    rewrite Forall_forall in Hes. by apply consumes_entry, Hes.
  - apply length_encode_entries in Hes. rewrite !length_app. unfold saturating_add, saturating_mul.
    assert (2 ^ 32 * 4 + 8 < u64_max)%N by done.
    rewrite !N.min_l by lia. rewrite N.nlt_ge. apply N.div_le_lower_bound; lia.
Qed.

Lemma consumes_shard dim es : shard_ok dim es → consumes rd_shard (shard_bytes dim es) (dim, es).
Proof.
  intros Hok. pose proof Hok as (_ & Hd & Hl). unfold rd_shard, shard_bytes.
  eapply consumes_bind; [by apply consumes_take|]. case_decide; [done|].
  eapply consumes_bind; [by apply consumes_take|]. case_decide; [done|].
  eapply consumes_bind; [by apply consumes_u32|].
  eapply consumes_bind; [by apply consumes_u32|].
  by apply (consumes_map _ (pair dim)), consumes_entries.
Qed.

(** Decoding is exactly the inverse of writing: what [decode_shard] accepts is
    the bytes of the entries it returns, in the order it returns them, followed
    by anything; and every such input is accepted. *)
Lemma decode_shard_iff b dim es :
  (N.of_nat (length b) ≤ u64_max)%N →
  decode_shard b = Ok (dim, es) ↔
  ∃ post, b = shard_bytes dim es ++ post ∧ shard_ok dim es.
Proof.
  intros Hlen. unfold decode_shard. split.
  - destruct (rd_shard b 0%N) as [r at_] eqn:E. intros [= ->].
    apply (parses_shard [] b) in E as (? & post & -> & _ & [-> Hok]). by exists post.
  - intros (post & -> & Hok).  by rewrite (consumes_start _ _ _ post (consumes_shard dim es Hok)).
Qed.

Lemma sort_entries_perm es : sort_entries es ≡ₚ es.
Proof. unfold sort_entries. apply merge_sort_Permutation. Qed.

Lemma shard_ok_perm dim es es' : es ≡ₚ es' → shard_ok dim es → shard_ok dim es'.
Proof. unfold shard_ok. intros Hp. by rewrite Hp. Qed.

Lemma decode_encode dim es :
  shard_ok dim es → (N.of_nat (length (encode_shard dim es)) ≤ u64_max)%N →
  decode_shard (encode_shard dim es) = Ok (dim, sort_entries es).
Proof.
  intros Hok Hlen. apply decode_shard_iff; [done|]. exists []. rewrite app_nil_r.
  split; [done|]. by apply (shard_ok_perm _ es); [rewrite sort_entries_perm|].
Qed.

(** C27: a shard survives its trip through the blob store, and nothing else can
    pass for one.  What [encode_shard] writes decodes to the same dimension and
    the same entries in key order; and whatever bytes [decode_shard] accepts,
    corrupted, truncated or hostile, start with the encoding of the entries it
    returns, so it never returns more entries, longer vectors or longer keys
    than the input pays for. *)
Theorem shard_roundtrip (dim : N) (es : list entry) :
  (shard_ok dim es → (N.of_nat (length (encode_shard dim es)) ≤ u64_max)%N →
   decode_shard (encode_shard dim es) = Ok (dim, sort_entries es)) ∧
  (∀ b dim' es', (N.of_nat (length b) ≤ u64_max)%N → decode_shard b = Ok (dim', es') →
   shard_bytes dim' es' `prefix_of` b ∧ shard_ok dim' es' ∧
   (13 + N.of_nat (length es') * (8 + 4 * dim') ≤ N.of_nat (length b))%N).
Proof.
  split.
  - apply decode_encode.
  - intros b dim' es' Hlen (post & -> & Hok)%decode_shard_iff; [|done].
    split_and!; [by exists post|done|]. destruct Hok as [Hes%length_encode_entries _].
    unfold shard_bytes. rewrite !length_app, !length_le_bytes. simpl length at 2 3. lia.
Qed.

(** ** A shard's bytes are canonical *)

#[local] Instance by_key_total : Total (@ole _ by_key).
Proof. intros x y. apply (ole_total x.1 y.1). Qed.
#[local] Instance by_key_trans : Transitive (@ole _ by_key).
Proof. intros x y z. unfold ole, cmp, by_key, cmp_via. apply (ole_preorder (A := RecordKey)). Qed.

Lemma sort_entries_unique es es' :
  NoDup es.*1 → es ≡ₚ es' → sort_entries es = sort_entries es'.
Proof.
  intros Hnd Hp. apply (StronglySorted_unique_strong (@ole _ by_key)).
  - intros x y Hx Hy Hxy Hyx. rewrite sort_entries_perm in Hx, Hy. rewrite <-Hp in Hy.
    eapply (NoDup_fmap_inj fst); [done..|]. by apply (ole_antisymm (A := RecordKey)).
  - apply StronglySorted_merge_sort; apply _.
  - apply StronglySorted_merge_sort; apply _.
  - by rewrite !sort_entries_perm.
Qed.

(** A shard's blob is named by its contents.  Two sets of entries, each with
    one vector per key, encode to the same bytes exactly when they hold the same
    entries, in whatever order the map they came from listed them: so an
    unchanged shard is the blob already stored, and a changed one is not. *)
Theorem encode_shard_canonical (dim : N) (es es' : list entry) :
  NoDup es.*1 → shard_ok dim es → shard_ok dim es' →
  (N.of_nat (length (encode_shard dim es)) ≤ u64_max)%N →
  encode_shard dim es = encode_shard dim es' ↔ es ≡ₚ es'.
Proof.
  intros Hnd Hok Hok' Hlen. split.
  - intros Heq. rewrite <-(sort_entries_perm es), <-(sort_entries_perm es').
    pose proof (decode_encode dim es Hok Hlen) as H1. rewrite Heq in H1, Hlen.
    rewrite (decode_encode dim es' Hok' Hlen) in H1. by injection H1 as ->.
  - intros Hp. unfold encode_shard. by rewrite (sort_entries_unique es es').
Qed.

(** ** Witnesses *)

Definition sample_floats (n : nat) : vector := replicate n (mkF32 Byte.x00 Byte.x00 Byte.x80 Byte.x3f).
Definition sample_entries : list entry :=
  [(mkKey "ns" "coll" "b", sample_floats 2); (mkKey "ns" "coll" "a", sample_floats 2)].

Lemma sample_entries_ok : shard_ok 2 sample_entries.
Proof. split; [|by split; vm_compute]. repeat constructor; vm_compute; auto. Qed.

Lemma shard_roundtrip_witness :
  decode_shard (encode_shard 2 sample_entries) = Ok (2%N, sort_entries sample_entries) ∧
  sort_entries sample_entries ≠ sample_entries.
Proof.
  split; [|by vm_compute].
  apply (proj1 (shard_roundtrip 2 sample_entries)); [apply sample_entries_ok|vm_compute; done].
Defined.

Lemma encode_shard_canonical_witness :
  encode_shard 2 sample_entries = encode_shard 2 (reverse sample_entries).
Proof.
  apply (encode_shard_canonical 2 sample_entries (reverse sample_entries)).
  - by vm_compute; repeat constructor; set_solver.
  - apply sample_entries_ok.
  - apply (shard_ok_perm _ sample_entries); [by rewrite reverse_Permutation|apply sample_entries_ok].
  - by vm_compute.
  - by rewrite reverse_Permutation.
Defined.
