(* ===== verification/VectorIndex.v ===== *)
(** * VectorIndex: the exact in-memory cosine index

    Models [gonzalo-vector]'s [index.rs] and the [VectorIndex] trait of its
    [lib.rs].  [f32] arithmetic is IEEE binary32: the bits of a float name a
    value of the Standard Library's [SpecFloat], whose operations at precision
    24 and exponent bound 128 round to nearest, ties to even.  The order in
    which a [HashMap] lists its entries is unspecified, so it is a class: the
    theorems hold for every order. *)

From Stdlib Require Import SpecFloat.
From S2P Require Export Shards.
From S2P Require Import Samples.

(** ** binary32 *)

Definition f32_bits (f : f32) : Z := Z.of_N (le_val (f32_to_le_bytes f)).

Definition f32_value (f : f32) : spec_float :=
  let b := f32_bits f in
  let s := Z.testbit b 31 in
  let e := Z.land (Z.shiftr b 23) 255%Z in
  let m := Z.land b (2 ^ 23 - 1) in
  if decide (e = 255%Z) then (if decide (m = 0%Z) then S754_infinity s else S754_nan)
  else match (if decide (e = 0%Z) then m else m + 2 ^ 23)%Z with
       | Zpos p => S754_finite s p (Z.max e 1 - 150)
       | _ => S754_zero s
       end.

(** The magnitude bits of a value; every NaN is the canonical quiet one. *)
Definition magnitude (f : spec_float) : Z :=
  match f with
  | S754_zero _ => 0
  | S754_infinity _ => 255 * 2 ^ 23
  | S754_nan => 255 * 2 ^ 23 + 2 ^ 22
  | S754_finite _ m e =>
      if decide (Zpos m < 2 ^ 23)%Z then Zpos m else ((e + 150) * 2 ^ 23 + (Zpos m - 2 ^ 23))
  end%Z.

Definition is_negative (f : spec_float) : bool :=
  match f with
  | S754_zero s | S754_infinity s | S754_finite s _ _ => s
  | S754_nan => false
  end.

(** The signed integer [f32::total_cmp] compares. *)
Definition total_key (f : spec_float) : Z :=
  if is_negative f then (- magnitude f - 1)%Z else magnitude f.

Definition is_finite (f : spec_float) : bool :=
  match f with S754_zero _ | S754_finite _ _ _ => true | _ => false end.

Definition f32_mul : spec_float → spec_float → spec_float := SFmul 24 128.
Definition f32_add : spec_float → spec_float → spec_float := SFadd 24 128.
Definition f32_div : spec_float → spec_float → spec_float := SFdiv 24 128.
Definition f32_sqrt : spec_float → spec_float := SFsqrt 24 128.

(** [Iterator::sum] on floats: from [-0.0], left to right. *)
Definition f32_sum (l : list spec_float) : spec_float := foldl f32_add (S754_zero true) l.

(** ** Cosine *)

Definition cosine (a b : vector) : spec_float :=
  let dot := f32_sum (zip_with (λ x y, f32_mul (f32_value x) (f32_value y)) a b) in
  let norm_a := f32_sqrt (f32_sum ((λ x, f32_mul (f32_value x) (f32_value x)) <$> a)) in
  let norm_b := f32_sqrt (f32_sum ((λ x, f32_mul (f32_value x) (f32_value x)) <$> b)) in
  if SFeqb norm_a (S754_zero false) || SFeqb norm_b (S754_zero false) ||
     negb (is_finite dot) || negb (is_finite norm_a) || negb (is_finite norm_b)
  then S754_zero false
  else let score := f32_div dot (f32_mul norm_a norm_b) in
       if is_finite score then score else S754_zero false.

(** ** The index *)

Abbreviation index := (gmap RecordKey vector).

(** How a [HashMap] lists its entries. *)
Class HashOrder := {
  hash_iter : index → list entry;
  hash_iter_perm m : hash_iter m ≡ₚ map_to_list m
}.

Record Match := mkMatch { m_key : RecordKey; m_score : spec_float }.

(** [b.score.total_cmp(&a.score).then_with(|| a.key.cmp(&b.key))]. *)
Definition by_score : Cmp Match := λ a b,
  match Z.compare (total_key (m_score b)) (total_key (m_score a)) with
  | Eq => cmp (m_key a) (m_key b)
  | c => c
  end.

Section index.
Context `{HashOrder}.

Definition stored_dim (m : index) : option nat := length ∘ snd <$> head (hash_iter m).

Definition check_dim (m : index) (incoming : nat) : Result unit :=
  match stored_dim m with
  | Some expected =>
      if decide (incoming ≠ expected)
      then Err (Backend ("vector dimension mismatch: expected " +:+
                         Fleet.dec (N.of_nat expected) +:+ ", got " +:+
                         Fleet.dec (N.of_nat incoming)))
      else Ok tt
  | None => Ok tt
  end.

Definition collect_where (m : index) (pred : RecordKey → bool) : list entry :=
  filter (λ e, pred e.1 = true) (hash_iter m).

Definition Memory_upsert (key : RecordKey) (v : vector) : M index CoreError unit := λ m,
  match check_dim m (length v) with
  | Ok _ => (Ok tt, <[key := v]> m)
  | Err e => (Err e, m)
  end.

Definition Memory_remove (key : RecordKey) : M index CoreError unit := λ m,
  (Ok tt, delete key m).

(** The trait's default: one [upsert] after another. *)
Definition Memory_upsert_many (items : list entry) : M index CoreError unit :=
  foldM (λ _ e, Memory_upsert e.1 e.2) tt items.

Definition Memory_query (query : vector) (k : nat) (filt : KeyPrefix) (m : index) :
    Result (list Match) :=
  _ ← (if decide (m = ∅) then Ok tt else check_dim m (length query));
  let matches := (λ e, mkMatch e.1 (cosine query e.2)) <$>
    filter (λ e, prefix_matches filt e.1 = true) (hash_iter m) in
  Ok (take k (merge_sort (@ole _ by_score) matches)).

Definition Memory_keys (filt : KeyPrefix) (m : index) : list RecordKey :=
  filter (λ k, prefix_matches filt k = true) (hash_iter m).*1.
End index.

(** ** One dimension for the whole index *)

(** All vectors have length [d]. *)
Definition uniform (d : nat) (m : index) : Prop := map_Forall (λ _ v, length v = d) m.

Lemma uniform_empty d : uniform d ∅.
Proof. apply map_Forall_empty. Qed.

Lemma uniform_insert d m k v : uniform d m → length v = d → uniform d (<[k := v]> m).
Proof. intros. by apply map_Forall_insert_2. Qed.

Lemma uniform_delete d m k : uniform d m → uniform d (delete k m).
Proof. apply map_Forall_delete. Qed.
#[export] Hint Resolve uniform_empty uniform_insert uniform_delete : gonzalo.

Definition insert_all (m : index) (items : list entry) : index :=
  foldl (λ m e, <[e.1 := e.2]> m) m items.

Section memory_index.
Context `{HashOrder}.
Implicit Types m : index.

Lemma elem_of_hash_iter m k v : (k, v) ∈ hash_iter m ↔ m !! k = Some v.
Proof. by rewrite hash_iter_perm, elem_of_map_to_list. Qed.

Lemma NoDup_hash_iter m : NoDup (hash_iter m).*1.
Proof. rewrite hash_iter_perm. apply NoDup_fst_map_to_list. Qed.

Lemma stored_dim_uniform d m :
  uniform d m → stored_dim m = if decide (m = ∅) then None else Some d.
Proof.
  intros Hu. unfold stored_dim. pose proof (hash_iter_perm m) as Hp.
  destruct (hash_iter m) as [|[k v] l] eqn:E.
  - symmetry in Hp. apply Permutation_nil_r, map_to_list_empty_iff in Hp as ->. done.
  - assert (m !! k = Some v) as Hk by (apply elem_of_hash_iter; rewrite E; left).
    rewrite decide_False by (intros ->; by rewrite lookup_empty in Hk). simpl.
    by rewrite (Hu _ _ Hk).
Qed.

Lemma check_dim_ok d m n :
  uniform d m → check_dim m n = Ok tt ↔ m = ∅ ∨ n = d.
Proof.
  intros Hu. unfold check_dim. rewrite (stored_dim_uniform d) by done.
  destruct (decide (m = ∅)); [naive_solver|]. case_decide; naive_solver.
Qed.

Lemma Memory_upsert_spec d m k v :
  uniform d m →
  (m = ∅ ∨ length v = d → Memory_upsert k v m = (Ok tt, <[k := v]> m)) ∧
  (m ≠ ∅ → length v ≠ d → ∃ msg, Memory_upsert k v m = (Err (Backend msg), m)).
Proof.
  intros Hu. unfold Memory_upsert. split.
  - intros Hd. by rewrite (proj2 (check_dim_ok d m _ Hu) Hd).
  - intros Hne Hd. unfold check_dim. rewrite (stored_dim_uniform d), decide_False by done.
    rewrite decide_True by done. by eexists.
Qed.

Lemma Memory_upsert_many_ok d m items :
  uniform d m → Forall (λ e, length e.2 = d) items →
  Memory_upsert_many items m = (Ok tt, insert_all m items) ∧ uniform d (insert_all m items).
Proof.
  unfold Memory_upsert_many, insert_all. intros Hu Hi. revert m Hu.
  induction Hi as [|[k v] items Hv Hi IH]; intros m Hu; [done|]. rewrite foldM_cons. simpl.
  rewrite (proj1 (Memory_upsert_spec d m k v Hu)) by auto. eauto with gonzalo.
Qed.
End memory_index.

(** The index after a call, whatever it returned. *)
Inductive IndexOp :=
  | IdxUpsert (k : RecordKey) (v : vector)
  | IdxRemove (k : RecordKey)
  | IdxUpsertMany (items : list entry).

Definition run_index `{HashOrder} (op : IndexOp) (m : index) : index :=
  match op with
  | IdxUpsert k v => (Memory_upsert k v m).2
  | IdxRemove k => (Memory_remove k m).2
  | IdxUpsertMany items => (Memory_upsert_many items m).2
  end.

(** ** Ranking *)

#[local] Instance by_score_total : Total (@ole _ by_score).
Proof.
  intros x y. unfold ole, cmp, by_score. rewrite (Z.compare_antisym (total_key (m_score x))).
  destruct (Z.compare _ _); simpl; [|by right|by left]. apply (ole_total (m_key x) (m_key y)).
Qed.

Lemma ole_by_score x y :
  @ole _ by_score x y ↔
  (total_key (m_score y) < total_key (m_score x))%Z ∨
  total_key (m_score x) = total_key (m_score y) ∧ ole (m_key x) (m_key y).
Proof.
  unfold ole, cmp at 1, by_score.
  destruct (Z.compare_spec (total_key (m_score y)) (total_key (m_score x))); split.
  - intros Hk. right. by split.
  - intros [|[]]; [lia|done].
  - intros _. by left.
  - done.
  - done.
  - intros [|[]]; lia.
Qed.

#[local] Instance by_score_trans : Transitive (@ole _ by_score).
Proof.
  intros x y z. rewrite !ole_by_score. intros [|[E1 O1]] [|[E2 O2]]; [left; lia..|].
  right. split; [congruence|]. by etrans.
Qed.

Lemma by_score_sorted l : StronglySorted (@ole _ by_score) (merge_sort (@ole _ by_score) l).
Proof. apply (StronglySorted_merge_sort _). Qed.

(** With one match per key the ranking is a function of the set of matches. *)
Lemma ranking_unique l l' :
  NoDup (m_key <$> l) → l ≡ₚ l' →
  merge_sort (@ole _ by_score) l = merge_sort (@ole _ by_score) l'.
Proof.
  intros Hnd Hp. apply (StronglySorted_unique_strong (@ole _ by_score)).
  - intros x y Hx Hy Hxy Hyx. rewrite merge_sort_Permutation in Hx, Hy. rewrite <-Hp in Hy.
    eapply (NoDup_fmap_inj m_key); [done..|]. rewrite ole_by_score in Hxy, Hyx.
    apply (ole_antisymm (A := RecordKey)); [destruct Hxy as [|[]]|destruct Hyx as [|[]]]; auto; lia.
  - apply by_score_sorted.
  - apply by_score_sorted.
  - by rewrite !merge_sort_Permutation.
Qed.

Lemma cosine_finite a b : is_finite (cosine a b) = true.
Proof. unfold cosine. case_match; [done|]. by case_match. Qed.

(** Every match of the filter, scored, best first. *)
Definition matches_of (q : vector) (filt : KeyPrefix) (l : list entry) : list Match :=
  (λ e, mkMatch e.1 (cosine q e.2)) <$> filter (λ e, prefix_matches filt e.1 = true) l.

Lemma matches_keys q filt l :
  m_key <$> matches_of q filt l = (filter (λ e : entry, prefix_matches filt e.1 = true) l).*1.
Proof. unfold matches_of. by rewrite <-list_fmap_compose. Qed.

Lemma NoDup_fst_filter (P : entry → Prop) `{!∀ e, Decision (P e)} (l : list entry) :
  NoDup l.*1 → NoDup (filter P l).*1.
Proof.
  induction l as [|e l IH]; [done|]. rewrite fmap_cons, NoDup_cons, filter_cons.
  intros [He Hnd]. case_decide; [|auto]. rewrite fmap_cons, NoDup_cons. split; [|auto].
  intros (e' & Heq & [_ ?]%list_elem_of_filter)%list_elem_of_fmap.
  apply He. rewrite Heq. by apply list_elem_of_fmap_2.
Qed.

Definition ranking (q : vector) (filt : KeyPrefix) (m : index) : list Match :=
  merge_sort (@ole _ by_score) (matches_of q filt (map_to_list m)).

Lemma ranking_hash_order `{HashOrder} q filt m :
  merge_sort (@ole _ by_score) (matches_of q filt (hash_iter m)) = ranking q filt m.
Proof.
  apply ranking_unique.
  - rewrite matches_keys. apply NoDup_fst_filter, NoDup_hash_iter.
  - unfold matches_of. by rewrite hash_iter_perm.
Qed.

Lemma elem_of_ranking q filt m x :
  x ∈ ranking q filt m ↔
  ∃ v, m !! m_key x = Some v ∧ prefix_matches filt (m_key x) = true ∧ m_score x = cosine q v.
Proof.
  unfold ranking. rewrite merge_sort_Permutation. unfold matches_of.
  rewrite list_elem_of_fmap. setoid_rewrite list_elem_of_filter. split.
  - intros ([k v] & -> & ? & Hin%elem_of_map_to_list). by exists v.
  - destruct x as [k s]. simpl. intros (v & Hk & Hf & ->). exists (k, v).
    by rewrite elem_of_map_to_list.
Qed.

Lemma NoDup_ranking q filt m : NoDup (m_key <$> ranking q filt m).
Proof.
  unfold ranking. rewrite merge_sort_Permutation, matches_keys.
  apply NoDup_fst_filter, NoDup_fst_map_to_list.
Qed.

(** C26: a query is the exact top-[k].  Over an index of one dimension, a query
    of that dimension returns, for whatever order the hash map lists its
    entries in, the same list: stored keys the filter matches, each once, with
    their cosine scores, every score finite, in descending order with ties by
    key; it has [k] of them or all there are, and nothing left out would have
    ranked above anything returned.  A query of another dimension is refused. *)
Theorem memory_query_top_k (d : nat) (m : index) (q : vector) (k : nat) (filt : KeyPrefix) :
  uniform d m →
  (m = ∅ ∨ length q = d → ∃ res,
     (∀ `{HashOrder}, Memory_query q k filt m = Ok res) ∧
     StronglySorted (@ole _ by_score) res ∧ NoDup (m_key <$> res) ∧
     (∀ x, x ∈ res → is_finite (m_score x) = true ∧ ∃ v, m !! m_key x = Some v ∧
        prefix_matches filt (m_key x) = true ∧ m_score x = cosine q v) ∧
     length res = k `min` length (ranking q filt m) ∧
     (∀ key v x, m !! key = Some v → prefix_matches filt key = true →
        key ∉ m_key <$> res → x ∈ res → @ole _ by_score x (mkMatch key (cosine q v)))) ∧
  (m ≠ ∅ → length q ≠ d → ∀ `{HashOrder}, ∃ msg, Memory_query q k filt m = Err (Backend msg)).
Proof.
  intros Hu. split.
  - intros Hq. exists (take k (ranking q filt m)). split_and!.
    + intros ?. unfold Memory_query. case_decide as Hm;
        [|rewrite (proj2 (check_dim_ok d m _ Hu) Hq)]; simpl;
        fold (matches_of q filt (hash_iter m)); by rewrite ranking_hash_order.
    + apply StronglySorted_take, by_score_sorted.
    + rewrite fmap_take. pose proof (NoDup_ranking q filt m) as Hnd.
      rewrite <-(take_drop k (m_key <$> _)) in Hnd. by apply NoDup_app in Hnd as [].
    + intros x Hx. apply (subseteq_take k), elem_of_ranking in Hx. split; [|done].
      destruct Hx as (v & _ & _ & ->). apply cosine_finite.
    + apply length_take.
    + intros key v x Hk Hf Hout Hx.
      apply (StronglySorted_take_drop _ k (ranking q filt m)); [apply by_score_sorted|done|].
      assert (mkMatch key (cosine q v) ∈ ranking q filt m) as Hin
        by (apply elem_of_ranking; by exists v).
      rewrite <-(take_drop k (ranking q filt m)) in Hin. apply elem_of_app in Hin as [Hin|]; [|done].
      exfalso. by apply Hout, (list_elem_of_fmap_2 m_key _ _ Hin).
  - intros Hne Hd ?. unfold Memory_query, check_dim.
    rewrite decide_False, (stored_dim_uniform d), decide_False, decide_True by done. by eexists.
Qed.

(** C40: the index never mixes dimensions.  Whatever calls it serves, accepted or
    refused, all the vectors it holds have one length; so the check each call
    makes, against whichever entry the hash map lists first, is a check against
    them all. *)
Theorem memory_index_one_dimension `{HashOrder} (ops : list IndexOp) :
  ∃ d, uniform d (foldl (λ m op, run_index op m) ∅ ops).
Proof.
  assert (∀ k v m d, uniform d m → ∃ d', uniform d' (Memory_upsert k v m).2) as Hup.
  { intros k v m d Hu. destruct (decide (m = ∅)) as [->|Hne].
    { exists (length v). rewrite (proj1 (Memory_upsert_spec d ∅ k v Hu)) by auto.
      eauto with gonzalo. }
    exists d. destruct (decide (length v = d)) as [Hd|Hd].
    - rewrite (proj1 (Memory_upsert_spec d m k v Hu)) by auto. eauto with gonzalo.
    - by destruct (proj2 (Memory_upsert_spec d m k v Hu) Hne Hd) as [msg ->]. }
  assert (∀ items m d, uniform d m → ∃ d', uniform d' (Memory_upsert_many items m).2) as Hmany.
  { induction items as [|[k v] items IH]; intros m d Hu; [by exists d|].
    unfold Memory_upsert_many. rewrite foldM_cons. simpl.
    destruct (Hup k v m d Hu) as [d' Hd'].
    destruct (Memory_upsert k v m) as [[[]|e] m']; [by apply (IH m' d')|by exists d']. }
  assert (∃ d, uniform d ∅) as Hinit by (exists 0; apply uniform_empty).
  revert Hinit. generalize (∅ : index). induction ops as [|op ops IH]; intros m [d Hu]; [by exists d|].
  apply IH. destruct op as [k v|k|items]; [by eapply Hup| |by eapply Hmany].
  exists d. by apply uniform_delete.
Qed.

(** A score is documented to lie in [-1.0, 1.0]; rounding takes a vector's
    similarity to itself above it. *)
Theorem cosine_above_one :
  let one := f32_from_le_bytes [Byte.x00; Byte.x00; Byte.x80; Byte.x3f] in
  SFltb (f32_value one) (cosine [one; one] [one; one]) = true.
Proof. vm_compute. reflexivity. Qed.

(** ** Witnesses *)

Definition sample_hash_order : HashOrder := {| hash_iter := map_to_list; hash_iter_perm m := reflexivity _ |}.

Definition sample_index : index := list_to_map sample_entries.

Lemma sample_index_uniform : uniform 2 sample_index.
Proof. apply map_Forall_to_list. vm_compute. by repeat constructor. Qed.

Lemma memory_query_top_k_witness :
  ∃ res, length res = 1 ∧
    @Memory_query sample_hash_order (sample_floats 2) 1 KeyPrefix_default sample_index = Ok res.
Proof.
  destruct (proj1 (memory_query_top_k 2 sample_index (sample_floats 2) 1 KeyPrefix_default
    sample_index_uniform) (or_intror eq_refl)) as (res & Hres & _ & _ & _ & Hlen & _).
  exists res. split; [by rewrite Hlen; vm_compute|]. apply Hres.
Defined.
