(* ===== verification/RecordIndex.v ===== *)
(** * RecordIndex: the durable vector index

    Models [gonzalo-vector]'s [record_index.rs].  A [RecordVectorIndex] is a
    [handle]: the index in memory and the manifest record it last saw
    committed.  Its methods are actions on the pair of the handle and the
    world that holds the store, so two handles on one store are two pairs with
    the same second half.  [commit_lock] makes a commit one step of its
    handle.  Shard reads of one batch run concurrently and finish in any order:
    [JoinOrder] is that order. *)

From S2P Require Export VectorIndex Manifests Stores.
From S2P Require Import SampleStores.

Definition SHARD_READ_CONCURRENCY : nat := 16.
Definition MAX_COMMIT_ATTEMPTS : nat := 5.

Inductive Delta :=
  | DUpsert (key : RecordKey) (v : vector)
  | DRemove (key : RecordKey).

Definition delta_key (d : Delta) : RecordKey :=
  match d with DUpsert key _ | DRemove key => key end.

(** ** The checks *)

Definition in_index (key : RecordKey) (msg : string) : string :=
  "vector index " +:+ key_to_string key +:+ ": " +:+ msg.

Definition shard_name (id : N) : string := "shard " +:+ Fleet.dec id.

Definition missing_blob_error (key : RecordKey) (id : N) (hash : ContentHash) : CoreError :=
  Backend (in_index key (shard_name id +:+ " names blob " +:+ hash_hex hash +:+
    " but it is absent")).

(** The spaces are printed with [Debug], whose quoting is left out. *)
Definition check_space_and_dim (key : RecordKey) (m : vector_manifest) (space : string)
    (dim : N) : Result unit :=
  if decide (vm_space m ≠ space)
  then Err (Invalid (in_index key ("stored embedding space is " +:+ vm_space m +:+
              ", opened as " +:+ space)))
  else if decide (vm_dim m ≠ dim)
  then Err (Invalid (in_index key ("stored dimension is " +:+ Fleet.dec (vm_dim m) +:+
              ", opened as " +:+ Fleet.dec dim)))
  else Ok tt.

Definition u16_max : N := 65535.

Definition check_key_len (key : RecordKey) : Result unit :=
  if decide (u16_max < str_len (key_namespace key) ∨ u16_max < str_len (key_collection key))%N
  then Err (Invalid ("vector index: key " +:+ key_to_string key +:+
              " has a namespace or collection longer than 64 KiB"))
  else Ok tt.

(** ** Handles *)

Record handle := mkHandle {
  h_key : RecordKey;
  h_space : string;
  h_dim : N;
  h_shards : N;
  h_inner : index;
  h_meta : Meta;
  h_last_seen : option record
}.

Definition with_inner (m : index) (h : handle) : handle :=
  mkHandle (h_key h) (h_space h) (h_dim h) (h_shards h) m (h_meta h) (h_last_seen h).
Definition with_last_seen (o : option record) (h : handle) : handle :=
  mkHandle (h_key h) (h_space h) (h_dim h) (h_shards h) (h_inner h) (h_meta h) o.

Definition lens_inner : Lens handle index := mkLens h_inner with_inner.

Section record_index.
Context `{Blake3, ManifestSerde, HashOrder, JoinOrder} {W : Type}.
Variable store : Store W.
Variable blobs : BlobStore W.

Abbreviation action := (M (handle * W) CoreError).

Definition on_store {A} (m : M W CoreError A) : action A := zoom lens_snd m.
Definition on_inner {A} (m : M index CoreError A) : action A :=
  zoom (compose_lens lens_fst lens_inner) m.
Definition this : action handle := λ s, (Ok s.1, s).
Definition set_last_seen (o : option record) : action unit := λ s,
  (Ok tt, (with_last_seen o s.1, s.2)).

(** Whether a key belongs to shard [id]. *)
Definition in_shard (shards id : N) (k : RecordKey) : bool :=
  bool_decide (shard_of k shards = id).

Definition shard_entries (h : handle) (id : N) : list entry :=
  collect_where (h_inner h) (in_shard (h_shards h) id).

Definition clear_shard (id : N) : action unit :=
  h ← this;
  foldM (λ _ e, on_inner (Memory_remove e.1)) tt (shard_entries h id).

Definition apply_shard_bytes (id : N) (b : bytes) : action unit :=
  h ← this;
  '(dim, entries) ← lift (decode_shard b);
  if decide (dim ≠ h_dim h)
  then throw (Backend (in_index (h_key h) (shard_name id +:+ " has dimension " +:+
                Fleet.dec dim +:+ ", manifest says " +:+ Fleet.dec (h_dim h))))
  else
    _ ← clear_shard id;
    on_inner (Memory_upsert_many entries).

Definition hydrate_shard (m : vector_manifest) (id : N) : action unit :=
  h ← this;
  match vm_entries m !! id with
  | None => clear_shard id
  | Some hash =>
      o ← on_store (bs_get_blob blobs hash);
      b ← lift (ok_or (missing_blob_error (h_key h) id hash) o);
      apply_shard_bytes id b
  end.

(** ** Opening *)

(** One task of a batch: its own result, kept until it is joined. *)
Definition read_shard (key : RecordKey) (e : N * ContentHash) : action (Result (N * bytes)) :=
  try_with (on_store (bs_get_blob blobs e.2)) (λ r,
    mret (o ← r; b ← ok_or (missing_blob_error key e.1 e.2) o; Ok (e.1, b))).

Definition hydrate_batch (batch : list (N * ContentHash)) : action unit :=
  h ← this;
  reads ← foldM (λ acc e, r ← read_shard (h_key h) e; mret (acc ++ [r])) [] batch;
  fetched ← foldM (λ acc r, p ← lift r; mret (acc ++ [p])) [] (join_order reads);
  foldM (λ _ p, apply_shard_bytes p.1 p.2) tt fetched.

Definition hydrate (m : vector_manifest) : action unit :=
  foldM (λ _ batch, hydrate_batch batch) tt
    (chunks SHARD_READ_CONCURRENCY (btree_items (vm_entries m))).

Definition index_meta : Meta := Meta_new (Identity_new "gonzalo-vector") "gonzalo-vector".

(** What [open] makes of the record at its key. *)
Definition existing_manifest (key : RecordKey) (o : option record) : Result (option record) :=
  match o with
  | Some t =>
      if is_tombstone t then
        if match rec_deleted_kind t with
           | Some GraphManifest | Some VectorManifest => true | _ => false end
        then Err (Invalid (in_index key MANIFEST_TOMBSTONE_RECREATE_REJECTED))
        else Ok None
      else Ok (Some t)
  | None => Ok None
  end.

Definition open_with_shards (key : RecordKey) (space : string) (dim shards : N) :
    M W CoreError handle := λ w,
  let run : M W CoreError (N * option record * option vector_manifest) :=
    o ← st_get_raw store key;
    existing ← lift (existing_manifest key o);
    match existing with
    | None => mret (shards, None, None)
    | Some r =>
        m ← lift (VectorManifest_from_body (rec_body r));
        _ ← lift (check_space_and_dim key m space dim);
        if decide (vm_shards m = 0%N)
        then throw (Backend (in_index key "manifest declares 0 shards"))
        else mret (vm_shards m, Some r, Some m)
    end in
  match run w with
  | (Err e, w) => (Err e, w)
  | (Ok (shards, existing, manifest), w) =>
      let h := mkHandle key space dim shards ∅ index_meta existing in
      match manifest with
      | None => (Ok h, w)
      | Some m =>
          let '(r, (h, w)) := hydrate m (h, w) in
          (match r with Ok _ => Ok h | Err e => Err e end, w)
      end
  end.

Definition DEFAULT_SHARDS : N := 256.

Definition open (key : RecordKey) (space : string) (dim : N) : M W CoreError handle :=
  open_with_shards key space dim DEFAULT_SHARDS.

(** ** Committing *)

(** The layer [deltas] put on a copy of shard [id]. *)
Definition apply_delta (h : handle) (id : N) (staged : index) (d : Delta) : index :=
  if in_shard (h_shards h) id (delta_key d)
  then match d with
       | DUpsert key v => <[key := v]> staged
       | DRemove key => delete key staged
       end
  else staged.

Definition stage_shard (h : handle) (id : N) (deltas : list Delta) : list entry :=
  btree_items (foldl (apply_delta h id) (list_to_map (shard_entries h id)) deltas).

Definition verify_shard_blobs (written : gmap N ContentHash) : action unit :=
  foldM (λ _ p, let '(id, hash) := p in
    has ← on_store (bs_has_blob blobs hash);
    if (has : bool) then mret tt else
    h ← this;
    restored ← on_store (bs_put_blob blobs (encode_shard (h_dim h) (shard_entries h id)));
    if decide (restored ≠ hash)
    then throw (Backend (in_index (h_key h) ("the manifest commit already landed, but " +:+
           shard_name id +:+ " was swept and the re-encoded bytes hash to " +:+
           hash_hex restored +:+ " rather than the committed " +:+ hash_hex hash +:+
           "; the index is unrecoverable")))
    else mret tt) tt (btree_items written).

Definition apply_deltas (deltas : list Delta) : action unit :=
  foldM (λ _ d, on_inner (match d with
    | DUpsert key v => Memory_upsert key v
    | DRemove key => Memory_remove key
    end)) tt deltas.

(** The upload of the staged shards, in shard order. *)
Definition put_shards (dirty : gset N) (deltas : list Delta) : action (gmap N ContentHash) :=
  foldM (λ acc id,
    h ← this;
    hash ← on_store (bs_put_blob blobs (encode_shard (h_dim h) (stage_shard h id deltas)));
    mret (<[id := hash]> acc)) ∅ (btree_elements dirty).

Definition base_manifest (h : handle) : Result vector_manifest :=
  match h_last_seen h with
  | Some r => VectorManifest_from_body (rec_body r)
  | None => Ok (VectorManifest_new (h_space h) (h_dim h) (h_shards h))
  end.

(** [self.last_seen] with the blobs of this commit, as a record to put. *)
Definition manifest_record (h : handle) (m : vector_manifest) : record * option Revision :=
  let body := VectorManifest_to_body m in
  match h_last_seen h with
  | Some current => (Record_update current body (h_meta h), Some (rec_revision current))
  | None => (Record_create (h_key h) VectorManifest body (h_meta h), None)
  end.

(** The shards to bring up to date after losing a race. *)
Definition to_hydrate (dirty : gset N) (base winner : gmap N ContentHash) : gset N :=
  dirty ∪ filter (λ id, base !! id ≠ winner !! id) (dom base ∪ dom winner).

(** The conflict arm, up to the retry. *)
Definition adopt_winner (dirty : gset N) (base : gmap N ContentHash) : action unit :=
  h ← this;
  o ← on_store (st_get store (h_key h));
  winner ← lift (ok_or (Backend (in_index (h_key h) "manifest vanished mid-commit")) o);
  m ← lift (VectorManifest_from_body (rec_body winner));
  _ ← lift (check_space_and_dim (h_key h) m (h_space h) (h_dim h));
  if decide (vm_shards m ≠ h_shards h)
  then throw (Invalid (in_index (h_key h) ("stored shard count is " +:+ Fleet.dec (vm_shards m) +:+
              ", opened as " +:+ Fleet.dec (h_shards h))))
  else
    _ ← foldM (λ _ id, hydrate_shard m id) tt (btree_elements (to_hydrate dirty base (vm_entries m)));
    set_last_seen (Some winner).

(** One attempt: [None] is a lost race. *)
Definition attempt (dirty : gset N) (deltas : list Delta) : action (option unit) :=
  h ← this;
  base ← lift (base_manifest h);
  written ← put_shards dirty deltas;
  let m := mkVectorManifest (vm_space base) (vm_dim base) (vm_shards base)
             (foldl (λ m p, <[p.1 := p.2]> m) (vm_entries base) (btree_items written)) in
  let '(r, expected) := manifest_record h m in
  res ← on_store (st_put store r expected);
  match res with
  | Committed rev =>
      _ ← apply_deltas deltas;
      _ ← set_last_seen (Some (set_revision r rev));
      _ ← verify_shard_blobs written;
      mret (Some tt)
  | PutConflicted _ => mret None
  end.

(** [more] is how many attempts are left after this one. *)
Fixpoint commit_loop (more : nat) (dirty : gset N) (deltas : list Delta) : action unit :=
  h ← this;
  base ← lift (base_manifest h);
  o ← attempt dirty deltas;
  match o with
  | Some _ => mret tt
  | None =>
      match more with
      | S more =>
          _ ← adopt_winner dirty (vm_entries base);
          commit_loop more dirty deltas
      | O => throw (Backend (in_index (h_key h) ("gave up after " +:+
               Fleet.dec (N.of_nat MAX_COMMIT_ATTEMPTS) +:+ " conflicting commits")))
      end
  end.

Definition dirty_shards (shards : N) (deltas : list Delta) : gset N :=
  list_to_set ((λ d, shard_of (delta_key d) shards) <$> deltas).

Definition commit (deltas : list Delta) : action unit :=
  if decide (deltas = []) then mret tt else
  h ← this;
  commit_loop (MAX_COMMIT_ATTEMPTS - 1) (dirty_shards (h_shards h) deltas) deltas.

(** ** [impl VectorIndex] *)

Definition wrong_dimension (h : handle) (v : vector) : Prop := N.of_nat (length v) ≠ h_dim h.

Definition index_upsert (key : RecordKey) (v : vector) : action unit :=
  _ ← lift (check_key_len key);
  h ← this;
  if decide (wrong_dimension h v)
  then throw (Invalid (in_index (h_key h) ("expected dimension " +:+ Fleet.dec (h_dim h) +:+
              ", got " +:+ Fleet.dec (N.of_nat (length v)))))
  else commit [DUpsert key v].

Definition index_remove (key : RecordKey) : action unit := commit [DRemove key].

(** One round of the checks of a batch. *)
Definition validate_one (e : entry) : action unit :=
  _ ← lift (check_key_len e.1);
  h ← this;
  if decide (wrong_dimension h e.2)
  then throw (Invalid (in_index (h_key h) (key_to_string e.1 +:+ " has dimension " +:+
              Fleet.dec (N.of_nat (length e.2)) +:+ ", index is " +:+ Fleet.dec (h_dim h))))
  else mret tt.

Definition validate (items : list entry) : action unit :=
  foldM (λ _ e, validate_one e) tt items.

Definition index_upsert_many (items : list entry) : action unit :=
  _ ← validate items;
  commit ((λ e, DUpsert e.1 e.2) <$> items).

Definition index_query (q : vector) (k : nat) (filt : KeyPrefix) : action (list Match) :=
  h ← this; lift (Memory_query q k filt (h_inner h)).

Definition index_keys (filt : KeyPrefix) : action (list RecordKey) :=
  h ← this; mret (Memory_keys filt (h_inner h)).
End record_index.

(** ** Shards of an index *)

Section shard_maps.
Context `{Blake3}.
Implicit Types m a b : index.

(** The entries of [m] in shard [id], and their blob. *)
Definition shard_map (shards id : N) m : index :=
  filter (λ p, in_shard shards id p.1 = true) m.

Definition shard_code (dim shards id : N) m : bytes :=
  encode_shard dim (map_to_list (shard_map shards id m)).

Lemma lookup_shard_map n id m k :
  shard_map n id m !! k = if decide (shard_of k n = id) then m !! k else None.
Proof.
  apply option_eq. intros v. unfold shard_map, in_shard. rewrite map_lookup_filter_Some. simpl.
  rewrite bool_decide_eq_true. case_decide; naive_solver.
Qed.

Lemma shard_map_ext n id a b :
  shard_map n id a = shard_map n id b ↔ ∀ k, shard_of k n = id → a !! k = b !! k.
Proof.
  split.
  - intros Heq k Hk. apply (f_equal (lookup k)) in Heq. rewrite !lookup_shard_map in Heq.
    by rewrite !decide_True in Heq.
  - intros Heq. apply map_eq. intros k. rewrite !lookup_shard_map. case_decide; auto.
Qed.

(** [a] in the shards [ids], [m] elsewhere. *)
Definition overlay (n : N) (ids : gset N) a m : index :=
  filter (λ p, shard_of p.1 n ∈ ids) a ∪ filter (λ p, shard_of p.1 n ∉ ids) m.

Lemma lookup_overlay n ids a m k :
  overlay n ids a m !! k = if decide (shard_of k n ∈ ids) then a !! k else m !! k.
Proof.
  apply option_eq. intros v. unfold overlay.
  rewrite lookup_union_Some_raw, !map_lookup_filter_Some, map_lookup_filter_None. simpl.
  case_decide; naive_solver.
Qed.

Lemma overlay_overlay n i j a m :
  overlay n i a (overlay n j a m) = overlay n (j ∪ i) a m.
Proof.
  apply map_eq. intros k. rewrite !lookup_overlay.
  repeat case_decide; try done; set_solver.
Qed.

Lemma overlay_empty n a m : overlay n ∅ a m = m.
Proof. apply map_eq. intros k. rewrite lookup_overlay. by rewrite decide_False by set_solver. Qed.

Lemma overlay_uniform n ids d a m : uniform d a → uniform d m → uniform d (overlay n ids a m).
Proof.
  intros Ha Hm k v. rewrite lookup_overlay. case_decide; [apply Ha|apply Hm].
Qed.

(** The index after [deltas]. *)
Definition delta_step m (d : Delta) : index :=
  match d with DUpsert key v => <[key := v]> m | DRemove key => delete key m end.
Definition after (deltas : list Delta) m : index := foldl delta_step m deltas.

Lemma stage_after h id deltas m :
  foldl (apply_delta h id) (shard_map (h_shards h) id m) deltas =
  shard_map (h_shards h) id (after deltas m).
Proof.
  unfold after. revert m. induction deltas as [|d deltas IH]; intros m; [done|]. simpl.
  rewrite <-IH. f_equal. apply map_eq. intros k. unfold apply_delta, in_shard.
  destruct d as [k' v|k']; simpl; case_bool_decide as Hk';
    rewrite ?lookup_insert, ?lookup_delete, !lookup_shard_map, ?lookup_insert, ?lookup_delete;
    repeat case_decide; congruence.
Qed.
End shard_maps.

Section committed.
Context `{Blake3, HashOrder}.

Lemma shard_entries_perm h id :
  shard_entries h id ≡ₚ map_to_list (shard_map (h_shards h) id (h_inner h)).
Proof.
  unfold shard_entries, collect_where, shard_map. rewrite hash_iter_perm.
  apply NoDup_Permutation.
  - apply NoDup_filter, NoDup_map_to_list.
  - apply NoDup_map_to_list.
  - intros [k v]. rewrite list_elem_of_filter, !elem_of_map_to_list, map_lookup_filter_Some.
    simpl. naive_solver.
Qed.

Lemma shard_entries_map h id :
  list_to_map (shard_entries h id) = shard_map (h_shards h) id (h_inner h).
Proof.
  rewrite <-(list_to_map_to_list (shard_map _ _ _)). symmetry. apply list_to_map_proper.
  - apply NoDup_fst_map_to_list.
  - by rewrite shard_entries_perm.
Qed.

Lemma btree_items_perm (m : index) : btree_items m ≡ₚ map_to_list m.
Proof.
  apply NoDup_Permutation.
  - apply (NoDup_fmap_1 fst). rewrite fst_btree_items. apply increasing_NoDup, btree_keys_increasing.
  - apply NoDup_map_to_list.
  - intros [k v]. by rewrite elem_of_btree_items, elem_of_map_to_list.
Qed.

Lemma encode_perm dim (es : list entry) (m : index) :
  es ≡ₚ map_to_list m → encode_shard dim es = encode_shard dim (map_to_list m).
Proof.
  intros Hp. unfold encode_shard. rewrite (sort_entries_unique es (map_to_list m)); [done| |done].
  rewrite Hp. apply NoDup_fst_map_to_list.
Qed.

(** What a commit uploads for a shard. *)
Lemma encode_staged h id deltas :
  encode_shard (h_dim h) (stage_shard h id deltas) =
  shard_code (h_dim h) (h_shards h) id (after deltas (h_inner h)).
Proof.
  unfold stage_shard, shard_code. rewrite shard_entries_map, stage_after.
  apply encode_perm, btree_items_perm.
Qed.

Lemma encode_entries h id :
  encode_shard (h_dim h) (shard_entries h id) =
  shard_code (h_dim h) (h_shards h) id (h_inner h).
Proof. apply encode_perm, shard_entries_perm. Qed.
End committed.

(** ** Manifests that name an index *)

Section names.
Context `{Blake3}.
Implicit Types m a b : index.

(** The manifest's entries are the hashes of the shards; a shard it does not
    list is empty. *)
Definition names (vm : vector_manifest) m : Prop := ∀ id,
  match vm_entries vm !! id with
  | Some h => h = ContentHash_of (shard_code (vm_dim vm) (vm_shards vm) id m)
  | None => shard_map (vm_shards vm) id m = ∅
  end.

(** The blobs the manifest lists are there. *)
Definition stored (vm : vector_manifest) m (bm : gmap ContentHash (bytes * Z)) : Prop :=
  ∀ id h, vm_entries vm !! id = Some h →
  fst <$> bm !! h = Some (shard_code (vm_dim vm) (vm_shards vm) id m).

(** The index is within what the shard format can express. *)
Definition fits (dim n : N) m : Prop := ∀ id,
  shard_ok dim (map_to_list (shard_map n id m)) ∧
  (N.of_nat (length (shard_code dim n id m)) ≤ u64_max)%N.

Lemma fits_uniform dim n m : fits dim n m → uniform (N.to_nat dim) m.
Proof.
  intros Hf k v Hk. destruct (Hf (shard_of k n)) as [[Hok _] _].
  rewrite Forall_forall in Hok. destruct (Hok (k, v)) as [_ _ _ _ Hd]; [|simpl in Hd; lia].
  by rewrite elem_of_map_to_list, lookup_shard_map, decide_True.
Qed.

Lemma fits_empty dim n : (dim < 2 ^ 32)%N → fits dim n ∅.
Proof.
  intros Hd id. assert (shard_map n id ∅ = ∅) as Hs by apply map_filter_empty.
  unfold shard_code. rewrite Hs, map_to_list_empty. split; [by split|].
  unfold encode_shard. rewrite !length_app, !length_le_bytes. vm_compute. discriminate.
Qed.

(** What decoding a shard's blob gives back. *)
Lemma decode_shard_code dim n id m :
  fits dim n m → ∃ es, decode_shard (shard_code dim n id m) = Ok (dim, es) ∧
    es ≡ₚ map_to_list (shard_map n id m).
Proof.
  intros Hf. destruct (Hf id) as [Hok Hlen]. eexists. split; [by apply Shards.decode_encode|].
  apply sort_entries_perm.
Qed.

(** Equal hashes are equal shards. *)
Lemma shard_code_inj `{!Inj (=) (=) ContentHash_of} dim n id a b :
  fits dim n a → fits dim n b →
  ContentHash_of (shard_code dim n id a) = ContentHash_of (shard_code dim n id b) →
  shard_map n id a = shard_map n id b.
Proof.
  intros Ha Hb Heq%(inj _). destruct (decode_shard_code dim n id a Ha) as (es & Hd & Hp).
  destruct (decode_shard_code dim n id b Hb) as (es' & Hd' & Hp').
  rewrite Heq, Hd' in Hd. injection Hd as ->.
  rewrite <-(list_to_map_to_list (shard_map n id a)), <-(list_to_map_to_list (shard_map n id b)).
  apply list_to_map_proper; [apply NoDup_fst_map_to_list|]. by rewrite <-Hp.
Qed.

(** Bringing the shards two manifests disagree on up to date is bringing all of
    them up to date. *)
Lemma overlay_to_hydrate `{!Inj (=) (=) ContentHash_of} dim n dirty (va vb : vector_manifest) a b :
  fits dim n a → fits dim n b → names va a → names vb b →
  vm_dim va = dim → vm_shards va = n → vm_dim vb = dim → vm_shards vb = n →
  overlay n (to_hydrate dirty (vm_entries va) (vm_entries vb)) b a = b.
Proof.
  intros Ha Hb Hna Hnb Hda Hsa Hdb Hsb. apply map_eq. intros k. rewrite lookup_overlay.
  case_decide as Hin; [done|]. unfold to_hydrate in Hin.
  assert (vm_entries va !! shard_of k n = vm_entries vb !! shard_of k n) as Heq.
  { apply dec_stable. intros Hne. apply Hin, elem_of_union_r, elem_of_filter. split; [done|].
    rewrite elem_of_union, !elem_of_dom.
    destruct (vm_entries va !! _), (vm_entries vb !! _); naive_solver. }
  assert (shard_map n (shard_of k n) a = shard_map n (shard_of k n) b) as Hs.
  { specialize (Hna (shard_of k n)). specialize (Hnb (shard_of k n)).
    rewrite Heq, Hda, Hsa in Hna. rewrite Hdb, Hsb in Hnb.
    destruct (vm_entries vb !! _); [|congruence].
    apply (shard_code_inj dim); [done..|congruence]. }
  by apply (proj1 (shard_map_ext _ _ _ _) Hs).
Qed.

(** Replacing the dirty shards' entries names the index after the deltas. *)
Lemma after_clean n deltas m k :
  shard_of k n ∉ dirty_shards n deltas → after deltas m !! k = m !! k.
Proof.
  unfold after, dirty_shards. revert m. induction deltas as [|d deltas IH]; intros m Hk; [done|].
  simpl in *. rewrite IH by set_solver. destruct d as [k' v|k']; simpl in *.
  - apply lookup_insert_ne. intros ->. set_solver.
  - apply lookup_delete_ne. intros ->. set_solver.
Qed.

Lemma shard_map_clean n deltas m id :
  id ∉ dirty_shards n deltas → shard_map n id (after deltas m) = shard_map n id m.
Proof. intros Hid. apply shard_map_ext. intros k <-. by apply (after_clean n). Qed.

Lemma names_after vm written deltas m :
  names vm m → (∀ id, written !! id =
    if decide (id ∈ dirty_shards (vm_shards vm) deltas)
    then Some (ContentHash_of (shard_code (vm_dim vm) (vm_shards vm) id (after deltas m)))
    else None) →
  names (mkVectorManifest (vm_space vm) (vm_dim vm) (vm_shards vm) (written ∪ vm_entries vm))
    (after deltas m).
Proof.
  intros Hn Hw id. simpl. destruct (decide (id ∈ dirty_shards (vm_shards vm) deltas)) as [Hd|Hd];
    specialize (Hw id); [rewrite decide_True in Hw by done|rewrite decide_False in Hw by done].
  - by rewrite (lookup_union_Some_l _ _ _ _ Hw).
  - rewrite lookup_union_r by done. specialize (Hn id).
    unfold shard_code. by rewrite !(shard_map_clean _ deltas m id Hd).
Qed.
End names.

(** ** Reading shards into memory *)

Lemma foldl_delete (l : list entry) (m : index) k :
  foldl (λ m e, delete e.1 m) m l !! k = if decide (k ∈ l.*1) then None else m !! k.
Proof.
  revert m. induction l as [|[k' v] l IH]; intros m.
  - rewrite decide_False by apply not_elem_of_nil. done.
  - simpl. rewrite IH, lookup_delete. repeat case_decide; set_solver.
Qed.

Lemma foldl_insert_union `{Countable K} {V} (l : list (K * V)) (m : gmap K V) :
  NoDup l.*1 → foldl (λ acc p, <[p.1 := p.2]> acc) m l = list_to_map l ∪ m.
Proof.
  revert m. induction l as [|[k v] l IH]; intros m Hnd; simpl.
  - by rewrite (left_id_L ∅ (∪)).
  - rewrite fmap_cons, NoDup_cons in Hnd. destruct Hnd as [Hk Hnd]. rewrite IH by done.
    rewrite <-insert_union_l, <-insert_union_r; [done|]. by apply not_elem_of_list_to_map_1.
Qed.

Section hydrating.
Context `{Blake3, ManifestSerde, HashOrder, JoinOrder} {W : Type}.
Variable store : Store W.
Variable blobs : BlobStore W.
Variables (contents : W → records) (cap : nat) (bm : W → gmap ContentHash (bytes * Z)).
Context `{!StoreLaws store contents cap bm, !BlobStoreLaws blobs bm contents}.
Implicit Types (s : handle * W) (m : index).

(** A step that only changed the index in memory. *)
Definition leaves s m (s' : handle * W) : Prop :=
  s'.1 = with_inner m s.1 ∧ contents s'.2 = contents s.2 ∧ bm s'.2 = bm s.2.

Lemma leaves_trans s m s1 m' s2 : leaves s m s1 → leaves s1 m' s2 → leaves s m' s2.
Proof. intros (E & ? & ?) (E' & ? & ?). unfold leaves. rewrite E', E. split_and!; [done|congruence..]. Qed.

Lemma leaves_refl s : leaves s (h_inner s.1) s.
Proof. destruct s as [[] w]. done. Qed.

Lemma on_inner_ok {A} (f : M index CoreError A) s a m :
  f (h_inner s.1) = (Ok a, m) → on_inner f s = (Ok a, (with_inner m s.1, s.2)).
Proof. intros Hf. unfold on_inner, zoom. simpl. by rewrite Hf. Qed.

Lemma on_store_run {A} (f : M W CoreError A) s r w :
  f s.2 = (r, w) → on_store f s = (r, (s.1, w)).
Proof. intros Hf. unfold on_store, zoom. simpl. by rewrite Hf. Qed.

Lemma removes_run (l : list entry) s :
  foldM (λ _ e, on_inner (W := W) (Memory_remove e.1)) tt l s =
    (Ok tt, (with_inner (foldl (λ m e, delete e.1 m) (h_inner s.1) l) s.1, s.2)).
Proof.
  revert s. induction l as [|e l IH]; intros s; [by destruct s as [[] w]|].
  rewrite foldM_cons, (on_inner_ok _ s tt (delete e.1 (h_inner s.1))) by done. by rewrite IH.
Qed.

Lemma clear_shard_run id s b :
  shard_map (h_shards s.1) id b = ∅ →
  clear_shard id s = (Ok tt, (with_inner (overlay (h_shards s.1) {[id]} b (h_inner s.1)) s.1, s.2)).
Proof.
  intros Hb. unfold clear_shard, this. unfold mbind, M_bind. rewrite removes_run.
  do 3 f_equal. apply map_eq. intros k. rewrite foldl_delete, lookup_overlay.
  assert (k ∈ (shard_entries s.1 id).*1 ↔
    shard_of k (h_shards s.1) = id ∧ is_Some (h_inner s.1 !! k)) as Hk.
  { rewrite list_elem_of_fmap. setoid_rewrite shard_entries_perm. split.
    - intros ([k' v] & -> & Hin%elem_of_map_to_list). rewrite lookup_shard_map in Hin.
      case_decide; [by eauto|done].
    - intros [Hid [v Hv]]. exists (k, v). by rewrite elem_of_map_to_list, lookup_shard_map, decide_True. }
  apply (f_equal (lookup k)) in Hb. rewrite lookup_shard_map, lookup_empty in Hb.
  destruct (decide (k ∈ _)) as [Hin|Hin]; rewrite Hk in Hin.
  - rewrite (decide_True (P := _ ∈ _)) by set_solver. by rewrite decide_True in Hb by tauto.
  - destruct (decide (shard_of k (h_shards s.1) = id)) as [Hid|Hid].
    + rewrite decide_True, Hb by set_solver. apply eq_None_not_Some. tauto.
    + by rewrite decide_False by set_solver.
Qed.

Lemma apply_shard_bytes_run id s b :
  fits (h_dim s.1) (h_shards s.1) b → uniform (N.to_nat (h_dim s.1)) (h_inner s.1) →
  apply_shard_bytes id (shard_code (h_dim s.1) (h_shards s.1) id b) s =
    (Ok tt, (with_inner (overlay (h_shards s.1) {[id]} b (h_inner s.1)) s.1, s.2)).
Proof.
  intros Hf Hu. destruct (decode_shard_code _ _ id b Hf) as (es & Hd & Hp).
  unfold apply_shard_bytes, this. unfold mbind at 1, M_bind at 1. unfold lift. rewrite Hd.
  unfold mbind at 1, M_bind at 1. rewrite decide_False by auto.
  set (m0 := overlay (h_shards s.1) {[id]} ∅ (h_inner s.1)).
  rewrite (bind_ok _ _ _ _ _ (clear_shard_run id s ∅ (map_filter_empty _))). fold m0.
  assert (NoDup es.*1) as Hnd by (rewrite Hp; apply NoDup_fst_map_to_list).
  assert (Forall (λ e, length e.2 = N.to_nat (h_dim s.1)) es) as Hes.
  { rewrite Hp. apply Forall_forall. intros [k v] Hin%elem_of_map_to_list.
    rewrite lookup_shard_map in Hin. case_decide; [|done]. by apply (fits_uniform _ _ _ Hf k). }
  assert (uniform (N.to_nat (h_dim s.1)) m0) as Hm0
    by (by apply overlay_uniform; [apply uniform_empty|]).
  rewrite (on_inner_ok _ _ tt (insert_all m0 es)) by (by apply (Memory_upsert_many_ok (N.to_nat (h_dim s.1)))).
  enough (insert_all m0 es = overlay (h_shards s.1) {[id]} b (h_inner s.1)) as -> by done.
  unfold insert_all. rewrite foldl_insert_union by done.
  rewrite (list_to_map_proper es (map_to_list (shard_map (h_shards s.1) id b))), list_to_map_to_list
    by done.
  apply map_eq. intros k. rewrite lookup_overlay.
  destruct (decide (shard_of k (h_shards s.1) = id)) as [Hk|Hk].
  - rewrite decide_True by set_solver. rewrite lookup_union, lookup_shard_map, decide_True by done.
    subst m0. rewrite lookup_overlay, decide_True, lookup_empty by set_solver. by destruct (b !! k).
  - rewrite decide_False by set_solver. rewrite lookup_union, lookup_shard_map, decide_False by done.
    subst m0. rewrite lookup_overlay, decide_False by set_solver. by destruct (h_inner s.1 !! k).
Qed.

(** The handle and the world agree with manifest [vm] of index [b]. *)
Definition readable (vm : vector_manifest) b s : Prop :=
  vm_dim vm = h_dim s.1 ∧ vm_shards vm = h_shards s.1 ∧
  fits (h_dim s.1) (h_shards s.1) b ∧ names vm b ∧ stored vm b (bm s.2) ∧
  uniform (N.to_nat (h_dim s.1)) (h_inner s.1).

Lemma readable_leaves vm b ids s s' :
  readable vm b s → leaves s (overlay (h_shards s.1) ids b (h_inner s.1)) s' → readable vm b s'.
Proof.
  intros (Hd & Hn & Hf & Hna & Hst & Hu) (E & _ & Hb). unfold readable. rewrite E, Hb. simpl.
  split_and!; try done. apply overlay_uniform; [by eapply fits_uniform|done].
Qed.

Lemma hydrate_shard_run vm b id s :
  readable vm b s → ∃ s',
    hydrate_shard blobs vm id s = (Ok tt, s') ∧
    leaves s (overlay (h_shards s.1) {[id]} b (h_inner s.1)) s'.
Proof.
  intros (Hd & Hn & Hf & Hna & Hst & Hu). unfold hydrate_shard, this.
  unfold mbind at 1, M_bind at 1. specialize (Hna id). specialize (Hst id).
  destruct (vm_entries vm !! id) as [h|] eqn:E.
  - specialize (Hst h eq_refl). rewrite Hd, Hn in Hst.
    destruct (law_get_blob h s.2) as (w & Hrun & Hc & Hb). rewrite Hst in Hrun.
    rewrite (bind_ok _ _ _ _ _ (on_store_run _ _ _ _ Hrun)). unfold lift at 1. simpl ok_or.
    unfold mbind at 1, M_bind at 1.
    pose proof (apply_shard_bytes_run id (s.1, w) b Hf Hu) as Happ. simpl in Happ.
    rewrite Happ. eexists. split; [done|]. by split.
  - rewrite Hn in Hna. rewrite (clear_shard_run id s b) by done. eexists. by split.
Qed.

Lemma hydrate_shards_run vm b ids s :
  readable vm b s → ∃ s',
    foldM (λ _ id, hydrate_shard blobs vm id) tt ids s = (Ok tt, s') ∧
    leaves s (overlay (h_shards s.1) (list_to_set ids) b (h_inner s.1)) s'.
Proof.
  revert s. induction ids as [|id ids IH]; intros s Hr.
  - exists s. split; [done|]. simpl. rewrite overlay_empty. apply leaves_refl.
  - destruct (hydrate_shard_run vm b id s Hr) as (s1 & Hrun & Hl).
    destruct (IH s1) as (s2 & Hrun2 & Hl2); [by eapply readable_leaves|].
    exists s2. rewrite foldM_cons, Hrun. split; [done|].
    pose proof (leaves_trans _ _ _ _ _ Hl Hl2) as Hl3. destruct Hl as (E & _).
    rewrite E in Hl3. simpl in Hl3. rewrite overlay_overlay in Hl3. done.
Qed.

(** *** A batch of reads *)

Lemma read_shards_run vm b key batch acc s :
  readable vm b s → (∀ e, e ∈ batch → vm_entries vm !! e.1 = Some e.2) → ∃ s',
    foldM (λ acc e, r ← read_shard blobs key e; mret (acc ++ [r])) acc batch s =
      (Ok (acc ++ ((λ e, Ok (e.1, shard_code (h_dim s.1) (h_shards s.1) e.1 b)) <$> batch)), s') ∧
    leaves s (h_inner s.1) s'.
Proof.
  revert acc s. induction batch as [|[id h] batch IH]; intros acc s Hr Hin.
  - exists s. rewrite foldM_nil, app_nil_r. split; [done|apply leaves_refl].
  - pose proof Hr as (Hd & Hn & _ & _ & Hst & _).
    specialize (Hst id h (Hin (id, h) ltac:(left))). rewrite Hd, Hn in Hst.
    destruct (law_get_blob h s.2) as (w & Hrun & Hc & Hb). rewrite Hst in Hrun.
    destruct (IH (acc ++ [Ok (id, shard_code (h_dim s.1) (h_shards s.1) id b)]) (s.1, w))
      as (s' & Hrun' & Hl).
    + unfold readable in *. simpl. by rewrite Hb.
    + intros e He. apply Hin. by right.
    + exists s'. rewrite foldM_cons. unfold read_shard at 1, try_with. simpl snd.
      unfold mbind at 1, M_bind at 1. rewrite (on_store_run _ _ _ _ Hrun).
      simpl. rewrite <-app_assoc in Hrun'. split; [exact Hrun'|].
      destruct s as [[] w0]. simpl in *. destruct Hl as (E & Hc' & Hb'). simpl in *.
      unfold leaves; simpl; split_and!; [exact E|congruence..].
Qed.

Lemma collect_ok {A S} (l : list A) acc (s : S) :
  foldM (λ acc (r : Result A), p ← lift r; mret (acc ++ [p])) acc (Ok <$> l) s = (Ok (acc ++ l), s).
Proof.
  revert acc. induction l as [|x l IH]; intros acc; [by rewrite app_nil_r|].
  rewrite fmap_cons, foldM_cons. simpl. rewrite IH, <-app_assoc. done.
Qed.

Lemma apply_shards_run vm b ids s :
  readable vm b s → ∃ s',
    foldM (λ _ p, apply_shard_bytes p.1 p.2) tt
      ((λ id, (id, shard_code (h_dim s.1) (h_shards s.1) id b)) <$> ids) s = (Ok tt, s') ∧
    leaves s (overlay (h_shards s.1) (list_to_set ids) b (h_inner s.1)) s'.
Proof.
  revert s. induction ids as [|id ids IH]; intros s Hr.
  - exists s. split; [done|]. simpl. rewrite overlay_empty. apply leaves_refl.
  - pose proof Hr as (_ & _ & Hf & _ & _ & Hu).
    rewrite fmap_cons, foldM_cons. cbn [fst snd]. rewrite (apply_shard_bytes_run id s b Hf Hu).
    set (s1 := (with_inner (overlay (h_shards s.1) {[id]} b (h_inner s.1)) s.1, s.2)).
    destruct (IH s1) as (s2 & Hrun2 & Hl2); [by eapply readable_leaves|].
    exists s2. split; [exact Hrun2|].
    assert (leaves s (overlay (h_shards s.1) {[id]} b (h_inner s.1)) s1) as Hl by done.
    pose proof (leaves_trans _ _ _ _ _ Hl Hl2) as Hl3. simpl in Hl3.
    by rewrite overlay_overlay in Hl3.
Qed.

(** Whatever order the reads of a batch finish in. *)
Lemma hydrate_batch_run vm b batch s :
  readable vm b s → (∀ e, e ∈ batch → vm_entries vm !! e.1 = Some e.2) → ∃ s',
    hydrate_batch blobs batch s = (Ok tt, s') ∧
    leaves s (overlay (h_shards s.1) (list_to_set batch.*1) b (h_inner s.1)) s'.
Proof.
  intros Hr Hin. unfold hydrate_batch, this. unfold mbind at 1, M_bind at 1.
  destruct (read_shards_run vm b (h_key s.1) batch [] s Hr Hin) as (s1 & Hrun1 & Hl1).
  rewrite (bind_ok _ _ _ _ _ Hrun1). simpl app.
  set (rd := λ id, (id, shard_code (h_dim s.1) (h_shards s.1) id b)).
  assert (∃ ids, join_order ((λ e : N * ContentHash, (Ok (rd e.1) : Result _)) <$> batch) =
    Ok <$> (rd <$> ids) ∧ ids ≡ₚ batch.*1) as (ids & Hj & Hp).
  { pose proof (join_order_perm ((λ e : N * ContentHash, (Ok (rd e.1) : Result _)) <$> batch)) as Hp.
    assert ((λ e : N * ContentHash, (Ok (rd e.1) : Result _)) <$> batch =
      (λ id, Ok (rd id)) <$> batch.*1) as Hb by (by rewrite <-list_fmap_compose).
    rewrite Hb in Hp |- *. 
    destruct (Permutation_map_inv _ _ Hp) as (ids & Heq & Hp').
    exists ids. split; [|by symmetry]. by rewrite Heq, <-list_fmap_compose. }
  unfold rd in Hj. rewrite Hj. fold rd.
  rewrite (bind_ok _ _ _ _ _ (collect_ok (rd <$> ids) [] s1)). simpl app.
  assert (readable vm b s1) as Hr1.
  { apply (readable_leaves vm b ∅ s s1 Hr). by rewrite overlay_empty. }
  pose proof Hl1 as (E & _). destruct (apply_shards_run vm b ids s1 Hr1) as (s2 & Hrun2 & Hl2).
  rewrite E in Hrun2, Hl2. simpl in Hrun2, Hl2.
  exists s2. split; [exact Hrun2|]. rewrite (list_to_set_perm_L _ _ Hp) in Hl2.
  eapply leaves_trans; [done|]. exact Hl2.
Qed.

(** *** The whole manifest *)

Lemma hydrate_batches_run vm b batches s :
  readable vm b s → (∀ e, e ∈ concat batches → vm_entries vm !! e.1 = Some e.2) → ∃ s',
    foldM (λ _ batch, hydrate_batch blobs batch) tt batches s = (Ok tt, s') ∧
    leaves s (overlay (h_shards s.1) (list_to_set (concat batches).*1) b (h_inner s.1)) s'.
Proof.
  revert s. induction batches as [|batch batches IH]; intros s Hr Hin; simpl in Hin.
  - exists s. split; [done|]. simpl. rewrite overlay_empty. apply leaves_refl.
  - destruct (hydrate_batch_run vm b batch s Hr) as (s1 & Hrun & Hl); [set_solver|].
    destruct (IH s1) as (s2 & Hrun2 & Hl2); [by eapply readable_leaves|set_solver|].
    exists s2. rewrite foldM_cons, Hrun. split; [done|].
    pose proof (leaves_trans _ _ _ _ _ Hl Hl2) as Hl3. destruct Hl as (E & _).
    rewrite E in Hl3. simpl in Hl3. rewrite overlay_overlay in Hl3.
    simpl concat. by rewrite fmap_app, list_to_set_app_L.
Qed.

Lemma overlay_all n (vm : vector_manifest) b m :
  names vm b → vm_shards vm = n → m = ∅ → overlay n (dom (vm_entries vm)) b m = b.
Proof.
  intros Hna <- ->. apply map_eq. intros k. rewrite lookup_overlay. case_decide as Hk; [done|].
  specialize (Hna (shard_of k (vm_shards vm))).
  apply not_elem_of_dom in Hk. rewrite Hk in Hna. apply (f_equal (lookup k)) in Hna.
  by rewrite lookup_shard_map, decide_True, lookup_empty in Hna.
Qed.

Lemma hydrate_run vm b s :
  readable vm b s → h_inner s.1 = ∅ → ∃ s',
    hydrate blobs vm s = (Ok tt, s') ∧ leaves s b s'.
Proof.
  intros Hr He. pose proof Hr as (_ & Hn & _ & Hna & _ & _).
  destruct (hydrate_batches_run vm b (chunks SHARD_READ_CONCURRENCY (btree_items (vm_entries vm))) s)
    as (s' & Hrun & Hl); [done| |].
  - rewrite concat_chunks by done. by intros [id h] Hin%elem_of_btree_items.
  - exists s'. split; [done|]. rewrite concat_chunks, fst_btree_items in Hl by done.
    assert (list_to_set (btree_keys (vm_entries vm)) = dom (vm_entries vm)) as Hdom.
    { apply set_eq. intros id. by rewrite elem_of_list_to_set, elem_of_btree_keys, elem_of_dom. }
    by rewrite Hdom, (overlay_all _ vm) in Hl.
Qed.

(** A revision carries the hash of its body, as [create] and [update] make it. *)
Definition stamped (r : record) : Prop :=
  rev_hash (rec_revision r) = ContentHash_of (body_bytes (rec_body r)).

(** The store holds [vm]'s index [m] at [key], in record [c]. *)
Definition holds_index (key : RecordKey) (space : string) (dim n : N) m (c : record) (w : W) :
    Prop :=
  contents w !! key = Some c ∧ is_tombstone c = false ∧ stamped c ∧
  ∃ vm, VectorManifest_from_body (rec_body c) = Ok vm ∧ vm_space vm = space ∧
    vm_dim vm = dim ∧ vm_shards vm = n ∧ names vm m ∧ stored vm m (bm w).

Lemma open_run key space dim shards n m c w :
  holds_index key space dim n m c w → n ≠ 0%N → fits dim n m → ∃ w',
    open_with_shards store blobs key space dim shards w =
      (Ok (mkHandle key space dim n m index_meta (Some c)), w') ∧
    contents w' = contents w ∧ bm w' = bm w.
Proof.
  intros (Hc & Ht & _ & vm & Hvm & <- & <- & <- & Hna & Hst) Hn Hf.
  destruct (law_get_raw key w) as (w1 & Hrun & Hc1 & Hb1). rewrite Hc in Hrun.
  unfold open_with_shards. rewrite (bind_ok _ _ _ _ _ Hrun). unfold existing_manifest.
  rewrite Ht. unfold lift. unfold mbind, M_bind. rewrite Hvm.
  unfold check_space_and_dim. rewrite !decide_False by auto. simpl.
  destruct (hydrate_run vm m (mkHandle key (vm_space vm) (vm_dim vm) (vm_shards vm) ∅ index_meta
    (Some c), w1)) as ([h' w'] & Hhyd & E & Hc' & Hb').
  - unfold readable. simpl. rewrite Hb1. by split_and!.
  - done.
  - rewrite Hhyd. exists w'. simpl in *. subst h'. by rewrite Hc', Hb', Hc1, Hb1.
Qed.
End hydrating.
