(* ===== verification/IndexCommit.v ===== *)
(** * IndexCommit: a commit of the durable index loses nothing

    The optimistic commit loop of [record_index.rs], proved against the
    [Store] and [BlobStore] contracts: from memory that may be stale a commit
    ends with the store, and the handle, holding the index the store had plus
    the commit's own changes.  The hash is assumed collision-free. *)

From S2P Require Export RecordIndex.
From S2P Require Import SampleStores.

(** Every blob is filed under the hash of its content. *)
Definition coherent `{Blake3} (bm : gmap ContentHash (bytes * Z)) : Prop :=
  ∀ h c t, bm !! h = Some (c, t) → h = ContentHash_of c.

(** A commit whose upserts all have the index's dimension. *)
Definition deltas_ok (dim : N) (deltas : list Delta) : Prop :=
  Forall (λ d, match d with DUpsert _ v => length v = N.to_nat dim | DRemove _ => True end) deltas.

Section committing.
Context `{Blake3, !Inj (=) (=) ContentHash_of, ManifestSerde, HashOrder, JoinOrder} {W : Type}.
Variable store : Store W.
Variable blobs : BlobStore W.
Variables (contents : W → records) (cap : nat) (bm : W → gmap ContentHash (bytes * Z)).
Context `{!StoreLaws store contents cap bm, !BlobStoreLaws blobs bm contents}.
Implicit Types (s : handle * W) (m : index) (w : W).

(** The handle's memory is [m], and so says the manifest it last saw. *)
Definition synced (h : handle) m : Prop :=
  h_inner h = m ∧ (∀ r, h_last_seen h = Some r →
    rec_key r = h_key h ∧ is_tombstone r = false ∧ stamped r) ∧
  ∃ base, base_manifest h = Ok base ∧ vm_space base = h_space h ∧ vm_dim base = h_dim h ∧
    vm_shards base = h_shards h ∧ names base m.

(** A store that has index [m] for the handle's configuration, in record [c]. *)
Definition indexed (h : handle) m (c : record) w : Prop :=
  keyed (contents w) ∧ coherent (bm w) ∧
  holds_index contents bm (h_key h) (h_space h) (h_dim h) (h_shards h) m c w.

(** ** Uploading *)

(** Only blobs were added. *)
Definition uploads s s' : Prop :=
  s'.1 = s.1 ∧ contents s'.2 = contents s.2 ∧ bm s.2 ⊆ bm s'.2 ∧ coherent (bm s'.2).

Lemma put_blob_run (b : bytes) s :
  coherent (bm s.2) → ∃ s', on_store (bs_put_blob blobs b) s = (Ok (ContentHash_of b), s') ∧
    uploads s s' ∧ fst <$> bm s'.2 !! ContentHash_of b = Some b.
Proof.
  intros Hco. destruct (law_put_blob b s.2) as (w & t & Hrun & Hc & Hb).
  exists (s.1, w). rewrite (on_store_run _ _ _ _ Hrun). split; [done|].
  unfold uploads. simpl. rewrite Hb. destruct (bm s.2 !! ContentHash_of b) as [[b' t']|] eqn:E.
  - split; [done|]. rewrite E. simpl. f_equal. by apply Hco, (inj ContentHash_of) in E.
  - split.
    + split_and!; [done..|by apply insert_subseteq|].
      intros h c t0 [[<- [= <- <-]]|[_ ?]]%lookup_insert_Some; [done|by eapply Hco].
    + by rewrite lookup_insert_eq.
Qed.

Lemma lookup_blob_mono (b b' : gmap ContentHash (bytes * Z)) h c :
  b ⊆ b' → fst <$> b !! h = Some c → fst <$> b' !! h = Some c.
Proof.
  intros Hsub (p & Hp & ->)%fmap_Some. by rewrite (lookup_weaken _ _ _ _ Hp Hsub).
Qed.

(** What a commit of [deltas] on [h] uploads for a shard. *)
Definition new_code (h : handle) (deltas : list Delta) (id : N) : bytes :=
  shard_code (h_dim h) (h_shards h) id (after deltas (h_inner h)).

Lemma put_shards_run dirty deltas s :
  coherent (bm s.2) → ∃ written s',
    put_shards blobs dirty deltas s = (Ok written, s') ∧ uploads s s' ∧
    (∀ id, written !! id =
      if decide (id ∈ dirty) then Some (ContentHash_of (new_code s.1 deltas id)) else None) ∧
    (∀ id, id ∈ dirty → fst <$> bm s'.2 !! ContentHash_of (new_code s.1 deltas id) =
      Some (new_code s.1 deltas id)).
Proof.
  intros Hco. unfold put_shards. set (f := λ acc id, _).
  destruct (foldM_inv f (λ done written s', uploads s s' ∧
      (∀ id, written !! id =
        if decide (id ∈ done) then Some (ContentHash_of (new_code s.1 deltas id)) else None) ∧
      (∀ id, id ∈ done → fst <$> bm s'.2 !! ContentHash_of (new_code s.1 deltas id) =
        Some (new_code s.1 deltas id)))
    (btree_elements dirty) ∅ s) as (written & s' & Hrun & Hup & Hw & Hst).
  - split; [by split_and!|]. split; [|by intros ? ?%elem_of_nil]. intros id.
    by rewrite decide_False by apply not_elem_of_nil.
  - intros done id todo acc s1 _ ((E & Hc & Hsub & Hco1) & Hacc & Hst).
    destruct (put_blob_run (new_code s.1 deltas id) s1 Hco1) as (s2 & Hrun & (E2 & Hc2 & Hsub2 & Hco2) & Hb).
    exists (<[id := ContentHash_of (new_code s.1 deltas id)]> acc), s2. split.
    + unfold f, this. unfold mbind at 1, M_bind at 1. rewrite encode_staged, E.
      fold (new_code s.1 deltas id). by rewrite (bind_ok _ _ _ _ _ Hrun).
    + split; [split_and!; [congruence..|by etrans|done]|]. split.
      * intros id'. rewrite lookup_insert, Hacc. repeat case_decide; set_solver.
      * intros id' [Hin | ->%list_elem_of_singleton]%elem_of_app; [|done].
        by eapply lookup_blob_mono, Hst.
  - exists written, s'. split; [done|]. split; [done|]. split.
    + intros id. rewrite Hw. apply decide_ext, elem_of_btree_elements.
    + intros id Hid. by apply Hst, elem_of_btree_elements.
Qed.

(** ** Applying *)

Lemma apply_deltas_run deltas s :
  uniform (N.to_nat (h_dim s.1)) (h_inner s.1) → deltas_ok (h_dim s.1) deltas →
  apply_deltas deltas s = (Ok tt, (with_inner (after deltas (h_inner s.1)) s.1, s.2)).
Proof.
  unfold apply_deltas, after. intros Hu Hok. revert s Hu Hok.
  induction deltas as [|d deltas IH]; intros s Hu Hok; [by destruct s as [[] w]|].
  apply Forall_cons in Hok as [Hd Hok]. rewrite foldM_cons.
  rewrite (on_inner_ok _ s tt (delta_step (h_inner s.1) d)).
  - rewrite IH; [done| |done]. destruct d as [k v|k]; simpl; eauto with gonzalo.
  - destruct d as [k v|k]; [|done].
    apply (Memory_upsert_spec (N.to_nat (h_dim s.1))); auto.
Qed.

Lemma verify_run (written : gmap N ContentHash) s :
  (∀ id h, written !! id = Some h → is_Some (bm s.2 !! h)) → ∃ s',
    verify_shard_blobs blobs written s = (Ok tt, s') ∧ leaves contents bm s (h_inner s.1) s'.
Proof.
  intros Hw. unfold verify_shard_blobs. set (f := λ _ p, _).
  destruct (foldM_inv f (λ _ _ s', leaves contents bm s (h_inner s.1) s')
    (btree_items written) tt s) as ([] & s' & Hrun & Hl).
  - apply leaves_refl.
  - intros done [id h] todo [] s1 Hin (E & Hc & Hb).
    assert (is_Some (bm s1.2 !! h)) as Hsome.
    { rewrite Hb. apply (Hw id). apply elem_of_btree_items. rewrite Hin. set_solver. }
    destruct (law_has_blob h s1.2) as (w & Hrun & Hc1 & Hb1).
    exists tt, (s1.1, w). split.
    + unfold f. rewrite (bind_ok _ _ _ _ _ (on_store_run _ _ _ _ Hrun)).
      by rewrite bool_decide_eq_true_2.
    + unfold leaves. simpl. split_and!; congruence.
  - by exists s'.
Qed.

(** ** One attempt *)

(** A key a [create] goes through at. *)
Definition creatable (o : option record) : Prop :=
  match o with
  | Some t => is_tombstone t = true ∧
      match rec_deleted_kind t with Some k => is_manifest_kind k = false | None => True end
  | None => True
  end.

(** The store is where the handle last saw it. *)
Definition current (h : handle) w : Prop :=
  match h_last_seen h with
  | Some r => ∃ c, contents w !! h_key h = Some c ∧ is_tombstone c = false ∧
      rec_revision c = rec_revision r
  | None => creatable (contents w !! h_key h)
  end.

(** What [put] makes of the record a commit sends. *)
Lemma current_writes h vm w now :
  (∀ r, h_last_seen h = Some r → rec_key r = h_key h ∧ is_tombstone r = false ∧ stamped r) →
  current h w →
  let '(r, e) := manifest_record h vm in
  rec_key r = h_key h ∧ rec_body r = VectorManifest_to_body vm ∧ ∃ c, plan_put (contents w !! h_key h) r e now cap = PutWrite c ∧
    rec_key c = h_key h ∧ rec_body c = VectorManifest_to_body vm ∧ is_tombstone c = false ∧
    is_tombstone r = false ∧ stamped c.
Proof.
  unfold current, manifest_record. intros Hl Hcur. destruct (h_last_seen h) as [r|].
  - destruct (Hl r eq_refl) as (Hk & Ht & _). destruct Hcur as (c & Hc & Htc & Hrev).
    split; [done|]. split; [done|]. rewrite Hc. unfold plan_put.
    change (is_tombstone (Record_update r _ _)) with (is_tombstone r).
    rewrite Ht, Htc, decide_True by congruence. eexists. split; [done|]. by split_and!.
  - split; [done|]. split; [done|]. unfold plan_put.
    change (is_tombstone (Record_create _ _ _ _)) with false.
    destruct (contents w !! h_key h) as [t|]; [|eexists; by split_and!].
    destruct Hcur as [-> Hdk]. destruct (rec_deleted_kind t) as [k|]; [rewrite Hdk|];
      eexists; by split_and!.
Qed.

Lemma foldl_btree_items (written e : gmap N ContentHash) :
  foldl (λ acc p, <[p.1 := p.2]> acc) e (btree_items written) = written ∪ e.
Proof.
  assert (NoDup (btree_items written).*1) as Hnd
    by (rewrite fst_btree_items; apply increasing_NoDup, btree_keys_increasing).
  rewrite foldl_insert_union by done. f_equal. apply map_eq. intros k. apply option_eq. intros v.
  by rewrite <-elem_of_list_to_map, elem_of_btree_items.
Qed.

(** The deltas all land in [dirty_shards]. *)
Abbreviation dirty_of h deltas := (dirty_shards (h_shards h) deltas).

(** The manifest of a commit that uploaded [written]. *)
Definition merged (base : vector_manifest) (written : gmap N ContentHash) : vector_manifest :=
  mkVectorManifest (vm_space base) (vm_dim base) (vm_shards base) (written ∪ vm_entries base).

Lemma stored_after base written deltas m b b' :
  stored base m b → b ⊆ b' → (∀ id, written !! id =
    if decide (id ∈ dirty_shards (vm_shards base) deltas)
    then Some (ContentHash_of (shard_code (vm_dim base) (vm_shards base) id (after deltas m)))
    else None) →
  (∀ id h, written !! id = Some h → fst <$> b' !! h =
     Some (shard_code (vm_dim base) (vm_shards base) id (after deltas m))) →
  stored (merged base written) (after deltas m) b'.
Proof.
  intros Hst Hsub Hw Hb id h. simpl. intros [Hin|[Hnone Hin]]%lookup_union_Some_raw; [by apply Hb|].
  rewrite Hw in Hnone. case_decide as Hid; [done|]. unfold shard_code.
  rewrite shard_map_clean by done. by eapply lookup_blob_mono, Hst.
Qed.

(** What follows a [Committed]. *)
Lemma finish_run deltas (written : gmap N ContentHash) r s :
  uniform (N.to_nat (h_dim s.1)) (h_inner s.1) → deltas_ok (h_dim s.1) deltas →
  (∀ id h, written !! id = Some h → is_Some (bm s.2 !! h)) → ∃ w,
    (_ ← apply_deltas deltas;
     _ ← set_last_seen (Some r);
     _ ← verify_shard_blobs blobs written;
     mret (Some tt)) s =
      (Ok (Some tt), (with_last_seen (Some r) (with_inner (after deltas (h_inner s.1)) s.1), w)) ∧
    contents w = contents s.2 ∧ bm w = bm s.2.
Proof.
  intros Hu Hok Hw. rewrite (bind_ok _ _ _ _ _ (apply_deltas_run deltas s Hu Hok)).
  unfold set_last_seen at 1. unfold mbind at 1, M_bind at 1. simpl.
  set (h' := with_last_seen _ _).
  destruct (verify_run written (h', s.2)) as ([h1 w] & Hrun & E & Hc & Hb); [done|].
  rewrite (bind_ok _ _ _ _ _ Hrun). exists w. simpl in *. subst h1. done.
Qed.

(** A handle that is up to date commits. *)
Lemma attempt_wins deltas s m base :
  synced s.1 m → current s.1 s.2 → coherent (bm s.2) → keyed (contents s.2) →
  uniform (N.to_nat (h_dim s.1)) m → deltas_ok (h_dim s.1) deltas →
  base_manifest s.1 = Ok base → stored base m (bm s.2) → ∃ r c w,
    attempt store blobs (dirty_of s.1 deltas) deltas s =
      (Ok (Some tt), (with_last_seen (Some r) (with_inner (after deltas m) s.1), w)) ∧
    synced (with_last_seen (Some r) (with_inner (after deltas m) s.1)) (after deltas m) ∧
    indexed s.1 (after deltas m) c w ∧ contents w = <[h_key s.1 := c]> (contents s.2).
Proof.
  intros (Hm & Hls & base' & Hbase' & Hsp & Hdim & Hsh & Hna) Hcur Hco Hke Hu Hok Hbase Hst.
  rewrite Hbase in Hbase'. injection Hbase' as <-.
  destruct (put_shards_run (dirty_of s.1 deltas) deltas s Hco)
    as (written & s1 & Hput & (E1 & Hc1 & Hsub & Hco1) & Hw & Hwb).
  pose proof (current_writes s.1 (merged base written)) as Hplan.
  unfold attempt, this. unfold mbind at 1, M_bind at 1. rewrite Hbase. unfold lift.
  unfold mbind at 1, M_bind at 1. rewrite (bind_ok _ _ _ _ _ Hput).
  rewrite foldl_btree_items. fold (merged base written).
  destruct (manifest_record s.1 (merged base written)) as [r e] eqn:Hmr.
  assert (current s.1 s1.2) as Hcur1 by (unfold current in *; by rewrite Hc1).
  destruct (law_put r e s1.2) as (now & res & w2 & Hrun & Hb2 & Heq).
  destruct (Hplan s1.2 now Hls Hcur1) as (Hrk & Hrb & c & Hp & Hck & Hcb & Hct & Hrt & Hcs).
  rewrite Hrk, Hp in Heq. injection Heq as -> Hc2.
  rewrite (bind_ok _ _ _ _ _ (on_store_run _ _ _ _ Hrun)). rewrite E1.
  unfold new_code in *. rewrite Hm, <-Hdim, <-Hsh in Hw, Hwb.
  assert (∀ id h, written !! id = Some h → fst <$> bm w2 !! h =
    Some (shard_code (vm_dim base) (vm_shards base) id (after deltas m))) as Hblobs.
  { intros id h Hid. rewrite Hw in Hid. case_decide; [|done]. injection Hid as <-.
    rewrite Hb2. by apply Hwb. }
  destruct (finish_run deltas written (set_revision r (rec_revision c)) (s.1, w2))
    as (w & Hfin & Hcw & Hbw); simpl; [by rewrite Hm|done| |].
  { intros id h Hid%Hblobs. by destruct (bm w2 !! h). }
  exists (set_revision r (rec_revision c)), c, w. simpl in Hfin, Hcw, Hbw. rewrite Hm in Hfin.
  split; [exact Hfin|].
  assert (names (merged base written) (after deltas m)) as Hnames by (by apply names_after).
  assert (VectorManifest_from_body (VectorManifest_to_body (merged base written)) =
    Ok (merged base written)) as Hfb by apply VectorManifest_from_to_body.
  split; [|split].
  - split; [done|]. split.
    + intros ? [= <-]. split_and!; [done|exact Hrt|].
      unfold stamped in *. simpl. by rewrite Hrb, <-Hcb.
    + exists (merged base written). unfold base_manifest. simpl. by rewrite Hrb.
  - split; [|split; [by rewrite Hbw, Hb2|]].
    + rewrite Hcw, Hc2, Hc1. intros k x [[<- <-]|[_ ?]]%lookup_insert_Some; [done|by apply Hke].
    + split; [rewrite Hcw, Hc2; apply lookup_insert_eq|]. split; [done|]. split; [done|].
      exists (merged base written). rewrite Hcb. do 5 (split; [done|]).
      rewrite Hbw. eapply stored_after; [done| |done|done]. by rewrite Hb2.
  - by rewrite Hcw, Hc2, Hc1.
Qed.

(** ** Losing the race *)

(** The manifest moved on since the handle last saw it. *)
Definition stale (h : handle) (c : record) : Prop :=
  ∀ r, h_last_seen h = Some r → rec_revision r ≠ rec_revision c.

Lemma attempt_loses deltas s m c base :
  synced s.1 m → coherent (bm s.2) → contents s.2 !! h_key s.1 = Some c →
  is_tombstone c = false → stale s.1 c → base_manifest s.1 = Ok base → ∃ s',
    attempt store blobs (dirty_of s.1 deltas) deltas s = (Ok None, s') ∧ uploads s s'.
Proof.
  intros (Hm & Hls & _) Hco Hc Ht Hstale Hbase.
  destruct (put_shards_run (dirty_of s.1 deltas) deltas s Hco)
    as (written & s1 & Hput & (E1 & Hc1 & Hsub & Hco1) & _ & _).
  unfold attempt, this. unfold mbind at 1, M_bind at 1. rewrite Hbase. unfold lift.
  unfold mbind at 1, M_bind at 1. rewrite (bind_ok _ _ _ _ _ Hput).
  rewrite foldl_btree_items. fold (merged base written).
  destruct (manifest_record s.1 (merged base written)) as [r e] eqn:Hmr.
  destruct (law_put r e s1.2) as (now & res & w2 & Hrun & Hb2 & Heq).
  assert (rec_key r = h_key s.1 ∧ is_tombstone r = false ∧ e ≠ Some (rec_revision c)) as (Hrk & Hrt & He).
  { unfold manifest_record in Hmr. destruct (h_last_seen s.1) as [r0|] eqn:Hl; injection Hmr as <- <-.
    - destruct (Hls r0 eq_refl) as (? & ? & _). split_and!; [done|done|].
      intros [= ?]. by apply (Hstale r0).
    - done. }
  rewrite Hrk, Hc1, Hc in Heq. unfold plan_put in Heq. rewrite Hrt, Ht, decide_False in Heq by done.
  injection Heq as -> Hc2. rewrite (bind_ok _ _ _ _ _ (on_store_run _ _ _ _ Hrun)).
  eexists. split; [done|]. unfold uploads. simpl. rewrite Hb2. split_and!; [done|congruence|done..].
Qed.

(** The handle catches up with the winner. *)
Lemma adopt_winner_run dirty s a b c base :
  synced s.1 a → base_manifest s.1 = Ok base → indexed s.1 b c s.2 →
  fits (h_dim s.1) (h_shards s.1) a → fits (h_dim s.1) (h_shards s.1) b → ∃ w,
    adopt_winner store blobs dirty (vm_entries base) s =
      (Ok tt, (with_last_seen (Some c) (with_inner b s.1), w)) ∧
    contents w = contents s.2 ∧ bm w = bm s.2 ∧
    synced (with_last_seen (Some c) (with_inner b s.1)) b.
Proof.
  intros (Ha & Hls & base' & Hbase' & Hsp & Hdim & Hsh & Hna) Hbase (Hke & Hco & Hidx) Hfa Hfb.
  rewrite Hbase in Hbase'. injection Hbase' as <-.
  destruct Hidx as (Hc & Ht & Hcs & vm & Hvm & Hvs & Hvd & Hvn & Hnb & Hst).
  destruct (law_get (h_key s.1) s.2) as (w1 & Hget & Hc1 & Hb1).
  assert (live (Some c) = Some c) as Hlive by (by apply live_Some). rewrite Hc, Hlive in Hget.
  unfold adopt_winner, this. unfold mbind at 1, M_bind at 1.
  rewrite (bind_ok _ _ _ _ _ (on_store_run _ _ _ _ Hget)). unfold lift. simpl ok_or.
  unfold mbind at 1, M_bind at 1. rewrite Hvm. unfold mbind at 1, M_bind at 1.
  unfold check_space_and_dim. rewrite !decide_False by auto.
  unfold mbind at 1, M_bind at 1.
  destruct (hydrate_shards_run store blobs contents cap bm vm b
    (btree_elements (to_hydrate dirty (vm_entries base) (vm_entries vm))) (s.1, w1))
    as ([h2 w2] & Hrun & E & Hc2 & Hb2).
  { unfold readable. simpl. rewrite Hb1, Ha. split_and!; try done. by eapply fits_uniform. }
  rewrite (bind_ok _ _ _ _ _ Hrun). simpl in E, Hc2, Hb2.
  assert (list_to_set (btree_elements (to_hydrate dirty (vm_entries base) (vm_entries vm))) =
    to_hydrate dirty (vm_entries base) (vm_entries vm)) as Hset.
  { apply set_eq. intros id. by rewrite elem_of_list_to_set, elem_of_btree_elements. }
  rewrite Hset, Ha, (overlay_to_hydrate (h_dim s.1) (h_shards s.1) dirty base vm a b) in E by done.
  subst h2. exists w2. split; [done|]. split; [congruence|]. split; [congruence|].
  split; [done|]. split.
  - intros ? [= <-]. split_and!; [|done..]. by apply Hke.
  - exists vm. by split_and!.
Qed.

(** Revisions are stamps: a handle that saw the store's revision has the store's
    index. *)
Lemma same_revision_same_index h a b c r w :
  synced h a → indexed h b c w → h_last_seen h = Some r → rec_revision r = rec_revision c →
  fits (h_dim h) (h_shards h) a → fits (h_dim h) (h_shards h) b →
  a = b ∧ ∀ base, base_manifest h = Ok base → stored base b (bm w).
Proof.
  intros (_ & Hls & base & Hbase & Hsp & Hdim & Hsh & Hna) (_ & _ & Hidx) Hl Hrev Hfa Hfb.
  destruct Hidx as (Hc & _ & Hcs & vm & Hvm & _ & Hvd & Hvn & Hnb & Hst).
  destruct (Hls r Hl) as (_ & _ & Hrs). unfold stamped in Hrs, Hcs. rewrite Hrev, Hcs in Hrs.
  apply (inj ContentHash_of) in Hrs. unfold base_manifest in *. rewrite Hl in *.
  unfold VectorManifest_from_body in *. rewrite <-Hrs, Hvm in Hbase. injection Hbase as ->.
  split.
  - apply map_eq. intros k. specialize (Hna (shard_of k (h_shards h))).
    specialize (Hnb (shard_of k (h_shards h))).
    assert (shard_map (h_shards h) (shard_of k (h_shards h)) a =
      shard_map (h_shards h) (shard_of k (h_shards h)) b) as Hs.
    { destruct (vm_entries base !! _); rewrite Hvd, Hvn in *; [|congruence].
      apply (shard_code_inj (h_dim h)); [done..|congruence]. }
    by apply (proj1 (shard_map_ext _ _ _ _) Hs).
  - intros base'. rewrite <-Hrs, Hvm. by intros [= ->].
Qed.

(** ** The whole commit *)

Lemma indexed_uploads h b c s s' : indexed h b c s.2 → uploads s s' → indexed h b c s'.2.
Proof.
  intros (Hke & _ & Hc & Ht & Hcs & vm & Hvm & Hs & Hd & Hn & Hna & Hst) (_ & Hc' & Hsub & Hco).
  unfold indexed, holds_index. rewrite Hc'. do 5 (split; [done|]).
  exists vm. do 5 (split; [done|]). intros id h0 Hid. by eapply lookup_blob_mono, Hst.
Qed.

Lemma base_manifest_ok h m : synced h m → ∃ base, base_manifest h = Ok base.
Proof. intros (_ & _ & base & ? & _). by exists base. Qed.

(** The handle after a commit of [deltas] on index [b]. *)
Definition committed_handle (h : handle) deltas b (r : record) : handle :=
  with_last_seen (Some r) (with_inner (after deltas b) h).

Lemma commit_unfold deltas h w :
  deltas ≠ [] → commit store blobs deltas (h, w) =
    commit_loop store blobs (MAX_COMMIT_ATTEMPTS - 1) (dirty_of h deltas) deltas (h, w).
Proof. intros Hne. unfold commit. by rewrite decide_False. Qed.

Lemma commit_loop_wins more deltas s m base :
  synced s.1 m → current s.1 s.2 → coherent (bm s.2) → keyed (contents s.2) →
  fits (h_dim s.1) (h_shards s.1) m → deltas_ok (h_dim s.1) deltas →
  base_manifest s.1 = Ok base → stored base m (bm s.2) → ∃ r c w,
    commit_loop store blobs more (dirty_of s.1 deltas) deltas s =
      (Ok tt, (committed_handle s.1 deltas m r, w)) ∧
    synced (committed_handle s.1 deltas m r) (after deltas m) ∧
    indexed s.1 (after deltas m) c w ∧ contents w = <[h_key s.1 := c]> (contents s.2).
Proof.
  intros Hsy Hcur Hco Hke Hf Hok Hbase Hst.
  destruct (attempt_wins deltas s m base Hsy Hcur Hco Hke (fits_uniform _ _ _ Hf) Hok Hbase Hst)
    as (r & c & w & Hrun & ? & ? & ?).
  exists r, c, w. split; [|done]. destruct more as [|more]; simpl; unfold this;
    unfold mbind at 1, M_bind at 1; rewrite Hbase; unfold lift; unfold mbind at 1, M_bind at 1;
    by rewrite (bind_ok _ _ _ _ _ Hrun).
Qed.

Lemma commit_loop_stale more deltas h a b c w :
  synced h a → indexed h b c w → stale h c →
  fits (h_dim h) (h_shards h) a → fits (h_dim h) (h_shards h) b → deltas_ok (h_dim h) deltas →
  ∃ r c' w',
    commit_loop store blobs (S more) (dirty_of h deltas) deltas (h, w) =
      (Ok tt, (committed_handle h deltas b r, w')) ∧
    synced (committed_handle h deltas b r) (after deltas b) ∧
    indexed h (after deltas b) c' w' ∧ contents w' = <[h_key h := c']> (contents w).
Proof.
  intros Hsy Hidx Hstale Hfa Hfb Hok. destruct (base_manifest_ok h a Hsy) as [base Hbase].
  pose proof Hidx as (_ & Hco & Hc & Ht & _).
  destruct (attempt_loses deltas (h, w) a c base) as ([h1 w1] & Hrun & Hup); [done..|].
  pose proof (indexed_uploads h b c (h, w) (h1, w1) Hidx Hup) as Hidx1.
  destruct Hup as (E & Hc1 & _ & _). simpl in E, Hc1, Hidx1. subst h1.
  destruct (adopt_winner_run (dirty_of h deltas) (h, w1) a b c base)
    as (w2 & Hadopt & Hc2 & Hb2 & Hsy2); [done..|]. simpl in Hadopt, Hc2, Hb2, Hsy2.
  destruct Hidx1 as (Hke1 & Hco1 & Hc1' & Ht1 & _ & vm & Hvm & _ & _ & _ & _ & Hst).
  destruct (commit_loop_wins more deltas (with_last_seen (Some c) (with_inner b h), w2) b vm)
    as (r & c' & w' & Hloop & Hsy' & Hidx' & Hcw); simpl; rewrite ?Hb2, ?Hc2; try done.
  - unfold current. simpl. exists c. by rewrite Hc2.
  - exists r, c', w'. simpl in Hloop, Hidx', Hcw, Hsy'. split.
    + cbn [commit_loop]. unfold this at 1. unfold mbind at 1, M_bind at 1. cbn [fst].
      rewrite Hbase. unfold lift at 1. unfold mbind at 1, M_bind at 1.
      rewrite (bind_ok _ _ _ _ _ Hrun), (bind_ok _ _ _ _ _ Hadopt). exact Hloop.
    + split; [done|]. split; [done|]. by rewrite Hcw, Hc2, Hc1.
Qed.

Lemma commit_indexed deltas h a b c w :
  deltas ≠ [] → synced h a → indexed h b c w →
  fits (h_dim h) (h_shards h) a → fits (h_dim h) (h_shards h) b → deltas_ok (h_dim h) deltas →
  ∃ r c' w',
    commit store blobs deltas (h, w) = (Ok tt, (committed_handle h deltas b r, w')) ∧
    synced (committed_handle h deltas b r) (after deltas b) ∧
    indexed h (after deltas b) c' w' ∧ contents w' = <[h_key h := c']> (contents w).
Proof.
  intros Hne Hsy Hidx Hfa Hfb Hok. rewrite commit_unfold by done.
  destruct (decide (rec_revision <$> h_last_seen h = Some (rec_revision c))) as [Hr|Hr].
  - apply fmap_Some in Hr as (r & Hl & Hrev%symmetry).
    destruct (same_revision_same_index h a b c r w) as [<- Hst']; [done..|].
    destruct (base_manifest_ok h a Hsy) as [base Hbase].
    pose proof Hidx as (Hke & Hco & Hc & Ht & _).
    apply (commit_loop_wins _ deltas (h, w) a base); auto.
    unfold current. simpl. rewrite Hl. eauto.
  - apply (commit_loop_stale 3 deltas h a b c w); [done..| |done|done|done].
    intros r Hl Hrev. apply Hr. rewrite Hl. by f_equal/=.
Qed.

(** The first commit creates the manifest. *)
Lemma commit_creates deltas h w :
  deltas ≠ [] → h_last_seen h = None → h_inner h = ∅ → creatable (contents w !! h_key h) →
  keyed (contents w) → coherent (bm w) → (h_dim h < 2 ^ 32)%N → deltas_ok (h_dim h) deltas →
  ∃ r c' w',
    commit store blobs deltas (h, w) = (Ok tt, (committed_handle h deltas ∅ r, w')) ∧
    synced (committed_handle h deltas ∅ r) (after deltas ∅) ∧
    indexed h (after deltas ∅) c' w' ∧ contents w' = <[h_key h := c']> (contents w).
Proof.
  intros Hne Hl Hi Hcr Hke Hco Hd Hok. rewrite commit_unfold by done.
  set (base := VectorManifest_new (h_space h) (h_dim h) (h_shards h)).
  assert (base_manifest h = Ok base) as Hbase by (unfold base_manifest; by rewrite Hl).
  apply (commit_loop_wins _ deltas (h, w) ∅ base); try done.
  - split; [done|]. split; [simpl; by rewrite Hl|]. exists base. split_and!; try done.
  - unfold current. simpl. by rewrite Hl.
Qed.

(** ** Refusals *)

(** The key holds nothing a commit could build on. *)
Definition gone (o : option record) : Prop :=
  match o with Some t => is_tombstone t = true | None => True end.

Lemma attempt_gone deltas s m r base :
  synced s.1 m → h_last_seen s.1 = Some r → gone (contents s.2 !! h_key s.1) →
  base_manifest s.1 = Ok base → coherent (bm s.2) → ∃ s',
    attempt store blobs (dirty_of s.1 deltas) deltas s = (Err (NotFound (h_key s.1)), s') ∧
    s'.1 = s.1 ∧ contents s'.2 = contents s.2.
Proof.
  intros (_ & Hls & _) Hl Hgone Hbase Hco.
  destruct (put_shards_run (dirty_of s.1 deltas) deltas s Hco)
    as (written & s1 & Hput & (E1 & Hc1 & _) & _).
  unfold attempt, this. unfold mbind at 1, M_bind at 1. rewrite Hbase. unfold lift.
  unfold mbind at 1, M_bind at 1. rewrite (bind_ok _ _ _ _ _ Hput).
  unfold manifest_record. rewrite Hl. destruct (Hls r Hl) as (Hk & Ht & _).
  set (r' := Record_update r _ _).
  destruct (law_put r' (Some (rec_revision r)) s1.2) as (now & res & w2 & Hrun & _ & Heq).
  change (rec_key r') with (rec_key r) in Heq. rewrite Hk, Hc1 in Heq. unfold plan_put in Heq.
  change (is_tombstone r') with (is_tombstone r) in Heq. rewrite Ht in Heq.
  destruct (contents s.2 !! h_key s.1) as [t|]; [simpl in Hgone; rewrite Hgone in Heq|];
    simpl in Heq; injection Heq as -> Hc2;
    rewrite (bind_err _ _ _ _ _ (on_store_run _ _ _ _ Hrun)); eexists; (split; [done|]);
    simpl; (split; [done|congruence]).
Qed.

Lemma adopt_winner_refuses dirty base h c vm w :
  contents w !! h_key h = Some c → is_tombstone c = false →
  VectorManifest_from_body (rec_body c) = Ok vm →
  vm_space vm ≠ h_space h ∨ vm_dim vm ≠ h_dim h ∨ vm_shards vm ≠ h_shards h → ∃ msg w',
    adopt_winner store blobs dirty base (h, w) = (Err (Invalid msg), (h, w')) ∧
    contents w' = contents w.
Proof.
  intros Hc Ht Hvm Hdiff. destruct (law_get (h_key h) w) as (w1 & Hget & Hc1 & _).
  assert (live (Some c) = Some c) as Hlive by (by apply live_Some). rewrite Hc, Hlive in Hget.
  unfold adopt_winner, this. unfold mbind at 1, M_bind at 1. cbn [fst].
  rewrite (bind_ok _ _ _ _ _ (on_store_run _ (h, w) _ _ Hget)). unfold lift. simpl ok_or.
  unfold mbind at 1, M_bind at 1. rewrite Hvm. unfold mbind at 1, M_bind at 1.
  unfold check_space_and_dim. unfold mbind at 1, M_bind at 1. cbn [fst].
  destruct (decide (vm_space vm ≠ h_space h)); [by eexists _, w1|].
  destruct (decide (vm_dim vm ≠ h_dim h)); [by eexists _, w1|].
  rewrite decide_True by tauto. by eexists _, w1.
Qed.

(** A commit that cannot land changes nothing.  If the index was deleted
    under the handle, the commit reports it missing and does not bring it back;
    if the manifest that won the race declares another embedding space, dimension or
    shard count, the commit is refused rather than mixing the two.  Either way
    the handle serves what it served and no record of the store changed. *)
Theorem refused_commit_changes_nothing deltas h a w :
  deltas ≠ [] → synced h a → coherent (bm w) → keyed (contents w) →
  (is_Some (h_last_seen h) → gone (contents w !! h_key h) → ∃ w',
     commit store blobs deltas (h, w) = (Err (NotFound (h_key h)), (h, w')) ∧
     contents w' = contents w) ∧
  (∀ c vm, contents w !! h_key h = Some c → is_tombstone c = false → stale h c →
     VectorManifest_from_body (rec_body c) = Ok vm →
     vm_space vm ≠ h_space h ∨ vm_dim vm ≠ h_dim h ∨ vm_shards vm ≠ h_shards h → ∃ msg w',
     commit store blobs deltas (h, w) = (Err (Invalid msg), (h, w')) ∧
     contents w' = contents w).
Proof.
  intros Hne Hsy Hco Hke. destruct (base_manifest_ok h a Hsy) as [base Hbase].
  rewrite (commit_unfold deltas h w Hne). split.
  - intros [r Hl] Hgone.
    destruct (attempt_gone deltas (h, w) a r base) as (s1 & Hrun & E & Hc); [done..|].
    exists s1.2. simpl. unfold this. unfold mbind at 1, M_bind at 1. cbn [fst].
    rewrite Hbase. unfold lift. unfold mbind at 1, M_bind at 1.
    rewrite (bind_err _ _ _ _ _ Hrun). simpl in E. by destruct s1; simpl in *; subst.
  - intros c vm Hc Ht Hstale Hvm Hdiff.
    destruct (attempt_loses deltas (h, w) a c base) as ([h1 w1] & Hrun & E & Hc1 & _); [done..|].
    simpl in E, Hc1. subst h1.
    destruct (adopt_winner_refuses (dirty_of h deltas) (vm_entries base) h c vm w1)
      as (msg & w2 & Hadopt & Hc2); [by rewrite Hc1|done..|].
    exists msg, w2. simpl. unfold this. unfold mbind at 1, M_bind at 1. cbn [fst].
    rewrite Hbase. unfold lift. unfold mbind at 1, M_bind at 1.
    rewrite (bind_ok _ _ _ _ _ Hrun), (bind_err _ _ _ _ _ Hadopt). split; [done|congruence].
Qed.

(** ** Several writers *)

(** One writer of several, each with its own handle on the shared store. *)
Definition writer_commit (i : nat) (deltas : list Delta) : M (list handle * W) CoreError unit :=
  λ '(hs, w),
    match hs !! i with
    | Some h =>
        let '(r, (h', w')) := commit store blobs deltas (h, w) in (r, (<[i := h']> hs, w'))
    | None => (Ok tt, (hs, w))
    end.

Variables (key : RecordKey) (space : string) (dim n : N).

(** The store has index [m] at [key], or nothing yet and [m] is empty. *)
Definition store_state m w : Prop :=
  keyed (contents w) ∧ coherent (bm w) ∧
  ((∃ c, holds_index contents bm key space dim n m c w) ∨
   creatable (contents w !! key) ∧ m = ∅).

(** A handle opened at [key] at some point of the store's past. *)
Definition handle_ok w (h : handle) : Prop :=
  h_key h = key ∧ h_space h = space ∧ h_dim h = dim ∧ h_shards h = n ∧
  (∃ a, synced h a ∧ fits dim n a) ∧ (creatable (contents w !! key) → h_last_seen h = None).

Lemma synced_none h a : synced h a → h_last_seen h = None → a = ∅.
Proof.
  intros (_ & _ & base & Hbase & _ & _ & Hsh & Hna) Hl. unfold base_manifest in Hbase.
  rewrite Hl in Hbase. injection Hbase as <-. simpl in *. apply map_eq. intros k.
  specialize (Hna (shard_of k (h_shards h))). simpl in Hna. rewrite lookup_empty in Hna.
  apply (f_equal (lookup k)) in Hna. by rewrite lookup_shard_map, decide_True in Hna.
Qed.

Lemma committed_not_creatable h m c w : indexed h m c w → ¬ creatable (contents w !! h_key h).
Proof. intros (_ & _ & Hc & Ht & _). rewrite Hc. simpl. intros [? _]. congruence. Qed.

(** Whatever a handle last saw, its commit takes the store from [m] to [m] with
    the deltas. *)
Lemma commit_state deltas h m w :
  deltas ≠ [] → handle_ok w h → store_state m w → fits dim n m → deltas_ok dim deltas → ∃ h' w',
    commit store blobs deltas (h, w) = (Ok tt, (h', w')) ∧
    store_state (after deltas m) w' ∧ ¬ creatable (contents w' !! key) ∧
    h_key h' = key ∧ h_space h' = space ∧ h_dim h' = dim ∧ h_shards h' = n ∧
    synced h' (after deltas m).
Proof.
  intros Hne (Hk & Hs & Hd & Hn & (a & Hsy & Hfa) & Hcr) (Hke & Hco & Hst) Hf Hok.
  unfold store_state. rewrite <-Hk, <-Hs, <-Hd, <-Hn in *.
  assert (∃ r c' w', commit store blobs deltas (h, w) = (Ok tt, (committed_handle h deltas m r, w')) ∧
    synced (committed_handle h deltas m r) (after deltas m) ∧
    indexed h (after deltas m) c' w' ∧ contents w' = <[h_key h := c']> (contents w))
    as (r & c' & w' & Hrun & Hsy' & Hidx & _).
  { destruct Hst as [[c Hc]|[Hcre ->]].
    - by eapply commit_indexed.
    - specialize (Hcr Hcre). pose proof (synced_none h a Hsy Hcr) as ->.
      destruct Hsy as (Hi & _). destruct (Hf 0%N) as [(_ & ? & _) _].
      by apply commit_creates. }
  exists (committed_handle h deltas m r), w'. split; [done|].
  pose proof (committed_not_creatable _ _ _ _ Hidx). destruct Hidx as (? & ? & ?).
  split; [|by split_and!]. split; [done|]. split; [done|]. left. by exists c'.
Qed.

Lemma open_state m w shards :
  store_state m w → n ≠ 0%N → fits dim n m → ∃ h w',
    open_with_shards store blobs key space dim shards w = (Ok h, w') ∧ h_inner h = m.
Proof.
  intros (_ & _ & [[c Hc]|[Hcr ->]]) Hn Hf.
  - destruct (open_run store blobs contents cap bm key space dim shards n m c w)
      as (w' & Hrun & _); [done..|]. by eexists _, w'.
  - destruct (law_get_raw key w) as (w1 & Hrun & _). unfold open_with_shards.
    rewrite (bind_ok _ _ _ _ _ Hrun).
    assert (existing_manifest key (contents w !! key) = Ok None) as Hex.
    { unfold existing_manifest. destruct (contents w !! key) as [t|]; [|done].
      destruct Hcr as [-> Hk]. by destruct (rec_deleted_kind t) as [[]|]. }
    unfold lift. unfold mbind, M_bind. rewrite Hex. by eexists _, w1.
Qed.

Lemma writer_commit_state i deltas hs m w :
  i < length hs → store_state m w → Forall (handle_ok w) hs → fits dim n m →
  fits dim n (after deltas m) → deltas_ok dim deltas → ∃ hs' w',
    writer_commit i deltas (hs, w) = (Ok tt, (hs', w')) ∧ length hs' = length hs ∧
    store_state (after deltas m) w' ∧ Forall (handle_ok w') hs'.
Proof.
  intros Hi Hst Hhs Hf Hf' Hok. destruct (lookup_lt_is_Some_2 hs i Hi) as [h Hh].
  unfold writer_commit. rewrite Hh. destruct (decide (deltas = [])) as [->|Hne].
  { exists hs, w. unfold commit. rewrite decide_True by done. simpl.
    by rewrite list_insert_id by done. }
  pose proof (Forall_lookup_1 _ _ _ _ Hhs Hh) as Hho.
  destruct (commit_state deltas h m w) as (h' & w' & -> & Hst' & Hnc & ? & ? & ? & ? & Hsy); [done..|].
  exists (<[i := h']> hs), w'. rewrite length_insert. do 3 (split; [done|]).
  apply Forall_insert.
  - eapply Forall_impl; [exact Hhs|]. intros h0 (? & ? & ? & ? & ? & _). by split_and!.
  - split_and!; try done. by exists (after deltas m).
Qed.

(** C7: concurrent writers lose nothing.  Any number of handles on one index,
    however stale the manifest each last saw, commit batches in any order:
    every commit succeeds, and an index opened afterwards is the original one
    with all the batches applied in commit order; no writer overwrites another's
    vectors, and none is refused. *)
Theorem writers_lose_nothing (hs : list handle) (sched : list (nat * list Delta)) m w
    (shards : N) :
  n ≠ 0%N → store_state m w → Forall (handle_ok w) hs →
  Forall (λ p, p.1 < length hs ∧ deltas_ok dim p.2) sched →
  (∀ k, fits dim n (after (concat (take k sched.*2)) m)) → ∃ hs' w' h w'',
    foldM (λ _ p, writer_commit p.1 p.2) tt sched (hs, w) = (Ok tt, (hs', w')) ∧
    open_with_shards store blobs key space dim shards w' = (Ok h, w'') ∧
    h_inner h = after (concat sched.*2) m.
Proof.
  intros Hn. revert hs m w. induction sched as [|[i deltas] sched IH]; intros hs m w Hst Hhs Hok Hf.
  - destruct (open_state m w shards Hst Hn (Hf 0)) as (h & w' & Hopen & Hin).
    by exists hs, w, h, w'.
  - apply Forall_cons in Hok as [[Hi Hd] Hok]. simpl in Hi, Hd.
    pose proof (Hf 0) as Hf0. pose proof (Hf 1) as Hf1. simpl in Hf0, Hf1.
    rewrite app_nil_r in Hf1.
    destruct (writer_commit_state i deltas hs m w)
      as (hs1 & w1 & Hrun & Hlen & Hst1 & Hhs1); [done..|].
    destruct (IH hs1 (after deltas m) w1) as (hs' & w' & h & w'' & Hrun' & Hopen & Hin);
      [done|done| | |].
    + by rewrite Hlen.
    + intros k. specialize (Hf (S k)). simpl in Hf. unfold after in *. by rewrite foldl_app in Hf.
    + exists hs', w', h, w''. rewrite foldM_cons. simpl fst. simpl snd. rewrite Hrun.
      split; [exact Hrun'|]. split; [done|]. rewrite Hin. simpl. unfold after. by rewrite foldl_app.
Qed.
End committing.
(** ** Opening over a tombstone *)

(** C33: [open] refuses exactly what the first commit would.  Over whatever the
    key holds, [open] reports a deleted index precisely when the planner every
    store consults would reject the create that a fresh handle's first commit
    sends; so no handle is handed out whose first write is bound to fail on a
    restore window, and none is refused without one. *)
Theorem open_refuses_like_first_commit `{Blake3, ManifestSerde} (key : RecordKey)
    (o : option record) (vm : vector_manifest) (h : handle) (now : Z) (cap : nat) :
  h_last_seen h = None →
  (∃ e, existing_manifest key o = Err e) ↔
  (∃ reason, plan_put o (manifest_record h vm).1 (manifest_record h vm).2 now cap =
     PutRejected reason).
Proof.
  intros Hl. unfold manifest_record. rewrite Hl. simpl. unfold existing_manifest, plan_put.
  change (is_tombstone (Record_create _ _ _ _)) with false. cbv iota.
  destruct o as [t|]; [|naive_solver]. destruct (is_tombstone t).
  - destruct (rec_deleted_kind t) as [[]|]; simpl; naive_solver.
  - rewrite decide_False by done. naive_solver.
Qed.

(** ** What an upsert lets through *)

(** A vector the index can take. *)
Definition acceptable (dim : N) (e : entry) : Prop :=
  (str_len (key_namespace e.1) ≤ u16_max)%N ∧ (str_len (key_collection e.1) ≤ u16_max)%N ∧
  N.of_nat (length e.2) = dim.

#[export] Instance acceptable_dec dim e : Decision (acceptable dim e).
Proof. unfold acceptable. apply _. Defined.

Section upserts.
Context `{Blake3, ManifestSerde, HashOrder} {W : Type}.
Variable store : Store W.
Variable blobs : BlobStore W.
Context `{JoinOrder}.
Implicit Types s : handle * W.

Lemma validate_one_run e s :
  (acceptable (h_dim s.1) e ∧ validate_one e s = (Ok tt, s)) ∨
  (¬ acceptable (h_dim s.1) e ∧ ∃ msg, validate_one e s = (Err (Invalid msg), s)).
Proof.
  unfold acceptable, validate_one, lift, this, check_key_len, mbind, M_bind.
  case_decide; [right; split; [naive_solver lia|by eexists]|].
  unfold wrong_dimension. simpl. case_decide; [right; split; [naive_solver|by eexists]|].
  left. split; [naive_solver lia|done].
Qed.

Lemma validate_run (items : list entry) s :
  (Forall (acceptable (h_dim s.1)) items ∧ validate items s = (Ok tt, s)) ∨
  (¬ Forall (acceptable (h_dim s.1)) items ∧ ∃ msg, validate items s = (Err (Invalid msg), s)).
Proof.
  unfold validate. induction items as [|e items IH]; [by left|]. rewrite Forall_cons, foldM_cons.
  destruct (validate_one_run e s) as [[He ->]|[He [msg ->]]].
  - destruct IH as [[? ->]|[? [msg ->]]]; [by left|right]. split; [tauto|by eexists].
  - right. split; [tauto|by eexists].
Qed.

(** A batch is all or nothing before anything is staged.  If every vector
    has the index's dimension and every key fits the shard format's length
    prefixes, [upsert_many] is one commit of the whole batch, and every entry
    is one the format can express; otherwise it is refused, however many good
    entries came first, with the handle, the store and the blobs untouched. *)
Theorem upsert_many_all_or_nothing (items : list entry) s :
  (Forall (acceptable (h_dim s.1)) items →
   index_upsert_many store blobs items s =
     commit store blobs ((λ e, DUpsert e.1 e.2) <$> items) s ∧
   (Forall (λ e, (str_len (key_id e.1) < 2 ^ 32)%N ∧
      utf8_valid (bytes_of_string (key_namespace e.1)) = true ∧
      utf8_valid (bytes_of_string (key_collection e.1)) = true ∧
      utf8_valid (bytes_of_string (key_id e.1)) = true) items →
    Forall (entry_ok (h_dim s.1)) items)) ∧
  (¬ Forall (acceptable (h_dim s.1)) items →
   ∃ msg, index_upsert_many store blobs items s = (Err (Invalid msg), s)).
Proof.
  unfold index_upsert_many. split.
  - intros Hok. split.
    + destruct (validate_run items s) as [[_ Hrun]|[Hno _]]; [|done].
      by rewrite (bind_ok _ _ _ _ _ Hrun).
    + intros Hfit. apply Forall_forall. intros e He. rewrite Forall_forall in Hok, Hfit.
      destruct (Hok e He) as (Hn & Hc & Hd), (Hfit e He) as (Hi & Hu).
      unfold u16_max in *. split; try done; lia.
  - intros Hno. destruct (validate_run items s) as [[? _]|[_ [msg Hrun]]]; [done|].
    exists msg. by rewrite (bind_err _ _ _ _ _ Hrun).
Qed.
End upserts.

(** ** Witnesses: two fresh handles race on one store *)

Section witnesses.
#[local] Existing Instance sample_hash.
#[local] Existing Instance sample_serde.
#[local] Existing Instance sample_hash_order.

Definition sample_join : JoinOrder :=
  {| join_order A l := reverse l; join_order_perm A l := reverse_Permutation l |}.
#[local] Existing Instance sample_join.

#[local] Instance sample_hash_inj : Inj (=) (=) ContentHash_of.
Proof.
  intros b b' [= Heq]. unfold blake3_hex, sample_hash in Heq.
  by rewrite <-(bytes_of_string_of_bytes b), Heq, bytes_of_string_of_bytes.
Qed.

(** With one shard an index is its shard. *)
Lemma fits_one_shard dim m :
  shard_ok dim (map_to_list m) →
  (N.of_nat (length (encode_shard dim (map_to_list m))) ≤ u64_max)%N → fits dim 1 m.
Proof.
  intros Hok Hlen id. pose proof Hok as (_ & Hd & _).
  assert (shard_map 1 id m = m ∨ shard_map 1 id m = ∅) as Hm.
  { destruct (decide (id = 0%N)) as [->|Hid]; [left|right]; apply map_eq; intros k;
      rewrite lookup_shard_map; unfold shard_of; rewrite N.mod_1_r.
    - by rewrite decide_True.
    - by rewrite decide_False. }
  unfold shard_code. destruct Hm as [-> | ->]; [done|]. exact (fits_empty dim 1 Hd id).
Qed.

Definition sample_handle : handle := mkHandle sample_key "space" 2 1 ∅ index_meta None.
Definition sample_key_a : RecordKey := mkKey "ns" "coll" "a".
Definition sample_key_b : RecordKey := mkKey "ns" "coll" "b".
Definition sample_sched : list (nat * list Delta) :=
  [(0, [DUpsert sample_key_a (sample_floats 2)]);
   (1, [DUpsert sample_key_b (sample_floats 2); DRemove sample_key_a])].

Lemma sample_handle_synced : synced sample_handle ∅.
Proof.
  split; [done|]. split; [done|]. exists (VectorManifest_new "space" 2 1). by split_and!.
Qed.

Lemma sample_prefix_fits k :
  fits 2 1 (after (concat (take k sample_sched.*2)) ∅).
Proof.
  destruct k as [|[|k]]; [by apply (fits_empty 2 1)| |destruct k];
    (apply fits_one_shard; [split; [vm_compute; repeat constructor|by split]|by vm_compute]).
Qed.
Lemma open_refuses_like_first_commit_witness :
  existing_manifest sample_key (Some (sample_record sample_key 0 "v" [])) =
    Ok (Some (sample_record sample_key 0 "v" [])) ∧
  ¬ ∃ reason, plan_put (Some (sample_record sample_key 0 "v" []))
    (manifest_record (mkHandle sample_key "space" 2 1 ∅ index_meta None)
      (VectorManifest_new "space" 2 1)).1 None 0 3 = PutRejected reason.
Proof.
  split; [reflexivity|]. intros Hr.
  apply (open_refuses_like_first_commit sample_key (Some (sample_record sample_key 0 "v" []))
    (VectorManifest_new "space" 2 1) (mkHandle sample_key "space" 2 1 ∅ index_meta None) 0 3
    eq_refl) in Hr as [e He]. discriminate He.
Defined.

Definition sample_start : sample_world := ((∅, ∅), ∅).

#[local] Instance sample_index_store_laws :
  StoreLaws store_a (λ w : sample_world, w.1.1) 32 (λ w : sample_world, w.2).
Proof. exact (store_a_laws snd). Qed.
#[local] Instance sample_index_blobs_laws :
  BlobStoreLaws sample_blobs (λ w : sample_world, w.2) (λ w : sample_world, w.1.1).
Proof. exact (sample_blobs_laws fst). Qed.

Lemma writers_lose_nothing_witness : ∃ hs' w' h w'',
  foldM (λ _ p, writer_commit store_a sample_blobs p.1 p.2) tt sample_sched
    ([sample_handle; sample_handle], sample_start) = (Ok tt, (hs', w')) ∧
  open store_a sample_blobs sample_key "space" 2 w' = (Ok h, w'') ∧
  h_inner h = {[sample_key_b := sample_floats 2]}.
Proof.
  refine (writers_lose_nothing store_a sample_blobs (λ w, w.1.1) 32 (λ w, w.2) sample_key "space"
    2 1 [sample_handle; sample_handle] sample_sched ∅ sample_start DEFAULT_SHARDS _ _ _ _
    sample_prefix_fits).
  - done.
  - split; [by intros ??|]. split; [by intros ???|]. by right.
  - assert (handle_ok (λ w, w.1.1) sample_key "space" 2 1 sample_start sample_handle).
    { split_and!; try done. exists ∅. split; [apply sample_handle_synced|by apply fits_empty]. }
    by do 2 (apply Forall_cons; split; [done|]).
  - repeat constructor; simpl; lia.
Defined.

(** The index of another embedding space. *)
Definition other_manifest : record :=
  Record_create sample_key VectorManifest
    (VectorManifest_to_body (VectorManifest_new "other" 2 1)) index_meta.

Lemma refused_commit_changes_nothing_witness :
  let w : sample_world := ((<[sample_key := other_manifest]> ∅, ∅), ∅) in ∃ msg w',
  commit store_a sample_blobs [DRemove sample_key_a] (sample_handle, w) =
    (Err (Invalid msg), (sample_handle, w')) ∧ w'.1.1 = w.1.1.
Proof.
  intros w.
  assert (keyed w.1.1) as Hke
    by (intros k r Hr; simpl in Hr; apply lookup_insert_Some in Hr as [[<- <-]|[_ Hr]];
        [done|by rewrite lookup_empty in Hr]).
  refine (proj2 (refused_commit_changes_nothing store_a sample_blobs (λ w, w.1.1) 32 (λ w, w.2)
    [DRemove sample_key_a] sample_handle ∅ w _ sample_handle_synced _ Hke)
    other_manifest (VectorManifest_new "other" 2 1) _ _ _ _ _).
  - done.
  - by intros ???.
  - by apply lookup_insert_eq.
  - done.
  - by intros ? ?.
  - apply VectorManifest_from_to_body.
  - by left.
Defined.

Lemma upsert_many_all_or_nothing_witness : ∃ msg,
  index_upsert_many store_a sample_blobs
    [(sample_key_a, sample_floats 2); (sample_key_b, sample_floats 3)]
    (sample_handle, sample_start) = (Err (Invalid msg), (sample_handle, sample_start)).
Proof.
  refine (proj2 (upsert_many_all_or_nothing store_a sample_blobs
    [(sample_key_a, sample_floats 2); (sample_key_b, sample_floats 3)]
    (sample_handle, sample_start)) _).
  rewrite !Forall_cons. intros (_ & (_ & _ & Hd) & _). discriminate Hd.
Defined.
End witnesses.
