(* ===== verification/Gc.v ===== *)
(** * Gc: mark and sweep of blobs

    Models [gonzalo-core]'s [gc.rs].  [live_blob_hashes] marks every blob a raw
    record needs; [sweep_blobs_with] deletes what is unmarked and old enough;
    [gc_blobs_with] does both over a store.  [references] is the
    specification of the mark; the theorems say a sweep over lawful stores
    frees exactly the unreferenced blobs past the grace period and never
    anything else. *)

From S2P Require Export Manifests Contract.

Record GcReport := mkGcReport {
  freed : list ContentHash;
  retained : nat;
  deferred : nat
}.

Definition DEFAULT_MIN_AGE : Duration := from_secs 3600.

Record SweepPolicy := mkSweepPolicy { min_age : Duration; policy_now : SystemTime }.

(** The default policy at the current time. *)
Definition SweepPolicy_default (now : SystemTime) : SweepPolicy :=
  mkSweepPolicy DEFAULT_MIN_AGE now.

Section gc.
Context `{ManifestSerde}.

Definition graph_blobs (b : Body) : Result (gset ContentHash) :=
  m ← Manifest_from_body b; Ok (list_to_set (btree_values (entries m))).

Definition vector_blobs (b : Body) : Result (gset ContentHash) :=
  v ← VectorManifest_from_body b; Ok (list_to_set (btree_values (vm_entries v))).

(** The body of the marking loop. *)
Definition mark_record (live : gset ContentHash) (r : record) : Result (gset ContentHash) :=
  let live := match rec_body r with Blob hash _ => {[hash]} ∪ live | Inline _ => live end in
  let live := match rec_deleted_blob r with Some hash => {[hash]} ∪ live | None => live end in
  live ← (if decide (rec_kind r = GraphManifest)
          then s ← graph_blobs (rec_body r); Ok (live ∪ s) else Ok live);
  live ← (if decide (rec_kind r = VectorManifest)
          then s ← vector_blobs (rec_body r); Ok (live ∪ s) else Ok live);
  if decide (rec_kind r = Tombstone) then
    match rec_deleted_kind r with
    | Some VectorManifest => s ← vector_blobs (rec_body r); Ok (live ∪ s)
    | Some GraphManifest => s ← graph_blobs (rec_body r); Ok (live ∪ s)
    | _ => Ok live
    end
  else Ok live.

Definition live_blob_hashes (rs : list record) : Result (gset ContentHash) :=
  foldl (λ acc r, live ← acc; mark_record live r) (Ok ∅) rs.

(** [newest]: duplicates collapse to the newest timestamp. *)
Definition newest_step (m : gmap ContentHash Z) (e : BlobEntry) : gmap ContentHash Z :=
  <[be_hash e := match m !! be_hash e with
                 | Some ms => Z.max ms (be_modified_unix_ms e)
                 | None => be_modified_unix_ms e
                 end]> m.

Definition newest_entries (es : list BlobEntry) : gmap ContentHash Z :=
  foldl newest_step ∅ es.

Inductive SweepVerdict := Retain | Free | Defer.

#[export] Instance SweepVerdict_eq_dec : EqDecision SweepVerdict.
Proof. solve_decision. Defined.

(** What the sweep decides for one blob. *)
Definition sweep_verdict (live : gset ContentHash) (policy : SweepPolicy)
    (hash : ContentHash) (modified_unix_ms : Z) : SweepVerdict :=
  if decide (hash ∈ live) then Retain
  else match BlobEntry_age (mkBlobEntry hash modified_unix_ms) (policy_now policy) with
       | Some age => if decide (min_age policy ≤ age)%N then Free else Defer
       | None => Defer
       end.

Definition sweep_step (live : gset ContentHash) (policy : SweepPolicy) (acc : GcReport)
    (p : ContentHash * Z) : GcReport :=
  match sweep_verdict live policy p.1 p.2 with
  | Retain => mkGcReport (freed acc) (S (retained acc)) (deferred acc)
  | Free => mkGcReport (freed acc ++ [p.1]) (retained acc) (deferred acc)
  | Defer => mkGcReport (freed acc) (retained acc) (S (deferred acc))
  end.

Context {W : Type}.

Definition sweep_blobs_with (blobs : BlobStore W) (live : gset ContentHash)
    (policy : SweepPolicy) : M W CoreError GcReport :=
  es ← bs_list_blobs blobs;
  let report := foldl (sweep_step live policy) (mkGcReport [] 0 0)
                  (btree_items (newest_entries es)) in
  _ ← foldM (λ _ hash, bs_delete_blob blobs hash) tt (freed report);
  mret report.

Definition sweep_blobs (blobs : BlobStore W) (live : gset ContentHash) (now : SystemTime) :
    M W CoreError GcReport :=
  sweep_blobs_with blobs live (SweepPolicy_default now).

(** The raw records of a store. *)
Definition raw_records (store : Store W) : M W CoreError (list record) :=
  keys ← st_list_raw store KeyPrefix_default;
  foldM (λ rs key, o ← st_get_raw store key;
                   mret (match o with Some r => rs ++ [r] | None => rs end)) [] keys.

Definition gc_blobs_with (store : Store W) (blobs : BlobStore W) (policy : SweepPolicy) :
    M W CoreError GcReport :=
  rs ← raw_records store;
  live ← lift (live_blob_hashes rs);
  sweep_blobs_with blobs live policy.

Definition gc_blobs (store : Store W) (blobs : BlobStore W) (now : SystemTime) :
    M W CoreError GcReport :=
  gc_blobs_with store blobs (SweepPolicy_default now).

(** ** What a record needs *)

(** The five ways a record references a blob. *)
Inductive references (r : record) : ContentHash → Prop :=
  | ref_body h n : rec_body r = Blob h n → references r h
  | ref_pin h : rec_deleted_blob r = Some h → references r h
  | ref_graph m h p : rec_kind r = GraphManifest →
      Manifest_from_body (rec_body r) = Ok m → entries m !! p = Some h → references r h
  | ref_vector v h i : rec_kind r = VectorManifest →
      VectorManifest_from_body (rec_body r) = Ok v → vm_entries v !! i = Some h →
      references r h
  | ref_graph_tomb m h p : rec_kind r = Tombstone →
      rec_deleted_kind r = Some GraphManifest →
      Manifest_from_body (rec_body r) = Ok m → entries m !! p = Some h → references r h
  | ref_vector_tomb v h i : rec_kind r = Tombstone →
      rec_deleted_kind r = Some VectorManifest →
      VectorManifest_from_body (rec_body r) = Ok v → vm_entries v !! i = Some h →
      references r h.

Lemma elem_of_btree_set {K} `{Countable K, !Cmp K, !CmpLaws K} (m : gmap K ContentHash) h :
  h ∈ (list_to_set (btree_values m) : gset ContentHash) ↔ ∃ k, m !! k = Some h.
Proof. by rewrite elem_of_list_to_set, elem_of_btree_values. Qed.

Lemma graph_blobs_spec b s : graph_blobs b = Ok s →
  ∃ m, Manifest_from_body b = Ok m ∧ ∀ h, h ∈ s ↔ ∃ p, entries m !! p = Some h.
Proof.
  unfold graph_blobs. destruct (Manifest_from_body b) as [m|]; [|done].
  intros [= <-]. exists m. split; [done|]. intros h. apply elem_of_btree_set.
Qed.

Lemma vector_blobs_spec b s : vector_blobs b = Ok s →
  ∃ v, VectorManifest_from_body b = Ok v ∧ ∀ h, h ∈ s ↔ ∃ i, vm_entries v !! i = Some h.
Proof.
  unfold vector_blobs. destruct (VectorManifest_from_body b) as [v|]; [|done].
  intros [= <-]. exists v. split; [done|]. intros h. apply elem_of_btree_set.
Qed.

Lemma references_alt r h : references r h ↔
  (∃ n, rec_body r = Blob h n) ∨ rec_deleted_blob r = Some h ∨
  ((rec_kind r = GraphManifest ∨
    rec_kind r = Tombstone ∧ rec_deleted_kind r = Some GraphManifest) ∧
   ∃ m p, Manifest_from_body (rec_body r) = Ok m ∧ entries m !! p = Some h) ∨
  ((rec_kind r = VectorManifest ∨
    rec_kind r = Tombstone ∧ rec_deleted_kind r = Some VectorManifest) ∧
   ∃ v i, VectorManifest_from_body (rec_body r) = Ok v ∧ vm_entries v !! i = Some h).
Proof.
  split.
  - destruct 1; eauto 10.
  - intros [[n ?]|[?|[[[?|[??]] (m & p & ? & ?)]|[[?|[??]] (v & i & ? & ?)]]]].
    + by eapply ref_body.
    + by apply ref_pin.
    + by eapply ref_graph.
    + by eapply ref_graph_tomb.
    + by eapply ref_vector.
    + by eapply ref_vector_tomb.
Qed.

Definition own_blobs (r : record) : gset ContentHash :=
  (match rec_body r with Blob hash _ => {[hash]} | Inline _ => ∅ end) ∪
  (match rec_deleted_blob r with Some hash => {[hash]} | None => ∅ end).

Lemma elem_of_own_blobs r h :
  h ∈ own_blobs r ↔ (∃ n, rec_body r = Blob h n) ∨ rec_deleted_blob r = Some h.
Proof.
  unfold own_blobs. destruct (rec_body r), (rec_deleted_blob r); set_solver.
Qed.

(** The mark of one record, without the accumulator. *)
Lemma mark_record_alt live r :
  mark_record live r =
    (s ← (if decide (rec_kind r = GraphManifest) then graph_blobs (rec_body r)
          else if decide (rec_kind r = VectorManifest) then vector_blobs (rec_body r)
          else if decide (rec_kind r = Tombstone) then
            match rec_deleted_kind r with
            | Some VectorManifest => vector_blobs (rec_body r)
            | Some GraphManifest => graph_blobs (rec_body r)
            | _ => Ok ∅
            end
          else Ok ∅);
     Ok (own_blobs r ∪ live ∪ s)).
Proof.
  unfold mark_record.
  assert (∀ s : gset ContentHash,
    (match rec_deleted_blob r with
     | Some hash => {[hash]} ∪
         (match rec_body r with Blob hash _ => {[hash]} ∪ live | Inline _ => live end)
     | None => match rec_body r with Blob hash _ => {[hash]} ∪ live | Inline _ => live end
     end) = own_blobs r ∪ live) as Hown.
  { intros _. unfold own_blobs. apply set_eq. intros h.
    destruct (rec_body r), (rec_deleted_blob r); set_solver. }
  rewrite (Hown ∅). clear Hown.
  destruct (rec_kind r) eqn:Hk; 
    repeat first [rewrite decide_False by done | rewrite decide_True by done];
    unfold mbind, result_bind; rewrite ?(right_id_L ∅ (∪));
    try (destruct (rec_deleted_kind r) as [[]|]); rewrite ?(right_id_L ∅ (∪)); try done;
    try (destruct (graph_blobs _) as [?|?]); try (destruct (vector_blobs _) as [?|?]); try done.
Qed.

Lemma mark_record_spec live r live' :
  mark_record live r = Ok live' → ∀ h, h ∈ live' ↔ h ∈ live ∨ references r h.
Proof.
  rewrite mark_record_alt. intros Hrun h.
  pose proof (elem_of_own_blobs r h) as Hown. pose proof (references_alt r h) as Href.
  assert (∀ s, Ok (own_blobs r ∪ live ∪ s) = Ok live' (E := CoreError) →
    (h ∈ s ↔ ((rec_kind r = GraphManifest ∨
        rec_kind r = Tombstone ∧ rec_deleted_kind r = Some GraphManifest) ∧
       ∃ m p, Manifest_from_body (rec_body r) = Ok m ∧ entries m !! p = Some h) ∨
      ((rec_kind r = VectorManifest ∨
        rec_kind r = Tombstone ∧ rec_deleted_kind r = Some VectorManifest) ∧
       ∃ v i, VectorManifest_from_body (rec_body r) = Ok v ∧ vm_entries v !! i = Some h)) →
    h ∈ live' ↔ h ∈ live ∨ references r h) as Hfin.
  { intros s [= <-] Hs. rewrite !elem_of_union. tauto. }
  assert (∀ b s, graph_blobs b = Ok s →
    h ∈ s ↔ ∃ m p, Manifest_from_body b = Ok m ∧ entries m !! p = Some h) as Hgraph.
  { intros b s (m & Hm & Hs)%graph_blobs_spec. rewrite Hs. split.
    - intros [p Hp]. by exists m, p.
    - intros (m' & p & Hm' & Hp). rewrite Hm in Hm'. injection Hm' as <-. by exists p. }
  assert (∀ b s, vector_blobs b = Ok s →
    h ∈ s ↔ ∃ v i, VectorManifest_from_body b = Ok v ∧ vm_entries v !! i = Some h) as Hvec.
  { intros b s (v & Hv & Hs)%vector_blobs_spec. rewrite Hs. split.
    - intros [i Hi]. by exists v, i.
    - intros (v' & i & Hv' & Hi). rewrite Hv in Hv'. injection Hv' as <-. by exists i. }
  repeat case_decide.
  - destruct (graph_blobs (rec_body r)) as [s|] eqn:E; [|done].
    apply (Hfin s Hrun). rewrite (Hgraph _ _ E). intuition congruence.
  - destruct (vector_blobs (rec_body r)) as [s|] eqn:E; [|done].
    apply (Hfin s Hrun). rewrite (Hvec _ _ E). intuition congruence.
  - destruct (rec_deleted_kind r) as [k|] eqn:Hk.
    + destruct k; try (apply (Hfin ∅ Hrun); split; [by intros ?%elem_of_empty|intuition congruence]).
      * destruct (graph_blobs (rec_body r)) as [s|] eqn:E; [|done].
        apply (Hfin s Hrun). rewrite (Hgraph _ _ E). intuition congruence.
      * destruct (vector_blobs (rec_body r)) as [s|] eqn:E; [|done].
        apply (Hfin s Hrun). rewrite (Hvec _ _ E). intuition congruence.
    + apply (Hfin ∅ Hrun). split; [by intros ?%elem_of_empty|intuition congruence].
  - apply (Hfin ∅ Hrun). split; [by intros ?%elem_of_empty|intuition congruence].
Qed.

Lemma live_blob_hashes_spec rs live :
  live_blob_hashes rs = Ok live → ∀ h, h ∈ live ↔ ∃ r, r ∈ rs ∧ references r h.
Proof.
  unfold live_blob_hashes.
  assert (∀ acc, foldl (λ acc r, live ← acc; mark_record live r) acc rs = Ok live →
    ∃ l0, acc = Ok l0 ∧ ∀ h, h ∈ live ↔ h ∈ l0 ∨ ∃ r, r ∈ rs ∧ references r h) as Hgen.
  { induction rs as [|r rs IH]; intros acc; simpl.
    - intros ->. exists live. split; [done|]. set_solver.
    - intros Hrun. destruct (IH _ Hrun) as (l1 & Hl1 & Hspec).
      destruct acc as [l0|]; [|done]. exists l0. split; [done|]. intros h.
      rewrite Hspec, (mark_record_spec _ _ _ Hl1). set_solver. }
  intros Hrun h. destruct (Hgen _ Hrun) as (l0 & [= <-] & Hspec). rewrite Hspec. set_solver.
Qed.

Lemma live_blob_hashes_err rs e :
  live_blob_hashes rs = Err e → ∃ r live, r ∈ rs ∧ mark_record live r = Err e.
Proof.
  unfold live_blob_hashes. intros Hrun.
  assert (∀ acc, foldl (λ acc r, live ← acc; mark_record live r) acc rs = Err e →
    acc = Err e ∨ ∃ r live, r ∈ rs ∧ mark_record live r = Err e) as Hgen.
  { clear Hrun. induction rs as [|r rs IH]; intros acc; simpl; [by left|].
    intros [Hacc|(r' & live & Hr' & Hm)]%IH.
    - destruct acc as [l0|e0]; [|by left]. right. exists r, l0. set_solver.
    - right. exists r', live. set_solver. }
  by destruct (Hgen _ Hrun).
Qed.

(** ** The newest timestamp of each hash *)

Lemma newest_entries_snoc es e :
  newest_entries (es ++ [e]) = newest_step (newest_entries es) e.
Proof. unfold newest_entries. by rewrite foldl_snoc. Qed.

Lemma newest_entries_None es h :
  newest_entries es !! h = None ↔ ∀ e, e ∈ es → be_hash e ≠ h.
Proof.
  induction es as [|e es IH] using rev_ind; [set_solver|].
  rewrite newest_entries_snoc. unfold newest_step.
  rewrite lookup_insert_None, IH. set_solver.
Qed.

Lemma newest_entries_Some es h ms :
  newest_entries es !! h = Some ms →
  (∃ e, e ∈ es ∧ be_hash e = h ∧ be_modified_unix_ms e = ms) ∧
  ∀ e, e ∈ es → be_hash e = h → (be_modified_unix_ms e ≤ ms)%Z.
Proof.
  revert ms. induction es as [|e es IH] using rev_ind; intros ms; [done|].
  rewrite newest_entries_snoc. unfold newest_step.
  setoid_rewrite elem_of_app. setoid_rewrite list_elem_of_singleton.
  intros [[<- <-]|[Hne Hms]]%lookup_insert_Some.
  - destruct (newest_entries es !! be_hash e) as [ms0|] eqn:Hm.
    + destruct (IH ms0 eq_refl) as [(e0 & Hin0 & Hh0 & Hms0) Hmax]. split.
      * destruct (Z.max_spec ms0 (be_modified_unix_ms e)) as [[_ ->]|[_ ->]];
          [exists e|exists e0]; auto.
      * intros e' [Hin| ->] Hh'; [|lia]. specialize (Hmax e' Hin Hh'). lia.
    + rewrite newest_entries_None in Hm. split; [exists e; auto|].
      intros e' [Hin| ->] Hh'; [|lia]. by destruct (Hm e' Hin).
  - destruct (IH ms Hms) as [(e0 & Hin0 & Hh0 & Hms0) Hmax]. split; [exists e0; auto|].
    intros e' [Hin| ->] Hh'; [auto|done].
Qed.

(** ** A sweep over a lawful blob store *)

Section sweep.
Context `{Blake3} {F : Type} (blobs : BlobStore W).
Context (bl : W → gmap ContentHash (bytes * Z)) (frame : W → F).
Context `{!BlobStoreLaws blobs bl frame}.

(** The stored blob's verdict. *)
Definition verdict_of (live : gset ContentHash) (policy : SweepPolicy) (w : W)
    (h : ContentHash) : option SweepVerdict :=
  p ← bl w !! h; Some (sweep_verdict live policy h p.2).

Lemma delete_blobs_spec hs w : ∃ w',
  foldM (λ _ hash, bs_delete_blob blobs hash) tt hs w = (Ok tt, w') ∧
  frame w' = frame w ∧
  ∀ h, bl w' !! h = if decide (h ∈ hs) then None else bl w !! h.
Proof.
  revert w. induction hs as [|x hs IH]; intros w.
  - exists w. by split_and!.
  - rewrite foldM_cons. destruct (law_delete_blob (b := blobs) x w) as (w1 & -> & Hf & Hb).
    destruct (IH w1) as (w2 & -> & Hf2 & Hb2). exists w2. split; [done|].
    split; [congruence|]. intros h. rewrite Hb2, Hb.
    destruct (decide (h = x)) as [->|Hne].
    + rewrite lookup_delete_eq. rewrite (decide_True (P := x ∈ x :: hs)) by set_solver.
      by case_decide.
    + rewrite lookup_delete_ne by done. repeat case_decide; set_solver.
Qed.

(** What the accounting loop over the blobs computes. *)
Lemma sweep_fold live policy items acc :
  let r := foldl (sweep_step live policy) acc items in
  freed r = freed acc ++ (filter (λ p : ContentHash * Z,
    sweep_verdict live policy p.1 p.2 = Free) items).*1 ∧
  length (freed r) + retained r + deferred r =
    length (freed acc) + retained acc + deferred acc + length items.
Proof.
  revert acc. induction items as [|[h t] items IH]; intros acc; simpl.
  - rewrite app_nil_r. split; [done|lia].
  - destruct (IH (sweep_step live policy acc (h, t))) as [H1 H2]. split.
    + rewrite H1, filter_cons. unfold sweep_step. simpl.
      destruct (sweep_verdict live policy h t) eqn:Hv; simpl; try done.
      by rewrite <-app_assoc.
    + rewrite H2. unfold sweep_step. simpl.
      destruct (sweep_verdict live policy h t); simpl; rewrite ?length_app; simpl; lia.
Qed.

(** The collapsed listing is the stored timestamps. *)
Lemma newest_of_listing es w :
  (∀ h, (∃ e, e ∈ es ∧ be_hash e = h) ↔ is_Some (bl w !! h)) →
  (∀ h c t, bl w !! h = Some (c, t) → mkBlobEntry h t ∈ es ∧
     ∀ e, e ∈ es → be_hash e = h → (be_modified_unix_ms e ≤ t)%Z) →
  newest_entries es = snd <$> bl w.
Proof.
  intros Hdom Hnew. apply map_eq. intros h. rewrite lookup_fmap.
  destruct (bl w !! h) as [[c t]|] eqn:Hh; simpl.
  - destruct (Hnew h c t Hh) as [Hin Hmax].
    destruct (newest_entries es !! h) as [ms|] eqn:Hms.
    + apply newest_entries_Some in Hms as [(e & Hine & Hhe & <-) Hmax'].
      pose proof (Hmax e Hine Hhe). pose proof (Hmax' _ Hin eq_refl) as Hle. simpl in Hle.
      f_equal. lia.
    + rewrite newest_entries_None in Hms. by destruct (Hms _ Hin).
  - apply newest_entries_None. intros e Hin He.
    assert (is_Some (bl w !! h)) as [? ?] by (apply Hdom; eauto). congruence.
Qed.

Lemma length_btree_items {V} (m : gmap ContentHash V) : length (btree_items m) = size m.
Proof.
  rewrite <-(length_fmap fst), fst_btree_items. unfold btree_keys.
  rewrite length_sort, length_fmap. apply length_map_to_list.
Qed.

(** Everything a sweep did. *)
Definition swept live policy w (report : GcReport) w' : Prop :=
  increasing (freed report) ∧
  (∀ h, h ∈ freed report ↔ verdict_of live policy w h = Some Free) ∧
  (∀ h, bl w' !! h = if decide (h ∈ freed report) then None else bl w !! h) ∧
  length (freed report) + retained report + deferred report = size (bl w).

Lemma sweep_blobs_with_spec live policy w : ∃ report w',
  sweep_blobs_with blobs live policy w = (Ok report, w') ∧ frame w' = frame w ∧
  swept live policy w report w'.
Proof.
  destruct (law_list_blobs (b := blobs) w) as (es & w1 & Hl & Hf1 & Hb1 & Hdom & Hnew).
  pose proof (newest_of_listing es w Hdom Hnew) as Hnewest.
  set (report := foldl (sweep_step live policy) (mkGcReport [] 0 0)
    (btree_items (newest_entries es))).
  destruct (delete_blobs_spec (freed report) w1) as (w2 & Hdel & Hf2 & Hb2).
  exists report, w2. split_and!.
  - unfold sweep_blobs_with. rewrite (bind_ok _ _ _ _ _ Hl). fold report.
    by rewrite (bind_ok _ _ _ _ _ Hdel).
  - congruence.
  - destruct (sweep_fold live policy (btree_items (newest_entries es)) (mkGcReport [] 0 0))
      as [Hfreed Hcount]. fold report in Hfreed, Hcount. simpl in Hfreed, Hcount.
    assert (increasing (freed report)) as Hinc.
    { rewrite Hfreed. apply increasing_fst_filter. }
    split_and!; [done| | |].
    + intros h. rewrite Hfreed, elem_of_fst_filter, Hnewest. unfold verdict_of.
      setoid_rewrite lookup_fmap. simpl. destruct (bl w !! h) as [[c t]|]; simpl.
      * split; [by intros (? & [= <-] & ->)|]. intros [= Hv]. by exists t.
      * split; [by intros (? & ? & _)|done].
    + intros h. by rewrite Hb2, Hb1.
    + by rewrite Hcount, length_btree_items, Hnewest, map_size_fmap.
Qed.
End sweep.

(** ** A collection over a lawful store *)

Section collection.
Context `{Blake3} {F : Type} (store : Store W) (blobs : BlobStore W).
Context (contents : W → records) (bl : W → gmap ContentHash (bytes * Z)) (rest : W → F).
Context (cap : nat).
Context `{!StoreLaws store contents cap (λ w, (bl w, rest w))}.
Context `{!BlobStoreLaws blobs bl (λ w, (contents w, rest w))}.
Implicit Types w : W.

Lemma raw_records_spec w : keyed (contents w) → ∃ rs w',
  raw_records store w = (Ok rs, w') ∧
  contents w' = contents w ∧ bl w' = bl w ∧ rest w' = rest w ∧
  ∀ r, r ∈ rs ↔ ∃ k, contents w !! k = Some r.
Proof.
  intros Hk.
  destruct (law_list_raw (s := store) KeyPrefix_default w Hk)
    as (keys & w1 & Hl & Hc1 & [= Hb1 Hr1] & _ & Hkeys).
  destruct (foldM_inv
    (λ rs key, o ← st_get_raw store key;
               mret (match o with Some r => rs ++ [r] | None => rs end))
    (λ done rs w', contents w' = contents w ∧ bl w' = bl w ∧ rest w' = rest w ∧
       ∀ r, r ∈ rs ↔ ∃ k, k ∈ done ∧ contents w !! k = Some r) keys [] w1)
    as (rs & w2 & Hrun & Hc2 & Hb2 & Hr2 & Hrs).
  - split_and!; [done..|]. set_solver.
  - intros done k todo rs w0 _ (Hc & Hb & Hr & Hrs).
    destruct (law_get_raw (s := store) k w0) as (w3 & Hg & Hc3 & [= Hb3 Hr3]).
    eexists _, w3. split; [by rewrite (bind_ok _ _ _ _ _ Hg)|]. rewrite Hc.
    split_and!; [congruence..|]. intros r.
    destruct (contents w !! k) as [x|] eqn:Hx;
      rewrite ?elem_of_app, ?list_elem_of_singleton, Hrs; setoid_rewrite elem_of_app;
      setoid_rewrite list_elem_of_singleton; naive_solver.
  - exists rs, w2. split; [|split_and!; try done].
    + unfold raw_records. by rewrite (bind_ok _ _ _ _ _ Hl).
    + intros r. rewrite Hrs. split; [naive_solver|]. intros [k Hx]. exists k. split; [|done].
      apply Hkeys. rewrite Hx. by eauto.
Qed.

(** A stored record that names no manifest where there should be one. *)
Definition unparsable (r : record) : Prop := ∃ live e, mark_record live r = Err e.

Lemma gc_blobs_with_spec (policy : SweepPolicy) w :
  keyed (contents w) → ∃ res w',
    gc_blobs_with store blobs policy w = (res, w') ∧
    contents w' = contents w ∧ rest w' = rest w ∧
    match res with
    | Err _ => bl w' = bl w ∧ ∃ k r, contents w !! k = Some r ∧ unparsable r
    | Ok report =>
        (∀ h, h ∈ freed report ↔ ∃ c t age, bl w !! h = Some (c, t) ∧
           (∀ k r, contents w !! k = Some r → ¬ references r h) ∧
           BlobEntry_age (mkBlobEntry h t) (policy_now policy) = Some age ∧
           (min_age policy ≤ age)%N) ∧
        (∀ h, bl w' !! h = if decide (h ∈ freed report) then None else bl w !! h) ∧
        increasing (freed report) ∧
        length (freed report) + retained report + deferred report = size (bl w)
    end.
Proof.
  intros Hk. destruct (raw_records_spec w Hk) as (rs & w1 & Hraw & Hc1 & Hb1 & Hr1 & Hrs).
  unfold gc_blobs_with. rewrite (bind_ok _ _ _ _ _ Hraw).
  destruct (live_blob_hashes rs) as [live|e] eqn:Hlive.
  - destruct (sweep_blobs_with_spec blobs bl (λ w, (contents w, rest w)) live policy w1)
      as (report & w2 & Hsweep & [= Hc2 Hr2] & Hinc & Hfreed & Hbl & Hcount).
    exists (Ok report), w2. split; [exact Hsweep|]. rewrite Hb1 in *.
    split_and!; [congruence..| |done|done|done].
    intros h. rewrite Hfreed. unfold verdict_of, sweep_verdict. rewrite Hb1.
    assert (h ∈ live ↔ ∃ k r, contents w !! k = Some r ∧ references r h) as Hl.
    { rewrite (live_blob_hashes_spec _ _ Hlive). setoid_rewrite Hrs. naive_solver. }
    destruct (bl w !! h) as [[c t]|]; simpl; [|naive_solver]. split.
    + destruct (decide (h ∈ live)) as [|Hnl]; [done|].
      destruct (BlobEntry_age _ _) as [age|] eqn:Hage; [|done].
      case_decide; [|done]. intros _.
      exists c, t, age. split_and!; try done. intros k r Hr Href. apply Hnl, Hl. by eauto.
    + intros (? & ? & age & [= <- <-] & Hno & -> & Hage).
      rewrite decide_False by naive_solver. by rewrite decide_True.
  - destruct (live_blob_hashes_err _ _ Hlive) as (r & live & Hr & Hm).
    exists (Err e), w1. split; [done|]. split_and!; try done.
    apply Hrs in Hr as [k Hr]. exists k, r. split; [done|]. by exists live, e.
Qed.

(** C8: garbage collection frees exactly the garbage.  Over a lawful store and
    its blobs, a run either meets a stored manifest it cannot read, and then
    deletes nothing at all, or frees precisely the blobs that no stored record
    (tombstones included) references and that are at least [min_age] old.  A
    referenced, young or future-dated blob survives, no record changes, and
    the report accounts for every stored blob once. *)
Theorem gc_frees_exactly_garbage (policy : SweepPolicy) w :
  keyed (contents w) → ∃ res w',
    gc_blobs_with store blobs policy w = (res, w') ∧
    contents w' = contents w ∧ rest w' = rest w ∧
    match res with
    | Err _ => bl w' = bl w ∧ ∃ k r, contents w !! k = Some r ∧ unparsable r
    | Ok report =>
        (∀ h, h ∈ freed report ↔ ∃ c t age, bl w !! h = Some (c, t) ∧
           (∀ k r, contents w !! k = Some r → ¬ references r h) ∧
           BlobEntry_age (mkBlobEntry h t) (policy_now policy) = Some age ∧
           (min_age policy ≤ age)%N) ∧
        (∀ h, bl w' !! h = if decide (h ∈ freed report) then None else bl w !! h) ∧
        increasing (freed report) ∧
        length (freed report) + retained report + deferred report = size (bl w)
    end.
Proof. apply gc_blobs_with_spec. Qed.
End collection.
End gc.

(** ** Witnesses *)

Section witnesses.
#[local] Existing Instance sample_hash.
#[local] Existing Instance sample_serde.

Lemma gc_frees_exactly_garbage_witness :
  let w : sample_world := (∅, ∅, {[ContentHash_of [] := ([], 0%Z)]}) in
  ∃ res w', gc_blobs_with store_a sample_blobs
    (mkSweepPolicy (from_secs 3600) (sample_wall tt)) w = (res, w') ∧ w'.1.1 = w.1.1.
Proof.
  intros w.
  destruct (gc_frees_exactly_garbage store_a sample_blobs (λ w : sample_world, w.1.1)
    (λ w, w.2) (λ w, w.1.2) 32 (StoreLaws0 := store_a_laws (λ p, (p.2, p.1)))
    (BlobStoreLaws0 := sample_blobs_laws (λ p, (p.1, p.2)))
    (mkSweepPolicy (from_secs 3600) (sample_wall tt)) w)
    as (res & w' & Hrun & Hc & _); [by intros ??|].
  exists res, w'. split; [exact Hrun|exact Hc].
Defined.
End witnesses.
