(* ===== verification/Undelete.v ===== *)
(** * Undelete: restoring a manifest from its tombstone

    Models [gonzalo-core]'s [undelete.rs]: check that a restorable tombstone is
    there and that every blob its retained body names still exists, then write
    the record back as a replication write.  The theorems: what is refused and
    that a refusal writes nothing; that a delete followed by a restore brings
    back the body, kind and creation time; and that garbage collection in
    between cannot spoil it. *)

From S2P Require Export Gc.

(** [missing.join(", ")]. *)
Fixpoint join (sep : string) (l : list string) : string :=
  match l with
  | [] => ""
  | [x] => x
  | x :: l' => x +:+ sep +:+ join sep l'
  end.

Section undelete.
Context `{Blake3} `{ManifestSerde} {W : Type}.
Variables (store : Store W) (blobs : BlobStore W).

Definition referenced_blobs (kind : RecordKind) (tomb : record) : Result (list ContentHash) :=
  match kind with
  | VectorManifest =>
      v ← VectorManifest_from_body (rec_body tomb); Ok (btree_values (vm_entries v))
  | GraphManifest =>
      m ← Manifest_from_body (rec_body tomb); Ok (btree_values (entries m))
  | _ => Ok []
  end.

Definition restored_record (key : RecordKey) (kind : RecordKind) (tomb : record)
    (now_ms : Z) (author : option Identity) : record :=
  let meta := match author with
              | Some a => set_author (rec_meta tomb) a
              | None => rec_meta tomb
              end in
  let meta := set_times meta (meta_created meta) now_ms in
  mkRecord key kind
    (mkRevision (u64_succ (rev_counter (rec_revision tomb)))
      (ContentHash_of (body_bytes (rec_body tomb))))
    (Some (rec_revision tomb)) (rec_body tomb) meta [] [] None None None.

(** The loop that looks for missing blobs. *)
Definition missing_blobs (hashes : list ContentHash) : M W CoreError (list string) :=
  foldM (λ (missing : list string) (hash : ContentHash),
    present ← bs_has_blob blobs hash;
    mret (if (present : bool) then missing else missing ++ [hash_hex hash])) [] hashes.

Definition undelete (key : RecordKey) (now_ms : Z) (author : option Identity) :
    M W CoreError Revision :=
  o ← st_get_raw store key;
  match o with
  | None => throw (NotFound key)
  | Some tomb =>
      if negb (is_tombstone tomb) then
        throw (Invalid (key_to_string key +:+ " is live at revision "
          +:+ pretty (rev_counter (rec_revision tomb)) +:+ "; there is nothing to restore"))
      else match rec_deleted_kind tomb with
      | None => throw (Invalid (key_to_string key
          +:+ ": the deleted body was not retained, so it cannot be restored. "
          +:+ "Only manifest kinds retain a body (ADR 0029)."))
      | Some kind =>
          hashes ← lift (referenced_blobs kind tomb);
          missing ← missing_blobs hashes;
          match missing with
          | _ :: _ => throw (Invalid (key_to_string key +:+ ": cannot restore, "
              +:+ pretty (N.of_nat (length missing))
              +:+ " blob(s) the retained body names are gone: " +:+ join ", " missing))
          | [] =>
              res ← st_put_raw store (restored_record key kind tomb now_ms author)
                      (Some (rec_revision tomb));
              match res with
              | Committed rev => mret rev
              | PutConflicted c => throw (Invalid (key_to_string key
                  +:+ ": the key changed while restoring (now revision "
                  +:+ pretty (rev_counter (rec_revision (cf_current c)))
                  +:+ "); nothing was written"))
              end
          end
      end
  end.
End undelete.

Section theorems.
Context `{Blake3} `{ManifestSerde} {W F : Type}.
Context (store : Store W) (blobs : BlobStore W).
Context (contents : W → records) (bl : W → gmap ContentHash (bytes * Z)) (rest : W → F).
Context (cap : nat).
Context `{!StoreLaws store contents cap (λ w, (bl w, rest w))}.
Context `{!BlobStoreLaws blobs bl (λ w, (contents w, rest w))}.
Implicit Types w : W.

Lemma missing_blobs_spec hashes w : ∃ missing w',
  missing_blobs blobs hashes w = (Ok missing, w') ∧
  contents w' = contents w ∧ bl w' = bl w ∧ rest w' = rest w ∧
  missing = hash_hex <$> filter (λ h, bl w !! h = None) hashes.
Proof.
  destruct (foldM_inv (λ (missing : list string) (hash : ContentHash),
    present ← bs_has_blob blobs hash;
    mret (if (present : bool) then missing else missing ++ [hash_hex hash]))
    (λ done missing w', contents w' = contents w ∧ bl w' = bl w ∧ rest w' = rest w ∧
       missing = hash_hex <$> filter (λ h, bl w !! h = None) done) hashes [] w)
    as (missing & w' & Hrun & Hinv); [done| |by exists missing, w'].
  intros done h todo missing w0 _ (Hc & Hb & Hr & ->).
  destruct (law_has_blob (b := blobs) h w0) as (w1 & Hhas & [= Hc1 Hr1] & Hb1).
  eexists _, w1. split; [by rewrite (bind_ok _ _ _ _ _ Hhas)|].
  split_and!; [congruence..|]. rewrite Hb, filter_app, fmap_app, filter_cons.
  destruct (bl w !! h); simpl; [|done]. by rewrite app_nil_r.
Qed.

(** Whether a key can be restored. *)
Definition restorable (o : option record) (m : gmap ContentHash (bytes * Z)) : Prop :=
  ∃ tomb kind hashes, o = Some tomb ∧ is_tombstone tomb = true ∧
    rec_deleted_kind tomb = Some kind ∧ referenced_blobs kind tomb = Ok hashes ∧
    ∀ h, h ∈ hashes → is_Some (m !! h).

Lemma undelete_restores tomb kind hashes key now author w :
  contents w !! key = Some tomb → is_tombstone tomb = true →
  rec_deleted_kind tomb = Some kind → referenced_blobs kind tomb = Ok hashes →
  (∀ h, h ∈ hashes → is_Some (bl w !! h)) → ∃ w',
  let r := restored_record key kind tomb now author in
  undelete store blobs key now author w = (Ok (rec_revision r), w') ∧
  bl w' = bl w ∧ rest w' = rest w ∧
  contents w' = <[key := set_ancestors r
    (fold_ancestors (rec_revision r) [] (Some tomb) cap)]> (contents w).
Proof.
  intros Hc Ht Hk Hh Hall.
  destruct (law_get_raw (s := store) key w) as (w1 & Hg & Hc1 & [= Hb1 Hr1]).
  destruct (missing_blobs_spec hashes w1) as (missing & w2 & Hm & Hc2 & Hb2 & Hr2 & Hmiss).
  assert (missing = []) as ->.
  { rewrite Hmiss. destruct (filter _ _) as [|h l] eqn:E; [done|].
    assert (h ∈ filter (λ h, bl w1 !! h = None) hashes) as Hin by (rewrite E; set_solver).
    apply list_elem_of_filter in Hin as [Hnone Hin]. rewrite Hb1 in Hnone.
    destruct (Hall h Hin) as [? ?]. congruence. }
  set (r := restored_record key kind tomb now author).
  destruct (put_raw_commits store contents cap _ r (Some (rec_revision tomb)) w2)
    as (w3 & Hput & [= Hb3 Hr3] & Hc3); [cbn [r rec_key restored_record]; by rewrite Hc2, Hc1, Hc|].
  exists w3. split_and!; [|congruence..|].
  - rewrite Hc in Hg. unfold undelete. rewrite (bind_ok _ _ _ _ _ Hg), Ht. simpl. rewrite Hk, Hh.
    unfold mbind at 1, M_bind at 1, lift. rewrite (bind_ok _ _ _ _ _ Hm).
    by rewrite (bind_ok _ _ _ _ _ Hput).
  - rewrite Hc3, Hc2, Hc1. change (rec_key r) with key. by rewrite Hc.
Qed.

(** A manifest tombstone still references what its retained body names. *)
Lemma manifest_tombstone_references tomb kind hashes h :
  is_tombstone tomb = true → rec_deleted_kind tomb = Some kind →
  is_manifest_kind kind = true → referenced_blobs kind tomb = Ok hashes → h ∈ hashes →
  references tomb h.
Proof.
  intros Ht%is_tombstone_true Hk Hm Hh Hin. apply references_alt. right. right.
  destruct kind; try discriminate Hm; simpl in Hh.
  - destruct (Manifest_from_body (rec_body tomb)) as [m|] eqn:Hb; [|done].
    injection Hh as <-. apply elem_of_btree_values in Hin as [p Hp]. left. split; [by right|].
    by exists m, p.
  - destruct (VectorManifest_from_body (rec_body tomb)) as [v|] eqn:Hb; [|done].
    injection Hh as <-. apply elem_of_btree_values in Hin as [p Hp]. right. split; [by right|].
    by exists v, p.
Qed.

Lemma undelete_cases key now author w :
  restorable (contents w !! key) (bl w) ∨
  ∃ e w', undelete store blobs key now author w = (Err e, w') ∧
    contents w' = contents w ∧ bl w' = bl w ∧ rest w' = rest w ∧
    ¬ restorable (contents w !! key) (bl w).
Proof.
  destruct (law_get_raw (s := store) key w) as (w1 & Hg & Hc1 & [= Hb1 Hr1]).
  unfold undelete. rewrite (bind_ok _ _ _ _ _ Hg). clear Hg.
  destruct (contents w !! key) as [tomb|] eqn:Hc.
  2: { right. eexists _, w1. split_and!; [reflexivity|done..|]. by intros (? & ? & ? & ? & _). }
  destruct (is_tombstone tomb) eqn:Ht; simpl.
  2: { right. eexists _, w1. split_and!; [reflexivity|done..|].
       intros (? & ? & ? & [= <-] & ? & _). congruence. }
  destruct (rec_deleted_kind tomb) as [kind|] eqn:Hk.
  2: { right. eexists _, w1. split_and!; [reflexivity|done..|].
       intros (? & ? & ? & [= <-] & ? & ? & _). congruence. }
  destruct (referenced_blobs kind tomb) as [hashes|e] eqn:Hh; cbn -[missing_blobs].
  2: { right. eexists _, w1. split_and!; [reflexivity|done..|].
       intros (? & ? & ? & [= <-] & ? & ? & ? & _). congruence. }
  destruct (missing_blobs_spec hashes w1) as (missing & w2 & Hm & Hc2 & Hb2 & Hr2 & Hmiss).
  unfold mbind at 1, M_bind at 1, lift. rewrite (bind_ok _ _ _ _ _ Hm).
  destruct missing as [|x missing].
  - left. exists tomb, kind, hashes. split_and!; [done..|]. intros h Hin.
    destruct (bl w !! h) eqn:Hb; [by eauto|exfalso].
    assert (h ∈ filter (λ h, bl w1 !! h = None) hashes) as Hf
      by (apply list_elem_of_filter; by rewrite Hb1).
    destruct (filter _ _); [by apply elem_of_nil in Hf|done].
  - right. eexists _, w2. split_and!; [reflexivity|congruence..|].
    intros (? & ? & ? & [= <-] & _ & Hk' & Hh' & Hall).
    rewrite Hk in Hk'. injection Hk' as <-. rewrite Hh in Hh'. injection Hh' as <-.
    assert (x ∈ hash_hex <$> filter (λ h, bl w1 !! h = None) hashes) as Hx
      by (rewrite <-Hmiss; set_solver).
    apply list_elem_of_fmap in Hx as (h & _ & [Hnone Hin]%list_elem_of_filter).
    rewrite Hb1 in Hnone. destruct (Hall h Hin) as [? ?]. congruence.
Qed.

(** Undelete restores exactly what can be restored.  It succeeds when and
    only when a tombstone is there, its body was retained and can be read, and
    every blob the body names exists; then the key holds the retained body and
    kind as a fresh revision of the tombstone.  Any other run, whatever the
    reason, leaves the store and its blobs as they were. *)
Theorem undelete_or_nothing (key : RecordKey) (now : Z) (author : option Identity) w :
  ∃ res w', undelete store blobs key now author w = (res, w') ∧
    bl w' = bl w ∧ rest w' = rest w ∧
    match res with
    | Ok rev => restorable (contents w !! key) (bl w) ∧
        ∃ tomb kind, contents w !! key = Some tomb ∧ rec_deleted_kind tomb = Some kind ∧
          let r := restored_record key kind tomb now author in
          rev = rec_revision r ∧
          contents w' = <[key := set_ancestors r
            (fold_ancestors (rec_revision r) [] (Some tomb) cap)]> (contents w)
    | Err _ => ¬ restorable (contents w !! key) (bl w) ∧ contents w' = contents w
    end.
Proof.
  destruct (undelete_cases key now author w) as [Hr|(e & w' & Hrun & Hc & Hb & Hrest & Hno)].
  - destruct Hr as (tomb & kind & hashes & Hc & Ht & Hk & Hh & Hall).
    destruct (undelete_restores tomb kind hashes key now author w Hc Ht Hk Hh Hall)
      as (w' & Hrun & ? & ? & ?).
    eexists (Ok _), w'. split; [exact Hrun|]. split_and!; [done..| |].
    + by exists tomb, kind, hashes.
    + by exists tomb, kind.
  - exists (Err e), w'. by split_and!.
Qed.

(** C28: a deleted manifest can be brought back, even after garbage collection.
    Delete a live graph or vector manifest whose blobs are all present, collect
    garbage under any policy, then undelete: the record is live again with the
    body, kind, creation time and labels it had, and its blobs are all there. *)
Theorem delete_gc_undelete (key : RecordKey) (r : record) (hashes : list ContentHash)
    (policy : SweepPolicy) (now' : Z) (e : option Revision)
    (author : option Identity) w w1 w2 report :
  keyed (contents w) → contents w !! key = Some r →
  is_manifest_kind (rec_kind r) = true → referenced_blobs (rec_kind r) r = Ok hashes →
  (∀ h, h ∈ hashes → is_Some (bl w !! h)) →
  st_delete_as store key e author w = (Ok Deleted, w1) →
  gc_blobs_with store blobs policy w1 = (Ok report, w2) →
  ∃ rev w3 r', undelete store blobs key now' None w2 = (Ok rev, w3) ∧
    contents w3 !! key = Some r' ∧ rec_revision r' = rev ∧
    rec_body r' = rec_body r ∧ rec_kind r' = rec_kind r ∧
    meta_created (rec_meta r') = meta_created (rec_meta r) ∧
    meta_labels (rec_meta r') = meta_labels (rec_meta r) ∧
    ∀ h, h ∈ hashes → is_Some (bl w3 !! h).
Proof.
  intros Hkeyed Hr Hkind Hh Hall Hdel Hgc.
  pose proof (is_manifest_kind_live _ Hkind) as Hlive%is_tombstone_false.
  destruct (law_delete_as (s := store) key e author w) as (t & res & w1' & Hdel' & [= Hb1 Hr1] & Heq).
  rewrite Hdel in Hdel'. injection Hdel' as <- <-. rewrite Hr in Heq.
  destruct (plan_delete _ _ _ _ _) as [tomb| |] eqn:Hp; [|exfalso|discriminate Heq].
  2: { revert Hp. unfold plan_delete. rewrite Hlive. by case_decide. }
  apply plan_delete_write in Hp as (c & [= <-] & _ & _ & Htomb). injection Heq as Hc1.
  pose proof (Hkeyed _ _ Hr) as Hrk.
  assert (rec_deleted_kind tomb = Some (rec_kind r) ∧ rec_body tomb = rec_body r)
    as [Hdk Hbody] by (subst tomb; unfold tombstone_of; simpl; by rewrite Hkind).
  assert (referenced_blobs (rec_kind r) tomb = Ok hashes) as Hht.
  { rewrite <-Hh. unfold referenced_blobs. by rewrite Hbody. }
  assert (is_tombstone tomb = true) as Htt by (by subst tomb).
  assert (keyed (contents w1)) as Hk1.
  { intros k' x. rewrite Hc1. intros [[<- <-]|[_ Hx]]%lookup_insert_Some; [by subst tomb|].
    by apply Hkeyed. }
  assert (∀ h, h ∈ hashes → references tomb h) as Href
    by (intros h; by apply (manifest_tombstone_references tomb (rec_kind r))).
  assert (∀ h, h ∈ hashes → is_Some (bl w2 !! h)) as Hall2.
  { destruct (gc_blobs_with_spec store blobs contents bl rest cap policy w1 Hk1)
      as (res & w2' & Hgc' & Hc2 & Hr2 & Hm). rewrite Hgc in Hgc'. injection Hgc' as <- <-.
    destruct Hm as (Hfreed & Hbl & _). intros h Hin. rewrite Hbl, Hb1.
    rewrite decide_False; [by apply Hall|]. rewrite Hfreed.
    intros (? & ? & ? & _ & Hno & _). apply (Hno key tomb); [|by apply Href].
    by rewrite Hc1, lookup_insert_eq. }
  assert (contents w2 !! key = Some tomb) as Ht2.
  { destruct (gc_blobs_with_spec store blobs contents bl rest cap policy w1 Hk1)
      as (res & w2' & Hgc' & Hc2 & _). rewrite Hgc in Hgc'. injection Hgc' as <- <-.
    by rewrite Hc2, Hc1, lookup_insert_eq. }
  destruct (undelete_restores tomb (rec_kind r) hashes key now' None w2 Ht2 Htt Hdk Hht Hall2)
    as (w3 & Hrun & Hb3 & _ & Hc3).
  eexists _, w3, _. split; [exact Hrun|]. rewrite Hc3, lookup_insert_eq.
  split_and!; [reflexivity..|by rewrite <-Hbody|reflexivity| | |by rewrite Hb3];
    subst tomb; by destruct author.
Qed.
End theorems.

(** ** Witnesses *)

Section witnesses.
#[local] Existing Instance sample_hash.
#[local] Existing Instance sample_serde.

Definition shard : ContentHash := ContentHash_of [].

(** An index of one shard, live, with its blob. *)
Definition sample_index : record :=
  Record_create sample_key VectorManifest
    (VectorManifest_to_body (mkVectorManifest "space" 3 1 {[0%N := shard]})) sample_meta.

Definition index_world : sample_world :=
  ({[sample_key := sample_index]}, ∅, {[shard := ([], 0%Z)]}).

Lemma delete_gc_undelete_witness :
  let w1 := (st_delete_as store_a sample_key None None index_world).2 in
  let w2 := (gc_blobs_with store_a sample_blobs (SweepPolicy_default (sample_wall tt)) w1).2 in
  ∃ rev w3 r', undelete store_a sample_blobs sample_key 9 None w2 = (Ok rev, w3) ∧
    w3.1.1 !! sample_key = Some r' ∧ rec_kind r' = VectorManifest.
Proof.
  intros w1 w2.
  destruct (delete_gc_undelete store_a sample_blobs (λ w : sample_world, w.1.1)
    (λ w, w.2) (λ w, w.1.2) 32 (StoreLaws0 := store_a_laws (λ p, (p.2, p.1)))
    (BlobStoreLaws0 := sample_blobs_laws (λ p, (p.1, p.2))) sample_key sample_index [shard]
    (SweepPolicy_default (sample_wall tt)) 9 None None index_world w1 w2
    (mkGcReport [] 1 0)) as (rev & w3 & r' & Hrun & Hr' & _ & _ & Hk & _).
  - intros k r. unfold index_world. simpl. by intros [<- <-]%lookup_singleton_Some.
  - vm_compute. reflexivity.
  - vm_compute. reflexivity.
  - vm_compute. reflexivity.
  - intros h ->%list_elem_of_singleton. vm_compute. by eexists.
  - vm_compute. reflexivity.
  - vm_compute. reflexivity.
  - exists rev, w3, r'. split; [exact Hrun|]. split; [exact Hr'|exact Hk].
Defined.

Lemma undelete_or_nothing_witness :
  ∃ res w', undelete store_a sample_blobs sample_key 9 None index_world = (res, w').
Proof.
  destruct (undelete_or_nothing store_a sample_blobs (λ w : sample_world, w.1.1)
    (λ w, w.2) (λ w, w.1.2) 32 (StoreLaws0 := store_a_laws (λ p, (p.2, p.1)))
    (BlobStoreLaws0 := sample_blobs_laws (λ p, (p.1, p.2))) sample_key 9 None index_world)
    as (res & w' & Hrun & _).
  exists res, w'. exact Hrun.
Defined.
End witnesses.
