(* ===== verification/Auth.v ===== *)
(** * Auth: principals, their scopes and the token registry

    Models [gonzalo-server]'s [auth.rs].  The TOML parser is a library: what it
    makes of a file is the method of a class, and [parse_toml] is the loop over
    the definitions it returns. *)

From S2P Require Export Records.

(** ** Principals *)

Inductive Access := Read | Write.

#[export] Instance Access_eq_dec : EqDecision Access.
Proof. solve_decision. Defined.

Record Principal := mkPrincipal {
  principal_name : string;
  principal_read : list string;
  principal_write : list string;
  principal_authenticated : bool
}.

#[export] Instance Principal_eq_dec : EqDecision Principal.
Proof. solve_decision. Defined.

Definition Principal_new (name : string) (read write : list string) : Principal :=
  mkPrincipal name read write true.

Definition admin (name : string) : Principal := Principal_new name ["*"] ["*"].

Definition open : Principal :=
  let a := admin "local" in
  mkPrincipal (principal_name a) (principal_read a) (principal_write a) false.

Definition any (p : string → bool) (l : list string) : bool := existsb p l.

Definition is_admin (p : Principal) : bool :=
  any (λ s, bool_decide (s = "*")) (principal_read p)
  && any (λ s, bool_decide (s = "*")) (principal_write p).

Definition delete_author (p : Principal) (claimed : option Identity) : option Identity :=
  if negb (is_admin p) then Some (Identity_new (principal_name p))
  else match claimed with
       | Some c => Some c
       | None => if principal_authenticated p
                 then Some (Identity_new (principal_name p)) else None
       end.

Definition allows (p : Principal) (access : Access) (namespace : string) : bool :=
  let scopes := match access with
                | Read => principal_read p
                | Write => principal_write p
                end in
  any (λ s, bool_decide (s = "*") || bool_decide (s = namespace)) scopes.

(** ** The registry *)

Inductive Auth :=
  | Disabled
  | Enabled (by_token : gmap string Principal).

Definition authenticate (a : Auth) (token : option string) : option Principal :=
  match a with
  | Disabled => Some open
  | Enabled by_token => t ← token; by_token !! t
  end.

(** An entry of the principals file: [name], [token], [read] and [write]. *)
Record principal_def := mkDef {
  def_name : string;
  def_token : string;
  def_read : list string;
  def_write : list string
}.

(** [toml::from_str] at the file's type. *)
Class Toml := toml_from_str : string → result string (list principal_def).

(** The loop that fills the map, with its early return. *)
Fixpoint insert_defs (by_token : gmap string Principal) (defs : list principal_def) :
    result string (gmap string Principal) :=
  match defs with
  | [] => Ok by_token
  | d :: defs' =>
      let principal := Principal_new (def_name d) (def_read d) (def_write d) in
      if decide (is_Some (by_token !! def_token d))
      then Err "duplicate token in auth file"
      else insert_defs (<[def_token d := principal]> by_token) defs'
  end.

Section registry.
Context `{Toml}.

Definition parse_toml (s : string) : result string Auth :=
  defs ← toml_from_str s;
  by_token ← insert_defs ∅ defs;
  Ok (Enabled by_token).

(** [get(name).filter(|s| !s.is_empty())]. *)
Definition non_empty_var (get : string → option string) (name : string) : option string :=
  s ← get name; if decide (s = "") then None else Some s.

Definition from_env (get : string → option string)
    (read_file : string → result string string) : result string Auth :=
  match non_empty_var get "GONZALO_AUTH_FILE" with
  | Some path => s ← read_file path; parse_toml s
  | None =>
      match non_empty_var get "GONZALO_TOKEN" with
      | Some token => Ok (Enabled {[token := admin "root"]})
      | None => Ok Disabled
      end
  end.
End registry.

(** ** Lemmas *)

Lemma any_spec p l : any p l = true ↔ ∃ s, s ∈ l ∧ p s = true.
Proof.
  unfold any. rewrite existsb_exists. by setoid_rewrite list_elem_of_In.
Qed.

Lemma allows_spec p a ns : allows p a ns = true ↔
  "*" ∈ (match a with Read => principal_read p | Write => principal_write p end) ∨
  ns ∈ (match a with Read => principal_read p | Write => principal_write p end).
Proof.
  unfold allows. rewrite any_spec. setoid_rewrite orb_true_iff.
  setoid_rewrite bool_decide_eq_true. naive_solver.
Qed.

Lemma is_admin_spec p : is_admin p = true ↔ ∀ a ns, allows p a ns = true.
Proof.
  unfold is_admin. rewrite andb_true_iff, !any_spec. setoid_rewrite bool_decide_eq_true.
  setoid_rewrite allows_spec. split.
  - intros [(s & Hs & ->) (s' & Hs' & ->)] [] ns; by left.
  - intros Hall. pose proof (Hall Read "*") as Hr. pose proof (Hall Write "*") as Hw.
    split; exists "*"; tauto.
Qed.

#[export] Hint Resolve -> is_admin_spec : core.

Definition def_principal (d : principal_def) : Principal :=
  Principal_new (def_name d) (def_read d) (def_write d).

Lemma insert_defs_total m defs :
  NoDup (def_token <$> defs) → (∀ d, d ∈ defs → m !! def_token d = None) →
  ∃ m', insert_defs m defs = Ok m'.
Proof.
  revert m. induction defs as [|d defs IH]; intros m Hnd Hfresh; [by exists m|]. simpl.
  apply NoDup_cons in Hnd as [Hd Hnd]. rewrite decide_False.
  - apply IH; [done|]. intros d' Hd'. rewrite lookup_insert_ne; [by apply Hfresh; right|].
    intros Heq. apply Hd. rewrite Heq. by apply list_elem_of_fmap_2.
  - rewrite <-eq_None_not_Some. apply Hfresh. by left.
Qed.

Lemma insert_defs_ok m defs m' : insert_defs m defs = Ok m' →
  NoDup (def_token <$> defs) ∧ (∀ d, d ∈ defs → m !! def_token d = None) ∧
  ∀ t p, m' !! t = Some p ↔
    m !! t = Some p ∨ ∃ d, d ∈ defs ∧ t = def_token d ∧ p = def_principal d.
Proof.
  revert m. induction defs as [|d defs IH]; intros m; simpl.
  { intros [= <-]. split_and!; [constructor|by intros ? ?%elem_of_nil|].
    setoid_rewrite elem_of_nil. naive_solver. }
  case_decide as Hd; [done|]. rewrite <-eq_None_not_Some in Hd.
  intros (Hnd & Hfresh & Hm)%IH. setoid_rewrite elem_of_cons. split_and!.
  - apply NoDup_cons. split; [|done]. intros (d' & Heq & Hd')%list_elem_of_fmap.
    specialize (Hfresh d' Hd'). by rewrite <-Heq, lookup_insert_eq in Hfresh.
  - intros d' [->|Hd']; [done|]. specialize (Hfresh d' Hd').
    by apply lookup_insert_None in Hfresh as [? _].
  - intros t p. rewrite Hm. destruct (decide (t = def_token d)) as [->|Ht].
    + rewrite lookup_insert_eq. unfold def_principal. naive_solver.
    + rewrite lookup_insert_ne by done. naive_solver.
Qed.

Section registry_spec.
Context `{Toml}.

(** A principals file is accepted exactly when no token is listed twice, and
    then a request authenticates as the principal of the entry that has its
    token, with that entry's name and scopes, and as nobody without a token or
    with one the file does not list.  Only a registry that was never configured
    lets a request without a token in. *)
Theorem principals_file_is_the_registry (s : string) (defs : list principal_def) :
  toml_from_str s = Ok defs →
  (parse_toml s = Err "duplicate token in auth file" ↔ ¬ NoDup (def_token <$> defs)) ∧
  (∀ a, parse_toml s = Ok a →
     a ≠ Disabled ∧ authenticate a None = None ∧
     ∀ t p, authenticate a (Some t) = Some p ↔
       ∃ d, d ∈ defs ∧ t = def_token d ∧ p = def_principal d).
Proof.
  intros Hs. unfold parse_toml. rewrite Hs. simpl. split.
  - split.
    + intros Herr Hnd. destruct (insert_defs_total ∅ defs Hnd) as [m Hm]; [done|].
      by rewrite Hm in Herr.
    + intros Hnd. destruct (insert_defs ∅ defs) as [m|e] eqn:E.
      * by apply insert_defs_ok in E as [? _].
      * simpl. f_equal. clear -E. revert E. generalize (∅ : gmap string Principal).
        induction defs as [|d defs IH]; intros m; simpl; [done|].
        case_decide; [by intros [= <-]|]. apply IH.
  - intros a. destruct (insert_defs ∅ defs) as [m|e] eqn:E; [|done].
    intros [= <-]. apply insert_defs_ok in E as (_ & _ & Hm). split_and!; [done..|].
    intros t p. simpl. rewrite Hm. setoid_rewrite lookup_empty. naive_solver.
Qed.
End registry_spec.

(** A file with two principals. *)
Definition sample_defs : list principal_def :=
  [mkDef "alice" "t1" ["memory"] ["memory"]; mkDef "ops" "t2" ["*"] ["*"]].

Lemma principals_file_is_the_registry_witness :
  ∃ a, @parse_toml (λ _, Ok sample_defs) "" = Ok a ∧ authenticate a None = None.
Proof.
  eexists. split; [reflexivity|].
  eapply (@principals_file_is_the_registry (λ _, Ok sample_defs) "" sample_defs);
    reflexivity.
Defined.

Section env_spec.
Context `{Toml}.

(** The daemon serves without authentication only when neither variable is
    set to something.  Once an auth file is named, nothing but the file decides:
    a file that cannot be read or parsed is an error, never a fall back to the
    token or to open mode, and a lone token makes one admin and lets nobody else
    in. *)
Theorem env_fails_closed (get : string → option string)
    (read_file : string → result string string) :
  let set n := ∃ v, get n = Some v ∧ v ≠ "" in
  (from_env get read_file = Ok Disabled ↔
     ¬ set "GONZALO_AUTH_FILE" ∧ ¬ set "GONZALO_TOKEN") ∧
  (∀ path, get "GONZALO_AUTH_FILE" = Some path → path ≠ "" →
     from_env get read_file = s ← read_file path; parse_toml s) ∧
  (∀ token, ¬ set "GONZALO_AUTH_FILE" → get "GONZALO_TOKEN" = Some token → token ≠ "" →
     ∃ a, from_env get read_file = Ok a ∧
       ∀ t p, authenticate a t = Some p ↔ t = Some token ∧ p = admin "root").
Proof.
  assert (∀ n, non_empty_var get n = None ↔ ¬ ∃ v, get n = Some v ∧ v ≠ "") as Hnone.
  { intros n. unfold non_empty_var. destruct (get n) as [v|]; simpl; [|naive_solver].
    case_decide; naive_solver. }
  cbv zeta. unfold from_env. split_and!.
  - rewrite <-!Hnone. destruct (non_empty_var get "GONZALO_AUTH_FILE") as [path|].
    + split; [|by intros [? _]]. destruct (read_file path) as [s|]; [simpl|done].
      unfold parse_toml. destruct (toml_from_str s) as [defs|]; [simpl|done].
      by destruct (insert_defs ∅ defs).
    + destruct (non_empty_var get "GONZALO_TOKEN"); naive_solver.
  - intros path Hp Hne. unfold non_empty_var at 1. rewrite Hp. simpl. by rewrite decide_False.
  - intros token Hf%Hnone Ht Hne. rewrite Hf. unfold non_empty_var. rewrite Ht. simpl.
    rewrite decide_False by done. eexists. split; [done|].
    intros [t|] p; simpl; [|naive_solver]. rewrite lookup_singleton_Some. naive_solver.
Qed.
End env_spec.
