(* ===== verification/Http.v ===== *)
(** * Http: the daemon's record and blob routes

    Models [gonzalo-server]'s [service.rs] (the record and blob operations and
    the guarded purge) and [http.rs]: the authentication middleware and the
    handlers of the record, replication, purge and blob routes.  A request is a
    matched route with its extracted arguments (routing and extraction are
    axum's); a response is a status and what its body carries.  The graph and
    ticket routes are added in [Routes], where what a request may change and show is
    stated over all of them. *)

From S2P Require Export Auth Stores.
From S2P Require Import SampleStores.

(** ** The service *)

Definition DEFAULT_MAX_BLOB_SIZE : N := 64 * 1024 * 1024.

Record Service (W : Type) := mkService {
  svc_store : Store W;
  svc_blobs : BlobStore W;
  svc_graph_root : option string;
  svc_max_blob_size : N
}.
Arguments mkService {W}.
Arguments svc_store {W}.
Arguments svc_blobs {W}.
Arguments svc_graph_root {W}.
Arguments svc_max_blob_size {W}.

Definition Service_new {W} (store : Store W) (blobs : BlobStore W) : Service W :=
  mkService store blobs None DEFAULT_MAX_BLOB_SIZE.

Definition with_max_blob_size {W} (svc : Service W) (n : N) : Service W :=
  mkService (svc_store svc) (svc_blobs svc) (svc_graph_root svc) n.

Section service.
Context {W : Type} (svc : Service W).

Definition svc_get_blob (hash : ContentHash) : M W CoreError (option bytes) :=
  bs_get_blob (svc_blobs svc) hash.
Definition svc_put_blob (content : bytes) : M W CoreError ContentHash :=
  bs_put_blob (svc_blobs svc) content.
Definition svc_list_blobs : M W CoreError (list BlobEntry) := bs_list_blobs (svc_blobs svc).
Definition svc_delete_blob (hash : ContentHash) : M W CoreError unit :=
  bs_delete_blob (svc_blobs svc) hash.
Definition svc_has_blob (hash : ContentHash) : M W CoreError bool :=
  bs_has_blob (svc_blobs svc) hash.

Definition svc_get (key : RecordKey) : M W CoreError (option record) :=
  st_get (svc_store svc) key.
Definition svc_put (r : record) (expected : option Revision) : M W CoreError PutResult :=
  st_put (svc_store svc) r expected.
Definition svc_list (prefix : KeyPrefix) : M W CoreError (list RecordKey) :=
  st_list (svc_store svc) prefix.
Definition svc_delete_as (key : RecordKey) (expected : option Revision)
    (author : option Identity) : M W CoreError DeleteResult :=
  st_delete_as (svc_store svc) key expected author.
Definition svc_get_raw (key : RecordKey) : M W CoreError (option record) :=
  st_get_raw (svc_store svc) key.
Definition svc_list_raw (prefix : KeyPrefix) : M W CoreError (list RecordKey) :=
  st_list_raw (svc_store svc) prefix.
Definition svc_put_raw (r : record) (expected : option Revision) : M W CoreError PutResult :=
  st_put_raw (svc_store svc) r expected.

(** [ready]: whether a point lookup of the sentinel key is answered. *)
Definition ready : W → bool * W := λ w,
  let '(r, w') := st_get (svc_store svc) (mkKey "_gonzalo" "_health" "_probe") w in
  (is_ok r, w').

Definition live_purge_refused (key : RecordKey) (current : record) : string :=
  key_to_string key +:+ " is live at revision "
  +:+ pretty (rev_counter (rec_revision current))
  +:+ "; purge only discards an existing tombstone. To remove the record use `gonzalo delete`: it keeps a restore window for manifest kinds, and purging that tombstone would discard it.".

Definition svc_purge (key : RecordKey) (expected : Revision) : M W CoreError DeleteResult :=
  current ← st_get_raw (svc_store svc) key;
  match current with
  | None => st_purge (svc_store svc) key expected
  | Some current =>
      if negb (is_tombstone current) && bool_decide (rec_revision current = expected)
      then throw (Invalid (live_purge_refused key current))
      else st_purge (svc_store svc) key expected
  end.
End service.

(** ** Responses *)

Inductive Payload :=
  | NoBody
  | Text (s : string)
  | TextForbidden (name : string) (access : Access) (namespace : string)
  | TextForbiddenAdmin (name operation : string)
  | JsonRecord (r : record)
  | JsonRawRecord (r : option record)
  | JsonPutOutcome (r : PutResult)
  | JsonDeleteOutcome (r : DeleteResult)
  | JsonKeys (keys : list RecordKey)
  | OctetStream (content : bytes)
  | JsonBlobEntries (entries : list BlobEntry).

Record Response := mkResponse { status : N; payload : Payload }.

Definition OK : N := 200.
Definition BAD_REQUEST : N := 400.
Definition UNAUTHORIZED : N := 401.
Definition FORBIDDEN : N := 403.
Definition NOT_FOUND : N := 404.
Definition CONFLICT : N := 409.
Definition PRECONDITION_FAILED : N := 412.
Definition INTERNAL_SERVER_ERROR : N := 500.
Definition SERVICE_UNAVAILABLE : N := 503.

Definition BLOB_NS : string := "_blobs".

Definition forbidden (p : Principal) (access : Access) (namespace : string) : Response :=
  mkResponse FORBIDDEN (TextForbidden (principal_name p) access namespace).

Definition forbidden_admin (p : Principal) (operation : string) : Response :=
  mkResponse FORBIDDEN (TextForbiddenAdmin (principal_name p) operation).

Definition path_key_mismatch (path : string * string * string) (key : RecordKey) :
    option Response :=
  let '(ns, col, id) := path in
  if bool_decide (ns ≠ key_namespace key) || bool_decide (col ≠ key_collection key)
     || bool_decide (id ≠ key_id key)
  then Some (mkResponse BAD_REQUEST (Text "URL path does not match record key"))
  else None.

Definition server_error {E} (_ : E) : Response :=
  mkResponse INTERNAL_SERVER_ERROR (Text "internal error").

Definition put_outcome_response (result : Result PutResult) : Response :=
  match result with
  | Ok (Committed revision) => mkResponse OK (JsonPutOutcome (Committed revision))
  | Ok (PutConflicted c) => mkResponse CONFLICT (JsonPutOutcome (PutConflicted c))
  | Err (NotFound key) =>
      mkResponse PRECONDITION_FAILED (Text ("record not found: " +:+ key_to_string key))
  | Err (Invalid reason) => mkResponse BAD_REQUEST (Text reason)
  | Err e => server_error e
  end.

Definition delete_outcome_response (result : Result DeleteResult) : Response :=
  match result with
  | Ok Deleted => mkResponse OK (JsonDeleteOutcome Deleted)
  | Ok (DeleteConflicted c) => mkResponse CONFLICT (JsonDeleteOutcome (DeleteConflicted c))
  | Err (Invalid reason) => mkResponse BAD_REQUEST (Text reason)
  | Err e => server_error e
  end.

Definition is_probe_path (path : string) : bool :=
  bool_decide (path = "/healthz") || bool_decide (path = "/readyz").

(** [str::strip_prefix]. *)
Fixpoint strip_prefix (p s : string) : option string :=
  match p, s with
  | "", s => Some s
  | String a p', String b s' => if decide (a = b) then strip_prefix p' s' else None
  | _, "" => None
  end.

(** The bearer token of an [authorization] header whose value is text. *)
Definition bearer (authorization : option string) : option string :=
  v ← authorization; strip_prefix "Bearer " v.

(** ** Requests *)

Record PutBody := mkPutBody { pb_record : record; pb_expected : option Revision }.
Record DeleteBody := mkDeleteBody { db_expected : option Revision; db_author : option Identity }.
Record ListQuery := mkListQuery { q_namespace : option string; q_collection : option string }.

(** [serde_json::from_slice] at [PurgeBody]. *)
Class PurgeSerde := purge_body_from_slice : bytes → result string Revision.

(** The matched route and what its extractors produced. *)
Inductive Request :=
  | Healthz
  | Readyz
  | GetRecord (ns col id : string)
  | PutRecord (path : string * string * string) (body : PutBody)
  | DeleteRecord (ns col id : string) (body : option DeleteBody)
  | ListKeys (q : ListQuery)
  | GetRawRecord (ns col id : string)
  | PutRawRecord (path : string * string * string) (body : PutBody)
  | ListRawKeys (q : ListQuery)
  | PurgeRecord (ns col id : string) (body : bytes)
  | GetBlob (hash : string)
  | HeadBlob (hash : string)
  | PutBlob (hash : string) (body : bytes)
  | DeleteBlob (hash : string)
  | ListBlobs.

Definition record_path (base ns col id : string) : string :=
  base +:+ ns +:+ "/" +:+ col +:+ "/" +:+ id.

Definition request_path (req : Request) : string :=
  match req with
  | Healthz => "/healthz"
  | Readyz => "/readyz"
  | GetRecord ns col id | DeleteRecord ns col id _ => record_path "/v1/records/" ns col id
  | PutRecord (ns, col, id) _ => record_path "/v1/records/" ns col id
  | ListKeys _ => "/v1/keys"
  | GetRawRecord ns col id => record_path "/v1/raw/records/" ns col id
  | PutRawRecord (ns, col, id) _ => record_path "/v1/raw/records/" ns col id
  | ListRawKeys _ => "/v1/raw/keys"
  | PurgeRecord ns col id _ => record_path "/v1/purge/" ns col id
  | GetBlob h | HeadBlob h | PutBlob h _ | DeleteBlob h => "/v1/blobs/" +:+ h
  | ListBlobs => "/v1/blobs"
  end.

(** ** Handlers *)

Section handlers.
Context `{Blake3} `{PurgeSerde} {W : Type} (svc : Service W).

Definition healthz : W → Response * W := λ w, (mkResponse OK (Text "ok"), w).

Definition readyz : W → Response * W := λ w,
  let '(r, w') := ready svc w in
  (if r then mkResponse OK (Text "ready")
   else mkResponse SERVICE_UNAVAILABLE (Text "not ready"), w').

Definition get_record (p : Principal) (ns col id : string) : W → Response * W := λ w,
  if negb (allows p Read ns) then (forbidden p Read ns, w)
  else match svc_get svc (mkKey ns col id) w with
       | (Ok (Some rec), w') => (mkResponse OK (JsonRecord rec), w')
       | (Ok None, w') => (mkResponse NOT_FOUND NoBody, w')
       | (Err e, w') => (server_error e, w')
       end.

(** [body.record.meta.author = ...]. *)
Definition stamp_author (p : Principal) (r : record) : record :=
  if principal_authenticated p
  then set_meta r (set_author (rec_meta r) (Identity_new (principal_name p)))
  else r.

Definition put_record (p : Principal) (path : string * string * string) (body : PutBody) :
    W → Response * W := λ w,
  match path_key_mismatch path (rec_key (pb_record body)) with
  | Some bad => (bad, w)
  | None =>
      let ns := key_namespace (rec_key (pb_record body)) in
      if negb (allows p Write ns) then (forbidden p Write ns, w)
      else let '(res, w') := svc_put svc (stamp_author p (pb_record body))
                               (pb_expected body) w in
           (put_outcome_response res, w')
  end.

Definition delete_record (p : Principal) (ns col id : string) (body : option DeleteBody) :
    W → Response * W := λ w,
  if negb (allows p Write ns) then (forbidden p Write ns, w)
  else
    let '(expected, claimed) := match body with
                                | Some b => (db_expected b, db_author b)
                                | None => (None, None)
                                end in
    let author := delete_author p claimed in
    let '(res, w') := svc_delete_as svc (mkKey ns col id) expected author w in
    (delete_outcome_response res, w').

Definition list_prefix (p : Principal) (q : ListQuery) : result Response KeyPrefix :=
  let ns := default "*" (q_namespace q) in
  if negb (allows p Read ns) then Err (forbidden p Read ns)
  else Ok (mkPrefix (q_namespace q) (q_collection q)).

Definition listing (p : Principal) (q : ListQuery)
    (list : KeyPrefix → M W CoreError (list RecordKey)) : W → Response * W := λ w,
  match list_prefix p q with
  | Err denied => (denied, w)
  | Ok prefix =>
      match list prefix w with
      | (Ok keys, w') => (mkResponse OK (JsonKeys keys), w')
      | (Err e, w') => (server_error e, w')
      end
  end.

Definition list_keys (p : Principal) (q : ListQuery) : W → Response * W :=
  listing p q (svc_list svc).

Definition get_raw_record (p : Principal) (ns col id : string) : W → Response * W := λ w,
  if negb (allows p Read ns) then (forbidden p Read ns, w)
  else match svc_get_raw svc (mkKey ns col id) w with
       | (Ok rec, w') => (mkResponse OK (JsonRawRecord rec), w')
       | (Err e, w') => (server_error e, w')
       end.

Definition put_raw_record (p : Principal) (path : string * string * string) (body : PutBody) :
    W → Response * W := λ w,
  if negb (is_admin p) then (forbidden_admin p "a raw record write", w)
  else match path_key_mismatch path (rec_key (pb_record body)) with
       | Some bad => (bad, w)
       | None =>
           let '(res, w') := svc_put_raw svc (pb_record body) (pb_expected body) w in
           (put_outcome_response res, w')
       end.

Definition list_raw_keys (p : Principal) (q : ListQuery) : W → Response * W :=
  listing p q (svc_list_raw svc).

Definition purge_record (p : Principal) (ns col id : string) (body : bytes) :
    W → Response * W := λ w,
  if negb (is_admin p) then (forbidden_admin p "purge", w)
  else match purge_body_from_slice body with
       | Err e => (mkResponse BAD_REQUEST (Text ("invalid purge body: " +:+ e)), w)
       | Ok expected =>
           let '(res, w') := svc_purge svc (mkKey ns col id) expected w in
           (delete_outcome_response res, w')
       end.

Definition get_blob (p : Principal) (hash : string) : W → Response * W := λ w,
  if negb (allows p Read BLOB_NS) then (forbidden p Read BLOB_NS, w)
  else match svc_get_blob svc (mkHash hash) w with
       | (Ok (Some content), w') => (mkResponse OK (OctetStream content), w')
       | (Ok None, w') => (mkResponse NOT_FOUND NoBody, w')
       | (Err e, w') => (server_error e, w')
       end.

Definition head_blob (p : Principal) (hash : string) : W → Response * W := λ w,
  if negb (allows p Read BLOB_NS) then (forbidden p Read BLOB_NS, w)
  else match svc_has_blob svc (mkHash hash) w with
       | (Ok true, w') => (mkResponse OK NoBody, w')
       | (Ok false, w') => (mkResponse NOT_FOUND NoBody, w')
       | (Err e, w') => (server_error e, w')
       end.

Definition put_blob (p : Principal) (hash : string) (body : bytes) : W → Response * W := λ w,
  if negb (allows p Write BLOB_NS) then (forbidden p Write BLOB_NS, w)
  else
    let computed := ContentHash_of body in
    if bool_decide (hash_hex computed ≠ hash)
    then (mkResponse BAD_REQUEST (Text "blob content does not match the URL hash"), w)
    else match svc_put_blob svc body w with
         | (Ok _, w') => (mkResponse OK NoBody, w')
         | (Err e, w') => (server_error e, w')
         end.

Definition delete_blob (p : Principal) (hash : string) : W → Response * W := λ w,
  if negb (allows p Write BLOB_NS) then (forbidden p Write BLOB_NS, w)
  else match svc_delete_blob svc (mkHash hash) w with
       | (Ok _, w') => (mkResponse OK NoBody, w')
       | (Err e, w') => (server_error e, w')
       end.

Definition list_blobs (p : Principal) : W → Response * W := λ w,
  if negb (allows p Read BLOB_NS) then (forbidden p Read BLOB_NS, w)
  else match svc_list_blobs svc w with
       | (Ok entries, w') => (mkResponse OK (JsonBlobEntries entries), w')
       | (Err e, w') => (server_error e, w')
       end.

(** The [Extension<Principal>] extractor: a handler that needs the principal is
    not run without one. *)
Definition with_principal (p : option Principal) (f : Principal → W → Response * W) :
    W → Response * W :=
  match p with
  | Some p => f p
  | None => λ w, (mkResponse INTERNAL_SERVER_ERROR
      (Text "Missing request extension"), w)
  end.

Definition handle (p : option Principal) (req : Request) : W → Response * W :=
  match req with
  | Healthz => healthz
  | Readyz => readyz
  | GetRecord ns col id => with_principal p (λ p, get_record p ns col id)
  | PutRecord path body => with_principal p (λ p, put_record p path body)
  | DeleteRecord ns col id body => with_principal p (λ p, delete_record p ns col id body)
  | ListKeys q => with_principal p (λ p, list_keys p q)
  | GetRawRecord ns col id => with_principal p (λ p, get_raw_record p ns col id)
  | PutRawRecord path body => with_principal p (λ p, put_raw_record p path body)
  | ListRawKeys q => with_principal p (λ p, list_raw_keys p q)
  | PurgeRecord ns col id body => with_principal p (λ p, purge_record p ns col id body)
  | GetBlob h => with_principal p (λ p, get_blob p h)
  | HeadBlob h => with_principal p (λ p, head_blob p h)
  | PutBlob h body => with_principal p (λ p, put_blob p h body)
  | DeleteBlob h => with_principal p (λ p, delete_blob p h)
  | ListBlobs => with_principal p list_blobs
  end.

(** The middleware around the routes. *)
Definition router (auth : Auth) (authorization : option string) (req : Request) :
    W → Response * W := λ w,
  if is_probe_path (request_path req) then handle None req w
  else match authenticate auth (bearer authorization) with
       | Some principal => handle (Some principal) req w
       | None => (mkResponse UNAUTHORIZED NoBody, w)
       end.
End handlers.

(** ** What a request may change

    [change p] relates what is stored before and after a request by [p]: each
    constructor is one way to change it, with what [p] must hold. *)

Section changes.
Context `{Blake3}.
Abbreviation blobs := (gmap ContentHash (bytes * Z)).

Inductive change (cap : nat) (p : Principal) (m : records) (b : blobs) :
    records → blobs → Prop :=
  | change_nothing : change cap p m b m b
  | change_put r e now s :
      allows p Write (key_namespace (rec_key r)) = true →
      (principal_authenticated p = true →
         meta_author (rec_meta r) = Identity_new (principal_name p)) →
      plan_put (m !! rec_key r) r e now cap = PutWrite s →
      change cap p m b (<[rec_key r := s]> m) b
  | change_delete k c now claimed :
      allows p Write (key_namespace k) = true →
      m !! k = Some c → is_tombstone c = false →
      change cap p m b (<[k := tombstone_of c now cap (delete_author p claimed)]> m) b
  | change_put_raw r e now s :
      is_admin p = true →
      plan_put_raw (m !! rec_key r) r e now cap = PutWrite s →
      change cap p m b (<[rec_key r := s]> m) b
  | change_purge k c :
      is_admin p = true → m !! k = Some c → is_tombstone c = true →
      change cap p m b (delete k m) b
  | change_put_blob h c :
      allows p Write BLOB_NS = true → h = ContentHash_of c.1 → b !! h = None →
      change cap p m b m (<[h := c]> b)
  | change_delete_blob h :
      allows p Write BLOB_NS = true → change cap p m b m (delete h b).

End changes.

(** *** What a change leaves alone *)

Section change_lemmas.
Context `{Blake3} {cap : nat} {p : Principal} {m m' : records}.
Context {b b' : gmap ContentHash (bytes * Z)}.

Lemma change_within_scope ns :
  change cap p m b m' b' → allows p Write ns = false →
  (∀ k, key_namespace k = ns → m' !! k = m !! k) ∧ (ns = BLOB_NS → b' = b).
Proof.
  intros Hch Hns. assert (is_admin p = false) as Hadm.
  { apply not_true_iff_false. rewrite is_admin_spec. intros Hall. by rewrite Hall in Hns. }
  destruct Hch; split; try congruence; try done; intros k' <-;
    rewrite ?lookup_insert_ne by congruence; done.
Qed.

Lemma change_author k :
  change cap p m b m' b' → principal_authenticated p = true → is_admin p = false →
  m' !! k ≠ m !! k →
  ∃ r, m' !! k = Some r ∧ meta_author (rec_meta r) = Identity_new (principal_name p).
Proof.
  intros Hch Hauth Hadm Hne.
  destruct Hch as [|r e now s Ha Hs Hplan|k1 c now claimed Ha Hc Hlive|r e now s Ha|k1 c Ha| |];
    try congruence.
  - destruct (decide (k = rec_key r)) as [->|]; [|by rewrite lookup_insert_ne in Hne].
    exists s. rewrite lookup_insert_eq. split; [done|]. rewrite <-(Hs Hauth).
    apply plan_put_lands in Hplan as [_ []]; reflexivity.
  - destruct (decide (k = k1)) as [->|]; [|by rewrite lookup_insert_ne in Hne].
    eexists. rewrite lookup_insert_eq. split; [done|]. unfold delete_author. rewrite Hadm. done.
Qed.

Lemma change_manifest_tombstone k t kind :
  change cap p m b m' b' → is_admin p = false →
  m !! k = Some t → is_tombstone t = true →
  rec_deleted_kind t = Some kind → is_manifest_kind kind = true → m' !! k = Some t.
Proof.
  intros Hch Hadm Hk Ht Hkind Hman.
  destruct Hch as [|r e now s Ha Hs Hplan|k1 c now claimed Ha Hc Hlive|r e now s Ha|k1 c Ha| |];
    try congruence.
  - destruct (decide (k = rec_key r)) as [->|]; [|by rewrite lookup_insert_ne].
    rewrite Hk in Hplan. unfold plan_put in Hplan. rewrite Ht, Hkind, Hman in Hplan.
    by destruct (is_tombstone r), e.
  - by rewrite lookup_insert_ne by congruence.
Qed.

Lemma change_removal k c :
  change cap p m b m' b' → m !! k = Some c → m' !! k = None →
  is_admin p = true ∧ is_tombstone c = true.
Proof.
  intros Hch Hk Hnone. destruct Hch as [|?????|??????|?????|k1 c1 Ha Hc Ht| |]; try congruence.
  - by apply lookup_insert_None in Hnone as [? _]; congruence.
  - by apply lookup_insert_None in Hnone as [? _]; congruence.
  - by apply lookup_insert_None in Hnone as [? _]; congruence.
  - apply lookup_delete_None in Hnone as [->|?]; [|congruence].
    split; [done|]. congruence.
Qed.
End change_lemmas.

(** *** What the routes need of the stores

    The contract of [Stores], at the keys that [kok] holds of and the hashes that
    [hok] holds of.  [FsStore] keeps it at keys with a path of their own
    ([FsLayout.key_ok]) and at hashes of the right shape ([FsBlobs]); any other hash
    it joins to its directory unchecked, where it may name a record's file. *)

Section route_laws.
Context `{Blake3} {W F : Type}.

Class RouteLaws (svc : Service W) (contents : W → records)
    (bl : W → gmap ContentHash (bytes * Z)) (rest : W → F) (cap : nat)
    (kok : RecordKey → Prop) (hok : string → Prop) := {
  route_probe : kok (mkKey "_gonzalo" "_health" "_probe");
  route_get k w : kok k → ∃ w',
    st_get (svc_store svc) k w = (Ok (live (contents w !! k)), w') ∧
    contents w' = contents w ∧ (bl w', rest w') = (bl w, rest w);
  route_get_raw k w : kok k → ∃ w',
    st_get_raw (svc_store svc) k w = (Ok (contents w !! k), w') ∧
    contents w' = contents w ∧ (bl w', rest w') = (bl w, rest w);
  route_list p w : keyed (contents w) → ∃ l w',
    st_list (svc_store svc) p w = (Ok l, w') ∧ contents w' = contents w ∧
    (bl w', rest w') = (bl w, rest w) ∧
    ∀ k, k ∈ l ↔ is_Some (live (contents w !! k)) ∧ prefix_matches p k = true;
  route_list_raw p w : keyed (contents w) → ∃ l w',
    st_list_raw (svc_store svc) p w = (Ok l, w') ∧ contents w' = contents w ∧
    (bl w', rest w') = (bl w, rest w) ∧
    ∀ k, k ∈ l ↔ is_Some (contents w !! k) ∧ prefix_matches p k = true;
  route_put r e w : kok (rec_key r) → ∃ now res w',
    st_put (svc_store svc) r e w = (res, w') ∧ (bl w', rest w') = (bl w, rest w) ∧
    (res, contents w') =
      apply_put (plan_put (contents w !! rec_key r) r e now cap) (rec_key r) (contents w);
  route_put_raw r e w : kok (rec_key r) → ∃ now res w',
    st_put_raw (svc_store svc) r e w = (res, w') ∧ (bl w', rest w') = (bl w, rest w) ∧
    (res, contents w') =
      apply_put (plan_put_raw (contents w !! rec_key r) r e now cap) (rec_key r) (contents w);
  route_delete_as k e a w : kok k → ∃ now res w',
    st_delete_as (svc_store svc) k e a w = (res, w') ∧ (bl w', rest w') = (bl w, rest w) ∧
    (res, contents w') =
      apply_delete (plan_delete (contents w !! k) e now cap a) k (contents w);
  route_purge k e w : kok k → ∃ res w',
    st_purge (svc_store svc) k e w = (res, w') ∧ (bl w', rest w') = (bl w, rest w) ∧
    (res, contents w') = apply_purge (plan_purge (contents w !! k) e) k (contents w);
  route_put_blob content w : ∃ w' t,
    bs_put_blob (svc_blobs svc) content w = (Ok (ContentHash_of content), w') ∧
    contents w' = contents w ∧
    bl w' = match bl w !! ContentHash_of content with
            | Some _ => bl w
            | None => <[ContentHash_of content := (content, t)]> (bl w)
            end;
  route_get_blob_reads h w :
    contents (bs_get_blob (svc_blobs svc) h w).2 = contents w ∧
    bl (bs_get_blob (svc_blobs svc) h w).2 = bl w;
  route_get_blob h w : hok h →
    (bs_get_blob (svc_blobs svc) (mkHash h) w).1 = Ok (fst <$> bl w !! mkHash h);
  route_has_blob h w : hok h → ∃ res w',
    bs_has_blob (svc_blobs svc) (mkHash h) w = (res, w') ∧
    contents w' = contents w ∧ bl w' = bl w;
  route_list_blobs w : ∃ l w',
    bs_list_blobs (svc_blobs svc) w = (Ok l, w') ∧ contents w' = contents w ∧ bl w' = bl w ∧
    ∀ e, e ∈ l → is_Some (bl w !! be_hash e);
  route_delete_blob h w : hok h → ∃ w',
    bs_delete_blob (svc_blobs svc) (mkHash h) w = (Ok tt, w') ∧ contents w' = contents w ∧
    bl w' = delete (mkHash h) (bl w)
}.

(** A store and a blob store that keep the whole contract. *)
#[export] Instance lawful_routes (svc : Service W) contents bl (rest : W → F) cap kok hok
    `{!StoreLaws (svc_store svc) contents cap (λ w, (bl w, rest w))}
    `{!BlobStoreLaws (svc_blobs svc) bl (λ w, (contents w, rest w))} :
  kok (mkKey "_gonzalo" "_health" "_probe") → RouteLaws svc contents bl rest cap kok hok.
Proof.
  intros Hp. split; [done|..].
  - intros k w _. exact (law_get k w).
  - intros k w _. exact (law_get_raw k w).
  - intros p w Hk. destruct (law_list p w Hk) as (l & w' & ? & ? & ? & _ & ?). eauto 10.
  - intros p w Hk. destruct (law_list_raw p w Hk) as (l & w' & ? & ? & ? & _ & ?). eauto 10.
  - intros r e w _. exact (law_put r e w).
  - intros r e w _. exact (law_put_raw r e w).
  - intros k e a w _. exact (law_delete_as k e a w).
  - intros k e w _. exact (law_purge k e w).
  - intros c w. destruct (law_put_blob c w) as (w' & t & ? & [= ? _] & ?). eauto.
  - intros h w. by destruct (law_get_blob h w) as (w' & -> & [= ? _] & ?).
  - intros h w _. by destruct (law_get_blob (mkHash h) w) as (w' & -> & _).
  - intros h w _. destruct (law_has_blob (mkHash h) w) as (w' & ? & [= ? _] & ?). eauto.
  - intros w. destruct (law_list_blobs w) as (l & w' & ? & [= ? _] & ? & Hin & _).
    exists l, w'. split_and!; [done..|]. intros e He. apply Hin. eauto.
  - intros h w _. destruct (law_delete_blob (mkHash h) w) as (w' & ? & [= ? _] & ?). eauto.
Qed.
End route_laws.

(** The key or the hash in a request's path. *)
Definition addressed (kok : RecordKey → Prop) (hok : string → Prop) (req : Request) : Prop :=
  match req with
  | GetRecord ns col id | DeleteRecord ns col id _ | GetRawRecord ns col id
  | PurgeRecord ns col id _ | PutRecord (ns, col, id) _ | PutRawRecord (ns, col, id) _ =>
      kok (mkKey ns col id)
  | GetBlob h | HeadBlob h | DeleteBlob h => hok h
  | _ => True
  end.

Section handler_changes.
Context `{Blake3} `{PurgeSerde} {W F : Type} (svc : Service W).
Context (contents : W → records) (bl : W → gmap ContentHash (bytes * Z)) (rest : W → F).
Context (cap : nat) (kok : RecordKey → Prop) (hok : string → Prop).
Context `{!RouteLaws svc contents bl rest cap kok hok}.
Implicit Types w : W.

Definition changed (p : Principal) w w' : Prop :=
  change cap p (contents w) (bl w) (contents w') (bl w').

Lemma changed_same p w w' : contents w' = contents w → bl w' = bl w → changed p w w'.
Proof. unfold changed. intros -> ->. constructor. Qed.

Lemma put_changed p r e w res w' :
  allows p Write (key_namespace (rec_key r)) = true →
  (principal_authenticated p = true →
     meta_author (rec_meta r) = Identity_new (principal_name p)) →
  kok (rec_key r) → st_put (svc_store svc) r e w = (res, w') → changed p w w'.
Proof.
  intros Ha Hs Hok Hrun. destruct (route_put r e w Hok) as (now & res' & w2 & Hrun' & Hf & Heq).
  rewrite Hrun in Hrun'. injection Hrun' as <- <-. injection Hf as Hb _.
  unfold changed. rewrite Hb.
  destruct (plan_put _ _ _ _ _) eqn:Hp; injection Heq as _ ->; [|constructor..].
  by eapply change_put.
Qed.

Lemma put_raw_changed p r e w res w' :
  is_admin p = true → kok (rec_key r) → st_put_raw (svc_store svc) r e w = (res, w') →
  changed p w w'.
Proof.
  intros Ha Hok Hrun. destruct (route_put_raw r e w Hok) as (now & res' & w2 & Hrun' & Hf & Heq).
  rewrite Hrun in Hrun'. injection Hrun' as <- <-. injection Hf as Hb _.
  unfold changed. rewrite Hb.
  destruct (plan_put_raw _ _ _ _ _) eqn:Hp; injection Heq as _ ->; [|constructor..].
  by eapply change_put_raw.
Qed.

Lemma delete_changed p k e claimed w res w' :
  allows p Write (key_namespace k) = true → kok k →
  st_delete_as (svc_store svc) k e (delete_author p claimed) w = (res, w') → changed p w w'.
Proof.
  intros Ha Hok Hrun. destruct (route_delete_as k e (delete_author p claimed) w Hok)
    as (now & res' & w2 & Hrun' & Hf & Heq).
  rewrite Hrun in Hrun'. injection Hrun' as <- <-. injection Hf as Hb _.
  unfold changed. rewrite Hb.
  destruct (plan_delete _ _ _ _ _) eqn:Hp; injection Heq as _ ->; [|constructor..].
  apply plan_delete_write in Hp as (c & Hc & Hlive & _ & ->). by constructor.
Qed.

(** The guarded purge removes tombstones only. *)
Lemma svc_purge_run k e w : kok k → ∃ res w',
  svc_purge svc k e w = (res, w') ∧ bl w' = bl w ∧ rest w' = rest w ∧
  match contents w !! k with
  | None => res = Ok Deleted ∧ contents w' = contents w
  | Some c =>
      if decide (rec_revision c = e) then
        if is_tombstone c then res = Ok Deleted ∧ contents w' = delete k (contents w)
        else res = Err (Invalid (live_purge_refused k c)) ∧ contents w' = contents w
      else (∃ cf, res = Ok (DeleteConflicted cf) ∧ cf_current cf = c) ∧
           contents w' = contents w
  end.
Proof.
  intros Hok. unfold svc_purge. destruct (route_get_raw k w Hok) as (w1 & Hget & Hc & Hf).
  injection Hf as Hb Hr. destruct (route_purge k e w1 Hok) as (res & w2 & Hrun & Hf2 & Heq).
  injection Hf2 as Hb2 Hr2. rewrite (bind_ok _ _ _ _ _ Hget). rewrite Hc in Heq.
  destruct (contents w !! k) as [c|].
  2: { injection Heq as -> Hc2. exists (Ok Deleted), w2. by rewrite Hrun, Hb2, Hr2. }
  unfold plan_purge in Heq. destruct (decide (rec_revision c = e)) as [He|He].
  - rewrite (bool_decide_eq_true_2 _ He), andb_true_r.
    destruct (is_tombstone c) eqn:Ht; simpl; [|by eexists _, w1].
    simpl in Heq. injection Heq as -> Hc2. exists (Ok Deleted), w2.
    by rewrite Hrun, Hb2, Hr2.
  - rewrite (bool_decide_eq_false_2 _ He), andb_false_r. injection Heq as -> Hc2.
    eexists _, w2. rewrite Hrun, Hb2, Hr2, Hc2. naive_solver.
Qed.

Lemma purge_changed p k e w res w' :
  is_admin p = true → kok k → svc_purge svc k e w = (res, w') → changed p w w'.
Proof.
  intros Ha Hok Hrun. destruct (svc_purge_run k e w Hok) as (res' & w2 & Hrun' & Hb & _ & Hm).
  rewrite Hrun in Hrun'. injection Hrun' as <- <-. unfold changed. rewrite Hb.
  destruct (contents w !! k) as [c|] eqn:Hk; [|destruct Hm as [_ ->]; constructor].
  case_decide; [|destruct Hm as [_ ->]; constructor].
  destruct (is_tombstone c) eqn:Ht; destruct Hm as [_ ->]; [|constructor].
  by eapply change_purge.
Qed.

Lemma listing_changed p q list w w' resp :
  (∀ prefix, ∃ res w1, list prefix w = (res, w1) ∧ contents w1 = contents w ∧ bl w1 = bl w) →
  listing p q list w = (resp, w') → changed p w w'.
Proof.
  intros Hl. unfold listing. destruct (list_prefix p q) as [prefix|]; [|intros [= _ <-]; constructor].
  destruct (Hl prefix) as (res & w1 & -> & Hc & Hb).
  destruct res; intros [= _ <-]; by apply changed_same.
Qed.

Lemma key_mismatch_None path key : path_key_mismatch path key = None ↔
  path = (key_namespace key, key_collection key, key_id key).
Proof.
  destruct path as [[ns col] id], key as [ns' col' id']. simpl. repeat case_bool_decide; naive_solver.
Qed.

Lemma handle_reads_changed p req w resp w' :
  keyed (contents w) → addressed kok hok req →
  match req with
  | PutRecord _ _ | DeleteRecord _ _ _ _ | PutRawRecord _ _ | PurgeRecord _ _ _ _
  | PutBlob _ _ | DeleteBlob _ => False
  | _ => True
  end →
  handle svc (Some p) req w = (resp, w') → changed p w w'.
Proof.
  intros Hk Hok Hreq. destruct req; simpl in *; try done.
  - intros [= _ <-]. constructor.
  - unfold readyz, ready. destruct (route_get (mkKey "_gonzalo" "_health" "_probe") w route_probe)
      as (w1 & -> & Hc & [= Hb _]). intros [= _ <-]. by apply changed_same.
  - unfold get_record, svc_get. destruct (allows _ _ _); [|intros [= _ <-]; constructor]. simpl.
    destruct (route_get (mkKey ns col id) w Hok) as (w1 & -> & Hc & [= Hb _]).
    destruct (live _); intros [= _ <-]; by apply changed_same.
  - apply listing_changed. intros prefix.
    destruct (route_list prefix w Hk) as (l & w1 & ? & ? & [= ? _] & _). eauto.
  - unfold get_raw_record, svc_get_raw.
    destruct (allows _ _ _); [|intros [= _ <-]; constructor]. simpl.
    destruct (route_get_raw (mkKey ns col id) w Hok) as (w1 & -> & Hc & [= Hb _]).
    intros [= _ <-]; by apply changed_same.
  - apply listing_changed. intros prefix.
    destruct (route_list_raw prefix w Hk) as (l & w1 & ? & ? & [= ? _] & _). eauto.
  - unfold get_blob, svc_get_blob. destruct (allows _ _ _); [|intros [= _ <-]; constructor]. simpl.
    destruct (route_get_blob_reads (mkHash hash) w) as [Hc Hb].
    destruct (bs_get_blob _ _ w) as [[[|]|] w1]; intros [= _ <-]; by apply changed_same.
  - unfold head_blob, svc_has_blob.
    destruct (allows _ _ _); [|intros [= _ <-]; constructor]. simpl.
    destruct (route_has_blob hash w Hok) as ([[]|] & w1 & -> & Hc & Hb); intros [= _ <-]; by apply changed_same.
  - unfold list_blobs, svc_list_blobs.
    destruct (allows _ _ _); [|intros [= _ <-]; constructor]. simpl.
    destruct (route_list_blobs w) as (l & w1 & -> & Hc & Hb & _).
    intros [= _ <-]; by apply changed_same.
Qed.

Lemma stamp_author_key p r : rec_key (stamp_author p r) = rec_key r.
Proof. unfold stamp_author. by destruct (principal_authenticated p). Qed.

Lemma addressed_body (path : string * string * string) key :
  path_key_mismatch path key = None →
  (let '(ns, col, id) := path in kok (mkKey ns col id)) → kok key.
Proof. intros ->%key_mismatch_None. by destruct key. Qed.

Lemma handle_changed p req w resp w' :
  keyed (contents w) → addressed kok hok req →
  handle svc (Some p) req w = (resp, w') → changed p w w'.
Proof.
  intros Hk Hok Hrun.
  destruct req; try (by eapply (handle_reads_changed p); [done|exact Hok| |exact Hrun]);
    simpl in Hrun, Hok.
  - unfold put_record, svc_put in Hrun.
    destruct (path_key_mismatch _ _) eqn:Hm; [injection Hrun as _ <-; constructor|].
    destruct (allows p Write _) eqn:Ha; [|injection Hrun as _ <-; constructor]. simpl in Hrun.
    destruct (st_put _ _ _ _) as [res w1] eqn:E. injection Hrun as _ <-.
    eapply put_changed; [| | |exact E]; [by rewrite stamp_author_key| |
      rewrite stamp_author_key; by eapply addressed_body].
    intros Hauth. unfold stamp_author. by rewrite Hauth.
  - unfold delete_record, svc_delete_as in Hrun.
    destruct (allows p Write _) eqn:Ha; [|injection Hrun as _ <-; constructor]. simpl in Hrun.
    destruct body as [bd|]; destruct (st_delete_as _ _ _ _ _) as [res w1] eqn:E;
      injection Hrun as _ <-; by eapply delete_changed in E.
  - unfold put_raw_record, svc_put_raw in Hrun.
    destruct (is_admin p) eqn:Ha; [|injection Hrun as _ <-; constructor]. simpl in Hrun.
    destruct (path_key_mismatch _ _) eqn:Hm; [injection Hrun as _ <-; constructor|].
    destruct (st_put_raw _ _ _ _) as [res w1] eqn:E. injection Hrun as _ <-.
    eapply put_raw_changed in E; [done..|]. by eapply addressed_body.
  - unfold purge_record in Hrun.
    destruct (is_admin p) eqn:Ha; [|injection Hrun as _ <-; constructor]. simpl in Hrun.
    destruct (purge_body_from_slice body); [|injection Hrun as _ <-; constructor].
    destruct (svc_purge _ _ _ _) as [res w1] eqn:E. injection Hrun as _ <-.
    by eapply purge_changed in E.
  - unfold put_blob, svc_put_blob in Hrun.
    destruct (allows p Write _) eqn:Ha; [|injection Hrun as _ <-; constructor]. simpl in Hrun.
    case_bool_decide; [injection Hrun as _ <-; constructor|].
    destruct (route_put_blob body w) as (w1 & t & E & Hc & Hb). rewrite E in Hrun.
    injection Hrun as _ <-. unfold changed. rewrite Hc, Hb.
    destruct (bl w !! ContentHash_of body) eqn:Hh; [constructor|]. by constructor.
  - unfold delete_blob, svc_delete_blob in Hrun.
    destruct (allows p Write _) eqn:Ha; [|injection Hrun as _ <-; constructor]. simpl in Hrun.
    destruct (route_delete_blob hash w Hok) as (w1 & E & Hc & Hb). rewrite E in Hrun.
    injection Hrun as _ <-. unfold changed. rewrite Hc, Hb. by constructor.
Qed.
End handler_changes.

(** ** Scopes *)

(** What a response shows of the record store and of the blobs. *)
Definition shown_records (pl : Payload) : list record :=
  match pl with
  | JsonRecord r | JsonRawRecord (Some r) => [r]
  | JsonPutOutcome (PutConflicted c) | JsonDeleteOutcome (DeleteConflicted c) =>
      [cf_current c]
  | _ => []
  end.

Definition shown_keys (pl : Payload) : list RecordKey :=
  match pl with JsonKeys keys => keys | _ => [] end.

Definition shows_blobs (pl : Payload) : bool :=
  match pl with OctetStream _ | JsonBlobEntries _ => true | _ => false end.

(** The replication routes. *)
Definition is_raw_route (req : Request) : bool :=
  match req with
  | GetRawRecord _ _ _ | PutRawRecord _ _ | ListRawKeys _ | PurgeRecord _ _ _ _ => true
  | _ => false
  end.

(** The routes that may answer with the record a precondition lost against. *)
Definition is_conditional_write (req : Request) : bool :=
  match req with PutRecord _ _ | DeleteRecord _ _ _ _ => true | _ => false end.

Lemma request_path_probe req :
  is_probe_path (request_path req) = true ↔ req = Healthz ∨ req = Readyz.
Proof.
  split; [|by intros [->| ->]].
  destruct req as [| | | [[] ?] | | | | [[] ?] | | | | | | |]; simpl; try discriminate; auto.
Qed.

Section scopes.
Context `{Blake3} `{PurgeSerde} {W F : Type} (svc : Service W).
Context (contents : W → records) (bl : W → gmap ContentHash (bytes * Z)) (rest : W → F).
Context (cap : nat) (kok : RecordKey → Prop) (hok : string → Prop).
Context `{!RouteLaws svc contents bl rest cap kok hok}.
Implicit Types w : W.

Lemma router_changed auth hdr req w resp w' :
  keyed (contents w) → addressed kok hok req → router svc auth hdr req w = (resp, w') →
  (contents w' = contents w ∧ bl w' = bl w) ∨
  ∃ p, authenticate auth (bearer hdr) = Some p ∧
       changed contents bl cap p w w'.
Proof.
  intros Hk Hok. unfold router. destruct (is_probe_path (request_path req)) eqn:Hprobe.
  - apply request_path_probe in Hprobe as [->| ->]; simpl; [intros [= _ <-]; by left|].
    unfold readyz, ready. destruct (route_get (mkKey "_gonzalo" "_health" "_probe") w route_probe)
      as (w1 & -> & Hc & [= Hb _]). intros [= _ <-]. by left.
  - destruct (authenticate _ _) as [p|]; [|intros [= _ <-]; by left].
    intros Hrun. right. exists p. split; [done|]. by eapply handle_changed.
Qed.

(** *** What a response shows *)

(** Blob contents and hashes come from the blobs. *)
Definition blobs_of_store (req : Request) w (pl : Payload) : Prop :=
  match pl with
  | OctetStream c => ∃ h t, req = GetBlob h ∧ bl w !! mkHash h = Some (c, t)
  | JsonBlobEntries l => ∀ e, e ∈ l → is_Some (bl w !! be_hash e)
  | _ => True
  end.

Definition shows_within (p : Principal) (req : Request) w (pl : Payload) : Prop :=
  (∀ r, r ∈ shown_records pl →
     contents w !! rec_key r = Some r ∧
     (allows p Read (key_namespace (rec_key r)) = true ∨
      is_conditional_write req = true ∧
      allows p Write (key_namespace (rec_key r)) = true) ∧
     (is_tombstone r = true → is_raw_route req = true)) ∧
  (∀ k, k ∈ shown_keys pl →
     allows p Read (key_namespace k) = true ∧
     ∃ r, contents w !! k = Some r ∧ (is_tombstone r = true → is_raw_route req = true)) ∧
  (shows_blobs pl = true → allows p Read BLOB_NS = true ∧ blobs_of_store req w pl).

Lemma shows_nothing p req w pl :
  shown_records pl = [] → shown_keys pl = [] → shows_blobs pl = false →
  shows_within p req w pl.
Proof.
  intros Hr Hk Hb. unfold shows_within. rewrite Hr, Hk, Hb.
  split_and!; [by intros r ?%elem_of_nil|by intros r ?%elem_of_nil|done].
Qed.

Lemma shows_one p req w pl r :
  shown_records pl = [r] → shown_keys pl = [] → shows_blobs pl = false →
  contents w !! rec_key r = Some r →
  (allows p Read (key_namespace (rec_key r)) = true ∨
   is_conditional_write req = true ∧ allows p Write (key_namespace (rec_key r)) = true) →
  (is_tombstone r = true → is_raw_route req = true) →
  shows_within p req w pl.
Proof.
  intros Hr Hk Hb ???. unfold shows_within. rewrite Hr, Hk, Hb.
  split_and!; [by intros r' ->%list_elem_of_singleton|by intros r' ?%elem_of_nil|done].
Qed.

Lemma shows_put_outcome p req w (plan : PutPlan) key m res m' :
  (res, m') = apply_put plan key m →
  (∀ c, plan = PutConflict c →
     contents w !! rec_key (cf_current c) = Some (cf_current c) ∧
     (allows p Read (key_namespace (rec_key (cf_current c))) = true ∨
      is_conditional_write req = true ∧
      allows p Write (key_namespace (rec_key (cf_current c))) = true) ∧
     (is_tombstone (cf_current c) = true → is_raw_route req = true)) →
  shows_within p req w (payload (put_outcome_response res)).
Proof.
  intros Heq Hc. destruct plan as [s|c| |reason]; injection Heq as -> _;
    try by apply shows_nothing.
  destruct (Hc c eq_refl) as (? & ? & ?). by apply (shows_one _ _ _ _ (cf_current c)).
Qed.

Lemma shows_delete_outcome p req w (res : Result DeleteResult) :
  (∀ c, res = Ok (DeleteConflicted c) →
     contents w !! rec_key (cf_current c) = Some (cf_current c) ∧
     (allows p Read (key_namespace (rec_key (cf_current c))) = true ∨
      is_conditional_write req = true ∧
      allows p Write (key_namespace (rec_key (cf_current c))) = true) ∧
     (is_tombstone (cf_current c) = true → is_raw_route req = true)) →
  shows_within p req w (payload (delete_outcome_response res)).
Proof.
  intros Hc. destruct res as [[|c]|[]]; try by apply shows_nothing.
  destruct (Hc c eq_refl) as (? & ? & ?). by apply (shows_one _ _ _ _ (cf_current c)).
Qed.

Lemma shows_listing p req q list w resp w' :
  keyed (contents w) →
  (∀ prefix, ∃ res w1, list prefix w = (res, w1) ∧
     ∀ l, res = Ok l → ∀ k, k ∈ l → prefix_matches prefix k = true ∧
       ∃ r, contents w !! k = Some r ∧ (is_tombstone r = true → is_raw_route req = true)) →
  listing p q list w = (resp, w') → shows_within p req w (payload resp).
Proof.
  intros Hkeyed Hl. unfold listing, list_prefix.
  destruct (allows p Read _) eqn:Ha; simpl; [|intros [= <- _]; by apply shows_nothing].
  destruct (Hl (mkPrefix (q_namespace q) (q_collection q))) as (res & w1 & -> & Hin).
  destruct res as [l|e]; intros [= <- _]; [|by apply shows_nothing].
  unfold shows_within. simpl. split_and!; [by intros r ?%elem_of_nil| |done].
  intros k Hk. destruct (Hin l eq_refl k Hk) as [Hm Hr]. split; [|done].
  apply allows_spec. apply allows_spec in Ha. unfold prefix_matches in Hm. simpl in Hm.
  destruct (q_namespace q) as [ns|]; simpl in Ha; [|tauto].
  apply andb_true_iff in Hm as [->%bool_decide_eq_true _]. done.
Qed.

Lemma handle_read_shows p req w resp w' :
  keyed (contents w) → addressed kok hok req →
  match req with
  | PutRecord _ _ | DeleteRecord _ _ _ _ | PutRawRecord _ _ | PurgeRecord _ _ _ _
  | PutBlob _ _ | DeleteBlob _ => False
  | _ => True
  end →
  handle svc (Some p) req w = (resp, w') → shows_within p req w (payload resp).
Proof.
  intros Hk Hok Hreq. destruct req; simpl in *; try done.
  - intros [= <- _]. by apply shows_nothing.
  - unfold readyz. destruct (ready svc w) as [[] ?]; intros [= <- _]; by apply shows_nothing.
  - unfold get_record, svc_get.
    destruct (allows _ _ _) eqn:Ha; [simpl|intros [= <- _]; by apply shows_nothing].
    destruct (route_get (mkKey ns col id) w Hok) as (w1 & -> & _).
    destruct (live _) as [r|] eqn:Hl; intros [= <- _]; [|by apply shows_nothing].
    apply live_Some in Hl as [Hr Hlive]. pose proof (Hk _ _ Hr) as Hkey.
    apply (shows_one _ _ _ _ r); rewrite ?Hkey; try done; [by left|congruence].
  - apply shows_listing; [done|]. intros prefix. unfold svc_list.
    destruct (route_list prefix w Hk) as (l & w1 & -> & _ & _ & Hin).
    eexists _, _. split; [done|]. intros ? [= <-] k [[r Hr] ?]%Hin. split; [done|].
    apply live_Some in Hr as [? Hlive]. exists r. split; [done|congruence].
  - unfold get_raw_record, svc_get_raw.
    destruct (allows _ _ _) eqn:Ha; [simpl|intros [= <- _]; by apply shows_nothing].
    destruct (route_get_raw (mkKey ns col id) w Hok) as (w1 & -> & _). intros [= <- _].
    destruct (contents w !! _) as [r|] eqn:Hr; [|by apply shows_nothing].
    pose proof (Hk _ _ Hr) as Hkey.
    apply (shows_one _ _ _ _ r); rewrite ?Hkey; try done; by left.
  - apply shows_listing; [done|]. intros prefix. unfold svc_list_raw.
    destruct (route_list_raw prefix w Hk) as (l & w1 & -> & _ & _ & Hin).
    eexists _, _. split; [done|]. intros ? [= <-] k [[r Hr] ?]%Hin. eauto.
  - unfold get_blob. destruct (allows _ _ _) eqn:Ha; [|intros [= <- _]; by apply shows_nothing].
    simpl. unfold svc_get_blob. pose proof (route_get_blob hash w Hok) as Hget.
    destruct (bs_get_blob _ _ w) as [r w1]. cbn in Hget. subst r.
    destruct (bl w !! mkHash hash) as [[c t]|] eqn:Hb; intros [= <- _];
      [|by apply shows_nothing].
    split_and!; [by intros ? ?%elem_of_nil..|]. intros _. split; [done|]. by exists hash, t.
  - unfold head_blob. destruct (allows _ _ _); [|intros [= <- _]; by apply shows_nothing].
    simpl. destruct (svc_has_blob _ _ _) as [[[]|] ?]; intros [= <- _]; by apply shows_nothing.
  - unfold list_blobs. destruct (allows _ _ _) eqn:Ha; [|intros [= <- _]; by apply shows_nothing].
    simpl. unfold svc_list_blobs. destruct (route_list_blobs w) as (l & w1 & -> & _ & _ & Hin).
    intros [= <- _]. split_and!; [by intros ? ?%elem_of_nil..|done].
Qed.

Lemma put_record_shows p path body w resp w' :
  keyed (contents w) → addressed kok hok (PutRecord path body) → put_record svc p path body w = (resp, w') →
  shows_within p (PutRecord path body) w (payload resp).
Proof.
  intros Hk Hok. unfold put_record, svc_put.
  destruct (path_key_mismatch path _) as [bad|] eqn:Hm.
  { intros [= <- _]. unfold path_key_mismatch in Hm. destruct path as [[ns col] id].
    destruct (_ || _); [|done]. injection Hm as <-. by apply shows_nothing. }
  destruct (allows p Write _) eqn:Ha; [simpl|intros [= <- _]; by apply shows_nothing].
  destruct (route_put (stamp_author p (pb_record body)) (pb_expected body) w)
    as (now & res & w1 & -> & _ & Heq); [rewrite stamp_author_key; by eapply addressed_body|].
  intros [= <- _]. eapply shows_put_outcome; [exact Heq|].
  intros c (t & Ht & -> & Hlive & _)%plan_put_conflict. rewrite stamp_author_key in Ht.
  pose proof (Hk _ _ Ht) as Hkey. simpl. rewrite Hkey. split_and!; [done| |congruence].
  by right.
Qed.

Lemma apply_delete_conflicted c m' plan k m :
  (Ok (DeleteConflicted c), m') = apply_delete plan k m → plan = DeleteConflict c.
Proof. by destruct plan as [| |c']; simpl; intros Heq; simplify_eq. Qed.

Lemma delete_record_shows p ns col id body w resp w' :
  keyed (contents w) → kok (mkKey ns col id) → delete_record svc p ns col id body w = (resp, w') →
  shows_within p (DeleteRecord ns col id body) w (payload resp).
Proof.
  intros Hk Hok. unfold delete_record, svc_delete_as.
  destruct (allows p Write _) eqn:Ha; [simpl|intros [= <- _]; by apply shows_nothing].
  destruct (match body with Some b => _ | None => _ end) as [e a].
  destruct (route_delete_as (mkKey ns col id) e (delete_author p a) w Hok)
    as (now & res & w1 & -> & _ & Heq).
  intros [= <- _]. apply shows_delete_outcome. intros c ->.
  apply apply_delete_conflicted, plan_delete_conflict in Heq as [Hlive Hc].
  pose proof (Hk _ _ Hc) as Hkey. rewrite Hkey. split_and!; [done|by right|congruence].
Qed.

Lemma admin_write_shows p req w resp w' :
  keyed (contents w) → addressed kok hok req → is_admin p = true →
  match req with PutRawRecord _ _ | PurgeRecord _ _ _ _ => True | _ => False end →
  handle svc (Some p) req w = (resp, w') → shows_within p req w (payload resp).
Proof.
  intros Hk Hok Hadm Hreq. pose proof (proj1 (is_admin_spec p) Hadm Read) as Hread.
  destruct req as [| | | | | | |path body| |ns col id body| | | | |]; try done; simpl in *.
  - unfold put_raw_record, svc_put_raw. rewrite Hadm. simpl.
    destruct (path_key_mismatch path _) as [bad|] eqn:Hm.
    { intros [= <- _]. unfold path_key_mismatch in Hm. destruct path as [[ns col] id].
      destruct (_ || _); [|done]. injection Hm as <-. by apply shows_nothing. }
    destruct (route_put_raw (pb_record body) (pb_expected body) w)
      as (now & res & w1 & -> & _ & Heq); [by eapply addressed_body|].
    intros [= <- _]. eapply shows_put_outcome; [exact Heq|].
    intros c (t & Ht & _ & ->)%plan_put_raw_conflict. pose proof (Hk _ _ Ht) as Hkey.
    simpl. rewrite Hkey. eauto.
  - unfold purge_record. rewrite Hadm. simpl.
    destruct (purge_body_from_slice body); [|intros [= <- _]; by apply shows_nothing].
    destruct (svc_purge_run svc contents bl rest cap kok hok (mkKey ns col id) a w Hok)
      as (res & w1 & -> & _ & _ & Hm).
    intros [= <- _]. apply shows_delete_outcome. intros c ->.
    destruct (contents w !! _) as [t|] eqn:Ht; [|naive_solver].
    case_decide; [destruct (is_tombstone t); naive_solver|].
    destruct Hm as [(cf & [= ->] & Hcf) _]. pose proof (Hk _ _ Ht) as Hkey.
    rewrite Hcf, Hkey. eauto.
Qed.

Lemma handle_shows p req w resp w' :
  keyed (contents w) → addressed kok hok req → handle svc (Some p) req w = (resp, w') →
  shows_within p req w (payload resp).
Proof.
  intros Hk Hok Hrun.
  destruct req; try (by eapply (handle_read_shows p); [done|exact Hok| |exact Hrun]).
  - by eapply put_record_shows.
  - by eapply delete_record_shows.
  - destruct (is_admin p) eqn:Ha; [by eapply admin_write_shows|].
    simpl in Hrun. unfold put_raw_record in Hrun. rewrite Ha in Hrun.
    injection Hrun as <- _. by apply shows_nothing.
  - destruct (is_admin p) eqn:Ha; [by eapply admin_write_shows|].
    simpl in Hrun. unfold purge_record in Hrun. rewrite Ha in Hrun.
    injection Hrun as <- _. by apply shows_nothing.
  - simpl in Hrun. unfold put_blob in Hrun.
    destruct (allows _ _ _); [|injection Hrun as <- _; by apply shows_nothing]. simpl in Hrun.
    case_bool_decide; [injection Hrun as <- _; by apply shows_nothing|].
    destruct (svc_put_blob _ _ _) as [[] ?]; injection Hrun as <- _; by apply shows_nothing.
  - simpl in Hrun. unfold delete_blob in Hrun.
    destruct (allows _ _ _); [|injection Hrun as <- _; by apply shows_nothing]. simpl in Hrun.
    destruct (svc_delete_blob _ _ _) as [[] ?]; injection Hrun as <- _; by apply shows_nothing.
Qed.

(** What a request changes and shows, whoever sends it. *)
Lemma router_write_scopes auth hdr req ns w resp w' :
  keyed (contents w) → addressed kok hok req → router svc auth hdr req w = (resp, w') →
  (∀ p, authenticate auth (bearer hdr) = Some p → allows p Write ns = false) →
  (∀ k, key_namespace k = ns → contents w' !! k = contents w !! k) ∧
  (ns = BLOB_NS → bl w' = bl w) ∧
  (authenticate auth (bearer hdr) = None →
     contents w' = contents w ∧ bl w' = bl w ∧
     (req ≠ Healthz → req ≠ Readyz → resp = mkResponse UNAUTHORIZED NoBody ∧ w' = w)).
Proof.
  intros Hk Hok Hrun Hns. assert (Hrun' := Hrun).
  apply (router_changed _ _ _ _ _ _ Hk Hok) in Hrun as [[-> ->]|(p & Hp & Hch)].
  - split_and!; [done..|]. intros Hnone. split_and!; [done..|]. intros Hh Hr.
    unfold router in Hrun'. rewrite Hnone in Hrun'.
    destruct (is_probe_path _) eqn:E; [apply request_path_probe in E; naive_solver|].
    by injection Hrun' as <- <-.
  - specialize (Hns p Hp). destruct (change_within_scope ns Hch Hns) as [Hm Hb].
    split_and!; [done|done|by rewrite Hp].
Qed.

Lemma router_read_scopes auth hdr req w resp w' :
  keyed (contents w) → addressed kok hok req → router svc auth hdr req w = (resp, w') →
  let may p a ns := authenticate auth (bearer hdr) = Some p ∧ allows p a ns = true in
  (∀ r, r ∈ shown_records (payload resp) →
     contents w !! rec_key r = Some r ∧
     (is_tombstone r = true → is_raw_route req = true) ∧
     ∃ p, may p Read (key_namespace (rec_key r)) ∨
          is_conditional_write req = true ∧ may p Write (key_namespace (rec_key r))) ∧
  (∀ k, k ∈ shown_keys (payload resp) →
     (∃ p, may p Read (key_namespace k)) ∧
     ∃ r, contents w !! k = Some r ∧ (is_tombstone r = true → is_raw_route req = true)) ∧
  (shows_blobs (payload resp) = true →
     (∃ p, may p Read BLOB_NS) ∧ blobs_of_store req w (payload resp)).
Proof.
  intros Hk Hok Hrun may. unfold router in Hrun.
  assert (∀ pl, shown_records pl = [] → shown_keys pl = [] → shows_blobs pl = false →
    resp = mkResponse (status resp) pl →
    (∀ r, r ∉ shown_records (payload resp)) ∧ (∀ k, k ∉ shown_keys (payload resp)) ∧
    shows_blobs (payload resp) = false) as Hnone.
  { intros pl Hr Hkeys Hb ->. simpl. rewrite Hr, Hkeys, Hb.
    split_and!; [intros ?; apply not_elem_of_nil..|done]. }
  destruct (is_probe_path (request_path req)) eqn:Hprobe.
  { destruct (Hnone (payload resp)) as (H1 & H2 & H3); [..|by destruct resp|].
    1-3: apply request_path_probe in Hprobe as [->| ->]; simpl in Hrun; unfold readyz in Hrun;
      try (destruct (ready svc w) as [[] ?]); by injection Hrun as <- _.
    rewrite H3. split_and!; [by intros r ?%H1|by intros k ?%H2|done]. }
  destruct (authenticate auth (bearer hdr)) as [p|] eqn:Hp.
  - destruct (handle_shows p req w resp w' Hk Hok Hrun) as (Hr & Hkeys & Hb).
    split_and!.
    + intros r Hin. destruct (Hr r Hin) as (? & ? & ?). unfold may. naive_solver.
    + intros k Hin. destruct (Hkeys k Hin) as (? & ?). unfold may. naive_solver.
    + intros Hin. unfold may. naive_solver.
  - injection Hrun as <- _.
    split_and!; [by intros r ?%elem_of_nil|by intros k ?%elem_of_nil|done].
Qed.

(** Authorship cannot be forged on these routes (a ticket sync writes as the daemon).
    Whatever author the request claims, every
    record that a request by an authenticated principal who is not an admin
    changes is, afterwards, a record whose author is that principal: an edit,
    a creation and a tombstone alike. *)
Theorem authorship_is_stamped auth hdr req p w resp w' :
  keyed (contents w) → addressed kok hok req → router svc auth hdr req w = (resp, w') →
  authenticate auth (bearer hdr) = Some p →
  principal_authenticated p = true → is_admin p = false →
  ∀ k, contents w' !! k ≠ contents w !! k →
    ∃ r, contents w' !! k = Some r ∧
      meta_author (rec_meta r) = Identity_new (principal_name p).
Proof.
  intros Hk Hok Hrun Hp Hauth Hadm k Hne.
  apply (router_changed _ _ _ _ _ _ Hk Hok) in Hrun as [[Hc _]|(p' & Hp' & Hch)];
    [by rewrite Hc in Hne|].
  assert (p' = p) as -> by congruence. by apply (change_author k Hch).
Qed.

(** Only an admin can discard what a deletion kept.  While a manifest lies
    under its tombstone, which holds the only record of its shards, no request
    by anyone else moves that tombstone: not a create over it, not an edit or a
    delete, not a raw write, not a purge.  And no request at all, an admin's
    included, physically removes a record that is not a tombstone. *)
Theorem tombstones_are_safe auth hdr req w resp w' :
  keyed (contents w) → addressed kok hok req → router svc auth hdr req w = (resp, w') →
  (∀ k t kind, contents w !! k = Some t → is_tombstone t = true →
     rec_deleted_kind t = Some kind → is_manifest_kind kind = true →
     (∀ p, authenticate auth (bearer hdr) = Some p → is_admin p = false) →
     contents w' !! k = Some t) ∧
  (∀ k c, contents w !! k = Some c → contents w' !! k = None →
     is_tombstone c = true ∧
     ∃ p, authenticate auth (bearer hdr) = Some p ∧ is_admin p = true).
Proof.
  intros Hk Hok Hrun.
  apply (router_changed _ _ _ _ _ _ Hk Hok) in Hrun as [[Hc _]|(p & Hp & Hch)].
  - rewrite Hc. split; [done|]. by intros k c ->.
  - split.
    + intros k t kind Ht Htomb Hkind Hman Hadm.
      by eapply (change_manifest_tombstone k t kind Hch); eauto.
    + intros k c Hc Hnone. destruct (change_removal k c Hch Hc Hnone). eauto.
Qed.

End scopes.

(** ** Concrete requests *)

Section witnesses.
#[local] Existing Instance sample_hash.
#[local] Instance sample_purge_serde : PurgeSerde := λ _, Err "bad".

Definition sample_service : Service sample_world := Service_new store_a sample_blobs.

(** Alice may read and write the namespace [ns]; mallory may read it. *)
Definition sample_auth : Auth :=
  Enabled (<["a" := Principal_new "alice" ["ns"] ["ns"]]>
             {["m" := Principal_new "mallory" ["ns"] ["other"]]}).

Definition sample_put (author : string) : Request :=
  PutRecord ("ns", "col", "id")
    (mkPutBody (Record_create sample_key Topic (sample_body "v") (Meta_new (Identity_new author) "o"))
       None).

(** A live record of the namespace. *)
Definition sample_live : record := sample_record sample_key 0 "v0" [].

(** A deleted manifest, its shards' names kept under the tombstone. *)
Definition sample_buried : record :=
  tombstone_of (mkRecord sample_key GraphManifest (sample_rev 3 "m") None (sample_body "m")
    sample_meta [] [] None None None) 9 32 None.

Definition world_of (r : record) : sample_world := ({[rec_key r := r]}, ∅, ∅).

Lemma keyed_singleton r : keyed ({[rec_key r := r]} : records).
Proof. by intros k r' [<- <-]%lookup_singleton_Some. Qed.

Definition run (token : string) (req : Request) (w : sample_world) : Response * sample_world :=
  router sample_service sample_auth (Some ("Bearer " +:+ token)) req w.

Lemma run_eq token req w :
  router sample_service sample_auth (Some ("Bearer " +:+ token)) req w =
    ((run token req w).1, (run token req w).2).
Proof. apply surjective_pairing. Qed.

Lemma sample_routes kok hok : kok (mkKey "_gonzalo" "_health" "_probe") →
  RouteLaws sample_service (λ w, w.1.1) (λ w, w.2) (λ w, w.1.2) 32 kok hok.
Proof.
  exact (lawful_routes sample_service (λ w, w.1.1) (λ w, w.2) (λ w, w.1.2) 32 kok hok
    (StoreLaws0 := store_a_laws (λ p, (p.2, p.1)))
    (BlobStoreLaws0 := sample_blobs_laws (λ p, (p.1, p.2)))).
Qed.

(** Every key and hash, which the sample stores allow. *)
Definition any_key (_ : RecordKey) : Prop := True.
Definition any_hash (_ : string) : Prop := True.
#[local] Instance sample_any : RouteLaws sample_service (λ w, w.1.1) (λ w, w.2) (λ w, w.1.2) 32
  any_key any_hash := sample_routes any_key any_hash I.

(** Alice's create, which claims to be bob's, is stored as alice's. *)
Lemma authorship_is_stamped_witness :
  ∃ r, (run "a" (sample_put "bob") (∅, ∅, ∅)).2.1.1 !! sample_key = Some r ∧
    meta_author (rec_meta r) = Identity_new "alice".
Proof.
  refine (authorship_is_stamped sample_service (λ w, w.1.1) (λ w, w.2) (λ w, w.1.2) 32
    any_key any_hash sample_auth _ (sample_put "bob")
    (Principal_new "alice" ["ns"] ["ns"]) (∅, ∅, ∅) _ _ _ I (run_eq "a" _ _) _ _ _
    sample_key _); [intros ??; discriminate|reflexivity..|].
  vm_compute. discriminate.
Defined.

(** Alice cannot create over the tombstone of a manifest. *)
Lemma tombstones_are_safe_witness :
  (run "a" (sample_put "alice") (world_of sample_buried)).2.1.1 !! sample_key
    = Some sample_buried.
Proof.
  refine (proj1 (tombstones_are_safe sample_service (λ w, w.1.1) (λ w, w.2) (λ w, w.1.2) 32
    any_key any_hash sample_auth _
    (sample_put "alice") (world_of sample_buried) _ _ (keyed_singleton sample_buried) I
    (run_eq "a" _ _)) sample_key sample_buried GraphManifest _ _ _ _ _).
  - exact (lookup_singleton_eq sample_key sample_buried).
  - reflexivity.
  - reflexivity.
  - reflexivity.
  - intros p [= <-]. reflexivity.
Defined.
End witnesses.
