(* ===== verification/Grpc.v ===== *)
(** * Grpc: the daemon's gRPC transport

    Models [gonzalo-server]'s [grpc.rs] on the same service as [Http]: every
    record, replication, purge and blob RPC as an action that answers a message
    or a status.  The messages are the fields of the protobuf types; records,
    revisions, keys and conflicts travel in them as JSON bytes, whose format is
    [serde_json]'s and comes as a class.  The graph and ticket RPCs are not
    modelled here. *)

From S2P Require Export Http.

(** ** JSON in bytes *)

(** [serde_json::to_vec] and [serde_json::from_slice] at a type. *)
Class Json (A : Type) := {
  json_to_vec : A → result string bytes;
  json_from_slice : bytes → result string A
}.

(** A value is written, as at least one byte, and reads back. *)
Class JsonLaws (A : Type) `{Json A} := {
  json_round_trip (a : A) : ∃ b, json_to_vec a = Ok b ∧ b ≠ [] ∧ json_from_slice b = Ok a
}.

(** The types the messages carry. *)
Class WireJson := {
  json_record :: Json record;
  json_revision :: Json Revision;
  json_expected :: Json (option Revision);
  json_identity :: Json Identity;
  json_key :: Json RecordKey;
  json_conflict :: Json Conflict
}.

Class WireJsonLaws `{WireJson} := {
  json_record_laws :: JsonLaws record;
  json_revision_laws :: JsonLaws Revision;
  json_expected_laws :: JsonLaws (option Revision);
  json_identity_laws :: JsonLaws Identity;
  json_key_laws :: JsonLaws RecordKey;
  json_conflict_laws :: JsonLaws Conflict
}.

(** [iter().map(f).collect::<Result<Vec<_>, _>>()]. *)
Fixpoint collect_results {E A B} (f : A → result E B) (l : list A) : result E (list B) :=
  match l with
  | [] => Ok []
  | x :: l => y ← f x; ys ← collect_results f l; Ok (y :: ys)
  end.

(** ** Statuses and messages *)

Inductive Code :=
  | InvalidArgument
  | PermissionDenied
  | FailedPrecondition
  | Unimplemented
  | Internal
  | OutOfRange
  | Unavailable
  | Unauthenticated.

#[export] Instance Code_eq_dec : EqDecision Code.
Proof. solve_decision. Defined.

(** [tonic::Status]: a code and what the message says. *)
Record Status := mkStatus { code : Code; message : Payload }.

Record GetRequest := mkGetRequest {
  get_namespace : string; get_collection : string; get_id : string }.
Record GetResponse := mkGetResponse { gr_found : bool; gr_record_json : bytes }.
Record PutRequest := mkPutRequest { pr_record_json : bytes; pr_expected_json : bytes }.
Record PutResponse := mkPutResponse { po_outcome : string; po_payload_json : bytes }.
Record DeleteRequest := mkDeleteRequest {
  dr_namespace : string; dr_collection : string; dr_id : string;
  dr_expected_json : bytes; dr_author_json : bytes }.
Record DeleteResponse := mkDeleteResponse { do_outcome : string; do_payload_json : bytes }.
Record ListRequest := mkListRequest {
  lr_namespace : option string; lr_collection : option string }.
Record ListResponse := mkListResponse { keys_json : list bytes }.
Record PurgeRequest := mkPurgeRequest {
  ur_namespace : string; ur_collection : string; ur_id : string;
  ur_expected_json : bytes }.
Record PutBlobRequest := mkPutBlobRequest { pb_hash : string; pb_content : bytes }.
Record GetBlobResponse := mkGetBlobResponse { gb_found : bool; gb_content : bytes }.

(** ** The adapter *)

Definition grpc_internal {E} (_ : E) : Status := mkStatus Internal (Text "internal error").

Definition invalid_argument (e : string) : Status := mkStatus InvalidArgument (Text e).

Section authorization.
Context (auth : Auth) (metadata : option string).

Definition grpc_authenticate : result Status Principal :=
  ok_or (mkStatus Unauthenticated (Text "invalid or missing token"))
    (authenticate auth (bearer metadata)).

Definition check_access (p : Principal) (access : Access) (namespace : string) :
    result Status unit :=
  if allows p access namespace then Ok tt
  else Err (mkStatus PermissionDenied (TextForbidden (principal_name p) access namespace)).

Definition authorize (access : Access) (namespace : string) : result Status Principal :=
  p ← grpc_authenticate;
  _ ← check_access p access namespace;
  Ok p.

Definition authorize_admin (operation : string) : result Status Principal :=
  p ← grpc_authenticate;
  if is_admin p then Ok p
  else Err (mkStatus PermissionDenied (TextForbiddenAdmin (principal_name p) operation)).

Definition authorize_put `{WireJson} (r : PutRequest) :
    result Status (Principal * record * option Revision) :=
  p ← grpc_authenticate;
  rec ← map_err invalid_argument (json_from_slice (pr_record_json r));
  expected ← map_err invalid_argument (json_from_slice (pr_expected_json r));
  _ ← check_access p Write (key_namespace (rec_key rec));
  Ok (p, rec, expected).

Definition authorize_list (r : ListRequest) : result Status KeyPrefix :=
  _ ← authorize Read (default "*" (lr_namespace r));
  Ok (mkPrefix (lr_namespace r) (lr_collection r)).
End authorization.

(** ** Statuses of errors, messages of answers *)

Definition put_error (e : CoreError) : Status :=
  match e with
  | NotFound key =>
      mkStatus FailedPrecondition (Text ("record not found: " +:+ key_to_string key))
  | Invalid reason => invalid_argument reason
  | other => grpc_internal other
  end.

Definition purge_error (e : CoreError) : Status :=
  match e with
  | Invalid reason => invalid_argument reason
  | other => grpc_internal other
  end.

Section messages.
Context `{WireJson}.

Definition put_response (outcome : PutResult) : result Status PutResponse :=
  match outcome with
  | Committed rev => j ← map_err grpc_internal (json_to_vec rev);
      Ok (mkPutResponse "committed" j)
  | PutConflicted c => j ← map_err grpc_internal (json_to_vec c);
      Ok (mkPutResponse "conflict" j)
  end.

Definition get_response (rec : option record) : result Status GetResponse :=
  match rec with
  | Some rec => j ← map_err grpc_internal (json_to_vec rec); Ok (mkGetResponse true j)
  | None => Ok (mkGetResponse false [])
  end.

Definition list_response (keys : list RecordKey) : result Status ListResponse :=
  j ← map_err grpc_internal (collect_results json_to_vec keys);
  Ok (mkListResponse j).

Definition delete_outcome_parts (outcome : DeleteResult) : result Status DeleteResponse :=
  match outcome with
  | Deleted => Ok (mkDeleteResponse "deleted" [])
  | DeleteConflicted c => j ← map_err grpc_internal (json_to_vec c);
      Ok (mkDeleteResponse "conflict" j)
  end.
End messages.

(** [.await.map_err(f)]. *)
Definition map_errM {W E E' A} (f : E → E') (m : M W E A) : M W E' A :=
  λ w, let '(r, w') := m w in (map_err f r, w').

(** ** The RPCs *)

Section rpcs.
Context `{Blake3} `{WireJson} {W : Type} (svc : Service W) (auth : Auth).
Context (metadata : option string).
Abbreviation rpc A := (M W Status A).

Definition rpc_get (r : GetRequest) : rpc GetResponse :=
  _ ← lift (authorize auth metadata Read (get_namespace r));
  rec ← map_errM grpc_internal
    (svc_get svc (mkKey (get_namespace r) (get_collection r) (get_id r)));
  lift (get_response rec).

Definition rpc_put (r : PutRequest) : rpc PutResponse :=
  '(p, rec, expected) ← lift (authorize_put auth metadata r);
  outcome ← map_errM put_error (svc_put svc (stamp_author p rec) expected);
  lift (put_response outcome).

Definition rpc_delete (r : DeleteRequest) : rpc DeleteResponse :=
  p ← lift (grpc_authenticate auth metadata);
  expected ← lift (map_err invalid_argument (json_from_slice (dr_expected_json r)));
  claimed ← lift (if decide (dr_author_json r = []) then Ok None
                  else a ← map_err invalid_argument (json_from_slice (dr_author_json r));
                       Ok (Some a));
  _ ← lift (check_access p Write (dr_namespace r));
  outcome ← map_errM grpc_internal
    (svc_delete_as svc (mkKey (dr_namespace r) (dr_collection r) (dr_id r)) expected
       (delete_author p claimed));
  lift (delete_outcome_parts outcome).

Definition rpc_list (r : ListRequest) : rpc ListResponse :=
  prefix ← lift (authorize_list auth metadata r);
  keys ← map_errM grpc_internal (svc_list svc prefix);
  lift (list_response keys).

Definition rpc_get_raw (r : GetRequest) : rpc GetResponse :=
  _ ← lift (authorize auth metadata Read (get_namespace r));
  rec ← map_errM grpc_internal
    (svc_get_raw svc (mkKey (get_namespace r) (get_collection r) (get_id r)));
  lift (get_response rec).

Definition rpc_list_raw (r : ListRequest) : rpc ListResponse :=
  prefix ← lift (authorize_list auth metadata r);
  keys ← map_errM grpc_internal (svc_list_raw svc prefix);
  lift (list_response keys).

Definition rpc_put_raw (r : PutRequest) : rpc PutResponse :=
  _ ← lift (authorize_admin auth metadata "a raw record write");
  rec ← lift (map_err invalid_argument (json_from_slice (pr_record_json r)));
  expected ← lift (map_err invalid_argument (json_from_slice (pr_expected_json r)));
  outcome ← map_errM put_error (svc_put_raw svc rec expected);
  lift (put_response outcome).

Definition rpc_purge (r : PurgeRequest) : rpc DeleteResponse :=
  _ ← lift (authorize_admin auth metadata "purge");
  expected ← lift (map_err invalid_argument (json_from_slice (ur_expected_json r)));
  outcome ← map_errM purge_error
    (svc_purge svc (mkKey (ur_namespace r) (ur_collection r) (ur_id r)) expected);
  lift (delete_outcome_parts outcome).

Definition rpc_put_blob (r : PutBlobRequest) : rpc string :=
  _ ← lift (authorize auth metadata Write BLOB_NS);
  let computed := ContentHash_of (pb_content r) in
  if bool_decide (hash_hex computed ≠ pb_hash r)
  then throw (invalid_argument "blob content does not match the advertised hash")
  else
    hash ← map_errM grpc_internal (svc_put_blob svc (pb_content r));
    mret (hash_hex hash).

Definition rpc_get_blob (hash : string) : rpc GetBlobResponse :=
  _ ← lift (authorize auth metadata Read BLOB_NS);
  found ← map_errM grpc_internal (svc_get_blob svc (mkHash hash));
  mret match found with
       | Some content => mkGetBlobResponse true content
       | None => mkGetBlobResponse false []
       end.

Definition rpc_has_blob (hash : string) : rpc bool :=
  _ ← lift (authorize auth metadata Read BLOB_NS);
  map_errM grpc_internal (svc_has_blob svc (mkHash hash)).

Definition rpc_list_blobs : rpc (list (string * Z)) :=
  _ ← lift (authorize auth metadata Read BLOB_NS);
  entries ← map_errM grpc_internal (svc_list_blobs svc);
  mret ((λ e, (hash_hex (be_hash e), be_modified_unix_ms e)) <$> entries).

Definition rpc_delete_blob (hash : string) : rpc unit :=
  _ ← lift (authorize auth metadata Write BLOB_NS);
  _ ← map_errM grpc_internal (svc_delete_blob svc (mkHash hash));
  mret tt.
End rpcs.
