(* ===== verification/Remote.v ===== *)
(** * Remote: the client side of the daemon

    Models [gonzalo-store-server]: [ServerStore] as a [Store] and a [BlobStore]
    whose every call is one request to a peer, over HTTP or over gRPC.  The peer
    is any function from requests to responses, so that an older daemon and a
    lossy network are peers too; [RemoteSpec] makes the modelled daemon one.
    What [url], [reqwest], [tonic] and [serde_json] do to a request on its way
    comes as classes with the laws their documentation states. *)

From S2P Require Export Text Grpc.

(** ** Requests on the wire *)

Inductive Method := GET | PUT | POST | DELETE | HEAD.

#[export] Instance Method_eq_dec : EqDecision Method.
Proof. solve_decision. Defined.

(** A URL: its path segments, unless it cannot be a base, and its query. *)
Record Url := mkUrl {
  url_path : option (list string);
  url_query : list (string * string)
}.

Inductive RequestBody :=
  | EmptyBody
  | JsonPutBody (b : PutBody)
  | JsonDeleteBody (b : DeleteBody)
  | Raw (b : bytes).

Record HttpRequest := mkHttpRequest {
  hr_method : Method;
  hr_url : Url;
  hr_authorization : option string;
  hr_body : RequestBody
}.

(** The RPCs of the generated client, with their requests and answers. *)
Inductive Rpc : Type → Type :=
  | GetRpc (r : GetRequest) : Rpc GetResponse
  | PutRpc (r : PutRequest) : Rpc PutResponse
  | DeleteRpc (r : DeleteRequest) : Rpc DeleteResponse
  | ListRpc (r : ListRequest) : Rpc ListResponse
  | GetRawRpc (r : GetRequest) : Rpc GetResponse
  | ListRawRpc (r : ListRequest) : Rpc ListResponse
  | PutRawRpc (r : PutRequest) : Rpc PutResponse
  | PurgeRpc (r : PurgeRequest) : Rpc DeleteResponse
  | PutBlobRpc (r : PutBlobRequest) : Rpc string
  | GetBlobRpc (hash : string) : Rpc GetBlobResponse
  | HasBlobRpc (hash : string) : Rpc bool
  | ListBlobsRpc : Rpc (list (string * Z))
  | DeleteBlobRpc (hash : string) : Rpc unit.

(** Whatever answers: a response or the transport's error over HTTP, an answer
    or a status over gRPC. *)
Record Peer (W : Type) : Type := mkPeer {
  peer_http : HttpRequest → M W string Response;
  peer_grpc : ∀ A, option string → Rpc A → M W Status A
}.
Arguments mkPeer {W}.
Arguments peer_http {W}.
Arguments peer_grpc {W} _ {A}.

(** ** What the libraries do *)

(** A header value as the other end reads it: an error when it cannot be sent,
    [None] when it is not text there.  Visible ASCII always is. *)
Definition visible (s : string) : bool :=
  forallb (λ b, let n := Byte.to_N b in (32 <=? n)%N && (n <? 127)%N) (bytes_of_string s).

Class Headers := {
  http_header : string → result string (option string);
  grpc_metadata : string → option (option string);
  http_header_visible s : visible s = true → http_header s = Ok (Some s);
  grpc_metadata_visible s : visible s = true → grpc_metadata s = Some (Some s)
}.

(** A response body as text, as bytes, and parsed as JSON; the texts of a status
    code and of a gRPC status; the JSON of a purge body. *)
Class Bodies := {
  body_text : Payload → string;
  body_content : Payload → bytes;
  parse_record : string → result string record;
  parse_raw_record : string → result string (option record);
  parse_put_outcome : string → result string PutResult;
  parse_delete_outcome : string → result string DeleteResult;
  parse_keys : string → result string (list RecordKey);
  parse_entries : string → result string (list BlobEntry);
  purge_body_to_vec : Revision → bytes;
  status_code_text : N → string;
  status_text : Status → string
}.

(** What the daemon writes the client reads. *)
Class BodyLaws `{Bodies} `{PurgeSerde} := {
  body_content_octets c : body_content (OctetStream c) = c;
  parse_record_json r : parse_record (body_text (JsonRecord r)) = Ok r;
  parse_raw_record_json r : parse_raw_record (body_text (JsonRawRecord r)) = Ok r;
  parse_put_outcome_json r : parse_put_outcome (body_text (JsonPutOutcome r)) = Ok r;
  parse_delete_outcome_json r :
    parse_delete_outcome (body_text (JsonDeleteOutcome r)) = Ok r;
  parse_keys_json l : parse_keys (body_text (JsonKeys l)) = Ok l;
  parse_entries_json l : parse_entries (body_text (JsonBlobEntries l)) = Ok l;
  purge_body_read e : purge_body_from_slice (purge_body_to_vec e) = Ok e
}.

(** ** Errors *)

Definition DAEMON_PREDATES_REPLICATION : string :=
  "daemon predates replication reads (gonzalo#203); upgrade gonzalod".

Definition DAEMON_PREDATES_BLOB_PRESENCE : string :=
  "daemon predates the blob presence check (gonzalo#329); upgrade gonzalod".

Definition upgrade_required : CoreError := Backend DAEMON_PREDATES_REPLICATION.

(** [be] and [se]. *)
Definition be (e : string) : CoreError := Backend e.
Definition se (e : string) : CoreError := Serde e.

Section classify.
Context `{Bodies} `{WireJson}.

Definition daemon_returned (s : N) (body : string) : string :=
  "daemon returned " +:+ status_code_text s +:+ ": " +:+ body.

Definition read_response_error (s : N) (body : string) : CoreError :=
  Backend (daemon_returned s body).

Definition is_success (s : N) : bool := (200 <=? s)%N && (s <? 300)%N.

Definition ensure_read_ok (resp : Response) : Result Response :=
  if is_success (status resp) then Ok resp
  else Err (read_response_error (status resp) (body_text (payload resp))).

Definition classify_delete_response (s : N) (body : string) : Result DeleteResult :=
  if decide (s = OK ∨ s = CONFLICT) then map_err se (parse_delete_outcome body)
  else Err (Backend (daemon_returned s body)).

Definition classify_put_response (s : N) (body : string) : Result PutResult :=
  if decide (s = OK ∨ s = CONFLICT) then map_err se (parse_put_outcome body)
  else if decide (s = BAD_REQUEST) then Err (Invalid (daemon_returned s body))
  else Err (Backend (daemon_returned s body)).

Definition classify_put_response_for (key : RecordKey) (s : N) (body : string) :
    Result PutResult :=
  if decide (s = PRECONDITION_FAILED) then Err (NotFound key)
  else classify_put_response s body.

Definition classify_raw_put_response (key : RecordKey) (s : N) (body : string) :
    Result PutResult :=
  if decide (s = NOT_FOUND) then Err upgrade_required
  else classify_put_response_for key s body.

Definition classify_raw_get_response (s : N) (body : string) : Result (option record) :=
  if decide (s = OK) then map_err se (parse_raw_record body)
  else if decide (s = NOT_FOUND) then Err upgrade_required
  else Err (read_response_error s body).

Definition classify_raw_list_response (s : N) (body : string) : Result (list RecordKey) :=
  if decide (s = OK) then map_err se (parse_keys body)
  else if decide (s = NOT_FOUND) then Err upgrade_required
  else Err (read_response_error s body).

Definition classify_purge_response (s : N) (body : string) : Result DeleteResult :=
  if decide (s = NOT_FOUND) then Err upgrade_required
  else classify_delete_response s body.

Definition classify_blob_put_response (s : N) (body : string) (hash : ContentHash) :
    Result ContentHash :=
  if decide (s = OK) then Ok hash else Err (Backend (daemon_returned s body)).

(** *** gRPC *)

Definition status_error (s : Status) : CoreError := Backend (status_text s).

Definition replication_status (s : Status) : CoreError :=
  if decide (code s = Unimplemented) then upgrade_required else status_error s.

Definition presence_status (s : Status) : CoreError :=
  if decide (code s = Unimplemented) then Backend DAEMON_PREDATES_BLOB_PRESENCE
  else status_error s.

Definition put_status (s : Status) (key : RecordKey) : CoreError :=
  if decide (code s = FailedPrecondition) then NotFound key
  else if decide (code s = InvalidArgument) then Invalid (body_text (message s))
  else status_error s.

Definition raw_put_status (s : Status) (key : RecordKey) : CoreError :=
  if decide (code s = Unimplemented) then upgrade_required else put_status s key.

Definition decode_put_response (resp : PutResponse) : Result PutResult :=
  if decide (po_outcome resp = "committed") then
    rev ← map_err se (json_from_slice (po_payload_json resp)); Ok (Committed rev)
  else if decide (po_outcome resp = "conflict") then
    c ← map_err se (json_from_slice (po_payload_json resp)); Ok (PutConflicted c)
  else Err (Backend ("unknown put outcome: " +:+ po_outcome resp)).

Definition decode_get_response (resp : GetResponse) : Result (option record) :=
  if gr_found resp then r ← map_err se (json_from_slice (gr_record_json resp)); Ok (Some r)
  else Ok None.

Definition decode_delete_outcome (outcome : string) (payload_json : bytes) :
    Result DeleteResult :=
  if decide (outcome = "deleted") then Ok Deleted
  else if decide (outcome = "conflict") then
    c ← map_err se (json_from_slice payload_json); Ok (DeleteConflicted c)
  else Err (Backend ("unknown delete outcome: " +:+ outcome)).

Definition decode_keys (resp : ListResponse) : Result (list RecordKey) :=
  collect_results (λ b, map_err se (json_from_slice b)) (keys_json resp).
End classify.

(** ** URLs *)

Section urls.
Context `{UrlCrate}.

Definition extend_path (url : Url) (segs : list string) : Result Url :=
  path ← ok_or (Backend "base URL cannot be a base") (url_path url);
  Ok (mkUrl (Some (extend_segments path segs)) (url_query url)).

Definition key_url (base : Url) (segments : list string) (key : RecordKey) : Result Url :=
  url ← extend_path base segments;
  extend_path url [key_namespace key; key_collection key; key_id key].

Definition records_url (base : Url) (key : RecordKey) : Result Url :=
  key_url base ["v1"; "records"] key.

Definition raw_records_url (base : Url) (key : RecordKey) : Result Url :=
  key_url base ["v1"; "raw"; "records"] key.

Definition purge_url (base : Url) (key : RecordKey) : Result Url :=
  key_url base ["v1"; "purge"] key.

Definition append_pair (name : string) (value : option string) (url : Url) : Url :=
  match value with
  | Some v => mkUrl (url_path url) (url_query url ++ [(name, v)])
  | None => url
  end.

Definition keys_url (base : Url) (segments : list string) (prefix : KeyPrefix) : Result Url :=
  url ← extend_path base segments;
  Ok (append_pair "collection" (prefix_collection prefix)
        (append_pair "namespace" (prefix_namespace prefix) url)).

Definition blobs_url (base : Url) (hash : option string) : Result Url :=
  url ← extend_path base ["v1"; "blobs"];
  match hash with Some h => extend_path url [h] | None => Ok url end.
End urls.

(** ** The client *)

(** [enum Backend]: the transport and the bearer token. *)
Inductive Transport :=
  | OverHttp (base : Url) (token : option string)
  | OverGrpc (token : option string).

Section server_store.
Context `{Blake3} `{UrlCrate} `{Headers} `{Bodies} `{WireJson} {W : Type} (peer : Peer W).

Definition bearer_header (t : string) : string := "Bearer " +:+ t.

Definition maybe_auth (token : option string) : result string (option string) :=
  match token with
  | Some t => http_header (bearer_header t)
  | None => Ok None
  end.

(** [maybe_auth(client.get(url), token).send().await.map_err(be)]. *)
Definition send (m : Method) (url : Url) (token : option string) (body : RequestBody) :
    M W CoreError Response :=
  hdr ← lift (map_err be (maybe_auth token));
  map_errM be (peer_http peer (mkHttpRequest m url hdr body)).

(** [status] and [text] of a response. *)
Definition status_and_text (resp : Response) : N * string :=
  (status resp, body_text (payload resp)).

(** The metadata [grpc_request] attaches. *)
Definition grpc_request (token : option string) : Result (option string) :=
  match token with
  | Some t => ok_or (Backend "invalid token characters") (grpc_metadata (bearer_header t))
  | None => Ok None
  end.

(** One RPC, with what becomes of a failure. *)
Definition rpc {A} (token : option string) (r : Rpc A) (f : Status → CoreError) :
    M W CoreError A :=
  md ← lift (grpc_request token);
  map_errM f (peer_grpc peer md r).

Definition remote_get (t : Transport) (key : RecordKey) : M W CoreError (option record) :=
  match t with
  | OverHttp base token =>
      url ← lift (records_url base key);
      resp ← send GET url token EmptyBody;
      if decide (status resp = NOT_FOUND) then mret None
      else
        resp ← lift (ensure_read_ok resp);
        rec ← lift (map_err be (parse_record (body_text (payload resp))));
        mret (Some rec)
  | OverGrpc token =>
      resp ← rpc token
        (GetRpc (mkGetRequest (key_namespace key) (key_collection key) (key_id key)))
        status_error;
      lift (decode_get_response resp)
  end.

Definition remote_put (t : Transport) (r : record) (expected : option Revision) :
    M W CoreError PutResult :=
  let key := rec_key r in
  match t with
  | OverHttp base token =>
      url ← lift (records_url base key);
      resp ← send PUT url token (JsonPutBody (mkPutBody r expected));
      let '(s, text) := status_and_text resp in
      lift (classify_put_response_for key s text)
  | OverGrpc token =>
      record_json ← lift (map_err se (json_to_vec r));
      expected_json ← lift (map_err se (json_to_vec expected));
      resp ← rpc token (PutRpc (mkPutRequest record_json expected_json))
        (λ s, put_status s key);
      lift (decode_put_response resp)
  end.

Definition remote_list (t : Transport) (prefix : KeyPrefix) :
    M W CoreError (list RecordKey) :=
  match t with
  | OverHttp base token =>
      url ← lift (keys_url base ["v1"; "keys"] prefix);
      resp ← send GET url token EmptyBody;
      resp ← lift (ensure_read_ok resp);
      lift (map_err be (parse_keys (body_text (payload resp))))
  | OverGrpc token =>
      resp ← rpc token
        (ListRpc (mkListRequest (prefix_namespace prefix) (prefix_collection prefix)))
        status_error;
      lift (decode_keys resp)
  end.

Definition remote_delete_as (t : Transport) (key : RecordKey) (expected : option Revision)
    (author : option Identity) : M W CoreError DeleteResult :=
  match t with
  | OverHttp base token =>
      url ← lift (records_url base key);
      resp ← send DELETE url token (JsonDeleteBody (mkDeleteBody expected author));
      let '(s, text) := status_and_text resp in
      lift (classify_delete_response s text)
  | OverGrpc token =>
      author_json ← lift match author with
                         | None => Ok []
                         | Some a => map_err se (json_to_vec a)
                         end;
      expected_json ← lift (map_err se (json_to_vec expected));
      resp ← rpc token
        (DeleteRpc (mkDeleteRequest (key_namespace key) (key_collection key) (key_id key)
           expected_json author_json)) status_error;
      lift (decode_delete_outcome (do_outcome resp) (do_payload_json resp))
  end.

Definition remote_get_raw (t : Transport) (key : RecordKey) : M W CoreError (option record) :=
  match t with
  | OverHttp base token =>
      url ← lift (raw_records_url base key);
      resp ← send GET url token EmptyBody;
      let '(s, text) := status_and_text resp in
      lift (classify_raw_get_response s text)
  | OverGrpc token =>
      resp ← rpc token
        (GetRawRpc (mkGetRequest (key_namespace key) (key_collection key) (key_id key)))
        replication_status;
      lift (decode_get_response resp)
  end.

Definition remote_list_raw (t : Transport) (prefix : KeyPrefix) :
    M W CoreError (list RecordKey) :=
  match t with
  | OverHttp base token =>
      url ← lift (keys_url base ["v1"; "raw"; "keys"] prefix);
      resp ← send GET url token EmptyBody;
      let '(s, text) := status_and_text resp in
      lift (classify_raw_list_response s text)
  | OverGrpc token =>
      resp ← rpc token
        (ListRawRpc (mkListRequest (prefix_namespace prefix) (prefix_collection prefix)))
        replication_status;
      lift (decode_keys resp)
  end.

Definition remote_put_raw (t : Transport) (r : record) (expected : option Revision) :
    M W CoreError PutResult :=
  let key := rec_key r in
  match t with
  | OverHttp base token =>
      url ← lift (raw_records_url base key);
      resp ← send PUT url token (JsonPutBody (mkPutBody r expected));
      let '(s, text) := status_and_text resp in
      lift (classify_raw_put_response key s text)
  | OverGrpc token =>
      record_json ← lift (map_err se (json_to_vec r));
      expected_json ← lift (map_err se (json_to_vec expected));
      resp ← rpc token (PutRawRpc (mkPutRequest record_json expected_json))
        (λ s, raw_put_status s key);
      lift (decode_put_response resp)
  end.

Definition remote_purge (t : Transport) (key : RecordKey) (expected : Revision) :
    M W CoreError DeleteResult :=
  match t with
  | OverHttp base token =>
      url ← lift (purge_url base key);
      resp ← send POST url token (Raw (purge_body_to_vec expected));
      let '(s, text) := status_and_text resp in
      lift (classify_purge_response s text)
  | OverGrpc token =>
      expected_json ← lift (map_err se (json_to_vec expected));
      resp ← rpc token
        (PurgeRpc (mkPurgeRequest (key_namespace key) (key_collection key) (key_id key)
           expected_json)) replication_status;
      lift (decode_delete_outcome (do_outcome resp) (do_payload_json resp))
  end.

Definition remote_put_blob (t : Transport) (content : bytes) : M W CoreError ContentHash :=
  let hash := ContentHash_of content in
  match t with
  | OverHttp base token =>
      url ← lift (blobs_url base (Some (hash_hex hash)));
      resp ← send PUT url token (Raw content);
      let '(s, text) := status_and_text resp in
      lift (classify_blob_put_response s text hash)
  | OverGrpc token =>
      h ← rpc token (PutBlobRpc (mkPutBlobRequest (hash_hex hash) content)) status_error;
      mret (mkHash h)
  end.

Definition remote_get_blob (t : Transport) (hash : ContentHash) :
    M W CoreError (option bytes) :=
  match t with
  | OverHttp base token =>
      url ← lift (blobs_url base (Some (hash_hex hash)));
      resp ← send GET url token EmptyBody;
      if decide (status resp = NOT_FOUND) then mret None
      else
        resp ← lift (ensure_read_ok resp);
        mret (Some (body_content (payload resp)))
  | OverGrpc token =>
      resp ← rpc token (GetBlobRpc (hash_hex hash)) status_error;
      mret (if gb_found resp then Some (gb_content resp) else None)
  end.

Definition remote_has_blob (t : Transport) (hash : ContentHash) : M W CoreError bool :=
  match t with
  | OverHttp base token =>
      url ← lift (blobs_url base (Some (hash_hex hash)));
      resp ← send HEAD url token EmptyBody;
      if decide (status resp = NOT_FOUND) then mret false
      else
        _ ← lift (ensure_read_ok resp);
        mret true
  | OverGrpc token => rpc token (HasBlobRpc (hash_hex hash)) presence_status
  end.

Definition remote_list_blobs (t : Transport) : M W CoreError (list BlobEntry) :=
  match t with
  | OverHttp base token =>
      url ← lift (blobs_url base None);
      resp ← send GET url token EmptyBody;
      resp ← lift (ensure_read_ok resp);
      lift (map_err be (parse_entries (body_text (payload resp))))
  | OverGrpc token =>
      entries ← rpc token ListBlobsRpc status_error;
      mret ((λ '(h, ms), mkBlobEntry (mkHash h) ms) <$> entries)
  end.

Definition remote_delete_blob (t : Transport) (hash : ContentHash) : M W CoreError unit :=
  match t with
  | OverHttp base token =>
      url ← lift (blobs_url base (Some (hash_hex hash)));
      resp ← send DELETE url token EmptyBody;
      let '(s, text) := status_and_text resp in
      if decide (s = OK) then mret tt else throw (Backend (daemon_returned s text))
  | OverGrpc token =>
      _ ← rpc token (DeleteBlobRpc (hash_hex hash)) status_error;
      mret tt
  end.

(** [impl Store for ServerStore] and [impl BlobStore for ServerStore]. *)
Definition ServerStore (t : Transport) : Store W :=
  mkStore (remote_get t) (remote_put t) (remote_list t) (remote_delete_as t)
    (remote_get_raw t) (remote_list_raw t) (remote_put_raw t) (remote_purge t).

Definition ServerBlobs (t : Transport) : BlobStore W :=
  mkBlobStore (remote_put_blob t) (remote_get_blob t) (remote_list_blobs t)
    (remote_has_blob t) (remote_delete_blob t).
End server_store.
