(* ===== verification/Daemon.v ===== *)
(** * Daemon: the modelled daemon as a peer, and what a remote call should do

    The route table of [http.rs] with its extractors and size limits, the gRPC
    server with its own, and the daemon they make for [Remote]'s client; then the
    specification: the guarded service, which runs the service's operations as the
    principal of a token, and how a client's answer may differ from its. *)

From S2P Require Import SampleStores.
From S2P Require Export Remote.

(** ** Routing *)

Inductive Pat := Lit (s : string) | Param.

(** axum's matching of a route: literal segments and captures, each of one
    segment that is not empty. *)
Fixpoint captures (pat : list Pat) (segs : list string) : option (list string) :=
  match pat, segs with
  | [], [] => Some []
  | Lit l :: pat, s :: segs => if decide (l = s) then captures pat segs else None
  | Param :: pat, s :: segs =>
      if decide (s = "") then None else cons s <$> captures pat segs
  | _, _ => None
  end.

(** [axum] and [tonic]: route matching and the sizes the limits are compared
    with. *)
Class Frameworks := {
  path_params : list Pat → list string → option (list string);
  path_params_spec pat segs : path_params pat segs = captures pat segs;
  body_len : RequestBody → N;
  body_len_raw b : body_len (Raw b) = N.of_nat (length b);
  rpc_len : ∀ A, Rpc A → N
}.
Arguments rpc_len {_ A}.

Record Route := mkRoute {
  rt_method : Method;
  rt_pattern : list Pat;
  rt_limit : option N;
  rt_extract : list string → HttpRequest → option Request
}.

(** [axum]'s default body limit, where no layer sets another. *)
Definition DEFAULT_BODY_LIMIT : N := 2 * 1024 * 1024.

Definition key_pattern (base : list string) : list Pat := (Lit <$> base) ++ [Param; Param; Param].

Definition three (f : string → string → string → option Request) (caps : list string) :
    option Request :=
  match caps with [ns; col; id] => f ns col id | _ => None end.

Definition one_capture (f : string → option Request) (caps : list string) : option Request :=
  match caps with [h] => f h | _ => None end.

Definition query_field (name : string) (q : list (string * string)) : option string :=
  snd <$> head (filter (λ p, p.1 = name) q).

Definition list_query (rq : HttpRequest) : ListQuery :=
  let q := url_query (hr_url rq) in
  mkListQuery (query_field "namespace" q) (query_field "collection" q).

Definition put_body (rq : HttpRequest) : option PutBody :=
  match hr_body rq with JsonPutBody b => Some b | _ => None end.

Definition raw_body (rq : HttpRequest) : option bytes :=
  match hr_body rq with Raw b => Some b | EmptyBody => Some [] | _ => None end.

Definition delete_body (rq : HttpRequest) : option (option DeleteBody) :=
  match hr_body rq with
  | JsonDeleteBody b => Some (Some b)
  | EmptyBody => Some None
  | _ => None
  end.

(** [router]'s table (the record, replication, purge and blob routes) with the
    handlers' extractors.  The blob routes carry the service's limit. *)
Definition routes (max_blob : N) : list Route :=
  [ mkRoute GET [Lit "healthz"] None (λ _ _, Some Healthz);
    mkRoute GET [Lit "readyz"] None (λ _ _, Some Readyz);
    mkRoute GET (key_pattern ["v1"; "records"]) None
      (λ caps _, three (λ ns col id, Some (GetRecord ns col id)) caps);
    mkRoute PUT (key_pattern ["v1"; "records"]) (Some DEFAULT_BODY_LIMIT)
      (λ caps rq, three (λ ns col id, PutRecord (ns, col, id) <$> put_body rq) caps);
    mkRoute DELETE (key_pattern ["v1"; "records"]) (Some DEFAULT_BODY_LIMIT)
      (λ caps rq, three (λ ns col id, DeleteRecord ns col id <$> delete_body rq) caps);
    mkRoute GET [Lit "v1"; Lit "keys"] None (λ _ rq, Some (ListKeys (list_query rq)));
    mkRoute GET (key_pattern ["v1"; "raw"; "records"]) None
      (λ caps _, three (λ ns col id, Some (GetRawRecord ns col id)) caps);
    mkRoute PUT (key_pattern ["v1"; "raw"; "records"]) (Some DEFAULT_BODY_LIMIT)
      (λ caps rq, three (λ ns col id, PutRawRecord (ns, col, id) <$> put_body rq) caps);
    mkRoute GET [Lit "v1"; Lit "raw"; Lit "keys"] None
      (λ _ rq, Some (ListRawKeys (list_query rq)));
    mkRoute POST (key_pattern ["v1"; "purge"]) (Some DEFAULT_BODY_LIMIT)
      (λ caps rq, three (λ ns col id, PurgeRecord ns col id <$> raw_body rq) caps);
    mkRoute GET [Lit "v1"; Lit "blobs"; Param] None (λ caps _, one_capture (λ h, Some (GetBlob h)) caps);
    mkRoute HEAD [Lit "v1"; Lit "blobs"; Param] None
      (λ caps _, one_capture (λ h, Some (HeadBlob h)) caps);
    mkRoute PUT [Lit "v1"; Lit "blobs"; Param] (Some max_blob)
      (λ caps rq, one_capture (λ h, PutBlob h <$> raw_body rq) caps);
    mkRoute DELETE [Lit "v1"; Lit "blobs"; Param] None
      (λ caps _, one_capture (λ h, Some (DeleteBlob h)) caps);
    mkRoute GET [Lit "v1"; Lit "blobs"] None (λ _ _, Some ListBlobs) ].

Definition METHOD_NOT_ALLOWED : N := 405.
Definition PAYLOAD_TOO_LARGE : N := 413.
Definition UNPROCESSABLE_ENTITY : N := 422.

Inductive Routed :=
  | Matched (rt : Route) (caps : list string)
  | WrongMethod
  | NoRoute.

Section routing.
Context `{Frameworks}.

(** The route of a method and a path.  A [HEAD] that no route takes is answered
    by the path's [GET] route. *)
Fixpoint find_route (m : Method) (segs : list string) (table : list Route) : Routed :=
  match table with
  | [] => NoRoute
  | rt :: table =>
      match path_params (rt_pattern rt) segs with
      | Some caps =>
          if decide (rt_method rt = m) then Matched rt caps
          else match find_route m segs table with NoRoute => WrongMethod | found => found end
      | None => find_route m segs table
      end
  end.

Definition route_of (max_blob : N) (rq : HttpRequest) : Routed :=
  let segs := default [] (url_path (hr_url rq)) in
  match find_route (hr_method rq) segs (routes max_blob) with
  | WrongMethod =>
      if decide (hr_method rq = HEAD) then find_route GET segs (routes max_blob)
      else WrongMethod
  | found => found
  end.
End routing.

(** ** The daemon as a peer *)

Section served.
Context `{Blake3} `{PurgeSerde} `{WireJson} `{Frameworks} {W : Type}.
Context (svc : Service W) (auth : Auth).

(** What the framework answers itself, behind the authentication middleware. *)
Definition refuse (hdr : option string) (s : N) (pl : Payload) : W → Response * W := λ w,
  match authenticate auth (bearer hdr) with
  | Some _ => (mkResponse s pl, w)
  | None => (mkResponse UNAUTHORIZED NoBody, w)
  end.

Definition over_limit (limit : option N) (b : RequestBody) : bool :=
  match limit with Some n => (n <? body_len b)%N | None => false end.

Definition serve_http (rq : HttpRequest) : M W string Response := λ w,
  let hdr := hr_authorization rq in
  let '(resp, w') :=
    match route_of (svc_max_blob_size svc) rq with
    | Matched rt caps =>
        if over_limit (rt_limit rt) (hr_body rq)
        then refuse hdr PAYLOAD_TOO_LARGE (Text "length limit exceeded") w
        else match rt_extract rt caps rq with
             | Some req => router svc auth hdr req w
             | None => refuse hdr UNPROCESSABLE_ENTITY (Text "cannot be extracted") w
             end
    | WrongMethod => refuse hdr METHOD_NOT_ALLOWED NoBody w
    | NoRoute => refuse hdr NOT_FOUND NoBody w
    end in
  (Ok resp, w').

(** [serve_grpc]: the decode limit is the server's, for every RPC. *)
Definition serve_grpc (A : Type) (md : option string) (r : Rpc A) : M W Status A :=
  if (svc_max_blob_size svc <? rpc_len r)%N
  then throw (mkStatus OutOfRange (Text "decoded message length too large"))
  else
    match r with
    | GetRpc r => rpc_get svc auth md r
    | PutRpc r => rpc_put svc auth md r
    | DeleteRpc r => rpc_delete svc auth md r
    | ListRpc r => rpc_list svc auth md r
    | GetRawRpc r => rpc_get_raw svc auth md r
    | ListRawRpc r => rpc_list_raw svc auth md r
    | PutRawRpc r => rpc_put_raw svc auth md r
    | PurgeRpc r => rpc_purge svc auth md r
    | PutBlobRpc r => rpc_put_blob svc auth md r
    | GetBlobRpc h => rpc_get_blob svc auth md h
    | HasBlobRpc h => rpc_has_blob svc auth md h
    | ListBlobsRpc => rpc_list_blobs svc auth md
    | DeleteBlobRpc h => rpc_delete_blob svc auth md h
    end.

Definition daemon : Peer W := mkPeer serve_http serve_grpc.
End served.

(** ** The guarded service *)

Section guarded.
Context `{Blake3} {W : Type} (svc : Service W) (who : option Principal).

(** The operation as a principal who must hold [ok]. *)
Definition as_principal {A} (ok : Principal → bool) (f : Principal → M W CoreError A) :
    M W CoreError A :=
  match who with
  | Some p => if ok p then f p else throw (Backend "permission denied")
  | None => throw (Backend "unauthenticated")
  end.

Definition may (a : Access) (ns : string) (p : Principal) : bool := allows p a ns.
Definition may_list (prefix : KeyPrefix) : Principal → bool :=
  may Read (default "*" (prefix_namespace prefix)).

Definition guarded_store : Store W :=
  mkStore
    (λ k, as_principal (may Read (key_namespace k)) (λ _, svc_get svc k))
    (λ r e, as_principal (may Write (key_namespace (rec_key r)))
       (λ p, svc_put svc (stamp_author p r) e))
    (λ prefix, as_principal (may_list prefix) (λ _, svc_list svc prefix))
    (λ k e a, as_principal (may Write (key_namespace k))
       (λ p, svc_delete_as svc k e (delete_author p a)))
    (λ k, as_principal (may Read (key_namespace k)) (λ _, svc_get_raw svc k))
    (λ prefix, as_principal (may_list prefix) (λ _, svc_list_raw svc prefix))
    (λ r e, as_principal is_admin (λ _, svc_put_raw svc r e))
    (λ k e, as_principal is_admin (λ _, svc_purge svc k e)).

Definition guarded_blobs : BlobStore W :=
  mkBlobStore
    (λ c, as_principal (may Write BLOB_NS) (λ _, svc_put_blob svc c))
    (λ h, as_principal (may Read BLOB_NS) (λ _, svc_get_blob svc h))
    (as_principal (may Read BLOB_NS) (λ _, svc_list_blobs svc))
    (λ h, as_principal (may Read BLOB_NS) (λ _, svc_has_blob svc h))
    (λ h, as_principal (may Write BLOB_NS) (λ _, svc_delete_blob svc h)).
End guarded.

(** ** Calls *)

(** Any call of the two traits. *)
Inductive Op : Type → Type :=
  | OpGet (k : RecordKey) : Op (option record)
  | OpPut (r : record) (e : option Revision) : Op PutResult
  | OpList (p : KeyPrefix) : Op (list RecordKey)
  | OpDelete (k : RecordKey) (e : option Revision) (a : option Identity) : Op DeleteResult
  | OpGetRaw (k : RecordKey) : Op (option record)
  | OpListRaw (p : KeyPrefix) : Op (list RecordKey)
  | OpPutRaw (r : record) (e : option Revision) : Op PutResult
  | OpPurge (k : RecordKey) (e : Revision) : Op DeleteResult
  | OpPutBlob (c : bytes) : Op ContentHash
  | OpGetBlob (h : ContentHash) : Op (option bytes)
  | OpListBlobs : Op (list BlobEntry)
  | OpHasBlob (h : ContentHash) : Op bool
  | OpDeleteBlob (h : ContentHash) : Op unit.

Definition call {W A} (s : Store W) (b : BlobStore W) (op : Op A) : M W CoreError A :=
  match op with
  | OpGet k => st_get s k
  | OpPut r e => st_put s r e
  | OpList p => st_list s p
  | OpDelete k e a => st_delete_as s k e a
  | OpGetRaw k => st_get_raw s k
  | OpListRaw p => st_list_raw s p
  | OpPutRaw r e => st_put_raw s r e
  | OpPurge k e => st_purge s k e
  | OpPutBlob c => bs_put_blob b c
  | OpGetBlob h => bs_get_blob b h
  | OpListBlobs => bs_list_blobs b
  | OpHasBlob h => bs_has_blob b h
  | OpDeleteBlob h => bs_delete_blob b h
  end.

(** A put keeps telling apart an unmet precondition and a call that can never be
    accepted; every other failure is a backend error to the client. *)
Definition wire_error {A} (op : Op A) (e e' : CoreError) : Prop :=
  match op, e with
  | (OpPut r _ | OpPutRaw r _), NotFound _ => e' = NotFound (rec_key r)
  | (OpPut _ _ | OpPutRaw _ _), Invalid _ => ∃ reason, e' = Invalid reason
  | _, _ => ∃ text, e' = Backend text
  end.

Definition answered {A} (op : Op A) (spec client : Result A) : Prop :=
  match spec, client with
  | Ok a, Ok b => a = b
  | Err e, Err e' => wire_error op e e'
  | _, _ => False
  end.

(** ** What a call must be for its transport *)

(** Path segments that [url] keeps as they are and a route captures: not empty, not
    a dot segment, and without a tab, a line feed or a carriage return. *)
Definition plain (s : string) : Prop :=
  s ≠ "" ∧ ¬ dot_segment s ∧ without_skipped s = s.
#[export] Instance plain_dec s : Decision (plain s) := _.

Definition plain_key (k : RecordKey) : Prop :=
  plain (key_namespace k) ∧ plain (key_collection k) ∧ plain (key_id k).

Definition transport_token (t : Transport) : option string :=
  match t with OverHttp _ token | OverGrpc token => token end.

(** The token is visible ASCII and, over HTTP, the base URL is the daemon's
    root. *)
Definition reaches (t : Transport) : Prop :=
  (∀ tok, transport_token t = Some tok → visible tok = true) ∧
  match t with
  | OverHttp base _ => base = mkUrl (Some []) []
  | OverGrpc _ => True
  end.

(** Over HTTP a key or a hash is part of the path. *)
Definition routable `{Blake3} {A} (t : Transport) (op : Op A) : Prop :=
  match t with
  | OverGrpc _ => True
  | OverHttp _ _ =>
      match op with
      | OpGet k | OpDelete k _ _ | OpGetRaw k | OpPurge k _ => plain_key k
      | OpPut r _ | OpPutRaw r _ => plain_key (rec_key r)
      | OpPutBlob c => plain (hash_hex (ContentHash_of c))
      | OpGetBlob h | OpHasBlob h | OpDeleteBlob h => plain (hash_hex h)
      | OpList _ | OpListRaw _ | OpListBlobs => True
      end
  end.

Section fits.
Context `{Blake3} `{Bodies} `{WireJson} `{Frameworks} {W : Type} (svc : Service W).

Definition http_fits {A} (op : Op A) : Prop :=
  match op with
  | OpPut r e | OpPutRaw r e =>
      (body_len (JsonPutBody (mkPutBody r e)) ≤ DEFAULT_BODY_LIMIT)%N
  | OpDelete _ e a => (body_len (JsonDeleteBody (mkDeleteBody e a)) ≤ DEFAULT_BODY_LIMIT)%N
  | OpPurge _ e => (body_len (Raw (purge_body_to_vec e)) ≤ DEFAULT_BODY_LIMIT)%N
  | OpPutBlob c => (N.of_nat (length c) ≤ svc_max_blob_size svc)%N
  | _ => True
  end.

(** The messages an operation sends. *)
Inductive sends : ∀ {A B}, Op A → Rpc B → Prop :=
  | sends_get k : sends (OpGet k)
      (GetRpc (mkGetRequest (key_namespace k) (key_collection k) (key_id k)))
  | sends_put r e rj ej : json_to_vec r = Ok rj → json_to_vec e = Ok ej →
      sends (OpPut r e) (PutRpc (mkPutRequest rj ej))
  | sends_list p : sends (OpList p)
      (ListRpc (mkListRequest (prefix_namespace p) (prefix_collection p)))
  | sends_delete k e a ej aj :
      json_to_vec e = Ok ej →
      match a with None => aj = [] | Some a => json_to_vec a = Ok aj end →
      sends (OpDelete k e a)
        (DeleteRpc (mkDeleteRequest (key_namespace k) (key_collection k) (key_id k) ej aj))
  | sends_get_raw k : sends (OpGetRaw k)
      (GetRawRpc (mkGetRequest (key_namespace k) (key_collection k) (key_id k)))
  | sends_list_raw p : sends (OpListRaw p)
      (ListRawRpc (mkListRequest (prefix_namespace p) (prefix_collection p)))
  | sends_put_raw r e rj ej : json_to_vec r = Ok rj → json_to_vec e = Ok ej →
      sends (OpPutRaw r e) (PutRawRpc (mkPutRequest rj ej))
  | sends_purge k e ej : json_to_vec e = Ok ej →
      sends (OpPurge k e)
        (PurgeRpc (mkPurgeRequest (key_namespace k) (key_collection k) (key_id k) ej))
  | sends_put_blob c : sends (OpPutBlob c)
      (PutBlobRpc (mkPutBlobRequest (hash_hex (ContentHash_of c)) c))
  | sends_get_blob h : sends (OpGetBlob h) (GetBlobRpc (hash_hex h))
  | sends_list_blobs : sends OpListBlobs ListBlobsRpc
  | sends_has_blob h : sends (OpHasBlob h) (HasBlobRpc (hash_hex h))
  | sends_delete_blob h : sends (OpDeleteBlob h) (DeleteBlobRpc (hash_hex h)).

(** The call is within the daemon's size limits. *)
Definition fits {A} (t : Transport) (op : Op A) : Prop :=
  match t with
  | OverHttp _ _ => http_fits op
  | OverGrpc _ => ∀ B (r : Rpc B), sends op r → (rpc_len r ≤ svc_max_blob_size svc)%N
  end.
End fits.

(** A blob is stored under its content's hash. *)
Definition names_by_content `{Blake3} {W} (svc : Service W) : Prop :=
  ∀ c w h w', svc_put_blob svc c w = (Ok h, w') → h = ContentHash_of c.
