(* ===== verification/RemoteRefine.v ===== *)
(** * RemoteRefine: every remote call refines the guarded service

    One lemma per call and transport: over HTTP through the URL, the route and
    the classification of the response, over gRPC through the messages and the
    mapping of statuses.  [http_refines] and [grpc_refines] gather them. *)

From S2P Require Import Paths.
From S2P Require Export Daemon.

(** ** Lemmas: tokens, URLs and routes *)

Lemma visible_app s t : visible (s +:+ t) = visible s && visible t.
Proof.
  unfold visible. by rewrite bytes_of_string_app, forallb_app.
Qed.

Lemma strip_prefix_app p s : strip_prefix p (p +:+ s) = Some s.
Proof. induction p as [|a p IH]; [done|].
  change (String a p +:+ s) with (String a (p +:+ s)). cbn [strip_prefix]. by rewrite decide_True. Qed.

Lemma bearer_bearer_header t : bearer (Some (bearer_header t)) = Some t.
Proof. unfold bearer, bearer_header. cbn [mbind option_bind]. apply strip_prefix_app. Qed.

(** What the daemon reads of a transport's token. *)
Lemma header_sent `{Headers} t : reaches t →
  ∃ hdr, maybe_auth (transport_token t) = Ok hdr ∧
    grpc_request (transport_token t) = Ok hdr ∧ bearer hdr = transport_token t.
Proof.
  intros [Hvis _]. destruct (transport_token t) as [tok|]; [|by exists None].
  assert (visible (bearer_header tok) = true) as Hb.
  { unfold bearer_header. rewrite visible_app, (Hvis tok) by done. done. }
  exists (Some (bearer_header tok)). cbn [maybe_auth grpc_request].
  rewrite http_header_visible, grpc_metadata_visible by done.
  by rewrite bearer_bearer_header.
Qed.

Lemma kept_plain segs : Forall plain segs → kept_segments segs = segs.
Proof.
  induction 1 as [|s segs (_ & Hdot & Hskip) _ IH]; [done|].
  unfold kept_segments in *. rewrite filter_cons_True by done. cbn. by rewrite Hskip, IH.
Qed.

Lemma plain_undotted s : plain s → undotted s.
Proof. intros (_ & _ & ?). auto. Qed.

(** A key's captures, and a hash's. *)
Lemma captures_key segs ns col id : plain ns → plain col → plain id →
  captures (key_pattern segs) (segs ++ [ns; col; id]) = Some [ns; col; id].
Proof.
  intros [] [] []. induction segs as [|s segs IH]; cbn.
  - by rewrite !decide_False.
  - by rewrite decide_True.
Qed.

Lemma captures_hash h : plain h →
  captures [Lit "v1"; Lit "blobs"; Param] ["v1"; "blobs"; h] = Some [h].
Proof. intros [Hh _]. cbn. by rewrite (decide_False _ _ Hh). Qed.

Ltac plain_segments :=
  repeat (apply Forall_cons_2; [first [assumption | split_and!; [done|by intros []|done]]|]);
  apply Forall_nil_2.

Section urls_of_calls.
Context `{UrlCrate}.
Abbreviation root := (mkUrl (Some []) []).

Lemma extend_path_root base segs q : Forall plain base → Forall plain segs →
  extend_path (mkUrl (Some base) q) segs = Ok (mkUrl (Some (base ++ segs)) q).
Proof.
  intros Hb Hs. unfold extend_path. cbn.
  rewrite extend_segments_spec, kept_plain; [done..| |].
  - eapply Forall_impl; [exact Hs|exact plain_undotted].
  - rewrite kept_plain by done. pose proof (Forall_app_2 _ _ _ Hb Hs) as Hall.
    destruct Hall as [|s l [? _] _]; [done|]. by intros [= ->].
Qed.

Lemma key_url_root segs k : Forall plain segs → plain_key k →
  key_url root segs k =
    Ok (mkUrl (Some (segs ++ [key_namespace k; key_collection k; key_id k])) []).
Proof.
  intros Hs (? & ? & ?). unfold key_url. rewrite extend_path_root by (done || plain_segments).
  cbn [mbind result_bind]. rewrite extend_path_root by (done || plain_segments). done.
Qed.

Lemma keys_url_root segs p : Forall plain segs →
  ∃ q, keys_url root segs p = Ok (mkUrl (Some segs) q) ∧
    query_field "namespace" q = prefix_namespace p ∧
    query_field "collection" q = prefix_collection p.
Proof.
  intros Hs. unfold keys_url. rewrite extend_path_root by (done || plain_segments).
  destruct p as [[ns|] [col|]]; cbn; eexists; by split_and!.
Qed.

Lemma blobs_url_root h : plain h →
  blobs_url root (Some h) = Ok (mkUrl (Some ["v1"; "blobs"; h]) []).
Proof.
  intros Hh. unfold blobs_url. rewrite extend_path_root by plain_segments.
  cbn [mbind result_bind]. rewrite extend_path_root by plain_segments. done.
Qed.

Lemma list_blobs_url_root :
  blobs_url root None = Ok (mkUrl (Some ["v1"; "blobs"]) []).
Proof. unfold blobs_url. by rewrite extend_path_root by plain_segments. Qed.
End urls_of_calls.

Section route_lemmas.
Context `{Frameworks}.

Lemma find_route_skip m segs rt table : captures (rt_pattern rt) segs = None →
  find_route m segs (rt :: table) = find_route m segs table.
Proof. intros Hc. cbn. by rewrite path_params_spec, Hc. Qed.

Lemma find_route_here m segs rt table caps : captures (rt_pattern rt) segs = Some caps →
  rt_method rt = m → find_route m segs (rt :: table) = Matched rt caps.
Proof. intros Hc Hm. cbn. by rewrite path_params_spec, Hc, decide_True. Qed.

Lemma find_route_other m segs rt table caps rt' caps' :
  captures (rt_pattern rt) segs = Some caps → rt_method rt ≠ m →
  find_route m segs table = Matched rt' caps' →
  find_route m segs (rt :: table) = Matched rt' caps'.
Proof. intros Hc Hm Hf. cbn. by rewrite path_params_spec, Hc, decide_False, Hf. Qed.

Lemma route_matched mb rq segs rt caps :
  url_path (hr_url rq) = Some segs →
  find_route (hr_method rq) segs (routes mb) = Matched rt caps →
  route_of mb rq = Matched rt caps.
Proof. intros Hu Hf. unfold route_of. rewrite Hu.
  change (default [] (Some segs)) with segs. cbv zeta. by rewrite Hf. Qed.

(** Walks the table down to the route of a request. *)
Ltac captured :=
  first [by apply captures_key | by apply captures_hash | reflexivity].
Ltac find_route :=
  unfold routes;
  repeat first
    [ rewrite find_route_skip by reflexivity
    | eapply find_route_here; [captured|reflexivity]
    | eapply find_route_other; [captured|discriminate|] ].

(** The routes the client uses. *)
Lemma key_routes mb ns col id : plain ns → plain col → plain id →
  let served segs m limit extract :=
    find_route m (segs ++ [ns; col; id]) (routes mb) =
      Matched (mkRoute m (key_pattern segs) limit extract) [ns; col; id] in
  served ["v1"; "records"] GET None
    (λ caps _, three (λ ns col id, Some (GetRecord ns col id)) caps) ∧
  served ["v1"; "records"] PUT (Some DEFAULT_BODY_LIMIT)
    (λ caps rq, three (λ ns col id, PutRecord (ns, col, id) <$> put_body rq) caps) ∧
  served ["v1"; "records"] DELETE (Some DEFAULT_BODY_LIMIT)
    (λ caps rq, three (λ ns col id, DeleteRecord ns col id <$> delete_body rq) caps) ∧
  served ["v1"; "raw"; "records"] GET None
    (λ caps _, three (λ ns col id, Some (GetRawRecord ns col id)) caps) ∧
  served ["v1"; "raw"; "records"] PUT (Some DEFAULT_BODY_LIMIT)
    (λ caps rq, three (λ ns col id, PutRawRecord (ns, col, id) <$> put_body rq) caps) ∧
  served ["v1"; "purge"] POST (Some DEFAULT_BODY_LIMIT)
    (λ caps rq, three (λ ns col id, PurgeRecord ns col id <$> raw_body rq) caps).
Proof. intros ??? served. unfold served. split_and!; find_route. Qed.

Lemma blob_routes mb h : plain h →
  let served m limit extract :=
    find_route m ["v1"; "blobs"; h] (routes mb) =
      Matched (mkRoute m [Lit "v1"; Lit "blobs"; Param] limit extract) [h] in
  served GET None (λ caps _, one_capture (λ h, Some (GetBlob h)) caps) ∧
  served HEAD None (λ caps _, one_capture (λ h, Some (HeadBlob h)) caps) ∧
  served PUT (Some mb) (λ caps rq, one_capture (λ h, PutBlob h <$> raw_body rq) caps) ∧
  served DELETE None (λ caps _, one_capture (λ h, Some (DeleteBlob h)) caps).
Proof. intros ? served. unfold served. split_and!; find_route. Qed.

Lemma list_routes mb :
  let served segs extract :=
    find_route GET segs (routes mb) = Matched (mkRoute GET (Lit <$> segs) None extract) [] in
  served ["v1"; "keys"] (λ _ rq, Some (ListKeys (list_query rq))) ∧
  served ["v1"; "raw"; "keys"] (λ _ rq, Some (ListRawKeys (list_query rq))) ∧
  served ["v1"; "blobs"] (λ _ _, Some ListBlobs).
Proof. intros served. unfold served. split_and!; find_route. Qed.
End route_lemmas.

(** ** One exchange over HTTP *)

Lemma lift_bind {W E A B} (a : A) (f : A → M W E B) w :
  (x ← lift (Ok a); f x) w = f a w.
Proof. done. Qed.

Section http.
Context `{Blake3} `{UrlCrate} `{Headers} `{Bodies} `{PurgeSerde} `{!BodyLaws} `{WireJson}.
Context `{Frameworks} {W : Type} (svc : Service W) (auth : Auth) (token : option string).
Context (Hreach : reaches (OverHttp (mkUrl (Some []) []) token)) (Hnames : names_by_content svc).
Implicit Types w : W.
Abbreviation root := (mkUrl (Some []) []).
Abbreviation who := (authenticate auth token).
Abbreviation mb := (svc_max_blob_size svc).
Abbreviation peer := (daemon svc auth).

Definition handle_as (req : Request) : W → Response * W :=
  match who with
  | Some p => handle svc (Some p) req
  | None => λ w, (mkResponse UNAUTHORIZED NoBody, w)
  end.

(** A request that is routed, within its limit and extracted is handled as the
    principal of the token. *)
Lemma send_served {B} m segs q body rt caps req (k : Response → M W CoreError B) w :
  find_route m segs (routes mb) = Matched rt caps →
  over_limit (rt_limit rt) body = false →
  (∀ hdr, rt_extract rt caps (mkHttpRequest m (mkUrl (Some segs) q) hdr body) = Some req) →
  req ≠ Healthz → req ≠ Readyz →
  (resp ← send peer m (mkUrl (Some segs) q) token body; k resp) w =
    (let '(resp, w') := handle_as req w in k resp w').
Proof.
  intros Hroute Hlimit Hex Hh Hr.
  destruct (header_sent _ Hreach) as (hdr & Hauth & _ & Hb). cbn [transport_token] in Hauth, Hb.
  unfold send, mbind, M_bind, lift, map_errM. rewrite Hauth. cbn [map_err daemon peer_http].
  unfold serve_http. erewrite (route_matched _ (mkHttpRequest m _ _ _)); [|reflexivity|exact Hroute].
  cbn [hr_body hr_authorization]. rewrite Hlimit, Hex. unfold router, handle_as.
  destruct (is_probe_path (request_path req)) eqn:Hp;
    [by apply request_path_probe in Hp as [?|?]|].
  rewrite Hb. destruct who as [p|]; [|done]. by destruct (handle _ _ _ _).
Qed.

Lemma within_limit n b : (body_len b ≤ n)%N → over_limit (Some n) b = false.
Proof. intros. by apply N.ltb_ge. Qed.

Definition refines {A} (op : Op A) (client spec : Result A * W) : Prop :=
  client.2 = spec.2 ∧ answered op spec.1 client.1.

(** Reads a response at a known status. *)
Ltac status_cases :=
  repeat case_decide; try (exfalso; unfold OK, CONFLICT, NOT_FOUND, BAD_REQUEST, FORBIDDEN,
    UNAUTHORIZED, PRECONDITION_FAILED, INTERNAL_SERVER_ERROR in *; lia).
Ltac read_response :=
  cbn; unfold classify_raw_put_response, classify_put_response_for, classify_put_response,
    classify_purge_response, classify_delete_response, classify_raw_get_response,
    classify_raw_list_response, classify_blob_put_response;
  status_cases; unfold mbind, M_bind, lift, mret, M_ret, throw;
  cbn; rewrite ?parse_record_json, ?parse_raw_record_json, ?parse_put_outcome_json,
    ?parse_delete_outcome_json, ?parse_keys_json, ?parse_entries_json, ?body_content_octets;
  cbn; eauto.

(** Who may: the same question on both sides. *)
Ltac answer_as :=
  unfold handle_as, refines;
  cbn [handle with_principal guarded_store guarded_blobs st_get st_put st_list st_delete_as
    st_get_raw st_list_raw st_put_raw st_purge bs_put_blob bs_get_blob bs_list_blobs
    bs_has_blob bs_delete_blob key_namespace];
  unfold as_principal, may_list, may; destruct who as [p|]; [|by read_response].

(** A call on one key, once its route is known. *)
Ltac on_plain_key Hk :=
  unfold records_url, raw_records_url, purge_url;
  rewrite key_url_root by (done || plain_segments); rewrite lift_bind;
  pose proof (key_routes mb _ _ _ (proj1 Hk) (proj1 (proj2 Hk)) (proj2 (proj2 Hk)))
    as (Hr1 & Hr2 & Hr3 & Hr4 & Hr5 & Hr6);
  erewrite send_served; 
    [|eassumption|first [reflexivity|apply within_limit; eassumption]|intros; reflexivity
     |discriminate..].

Ltac on_key k Hk := destruct k as [ns col id]; on_plain_key Hk.

Lemma http_get k w : plain_key k →
  refines (OpGet k) (remote_get peer (OverHttp root token) k w)
    (st_get (guarded_store svc who) k w).
Proof.
  intros Hk. unfold remote_get. on_key k Hk. answer_as.
  unfold get_record. destruct (allows p Read ns); [|by read_response].
  by destruct (svc_get svc _ w) as [[[r|]|e] w']; read_response.
Qed.

Lemma http_get_raw k w : plain_key k →
  refines (OpGetRaw k) (remote_get_raw peer (OverHttp root token) k w)
    (st_get_raw (guarded_store svc who) k w).
Proof.
  intros Hk. unfold remote_get_raw. on_key k Hk. answer_as.
  unfold get_raw_record. destruct (allows p Read ns); [|by read_response].
  by destruct (svc_get_raw svc _ w) as [[r|e] w']; read_response.
Qed.

Lemma http_delete k e a w :
  plain_key k → http_fits svc (OpDelete k e a) →
  refines (OpDelete k e a) (remote_delete_as peer (OverHttp root token) k e a w)
    (st_delete_as (guarded_store svc who) k e a w).
Proof.
  intros Hk Hfit. unfold remote_delete_as. on_key k Hk. answer_as.
  unfold delete_record. destruct (allows p Write ns); [|by read_response].
  by destruct (svc_delete_as svc _ _ _ w) as [[[|c]|[]] w']; read_response.
Qed.

Lemma http_put r e w :
  plain_key (rec_key r) → http_fits svc (OpPut r e) →
  refines (OpPut r e) (remote_put peer (OverHttp root token) r e w)
    (st_put (guarded_store svc who) r e w).
Proof.
  intros Hk Hfit. unfold remote_put. destruct (rec_key r) as [ns col id] eqn:Hrk.
  on_plain_key Hk. answer_as. unfold put_record. cbn [pb_record pb_expected].
  rewrite (proj2 (key_mismatch_None _ _)) by (by rewrite Hrk). rewrite Hrk. cbn [key_namespace].
  destruct (allows p Write ns); [|by read_response].
  destruct (svc_put svc _ e w) as [[[]|[]] w']; read_response; by rewrite ?Hrk.
Qed.

Lemma http_put_raw r e w :
  plain_key (rec_key r) → http_fits svc (OpPutRaw r e) →
  refines (OpPutRaw r e) (remote_put_raw peer (OverHttp root token) r e w)
    (st_put_raw (guarded_store svc who) r e w).
Proof.
  intros Hk Hfit. unfold remote_put_raw. destruct (rec_key r) as [ns col id] eqn:Hrk.
  on_plain_key Hk. answer_as. unfold put_raw_record. destruct (is_admin p); [|by read_response].
  cbn [pb_record pb_expected negb].
  rewrite (proj2 (key_mismatch_None _ _)) by (by rewrite Hrk).
  destruct (svc_put_raw svc _ e w) as [[[]|[]] w']; read_response; by rewrite ?Hrk.
Qed.

Lemma http_purge k e w :
  plain_key k → http_fits svc (OpPurge k e) →
  refines (OpPurge k e) (remote_purge peer (OverHttp root token) k e w)
    (st_purge (guarded_store svc who) k e w).
Proof.
  intros Hk Hfit. unfold remote_purge. on_key k Hk. answer_as.
  unfold purge_record. destruct (is_admin p); [|by read_response]. cbn [negb].
  rewrite purge_body_read.
  by destruct (svc_purge svc _ _ w) as [[[|c]|[]] w']; read_response.
Qed.

(** *** Listings and blobs *)

Ltac on_listing req :=
  match goal with |- context [keys_url _ ?segs ?p] =>
    destruct (keys_url_root segs p) as (q & -> & Hqn & Hqc); [plain_segments|]
  end;
  rewrite lift_bind; destruct (list_routes mb) as (Hr1 & Hr2 & Hr3);
  erewrite (send_served _ _ _ _ _ _ req);
    [|eassumption|reflexivity
     |intros; cbn; unfold list_query; cbn [hr_url url_query];
      repeat match goal with Hq : query_field _ _ = _ |- _ => rewrite Hq end; reflexivity
     |discriminate..].

Lemma http_list prefix w :
  refines (OpList prefix) (remote_list peer (OverHttp root token) prefix w)
    (st_list (guarded_store svc who) prefix w).
Proof.
  unfold remote_list. destruct prefix as [ns col].
  on_listing (ListKeys (mkListQuery ns col)). answer_as.
  unfold list_keys, listing, list_prefix. cbn [q_namespace q_collection prefix_namespace].
  destruct (allows p Read _); [|by read_response]. cbn [negb].
  by destruct (svc_list svc _ w) as [[l|e] w']; read_response.
Qed.

Lemma http_list_raw prefix w :
  refines (OpListRaw prefix) (remote_list_raw peer (OverHttp root token) prefix w)
    (st_list_raw (guarded_store svc who) prefix w).
Proof.
  unfold remote_list_raw. destruct prefix as [ns col].
  on_listing (ListRawKeys (mkListQuery ns col)). answer_as.
  unfold list_raw_keys, listing, list_prefix. cbn [q_namespace q_collection prefix_namespace].
  destruct (allows p Read _); [|by read_response]. cbn [negb].
  by destruct (svc_list_raw svc _ w) as [[l|e] w']; read_response.
Qed.

Ltac on_hash h Hh :=
  rewrite blobs_url_root by done; rewrite lift_bind;
  pose proof (blob_routes mb _ Hh) as (Hr1 & Hr2 & Hr3 & Hr4);
  erewrite send_served;
    [|eassumption|first [reflexivity|apply within_limit; rewrite ?body_len_raw; eassumption]
     |intros; reflexivity|discriminate..].

Lemma http_get_blob h w : plain (hash_hex h) →
  refines (OpGetBlob h) (remote_get_blob peer (OverHttp root token) h w)
    (bs_get_blob (guarded_blobs svc who) h w).
Proof.
  intros Hh. unfold remote_get_blob. on_hash h Hh. answer_as.
  unfold get_blob. destruct (allows p Read BLOB_NS); [|by read_response]. destruct h as [h].
  by destruct (svc_get_blob svc _ w) as [[[c|]|e] w']; read_response.
Qed.

Lemma http_has_blob h w : plain (hash_hex h) →
  refines (OpHasBlob h) (remote_has_blob peer (OverHttp root token) h w)
    (bs_has_blob (guarded_blobs svc who) h w).
Proof.
  intros Hh. unfold remote_has_blob. on_hash h Hh. answer_as.
  unfold head_blob. destruct (allows p Read BLOB_NS); [|by read_response]. destruct h as [h].
  by destruct (svc_has_blob svc _ w) as [[[]|e] w']; read_response.
Qed.

Lemma http_delete_blob h w : plain (hash_hex h) →
  refines (OpDeleteBlob h) (remote_delete_blob peer (OverHttp root token) h w)
    (bs_delete_blob (guarded_blobs svc who) h w).
Proof.
  intros Hh. unfold remote_delete_blob. on_hash h Hh. answer_as.
  unfold delete_blob. destruct (allows p Write BLOB_NS); [|by read_response]. destruct h as [h].
  by destruct (svc_delete_blob svc _ w) as [[[]|e] w']; read_response.
Qed.

Lemma http_put_blob c w :
  plain (hash_hex (ContentHash_of c)) → http_fits svc (OpPutBlob c) →
  refines (OpPutBlob c) (remote_put_blob peer (OverHttp root token) c w)
    (bs_put_blob (guarded_blobs svc who) c w).
Proof.
  intros Hh Hfit. unfold remote_put_blob. on_hash h Hh. answer_as.
  unfold put_blob. destruct (allows p Write BLOB_NS); [|by read_response]. cbn [negb].
  rewrite bool_decide_eq_false_2 by tauto.
  destruct (svc_put_blob svc c w) as [[h|e] w'] eqn:Hput; read_response.
Qed.

Lemma http_list_blobs w :
  refines OpListBlobs (remote_list_blobs peer (OverHttp root token) w)
    (bs_list_blobs (guarded_blobs svc who) w).
Proof.
  unfold remote_list_blobs. rewrite list_blobs_url_root, lift_bind.
  destruct (list_routes mb) as (Hr1 & Hr2 & Hr3).
  erewrite send_served; [|eassumption|reflexivity|intros; reflexivity|discriminate..].
  answer_as. unfold list_blobs. destruct (allows p Read BLOB_NS); [|by read_response].
  by destruct (svc_list_blobs svc w) as [[l|e] w']; read_response.
Qed.

Lemma http_refines {A} (op : Op A) w :
  routable (OverHttp root token) op → http_fits svc op →
  refines op
    (call (ServerStore peer (OverHttp root token)) (ServerBlobs peer (OverHttp root token)) op w)
    (call (guarded_store svc who) (guarded_blobs svc who) op w).
Proof.
  destruct op; intros Hr Hf.
  - by apply http_get.
  - by apply http_put.
  - by apply http_list.
  - by apply http_delete.
  - by apply http_get_raw.
  - by apply http_list_raw.
  - by apply http_put_raw.
  - by apply http_purge.
  - by apply http_put_blob.
  - by apply http_get_blob.
  - by apply http_list_blobs.
  - by apply http_has_blob.
  - by apply http_delete_blob.
Qed.
End http.

(** ** One exchange over gRPC *)

Lemma collect_results_round_trip `{JsonLaws A} (l : list A) : ∃ bs,
  collect_results json_to_vec l = Ok bs ∧
  collect_results (λ b, map_err se (json_from_slice b)) bs = Ok l.
Proof.
  induction l as [|x l (bs & IH1 & IH2)]; [by exists []|].
  destruct (json_round_trip x) as (b & Hb & _ & Hx). exists (b :: bs).
  cbn. rewrite Hb. cbn. rewrite IH1. cbn. rewrite Hx. cbn. by rewrite IH2.
Qed.

Lemma rpc_bind_ret `{Headers} {W A} (peer : Peer W) token (r : Rpc A) f w :
  (x ← rpc peer token r f; mret x) w = rpc peer token r f w.
Proof. unfold mbind, M_bind. by destruct (rpc _ _ _ _ w) as [[] ?]. Qed.

Section grpc.
Context `{Blake3} `{UrlCrate} `{Headers} `{Bodies} `{PurgeSerde} `{WireJson} `{!WireJsonLaws}.
Context `{Frameworks} {W : Type} (svc : Service W) (auth : Auth) (token : option string).
Context (Hreach : reaches (OverGrpc token)) (Hnames : names_by_content svc).
Implicit Types w : W.
Abbreviation who := (authenticate auth token).
Abbreviation peer := (daemon svc auth).

Lemma rpc_served {A B} (r : Rpc A) f (k : A → M W CoreError B) w :
  (rpc_len r ≤ svc_max_blob_size svc)%N →
  ∃ md, bearer md = token ∧ (svc_max_blob_size svc <? rpc_len r)%N = false ∧
    (x ← rpc peer token r f; k x) w =
      match serve_grpc svc auth A md r w with
      | (Ok x, w') => k x w'
      | (Err s, w') => (Err (f s), w')
      end.
Proof.
  intros Hlen. destruct (header_sent _ Hreach) as (md & _ & Hmd & Hb). exists md.
  split; [done|]. unfold rpc, mbind, M_bind. cbn [transport_token] in Hmd. rewrite Hmd.
  unfold lift, map_errM. cbn [daemon peer_grpc]. split; [by apply N.ltb_ge|].
  by destruct (serve_grpc _ _ _ _ _ _) as [[] ?].
Qed.

#[local] Arguments allows : simpl never.
#[local] Arguments is_admin : simpl never.

(** The RPC's guard is the specification's. *)
Ltac as_caller :=
  unfold authorize_list, authorize_put, authorize_admin, authorize, grpc_authenticate;
  match goal with Hmd : bearer _ = _ |- _ => rewrite !Hmd end;
  unfold refines;
  cbn [guarded_store guarded_blobs st_get st_put st_list st_delete_as st_get_raw st_list_raw
    st_put_raw st_purge bs_put_blob bs_get_blob bs_list_blobs bs_has_blob bs_delete_blob];
  unfold as_principal, may_list, may, check_access;
  unfold mbind, M_bind, result_bind, lift, map_errM, ok_or, mret, M_ret, throw;
  destruct who as [p|]; cbn; [|by eauto].

(** What was written reads back. *)
Ltac read_json :=
  repeat (match goal with
    | |- context [json_to_vec ?x] =>
        let b := fresh "b" in let Hb := fresh "Hb" in let Hx := fresh "Hx" in
        destruct (json_round_trip x) as (b & Hb & ? & Hx); rewrite Hb
    | Hx : json_from_slice ?b = Ok _ |- context [json_from_slice ?b] => rewrite Hx
    end; cbn).

(** Arguments written into the message. *)
Ltac write_json x :=
  let b := fresh "b" in let Hb := fresh "Hb" in let Hx := fresh "Hx" in
  let Hne := fresh "Hne" in
  destruct (json_round_trip x) as (b & Hb & Hne & Hx); rewrite Hb; cbn [map_err];
  rewrite ?lift_bind.

Ltac on_rpc Hfit :=
  match goal with |- context [(rpc _ _ ?r ?f ≫= ?k) ?w] =>
    let md := fresh "md" in let Hmd := fresh "Hmd" in let Hlen := fresh "Hlen" in
    let Hs := fresh "Hs" in
    match type of Hfit with fits _ _ ?op => assert (sends op r) as Hs by (by econstructor) end;
    destruct (rpc_served r f k w) as (md & Hmd & Hlen & ->);
      [exact (Hfit _ _ Hs)|unfold serve_grpc; rewrite Hlen;
       unfold rpc_get, rpc_put, rpc_delete, rpc_list, rpc_get_raw, rpc_list_raw, rpc_put_raw,
         rpc_purge, rpc_put_blob, rpc_get_blob, rpc_has_blob, rpc_list_blobs, rpc_delete_blob;
       as_caller]
  end.

(** What the client makes of the answer. *)
Ltac read_answer :=
  cbn; read_json; unfold decode_put_response, decode_delete_outcome; cbn;
  repeat first [rewrite decide_True by reflexivity | rewrite decide_False by discriminate];
  cbn; read_json; eauto.

Lemma grpc_get k w : fits svc (OverGrpc token) (OpGet k) →
  refines (OpGet k) (remote_get peer (OverGrpc token) k w)
    (st_get (guarded_store svc who) k w).
Proof.
  intros Hfit. unfold remote_get. destruct k as [ns col id]. on_rpc Hfit.
  destruct (allows p Read ns); cbn; [|by eauto].
  by destruct (svc_get svc _ w) as [[[r|]|e] w']; read_answer.
Qed.

Lemma grpc_get_raw k w : fits svc (OverGrpc token) (OpGetRaw k) →
  refines (OpGetRaw k) (remote_get_raw peer (OverGrpc token) k w)
    (st_get_raw (guarded_store svc who) k w).
Proof.
  intros Hfit. unfold remote_get_raw. destruct k as [ns col id]. on_rpc Hfit.
  destruct (allows p Read ns); cbn; [|by eauto].
  by destruct (svc_get_raw svc _ w) as [[[r|]|e] w']; read_answer.
Qed.

Lemma grpc_put r e w : fits svc (OverGrpc token) (OpPut r e) →
  refines (OpPut r e) (remote_put peer (OverGrpc token) r e w)
    (st_put (guarded_store svc who) r e w).
Proof.
  intros Hfit. unfold remote_put. write_json r. write_json e. on_rpc Hfit.
  read_json. destruct (allows p Write _); cbn; [|by eauto].
  by destruct (svc_put svc _ e w) as [[[]|[]] w']; read_answer.
Qed.

Lemma grpc_put_raw r e w : fits svc (OverGrpc token) (OpPutRaw r e) →
  refines (OpPutRaw r e) (remote_put_raw peer (OverGrpc token) r e w)
    (st_put_raw (guarded_store svc who) r e w).
Proof.
  intros Hfit. unfold remote_put_raw. write_json r. write_json e. on_rpc Hfit.
  destruct (is_admin p); cbn; [|by eauto]. read_json.
  by destruct (svc_put_raw svc _ e w) as [[[]|[]] w']; read_answer.
Qed.

Lemma grpc_delete k e a w : fits svc (OverGrpc token) (OpDelete k e a) →
  refines (OpDelete k e a) (remote_delete_as peer (OverGrpc token) k e a w)
    (st_delete_as (guarded_store svc who) k e a w).
Proof.
  intros Hfit. unfold remote_delete_as. destruct k as [ns col id].
  destruct a as [a|]; [write_json a|rewrite lift_bind]; write_json e; on_rpc Hfit; read_json;
    [rewrite decide_False by done|rewrite decide_True by done]; cbn; read_json;
    (destruct (allows p Write ns); cbn; [|by eauto]);
    by destruct (svc_delete_as svc _ e _ w) as [[[]|[]] w']; read_answer.
Qed.

Lemma grpc_purge k e w : fits svc (OverGrpc token) (OpPurge k e) →
  refines (OpPurge k e) (remote_purge peer (OverGrpc token) k e w)
    (st_purge (guarded_store svc who) k e w).
Proof.
  intros Hfit. unfold remote_purge. destruct k as [ns col id]. write_json e. on_rpc Hfit.
  destruct (is_admin p); cbn; [|by eauto]. read_json.
  by destruct (svc_purge svc _ e w) as [[[]|[]] w']; read_answer.
Qed.

Lemma grpc_list prefix w : fits svc (OverGrpc token) (OpList prefix) →
  refines (OpList prefix) (remote_list peer (OverGrpc token) prefix w)
    (st_list (guarded_store svc who) prefix w).
Proof.
  intros Hfit. unfold remote_list. on_rpc Hfit. destruct prefix as [ns col].
  destruct (allows p Read _); cbn; [|by eauto].
  destruct (svc_list svc _ w) as [[l|e] w']; cbn; [|by eauto].
  destruct (collect_results_round_trip l) as (bs & Hbs & Hl).
  unfold list_response, decode_keys. rewrite Hbs. cbn. by rewrite Hl.
Qed.

Lemma grpc_list_raw prefix w : fits svc (OverGrpc token) (OpListRaw prefix) →
  refines (OpListRaw prefix) (remote_list_raw peer (OverGrpc token) prefix w)
    (st_list_raw (guarded_store svc who) prefix w).
Proof.
  intros Hfit. unfold remote_list_raw. on_rpc Hfit. destruct prefix as [ns col].
  destruct (allows p Read _); cbn; [|by eauto].
  destruct (svc_list_raw svc _ w) as [[l|e] w']; cbn; [|by eauto].
  destruct (collect_results_round_trip l) as (bs & Hbs & Hl).
  unfold list_response, decode_keys. rewrite Hbs. cbn. by rewrite Hl.
Qed.

Lemma grpc_put_blob c w : fits svc (OverGrpc token) (OpPutBlob c) →
  refines (OpPutBlob c) (remote_put_blob peer (OverGrpc token) c w)
    (bs_put_blob (guarded_blobs svc who) c w).
Proof.
  intros Hfit. unfold remote_put_blob. on_rpc Hfit.
  destruct (allows p Write BLOB_NS); cbn; [|by eauto].
  rewrite bool_decide_eq_false_2 by tauto.
  destruct (svc_put_blob svc c w) as [[[h]|e] w'] eqn:Hput; read_answer.
Qed.

Lemma grpc_get_blob h w : fits svc (OverGrpc token) (OpGetBlob h) →
  refines (OpGetBlob h) (remote_get_blob peer (OverGrpc token) h w)
    (bs_get_blob (guarded_blobs svc who) h w).
Proof.
  intros Hfit. unfold remote_get_blob. destruct h as [h]. on_rpc Hfit.
  destruct (allows p Read BLOB_NS); cbn; [|by eauto].
  by destruct (svc_get_blob svc _ w) as [[[c|]|e] w']; read_answer.
Qed.

Lemma grpc_has_blob h w : fits svc (OverGrpc token) (OpHasBlob h) →
  refines (OpHasBlob h) (remote_has_blob peer (OverGrpc token) h w)
    (bs_has_blob (guarded_blobs svc who) h w).
Proof.
  intros Hfit. unfold remote_has_blob. destruct h as [h].
  rewrite <-(rpc_bind_ret peer). on_rpc Hfit.
  destruct (allows p Read BLOB_NS); cbn; [|by eauto].
  by destruct (svc_has_blob svc _ w) as [[b|e] w']; read_answer.
Qed.

Lemma grpc_list_blobs w : fits svc (OverGrpc token) OpListBlobs →
  refines OpListBlobs (remote_list_blobs peer (OverGrpc token) w)
    (bs_list_blobs (guarded_blobs svc who) w).
Proof.
  intros Hfit. unfold remote_list_blobs. on_rpc Hfit.
  destruct (allows p Read BLOB_NS); cbn; [|by eauto].
  destruct (svc_list_blobs svc w) as [[l|e] w']; cbn; [|by eauto].
  split; [done|]. clear. induction l as [|[[h] ms] l IH]; [done|]. cbn. by f_equal.
Qed.

Lemma grpc_delete_blob h w : fits svc (OverGrpc token) (OpDeleteBlob h) →
  refines (OpDeleteBlob h) (remote_delete_blob peer (OverGrpc token) h w)
    (bs_delete_blob (guarded_blobs svc who) h w).
Proof.
  intros Hfit. unfold remote_delete_blob. destruct h as [h]. on_rpc Hfit.
  destruct (allows p Write BLOB_NS); cbn; [|by eauto].
  by destruct (svc_delete_blob svc _ w) as [[[]|e] w']; read_answer.
Qed.

Lemma grpc_refines {A} (op : Op A) w : fits svc (OverGrpc token) op →
  refines op
    (call (ServerStore peer (OverGrpc token)) (ServerBlobs peer (OverGrpc token)) op w)
    (call (guarded_store svc who) (guarded_blobs svc who) op w).
Proof.
  destruct op; intros Hf.
  - by apply grpc_get.
  - by apply grpc_put.
  - by apply grpc_list.
  - by apply grpc_delete.
  - by apply grpc_get_raw.
  - by apply grpc_list_raw.
  - by apply grpc_put_raw.
  - by apply grpc_purge.
  - by apply grpc_put_blob.
  - by apply grpc_get_blob.
  - by apply grpc_list_blobs.
  - by apply grpc_has_blob.
  - by apply grpc_delete_blob.
Qed.
End grpc.
