(* ===== verification/RemoteSpec.v ===== *)
(** * RemoteSpec: what a remote store guarantees

    The refinement of [RemoteRefine] for both transports at once, what is left of
    it over a network that loses requests and responses, how a client meets an
    older daemon, and the keys a URL cannot carry; with a concrete daemon and
    clients to instantiate them at. *)

From S2P Require Import Samples SampleStores.
From S2P Require Export RemoteRefine.

(** ** A network that loses requests and responses *)

(** The client's view of a peer: some requests are answered by the transport,
    unserved, and some answers do not come back. *)
Record lossy {W} (view peer : Peer W) : Prop := mkLossy {
  lossy_http rq w :
    peer_http view rq w = peer_http peer rq w ∨
    ∃ e, peer_http view rq w = (Err e, w) ∨
         peer_http view rq w = (Err e, (peer_http peer rq w).2);
  lossy_grpc A md (r : Rpc A) w :
    peer_grpc view md r w = peer_grpc peer md r w ∨
    ∃ s, code s = Unavailable ∧
      (peer_grpc view md r w = (Err s, w) ∨
       peer_grpc view md r w = (Err s, (peer_grpc peer md r w).2))
}.

(** The same run, or a backend error with the call either not made or made. *)
Definition ambiguous {W A} (m' m : M W CoreError A) : Prop := ∀ w,
  m' w = m w ∨
  (∃ e, (m' w).1 = Err (Backend e)) ∧ ((m' w).2 = w ∨ (m' w).2 = (m w).2).

Section lossy_lemmas.
Context `{Blake3} `{UrlCrate} `{Headers} `{Bodies} `{WireJson} {W : Type}.
Context (view peer : Peer W) (Hlossy : lossy view peer).

Lemma ambiguous_lift {A B} (r : Result A) (k' k : A → M W CoreError B) :
  (∀ x, ambiguous (k' x) (k x)) → ambiguous (lift r ≫= k') (lift r ≫= k).
Proof. intros Hk w. destruct r as [x|e]; [apply Hk|by left]. Qed.

(** What follows the exchange does not touch the daemon. *)
Lemma ambiguous_send {B} m url token body (k : Response → M W CoreError B) :
  (∀ x w, (k x w).2 = w) →
  ambiguous (send view m url token body ≫= k) (send peer m url token body ≫= k).
Proof.
  intros Hk w. unfold send, mbind, M_bind, lift, map_errM.
  destruct (maybe_auth token) as [hdr|e]; cbn; [|by left].
  set (rq := mkHttpRequest m url hdr body).
  destruct (lossy_http _ _ Hlossy rq w) as [->|(e & [->| ->])]; [by left|right..]; cbn.
  - eauto.
  - destruct (peer_http peer rq w) as [[x|e'] w']; cbn; rewrite ?Hk; eauto.
Qed.

Lemma ambiguous_rpc {A B} token (r : Rpc A) f (k : A → M W CoreError B) :
  (∀ s, code s = Unavailable → ∃ e, f s = Backend e) → (∀ x w, (k x w).2 = w) →
  ambiguous (rpc view token r f ≫= k) (rpc peer token r f ≫= k).
Proof.
  intros Hf Hk w. unfold rpc, mbind, M_bind, lift, map_errM.
  destruct (grpc_request token) as [md|e]; cbn; [|by left].
  destruct (lossy_grpc _ _ Hlossy A md r w) as [->|(s & Hs & [->| ->])]; [by left|right..]; cbn.
  - destruct (Hf s Hs) as [e ->]. eauto.
  - destruct (Hf s Hs) as [e ->].
    destruct (peer_grpc peer md r w) as [[x|s'] w']; cbn; rewrite ?Hk; eauto.
Qed.

Lemma unavailable_is_backend s : code s = Unavailable →
  (∃ e, status_error s = Backend e) ∧ (∃ e, replication_status s = Backend e) ∧
  (∃ e, presence_status s = Backend e) ∧
  (∀ k, ∃ e, put_status s k = Backend e) ∧ (∀ k, ∃ e, raw_put_status s k = Backend e).
Proof.
  intros Hs. unfold raw_put_status, put_status, replication_status, presence_status. rewrite Hs.
  repeat case_decide; simplify_eq. split_and!; eauto; eexists; reflexivity.
Qed.

Ltac pure_after :=
  intros; unfold mbind, M_bind, lift, mret, M_ret, throw; repeat case_match; by simplify_eq/=.

Lemma call_ambiguous {A} (t : Transport) (op : Op A) :
  ambiguous (call (ServerStore view t) (ServerBlobs view t) op)
            (call (ServerStore peer t) (ServerBlobs peer t) op).
Proof.
  destruct t as [base token|token], op; cbn;
    try (intros w; unfold remote_has_blob; rewrite <-(rpc_bind_ret view), <-(rpc_bind_ret peer);
         revert w);
    repeat (apply ambiguous_lift; intros ?);
    first [apply ambiguous_send; pure_after
          |apply ambiguous_rpc; [intros s Hs; apply (unavailable_is_backend s Hs)|pure_after]].
Qed.
End lossy_lemmas.

(** ** Theorems *)

Section theorems.
Context `{Blake3} `{UrlCrate} `{Headers} `{Bodies} `{PurgeSerde} `{!BodyLaws}.
Context `{WireJson} `{!WireJsonLaws} `{Frameworks} {W : Type} (svc : Service W) (auth : Auth).
Implicit Types w : W.

Lemma call_refines {A} (t : Transport) (op : Op A) w :
  reaches t → names_by_content svc → routable t op → fits svc t op →
  refines op (call (ServerStore (daemon svc auth) t) (ServerBlobs (daemon svc auth) t) op w)
    (let who := authenticate auth (transport_token t) in
     call (guarded_store svc who) (guarded_blobs svc who) op w).
Proof.
  intros Hreach Hn Hr Hf. destruct t as [base token|token]; cbn [transport_token].
  - pose proof (proj2 Hreach) as Hbase. cbn in Hbase. subst base. by apply http_refines.
  - by apply grpc_refines.
Qed.


(** C13: an answer can be believed and a failure is honest about its doubt.  Over
    a network that may lose any request or any response, a call that its transport
    can carry (as above: visible token, sizes within the limits, over HTTP the
    daemon's root URL and parts that a path keeps) either is answered and done as
    by the guarded service, or fails with a backend error having been done
    completely or not at all: a commit is never reported that did not happen, no
    conflict or missing precondition is invented, and there is no half-done
    call. *)
Theorem lossy_network_is_honest {A} (view : Peer W) (t : Transport) (op : Op A) w :
  lossy view (daemon svc auth) →
  reaches t → names_by_content svc → routable t op → fits svc t op →
  let who := authenticate auth (transport_token t) in
  let spec := call (guarded_store svc who) (guarded_blobs svc who) op w in
  let client := call (ServerStore view t) (ServerBlobs view t) op w in
  (client.2 = spec.2 ∧ answered op spec.1 client.1) ∨
  (∃ e, client.1 = Err (Backend e)) ∧ (client.2 = w ∨ client.2 = spec.2).
Proof.
  intros Hl Hreach Hn Hr Hf who spec client.
  destruct (call_refines t op w Hreach Hn Hr Hf) as [Hw Ha].
  destruct (call_ambiguous view _ Hl t op w) as [Heq|[He Hworld]].
  - left. unfold client. rewrite Heq. done.
  - right. split; [done|]. unfold client, spec, who. cbv zeta in Hw. rewrite <-Hw. done.
Qed.
End theorems.

(** *** An older daemon *)

Definition is_replication_op {A} (op : Op A) : bool :=
  match op with OpGetRaw _ | OpListRaw _ | OpPutRaw _ _ | OpPurge _ _ => true | _ => false end.

Definition is_replication_rpc {A} (r : Rpc A) : bool :=
  match r with GetRawRpc _ | ListRawRpc _ | PutRawRpc _ | PurgeRpc _ => true | _ => false end.

Definition is_replication_path (segs : list string) : Prop :=
  ∃ rest, segs = ["v1"; "raw"] ++ rest ∨ segs = ["v1"; "purge"] ++ rest.

(** It has no replication routes and RPCs.  Of its other routes nothing is
    said. *)
Record predates_replication {W} (peer : Peer W) : Prop := mkPredates {
  no_raw_route rq segs w : url_path (hr_url rq) = Some segs → is_replication_path segs →
    ∃ pl, peer_http peer rq w = (Ok (mkResponse NOT_FOUND pl), w);
  no_raw_rpc A md (r : Rpc A) w : is_replication_rpc r = true →
    ∃ s, code s = Unimplemented ∧ peer_grpc peer md r w = (Err s, w)
}.

(** *** Keys in a URL *)

(** No part becomes [.] or [..] by losing characters on the way. *)
Definition undotted_key (k : RecordKey) : Prop :=
  undotted (key_namespace k) ∧ undotted (key_collection k) ∧ undotted (key_id k).

(** What is left of a key. *)
Definition url_key (k : RecordKey) : RecordKey :=
  mkKey (without_skipped (key_namespace k)) (without_skipped (key_collection k))
    (without_skipped (key_id k)).

Section keys_in_urls.
Context `{UrlCrate}.
Abbreviation root := (mkUrl (Some []) []).

Lemma key_url_kept segs k : Forall plain segs → segs ≠ [] → undotted_key k →
  key_url root segs k =
    Ok (mkUrl (Some (segs ++ kept_segments [key_namespace k; key_collection k; key_id k])) []).
Proof.
  intros Hs Hne (? & ? & ?). unfold key_url. rewrite extend_path_root by (done || plain_segments).
  cbn [mbind result_bind]. unfold extend_path. cbn.
  rewrite extend_segments_spec; [done|by repeat constructor|].
  destruct Hs as [|s l [? _] _]; [done|]. by intros [= ->].
Qed.
End keys_in_urls.

Section older.
Context `{Blake3} `{UrlCrate} `{Headers} `{Bodies} `{WireJson} `{!WireJsonLaws}.
Context {W : Type} (peer : Peer W) (Hold : predates_replication peer).
Implicit Types w : W.

Lemma send_older {B} m segs q token body (k : Response → M W CoreError B) w :
  reaches (OverHttp (mkUrl (Some []) []) token) → is_replication_path segs →
  ∃ pl, (send peer m (mkUrl (Some segs) q) token body ≫= k) w =
    k (mkResponse NOT_FOUND pl) w.
Proof.
  intros Hreach Hp. destruct (header_sent _ Hreach) as (hdr & Hauth & _).
  cbn [transport_token] in Hauth. unfold send, mbind, M_bind, lift, map_errM. rewrite Hauth. cbn.
  destruct (no_raw_route _ Hold (mkHttpRequest m (mkUrl (Some segs) q) hdr body) segs w eq_refl Hp)
    as [pl Hpl].
  exists pl. by rewrite Hpl.
Qed.

Lemma rpc_older {A B} token (r : Rpc A) f (k : A → M W CoreError B) w :
  reaches (OverGrpc token) → is_replication_rpc r = true →
  (∀ s, code s = Unimplemented → f s = upgrade_required) →
  (rpc peer token r f ≫= k) w = (Err upgrade_required, w).
Proof.
  intros Hreach Hr Hf. destruct (header_sent _ Hreach) as (md & _ & Hmd & _).
  cbn [transport_token] in Hmd. unfold rpc, mbind, M_bind, lift, map_errM. rewrite Hmd.
  destruct (no_raw_rpc _ Hold A md r w Hr) as (s & Hs & ->). cbn. by rewrite Hf.
Qed.


Lemma raw_keys_url p : ∃ rest q,
  keys_url (mkUrl (Some []) []) ["v1"; "raw"; "keys"] p = Ok (mkUrl (Some (["v1"; "raw"] ++ rest)) q).
Proof.
  destruct (keys_url_root ["v1"; "raw"; "keys"] p) as (q & -> & _); [plain_segments|].
  by exists ["keys"], q.
Qed.

(** The key of a replication call. *)
Definition undotted_op {A} (op : Op A) : Prop :=
  match op with
  | OpGetRaw k | OpPurge k _ => undotted_key k
  | OpPutRaw r _ => undotted_key (rec_key r)
  | _ => True
  end.

Ltac http_older :=
  match goal with
  | |- context [key_url _ ?segs ?k] =>
      rewrite (key_url_kept segs k) by (done || plain_segments)
  | |- context [keys_url _ _ ?p] => destruct (raw_keys_url p) as (rest & q & ->)
  end;
  rewrite lift_bind;
  match goal with Hr : reaches _ |- context [(send _ ?m (mkUrl (Some ?segs) ?q) _ ?body ≫= ?k) ?w] =>
    let Hp := fresh "Hp" in
    assert (is_replication_path segs) as Hp
      by (eexists; first [left; reflexivity|right; reflexivity]);
    destruct (send_older m segs q _ body k w Hr Hp) as [pl ->]
  end; reflexivity.

(** Replication does not fall back.  Against a daemon that has no replication
    routes, whatever its consumer routes do, every raw read, raw write, raw listing
    and purge of a key that no tab or newline turns into dots fails with the error that says to upgrade the
    daemon, and nothing is changed: a tombstone is never read as an absence and
    no record is ever pushed through the consumer put. *)
Theorem replication_never_falls_back {A} (t : Transport) (op : Op A) w :
  reaches t → is_replication_op op = true → undotted_op op →
  call (ServerStore peer t) (ServerBlobs peer t) op w =
    (Err (Backend DAEMON_PREDATES_REPLICATION), w).
Proof.
  intros Hreach Hop Hk. destruct t as [base token|token].
  - pose proof (proj2 Hreach) as Hbase. cbn in Hbase. subst base.
    destruct op; try discriminate;
      cbn [call ServerStore ServerBlobs st_get_raw st_list_raw st_put_raw st_purge];
      unfold remote_get_raw, remote_list_raw, remote_put_raw, remote_purge, raw_records_url,
        purge_url; http_older.
  - assert (∀ s, code s = Unimplemented → replication_status s = upgrade_required) as Hrs.
    { intros s Hs. unfold replication_status. by rewrite decide_True. }
    destruct op; try discriminate;
      cbn [call ServerStore ServerBlobs st_get_raw st_list_raw st_put_raw st_purge];
      unfold remote_get_raw, remote_list_raw, remote_put_raw, remote_purge.
    + by apply rpc_older.
    + by apply rpc_older.
    + destruct (json_round_trip r) as (b & -> & _), (json_round_trip e) as (b' & -> & _).
      cbn [map_err]. rewrite !lift_bind. apply rpc_older; [done..|].
      intros s Hs. unfold raw_put_status. by rewrite decide_True.
    + destruct (json_round_trip e) as (b & -> & _). cbn [map_err]. rewrite lift_bind.
      by apply rpc_older.
Qed.
End older.

(** *** Keys that a URL cannot carry *)

Lemma dot_unskipped s : dot_segment s → without_skipped s = s.
Proof. by intros [->| ->]. Qed.

Lemma kept_cons s l :
  kept_segments (s :: l) = (if decide (dot_segment s) then [] else [without_skipped s]) ++
    kept_segments l.
Proof. unfold kept_segments. rewrite filter_cons. by repeat case_decide. Qed.

(** A part that a URL does not keep, or keeps empty. *)
Lemma not_plain_kept s : undotted s → ¬ plain (without_skipped s) →
  dot_segment s ∨ without_skipped s = "".
Proof.
  intros Hu Hp. destruct (decide (without_skipped s = "")) as [|Hne]; [by right|left].
  destruct (decide (dot_segment s)) as [|Hdot]; [done|]. destruct Hp. split_and!; [done| |done].
  intros Hd. by rewrite (Hu Hd) in Hd.
Qed.

Lemma captures_key_None segs k : undotted_key k → ¬ plain_key (url_key k) →
  captures (key_pattern segs)
    (segs ++ kept_segments [key_namespace k; key_collection k; key_id k]) = None.
Proof.
  intros Hu Hk. induction segs as [|s segs IH]; cbn -[kept_segments]; [|by rewrite decide_True].
  destruct k as [ns col id], Hu as (Hn & Hc & Hi). unfold plain_key, url_key in Hk. cbn in Hk.
  assert (∃ s, s ∈ [ns; col; id] ∧ (dot_segment s ∨ without_skipped s = "")) as (s & Hs & Hbad).
  { apply not_and_l in Hk as [Hk|[Hk|Hk]%not_and_l]; [exists ns|exists col|exists id];
      (split; [set_solver|by apply not_plain_kept]). }
  cbn [key_namespace key_collection key_id] in *. rewrite !kept_cons. unfold kept_segments. cbn.
  rewrite !elem_of_cons, elem_of_nil in Hs. destruct Hs as [->|[->|[->|[]]]], Hbad as [Hbad|Hbad];
    repeat case_decide; cbn; rewrite ?Hbad; cbn; repeat case_decide; done.
Qed.

Section url_keys.
Context `{Blake3} `{UrlCrate} `{Headers} `{Bodies} `{PurgeSerde} `{WireJson} `{!WireJsonLaws}.
Context `{Frameworks} {W : Type} (svc : Service W) (auth : Auth).
Implicit Types w : W.
Abbreviation root := (mkUrl (Some []) []).

(** No route takes what is left of the path. *)
Lemma no_route_records k : undotted_key k → ¬ plain_key (url_key k) →
  find_route GET (["v1"; "records"] ++ kept_segments [key_namespace k; key_collection k; key_id k])
    (routes (svc_max_blob_size svc)) = NoRoute.
Proof.
  intros Hu Hk. unfold routes.
  repeat first [ rewrite find_route_skip by (by apply (captures_key_None ["v1"; "records"]))
               | rewrite find_route_skip by reflexivity ].
  reflexivity.
Qed.

(** Over HTTP a record can be stored and not be found.  A key with a part that is
    [.] or [..] or that is empty, or left so by the characters a URL does not keep,
    does not survive the URL, so the daemon has
    no route for it and answers 404, which the client's [get] takes for an
    absence: whatever is stored, the caller is told there is no such record.  The
    same caller reads the same record over gRPC. *)
Theorem remote_get_misses_url_keys base token k w p :
  reaches (OverHttp base token) → authenticate auth token = Some p →
  undotted_key k → ¬ plain_key (url_key k) →
  remote_get (daemon svc auth) (OverHttp base token) k w = (Ok None, w) ∧
  (fits svc (OverGrpc token) (OpGet k) → allows p Read (key_namespace k) = true →
   ∀ r w', st_get (svc_store svc) k w = (Ok (Some r), w') →
     remote_get (daemon svc auth) (OverGrpc token) k w = (Ok (Some r), w')).
Proof.
  intros Hreach Hp Hu Hk. split.
  - pose proof (proj2 Hreach) as Hbase. cbn in Hbase. subst base.
    unfold remote_get, records_url. rewrite key_url_kept by (done || plain_segments).
    rewrite lift_bind.
    destruct (header_sent _ Hreach) as (hdr & Hauth & _ & Hb). cbn [transport_token] in Hauth, Hb.
    unfold send, mbind, M_bind, lift, map_errM. rewrite Hauth. cbn [map_err daemon peer_http].
    unfold serve_http, route_of. cbn [hr_url hr_method url_path hr_authorization].
    change (default [] (Some ?x)) with x. cbv zeta. rewrite no_route_records by done.
    unfold refuse. rewrite Hb, Hp. reflexivity.
  - intros Hf Ha r w' Hget.
    destruct (grpc_get svc auth token (conj (proj1 Hreach) I) k w Hf) as [Hw Hans].
    cbn [guarded_store st_get] in Hw, Hans. unfold as_principal, may in Hw, Hans.
    rewrite Hp, Ha in Hw, Hans. unfold svc_get in Hw, Hans. rewrite Hget in Hw, Hans.
    destruct (remote_get _ _ _ _) as [[a|e] w2]; cbn in *; [by subst|done].
Qed.

Lemma url_key_kept k : plain_key (url_key k) →
  kept_segments [key_namespace k; key_collection k; key_id k] =
    [key_namespace (url_key k); key_collection (url_key k); key_id (url_key k)].
Proof.
  assert (∀ s, plain (without_skipped s) → ¬ dot_segment s) as Hdot.
  { intros s (_ & Hp & _) Hs. apply Hp. by rewrite dot_unskipped. }
  intros (Hn & Hc & Hi). rewrite !kept_cons, !decide_False by (by apply Hdot). done.
Qed.

Lemma key_url_aliases segs k : Forall plain segs → segs ≠ [] →
  undotted_key k → plain_key (url_key k) →
  key_url root segs k = key_url root segs (url_key k).
Proof.
  intros Hs Hne Hu Hp. rewrite (key_url_kept segs k), (key_url_root segs (url_key k)) by done.
  by rewrite url_key_kept.
Qed.

(** Over HTTP two keys can be one record.  A key with a tab, a line feed or a
    carriage return is addressed without it, so that the client reads and deletes
    the record of the other key, against any daemon. *)
Theorem remote_keys_alias (peer : Peer W) base token k w :
  reaches (OverHttp base token) → undotted_key k → plain_key (url_key k) →
  remote_get peer (OverHttp base token) k w = remote_get peer (OverHttp base token) (url_key k) w ∧
  ∀ e a, remote_delete_as peer (OverHttp base token) k e a w =
    remote_delete_as peer (OverHttp base token) (url_key k) e a w.
Proof.
  intros Hreach Hu Hp. pose proof (proj2 Hreach) as Hbase. cbn in Hbase. subst base.
  unfold remote_get, remote_delete_as, records_url.
  by rewrite <-(key_url_aliases _ k) by (done || plain_segments).
Qed.
End url_keys.

(** ** Concrete daemons and clients *)

Section witnesses.
#[local] Existing Instance sample_hash.

#[local] Instance Conflict_countable : Countable Conflict :=
  inj_countable' (λ c, (cf_key c, cf_expected c, cf_current c))
    (λ '(k, e, c), mkConflict k e c) ltac:(by intros []).
#[local] Instance PutResult_countable : Countable PutResult :=
  inj_countable' (λ r, match r with Committed v => inl v | PutConflicted c => inr c end)
    (λ s, match s with inl v => Committed v | inr c => PutConflicted c end) ltac:(by intros []).
#[local] Instance DeleteResult_countable : Countable DeleteResult :=
  inj_countable' (λ r, match r with Deleted => None | DeleteConflicted c => Some c end)
    (λ s, match s with None => Deleted | Some c => DeleteConflicted c end) ltac:(by intros []).
#[local] Instance BlobEntry_eq_dec : EqDecision BlobEntry.
Proof. solve_decision. Defined.
#[local] Instance BlobEntry_countable : Countable BlobEntry :=
  inj_countable' (λ e, (be_hash e, be_modified_unix_ms e))
    (λ '(h, ms), mkBlobEntry h ms) ltac:(by intros []).
#[local] Instance Identity_countable : Countable Identity :=
  inj_countable' (λ i, (id_id i, id_display i)) (λ '(i, d), mkIdentity i d)
    ltac:(by intros []).

(** Any countable type as JSON, a status or a text. *)
#[local] Instance bits_json A `{Countable A} : Json A := {
  json_to_vec a := Ok (Byte.x00 :: to_bits a);
  json_from_slice b := ok_or "not JSON" (from_bits (tail b))
}.
#[local] Instance bits_json_laws A `{Countable A} : JsonLaws A.
Proof.
  split. intros a. eexists. split; [reflexivity|]. split; [done|]. cbn.
  by rewrite from_bits_to_bits.
Qed.
#[local] Instance bits_wire : WireJson := {}.
#[local] Instance bits_wire_laws : WireJsonLaws.
Proof. split; apply _. Qed.

Definition bits_text {A} `{Countable A} (a : A) : string := string_of_bytes (to_bits a).
Definition parse_bits {A} `{Countable A} (s : string) : result string A :=
  ok_or "not JSON" (from_bits (bytes_of_string s)).

Lemma parse_bits_text {A} `{Countable A} (a : A) : parse_bits (bits_text a) = Ok a.
Proof.
  unfold parse_bits, bits_text. by rewrite bytes_of_string_of_bytes, from_bits_to_bits.
Qed.

#[local] Instance sample_purge : PurgeSerde := λ b, ok_or "not JSON" (from_bits b).
#[local] Instance sample_bodies : Bodies := {
  body_text pl := match pl with
    | Text s => s
    | JsonRecord r => bits_text r
    | JsonRawRecord r => bits_text r
    | JsonPutOutcome r => bits_text r
    | JsonDeleteOutcome r => bits_text r
    | JsonKeys l => bits_text l
    | JsonBlobEntries l => bits_text l
    | _ => ""
    end;
  body_content pl := match pl with OctetStream c => c | _ => [] end;
  parse_record := parse_bits;
  parse_raw_record := parse_bits;
  parse_put_outcome := parse_bits;
  parse_delete_outcome := parse_bits;
  parse_keys := parse_bits;
  parse_entries := parse_bits;
  purge_body_to_vec := to_bits;
  status_code_text s := pretty s;
  status_text s := "status"
}.
#[local] Instance sample_body_laws : BodyLaws.
Proof.
  split; intros; try reflexivity; try apply parse_bits_text.
  cbn. unfold purge_body_from_slice, sample_purge. by rewrite from_bits_to_bits.
Qed.

#[local] Instance sample_url : UrlCrate.
Proof. by refine {| extend_segments base segs := base ++ kept_segments segs |}. Defined.
#[local] Instance sample_headers : Headers.
Proof. by refine {| http_header s := Ok (Some s); grpc_metadata s := Some (Some s) |}. Defined.
#[local] Instance sample_frameworks : Frameworks.
Proof.
  by refine {| path_params := captures;
               body_len b := match b with Raw b => N.of_nat (length b) | _ => 0%N end;
               rpc_len A r := 0%N |}.
Defined.

Definition sample_http (token : option string) : Transport :=
  OverHttp (mkUrl (Some []) []) token.

Lemma sample_reaches : reaches (sample_http (Some "m")).
Proof. split; [by intros ? [= <-]|done]. Qed.

Lemma sample_names : names_by_content sample_service.
Proof. by intros c w h w' [= <- _]. Qed.

Lemma sample_plain : plain_key sample_key.
Proof. unfold plain_key, plain. split_and!; (done || by intros []). Qed.

Lemma sample_undotted : undotted_key sample_key.
Proof. unfold undotted_key. split_and!; auto. Qed.

Lemma sample_fits {A} t (op : Op A) :
  match op with OpPurge _ _ | OpPutBlob _ => False | _ => True end → fits sample_service t op.
Proof.
  intros Hop. destruct t; [|by intros B r _].
  destruct op; try done; unfold fits, http_fits, DEFAULT_BODY_LIMIT; cbn; lia.
Qed.


(** A network on which every response is lost. *)
Definition no_answers {W} (peer : Peer W) : Peer W :=
  mkPeer (λ rq w, (Err "connection reset", (peer_http peer rq w).2))
    (λ A md r w, (Err (mkStatus Unavailable NoBody), (peer_grpc peer md r w).2)).

Lemma no_answers_lossy {W} (peer : Peer W) : lossy (no_answers peer) peer.
Proof.
  split; intros; right; eexists; [by right|]. split; [|by right]. done.
Qed.

Lemma lossy_network_is_honest_witness :
  let client := call
    (ServerStore (no_answers (daemon sample_service sample_auth)) (sample_http (Some "m")))
    (ServerBlobs (no_answers (daemon sample_service sample_auth)) (sample_http (Some "m")))
    (OpDelete sample_key None None) (world_of sample_live) in
  let spec := call (guarded_store sample_service (Some (Principal_new "mallory" ["ns"] ["other"])))
    (guarded_blobs sample_service (Some (Principal_new "mallory" ["ns"] ["other"])))
    (OpDelete sample_key None None) (world_of sample_live) in
  plain_key sample_key ∧
  ((client.2 = spec.2 ∧ answered (OpDelete sample_key None None) spec.1 client.1) ∨
   (∃ e, client.1 = Err (Backend e)) ∧ (client.2 = world_of sample_live ∨ client.2 = spec.2)).
Proof.
  split; [exact sample_plain|].
  exact (lossy_network_is_honest sample_service sample_auth _ (sample_http (Some "m"))
    (OpDelete sample_key None None) (world_of sample_live) (no_answers_lossy _) sample_reaches
    sample_names sample_plain (sample_fits _ (OpDelete sample_key None None) I)).
Defined.

(** A daemon that serves none of it. *)
Definition ancient : Peer unit :=
  mkPeer (λ _ w, (Ok (mkResponse NOT_FOUND NoBody), w))
    (λ A md r w, (Err (mkStatus Unimplemented NoBody), w)).

Lemma ancient_predates : predates_replication ancient.
Proof.
  split; intros; [by exists NoBody|by exists (mkStatus Unimplemented NoBody)].
Qed.

Lemma replication_never_falls_back_witness :
  reaches (sample_http (Some "m")) ∧
  call (ServerStore ancient (sample_http (Some "m"))) (ServerBlobs ancient (sample_http (Some "m")))
    (OpGetRaw sample_key) tt = (Err (Backend DAEMON_PREDATES_REPLICATION), tt).
Proof.
  split; [exact sample_reaches|].
  exact (replication_never_falls_back ancient ancient_predates (sample_http (Some "m"))
    (OpGetRaw sample_key) tt sample_reaches eq_refl sample_undotted).
Defined.

(** A record under the id [..], read by an admin. *)
Definition dots_key : RecordKey := mkKey "ns" "col" "..".
Definition dots_world : sample_world := world_of (sample_record dots_key 0 "v0" []).

Lemma dots_undotted : undotted_key dots_key.
Proof. unfold undotted_key. split_and!; auto. Qed.

Lemma dots_not_plain : ¬ plain_key (url_key dots_key).
Proof. intros (_ & _ & _ & Hdot & _). apply Hdot. by right. Qed.

Lemma remote_get_misses_url_keys_witness :
  ¬ plain_key (url_key dots_key) ∧
  remote_get (daemon sample_service Disabled) (sample_http None) dots_key dots_world =
    (Ok None, dots_world) ∧
  remote_get (daemon sample_service Disabled) (OverGrpc None) dots_key dots_world =
    (Ok (Some (sample_record dots_key 0 "v0" [])), dots_world).
Proof.
  split; [exact dots_not_plain|].
  destruct (remote_get_misses_url_keys sample_service Disabled (mkUrl (Some []) []) None dots_key
    dots_world open) as [Hhttp Hgrpc]; [by split|reflexivity|exact dots_undotted|exact dots_not_plain|].
  split; [exact Hhttp|].
  apply Hgrpc; [exact (sample_fits (OverGrpc None) (OpGet dots_key) I)|reflexivity|].
  vm_compute. reflexivity.
Defined.

(** Reading or deleting [a<tab>b] over HTTP reads or deletes the record [ab]. *)
Definition tab_key : RecordKey :=
  mkKey "ns" "col" ("a" +:+ String (Ascii.ascii_of_nat 9) "b").
Definition ab_key : RecordKey := mkKey "ns" "col" "ab".
Definition ab_world : sample_world := world_of (sample_record ab_key 0 "v0" []).

Lemma remote_keys_alias_witness :
  let peer := daemon sample_service Disabled in
  tab_key ≠ ab_key ∧
  remote_get peer (sample_http None) tab_key ab_world =
    remote_get peer (sample_http None) ab_key ab_world ∧
  remote_delete_as peer (sample_http None) tab_key None None ab_world =
    remote_delete_as peer (sample_http None) ab_key None None ab_world.
Proof.
  assert (undotted_key tab_key) as Hu by (by split_and!; intros [[=]|[=]]).
  assert (plain_key (url_key tab_key)) as Hp
    by (unfold plain_key, plain; split_and!; (done || by intros [])).
  destruct (remote_keys_alias (daemon sample_service Disabled) (mkUrl (Some []) []) None tab_key
    ab_world) as [Hget Hdelete]; [by split|exact Hu|exact Hp|].
  split; [done|]. split; [exact Hget|exact (Hdelete None None)].
Defined.
End witnesses.
