(* ===== verification/CodeModel.v ===== *)
(** * CodeModel: the data of the code graph

    Models [gonzalo-graph]'s [model.rs] and the language table of [builder.rs]:
    symbols, references, imports and the slice of one file, which carries no
    path; located results, pages, filters and rankings.  The JSON of a slice is
    [serde_json]'s and comes as a class.  [Extract] reads slices from trees. *)

From S2P Require Export Records.

(** ** Strings as [str] has them *)

(** [str::split] at a character. *)
Fixpoint split_char (c : Ascii.ascii) (s : string) : list string :=
  match s with
  | "" => [""]
  | String a s' =>
      if decide (a = c) then "" :: split_char c s'
      else match split_char c s' with
           | [] => [String a ""]
           | x :: xs => String a x :: xs
           end
  end.

(** [str::rsplit_once]. *)
Fixpoint rsplit_once (c : Ascii.ascii) (s : string) : option (string * string) :=
  match s with
  | "" => None
  | String a s' =>
      match rsplit_once c s' with
      | Some (x, y) => Some (String a x, y)
      | None => if decide (a = c) then Some ("", s') else None
      end
  end.

(** [str::starts_with] and [str::contains] of a string. *)
Definition starts_with (p s : string) : bool := String.prefix p s.

Fixpoint contains (needle s : string) : bool :=
  starts_with needle s
  || match s with "" => false | String _ s' => contains needle s' end.

Definition slash_char : Ascii.ascii := Ascii.ascii_of_byte Byte.x2f.
Definition dot_char : Ascii.ascii := Ascii.ascii_of_byte Byte.x2e.

Notation plain_segment s := (split_char slash_char s = [s]).

Lemma split_char_not_nil c s : split_char c s ≠ [].
Proof. destruct s; cbn [split_char]; [done|]. case_decide; [done|]. by destruct (split_char c s). Qed.

Lemma split_char_app c s t :
  split_char c (s +:+ String c t) = split_char c s ++ split_char c t.
Proof.
  induction s as [|a s IH].
  { change (split_char c ("" +:+ String c t)) with (split_char c (String c t)).
    cbn [split_char]. by rewrite decide_True. }
  change (String a s +:+ String c t) with (String a (s +:+ String c t)). cbn [split_char].
  rewrite IH. case_decide; [done|]. destruct (split_char c s) eqn:E; [|done].
  by apply split_char_not_nil in E.
Qed.

(** Segments without a separator come back from their join. *)
Lemma split_char_concat (l : list string) :
  l ≠ [] → (∀ s, s ∈ l → plain_segment s) → split_char slash_char (String.concat "/" l) = l.
Proof.
  destruct l as [|x l]; [done|]. intros _. revert x. induction l as [|y l IH]; intros x Hl.
  { apply Hl. left. }
  change (String.concat "/" (x :: y :: l)) with (x +:+ String slash_char (String.concat "/" (y :: l))).
  rewrite split_char_app, (Hl x) by left. cbn [app]. f_equal. apply IH.
  intros s Hs. apply Hl. by right.
Qed.

(** Joining what was split gives the string back. *)
Lemma concat_split_char s : String.concat "/" (split_char slash_char s) = s.
Proof.
  induction s as [|a s IH]; [done|]. cbn [split_char].
  case_decide as Ha; subst; destruct (split_char slash_char s) as [|x xs] eqn:E.
  - by apply split_char_not_nil in E.
  - change (String.concat "/" ("" :: x :: xs)) with (String slash_char (String.concat "/" (x :: xs))).
    by rewrite IH.
  - by apply split_char_not_nil in E.
  - rewrite <-IH. by destruct xs.
Qed.

(** ** Symbols *)

Inductive SymbolKind :=
  | Function | Struct | Enum | Trait | Impl | Module_ | Const | Static
  | TypeAlias | Class_ | Interface.

#[export] Instance SymbolKind_eq_dec : EqDecision SymbolKind.
Proof. solve_decision. Defined.

Definition SymbolKind_as_str (k : SymbolKind) : string :=
  match k with
  | Function => "function"
  | Struct => "struct"
  | Enum => "enum"
  | Trait => "trait"
  | Impl => "impl"
  | Module_ => "module"
  | Const => "const"
  | Static => "static"
  | TypeAlias => "type_alias"
  | Class_ => "class"
  | Interface => "interface"
  end.

Record Symbol := mkSymbol {
  sym_name : string;
  sym_kind : SymbolKind;
  sym_start_line : N;
  sym_end_line : N;
  sym_owner : option string
}.

#[export] Instance Symbol_eq_dec : EqDecision Symbol.
Proof. solve_decision. Defined.

(** ** References *)

Inductive FromScope := InFunction | InModule.

#[export] Instance FromScope_eq_dec : EqDecision FromScope.
Proof. solve_decision. Defined.

Definition FromScope_as_str (s : FromScope) : string :=
  match s with InFunction => "function" | InModule => "module" end.

Definition from_str_or_function (raw : string) : FromScope :=
  if decide (raw = "module") then InModule else InFunction.

(** [#[derive(Ord)]]. *)
Definition scope_rank (s : FromScope) : nat :=
  match s with InFunction => 0 | InModule => 1 end.
#[export] Instance scope_rank_inj : Inj (=) (=) scope_rank.
Proof. by intros [] []. Qed.
#[export] Instance FromScope_cmp : Cmp FromScope := cmp_via scope_rank.
#[export] Instance FromScope_cmp_laws : CmpLaws FromScope := cmp_via_laws scope_rank _.

Inductive RefKind := Free | Method | Value.

#[export] Instance RefKind_eq_dec : EqDecision RefKind.
Proof. solve_decision. Defined.

Definition RefKind_as_str (k : RefKind) : string :=
  match k with Free => "free" | Method => "method" | Value => "value" end.

Definition from_str_or_free (raw : string) : RefKind :=
  if decide (raw = "method") then Method
  else if decide (raw = "value") then Value else Free.

Record Reference := mkReference {
  ref_name : string;
  ref_from : option string;
  ref_line : N;
  ref_kind : RefKind;
  ref_qualifier : option string;
  ref_from_scope : FromScope
}.

#[export] Instance Reference_eq_dec : EqDecision Reference.
Proof. solve_decision. Defined.

Record Import := mkImport {
  imp_name : string;
  imp_path : list string;
  imp_depth : nat;
  imp_line : N
}.

#[export] Instance Import_eq_dec : EqDecision Import.
Proof. solve_decision. Defined.

Definition brings_whole_file (i : Import) : bool := bool_decide (imp_name i = "").

(** ** Slices *)

Record Located (A : Type) := mkLocated { loc_path : string; loc_item : A }.
Arguments mkLocated {A}.
Arguments loc_path {A}.
Arguments loc_item {A}.

#[export] Instance Located_eq_dec A `{EqDecision A} : EqDecision (Located A).
Proof. solve_decision. Defined.

Record CodeGraph := mkCodeGraph {
  cg_symbols : list Symbol;
  cg_references : list Reference;
  cg_imports : list Import
}.

#[export] Instance CodeGraph_eq_dec : EqDecision CodeGraph.
Proof. solve_decision. Defined.

(** [serde_json] on a slice. *)
Class SliceSerde := {
  to_slice_bytes : CodeGraph → bytes;
  from_slice_bytes : bytes → result string CodeGraph;
  slice_roundtrip g : from_slice_bytes (to_slice_bytes g) = Ok g
}.

(** ** Results *)

Record Page (A : Type) := mkPage { items : list A; total : nat; truncated : bool }.
Arguments mkPage {A}.
Arguments items {A}.
Arguments total {A}.
Arguments truncated {A}.

Definition Page_new {A} (l : list A) (limit : nat) : Page A :=
  let total := length l in
  let l := take limit l in
  mkPage l total (bool_decide (length l < total)).

Record FileSummary := mkFileSummary { sum_path : string; sum_symbols : nat }.

Record ViewOverview := mkViewOverview {
  ov_files : nat;
  ov_symbols : nat;
  ov_references : nat;
  by_kind : gmap string nat;
  by_language : gmap string nat;
  largest_files : list FileSummary
}.

Record RankedSymbol := mkRankedSymbol {
  rk_name : string;
  rk_score : nat;
  rk_paths : list string
}.

Inductive Ranking := FanIn | FanOut | Definitions.

Record SymbolFilter := mkSymbolFilter {
  path_prefix : option string;
  kind_is : option SymbolKind;
  name_contains : option string
}.

Definition filter_matches (f : SymbolFilter) (l : Located Symbol) : bool :=
  is_none_or (path_prefix f) (λ p, starts_with p (loc_path l))
  && is_none_or (kind_is f) (λ k, bool_decide (sym_kind (loc_item l) = k))
  && is_none_or (name_contains f) (λ n, contains n (sym_name (loc_item l))).

(** ** Languages *)

Inductive Language :=
  | Rust | Python | JavaScript | TypeScript | Tsx | Go | Java | CSharp | C | Cpp
  | Ruby | Php | Bash | Kotlin | Swift | Lua | Scala | Elixir.

Definition from_extension (ext : string) : option Language :=
  if decide (ext = "rs") then Some Rust
  else if decide (ext = "py") then Some Python
  else if decide (ext ∈ ["js"; "jsx"; "mjs"; "cjs"]) then Some JavaScript
  else if decide (ext ∈ ["ts"; "mts"; "cts"]) then Some TypeScript
  else if decide (ext = "tsx") then Some Tsx
  else if decide (ext = "go") then Some Go
  else if decide (ext = "java") then Some Java
  else if decide (ext = "cs") then Some CSharp
  else if decide (ext = "c") then Some C
  else if decide (ext ∈ ["h"; "cpp"; "cc"; "cxx"; "hpp"; "hh"]) then Some Cpp
  else if decide (ext = "rb") then Some Ruby
  else if decide (ext = "php") then Some Php
  else if decide (ext ∈ ["sh"; "bash"]) then Some Bash
  else if decide (ext ∈ ["kt"; "kts"]) then Some Kotlin
  else if decide (ext = "swift") then Some Swift
  else if decide (ext = "lua") then Some Lua
  else if decide (ext ∈ ["scala"; "sc"]) then Some Scala
  else if decide (ext ∈ ["ex"; "exs"]) then Some Elixir
  else None.

Definition Language_as_str (l : Language) : string :=
  match l with
  | Rust => "rust" | Python => "python" | JavaScript => "javascript"
  | TypeScript => "typescript" | Tsx => "tsx" | Go => "go" | Java => "java"
  | CSharp => "csharp" | C => "c" | Cpp => "cpp" | Ruby => "ruby" | Php => "php"
  | Bash => "bash" | Kotlin => "kotlin" | Swift => "swift" | Lua => "lua"
  | Scala => "scala" | Elixir => "elixir"
  end.

(** [std::path::Path::file_name]: the last component, unless it is [..]. *)
Definition file_name_of (path : string) : option string :=
  match last (filter (λ c, c ≠ "" ∧ c ≠ ".") (split_char slash_char path)) with
  | Some ".." => None
  | o => o
  end.

(** [std::path::Path::extension]: what follows the last dot of the file name,
    if something precedes it. *)
Definition path_extension (path : string) : option string :=
  name ← file_name_of path;
  match rsplit_once dot_char name with
  | Some ("", _) | None => None
  | Some (_, ext) => Some ext
  end.

Definition language_of (path : string) : string :=
  match ext ← path_extension path; from_extension ext with
  | Some l => Language_as_str l
  | None => "unknown"
  end.
