(* ===== verification/Numerals.v ===== *)
(** * Numerals: numbers printed and read

    Decimal numerals as [Fleet] prints them and [Text] reads them, and the last
    separator of a string. *)

From S2P Require Export Text CodeModel.
From S2P Require Import Fleet.

Lemma rsplit_once_last c s t : rsplit_once c t = None →
  rsplit_once c (s +:+ String c t) = Some (s, t).
Proof.
  intros Ht. induction s as [|a s IH].
  - change ("" +:+ String c t) with (String c t). cbn. by rewrite Ht, decide_True.
  - change (String a s +:+ String c t) with (String a (s +:+ String c t)). cbn. by rewrite IH.
Qed.

Lemma rsplit_once_absent c s t : rsplit_once c s = None → rsplit_once c t = None →
  rsplit_once c (s +:+ t) = None.
Proof.
  intros Hs Ht. induction s as [|a s IH]; [done|].
  change (String a s +:+ t) with (String a (s +:+ t)). cbn in *.
  destruct (rsplit_once c s) as [[x y]|]; [done|]. rewrite IH by done.
  by destruct (decide (a = c)).
Qed.

Lemma digit_value_digit n : (n < 10)%N → digit_value (digit n) = Some n.
Proof.
  intros Hn. unfold digit_value, digit. rewrite Ascii.N_ascii_embedding by lia.
  rewrite decide_True by lia. f_equal. lia.
Qed.

Lemma digit_neq c n : digit_value c = None → (n < 10)%N → digit n ≠ c.
Proof. intros Hc Hn <-. by rewrite digit_value_digit in Hc. Qed.

(** A numeral holds no other character. *)
Lemma dec_fuel_without c f n : digit_value c = None → rsplit_once c (dec_fuel f n) = None.
Proof.
  intros Hc. assert (∀ d, (d < 10)%N → rsplit_once c (String (digit d) "") = None) as Hd
    by (intros d Hd; cbn; rewrite decide_False; [done|by apply digit_neq]).
  revert n. induction f as [|f IH]; intros n; [done|]. cbn. case_decide; [by apply Hd|].
  apply rsplit_once_absent; [apply IH|]. apply Hd. by apply N.mod_lt.
Qed.

Lemma dec_without c n : digit_value c = None → rsplit_once c (dec n) = None.
Proof. apply dec_fuel_without. Qed.

Lemma parse_digits_snoc acc s a : parse_digits acc (s +:+ String a "") =
  n ← parse_digits acc s; parse_digits n (String a "").
Proof.
  revert acc. induction s as [|b s IH]; intros acc; [done|].
  change (String b s +:+ String a "") with (String b (s +:+ String a "")). cbn [parse_digits].
  destruct (digit_value b) as [d|]; [|done]. cbn [mbind option_bind]. case_decide; [apply IH|done].
Qed.

Lemma parse_digits_dec f n : (n < 10 ^ N.of_nat f)%N → (n ≤ u64_max)%N → f ≠ 0 →
  parse_digits 0 (dec_fuel f n) = Some n.
Proof.
  assert (∀ acc d, (d < 10)%N → (acc * 10 + d ≤ u64_max)%N →
    parse_digits acc (String (digit d) "") = Some (acc * 10 + d)%N) as Hd.
  { intros acc d Hd Hmax. cbn [parse_digits]. rewrite digit_value_digit by done.
    cbn [mbind option_bind]. by rewrite decide_True. }
  revert n. induction f as [|f IH]; intros n Hn Hmax Hf; [done|]. cbn [dec_fuel]. case_decide as Hlt.
  { by rewrite Hd by lia. }
  pose proof (N.div_mod n 10 ltac:(done)) as Hdiv. pose proof (N.mod_lt n 10 ltac:(done)) as Hmod.
  destruct f as [|f]; [change (10 ^ N.of_nat 1)%N with 10%N in Hn; lia|].
  rewrite parse_digits_snoc, IH; [|..|done].
  - cbn [mbind option_bind]. rewrite Hd by lia. f_equal. lia.
  - apply N.Div0.div_lt_upper_bound. by rewrite Nat2N.inj_succ, N.pow_succ_r' in Hn.
  - revert Hmax Hdiv. generalize (n `div` 10)%N, (n `mod` 10)%N. lia.
Qed.

Lemma parse_usize_dec n : (n ≤ u64_max)%N → parse_usize (dec n) = Some n.
Proof.
  intros Hn. assert (parse_digits 0 (dec n) = Some n) as Hp.
  { apply parse_digits_dec; [|done|done]. eapply N.le_lt_trans; [exact Hn|]. by vm_compute. }
  unfold parse_usize. destruct (dec n) as [|a s] eqn:Hs.
  { unfold dec in Hs. cbn in Hs. case_decide; [done|].
    apply (f_equal String.length) in Hs. rewrite string_length_app in Hs. cbn in Hs. lia. }
  destruct (decide (a = Ascii.ascii_of_nat 43)) as [->|]; [by vm_compute in Hp|]. by rewrite decide_False.
Qed.
