(* ===== verification/GraphStore.v ===== *)
(** * GraphStore: structural queries over an assembled view

    Models [gonzalo-graph]'s [store.rs] and [diff.rs].  A backend is a
    [GraphStore], the record of the trait's required queries; the defaulted
    queries are functions of it.  [GraphStoreLaws] is what the queries promise of
    the view's symbols and references, which is all the defaulted queries, the
    resolver and the diff are proved from; [InMemoryGraphStore] discharges it. *)

From S2P Require Export CodeModel.

(** ** The interface *)

Record GraphStore := mkGraphStore {
  gs_symbols_in_file : string → list Symbol;
  gs_definitions : string → list (Located Symbol);
  gs_references_to : string → list (Located Reference);
  gs_imports_in_file : string → list Import;
  gs_callers_of : string → list string;
  gs_callees : string → list string;
  gs_all_symbols : list (Located Symbol);
  gs_all_references : list (Located Reference)
}.

(** A call edge: the reference is not a name used as a value. *)
Definition is_call (r : Located Reference) : Prop := ref_kind (loc_item r) ≠ Value.
#[export] Instance is_call_dec r : Decision (is_call r) := _.

Class GraphStoreLaws (g : GraphStore) := {
  law_definitions name :
    gs_definitions g name ≡ₚ filter (λ l, sym_name (loc_item l) = name) (gs_all_symbols g);
  law_references_to name :
    gs_references_to g name ≡ₚ
      filter (λ l, ref_name (loc_item l) = name) (gs_all_references g);
  law_symbols_in_file path s :
    s ∈ gs_symbols_in_file g path ↔ mkLocated path s ∈ gs_all_symbols g;
  law_callers_of_sorted name : increasing (gs_callers_of g name);
  law_callers_of name caller :
    caller ∈ gs_callers_of g name ↔
      ∃ r, r ∈ gs_all_references g ∧ ref_name (loc_item r) = name ∧ is_call r ∧
           ref_from (loc_item r) = Some caller;
  law_callees_sorted name : increasing (gs_callees g name);
  law_callees name callee :
    callee ∈ gs_callees g name ↔
      ∃ r, r ∈ gs_all_references g ∧ ref_from (loc_item r) = Some name ∧ is_call r ∧
           ref_name (loc_item r) = callee
}.

(** ** The in-memory store *)

Record InMemoryGraphStore := mkInMemory { slices : gmap string CodeGraph }.

Definition InMemory_new : InMemoryGraphStore := mkInMemory ∅.

Definition InMemory_insert (s : InMemoryGraphStore) (path : string) (graph : CodeGraph) :
    InMemoryGraphStore :=
  mkInMemory (<[path := graph]> (slices s)).

Section in_memory.
Context (s : InMemoryGraphStore).

Definition mem_symbols_in_file (path : string) : list Symbol :=
  default [] (cg_symbols <$> slices s !! path).

Definition mem_imports_in_file (path : string) : list Import :=
  default [] (cg_imports <$> slices s !! path).

(** [iter().flat_map(..)] over the slices, in path order. *)
Definition located_in {A} (f : CodeGraph → list A) : list (Located A) :=
  btree_items (slices s) ≫= λ p, mkLocated p.1 <$> f p.2.

Definition mem_definitions (name : string) : list (Located Symbol) :=
  located_in (λ g, filter (λ x, sym_name x = name) (cg_symbols g)).

Definition mem_references_to (name : string) : list (Located Reference) :=
  located_in (λ g, filter (λ x, ref_name x = name) (cg_references g)).

Definition mem_callers_of (name : string) : list string :=
  dedup (sort (omap ref_from
    (filter (λ r, ref_name r = name ∧ ref_kind r ≠ Value)
       (btree_values (slices s) ≫= cg_references)))).

Definition mem_callees (name : string) : list string :=
  dedup (sort (ref_name <$>
    filter (λ r, ref_from r = Some name ∧ ref_kind r ≠ Value)
       (btree_values (slices s) ≫= cg_references))).

Definition mem_all_symbols : list (Located Symbol) := located_in cg_symbols.

Definition mem_all_references : list (Located Reference) := located_in cg_references.

Definition in_memory : GraphStore :=
  mkGraphStore mem_symbols_in_file mem_definitions mem_references_to mem_imports_in_file
    mem_callers_of mem_callees mem_all_symbols mem_all_references.
End in_memory.

(** ** Defaulted queries *)

Section queries.
Context (g : GraphStore).

Definition callers_scoped (name : string) : list (string * FromScope) :=
  dedup (sort (omap (λ l, (λ from, (from, ref_from_scope (loc_item l))) <$> ref_from (loc_item l))
    (filter is_call (gs_references_to g name)))).

(** [for caller in callers { if visited.insert(caller) { queue.push_back(caller) } }]. *)
Fixpoint visit_new (callers : list string) (visited : gset string) (queue : list string) :
    gset string * list string :=
  match callers with
  | [] => (visited, queue)
  | c :: callers =>
      if decide (c ∈ visited) then visit_new callers visited queue
      else visit_new callers ({[c]} ∪ visited) (queue ++ [c])
  end.

(** [while let Some(current) = queue.pop_front()]. *)
Fixpoint impact_loop (fuel : nat) (visited : gset string) (queue : list string) :
    option (gset string) :=
  match queue with
  | [] => Some visited
  | current :: queue =>
      match fuel with
      | 0 => None
      | S fuel =>
          let '(visited, queue) := visit_new (gs_callers_of g current) visited queue in
          impact_loop fuel visited queue
      end
  end.

Definition impact (fuel : nat) (name : string) : option (list string) :=
  let '(visited, queue) := visit_new (gs_callers_of g name) {[name]} [] in
  visited ← impact_loop fuel visited queue;
  Some (btree_elements (visited ∖ {[name]})).

(** [*counts.entry(key).or_default() += 1], over a list. *)
Definition bump {A} (key : A → string) (m : gmap string nat) (x : A) : gmap string nat :=
  <[key x := default 0 (m !! key x) + 1]> m.

Definition count_by {A} (key : A → string) (l : list A) : gmap string nat :=
  foldl (bump key) ∅ l.

(** Descending by symbol count, then by path. *)
Definition largest_first : Cmp FileSummary := λ a b,
  match cmp (sum_symbols b) (sum_symbols a) with
  | Eq => cmp (sum_path a) (sum_path b)
  | c => c
  end.

Definition overview (largest : nat) : ViewOverview :=
  let symbols := gs_all_symbols g in
  let references := gs_all_references g in
  let by_kind := count_by (λ l, SymbolKind_as_str (sym_kind (loc_item l))) symbols in
  let by_language := count_by (λ l, language_of (loc_path l)) symbols in
  let per_file := count_by loc_path symbols in
  let files : gset string :=
    list_to_set (loc_path <$> symbols) ∪ list_to_set (loc_path <$> references) in
  let largest_files := (λ p, mkFileSummary p.1 p.2) <$> btree_items per_file in
  mkViewOverview (size files) (length symbols) (length references) by_kind by_language
    (take largest (merge_sort (@ole _ largest_first) largest_files)).

(** [map.entry(key).or_default().insert(value)], over a list. *)
Definition group_by {A} (key value : A → string) (l : list A) : gmap string (gset string) :=
  foldl (λ m x, <[key x := {[value x]} ∪ default ∅ (m !! key x)]> m) ∅ l.

(** Descending by score, then by name. *)
Definition best_first : Cmp RankedSymbol := λ a b,
  match cmp (rk_score b) (rk_score a) with
  | Eq => cmp (rk_name a) (rk_name b)
  | c => c
  end.

Definition scores (ranking : Ranking) : gmap string nat :=
  let definitions := group_by (λ l, sym_name (loc_item l)) loc_path (gs_all_symbols g) in
  let references := filter is_call (gs_all_references g) in
  match ranking with
  | Definitions => size <$> definitions
  | FanIn => count_by (λ l, ref_name (loc_item l)) references
  | FanOut =>
      size <$> group_by fst snd
        (omap (λ l, (λ from, (from, ref_name (loc_item l))) <$> ref_from (loc_item l))
           references)
  end.

Definition top (ranking : Ranking) (limit : nat) : Page RankedSymbol :=
  let definitions := group_by (λ l, sym_name (loc_item l)) loc_path (gs_all_symbols g) in
  let ranked := (λ p, mkRankedSymbol p.1 p.2
                        (default [] (btree_elements <$> definitions !! p.1)))
                <$> btree_items (scores ranking) in
  Page_new (merge_sort (@ole _ best_first) ranked) limit.

Definition list_symbols (filter_ : SymbolFilter) (limit : nat) : Page (Located Symbol) :=
  Page_new (filter (λ l, filter_matches filter_ l = true) (gs_all_symbols g)) limit.

Definition is_test_scope_name (name : string) : bool :=
  bool_decide (name = "tests") || bool_decide (name = "test").

Definition in_tests_dir (path : string) : bool :=
  existsb (λ part, bool_decide (part = "tests")) (split_char slash_char path).

(** The line ranges of the test modules. *)
Definition test_scopes : list (string * N * N) :=
  (λ l, (loc_path l, sym_start_line (loc_item l), sym_end_line (loc_item l))) <$>
    filter (λ l, sym_kind (loc_item l) = Module_ ∧ is_test_scope_name (sym_name (loc_item l)) = true)
      (gs_all_symbols g).

Definition in_test_scope (l : Located Symbol) : bool :=
  in_tests_dir (loc_path l)
  || existsb (λ '(path, start, end_),
       bool_decide (path = loc_path l)
       && (start <=? sym_start_line (loc_item l))%N && (sym_end_line (loc_item l) <=? end_)%N)
       test_scopes.

(** By path, then start line. *)
Definition by_place : Cmp (Located Symbol) := λ a b,
  match cmp (loc_path a) (loc_path b) with
  | Eq => cmp (sym_start_line (loc_item a)) (sym_start_line (loc_item b))
  | c => c
  end.

Definition unreferenced (filter_ : SymbolFilter) (exclude_tests : bool) (limit : nat) :
    Page (Located Symbol) :=
  let referenced : gset string := list_to_set ((λ l, ref_name (loc_item l)) <$> gs_all_references g) in
  let matched :=
    filter (λ l, negb exclude_tests || negb (in_test_scope l) = true)
      (filter (λ l, filter_matches filter_ l = true)
         (filter (λ l, sym_name (loc_item l) ∉ referenced) (gs_all_symbols g))) in
  Page_new (merge_sort (@ole _ by_place) matched) limit.
End queries.

(** ** Structural diff *)

Record GraphDiff := mkGraphDiff {
  added_symbols : list (Located Symbol);
  removed_symbols : list (Located Symbol);
  added_references : list (Located Reference);
  removed_references : list (Located Reference)
}.

Definition diff_is_empty (d : GraphDiff) : bool :=
  bool_decide (added_symbols d = []) && bool_decide (removed_symbols d = [])
  && bool_decide (added_references d = []) && bool_decide (removed_references d = []).

Definition symbol_key (l : Located Symbol) : string * string * SymbolKind :=
  (loc_path l, sym_name (loc_item l), sym_kind (loc_item l)).

Definition reference_key (l : Located Reference) : string * option string * string :=
  (loc_path l, ref_from (loc_item l), ref_name (loc_item l)).

(** [filter(|it| keep(it) && seen.insert(key(it)))]. *)
Fixpoint dedup_by_key_from {T K} `{EqDecision K} (keep : T → bool) (key : T → K)
    (seen : list K) (l : list T) : list T :=
  match l with
  | [] => []
  | x :: l =>
      if keep x && bool_decide (key x ∉ seen)
      then x :: dedup_by_key_from keep key (key x :: seen) l
      else dedup_by_key_from keep key seen l
  end.

Definition dedup_by_key {T K} `{EqDecision K} (items : list T) (keep : T → bool)
    (key : T → K) : list T :=
  dedup_by_key_from keep key [] items.

Definition diff (a b : GraphStore) : GraphDiff :=
  let a_sym_keys := symbol_key <$> gs_all_symbols a in
  let b_sym_keys := symbol_key <$> gs_all_symbols b in
  let a_ref_keys := reference_key <$> gs_all_references a in
  let b_ref_keys := reference_key <$> gs_all_references b in
  mkGraphDiff
    (dedup_by_key (gs_all_symbols b) (λ l, bool_decide (symbol_key l ∉ a_sym_keys)) symbol_key)
    (dedup_by_key (gs_all_symbols a) (λ l, bool_decide (symbol_key l ∉ b_sym_keys)) symbol_key)
    (dedup_by_key (gs_all_references b) (λ l, bool_decide (reference_key l ∉ a_ref_keys))
       reference_key)
    (dedup_by_key (gs_all_references a) (λ l, bool_decide (reference_key l ∉ b_ref_keys))
       reference_key).

(** ** The in-memory store keeps the interface *)

Lemma filter_fmap {A B} (f : A → B) (P : B → Prop) `{!∀ x, Decision (P x)} (l : list A) :
  filter P (f <$> l) = f <$> filter (λ x, P (f x)) l.
Proof.
  induction l as [|x l IH]; [done|]. rewrite fmap_cons.
  destruct (decide (P (f x))); [rewrite !filter_cons_True|rewrite !filter_cons_False];
    rewrite ?fmap_cons, ?IH; done.
Qed.

Lemma filter_bind {A B} (f : A → list B) (P : B → Prop) `{!∀ x, Decision (P x)} (l : list A) :
  filter P (l ≫= f) = l ≫= (λ x, filter P (f x)).
Proof. induction l as [|x l IH]; [done|]. rewrite !bind_cons, filter_app. by rewrite IH. Qed.

Section in_memory_laws.
Context (s : InMemoryGraphStore).

Lemma filter_located_in {A} (f : CodeGraph → list A) (P : A → Prop) `{!∀ x, Decision (P x)} :
  located_in s (λ g, filter P (f g)) = filter (λ l, P (loc_item l)) (located_in s f).
Proof.
  unfold located_in. rewrite filter_bind. induction (btree_items _) as [|p l IH]; [done|].
  rewrite !bind_cons, filter_fmap. by rewrite IH.
Qed.

Lemma elem_of_located_in {A} (f : CodeGraph → list A) path x :
  mkLocated path x ∈ located_in s f ↔ ∃ g, slices s !! path = Some g ∧ x ∈ f g.
Proof.
  unfold located_in. rewrite list_elem_of_bind. split.
  - intros ([path' g] & (y & [= -> ->] & Hy)%list_elem_of_fmap & Hin%elem_of_btree_items). eauto.
  - intros (g & Hg & Hx). exists (path, g). rewrite elem_of_btree_items. split; [|done].
    by apply list_elem_of_fmap_2.
Qed.

Lemma elem_of_slice_references r :
  r ∈ (btree_values (slices s) ≫= cg_references) ↔
    ∃ path, mkLocated path r ∈ mem_all_references s.
Proof.
  unfold mem_all_references. setoid_rewrite elem_of_located_in. rewrite list_elem_of_bind.
  setoid_rewrite elem_of_btree_values. naive_solver.
Qed.

#[export] Instance in_memory_laws : GraphStoreLaws (in_memory s).
Proof.
  split; cbn.
  - intros name. unfold mem_definitions. by rewrite filter_located_in.
  - intros name. unfold mem_references_to. by rewrite filter_located_in.
  - intros path x. unfold mem_symbols_in_file, mem_all_symbols. rewrite elem_of_located_in.
    destruct (slices s !! path) as [g|] eqn:E; cbn; [naive_solver|].
    rewrite elem_of_nil. naive_solver.
  - intros name. apply dedup_increasing, sort_sorted.
  - intros name c. unfold mem_callers_of.
    rewrite elem_of_dedup, elem_of_sort, list_elem_of_omap.
    setoid_rewrite list_elem_of_filter. setoid_rewrite elem_of_slice_references.
    unfold is_call. split.
    + intros (r & [[??] [path ?]] & ?). exists (mkLocated path r). done.
    + intros ([path r] & ? & ? & ? & ?). naive_solver.
  - intros name. apply dedup_increasing, sort_sorted.
  - intros name c. unfold mem_callees.
    rewrite elem_of_dedup, elem_of_sort, list_elem_of_fmap.
    setoid_rewrite list_elem_of_filter. setoid_rewrite elem_of_slice_references.
    unfold is_call. split.
    + intros (r & -> & [[??] [path ?]]). by exists (mkLocated path r).
    + intros ([path r] & ? & ? & ? & ?). cbn in *. exists r. naive_solver.
Qed.
End in_memory_laws.

(** *** A sample view: two functions that call each other, a caller in another
    file, and a name passed as a value *)

Definition sample_fn (name : string) (line : N) : Symbol := mkSymbol name Function line line None.

Definition sample_call (name from : string) (kind : RefKind) : Reference :=
  mkReference name (Some from) 1 kind None InFunction.

Definition sample_view : InMemoryGraphStore :=
  InMemory_insert
    (InMemory_insert InMemory_new "a.rs"
       (mkCodeGraph [sample_fn "ping" 1; sample_fn "pong" 2]
          [sample_call "pong" "ping" Free; sample_call "ping" "pong" Free] []))
    "b.rs"
    (mkCodeGraph [sample_fn "main" 1]
       [sample_call "ping" "main" Free; sample_call "pong" "main" Value] []).
