(* ===== verification/GraphQueries.v ===== *)
(** * GraphQueries: what the structural queries answer

    Theorems about the queries of [GraphStore], proved of any backend that keeps
    the interface: the impact closure, the overview, the rankings, the diff and
    the dead-code candidates. *)

From S2P Require Export GraphStore.

(** ** The impact closure *)

Lemma size_list_to_set_length (l : list string) :
  size (list_to_set l : gset string) ≤ length l.
Proof.
  induction l as [|x l IH]; [done|]. cbn. rewrite size_union_alt, size_singleton.
  pose proof (subseteq_size (list_to_set l ∖ {[x]} : gset string) (list_to_set l) ltac:(set_solver)). lia.
Qed.

Section impact.
Context (g : GraphStore) `{!GraphStoreLaws g}.
Implicit Types visited : gset string.

(** [c] calls [x]. *)
Definition called_by (x c : string) : Prop := c ∈ gs_callers_of g x.

Definition all_callers : gset string :=
  list_to_set (omap (λ l, ref_from (loc_item l)) (gs_all_references g)).

Lemma called_by_all_callers x c : called_by x c → c ∈ all_callers.
Proof.
  intros (r & Hr & _ & _ & Hf)%law_callers_of. unfold all_callers.
  apply elem_of_list_to_set, list_elem_of_omap. eauto.
Qed.

Lemma size_all_callers : size all_callers ≤ length (gs_all_references g).
Proof.
  unfold all_callers. etrans; [apply size_list_to_set_length|].
  generalize (gs_all_references g). induction l as [|r l IH]; [done|]. cbn.
  destruct (ref_from _); cbn; lia.
Qed.

Lemma visit_new_spec callers visited queue :
  let '(visited', queue') := visit_new callers visited queue in
  visited' = list_to_set callers ∪ visited ∧
  ∃ new, queue' = queue ++ new ∧ NoDup new ∧ ∀ c, c ∈ new ↔ c ∈ callers ∧ c ∉ visited.
Proof.
  revert visited queue. induction callers as [|c callers IH]; intros visited queue; cbn.
  { split; [set_solver|]. exists []. rewrite app_nil_r. split_and!; [done|constructor|].
    intros c. rewrite elem_of_nil. tauto. }
  case_decide as Hc.
  - specialize (IH visited queue). destruct (visit_new _ _ _) as [v q].
    destruct IH as (-> & new & -> & Hnd & Hnew). split; [set_solver|].
    exists new. split_and!; [done..|]. intros x. rewrite Hnew, elem_of_cons. naive_solver.
  - specialize (IH ({[c]} ∪ visited) (queue ++ [c])). destruct (visit_new _ _ _) as [v q].
    destruct IH as (-> & new & -> & Hnd & Hnew). split; [set_solver|].
    exists (c :: new). rewrite <-app_assoc. split_and!; [done|constructor; [|done]|].
    + rewrite Hnew, elem_of_union, elem_of_singleton. tauto.
    + intros x. rewrite !elem_of_cons, Hnew, elem_of_union, elem_of_singleton.
      destruct (decide (x = c)); naive_solver.
Qed.

(** Visited nodes are reachable, and a visited node's callers are visited unless
    it is still queued. *)
Definition impact_inv (name : string) visited (queue : list string) : Prop :=
  name ∈ visited ∧ NoDup queue ∧
  (∀ x, x ∈ visited → rtc called_by name x) ∧
  (∀ x, x ∈ queue → x ∈ visited) ∧
  (∀ x c, x ∈ visited → x ∉ queue → called_by x c → c ∈ visited).

(** Callers not yet visited, and the queue. *)
Definition impact_measure visited (queue : list string) : nat :=
  size (all_callers ∖ visited) + length queue.

Lemma impact_step name current queue visited :
  impact_inv name visited (current :: queue) →
  let '(visited', queue') := visit_new (gs_callers_of g current) visited queue in
  impact_inv name visited' queue' ∧
  impact_measure visited' queue' < impact_measure visited (current :: queue).
Proof.
  intros (Hname & Hnd & Hreach & Hq & Hclosed).
  pose proof (visit_new_spec (gs_callers_of g current) visited queue) as Hspec.
  destruct (visit_new _ _ _) as [v' q']. destruct Hspec as (-> & new & -> & Hnew & Hin).
  apply NoDup_cons in Hnd as [Hcur Hnd].
  assert (∀ x, x ∈ new → called_by current x) as Hnewc by (intros x ?%Hin; naive_solver).
  assert (∀ x, x ∈ queue → x ∈ visited) as Hq' by (intros x ?; apply Hq; by right).
  assert (current ∈ visited) as Hcv by (apply Hq; left).
  split; [split_and!|].
  - set_solver.
  - apply NoDup_app. split_and!; [done| |done]. intros x Hx [_ ?]%Hin. by apply Hq' in Hx.
  - intros x [Hx%elem_of_list_to_set|?]%elem_of_union; [|by apply Hreach].
    eapply rtc_r; [by apply Hreach|done].
  - intros x [?|[? _]%Hin]%elem_of_app; [set_solver|]. by apply elem_of_union_l, elem_of_list_to_set.
  - intros x c Hx Hnq Hc. rewrite elem_of_app in Hnq.
    destruct (decide (x = current)) as [->|Hne]; [by apply elem_of_union_l, elem_of_list_to_set|].
    apply elem_of_union in Hx as [Hx%elem_of_list_to_set|Hx].
    + destruct (decide (x ∈ visited)) as [Hv|Hv]; [|exfalso; apply Hnq; right; by apply Hin].
      apply elem_of_union_r, (Hclosed x); [done| |done]. rewrite elem_of_cons. tauto.
    + apply elem_of_union_r, (Hclosed x); [done| |done]. rewrite elem_of_cons. tauto.
  - unfold impact_measure. rewrite length_app. cbn [length].
    assert (size (all_callers ∖ (list_to_set (gs_callers_of g current) ∪ visited)) + length new
            ≤ size (all_callers ∖ visited)); [|lia].
    rewrite <-(size_list_to_set (C := gset string) new Hnew), <-size_union.
    + apply subseteq_size. intros x [Hx|Hx%elem_of_list_to_set]%elem_of_union; [set_solver|].
      apply elem_of_difference. split; [|by apply Hin].
      by apply (called_by_all_callers current), Hnewc.
    + intros x Hx Hx2%elem_of_list_to_set%Hin. set_solver.
Qed.

Lemma impact_inv_done name visited :
  impact_inv name visited [] → ∀ x, x ∈ visited ↔ rtc called_by name x.
Proof.
  intros (Hname & _ & Hreach & _ & Hclosed) x. split; [apply Hreach|].
  revert x. apply rtc_ind_r; [done|]. intros y z _ Hyz Hy.
  apply (Hclosed y); [done|apply not_elem_of_nil|done].
Qed.

Lemma impact_loop_spec name fuel visited queue :
  impact_inv name visited queue → impact_measure visited queue ≤ fuel →
  ∃ v, impact_loop g fuel visited queue = Some v ∧ ∀ x, x ∈ v ↔ rtc called_by name x.
Proof.
  revert visited queue. induction fuel as [|fuel IH]; intros visited queue Hinv Hfuel;
    (destruct queue as [|current queue]; cbn;
      [exists visited; split; [done|]; by apply impact_inv_done|]).
  - unfold impact_measure in Hfuel. cbn in Hfuel. lia.
  - pose proof (impact_step name current queue visited Hinv) as Hstep.
    destruct (visit_new _ _ _) as [v' q']. destruct Hstep as [Hinv' Hless].
    apply IH; [done|lia].
Qed.
End impact.

(** C31: the impact query is the transitive closure of the call graph.  With at
    least one step per reference of the view the breadth-first walk ends,
    however cyclic the calls are, and its answer is the sorted list of exactly
    the names other than the seed that reach it through calls, each once. *)
Theorem impact_is_closure (g : GraphStore) `{!GraphStoreLaws g} (fuel : nat) (name : string) :
  length (gs_all_references g) ≤ fuel →
  ∃ l, impact g fuel name = Some l ∧ increasing l ∧
    ∀ c, c ∈ l ↔ c ≠ name ∧ rtc (called_by g) name c.
Proof.
  intros Hfuel. unfold impact.
  assert (impact_inv g name {[name]} [name]) as Hinit.
  { split_and!; [set_solver|by apply NoDup_singleton|set_solver|set_solver|].
    intros x c Hx%elem_of_singleton Hn. exfalso. apply Hn. subst. by left. }
  pose proof (impact_step g name name [] {[name]} Hinit) as Hstep.
  destruct (visit_new _ _ _) as [v q]. destruct Hstep as [Hinv Hless].
  destruct (impact_loop_spec g name fuel v q Hinv) as (v' & -> & Hv').
  { unfold impact_measure in *. cbn in Hless.
    pose proof (size_all_callers g).
    pose proof (subseteq_size (all_callers g ∖ {[name]}) (all_callers g) ltac:(set_solver)). lia. }
  cbn. eexists. split; [done|]. split; [apply btree_elements_increasing|].
  intros c. rewrite elem_of_btree_elements, elem_of_difference, elem_of_singleton, Hv'. tauto.
Qed.

(** ** Counting *)

Definition sum_counts (m : gmap string nat) : nat := map_fold (λ _ n acc, n + acc) 0 m.

Lemma sum_counts_insert m k n : m !! k = None → sum_counts (<[k := n]> m) = n + sum_counts m.
Proof. intros Hk. unfold sum_counts. apply map_fold_insert_L; [|done]. intros. lia. Qed.

Lemma sum_counts_bump m k : sum_counts (<[k := default 0 (m !! k) + 1]> m) = sum_counts m + 1.
Proof.
  destruct (m !! k) as [n|] eqn:E; cbn; [|rewrite sum_counts_insert by done; lia].
  rewrite <-(insert_delete_id m k n E) at 2. rewrite <-(insert_delete_eq m k (n + 1)).
  rewrite !sum_counts_insert by apply lookup_delete_eq. lia.
Qed.

Section count_by.
Context {A : Type} (key : A → string).

Definition count_of (k : string) (l : list A) : nat := length (filter (λ x, key x = k) l).

Lemma bump_lookup m x k :
  bump key m x !! k = if decide (key x = k) then Some (default 0 (m !! k) + 1) else m !! k.
Proof.
  unfold bump. case_decide as Hk; [|by apply lookup_insert_ne]. subst. apply lookup_insert_eq.
Qed.

Lemma count_by_from_lookup l m k :
  default 0 (foldl (bump key) m l !! k) = default 0 (m !! k) + count_of k l.
Proof.
  revert m. unfold count_of. induction l as [|x l IH]; intros m; [cbn; lia|].
  cbn [foldl]. rewrite IH, bump_lookup.
  case_decide; [rewrite filter_cons_True by done; cbn; lia|by rewrite filter_cons_False].
Qed.

Lemma count_by_lookup l k : default 0 (count_by key l !! k) = count_of k l.
Proof. unfold count_by. by rewrite count_by_from_lookup, lookup_empty. Qed.

Lemma count_by_sum l : sum_counts (count_by key l) = length l.
Proof.
  unfold count_by. enough (∀ m, sum_counts (foldl (bump key) m l) = sum_counts m + length l)
    as Hm by (rewrite Hm; done).
  induction l as [|x l IH]; intros m; cbn; [lia|]. rewrite IH. unfold bump.
  rewrite sum_counts_bump. lia.
Qed.

Lemma count_by_Some l k n : count_by key l !! k = Some n → n = count_of k l.
Proof.
  intros Hk. pose proof (count_by_lookup l k) as Hl. by rewrite Hk in Hl.
Qed.
End count_by.

(** *** Descending by a number, then by a name *)

Section desc.
Context {A : Type} (f : A → nat) (n : A → string).

Definition desc_then : Cmp A := λ a b,
  match cmp (f b) (f a) with Eq => cmp (n a) (n b) | c => c end.

Lemma desc_then_le a b :
  @ole _ desc_then a b ↔ f b < f a ∨ f a = f b ∧ ole (n a) (n b).
Proof.
  unfold ole, desc_then, cmp at 1, cmp at 1, cmp_nat.
  destruct (Nat.compare_spec (f b) (f a)) as [H|H|H]; split; intros ?; try lia; try done;
    naive_solver lia.
Qed.

Lemma desc_then_total : Total (@ole _ desc_then).
Proof.
  intros a b. rewrite !desc_then_le.
  destruct (Nat.lt_trichotomy (f a) (f b)) as [?|[?|?]]; [tauto| |tauto].
  destruct (ole_total (n a) (n b)); [left|right]; right; split; done.
Qed.

Lemma desc_then_trans : Transitive (@ole _ desc_then).
Proof.
  intros a b c. rewrite !desc_then_le. intros [?|[? ?]] [?|[? ?]]; try (left; lia).
  right. split; [lia|]. by etrans.
Qed.

Lemma desc_then_sorted l : StronglySorted (@ole _ desc_then) (merge_sort (@ole _ desc_then) l).
Proof.
  pose proof desc_then_total. pose proof desc_then_trans. apply (StronglySorted_merge_sort _).
Qed.
End desc.

Lemma elem_of_take {A} (x : A) n l : x ∈ take n l → x ∈ l.
Proof. intros Hx. rewrite <-(take_drop n l). apply elem_of_app. by left. Qed.

Lemma sorted_take_drop {A} (R : relation A) n l x y :
  StronglySorted R l → x ∈ take n l → y ∈ drop n l → R x y.
Proof.
  intros Hs Hx Hy. rewrite <-(take_drop n l) in Hs. by eapply StronglySorted_app_1_elem_of.
Qed.

Lemma StronglySorted_weaken {A} (R S : relation A) (l : list A) :
  (∀ x y, R x y → S x y) → StronglySorted R l → StronglySorted S l.
Proof.
  intros Hrs. induction 1 as [|x l _ IH Hx]; constructor; [done|].
  eapply Forall_impl; [exact Hx|]. auto.
Qed.

Lemma SymbolKind_as_str_inj k k' : SymbolKind_as_str k = SymbolKind_as_str k' → k = k'.
Proof. by destruct k, k'. Qed.

(** The overview adds up.  Every symbol of the view is counted once by kind
    and once by language, files of no known language included; the count of a
    kind is its number of symbols; and the files listed as the largest are, with
    their true sizes, a prefix of all files by descending size. *)
Theorem overview_adds_up (g : GraphStore) (largest : nat) :
  let o := overview g largest in
  sum_counts (by_kind o) = ov_symbols o ∧ sum_counts (by_language o) = ov_symbols o ∧
  (∀ k, default 0 (by_kind o !! SymbolKind_as_str k) =
     length (filter (λ l, sym_kind (loc_item l) = k) (gs_all_symbols g))) ∧
  length (largest_files o) ≤ largest ∧
  StronglySorted (λ a b, sum_symbols b ≤ sum_symbols a) (largest_files o) ∧
  (∀ f, f ∈ largest_files o →
     sum_symbols f = length (filter (λ l, loc_path l = sum_path f) (gs_all_symbols g))) ∧
  (∀ f l, f ∈ largest_files o → l ∈ gs_all_symbols g →
     loc_path l ∉ (sum_path <$> largest_files o) →
     length (filter (λ x, loc_path x = loc_path l) (gs_all_symbols g)) ≤ sum_symbols f).
Proof.
  intros o. split_and!; [apply count_by_sum..| | | | |].
  - intros k. cbn. rewrite count_by_lookup. unfold count_of. f_equal. apply list_filter_iff.
    intros x. split; [apply SymbolKind_as_str_inj|by intros ->].
  - cbn. rewrite length_take. lia.
  - apply StronglySorted_take. eapply StronglySorted_weaken; [|apply desc_then_sorted].
    intros a b. rewrite desc_then_le. lia.
  - intros f Hf%elem_of_take. cbn in Hf. rewrite merge_sort_Permutation in Hf.
    apply list_elem_of_fmap in Hf as ([p n] & -> & Hin%elem_of_btree_items). cbn.
    by apply count_by_Some in Hin.
  - intros f l Hf Hl Hout. cbn in Hf, Hout.
    set (files := (λ p, mkFileSummary p.1 p.2) <$> btree_items (count_by loc_path (gs_all_symbols g))) in *.
    destruct (count_by loc_path (gs_all_symbols g) !! loc_path l) as [n|] eqn:En.
    2: { pose proof (count_by_lookup loc_path (gs_all_symbols g) (loc_path l)) as Hz.
         rewrite En in Hz. cbn in Hz. unfold count_of in Hz. rewrite <-Hz. lia. }
    assert (mkFileSummary (loc_path l) n ∈ files) as Hin.
    { apply list_elem_of_fmap. exists (loc_path l, n). by rewrite elem_of_btree_items. }
    apply count_by_Some in En. change (n = length (filter (λ x, loc_path x = loc_path l) (gs_all_symbols g))) in En.
    rewrite <-En.
    rewrite <-(merge_sort_Permutation (@ole _ largest_first)) in Hin.
    rewrite <-(take_drop largest (merge_sort _ files)) in Hin.
    apply elem_of_app in Hin as [Hin|Hin].
    { exfalso. apply Hout. apply list_elem_of_fmap.
      by exists (mkFileSummary (loc_path l) n). }
    pose proof (desc_then_sorted sum_symbols sum_path files) as Hsorted.
    assert (@ole _ (desc_then sum_symbols sum_path) f (mkFileSummary (loc_path l) n)) as Hle
      by (eapply sorted_take_drop; [exact Hsorted|exact Hf|exact Hin]).
    apply desc_then_le in Hle. cbn in Hle. lia.
Qed.

(** ** Rankings *)

Lemma group_by_lookup {A} (key value : A → string) (l : list A) k :
  default ∅ (group_by key value l !! k) =
    (list_to_set (value <$> filter (λ x, key x = k) l) : gset string).
Proof.
  unfold group_by. enough (∀ m : gmap string (gset string),
    default ∅ (foldl (λ m x, <[key x := {[value x]} ∪ default ∅ (m !! key x)]> m) m l !! k) =
      default ∅ (m !! k) ∪ list_to_set (value <$> filter (λ x, key x = k) l)) as Hm.
  { rewrite Hm, lookup_empty. cbn. set_solver. }
  induction l as [|x l IH]; intros m; cbn [foldl]; [cbn; set_solver|]. rewrite IH.
  destruct (decide (key x = k)) as [<-|Hne].
  - rewrite lookup_insert_eq, filter_cons_True by done. cbn. set_solver.
  - by rewrite lookup_insert_ne, filter_cons_False.
Qed.

Lemma size_of_group (m : gmap string (gset string)) k :
  default 0 ((size <$> m) !! k) = size (default ∅ (m !! k)).
Proof. rewrite lookup_fmap. by destruct (m !! k). Qed.

(** Rankings agree with the queries they summarise.  A name's fan-out is the
    number of its callees, its fan-in the number of call references to it, its
    definition count the number of files that define it, values never counting as
    calls; and the top list is, best first, a prefix of all scored names, with
    the number of those it left out. *)
Theorem rankings_agree_with_queries (g : GraphStore) `{!GraphStoreLaws g} :
  (∀ name, default 0 (scores g FanOut !! name) = length (gs_callees g name)) ∧
  (∀ name, default 0 (scores g FanIn !! name) = length (filter is_call (gs_references_to g name))) ∧
  (∀ name, default 0 (scores g Definitions !! name) =
     size (list_to_set (loc_path <$> gs_definitions g name) : gset string)) ∧
  (∀ ranking limit, let p := top g ranking limit in
     StronglySorted (λ a b, rk_score b ≤ rk_score a) (items p) ∧
     length (items p) = min limit (total p) ∧ (truncated p = true ↔ limit < total p) ∧
     total p = size (scores g ranking) ∧
     ∀ r, r ∈ items p → scores g ranking !! rk_name r = Some (rk_score r)).
Proof.
  split_and!.
  - intros name. cbn. rewrite size_of_group, group_by_lookup.
    rewrite <-(size_list_to_set (C := gset string) (gs_callees g name))
      by apply increasing_NoDup, law_callees_sorted.
    f_equal. apply set_eq. intros c. rewrite !elem_of_list_to_set, law_callees, list_elem_of_fmap.
    setoid_rewrite list_elem_of_filter. setoid_rewrite list_elem_of_omap.
    setoid_rewrite list_elem_of_filter. split.
    + intros ([f n] & -> & <- & r & [Hc Hr] & Hf). exists r.
      destruct (ref_from (loc_item r)); by simplify_eq/=.
    + intros (r & Hr & Hf & Hc & <-). exists (name, ref_name (loc_item r)).
      split_and!; [done..|]. exists r. by rewrite Hf.
  - intros name. cbn. rewrite count_by_lookup. unfold count_of.
    rewrite law_references_to, !list_filter_filter. f_equal. apply list_filter_iff. tauto.
  - intros name. cbn. rewrite size_of_group, group_by_lookup. f_equal. apply set_eq. intros p.
    rewrite !elem_of_list_to_set. by rewrite law_definitions.
  - intros ranking limit p. subst p. unfold top, Page_new. cbn. split_and!.
    + apply StronglySorted_take. eapply StronglySorted_weaken; [|apply desc_then_sorted].
      intros a b. rewrite desc_then_le. lia.
    + rewrite length_take. done.
    + rewrite bool_decide_eq_true, length_take. lia.
    + rewrite merge_sort_Permutation, length_fmap, <-(length_fmap fst), fst_btree_items.
      unfold btree_keys. by rewrite length_sort, length_fmap, length_map_to_list.
    + intros r Hr%elem_of_take. rewrite merge_sort_Permutation in Hr.
      by apply list_elem_of_fmap in Hr as ([n sc] & -> & Hin%elem_of_btree_items).
Qed.

(** ** Diffs *)

Section dedup_by_key.
Context {T K : Type} `{EqDecision K} (keep : T → bool) (key : T → K).

Lemma dedup_by_key_from_spec seen l :
  let d := dedup_by_key_from keep key seen l in
  (∀ x, x ∈ d → x ∈ l ∧ keep x = true ∧ key x ∉ seen) ∧ NoDup (key <$> d) ∧
  (∀ x, x ∈ l → keep x = true → key x ∈ seen ∨ key x ∈ key <$> d).
Proof.
  revert seen. induction l as [|x l IH]; intros seen; cbn.
  { split_and!; [intros x Hx; by apply elem_of_nil in Hx|constructor|].
    intros x Hx. by apply elem_of_nil in Hx. }
  destruct (keep x) eqn:Hkeep; cbn.
  2: { destruct (IH seen) as (H1 & H2 & H3). split_and!; [|done|].
       - intros y Hy. rewrite elem_of_cons. naive_solver.
       - intros y [->|Hy]%elem_of_cons Hk; [congruence|auto]. }
  case_bool_decide as Hseen.
  - destruct (IH (key x :: seen)) as (H1 & H2 & H3). split_and!.
    + intros y [->|Hy]%elem_of_cons; [split_and!; [left|done|done]|].
      destruct (H1 y Hy) as (? & ? & [_ Hn]%not_elem_of_cons). split_and!; [by right|done..].
    + cbn. constructor; [|done]. intros (y & Heq & Hy)%list_elem_of_fmap.
      destruct (H1 y Hy) as (_ & _ & Hn). apply Hn. rewrite <-Heq. left.
    + intros y [->|Hy]%elem_of_cons Hk; [right; left|].
      destruct (H3 y Hy Hk) as [[->|?]%elem_of_cons|?]; [right; left|by left|by right; right].
  - destruct (IH seen) as (H1 & H2 & H3). split_and!; [|done|].
    + intros y Hy. rewrite elem_of_cons. naive_solver.
    + intros y [->|Hy]%elem_of_cons Hk; [left; destruct (decide (key x ∈ seen)); tauto|auto].
Qed.

(** One side of a diff: the keys of [l] outside [other], each once. *)
Definition one_sided (l d : list T) (other : list K) : Prop :=
  (∀ x, x ∈ d → x ∈ l) ∧ NoDup (key <$> d) ∧
  ∀ k, k ∈ key <$> d ↔ k ∈ key <$> l ∧ k ∉ other.
End dedup_by_key.

Lemma diff_side {T K} `{EqDecision K} (key : T → K) (l : list T) (other : list K) :
  one_sided key l (dedup_by_key l (λ x, bool_decide (key x ∉ other)) key) other.
Proof.
  destruct (dedup_by_key_from_spec (λ x, bool_decide (key x ∉ other)) key [] l) as (H1 & H2 & H3).
  split_and!; [intros x Hx; by apply H1|done|]. intros k. rewrite !list_elem_of_fmap. split.
  - intros (x & -> & Hx). destruct (H1 x Hx) as (? & Hk%bool_decide_eq_true & _). eauto.
  - intros [(x & -> & Hx) Hk].
    destruct (H3 x Hx) as [Hn|Hd]; [by apply bool_decide_eq_true|by apply elem_of_nil in Hn|].
    by apply list_elem_of_fmap in Hd.
Qed.

Lemma one_sided_nil {T K} `{EqDecision K} (key : T → K) l d other :
  one_sided key l d other → (d = [] ↔ ∀ k, k ∈ key <$> l → k ∈ other).
Proof.
  intros (H1 & _ & H3). split.
  - intros -> k Hk. destruct (decide (k ∈ other)) as [|Hn]; [done|].
    assert (k ∈ key <$> []) as Hnil%elem_of_nil by (by apply H3). done.
  - intros Hsub. destruct d as [|x d]; [done|]. exfalso.
    destruct (proj1 (H3 (key x))) as [Hin Hn]; [left|]. by apply Hn, Hsub.
Qed.

(** The diff of two views is exact and reversible.  It lists, each once, the
    symbols (by path, name and kind) and references (by path, caller and name)
    that only one view has; diffing the other way swaps additions and removals;
    and it is empty exactly when the views have the same keys, so that moved lines
    never show. *)
Theorem diff_is_exact (a b : GraphStore) :
  let d := diff a b in
  one_sided symbol_key (gs_all_symbols b) (added_symbols d) (symbol_key <$> gs_all_symbols a) ∧
  one_sided symbol_key (gs_all_symbols a) (removed_symbols d) (symbol_key <$> gs_all_symbols b) ∧
  one_sided reference_key (gs_all_references b) (added_references d)
    (reference_key <$> gs_all_references a) ∧
  one_sided reference_key (gs_all_references a) (removed_references d)
    (reference_key <$> gs_all_references b) ∧
  diff b a = mkGraphDiff (removed_symbols d) (added_symbols d) (removed_references d)
               (added_references d) ∧
  (diff_is_empty d = true ↔
     (∀ k, k ∈ symbol_key <$> gs_all_symbols a ↔ k ∈ symbol_key <$> gs_all_symbols b) ∧
     (∀ k, k ∈ reference_key <$> gs_all_references a ↔
           k ∈ reference_key <$> gs_all_references b)).
Proof.
  intros d. split_and!; [apply diff_side..|done|].
  unfold diff_is_empty, d, diff.
  cbn [added_symbols removed_symbols added_references removed_references].
  rewrite !andb_true_iff, !bool_decide_eq_true.
  rewrite !(one_sided_nil _ _ _ _ (diff_side _ _ _)). naive_solver.
Qed.

(** ** Dead-code candidates *)

(** A symbol is reported as unreferenced only if nothing in the view, a value
    use included, names it, and with room for all of them every such symbol that
    passes the filter, and lies outside the tests when those are excluded, is
    reported; the page says how many there are. *)
Theorem unreferenced_exact (g : GraphStore) (f : SymbolFilter) (exclude_tests : bool)
    (limit : nat) :
  let p := unreferenced g f exclude_tests limit in
  let dead l := l ∈ gs_all_symbols g ∧
    (∀ r, r ∈ gs_all_references g → ref_name (loc_item r) ≠ sym_name (loc_item l)) ∧
    filter_matches f l = true ∧ (exclude_tests = true → in_test_scope g l = false) in
  (∀ l, l ∈ items p → dead l) ∧
  (truncated p = false → ∀ l, dead l → l ∈ items p) ∧
  length (items p) = min limit (total p) ∧ (truncated p = true ↔ limit < total p).
Proof.
  intros p dead.
  assert (∀ l, l ∈ merge_sort (@ole _ by_place)
    (filter (λ l, negb exclude_tests || negb (in_test_scope g l) = true)
      (filter (λ l, filter_matches f l = true)
         (filter (λ l, sym_name (loc_item l) ∉
            (list_to_set ((λ l, ref_name (loc_item l)) <$> gs_all_references g) : gset string))
            (gs_all_symbols g)))) ↔ dead l) as Hdead.
  { intros l. rewrite merge_sort_Permutation, !list_elem_of_filter.
    rewrite elem_of_list_to_set, list_elem_of_fmap. unfold dead.
    destruct exclude_tests, (in_test_scope g l); cbn; naive_solver. }
  subst p. unfold unreferenced, Page_new. cbn. split_and!.
  - intros l Hl%elem_of_take. by apply Hdead.
  - rewrite bool_decide_eq_false, length_take. intros Hlim l Hl%Hdead.
    rewrite take_ge; [done|]. lia.
  - by rewrite length_take.
  - rewrite bool_decide_eq_true, length_take. lia.
Qed.

(** ** Instances *)

Lemma impact_is_closure_witness :
  impact (in_memory sample_view) 4 "ping" = Some ["main"; "pong"] ∧
  ∃ l, impact (in_memory sample_view) 4 "ping" = Some l ∧ increasing l ∧
    ∀ c, c ∈ l ↔ c ≠ "ping" ∧ rtc (called_by (in_memory sample_view)) "ping" c.
Proof.
  split; [by vm_compute|]. apply (impact_is_closure (in_memory sample_view) 4 "ping").
  vm_compute. lia.
Defined.

Lemma rankings_agree_with_queries_witness :
  scores (in_memory sample_view) FanIn !! "ping" = Some 2 ∧
  default 0 (scores (in_memory sample_view) FanIn !! "ping") =
    length (filter is_call (gs_references_to (in_memory sample_view) "ping")).
Proof.
  split; [by vm_compute|].
  destruct (rankings_agree_with_queries (in_memory sample_view)) as (_ & H & _). apply H.
Defined.
