(* ===== verification/Resolve.v ===== *)
(** * Resolve: attributing references to definitions

    Models [gonzalo-graph]'s [resolve.rs]: the rules that pick the file a
    reference means, or say why none can be picked, and the impact walk that
    follows resolved edges only.  Everything is a function of a [GraphStore]. *)

From S2P Require Export GraphStore.

(** ** The rules *)

Inductive Resolution :=
  | Qualified | Local | UniqueGlobal | Imported | Ambiguous | ReceiverUnknown
  | Unresolved.

#[export] Instance Resolution_eq_dec : EqDecision Resolution.
Proof. solve_decision. Defined.

Record ResolvedReference := mkResolved {
  rr_reference : Located Reference;
  rr_target : option string;
  rr_resolution : Resolution
}.

(** The components of a path: [split('/').filter(|c| !c.is_empty())]. *)
Definition path_components (path : string) : list string :=
  filter (λ c, c ≠ "") (split_char slash_char path).

Definition dash : Byte.byte := Byte.x2d.
Definition underscore : Byte.byte := Byte.x5f.

Definition same_segment (component segment : string) : bool :=
  let c := bytes_of_string component in
  let s := bytes_of_string segment in
  (length c =? length s)
  && forallb (λ '(a, b), bool_decide (a = b)
       || (bool_decide (a = dash) || bool_decide (a = underscore))
          && (bool_decide (b = dash) || bool_decide (b = underscore))) (zip c s).

(** The file name without its extension: [rsplit_once('.')]. *)
Definition stem_of (last : string) : string :=
  match rsplit_once dot_char last with Some (stem, _) => stem | None => last end.

(** [components.pop()], and what is left. *)
Definition pop {A} (l : list A) : option (A * list A) :=
  match last l with Some x => Some (x, removelast l) | None => None end.

(** Components whose file is replaced by its stem, unless the stem names its
    container. *)
Definition module_components (entry : string → bool) (components : list string) : list string :=
  match pop components with
  | Some (last, rest) =>
      let stem := stem_of last in
      if entry stem then rest else rest ++ [stem]
  | None => []
  end.

Definition segments_match (components segments : list string) : bool :=
  forallb (λ '(c, s), same_segment c s) (zip components segments).

Definition path_ends_with_module (file : string) (module : list string) : bool :=
  let components := module_components
    (λ stem, bool_decide (stem ∈ ["mod"; "lib"; "main"; "__init__"; "index"]))
    (filter (λ c, c ≠ "src") (path_components file)) in
  (length module <=? length components)
  && segments_match (drop (length components - length module) components) module.

Definition path_under (file : string) (anchor : list string) : bool :=
  let components := module_components (λ stem, bool_decide (stem = "__init__"))
    (path_components file) in
  (length anchor <=? length components) && segments_match components anchor.

(** [for _ in 1..depth { components.pop()?; }]. *)
Fixpoint pop_times (n : nat) (components : list string) : option (list string) :=
  match n with
  | 0 => Some components
  | S n => '(_, rest) ← pop components; pop_times n rest
  end.

Definition relative_anchor (from_path : string) (depth : nat) (module : list string) :
    option (list string) :=
  '(_, package) ← pop (path_components from_path);
  dir ← pop_times (depth - 1) package;
  Some (dir ++ module).

(** The length of the common prefix. *)
Fixpoint shared_prefix (components own : list string) : nat :=
  match components, own with
  | c :: components, o :: own =>
      if same_segment c o then S (shared_prefix components own) else 0
  | _, _ => 0
  end.

Definition nearest_to (candidates : list string) (from_path : string) : option string :=
  let from := path_components from_path in
  let shared path := shared_prefix (path_components path) from in
  match candidates with
  | [] => None
  | _ =>
      let best := max_list (shared <$> candidates) in
      if decide (best = 0) then None
      else match filter (λ path, shared path = best) candidates with
           | [only] => Some only
           | _ => None
           end
  end.

(** [match matched { [] => None, [only] => .., several => nearest_to(..) }]. *)
Definition settle_matched (matched : list string) (from_path : string) : option string :=
  match matched with
  | [] => None
  | [only] => Some only
  | several => nearest_to several from_path
  end.

Definition included_target (imports : list Import) (from_path : string)
    (candidates : gset string) : option string :=
  let included := filter (λ i, brings_whole_file i = true ∧ imp_path i ≠ []) imports in
  if decide (included = []) then None
  else settle_matched
         (filter (λ path, existsb (λ i, path_ends_with_module path (imp_path i)) included = true)
            (btree_elements candidates)) from_path.

Definition imported_target (imports : list Import) (name from_path : string)
    (candidates : gset string) : option string :=
  match list_find (λ i, imp_name i = name) imports with
  | None => included_target imports from_path candidates
  | Some (_, import) =>
      matched ←
        (if decide (0 < imp_depth import) then
           anchor ← relative_anchor from_path (imp_depth import) (imp_path import);
           Some (filter (λ path, path_under path anchor = true) (btree_elements candidates))
         else if decide (imp_path import = []) then None
         else Some (filter (λ path, path_ends_with_module path (imp_path import) = true)
                      (btree_elements candidates)));
      settle_matched matched from_path
  end.

Section resolve.
Context (g : GraphStore).

Definition def_paths (name : string) : gset string :=
  list_to_set (loc_path <$> gs_definitions g name).

(** The paths of the definitions owned by a qualifier. *)
Definition qualified_paths (name : string) (qualifier : option string) : gset string :=
  match qualifier with
  | Some q => list_to_set (loc_path <$>
                filter (λ d, sym_owner (loc_item d) = Some q) (gs_definitions g name))
  | None => ∅
  end.

(** The imports of a referencing file, fetched only where the name is
    ambiguous. *)
Definition imports_for (name path : string) : option (list Import) :=
  if decide (1 < size (def_paths name)) then Some (gs_imports_in_file g path) else None.

(** One reference.  [iter().next()] of a set is its least element. *)
Definition resolve_one (name : string) (located : Located Reference) : ResolvedReference :=
  let defs := def_paths name in
  let qualified := qualified_paths name (ref_qualifier (loc_item located)) in
  let '(target, resolution) :=
    if decide (size qualified = 1) then (head (btree_elements qualified), Qualified)
    else if decide (qualified ≠ ∅) then (None, Ambiguous)
    else if decide (loc_path located ∈ defs) then (Some (loc_path located), Local)
    else if decide (defs = ∅) then (None, Unresolved)
    else if decide (ref_kind (loc_item located) = Method) then (None, ReceiverUnknown)
    else if decide (size defs = 1) then (head (btree_elements defs), UniqueGlobal)
    else match imports ← imports_for name (loc_path located);
               imported_target imports name (loc_path located) defs with
         | Some path => (Some path, Imported)
         | None => (None, Ambiguous)
         end in
  mkResolved located target resolution.

Definition resolve_references_to (name : string) : list ResolvedReference :=
  resolve_one name <$> gs_references_to g name.

Definition resolved_callers_of (defining_path name : string) : list string :=
  dedup (sort (omap (λ r, ref_from (loc_item (rr_reference r)))
    (filter (λ r, rr_target r = Some defining_path) (resolve_references_to name)))).

(** ** The impact walk *)

Record ImpactNode := mkNode { node_name : string; node_path : string }.

#[export] Instance ImpactNode_eq_dec : EqDecision ImpactNode.
Proof. solve_decision. Defined.
Definition node_pair (n : ImpactNode) : string * string := (node_name n, node_path n).
#[export] Instance node_pair_inj : Inj (=) (=) node_pair.
Proof. intros [] []. unfold node_pair. naive_solver. Qed.
#[export] Instance ImpactNode_countable : Countable ImpactNode :=
  inj_countable' node_pair (λ '(n, p), mkNode n p) ltac:(by intros []).
#[export] Instance ImpactNode_cmp : Cmp ImpactNode := cmp_via node_pair.
#[export] Instance ImpactNode_cmp_laws : CmpLaws ImpactNode := cmp_via_laws node_pair _.

Record ImpactReport := mkReport {
  reached : list ImpactNode;
  ambiguous_edges : nat;
  receiver_unknown_edges : nat;
  value_edges : nat;
  cut_short : bool
}.

(** The walk's state: the nodes seen, those seen on this level, the counters. *)
Record Walk := mkWalk {
  wk_visited : gset ImpactNode;
  wk_next : list ImpactNode;
  wk_ambiguous : nat;
  wk_receiver_unknown : nat;
  wk_value : nat
}.

(** One resolved reference to the node's name. *)
Definition follow (node : ImpactNode) (w : Walk) (r : ResolvedReference) : Walk :=
  let '(mkWalk visited next amb recv val) := w in
  if decide (ref_kind (loc_item (rr_reference r)) = Value) then mkWalk visited next amb recv (S val)
  else
    match rr_resolution r with
    | Ambiguous => mkWalk visited next (S amb) recv val
    | ReceiverUnknown => mkWalk visited next amb (S recv) val
    | _ =>
        if decide (rr_target r ≠ Some (node_path node)) then w
        else match ref_from (loc_item (rr_reference r)) with
             | None => w
             | Some from =>
                 let caller := mkNode from (loc_path (rr_reference r)) in
                 if decide (caller ∈ visited) then w
                 else mkWalk ({[caller]} ∪ visited) (next ++ [caller]) amb recv val
             end
    end.

(** [for node in &frontier]. *)
Definition expand (frontier : list ImpactNode) (w : Walk) : Walk :=
  foldl (λ w node, foldl (follow node) w (resolve_references_to (node_name node))) w frontier.

(** [while !frontier.is_empty()]. *)
Fixpoint walk (fuel : nat) (max_depth : option nat) (depth : nat) (frontier : list ImpactNode)
    (w : Walk) : option (Walk * bool) :=
  match frontier with
  | [] => Some (w, false)
  | _ =>
      if match max_depth with Some max => max <=? depth | None => false end then Some (w, true)
      else match fuel with
           | 0 => None
           | S fuel =>
               let w := expand frontier (mkWalk (wk_visited w) [] (wk_ambiguous w)
                                           (wk_receiver_unknown w) (wk_value w)) in
               walk fuel max_depth (S depth) (wk_next w) w
           end
  end.

Definition seeds (name : string) : list ImpactNode :=
  (λ d, mkNode name (loc_path d)) <$> gs_definitions g name.

Definition resolved_impact (fuel : nat) (name : string) (max_depth : option nat) :
    option ImpactReport :=
  '(w, truncated) ← walk fuel max_depth 0 (seeds name)
                      (mkWalk (list_to_set (seeds name)) [] 0 0 0);
  Some (mkReport (btree_elements (wk_visited w ∖ list_to_set (seeds name)))
          (wk_ambiguous w) (wk_receiver_unknown w) (wk_value w) truncated).
End resolve.

(** ** The rules, branch by branch *)

Section resolve_spec.
Context (g : GraphStore).

Lemma elem_of_def_paths name p :
  p ∈ def_paths g name ↔ ∃ d, d ∈ gs_definitions g name ∧ loc_path d = p.
Proof.
  unfold def_paths. rewrite elem_of_list_to_set, list_elem_of_fmap. naive_solver.
Qed.

Lemma elem_of_qualified_paths name q p :
  p ∈ qualified_paths g name q ↔
    ∃ d o, q = Some o ∧ d ∈ gs_definitions g name ∧ sym_owner (loc_item d) = Some o ∧
           loc_path d = p.
Proof.
  unfold qualified_paths. destruct q as [q|]; [|set_solver].
  rewrite elem_of_list_to_set, list_elem_of_fmap. setoid_rewrite list_elem_of_filter. naive_solver.
Qed.

Lemma nearest_to_elem candidates from p : nearest_to candidates from = Some p → p ∈ candidates.
Proof.
  unfold nearest_to. destruct candidates as [|c cs]; [done|].
  case_decide; [done|]. destruct (filter _ (c :: cs)) as [|x [|]] eqn:Hf; try done.
  intros [= <-]. assert (x ∈ [x]) as Hx by left. rewrite <-Hf in Hx.
  by apply list_elem_of_filter in Hx as [_ ?].
Qed.

Lemma settle_matched_elem matched from p : settle_matched matched from = Some p → p ∈ matched.
Proof.
  destruct matched as [|x [|y l]]; cbn [settle_matched]; [done|intros [= <-]; left|].
  apply nearest_to_elem.
Qed.

Lemma settle_filter (P : string → Prop) `{!∀ x, Decision (P x)} (candidates : gset string) from p :
  settle_matched (filter P (btree_elements candidates)) from = Some p → p ∈ candidates.
Proof. intros [_ ?%elem_of_btree_elements]%settle_matched_elem%list_elem_of_filter. done. Qed.

Lemma imported_target_elem imports name from candidates p :
  imported_target imports name from candidates = Some p → p ∈ candidates.
Proof.
  unfold imported_target, included_target. destruct (list_find _ imports) as [[i import]|].
  - case_decide; [destruct (relative_anchor _ _ _); [|done]|case_decide; [done|]];
      cbn; apply settle_filter.
  - case_decide; [done|]. apply settle_filter.
Qed.

Lemma head_of_singleton (X : gset string) : size X = 1 →
  ∃ p, X = {[p]} ∧ head (btree_elements X) = Some p.
Proof.
  intros [p Hp]%size_1_elem_of. assert (X = {[p]}) as -> by (by apply leibniz_equiv).
  exists p. split; [done|]. destruct (btree_elements {[p]}) as [|x l] eqn:E.
  - assert (p ∈ btree_elements {[p]}) as Hin by (apply elem_of_btree_elements; set_solver).
    rewrite E in Hin. by apply elem_of_nil in Hin.
  - assert (x ∈ btree_elements {[p]}) as Hin by (rewrite E; left).
    apply elem_of_btree_elements, elem_of_singleton in Hin. by rewrite Hin.
Qed.

Lemma qualified_subseteq name q : qualified_paths g name q ⊆ def_paths g name.
Proof.
  intros p (d & o & _ & Hd & _ & <-)%elem_of_qualified_paths. apply elem_of_def_paths. eauto.
Qed.

Lemma resolution_rules_reference name r : rr_reference (resolve_one g name r) = r.
Proof. unfold resolve_one. repeat case_decide; cbn; try done. by destruct (_ ≫= _). Qed.

Lemma several (X : gset string) : X ≠ ∅ → size X ≠ 1 → 1 < size X.
Proof.
  intros Hne Hone. destruct (size X) as [|[|n]] eqn:E; [|done|lia].
  apply size_empty_iff, leibniz_equiv in E. done.
Qed.

(** A reference is attributed only to a file that defines the name, and the
    reason given is true.  A qualified answer is the only file whose definition
    has the named owner; a local one is the reference's own file; a unique one is
    the only file that defines the name and is never claimed for a method call on
    an unknown receiver; an imported one is what the file's imports single out.
    Ambiguity means several files define the name, and an unresolved name has no
    definition at all. *)
Theorem resolution_is_honest (name : string) (r : Located Reference) :
  let out := resolve_one g name r in
  let defs := def_paths g name in
  let kind := ref_kind (loc_item r) in
  rr_reference out = r ∧ (∀ p, rr_target out = Some p → p ∈ defs) ∧
  match rr_resolution out with
  | Qualified => ∃ o p, ref_qualifier (loc_item r) = Some o ∧ rr_target out = Some p ∧
      ∀ d, d ∈ gs_definitions g name → sym_owner (loc_item d) = Some o → loc_path d = p
  | Local => rr_target out = Some (loc_path r)
  | UniqueGlobal => ∃ p, rr_target out = Some p ∧ defs = {[p]} ∧ p ≠ loc_path r ∧ kind ≠ Method
  | Imported => is_Some (rr_target out) ∧ loc_path r ∉ defs ∧ kind ≠ Method ∧
      rr_target out = imported_target (gs_imports_in_file g (loc_path r)) name (loc_path r) defs
  | Ambiguous => rr_target out = None ∧ 1 < size defs
  | ReceiverUnknown => rr_target out = None ∧ kind = Method ∧ defs ≠ ∅ ∧ loc_path r ∉ defs
  | Unresolved => rr_target out = None ∧ gs_definitions g name = []
  end.
Proof.
  intros out defs kind. unfold out, resolve_one. fold defs.
  set (q := qualified_paths g name (ref_qualifier (loc_item r))).
  assert (q ⊆ defs) as Hq by apply qualified_subseteq.
  destruct (decide (size q = 1)) as [Hone|Hnot1].
  { destruct (head_of_singleton q Hone) as (p & Hqp & ->). cbn. split_and!; [done| |].
    - intros p' [= <-]. apply Hq. set_solver.
    - assert (p ∈ q) as (d & o & Ho & _)%elem_of_qualified_paths by set_solver.
      exists o, p. split_and!; [done..|]. intros d' Hd' Ho'.
      assert (loc_path d' ∈ q) as Hin by (apply elem_of_qualified_paths; by exists d', o).
      rewrite Hqp in Hin. by apply elem_of_singleton in Hin. }
  destruct (decide (q ≠ ∅)) as [Hne|_]; cbn.
  { split_and!; [done..|]. pose proof (subseteq_size _ _ Hq). pose proof (several q Hne Hnot1). lia. }
  destruct (decide (loc_path r ∈ defs)) as [Hin|Hout]; cbn; [by split_and!; [|intros ? [= <-]|]|].
  destruct (decide (defs = ∅)) as [Hempty|Hdefs]; cbn.
  { split_and!; [done..|]. destruct (gs_definitions g name) as [|d l] eqn:E; [done|]. exfalso.
    assert (loc_path d ∈ defs) as Hd; [|set_solver].
    apply elem_of_def_paths. exists d. rewrite E. split; [left|done]. }
  destruct (decide (ref_kind (loc_item r) = Method)) as [Hm|Hm]; cbn; [by split_and!|].
  destruct (decide (size defs = 1)) as [H1|H1].
  { destruct (head_of_singleton defs H1) as (p & Hp & ->). cbn. split_and!; [done| |].
    - intros p' [= <-]. set_solver.
    - exists p. split_and!; [done|done| |done]. intros ->. set_solver. }
  pose proof (several defs Hdefs H1) as Hsev.
  unfold imports_for. fold defs. rewrite decide_True by done. cbn.
  destruct (imported_target _ _ _ defs) as [p|] eqn:E; cbn; [|by split_and!].
  split_and!; [done| |by eexists|done..]. intros p' [= <-]. by apply imported_target_elem in E.
Qed.
End resolve_spec.

(** ** The impact walk *)

Section walk_spec.
Context (g : GraphStore) `{!GraphStoreLaws g}.
Implicit Types w : Walk.

(** [m] calls [n]: a call in [m]'s file, attributed to [n]'s. *)
Definition edge (n m : ImpactNode) : Prop := ∃ r,
  r ∈ gs_references_to g (node_name n) ∧ ref_kind (loc_item r) ≠ Value ∧
  rr_target (resolve_one g (node_name n) r) = Some (node_path n) ∧
  ref_from (loc_item r) = Some (node_name m) ∧ loc_path r = node_path m.

Lemma target_resolution name r p :
  rr_target (resolve_one g name r) = Some p →
  rr_resolution (resolve_one g name r) ≠ Ambiguous ∧
  rr_resolution (resolve_one g name r) ≠ ReceiverUnknown.
Proof.
  unfold resolve_one. repeat case_decide; cbn; try done.
  destruct (_ ≫= _); cbn; done.
Qed.

(** What a stretch of the walk adds: the nodes [S], each once. *)
Definition grown w w' (S : ImpactNode → Prop) : Prop :=
  (∀ m, m ∈ wk_visited w' ↔ m ∈ wk_visited w ∨ S m) ∧
  ∃ new, wk_next w' = wk_next w ++ new ∧ NoDup new ∧
    ∀ m, m ∈ new ↔ m ∈ wk_visited w' ∧ m ∉ wk_visited w.

Lemma walk_grown_refl w w' (S : ImpactNode → Prop) :
  wk_visited w' = wk_visited w → wk_next w' = wk_next w →
  (∀ m, S m → m ∈ wk_visited w) → grown w w' S.
Proof.
  intros Hv Hn HS. split; [rewrite Hv; naive_solver|]. exists []. rewrite app_nil_r.
  split_and!; [done|constructor|]. intros m. rewrite elem_of_nil, Hv. tauto.
Qed.

Lemma grown_trans w w1 w2 S1 S2 :
  grown w w1 S1 → grown w1 w2 S2 → grown w w2 (λ m, S1 m ∨ S2 m).
Proof.
  intros (H1 & new1 & Hn1 & Hnd1 & He1) (H2 & new2 & Hn2 & Hnd2 & He2). split; [naive_solver|].
  exists (new1 ++ new2). rewrite Hn2, Hn1, <-app_assoc. split_and!; [done| |].
  - apply NoDup_app. split_and!; [done| |done]. intros m Hm1 Hm2%He2. naive_solver.
  - intros m. rewrite elem_of_app, He1, He2, H2, H1. destruct (decide (m ∈ wk_visited w)); [tauto|].
    destruct (decide (m ∈ wk_visited w1)) as [Hm|Hm]; rewrite H1 in Hm; tauto.
Qed.

Lemma grown_ext w w' (S S' : ImpactNode → Prop) :
  (∀ m, S m ↔ S' m) → grown w w' S → grown w w' S'.
Proof. intros HS [Hv Hn]. split; [|done]. intros m. by rewrite Hv, HS. Qed.

(** The node a reference leads to. *)
Definition leads node (r : ResolvedReference) (m : ImpactNode) : Prop :=
  ref_kind (loc_item (rr_reference r)) ≠ Value ∧
  rr_resolution r ≠ Ambiguous ∧ rr_resolution r ≠ ReceiverUnknown ∧
  rr_target r = Some (node_path node) ∧
  ref_from (loc_item (rr_reference r)) = Some (node_name m) ∧
  loc_path (rr_reference r) = node_path m.

Lemma grown_follow node r w : grown w (follow node w r) (leads node r).
Proof.
  unfold follow. destruct w as [visited next amb recv val].
  case_decide as Hval; [apply walk_grown_refl; [done..|by intros m []]|].
  destruct (decide (rr_resolution r = Ambiguous)) as [Ha|Ha];
    [rewrite Ha; apply walk_grown_refl; [done..|by intros m (_ & ? & _)]|].
  destruct (decide (rr_resolution r = ReceiverUnknown)) as [Hr|Hr];
    [rewrite Hr; apply walk_grown_refl; [done..|by intros m (_ & _ & ? & _)]|].
  set (rest := if decide (rr_target r ≠ _) then _ else _).
  assert (grown (mkWalk visited next amb recv val) rest (leads node r)) as Hrest.
  { unfold rest. case_decide as Ht; [apply walk_grown_refl; [done..|by intros m (_ & _ & _ & ? & _)]|].
    destruct (ref_from _) as [from|] eqn:Hf;
      [|apply walk_grown_refl; [done..|intros m (_ & _ & _ & _ & ? & _); congruence]].
    assert (∀ m, leads node r m ↔ m = mkNode from (loc_path (rr_reference r))) as Hl.
    { intros [n p]. unfold leads. cbn. naive_solver. }
    case_decide as Hv; [apply walk_grown_refl; [done..|]; intros m ->%Hl; done|].
    split; cbn; [intros m; rewrite Hl; set_solver|].
    eexists. split_and!; [done|apply NoDup_singleton|]. intros m.
    rewrite list_elem_of_singleton. set_solver. }
  by destruct (rr_resolution r).
Qed.

Lemma grown_follow_all node rs w :
  grown w (foldl (follow node) w rs) (λ m, ∃ r, r ∈ rs ∧ leads node r m).
Proof.
  revert w. induction rs as [|r rs IH]; intros w; cbn [foldl].
  { apply walk_grown_refl; [done..|]. intros m (r & Hr & _). by apply elem_of_nil in Hr. }
  eapply grown_ext; [|eapply grown_trans; [apply grown_follow|apply IH]].
  intros m. setoid_rewrite elem_of_cons. naive_solver.
Qed.

Lemma leads_edge node m :
  (∃ r, r ∈ resolve_references_to g (node_name node) ∧ leads node r m) ↔ edge node m.
Proof.
  unfold edge, leads, resolve_references_to. setoid_rewrite list_elem_of_fmap.
  assert (∀ r, rr_reference (resolve_one g (node_name node) r) = r) as Href.
  { intros r. apply (resolution_rules_reference g). }
  split.
  - intros (? & (r & -> & Hr) & Hl). exists r. rewrite Href in Hl. naive_solver.
  - intros (r & Hr & Hk & Ht & Hf & Hp). eexists. split; [by exists r|]. rewrite Href.
    destruct (target_resolution _ _ _ Ht). done.
Qed.

Lemma grown_expand frontier w :
  grown w (expand g frontier w) (λ m, ∃ n, n ∈ frontier ∧ edge n m).
Proof.
  unfold expand. revert w. induction frontier as [|n frontier IH]; intros w; cbn [foldl].
  { apply walk_grown_refl; [done..|]. intros m (n & Hn & _). by apply elem_of_nil in Hn. }
  eapply grown_ext; [|eapply grown_trans; [apply grown_follow_all|apply IH]].
  intros m. cbn. rewrite leads_edge. setoid_rewrite elem_of_cons. naive_solver.
Qed.

(** Every node an edge leads to comes from a reference of the view. *)
Definition all_nodes : gset ImpactNode :=
  list_to_set (omap (λ l, (λ from, mkNode from (loc_path l)) <$> ref_from (loc_item l))
                 (gs_all_references g)).

Lemma edge_all_nodes n m : edge n m → m ∈ all_nodes.
Proof.
  intros (r & Hr & _ & _ & Hf & Hp). rewrite law_references_to in Hr.
  apply list_elem_of_filter in Hr as [_ Hr]. unfold all_nodes.
  rewrite elem_of_list_to_set, list_elem_of_omap. exists r. split; [done|].
  rewrite Hf. cbn. destruct m. cbn in *. by subst.
Qed.

Lemma size_all_nodes : size all_nodes ≤ length (gs_all_references g).
Proof.
  unfold all_nodes. generalize (gs_all_references g). induction l as [|r l IH]; [done|]. cbn.
  destruct (ref_from (loc_item r)) as [from|]; cbn; [|lia].
  rewrite size_union_alt, size_singleton.
  etrans; [|apply le_n_S, IH]. cbn. apply le_n_S, subseteq_size. set_solver.
Qed.

(** After [depth] levels the visited nodes are those within [depth] calls of a
    seed, and only the frontier's callers may be missing. *)
Definition walk_inv (start : list ImpactNode) (max_depth : option nat) depth
    (frontier : list ImpactNode) (visited : gset ImpactNode) : Prop :=
  (∀ m, m ∈ visited ↔ ∃ s, s ∈ start ∧ bsteps edge depth s m) ∧
  (∀ n, n ∈ frontier → n ∈ visited) ∧
  (∀ n m, n ∈ visited → n ∉ frontier → edge n m → m ∈ visited) ∧
  match max_depth with Some max => depth ≤ max | None => True end.

Definition walk_measure (frontier : list ImpactNode) (visited : gset ImpactNode) : nat :=
  size (all_nodes ∖ visited) + match frontier with [] => 0 | _ => 1 end.

Lemma bsteps_S_iff (R : relation ImpactNode) k s m :
  bsteps R (S k) s m ↔ bsteps R k s m ∨ ∃ n, bsteps R k s n ∧ R n m.
Proof.
  split.
  - intros (j & Hj & Hn)%bsteps_nsteps. destruct (decide (j = S k)) as [->|].
    + apply nsteps_inv_r in Hn as (n & Hn & Hnm). right. exists n. split; [|done].
      apply bsteps_nsteps. by exists k.
    + left. apply bsteps_nsteps. exists j. split; [lia|done].
  - intros [H|(n & Hn & Hnm)]; [by apply bsteps_S|by eapply bsteps_r].
Qed.

Lemma walk_inv_step start max_depth depth frontier visited w w' :
  walk_inv start max_depth depth frontier visited →
  match max_depth with Some max => depth < max | None => True end →
  wk_visited w = visited → wk_next w = [] →
  grown w w' (λ m, ∃ n, n ∈ frontier ∧ edge n m) →
  walk_inv start max_depth (S depth) (wk_next w') (wk_visited w').
Proof.
  intros (Hv & Hf & Hc & _) Hmax <- Hnil (Hg & new & -> & _ & Hnew). rewrite Hnil. cbn.
  split_and!.
  - intros m. rewrite Hg, Hv. setoid_rewrite bsteps_S_iff. split.
    + intros [(s & ? & ?)|(n & Hn & He)]; [by eauto|].
      apply Hf, Hv in Hn as (s & ? & ?). eauto 6.
    + intros (s & Hs & [?|(n & Hn & He)]); [by left; eauto|].
      assert (n ∈ wk_visited w) as Hnv by (apply Hv; eauto).
      destruct (decide (n ∈ frontier)); [by right; eauto|]. left. apply Hv. by apply (Hc n m).
  - intros n [? _]%Hnew. done.
  - intros n m Hn Hout He. rewrite Hnew in Hout.
    destruct (decide (n ∈ wk_visited w)) as [Hnv|]; [|tauto]. apply Hg.
    destruct (decide (n ∈ frontier)); [by right; eauto|]. left. by apply (Hc n m).
  - by destruct max_depth; [lia|].
Qed.

Lemma walk_measure_step frontier visited w w' :
  frontier ≠ [] → wk_visited w = visited → wk_next w = [] →
  grown w w' (λ m, ∃ n, n ∈ frontier ∧ edge n m) →
  walk_measure (wk_next w') (wk_visited w') < walk_measure frontier visited.
Proof.
  intros Hne <- Hnil (Hg & new & Hn & _ & Hnew). rewrite Hnil in Hn. cbn in Hn. rewrite Hn.
  unfold walk_measure. destruct frontier as [|n0 frontier]; [done|].
  destruct new as [|m new].
  - assert (size (all_nodes ∖ wk_visited w') ≤ size (all_nodes ∖ wk_visited w)); [|lia].
    apply subseteq_size. intros x. rewrite !elem_of_difference, Hg. tauto.
  - destruct (proj1 (Hnew m)) as [Hm Hm']; [left|].
    assert (m ∈ all_nodes) as Hall.
    { apply Hg in Hm as [?|(n & _ & He)]; [done|]. by eapply edge_all_nodes. }
    apply Nat.add_lt_mono_r, subset_size. split.
    + intros x. rewrite !elem_of_difference, Hg. tauto.
    + intros Hsub. assert (m ∈ all_nodes ∖ wk_visited w') as Hx; [|set_solver].
      apply Hsub. set_solver.
Qed.

(** What a finished walk has visited. *)
Definition within (max_depth : option nat) (s m : ImpactNode) : Prop :=
  match max_depth with Some max => bsteps edge max s m | None => rtc edge s m end.

Lemma walk_closed (start : list ImpactNode) (visited : gset ImpactNode) :
  (∀ s, s ∈ start → s ∈ visited) → (∀ n m, n ∈ visited → edge n m → m ∈ visited) →
  ∀ s m, s ∈ start → rtc edge s m → m ∈ visited.
Proof.
  intros Hs Hc s m Hin. revert m. apply rtc_ind_r; [by apply Hs|]. intros y z _ Hyz Hy. by eapply Hc.
Qed.

Lemma walk_done start max_depth depth visited :
  walk_inv start max_depth depth [] visited →
  (∀ m, m ∈ visited ↔ ∃ s, s ∈ start ∧ within max_depth s m) ∧
  (∀ s m, s ∈ start → rtc edge s m → m ∈ visited).
Proof.
  intros (Hv & _ & Hc & Hd).
  assert (∀ s m, s ∈ start → rtc edge s m → m ∈ visited) as Hall.
  { apply walk_closed; [|intros n m Hn; apply Hc; [done|apply not_elem_of_nil]].
    intros s Hs. apply Hv. exists s. split; [done|apply bsteps_refl]. }
  split; [|done]. intros m. split.
  - rewrite Hv. intros (s & Hs & Hb). exists s. split; [done|].
    destruct max_depth; [by eapply bsteps_weaken|by eapply rtc_bsteps_2].
  - intros (s & Hs & Hb). apply (Hall s); [done|]. destruct max_depth; [by eapply rtc_bsteps_2|done].
Qed.

Lemma walk_spec start max_depth fuel depth frontier w :
  walk_inv start max_depth depth frontier (wk_visited w) →
  walk_measure frontier (wk_visited w) ≤ fuel →
  ∃ w' cut, walk g fuel max_depth depth frontier w = Some (w', cut) ∧
    (∀ m, m ∈ wk_visited w' ↔ ∃ s, s ∈ start ∧ within max_depth s m) ∧
    (cut = false → ∀ s m, s ∈ start → rtc edge s m → m ∈ wk_visited w') ∧
    (max_depth = None → cut = false).
Proof.
  revert depth frontier w. induction fuel as [|fuel IH]; intros depth frontier w Hinv Hfuel;
    destruct frontier as [|n0 frontier0] eqn:Efr.
  1, 3: destruct (walk_done _ _ _ _ Hinv); exists w, false; by split_and!.
  - unfold walk_measure in Hfuel. lia.
  - cbn [walk]. destruct (match max_depth with Some max => max <=? depth | None => false end) eqn:Hcut.
    + exists w, true. destruct Hinv as (Hv & _ & _ & Hd). destruct max_depth as [max|]; [|done].
      apply Nat.leb_le in Hcut. split_and!; [done| |done|done]. cbn. by replace max with depth by lia.
    + assert (match max_depth with Some max => depth < max | None => True end) as Hlt
        by (destruct max_depth; [by apply Nat.leb_gt in Hcut|done]).
      set (w0 := mkWalk (wk_visited w) [] _ _ _).
      pose proof (grown_expand (n0 :: frontier0) w0) as Hg.
      apply IH; [by apply (walk_inv_step _ _ _ _ _ w0 _ Hinv Hlt eq_refl eq_refl Hg)|].
      pose proof (walk_measure_step (n0 :: frontier0) (wk_visited w) w0 _ ltac:(done) eq_refl eq_refl Hg). lia.
Qed.
End walk_spec.

(** C29: the resolved impact follows exactly the calls it can attribute.  With more
    steps than the view has references the level-by-level walk ends, and what it
    reports, sorted and each node once, is every node other than a definition of
    the name from which one is reached through attributed calls, within the depth
    asked for; a walk not reported as cut short has found all of them, and a walk
    with no depth bound is never cut short. *)
Theorem resolved_impact_exact (g : GraphStore) `{!GraphStoreLaws g} (fuel : nat) (name : string)
    (max_depth : option nat) :
  length (gs_all_references g) < fuel →
  let start s := ∃ d, d ∈ gs_definitions g name ∧ s = mkNode name (loc_path d) in
  ∃ report, resolved_impact g fuel name max_depth = Some report ∧ increasing (reached report) ∧
    (∀ m, m ∈ reached report ↔ ¬ start m ∧ ∃ s, start s ∧ within g max_depth s m) ∧
    (cut_short report = false →
       ∀ s m, start s → rtc (edge g) s m → ¬ start m → m ∈ reached report) ∧
    (max_depth = None → cut_short report = false).
Proof.
  intros Hfuel start. unfold resolved_impact.
  assert (∀ m, m ∈ seeds g name ↔ start m) as Hstart.
  { intros m. unfold seeds, start. rewrite list_elem_of_fmap. naive_solver. }
  destruct (walk_spec g (seeds g name) max_depth fuel 0 (seeds g name)
    (mkWalk (list_to_set (seeds g name)) [] 0 0 0)) as (w & cut & -> & Hv & Hall & Hnone).
  { split_and!; cbn.
    - intros m. rewrite elem_of_list_to_set. split; [intros; exists m; split; [done|apply bsteps_refl]|].
      intros (s & Hs & Hb). by inversion Hb; subst.
    - intros n. by rewrite elem_of_list_to_set.
    - intros n m. by rewrite elem_of_list_to_set.
    - destruct max_depth; [lia|done]. }
  { unfold walk_measure. cbn. pose proof (size_all_nodes g).
    pose proof (subseteq_size (all_nodes g ∖ list_to_set (seeds g name)) (all_nodes g) ltac:(set_solver)).
    destruct (seeds g name); lia. }
  cbn. eexists. split; [done|]. cbn.
  assert (∀ m, m ∈ btree_elements (wk_visited w ∖ list_to_set (seeds g name)) ↔
    m ∈ wk_visited w ∧ ¬ start m) as Hm.
  { intros m. by rewrite elem_of_btree_elements, elem_of_difference, elem_of_list_to_set, Hstart. }
  split_and!; [apply btree_elements_increasing| | |done].
  - intros m. rewrite Hm, Hv. setoid_rewrite Hstart. tauto.
  - intros -> s m Hs Hsm Hn. apply Hm. split; [|done]. by apply (Hall eq_refl s); [apply Hstart|].
Qed.

Lemma resolved_impact_exact_witness :
  let g := in_memory sample_view in
  resolved_impact g 5 "ping" None =
    Some (mkReport [mkNode "main" "b.rs"; mkNode "pong" "a.rs"] 0 0 1 false) ∧
  ∃ report, resolved_impact g 5 "ping" None = Some report ∧ increasing (reached report) ∧
    (∀ m, m ∈ reached report ↔
       ¬ (∃ d, d ∈ gs_definitions g "ping" ∧ m = mkNode "ping" (loc_path d)) ∧
       ∃ s, (∃ d, d ∈ gs_definitions g "ping" ∧ s = mkNode "ping" (loc_path d)) ∧
            rtc (edge g) s m) ∧
    (cut_short report = false → ∀ s m,
       (∃ d, d ∈ gs_definitions g "ping" ∧ s = mkNode "ping" (loc_path d)) → rtc (edge g) s m →
       ¬ (∃ d, d ∈ gs_definitions g "ping" ∧ m = mkNode "ping" (loc_path d)) →
       m ∈ reached report) ∧
    (@None nat = None → cut_short report = false).
Proof.
  intros g. split; [by vm_compute|].
  apply (resolved_impact_exact g 5 "ping" None). vm_compute. lia.
Defined.

(** ** What the doc comments say otherwise *)

(** A qualifier can decline an answer: when several files own the name under it,
    a call that would have been attributed to its own file becomes ambiguous. *)
Lemma qualifier_declines_local (g : GraphStore) name path item o :
  1 < size (qualified_paths g name (Some o)) → path ∈ def_paths g name →
  let unqualified := mkReference (ref_name item) (ref_from item) (ref_line item) (ref_kind item)
                       None (ref_from_scope item) in
  let qualified := mkReference (ref_name item) (ref_from item) (ref_line item) (ref_kind item)
                     (Some o) (ref_from_scope item) in
  rr_target (resolve_one g name (mkLocated path unqualified)) = Some path ∧
  rr_resolution (resolve_one g name (mkLocated path unqualified)) = Local ∧
  rr_target (resolve_one g name (mkLocated path qualified)) = None ∧
  rr_resolution (resolve_one g name (mkLocated path qualified)) = Ambiguous.
Proof.
  intros Hsize Hpath. unfold resolve_one. cbn [loc_item loc_path ref_qualifier].
  rewrite (decide_False (P := size (qualified_paths g name None) = 1)) by done.
  rewrite (decide_False (P := qualified_paths g name None ≠ ∅)) by (by intros []).
  rewrite (decide_True (P := path ∈ def_paths g name)) by done.
  rewrite (decide_False (P := size (qualified_paths g name (Some o)) = 1)) by lia.
  rewrite (decide_True (P := qualified_paths g name (Some o) ≠ ∅)); [done|].
  intros He. rewrite He, size_empty in Hsize. lia.
Qed.

(** One dropped call is counted once per definition of the name in a file: the
    frontier starts with one node per definition. *)
Example dropped_edges_counted_per_definition :
  let overloaded := InMemory_insert
    (InMemory_insert
       (InMemory_insert InMemory_new "a.rs"
          (mkCodeGraph [sample_fn "new" 1; sample_fn "new" 5] [] []))
       "b.rs" (mkCodeGraph [sample_fn "new" 1] [] []))
    "c.rs" (mkCodeGraph [] [sample_call "new" "main" Free] []) in
  ambiguous_edges <$> resolved_impact (in_memory overloaded) 2 "new" None = Some 3 ∧
  length (gs_references_to (in_memory overloaded) "new") = 1.
Proof. by vm_compute. Qed.
