(* ===== verification/SqliteGraph.v ===== *)
(** * SqliteGraph: the persistent backend of a view's graph

    Models [gonzalo-graph-sqlite]: the three tables, the columns a symbol, a
    reference and an import are stored as, [insert] replacing a file's rows,
    [remove_path], and the queries.  A table is its rows in insertion order; what
    SQL adds (row order, [serde_json]'s text of a kind) is the class [Sqlite].
    The backend is proved to answer as the in-memory store does and to keep the
    [GraphStore] interface.  [migrate], which adds columns to an older file, is
    left out. *)

From S2P Require Export Paths GraphStore.

(** ** Columns *)

(** [n as i64] and [n as usize]: the same 64 bits. *)
Definition as_i64 (n : N) : Z :=
  let m := (Z.of_N n `mod` 2 ^ 64)%Z in if decide (m < 2 ^ 63)%Z then m else (m - 2 ^ 64)%Z.
Definition as_usize (z : Z) : N := Z.to_N (z `mod` 2 ^ 64).

Lemma as_usize_i64 n : (n < 2 ^ 64)%N → as_usize (as_i64 n) = n.
Proof.
  intros Hn. unfold as_usize, as_i64. rewrite (Z.mod_small (Z.of_N n)) by lia.
  case_decide; [rewrite Z.mod_small by lia; lia|].
  rewrite <-(Z.mod_unique _ _ (-1) (Z.of_N n)); lia.
Qed.

(** [segments.join("/")] and [split_module]. *)
Definition join_module (segments : list string) : string := String.concat "/" segments.

Definition split_module (raw : string) : list string :=
  if decide (raw = "") then [] else split_char slash_char raw.

Record SymbolRow := mkSymbolRow {
  sr_path : string; sr_name : string; sr_kind : string;
  sr_start : Z; sr_end : Z; sr_owner : option string
}.

Record RefRow := mkRefRow {
  rr_path : string; rr_name : string; rr_from_fn : option string; rr_line : Z;
  rr_kind : string; rr_qualifier : option string; rr_from_scope : string
}.

Record ImportRow := mkImportRow {
  ir_path : string; ir_name : string; ir_module : string; ir_depth : Z; ir_line : Z
}.

Record Db := mkDb {
  t_symbols : list SymbolRow; t_refs : list RefRow; t_imports : list ImportRow
}.

(** The tables of a new file. *)
Definition empty_db : Db := mkDb [] [] [].

(** What the code relies on outside the repository: rows come back in some order,
    sorted where the statement says so, and a kind's JSON text reads back. *)
Class Sqlite := {
  select {R} : list R → list R;
  order_by {R K} `{CmpLaws K} : (R → K) → list R → list R;
  kind_to_text : SymbolKind → string;
  kind_from_text : string → option SymbolKind;
  select_permutation {R} (l : list R) : select l ≡ₚ l;
  order_by_permutation {R K} `{CmpLaws K} (key : R → K) (l : list R) : order_by key l ≡ₚ l;
  order_by_sorted {R K} `{CmpLaws K} (key : R → K) (l : list R) :
    StronglySorted (λ a b, ole (key a) (key b)) (order_by key l);
  kind_text_roundtrip k : kind_from_text (kind_to_text k) = Some k
}.

Section sqlite.
Context `{Sqlite}.

(** The parameters of the three [INSERT]s. *)
Definition symbol_row (path : string) (s : Symbol) : SymbolRow :=
  mkSymbolRow path (sym_name s) (kind_to_text (sym_kind s)) (as_i64 (sym_start_line s))
    (as_i64 (sym_end_line s)) (sym_owner s).

Definition ref_row (path : string) (r : Reference) : RefRow :=
  mkRefRow path (ref_name r) (ref_from r) (as_i64 (ref_line r)) (RefKind_as_str (ref_kind r))
    (ref_qualifier r) (FromScope_as_str (ref_from_scope r)).

Definition import_row (path : string) (i : Import) : ImportRow :=
  mkImportRow path (imp_name i) (join_module (imp_path i)) (as_i64 (N.of_nat (imp_depth i)))
    (as_i64 (imp_line i)).

(** ** Writing *)

(** The three [DELETE .. WHERE path = ?1]. *)
Definition sq_remove_path (path : string) (db : Db) : Db :=
  mkDb (filter (λ r, sr_path r ≠ path) (t_symbols db))
       (filter (λ r, rr_path r ≠ path) (t_refs db))
       (filter (λ r, ir_path r ≠ path) (t_imports db)).

(** One transaction. *)
Definition sq_insert (path : string) (graph : CodeGraph) (db : Db) : Db :=
  let cleared := sq_remove_path path db in
  mkDb (t_symbols cleared ++ (symbol_row path <$> cg_symbols graph))
       (t_refs cleared ++ (ref_row path <$> cg_references graph))
       (t_imports cleared ++ (import_row path <$> cg_imports graph)).

(** ** Queries *)

(** [None] is the panic of [.expect("stored SymbolKind is valid")]. *)
Definition symbol_from_row (row : SymbolRow) : option Symbol :=
  kind ← kind_from_text (sr_kind row);
  Some (mkSymbol (sr_name row) kind (as_usize (sr_start row)) (as_usize (sr_end row))
          (sr_owner row)).

Definition located_symbol (row : SymbolRow) : option (Located Symbol) :=
  mkLocated (sr_path row) <$> symbol_from_row row.

Definition ref_from_row (row : RefRow) : Located Reference :=
  mkLocated (rr_path row)
    (mkReference (rr_name row) (rr_from_fn row) (as_usize (rr_line row))
       (from_str_or_free (rr_kind row)) (rr_qualifier row)
       (from_str_or_function (rr_from_scope row))).

Definition import_from_row (row : ImportRow) : Import :=
  mkImport (ir_name row) (split_module (ir_module row)) (N.to_nat (as_usize (ir_depth row)))
    (as_usize (ir_line row)).

Section queries.
Context (db : Db).

Definition sq_imports_in_file (path : string) : list Import :=
  import_from_row <$> order_by ir_line (filter (λ r, ir_path r = path) (t_imports db)).

Definition sq_symbols_in_file (path : string) : option (list Symbol) :=
  mapM symbol_from_row (select (filter (λ r, sr_path r = path) (t_symbols db))).

Definition sq_definitions (name : string) : option (list (Located Symbol)) :=
  mapM located_symbol (order_by sr_path (filter (λ r, sr_name r = name) (t_symbols db))).

Definition sq_references_to (name : string) : list (Located Reference) :=
  ref_from_row <$> order_by (λ r, (rr_path r, rr_line r))
                     (filter (λ r, rr_name r = name) (t_refs db)).

(** [SELECT DISTINCT .. ORDER BY] the selected column. *)
Definition sq_callers_of (name : string) : list string :=
  dedup (order_by id (omap rr_from_fn
    (filter (λ r, rr_name r = name ∧ rr_kind r ≠ "value") (t_refs db)))).

Definition sq_callees (name : string) : list string :=
  dedup (order_by id (rr_name <$>
    filter (λ r, rr_from_fn r = Some name ∧ rr_kind r ≠ "value") (t_refs db))).

Definition sq_all_symbols : option (list (Located Symbol)) :=
  mapM located_symbol (order_by sr_path (t_symbols db)).

Definition sq_all_references : list (Located Reference) :=
  ref_from_row <$> order_by (λ r, (rr_path r, rr_line r)) (t_refs db).

(** The backend as a [GraphStore]; the [default]s stand for panics, which
    [sqlite_answers_like_memory] excludes. *)
Definition sqlite_graph : GraphStore :=
  mkGraphStore (λ path, default [] (sq_symbols_in_file path))
    (λ name, default [] (sq_definitions name)) sq_references_to sq_imports_in_file
    sq_callers_of sq_callees (default [] sq_all_symbols) sq_all_references.
End queries.
End sqlite.

(** ** The file a view is stored in *)

Definition view_db_path (graph_root repo view_id : string) : string :=
  graph_root +:+ "/" +:+ segment repo +:+ "/" +:+ segment view_id +:+ ".db".

(** Distinct views never share a file. *)
Lemma view_db_path_inj root repo view repo' view' :
  view_db_path root repo view = view_db_path root repo' view' → repo = repo' ∧ view = view'.
Proof.
  unfold view_db_path. intros Heq%(f_equal bytes_of_string). rewrite !bytes_of_string_app in Heq.
  apply app_inv_head, app_inv_head in Heq.
  change (bytes_of_string "/") with [slash] in Heq. cbn [app] in Heq.
  apply split_at_separator in Heq as [Hrepo Hview]; [|apply segment_inert..].
  apply app_inv_tail in Hview.
  by apply bytes_of_string_inj, segment_inj in Hrepo as ->;
    apply bytes_of_string_inj, segment_inj in Hview as ->.
Qed.

(** ** The tables hold a view *)

(** The items of a view, in no particular order. *)
Definition items_of {A} (m : gmap string CodeGraph) (f : CodeGraph → list A) : list (Located A) :=
  map_to_list m ≫= λ p, mkLocated p.1 <$> f p.2.

Lemma bind_permutation {A B} (f : A → list B) (l l' : list A) :
  l ≡ₚ l' → l ≫= f ≡ₚ l' ≫= f.
Proof. intros Hl. by rewrite Hl. Qed.

Lemma located_in_items s {A} (f : CodeGraph → list A) : located_in s f ≡ₚ items_of (slices s) f.
Proof.
  unfold located_in, items_of. apply bind_permutation. apply NoDup_Permutation.
  - apply (NoDup_fmap_1 fst). rewrite fst_btree_items. apply increasing_NoDup, btree_keys_increasing.
  - apply NoDup_map_to_list.
  - intros [path g]. by rewrite elem_of_btree_items, elem_of_map_to_list.
Qed.

Lemma elem_of_items_of {A} m (f : CodeGraph → list A) path x :
  mkLocated path x ∈ items_of m f ↔ ∃ g, m !! path = Some g ∧ x ∈ f g.
Proof.
  unfold items_of. rewrite list_elem_of_bind. split.
  - intros ([path' g] & (y & [= -> ->] & Hy)%list_elem_of_fmap & Hin%elem_of_map_to_list). eauto.
  - intros (g & Hg & Hx). exists (path, g). rewrite elem_of_map_to_list. split; [|done].
    by apply list_elem_of_fmap_2.
Qed.

Lemma items_of_insert {A} m (f : CodeGraph → list A) path g :
  m !! path = None →
  items_of (<[path := g]> m) f ≡ₚ (mkLocated path <$> f g) ++ items_of m f.
Proof.
  intros Hm. unfold items_of. rewrite (bind_permutation _ _ _ (map_to_list_insert m path g Hm)).
  by rewrite bind_cons.
Qed.

Lemma items_of_delete {A} m (f : CodeGraph → list A) path :
  items_of (delete path m) f ≡ₚ filter (λ l, loc_path l ≠ path) (items_of m f).
Proof.
  assert (filter (λ l, loc_path l ≠ path) (items_of (delete path m) f) =
          items_of (delete path m) f) as Hid.
  { apply list_filter_id. intros [p x] (g & Hg & _)%elem_of_items_of. cbn.
    intros ->. by rewrite lookup_delete_eq in Hg. }
  destruct (m !! path) as [g|] eqn:E; [|by rewrite (delete_id m path E) in *; rewrite Hid].
  rewrite <-(insert_delete_id m path g E) at 2.
  rewrite (items_of_insert (delete path m) f path g) by apply lookup_delete_eq.
  rewrite filter_app, Hid.
  assert (filter (λ l : Located A, loc_path l ≠ path) (mkLocated path <$> f g) = []) as ->; [|done].
  induction (f g) as [|x l IH]; [done|]. rewrite fmap_cons, filter_cons_False by (cbn; tauto). done.
Qed.

Lemma items_of_replace {A} m (f : CodeGraph → list A) path g :
  items_of (<[path := g]> m) f ≡ₚ
    filter (λ l, loc_path l ≠ path) (items_of m f) ++ (mkLocated path <$> f g).
Proof.
  rewrite <-insert_delete_eq, items_of_insert by apply lookup_delete_eq.
  by rewrite items_of_delete, Permutation_app_comm.
Qed.

(** ** The backend answers as the in-memory store *)

(** What indexing does to a graph: insert a slice, or drop a file. *)
Inductive GraphOp := GInsert (path : string) (graph : CodeGraph) | GRemove (path : string).

Definition slices_op (m : gmap string CodeGraph) (op : GraphOp) : gmap string CodeGraph :=
  match op with GInsert path graph => <[path := graph]> m | GRemove path => delete path m end.

Definition sq_op `{Sqlite} (db : Db) (op : GraphOp) : Db :=
  match op with GInsert path graph => sq_insert path graph db | GRemove path => sq_remove_path path db end.

(** Lines and depths are [usize]s. *)
Definition usize_sized (g : CodeGraph) : Prop :=
  (∀ s, s ∈ cg_symbols g → sym_start_line s < 2 ^ 64 ∧ sym_end_line s < 2 ^ 64)%N ∧
  (∀ r, r ∈ cg_references g → ref_line r < 2 ^ 64)%N ∧
  (∀ i, i ∈ cg_imports g → imp_line i < 2 ^ 64 ∧ N.of_nat (imp_depth i) < 2 ^ 64)%N.

Definition op_sized (op : GraphOp) : Prop :=
  match op with GInsert _ graph => usize_sized graph | GRemove _ => True end.

Section refinement.
Context `{Sqlite}.

Definition row_of {A R} (row : string → A → R) (l : Located A) : R := row (loc_path l) (loc_item l).

(** The tables are the view's items, as rows. *)
Definition holds_view (db : Db) (m : gmap string CodeGraph) : Prop :=
  t_symbols db ≡ₚ row_of symbol_row <$> items_of m cg_symbols ∧
  t_refs db ≡ₚ row_of ref_row <$> items_of m cg_references ∧
  t_imports db ≡ₚ row_of import_row <$> items_of m cg_imports.

Lemma delete_rows {A R} (row : string → A → R) (path_of : R → string) path rows
    (l : list (Located A)) :
  (∀ p x, path_of (row p x) = p) → rows ≡ₚ row_of row <$> l →
  filter (λ r, path_of r ≠ path) rows ≡ₚ row_of row <$> filter (λ x, loc_path x ≠ path) l.
Proof.
  intros Hp ->. rewrite filter_fmap.
  by rewrite (list_filter_iff _ (λ x, loc_path x ≠ path)) by (intros x; unfold row_of; by rewrite Hp).
Qed.

Lemma holds_view_remove db m path :
  holds_view db m → holds_view (sq_remove_path path db) (delete path m).
Proof.
  intros (Hs & Hr & Hi). split_and!; cbn; rewrite items_of_delete; by apply delete_rows.
Qed.

Lemma holds_view_insert db m path g :
  holds_view db m → holds_view (sq_insert path g db) (<[path := g]> m).
Proof.
  intros (Hs & Hr & Hi). split_and!; cbn; rewrite items_of_replace, fmap_app, <-list_fmap_compose;
    (apply Permutation_app; [by apply delete_rows|done]).
Qed.

Lemma holds_view_ops db m ops :
  holds_view db m → holds_view (foldl sq_op db ops) (foldl slices_op m ops).
Proof.
  revert db m. induction ops as [|[path g|path] ops IH]; intros db m Hv; cbn; [done|..]; apply IH.
  - by apply holds_view_insert.
  - by apply holds_view_remove.
Qed.

Lemma slices_ops_sized ops m path g :
  Forall op_sized ops → (∀ p g, m !! p = Some g → usize_sized g) →
  foldl slices_op m ops !! path = Some g → usize_sized g.
Proof.
  revert m. induction ops as [|[p g'|p] ops IH]; intros m Hops Hm; cbn; [apply Hm|..];
    inversion_clear Hops; (apply IH; [done|]).
  - intros q h [[-> ->]|[_ Hq]]%lookup_insert_Some; [done|by eapply Hm].
  - intros q h [_ Hq]%lookup_delete_Some. by eapply Hm.
Qed.

(** Rows that hold items read back as those items, in the order of the rows. *)
Lemma decode_rows {A R B} (row : string → A → R) (dec : R → option B) (back : Located A → B)
    rows (l : list (Located A)) :
  rows ≡ₚ row_of row <$> l → (∀ x, x ∈ l → dec (row_of row x) = Some (back x)) →
  ∃ l', mapM dec rows = Some l' ∧ l' ≡ₚ back <$> l.
Proof.
  intros (l3 & -> & Hp)%Permutation_map_inv Hdec. exists (back <$> l3). split.
  - apply mapM_Some, Forall2_fmap, Forall_Forall2_diag, Forall_forall.
    intros x Hx. apply Hdec. by rewrite Hp.
  - by rewrite Hp.
Qed.

Lemma row_symbol path s :
  (sym_start_line s < 2 ^ 64)%N → (sym_end_line s < 2 ^ 64)%N →
  symbol_from_row (symbol_row path s) = Some s.
Proof.
  intros Hs He. unfold symbol_from_row, symbol_row. cbn. rewrite kind_text_roundtrip. cbn.
  rewrite !as_usize_i64 by done. by destruct s.
Qed.

Lemma row_reference path r :
  (ref_line r < 2 ^ 64)%N → ref_from_row (ref_row path r) = mkLocated path r.
Proof.
  intros Hl. unfold ref_from_row, ref_row. cbn. rewrite as_usize_i64 by done.
  destruct r as [n f l k q sc]. cbn. by destruct k, sc.
Qed.

(** A module path the [imports] table can give back: no segment has a [/], and
    the path is not one empty segment. *)
Definition plain_module (segments : list string) : Prop :=
  segments ≠ [""] ∧ ∀ s, s ∈ segments → split_char slash_char s = [s].

Lemma split_join_module l : plain_module l → split_module (join_module l) = l.
Proof.
  intros [Hne Hl]. unfold split_module, join_module. destruct l as [|x l]; [done|].
  pose proof (split_char_concat (x :: l) ltac:(done) Hl) as Hsplit.
  case_decide as He; [|done]. rewrite He in Hsplit. by injection Hsplit as <- <-.
Qed.

Lemma row_import path i :
  (imp_line i < 2 ^ 64)%N → (N.of_nat (imp_depth i) < 2 ^ 64)%N → plain_module (imp_path i) →
  import_from_row (import_row path i) = i.
Proof.
  intros Hl Hd Hm. unfold import_from_row, import_row. cbn.
  rewrite split_join_module, !as_usize_i64 by done. rewrite Nat2N.id. by destruct i.
Qed.
End refinement.

(** ** The queries *)

Section answers.
Context `{Sqlite} (db : Db) (s : InMemoryGraphStore).
Context (Hview : holds_view db (slices s)).
Context (Hsized : ∀ path g, slices s !! path = Some g → usize_sized g).

Lemma item_symbol_reads l : l ∈ items_of (slices s) cg_symbols →
  located_symbol (row_of symbol_row l) = Some l.
Proof using Hsized.
  destruct l as [path x]. intros (g & Hg & Hx)%elem_of_items_of.
  destruct (Hsized _ _ Hg) as (Hs & _). destruct (Hs x Hx).
  unfold row_of, located_symbol. cbn [loc_path loc_item]. by rewrite row_symbol.
Qed.

Lemma item_reference_reads l : l ∈ items_of (slices s) cg_references →
  ref_from_row (row_of ref_row l) = l.
Proof using Hsized.
  destruct l as [path x]. intros (g & Hg & Hx)%elem_of_items_of.
  destruct (Hsized _ _ Hg) as (_ & Hr & _). unfold row_of. cbn. by apply row_reference, Hr.
Qed.

(** The rows a condition selects are the items it selects. *)
Lemma selected_rows {A R} (row : string → A → R) (P : R → Prop) (Q : Located A → Prop)
    `{!∀ r, Decision (P r), !∀ x, Decision (Q x)} rows (l : list (Located A)) :
  rows ≡ₚ row_of row <$> l → (∀ x, P (row_of row x) ↔ Q x) →
  filter P rows ≡ₚ row_of row <$> filter Q l.
Proof. intros -> HPQ. rewrite filter_fmap. by rewrite (list_filter_iff _ Q). Qed.

Lemma symbols_read rows (Q : Located Symbol → Prop) `{!∀ x, Decision (Q x)} :
  rows ≡ₚ row_of symbol_row <$> filter Q (items_of (slices s) cg_symbols) →
  ∃ l, mapM located_symbol rows = Some l ∧ l ≡ₚ filter Q (located_in s cg_symbols).
Proof using Hsized.
  intros Hrows. destruct (decode_rows symbol_row located_symbol id _ _ Hrows) as (l & Hl & Hp).
  { intros x [_ Hx]%list_elem_of_filter. by apply item_symbol_reads. }
  exists l. split; [done|]. by rewrite Hp, list_fmap_id, located_in_items.
Qed.

Lemma references_read rows (Q : Located Reference → Prop) `{!∀ x, Decision (Q x)} :
  rows ≡ₚ row_of ref_row <$> filter Q (items_of (slices s) cg_references) →
  ref_from_row <$> rows ≡ₚ filter Q (located_in s cg_references).
Proof using Hsized.
  intros ->. rewrite <-list_fmap_compose, located_in_items.
  erewrite list_fmap_ext; [by rewrite list_fmap_id|].
  intros i x Hx%list_elem_of_lookup_2. apply list_elem_of_filter in Hx as [_ Hx].
  by apply item_reference_reads.
Qed.

Lemma sq_definitions_spec name :
  ∃ l, sq_definitions db name = Some l ∧ l ≡ₚ gs_definitions (in_memory s) name.
Proof using Hview Hsized.
  cbn. unfold mem_definitions. rewrite filter_located_in. apply symbols_read.
  rewrite order_by_permutation. by apply selected_rows; [apply Hview|].
Qed.

Lemma sq_all_symbols_spec :
  ∃ l, sq_all_symbols db = Some l ∧ l ≡ₚ gs_all_symbols (in_memory s).
Proof using Hview Hsized.
  cbn. unfold mem_all_symbols, sq_all_symbols.
  destruct (symbols_read (order_by sr_path (t_symbols db)) (λ _, True)) as (l & Hl & Hp).
  - rewrite order_by_permutation, list_filter_id by done. apply Hview.
  - exists l. split; [done|]. by rewrite Hp, list_filter_id.
Qed.

Lemma sq_references_to_spec name :
  sq_references_to db name ≡ₚ gs_references_to (in_memory s) name.
Proof using Hview Hsized.
  cbn. unfold mem_references_to. rewrite filter_located_in. apply references_read.
  rewrite order_by_permutation. by apply selected_rows; [apply Hview|].
Qed.

Lemma sq_all_references_spec : sq_all_references db ≡ₚ gs_all_references (in_memory s).
Proof using Hview Hsized.
  cbn. unfold mem_all_references, sq_all_references.
  rewrite (references_read _ (λ _, True)); [by rewrite list_filter_id|].
  rewrite order_by_permutation, list_filter_id by done. apply Hview.
Qed.

(** The rows of calls are the slices' calls. *)
Lemma elem_of_call_rows (P : option string → string → Prop) x (f : option string → string → Prop) :
  (∃ row, row ∈ t_refs db ∧ rr_kind row ≠ "value" ∧ P (rr_from_fn row) (rr_name row) ∧
     f (rr_from_fn row) x) ↔
  (∃ r, r ∈ (btree_values (slices s) ≫= cg_references) ∧ ref_kind r ≠ Value ∧
     P (ref_from r) (ref_name r) ∧ f (ref_from r) x).
Proof using Hview.
  destruct Hview as (_ & Hrefs & _). setoid_rewrite Hrefs. setoid_rewrite list_elem_of_fmap.
  setoid_rewrite elem_of_slice_references. unfold mem_all_references.
  setoid_rewrite located_in_items. split.
  - intros (row & ([path r] & -> & Hr) & Hk & Hp & Hf). exists r.
    split_and!; [by exists path| |done..]. intros Hv. apply Hk. cbn. by rewrite Hv.
  - intros (r & [path Hr] & Hk & Hp & Hf). exists (ref_row path r).
    split_and!; [by exists (mkLocated path r)| |done..]. cbn. by destruct (ref_kind r).
Qed.

Lemma order_by_id_sort (l : list string) : order_by id l = sort l.
Proof using.
  apply (StronglySorted_unique ole).
  - apply (order_by_sorted id).
  - apply sort_sorted.
  - by rewrite order_by_permutation, sort_permutation.
Qed.

Lemma sq_callers_of_spec name : sq_callers_of db name = gs_callers_of (in_memory s) name.
Proof using Hview.
  unfold sq_callers_of. cbn. unfold mem_callers_of. rewrite order_by_id_sort.
  apply dedup_sort_ext. intros x. rewrite !list_elem_of_omap.
  setoid_rewrite list_elem_of_filter.
  pose proof (elem_of_call_rows (λ _ n, n = name) x (λ o x, o = Some x)) as Hrows. naive_solver.
Qed.

Lemma sq_callees_spec name : sq_callees db name = gs_callees (in_memory s) name.
Proof using Hview.
  unfold sq_callees. cbn. unfold mem_callees. rewrite order_by_id_sort.
  apply dedup_sort_ext. intros x. rewrite !list_elem_of_fmap.
  setoid_rewrite list_elem_of_filter.
  pose proof (elem_of_call_rows (λ o n, o = Some name ∧ n = x) x (λ _ _, True)) as Hrows.
  naive_solver.
Qed.

Lemma filter_path_items {A} (f : CodeGraph → list A) path g :
  slices s !! path = Some g →
  filter (λ l, loc_path l = path) (items_of (slices s) f) ≡ₚ mkLocated path <$> f g.
Proof using.
  intros Hg. rewrite <-(insert_delete_id (slices s) path g Hg) at 1.
  rewrite items_of_insert by apply lookup_delete_eq. rewrite filter_app, list_filter_id.
  - assert (filter (λ l, loc_path l = path) (items_of (delete path (slices s)) f) = []) as ->;
      [|by rewrite app_nil_r].
    apply elem_of_nil_inv. intros [p x] [Hp (g' & Hl & _)%elem_of_items_of]%list_elem_of_filter.
    cbn in Hp. subst. by rewrite lookup_delete_eq in Hl.
  - intros [p x] (y & [= -> ->] & _)%list_elem_of_fmap. done.
Qed.

Lemma filter_path_none {A} (f : CodeGraph → list A) path :
  slices s !! path = None → filter (λ l, loc_path l = path) (items_of (slices s) f) = [].
Proof using.
  intros Hg. apply elem_of_nil_inv.
  intros [p x] [Hp (g' & Hl & _)%elem_of_items_of]%list_elem_of_filter. cbn in Hp. congruence.
Qed.

Lemma sq_symbols_in_file_spec path :
  ∃ l, sq_symbols_in_file db path = Some l ∧ l ≡ₚ gs_symbols_in_file (in_memory s) path.
Proof using Hview Hsized.
  unfold sq_symbols_in_file. cbn. unfold mem_symbols_in_file.
  assert (select (filter (λ r, sr_path r = path) (t_symbols db)) ≡ₚ
    row_of symbol_row <$> filter (λ l, loc_path l = path) (items_of (slices s) cg_symbols)) as Hrows.
  { rewrite select_permutation. by apply selected_rows; [apply Hview|]. }
  destruct (decode_rows symbol_row symbol_from_row loc_item _ _ Hrows) as (l & Hl & Hp).
  { intros x [_ Hx]%list_elem_of_filter. apply item_symbol_reads in Hx.
    unfold located_symbol in Hx. destruct (symbol_from_row _); [|done]. by injection Hx as <-. }
  exists l. split; [done|]. rewrite Hp. destruct (slices s !! path) as [g|] eqn:Hg; cbn.
  - rewrite (filter_path_items _ path g Hg), <-list_fmap_compose. by rewrite list_fmap_id.
  - by rewrite (filter_path_none _ path Hg).
Qed.

Lemma sq_imports_in_file_spec path :
  (∀ i, i ∈ gs_imports_in_file (in_memory s) path → plain_module (imp_path i)) →
  sq_imports_in_file db path ≡ₚ gs_imports_in_file (in_memory s) path.
Proof using Hview Hsized.
  unfold sq_imports_in_file. cbn. unfold mem_imports_in_file. intros Hplain.
  rewrite order_by_permutation.
  assert (filter (λ r, ir_path r = path) (t_imports db) ≡ₚ
    row_of import_row <$> filter (λ l, loc_path l = path) (items_of (slices s) cg_imports)) as ->
    by (by apply selected_rows; [apply Hview|]).
  destruct (slices s !! path) as [g|] eqn:Hg; cbn in *.
  - rewrite (filter_path_items _ path g Hg), <-!list_fmap_compose.
    erewrite list_fmap_ext; [by rewrite list_fmap_id|]. intros j i Hi%list_elem_of_lookup_2.
    destruct (Hsized _ _ Hg) as (_ & _ & Himp). destruct (Himp i Hi).
    unfold compose, row_of. cbn. apply row_import; auto.
  - by rewrite (filter_path_none _ path Hg).
Qed.
End answers.

(** ** The interface *)

(** Two backends that give the same answers, listings in any order. *)
Record answers_alike (q g : GraphStore) : Prop := {
  aa_all_symbols : gs_all_symbols q ≡ₚ gs_all_symbols g;
  aa_all_references : gs_all_references q ≡ₚ gs_all_references g;
  aa_definitions name : gs_definitions q name ≡ₚ gs_definitions g name;
  aa_references_to name : gs_references_to q name ≡ₚ gs_references_to g name;
  aa_symbols_in_file path : gs_symbols_in_file q path ≡ₚ gs_symbols_in_file g path;
  aa_callers_of name : gs_callers_of q name = gs_callers_of g name;
  aa_callees name : gs_callees q name = gs_callees g name
}.

Lemma answers_alike_refl g : answers_alike g g.
Proof. by split. Qed.

(** A backend that answers like a lawful one is lawful. *)
Lemma laws_transfer (q g : GraphStore) `{!GraphStoreLaws g} : answers_alike q g → GraphStoreLaws q.
Proof.
  intros [Hs Hr Hd Hrt Hf Hcr Hce]. split.
  - intros name. by rewrite Hd, Hs, law_definitions.
  - intros name. by rewrite Hrt, Hr, law_references_to.
  - intros path x. by rewrite Hf, Hs, law_symbols_in_file.
  - intros name. rewrite Hcr. apply law_callers_of_sorted.
  - intros name c. rewrite Hcr, law_callers_of. by setoid_rewrite Hr.
  - intros name. rewrite Hce. apply law_callees_sorted.
  - intros name c. rewrite Hce, law_callees. by setoid_rewrite Hr.
Qed.

(** The impact query is a function of those answers. *)
Lemma alike_impact q g fuel name : answers_alike q g → impact q fuel name = impact g fuel name.
Proof.
  intros [_ _ _ _ _ Hc _]. unfold impact. rewrite Hc. destruct (visit_new _ _ _) as [v queue].
  assert (∀ fuel v queue, impact_loop q fuel v queue = impact_loop g fuel v queue) as Hloop.
  { clear -Hc. induction fuel as [|fuel IH]; intros v [|x queue]; cbn; try done. rewrite Hc.
    destruct (visit_new _ _ _). apply IH. }
  by rewrite Hloop.
Qed.

Lemma sqlite_alike `{Sqlite} db s :
  holds_view db (slices s) → (∀ path g, slices s !! path = Some g → usize_sized g) →
  answers_alike (sqlite_graph db) (in_memory s).
Proof.
  intros Hview Hsized. split; cbn.
  - destruct (sq_all_symbols_spec db s Hview Hsized) as (l & -> & Hl). done.
  - by apply sq_all_references_spec.
  - intros name. destruct (sq_definitions_spec db s Hview Hsized name) as (l & -> & Hl). done.
  - intros name. by apply sq_references_to_spec.
  - intros path. destruct (sq_symbols_in_file_spec db s Hview Hsized path) as (l & -> & Hl). done.
  - intros name. by apply sq_callers_of_spec.
  - intros name. by apply sq_callees_spec.
Qed.

#[export] Instance sqlite_laws `{Sqlite} db s :
  holds_view db (slices s) → (∀ path g, slices s !! path = Some g → usize_sized g) →
  GraphStoreLaws (sqlite_graph db).
Proof. intros Hview Hsized. eapply laws_transfer; [|by apply (sqlite_alike db s)]. apply _. Qed.

(** C30: the persistent graph answers as the in-memory one.  After any sequence of
    slice insertions and file removals no query panics on a stored row; every
    listing is the in-memory store's, in some order, with nothing lost in the
    columns; callers and callees are the same sorted lists; and imports read back
    whenever their module paths can be joined with [/] and split again. *)
Theorem sqlite_answers_like_memory `{Sqlite} (ops : list GraphOp) :
  Forall op_sized ops →
  let db := foldl sq_op empty_db ops in
  let g := in_memory (mkInMemory (foldl slices_op ∅ ops)) in
  (is_Some (sq_all_symbols db) ∧ (∀ name, is_Some (sq_definitions db name)) ∧
   ∀ path, is_Some (sq_symbols_in_file db path)) ∧
  answers_alike (sqlite_graph db) g ∧
  (∀ path, (∀ i, i ∈ gs_imports_in_file g path → plain_module (imp_path i)) →
     gs_imports_in_file (sqlite_graph db) path ≡ₚ gs_imports_in_file g path).
Proof.
  intros Hops db g. set (s := mkInMemory (foldl slices_op ∅ ops)) in *.
  assert (holds_view db (slices s)) as Hview by (apply holds_view_ops; by split_and!).
  assert (∀ path g, slices s !! path = Some g → usize_sized g) as Hsized.
  { intros path g' Hg. eapply slices_ops_sized; [exact Hops| |exact Hg].
    intros p h Hp. by rewrite lookup_empty in Hp. }
  split_and!; [| | |by apply sqlite_alike|].
  - destruct (sq_all_symbols_spec db s Hview Hsized) as (l & Hl & _). by exists l.
  - intros name. destruct (sq_definitions_spec db s Hview Hsized name) as (l & Hl & _). by exists l.
  - intros path. destruct (sq_symbols_in_file_spec db s Hview Hsized path) as (l & Hl & _). by exists l.
  - intros path. by apply sq_imports_in_file_spec.
Qed.

(** *** A database to run *)

Definition kind_of_str (s : string) : option SymbolKind :=
  list_find (λ k, SymbolKind_as_str k = s)
    [Function; Struct; Enum; Trait; Impl; Module_; Const; Static; TypeAlias; Class_; Interface]
  ≫= λ p, Some p.2.

Definition sample_sqlite : Sqlite.
Proof.
  refine {|
    select := λ R l, l;
    order_by := λ R K _ _ key l, merge_sort (λ a b, ole (key a) (key b)) l;
    kind_to_text := SymbolKind_as_str;
    kind_from_text := kind_of_str
  |}.
  - done.
  - intros R K ? ? key l. apply merge_sort_Permutation.
  - intros R K ? ? key l. apply StronglySorted_merge_sort; [|].
    + intros a b c. apply transitivity.
    + intros a b. apply ole_total.
  - by intros [].
Defined.

#[local] Existing Instance sample_sqlite.

Lemma sqlite_answers_like_memory_witness :
  let ops := [GInsert "a.rs" (mkCodeGraph [sample_fn "f" 1; sample_fn "g" 9]
                [sample_call "g" "f" Free] [mkImport "g" ["pkg"; "mod"] 0 1]);
              GInsert "b.rs" (mkCodeGraph [sample_fn "f" 2] [] []); GRemove "b.rs"] in
  let db := foldl sq_op empty_db ops in
  sq_callers_of db "g" = ["f"] ∧
  gs_callers_of (sqlite_graph db) "g" =
    gs_callers_of (in_memory (mkInMemory (foldl slices_op ∅ ops))) "g".
Proof.
  intros ops db. split; [by vm_compute|].
  apply aa_callers_of. apply (sqlite_answers_like_memory ops). subst ops. repeat constructor; cbn; set_solver by lia.
Defined.
