(* ===== verification/SourceWalk.v ===== *)
(** * SourceWalk: which files of a tree enter a view

    Models [gonzalo-cli]'s [walk.rs]: the filter of paths, the walk of a source
    tree and the check of entries already in a view.  A tree is what the walk can
    see of a directory; [.gitignore] is git2's and comes as a predicate.  The two
    indexing drivers must agree on membership, so the theorems relate the walk's
    answer to the filter applied to a path alone. *)

From S2P Require Export CodeModel.

(** ** Strings *)

Definition ends_with (suffix s : string) : bool :=
  (String.length suffix <=? String.length s)
  && bool_decide (String.substring (String.length s - String.length suffix)
                    (String.length suffix) s = suffix).

Definition backslash_char : Ascii.ascii := Ascii.ascii_of_byte Byte.x5c.

(** [replace('\\', "/")]. *)
Fixpoint replace_backslash (s : string) : string :=
  match s with
  | "" => ""
  | String a s => String (if decide (a = backslash_char) then slash_char else a) (replace_backslash s)
  end.

(** [trim_end_matches('/')]. *)
Fixpoint trim_end_slash (s : string) : string :=
  match s with
  | "" => ""
  | String a s =>
      match trim_end_slash s with
      | "" => if decide (a = slash_char) then "" else String a ""
      | s => String a s
      end
  end.

(** [as_bytes()[i] == b'/']; the callers' length test keeps [i] in range. *)
Definition slash_at (i : nat) (s : string) : bool := bool_decide (String.get i s = Some slash_char).

(** ** The filter *)

Definition SKIP_DIRS : list string :=
  ["target"; "node_modules"; "vendor"; "dist"; "build"; "site-packages"; "third_party"].

Definition SKIP_SUFFIXES : list string := [".min.js"; ".min.css"; ".bundle.js"; "-lock.json"].

Record IndexFilter := mkIndexFilter { include : list string }.

Definition IndexFilter_default : IndexFilter := mkIndexFilter [].

Definition IndexFilter_new (inc : list string) : IndexFilter :=
  mkIndexFilter (filter (λ p, p ≠ "") ((λ p, replace_backslash (trim_end_slash p)) <$> inc)).

(** [prefix] followed by a separator starts [s]. *)
Definition under_prefix (prefix s : string) : bool :=
  (String.length prefix <? String.length s) && starts_with prefix s
  && slash_at (String.length prefix) s.

Definition is_included (f : IndexFilter) (rel : string) : bool :=
  existsb (λ prefix, bool_decide (rel = prefix) || under_prefix prefix rel) (include f).

Definition skipped_part (part : string) : bool :=
  starts_with "." part || bool_decide (part ∈ SKIP_DIRS).

(** [rel.rsplit('/').next()]. *)
Definition last_part (rel : string) : string := default rel (last (split_char slash_char rel)).

Definition is_indexable (f : IndexFilter) (rel : string) : bool :=
  is_included f rel
  || negb (existsb skipped_part (split_char slash_char rel))
     && negb (existsb (λ suffix, ends_with suffix (last_part rel)) SKIP_SUFFIXES).

Definition should_descend (f : IndexFilter) (rel : string) : bool :=
  is_indexable f rel || existsb (λ p, under_prefix rel p) (include f).

(** ** Counts *)

Record IgnoredCounts := mkIgnored { ig_files : nat; ig_dirs : nat }.

Record UnindexedCounts := mkUnindexed { un_files : nat; un_by_extension : gmap string nat }.

Definition record_unindexed (u : UnindexedCounts) (extension : option string) : UnindexedCounts :=
  mkUnindexed (S (un_files u))
    match extension with
    | Some e => <[e := S (default 0 (un_by_extension u !! e))]> (un_by_extension u)
    | None => un_by_extension u
    end.

(** Most common first, alphabetical within a tie. *)
Definition most_common : Cmp (string * nat) := λ a b,
  match cmp b.2 a.2 with Eq => cmp a.1 b.1 | c => c end.

Definition unindexed_extensions (u : UnindexedCounts) : list (string * nat) :=
  merge_sort (@ole _ most_common) (btree_items (un_by_extension u)).

(** ** Trees *)

(** A directory entry: a regular file with what [read_to_string] gives, a
    directory with its listing, or a symbolic link, which the walk takes for
    neither but a read follows.  [None] is an I/O error or text that is not
    UTF-8. *)
Inductive Tree :=
  | TFile (content : option string)
  | TDir (listing : option (list (string * Tree)))
  | TLink (content : option string).

(** [path.strip_prefix(root)] as text. *)
Definition rel_of (p : list string) : string := replace_backslash (String.concat "/" p).

Definition language_at (name : string) : option Language := path_extension name ≫= from_extension.

Record SourceFiles := mkSourceFiles {
  sf_files : list (list string * Language);
  sf_ignored : IgnoredCounts;
  sf_unindexed : UnindexedCounts
}.

Definition no_files : SourceFiles := mkSourceFiles [] (mkIgnored 0 0) (mkUnindexed 0 ∅).

Section walk.
Context (f : IndexFilter) (git_ignores : string → bool).

Definition admitted (rel : string) : bool := is_indexable f rel && negb (git_ignores rel).

(** One regular file called [name], at [p]. *)
Definition visit_file (p : list string) (name : string) (acc : SourceFiles) : SourceFiles :=
  let rel := rel_of p in
  match language_at name with
  | None =>
      if admitted rel
      then mkSourceFiles (sf_files acc) (sf_ignored acc)
             (record_unindexed (sf_unindexed acc) (path_extension name))
      else acc
  | Some language =>
      if negb (admitted rel)
      then mkSourceFiles (sf_files acc)
             (mkIgnored (S (ig_files (sf_ignored acc))) (ig_dirs (sf_ignored acc)))
             (sf_unindexed acc)
      else mkSourceFiles (sf_files acc ++ [(p, language)]) (sf_ignored acc) (sf_unindexed acc)
  end.

(** The body of the loop for the entry [name] of the directory at [dir]. *)
Fixpoint visit (dir : list string) (name : string) (t : Tree) (acc : SourceFiles) :
    result string SourceFiles :=
  let p := dir ++ [name] in
  match t with
  | TFile _ => Ok (visit_file p name acc)
  | TLink _ => Ok acc
  | TDir listing =>
      if negb (should_descend f (rel_of p)) || git_ignores (rel_of p)
      then Ok (mkSourceFiles (sf_files acc)
                 (mkIgnored (ig_files (sf_ignored acc)) (S (ig_dirs (sf_ignored acc))))
                 (sf_unindexed acc))
      else match listing with
           | None => Err "read_dir"
           | Some l =>
               (fix go (l : list (string * Tree)) (acc : SourceFiles) :=
                  match l with
                  | [] => Ok acc
                  | (name, t) :: l => acc ← visit p name t acc; go l acc
                  end) l acc
           end
  end.

(** [source_files_inner] on a directory that is entered. *)
Definition source_files_inner (dir : list string) (l : list (string * Tree)) (acc : SourceFiles) :
    result string SourceFiles :=
  (fix go (l : list (string * Tree)) (acc : SourceFiles) :=
     match l with
     | [] => Ok acc
     | (name, t) :: l => acc ← visit dir name t acc; go l acc
     end) l acc.

(** [Path]s compare component by component. *)
Fixpoint cmp_path (p q : list string) : comparison :=
  match p, q with
  | [], [] => Eq
  | [], _ => Lt
  | _, [] => Gt
  | a :: p, b :: q => match cmp a b with Eq => cmp_path p q | c => c end
  end.

Definition source_files (root : Tree) : result string SourceFiles :=
  match root with
  | TDir (Some l) =>
      found ← source_files_inner [] l no_files;
      Ok (mkSourceFiles (merge_sort (λ a b, cmp_path a.1 b.1 ≠ Gt) (sf_files found))
            (sf_ignored found) (sf_unindexed found))
  | _ => Err "read_dir"
  end.

Definition stale_entries (paths : list string) : list string :=
  filter (λ rel, negb (is_indexable f rel) || git_ignores rel = true) paths.
End walk.

(** What a path leads to; reading follows links. *)
Fixpoint node_at (t : Tree) (p : list string) : option Tree :=
  match p with
  | [] => Some t
  | c :: p =>
      match t with
      | TDir (Some l) => '(_, nt) ← list_find (λ nt, nt.1 = c) l; node_at nt.2 p
      | _ => None
      end
  end.

Definition read_at (t : Tree) (p : list string) : option string :=
  match node_at t p with
  | Some (TFile content) | Some (TLink content) => content
  | _ => None
  end.

(** [src.join(rel)], resolved. *)
Definition components_of (rel : string) : list string :=
  filter (λ c, c ≠ "" ∧ c ≠ ".") (split_char slash_char rel).

(** ** Prefixes *)

Lemma string_app_split (s1 s2 t1 t2 : string) :
  s1 +:+ s2 = t1 +:+ t2 →
  (∃ u, s1 = t1 +:+ u ∧ t2 = u +:+ s2) ∨ (∃ u, t1 = s1 +:+ u ∧ s2 = u +:+ t2).
Proof.
  revert t1. induction s1 as [|a s1 IH]; intros [|b t1]; cbn; intros Heq.
  - left. by exists "".
  - right. by exists (String b t1).
  - left. by exists (String a s1).
  - injection Heq as -> Heq. destruct (IH t1 Heq) as [(u & -> & ->)|(u & -> & ->)];
      [left|right]; by exists u.
Qed.

Lemma starts_with_spec p s : starts_with p s = true ↔ ∃ t, s = p +:+ t.
Proof.
  unfold starts_with. revert s. induction p as [|a p IH]; intros s.
  { split; [by exists s|]. by destruct s. }
  destruct s as [|b s]; [by split; [|intros (t & Ht)]|]. cbn [String.prefix].
  destruct (Ascii.ascii_dec a b) as [->|Hne].
  - rewrite IH. split; [intros (t & ->); by exists t|intros (t & [= ->]); by exists t].
  - split; [done|]. intros (t & [= <- _]). done.
Qed.

Lemma slash_at_app p t : slash_at (String.length p) (p +:+ t) = slash_at 0 t.
Proof. induction p as [|a p IH]; [done|]. apply IH. Qed.

Lemma under_prefix_spec prefix s :
  under_prefix prefix s = true ↔ ∃ t, s = prefix +:+ String slash_char t.
Proof.
  unfold under_prefix. rewrite !andb_true_iff, starts_with_spec, Nat.ltb_lt. split.
  - intros [[_ (t & ->)] Hs]. rewrite slash_at_app in Hs.
    destruct t as [|a t]; [done|]. unfold slash_at in Hs. cbn in Hs.
    apply bool_decide_eq_true in Hs. injection Hs as ->. by exists t.
  - intros (t & ->). rewrite slash_at_app, string_length_app. cbn.
    split_and!; [lia|by eexists|done].
Qed.

(** ** A file the filter admits is never pruned away *)

(** A name a directory can have: not empty, not [.], without a separator. *)
Definition plain_name (s : string) : Prop :=
  (s ≠ "" ∧ s ≠ ".") ∧ plain_segment s ∧ replace_backslash s = s.

Lemma concat_app (d q : list string) : d ≠ [] → q ≠ [] →
  String.concat "/" (d ++ q) = String.concat "/" d +:+ String slash_char (String.concat "/" q).
Proof.
  intros Hd Hq. induction d as [|x [|y d] IH]; [done|by destruct q|].
  change (String.concat "/" ((x :: y :: d) ++ q)) with
    (x +:+ String slash_char (String.concat "/" ((y :: d) ++ q))).
  rewrite IH by done.
  change (String.concat "/" (x :: y :: d)) with (x +:+ String slash_char (String.concat "/" (y :: d))).
  by rewrite string_app_assoc.
Qed.

Lemma rel_of_plain p : Forall plain_name p → rel_of p = String.concat "/" p.
Proof.
  unfold rel_of. assert (∀ s t, replace_backslash (s +:+ t) =
    replace_backslash s +:+ replace_backslash t) as Happ.
  { induction s as [|a s IH]; intros t; [done|]. exact (f_equal _ (IH t)). }
  induction 1 as [|x p (_ & _ & Hx) Hp IH]; [done|]. destruct p as [|y p]; [done|].
  change (String.concat "/" (x :: y :: p)) with (x +:+ String slash_char (String.concat "/" (y :: p))).
  rewrite Happ, Hx. change (replace_backslash (String slash_char ?s)) with
    (String slash_char (replace_backslash s)). by rewrite IH.
Qed.

Lemma split_rel_of p : p ≠ [] → Forall plain_name p → split_char slash_char (rel_of p) = p.
Proof.
  intros Hp Hplain. rewrite rel_of_plain by done. apply split_char_concat; [done|].
  intros s Hs. by apply (proj1 (Forall_forall _ _) Hplain) in Hs as (_ & ? & _).
Qed.

Definition generated_name (name : string) : bool :=
  existsb (λ suffix, ends_with suffix name) SKIP_SUFFIXES.

Lemma last_part_rel_of p : p ≠ [] → Forall plain_name p → last p = Some (last_part (rel_of p)).
Proof.
  intros Hp Hplain. unfold last_part. rewrite split_rel_of by done.
  destruct (last p) eqn:E; [done|]. by apply last_None in E.
Qed.

Lemma included_descends f (d q : list string) :
  d ≠ [] → q ≠ [] → Forall plain_name (d ++ q) →
  is_included f (rel_of (d ++ q)) = true → should_descend f (rel_of d) = true.
Proof.
  intros Hd Hq Hplain. rewrite (rel_of_plain (d ++ q)) by done.
  rewrite (rel_of_plain d) by (by apply Forall_app in Hplain as [? _]).
  rewrite concat_app by done. set (s := String.concat "/" d). set (x := String.concat "/" q).
  unfold is_included. rewrite existsb_exists. intros (P & Hin & Hpre).
  unfold should_descend, is_indexable, is_included. rewrite !orb_true_iff, !existsb_exists.
  apply orb_true_iff in Hpre as [<-%bool_decide_eq_true|(t & Ht)%under_prefix_spec].
  { right. exists (s +:+ String slash_char x). split; [done|]. apply under_prefix_spec. by eexists. }
  apply string_app_split in Ht as [(u & Hs & Hu)|(u & HP & Hu)].
  - left. left. exists P. split; [done|]. rewrite orb_true_iff, under_prefix_spec.
    destruct u as [|a u]; [left; apply bool_decide_eq_true; by rewrite Hs, string_app_nil_r|].
    right. injection Hu as <- _. by exists u.
  - destruct u as [|a u].
    + left. left. exists P. split; [done|]. rewrite orb_true_iff. left.
      apply bool_decide_eq_true. by rewrite HP, string_app_nil_r.
    + right. exists P. split; [done|]. apply under_prefix_spec. injection Hu as <- _. by exists u.
Qed.

(** The directories above an admitted file are entered, unless one is named like a
    generated file. *)
Lemma indexable_descends f (d q : list string) :
  d ≠ [] → q ≠ [] → Forall plain_name (d ++ q) →
  (∀ name, last d = Some name → generated_name name = false) →
  is_indexable f (rel_of (d ++ q)) = true → should_descend f (rel_of d) = true.
Proof.
  intros Hd Hq Hplain Hgen. unfold is_indexable at 1. rewrite orb_true_iff.
  intros [Hinc|[Hskip _]%andb_true_iff]; [by eapply included_descends|].
  unfold should_descend, is_indexable. rewrite split_rel_of in Hskip by (done || by destruct d).
  assert (Forall plain_name d) as Hpd by (by apply Forall_app in Hplain as [? _]).
  rewrite (split_rel_of d) by done. rewrite existsb_app, negb_orb in Hskip.
  apply andb_true_iff in Hskip as [-> _].
  fold (generated_name (last_part (rel_of d))).
  rewrite (Hgen _ (last_part_rel_of d Hd Hpd)). by destruct (is_included f (rel_of d)).
Qed.

(** ** The walk finds exactly the admitted files *)

Lemma Tree_nested_ind (P : Tree → Prop) :
  (∀ c, P (TFile c)) → P (TDir None) → (∀ l, Forall (λ nt, P nt.2) l → P (TDir (Some l))) →
  (∀ c, P (TLink c)) → ∀ t, P t.
Proof.
  intros Hf Hn Hd Hl. fix IH 1. intros [c|[l|]|c]; [apply Hf| |apply Hn|apply Hl].
  apply Hd. induction l as [|[name t] l IHl]; constructor; [apply IH|apply IHl].
Qed.

(** A regular file of a tree, by its path from the root. *)
Inductive file_in : list string → Tree → list string → option string → Prop :=
  | file_self base c : file_in base (TFile c) base c
  | file_below base l name t p c :
      (name, t) ∈ l → file_in (base ++ [name]) t p c → file_in base (TDir (Some l)) p c.

(** A directory of a tree. *)
Inductive dir_in : list string → Tree → list string → Prop :=
  | dir_self base l : dir_in base (TDir l) base
  | dir_below base l name t p :
      (name, t) ∈ l → dir_in (base ++ [name]) t p → dir_in base (TDir (Some l)) p.

Section walk_spec.
Context (f : IndexFilter) (git_ignores : string → bool).

Definition entered (p : list string) : bool :=
  should_descend f (rel_of p) && negb (git_ignores (rel_of p)).

(** A file below directories that are all entered. *)
Inductive seen : list string → Tree → list string → option string → Prop :=
  | seen_self base c : seen base (TFile c) base c
  | seen_below base l name t p c :
      entered base = true → (name, t) ∈ l → seen (base ++ [name]) t p c →
      seen base (TDir (Some l)) p c.

(** What the walk reports of a file at [p]. *)
Definition reported (p : list string) (lang : Language) : Prop :=
  (last p ≫= language_at) = Some lang ∧ admitted f git_ignores (rel_of p) = true.

Definition found (base : list string) (t : Tree) (x : list string * Language) : Prop :=
  (∃ c, seen base t x.1 c) ∧ reported x.1 x.2.

Lemma visit_file_spec dir name acc x :
  x ∈ sf_files (visit_file f git_ignores (dir ++ [name]) name acc) ↔
    x ∈ sf_files acc ∨ x.1 = dir ++ [name] ∧ reported x.1 x.2.
Proof.
  assert (∀ lang, reported (dir ++ [name]) lang ↔ language_at name = Some lang ∧
    admitted f git_ignores (rel_of (dir ++ [name])) = true) as Hrep.
  { intros lang. unfold reported. by rewrite last_snoc. }
  unfold visit_file. destruct x as [p l]. cbn [fst snd].
  destruct (language_at name) as [lang|] eqn:Hl.
  - destruct (admitted _ _ _) eqn:Ha; cbn.
    + rewrite elem_of_app, list_elem_of_singleton. split.
      * intros [?|[= -> ->]]; [by left|right]. split; [done|]. by apply Hrep.
      * intros [?|[-> [[= ->] _]%Hrep]]; [by left|by right].
    + split; [by left|]. intros [?|[-> [_ ?]%Hrep]]; [done|congruence].
  - assert (∀ b, sf_files (if b : bool then mkSourceFiles (sf_files acc) (sf_ignored acc)
      (record_unindexed (sf_unindexed acc) (path_extension name)) else acc) = sf_files acc) as ->
      by (by intros []).
    split; [by left|]. by intros [?|[-> [? _]%Hrep]].
Qed.

Lemma walk_listing_spec dir (l : list (string * Tree)) acc acc' :
  Forall (λ nt, ∀ dir name acc acc', visit f git_ignores dir name nt.2 acc = Ok acc' →
    ∀ x, x ∈ sf_files acc' ↔ x ∈ sf_files acc ∨ found (dir ++ [name]) nt.2 x) l →
  source_files_inner f git_ignores dir l acc = Ok acc' →
  ∀ x, x ∈ sf_files acc' ↔ x ∈ sf_files acc ∨
    ∃ name t, (name, t) ∈ l ∧ found (dir ++ [name]) t x.
Proof.
  intros Hl. revert acc. induction Hl as [|[name t] l Ht Hl IH]; intros acc; cbn.
  { intros [= ->] x. split; [by left|]. intros [?|(? & ? & Hin & _)]; [done|].
    by apply elem_of_nil in Hin. }
  destruct (visit f git_ignores dir name t acc) as [mid|e] eqn:Hv; [|done]. cbn.
  intros Hgo x. rewrite (IH mid Hgo x), (Ht dir name acc mid Hv x).
  setoid_rewrite elem_of_cons. cbn. split.
  - intros [[?|?]|(n & t' & ? & ?)]; [by left|right..]; eauto 6.
  - intros [?|(n & t' & [[= -> ->]|?] & ?)]; [by left; left|by left; right|right]; eauto.
Qed.

Lemma visit_spec t dir name acc acc' :
  visit f git_ignores dir name t acc = Ok acc' →
  ∀ x, x ∈ sf_files acc' ↔ x ∈ sf_files acc ∨ found (dir ++ [name]) t x.
Proof.
  revert dir name acc acc'.
  induction t as [c| |l IH|c] using Tree_nested_ind; intros dir name acc acc'; cbn [visit].
  - intros [= <-] x. rewrite visit_file_spec. f_equiv. unfold found. split.
    + intros [-> ?]. split; [exists c; constructor|done].
    + intros [[c' Hs] ?]. split; [by inversion Hs|done].
  - destruct (negb _ || _) eqn:He; [|done]. intros [= <-] x. cbn. split; [by left|].
    intros [?|[[c Hs] _]]; [done|inversion Hs].
  - destruct (negb _ || _) eqn:He.
    + intros [= <-] x. cbn. split; [by left|]. intros [?|[[c Hs] _]]; [done|].
      inversion Hs as [|? ? ? ? ? ? Hent]; subst. unfold entered in Hent.
      destruct (should_descend _ _); [|done]. cbn in He. by rewrite He in Hent.
    + intros Hgo x. rewrite (walk_listing_spec (dir ++ [name]) l acc acc' IH Hgo x). f_equiv.
      unfold found. split.
      * intros (n & t & Hin & [c Hs] & Hr). split; [|done]. exists c. eapply seen_below; [|done..].
        unfold entered. apply orb_false_iff in He as [->%negb_false_iff ->]. done.
      * intros [[c Hs] Hr]. inversion Hs; subst. naive_solver.
  - intros [= <-] x. split; [by left|]. intros [?|[[c' Hs] _]]; [done|inversion Hs].
Qed.

Lemma source_files_spec l s :
  source_files f git_ignores (TDir (Some l)) = Ok s →
  ∀ x, x ∈ sf_files s ↔ ∃ name t, (name, t) ∈ l ∧ found [name] t x.
Proof.
  unfold source_files. destruct (source_files_inner _ _ [] l no_files) as [acc|e] eqn:Hgo; [|done].
  cbn. intros [= <-] x. cbn. rewrite merge_sort_Permutation.
  rewrite (walk_listing_spec [] l no_files acc); [| |done].
  - cbn. rewrite elem_of_nil. split; [by intros [?|?]|by right].
  - apply Forall_forall. intros nt _ dir name a a'. apply visit_spec.
Qed.

Lemma file_in_prefix base t p c : file_in base t p c → ∃ q, p = base ++ q.
Proof.
  induction 1 as [base c|base l name t p c _ _ [q ->]]; [by exists []; rewrite app_nil_r|].
  exists (name :: q). by rewrite <-app_assoc.
Qed.

Lemma file_below_prefix base name t p c :
  file_in (base ++ [name]) t p c → ∃ q, q ≠ [] ∧ p = base ++ q.
Proof.
  intros [q ->]%file_in_prefix. exists (name :: q). by rewrite <-app_assoc.
Qed.

(** What git documents: inside an ignored directory everything is ignored. *)
Definition ignores_below : Prop := ∀ d q,
  q ≠ [] → git_ignores (rel_of d) = true → git_ignores (rel_of (d ++ q)) = true.

Lemma admitted_entered d q :
  ignores_below → d ≠ [] → q ≠ [] → Forall plain_name (d ++ q) →
  (∀ name, last d = Some name → generated_name name = false) →
  admitted f git_ignores (rel_of (d ++ q)) = true → entered d = true.
Proof.
  intros Hig Hd Hq Hplain Hgen [Hidx Hign]%andb_true_iff. unfold entered.
  rewrite (indexable_descends f d q Hd Hq Hplain Hgen Hidx). cbn.
  destruct (git_ignores (rel_of d)) eqn:E; [|done]. by rewrite (Hig d q Hq E) in Hign.
Qed.

Lemma file_in_seen base t p c :
  ignores_below → base ≠ [] → Forall plain_name p →
  (∀ d name, dir_in base t d → last d = Some name → generated_name name = false) →
  admitted f git_ignores (rel_of p) = true → file_in base t p c → seen base t p c.
Proof.
  intros Hig Hbase Hplain Hgen Hadm Hin. revert Hbase Hplain Hgen Hadm.
  induction Hin as [base c|base l name t p c Hl Hin IH]; intros Hbase Hplain Hgen Hadm;
    [constructor|].
  destruct (file_below_prefix _ _ _ _ _ Hin) as (q & Hq & ->).
  eapply seen_below; [|exact Hl|].
  - apply (admitted_entered base q); try done. intros n Hn. eapply Hgen; [constructor|done].
  - apply IH; [by destruct base|done| |done].
    intros d n Hd. apply Hgen. by eapply dir_below.
Qed.

Lemma seen_file_in base t p c : seen base t p c → file_in base t p c.
Proof. induction 1; [constructor|by eapply file_below]. Qed.
End walk_spec.

(** The walk and the path filter agree on membership.  In a tree of plain names
    whose directories are not named like generated files, whatever the order the
    listings come in, a walk that succeeds reports exactly the regular files in a
    known language that the filter admits and git does not ignore: pruning a
    directory never hides one of them, [--include] prefixes below a skipped
    directory included. *)
Theorem walk_agrees_with_filter (f : IndexFilter) (git_ignores : string → bool)
    (l : list (string * Tree)) (s : SourceFiles) :
  let root := TDir (Some l) in
  ignores_below git_ignores →
  (∀ p c, file_in [] root p c → Forall plain_name p) →
  (∀ d name, dir_in [] root d → last d = Some name → generated_name name = false) →
  source_files f git_ignores root = Ok s →
  ∀ p lang, (p, lang) ∈ sf_files s ↔
    (∃ c, file_in [] root p c) ∧ (last p ≫= language_at) = Some lang ∧
    is_indexable f (rel_of p) = true ∧ git_ignores (rel_of p) = false.
Proof.
  intros root Hig Hplain Hgen Hs p lang.
  rewrite (source_files_spec f git_ignores l s Hs (p, lang)). unfold found, reported, admitted. cbn [fst snd].
  setoid_rewrite andb_true_iff. setoid_rewrite negb_true_iff. split.
  - intros (name & t & Hin & [c Hseen] & Hr). split; [|tauto]. exists c.
    eapply file_below; [done|]. by apply seen_file_in in Hseen.
  - intros [[c Hin] Hr]. inversion Hin as [|? ? name t ? ? Hl Ht]; subst.
    exists name, t. split_and!; [done| |tauto..]. exists c.
    apply file_in_seen; [done..|by eapply Hplain| | |done].
    + intros d n Hd. apply Hgen. by eapply dir_below.
    + unfold admitted. rewrite andb_true_iff, negb_true_iff. tauto.
Qed.

(** A directory named like a generated file hides admitted sources from the walk,
    though not from the filter. *)
Example generated_directory_hides_sources :
  let root := TDir (Some [("app.bundle.js", TDir (Some [("main.rs", TFile (Some "fn main() {}"))]))]) in
  is_indexable IndexFilter_default (rel_of ["app.bundle.js"; "main.rs"]) = true ∧
  source_files IndexFilter_default (λ _, false) root =
    Ok (mkSourceFiles [] (mkIgnored 0 1) (mkUnindexed 0 ∅)).
Proof. by vm_compute. Qed.

Definition sample_tree : list (string * Tree) :=
  [("vendor", TDir (Some [("lib", TDir (Some [("x.rs", TFile (Some "x"))])); ("y.rs", TFile None)]));
   ("main.rs", TFile (Some "main")); ("README", TFile None); ("link.rs", TLink (Some "main"))].

Ltac tree_cases := unfold sample_tree in *; repeat
  match goal with
  | H : _ ∈ _ :: _ |- _ => apply elem_of_cons in H as [[= -> ->]|H]
  | H : _ ∈ [] |- _ => by apply elem_of_nil in H
  | H : file_in _ _ _ _ |- _ => inversion H; clear H; subst
  | H : dir_in _ _ _ |- _ => inversion H; clear H; subst
  end.

Lemma walk_agrees_with_filter_witness :
  let f := IndexFilter_new ["vendor/lib/"] in
  ∃ s, source_files f (λ _, false) (TDir (Some sample_tree)) = Ok s ∧
    sf_files s = [(["main.rs"], Rust); (["vendor"; "lib"; "x.rs"], Rust)] ∧
    (((["vendor"; "lib"; "x.rs"], Rust) ∈ sf_files s) ↔
      (∃ c, file_in [] (TDir (Some sample_tree)) ["vendor"; "lib"; "x.rs"] c) ∧
      (last ["vendor"; "lib"; "x.rs"] ≫= language_at) = Some Rust ∧
      is_indexable f (rel_of ["vendor"; "lib"; "x.rs"]) = true ∧ false = false).
Proof.
  intros f. eexists. split; [by vm_compute|]. split; [done|].
  apply (walk_agrees_with_filter f (λ _, false) sample_tree).
  - done.
  - intros p c Hin. tree_cases; repeat constructor; done.
  - intros d name Hd. tree_cases; by intros [= <-].
  - by vm_compute.
Defined.
