(* ===== verification/Indexing.v ===== *)
(** * Indexing: building a view from a source tree

    Models the indexing half of [gonzalo-cli]'s [lib.rs]: the two drivers that
    decide what a view should hold, a full walk and a pass over git's changes;
    the run that commits the view's manifest and only then advances the
    persistent graph; and the check that the slices a manifest names are still
    there.  Parsing (tree-sitter, in a worker or in process), git and the source
    tree are arguments. *)

From S2P Require Export SqliteGraph SourceWalk Manifests Stores.

Definition EXTRACTION_VERSION : N := 13.

(** ** State *)

(** The files kept for a view beside its manifest: the graph, the base commit and
    the extraction format, as text already trimmed and parsed. *)
Record ViewFiles := mkViewFiles {
  vf_db : option Db;
  vf_base : option string;
  vf_fmt : option N
}.

(** [SqliteGraphStore::open] creates the tables of a new file. *)
Definition sq_open (file : option Db) : Db := default empty_db file.

Record GraphStaging := mkStaging { inserts : list (string * CodeGraph); removes : list string }.

Definition no_staging : GraphStaging := mkStaging [] [].

Definition stage_insert (rel : string) (slice : CodeGraph) (s : GraphStaging) : GraphStaging :=
  mkStaging (inserts s ++ [(rel, slice)]) (removes s).

Definition stage_remove (rel : string) (s : GraphStaging) : GraphStaging :=
  mkStaging (inserts s) (removes s ++ [rel]).

(** [GraphStaging::apply]: every insert, then every removal. *)
Definition apply_staging `{Sqlite} (s : GraphStaging) (db : Db) : Db :=
  foldl (λ db rel, sq_remove_path rel db)
    (foldl (λ db p, sq_insert p.1 p.2 db) db (inserts s)) (removes s).

Record DesiredView := mkDesired {
  dv_entries : gmap string ContentHash;
  dv_files : nat;
  dv_skipped : list string;
  dv_ignored : IgnoredCounts;
  dv_unindexed : UnindexedCounts;
  dv_incremental : bool
}.

Record IndexSummary := mkSummary {
  is_files : nat; is_added : nat; is_modified : nat; is_deleted : nat;
  is_skipped : nat; is_skipped_paths : list string;
  is_ignored : IgnoredCounts; is_unindexed : UnindexedCounts; is_incremental : bool
}.

(** git's answer, [diff.rs]. *)
Record ChangedPaths := mkChanged {
  ch_added : list string; ch_modified : list string; ch_deleted : list string
}.

Inductive IndexError :=
  | CoreFailure (e : CoreError)
  | WalkFailed (e : string)
  | Unreadable (path : string)
  | ChangedConcurrently
  | Unrestorable (path : string) (hash : ContentHash)
  | RestoredElsewhere (path : string) (got want : ContentHash).

Section indexing.
Context `{Blake3, ManifestSerde, SliceSerde, Sqlite} {W : Type}.
Context (store : Store W) (blobs : BlobStore W).
Context (parse_file : Language → string → option CodeGraph).
Context (f : IndexFilter) (git_ignores : string → bool) (root : Tree).

(** [?] on a call of the store. *)
Definition on_store {A} (m : M W CoreError A) : M W IndexError A := λ w,
  let '(r, w) := m w in (map_err CoreFailure r, w).

(** [store.put_blob(&slice.to_slice_bytes())]. *)
Definition put_slice (slice : CodeGraph) : M W IndexError ContentHash :=
  on_store (bs_put_blob blobs (to_slice_bytes slice)).

(** ** The full walk *)

(** What the loop carries. *)
Record Building := mkBuilding {
  bd_desired : gmap string ContentHash;
  bd_staging : GraphStaging;
  bd_files : nat;
  bd_skipped : list string;
  bd_ignored : nat;
  bd_unindexed : UnindexedCounts
}.

Definition with_skipped (rel : string) (b : Building) : Building :=
  mkBuilding (bd_desired b) (bd_staging b) (bd_files b) (bd_skipped b ++ [rel]) (bd_ignored b)
    (bd_unindexed b).

(** A slice stored: staged for the graph, entered in the view. *)
Definition with_slice (rel : string) (slice : CodeGraph) (hash : ContentHash) (b : Building) :
    Building :=
  mkBuilding (<[rel := hash]> (bd_desired b)) (stage_insert rel slice (bd_staging b))
    (S (bd_files b)) (bd_skipped b) (bd_ignored b) (bd_unindexed b).

(** [if desired.remove(rel).is_some() { staging.removes.push(rel) }]. *)
Definition without (rel : string) (b : Building) : Building :=
  match bd_desired b !! rel with
  | Some _ =>
      mkBuilding (delete rel (bd_desired b)) (stage_remove rel (bd_staging b)) (bd_files b)
        (bd_skipped b) (bd_ignored b) (bd_unindexed b)
  | None => b
  end.

Definition one_ignored (b : Building) : Building :=
  mkBuilding (bd_desired b) (bd_staging b) (bd_files b) (bd_skipped b) (S (bd_ignored b))
    (bd_unindexed b).

Definition one_unindexed (extension : option string) (b : Building) : Building :=
  mkBuilding (bd_desired b) (bd_staging b) (bd_files b) (bd_skipped b) (bd_ignored b)
    (record_unindexed (bd_unindexed b) extension).

Definition build_file (b : Building) (source : list string * Language) : M W IndexError Building :=
  let '(p, language) := source in
  let rel := rel_of p in
  match read_at root p with
  | None => throw (Unreadable rel)
  | Some content =>
      match parse_file language content with
      | None => mret (with_skipped rel b)
      | Some slice => hash ← put_slice slice; mret (with_slice rel slice hash b)
      end
  end.

Definition empty_building : Building := mkBuilding ∅ no_staging 0 [] 0 (mkUnindexed 0 ∅).

Definition build_desired_full : M W IndexError (DesiredView * GraphStaging) :=
  found ← lift (map_err WalkFailed (source_files f git_ignores root));
  b ← foldM build_file empty_building (sf_files found);
  mret (mkDesired (bd_desired b) (size (bd_desired b)) (bd_skipped b) (sf_ignored found)
          (sf_unindexed found) false, bd_staging b).

(** ** The pass over git's changes *)

(** One path git reports added or modified. *)
Definition build_changed (b : Building) (rel : string) : M W IndexError Building :=
  if negb (is_indexable f rel) then mret (one_ignored (without rel b))
  else
    match path_extension rel ≫= from_extension with
    | None => mret (one_unindexed (path_extension rel) b)
    | Some language =>
        match read_at root (components_of rel) with
        | None => mret (without rel b)
        | Some content =>
            match parse_file language content with
            | None => mret (with_skipped rel b)
            | Some slice => hash ← put_slice slice; mret (with_slice rel slice hash b)
            end
        end
    end.

(** [desired.remove(&rel); staging.removes.push(rel); ignored.files += 1]. *)
Definition drop_stale (b : Building) (rel : string) : Building :=
  mkBuilding (delete rel (bd_desired b)) (stage_remove rel (bd_staging b)) (bd_files b)
    (bd_skipped b) (S (bd_ignored b)) (bd_unindexed b).

Definition build_desired_incremental (current : manifest) (changed : ChangedPaths) :
    M W IndexError (DesiredView * GraphStaging) :=
  let start := mkBuilding (entries current) no_staging 0 [] 0 (mkUnindexed 0 ∅) in
  let healed := foldl drop_stale start
                  (stale_entries f git_ignores (btree_keys (entries current))) in
  b ← foldM build_changed healed (ch_added changed ++ ch_modified changed);
  let b := foldl (λ b rel, without rel b) b (ch_deleted changed) in
  mret (mkDesired (bd_desired b) (bd_files b) (bd_skipped b) (mkIgnored (bd_ignored b) 0)
          (bd_unindexed b) true, bd_staging b).

(** ** After the commit *)

(** Each slice a manifest newly names is present, or stored again. *)
Definition ensure_slices_present (wanted : list (string * ContentHash)) (staging : GraphStaging) :
    M W IndexError nat :=
  foldM (λ restored '(path, hash),
    present ← on_store (bs_has_blob blobs hash);
    if (present : bool) then mret restored
    else match list_find (λ p, p.1 = path) (inserts staging) with
         | None => throw (Unrestorable path hash)
         | Some (_, (_, slice)) =>
             put ← put_slice slice;
             if decide (put = hash) then mret (S restored)
             else throw (RestoredElsewhere path put hash)
         end) 0 wanted.

(** ** One run *)

Definition index_meta : Meta := mkMeta (Identity_new "gonzalo-index") "gonzalo-index" 0 0 ∅.

(** The manifest record, and what the write expects. *)
Definition manifest_record (key : RecordKey) (existing : option record) (body : Body) :
    record * option Revision :=
  let '(revision, expected) :=
    match existing with
    | Some r => (Revision_next (rec_revision r) (body_bytes body), Some (rec_revision r))
    | None => (Revision_initial (body_bytes body), None)
    end in
  (mkRecord key GraphManifest revision expected body index_meta [] [] None None None, expected).

Definition newly_referenced (recon : Reconciliation) : list (string * ContentHash) :=
  omap (λ p, (λ h, (p, h)) <$> Manifest_get (reconciled recon) p) (added recon ++ modified recon).

(** git as the run uses it. *)
Context (changed_paths : string → option ChangedPaths) (head_commit : option string).

(** [worker] is what the parse worker says its extraction version is, if one is
    used. *)
Definition parse_version (worker : option (option N)) : N :=
  match worker with Some reported => default 0%N reported | None => EXTRACTION_VERSION end.

(** The changes to go by: a base commit was recorded, by a run whose parser
    recorded the same things, and its diff is readable. *)
Definition incremental_changes (version : N) (files : ViewFiles) : option ChangedPaths :=
  if decide (vf_fmt files = Some version) then
    base ← vf_base files;
    if decide (base = "") then None else changed_paths base
  else None.

(** Everything up to the manifest's commit. *)
Definition commit_manifest (repo view : string) (version : N) (files : ViewFiles) :
    M W IndexError (DesiredView * GraphStaging * Reconciliation) :=
  let key := Manifest_key repo view in
  existing ← on_store (st_get store key);
  current ← match existing with
            | Some r => lift (map_err CoreFailure (Manifest_from_body (rec_body r)))
            | None => mret Manifest_new
            end;
  built ← match incremental_changes version files with
          | Some changed => build_desired_incremental current changed
          | None => build_desired_full
          end;
  let '(desired, staging) := built in
  let recon := Manifest_reconcile current (dv_entries desired) in
  let staging := mkStaging (inserts staging) (removes staging ++ deleted recon) in
  let '(r, expected) := manifest_record key existing (Manifest_to_body (reconciled recon)) in
  put ← on_store (st_put store r expected);
  match put with
  | Committed _ => mret (desired, staging, recon)
  | PutConflicted _ => throw ChangedConcurrently
  end.

(** [index_with_worker]: the graph file is opened first and advanced last. *)
Definition index_with_worker (repo view : string) (worker : option (option N)) :
    M (W * ViewFiles) IndexError IndexSummary := λ '(w, files),
  let version := parse_version worker in
  let db := sq_open (vf_db files) in
  let opened := mkViewFiles (Some db) (vf_base files) (vf_fmt files) in
  match (committed ← commit_manifest repo view version opened;
         let '(desired, staging, recon) := committed in
         restored ← ensure_slices_present (newly_referenced recon) staging;
         mret committed) w with
  | (Err e, w) => (Err e, (w, opened))
  | (Ok (desired, staging, recon), w) =>
      (Ok (mkSummary (dv_files desired) (length (added recon)) (length (modified recon))
             (length (deleted recon)) (length (dv_skipped desired)) (dv_skipped desired)
             (dv_ignored desired) (dv_unindexed desired) (dv_incremental desired)),
       (w, mkViewFiles (Some (apply_staging staging db))
             (match head_commit with Some sha => Some sha | None => vf_base files end)
             (Some version)))
  end.
End indexing.
