(* ===== verification/IndexDrivers.v ===== *)
(** * IndexDrivers: the full walk and the incremental pass build the same view

    What each of [Indexing]'s drivers stores, stages and desires, path by path, and
    the theorem that the two agree. *)

From S2P Require Export Indexing.

(** ** Trees as the filesystem has them *)

(** Every directory is readable, its names are plain and distinct, and no
    directory is named like a generated file. *)
Inductive tree_ok : Tree → Prop :=
  | ok_file c : tree_ok (TFile c)
  | ok_link c : tree_ok (TLink c)
  | ok_dir l : NoDup l.*1 →
      (∀ name t, (name, t) ∈ l → plain_name name ∧ tree_ok t ∧
         match t with TDir _ => generated_name name = false | _ => True end) →
      tree_ok (TDir (Some l)).

Lemma node_at_file_in t base q c :
  tree_ok t → (file_in base t (base ++ q) c ↔ node_at t q = Some (TFile c)).
Proof.
  revert base q. induction t as [c0| |l IH|c0] using Tree_nested_ind; intros base q Hok.
  - split; [|destruct q as [|x q]; cbn; [intros [= ->]; rewrite app_nil_r; constructor|done]].
    intros Hin. assert (base ++ q = base ++ [] ∧ c0 = c) as [->%app_inv_head ->]; [|done].
    rewrite app_nil_r. split; inversion Hin; congruence.
  - inversion Hok.
  - inversion Hok as [| |? Hnd Hall]; subst. rewrite Forall_forall in IH.
    assert (∀ name t, (name, t) ∈ l → ∀ q',
      file_in (base ++ [name]) t (base ++ name :: q') c ↔ node_at t q' = Some (TFile c)) as Hsub.
    { intros name t Hin q'. destruct (Hall name t Hin) as (_ & Ht & _).
      rewrite <-(IH _ Hin (base ++ [name]) q' Ht). by rewrite <-app_assoc. }
    split.
    + intros Hin. inversion Hin as [|? ? name t ? ? Hl Ht]; subst.
      destruct (file_in_prefix _ _ _ _ Ht) as [q' Hq]. rewrite <-app_assoc in Hq.
      apply app_inv_head in Hq as ->. apply (Hsub name t Hl) in Ht. cbn.
      destruct (list_find_elem_of (λ nt : string * Tree, nt.1 = name) l (name, t) Hl eq_refl)
        as [[i [n' t']] Hf]. rewrite Hf. cbn.
      apply list_find_Some in Hf as (Hi & Hn & _). cbn in Hn. subst.
      apply list_elem_of_lookup_2 in Hi.
      assert ((name, t') = (name, t)) as [= ->] by (by apply (NoDup_fmap_inj fst l)). done.
    + destruct q as [|x q]; cbn; [done|].
      destruct (list_find _ l) as [[i [n t]]|] eqn:Hf; cbn; [|done]. intros Hn.
      apply list_find_Some in Hf as (Hi & Hx & _). cbn in Hx. subst.
      apply list_elem_of_lookup_2 in Hi. eapply file_below; [exact Hi|]. by apply Hsub.
  - split; [intros Hin; inversion Hin|]. by destruct q.
Qed.

Lemma tree_ok_plain t base q c :
  tree_ok t → Forall plain_name base → file_in base t (base ++ q) c → Forall plain_name (base ++ q).
Proof.
  intros Hok Hbase Hin. revert Hok Hbase. generalize (base ++ q) Hin. clear.
  induction 1 as [base c|base l name t p c Hl Hin IH]; intros Hok Hbase; [done|].
  inversion Hok as [| |? _ Hall]; subst. destruct (Hall name t Hl) as (Hn & Ht & _).
  apply IH; [done|]. apply Forall_app. by split; [|apply Forall_singleton].
Qed.

Lemma tree_ok_dirs t base d name :
  tree_ok t → (match t with TDir _ => ∀ n, last base = Some n → generated_name n = false
                          | _ => True end) →
  dir_in base t d → last d = Some name → generated_name name = false.
Proof.
  intros Hok Hb Hd. revert Hok Hb. induction Hd as [base l|base l n t p Hl Hin IH]; intros Hok Hb Hn.
  - by apply Hb.
  - inversion Hok as [| |? _ Hall]; subst. destruct (Hall n t Hl) as (_ & Ht & Hg).
    apply IH; [done| |done]. destruct t; try done. intros n' Hn'. rewrite last_snoc in Hn'.
    by injection Hn' as <-.
Qed.

(** ** What a view of a tree is *)

Section view.
Context (parse_file : Language → string → option CodeGraph).
Context (f : IndexFilter) (git_ignores : string → bool).

(** The regular file at a path. *)
Definition regular_at (t : Tree) (rel : string) : option (option string) :=
  match node_at t (split_char slash_char rel) with Some (TFile c) => Some c | _ => None end.

(** The slice the view of a tree holds for a path. *)
Definition view_entry (t : Tree) (rel : string) : option CodeGraph :=
  if admitted f git_ignores rel then
    content ← regular_at t rel; text ← content;
    lang ← last (split_char slash_char rel) ≫= language_at;
    parse_file lang text
  else None.

Lemma walked_file (l : list (string * Tree)) (s : SourceFiles) p lang :
  tree_ok (TDir (Some l)) → ignores_below git_ignores →
  source_files f git_ignores (TDir (Some l)) = Ok s →
  (p, lang) ∈ sf_files s ↔ p ≠ [] ∧ Forall plain_name p ∧
    (∃ c, node_at (TDir (Some l)) p = Some (TFile c)) ∧
    (last p ≫= language_at) = Some lang ∧ admitted f git_ignores (rel_of p) = true.
Proof.
  intros Hok Hig Hs. rewrite (source_files_spec f git_ignores l s Hs (p, lang)).
  unfold found, reported. cbn [fst snd]. split.
  - intros (name & t & Hin & [c Hseen%seen_file_in] & Hr).
    assert (file_in [] (TDir (Some l)) ([] ++ p) c) as Hf by (by eapply file_below).
    split_and!; [|by eapply (tree_ok_plain _ [])| |apply Hr|apply Hr].
    + destruct (file_in_prefix _ _ _ _ Hseen) as [q ->]. done.
    + exists c. by apply (node_at_file_in _ [] p c Hok).
  - intros (Hp & Hplain & [c Hc] & Hr). apply (node_at_file_in _ [] p c Hok) in Hc.
    cbn [app] in Hc. inversion Hc as [|? ? name t ? ? Hl Ht]; subst.
    exists name, t. split_and!; [done| |tauto..]. exists c.
    inversion Hok as [| |? _ Hall]; subst. destruct (Hall name t Hl) as (_ & Hokt & Hg).
    apply file_in_seen; [done..| |tauto|done].
    intros d n. apply tree_ok_dirs; [done|]. destruct t; try done.
    intros n' Hn'. cbn in Hn'. by injection Hn' as <-.
Qed.

(** A walked file is the view's entry for its path, once read and parsed. *)
Lemma walked_entry t p lang c :
  p ≠ [] → Forall plain_name p → node_at t p = Some (TFile c) →
  (last p ≫= language_at) = Some lang → admitted f git_ignores (rel_of p) = true →
  view_entry t (rel_of p) = (text ← c; parse_file lang text).
Proof.
  intros Hp Hplain Hn Hl Ha. unfold view_entry, regular_at. rewrite Ha.
  rewrite split_rel_of by done. rewrite Hn, Hl. by destruct c.
Qed.

Lemma rel_of_inj p q :
  p ≠ [] → q ≠ [] → Forall plain_name p → Forall plain_name q → rel_of p = rel_of q → p = q.
Proof.
  intros Hp Hq Hpp Hpq Heq. rewrite <-(split_rel_of p), <-(split_rel_of q) by done. by rewrite Heq.
Qed.

(** The paths of a good tree are plain. *)
Lemma node_at_plain t q c :
  tree_ok t → node_at t q = Some (TFile c) → Forall plain_name q.
Proof.
  intros Hok Hn. apply (node_at_file_in t [] q c Hok) in Hn.
  exact (tree_ok_plain t [] q c Hok (Forall_nil_2 _) Hn).
Qed.

Lemma view_entry_path l rel g :
  tree_ok (TDir (Some l)) → view_entry (TDir (Some l)) rel = Some g →
  ∃ p c lang, p ≠ [] ∧ Forall plain_name p ∧ rel_of p = rel ∧
    node_at (TDir (Some l)) p = Some (TFile (Some c)) ∧
    (last p ≫= language_at) = Some lang ∧ admitted f git_ignores rel = true ∧
    parse_file lang c = Some g.
Proof.
  intros Hok. unfold view_entry, regular_at. destruct (admitted _ _ _) eqn:Ha; [|done].
  set (p := split_char slash_char rel). destruct (node_at _ p) as [[c| |]|] eqn:Hn; try done.
  cbn. destruct c as [c|]; [|done]. cbn.
  destruct (last p ≫= language_at) as [lang|] eqn:Hl; [|done]. cbn. intros Hg.
  assert (Forall plain_name p) as Hplain by (by eapply node_at_plain).
  exists p, c, lang. split_and!; try done.
  - apply split_char_not_nil.
  - rewrite rel_of_plain by done. apply concat_split_char.
Qed.
End view.

(** ** Storing slices *)

Lemma elem_of_snoc {A} (x y : A) l : x ∈ l ++ [y] ↔ x ∈ l ∨ x = y.
Proof. by rewrite elem_of_app, list_elem_of_singleton. Qed.

(** A new element that lacks the property adds nothing. *)
Lemma snoc_other {A} (P : A → Prop) l (x y : A) :
  ¬ P y → (x ∈ l ∧ P x) ↔ (x ∈ l ++ [y] ∧ P x).
Proof. intros Hy. rewrite elem_of_snoc. split; [tauto|]. by intros [[?| ->] ?]. Qed.

Lemma decide_snoc {A B} `{EqDecision A} (x y : A) l (a b : B) : x ≠ y →
  (if decide (x ∈ l ++ [y]) then a else b) = if decide (x ∈ l) then a else b.
Proof. intros Hne. apply decide_ext. rewrite elem_of_snoc. tauto. Qed.

Lemma decide_snoc_eq {A B} `{EqDecision A} (y : A) l (a b : B) :
  (if decide (y ∈ l ++ [y]) then a else b) = a.
Proof. apply decide_True, elem_of_snoc. by right. Qed.

Section runs.
Context `{Blake3, ManifestSerde, SliceSerde, Sqlite} {W F : Type}.
Context (store : Store W) (blobs : BlobStore W).
Context (contents : W → records) (bl : W → gmap ContentHash (bytes * Z)) (rest : W → F).
Context (cap : nat).
Context `{!StoreLaws store contents cap (λ w, (bl w, rest w))}.
Context `{!BlobStoreLaws blobs bl (λ w, (contents w, rest w))}.
(** No two contents in play share a hash. *)
Context (collision_free : ∀ b b' : bytes, ContentHash_of b = ContentHash_of b' → b = b').
Context (parse_file : Language → string → option CodeGraph).
Context (f : IndexFilter) (git_ignores : string → bool) (l : list (string * Tree)).

Notation root := (TDir (Some l)).
Notation entry := (view_entry parse_file f git_ignores root).

Definition slice_hash (g : CodeGraph) : ContentHash := ContentHash_of (to_slice_bytes g).

Definition holds_slice (w : W) (g : CodeGraph) : Prop :=
  ∃ t, bl w !! slice_hash g = Some (to_slice_bytes g, t).

(** Every blob is stored under its content's hash. *)
Definition blobs_ok (w : W) : Prop := ∀ h c t, bl w !! h = Some (c, t) → ContentHash_of c = h.

(** Only blobs are added. *)
Definition grows (w w' : W) : Prop :=
  contents w' = contents w ∧ rest w' = rest w ∧ (blobs_ok w → blobs_ok w') ∧
  ∀ h x, bl w !! h = Some x → bl w' !! h = Some x.

#[export] Instance grows_preorder : PreOrder grows.
Proof.
  split; [by intros w; split_and!|]. intros w1 w2 w3 (C1 & R1 & O1 & B1) (C2 & R2 & O2 & B2).
  split_and!; [congruence|congruence|auto|auto].
Qed.

Lemma holds_slice_grows w w' g : grows w w' → holds_slice w g → holds_slice w' g.
Proof. intros (_ & _ & _ & Hb) [t Ht]. exists t. by apply Hb. Qed.

Lemma put_slice_spec g w : blobs_ok w → ∃ w',
  put_slice blobs g w = (Ok (slice_hash g), w') ∧ grows w w' ∧ holds_slice w' g.
Proof.
  intros Hok. unfold put_slice, on_store.
  destruct (law_put_blob (b := blobs) (to_slice_bytes g) w) as (w' & t & -> & Hf & Hb).
  exists w'. split; [done|]. injection Hf as Hc Hr. fold (slice_hash g) in Hb.
  destruct (bl w !! slice_hash g) as [[c t']|] eqn:E.
  - split; [split_and!; [done|done|by unfold blobs_ok; rewrite Hb|by rewrite Hb]|].
    exists t'. rewrite Hb, E. pose proof (Hok _ _ _ E) as Hh. apply collision_free in Hh.
    by subst.
  - split; [split_and!; [done|done| |]|].
    + intros _ h c t'. rewrite Hb. intros [[<- [= <- <-]]|[_ Hl]]%lookup_insert_Some; [done|].
      by eapply Hok.
    + intros h x Hx. rewrite Hb, lookup_insert_ne; [done|]. intros <-. congruence.
    + exists t. rewrite Hb. apply lookup_insert_eq.
Qed.

(** ** The full walk's loop *)

(** After the files at [done], in full. *)
Definition full_inv (done : list string) (b : Building) (w : W) : Prop :=
  (∀ rel, bd_desired b !! rel = if decide (rel ∈ done) then slice_hash <$> entry rel else None) ∧
  (∀ rel g, (rel, g) ∈ inserts (bd_staging b) ↔ rel ∈ done ∧ entry rel = Some g) ∧
  removes (bd_staging b) = [] ∧
  ∀ rel g, (rel, g) ∈ inserts (bd_staging b) → holds_slice w g.

Lemma full_inv_store done b w w' rel g :
  full_inv done b w → entry rel = Some g → grows w w' → holds_slice w' g →
  full_inv (done ++ [rel]) (with_slice rel g (slice_hash g) b) w'.
Proof.
  intros (Hd & Hi & Hr & Hh) He Hg Hs. split_and!; cbn.
  - intros r. destruct (decide (r = rel)) as [->|Hne].
    + by rewrite lookup_insert_eq, decide_snoc_eq, He.
    + by rewrite lookup_insert_ne, decide_snoc.
  - intros r g'. rewrite !elem_of_snoc, Hi. naive_solver.
  - done.
  - intros r g' [Hin|[= -> ->]]%elem_of_snoc; [by eapply holds_slice_grows, Hh|done].
Qed.

Lemma full_inv_skip done b w rel :
  full_inv done b w → entry rel = None → full_inv (done ++ [rel]) (with_skipped rel b) w.
Proof.
  intros (Hd & Hi & Hr & Hh) He. split_and!; cbn; [| |done|done].
  - intros r. rewrite Hd. destruct (decide (r = rel)) as [->|Hne]; [|by rewrite decide_snoc].
    rewrite decide_snoc_eq, He. by case_decide.
  - intros r g'. rewrite elem_of_snoc, Hi. naive_solver.
Qed.

(** A list of walked files: plain and admitted. *)
Definition walk_list (L : list (list string * Language)) : Prop :=
  ∀ p lang, (p, lang) ∈ L → p ≠ [] ∧ Forall plain_name p ∧
    (∃ c, node_at root p = Some (TFile c)) ∧
    (last p ≫= language_at) = Some lang ∧ admitted f git_ignores (rel_of p) = true.

Lemma full_loop L b w done :
  walk_list L → blobs_ok w → full_inv done b w → ∃ r w',
  foldM (build_file blobs parse_file root) b L w = (r, w') ∧ grows w w' ∧
  match r with
  | Ok b' => full_inv (done ++ (rel_of ∘ fst <$> L)) b' w'
  | Err e => ∃ p, (∃ lang, (p, lang) ∈ L) ∧ node_at root p = Some (TFile None) ∧
      e = Unreadable (rel_of p)
  end.
Proof.
  revert b w done. induction L as [|[p lang] L IH]; intros b w done HL Hok Hinv.
  { exists (Ok b), w. rewrite app_nil_r. split_and!; done. }
  rewrite foldM_cons. destruct (HL p lang ltac:(left)) as (Hp & Hpl & [c Hc] & Hlang & Ha).
  pose proof (walked_entry parse_file f git_ignores root p lang c Hp Hpl Hc Hlang Ha) as Hent.
  assert (walk_list L) as HwL.
  { intros q lg Hq. apply (HL q lg). by right. }
  unfold build_file at 1. unfold read_at. rewrite Hc. destruct c as [text|].
  2: { exists (Err (Unreadable (rel_of p))), w. split_and!; [done|done|].
       exists p. split_and!; [exists lang; left|done|done]. }
  cbn in Hent. destruct (parse_file lang text) as [g|].
  - destruct (put_slice_spec g w Hok) as (w1 & Hput & Hg & Hs).
    unfold mbind at 1, M_bind at 1. rewrite Hput. cbn.
    destruct (IH (with_slice (rel_of p) g (slice_hash g) b) w1 (done ++ [rel_of p]))
      as (r & w' & Hrun & Hg' & Hr); [done|by apply Hg|by eapply full_inv_store|].
    exists r, w'. split; [done|]. split; [by etrans|]. destruct r as [b'|e].
    + by rewrite <-app_assoc in Hr.
    + destruct Hr as (q & [lg Hq] & Hr). exists q. split; [exists lg; by right|done].
  - cbn. destruct (IH (with_skipped (rel_of p) b) w (done ++ [rel_of p]))
      as (r & w' & Hrun & Hg' & Hr); [done|done|by apply full_inv_skip|].
    exists r, w'. split; [done|]. split; [done|]. destruct r as [b'|e].
    + by rewrite <-app_assoc in Hr.
    + destruct Hr as (q & [lg Hq] & Hr). exists q. split; [exists lg; by right|done].
Qed.

(** A readable tree is walked to the end. *)
Lemma visit_ok t dir name acc :
  tree_ok t → ∃ acc', visit f git_ignores dir name t acc = Ok acc'.
Proof.
  intros Hok. revert dir name acc.
  induction t as [c| |es IH|c] using Tree_nested_ind; intros dir name acc; cbn [visit].
  1, 4: by eexists.
  - inversion Hok.
  - destruct (negb _ || _); [by eexists|]. inversion Hok as [| |? _ Hall]; subst.
    set (p := dir ++ [name]). clearbody p. clear Hok. revert acc.
    induction IH as [|[n t] es Ht _ IHes]; intros acc; [by eexists|].
    destruct (Hall n t ltac:(left)) as (_ & Hokt & _).
    destruct (Ht Hokt p n acc) as [mid Hmid]. cbn in Hmid. rewrite Hmid. cbn.
    apply IHes. intros n' t' Hin. apply Hall. by right.
Qed.

Lemma source_files_ok : tree_ok root → ∃ s, source_files f git_ignores root = Ok s.
Proof.
  intros Hok. inversion Hok as [| |? _ Hall]; subst. unfold source_files.
  assert (∀ acc, ∃ acc', source_files_inner f git_ignores [] l acc = Ok acc') as Hgo.
  { clear Hok. induction l as [|[n t] es IH]; intros acc; [by eexists|].
    destruct (Hall n t ltac:(left)) as (_ & Hokt & _).
    destruct (visit_ok t [] n acc Hokt) as [mid Hmid]. cbn. rewrite Hmid. cbn.
    apply IH. intros n' t' Hin. apply Hall. by right. }
  destruct (Hgo no_files) as [acc ->]. by eexists.
Qed.

(** A regular file the walk reports and cannot read. *)
Definition unreadable_source (p : list string) : Prop :=
  node_at root p = Some (TFile None) ∧ p ≠ [] ∧ is_Some (last p ≫= language_at) ∧
  admitted f git_ignores (rel_of p) = true.

Lemma build_full_spec w :
  tree_ok root → ignores_below git_ignores → blobs_ok w → ∃ r w',
  build_desired_full blobs parse_file f git_ignores root w = (r, w') ∧ grows w w' ∧
  match r with
  | Ok (dv, st) =>
      (∀ rel, dv_entries dv !! rel = slice_hash <$> entry rel) ∧
      (∀ rel g, (rel, g) ∈ inserts st ↔ entry rel = Some g) ∧ removes st = [] ∧
      ∀ rel g, (rel, g) ∈ inserts st → holds_slice w' g
  | Err e => ∃ p, unreadable_source p ∧ e = Unreadable (rel_of p)
  end.
Proof.
  intros Hok Hig Hblobs. destruct (source_files_ok Hok) as [s Hs].
  pose proof (λ p lang, walked_file parse_file f git_ignores l s p lang Hok Hig Hs) as Hwalk.
  assert (full_inv [] empty_building w) as Hinit.
  { split_and!; cbn; [done| |done|by intros ?? ?%elem_of_nil].
    intros rel g. rewrite elem_of_nil. split; [done|by intros [?%elem_of_nil _]]. }
  assert (walk_list (sf_files s)) as Hwl by (by intros p lang Hin%Hwalk).
  destruct (full_loop (sf_files s) empty_building w [] Hwl Hblobs Hinit)
    as (r & w' & Hrun & Hg & Hr).
  unfold build_desired_full. rewrite Hs. unfold mbind at 1, M_bind at 1. cbn [lift map_err].
  unfold mbind, M_bind. rewrite Hrun. destruct r as [b|e].
  - exists (Ok (mkDesired (bd_desired b) (size (bd_desired b)) (bd_skipped b) (sf_ignored s)
      (sf_unindexed s) false, bd_staging b)), w'. split; [done|]. split; [done|].
    destruct Hr as (Hd & Hi & Hrm & Hh). cbn [app] in *.
    assert (∀ rel g, entry rel = Some g → rel ∈ rel_of ∘ fst <$> sf_files s) as Hall.
    { intros rel g He. destruct (view_entry_path _ _ _ _ _ _ Hok He)
        as (p & c & lang & Hp & Hpl & <- & Hn & Hl & Ha & _).
      apply list_elem_of_fmap. exists (p, lang). split; [done|]. apply Hwalk.
      split_and!; try done. by eexists. }
    cbn. split_and!; [| |done|done].
    + intros rel. rewrite Hd. case_decide as Hin; [done|].
      destruct (entry rel) eqn:He; [|done]. by apply Hall in He.
    + intros rel g. rewrite Hi. split; [by intros [_ ?]|]. intros He. split; [by eapply Hall|done].
  - exists (Err e), w'. split; [done|]. split; [done|]. destruct Hr as (p & [lang Hin] & Hn & ->).
    exists p. apply Hwalk in Hin as (Hp & _ & _ & Hl & Ha). split; [|done].
    split_and!; [done|done|by eexists|done].
Qed.

(** ** The incremental loop *)

(** What the pass makes of a reported path. *)
Inductive Outcome := OKeep | ODrop | OStore (g : CodeGraph).

Definition outcome (rel : string) : Outcome :=
  if negb (is_indexable f rel) then ODrop
  else match path_extension rel ≫= from_extension with
       | None => OKeep
       | Some language =>
           match read_at root (components_of rel) with
           | None => ODrop
           | Some content =>
               match parse_file language content with None => OKeep | Some g => OStore g end
           end
       end.

Definition after (o : Outcome) (before : option ContentHash) : option ContentHash :=
  match o with OKeep => before | ODrop => None | OStore g => Some (slice_hash g) end.

Definition inc_inv (b0 : Building) (done : list string) (b : Building) (w : W) : Prop :=
  (∀ rel, bd_desired b !! rel =
     if decide (rel ∈ done) then after (outcome rel) (bd_desired b0 !! rel)
     else bd_desired b0 !! rel) ∧
  (∀ rel g, (rel, g) ∈ inserts (bd_staging b) ↔ rel ∈ done ∧ outcome rel = OStore g) ∧
  (∀ rel, rel ∈ removes (bd_staging b) ↔ rel ∈ removes (bd_staging b0) ∨
     rel ∈ done ∧ outcome rel = ODrop ∧ is_Some (bd_desired b0 !! rel)) ∧
  ∀ rel g, (rel, g) ∈ inserts (bd_staging b) → holds_slice w g.

Lemma inc_inv_keep b0 done b w rel :
  inc_inv b0 done b w → outcome rel = OKeep → inc_inv b0 (done ++ [rel]) b w.
Proof.
  intros (Hd & Hi & Hr & Hh) Ho. split_and!; [| | |done].
  - intros r. rewrite Hd. destruct (decide (r = rel)) as [->|Hne]; [|by rewrite decide_snoc].
    rewrite decide_snoc_eq, Ho. by case_decide.
  - intros r g. rewrite Hi. apply (snoc_other (λ r, outcome r = OStore g)). by rewrite Ho.
  - intros r. rewrite Hr. f_equiv.
    apply (snoc_other (λ r, outcome r = ODrop ∧ is_Some (bd_desired b0 !! r))). by rewrite Ho; intros [].
Qed.

Lemma inc_inv_drop b0 done b w rel :
  inc_inv b0 done b w → outcome rel = ODrop → inc_inv b0 (done ++ [rel]) (without rel b) w.
Proof.
  intros (Hd & Hi & Hr & Hh) Ho. unfold without.
  destruct (bd_desired b !! rel) as [h|] eqn:E.
  - assert (rel ∉ done ∧ is_Some (bd_desired b0 !! rel)) as [Hout Hb0].
    { rewrite Hd in E. case_decide; [by rewrite Ho in E|]. split; [done|by eexists]. }
    split_and!; cbn; [| | |done].
    + intros r. destruct (decide (r = rel)) as [->|Hne].
      * by rewrite lookup_delete_eq, decide_snoc_eq, Ho.
      * by rewrite lookup_delete_ne, decide_snoc.
    + intros r g. rewrite Hi. apply (snoc_other (λ r, outcome r = OStore g)). by rewrite Ho.
    + intros r. rewrite elem_of_snoc, Hr, elem_of_snoc.
      split; [intros [[?|?]| ->]; tauto|intros [?|([?| ->] & ?)]; tauto].
  - assert (rel ∈ done ∨ bd_desired b0 !! rel = None) as Hb0.
    { rewrite Hd in E. case_decide; tauto. }
    split_and!; [| | |done].
    + intros r. destruct (decide (r = rel)) as [->|Hne]; [|by rewrite Hd, decide_snoc].
      by rewrite decide_snoc_eq, Ho.
    + intros r g. rewrite Hi. apply (snoc_other (λ r, outcome r = OStore g)). by rewrite Ho.
    + intros r. rewrite Hr, elem_of_snoc. split; [tauto|].
      intros [?|([?| ->] & ? & [h Hs])]; [by left|right; by split_and!|].
      destruct Hb0; [right; by split_and!|congruence].
Qed.

Lemma inc_inv_store b0 done b w w' rel g :
  inc_inv b0 done b w → outcome rel = OStore g → grows w w' → holds_slice w' g →
  inc_inv b0 (done ++ [rel]) (with_slice rel g (slice_hash g) b) w'.
Proof.
  intros (Hd & Hi & Hr & Hh) Ho Hg Hs. split_and!; cbn.
  - intros r. destruct (decide (r = rel)) as [->|Hne].
    + by rewrite lookup_insert_eq, decide_snoc_eq, Ho.
    + by rewrite lookup_insert_ne, decide_snoc.
  - intros r g'. rewrite !elem_of_snoc, Hi. split; [intros [?|[= -> ->]]; tauto|].
    intros [[?| ->] ?]; [tauto|right; congruence].
  - intros r. rewrite Hr. f_equiv.
    apply (snoc_other (λ r, outcome r = ODrop ∧ is_Some (bd_desired b0 !! r))). by rewrite Ho; intros [].
  - intros r g' [Hin|[= -> ->]]%elem_of_snoc; [by eapply holds_slice_grows, Hh|done].
Qed.

(** Counting changes nothing else. *)
Lemma inc_inv_counts b0 done b b' w :
  bd_desired b' = bd_desired b → bd_staging b' = bd_staging b →
  inc_inv b0 done b w → inc_inv b0 done b' w.
Proof. unfold inc_inv. by intros -> ->. Qed.

Lemma build_changed_spec b0 done b w rel :
  blobs_ok w → inc_inv b0 done b w → ∃ b' w',
  build_changed blobs parse_file f root b rel w = (Ok b', w') ∧ grows w w' ∧
  inc_inv b0 (done ++ [rel]) b' w'.
Proof.
  intros Hok Hinv. unfold build_changed.
  assert (inc_inv b0 (done ++ [rel]) (without rel b) w ∨ outcome rel ≠ ODrop) as Hdrop.
  { destruct (outcome rel) eqn:Ho; [by right|left; by apply inc_inv_drop|by right]. }
  assert (inc_inv b0 (done ++ [rel]) b w ∨ outcome rel ≠ OKeep) as Hkeep.
  { destruct (outcome rel) eqn:Ho; [left; by apply inc_inv_keep|by right..]. }
  unfold outcome in Hdrop, Hkeep. destruct (is_indexable f rel) eqn:Hidx; cbn in *.
  2: { destruct Hdrop as [Hdrop|?]; [|done]. eexists _, w. split_and!; [done|done|].
       by eapply inc_inv_counts. }
  destruct (path_extension rel ≫= from_extension) as [lang|] eqn:Hlang.
  2: { destruct Hkeep as [Hkeep|?]; [|done]. eexists _, w. split_and!; [done|done|].
       by eapply inc_inv_counts. }
  destruct (read_at root (components_of rel)) as [text|] eqn:Hread.
  2: { destruct Hdrop as [Hdrop|?]; [|done]. by eexists _, w. }
  destruct (parse_file lang text) as [g|] eqn:Hparse.
  2: { destruct Hkeep as [Hkeep|?]; [|done]. eexists _, w. split_and!; [done|done|].
       by eapply inc_inv_counts. }
  destruct (put_slice_spec g w Hok) as (w1 & Hput & Hg & Hs).
  unfold mbind, M_bind. rewrite Hput. eexists _, w1. split_and!; [done|done|].
  eapply inc_inv_store; try done. unfold outcome. by rewrite Hidx, Hlang, Hread, Hparse.
Qed.

Lemma inc_loop L b0 w :
  blobs_ok w → inserts (bd_staging b0) = [] → ∃ b w',
  foldM (build_changed blobs parse_file f root) b0 L w = (Ok b, w') ∧ grows w w' ∧
  inc_inv b0 L b w'.
Proof.
  intros Hok Hb0.
  destruct (foldM_inv (build_changed blobs parse_file f root)
    (λ done b w', grows w w' ∧ inc_inv b0 done b w') L b0 w) as (b & w' & Hrun & Hg & Hinv).
  - split; [done|]. unfold inc_inv. rewrite Hb0. split_and!.
    + done.
    + intros rel g. rewrite elem_of_nil. split; [done|by intros [?%elem_of_nil _]].
    + intros rel. split; [by left|]. by intros [?|[?%elem_of_nil _]].
    + by intros ?? ?%elem_of_nil.
  - intros done x todo b w1 _ [Hg Hinv]. assert (blobs_ok w1) as Hok1 by (by apply Hg).
    destruct (build_changed_spec b0 done b w1 x Hok1 Hinv) as (b' & w2 & Hrun & Hg2 & Hinv2).
    exists b', w2. split; [done|]. split; [by etrans|done].
  - by exists b, w'.
Qed.

Lemma drop_stale_fold L b :
  let b' := foldl drop_stale b L in
  (∀ rel, bd_desired b' !! rel = if decide (rel ∈ L) then None else bd_desired b !! rel) ∧
  inserts (bd_staging b') = inserts (bd_staging b) ∧
  removes (bd_staging b') = removes (bd_staging b) ++ L.
Proof.
  revert b. induction L as [|x L IH]; intros b; cbn [foldl].
  { rewrite app_nil_r. split_and!; [|done|done]. intros rel.
    by rewrite decide_False by apply not_elem_of_nil. }
  destruct (IH (drop_stale b x)) as (Hd & -> & ->). cbn. split_and!; [|done|by rewrite <-app_assoc].
  intros rel. rewrite Hd. cbn. destruct (decide (rel = x)) as [->|Hne].
  - rewrite lookup_delete_eq, (decide_True (P := x ∈ x :: L)) by left. by case_decide.
  - rewrite lookup_delete_ne by done. apply decide_ext. rewrite elem_of_cons. tauto.
Qed.

Lemma without_fold L b :
  let b' := foldl (λ b rel, without rel b) b L in
  (∀ rel, bd_desired b' !! rel = if decide (rel ∈ L) then None else bd_desired b !! rel) ∧
  inserts (bd_staging b') = inserts (bd_staging b) ∧
  ∀ rel, rel ∈ removes (bd_staging b') ↔
    rel ∈ removes (bd_staging b) ∨ rel ∈ L ∧ is_Some (bd_desired b !! rel).
Proof.
  revert b. induction L as [|x L IH]; intros b; cbn [foldl].
  { split_and!; [|done|]; intros rel; [by rewrite decide_False by apply not_elem_of_nil|].
    rewrite elem_of_nil. tauto. }
  destruct (IH (without x b)) as (Hd & Hi & Hr).
  assert ((∀ rel, bd_desired (without x b) !! rel =
      if decide (rel = x) then None else bd_desired b !! rel) ∧
    inserts (bd_staging (without x b)) = inserts (bd_staging b) ∧
    ∀ rel, rel ∈ removes (bd_staging (without x b)) ↔
      rel ∈ removes (bd_staging b) ∨ rel = x ∧ is_Some (bd_desired b !! x)) as (Hxd & Hxi & Hxr).
  { unfold without. destruct (bd_desired b !! x) as [h|] eqn:E; cbn; split_and!; try done.
    - intros rel. case_decide as Hrel; [subst; apply lookup_delete_eq|by apply lookup_delete_ne].
    - intros rel. rewrite elem_of_snoc. split; [|tauto]. intros [?| ->]; [by left|right; by eauto].
    - intros rel. case_decide as Hrel; [by subst|done].
    - intros rel. split; [tauto|]. by intros [?|[_ [? ?]]]. }
  split_and!; [| |].
  - intros rel. rewrite Hd, Hxd. destruct (decide (rel = x)) as [->|Hne].
    + rewrite (decide_True (P := x ∈ x :: L)) by left. by case_decide.
    + apply decide_ext. rewrite elem_of_cons. tauto.
  - by rewrite Hi, Hxi.
  - intros rel. rewrite Hr, Hxr, Hxd, elem_of_cons. destruct (decide (rel = x)) as [->|Hne].
    + split; [intros [[?|[_ ?]]|[_ [? ?]]]; [by left|by right; split; [left|]|done]|tauto].
    + tauto.
Qed.

(** What a driver promises the rest of the run: slices and entries agree, a path it
    removes is not in the view, and one it dropped after storing it is removed. *)
Record driver_ok (m : manifest) (dv : DesiredView) (st : GraphStaging) (w : W) : Prop := {
  do_functional rel g g' : (rel, g) ∈ inserts st → (rel, g') ∈ inserts st → g = g';
  do_present rel h : dv_entries dv !! rel = Some h → rel ∉ removes st ∧
    ((∃ g, (rel, g) ∈ inserts st ∧ h = slice_hash g) ∨
     (∀ g, (rel, g) ∉ inserts st) ∧ entries m !! rel = Some h);
  do_absent rel g : dv_entries dv !! rel = None → (rel, g) ∈ inserts st → rel ∈ removes st;
  do_held rel g : (rel, g) ∈ inserts st → holds_slice w g;
  do_removed rel : rel ∈ removes st → is_Some (entries m !! rel) ∨ ∃ g, (rel, g) ∈ inserts st
}.

(** What a tree's changes make of a view. *)
Definition incremental_entry (m : manifest) (changed : ChangedPaths) (rel : string) :
    option ContentHash :=
  let carried := if admitted f git_ignores rel then entries m !! rel else None in
  if decide (rel ∈ ch_deleted changed) then None
  else if decide (rel ∈ ch_added changed ++ ch_modified changed)
       then after (outcome rel) carried else carried.

(** The pass starts from the entries the filter and git still admit. *)
Definition healed (m : manifest) : Building :=
  foldl drop_stale (mkBuilding (entries m) no_staging 0 [] 0 (mkUnindexed 0 ∅))
    (stale_entries f git_ignores (btree_keys (entries m))).

Lemma healed_spec m :
  (∀ rel, bd_desired (healed m) !! rel =
     if admitted f git_ignores rel then entries m !! rel else None) ∧
  inserts (bd_staging (healed m)) = [] ∧
  ∀ rel, rel ∈ removes (bd_staging (healed m)) ↔
    admitted f git_ignores rel = false ∧ is_Some (entries m !! rel).
Proof.
  unfold healed. set (stale := stale_entries f git_ignores (btree_keys (entries m))).
  assert (∀ rel, rel ∈ stale ↔ admitted f git_ignores rel = false ∧ is_Some (entries m !! rel)) as Hstale.
  { intros rel. unfold stale, stale_entries, admitted. rewrite list_elem_of_filter, elem_of_btree_keys.
    destruct (is_indexable f rel), (git_ignores rel); cbn; clear; naive_solver. }
  set (start := mkBuilding (entries m) no_staging 0 [] 0 (mkUnindexed 0 ∅)).
  destruct (drop_stale_fold stale start) as (Hd0 & -> & ->). split_and!; [|done|apply Hstale].
  intros rel. rewrite Hd0. cbn. case_decide as Hs; rewrite Hstale in Hs.
  - by destruct Hs as [-> _].
  - destruct (admitted f git_ignores rel); [done|].
    destruct (entries m !! rel) eqn:E; [|done]. exfalso. apply Hs. by split; [|eexists].
Qed.

Lemma build_incremental_spec m changed w :
  blobs_ok w → ∃ dv st w',
  build_desired_incremental blobs parse_file f git_ignores root m changed w =
    (Ok (dv, st), w') ∧ grows w w' ∧
  (∀ rel, dv_entries dv !! rel = incremental_entry m changed rel) ∧
  (∀ rel g, (rel, g) ∈ inserts st → rel ∈ ch_added changed ++ ch_modified changed) ∧
  ((∀ rel, rel ∈ ch_added changed ++ ch_modified changed → git_ignores rel = false) →
     driver_ok m dv st w').
Proof.
  intros Hok. destruct (healed_spec m) as (Hhealed & Hi0 & Hstale).
  unfold build_desired_incremental. fold (healed m).
  destruct (inc_loop (ch_added changed ++ ch_modified changed) (healed m) w Hok Hi0)
    as (b & w' & Hrun & Hg & Hd & Hi & Hr & Hh).
  destruct (without_fold (ch_deleted changed) b) as (Hdd & Hdi & Hdr).
  unfold mbind, M_bind. rewrite Hrun. eexists _, _, w'. split_and!; [done|done| | |].
  - intros rel. cbn. rewrite Hdd, Hd, Hhealed. done.
  - intros rel g. cbn. rewrite Hdi, Hi. by intros [? _].
  - intros Hclean. split; cbn; try rewrite Hdi.
    + intros rel g g'. rewrite !Hi. intros [_ ->] [_ [= ->]]. done.
    + intros rel h. rewrite Hdd. case_decide as Hdel; [done|]. intros Hbd.
      assert (bd_desired b !! rel = Some h) as Hbd' by done.
      rewrite Hdr, Hr, Hstale. setoid_rewrite Hi.
      rewrite Hd, Hhealed in Hbd. case_decide as Hin; cbn in Hbd.
      * pose proof (Hclean rel Hin) as Hig.
        assert (admitted f git_ignores rel = false → outcome rel = ODrop) as Hadm.
        { unfold admitted, outcome. rewrite Hig, andb_true_r. by intros ->. }
        destruct (outcome rel) as [| |g] eqn:Ho; cbn in Hbd; [| |].
        -- destruct (admitted f git_ignores rel); [|done]. split; [naive_solver|].
           right. split; [|done]. by intros g [_ ?].
        -- done.
        -- destruct (admitted f git_ignores rel) eqn:Ha; [|by specialize (Hadm eq_refl)].
           split; [naive_solver|]. left. exists g. split; [done|]. by injection Hbd as <-.
      * destruct (admitted f git_ignores rel); [|done].
        split; [naive_solver|]. right. split; [|done]. by intros g [? _].
    + intros rel g. rewrite Hdd, Hdr, Hi. intros Hnone [Hin Ho]. right.
      assert (bd_desired b !! rel = Some (slice_hash g)) as Hbd by (by rewrite Hd, decide_True, Ho).
      rewrite Hbd in Hnone |- *. case_decide as Hdel; [by split; [|eexists]|done].
    + exact Hh.
    + intros rel. rewrite Hdr, Hr, Hstale. setoid_rewrite Hi.
      rewrite Hhealed. intros [[?|(? & ? & ?)]|[_ Hs]]; [by left; tauto| |].
      * left. by destruct (admitted f git_ignores rel).
      * rewrite Hd, Hhealed in Hs. case_decide as Hin; [destruct (outcome rel) as [| |g] eqn:Ho|].
        -- cbn in Hs. left. by destruct (admitted f git_ignores rel); [|destruct Hs].
        -- by destruct Hs.
        -- right. by exists g.
        -- left. by destruct (admitted f git_ignores rel); [|destruct Hs].
Qed.

(** ** The drivers agree *)

Lemma components_plain rel :
  Forall plain_name (split_char slash_char rel) → components_of rel = split_char slash_char rel.
Proof.
  intros Hp. unfold components_of. apply list_filter_id. intros x Hx.
  by apply (proj1 (Forall_forall _ _) Hp) in Hx as (? & _).
Qed.

Lemma path_extension_rel rel name :
  Forall plain_name (split_char slash_char rel) →
  last (split_char slash_char rel) = Some name → path_extension rel = path_extension name.
Proof.
  intros Hp Hl. assert (plain_name name) as ([Hne Hdot] & Hseg & _).
  { apply (proj1 (Forall_forall _ _) Hp). apply last_Some in Hl as [l' ->].
    rewrite elem_of_app. right. left. }
  unfold path_extension, file_name_of. fold (components_of rel). rewrite components_plain by done.
  rewrite Hl, Hseg. by rewrite filter_cons_True.
Qed.

(** A regular file of a good tree that can be read and parsed is stored. *)
Lemma outcome_regular rel c :
  tree_ok root → regular_at root rel = Some c → is_indexable f rel = true →
  outcome rel = match last (split_char slash_char rel) ≫= language_at with
                | None => OKeep
                | Some lang =>
                    match c with
                    | None => ODrop
                    | Some text => match parse_file lang text with None => OKeep | Some g => OStore g end
                    end
                end.
Proof.
  intros Hok Hreg Hidx. unfold regular_at in Hreg. set (p := split_char slash_char rel) in *.
  destruct (node_at root p) as [[c'| |]|] eqn:Hn; try done. injection Hreg as ->.
  assert (Forall plain_name p) as Hplain by (by eapply node_at_plain).
  assert (p ≠ []) as Hne by apply split_char_not_nil.
  destruct (last p) as [name|] eqn:Hl; [|by apply last_None in Hl].
  unfold outcome. rewrite Hidx. cbn [negb]. rewrite (path_extension_rel rel name Hplain Hl).
  rewrite (components_plain rel Hplain). fold p. unfold read_at. rewrite Hn.
  cbn. unfold language_at. by destruct (path_extension name ≫= from_extension).
Qed.

Lemma entry_regular rel c lang :
  regular_at root rel = Some (Some c) → admitted f git_ignores rel = true →
  (last (split_char slash_char rel) ≫= language_at) = Some lang →
  entry rel = parse_file lang c.
Proof. intros Hr Ha Hl. unfold view_entry. by rewrite Ha, Hr, Hl. Qed.

(** Every source file the walk would report reads and parses. *)
Definition all_parse : Prop := ∀ rel c lang,
  regular_at root rel = Some c → admitted f git_ignores rel = true →
  (last (split_char slash_char rel) ≫= language_at) = Some lang →
  ∃ text g, c = Some text ∧ parse_file lang text = Some g.

(** git's answer is the difference between two trees. *)
Record exact_changes (base : Tree) (changed : ChangedPaths) : Prop := {
  ec_reported rel : rel ∈ ch_added changed ++ ch_modified changed →
    git_ignores rel = false ∧ is_Some (regular_at root rel);
  ec_deleted rel : rel ∈ ch_deleted changed → regular_at root rel = None;
  ec_unchanged rel : rel ∉ ch_added changed ++ ch_modified changed → rel ∉ ch_deleted changed →
    regular_at base rel = regular_at root rel
}.

Lemma incremental_is_view m base changed rel :
  tree_ok root → all_parse → exact_changes base changed →
  (∀ rel, admitted f git_ignores rel = true →
     entries m !! rel = slice_hash <$> view_entry parse_file f git_ignores base rel) →
  incremental_entry m changed rel = slice_hash <$> entry rel.
Proof.
  intros Hok Hparse Hgit Hm. unfold incremental_entry.
  destruct (decide (rel ∈ ch_deleted changed)) as [Hdel|Hdel].
  { unfold view_entry. rewrite (ec_deleted _ _ Hgit rel Hdel). by destruct (admitted _ _ _). }
  destruct (decide (rel ∈ ch_added changed ++ ch_modified changed)) as [Hin|Hout].
  - destruct (ec_reported _ _ Hgit rel Hin) as [Hig [c Hreg]].
    destruct (is_indexable f rel) eqn:Hidx.
    2: { unfold outcome, view_entry, admitted. by rewrite Hidx. }
    assert (admitted f git_ignores rel = true) as Ha by (unfold admitted; by rewrite Hidx, Hig).
    rewrite (outcome_regular rel c Hok Hreg Hidx), Ha.
    destruct (last _ ≫= language_at) as [lang|] eqn:Hl.
    + destruct (Hparse rel c lang Hreg Ha Hl) as (text & g & -> & Hg).
      by rewrite Hg, (entry_regular rel text lang Hreg Ha Hl), Hg.
    + cbn. rewrite (Hm rel Ha). unfold view_entry. rewrite Ha, Hl.
      destruct (regular_at base rel) as [[?|]|], (regular_at root rel) as [[?|]|]; done.
  - destruct (admitted f git_ignores rel) eqn:Ha.
    + rewrite (Hm rel Ha). unfold view_entry. by rewrite Ha, (ec_unchanged _ _ Hgit rel Hout Hdel).
    + unfold view_entry. by rewrite Ha.
Qed.

Lemma unreadable_not_parsed p lang :
  tree_ok root → all_parse → node_at root p = Some (TFile None) → p ≠ [] →
  (last p ≫= language_at) = Some lang → admitted f git_ignores (rel_of p) = true → False.
Proof.
  intros Hok Hparse Hn Hp Hl Ha. assert (Forall plain_name p) as Hplain by (by eapply node_at_plain).
  destruct (Hparse (rel_of p) None lang) as (text & _ & ? & _); [|done| |done].
  - unfold regular_at. by rewrite split_rel_of, Hn.
  - by rewrite split_rel_of.
Qed.

(** C20: the two drivers build the same view.  If a view's manifest is the full
    view of a base tree, git's changes are exactly the difference between that tree
    and the present one, and every source reads and parses, then the incremental
    pass and a full walk both succeed and desire the same entries, entries that an
    earlier, laxer filter had let in being dropped by both. *)
Theorem drivers_agree (current : manifest) (base : Tree) (changed : ChangedPaths) (w : W) :
  tree_ok root → ignores_below git_ignores → blobs_ok w → all_parse →
  exact_changes base changed →
  (∀ rel, admitted f git_ignores rel = true →
     entries current !! rel = slice_hash <$> view_entry parse_file f git_ignores base rel) →
  ∃ full st w1 incremental st' w2,
    build_desired_full blobs parse_file f git_ignores root w = (Ok (full, st), w1) ∧
    build_desired_incremental blobs parse_file f git_ignores root current changed w =
      (Ok (incremental, st'), w2) ∧
    dv_entries full = dv_entries incremental ∧
    ∀ rel, dv_entries full !! rel = slice_hash <$> entry rel.
Proof.
  intros Hok Hig Hblobs Hparse Hgit Hcur.
  destruct (build_full_spec w Hok Hig Hblobs) as ([[full st]|e] & w1 & Hfull & _ & Hr).
  - destruct (build_incremental_spec current changed w Hblobs)
      as (inc & st' & w2 & Hinc & _ & Hd & _ & _).
    exists full, st, w1, inc, st', w2. destruct Hr as [Hf _]. split_and!; [done|done| |done].
    apply map_eq. intros rel. rewrite Hf, Hd. symmetry. by apply (incremental_is_view _ base).
  - exfalso. destruct Hr as (p & (Hn & Hp & [lang Hl] & Ha) & _).
    by apply (unreadable_not_parsed p lang).
Qed.
End runs.
