(* ===== verification/GraphSamples.v ===== *)
(** * GraphSamples: codecs to instantiate the graph's classes at

    [serde_json]'s reading and writing of slices and SQLite's rows come to the
    development as classes; these are concrete members, for the witnesses. *)

From S2P Require Export Samples SqliteGraph.

#[export] Instance SymbolKind_countable : Countable SymbolKind.
Proof.
  refine (inj_countable SymbolKind_as_str kind_of_str _). by intros [].
Defined.

#[export] Instance FromScope_countable : Countable FromScope :=
  inj_countable' FromScope_as_str from_str_or_function ltac:(by intros []).

#[export] Instance RefKind_countable : Countable RefKind :=
  inj_countable' RefKind_as_str from_str_or_free ltac:(by intros []).

#[export] Instance Symbol_countable : Countable Symbol :=
  inj_countable' (λ s, (sym_name s, sym_kind s, sym_start_line s, sym_end_line s, sym_owner s))
    (λ '(n, k, a, b, o), mkSymbol n k a b o) ltac:(by intros []).

#[export] Instance Reference_countable : Countable Reference :=
  inj_countable' (λ r, (ref_name r, ref_from r, ref_line r, ref_kind r, ref_qualifier r,
      ref_from_scope r))
    (λ '(n, o, l, k, q, s), mkReference n o l k q s) ltac:(by intros []).

#[export] Instance Import_countable : Countable Import :=
  inj_countable' (λ i, (imp_name i, imp_path i, imp_depth i, imp_line i))
    (λ '(n, p, d, l), mkImport n p d l) ltac:(by intros []).

#[export] Instance CodeGraph_countable : Countable CodeGraph :=
  inj_countable' (λ g, (cg_symbols g, cg_references g, cg_imports g))
    (λ '(s, r, i), mkCodeGraph s r i) ltac:(by intros []).

Definition sample_slices : SliceSerde := {|
  to_slice_bytes := Samples.to_bits;
  from_slice_bytes b := ok_or "bad slice" (Samples.from_bits b);
  slice_roundtrip g := f_equal (ok_or _) (Samples.from_bits_to_bits g)
|}.
