(* ===== verification/IndexingSpec.v ===== *)
(** * IndexingSpec: what an indexing run guarantees

    The theorems about [Indexing]'s runs: a run keeps a view's manifest, its slices
    and its persistent graph in step, or changes none of them; where the sources
    parse it converges to the tree; and what it never repairs. *)

From S2P Require Export IndexDrivers.
From S2P Require Import GraphSamples SampleStores.

Section runs.
Context `{Blake3, ManifestSerde, SliceSerde, Sqlite} {W F : Type}.
Context (store : Store W) (blobs : BlobStore W).
Context (contents : W → records) (bl : W → gmap ContentHash (bytes * Z)) (rest : W → F).
Context (cap : nat).
Context `{!StoreLaws store contents cap (λ w, (bl w, rest w))}.
Context `{!BlobStoreLaws blobs bl (λ w, (contents w, rest w))}.
(** No two contents in play share a hash. *)
Context (collision_free : ∀ b b' : bytes, ContentHash_of b = ContentHash_of b' → b = b').
Context (parse_file : Language → string → option CodeGraph).
Context (f : IndexFilter) (git_ignores : string → bool) (l : list (string * Tree)).

Notation root := (TDir (Some l)).
Notation entry := (view_entry parse_file f git_ignores root).
#[local] Notation holds_slice := (IndexDrivers.holds_slice bl).
#[local] Notation blobs_ok := (IndexDrivers.blobs_ok bl).
#[local] Notation grows := (IndexDrivers.grows contents bl rest).
#[local] Notation driver_ok := (IndexDrivers.driver_ok bl).
#[local] Notation outcome := (IndexDrivers.outcome parse_file f l).
#[local] Notation incremental_entry := (IndexDrivers.incremental_entry parse_file f git_ignores l).
#[local] Notation unreadable_source := (IndexDrivers.unreadable_source f git_ignores l).
#[local] Notation all_parse := (IndexDrivers.all_parse parse_file f git_ignores l).
#[local] Notation build_full_spec := (IndexDrivers.build_full_spec blobs contents bl rest
  collision_free parse_file f git_ignores l).
#[local] Notation build_incremental_spec := (IndexDrivers.build_incremental_spec blobs contents bl
  rest collision_free parse_file f git_ignores l).
#[local] Notation incremental_is_view := (IndexDrivers.incremental_is_view parse_file f git_ignores l).
#[local] Notation unreadable_not_parsed :=
  (IndexDrivers.unreadable_not_parsed parse_file f git_ignores l).
#[local] Notation exact_changes := (IndexDrivers.exact_changes git_ignores l).

(** ** Advancing the graph *)

Definition staged (st : GraphStaging) (sl : gmap string CodeGraph) : gmap string CodeGraph :=
  foldl (λ m rel, delete rel m) (foldl (λ m p, <[p.1 := p.2]> m) sl (inserts st)) (removes st).

Lemma apply_staging_holds st db sl :
  holds_view db sl → holds_view (apply_staging st db) (staged st sl).
Proof.
  unfold apply_staging, staged. intros Hv.
  assert (holds_view (foldl (λ db p, sq_insert p.1 p.2 db) db (inserts st))
    (foldl (λ m p, <[p.1 := p.2]> m) sl (inserts st))) as Hi.
  { revert db sl Hv. induction (inserts st) as [|[p g] ins IH]; intros db sl Hv; [done|].
    by apply IH, holds_view_insert. }
  revert Hi. generalize (foldl (λ db p, sq_insert p.1 p.2 db) db (inserts st)).
  generalize (foldl (λ m p, <[p.1 := p.2]> m) sl (inserts st)).
  induction (removes st) as [|p rs IH]; intros sl' db' Hi; [done|].
  by apply IH, holds_view_remove.
Qed.

Lemma fold_deletes rs (m : gmap string CodeGraph) rel :
  foldl (λ m rel, delete rel m) m rs !! rel = if decide (rel ∈ rs) then None else m !! rel.
Proof.
  revert m. induction rs as [|x rs IH]; intros m; cbn [foldl].
  { by rewrite decide_False by apply not_elem_of_nil. }
  rewrite IH. destruct (decide (rel = x)) as [->|Hne].
  - rewrite lookup_delete_eq, (decide_True (P := x ∈ x :: rs)) by left. by case_decide.
  - rewrite lookup_delete_ne by done. apply decide_ext. rewrite elem_of_cons. tauto.
Qed.

Lemma fold_inserts_out ins (m : gmap string CodeGraph) rel :
  (∀ g, (rel, g) ∉ ins) → foldl (λ m p, <[p.1 := p.2]> m) m ins !! rel = m !! rel.
Proof.
  revert m. induction ins as [|[x g] ins IH]; intros m Hout; cbn [foldl]; [done|].
  rewrite IH by (intros g' Hin; apply (Hout g'); by right). apply lookup_insert_ne.
  cbn. intros ->. apply (Hout g). left.
Qed.

Lemma fold_inserts_in ins (m : gmap string CodeGraph) rel g :
  (rel, g) ∈ ins → (∀ g', (rel, g') ∈ ins → g' = g) →
  foldl (λ m p, <[p.1 := p.2]> m) m ins !! rel = Some g.
Proof.
  revert m. induction ins as [|[x g0] ins IH]; intros m Hin Hfun; [by apply elem_of_nil in Hin|].
  cbn [foldl]. destruct (decide ((rel, g) ∈ ins)) as [Hi|Hi].
  - apply IH; [done|]. intros g' Hg'. apply Hfun. by right.
  - apply elem_of_cons in Hin as [[= -> ->]|?]; [|done]. cbn.
    rewrite fold_inserts_out; [apply lookup_insert_eq|]. intros g' Hg'.
    rewrite (Hfun g') in Hg' by (by right). done.
Qed.

Lemma staged_entries m dv st w sl :
  driver_ok m dv st w → entries m = slice_hash <$> sl →
  let st' := mkStaging (inserts st)
               (removes st ++ deleted (Manifest_reconcile m (dv_entries dv))) in
  (∀ rel, slice_hash <$> staged st' sl !! rel = dv_entries dv !! rel) ∧
  ∀ rel g, staged st' sl !! rel = Some g → (rel, g) ∈ inserts st ∨ sl !! rel = Some g.
Proof.
  intros Hdo Hm st'. destruct (manifest_reconcile_spec m (dv_entries dv)) as (_ & _ & _ & Hdel & _).
  assert (∀ rel, entries m !! rel = slice_hash <$> sl !! rel) as Hsl
    by (intros rel; by rewrite Hm, lookup_fmap).
  assert (∀ rel, staged st' sl !! rel = if decide (rel ∈ removes st') then None
    else foldl (λ m p, <[p.1 := p.2]> m) sl (inserts st) !! rel) as Hst
    by (intros rel; apply fold_deletes).
  assert (∀ rel, (∃ g, (rel, g) ∈ inserts st) ∨ ∀ g, (rel, g) ∉ inserts st) as Hcase.
  { intros rel. destruct (list_find (λ p, p.1 = rel) (inserts st)) as [[i [r g]]|] eqn:Hf.
    - apply list_find_Some in Hf as (Hi & Hr & _). cbn in Hr. subst. left. exists g.
      by eapply list_elem_of_lookup_2.
    - right. intros g Hin. apply list_find_None in Hf. rewrite Forall_forall in Hf.
      by apply (Hf _ Hin). }
  split.
  - intros rel. rewrite Hst. destruct (dv_entries dv !! rel) as [h|] eqn:Hd.
    + destruct (do_present _ _ _ _ _ Hdo rel h Hd) as [Hrm Hor].
      rewrite decide_False.
      2: { cbn. rewrite elem_of_app, Hdel, Hd. by intros [?|[_ ?]]. }
      destruct Hor as [(g & Hin & ->)|[Hout He]].
      * rewrite (fold_inserts_in _ _ rel g); [done|done|].
        intros g' Hg'. by eapply (do_functional _ _ _ _ _ Hdo).
      * by rewrite fold_inserts_out, <-Hsl.
    + case_decide as Hin; [done|]. cbn in Hin. rewrite elem_of_app, Hdel, Hd in Hin.
      destruct (Hcase rel) as [[g Hg]|Hout].
      * exfalso. apply Hin. left. by eapply (do_absent _ _ _ _ _ Hdo).
      * rewrite fold_inserts_out, <-Hsl by done. destruct (entries m !! rel); [|done].
        exfalso. apply Hin. right. by split; [eexists|].
  - intros rel g. rewrite Hst. case_decide as Hin; [done|].
    destruct (Hcase rel) as [[g' Hg']|Hout]; [|rewrite fold_inserts_out by done; by right].
    rewrite (fold_inserts_in _ _ rel g'); [by intros [= ->]; left|done|].
    intros g'' Hg''. by eapply (do_functional _ _ _ _ _ Hdo).
Qed.

(** ** The commit *)

(** The manifest was deleted, and its tombstone not collected yet. *)
Definition buried_manifest (current : option record) : Prop := ∃ t k,
  current = Some t ∧ is_tombstone t = true ∧ rec_deleted_kind t = Some k ∧ is_manifest_kind k = true.

Lemma manifest_put_plan current key body now :
  let '(r, expected) := manifest_record key (live current) body in
  rec_key r = key ∧
  ((∃ s, plan_put current r expected now cap = PutWrite s ∧ is_tombstone s = false ∧
      rec_body s = body) ∨
   (∃ reason, plan_put current r expected now cap = PutRejected reason ∧ buried_manifest current)).
Proof.
  unfold manifest_record, live, plan_put. destruct current as [t|]; cbn.
  - destruct (is_tombstone t) eqn:Ht; cbn; (split; [done|]).
    + destruct (rec_deleted_kind t) as [k|] eqn:Hk; [destruct (is_manifest_kind k) eqn:Hmk|].
      * right. eexists. split; [done|]. by exists t, k.
      * left. by eexists.
      * left. by eexists.
    + left. rewrite decide_True by done. by eexists.
  - split; [done|]. left. by eexists.
Qed.

(** A view in step: its manifest names the slices the graph holds, and every one
    of them is stored. *)
Record in_sync (repo view : string) (w : W) (db : Db) (m : manifest)
    (sl : gmap string CodeGraph) : Prop := {
  sy_manifest : match live (contents w !! Manifest_key repo view) with
                | Some r => Manifest_from_body (rec_body r) = Ok m
                | None => m = Manifest_new
                end;
  sy_graph : holds_view db sl;
  sy_entries : entries m = slice_hash <$> sl;
  sy_held rel g : sl !! rel = Some g → holds_slice w g;
  sy_blobs : blobs_ok w
}.

Context (changed_paths : string → option ChangedPaths) (head_commit : option string).

(** git reports no ignored path. *)
Definition git_clean : Prop := ∀ base changed rel,
  changed_paths base = Some changed → rel ∈ ch_added changed ++ ch_modified changed →
  git_ignores rel = false.

(** What the chosen driver leaves. *)
Definition built (changes : option ChangedPaths) (m : manifest) (dv : DesiredView) : Prop :=
  ∀ rel, dv_entries dv !! rel =
    match changes with
    | Some changed => incremental_entry m changed rel
    | None => slice_hash <$> entry rel
    end.

(** Only these paths are staged for the graph. *)
Definition sourced (changes : option ChangedPaths) (st : GraphStaging) : Prop :=
  ∀ rel g, (rel, g) ∈ inserts st →
    match changes with
    | Some changed => rel ∈ ch_added changed ++ ch_modified changed
    | None => entry rel = Some g
    end.

Definition build (changes : option ChangedPaths) (m : manifest) :
    M W IndexError (DesiredView * GraphStaging) :=
  match changes with
  | Some changed => build_desired_incremental blobs parse_file f git_ignores root m changed
  | None => build_desired_full blobs parse_file f git_ignores root
  end.

Lemma build_spec changes m w :
  tree_ok root → ignores_below git_ignores → blobs_ok w →
  (∀ changed rel, changes = Some changed → rel ∈ ch_added changed ++ ch_modified changed →
     git_ignores rel = false) → ∃ r w',
  build changes m w = (r, w') ∧ grows w w' ∧
  match r with
  | Ok (dv, st) => driver_ok m dv st w' ∧ built changes m dv ∧ sourced changes st
  | Err e => changes = None ∧ ∃ p, unreadable_source p ∧ e = Unreadable (rel_of p)
  end.
Proof.
  intros Hok Hig Hblobs Hclean. destruct changes as [changed|]; cbn.
  - destruct (build_incremental_spec m changed w Hblobs) as (dv & st & w' & Hrun & Hg & Hd & Hsrc & Hdo).
    exists (Ok (dv, st)), w'. split; [done|]. split; [done|]. split; [|done].
    apply Hdo. intros rel Hin. by eapply Hclean.
  - destruct (build_full_spec w Hok Hig Hblobs) as ([[dv st]|e] & w' & Hrun & Hg & Hr).
    + exists (Ok (dv, st)), w'. split; [done|]. split; [done|]. destruct Hr as (Hd & Hi & Hrm & Hh).
      split; [|split; [done|intros rel g; by rewrite Hi]]. split.
      * intros rel g g'. rewrite !Hi. congruence.
      * intros rel h. rewrite Hd, Hrm. intros He. split; [apply not_elem_of_nil|]. left.
        destruct (entry rel) as [g|] eqn:Eg; [|done]. exists g. rewrite Hi. split; [done|].
        by injection He as <-.
      * intros rel g. rewrite Hd, Hi. intros Hn Hs. by rewrite Hs in Hn.
      * exact Hh.
      * intros rel. by rewrite Hrm, elem_of_nil.
    + exists (Err e), w'. by split_and!.
Qed.

Lemma commit_spec repo view version files w db m sl :
  in_sync repo view w db m sl → tree_ok root → ignores_below git_ignores → git_clean →
  ∃ r w', commit_manifest store blobs parse_file f git_ignores root changed_paths repo view
            version files w = (r, w') ∧ rest w' = rest w ∧ blobs_ok w' ∧
    (∀ h x, bl w !! h = Some x → bl w' !! h = Some x) ∧
    let changes := incremental_changes changed_paths version files in
    match r with
    | Ok (dv, st, recon) => ∃ st0, recon = Manifest_reconcile m (dv_entries dv) ∧
        st = mkStaging (inserts st0) (removes st0 ++ deleted recon) ∧
        driver_ok m dv st0 w' ∧ built changes m dv ∧ sourced changes st0 ∧
        ∃ s, contents w' = <[Manifest_key repo view := s]> (contents w) ∧ is_tombstone s = false ∧
          Manifest_from_body (rec_body s) = Ok (mkManifest (dv_entries dv))
    | Err e => contents w' = contents w ∧
        (changes = None ∧ (∃ p, unreadable_source p) ∨
         buried_manifest (contents w !! Manifest_key repo view))
    end.
Proof.
  intros Hsync Hok Hig Hclean. unfold commit_manifest.
  set (key := Manifest_key repo view).
  destruct (law_get (s := store) key w) as (w1 & Hget & Hc1 & [= Hb1 Hr1]).
  unfold mbind at 1, M_bind at 1. unfold on_store at 1. rewrite Hget. cbn [map_err].
  assert (∀ A (k : manifest → M W IndexError A), (current ← match live (contents w !! key) with
      | Some r => lift (map_err CoreFailure (Manifest_from_body (rec_body r)))
      | None => mret Manifest_new end; k current) w1 = k m w1) as Hcur.
  { intros A k. pose proof (sy_manifest _ _ _ _ _ _ Hsync) as Hm.
    destruct (live _) as [r|]; [by rewrite Hm|by subst m]. }
  rewrite Hcur. fold (build (incremental_changes changed_paths version files) m).
  set (changes := incremental_changes changed_paths version files).
  assert (blobs_ok w1) as Hok1
    by (pose proof (sy_blobs _ _ _ _ _ _ Hsync); unfold blobs_ok in *; by rewrite Hb1).
  destruct (build_spec changes m w1 Hok Hig Hok1) as (r & w2 & Hrun & (Hc2 & Hr2 & Ho2 & Hb2) & Hr).
  { intros changed rel Hch. unfold changes, incremental_changes in Hch. case_decide; [|done].
    destruct (vf_base files) as [base|]; [|done]. cbn in Hch. case_decide; [done|].
    by eapply Hclean. }
  unfold mbind at 1, M_bind at 1. rewrite Hrun. destruct r as [[dv st0]|e].
  2: { exists (Err e), w2. split; [done|]. split_and!; [congruence|auto|by rewrite <-Hb1|congruence|].
       left. destruct Hr as (? & p & ? & _). split; [done|by exists p]. }
  destruct Hr as (Hdo & Hbuilt & Hsrc). set (recon := Manifest_reconcile m (dv_entries dv)).
  set (body := Manifest_to_body (reconciled recon)).
  assert (Manifest_from_body body = Ok (mkManifest (dv_entries dv))) as Hbody.
  { unfold body. rewrite Manifest_from_to_body.
    destruct (manifest_reconcile_spec m (dv_entries dv)) as (He & _). fold recon in He.
    destruct (reconciled recon). cbn in He. by subst. }
  pose proof (λ now, manifest_put_plan (contents w !! key) key body now) as Hplan.
  destruct (manifest_record key (live (contents w !! key)) body) as [rec expected] eqn:Hrec.
  destruct (law_put (s := store) rec expected w2) as (now & res & w3 & Hput & [= Hb3 Hr3] & Heq).
  destruct (Hplan now) as [Hkey Hor]. rewrite Hkey, Hc2, Hc1 in Heq.
  unfold mbind, M_bind, on_store. rewrite Hput.
  destruct Hor as [(s & Hp & Hs & Hsb)|(reason & Hp & Hbur)]; rewrite Hp in Heq;
    cbn in Heq; injection Heq as -> Hc3; cbn [map_err].
  - eexists (Ok (dv, _, recon)), w3. split; [done|].
    assert (blobs_ok w2) as Hok2 by auto.
    split_and!; [congruence|unfold blobs_ok; by rewrite Hb3|rewrite Hb3, <-Hb1; auto|].
    exists st0. split_and!; [done|done| |done|done|].
    + destruct Hdo as [D1 D2 D3 D4 D5]. split; [done..| |done]. intros rel g Hin.
      destruct (D4 rel g Hin) as [t Ht]. exists t. by rewrite Hb3.
    + exists s. split_and!; [congruence|done|by rewrite Hsb].
  - exists (Err (CoreFailure (Invalid reason))), w3. split; [done|].
    assert (blobs_ok w2) as Hok2 by auto.
    split_and!; [congruence|unfold blobs_ok; by rewrite Hb3|rewrite Hb3, <-Hb1; auto|congruence|].
    by right.
Qed.

(** ** The run *)

Lemma ensure_present wanted st w :
  blobs_ok w → (∀ p, p ∈ wanted → is_Some (bl w !! p.2)) → ∃ w',
  ensure_slices_present blobs wanted st w = (Ok 0, w') ∧ grows w w' ∧ bl w' = bl w.
Proof.
  intros Hok Hall. unfold ensure_slices_present.
  destruct (foldM_inv (λ restored '(path, hash),
    present ← on_store (bs_has_blob blobs hash);
    if (present : bool) then mret restored
    else match list_find (λ p, p.1 = path) (inserts st) with
         | None => throw (Unrestorable path hash)
         | Some (_, (_, slice)) =>
             put ← put_slice blobs slice;
             if decide (put = hash) then mret (S restored)
             else throw (RestoredElsewhere path put hash)
         end) (λ _ n w', n = 0 ∧ grows w w' ∧ bl w' = bl w) wanted 0 w)
    as (n & w' & Hrun & -> & Hg & Hb); [done| |by exists w'].
  intros seen [path hash] todo n w1 Hl (-> & Hg & Hb).
  destruct (law_has_blob (b := blobs) hash w1) as (w2 & Hrun & [= Hc Hr] & Hb2).
  exists 0, w2. unfold mbind, M_bind, on_store. rewrite Hrun, Hb. cbn [map_err].
  rewrite bool_decide_true; [|apply (Hall (path, hash)); rewrite Hl, elem_of_app; right; left].
  split; [done|]. split; [done|]. split; [|congruence]. etrans; [exact Hg|].
  split_and!; [done|done|unfold blobs_ok; by rewrite Hb2|by rewrite Hb2].
Qed.

#[local] Instance slice_hash_inj : Inj (=) (=) slice_hash.
Proof.
  intros g g' Hh%collision_free. apply (f_equal from_slice_bytes) in Hh.
  rewrite !slice_roundtrip in Hh. by injection Hh.
Qed.

Lemma elem_of_newly_referenced m d p h :
  (p, h) ∈ newly_referenced (Manifest_reconcile m d) → d !! p = Some h.
Proof.
  unfold newly_referenced. destruct (manifest_reconcile_spec m d) as (He & _).
  rewrite list_elem_of_omap. intros (q & _ & Hq). unfold Manifest_get in Hq. rewrite He in Hq.
  by destruct (d !! q) eqn:E; cbn in Hq; [injection Hq as -> ->|].
Qed.

Notation run repo view worker := (index_with_worker store blobs parse_file f git_ignores root
  changed_paths head_commit repo view worker).

(** What a run leaves: on success a view in step for the driver's entries, on failure
    the view as it was, and why. *)
Definition run_leaves (repo view : string) (worker : option (option N)) (files : ViewFiles)
    (w : W) (m : manifest) (sl : gmap string CodeGraph) (r : result IndexError IndexSummary)
    (w' : W) (files' : ViewFiles) : Prop :=
  let changes := incremental_changes changed_paths (parse_version worker) files in
  match r with
  | Ok summary => ∃ sl',
      in_sync repo view w' (sq_open (vf_db files')) (mkManifest (slice_hash <$> sl')) sl' ∧
      (∀ rel, slice_hash <$> sl' !! rel =
         match changes with
         | Some changed => incremental_entry m changed rel
         | None => slice_hash <$> entry rel
         end) ∧
      vf_fmt files' = Some (parse_version worker) ∧
      vf_base files' = match head_commit with Some sha => Some sha | None => vf_base files end
  | Err e =>
      in_sync repo view w' (sq_open (vf_db files')) m sl ∧ contents w' = contents w ∧
      sq_open (vf_db files') = sq_open (vf_db files) ∧
      vf_base files' = vf_base files ∧ vf_fmt files' = vf_fmt files ∧
      (changes = None ∧ (∃ p, unreadable_source p) ∨
       buried_manifest (contents w !! Manifest_key repo view))
  end.

Lemma index_run repo view worker files w m sl :
  in_sync repo view w (sq_open (vf_db files)) m sl →
  tree_ok root → ignores_below git_ignores → git_clean → ∃ r w' files',
  run repo view worker (w, files) = (r, (w', files')) ∧ rest w' = rest w ∧
  run_leaves repo view worker files w m sl r w' files'.
Proof.
  intros Hsync Hok Hig Hclean. unfold index_with_worker.
  set (version := parse_version worker). set (db := sq_open (vf_db files)) in *.
  set (opened := mkViewFiles (Some db) (vf_base files) (vf_fmt files)).
  destruct (commit_spec repo view version opened w db m sl Hsync Hok Hig Hclean)
    as (r & w1 & Hrun & Hrest & Hok1 & Hgrow & Hr).
  change (incremental_changes changed_paths version opened) with
    (incremental_changes changed_paths version files) in Hr.
  unfold mbind at 1, M_bind at 1. rewrite Hrun. destruct r as [[[dv st] recon]|e].
  2: { exists (Err e), w1, opened. split; [done|]. split; [done|]. destruct Hr as [Hc Hwhy].
       split_and!; try done. destruct Hsync as [S1 S2 S3 S4 S5].
       split; [by rewrite Hc|done|done| |done]. intros rel g Hg.
       destruct (S4 rel g Hg) as [t Ht]. exists t. by apply Hgrow. }
  destruct Hr as (st0 & Hrecon & Hst & Hdo & Hbuilt & _ & s & Hc1 & Hs & Hbody).
  destruct (staged_entries m dv st0 w1 sl Hdo (sy_entries _ _ _ _ _ _ Hsync)) as [Hsl' Hfrom].
  rewrite <-Hrecon, <-Hst in Hsl', Hfrom. set (sl' := staged st sl) in *.
  assert (∀ rel g, sl' !! rel = Some g → holds_slice w1 g) as Hheld.
  { intros rel g [Hin|Hin]%Hfrom; [by eapply (do_held _ _ _ _ _ Hdo)|].
    destruct (sy_held _ _ _ _ _ _ Hsync rel g Hin) as [t Ht]. exists t. by apply Hgrow. }
  destruct (ensure_present (newly_referenced recon) st w1 Hok1) as (w2 & Hens & Hg2 & Hb2).
  { intros [p h] Hp. subst recon. apply elem_of_newly_referenced in Hp. cbn.
    pose proof (Hsl' p) as Hp'. rewrite Hp in Hp'.
    destruct (sl' !! p) as [g|] eqn:Hg; [|done]. injection Hp' as <-.
    destruct (Hheld p g Hg) as [t Ht]. by eexists. }
  unfold mbind, M_bind. rewrite Hens. destruct Hg2 as (Hc2 & Hr2 & Ho2 & _).
  eexists (Ok _), w2, _. split; [done|]. split; [congruence|]. cbn [vf_db vf_fmt vf_base].
  exists sl'. split_and!; [|intros rel; rewrite Hsl'; apply Hbuilt|done|done].
  assert (slice_hash <$> sl' = dv_entries dv) as Hent
    by (apply map_eq; intros rel; rewrite lookup_fmap; apply Hsl').
  split.
  - rewrite Hc2, Hc1, lookup_insert_eq. cbn. rewrite Hs. by rewrite Hent.
  - apply apply_staging_holds. exact (sy_graph _ _ _ _ _ _ Hsync).
  - done.
  - intros rel g Hg. destruct (Hheld rel g Hg) as [t Ht]. exists t. by rewrite Hb2.
  - by apply Ho2.
Qed.

(** C19: a run keeps a view in step.  Over a lawful store, where git names no ignored
    path, a run that succeeds leaves a manifest, a graph and stored slices that
    agree entry by entry, for exactly the entries the driver desired, and records
    the format that produced them; a run that fails leaves the manifest, the graph
    and the recorded base and format as they were, and fails only because a source
    could not be read on a full walk or the manifest was deleted. *)
Theorem index_keeps_view_in_sync (repo view : string) (worker : option (option N))
    (files : ViewFiles) (w : W) (m : manifest) (sl : gmap string CodeGraph) :
  in_sync repo view w (sq_open (vf_db files)) m sl →
  tree_ok root → ignores_below git_ignores → git_clean → ∃ r w' files',
  run repo view worker (w, files) = (r, (w', files')) ∧ rest w' = rest w ∧
  run_leaves repo view worker files w m sl r w' files'.
Proof. apply index_run. Qed.

(** Where every source reads and parses, a run leaves the tree's view. *)
Lemma index_converges_run (repo view : string) (worker : option (option N))
    (files : ViewFiles) (w : W) (m : manifest) (sl : gmap string CodeGraph) :
  in_sync repo view w (sq_open (vf_db files)) m sl →
  tree_ok root → ignores_below git_ignores → git_clean → all_parse →
  ¬ buried_manifest (contents w !! Manifest_key repo view) →
  (∀ changed, incremental_changes changed_paths (parse_version worker) files = Some changed →
     ∃ base, exact_changes base changed ∧ ∀ rel, admitted f git_ignores rel = true →
       entries m !! rel = slice_hash <$> view_entry parse_file f git_ignores base rel) →
  ∃ summary w' files' sl',
    run repo view worker (w, files) = (Ok summary, (w', files')) ∧
    in_sync repo view w' (sq_open (vf_db files')) (mkManifest (slice_hash <$> sl')) sl' ∧
    ∀ rel, sl' !! rel = entry rel.
Proof.
  intros Hsync Hok Hig Hclean Hparse Hbur Hchanges.
  destruct (index_run repo view worker files w m sl Hsync Hok Hig Hclean)
    as ([summary|e] & w' & files' & Hrun & _ & Hr).
  - destruct Hr as (sl' & Hsync' & Hent & _). exists summary, w', files', sl'.
    split; [done|]. split; [done|]. intros rel. apply (inj (fmap slice_hash)). rewrite Hent.
    destruct (incremental_changes _ _ _) as [changed|] eqn:Hch; [|done].
    destruct (Hchanges changed eq_refl) as (base & Hexact & Hbase).
    by apply (incremental_is_view m base).
  - exfalso. destruct Hr as (_ & _ & _ & _ & _ & [[_ [p Hp]]|?]); [|done].
    destruct Hp as (Hn & Hp & [lang Hl] & Ha).
    by destruct (unreadable_not_parsed p lang).
Qed.

(** C18: indexing converges.  Where every source reads and parses and the manifest was
    not deleted, a run over a view in step succeeds, and the view it leaves is
    exactly the tree's, file by file.  A run that walks the tree needs nothing more.
    A run that goes by git's changes needs them to be exact against some tree that
    the view is of; the program does not ensure that, as the base it records is a
    commit and not the tree it indexed ([unreported_paths_go_stale]). *)
Theorem index_converges (repo view : string) (worker : option (option N))
    (files : ViewFiles) (w : W) (m : manifest) (sl : gmap string CodeGraph) :
  in_sync repo view w (sq_open (vf_db files)) m sl →
  tree_ok root → ignores_below git_ignores → git_clean → all_parse →
  ¬ buried_manifest (contents w !! Manifest_key repo view) →
  (∀ changed, incremental_changes changed_paths (parse_version worker) files = Some changed →
     ∃ base, exact_changes base changed ∧ ∀ rel, admitted f git_ignores rel = true →
       entries m !! rel = slice_hash <$> view_entry parse_file f git_ignores base rel) →
  ∃ summary w' files' sl',
    run repo view worker (w, files) = (Ok summary, (w', files')) ∧
    in_sync repo view w' (sq_open (vf_db files')) (mkManifest (slice_hash <$> sl')) sl' ∧
    ∀ rel, sl' !! rel = entry rel.
Proof. apply index_converges_run. Qed.

(** What the graph file holds does not influence the run. *)
Lemma run_any_graph repo view worker files db w r w' files' :
  run repo view worker (w, files) = (r, (w', files')) →
  ∃ files'', run repo view worker (w, mkViewFiles db (vf_base files) (vf_fmt files)) =
    (r, (w', files'')).
Proof.
  unfold index_with_worker. cbn [vf_db vf_base vf_fmt].
  change (commit_manifest store blobs parse_file f git_ignores root changed_paths repo view
    (parse_version worker) (mkViewFiles (Some (sq_open db)) (vf_base files) (vf_fmt files)))
  with (commit_manifest store blobs parse_file f git_ignores root changed_paths repo view
    (parse_version worker) (mkViewFiles (Some (sq_open (vf_db files))) (vf_base files) (vf_fmt files))).
  repeat case_match; intros [= <- <- _]; by eexists.
Qed.

(** ** Where a run falls short *)

(** A successful incremental run keeps whatever the view had for a path git does not
    report, whatever the tree holds there now: an uncommitted edit that was
    indexed and then undone, or an untracked file that was indexed and then
    deleted, stays in the view, because the base recorded is a commit and not the
    tree that was indexed. *)
Lemma unreported_paths_go_stale repo view worker files w m sl rel changed summary w' files' :
  in_sync repo view w (sq_open (vf_db files)) m sl →
  tree_ok root → ignores_below git_ignores → git_clean →
  incremental_changes changed_paths (parse_version worker) files = Some changed →
  rel ∉ ch_added changed ++ ch_modified changed → rel ∉ ch_deleted changed →
  admitted f git_ignores rel = true →
  run repo view worker (w, files) = (Ok summary, (w', files')) →
  ∃ sl', in_sync repo view w' (sq_open (vf_db files')) (mkManifest (slice_hash <$> sl')) sl' ∧
    sl' !! rel = sl !! rel.
Proof.
  intros Hsync Hok Hig Hclean Hch Hin Hdel Ha Hrun.
  destruct (index_run repo view worker files w m sl Hsync Hok Hig Hclean)
    as (r & w2 & files2 & Hrun2 & _ & Hr).
  rewrite Hrun in Hrun2. injection Hrun2 as <- <- <-. destruct Hr as (sl' & Hsync' & Hent & _).
  exists sl'. split; [done|]. apply (inj (fmap slice_hash)). rewrite Hent, Hch.
  unfold incremental_entry. rewrite decide_False, decide_False, Ha by done.
  by rewrite (sy_entries _ _ _ _ _ _ Hsync), lookup_fmap.
Qed.

Lemma apply_staging_keeps_rows st db p :
  (∀ g, (p, g) ∉ inserts st) → p ∉ removes st →
  filter (λ r, sr_path r = p) (t_symbols (apply_staging st db)) =
  filter (λ r, sr_path r = p) (t_symbols db).
Proof.
  assert (∀ q db, q ≠ p → filter (λ r, sr_path r = p) (t_symbols (sq_remove_path q db)) =
    filter (λ r, sr_path r = p) (t_symbols db)) as Hremove.
  { intros q db0 Hq. cbn. rewrite list_filter_filter. apply list_filter_iff. intros r.
    split; [tauto|]. intros ->. by split. }
  unfold apply_staging. intros Hins Hrem. transitivity
    (filter (λ r, sr_path r = p) (t_symbols (foldl (λ db p, sq_insert p.1 p.2 db) db (inserts st)))).
  - generalize (foldl (λ db p, sq_insert p.1 p.2 db) db (inserts st)).
    induction (removes st) as [|q rs IH]; intros db0; cbn [foldl]; [done|].
    rewrite IH by (intros ?; apply Hrem; by right). apply Hremove. intros ->. apply Hrem. left.
  - revert db. induction (inserts st) as [|[q g] ins IH]; intros db; cbn [foldl]; [done|].
    rewrite IH by (intros g' Hg'; apply (Hins g'); by right).
    assert (q ≠ p) as Hq by (intros ->; apply (Hins g); left).
    unfold sq_insert. cbn [fst snd t_symbols]. rewrite filter_app.
    assert (filter (λ r, sr_path r = p) (symbol_row q <$> cg_symbols g) = []) as ->.
    { apply elem_of_nil_inv. intros r [Hr (x & -> & _)%list_elem_of_fmap]%list_elem_of_filter.
      done. }
    rewrite app_nil_r. by apply Hremove.
Qed.

(** Rows outlive their manifest entry.  A file whose entry the manifest has lost
    but whose rows the graph still has, which is what a run leaves that stops
    between its commit and the graph's update, keeps those rows through every later
    successful run that does not find the file again, full walks included: only
    paths the manifest still names are ever removed. *)
Theorem stale_rows_survive_reindexing (repo view : string) (worker : option (option N))
    (files : ViewFiles) (w : W) (m : manifest) (sl : gmap string CodeGraph) (db0 : Db)
    (p : string) (summary : IndexSummary) (w' : W) (files' : ViewFiles) :
  in_sync repo view w db0 m sl → tree_ok root → ignores_below git_ignores → git_clean →
  entries m !! p = None → entry p = None →
  (∀ changed, incremental_changes changed_paths (parse_version worker) files = Some changed →
     p ∉ ch_added changed ++ ch_modified changed) →
  run repo view worker (w, files) = (Ok summary, (w', files')) →
  filter (λ r, sr_path r = p) (t_symbols (sq_open (vf_db files'))) =
  filter (λ r, sr_path r = p) (t_symbols (sq_open (vf_db files))).
Proof.
  intros Hsync Hok Hig Hclean Hm He Hch Hrun. unfold index_with_worker in Hrun.
  set (version := parse_version worker) in *. set (db := sq_open (vf_db files)) in *.
  destruct (commit_spec repo view version (mkViewFiles (Some db) (vf_base files) (vf_fmt files))
    w db0 m sl Hsync Hok Hig Hclean) as (r & w1 & Hcommit & _ & _ & _ & Hr).
  unfold mbind at 1, M_bind at 1 in Hrun. rewrite Hcommit in Hrun.
  destruct r as [[[dv st] recon]|e]; [|by injection Hrun].
  destruct Hr as (st0 & Hrecon & -> & Hdo & _ & Hsrc & _).
  unfold mbind, M_bind in Hrun. destruct (ensure_slices_present _ _ _ w1) as [[n|e] w2]; [|done].
  injection Hrun as <- <- <-. cbn [vf_db sq_open default].
  assert (∀ g, (p, g) ∉ inserts st0) as Hins.
  { intros g Hin%Hsrc. unfold incremental_changes in *. cbn in Hin.
    destruct (if decide (vf_fmt files = Some version) then _ else None) as [changed|]; [|congruence].
    by apply (Hch changed). }
  apply apply_staging_keeps_rows; cbn; [done|]. rewrite elem_of_app.
  intros [Hin|Hin].
  - apply (do_removed _ _ _ _ _ Hdo) in Hin as [[h Hh]|[g Hg]]; [congruence|by apply (Hins g)].
  - subst recon. destruct (manifest_reconcile_spec m (dv_entries dv)) as (_ & _ & _ & Hdel & _).
    apply Hdel in Hin as [[h Hh] _]. congruence.
Qed.
End runs.

(** ** A small repository to run on *)

Section witnesses.
#[local] Existing Instance sample_hash.
#[local] Existing Instance sample_serde.
#[local] Existing Instance sample_slices.
#[local] Existing Instance sample_sqlite.

Definition sample_root : list (string * Tree) :=
  [("main.rs", TFile (Some "main")); ("lib.rs", TFile (Some "lib")); ("dist", TDir (Some []))].
Definition sample_base : list (string * Tree) :=
  [("main.rs", TFile (Some "before")); ("old.rs", TFile (Some "old"))].
Definition sample_parse (lang : Language) (text : string) : option CodeGraph :=
  Some (mkCodeGraph [sample_fn text 1] [] []).
Definition sample_changes : ChangedPaths := mkChanged ["lib.rs"] ["main.rs"] ["old.rs"].
Definition sample_empty : sample_world := (∅, ∅, ∅).

Lemma sample_collision_free (b b' : bytes) : ContentHash_of b = ContentHash_of b' → b = b'.
Proof.
  unfold ContentHash_of. cbn. unfold blake3_hex, sample_hash. intros [= Heq].
  apply (f_equal bytes_of_string) in Heq. by rewrite !bytes_of_string_of_bytes in Heq.
Qed.

#[local] Instance sample_index_store_laws :
  StoreLaws store_a (λ w : sample_world, w.1.1) 32 (λ w, (w.2, w.1.2)) :=
  store_a_laws (λ p, (p.2, p.1)).
#[local] Instance sample_index_blobs_laws :
  BlobStoreLaws sample_blobs (λ w : sample_world, w.2) (λ w, (w.1.1, w.1.2)) :=
  sample_blobs_laws (λ p, (p.1, p.2)).

Lemma sample_trees_ok : tree_ok (TDir (Some sample_root)) ∧ tree_ok (TDir (Some sample_base)).
Proof.
  split; constructor; try (by apply (bool_decide_unpack _); vm_compute);
    intros name t Hin; repeat apply elem_of_cons in Hin as [[= -> ->]|Hin];
    try (by apply elem_of_nil in Hin); (split; [by vm_compute|split; [|done]]); constructor;
    try (by apply (bool_decide_unpack _); vm_compute); by intros ? ? ?%elem_of_nil.
Qed.

Lemma sample_blobs_empty : blobs_ok (λ w : sample_world, w.2) sample_empty.
Proof. intros h c t Hl. unfold sample_empty in Hl. cbn in Hl. by rewrite lookup_empty in Hl. Qed.

(** A tree of files at its root, path by path. *)
Ltac at_root := unfold regular_at;
  match goal with |- context [split_char slash_char ?rel] =>
    pose proof (concat_split_char rel) as Hrel;
    destruct (split_char slash_char rel) as [|? [|? ?]]; cbn in Hrel; subst
  end; cbn; repeat case_decide; cbn; try done.

Lemma sample_exact : exact_changes (λ _, false) sample_root (TDir (Some sample_base)) sample_changes.
Proof.
  split.
  - intros rel Hin. split; [done|]. cbn in Hin.
    repeat apply elem_of_cons in Hin as [->|Hin]; first [by eexists|by apply elem_of_nil in Hin].
  - intros rel Hin. cbn in Hin. repeat apply elem_of_cons in Hin as [->|Hin]; [done|].
    by apply elem_of_nil in Hin.
  - intros rel. cbn. rewrite !elem_of_cons, elem_of_nil. intros Hin Hdel. at_root; subst; tauto.
Qed.

Lemma sample_parses : all_parse sample_parse IndexFilter_default (λ _, false) sample_root.
Proof.
  intros rel c lang Hreg _ _. exists (default "" c). eexists. split; [|done].
  revert Hreg. at_root; by intros [= <-].
Qed.

Notation sample_index files := (index_with_worker store_a sample_blobs sample_parse
  IndexFilter_default (λ _, false) (TDir (Some sample_root)) (λ _, None) (Some "c0ffee")
  "repo" "main" None (sample_empty, files)).

Lemma sample_in_sync :
  in_sync (λ w : sample_world, w.1.1) (λ w, w.2) "repo" "main" sample_empty empty_db Manifest_new ∅.
Proof.
  split; [done|by split_and!|by rewrite fmap_empty| |apply sample_blobs_empty].
  intros rel g Hl. by rewrite lookup_empty in Hl.
Qed.

Lemma drivers_agree_witness :
  ∃ current full st w1 incremental st' w2,
    build_desired_full sample_blobs sample_parse IndexFilter_default (λ _, false)
      (TDir (Some sample_root)) sample_empty = (Ok (full, st), w1) ∧
    build_desired_incremental sample_blobs sample_parse IndexFilter_default (λ _, false)
      (TDir (Some sample_root)) current sample_changes sample_empty = (Ok (incremental, st'), w2) ∧
    dv_entries full = dv_entries incremental.
Proof.
  destruct (build_full_spec sample_blobs (λ w : sample_world, w.1.1) (λ w, w.2) (λ w, w.1.2)
    sample_collision_free sample_parse IndexFilter_default (λ _, false) sample_base sample_empty
    (proj2 sample_trees_ok) ltac:(done) sample_blobs_empty) as ([[dv st0]|e] & w0 & _ & _ & Hr).
  - destruct (drivers_agree sample_blobs (λ w : sample_world, w.1.1) (λ w, w.2) (λ w, w.1.2)
      sample_collision_free sample_parse IndexFilter_default (λ _, false) sample_root
      (mkManifest (dv_entries dv)) (TDir (Some sample_base)) sample_changes sample_empty
      (proj1 sample_trees_ok) ltac:(done) sample_blobs_empty sample_parses sample_exact)
      as (full & st & w1 & inc & st' & w2 & Hf & Hi & Heq & _).
    + intros rel _. apply Hr.
    + exists (mkManifest (dv_entries dv)), full, st, w1, inc, st', w2. by split_and!.
  - exfalso. destruct Hr as (p & (Hn & _) & _). revert Hn. cbn.
    destruct p as [|x [|y q]]; cbn; repeat case_decide; done.
Defined.

Lemma index_keeps_view_in_sync_witness :
  let files := mkViewFiles None None None in
  ∃ r w' files', sample_index files = (r, (w', files')) ∧ w'.1.2 = ∅.
Proof.
  intros files.
  destruct (index_keeps_view_in_sync store_a sample_blobs (λ w : sample_world, w.1.1) (λ w, w.2)
    (λ w, w.1.2) 32 sample_collision_free sample_parse IndexFilter_default (λ _, false) sample_root
    (λ _, None) (Some "c0ffee") "repo" "main" None files sample_empty Manifest_new ∅)
    as (r & w' & files' & Hrun & Hrest & _).
  - apply sample_in_sync.
  - apply sample_trees_ok.
  - done.
  - done.
  - exists r, w', files'. split; [exact Hrun|exact Hrest].
Defined.

(** A walk over the earlier tree, to go on from. *)
Lemma sample_base_parses : all_parse sample_parse IndexFilter_default (λ _, false) sample_base.
Proof.
  intros rel c lang Hreg _ _. exists (default "" c). eexists. split; [|done].
  revert Hreg. at_root; by intros [= <-].
Qed.

Definition sample_git (base : string) : option ChangedPaths :=
  if decide (base = "c0ffee") then Some sample_changes else None.

Lemma sample_first_run : ∃ summary w1 files1 (sl1 : gmap string CodeGraph),
  index_with_worker store_a sample_blobs sample_parse IndexFilter_default (λ _, false)
    (TDir (Some sample_base)) (λ _, None) (Some "c0ffee") "repo" "main" None
    (sample_empty, mkViewFiles None None None) = (Ok summary, (w1, files1)) ∧
  in_sync (λ w : sample_world, w.1.1) (λ w, w.2) "repo" "main" w1 (sq_open (vf_db files1))
    (mkManifest (slice_hash <$> sl1)) sl1 ∧
  (∀ rel, slice_hash <$> sl1 !! rel = slice_hash <$>
     view_entry sample_parse IndexFilter_default (λ _, false) (TDir (Some sample_base)) rel) ∧
  incremental_changes sample_git (parse_version None) files1 = Some sample_changes ∧
  ¬ buried_manifest (w1.1.1 !! Manifest_key "repo" "main").
Proof.
  destruct (index_run store_a sample_blobs (λ w : sample_world, w.1.1) (λ w, w.2)
    (λ w, w.1.2) 32 sample_collision_free sample_parse IndexFilter_default (λ _, false) sample_base
    (λ _, None) (Some "c0ffee") "repo" "main" None (mkViewFiles None None None) sample_empty
    Manifest_new ∅) as ([summary|e] & w1 & files1 & Hrun & _ & Hr);
    [apply sample_in_sync|apply sample_trees_ok|done|done| |].
  - destruct Hr as (sl1 & Hsync & Hent & Hfmt & Hbase). cbn in Hent, Hbase.
    exists summary, w1, files1, sl1. split_and!; [done..| |].
    + unfold incremental_changes. by rewrite Hfmt, decide_True, Hbase by done.
    + intros (t & k & Ht & Htomb & _). pose proof (sy_manifest _ _ _ _ _ _ _ _ Hsync) as Hm.
      cbv beta in Hm. rewrite Ht in Hm. cbn in Hm. rewrite Htomb in Hm.
      specialize (Hent "old.rs"). destruct (sl1 !! "old.rs") as [g|] eqn:Hg; [|by vm_compute in Hent].
      apply (f_equal (λ m, entries m !! "old.rs")) in Hm.
      cbn in Hm. rewrite lookup_fmap, Hg, lookup_empty in Hm. done.
  - exfalso. clear Hrun.
    destruct Hr as (_ & _ & _ & _ & _ & [(_ & p & Hn & Hp & [lang Hl] & Ha)|(t & k & Ht & _)]);
      [|vm_compute in Ht; discriminate]. exact (unreadable_not_parsed sample_parse IndexFilter_default (λ _, false)
        sample_base p lang (proj2 sample_trees_ok) sample_base_parses Hn Hp Hl Ha).
Qed.

(** A walk, and then a run by git's changes since. *)
Lemma index_converges_witness :
  (∃ summary w' files' (sl' : gmap string CodeGraph),
    sample_index (mkViewFiles None None None) = (Ok summary, (w', files')) ∧
    sl' !! "lib.rs" = Some (mkCodeGraph [sample_fn "lib" 1] [] [])) ∧
  ∃ w1 files1 summary w' files' (sl' : gmap string CodeGraph),
    incremental_changes sample_git (parse_version None) files1 = Some sample_changes ∧
    index_with_worker store_a sample_blobs sample_parse IndexFilter_default (λ _, false)
      (TDir (Some sample_root)) sample_git (Some "feed") "repo" "main" None (w1, files1) =
      (Ok summary, (w', files')) ∧
    sl' !! "lib.rs" = Some (mkCodeGraph [sample_fn "lib" 1] [] []) ∧ sl' !! "old.rs" = None.
Proof.
  split.
  - destruct (index_converges store_a sample_blobs (λ w : sample_world, w.1.1) (λ w, w.2)
      (λ w, w.1.2) 32 sample_collision_free sample_parse IndexFilter_default (λ _, false) sample_root
      (λ _, None) (Some "c0ffee") "repo" "main" None (mkViewFiles None None None) sample_empty
      Manifest_new ∅) as (summary & w' & files' & sl' & Hrun & _ & Hsl);
      [apply sample_in_sync|apply sample_trees_ok|done|done|apply sample_parses
      |by intros (t & k & ? & _)|done|].
    exists summary, w', files', sl'. split; [exact Hrun|]. rewrite Hsl. by vm_compute.
  - destruct sample_first_run as (s1 & w1 & files1 & sl1 & _ & Hsync & Hent & Hch & Hbur).
    destruct (index_converges store_a sample_blobs (λ w : sample_world, w.1.1) (λ w, w.2)
      (λ w, w.1.2) 32 sample_collision_free sample_parse IndexFilter_default (λ _, false) sample_root
      sample_git (Some "feed") "repo" "main" None files1 w1 _ sl1 Hsync)
      as (summary & w' & files' & sl' & Hrun & _ & Hsl);
      [apply sample_trees_ok|done|done|apply sample_parses|exact Hbur| |].
    + intros changed Hc. rewrite Hch in Hc. injection Hc as <-.
      exists (TDir (Some sample_base)). split; [exact sample_exact|]. intros rel _.
      cbn. rewrite lookup_fmap. apply Hent.
    + exists w1, files1, summary, w', files', sl'.
      split_and!; [exact Hch|exact Hrun|rewrite Hsl; by vm_compute..].
Defined.

Lemma stale_rows_survive_reindexing_witness :
  let files := mkViewFiles (Some (sq_insert "gone.rs" (mkCodeGraph [sample_fn "f" 1] [] []) empty_db))
                 None None in
  ∃ summary w' files', sample_index files = (Ok summary, (w', files')) ∧
    length (filter (λ r, sr_path r = "gone.rs") (t_symbols (sq_open (vf_db files')))) = 1.
Proof.
  intros files.
  destruct (index_run store_a sample_blobs (λ w : sample_world, w.1.1) (λ w, w.2)
    (λ w, w.1.2) 32 sample_collision_free sample_parse IndexFilter_default (λ _, false) sample_root
    (λ _, None) (Some "c0ffee") "repo" "main" None (mkViewFiles None None None) sample_empty
    Manifest_new ∅) as ([summary|e] & w' & files0 & Hrun & _ & Hr);
    [apply sample_in_sync|apply sample_trees_ok|done|done| |].
  - apply (run_any_graph _ _ _ _ _ _ _ _ _ _ _ _ (vf_db files)) in Hrun as [files' Hrun].
    exists summary, w', files'. split; [exact Hrun|].
    pose proof (stale_rows_survive_reindexing store_a sample_blobs (λ w : sample_world, w.1.1)
      (λ w, w.2) (λ w, w.1.2) 32 sample_collision_free sample_parse IndexFilter_default
      (λ _, false) sample_root (λ _, None) (Some "c0ffee") "repo" "main" None files sample_empty
      Manifest_new ∅ empty_db "gone.rs" summary w' files' sample_in_sync (proj1 sample_trees_ok)
      ltac:(by intros ???) ltac:(by intros ???) eq_refl ltac:(by vm_compute) ltac:(by intros ?)
      Hrun) as Hrows.
    by rewrite Hrows.
  - exfalso. clear Hrun.
    destruct Hr as (_ & _ & _ & _ & _ & [(_ & p & Hn & Hp & [lang Hl] & Ha)|(t & k & Ht & _)]);
      [|vm_compute in Ht; discriminate]. exact (unreadable_not_parsed sample_parse IndexFilter_default (λ _, false)
        sample_root p lang (proj1 sample_trees_ok) sample_parses Hn Hp Hl Ha).
Defined.
End witnesses.
