(* ===== verification/GraphViews.v ===== *)
(** * GraphViews: the views a service answers from

    Models [gonzalo-graph]'s [assembly.rs] and the code-graph half of
    [gonzalo-server]'s [service.rs]: a view is served from its persistent graph when
    one has been indexed and assembled from its slices otherwise, every query goes
    through that choice, and discovery lists the manifests.  Opening an existing
    database is rusqlite's. *)

From S2P Require Export IndexingSpec Resolve GraphQueries.
From S2P Require Import GraphSamples SampleStores.

Record ViewSummary := mkViewSummary {
  vs_repo : string; vs_view_id : string; vs_files : nat; vs_base_commit : option string
}.

Section views.
Context `{Blake3, ManifestSerde, SliceSerde, Sqlite} {W : Type}.
Context (store : Store W) (blobs : BlobStore W).

(** ** Assembly *)

Definition assemble_entry (s : InMemoryGraphStore) (entry : string * ContentHash) :
    M W CoreError InMemoryGraphStore :=
  o ← bs_get_blob blobs entry.2;
  match o with
  | Some b =>
      graph ← lift (map_err Serde (from_slice_bytes b));
      mret (InMemory_insert s entry.1 graph)
  | None => mret s
  end.

Definition assemble (m : manifest) : M W CoreError InMemoryGraphStore :=
  foldM assemble_entry InMemory_new (btree_items (entries m)).

(** ** Choosing the view *)

(** Where the indexer keeps its files, if configured; the files found there, by the
    path of the database; and opening one. *)
Context (graph_root : option string) (files : gmap string ViewFiles).
Context (open_existing : Db → result string Db).

Definition files_of (repo view_id : string) : option ViewFiles :=
  root ← graph_root; files !! view_db_path root repo view_id.

Definition load_manifest (repo view_id : string) : M W CoreError manifest :=
  let key := Manifest_key repo view_id in
  o ← st_get store key;
  match o with
  | Some r => lift (Manifest_from_body (rec_body r))
  | None => throw (NotFound key)
  end.

Definition view_exists (repo view_id : string) : M W CoreError bool :=
  match files_of repo view_id ≫= vf_db with
  | Some _ => mret true
  | None => o ← st_get store (Manifest_key repo view_id); mret (bool_decide (is_Some o))
  end.

Definition recorded_base (repo view_id : string) : option string :=
  base ← files_of repo view_id ≫= vf_base;
  if decide (base = "") then None else Some base.

(** By repository, then view. *)
Definition by_view : Cmp ViewSummary := λ a b,
  match cmp (vs_repo a) (vs_repo b) with Eq => cmp (vs_view_id a) (vs_view_id b) | c => c end.

Definition graph_views : M W CoreError (list ViewSummary) :=
  keys ← st_list store (mkPrefix None (Some MANIFEST_COLLECTION));
  out ← foldM (λ out key,
          o ← st_get store key;
          match o with
          | None => mret out
          | Some r =>
              m ← lift (Manifest_from_body (rec_body r));
              mret (out ++ [mkViewSummary (key_namespace key) (key_id key) (size (entries m))
                              (recorded_base (key_namespace key) (key_id key))])
          end) [] keys;
  mret (merge_sort (@ole _ by_view) out).

Definition view (repo view_id : string) : M W CoreError GraphStore :=
  match files_of repo view_id ≫= vf_db with
  | Some db => db ← lift (map_err Backend (open_existing db)); mret (sqlite_graph db)
  | None =>
      m ← load_manifest repo view_id;
      s ← assemble m;
      mret (in_memory s)
  end.

(** ** The queries *)

Definition graph_query {A} (q : GraphStore → A) (repo view_id : string) : M W CoreError A :=
  g ← view repo view_id; mret (q g).

Definition graph_definitions repo view_id name := graph_query (λ g, gs_definitions g name) repo view_id.
Definition graph_references_to repo view_id name :=
  graph_query (λ g, gs_references_to g name) repo view_id.
Definition graph_callers_of repo view_id name := graph_query (λ g, gs_callers_of g name) repo view_id.
Definition graph_callers_scoped repo view_id name :=
  graph_query (λ g, callers_scoped g name) repo view_id.
Definition graph_callees repo view_id name := graph_query (λ g, gs_callees g name) repo view_id.

(** One more step than the view has references, which [resolved_impact_exact] shows
    is enough. *)
Definition graph_impact repo view_id name max_depth : M W CoreError (option ImpactReport) :=
  graph_query (λ g, resolved_impact g (S (length (gs_all_references g))) name max_depth) repo view_id.

Definition graph_impact_names repo view_id name : M W CoreError (option (list string)) :=
  report ← graph_impact repo view_id name None;
  mret ((λ r, dedup (sort (node_name <$> reached r))) <$> report).

Definition graph_overview repo view_id largest := graph_query (λ g, overview g largest) repo view_id.
Definition graph_top repo view_id ranking limit := graph_query (λ g, GraphStore.top g ranking limit) repo view_id.
Definition graph_list repo view_id filter_ limit :=
  graph_query (λ g, list_symbols g filter_ limit) repo view_id.
Definition graph_unreferenced repo view_id filter_ exclude_tests limit :=
  graph_query (λ g, unreferenced g filter_ exclude_tests limit) repo view_id.

Definition graph_diff (repo view_a view_b : string) : M W CoreError GraphDiff :=
  a ← view repo view_a;
  b ← view repo view_b;
  mret (diff a b).
End views.

(** ** What assembly gives *)

Section assembly.
Context `{Blake3, ManifestSerde, SliceSerde, Sqlite} {W F : Type}.
Context (blobs : BlobStore W) (bl : W → gmap ContentHash (bytes * Z)) (frame : W → F).
Context `{!BlobStoreLaws blobs bl frame}.

(** The slice stored under a hash: absent, unreadable, or read. *)
Definition slice_at (w : W) (h : ContentHash) : option (result string CodeGraph) :=
  (λ p : bytes * Z, from_slice_bytes p.1) <$> bl w !! h.

Definition readable_slice (w : W) (h : ContentHash) : option CodeGraph :=
  r ← slice_at w h; match r with Ok g => Some g | Err _ => None end.

Lemma assemble_loop items s w :
  NoDup items.*1 → (∀ p h, (p, h) ∈ items → slices s !! p = None) → ∃ r w',
  foldM (assemble_entry blobs) s items w = (r, w') ∧ bl w' = bl w ∧ frame w' = frame w ∧
  match r with
  | Ok s' => (∀ p h, (p, h) ∈ items → slices s' !! p = readable_slice w h) ∧
      (∀ p, p ∉ items.*1 → slices s' !! p = slices s !! p) ∧
      (∀ p h e, (p, h) ∈ items → slice_at w h ≠ Some (Err e))
  | Err e => ∃ p h msg, (p, h) ∈ items ∧ slice_at w h = Some (Err msg) ∧ e = Serde msg
  end.
Proof.
  revert s w. induction items as [|[p h] items IH]; intros s w Hnd Hs.
  { exists (Ok s), w. split_and!; try done; intros; by match goal with H : _ ∈ [] |- _ =>
      apply elem_of_nil in H end. }
  rewrite foldM_cons. apply NoDup_cons in Hnd as [Hp Hnd].
  unfold assemble_entry at 1. destruct (law_get_blob (b := blobs) h w) as (w1 & Hget & Hf & Hb).
  unfold mbind at 1, M_bind at 1. cbn [fst snd]. rewrite Hget.
  assert (readable_slice w1 = readable_slice w ∧ slice_at w1 = slice_at w) as [Hr1 Hs1]
    by (unfold readable_slice, slice_at; by rewrite Hb).
  assert (slice_at w h = (λ p : bytes * Z, from_slice_bytes p.1) <$> bl w !! h) as Hat by done.
  assert (∀ s', slices s' !! p = readable_slice w h →
    (∀ q, q ≠ p → slices s' !! q = slices s !! q) →
    (∀ e, slice_at w h ≠ Some (Err e)) → ∃ r w',
    foldM (assemble_entry blobs) s' items w1 = (r, w') ∧ bl w' = bl w ∧ frame w' = frame w ∧
    match r with
    | Ok s'' => (∀ p' h', (p', h') ∈ (p, h) :: items → slices s'' !! p' = readable_slice w h') ∧
        (∀ p', p' ∉ ((p, h) :: items).*1 → slices s'' !! p' = slices s !! p') ∧
        (∀ p' h' e, (p', h') ∈ (p, h) :: items → slice_at w h' ≠ Some (Err e))
    | Err e => ∃ p' h' msg, (p', h') ∈ (p, h) :: items ∧ slice_at w h' = Some (Err msg) ∧
        e = Serde msg
    end) as Hgo.
  { intros s' Hhere Hother Hok. destruct (IH s' w1 Hnd) as (r & w' & Hrun & Hb' & Hf' & Hr).
    { intros q h' Hin. rewrite Hother; [apply (Hs q h'); by right|]. intros ->. apply Hp.
      apply list_elem_of_fmap. by exists (p, h'). }
    exists r, w'. rewrite Hr1, Hs1 in Hr. split_and!; [done|congruence|congruence|].
    destruct r as [s''|e].
    - destruct Hr as (R1 & R2 & R3). split_and!.
      + intros p' h' [[= -> ->]|Hin]%elem_of_cons; [|by apply R1]. by rewrite R2.
      + intros p' Hout. cbn in Hout. apply not_elem_of_cons in Hout as [Hne Hout].
        rewrite R2 by done. by apply Hother.
      + intros p' h' e [[= -> ->]|Hin]%elem_of_cons; [apply Hok|by eapply R3].
    - destruct Hr as (p' & h' & msg & Hin & Hrest). exists p', h', msg. split; [by right|done]. }
  destruct (bl w !! h) as [[b t]|] eqn:Hbl; cbn [fmap option_fmap option_map fst] in Hat |- *.
  - destruct (from_slice_bytes b) as [g|e] eqn:Hg; cbn.
    + apply Hgo; [| |by rewrite Hat].
      * unfold readable_slice. rewrite Hat. cbn. apply lookup_insert_eq.
      * intros q Hq. by apply lookup_insert_ne.
    + exists (Err (Serde e)), w1. split_and!; [done..|]. exists p, h, e. split_and!; [left|done|done].
  - apply Hgo; [|done|by rewrite Hat]. unfold readable_slice. rewrite Hat. cbn.
    apply (Hs p h). left.
Qed.

(** Assembly is the manifest with its slices put back.  It either yields the graph
    that holds, under every manifest path, the slice its blob decodes to, a path
    whose blob is missing being left out and nothing else added, or fails because
    some blob that is present does not decode; blobs are only read. *)
Lemma assemble_is_manifest (m : manifest) (w : W) : ∃ r w',
  assemble blobs m w = (r, w') ∧ bl w' = bl w ∧ frame w' = frame w ∧
  match r with
  | Ok s => (∀ p, slices s !! p = (h ← entries m !! p; readable_slice w h)) ∧
      (∀ p h e, entries m !! p = Some h → slice_at w h ≠ Some (Err e))
  | Err e => ∃ p h msg, entries m !! p = Some h ∧ slice_at w h = Some (Err msg) ∧ e = Serde msg
  end.
Proof.
  unfold assemble. destruct (assemble_loop (btree_items (entries m)) InMemory_new w)
    as (r & w' & Hrun & Hb & Hf & Hr).
  - rewrite fst_btree_items. apply increasing_NoDup, btree_keys_increasing.
  - intros p h _. cbn. apply lookup_empty.
  - exists r, w'. split_and!; [done..|]. destruct r as [s|e].
    + destruct Hr as (R1 & R2 & R3). split.
      * intros p. destruct (entries m !! p) as [h|] eqn:E; cbn.
        -- apply R1, elem_of_btree_items, E.
        -- rewrite R2; [apply lookup_empty|]. rewrite fst_btree_items, elem_of_btree_keys, E.
           by intros [? ?].
      * intros p h e Hp. apply (R3 p h e), elem_of_btree_items, Hp.
    + destruct Hr as (p & h & msg & Hin & Hrest). exists p, h, msg. split; [|done].
      by apply elem_of_btree_items.
Qed.
End assembly.

(** ** What a service serves *)

Section serving.
Context `{Blake3, ManifestSerde, SliceSerde, Sqlite} {W F : Type}.
Context (store : Store W) (blobs : BlobStore W).
Context (contents : W → records) (bl : W → gmap ContentHash (bytes * Z)) (rest : W → F).
Context (cap : nat).
Context `{!StoreLaws store contents cap (λ w, (bl w, rest w))}.
Context `{!BlobStoreLaws blobs bl (λ w, (contents w, rest w))}.
Context (graph_root : option string) (open_existing : Db → result string Db).

#[local] Notation in_sync := (IndexingSpec.in_sync contents bl).

(** A view is known by its graph's file or its manifest. *)
Definition known (files : gmap string ViewFiles) (repo view_id : string) (w : W) : Prop :=
  is_Some (files_of graph_root files repo view_id ≫= vf_db) ∨
  is_Some (live (contents w !! Manifest_key repo view_id)).

(** The file, where there is one, is the graph the view is in step with. *)
Definition file_current (files : gmap string ViewFiles) (repo view_id : string) (db : Db) : Prop :=
  ∀ db', files_of graph_root files repo view_id ≫= vf_db = Some db' →
    db' = db ∧ open_existing db = Ok db.

Lemma held_readable (w : W) (g : CodeGraph) :
  holds_slice bl w g → readable_slice bl w (slice_hash g) = Some g.
Proof using.
  intros [t Ht]. unfold readable_slice, slice_at. rewrite Ht. cbn. by rewrite slice_roundtrip.
Qed.

(** The slices of a view in step are those its manifest assembles to. *)
Lemma assembled_in_sync repo view_id w db m sl :
  in_sync repo view_id w db m sl → ∃ w',
  assemble blobs m w = (Ok (mkInMemory sl), w') ∧ contents w' = contents w ∧ bl w' = bl w ∧
  rest w' = rest w.
Proof using BlobStoreLaws0.
  intros Hsync. destruct (assemble_is_manifest blobs bl _ m w) as (r & w' & Hrun & Hb & [= Hc Hr] & Hres).
  exists w'. assert (∀ p, entries m !! p = slice_hash <$> sl !! p) as Hent
    by (intros p; by rewrite (sy_entries _ _ _ _ _ _ _ _ Hsync), lookup_fmap).
  destruct r as [[got]|e].
  - destruct Hres as [Hgot _]. split_and!; try done. rewrite Hrun. do 3 f_equal.
    apply map_eq. intros p. cbn in Hgot. rewrite Hgot, Hent. destruct (sl !! p) as [g|] eqn:Hg; [|done].
    cbn. eapply held_readable, sy_held; done.
  - exfalso. destruct Hres as (p & h & msg & Hp & Hat & _). rewrite Hent in Hp.
    destruct (sl !! p) as [g|] eqn:Hg; [|done]. injection Hp as <-.
    destruct (sy_held _ _ _ _ _ _ _ _ Hsync p g Hg) as [t Ht].
    unfold slice_at in Hat. rewrite Ht in Hat. cbn in Hat. by rewrite slice_roundtrip in Hat.
Qed.

Lemma load_manifest_spec repo view_id w db m sl :
  in_sync repo view_id w db m sl → ∃ w',
  load_manifest store repo view_id w =
    (match live (contents w !! Manifest_key repo view_id) with
     | Some _ => Ok m | None => Err (NotFound (Manifest_key repo view_id)) end, w') ∧
  contents w' = contents w ∧ bl w' = bl w ∧ rest w' = rest w.
Proof using StoreLaws0.
  intros Hsync. destruct (law_get (s := store) (Manifest_key repo view_id) w)
    as (w' & Hget & Hc & [= Hb Hr]).
  exists w'. split; [|done]. unfold load_manifest, mbind, M_bind. rewrite Hget.
  pose proof (sy_manifest _ _ _ _ _ _ _ _ Hsync) as Hm.
  destruct (live _) as [r|]; [|done]. by rewrite Hm.
Qed.

(** What the service opens for a view. *)
Definition serves (files : gmap string ViewFiles) (repo view_id : string) (w : W)
    (sl : gmap string CodeGraph) (r : result CoreError GraphStore) : Prop :=
  match r with
  | Ok g => known files repo view_id w ∧ answers_alike g (in_memory (mkInMemory sl)) ∧
      GraphStoreLaws g
  | Err e => ¬ known files repo view_id w ∧ e = NotFound (Manifest_key repo view_id)
  end.

Lemma view_serves files repo view_id w db m sl :
  in_sync repo view_id w db m sl → (∀ p g, sl !! p = Some g → usize_sized g) →
  file_current files repo view_id db → ∃ r w',
  view store blobs graph_root files open_existing repo view_id w = (r, w') ∧
  contents w' = contents w ∧ bl w' = bl w ∧ rest w' = rest w ∧ serves files repo view_id w sl r.
Proof using StoreLaws0 BlobStoreLaws0.
  intros Hsync Hsized Hfile. unfold view, serves, known.
  destruct (files_of graph_root files repo view_id ≫= vf_db) as [db'|] eqn:Hdb.
  - destruct (Hfile db' Hdb) as [-> Hopen]. exists (Ok (sqlite_graph db)), w.
    unfold mbind, M_bind. rewrite Hopen. split_and!; [done..|left; by eexists| |].
    + apply sqlite_alike; [apply (sy_graph _ _ _ _ _ _ _ _ Hsync)|done].
    + eapply (sqlite_laws db (mkInMemory sl)); [apply (sy_graph _ _ _ _ _ _ _ _ Hsync)|done].
  - destruct (load_manifest_spec repo view_id w db m sl Hsync) as (w1 & Hload & Hc & Hb & Hr).
    unfold mbind, M_bind. rewrite Hload.
    destruct (live (contents w !! Manifest_key repo view_id)) as [rec|] eqn:Hlive.
    + assert (in_sync repo view_id w1 db m sl) as Hsync1.
      { destruct Hsync as [S1 S2 S3 S4 S5]. split; [by rewrite Hc|done|done| |].
        - intros rel g Hg. destruct (S4 rel g Hg) as [t Ht]. exists t. by rewrite Hb.
        - unfold blobs_ok in *. by rewrite Hb. }
      destruct (assembled_in_sync repo view_id w1 db m sl Hsync1) as (w2 & Hrun & Hc2 & Hb2 & Hr2).
      rewrite Hrun. exists (Ok (in_memory (mkInMemory sl))), w2. split; [done|].
      split_and!; [congruence..|right; by eexists|apply answers_alike_refl|apply _].
    + eexists (Err _), w1. split_and!; try done. by intros [[? ?]|[? ?]].
Qed.

Lemma view_exists_spec files repo view_id w : ∃ b w',
  view_exists store graph_root files repo view_id w = (Ok b, w') ∧ contents w' = contents w ∧
  bl w' = bl w ∧ rest w' = rest w ∧ (b = true ↔ known files repo view_id w).
Proof using StoreLaws0.
  unfold view_exists, known. destruct (_ ≫= vf_db) as [db|].
  - exists true, w. split_and!; try done. split; [intros _; left; by eexists|done].
  - destruct (law_get (s := store) (Manifest_key repo view_id) w) as (w' & Hget & Hc & [= Hb Hr]).
    unfold mbind, M_bind. rewrite Hget. eexists _, w'. split_and!; [done..|].
    rewrite bool_decide_eq_true. split; [by right|by intros [[? ?]|?]].
Qed.

(** A service answers from the view.  A view in step is opened, from its persistent
    graph if there is one and assembled from its slices if not, as a backend that
    gives the in-memory store's answers over exactly the view's slices, so which of
    the two was used never shows in an answer; a view with neither a graph nor a
    manifest is an error naming it and never an empty graph, and [view_exists] says
    beforehand which it will be.  Nothing is written. *)
Theorem service_answers_from_view (files : gmap string ViewFiles) (repo view_id : string) (w : W)
    (db : Db) (m : manifest) (sl : gmap string CodeGraph) :
  in_sync repo view_id w db m sl → (∀ p g, sl !! p = Some g → usize_sized g) →
  file_current files repo view_id db → ∃ b r w1 w2,
  view_exists store graph_root files repo view_id w = (Ok b, w1) ∧
  view store blobs graph_root files open_existing repo view_id w = (r, w2) ∧
  contents w2 = contents w ∧ bl w2 = bl w ∧ rest w2 = rest w ∧
  match r with
  | Ok g => b = true ∧ answers_alike g (in_memory (mkInMemory sl)) ∧ GraphStoreLaws g
  | Err e => b = false ∧ e = NotFound (Manifest_key repo view_id)
  end.
Proof using StoreLaws0 BlobStoreLaws0.
  intros Hsync Hsized Hfile.
  destruct (view_exists_spec files repo view_id w) as (b & w1 & Hex & _ & _ & _ & Hb).
  destruct (view_serves files repo view_id w db m sl Hsync Hsized Hfile)
    as (r & w2 & Hview & Hc & Hbl & Hr & Hserve).
  exists b, r, w1, w2. split_and!; try done. destruct r as [g|e]; cbn in Hserve.
  - by rewrite Hb.
  - destruct Hserve as [Hk He]. split; [|done]. apply not_true_iff_false. by rewrite Hb.
Qed.

(** ** Discovery *)

Lemma Forall2_partner {A B} (R : A → B → Prop) l k x :
  Forall2 R l k → x ∈ l → ∃ y, y ∈ k ∧ R x y.
Proof using.
  induction 1 as [|x' y l k HR _ IH]; [by intros ?%elem_of_nil|].
  intros [->|Hin]%elem_of_cons; [exists y; by split; [left|]|].
  destruct (IH Hin) as (z & ? & ?). exists z. by split; [right|].
Qed.

(** What discovery says of a manifest's key. *)
Definition summarises (files : gmap string ViewFiles) (w : W) (key : RecordKey) (v : ViewSummary) :
    Prop := ∃ r m,
  live (contents w !! key) = Some r ∧ Manifest_from_body (rec_body r) = Ok m ∧
  v = mkViewSummary (key_namespace key) (key_id key) (size (entries m))
        (recorded_base graph_root files (key_namespace key) (key_id key)).

Definition summarise_entry (files : gmap string ViewFiles) (out : list ViewSummary) (key : RecordKey) :
    M W CoreError (list ViewSummary) :=
  o ← st_get store key;
  match o with
  | None => mret out
  | Some r =>
      m ← lift (Manifest_from_body (rec_body r));
      mret (out ++ [mkViewSummary (key_namespace key) (key_id key) (size (entries m))
                      (recorded_base graph_root files (key_namespace key) (key_id key))])
  end.

Lemma summarise_loop files keys out w :
  (∀ k, k ∈ keys → is_Some (live (contents w !! k))) → ∃ r w',
  foldM (summarise_entry files) out keys w = (r, w') ∧ contents w' = contents w ∧
  bl w' = bl w ∧ rest w' = rest w ∧
  match r with
  | Ok out' => ∃ l, out' = out ++ l ∧ Forall2 (summarises files w) keys l
  | Err e => ∃ k t, k ∈ keys ∧ live (contents w !! k) = Some t ∧
      Manifest_from_body (rec_body t) = Err e
  end.
Proof using StoreLaws0.
  revert out w. induction keys as [|k keys IH]; intros out w Hlive.
  { exists (Ok out), w. split_and!; try done. exists []. by rewrite app_nil_r. }
  rewrite foldM_cons. unfold summarise_entry at 1.
  destruct (law_get (s := store) k w) as (w1 & Hget & Hc & [= Hb Hr]).
  unfold mbind at 1, M_bind at 1. rewrite Hget.
  destruct (Hlive k ltac:(left)) as [t Ht]. rewrite Ht.
  destruct (Manifest_from_body (rec_body t)) as [m|e] eqn:Hm.
  - unfold mbind, M_bind at 1. cbn [lift].
    match goal with |- context [mret ?o w1] =>
      destruct (IH o w1) as (r & w' & Hrun & Hc' & Hb' & Hr' & Hres) end.
    { intros k' Hk'. rewrite Hc. apply Hlive. by right. }
    cbn [mret M_ret]. exists r, w'. split_and!; [done|congruence..|]. destruct r as [out'|e].
    + destruct Hres as (l & -> & Hl). eexists (_ :: l). rewrite <-app_assoc. split; [done|].
      constructor; [by exists t, m|]. unfold summarises in *. by rewrite Hc in Hl.
    + destruct Hres as (k' & t' & Hin & Hl & He). exists k', t'. rewrite Hc in Hl. split; [by right|done].
  - exists (Err e), w1. split_and!; try done. exists k, t. split; [left|done].
Qed.

Definition view_name (v : ViewSummary) : string * string := (vs_repo v, vs_view_id v).

(** Sorting by view sorts the names. *)
Lemma by_view_names l :
  view_name <$> merge_sort (@ole _ by_view) l = sort (view_name <$> l).
Proof using.
  apply (StronglySorted_unique ole).
  - assert (StronglySorted (@ole _ by_view) (merge_sort (@ole _ by_view) l)) as Hs.
    { assert (Transitive (@ole _ by_view)) as Htrans
        by (intros a b c; exact (transitivity (R := ole) (x := view_name a) (y := view_name b)
              (z := view_name c))).
      assert (Total (@ole _ by_view)) as Htotal
        by (intros a b; exact (ole_total (view_name a) (view_name b))).
      apply (StronglySorted_merge_sort _). }
    induction Hs as [|v vs _ IH Hv]; [constructor|]. cbn. constructor; [done|].
    apply Forall_fmap. eapply Forall_impl; [exact Hv|]. done.
  - apply sort_sorted.
  - by rewrite merge_sort_Permutation, sort_permutation.
Qed.

(** Discovery is the manifests.  Listing the views either fails on a live manifest
    that does not read back, or gives exactly one summary for each live manifest of
    the store, of any repository, with the number of files it names and the base
    commit recorded beside its graph, ordered by repository and then by view. *)
Theorem views_are_the_manifests (files : gmap string ViewFiles) (w : W) :
  keyed (contents w) → ∃ r w',
  graph_views store graph_root files w = (r, w') ∧ contents w' = contents w ∧
  bl w' = bl w ∧ rest w' = rest w ∧
  match r with
  | Ok out => increasing (view_name <$> out) ∧
      ∀ v, v ∈ out ↔ summarises files w (Manifest_key (vs_repo v) (vs_view_id v)) v
  | Err e => ∃ k t, live (contents w !! k) = Some t ∧ key_collection k = MANIFEST_COLLECTION ∧
      Manifest_from_body (rec_body t) = Err e
  end.
Proof using StoreLaws0.
  intros Hk. unfold graph_views. fold (summarise_entry files). set (prefix := mkPrefix None (Some MANIFEST_COLLECTION)).
  assert (∀ k, prefix_matches prefix k = true ↔ k = Manifest_key (key_namespace k) (key_id k)) as Hpre.
  { intros [ns c id]. unfold prefix_matches, prefix, Manifest_key. cbn.
    rewrite bool_decide_eq_true. split; [by intros ->|by intros [= ->]]. }
  destruct (law_list (s := store) prefix w Hk) as (keys & w1 & Hl & Hc1 & [= Hb1 Hr1] & Hnd & Hkeys).
  unfold mbind at 1, M_bind at 1. rewrite Hl.
  destruct (summarise_loop files keys [] w1) as (r & w2 & Hrun & Hc2 & Hb2 & Hr2 & Hres).
  { intros k Hin. rewrite Hc1. by apply Hkeys. }
  unfold mbind, M_bind. rewrite Hrun.
  destruct r as [out|e]; (eexists _, w2; split_and!; [reflexivity|congruence..|]).
  - destruct Hres as (l & -> & Hall). cbn [app].
    assert (∀ v, v ∈ l ↔ summarises files w (Manifest_key (vs_repo v) (vs_view_id v)) v) as Hin.
    { unfold summarises in *. rewrite Hc1 in Hall. intros v. split.
      - intros (k & Hk' & t & m & Ht & Hm & ->)%(Forall2_partner _ _ _ _ (proj2 (Forall2_flip _ _ _) Hall)). cbn.
        apply Hkeys in Hk' as [_ <-%Hpre]. by exists t, m.
      - intros (t & m & Ht & Hm & Hv).
        assert (Manifest_key (vs_repo v) (vs_view_id v) ∈ keys) as Hk'
          by (apply Hkeys; rewrite Ht; split; [by eexists|by apply Hpre]).
        destruct (Forall2_partner _ _ _ _ Hall Hk') as (v' & Hv' & t' & m' & Ht' & Hm' & He).
        assert (v' = v) as <-; [|done]. rewrite He, Hv. rewrite Ht in Ht'. injection Ht' as <-.
        rewrite Hm in Hm'. injection Hm' as <-. done. }
    split.
    + rewrite by_view_names. apply increasing_sort.
      assert (view_name <$> l = (λ k, (key_namespace k, key_id k)) <$> keys) as ->.
      { clear -Hall. induction Hall as [|k v keys l (t & m & _ & _ & ->) _ IH]; [done|].
        cbn. by rewrite IH. }
      apply NoDup_fmap_2_strong; [|done]. intros k k' [_ Hp%Hpre]%Hkeys [_ Hp'%Hpre]%Hkeys [= H3 H4].
      by rewrite Hp, Hp', H3, H4.
    + intros v. by rewrite merge_sort_Permutation.
  - destruct Hres as (k & t & Hin & Ht & He). apply Hkeys in Hin as [_ Hp].
    exists k, t. rewrite <-Hc1. split_and!; [done| |done]. apply Hpre in Hp. by rewrite Hp.
Qed.
End serving.

(** ** From a source tree to an answer *)

Section end_to_end.
Context `{Blake3, ManifestSerde, SliceSerde, Sqlite} {W F : Type}.
Context (store : Store W) (blobs : BlobStore W).
Context (contents : W → records) (bl : W → gmap ContentHash (bytes * Z)) (rest : W → F).
Context (cap : nat).
Context `{!StoreLaws store contents cap (λ w, (bl w, rest w))}.
Context `{!BlobStoreLaws blobs bl (λ w, (contents w, rest w))}.
Context (collision_free : ∀ b b' : bytes, ContentHash_of b = ContentHash_of b' → b = b').
Context (parse_file : Language → string → option CodeGraph).
Context (f : IndexFilter) (git_ignores : string → bool) (l : list (string * Tree)).
Context (changed_paths : string → option ChangedPaths) (head_commit : option string).
Context (graph_root : string) (open_existing : Db → result string Db).

Notation root := (TDir (Some l)).
Notation entry := (view_entry parse_file f git_ignores root).

(** The indexer's graph file is there after a run that succeeds. *)
Lemma index_leaves_graph repo view_id worker files w summary w' files' :
  index_with_worker store blobs parse_file f git_ignores root changed_paths head_commit repo view_id
    worker (w, files) = (Ok summary, (w', files')) →
  vf_db files' = Some (sq_open (vf_db files')).
Proof using.
  unfold index_with_worker.
  match goal with |- match ?run with _ => _ end = _ → _ => destruct run as [[[[dv st] recon]|e] w1] end;
    [|done]. by intros [= <- <- <-].
Qed.

Lemma query_on_file {A} (q : GraphStore → A) (files : gmap string ViewFiles) repo view_id db w :
  files_of (Some graph_root) files repo view_id ≫= vf_db = Some db → open_existing db = Ok db →
  graph_query store blobs (Some graph_root) files open_existing q repo view_id w =
    (Ok (q (sqlite_graph db)), w).
Proof using.
  intros Hat Hopen. unfold graph_query, view. unfold mbind at 1, M_bind. rewrite Hat.
  unfold mbind, lift. by rewrite Hopen.
Qed.

(** The definitions of a name in a tree. *)
Definition defined_at (name path : string) (s : Symbol) : Prop :=
  ∃ g, entry path = Some g ∧ s ∈ cg_symbols g ∧ sym_name s = name.

(** The calls of a name in a tree. *)
Definition calls_in (callee caller : string) : Prop :=
  ∃ path g r, entry path = Some g ∧ r ∈ cg_references g ∧ ref_name r = callee ∧
    ref_kind r ≠ Value ∧ ref_from r = Some caller.

(** C17: from a source tree to an answer.  After an indexing run over a readable tree in
    which every source parses, the service's answers to a query by name are those of
    the tree: its definitions are exactly the symbols of that name the sources
    define, with their paths, and its callers are, in order and once each, the
    functions whose sources call it.  This holds of a run that walks the tree; of a
    run that goes by git's changes it holds when these are exact against some tree
    that the view was of, which the program does not ensure
    ([IndexingSpec.unreported_paths_go_stale]). *)
Theorem query_answers_from_sources (repo view_id : string) (worker : option (option N))
    (files : ViewFiles) (others : gmap string ViewFiles) (w : W) (m : manifest)
    (sl : gmap string CodeGraph) (name : string) :
  IndexingSpec.in_sync contents bl repo view_id w (sq_open (vf_db files)) m sl →
  tree_ok root → ignores_below git_ignores → git_clean git_ignores changed_paths →
  all_parse parse_file f git_ignores l →
  ¬ buried_manifest (contents w !! Manifest_key repo view_id) →
  (∀ changed, incremental_changes changed_paths (parse_version worker) files = Some changed →
     ∃ base, exact_changes git_ignores l base changed ∧ ∀ rel, admitted f git_ignores rel = true →
       entries m !! rel = slice_hash <$> view_entry parse_file f git_ignores base rel) →
  (∀ rel g, entry rel = Some g → usize_sized g) → (∀ db, open_existing db = Ok db) →
  ∃ summary w' files',
    index_with_worker store blobs parse_file f git_ignores root changed_paths head_commit repo
      view_id worker (w, files) = (Ok summary, (w', files')) ∧
    let on_disk := <[view_db_path graph_root repo view_id := files']> others in
    ∃ found callers w1 w2,
      graph_definitions store blobs (Some graph_root) on_disk open_existing repo view_id name w' =
        (Ok found, w1) ∧
      graph_callers_of store blobs (Some graph_root) on_disk open_existing repo view_id name w' =
        (Ok callers, w2) ∧
      (∀ path s, mkLocated path s ∈ found ↔ defined_at name path s) ∧
      increasing callers ∧ (∀ caller, caller ∈ callers ↔ calls_in name caller).
Proof using StoreLaws0 BlobStoreLaws0 collision_free.
  intros Hsync Hok Hig Hclean Hparse Hbur Hchanges Hsized Hopen.
  destruct (index_converges_run store blobs contents bl rest cap collision_free parse_file f
    git_ignores l changed_paths head_commit repo view_id worker files w m sl Hsync Hok Hig Hclean
    Hparse Hbur Hchanges) as (summary & w' & files' & sl' & Hrun & Hsync' & Hsl').
  exists summary, w', files'. split; [done|]. intros on_disk.
  pose proof (index_leaves_graph _ _ _ _ _ _ _ _ Hrun) as Hdb.
  assert (files_of (Some graph_root) on_disk repo view_id ≫= vf_db =
    Some (sq_open (vf_db files'))) as Hat
    by (unfold files_of, on_disk; cbn; by rewrite lookup_insert_eq).
  set (db := sq_open (vf_db files')) in *.
  assert (answers_alike (sqlite_graph db) (in_memory (mkInMemory sl'))) as Halike.
  { apply sqlite_alike; [apply (sy_graph _ _ _ _ _ _ _ _ Hsync')|]. cbn. intros p g.
    rewrite Hsl'. apply Hsized. }
  exists (gs_definitions (sqlite_graph db) name), (gs_callers_of (sqlite_graph db) name), w', w'.
  split_and!; [by apply (query_on_file (λ g, gs_definitions g name) _ _ _ db)
              |by apply (query_on_file (λ g, gs_callers_of g name) _ _ _ db)| | |].
  - intros path s. rewrite (aa_definitions _ _ Halike), law_definitions, list_elem_of_filter.
    cbn. unfold mem_all_symbols. rewrite located_in_items, elem_of_items_of. cbn.
    setoid_rewrite Hsl'. unfold defined_at. naive_solver.
  - rewrite (aa_callers_of _ _ Halike). apply law_callers_of_sorted.
  - intros caller. rewrite (aa_callers_of _ _ Halike), law_callers_of. unfold calls_in. cbn.
    unfold mem_all_references. setoid_rewrite located_in_items. split.
    + intros ([path r] & (g & Hg & Hr)%elem_of_items_of & Hn & Hc & Hf). cbn in *.
      rewrite Hsl' in Hg. by exists path, g, r.
    + intros (path & g & r & Hg & Hr & Hn & Hc & Hf). exists (mkLocated path r).
      split; [|done]. apply elem_of_items_of. exists g. by rewrite Hsl'.
Qed.
End end_to_end.

(** ** A service to ask *)

Section witnesses.
#[local] Existing Instance sample_hash.
#[local] Existing Instance sample_serde.
#[local] Existing Instance sample_slices.
#[local] Existing Instance sample_sqlite.
#[local] Existing Instance sample_index_store_laws.
#[local] Existing Instance sample_index_blobs_laws.

Definition sample_disk : gmap string ViewFiles :=
  {[ view_db_path "/graph" "repo" "main" := mkViewFiles (Some empty_db) (Some "c0ffee") None ]}.

Lemma service_answers_from_view_witness :
  let files := sample_disk in
  ∃ r w1, view store_a sample_blobs (Some "/graph") files Ok "repo" "main" sample_empty = (r, w1) ∧
    w1.1.1 = ∅ ∧ match r with Ok g => GraphStoreLaws g | Err _ => False end.
Proof.
  intros files.
  destruct (service_answers_from_view store_a sample_blobs (λ w : sample_world, w.1.1) (λ w, w.2)
    (λ w, w.1.2) 32 (Some "/graph") Ok files "repo" "main" sample_empty empty_db Manifest_new ∅)
    as (b & r & w1 & w2 & Hex & Hview & Hc & _ & _ & Hr).
  - apply sample_in_sync.
  - intros p g Hl. by rewrite lookup_empty in Hl.
  - intros db. vm_compute. by intros [= <-].
  - assert (view_exists store_a (Some "/graph") files "repo" "main" sample_empty =
      (Ok true, sample_empty)) as He by (by vm_compute).
    rewrite He in Hex. injection Hex as <- <-. exists r, w2. split_and!; [done|exact Hc|].
    destruct r as [g|e]; [apply Hr|by destruct Hr].
Defined.

Lemma views_are_the_manifests_witness :
  ∃ r w', graph_views store_a (Some "/graph") sample_disk sample_empty = (r, w') ∧ w'.1.1 = ∅ ∧
    match r with Ok out => increasing (view_name <$> out) | Err _ => True end.
Proof.
  destruct (views_are_the_manifests store_a (λ w : sample_world, w.1.1) (λ w, w.2)
    (λ w, w.1.2) 32 (Some "/graph") sample_disk sample_empty)
    as (r & w' & Hrun & Hc & _ & _ & Hr).
  - intros k r Hl. cbn in Hl. by rewrite lookup_empty in Hl.
  - exists r, w'. split; [exact Hrun|]. split; [exact Hc|]. destruct r as [out|e]; [apply Hr|exact I].
Defined.

Lemma sample_slice_sized text : usize_sized (mkCodeGraph [sample_fn text 1] [] []).
Proof.
  split_and!; cbn.
  - by intros s ->%list_elem_of_singleton.
  - by intros r ?%elem_of_nil.
  - by intros i ?%elem_of_nil.
Qed.

Lemma sample_entries_sized rel g :
  view_entry sample_parse IndexFilter_default (λ _, false) (TDir (Some sample_root)) rel = Some g →
  usize_sized g.
Proof.
  unfold view_entry. case_match; [|done].
  destruct (regular_at _ rel) as [[text|]|]; try done. cbn. destruct (last _ ≫= _); [|done].
  intros [= <-]. by apply sample_slice_sized.
Qed.

(** A walk of a first tree, and then a run by git's changes since: what was added is
    found, what was deleted is not. *)
Lemma query_answers_from_sources_witness :
  (∃ summary w' files' found w1,
    index_with_worker store_a sample_blobs sample_parse IndexFilter_default (λ _, false)
      (TDir (Some sample_root)) (λ _, None) (Some "c0ffee") "repo" "main" None
      (sample_empty, mkViewFiles None None None) = (Ok summary, (w', files')) ∧
    graph_definitions store_a sample_blobs (Some "/graph")
      (<[view_db_path "/graph" "repo" "main" := files']> ∅) Ok "repo" "main" "lib" w' =
      (Ok found, w1) ∧
    mkLocated "lib.rs" (sample_fn "lib" 1) ∈ found) ∧
  ∃ w0 files0 summary w' files' found w1,
    incremental_changes sample_git (parse_version None) files0 = Some sample_changes ∧
    index_with_worker store_a sample_blobs sample_parse IndexFilter_default (λ _, false)
      (TDir (Some sample_root)) sample_git (Some "feed") "repo" "main" None (w0, files0) =
      (Ok summary, (w', files')) ∧
    graph_definitions store_a sample_blobs (Some "/graph")
      (<[view_db_path "/graph" "repo" "main" := files']> ∅) Ok "repo" "main" "old" w' =
      (Ok found, w1) ∧
    ∀ s, mkLocated "old.rs" s ∉ found.
Proof.
  split.
  - destruct (query_answers_from_sources store_a sample_blobs (λ w : sample_world, w.1.1)
      (λ w, w.2) (λ w, w.1.2) 32 sample_collision_free sample_parse IndexFilter_default
      (λ _, false) sample_root (λ _, None) (Some "c0ffee") "/graph" Ok "repo" "main" None
      (mkViewFiles None None None) ∅ sample_empty Manifest_new ∅ "lib")
      as (summary & w' & files' & Hrun & found & callers & w1 & w2 & Hdefs & _ & Hin & _);
      [apply sample_in_sync|apply sample_trees_ok|done|done|apply sample_parses
      |by intros (t & k & ? & _)|done|exact sample_entries_sized|done|].
    exists summary, w', files', found, w1. split; [exact Hrun|]. split; [exact Hdefs|].
    apply Hin. exists (mkCodeGraph [sample_fn "lib" 1] [] []).
    split; [by vm_compute|]. split; [left|done].
  - destruct sample_first_run as (s1 & w0 & files0 & sl0 & _ & Hsync & Hent & Hch & Hbur).
    destruct (query_answers_from_sources store_a sample_blobs (λ w : sample_world, w.1.1)
      (λ w, w.2) (λ w, w.1.2) 32 sample_collision_free sample_parse IndexFilter_default
      (λ _, false) sample_root sample_git (Some "feed") "/graph" Ok "repo" "main" None
      files0 ∅ w0 _ sl0 "old" Hsync)
      as (summary & w' & files' & Hrun & found & callers & w1 & w2 & Hdefs & _ & Hin & _);
      [apply sample_trees_ok|done|done|apply sample_parses|exact Hbur| |exact sample_entries_sized
      |done|].
    + intros changed Hc. rewrite Hch in Hc. injection Hc as <-.
      exists (TDir (Some sample_base)). split; [exact sample_exact|]. intros rel _.
      cbn. rewrite lookup_fmap. apply Hent.
    + exists w0, files0, summary, w', files', found, w1.
      split_and!; [exact Hch|exact Hrun|exact Hdefs|].
      intros s (g & Hg & _)%Hin. by vm_compute in Hg.
Defined.
End witnesses.
