(* ===== verification/S3Client.v ===== *)
(** * S3Client: requests to an object store

    What [gonzalo-store-s3] uses of the S3 service and its SDK: objects with entity
    tags, conditional writes, paged listings.  The service is a class, [S3Service],
    whose laws are the documented ones; [S3Reliable] adds that nothing fails.  A
    method of the store is a program of requests, run either while others change
    the bucket ([runs]) or in a pool of programs taking turns ([pool_step]). *)

From S2P Require Export FsStore.
#[local] Open Scope gonzalo_scope.

(** ** Objects and requests *)

Record Object := mkObject { o_body : bytes; o_etag : string; o_modified : Z }.

Abbreviation Bucket := (gmap string Object).

(** What the SDK says of a failed request. *)
Class S3Sdk := {
  S3Error : Type;
  error_code : S3Error → option string;
  error_message : S3Error → option string;
  error_text : S3Error → string;
  http_status : S3Error → option N;
  is_no_such_key : S3Error → bool;
  is_not_found : S3Error → bool
}.

Inductive Condition := Unconditional | IfNoneMatch | IfMatchTag (tag : string).

Record Listed := mkListed {
  li_key : option string; li_etag : option string; li_modified : option Z
}.

Record ListPage := mkListPage {
  pg_contents : list Listed; pg_truncated : option bool; pg_next : option string
}.

(** The requests, and what a call does in its own process: read the clock, look up
    and extend the set of collections known to be marked. *)
Inductive s3call : Type → Type :=
  | GetObject (key : string) : s3call (option string * result string bytes)
  | HeadObject (key : string) : s3call unit
  | PutObject (key : string) (body : bytes) (cond : Condition) : s3call unit
  | DeleteObject (key : string) (cond : Condition) : s3call unit
  | ListObjectsV2 (prefix : string) (token : option string) : s3call ListPage
  | NowMs : s3call Z
  | Knows (pair : string * string) : s3call bool
  | Learn (pair : string * string) : s3call unit.

Definition is_request {X} (c : s3call X) : bool :=
  match c with NowMs | Knows _ | Learn _ => false | _ => true end.

Definition meets (cond : Condition) (o : option Object) : Prop :=
  match cond with
  | Unconditional => True
  | IfNoneMatch => o = None
  | IfMatchTag tag => ∃ x, o = Some x ∧ o_etag x = tag
  end.

#[export] Instance meets_dec cond o : Decision (meets cond o).
Proof.
  refine (match cond, o with
  | Unconditional, _ => left I
  | IfNoneMatch, None => left eq_refl
  | IfNoneMatch, Some x => right _
  | IfMatchTag tag, Some x => cast_if (decide (o_etag x = tag))
  | IfMatchTag tag, None => right _
  end); [discriminate|by exists x|by intros (? & [= <-] & ?)|by intros (? & ? & _)].
Defined.

(** The keys a page is cut from: under a prefix, after a position, in order. *)
Definition past (after : option string) (k : string) : bool :=
  match after with Some a => bool_decide (olt a k) | None => true end.

Definition keys_from (b : Bucket) (prefix : string) (after : option string) : list string :=
  filter (λ k, String.prefix prefix k = true ∧ past after k = true) (btree_keys b).

Definition listed_object (b : Bucket) (k : string) : Listed :=
  mkListed (Some k) (o_etag <$> b !! k) (o_modified <$> b !! k).

(** ** The service *)

Class S3Service `{S3Sdk} := {
  (** [serves b c r b']: the request [c] may be answered [r], turning [b] into [b']. *)
  serves {X} : Bucket → s3call X → result S3Error X → Bucket → Prop;
  (** The tags a body may be given. *)
  tags : bytes → string → Prop;
  (** Where the page of a continuation token starts. *)
  token_after : string → string;

  tags_content x y t : tags x t → tags y t → x = y;
  serves_get b k r b' : serves b (GetObject k) r b' → b' = b ∧
    match r with
    | Ok (tag, data) => ∃ o, b !! k = Some o ∧ (∀ t, tag = Some t → t = o_etag o) ∧
        ∀ d, data = Ok d → d = o_body o
    | Err e => is_no_such_key e = true → b !! k = None
    end;
  serves_head b k r b' : serves b (HeadObject k) r b' → b' = b ∧
    match r with
    | Ok _ => is_Some (b !! k)
    | Err e => is_not_found e = true ∨ error_code e = Some "NotFound" ∨
        error_code e = Some "NoSuchKey" → b !! k = None
    end;
  (** A write that reports an error may have been applied. *)
  serves_put b k body cond r b' : serves b (PutObject k body cond) r b' →
    (b' = b ∧ ∃ e, r = Err e) ∨
    (meets cond (b !! k) ∧ ∃ o, o_body o = body ∧ tags body (o_etag o) ∧ b' = <[k := o]> b);
  serves_delete b k cond r b' : serves b (DeleteObject k cond) r b' →
    (b' = b ∧ ∃ e, r = Err e) ∨ (meets cond (b !! k) ∧ b' = delete k b);
  serves_list b prefix token r b' : serves b (ListObjectsV2 prefix token) r b' → b' = b ∧
    match r with
    | Err _ => True
    | Ok page => ∃ n, let keys := keys_from b prefix (token_after <$> token) in
        pg_contents page = listed_object b <$> take n keys ∧
        match pg_next page with
        | None => length keys ≤ n
        | Some t => n ≤ length keys ∧ last (take n keys) = Some (token_after t)
        end
    end
}.

(** A service that does not fail: every request is answered, and refused only for its
    condition or a missing object. *)
Class S3Reliable `{S3Service} := {
  reliable_total {X} b (c : s3call X) : is_request c = true → ∃ r b', serves b c r b';
  reliable_get b k r b' : serves b (GetObject k) r b' →
    match b !! k with
    | Some o => r = Ok (Some (o_etag o), Ok (o_body o))
    | None => ∃ e, r = Err e ∧ is_no_such_key e = true
    end;
  reliable_head b k r b' : serves b (HeadObject k) r b' →
    match b !! k with Some _ => r = Ok tt | None => ∃ e, r = Err e ∧ is_not_found e = true end;
  reliable_put b k body cond r b' : serves b (PutObject k body cond) r b' →
    meets cond (b !! k) → r = Ok tt;
  reliable_put_refused b k body cond r b' : serves b (PutObject k body cond) r b' →
    ¬ meets cond (b !! k) → ∃ e, r = Err e ∧ error_code e = Some "PreconditionFailed";
  reliable_delete b k cond r b' : serves b (DeleteObject k cond) r b' →
    meets cond (b !! k) → r = Ok tt;
  reliable_delete_refused b k cond r b' : serves b (DeleteObject k cond) r b' →
    ¬ meets cond (b !! k) → ∃ e, r = Err e ∧ error_code e = Some "PreconditionFailed";
  reliable_list b prefix token r b' : serves b (ListObjectsV2 prefix token) r b' → is_ok r = true
}.

(** Every object carries a tag of its body. *)
Definition tagged `{S3Service} (b : Bucket) : Prop :=
  ∀ k o, b !! k = Some o → tags (o_body o) (o_etag o).

(** ** Programs *)

(** A bucket, and what one process knows. *)
Record World := mkWorld { w_bucket : Bucket; w_known : gset (string * string) }.

Section programs.
Context `{S3Service}.

Inductive s3prog (A : Type) : Type :=
  | Done (a : A)
  | Do {X} (c : s3call X) (k : result S3Error X → s3prog A).
#[global] Arguments Done {A} a.
#[global] Arguments Do {A X} c k.

#[export] Instance s3prog_ret : MRet s3prog := @Done.
#[export] Instance s3prog_bind : MBind s3prog := λ A B f,
  fix go p := match p with Done a => f a | Do c k => Do c (λ r, go (k r)) end.

(** [?]. *)
Definition and_then {A B} (m : s3prog (Result A)) (f : A → s3prog (Result B)) :
    s3prog (Result B) :=
  m ≫= λ r, match r with Ok a => f a | Err e => Done (Err e) end.

Definition request {X} (c : s3call X) : s3prog (result S3Error X) := Do c Done.

(** One call: served by the service, or done in the process. *)
Definition s3step {X} (w : World) (c : s3call X) (r : result S3Error X) (w' : World) : Prop :=
  match c in s3call X return result S3Error X → Prop with
  | NowMs => λ r, w' = w ∧ ∃ t, r = Ok (now_ms t)
  | Knows p => λ r, w' = w ∧ r = Ok (bool_decide (p ∈ w_known w))
  | Learn p => λ r, w' = mkWorld (w_bucket w) ({[p]} ∪ w_known w) ∧ r = Ok tt
  | c => λ r, ∃ b', serves (w_bucket w) c r b' ∧ w' = mkWorld b' (w_known w)
  end r.

(** A run of a program while others change the bucket, with the worlds each of its own
    calls was made in and left. *)
Fixpoint runs {A} (env : relation Bucket) (p : s3prog A) (w : World)
    (tr : list (World * World)) (a : A) (w' : World) : Prop :=
  match p with
  | Done x => tr = [] ∧ a = x ∧ w' = w
  | Do c k => ∃ b r w1 tr',
      env (w_bucket w) b ∧ s3step (mkWorld b (w_known w)) c r w1 ∧
      tr = (mkWorld b (w_known w), w1) :: tr' ∧ runs env (k r) w1 tr' a w'
  end.

(** Programs taking turns on one bucket, each with what its process knows. *)
Definition Pool (A : Type) : Type := list (s3prog A * gset (string * string)) * Bucket.

Definition pool_step {A} (s s' : Pool A) : Prop := ∃ i p known p' known',
  s.1 !! i = Some (p, known) ∧ s'.1 = <[i := (p', known')]> s.1 ∧
  match p with
  | Done _ => False
  | Do c k => ∃ r, s3step (mkWorld s.2 known) c r (mkWorld s'.2 known') ∧ p' = k r
  end.

(** ** Facts about runs *)

Lemma runs_bind {A B} env (m : s3prog A) (f : A → s3prog B) w tr b w' :
  runs env (m ≫= f) w tr b w' ↔ ∃ tr1 a w1 tr2,
    tr = tr1 ++ tr2 ∧ runs env m w tr1 a w1 ∧ runs env (f a) w1 tr2 b w'.
Proof.
  revert w tr. induction m as [x|X c k IH]; intros w tr; cbn.
  - split.
    + intros Hr. by exists [], x, w, tr.
    + by intros (tr1 & a & w1 & tr2 & -> & (-> & -> & ->) & Hr).
  - split.
    + intros (b1 & r & w1 & tr' & He & Hs & -> & (tr1 & a & w2 & tr2 & -> & Hm & Hf)%IH).
      eexists (_ :: tr1), a, w2, tr2. split; [done|]. split; [|done]. by exists b1, r, w1, tr1.
    + intros (tr1 & a & w2 & tr2 & -> & (b1 & r & w1 & tr' & He & Hs & -> & Hm) & Hf).
      exists b1, r, w1, (tr' ++ tr2). split_and!; [done..|]. apply IH. by exists tr', a, w2, tr2.
Qed.

(** A part of a program run without interruption is a stretch of the pool's run. *)
Lemma pool_runs {A B} (m : s3prog A) (f : A → s3prog B) i ps b known tr a b' known' :
  runs (=) m (mkWorld b known) tr a (mkWorld b' known') →
  ps !! i = Some (m ≫= f, known) →
  rtc pool_step (ps, b) (<[i := (f a, known')]> ps, b').
Proof.
  revert ps b known tr. induction m as [x|X c k IH]; intros ps b known tr.
  - cbn. intros (_ & -> & [= -> ->]) Hi. rewrite list_insert_id by done. done.
  - intros (b1 & r & [b2 known2] & tr' & Hb & Hs & _ & Hr) Hi. cbn in Hb, Hs. subst b1.
    apply (rtc_l _ _ (<[i := (k r ≫= f, known2)]> ps, b2)).
    + exists i, (Do c k ≫= f), known, (k r ≫= f), known2. cbn [fst snd].
      split; [done|]. split; [done|]. cbn. exists r. by split.
    + pose proof (IH r (<[i := (k r ≫= f, known2)]> ps) b2 known2 tr' Hr) as Hgo.
      rewrite list_insert_insert_eq in Hgo. apply Hgo, list_lookup_insert_eq.
      by eapply lookup_lt_Some.
Qed.
End programs.

Notation "x ←! m ; k" := (and_then m (λ x, k))
  (at level 100, m at next level, k at level 200, right associativity) : gonzalo_scope.
Notation "m ;! k" := (and_then m (λ _, k))
  (at level 100, k at level 200, right associativity) : gonzalo_scope.
