(* ===== verification/S3Store.v ===== *)
(** * S3Store: the object-store substrate

    Models [gonzalo-store-s3]'s [lib.rs]: records, tombstone markers and flags as
    objects, the compare-and-swap loop behind every write, the listing that trusts
    markers in a flagged collection, and blobs.  [list]'s concurrent reads are taken
    in the order their tasks finish, [JoinOrder]. *)

From S2P Require Export S3Client FsRefine.
#[local] Open Scope gonzalo_scope.

Definition BLOB_PREFIX : string := "blobs/".
Definition MARKER_SUFFIX : string := ".tombstone".
Definition MAX_WRITE_ATTEMPTS : nat := 8.
Definition LIST_READ_CONCURRENCY : nat := 16.

(** ** Object keys *)

Definition split_slash (s : string) : list string :=
  string_of_bytes <$> split_on slash (bytes_of_string s).

Definition parse_object_key (s : string) : option RecordKey :=
  rest ← str_strip_suffix ".json" s;
  match split_slash rest with
  | [ns; col; id] => Some (mkKey (decode_segment ns) (decode_segment col) (decode_segment id))
  | _ => None
  end.

Definition marker_key (key : RecordKey) : string := object_key key +:+ MARKER_SUFFIX.

Definition parse_marker_key (s : string) : option RecordKey :=
  str_strip_suffix MARKER_SUFFIX s ≫= parse_object_key.

Definition marked_flag_key (namespace collection : string) : string :=
  segment namespace +:+ "/" +:+ segment collection +:+ "/_tombstone_markers".

Definition str_strip_prefix (prefix s : string) : option string :=
  if String.prefix prefix s
  then Some (String.substring (String.length prefix) (String.length s - String.length prefix) s)
  else None.

Definition contains_byte (c : Byte.byte) (s : string) : bool :=
  existsb (λ b, bool_decide (b = c)) (bytes_of_string s).

Definition blob_hash_from_key (key : string) : option ContentHash :=
  rest ← str_strip_prefix BLOB_PREFIX key;
  if bool_decide (rest = "") || contains_byte slash rest || contains_byte dot rest then None
  else Some (mkHash rest).

(** ** Decisions *)

Inductive RaceKind := Settled | InFlight.

Definition race_kind (code : option string) : option RaceKind :=
  if decide (code = Some "ConditionalRequestConflict") then Some InFlight
  else if decide (code = Some "PreconditionFailed" ∨ code = Some "NoSuchKey") then Some Settled
  else None.

Definition is_precondition_failed (code : option string) : bool :=
  bool_decide (code = Some "PreconditionFailed").

Inductive WriteOutcome := Applied | LostRace (kind : RaceKind).

(** [precondition]. *)
Definition precondition (etag : option string) : Condition :=
  match etag with Some tag => IfMatchTag tag | None => IfNoneMatch end.

Definition visible_record (o : option record) : option record :=
  match o with Some r => if is_tombstone r then None else Some r | None => None end.

Inductive Liveness := Live | Tombstoned (revision : Revision) | Absent.

Definition listed_as_live (read : Result (option record)) : Result Liveness :=
  match read with
  | Ok (Some r) => Ok (if is_tombstone r then Tombstoned (rec_revision r) else Live)
  | Ok None => Ok Absent
  | Err (Serde _) => Ok Live
  | Err e => Err e
  end.

Inductive Planned (T : Type) := Finish (t : T) | Put (r : record) (t : T) | Remove (t : T).
#[global] Arguments Finish {T} t.
#[global] Arguments Put {T} r t.
#[global] Arguments Remove {T} t.

Definition put_step (key : RecordKey) (plan : PutPlan) : Result (Planned PutResult) :=
  match plan with
  | PutWrite r => Ok (Put r (Committed (rec_revision r)))
  | PutConflict c => Ok (Finish (PutConflicted c))
  | PutNotFound => Err (NotFound key)
  | PutRejected reason => Err (Invalid reason)
  end.

Definition delete_step (plan : DeletePlan) : Planned DeleteResult :=
  match plan with
  | DeleteWrite t => Put t Deleted
  | DeleteNoop => Finish Deleted
  | DeleteConflict c => Finish (DeleteConflicted c)
  end.

Definition purge_step (plan : PurgePlan) : Planned DeleteResult :=
  match plan with
  | PurgeRemove => Remove Deleted
  | PurgeNoop => Finish Deleted
  | PurgeConflict c => Finish (DeleteConflicted c)
  end.

Inductive Step (T : Type) := Finished (t : T) | Retry (kind : RaceKind).
#[global] Arguments Finished {T} t.
#[global] Arguments Retry {T} kind.

Definition own_write_landed (sent : record) (current : option record) : bool :=
  bool_decide (current = Some sent).

(** The wait after an in-flight conflict, in milliseconds, at a moment whose
    sub-second part is [nanos]. *)
Definition inflight_backoff (round : nat) (nanos : N) : N :=
  let step := N.min (4 * 2 ^ N.of_nat (Nat.min round 6)) 250 in
  (step + nanos `mod` N.max step 1)%N.

(** The next page is asked for when there is a token, whatever the flag says. *)
Definition next_continuation (is_truncated : option bool) (token : option string) :
    option string := token.

Record Listing := mkListing { l_records : list RecordKey; l_markers : gmap RecordKey string }.

(** ** The store *)

Section s3.
Context `{Blake3} `{SerdeRecord} `{S3Service} `{JoinOrder}.
(** [serde_json::to_vec] of a revision. *)
Context (revision_json : Revision → result string bytes).
Context (cap : nat).

Definition backend {A} (e : S3Error) : Result A := Err (Backend (error_text e)).

Definition read_with_etag (key : RecordKey) : s3prog (Result (option (record * string))) :=
  let obj := object_key key in
  resp ← request (GetObject obj);
  Done (match resp with
        | Ok (tag, body) =>
            etag ← ok_or (Backend ("s3: GetObject for " +:+ obj +:+
              " returned no ETag; conditional writes are unsafe against this backend")) tag;
            data ← map_err Backend body;
            r ← map_err Serde (from_slice data);
            Ok (Some (r, etag))
        | Err e => if is_no_such_key e then Ok None else backend e
        end).

Definition s3_read (key : RecordKey) : s3prog (Result (option record)) :=
  o ←! read_with_etag key; Done (Ok (fst <$> o)).

(** *** Listing *)

Definition s3_prefix (p : KeyPrefix) : string :=
  match prefix_namespace p with
  | None => ""
  | Some ns => segment ns +:+ "/" +:+
      match prefix_collection p with None => "" | Some col => segment col +:+ "/" end
  end.

Definition list_entry (p : KeyPrefix) (out : Listing) (obj : Listed) : Listing :=
  match li_key obj with
  | None => out
  | Some k =>
      match parse_object_key k with
      | Some key =>
          if prefix_matches p key then mkListing (l_records out ++ [key]) (l_markers out) else out
      | None =>
          match parse_marker_key k, li_etag obj with
          | Some key, Some etag =>
              if prefix_matches p key then mkListing (l_records out) (<[key := etag]> (l_markers out))
              else out
          | _, _ => out
          end
      end
  end.

(** The loop over pages; the fuel bounds their number. *)
Fixpoint list_pages (fuel : nat) (p : KeyPrefix) (continuation : option string) (out : Listing) :
    s3prog (Result Listing) :=
  match fuel with
  | 0 => Done (Err (Backend "out of fuel"))
  | S fuel =>
      resp ← request (ListObjectsV2 (s3_prefix p) continuation);
      match resp with
      | Err e => Done (backend e)
      | Ok page =>
          let out := foldl (list_entry p) out (pg_contents page) in
          match next_continuation (pg_truncated page) (pg_next page) with
          | Some token => list_pages fuel p (Some token) out
          | None => Done (Ok out)
          end
      end
  end.

Context (fuel : nat).

Definition list_objects (p : KeyPrefix) : s3prog (Result Listing) :=
  list_pages fuel p None (mkListing [] ∅).

Definition list_keys (p : KeyPrefix) : s3prog (Result (list RecordKey)) :=
  listing ←! list_objects p; Done (Ok (l_records listing)).

(** *** Conditional writes *)

Definition outcome (resp : result S3Error unit) : Result WriteOutcome :=
  match resp with
  | Ok _ => Ok Applied
  | Err e => match race_kind (error_code e) with
             | Some kind => Ok (LostRace kind)
             | None => backend e
             end
  end.

Definition put_record_if (r : record) (pre : Condition) : s3prog (Result WriteOutcome) :=
  bytes ←! Done (map_err Serde (to_vec_pretty r));
  resp ← request (PutObject (object_key (rec_key r)) bytes pre);
  Done (outcome resp).

Definition delete_record_if_match (key : RecordKey) (etag : string) : s3prog (Result WriteOutcome) :=
  resp ← request (DeleteObject (object_key key) (IfMatchTag etag));
  Done (outcome resp).

(** *** Markers and flags *)

Definition pair_of (namespace collection : string) : string * string :=
  (segment namespace, segment collection).

Definition collection_marked (namespace collection : string) : s3prog (Result bool) :=
  let pair := pair_of namespace collection in
  known ← request (Knows pair);
  if match known with Ok b => b | Err _ => false end then Done (Ok true)
  else
    resp ← request (HeadObject (marked_flag_key namespace collection));
    match resp with
    | Ok _ => _ ← request (Learn pair); Done (Ok true)
    | Err e => Done (if is_not_found e then Ok false else backend e)
    end.

Definition mark_collection (namespace collection : string) : s3prog (Result unit) :=
  resp ← request (PutObject (marked_flag_key namespace collection) (bytes_of_string "1")
                    Unconditional);
  match resp with
  | Ok _ => _ ← request (Learn (pair_of namespace collection)); Done (Ok tt)
  | Err e => Done (backend e)
  end.

Definition put_marker (key : RecordKey) (revision : Revision) : s3prog (Result unit) :=
  body ←! Done (map_err Serde (revision_json revision));
  resp ← request (PutObject (marker_key key) body Unconditional);
  Done (match resp with Ok _ => Ok tt | Err e => backend e end).

Definition delete_marker_if_match (key : RecordKey) (etag : string) : s3prog (Result unit) :=
  resp ← request (DeleteObject (marker_key key) (IfMatchTag etag));
  Done (match resp with
        | Ok _ => Ok tt
        | Err e =>
            if bool_decide (is_Some (race_kind (error_code e)))
               || bool_decide (error_code e = Some "NoSuchKey")
            then Ok tt else backend e
        end).

Definition marker_exists (key : RecordKey) : s3prog (Result bool) :=
  resp ← request (HeadObject (marker_key key));
  Done (match resp with
        | Ok _ => Ok true
        | Err e => if is_not_found e then Ok false else backend e
        end).

(** *** The write loop *)

(** What an attempt that lost its race had sent, and would have answered. *)
Definition Pending (T : Type) : Type := option (record * T).

Definition carry_out {T} (key : RecordKey) (current : option (record * string))
    (planned : Planned T) : s3prog (Result (Step T * Pending T)) :=
  let etag := snd <$> current in
  match planned with
  | Finish answer => Done (Ok (Finished answer, None))
  | Put r answer =>
      (if is_tombstone r then put_marker key (rec_revision r) else Done (Ok tt)) ;!
      result ←! put_record_if r (precondition etag);
      Done (Ok (match result with
                | Applied => (Finished answer, None)
                | LostRace kind => (Retry kind, Some (r, answer))
                end))
  | Remove answer =>
      result ←! delete_record_if_match key (default "" etag);
      Done (Ok (match result with
                | Applied => (Finished answer, None)
                | LostRace kind => (Retry kind, None)
                end))
  end.

Definition attempt {T} (key : RecordKey) (plan : option record → s3prog (Result (Planned T)))
    (pending : Pending T) : s3prog (Result (Step T * Pending T)) :=
  current ←! read_with_etag key;
  let planned := (p ←! plan (fst <$> current); carry_out key current p) in
  match pending with
  | Some (sent, answer) =>
      if own_write_landed sent (fst <$> current) then Done (Ok (Finished answer, None)) else planned
  | None => planned
  end.

(** [retry_on_lost_race]; the waits between attempts are not requests. *)
Fixpoint retry_on_lost_race {T} (attempts : nat) (key : RecordKey)
    (plan : option record → s3prog (Result (Planned T))) (pending : Pending T) :
    s3prog (Result T) :=
  match attempts with
  | 0 => Done (Err (Backend ("s3: conditional write for " +:+ key_to_string key +:+ " lost " +:+
                 pretty (N.of_nat MAX_WRITE_ATTEMPTS) +:+ " consecutive races")))
  | S attempts =>
      step ←! attempt key plan pending;
      match step with
      | (Finished answer, _) => Done (Ok answer)
      | (Retry _, pending) => retry_on_lost_race attempts key plan pending
      end
  end.

Definition write_planned {T} (key : RecordKey)
    (plan : option record → s3prog (Result (Planned T))) : s3prog (Result T) :=
  retry_on_lost_race MAX_WRITE_ATTEMPTS key plan None.

(** [now_ms()]. *)
Definition clock_ms : s3prog Z :=
  t ← request NowMs; Done (match t with Ok t => t | Err _ => 0%Z end).

(** *** The consumer surface *)

Definition s3_get (key : RecordKey) : s3prog (Result (option record)) :=
  o ←! s3_read key; Done (Ok (visible_record o)).

Definition s3_put (r : record) (expected : option Revision) : s3prog (Result PutResult) :=
  write_planned (rec_key r) (λ current,
    now ← clock_ms; Done (put_step (rec_key r) (plan_put current r expected now cap))).

Definition s3_delete_as (key : RecordKey) (expected : option Revision) (author : option Identity) :
    s3prog (Result DeleteResult) :=
  write_planned key (λ current,
    now ← clock_ms; Done (Ok (delete_step (plan_delete current expected now cap author)))).

(** *** The replication surface *)

Definition s3_get_raw (key : RecordKey) : s3prog (Result (option record)) := s3_read key.

Definition s3_list_raw (p : KeyPrefix) : s3prog (Result (list RecordKey)) := list_keys p.

Definition s3_put_raw (r : record) (expected : option Revision) : s3prog (Result PutResult) :=
  write_planned (rec_key r) (λ current,
    now ← clock_ms; Done (put_step (rec_key r) (plan_put_raw current r expected now cap))).

Definition s3_purge (key : RecordKey) (expected : Revision) : s3prog (Result DeleteResult) :=
  write_planned key (λ current, Done (Ok (purge_step (plan_purge current expected)))).

(** *** The listing *)

Fixpoint fold_prog {A B} (f : B → A → s3prog (Result B)) (acc : B) (l : list A) :
    s3prog (Result B) :=
  match l with
  | [] => Done (Ok acc)
  | x :: l => acc ←! f acc x; fold_prog f acc l
  end.

(** One task of a batch. *)
Definition read_one (live : gmap RecordKey Liveness) (key : RecordKey) :
    s3prog (Result (gmap RecordKey Liveness)) :=
  read ← s3_read key;
  liveness ←! Done (listed_as_live read);
  Done (Ok (<[key := liveness]> live)).

Definition read_liveness (keys : list RecordKey) : s3prog (Result (gmap RecordKey Liveness)) :=
  fold_prog (λ live batch, fold_prog read_one live (join_order batch)) ∅
    (chunks LIST_READ_CONCURRENCY keys).

Definition collection_of (key : RecordKey) : string * string :=
  (key_namespace key, key_collection key).

(** [by_collection]: the records grouped, and a group for every marker. *)
Definition group_keys (listing : Listing) : gmap (string * string) (list RecordKey) :=
  let push m key := <[collection_of key := default [] (m !! collection_of key) ++ [key]]> m in
  let touch m key := <[collection_of key := default [] (m !! collection_of key)]> m in
  foldl touch (foldl push ∅ (l_records listing)) (btree_keys (l_markers listing)).

Definition unmark (listing : Listing) (key : RecordKey) : s3prog (Result unit) :=
  match l_markers listing !! key with
  | Some etag => delete_marker_if_match key etag
  | None => Done (Ok tt)
  end.

Definition list_key (listing : Listing) (live : gmap RecordKey Liveness) (out : list RecordKey)
    (key : RecordKey) : s3prog (Result (list RecordKey)) :=
  match live !! key with
  | None => Done (Ok (out ++ [key]))
  | Some Live => unmark listing key ;! Done (Ok (out ++ [key]))
  | Some (Tombstoned revision) =>
      match l_markers listing !! key with
      | Some _ => Done (Ok out)
      | None => put_marker key revision ;! Done (Ok out)
      end
  | Some Absent => unmark listing key ;! Done (Ok out)
  end.

(** Markers of a collection whose record was not listed. *)
Definition orphans (listing : Listing) (pair : string * string) (keys : list RecordKey) :
    list (RecordKey * string) :=
  filter (λ p, collection_of p.1 = pair ∧ p.1 ∉ keys) (btree_items (l_markers listing)).

Definition list_collection (listing : Listing) (out : list RecordKey)
    (group : string * string * list RecordKey) : s3prog (Result (list RecordKey)) :=
  let '(ns, col, keys) := group in
  marked ←! collection_marked ns col;
  let to_read := if (marked : bool) then filter (λ k, is_Some (l_markers listing !! k)) keys
                 else keys in
  live ←! read_liveness to_read;
  out ←! fold_prog (list_key listing live) out keys;
  fold_prog (λ _ p, delete_marker_if_match p.1 p.2) tt (orphans listing (ns, col) keys) ;!
  (if (marked : bool) then Done (Ok tt) else mark_collection ns col) ;!
  Done (Ok out).

Definition s3_list (p : KeyPrefix) : s3prog (Result (list RecordKey)) :=
  listing ←! list_objects p;
  out ←! fold_prog (list_collection listing) [] (btree_items (group_keys listing));
  Done (Ok (sort out)).

(** *** Blobs *)

Definition blob_key (hash : ContentHash) : string := BLOB_PREFIX +:+ hash_hex hash.

Definition s3_put_blob (content : bytes) : s3prog (Result ContentHash) :=
  let hash := ContentHash_of content in
  resp ← request (PutObject (blob_key hash) content IfNoneMatch);
  Done (match resp with
        | Ok _ => Ok hash
        | Err e => if is_precondition_failed (error_code e) then Ok hash else backend e
        end).

Definition s3_get_blob (hash : ContentHash) : s3prog (Result (option bytes)) :=
  resp ← request (GetObject (blob_key hash));
  Done (match resp with
        | Ok (_, body) => data ← map_err Backend body; Ok (Some data)
        | Err e => if is_no_such_key e then Ok None else backend e
        end).

Definition blob_entry_from_listing (key : string) (hash : ContentHash)
    (last_modified : option SystemTime) : Result BlobEntry :=
  t ← ok_or (Backend ("blob " +:+ key +:+ " listed without a LastModified")) last_modified;
  Ok (BlobEntry_from_system_time hash t).

Definition blob_entry (out : list BlobEntry) (obj : Listed) : Result (list BlobEntry) :=
  match li_key obj with
  | None => Ok out
  | Some k =>
      match blob_hash_from_key k with
      | None => Ok out
      | Some hash => e ← blob_entry_from_listing k hash (li_modified obj); Ok (out ++ [e])
      end
  end.

Fixpoint blob_pages (fuel : nat) (continuation : option string) (out : list BlobEntry) :
    s3prog (Result (list BlobEntry)) :=
  match fuel with
  | 0 => Done (Err (Backend "out of fuel"))
  | S fuel =>
      resp ← request (ListObjectsV2 BLOB_PREFIX continuation);
      match resp with
      | Err e => Done (backend e)
      | Ok page =>
          out ←! Done (foldl (λ out obj, out ← out; blob_entry out obj) (Ok out) (pg_contents page));
          match next_continuation (pg_truncated page) (pg_next page) with
          | Some token => blob_pages fuel (Some token) out
          | None => Done (Ok out)
          end
      end
  end.

Definition s3_list_blobs : s3prog (Result (list BlobEntry)) := blob_pages fuel None [].

Definition s3_delete_blob (hash : ContentHash) : s3prog (Result unit) :=
  resp ← request (DeleteObject (blob_key hash) Unconditional);
  Done (match resp with Ok _ => Ok tt | Err e => backend e end).

Definition head_means_absent (code : string) : bool :=
  bool_decide (code = "NotFound" ∨ code = "NoSuchKey").

Definition head_error_is_absent (e : S3Error) : bool :=
  is_not_found e || head_means_absent (default "" (error_code e)).

Definition describe_head_error (e : S3Error) : string :=
  let code := default "unknown code" (error_code e) in
  let out := match http_status e with
             | Some status => code +:+ " (HTTP " +:+ pretty status +:+ ")"
             | None => code
             end in
  match error_message e with
  | Some message => out +:+ ": " +:+ message
  | None => out +:+ ": " +:+ error_text e
  end.

Definition s3_has_blob (hash : ContentHash) : s3prog (Result bool) :=
  resp ← request (HeadObject (blob_key hash));
  Done (match resp with
        | Ok _ => Ok true
        | Err e =>
            if head_error_is_absent e then Ok false
            else Err (Backend ("head blob " +:+ hash_hex hash +:+ ": " +:+ describe_head_error e))
        end).

(** *** The [Store] trait *)

Definition s3_op (op : StoreOp) : s3prog Response :=
  match op with
  | OpGet k => x ← s3_get k; Done (RRecord x)
  | OpPut r e => x ← s3_put r e; Done (RPut x)
  | OpList p => x ← s3_list p; Done (RKeys x)
  | OpDelete k e a => x ← s3_delete_as k e a; Done (RDelete x)
  | OpGetRaw k => x ← s3_get_raw k; Done (RRecord x)
  | OpListRaw p => x ← s3_list_raw p; Done (RKeys x)
  | OpPutRaw r e => x ← s3_put_raw r e; Done (RPut x)
  | OpPurge k e => x ← s3_purge k e; Done (RDelete x)
  end.
End s3.
