(* ===== verification/S3Writes.v ===== *)
(** * S3Writes: what a write does while others write

    A program logic for runs under interference, and the theorem that every write of
    [S3Store] is the planner's decision on the record it replaces, at the moment it
    replaces it. *)

From S2P Require Export S3Store.
#[local] Open Scope gonzalo_scope.

#[global] Arguments object_key : simpl never.
#[global] Arguments marker_key : simpl never.
#[global] Arguments marked_flag_key : simpl never.
#[global] Arguments reference : simpl never.
#[global] Arguments call_op : simpl never.

(** ** Reasoning about runs *)

Abbreviation History := (list (World * World)).

Section logic.
Context `{S3Service}.

(** Whatever others do as [env] allows, every call of [p] is a [G] step, and [p] ends
    with [Q] of its answer, the world and all the calls made. *)
Fixpoint safely {A} (env : relation Bucket) (G : World → World → Prop) (p : s3prog A) (w : World)
    (h : History) (Q : A → World → History → Prop) : Prop :=
  match p with
  | Done a => Q a w h
  | Do c k => ∀ b r w1, env (w_bucket w) b → s3step (mkWorld b (w_known w)) c r w1 →
      G (mkWorld b (w_known w)) w1 ∧
      safely env G (k r) w1 (h ++ [(mkWorld b (w_known w), w1)]) Q
  end.

Lemma safely_bind {A B} env G (m : s3prog A) (f : A → s3prog B) w h Q :
  safely env G m w h (λ a w h, safely env G (f a) w h Q) → safely env G (m ≫= f) w h Q.
Proof.
  revert w h. induction m as [a|X c k IH]; intros w h; [done|]. cbn.
  intros Hm b r w1 He Hs. destruct (Hm b r w1 He Hs) as [HG Hk]. split; [done|]. by apply IH.
Qed.


Lemma safely_and_then {A B} env G (m : s3prog (Result A)) (f : A → s3prog (Result B)) w h Q :
  safely env G m w h (λ r w h, match r with
    | Ok a => safely env G (f a) w h Q | Err e => Q (Err e) w h end) →
  safely env G (and_then m f) w h Q.
Proof.
  intros Hm. apply safely_bind. revert Hm. generalize h, w. clear h w.
  induction m as [[a|e]|X c k IH]; intros h w; [done..|]. cbn.
  intros Hm b r w1 He Hs. destruct (Hm b r w1 He Hs) as [HG Hk]. split; [done|]. by apply IH.
Qed.

Lemma safely_mono {A} env G (p : s3prog A) w h (Q Q' : A → World → History → Prop) :
  (∀ a w h, Q a w h → Q' a w h) → safely env G p w h Q → safely env G p w h Q'.
Proof.
  intros HQ. revert w h. induction p as [a|X c k IH]; intros w h; [apply HQ|]. cbn.
  intros Hp b r w1 He Hs. destruct (Hp b r w1 He Hs). auto.
Qed.

Lemma safely_runs {A} env G (p : s3prog A) w h Q tr a w' :
  safely env G p w h Q → runs env p w tr a w' →
  Forall (λ s, G s.1 s.2) tr ∧ Q a w' (h ++ tr).
Proof.
  revert w h tr. induction p as [x|X c k IH]; intros w h tr; cbn.
  - intros HQ (-> & -> & ->). rewrite app_nil_r. by split; [constructor|].
  - intros Hp (b & r & w1 & tr' & He & Hs & -> & Hr). destruct (Hp b r w1 He Hs) as [HG Hk].
    destruct (IH r w1 _ tr' Hk Hr) as [HF HQ]. split; [by constructor|].
    by rewrite <-app_assoc in HQ.
Qed.
End logic.

(** ** Keys of objects *)

Lemma last_app_string (s t : string) c :
  last (bytes_of_string t) = Some c → last (bytes_of_string (s +:+ t)) = Some c.
Proof. intros Ht. rewrite bytes_of_string_app, last_app, Ht. done. Qed.

Lemma object_key_last k : last (bytes_of_string (object_key k)) = Some Byte.x6e.
Proof. unfold object_key, record_components. by repeat apply last_app_string. Qed.

Lemma marker_key_last k : last (bytes_of_string (marker_key k)) = Some Byte.x65.
Proof. by apply last_app_string. Qed.

Lemma flag_key_last ns col : last (bytes_of_string (marked_flag_key ns col)) = Some Byte.x73.
Proof. unfold marked_flag_key. by repeat apply last_app_string. Qed.

#[export] Instance object_key_inj : Inj (=) (=) object_key.
Proof. intros k k'. apply object_key_injective. Qed.

(** No record is stored where a marker or a flag is. *)
Lemma marker_not_object k k' : marker_key k ≠ object_key k'.
Proof. intros Heq. pose proof (marker_key_last k) as Hl. by rewrite Heq, object_key_last in Hl. Qed.

Lemma flag_not_object ns col k' : marked_flag_key ns col ≠ object_key k'.
Proof. intros Heq. pose proof (flag_key_last ns col) as Hl. by rewrite Heq, object_key_last in Hl. Qed.

Lemma flag_not_marker ns col k' : marked_flag_key ns col ≠ marker_key k'.
Proof. intros Heq. pose proof (flag_key_last ns col) as Hl. by rewrite Heq, marker_key_last in Hl. Qed.

(** ** Records in a bucket *)

Section records.
Context `{Blake3} `{SerdeRecordLaws} `{S3Service}.

(** What is stored for a key. *)
Definition stored_at (b : Bucket) (k : RecordKey) (cur : option record) : Prop :=
  match b !! object_key k with
  | None => cur = None
  | Some o => ∃ r, cur = Some r ∧ from_slice (o_body o) = Ok r ∧ rec_key r = k
  end.

(** Tags are of their bodies, and records are under their keys. *)
Definition sane (b : Bucket) : Prop :=
  tagged b ∧ ∀ k o r, b !! object_key k = Some o → from_slice (o_body o) = Ok r → rec_key r = k.

Definition only (k : RecordKey) (cur : option record) : records :=
  match cur with Some r => {[k := r]} | None => ∅ end.

Lemma lookup_only k cur : only k cur !! k = cur.
Proof. destruct cur; [apply lookup_singleton_eq|apply lookup_empty]. Qed.

Context (cap : nat) (op : StoreOp) (k : RecordKey).

(** Going from [b] to [b'] is the reference store's answer to the call. *)
Definition decided (b b' : Bucket) (x : Response) : Prop := ∃ t cur,
  stored_at b k cur ∧ (call_op (reference cap t) op (only k cur)).1 = x ∧
  stored_at b' k ((call_op (reference cap t) op (only k cur)).2 !! k).

(** In [b] the reference store would write [sent] and answer [x]. *)
Definition would (b : Bucket) (sent : record) (x : Response) : Prop := ∃ t cur,
  stored_at b k cur ∧ (call_op (reference cap t) op (only k cur)).1 = x ∧
  (call_op (reference cap t) op (only k cur)).2 !! k = Some sent.

(** One call's effect on the records. *)
Definition writes_as_decided (w w' : World) : Prop :=
  sane (w_bucket w') ∧
  (∀ k', k' ≠ k → w_bucket w' !! object_key k' = w_bucket w !! object_key k') ∧
  (w_bucket w' !! object_key k = w_bucket w !! object_key k ∨
   ∃ x, decided (w_bucket w) (w_bucket w') x).

(** A plan, as the reference store decides it. *)
Definition decides {T} (f : T → Response) (cur : option record) (p : Planned T) : Prop := ∃ t,
  let y := (call_op (reference cap t) op (only k cur)).1 in
  let m := (call_op (reference cap t) op (only k cur)).2 in
  match p with
  | Finish a => y = f a ∧ m !! k = cur
  | Put r a => y = f a ∧ m !! k = Some r ∧ rec_key r = k
  | Remove a => y = f a ∧ m !! k = None ∧ is_Some cur
  end.
End records.

(** ** One write *)

Section write.
Context `{Blake3} `{SerdeRecordLaws} `{S3Service}.
Context (revision_json : Revision → result string bytes) (cap : nat) (op : StoreOp) (k : RecordKey).
Context (env : relation Bucket) (Henv : ∀ b b', env b b' → sane b → sane b').

#[local] Notation G := (writes_as_decided cap op k).
#[local] Notation decided := (decided cap op k).
#[local] Notation would := (would cap op k).
#[local] Notation decides := (decides cap op k).

(** What a read promises of any later bucket that still carries the tag it saw. *)
Definition vouches (cur : option (record * string)) : Prop := ∀ b,
  sane b → meets (precondition (snd <$> cur)) (b !! object_key k) → stored_at b k (fst <$> cur).

(** The read was of this. *)
Definition was_read (cur : option record) (h : History) : Prop := ∃ w w',
  (w, w') ∈ h ∧ w_bucket w' = w_bucket w ∧ stored_at (w_bucket w) k cur.

Lemma G_same (w w' : World) : sane (w_bucket w) → w_bucket w' = w_bucket w → G w w'.
Proof. intros Hs Hb. unfold writes_as_decided. rewrite Hb. split_and!; [done|done|by left]. Qed.

Lemma sane_put b key o :
  sane b → tags (o_body o) (o_etag o) →
  (∀ k' r, key = object_key k' → from_slice (o_body o) = Ok r → rec_key r = k') →
  sane (<[key := o]> b).
Proof.
  intros [Ht Hk] Hto Hko. split.
  - intros x y [[-> ->]|[_ Hx]]%lookup_insert_Some; [done|by eapply Ht].
  - intros k' x r [[Heq <-]|[_ Hx]]%lookup_insert_Some; [by apply Hko|by eapply Hk].
Qed.

Lemma sane_delete b key : sane b → sane (delete key b).
Proof.
  intros [Ht Hk]. split.
  - intros x y [_ Hx]%lookup_delete_Some. by eapply Ht.
  - intros k' x r [_ Hx]%lookup_delete_Some. by eapply Hk.
Qed.

(** Writing where no record is. *)
Lemma G_aside w key b' :
  sane (w_bucket w) → (∀ k', key ≠ object_key k') → sane b' →
  (∀ x, x ≠ key → b' !! x = w_bucket w !! x) → ∀ known, G w (mkWorld b' known).
Proof.
  intros Hs Hkey Hs' Hb known. split; [done|]. cbn.
  split; [intros k' _|left]; apply Hb; intros Heq; by apply (Hkey _ (eq_sym Heq)).
Qed.

Lemma safely_read w h :
  sane (w_bucket w) →
  safely env G (read_with_etag k) w h (λ res w' h',
    sane (w_bucket w') ∧ (∃ l, h' = h ++ l ∧
    match res with
    | Ok cur => vouches cur ∧ was_read (fst <$> cur) l
    | Err _ => True
    end)).
Proof.
  intros Hs b r w1 He (b' & Hserve & ->). apply serves_get in Hserve as [-> Hr]. cbn [w_bucket] in Hr.
  assert (sane b) as Hsb by (by eapply Henv).
  split; [by apply G_same|]. split; [done|]. eexists. split; [reflexivity|].
  assert (∀ cur, stored_at b k cur →
    was_read cur [(mkWorld b (w_known w), mkWorld b (w_known w))]) as Hread
    by (intros cur Hc; exists (mkWorld b (w_known w)), (mkWorld b (w_known w)); split; [left|done]).
  destruct r as [[tag data]|e]; cbn.
  - destruct Hr as (o & Ho & Htag & Hdata). destruct tag as [t|]; [|done].
    rewrite (Htag t eq_refl). destruct data as [d|]; [|done]. rewrite (Hdata d eq_refl).
    unfold mbind, result_bind, ok_or, map_err. cbn.
    destruct (from_slice (o_body o)) as [r|] eqn:Hd; [|done]. cbn.
    assert (rec_key r = k) as Hk by (by eapply Hsb). split.
    + intros b2 Hs2 (o2 & Ho2 & Ht2). unfold stored_at. rewrite Ho2. exists r.
      assert (o_body o2 = o_body o) as ->; [|done].
      pose proof (proj1 Hs2 _ _ Ho2) as T2. pose proof (proj1 Hsb _ _ Ho) as T1.
      rewrite Ht2 in T2. by eapply tags_content.
    + apply Hread. unfold stored_at. rewrite Ho. by exists r.
  - destruct (is_no_such_key e) eqn:Hn; [|done]. specialize (Hr eq_refl). split.
    + intros b2 _ Hnone. unfold stored_at. cbn in Hnone. by rewrite Hnone.
    + apply Hread. unfold stored_at. by rewrite Hr.
Qed.

(** The answer of the write was given by the reference store: at one of its calls, or
    at a read after which the very record it would have written was found. *)
Definition answered (x : Response) (h : History) : Prop :=
  (∃ w w', (w, w') ∈ h ∧ decided (w_bucket w) (w_bucket w') x) ∨
  (∃ w w' u u' sent, (w, w') ∈ h ∧ would (w_bucket w) sent x ∧
     (u, u') ∈ h ∧ stored_at (w_bucket u) k (Some sent)).

Lemma answered_app x h l : answered x h → answered x (h ++ l).
Proof.
  intros [(w & w' & Hin & Hd)|(w & w' & u & u' & s & Hin & Hd & Hu & Hs)].
  - left. exists w, w'. split; [|done]. apply elem_of_app. by left.
  - right. exists w, w', u, u', s. split_and!; try done; apply elem_of_app; by left.
Qed.

Lemma answered_app_r x h l : answered x l → answered x (h ++ l).
Proof.
  intros [(w & w' & Hin & Hd)|(w & w' & u & u' & s & Hin & Hd & Hu & Hs)].
  - left. exists w, w'. split; [|done]. apply elem_of_app. by right.
  - right. exists w, w', u, u', s. split_and!; try done; apply elem_of_app; by right.
Qed.

Definition pending_ok {T} (f : T → Response) (pending : Pending T) (h : History) : Prop :=
  match pending with
  | None => True
  | Some (sent, a) => ∃ w w', (w, w') ∈ h ∧ would (w_bucket w) sent (f a)
  end.

Lemma stored_written b r o : from_slice (o_body o) = Ok r → rec_key r = k →
  stored_at (<[object_key k := o]> b) k (Some r).
Proof. intros Hd Hk. unfold stored_at. rewrite lookup_insert_eq. by exists r. Qed.

Lemma stored_fun b cur cur' : stored_at b k cur → stored_at b k cur' → cur = cur'.
Proof.
  unfold stored_at. destruct (b !! object_key k) as [o|]; [|by intros -> ->].
  intros (r & -> & Hr & _) (r' & -> & Hr' & _). congruence.
Qed.

(** The conditional write of a decided record. *)
Lemma safely_put {T} (f : T → Response) cur r (a : T) w h :
  sane (w_bucket w) → vouches cur → decides f (fst <$> cur) (Put r a) →
  safely env G (put_record_if r (precondition (snd <$> cur))) w h (λ res w' h',
    sane (w_bucket w') ∧ ∃ l, h' = h ++ l ∧
    (res = Ok Applied → answered (f a) l)).
Proof.
  intros Hs Hv (t & Hx & Hm & Hk). unfold put_record_if. apply safely_and_then. cbn.
  destruct (from_slice_to_vec r) as (body & -> & Hd). cbn. rewrite Hk.
  intros b res w1 He (b' & Hserve & ->). assert (sane b) as Hsb by (by eapply Henv).
  cbn [w_bucket] in Hserve.
  apply serves_put in Hserve as [[-> [e ->]]|(Hmeets & o & Ho & Ht & ->)].
  - split; [by apply G_same|]. split; [done|]. eexists. split; [reflexivity|]. cbn.
    unfold outcome. by destruct (race_kind _).
  - specialize (Hv b Hsb Hmeets). subst body.
    pose proof (stored_written b r o Hd Hk) as Hw.
    assert (decided b (<[object_key k := o]> b) (f a)) as Hdec
      by (exists t, (fst <$> cur); split_and!; [done|done|by rewrite Hm]).
    assert (sane (<[object_key k := o]> b)) as Hs'.
    { apply sane_put; [done|done|]. intros k' r' ->%(inj object_key). rewrite Hd. by intros [= <-]. }
    split; [|split; [done|]].
    + split; [done|]. split; [|right; by exists (f a)]. intros k' Hne. cbn.
      apply lookup_insert_ne. intros ?%(inj object_key). done.
    + eexists. split; [reflexivity|]. intros _. left. eexists _, _. split; [left|done].
Qed.

Lemma safely_delete {T} (f : T → Response) cur (a : T) w h :
  sane (w_bucket w) → vouches cur → decides f (fst <$> cur) (Remove a) →
  safely env G (delete_record_if_match k (default "" (snd <$> cur))) w h (λ res w' h',
    sane (w_bucket w') ∧ ∃ l, h' = h ++ l ∧ (res = Ok Applied → answered (f a) l)).
Proof.
  intros Hs Hv (t & Hx & Hm & [r Hr]) b res w1 He (b' & Hserve & ->).
  assert (sane b) as Hsb by (by eapply Henv). cbn [w_bucket] in Hserve.
  apply serves_delete in Hserve as [[-> [e ->]]|(Hmeets & ->)].
  - split; [by apply G_same|]. split; [done|]. eexists. split; [reflexivity|]. cbn.
    unfold outcome. by destruct (race_kind _).
  - assert (stored_at b k (fst <$> cur)) as Hst by (apply Hv; [done|]; by destruct cur).
    assert (decided b (delete (object_key k) b) (f a)) as Hdec.
    { exists t, (fst <$> cur). split_and!; [done|done|]. rewrite Hm. unfold stored_at.
      by rewrite lookup_delete_eq. }
    pose proof (sane_delete b (object_key k) Hsb) as Hs'.
    split; [|split; [done|]].
    + split; [done|]. split; [|right; by exists (f a)]. intros k' Hne. cbn [w_bucket].
      apply lookup_delete_ne. intros ?%(inj object_key). done.
    + eexists. split; [reflexivity|]. intros _. left. eexists _, _. split; [left|done].
Qed.

Lemma safely_put_marker key revision w h (Q : Result unit → World → History → Prop) :
  sane (w_bucket w) → (∀ res w' l, sane (w_bucket w') → Q res w' (h ++ l)) →
  safely env G (put_marker revision_json key revision) w h Q.
Proof.
  intros Hs HQ. unfold put_marker. apply safely_and_then. cbn.
  destruct (revision_json revision) as [body|e]; cbn.
  2: { rewrite <-(app_nil_r h). by apply HQ. }
  intros b res w1 He (b' & Hserve & ->). assert (sane b) as Hsb by (by eapply Henv).
  cbn [w_bucket] in Hserve.
  apply serves_put in Hserve as [[-> [e ->]]|(_ & o & Ho & Ht & ->)].
  - split; [by apply G_same|]. by apply HQ.
  - assert (sane (<[marker_key key := o]> b)) as Hs'.
    { apply sane_put; [done|by rewrite Ho|]. intros k' r Heq. by destruct (marker_not_object key k'). }
    split; [|by apply HQ].
    apply G_aside with (key := marker_key key); [done|apply marker_not_object|done|].
    intros x Hx. by apply lookup_insert_ne.
Qed.

(** What an attempt leaves. *)
Definition attempted {T} (f : T → Response) (h : History)
    (res : Result (Step T * Pending T)) (w' : World) (h' : History) : Prop :=
  sane (w_bucket w') ∧ (∃ l, h' = h ++ l) ∧
  match res with
  | Ok (Finished a, _) => answered (f a) h'
  | Ok (Retry _, pending) => pending_ok f pending h'
  | Err _ => True
  end.

Lemma safely_carry_out {T} (f : T → Response) cur (p : Planned T) w h :
  sane (w_bucket w) → vouches cur → was_read (fst <$> cur) h → decides f (fst <$> cur) p →
  safely env G (carry_out revision_json k cur p) w h (attempted f h).
Proof.
  intros Hs Hv (u & u' & Hin & Hsame & Hst) Hd. unfold carry_out. destruct p as [a|r a|a].
  - cbn. split; [done|]. split; [exists []; by rewrite app_nil_r|]. left. exists u, u'.
    split; [done|]. destruct Hd as (t & Hx & Hm). exists t, (fst <$> cur).
    split_and!; [done..|]. by rewrite Hm, Hsame.
  - apply safely_and_then.
    assert (∀ w1 l, sane (w_bucket w1) → safely env G
      (and_then (put_record_if r (precondition (snd <$> cur))) (λ result,
         Done (Ok (match result with
                   | Applied => (Finished a, None)
                   | LostRace kind => (Retry kind, Some (r, a))
                   end)))) w1 (h ++ l) (attempted f h)) as Hput.
    { intros w1 l Hs1. apply safely_and_then.
      eapply safely_mono; [|by apply (safely_put f cur r a)].
      intros [[|kind]|e] w2 h2 (Hs2 & l2 & -> & Hans); cbn.
      - split; [done|]. split; [exists (l ++ l2); by rewrite app_assoc|].
        by apply answered_app_r, Hans.
      - split; [done|]. split; [exists (l ++ l2); by rewrite app_assoc|]. exists u, u'.
        split; [apply elem_of_app; left; apply elem_of_app; by left|].
        destruct Hd as (t & Hx & Hm & _). by exists t, (fst <$> cur).
      - split; [done|]. split; [exists (l ++ l2); by rewrite app_assoc|done]. }
    destruct (is_tombstone r).
    + apply safely_put_marker; [done|]. intros [[]|e] w1 l Hs1; [by apply Hput|].
      split; [done|]. split; [by exists l|done].
    + cbn. rewrite <-(app_nil_r h) at 1. by apply Hput.
  - apply safely_and_then. eapply safely_mono; [|by apply (safely_delete f cur a)].
    intros [[|kind]|e] w2 h2 (Hs2 & l2 & -> & Hans); cbn; (split; [done|]); (split; [by exists l2|]);
      [|done|done].
    by apply answered_app_r, Hans.
Qed.

Context {T : Type} (f : T → Response) (plan : option record → s3prog (Result (Planned T))).

(** A plan reads a clock at most, and decides as the reference store. *)
Definition plans : Prop := ∀ cur w h, sane (w_bucket w) → (∀ r, cur = Some r → rec_key r = k) →
  safely env G (plan cur) w h (λ res w' h', sane (w_bucket w') ∧ (∃ l, h' = h ++ l) ∧
    match res with Ok p => decides f cur p | Err _ => True end).

Lemma safely_attempt pending w h :
  plans → sane (w_bucket w) → pending_ok f pending h →
  safely env G (attempt revision_json k plan pending) w h (attempted f h).
Proof.
  intros Hplan Hs Hp. unfold attempt. apply safely_and_then.
  eapply safely_mono; [|by apply safely_read].
  intros [cur|e] w1 h1 (Hs1 & l1 & -> & Hread); cbn.
  2: { split; [done|]. by split; [exists l1|]. }
  destruct Hread as [Hv (u & u' & Hin & Hsame & Hst)].
  assert (was_read (fst <$> cur) (h ++ l1)) as Hread
    by (exists u, u'; split; [apply elem_of_app; by right|done]).
  assert (∀ r, fst <$> cur = Some r → rec_key r = k) as Hkey.
  { intros r Hr. rewrite Hr in Hst. unfold stored_at in Hst.
    destruct (w_bucket u !! object_key k); [|done]. by destruct Hst as (r' & [= <-] & _ & ?). }
  assert (safely env G (and_then (plan (fst <$> cur)) (carry_out revision_json k cur)) w1 (h ++ l1)
    (attempted f h)) as Hgo.
  { apply safely_and_then. eapply safely_mono; [|by apply Hplan].
    intros [p|e] w2 h2 (Hs2 & [l2 ->] & Hd); cbn.
    - eapply safely_mono; [|apply (safely_carry_out f cur p); [done..| |done]].
      + intros res w3 h3 (Hs3 & [l3 ->] & Hr). split; [done|]. split; [|done].
        exists (l1 ++ l2 ++ l3). by rewrite !app_assoc.
      + destruct Hread as (v & v' & Hv' & ?). exists v, v'. split; [|done].
        apply elem_of_app. by left.
    - split; [done|]. split; [|done]. exists (l1 ++ l2). by rewrite app_assoc. }
  destruct pending as [[sent answer]|]; [|exact Hgo].
  unfold own_write_landed. case_bool_decide as Hown; [|exact Hgo]. cbn.
  split; [done|]. split; [by exists l1|]. rewrite Hown in Hst.
  destruct Hp as (v & v' & Hv' & Hw). right. exists v, v', u, u', sent.
  split_and!; try done; apply elem_of_app; [by left|by right].
Qed.

Lemma safely_retry n pending w h :
  plans → sane (w_bucket w) → pending_ok f pending h →
  safely env G (retry_on_lost_race revision_json n k plan pending) w h (λ res w' h',
    sane (w_bucket w') ∧ match res with Ok a => answered (f a) h' | Err _ => True end).
Proof.
  intros Hplan. revert pending w h. induction n as [|n IH]; intros pending w h Hs Hp; [done|].
  apply safely_and_then. eapply safely_mono; [|by apply safely_attempt].
  intros [[[a|kind] p]|e] w1 h1 (Hs1 & [l1 ->] & Hr); cbn; [done| |done]. by apply IH.
Qed.

Lemma safely_write w :
  plans → sane (w_bucket w) →
  safely env G (write_planned revision_json k plan) w [] (λ res w' h',
    sane (w_bucket w') ∧ match res with Ok a => answered (f a) h' | Err _ => True end).
Proof. intros Hplan Hs. by apply safely_retry. Qed.
End write.

(** ** Every write *)

Section writes.
Context `{Blake3} `{SerdeRecordLaws} `{S3Service} `{JoinOrder}.
Context (revision_json : Revision → result string bytes) (cap fuel : nat).
Context (env : relation Bucket) (Henv : ∀ b b', env b b' → sane b → sane b').

Lemma safely_clock {A} op k (g : Z → s3prog A) w h (Q : A → World → History → Prop) :
  sane (w_bucket w) →
  (∀ t w' l, sane (w_bucket w') →
     safely env (writes_as_decided cap op k) (g (now_ms t)) w' (h ++ l) Q) →
  safely env (writes_as_decided cap op k) (now ← clock_ms; g now) w h Q.
Proof.
  intros Hs Hg. cbn. intros b r w1 He [-> [t ->]]. assert (sane b) as Hsb by (by eapply Henv).
  split; [by apply G_same|]. by apply Hg.
Qed.

Lemma stays_sane {B} (x : B) w h : sane (w_bucket w) →
  sane (w_bucket w) ∧ ∃ l : History, h = h ++ l.
Proof. intros Hs. split; [done|]. exists []. by rewrite app_nil_r. Qed.

(** A decision about one key, applied to its record alone. *)
Lemma put_decides r cur plan t op :
  call_op (reference cap t) op (only (rec_key r) cur) =
    respond RPut (apply_put plan (rec_key r) (only (rec_key r) cur)) →
  (∀ s, plan = PutWrite s → rec_key s = rec_key r) →
  match put_step (rec_key r) plan with
  | Ok p => decides cap op (rec_key r) (λ a, RPut (Ok a)) cur p
  | Err _ => True
  end.
Proof.
  intros Hcall Hkey. destruct plan as [s|c| |reason]; cbn; [| |done|done]; exists t;
    rewrite Hcall; cbn; (split; [done|]); [|apply lookup_only].
  split; [apply lookup_insert_eq|by apply Hkey].
Qed.

Lemma plans_put r e : plans cap (OpPut r e) (rec_key r) env (λ a, RPut (Ok a))
  (λ current, now ← clock_ms; Done (put_step (rec_key r) (plan_put current r e now cap))).
Proof.
  intros cur w h Hs Hcur. apply safely_clock; [done|]. intros t w' l Hs'. cbn.
  split; [done|]. split; [by exists l|]. apply (put_decides r cur _ t (OpPut r e)).
  - unfold call_op, reference. cbn. unfold MemStore_put. rewrite mem_write_apply. by rewrite lookup_only.
  - intros s. apply plan_put_key.
Qed.

Lemma plans_put_raw r e : plans cap (OpPutRaw r e) (rec_key r) env (λ a, RPut (Ok a))
  (λ current, now ← clock_ms; Done (put_step (rec_key r) (plan_put_raw current r e now cap))).
Proof.
  intros cur w h Hs Hcur. apply safely_clock; [done|]. intros t w' l Hs'. cbn.
  split; [done|]. split; [by exists l|].
  apply (put_decides r cur _ t (OpPutRaw r e)).
  - unfold call_op, reference. cbn. unfold MemStore_put_raw. rewrite mem_write_apply. by rewrite lookup_only.
  - intros s. apply plan_put_raw_key.
Qed.

Lemma plans_delete k e a : plans cap (OpDelete k e a) k env (λ a, RDelete (Ok a))
  (λ current, now ← clock_ms; Done (Ok (delete_step (plan_delete current e now cap a)))).
Proof.
  intros cur w h Hs Hcur. apply safely_clock; [done|]. intros t w' l Hs'. cbn.
  split; [done|]. split; [by exists l|]. exists t.
  assert (call_op (reference cap t) (OpDelete k e a) (only k cur) =
    respond RDelete (apply_delete (plan_delete cur e (now_ms t) cap a) k (only k cur))) as ->.
  { unfold call_op, reference. cbn. rewrite mem_delete_apply. by rewrite lookup_only. }
  destruct (plan_delete cur e (now_ms t) cap a) as [s| |c] eqn:Hp; cbn.
  - split_and!; [done|apply lookup_insert_eq|].
    apply plan_delete_write in Hp as (c & Hc & _ & _ & ->). exact (Hcur c Hc).
  - split; [done|apply lookup_only].
  - split; [done|apply lookup_only].
Qed.

Lemma plans_purge k e : plans cap (OpPurge k e) k env (λ a, RDelete (Ok a))
  (λ current, Done (Ok (purge_step (plan_purge current e)))).
Proof.
  intros cur w h Hs Hcur. cbn. split; [done|]. split; [exists []; by rewrite app_nil_r|].
  exists 0%Z.
  assert (call_op (reference cap 0%Z) (OpPurge k e) (only k cur) =
    respond RDelete (apply_purge (plan_purge cur e) k (only k cur))) as ->.
  { unfold call_op, reference. cbn. rewrite mem_purge_apply. by rewrite lookup_only. }
  destruct (plan_purge cur e) as [| |c] eqn:Hp; cbn.
  - split_and!; [done|apply lookup_delete_eq|]. destruct cur; [done|]. by cbn in Hp.
  - split; [done|apply lookup_only].
  - split; [done|apply lookup_only].
Qed.

(** A write wrapped as a response. *)
Lemma safely_respond {T} op k (f : Result T → Response) plan w :
  plans cap op k env (λ a, f (Ok a)) plan → sane (w_bucket w) →
  (∀ e, response_ok (f (Err e)) = false) →
  safely env (writes_as_decided cap op k)
    (x ← write_planned revision_json k plan; Done (f x)) w [] (λ x w' h,
    sane (w_bucket w') ∧ (response_ok x = true → answered cap op k x h)).
Proof.
  intros Hplan Hs Herr. apply safely_bind. eapply safely_mono; [|by apply safely_write].
  intros [a|e] w' h [Hs' Ha]; cbn; (split; [done|]); [done|]. by rewrite Herr.
Qed.

(** C4: an S3 write is the planner's decision on the record it replaces.  Whatever
    other clients do to the bucket between its requests, and whatever requests fail
    or are applied and reported as failed, every request of a put, delete or purge
    either leaves all records alone or turns the one record of its key into what the
    reference store would make of the record that is there at that instant; and an
    answer that is not an error is the reference store's answer at one of those
    instants, or its answer at a read after which the very record it would have
    written was found stored. *)
Theorem s3_writes_are_atomic (op : StoreOp) (k : RecordKey) (w w' : World)
    (tr : list (World * World)) (x : Response) :
  written_key op = Some k → sane (w_bucket w) →
  runs env (s3_op revision_json cap fuel op) w tr x w' →
  Forall (λ s, writes_as_decided cap op k s.1 s.2) tr ∧ sane (w_bucket w') ∧
  (response_ok x = true → answered cap op k x tr).
Proof.
  intros Hop Hs Hrun.
  assert (safely env (writes_as_decided cap op k) (s3_op revision_json cap fuel op) w [] (λ x w' h,
    sane (w_bucket w') ∧ (response_ok x = true → answered cap op k x h))) as Hsafe.
  { destruct op; try done; injection Hop as <-; cbn [s3_op].
    - by apply safely_respond; [apply plans_put|..].
    - by apply safely_respond; [apply plans_delete|..].
    - by apply safely_respond; [apply plans_put_raw|..].
    - by apply safely_respond; [apply plans_purge|..]. }
  by destruct (safely_runs _ _ _ _ _ _ _ _ _ Hsafe Hrun).
Qed.
End writes.
