(* ===== verification/S3Markers.v ===== *)
(** * S3Markers: every tombstone has its marker, until a listing removes it

    The invariant [list] relies on in a flagged collection, that every tombstone
    carries a marker: any number of clients calling anything but [list] keep it,
    whatever fails or stops.  Then the key space of a bucket: object keys name their
    records, no flag, marker or blob is taken for one, and what a page after page
    listing collects. *)

From S2P Require Export FsBlobs S3Writes.
#[local] Open Scope gonzalo_scope.

(** ** Programs that mark before they bury *)

(** The keys known to be marked. *)
Abbreviation Marked := (RecordKey → Prop).

Section guarded.
Context `{SerdeRecordLaws} `{S3Service}.

(** Every tombstone has a marker. *)
Definition covered (b : Bucket) : Prop := ∀ k o r,
  b !! object_key k = Some o → from_slice (o_body o) = Ok r → is_tombstone r = true →
  is_Some (b !! marker_key k).

(** A record is put under its key, a tombstone only once its marker is known to be
    there, and no marker is deleted. *)
Definition guard {X} (M : Marked) (c : s3call X) : Prop :=
  match c with
  | PutObject key body _ => ∀ k r, key = object_key k → from_slice body = Ok r →
      rec_key r = k ∧ (is_tombstone r = true → M k)
  | DeleteObject key _ => ∀ k, key ≠ marker_key k
  | _ => True
  end.

Definition learnt {X} (M : Marked) (c : s3call X) (r : result S3Error X) : Marked :=
  match c in s3call X return result S3Error X → Marked with
  | PutObject key _ _ => λ r k, M k ∨ (is_ok r = true ∧ key = marker_key k)
  | _ => λ _, M
  end r.

(** What a sane bucket can answer. *)
Definition plausible {X} (c : s3call X) (r : result S3Error X) : Prop :=
  match c in s3call X return result S3Error X → Prop with
  | GetObject key => λ r, match r with
      | Ok (_, Ok d) => ∀ k r, key = object_key k → from_slice d = Ok r → rec_key r = k
      | _ => True
      end
  | _ => λ _, True
  end r.

Fixpoint guarded {A} (M : Marked) (p : s3prog A) (Q : A → Marked → Prop) : Prop :=
  match p with
  | Done a => Q a M
  | Do c k => guard M c ∧ ∀ r, plausible c r → guarded (learnt M c r) (k r) Q
  end.

Lemma guarded_bind {A B} M (m : s3prog A) (f : A → s3prog B) Q :
  guarded M m (λ a M, guarded M (f a) Q) → guarded M (m ≫= f) Q.
Proof.
  revert M. induction m as [a|X c k IH]; intros M; [done|]. cbn.
  intros [Hg Hk]. split; [done|]. intros r Hr. by apply IH, Hk.
Qed.

Lemma guarded_mono {A} M (p : s3prog A) (Q Q' : A → Marked → Prop) :
  (∀ a M, Q a M → Q' a M) → guarded M p Q → guarded M p Q'.
Proof.
  intros HQ. revert M. induction p as [a|X c k IH]; intros M; [apply HQ|]. cbn.
  intros [Hg Hk]. split; [done|]. intros r Hr. by apply IH, Hk.
Qed.

Lemma guarded_and_then {A B} M (m : s3prog (Result A)) (f : A → s3prog (Result B)) Q :
  guarded M m (λ r M, match r with Ok a => guarded M (f a) Q | Err e => Q (Err e) M end) →
  guarded M (and_then m f) Q.
Proof.
  intros Hm. apply guarded_bind. eapply guarded_mono; [|exact Hm]. by intros [a|e] M'.
Qed.

(** ** Pools *)

Definition marking (b : Bucket) : Prop := sane b ∧ covered b.

Definition pool_ok {A} (s : Pool A) : Prop :=
  marking s.2 ∧ ∀ i p known, s.1 !! i = Some (p, known) → ∃ M,
    guarded M p (λ _ _, True) ∧ ∀ k, M k → is_Some (s.2 !! marker_key k).

Lemma step_marking {X} M (c : s3call X) r w w' :
  marking (w_bucket w) → guard M c → (∀ k, M k → is_Some (w_bucket w !! marker_key k)) →
  s3step w c r w' →
  marking (w_bucket w') ∧ plausible c r ∧
  (∀ k, is_Some (w_bucket w !! marker_key k) → is_Some (w_bucket w' !! marker_key k)) ∧
  ∀ k, learnt M c r k → is_Some (w_bucket w' !! marker_key k).
Proof.
  intros [Hs Hc] Hg HM Hstep.
  destruct c as [key|key|key body cond|key cond|prefix token| |pair|pair]; cbn in Hstep.
  - destruct Hstep as (b' & Hserve & ->). apply serves_get in Hserve as [-> Hr]. cbn.
    split_and!; try done. destruct r as [[tag [d|]]|]; [|done..].
    destruct Hr as (o & Ho & _ & Hd). rewrite (Hd d eq_refl). intros k r -> Hr'. by eapply Hs.
  - destruct Hstep as (b' & Hserve & ->). apply serves_head in Hserve as [-> Hr]. done.
  - destruct Hstep as (b' & Hserve & ->). cbn [w_bucket learnt plausible].
    apply serves_put in Hserve as [[-> [e ->]]|(_ & o & Ho & Ht & ->)].
    { split_and!; try done. intros k [?|[? _]]; [by apply HM|done]. }
    assert (∀ k, is_Some (w_bucket w !! marker_key k) →
      is_Some (<[key := o]> (w_bucket w) !! marker_key k)) as Hkeep
      by (intros k Hk; rewrite lookup_insert; by case_decide).
    split_and!; [split| done| done|].
    + apply sane_put; [done|by subst|]. intros k r0 -> Hr0. subst body. by apply (Hg k r0).
    + intros k o' r' [[-> <-]|[_ Ho']]%lookup_insert_Some Hr' Ht'; apply Hkeep.
      * subst body. apply HM. by apply (Hg k r').
      * by eapply Hc.
    + intros k [Hk|[_ ->]]; [by apply Hkeep, HM|]. rewrite lookup_insert_eq. by eexists.
  - destruct Hstep as (b' & Hserve & ->). cbn [w_bucket learnt plausible].
    apply serves_delete in Hserve as [[-> [e ->]]|(_ & ->)]; [done|].
    assert (∀ k, is_Some (w_bucket w !! marker_key k) →
      is_Some (delete key (w_bucket w) !! marker_key k)) as Hkeep
      by (intros k Hk; rewrite lookup_delete_ne; [done|apply Hg]).
    split_and!; [split|done|done|].
    + by apply sane_delete.
    + intros k o' r' [_ Ho']%lookup_delete_Some Hr' Ht'. apply Hkeep. by eapply Hc.
    + intros k Hk. by apply Hkeep, HM.
  - destruct Hstep as (b' & Hserve & ->). apply serves_list in Hserve as [-> Hr]. done.
  - destruct Hstep as [-> _]. done.
  - destruct Hstep as [-> _]. done.
  - destruct Hstep as [-> _]. cbn. by split_and!.
Qed.

Lemma pool_step_ok {A} (s s' : Pool A) : pool_ok s → pool_step s s' → pool_ok s'.
Proof.
  intros [Hm Hps] (i & p & known & p' & known' & Hi & Hs' & Hadv).
  destruct p as [a|X c k]; [done|]. destruct Hadv as (r & Hstep & ->).
  destruct (Hps i _ _ Hi) as (M & [Hg Hk] & HM).
  destruct (step_marking M c r (mkWorld s.2 known) (mkWorld s'.2 known') Hm Hg HM Hstep) as (Hm' & Hr & Hkeep & Hlearn).
  cbn [w_bucket] in Hm', Hkeep, Hlearn. split; [done|]. rewrite Hs'.
  intros j q known2 [(<- & [= <- <-] & _)|[Hne Hj]]%list_lookup_insert_Some.
  - exists (learnt M c r). split; [by apply Hk|done].
  - destruct (Hps j q known2 Hj) as (M2 & Hg2 & HM2). exists M2. auto.
Qed.
End guarded.

(** ** The store's writes are guarded *)

Section calls.
Context `{Blake3} `{SerdeRecordLaws} `{S3Service} `{JoinOrder}.
Context (revision_json : Revision → result string bytes) (cap fuel : nat).

Lemma guarded_read M k (Q : Result (option (record * string)) → (RecordKey → Prop) → Prop) :
  (∀ res, (∀ r t, res = Ok (Some (r, t)) → rec_key r = k) → Q res M) →
  guarded M (read_with_etag k) Q.
Proof.
  intros HQ. split; [done|]. intros resp Hp. apply HQ. cbn [guarded learnt].
  destruct resp as [[tag [d|e]]|e]; cbn.
  - destruct tag as [t|]; cbn; [|done]. destruct (from_slice d) as [r|] eqn:Hd; cbn; [|done].
    intros ? ? [= <- <-]. by apply (Hp k r).
  - by destruct tag.
  - by destruct (is_no_such_key e).
Qed.

(** What a call may have learnt in between. *)
#[local] Notation "M ⊑ M'" := (∀ k, M k → M' k) (at level 70).

Lemma guarded_put_record M r pre (Q : Result WriteOutcome → Marked → Prop) :
  (is_tombstone r = true → M (rec_key r)) → (∀ res M', M ⊑ M' → Q res M') →
  guarded M (put_record_if r pre) Q.
Proof.
  intros HM HQ. apply guarded_and_then. cbn.
  destruct (from_slice_to_vec r) as (body & -> & Hd). cbn. split.
  - intros k r' <-%(inj object_key). rewrite Hd. by intros [= <-].
  - intros resp _. apply HQ. intros k. by left.
Qed.

Lemma guarded_put_marker M k revision (Q : Result unit → Marked → Prop) :
  (∀ M', M ⊑ M' → M' k → Q (Ok tt) M') → (∀ e M', M ⊑ M' → Q (Err e) M') →
  guarded M (put_marker revision_json k revision) Q.
Proof.
  intros Hok Herr. apply guarded_and_then. cbn.
  destruct (revision_json revision) as [body|e]; cbn; [|by apply Herr]. split.
  - intros k' r Heq. by destruct (marker_not_object k k').
  - intros [[]|e] _; cbn; [apply Hok|apply Herr]; auto.
Qed.

(** A plan for a key puts records of that key. *)
Definition puts_key {T} (k : RecordKey) (res : Result (Planned T)) : Prop :=
  ∀ r a, res = Ok (Put r a) → rec_key r = k.

Definition plan_ok {T} (k : RecordKey) (plan : option record → s3prog (Result (Planned T))) : Prop :=
  ∀ cur M, (∀ r, cur = Some r → rec_key r = k) →
  guarded M (plan cur) (λ res M', M' = M ∧ puts_key k res).

Lemma guarded_carry_out {T} M k cur (p : Planned T) (Q : Result (Step T * Pending T) → Marked → Prop) :
  puts_key k (Ok p) → (∀ res M', M ⊑ M' → Q res M') →
  guarded M (carry_out revision_json k cur p) Q.
Proof.
  intros Hp HQ. destruct p as [a|r a|a]; [by apply HQ| |].
  - pose proof (Hp r a eq_refl) as Hk. apply guarded_and_then.
    assert (∀ M1, M ⊑ M1 → (is_tombstone r = true → M1 k) → guarded M1
      (and_then (put_record_if r (precondition (snd <$> cur))) (λ result,
         Done (Ok (match result with
                   | Applied => (Finished a, None)
                   | LostRace kind => (Retry kind, Some (r, a))
                   end)))) Q) as Hput.
    { intros M1 Hsub Hm. apply guarded_and_then, guarded_put_record; [by intros ?; rewrite Hk; apply Hm|].
      intros [|] M2 Hsub2; apply HQ; auto. }
    destruct (is_tombstone r); [|by apply Hput].
    apply guarded_put_marker; [by auto|]. intros e M' Hsub. by apply HQ.
  - apply guarded_and_then. split; [intros k' Heq; by destruct (marker_not_object k' k)|].
    intros resp _. cbn. destruct (outcome resp); by apply HQ.
Qed.

Lemma guarded_retry {T} M n k (plan : option record → s3prog (Result (Planned T))) pending :
  plan_ok k plan →
  guarded M (retry_on_lost_race revision_json n k plan pending) (λ _ _, True).
Proof.
  intros Hplan. revert M pending. induction n as [|n IH]; intros M pending; [done|].
  apply guarded_and_then, guarded_and_then, guarded_read. intros [cur|e] Hcur; [|done].
  assert (∀ r, fst <$> cur = Some r → rec_key r = k) as Hkey.
  { destruct cur as [[r t]|]; [|done]. intros ? [= <-]. by apply (Hcur r t). }
  assert (guarded M (and_then (plan (fst <$> cur)) (carry_out revision_json k cur)) (λ r M,
    match r with
    | Ok a => guarded M match a with
        | (Finished answer, _) => Done (Ok answer)
        | (Retry _, pending) => retry_on_lost_race revision_json n k plan pending
        end (λ _ _, True)
    | Err _ => True
    end)) as Hgo.
  { apply guarded_and_then. eapply guarded_mono; [|by apply Hplan].
    intros [p|e] M1 [-> Hp]; [|done]. apply guarded_carry_out; [done|].
    intros [[[a|kind] pend]|e] M2 _; [done|apply IH|done]. }
  destruct pending as [[sent answer]|]; [|exact Hgo].
  destruct (own_write_landed sent (fst <$> cur)); [done|exact Hgo].
Qed.

Lemma guarded_clock {T} M (g : Z → Result (Planned T)) k :
  (∀ now, puts_key k (g now)) →
  guarded M (now ← clock_ms; Done (g now)) (λ res M', M' = M ∧ puts_key k res).
Proof. intros Hg. split; [done|]. intros resp _. by split. Qed.

Lemma guarded_op M op : match op with OpList _ => False | _ => True end →
  guarded M (s3_op revision_json cap fuel op) (λ _ _, True).
Proof.
  assert (∀ A (f : Result A → Response) (p : s3prog (Result A)),
    guarded M p (λ _ _, True) → guarded M (x ← p; Done (f x)) (λ _ _, True)) as Hres
    by (intros A f p Hp; by apply guarded_bind).
  assert (∀ k, guarded M (s3_read k) (λ _ _, True)) as Hread
    by (intros k; apply guarded_and_then, guarded_read; by intros [|]).
  assert (∀ r (pl : Z → PutPlan), (∀ now s, pl now = PutWrite s → rec_key s = rec_key r) →
    ∀ now, puts_key (rec_key r) (put_step (rec_key r) (pl now))) as Hput.
  { intros r pl Hpl now s a. destruct (pl now) eqn:Heq; try done. cbn. intros [= <- <-]. by eapply Hpl. }
  destruct op as [k|r e|p|k e a|k|p|r e|k e]; intros Hop; try done; cbn [s3_op]; apply Hres.
  - apply guarded_and_then. eapply guarded_mono; [|apply Hread]. by intros [|].
  - apply guarded_retry. intros cur M' _.
    apply (guarded_clock M' (λ now, put_step (rec_key r) (plan_put cur r e now cap))).
    apply (Hput r). intros now s. apply plan_put_key.
  - apply guarded_retry. intros cur M' Hcur.
    apply (guarded_clock M' (λ now, Ok (delete_step (plan_delete cur e now cap a)))).
    intros now r x. destruct (plan_delete cur e now cap a) eqn:Hp; try done.
    apply plan_delete_write in Hp as (c & Hc & _ & _ & ->). intros [= <- _]. exact (Hcur c Hc).
  - apply Hread.
  - apply guarded_and_then. unfold list_objects. generalize (mkListing [] ∅) (@None string).
    induction fuel as [|n IH]; intros out token; [done|]. split; [done|]. intros resp _.
    destruct resp as [page|e]; [|done]. cbn.
    destruct (pg_next page) as [t|]; [|done].
    exact (IH (foldl (list_entry p) out (pg_contents page)) (Some t)).
  - apply guarded_retry. intros cur M' _.
    apply (guarded_clock M' (λ now, put_step (rec_key r) (plan_put_raw cur r e now cap))).
    apply (Hput r). intros now s. apply plan_put_raw_key.
  - apply guarded_retry. intros cur M' _. split; [done|].
    intros r x. by destruct (plan_purge cur e).
Qed.

(** A client: calls made one after another. *)
Fixpoint client (ops : list StoreOp) : s3prog (list Response) :=
  match ops with
  | [] => Done []
  | op :: ops => x ← s3_op revision_json cap fuel op; xs ← client ops; Done (x :: xs)
  end.

Definition lists (op : StoreOp) : bool := match op with OpList _ => true | _ => false end.

Lemma guarded_client M ops : Forall (λ op, lists op = false) ops →
  guarded M (client ops) (λ _ _, True).
Proof.
  revert M. induction ops as [|op ops IH]; intros M; [done|].
  intros [Hop Hops]%Forall_cons. apply guarded_bind. eapply guarded_mono.
  2: { apply guarded_op. by destruct op. }
  intros x M' _. apply guarded_bind. eapply guarded_mono; [|by apply IH]. done.
Qed.

(** The clients, none of which has begun. *)
Definition starting (clients : list (list StoreOp * gset (string * string))) (b : Bucket) :
    Pool (list Response) :=
  ((λ c, (client c.1, c.2)) <$> clients, b).

(** C10: writers keep every tombstone marked.  Any number of clients, each making any
    calls but [list], on one bucket, in any
    interleaving of their requests, with any request failing or applied and reported
    as failed, and any client stopping for good between two requests: a bucket whose
    tombstones all have markers goes only to such buckets. *)
Theorem writers_keep_tombstones_marked
    (clients : list (list StoreOp * gset (string * string))) (b : Bucket) (s : Pool (list Response)) :
  marking b → Forall (λ c, Forall (λ op, lists op = false) c.1) clients →
  rtc pool_step (starting clients b) s → marking s.2.
Proof.
  intros Hb Hops Hrun.
  assert (pool_ok (starting clients b)) as Hok.
  { split; [done|]. cbn. intros i p known [[ops kn] [[= -> ->] Hi]]%list_lookup_fmap_Some_1.
    exists (λ _, False). split; [|done]. apply guarded_client.
    exact (Forall_lookup_1 _ _ _ _ Hops Hi). }
  revert Hok. induction Hrun as [s|s s1 s2 Hstep _ IH]; [by intros [? _]|].
  intros Hok. by apply IH, (pool_step_ok s s1).
Qed.
End calls.

(** ** The key space *)

(** ** Names *)

Definition rust_key (k : RecordKey) : Prop :=
  rust_string (key_namespace k) ∧ rust_string (key_collection k) ∧ rust_string (key_id k).

Lemma split_slash_cons a s : slash ∉ bytes_of_string a →
  split_slash (a +:+ "/" +:+ s) = a :: split_slash s.
Proof.
  intros Ha. unfold split_slash. rewrite !bytes_of_string_app.
  change (bytes_of_string "/" ++ bytes_of_string s) with (slash :: bytes_of_string s).
  rewrite split_on_app by done. cbn. by rewrite string_of_bytes_of_string.
Qed.

Lemma split_slash_single a : slash ∉ bytes_of_string a → split_slash a = [a].
Proof.
  intros Ha. unfold split_slash. rewrite split_on_absent by done. cbn.
  by rewrite string_of_bytes_of_string.
Qed.

Lemma object_key_stem k : object_key k =
  (segment (key_namespace k) +:+ "/" +:+ segment (key_collection k) +:+ "/" +:+
   segment (key_id k)) +:+ ".json".
Proof. unfold object_key, record_components. by rewrite !string_app_assoc. Qed.

Lemma parse_object_key_object k : rust_key k → parse_object_key (object_key k) = Some k.
Proof.
  intros (Hn & Hc & Hi). unfold parse_object_key. rewrite object_key_stem, str_strip_suffix_app.
  cbn [mbind option_bind].
  rewrite split_slash_cons, split_slash_cons, split_slash_single by apply segment_inert.
  rewrite !decode_segment_segment by done. by destruct k.
Qed.

Lemma parse_object_key_last s k :
  parse_object_key s = Some k → last (bytes_of_string s) = Some Byte.x6e.
Proof.
  unfold parse_object_key. destruct (str_strip_suffix ".json" s) as [x|] eqn:Hx; [|done].
  intros _. apply str_strip_suffix_Some in Hx as ->. by apply last_app_string.
Qed.

Lemma parse_object_key_marker k : parse_object_key (marker_key k) = None.
Proof.
  destruct (parse_object_key _) as [k'|] eqn:Hp; [|done].
  apply parse_object_key_last in Hp. by rewrite marker_key_last in Hp.
Qed.

Lemma parse_marker_key_marker k : rust_key k → parse_marker_key (marker_key k) = Some k.
Proof.
  intros Hk. unfold parse_marker_key, marker_key. rewrite str_strip_suffix_app.
  by apply parse_object_key_object.
Qed.

Lemma parse_marker_key_last s k :
  parse_marker_key s = Some k → last (bytes_of_string s) = Some Byte.x65.
Proof.
  unfold parse_marker_key. destruct (str_strip_suffix MARKER_SUFFIX s) as [x|] eqn:Hx; [|done].
  intros _. apply str_strip_suffix_Some in Hx as ->. by apply last_app_string.
Qed.

(** Neither a record's nor a marker's. *)
Definition unparsed (s : string) : Prop := parse_object_key s = None ∧ parse_marker_key s = None.

Lemma flag_unparsed ns col : unparsed (marked_flag_key ns col).
Proof.
  split.
  - destruct (parse_object_key _) as [k|] eqn:Hp; [|done].
    apply parse_object_key_last in Hp. by rewrite flag_key_last in Hp.
  - destruct (parse_marker_key _) as [k|] eqn:Hp; [|done].
    apply parse_marker_key_last in Hp. by rewrite flag_key_last in Hp.
Qed.

Lemma dotless_unstripped suffix s : dot ∈ bytes_of_string suffix → dot ∉ bytes_of_string s →
  str_strip_suffix suffix s = None.
Proof.
  intros Hd Hs. destruct (str_strip_suffix suffix s) as [x|] eqn:Hx; [|done].
  apply str_strip_suffix_Some in Hx as ->. destruct Hs. rewrite bytes_of_string_app.
  apply elem_of_app. by right.
Qed.

Lemma dot_in_suffixes : dot ∈ bytes_of_string ".json" ∧ dot ∈ bytes_of_string MARKER_SUFFIX.
Proof. split; left. Qed.

(** A blob under the hash of a content, which has no dot. *)
Lemma blob_unparsed h : dot ∉ bytes_of_string (hash_hex h) → unparsed (blob_key h).
Proof.
  intros Hh. assert (dot ∉ bytes_of_string (blob_key h)) as Hdot.
  { unfold blob_key. rewrite bytes_of_string_app, not_elem_of_app. split; [|done].
    vm_compute. intros Hin. repeat (apply elem_of_cons in Hin as [|Hin]; [done|]).
    by apply elem_of_nil in Hin. }
  unfold unparsed, parse_marker_key, parse_object_key.
  rewrite !dotless_unstripped by first [exact Hdot | apply dot_in_suffixes]. by split.
Qed.

(** ** Prefixes *)

Lemma prefix_refl s t : String.prefix s (s +:+ t) = true.
Proof. induction s as [|c s IH]; [by destruct t|].
  change (String c s +:+ t) with (String c (s +:+ t)). cbn [String.prefix].
  destruct (Ascii.ascii_dec c c); [exact IH|congruence].
Qed.

Lemma prefix_object_key p k : prefix_matches p k = true →
  String.prefix (s3_prefix p) (object_key k) = true.
Proof.
  destruct p as [[ns|] [col|]]; unfold prefix_matches, s3_prefix; cbn;
    rewrite ?andb_true_iff, ?bool_decide_eq_true; try (by destruct (object_key k)).
  - intros [-> ->]. assert (object_key k =
      (segment (key_namespace k) +:+ "/" +:+ segment (key_collection k) +:+ "/") +:+
      (segment (key_id k) +:+ ".json")) as ->; [|apply prefix_refl].
    by rewrite object_key_stem, !string_app_assoc.
  - intros [-> _]. assert (object_key k = (segment (key_namespace k) +:+ "/" +:+ "") +:+
      (segment (key_collection k) +:+ "/" +:+ segment (key_id k) +:+ ".json")) as ->;
      [|apply prefix_refl].
    by rewrite string_app_nil_r, object_key_stem, !string_app_assoc.
Qed.

Lemma prefix_marker_key p k : prefix_matches p k = true →
  String.prefix (s3_prefix p) (marker_key k) = true.
Proof.
  intros Hp%prefix_object_key. unfold marker_key. revert Hp. generalize (object_key k). intros s.
  generalize (s3_prefix p). clear. intros t. revert s.
  induction t as [|c t IH]; intros [|d s]; try done.
  change (String d s +:+ MARKER_SUFFIX) with (String d (s +:+ MARKER_SUFFIX)).
  cbn [String.prefix]. destruct (Ascii.ascii_dec c d); [apply IH|done].
Qed.

(** ** Pages *)

Lemma filter_all {A} (P : A → Prop) `{!∀ x, Decision (P x)} l : Forall P l → filter P l = l.
Proof. induction 1 as [|x l Hx _ IH]; [done|]. rewrite filter_cons_True by done. by rewrite IH. Qed.

Lemma increasing_after {A} `{CmpLaws A} (l1 l2 : list A) x :
  increasing (l1 ++ x :: l2) → filter (λ y, olt x y) (l1 ++ x :: l2) = l2.
Proof.
  induction l1 as [|y l1 IH]; cbn [app]; intros [Hl Hy]%StronglySorted_inv;
    rewrite filter_cons.
  - rewrite decide_False by apply olt_irrefl. by apply filter_all.
  - rewrite decide_False, IH; [done..|]. intros Hxy. rewrite Forall_forall in Hy.
    apply (olt_irrefl x). trans y; [done|]. apply Hy, elem_of_app. right. left.
Qed.

Lemma keys_from_increasing b prefix after : increasing (keys_from b prefix after).
Proof. apply StronglySorted_filter, btree_keys_increasing. Qed.

(** The page after the one that ends with [x]. *)
Lemma keys_from_next b prefix after n x :
  last (take n (keys_from b prefix after)) = Some x →
  keys_from b prefix (Some x) = drop n (keys_from b prefix after).
Proof.
  intros Hx. pose proof (keys_from_increasing b prefix after) as Hi.
  assert (x ∈ keys_from b prefix after) as Hin.
  { apply last_Some_elem_of in Hx. rewrite <-(take_drop n (keys_from b prefix after)).
    apply elem_of_app. by left. }
  assert (keys_from b prefix (Some x) = filter (λ y, olt x y) (keys_from b prefix after)) as ->.
  { unfold keys_from. rewrite list_filter_filter. apply list_filter_iff. intros y.
    unfold keys_from in Hin. apply list_elem_of_filter in Hin as [[_ Hpast] _].
    unfold past in *. rewrite bool_decide_eq_true. destruct after as [a|]; [|tauto].
    rewrite bool_decide_eq_true in Hpast |- *. split; [|tauto].
    intros [Hp Hy]. split_and!; [done..|]. by trans x. }
  apply last_Some in Hx as [l Hl]. revert Hi Hl. generalize (keys_from b prefix after). clear.
  intros ks Hi Hl. assert (ks = l ++ x :: drop n ks) as Hks.
  { rewrite <-(take_drop n ks) at 1. by rewrite Hl, <-app_assoc. }
  revert Hi Hks. generalize (drop n ks). intros d Hi ->. by apply increasing_after.
Qed.
