(* ===== verification/S3Listing.v ===== *)
(** * S3Listing: a listing nobody interrupts

    What [list] answers, and what it does to markers and flags, when no one else
    writes: the reference store's listing, and a bucket that can still be trusted. *)

From S2P Require Export S3Markers.
#[local] Open Scope gonzalo_scope.

#[global] Arguments parse_object_key : simpl never.
#[global] Arguments parse_marker_key : simpl never.
#[global] Arguments pair_of : simpl never.

(** ** The listing of a bucket *)

Lemma object_key_parses k : is_Some (parse_object_key (object_key k)).
Proof.
  unfold parse_object_key. rewrite object_key_stem, str_strip_suffix_app. cbn [mbind option_bind].
  rewrite split_slash_cons, split_slash_cons, split_slash_single by apply segment_inert.
  by eexists.
Qed.

Lemma unparsed_not_object s k : unparsed s → s ≠ object_key k.
Proof. intros [Hs _] ->. destruct (object_key_parses k) as [? Hk]. by rewrite Hs in Hk. Qed.

Lemma unparsed_not_marker s k : unparsed s → s ≠ marker_key k.
Proof.
  intros [_ Hs] ->. destruct (object_key_parses k) as [? Hk].
  unfold parse_marker_key, marker_key in Hs. rewrite str_strip_suffix_app in Hs. cbn in Hs.
  by rewrite Hk in Hs.
Qed.

#[export] Instance marker_key_inj : Inj (=) (=) marker_key.
Proof.
  intros k k' Heq. unfold marker_key in Heq. apply (f_equal (str_strip_suffix MARKER_SUFFIX)) in Heq.
  rewrite !str_strip_suffix_app in Heq. by simplify_eq.
Qed.

Section layout.
Context `{Blake3} `{SerdeRecordLaws}.

(** The bucket holds the records of [m], markers, and objects that are neither. *)
Record s3_laid_out (b : Bucket) (m : records) : Prop := {
  s3_named s : is_Some (b !! s) →
    (∃ k, s = object_key k ∧ rust_key k) ∨ (∃ k, s = marker_key k ∧ rust_key k) ∨ unparsed s;
  s3_holds k : stored_at b k (m !! k)
}.

Lemma s3_keyed b m : s3_laid_out b m → keyed m.
Proof.
  intros [_ Hh] k r Hr. specialize (Hh k). rewrite Hr in Hh. unfold stored_at in Hh.
  destruct (b !! object_key k); [|done]. by destruct Hh as (? & [= <-] & _ & ?).
Qed.

Lemma s3_object b m k : s3_laid_out b m → is_Some (b !! object_key k) ↔ is_Some (m !! k).
Proof.
  intros [_ Hh]. specialize (Hh k). unfold stored_at in Hh. destruct (b !! object_key k).
  - destruct Hh as (r & -> & _). split; by eexists.
  - rewrite Hh. done.
Qed.

Definition listed_record (p : KeyPrefix) (s : string) : option RecordKey :=
  k ← parse_object_key s; if prefix_matches p k then Some k else None.

Definition enumerate (p : KeyPrefix) (b : Bucket) (keys : list string) : Listing :=
  foldl (list_entry p) (mkListing [] ∅) (listed_object b <$> keys).

Lemma enumerate_snoc p b keys s :
  enumerate p b (keys ++ [s]) = list_entry p (enumerate p b keys) (listed_object b s).
Proof. unfold enumerate. by rewrite fmap_app, foldl_app. Qed.

Lemma enumerate_records p b keys : l_records (enumerate p b keys) = omap (listed_record p) keys.
Proof.
  induction keys as [|s keys IH] using rev_ind; [done|].
  rewrite enumerate_snoc, omap_app, <-IH. unfold list_entry, listed_record. cbn.
  destruct (parse_object_key s) as [k|]; cbn.
  - destruct (prefix_matches p k); [done|]. by rewrite app_nil_r.
  - rewrite app_nil_r. destruct (parse_marker_key s) as [k|], (b !! s) as [o|]; cbn; try done.
    by destruct (prefix_matches p k).
Qed.

Context (b : Bucket) (m : records) (p : KeyPrefix) (Hb : s3_laid_out b m).

Notation keys := (keys_from b (s3_prefix p) None).
Notation listing := (enumerate p b keys).

Lemma elem_of_keys_from s : s ∈ keys ↔ is_Some (b !! s) ∧ String.prefix (s3_prefix p) s = true.
Proof.
  unfold keys_from. rewrite list_elem_of_filter, elem_of_btree_keys. cbn. tauto.
Qed.

Lemma listed_record_object s k : s ∈ keys → listed_record p s = Some k →
  s = object_key k ∧ prefix_matches p k = true.
Proof.
  intros [Hs _]%elem_of_keys_from. unfold listed_record.
  destruct (s3_named _ _ Hb s Hs) as [(k' & -> & Hk)|[(k' & -> & Hk)|[Hn _]]].
  - rewrite parse_object_key_object by done. cbn. destruct (prefix_matches p k') eqn:Hp; [|done].
    by intros [= <-].
  - by rewrite parse_object_key_marker.
  - by rewrite Hn.
Qed.

Lemma elem_of_listing k : k ∈ l_records listing ↔ is_Some (m !! k) ∧ prefix_matches p k = true.
Proof.
  rewrite enumerate_records, list_elem_of_omap. split.
  - intros (s & Hs & Hr). destruct (listed_record_object s k Hs Hr) as [-> Hp].
    apply elem_of_keys_from in Hs as [Hs _]. split; [|done]. by apply (s3_object b m k Hb).
  - intros [Hk Hp]. apply (s3_object b m k Hb) in Hk. exists (object_key k). split.
    + apply elem_of_keys_from. split; [done|by apply prefix_object_key].
    + unfold listed_record. destruct (s3_named _ _ Hb _ Hk) as [(k' & Heq & Hr)|[(k' & Heq & _)|Hn]].
      * apply (inj object_key) in Heq as <-. rewrite parse_object_key_object by done. cbn. by rewrite Hp.
      * by destruct (marker_not_object k' k).
      * by destruct (unparsed_not_object _ k Hn).
Qed.

Lemma NoDup_listing : NoDup (l_records listing).
Proof.
  rewrite enumerate_records. assert (NoDup keys) as Hnd by (apply increasing_NoDup, keys_from_increasing).
  assert (∀ s, s ∈ keys → s ∈ keys) as Hsub by done. revert Hnd Hsub. generalize keys at 1 2 4.
  intros l. induction l as [|s l IH]; [constructor|]. intros [Hs Hnd]%NoDup_cons Hsub. cbn.
  assert (NoDup (omap (listed_record p) l)) as Hl by (apply IH; [done|]; intros; apply Hsub; by right).
  destruct (listed_record p s) as [k|] eqn:Hk; [|done]. constructor; [|done].
  intros (s' & Hs' & Hk')%list_elem_of_omap.
  apply listed_record_object in Hk as [-> _]; [|apply Hsub; by left].
  apply listed_record_object in Hk' as [-> _]; [|apply Hsub; by right]. done.
Qed.

Lemma listing_markers_of l k t : (∀ s, s ∈ l → is_Some (b !! s)) →
  l_markers (enumerate p b l) !! k = Some t ↔
    marker_key k ∈ l ∧ prefix_matches p k = true ∧ o_etag <$> b !! marker_key k = Some t.
Proof.
  induction l as [|s l IH] using rev_ind; intros Hsub.
  { cbn. rewrite lookup_empty. split; [done|]. by intros [?%elem_of_nil _]. }
  rewrite enumerate_snoc. assert (∀ s, s ∈ l → is_Some (b !! s)) as Hl
    by (intros s' Hs'; apply Hsub, elem_of_app; by left).
  assert (is_Some (b !! s)) as [o Ho] by (apply Hsub, elem_of_app; right; left).
  specialize (IH Hl). rewrite elem_of_app, list_elem_of_singleton.
  unfold list_entry. cbn [li_key li_etag listed_object]. rewrite Ho. cbn [fmap option_fmap option_map].
  destruct (s3_named _ _ Hb s (ex_intro _ _ Ho)) as [(k' & -> & Hk)|[(k' & -> & Hk)|Hn]].
  - rewrite parse_object_key_object by done.
    assert (marker_key k ≠ object_key k') by apply marker_not_object.
    destruct (prefix_matches p k'); cbn [l_markers]; rewrite IH; tauto.
  - rewrite parse_object_key_marker, parse_marker_key_marker by done.
    destruct (decide (k' = k)) as [->|Hne].
    + destruct (prefix_matches p k); cbn [l_markers].
      * rewrite lookup_insert_eq, Ho. cbn. split; [|tauto]. intros ?. split_and!; [by right|done..].
      * rewrite IH. intuition done.
    + assert (marker_key k ≠ marker_key k') by (intros ?%(inj marker_key); done).
      destruct (prefix_matches p k'); cbn [l_markers]; rewrite ?lookup_insert_ne by done; rewrite IH; tauto.
  - pose proof (unparsed_not_marker s k Hn) as Hne. destruct Hn as [-> ->].
    rewrite IH. split; [tauto|]. intros [[?|Heq] ?]; [done|]. by destruct Hne.
Qed.

Lemma listing_markers k t : l_markers listing !! k = Some t ↔
  prefix_matches p k = true ∧ o_etag <$> b !! marker_key k = Some t.
Proof.
  rewrite listing_markers_of by (by intros s [? _]%elem_of_keys_from).
  rewrite elem_of_keys_from. split; [tauto|]. intros [Hp Ht]. split_and!; [|by apply prefix_marker_key|done..].
  by destruct (b !! marker_key k).
Qed.
End layout.

(** ** Runs nobody else writes in *)

Lemma flag_key_inj ns col ns' col' :
  marked_flag_key ns col = marked_flag_key ns' col' → ns = ns' ∧ col = col'.
Proof.
  intros Heq%(f_equal split_slash). unfold marked_flag_key in Heq.
  change "/_tombstone_markers" with ("/" +:+ "_tombstone_markers") in Heq.
  rewrite !split_slash_cons in Heq by apply segment_inert.
  injection Heq as Hn Hc. by apply (inj segment) in Hn, Hc.
Qed.

Section quiet.
Context `{Blake3} `{SerdeRecordLaws} `{S3Service}.
Context (m : records).

Definition buried (k : RecordKey) : Prop := ∃ r, m !! k = Some r ∧ is_tombstone r = true.

(** What [collection_marked] answers. *)
Definition flagged (w : World) (ns col : string) : Prop :=
  is_Some (w_bucket w !! marked_flag_key ns col) ∨ pair_of ns col ∈ w_known w.

(** The records are those of [m], and every tombstone of a flagged collection has a
    marker. *)
Definition quiet (w : World) : Prop :=
  s3_laid_out (w_bucket w) m ∧
  ∀ ns col k, flagged w ns col → collection_of k = (ns, col) → buried k →
    is_Some (w_bucket w !! marker_key k).

(** Every call of [p] leaves the store quiet, and [p] ends with [Q]. *)
Definition quietly {A} (p : s3prog A) (w : World) (Q : A → World → Prop) : Prop :=
  ∀ h, safely (=) (λ _ w', quiet w') p w h (λ a w' _, Q a w').

Lemma quietly_done {A} (a : A) w (Q : A → World → Prop) : Q a w → quietly (Done a) w Q.
Proof. by intros HQ h. Qed.

Lemma quietly_do {A X} (c : s3call X) (k : result S3Error X → s3prog A) w Q :
  (∀ r w', s3step w c r w' → quiet w' ∧ quietly (k r) w' Q) → quietly (Do c k) w Q.
Proof.
  intros Hk h b r w1 <- Hs. destruct (Hk r w1) as [Hq Hr]; [by destruct w|].
  split; [done|]. apply Hr.
Qed.

Lemma quietly_mono {A} (p : s3prog A) w (Q Q' : A → World → Prop) :
  (∀ a w', Q a w' → Q' a w') → quietly p w Q → quietly p w Q'.
Proof. intros HQ Hp h. eapply safely_mono; [|apply Hp]. auto. Qed.

Lemma quietly_and_then {A B} (p : s3prog (Result A)) (f : A → s3prog (Result B)) w
    (Q : Result B → World → Prop) :
  quietly p w (λ r w', match r with Ok a => quietly (f a) w' Q | Err e => Q (Err e) w' end) →
  quietly (and_then p f) w Q.
Proof.
  intros Hp h. apply safely_and_then. eapply safely_mono; [|apply Hp].
  intros [a|e] w' h' Hr; [apply Hr|done].
Qed.

(** A loop, by an invariant of what it has done. *)
Lemma quietly_fold {A B} (f : B → A → s3prog (Result B)) (I : list A → B → World → Prop)
    (E : Prop) l acc w :
  (∀ done x rest acc w, l = done ++ x :: rest → I done acc w →
     quietly (f acc x) w (λ r w', match r with Ok acc' => I (done ++ [x]) acc' w' | Err _ => E end)) →
  I [] acc w →
  quietly (fold_prog f acc l) w (λ r w', match r with Ok acc' => I l acc' w' | Err _ => E end).
Proof.
  intros Hf. assert (∀ todo done acc w, l = done ++ todo → I done acc w →
    quietly (fold_prog f acc todo) w
      (λ r w', match r with Ok acc' => I l acc' w' | Err _ => E end)) as Hgo.
  { induction todo as [|x todo IH]; intros done acc' w' Hl Hi.
    - rewrite app_nil_r in Hl. subst done. by apply quietly_done.
    - apply quietly_and_then. eapply quietly_mono; [|by apply (Hf done x todo)].
      intros [acc2|e] w2 Hr; [|done]. apply (IH (done ++ [x])); [|done].
      by rewrite <-app_assoc. }
  by apply (Hgo l []).
Qed.

(** *** Objects that are no records *)

Lemma laid_out_put b s o : s3_laid_out b m → (∀ k, s ≠ object_key k) →
  (∃ k, s = marker_key k ∧ rust_key k) ∨ unparsed s → s3_laid_out (<[s := o]> b) m.
Proof.
  intros [Hn Hh] Hs Hname. split.
  - intros s' [o' [[<- _]|[_ Ho]]%lookup_insert_Some]; [by right|]. apply Hn. by eexists.
  - intros k. specialize (Hh k). unfold stored_at in *. by rewrite lookup_insert_ne.
Qed.

Lemma laid_out_delete b s : s3_laid_out b m → (∀ k, s ≠ object_key k) → s3_laid_out (delete s b) m.
Proof.
  intros [Hn Hh] Hs. split.
  - intros s' [o' [_ Ho]%lookup_delete_Some]. apply Hn. by eexists.
  - intros k. specialize (Hh k). unfold stored_at in *. by rewrite lookup_delete_ne.
Qed.
End quiet.
#[global] Arguments quietly : simpl never.

Section listing.
Context `{Blake3} `{SerdeRecordLaws} `{S3Service} `{JoinOrder}.
Context (revision_json : Revision → result string bytes) (m : records) (long : Prop).

(** Why a listing alone may fail. *)
Definition excused : Prop :=
  ¬ (S3Reliable ∧ (∀ v, is_ok (revision_json v) = true) ∧ long).

Notation quietly := (quietly m).
Notation buried := (buried m).

(** *** Reads *)

Lemma quietly_read k w : quiet m w →
  quietly (s3_read k) w (λ res w', w' = w ∧
    match res with Ok cur => cur = m !! k | Err e => (∀ s, e ≠ Serde s) ∧ excused end).
Proof.
  intros Hq. unfold s3_read. apply quietly_and_then, quietly_do.
  intros r w1 (b' & Hserve & ->). pose proof (serves_get _ _ _ _ Hserve) as [-> Hr].
  assert (mkWorld (w_bucket w) (w_known w) = w) as -> by (by destruct w).
  split; [done|]. apply quietly_done. pose proof (s3_holds _ _ (proj1 Hq) k) as Hst.
  assert (match w_bucket w !! object_key k with
    | Some o => r ≠ Ok (Some (o_etag o), Ok (o_body o))
    | None => ∀ e, r = Err e → is_no_such_key e ≠ true end → excused) as Hex.
  { intros Hne (Hrel & _). pose proof (reliable_get _ _ _ _ Hserve) as Hrg.
    destruct (w_bucket w !! object_key k); [done|]. destruct Hrg as (e & -> & He). by apply (Hne e). }
  unfold stored_at in Hst. destruct r as [[tag d]|e].
  - destruct Hr as (o & Ho & Htag & Hd). rewrite Ho in Hst, Hex. destruct Hst as (r & Hm & Hs & _).
    destruct tag as [t|]; [|by split; [|split; [|apply Hex]]].
    destruct d as [d|x]; [|by split; [|split; [|apply Hex]]].
    rewrite (Hd d eq_refl). cbn. by rewrite Hs, Hm.
  - cbn. destruct (is_no_such_key e) eqn:He; cbn.
    + split; [done|]. specialize (Hr eq_refl). by rewrite Hr in Hst.
    + split; [done|]. split; [done|]. apply Hex. destruct (w_bucket w !! object_key k); [done|].
      intros e' [= <-]. by rewrite He.
Qed.

Definition liveness_of (o : option record) : Liveness :=
  match o with
  | Some r => if is_tombstone r then Tombstoned (rec_revision r) else Live
  | None => Absent
  end.

Lemma listed_as_live_ok o : listed_as_live (Ok o) = Ok (liveness_of o).
Proof. by destruct o. Qed.

Lemma quietly_read_one live k w : quiet m w →
  quietly (read_one live k) w (λ res w', w' = w ∧
    match res with Ok live' => live' = <[k := liveness_of (m !! k)]> live | Err _ => excused end).
Proof.
  intros Hq h. unfold read_one. apply safely_bind.
  eapply safely_mono; [|by apply quietly_read]. intros [cur|e] w' h' [-> Hr].
  - subst cur. rewrite listed_as_live_ok. by split.
  - destruct Hr as [Hne Hex]. destruct e; try (by split). by edestruct Hne.
Qed.

(** The keys read, and nothing else. *)
Definition knows (keys : list RecordKey) (live : gmap RecordKey Liveness) : Prop :=
  ∀ k, live !! k = if decide (k ∈ keys) then Some (liveness_of (m !! k)) else None.

Lemma knows_snoc keys live k : knows keys live →
  knows (keys ++ [k]) (<[k := liveness_of (m !! k)]> live).
Proof.
  intros Hk k'. destruct (decide (k = k')) as [->|Hne].
  - rewrite lookup_insert_eq, decide_True; [done|]. apply elem_of_app. right. left.
  - rewrite lookup_insert_ne, (Hk k') by done. apply decide_ext.
    rewrite elem_of_app, list_elem_of_singleton. intuition congruence.
Qed.

Lemma quietly_read_liveness keys w : quiet m w →
  quietly (read_liveness keys) w (λ res w',
    match res with Ok live => w' = w ∧ knows keys live | Err _ => excused end).
Proof.
  intros Hq. eapply quietly_mono.
  2: { unfold read_liveness. apply (quietly_fold m _
    (λ batches live w', w' = w ∧ knows (concat (join_order <$> batches)) live) excused).
    2: { split; [done|]. intros k. by rewrite lookup_empty. }
    intros done batch rest live w' _ [-> Hk]. eapply quietly_mono.
    2: { apply (quietly_fold m _
      (λ read live w', w' = w ∧ knows (concat (join_order <$> done) ++ read) live) excused).
      2: { by rewrite app_nil_r. }
      intros read k rest' live' w' _ [-> Hk']. eapply quietly_mono; [|by apply quietly_read_one].
      intros [live2|e] w2 [-> Hr]; [|done]. subst. split; [done|]. rewrite app_assoc.
      by apply knows_snoc. }
    intros [live2|e] w2 Hr; [|done]. destruct Hr as [-> Hr]. split; [done|].
    rewrite fmap_app, concat_app. cbn. by rewrite app_nil_r. }
  intros [live|e] w' Hr; [|done]. destruct Hr as [-> Hr]. split; [done|].
  intros k. rewrite (Hr k). apply decide_ext.
  assert (concat (join_order <$> chunks LIST_READ_CONCURRENCY keys) ≡ₚ keys) as Hperm; [|by rewrite Hperm].
  rewrite <-(concat_chunks LIST_READ_CONCURRENCY keys) at 2 by done.
  clear Hr. induction (chunks _ _) as [|c cs IH]; [done|].
  cbn. rewrite IH. apply Permutation_app; [apply join_order_perm|done].
Qed.

(** *** Markers and flags *)

Context (L : Listing).

(** The markers listed for tombstones are there, and in the collections yet to be
    visited, if flagged, every tombstone was listed with one. *)
Record inv (rest : list (string * string)) (w : World) : Prop := {
  inv_quiet : quiet m w;
  inv_listed k : buried k → is_Some (l_markers L !! k) → is_Some (w_bucket w !! marker_key k);
  inv_rest ns col k : (ns, col) ∈ rest → flagged w ns col → collection_of k = (ns, col) →
    buried k → is_Some (l_markers L !! k)
}.

(** From [w] to [w']: no marker of a tombstone is lost. *)
Definition advance (rest : list (string * string)) (w w' : World) : Prop :=
  inv rest w' ∧
  ∀ k, buried k → is_Some (w_bucket w !! marker_key k) → is_Some (w_bucket w' !! marker_key k).

Lemma advance_refl rest w : inv rest w → advance rest w w.
Proof. by split. Qed.

Lemma advance_trans rest w w' w'' : advance rest w w' → advance rest w' w'' → advance rest w w''.
Proof. intros [_ H1'] [Hi H2']. split; [done|]. auto. Qed.

Lemma inv_put_marker rest k o w : inv rest w → rust_key k →
  advance rest w (mkWorld (<[marker_key k := o]> (w_bucket w)) (w_known w)).
Proof.
  intros [[Hl Ht] Hm Hr] Hk. assert (∀ k', is_Some (w_bucket w !! marker_key k') →
    is_Some (<[marker_key k := o]> (w_bucket w) !! marker_key k')) as Hkeep
    by (intros k' Hk'; rewrite lookup_insert; by case_decide).
  assert (∀ ns col, flagged (mkWorld (<[marker_key k := o]> (w_bucket w)) (w_known w)) ns col →
    flagged w ns col) as Hfl.
  { intros ns col [Hf|Hf]; [left|by right]. cbn in Hf.
    rewrite lookup_insert_ne in Hf; [done|]. by intros ?%eq_sym%flag_not_marker. }
  split; [split; [split|..]|]; cbn [w_bucket]; try (by intros; apply Hkeep; eauto); [|by eauto].
  apply laid_out_put; [done|apply marker_not_object|]. left. by exists k.
Qed.

Lemma inv_delete_marker rest k w : inv rest w → ¬ buried k →
  advance rest w (mkWorld (delete (marker_key k) (w_bucket w)) (w_known w)).
Proof.
  intros [[Hl Ht] Hm Hr] Hk. assert (∀ k', buried k' → is_Some (w_bucket w !! marker_key k') →
    is_Some (delete (marker_key k) (w_bucket w) !! marker_key k')) as Hkeep.
  { intros k' Hb Hk'. rewrite lookup_delete_ne; [done|]. intros ->%(inj marker_key). done. }
  assert (∀ ns col, flagged (mkWorld (delete (marker_key k) (w_bucket w)) (w_known w)) ns col →
    flagged w ns col) as Hfl.
  { intros ns col [Hf|Hf]; [left|by right]. cbn in Hf.
    rewrite lookup_delete_ne in Hf; [done|]. by intros ?%eq_sym%flag_not_marker. }
  split; [split; [split|..]|]; cbn [w_bucket]; try (by intros; apply Hkeep; eauto); [|by eauto].
  by apply laid_out_delete; [|apply marker_not_object].
Qed.

Lemma quietly_put_marker rest k revision w : inv rest w → rust_key k →
  quietly (put_marker revision_json k revision) w (λ res w',
    match res with
    | Ok _ => advance rest w w' ∧ is_Some (w_bucket w' !! marker_key k)
    | Err _ => excused
    end).
Proof.
  intros Hi Hk. apply quietly_and_then, quietly_done. destruct (revision_json revision) as [body|e] eqn:Hj; cbn.
  2: { intros (_ & Hok & _). specialize (Hok revision). by rewrite Hj in Hok. }
  apply quietly_do. intros r w1 (b' & Hserve & ->).
  pose proof (serves_put _ _ _ _ _ _ Hserve) as [[-> [e ->]]|(_ & o & Ho & Ht & ->)].
  - split; [destruct w; apply Hi|]. apply quietly_done. cbn. intros (Hrel & _).
    by pose proof (reliable_put _ _ _ _ _ _ Hserve I).
  - pose proof (inv_put_marker rest k o w Hi Hk) as Ha. split; [apply Ha|]. apply quietly_done.
    destruct r as [[]|e]; cbn.
    + split; [done|]. rewrite lookup_insert_eq. by eexists.
    + intros (Hrel & _). by pose proof (reliable_put _ _ _ _ _ _ Hserve I).
Qed.

Lemma quietly_delete_marker rest k etag w : inv rest w → ¬ buried k →
  quietly (delete_marker_if_match k etag) w (λ res w',
    match res with Ok _ => advance rest w w' | Err _ => excused end).
Proof.
  intros Hi Hk. apply quietly_do. intros r w1 (b' & Hserve & ->).
  assert (∀ w' : World, (advance rest w w') → quiet m w' ∧ quietly
    (Done match r with
      | Ok _ => Ok tt
      | Err e => if bool_decide (is_Some (race_kind (error_code e)))
          || bool_decide (error_code e = Some "NoSuchKey") then Ok tt else S3Store.backend e
      end) w' (λ res w', match res with Ok _ => advance rest w w' | Err _ => excused end)) as Hgo.
  { intros w' Ha. split; [apply Ha|]. apply quietly_done. destruct r as [[]|e]; [done|].
    destruct (_ || _) eqn:Hrace; [done|]. cbn. intros (Hrel & _).
    apply orb_false_iff in Hrace as [Hrace%bool_decide_eq_false _].
    destruct (decide (meets (IfMatchTag etag) (w_bucket w !! marker_key k))) as [Hm|Hm].
    + by pose proof (reliable_delete _ _ (IfMatchTag etag) _ _ Hserve Hm).
    + destruct (reliable_delete_refused _ _ (IfMatchTag etag) _ _ Hserve Hm) as (e' & Heq & He).
      injection Heq as <-. destruct Hrace. rewrite He. by eexists. }
  pose proof (serves_delete _ _ _ _ _ Hserve) as [[-> _]|(_ & ->)]; apply Hgo.
  - destruct w. by apply advance_refl.
  - by apply inv_delete_marker.
Qed.

Lemma pair_of_inj ns col ns' col' : pair_of ns col = pair_of ns' col' → ns = ns' ∧ col = col'.
Proof. unfold pair_of. intros [= Hn Hc]. by apply (inj segment) in Hn, Hc. Qed.

(** Nothing written, and no collection trusted that was not. *)
Lemma inv_same rest w w' : inv rest w → w_bucket w' = w_bucket w →
  (∀ ns col, flagged w' ns col → flagged w ns col) → advance rest w w'.
Proof.
  intros [[Hl Ht] Hm Hr] Hb Hf. split; [split; [split|..]|]; rewrite ?Hb; try done; by eauto.
Qed.

Lemma learnt_flag ns col w ns' col' : is_Some (w_bucket w !! marked_flag_key ns col) →
  flagged (mkWorld (w_bucket w) ({[pair_of ns col]} ∪ w_known w)) ns' col' → flagged w ns' col'.
Proof.
  intros Hflag [Hf|Hf]; [by left|]. cbn in Hf.
  apply elem_of_union in Hf as [Hf%elem_of_singleton|Hf]; [|by right].
  apply pair_of_inj in Hf as [-> ->]. by left.
Qed.

Lemma quietly_collection_marked rest ns col w : inv rest w →
  quietly (collection_marked ns col) w (λ res w',
    match res with
    | Ok marked => advance rest w w' ∧ (marked = true → flagged w ns col)
    | Err _ => excused
    end).
Proof.
  intros Hi. apply quietly_do. intros r w1 [-> ->]. split; [apply Hi|]. cbn.
  case_bool_decide as Hk.
  { apply quietly_done. split; [by apply advance_refl|]. intros _. by right. }
  apply quietly_do. intros r w1 (b' & Hserve & ->).
  pose proof (serves_head _ _ _ _ Hserve) as [-> Hr].
  assert (mkWorld (w_bucket w) (w_known w) = w) as -> by (by destruct w).
  split; [apply Hi|]. destruct r as [[]|e]; cbn.
  - apply quietly_do. intros r w1 [-> ->].
    assert (advance rest w (mkWorld (w_bucket w) ({[pair_of ns col]} ∪ w_known w))) as Ha
      by (apply inv_same; [done..|]; intros; by eapply learnt_flag).
    split; [apply Ha|]. apply quietly_done. split; [done|]. intros _. by left.
  - apply quietly_done. destruct (is_not_found e) eqn:He; [by split; [apply advance_refl|]|].
    cbn. intros (Hrel & _). pose proof (reliable_head _ _ _ _ Hserve) as Hh.
    destruct (w_bucket w !! _); [done|]. destruct Hh as (e' & Heq & He').
    injection Heq as <-. by rewrite He in He'.
Qed.

Lemma inv_put_flag rest ns col o w : inv rest w → (ns, col) ∉ rest →
  (∀ k, collection_of k = (ns, col) → buried k → is_Some (w_bucket w !! marker_key k)) →
  ∀ known, known = w_known w ∨ known = {[pair_of ns col]} ∪ w_known w →
  inv rest (mkWorld (<[marked_flag_key ns col := o]> (w_bucket w)) known).
Proof.
  intros [[Hl Ht] Hm Hr] Hrest Hall known Hknown.
  set (w' := mkWorld _ known).
  assert (∀ k, w_bucket w' !! marker_key k = w_bucket w !! marker_key k) as Hmark
    by (intros k; apply lookup_insert_ne, flag_not_marker).
  assert (∀ ns' col', flagged w' ns' col' → flagged w ns' col' ∨ (ns', col') = (ns, col)) as Hf.
  { intros ns' col' [Hf|Hf]; cbn in Hf.
    - destruct (decide ((ns', col') = (ns, col))) as [|Hne]; [by right|left; left].
      rewrite lookup_insert_ne in Hf; [done|]. intros Heq. apply Hne.
      by apply flag_key_inj in Heq as [-> ->].
    - destruct Hknown as [->| ->]; [by left; right|].
      apply elem_of_union in Hf as [Hf%elem_of_singleton|Hf]; [|by left; right].
      apply pair_of_inj in Hf as [-> ->]. by right. }
  split; [split|..].
  - apply laid_out_put; [done|apply flag_not_object|]. right. apply flag_unparsed.
  - intros ns' col' k Hf' Hc Hb. rewrite Hmark. destruct (Hf _ _ Hf') as [Hw|[= -> ->]]; eauto.
  - intros k. rewrite Hmark. apply Hm.
  - intros ns' col' k Hin Hf' Hc. destruct (Hf _ _ Hf') as [Hw|[= -> ->]]; [eauto|done].
Qed.

Lemma quietly_mark_collection rest ns col w : inv rest w → (ns, col) ∉ rest →
  (∀ k, collection_of k = (ns, col) → buried k → is_Some (w_bucket w !! marker_key k)) →
  quietly (mark_collection ns col) w (λ res w',
    match res with Ok _ => inv rest w' | Err _ => excused end).
Proof.
  intros Hi Hrest Hall. apply quietly_do. intros r w1 (b' & Hserve & ->).
  pose proof (serves_put _ _ _ _ _ _ Hserve) as [[-> [e ->]]|(_ & o & Ho & Ht & ->)].
  - split; [destruct w; apply Hi|]. apply quietly_done. intros (Hrel & _).
    by pose proof (reliable_put _ _ _ _ _ _ Hserve I).
  - split; [apply (inv_put_flag rest); auto|]. destruct r as [[]|e]; cbn.
    + apply quietly_do. intros r w1 [-> ->].
      pose proof (inv_put_flag rest ns col o w Hi Hrest Hall _ (or_intror eq_refl)) as Hi'.
      split; [apply Hi'|]. by apply quietly_done.
    + apply quietly_done. intros (Hrel & _). by pose proof (reliable_put _ _ _ _ _ _ Hserve I).
Qed.
End listing.
