(* ===== verification/S3ListingSpec.v ===== *)
(** * S3ListingSpec: a listing alone is the reference store's

    The collections of a listing one after another, its pages, and the theorem:
    [list] with no one else writing answers what the reference store does, and leaves
    every flagged collection's tombstones marked. *)

From S2P Require Export S3Listing.
#[local] Open Scope gonzalo_scope.

(** ** One collection *)

Section collection.
Context `{Blake3} `{SerdeRecordLaws} `{S3Service} `{JoinOrder}.
Context (revision_json : Revision → result string bytes) (m : records) (long : Prop) (L : Listing).

Notation quietly := (quietly m).
Notation buried := (buried m).
Notation inv := (inv m L).
Notation advance := (advance m L).
Notation excused := (excused revision_json long).

Definition alive (k : RecordKey) : bool :=
  match m !! k with Some r => negb (is_tombstone r) | None => false end.

Lemma alive_not_buried k : alive k = true → ¬ buried k.
Proof. unfold alive. intros Ha (r & Hr & Ht). by rewrite Hr, Ht in Ha. Qed.

Lemma not_alive_buried k : is_Some (m !! k) → alive k = false → buried k.
Proof. unfold alive. intros [r Hr] Ha. rewrite Hr in Ha. exists r. by destruct (is_tombstone r). Qed.

(** The keys listed of a collection. *)
Definition keys_of (pair : string * string) : list RecordKey :=
  filter (λ k, collection_of k = pair) (l_records L).

Hypothesis (Hlisted : ∀ k, k ∈ l_records L → is_Some (m !! k)).
Hypothesis (Hnamed : ∀ k, is_Some (m !! k) → rust_key k).

Lemma quietly_unmark rest k w : inv rest w → ¬ buried k →
  quietly (unmark L k) w (λ res w', match res with Ok _ => advance rest w w' | Err _ => excused end).
Proof.
  intros Hi Hk. unfold unmark. destruct (l_markers L !! k) as [etag|].
  - by apply quietly_delete_marker.
  - apply quietly_done. by apply advance_refl.
Qed.

Lemma quietly_list_key rest to_read live out k w :
  inv rest w → knows m to_read live → is_Some (m !! k) →
  (k ∉ to_read → alive k = true) →
  quietly (list_key revision_json L live out k) w (λ res w',
    match res with
    | Ok out' => advance rest w w' ∧ out' = out ++ filter (λ k, alive k = true) [k] ∧
        (buried k → is_Some (w_bucket w' !! marker_key k))
    | Err _ => excused
    end).
Proof.
  intros Hi Hlive Hm Hunread. rewrite (filter_singleton _ _ []). unfold list_key. rewrite (Hlive k).
  case_decide as Hin.
  2: { apply quietly_done. rewrite decide_True by auto. split_and!; [by apply advance_refl|done|].
       intros Hb. by destruct (alive_not_buried k (Hunread Hin)). }
  destruct Hm as [r Hr]. rewrite Hr. cbn [liveness_of]. destruct (is_tombstone r) eqn:Ht.
  - assert (buried k) as Hb by (by exists r).
    rewrite decide_False by (intros Ha; by destruct (alive_not_buried k Ha)). rewrite app_nil_r.
    destruct (l_markers L !! k) as [etag|] eqn:Hmk.
    + apply quietly_done. split_and!; [by apply advance_refl|done|].
      intros _. apply (inv_listed _ _ _ _ Hi k Hb). by eexists.
    + apply quietly_and_then. eapply quietly_mono.
      2: { apply (quietly_put_marker revision_json m long L rest); [done|]. apply Hnamed. by eexists. }
      intros [[]|e] w' Hr'; [|done]. apply quietly_done. destruct Hr' as [Ha Hs]. by split_and!.
  - assert (alive k = true) as Ha by (unfold alive; by rewrite Hr, Ht).
    pose proof (alive_not_buried k Ha) as Hb. rewrite decide_True by done.
    apply quietly_and_then. eapply quietly_mono; [|by apply (quietly_unmark rest)].
    intros [[]|e] w' Hadv; [|done]. apply quietly_done. by split_and!.
Qed.

Lemma quietly_list_keys rest to_read live out keys w :
  inv rest w → knows m to_read live →
  (∀ k, k ∈ keys → is_Some (m !! k) ∧ (k ∉ to_read → alive k = true)) →
  quietly (fold_prog (list_key revision_json L live) out keys) w (λ res w',
    match res with
    | Ok out' => advance rest w w' ∧ out' = out ++ filter (λ k, alive k = true) keys ∧
        ∀ k, k ∈ keys → buried k → is_Some (w_bucket w' !! marker_key k)
    | Err _ => excused
    end).
Proof.
  intros Hi Hlive Hkeys.
  apply (quietly_fold m _ (λ done out' w', advance rest w w' ∧
    out' = out ++ filter (λ k, alive k = true) done ∧
    ∀ k, k ∈ done → buried k → is_Some (w_bucket w' !! marker_key k)) excused).
  2: { split_and!; [by apply advance_refl|by rewrite app_nil_r|]. by intros k ?%elem_of_nil. }
  intros done k rest' acc w' -> (Ha & -> & Hdone).
  destruct (Hkeys k) as [Hm Hun]; [apply elem_of_app; right; left|].
  eapply quietly_mono; [|apply (quietly_list_key rest to_read); [apply Ha|done..]].
  intros [out2|e] w2 Hr; [|done]. destruct Hr as (Ha2 & -> & Hb). split_and!.
  - by eapply advance_trans.
  - by rewrite filter_app, app_assoc.
  - intros k' [Hk'| ->%list_elem_of_singleton]%elem_of_app; [|done]. intros Hbk.
    apply (proj2 Ha2 k' Hbk). by apply Hdone.
Qed.

Lemma quietly_orphans rest pairs w :
  inv rest w → (∀ q, q ∈ pairs → ¬ buried q.1) →
  quietly (fold_prog (λ _ q, delete_marker_if_match q.1 q.2) tt pairs) w (λ res w',
    match res with Ok _ => advance rest w w' | Err _ => excused end).
Proof.
  intros Hi Hpairs. apply (quietly_fold m _ (λ _ _ w', advance rest w w') excused).
  2: { by apply advance_refl. }
  intros done q rest' acc w' -> Ha.
  eapply quietly_mono; [|apply (quietly_delete_marker revision_json m long L rest); [apply Ha|]].
  - intros [[]|e] w2 Hr; [|done]. by eapply advance_trans.
  - apply Hpairs, elem_of_app. right. left.
Qed.

(** A collection whose records were all listed. *)
Lemma quietly_list_collection rest out ns col w :
  inv ((ns, col) :: rest) w → (ns, col) ∉ rest →
  (∀ k, collection_of k = (ns, col) → is_Some (m !! k) → k ∈ l_records L) →
  quietly (list_collection revision_json L out (ns, col, keys_of (ns, col))) w (λ res w',
    match res with
    | Ok out' => inv rest w' ∧ out' = out ++ filter (λ k, alive k = true) (keys_of (ns, col))
    | Err _ => excused
    end).
Proof.
  intros Hi Hrest Hwhole. set (keys := keys_of (ns, col)).
  assert (∀ k, k ∈ keys ↔ collection_of k = (ns, col) ∧ k ∈ l_records L) as Hkeys
    by (intros k; unfold keys, keys_of; by rewrite list_elem_of_filter).
  unfold list_collection. apply quietly_and_then.
  eapply quietly_mono; [|by apply (quietly_collection_marked revision_json m long L)].
  intros [marked|e] w1 Hr; [|done]. destruct Hr as [[Hi1 Hkept1] Hflag].
  apply quietly_and_then. eapply quietly_mono; [|apply (quietly_read_liveness revision_json), Hi1].
  intros [live|e] w2 Hr; [|done]. destruct Hr as [-> Hlive]. apply quietly_and_then.
  eapply quietly_mono.
  2: { eapply (quietly_list_keys ((ns, col) :: rest)); [done|done|].
    intros k Hk. apply Hkeys in Hk as [Hc Hl]. split; [by apply Hlisted|]. intros Hun.
    destruct (alive k) eqn:Ha; [done|]. destruct Hun.
    pose proof (not_alive_buried k (Hlisted k Hl) Ha) as Hb.
    destruct marked; [|by apply Hkeys]. apply list_elem_of_filter. split; [|by apply Hkeys].
    eapply (inv_rest _ _ _ _ Hi ns col k); [left|by apply Hflag|done|done]. }
  intros [out'|e] w2 Hr; [|done]. destruct Hr as (Ha2 & -> & Hmarked).
  apply quietly_and_then. eapply quietly_mono.
  2: { apply (quietly_orphans ((ns, col) :: rest)); [apply Ha2|]. intros [k etag].
    unfold orphans. rewrite list_elem_of_filter. cbn. intros [[Hc Hnot] _] (r & Hm & _).
    apply Hnot, Hkeys. split; [done|]. apply Hwhole; [done|by eexists]. }
  intros [[]|e] w3 Hr; [|done].
  assert (inv rest w3) as Hi3.
  { destruct Hr as [[Hq Hm Hrst] _]. split; [done..|]. intros ns' col' k Hin. apply Hrst. by right. }
  assert (∀ k, collection_of k = (ns, col) → buried k → is_Some (w_bucket w3 !! marker_key k)) as Hall.
  { intros k Hc Hb. apply (proj2 Hr k Hb), Hmarked; [|done]. apply Hkeys. split; [done|].
    apply Hwhole; [done|]. destruct Hb as (r & -> & _). by eexists. }
  apply quietly_and_then. destruct marked.
  - apply quietly_done, quietly_done. by split.
  - eapply quietly_mono; [|by apply (quietly_mark_collection revision_json m long L rest)].
    intros [[]|e] w4 Hr4; [|done]. apply quietly_done. by split.
Qed.
End collection.

(** ** The groups of a listing *)

Section groups.
Context (L : Listing).

Lemma push_groups l pair :
  let m := foldl (λ (m : gmap (string * string) (list RecordKey)) key,
    <[collection_of key := default [] (m !! collection_of key) ++ [key]]> m) ∅ l in
  default [] (m !! pair) = filter (λ k, collection_of k = pair) l ∧
  (is_Some (m !! pair) ↔ ∃ k, k ∈ l ∧ collection_of k = pair).
Proof.
  induction l as [|k l [IH IHs]] using rev_ind; cbn zeta in *.
  { cbn. rewrite lookup_empty. split; [done|]. split; [by intros [? ?]|].
    by intros (? & ?%elem_of_nil & _). }
  rewrite foldl_app, filter_app. cbn [foldl]. rewrite filter_cons, filter_nil.
  set (m := foldl _ _ l) in *. setoid_rewrite elem_of_app. setoid_rewrite list_elem_of_singleton.
  case_decide as Hk.
  - subst pair. rewrite lookup_insert_eq. cbn. split; [by rewrite IH|].
    split; [|by eexists]. intros _. exists k. by split; [right|].
  - rewrite lookup_insert_ne, app_nil_r by done. split; [done|]. rewrite IHs.
    split; [intros (k' & ? & ?); exists k'; tauto|].
    intros (k' & [?| ->] & ?); [by exists k'|done].
Qed.

Lemma touch_groups l m0 pair :
  let m := foldl (λ (m : gmap (string * string) (list RecordKey)) key,
    <[collection_of key := default [] (m !! collection_of key)]> m) m0 l in
  default [] (m !! pair) = default [] (m0 !! pair) ∧
  (is_Some (m !! pair) ↔ is_Some (m0 !! pair) ∨ ∃ k, k ∈ l ∧ collection_of k = pair).
Proof.
  induction l as [|k l [IH IHs]] using rev_ind; cbn zeta in *.
  { cbn. split; [done|]. split; [by left|]. by intros [?|(? & ?%elem_of_nil & _)]. }
  rewrite foldl_app. cbn [foldl]. set (m := foldl _ _ l) in *.
  setoid_rewrite elem_of_app. setoid_rewrite list_elem_of_singleton.
  destruct (decide (collection_of k = pair)) as [Hk|Hk].
  - subst pair. rewrite lookup_insert_eq. cbn. split; [done|]. split; [|by eexists].
    intros _. right. exists k. by split; [right|].
  - rewrite lookup_insert_ne by done. split; [done|]. rewrite IHs. split.
    + intros [?|(k' & ? & ?)]; [by left|right; exists k'; tauto].
    + intros [?|(k' & [?| ->] & ?)]; [by left|right; by exists k'|done].
Qed.

Lemma group_keys_of pair keys : group_keys L !! pair = Some keys → keys = keys_of L pair.
Proof.
  intros Hg. unfold group_keys in Hg. cbn zeta in Hg.
  destruct (touch_groups (btree_keys (l_markers L)) (foldl (λ m key,
    <[collection_of key := default [] (m !! collection_of key) ++ [key]]> m) ∅ (l_records L)) pair)
    as [Ht _]. cbn zeta in Ht. rewrite Hg, (proj1 (push_groups (l_records L) pair)) in Ht. done.
Qed.

Lemma group_keys_dom pair : is_Some (group_keys L !! pair) ↔
  ∃ k, collection_of k = pair ∧ (k ∈ l_records L ∨ is_Some (l_markers L !! k)).
Proof.
  unfold group_keys. cbn zeta. rewrite (proj2 (touch_groups _ _ pair)).
  rewrite (proj2 (push_groups (l_records L) pair)). setoid_rewrite elem_of_btree_keys. naive_solver.
Qed.
End groups.

(** ** The listing *)

Section listing.
Context `{Blake3} `{SerdeRecordLaws} `{S3Service} `{JoinOrder}.
Context (revision_json : Revision → result string bytes) (m : records) (long : Prop).
Context (p : KeyPrefix).

Notation quietly := (quietly m).
Notation excused := (excused revision_json long).

Notation keys b after := (keys_from b (s3_prefix p) after).

Lemma quietly_pages n token done w :
  quiet m w →
  keys (w_bucket w) None = done ++ keys (w_bucket w) (token_after <$> token) →
  (long → length (keys (w_bucket w) (token_after <$> token)) < n) →
  quietly (list_pages n p token (enumerate p (w_bucket w) done)) w (λ res w',
    match res with
    | Ok L => w' = w ∧ L = enumerate p (w_bucket w) (keys (w_bucket w) None)
    | Err _ => excused
    end).
Proof.
  intros Hq. revert token done. induction n as [|n IH]; intros token done Hdone Hlong.
  { apply quietly_done. intros (_ & _ & Hl). specialize (Hlong Hl). lia. }
  apply quietly_do. intros r w1 (b' & Hserve & ->).
  pose proof (serves_list _ _ _ _ _ Hserve) as [-> Hr].
  assert (mkWorld (w_bucket w) (w_known w) = w) as -> by (by destruct w).
  split; [done|]. destruct r as [page|e]; cbn.
  2: { apply quietly_done. intros (Hrel & _). by pose proof (reliable_list _ _ _ _ _ Hserve). }
  destruct Hr as (n0 & Hpage & Hnext). cbn zeta in Hpage, Hnext. rewrite Hpage.
  assert (foldl (list_entry p) (enumerate p (w_bucket w) done)
    (listed_object (w_bucket w) <$> take n0 (keys (w_bucket w) (token_after <$> token))) =
    enumerate p (w_bucket w) (done ++ take n0 (keys (w_bucket w) (token_after <$> token)))) as ->
    by (unfold enumerate; by rewrite fmap_app, foldl_app).
  destruct (pg_next page) as [t|].
  - destruct Hnext as [Hn Hlast]. pose proof (keys_from_next _ _ _ _ _ Hlast) as Hks.
    apply IH; cbn [fmap option_fmap option_map]; rewrite Hks.
    + by rewrite <-app_assoc, take_drop.
    + intros Hl. specialize (Hlong Hl). rewrite length_drop. destruct n0 as [|n0]; [done|].
      destruct (keys (w_bucket w) (token_after <$> token)); [done|]. cbn in *. lia.
  - apply quietly_done. split; [done|]. by rewrite Hdone, firstn_all2.
Qed.

Lemma quietly_groups L groups w :
  (∀ k, k ∈ l_records L → is_Some (m !! k)) → (∀ k, is_Some (m !! k) → rust_key k) →
  (∀ g, g ∈ groups → g.2 = keys_of L g.1 ∧
     ∀ k, collection_of k = g.1 → is_Some (m !! k) → k ∈ l_records L) →
  NoDup groups.*1 → inv m L groups.*1 w →
  quietly (fold_prog (list_collection revision_json L) [] groups) w (λ res w',
    match res with
    | Ok out => out = (groups ≫= λ g, filter (λ k, alive m k = true) (keys_of L g.1))
    | Err _ => excused
    end).
Proof.
  intros Hlisted Hnamed Hgroups Hnd Hi. eapply quietly_mono.
  2: { apply (quietly_fold m _ (λ done out w', (∀ rest, groups = done ++ rest → inv m L rest.*1 w') ∧
      out = (done ≫= λ g, filter (λ k, alive m k = true) (keys_of L g.1))) excused).
    2: { split; [by intros rest ->|done]. }
    intros done [[ns col] keys] rest out w' Hl [Hinv ->]. specialize (Hinv _ Hl).
    destruct (Hgroups (ns, col, keys)) as [Hkeys Hwhole].
    { rewrite Hl. apply elem_of_app. right. left. }
    cbn in Hkeys, Hwhole. subst keys. eapply quietly_mono.
    2: { apply (quietly_list_collection revision_json m long L Hlisted Hnamed rest.*1);
      [done| |done].
      rewrite Hl, fmap_app in Hnd. apply NoDup_app in Hnd as (_ & _ & Hnd).
      by apply NoDup_cons in Hnd as [? _]. }
    intros [out2|e] w2 Hr; [|done]. destruct Hr as [Hi2 ->]. split.
    - intros rest2 Hl2. rewrite Hl2, <-app_assoc in Hl. apply app_inv_head in Hl.
      injection Hl as ->. done.
    - rewrite bind_app. cbn. by rewrite app_nil_r. }
  intros [out|e] w' Hr; [|done]. apply Hr.
Qed.

Lemma NoDup_groups L (groups : list (string * string * list RecordKey)) :
  NoDup (l_records L) → NoDup groups.*1 →
  NoDup (groups ≫= λ g, filter (λ k, alive m k = true) (keys_of L g.1)).
Proof.
  intros HL. induction groups as [|g groups IH]; cbn; [constructor|].
  intros [Hg Hnd]%NoDup_cons. apply NoDup_app. split_and!; [|..|by apply IH].
  - by apply NoDup_filter, NoDup_filter.
  - intros k [_ [Hk _]%list_elem_of_filter]%list_elem_of_filter (g' & Hin' & Hg')%list_elem_of_bind.
    apply list_elem_of_filter in Hin' as [_ [Hk' _]%list_elem_of_filter].
    apply Hg. rewrite <-Hk, Hk'. by apply list_elem_of_fmap_2.
Qed.

Lemma same_collection_matches k k' :
  collection_of k = collection_of k' → prefix_matches p k = prefix_matches p k'.
Proof. unfold collection_of, prefix_matches. by intros [= -> ->]. Qed.

Context (fuel : nat).

(** A listing alone answers the live keys. *)
Lemma quietly_list w : quiet m w →
  (long → length (keys (w_bucket w) None) < fuel) →
  quietly (s3_list revision_json fuel p) w (λ res w',
    match res with
    | Ok l => increasing l ∧ ∀ k, k ∈ l ↔ alive m k = true ∧ prefix_matches p k = true
    | Err _ => excused
    end).
Proof.
  intros Hq Hlong. pose proof (proj1 Hq) as Hb. set (L := enumerate p (w_bucket w) (keys (w_bucket w) None)).
  apply quietly_and_then. eapply quietly_mono; [|by apply (quietly_pages fuel None [])].
  intros [L'|e] w1 Hr; [|done]. destruct Hr as [-> ->]. fold L. apply quietly_and_then.
  assert (∀ k, k ∈ l_records L ↔ is_Some (m !! k) ∧ prefix_matches p k = true) as HL
    by (intros k; by apply elem_of_listing).
  assert (∀ k t, l_markers L !! k = Some t ↔ prefix_matches p k = true ∧
    o_etag <$> w_bucket w !! marker_key k = Some t) as HM by (intros k t; by eapply listing_markers).
  assert (∀ pair k, is_Some (group_keys L !! pair) → collection_of k = pair →
    prefix_matches p k = true) as Hpair.
  { intros pair k (k' & Hc & Hk')%group_keys_dom Hck.
    rewrite (same_collection_matches k k') by congruence.
    destruct Hk' as [Hk'%HL|[t Hk'%HM]]; apply Hk'. }
  eapply quietly_mono.
  2: { apply (quietly_groups L); [by intros k [? _]%HL| | | |].
    - intros k Hk. apply (s3_object _ _ k Hb) in Hk.
      destruct (s3_named _ _ Hb _ Hk) as [(k' & Heq & Hr)|[(k' & Heq & _)|Hn]].
      + by apply (inj object_key) in Heq as ->.
      + by destruct (marker_not_object k' k).
      + by destruct (unparsed_not_object _ k Hn).
    - intros [pair ks] Hg%elem_of_btree_items. cbn. split; [by apply group_keys_of|].
      intros k Hc Hk. apply HL. split; [done|]. apply (Hpair pair); [by eexists|done].
    - rewrite fst_btree_items. apply increasing_NoDup, btree_keys_increasing.
    - rewrite fst_btree_items. split; [done| |].
      + intros k _ [t Ht%HM]. destruct Ht as [_ Ht]. by destruct (w_bucket w !! marker_key k).
      + intros ns col k Hin%elem_of_btree_keys Hf Hc Hbur. destruct (proj2 Hq ns col k Hf Hc Hbur) as [o Ho].
        exists (o_etag o). apply HM. rewrite Ho. split; [by apply (Hpair (ns, col))|done]. }
  intros [out|e] w2 Hr; [|done]. apply quietly_done. subst out. split.
  { apply increasing_sort, (NoDup_groups L); [by eapply NoDup_listing|].
    rewrite fst_btree_items. apply increasing_NoDup, btree_keys_increasing. }
  intros k. rewrite elem_of_sort, list_elem_of_bind. setoid_rewrite list_elem_of_filter.
  setoid_rewrite list_elem_of_filter. split.
  - intros ([pair ks] & (Ha & _ & Hk%HL) & _). by destruct Hk.
  - intros [Ha Hp]. assert (k ∈ l_records L) as Hk.
    { apply HL. split; [|done]. unfold alive in Ha. by destruct (m !! k). }
    destruct (proj2 (group_keys_dom L (collection_of k))) as [ks Hks]; [exists k; by split; [|left]|].
    exists (collection_of k, ks). by rewrite elem_of_btree_items.
Qed.
End listing.

(** ** The call *)

Lemma runs_exist `{S3Reliable} {A} (q : s3prog A) w : ∃ tr a w', runs (=) q w tr a w'.
Proof.
  revert w. induction q as [a|X c k IH]; intros w; [by exists [], a, w|].
  assert (∃ r w1, s3step (mkWorld (w_bucket w) (w_known w)) c r w1) as (r & w1 & Hs).
  { assert (is_request c = true → ∃ r w1, ∃ b', serves (w_bucket w) c r b' ∧
      w1 = mkWorld b' (w_known w)) as Hreq.
    { intros Hc. destruct (reliable_total (w_bucket w) c Hc) as (r & b' & Hb).
      by exists r, (mkWorld b' (w_known w)), b'. }
    destruct c; try exact (Hreq eq_refl).
    - exists (Ok (now_ms 0)), (mkWorld (w_bucket w) (w_known w)). by split; [|exists 0%Z].
    - by eexists _, _.
    - by eexists _, _. }
  destruct (IH r w1) as (tr & a & w' & Hr). exists ((mkWorld (w_bucket w) (w_known w), w1) :: tr), a, w'.
  by exists (w_bucket w), r, w1, tr.
Qed.

Section exact.
Context `{Blake3} `{SerdeRecordLaws} `{S3Service} `{JoinOrder}.
Context (revision_json : Revision → result string bytes) (cap fuel : nat).

Lemma reference_list (m : records) (p : KeyPrefix) t l : keyed m → increasing l →
  (∀ k, k ∈ l ↔ alive m k = true ∧ prefix_matches p k = true) →
  RKeys (Ok l) = (call_op (reference cap t) (OpList p) m).1.
Proof.
  intros Hm Hl Hk.
  destruct (MemStore_list_spec (mkMemStore lens_id cap None) p m Hm) as (l' & Heq & Hl' & Hk').
  change ((call_op (reference cap t) (OpList p) m).1) with
    (RKeys (MemStore_list (mkMemStore lens_id cap None) p m).1). rewrite Heq. cbn. do 2 f_equal.
  apply increasing_unique; [done..|]. intros k. rewrite Hk, Hk'. cbn.
  assert (alive m k = true ↔ is_Some (live (m !! k))) as ->; [|done].
  unfold alive. destruct (m !! k) as [r|]; cbn.
  - destruct (is_tombstone r); cbn; split; by try intros [? ?].
  - by split; [|intros [? ?]].
Qed.

(** C9: a listing nobody interrupts is the reference store's.  On a bucket that holds
    the records of [m] and in which the tombstones of every flagged collection have
    markers, [list], made while no one else writes, leaves such a bucket of the same
    records after each of its requests, whatever fails and wherever it stops; what it
    answers, if not an error, is exactly what the reference store answers on [m]; and
    it does answer where no request fails, given fuel for more pages than there are
    objects. *)
Theorem listing_alone_is_exact (m : records) (w : World) (p : KeyPrefix) :
  quiet m w →
  (∀ tr x w', runs (=) (s3_op revision_json cap fuel (OpList p)) w tr x w' →
     Forall (λ s, quiet m s.2) tr ∧
     (response_ok x = true → ∀ t, x = (call_op (reference cap t) (OpList p) m).1)) ∧
  (S3Reliable → (∀ v, is_ok (revision_json v) = true) → length (btree_keys (w_bucket w)) < fuel →
   ∀ t, ∃ tr w', runs (=) (s3_op revision_json cap fuel (OpList p)) w tr
     (call_op (reference cap t) (OpList p) m).1 w').
Proof.
  intros Hq. pose proof (s3_keyed _ _ (proj1 Hq)) as Hm.
  assert (∀ tr x w', runs (=) (s3_op revision_json cap fuel (OpList p)) w tr x w' →
    Forall (λ s, quiet m s.2) tr ∧ match x with
      | RKeys (Ok l) => ∀ t, x = (call_op (reference cap t) (OpList p) m).1
      | RKeys (Err _) => excused revision_json (length (btree_keys (w_bucket w)) < fuel)
      | _ => False
      end) as Hall.
  { intros tr x w' Hrun.
    assert (length (btree_keys (w_bucket w)) < fuel →
      length (keys_from (w_bucket w) (s3_prefix p) None) < fuel) as Hlen.
    { intros Hl. unfold keys_from. eapply Nat.le_lt_trans; [apply length_filter|done]. }
    pose proof (quietly_list revision_json m _ p fuel w Hq Hlen []) as Hsafe.
    cbn [s3_op] in Hrun. apply runs_bind in Hrun as (tr1 & a & w1 & tr2 & -> & Hrun & (-> & -> & ->)).
    destruct (safely_runs _ _ _ _ _ _ _ _ _ Hsafe Hrun) as [HG HQ].
    rewrite app_nil_r. split; [done|]. destruct a as [l|e]; [|done].
    intros t. destruct HQ as [Hl Hk]. by apply reference_list. }
  split.
  - intros tr x w' Hrun. destruct (Hall tr x w' Hrun) as [HG Hx]. split; [done|]. intros Hok t.
    destruct x as [| [l|e] | |]; try done.
  - intros Hrel Hjson Hfuel t.
    destruct (runs_exist (s3_op revision_json cap fuel (OpList p)) w) as (tr & x & w' & Hrun).
    exists tr, w'. destruct (Hall tr x w' Hrun) as [_ Hx]. destruct x as [|[l|e]| |]; try done.
    + by rewrite <-Hx.
    + destruct Hx. by split_and!.
Qed.
End exact.
