(* ===== verification/S3Races.v ===== *)
(** * S3Races: what overlapping calls can do

    An object store in memory: objects tagged with their bodies, no request failing but
    for its condition, listings in one page; [turns] runs a pool by a given schedule.
    On it, a listing that overlaps a delete strands its tombstone, and two equal puts
    both commit; and the runs the theorems on writes are applied to. *)

From S2P Require Export FsSamples S3Markers S3ListingSpec.
#[local] Open Scope gonzalo_scope.

(** ** The service *)

#[export] Instance sample_sdk : S3Sdk := {
  S3Error := string;
  error_code e := Some e;
  error_message _ := None;
  error_text e := e;
  http_status _ := None;
  is_no_such_key e := bool_decide (e = "NoSuchKey");
  is_not_found e := bool_decide (e = "NotFound")
}.

Definition sample_object (body : bytes) : Object := mkObject body (string_of_bytes body) 0.

Definition answer {X} (b : Bucket) (c : s3call X) : result string X * Bucket :=
  match c in s3call X return result string X * Bucket with
  | GetObject k =>
      (match b !! k with
       | Some o => Ok (Some (o_etag o), Ok (o_body o))
       | None => Err "NoSuchKey"
       end, b)
  | HeadObject k => (if b !! k then Ok tt else Err "NotFound", b)
  | PutObject k body cond =>
      if decide (meets cond (b !! k)) then (Ok tt, <[k := sample_object body]> b)
      else (Err "PreconditionFailed", b)
  | DeleteObject k cond =>
      if decide (meets cond (b !! k)) then (Ok tt, delete k b) else (Err "PreconditionFailed", b)
  | ListObjectsV2 prefix token =>
      (Ok (mkListPage (listed_object b <$> keys_from b prefix token) (Some false) None), b)
  | NowMs => (Err "", b)
  | Knows _ => (Err "", b)
  | Learn _ => (Err "", b)
  end.

#[export] Instance sample_service : S3Service.
Proof.
  refine {| serves X b c r b' := answer b c = (r, b'); tags x t := t = string_of_bytes x;
            token_after t := t |}.
  - intros x y t -> Hxy. by rewrite <-(bytes_of_string_of_bytes x), Hxy, bytes_of_string_of_bytes.
  - intros b k r b'. cbn. intros [= <- <-]. split; [done|].
    destruct (b !! k) as [o|]; [|done]. exists o. split_and!; [done|..]; by intros ? [= <-].
  - intros b k r b'. cbn. intros [= <- <-]. split; [done|]. destruct (b !! k); [by eexists|done].
  - intros b k body cond r b'. cbn. case_decide as Hm; intros [= <- <-].
    + right. split; [done|]. by exists (sample_object body).
    + left. split; [done|]. by eexists.
  - intros b k cond r b'. cbn. case_decide as Hm; intros [= <- <-].
    + by right.
    + left. split; [done|]. by eexists.
  - intros b prefix token r b'. cbn. intros [= <- <-]. split; [done|].
    set (keys := keys_from _ _ _). exists (length keys). cbn.
    rewrite option_fmap_id. fold keys. by rewrite firstn_all.
Defined.

#[export] Instance sample_reliable : S3Reliable.
Proof.
  split.
  - intros X b c _. destruct (answer b c) as [r b'] eqn:Hb. by exists r, b'.
  - intros b k r b'. cbn. intros [= <- <-]. destruct (b !! k); [done|]. by eexists.
  - intros b k r b'. cbn. intros [= <- <-]. destruct (b !! k); [done|]. by eexists.
  - intros b k body cond r b'. cbn. intros Hb Hm. rewrite decide_True in Hb by done. by simplify_eq.
  - intros b k body cond r b'. cbn. intros Hb Hm. rewrite decide_False in Hb by done.
    simplify_eq. by eexists.
  - intros b k cond r b'. cbn. intros Hb Hm. rewrite decide_True in Hb by done. by simplify_eq.
  - intros b k cond r b'. cbn. intros Hb Hm. rewrite decide_False in Hb by done.
    simplify_eq. by eexists.
  - intros b prefix token r b'. cbn. by intros [= <- <-].
Qed.

(** ** Schedules *)

(** A call made alone, the clock at a fixed moment. *)
Definition do_call {X} (w : World) (c : s3call X) : result string X * World :=
  match c in s3call X return result string X * World with
  | NowMs => (Ok (now_ms 1700000000000000000), w)
  | Knows p => (Ok (bool_decide (p ∈ w_known w)), w)
  | Learn p => (Ok tt, mkWorld (w_bucket w) ({[p]} ∪ w_known w))
  | c => let '(r, b') := answer (w_bucket w) c in (r, mkWorld b' (w_known w))
  end.

Lemma do_call_step {X} w (c : s3call X) : s3step w c (do_call w c).1 (do_call w c).2.
Proof.
  destruct c; cbn; try (by split; eauto); try (by eexists; split; [reflexivity|]).
  all: case_decide; eexists; split; reflexivity.
Qed.

(** The [i]-th program takes a turn. *)
Definition turn {A} (s : Pool A) (i : nat) : Pool A :=
  match s.1 !! i with
  | Some (Do c k, known) =>
      let rw := do_call (mkWorld s.2 known) c in
      (<[i := (k rw.1, w_known rw.2)]> s.1, w_bucket rw.2)
  | _ => s
  end.

Definition turns {A} (schedule : list nat) (s : Pool A) : Pool A := foldl turn s schedule.

Lemma turns_reach {A} schedule (s : Pool A) : rtc pool_step s (turns schedule s).
Proof.
  unfold turns. revert s. induction schedule as [|i schedule IH]; intros s; [done|].
  cbn [foldl]. etrans; [|apply IH]. unfold turn.
  destruct (s.1 !! i) as [[[a|X c k] known]|] eqn:Hi; [done| |done].
  apply rtc_once. exists i, (Do c k), known.
  pose proof (do_call_step (mkWorld s.2 known) c) as Hs.
  destruct (do_call (mkWorld s.2 known) c) as [r [b' known']]. cbn in *.
  exists (k r), known'. split_and!; [done..|]. by exists r.
Qed.

Lemma turns_idle {A} schedule (s : Pool A) i :
  Forall (λ j, j ≠ i) schedule → (turns schedule s).1 !! i = s.1 !! i.
Proof.
  unfold turns. revert s. induction schedule as [|j schedule IH]; intros s Hi; [done|].
  apply Forall_cons in Hi as [Hj Hi]. cbn [foldl]. rewrite IH by done. unfold turn.
  destruct (s.1 !! j) as [[[a|X c k] known]|]; [done| |done]. by apply list_lookup_insert_ne.
Qed.

Definition answers {A} (s : Pool A) : list (option A) :=
  (λ c, match c.1 with Done a => Some a | _ => None end) <$> s.1.

(** A program run alone. *)
Fixpoint alone {A} (p : s3prog A) (w : World) : list (World * World) * A * World :=
  match p with
  | Done a => ([], a, w)
  | Do c k =>
      let rw := do_call w c in
      let '(tr, a, w') := alone (k rw.1) rw.2 in ((w, rw.2) :: tr, a, w')
  end.

Lemma alone_runs {A} (p : s3prog A) w : runs (=) p w (alone p w).1.1 (alone p w).1.2 (alone p w).2.
Proof.
  revert w. induction p as [a|X c k IH]; intros w; [done|]. cbn.
  pose proof (do_call_step w c) as Hs. destruct (do_call w c) as [r w1]. cbn in *.
  specialize (IH r w1). destruct (alone (k r) w1) as [[tr a] w']. cbn in *.
  destruct w as [b known]. exists b, r, w1, tr. by split_and!.
Qed.

(** ** A bucket *)

#[export] Instance sample_join_order : JoinOrder := {
  join_order A l := l;
  join_order_perm A l := reflexivity l
}.

Definition sample_revision_json (v : Revision) : result string bytes :=
  Ok (bytes_of_string (pretty (rev_counter v) +:+ hash_hex (rev_hash v))).

Lemma sane_empty : sane ∅.
Proof. split; [intros k o|intros k o r]; rewrite lookup_empty; done. Qed.

Lemma marking_empty : marking ∅.
Proof. split; [apply sane_empty|]. intros k o r. rewrite lookup_empty. done. Qed.

Section races.
#[local] Existing Instance sample_hash.

Definition everything : KeyPrefix := mkPrefix None None.
Definition sample_put : record := sample_record sample_key 1 "a" [].
Definition sample_s3 : StoreOp → s3prog Response := s3_op sample_revision_json 3 5.
Definition sample_pool (clients : list (list StoreOp)) : Pool (list Response) :=
  starting sample_revision_json 3 5 ((λ ops, (ops, ∅)) <$> clients) ∅.

(** ** A listing against a delete *)

(** A tombstone without its marker, and where it is. *)
Definition stranded (b : Bucket) (k : RecordKey) : bool :=
  match b !! object_key k with
  | Some o => match from_slice (o_body o) with
              | Ok r => is_tombstone r && bool_decide (b !! marker_key k = None)
              | Err _ => false
              end
  | None => false
  end.

Lemma stranded_not_covered b k : stranded b k = true → ¬ covered b.
Proof.
  unfold stranded. destruct (b !! object_key k) as [o|] eqn:Ho; [|done].
  destruct (from_slice (o_body o)) as [r|] eqn:Hr; [|done].
  intros [Ht Hn%bool_decide_eq_true]%andb_true_iff Hc.
  destruct (Hc k o r Ho Hr Ht) as [m Hm]. by rewrite Hn in Hm.
Qed.

(** The client that puts and deletes a record, the client that lists, and one that
    lists and reads once the others have finished. *)
Definition race_clients : list (list StoreOp) :=
  [[OpPut sample_put None; OpDelete sample_key None None];
   [OpList everything; OpList everything];
   [OpList everything; OpGet sample_key]].

(** The put; a listing, which flags the collection; the delete as far as its marker;
    the second listing as far as its read; the tombstone; the removal of the marker. *)
Definition race_schedule : list nat :=
  repeat 0 3 ++ repeat 1 6 ++ repeat 0 3 ++ repeat 1 3 ++ [0] ++ repeat 1 1.

Definition race_writer : list Response :=
  [RPut (Ok (Committed (rec_revision sample_put))); RDelete (Ok Deleted)].
Definition race_lister : list Response := [RKeys (Ok [sample_key]); RKeys (Ok [sample_key])].

(** C37: a listing that overlaps a delete can strand its tombstone.  On a service where
    no request fails, a delete that has written its marker, a listing that lists the
    marker and reads the record, still live, the delete's tombstone, and the listing's
    removal of the marker under the tag it listed, leave a tombstone without a marker
    in a flagged collection.  Both calls are answered, the delete with success; a
    client that lists afterwards is told of the key, and that there is no record when
    it reads it. *)
Theorem listing_strands_tombstone : ∃ s1 s2,
  rtc pool_step (sample_pool race_clients) s1 ∧
  answers s1 = [Some race_writer; Some race_lister; None] ∧
  s1.1 !! 2 = (sample_pool race_clients).1 !! 2 ∧ ¬ covered s1.2 ∧
  rtc pool_step s1 s2 ∧
  answers s2 = [Some race_writer; Some race_lister;
                Some [RKeys (Ok [sample_key]); RRecord (Ok None)]] ∧ ¬ covered s2.2.
Proof.
  exists (turns race_schedule (sample_pool race_clients)),
    (turns (repeat 2 6) (turns race_schedule (sample_pool race_clients))).
  split; [apply turns_reach|]. split; [vm_compute; reflexivity|].
  split; [apply turns_idle; repeat constructor; done|].
  split; [apply (stranded_not_covered _ sample_key); vm_compute; reflexivity|].
  split; [apply turns_reach|]. split; [vm_compute; reflexivity|].
  apply (stranded_not_covered _ sample_key). vm_compute. reflexivity.
Qed.

(** ** Two equal puts *)

(** Two equal puts can both commit.  Two clients that put one record in the same
    millisecond, each expecting none, on a service where no request fails, can both be
    told that theirs was committed: the one whose conditional write is refused reads the other's
    record back and takes it for its own.  In no order does the reference store answer
    the two calls so. *)
Theorem equal_puts_both_commit :
  let op := OpPut sample_put None in
  let committed := RPut (Ok (Committed (rec_revision sample_put))) in
  (∃ s, rtc pool_step (sample_pool [[op]; [op]]) s ∧ answers s = [Some [committed]; Some [committed]]) ∧
  ∀ t t', let first := call_op (reference 3 t) op ∅ in
    first.1 = committed ∧ (call_op (reference 3 t') op first.2).1 ≠ committed.
Proof.
  intros op committed. split.
  - exists (turns (repeat 1 2 ++ repeat 0 3 ++ repeat 1 2) (sample_pool [[op]; [op]])).
    split; [apply turns_reach|]. vm_compute. reflexivity.
  - intros t t'.
    assert (∀ u m, call_op (reference 3 u) op m = respond RPut
      (apply_put (plan_put (m !! sample_key) sample_put None (now_ms u) 3) sample_key m)) as Hput.
    { intros u m. unfold call_op, reference. cbn. unfold MemStore_put. by rewrite mem_write_apply. }
    cbn zeta. rewrite (Hput t ∅), (Hput t' _), lookup_empty.
    generalize (now_ms t), (now_ms t'). intros n n'. split; [done|].
    set (m := (respond RPut _).2).
    assert (∃ r, m !! sample_key = Some r ∧ is_tombstone r = false) as (r & Hr & Ht)
      by (eexists; split; [apply lookup_insert_eq|done]).
    rewrite Hr. unfold plan_put. cbn [is_tombstone sample_put]. rewrite Ht. done.
Qed.

(** ** Runs of writes *)

Lemma s3_writes_are_atomic_witness :
  let run := alone (sample_s3 (OpPut sample_put None)) (mkWorld ∅ ∅) in
  runs (=) (sample_s3 (OpPut sample_put None)) (mkWorld ∅ ∅) run.1.1 run.1.2 run.2 ∧
  response_ok run.1.2 = true ∧
  Forall (λ s, writes_as_decided 3 (OpPut sample_put None) sample_key s.1 s.2) run.1.1 ∧
  answered 3 (OpPut sample_put None) sample_key run.1.2 run.1.1.
Proof.
  intros run. pose proof (alone_runs (sample_s3 (OpPut sample_put None)) (mkWorld ∅ ∅)) as Hrun.
  assert (response_ok run.1.2 = true) as Hok by (vm_compute; reflexivity).
  destruct (s3_writes_are_atomic sample_revision_json 3 5 (=)
    ltac:(by intros b b' ->) (OpPut sample_put None) sample_key (mkWorld ∅ ∅) run.2 run.1.1 run.1.2
    eq_refl sane_empty Hrun) as (Hall & _ & Hans).
  exact (conj Hrun (conj Hok (conj Hall (Hans Hok)))).
Defined.

Lemma writers_keep_tombstones_marked_witness :
  let clients := [([OpPut sample_put None; OpDelete sample_key None None], ∅)] in
  let s := turns (repeat 0 7) (starting sample_revision_json 3 5 clients ∅) in
  answers s = [Some [RPut (Ok (Committed (rec_revision sample_put))); RDelete (Ok Deleted)]] ∧
  marking s.2.
Proof.
  intros clients s. split; [vm_compute; reflexivity|].
  apply (writers_keep_tombstones_marked sample_revision_json 3 5 clients ∅ s).
  - apply marking_empty.
  - repeat constructor.
  - apply turns_reach.
Defined.

(** *** A bucket of one record *)

Definition one_record : records := {[ sample_key := sample_put ]}.
Definition one_object : Bucket := {[ object_key sample_key := sample_object (to_bits sample_put) ]}.

Lemma one_object_quiet : quiet one_record (mkWorld one_object ∅).
Proof.
  split; [split|]; cbn [w_bucket].
  - intros s [o Ho]. unfold one_object in Ho. apply lookup_singleton_Some in Ho as [<- _]. left. by exists sample_key.
  - intros k. unfold stored_at, one_object, one_record.
    destruct (decide (k = sample_key)) as [->|Hne].
    + rewrite !lookup_singleton_eq. exists sample_put. split_and!; [done| |done].
      cbn. by rewrite from_bits_to_bits.
    + rewrite !lookup_singleton_ne; [done|congruence|]. by intros ?%(inj object_key).
  - intros ns col k [[o Ho]|Hf]; [|by apply elem_of_empty in Hf].
    cbn in Ho. unfold one_object in Ho. apply lookup_singleton_Some in Ho as [Heq _].
    by destruct (flag_not_object ns col sample_key).
Qed.

Lemma listing_alone_is_exact_witness : ∃ tr w',
  quiet one_record (mkWorld one_object ∅) ∧
  runs (=) (sample_s3 (OpList everything)) (mkWorld one_object ∅) tr (RKeys (Ok [sample_key])) w'.
Proof.
  destruct (proj2 (listing_alone_is_exact sample_revision_json 3 5 one_record (mkWorld one_object ∅)
    everything one_object_quiet) sample_reliable (λ v, eq_refl)
    ltac:(vm_compute; repeat constructor) 0%Z) as (tr & w' & Hrun).
  exists tr, w'. split; [apply one_object_quiet|].
  assert ((call_op (reference 3 0) (OpList everything) one_record).1 = RKeys (Ok [sample_key])) as <-
    by (vm_compute; reflexivity).
  exact Hrun.
Defined.
End races.
