(* ===== verification/Knowledge.v ===== *)
(** * Knowledge: records as searchable chunks

    Models [gonzalo-knowledge]'s [lib.rs] and the plain bodies of
    [gonzalo-domain]'s [memory.rs] and [session.rs]: how a record is split into
    chunks, the keys its chunks are indexed under, and the store that keeps a
    vector index in step with the records.  The index is a record of operations,
    [VectorIndex]; the embedder a function of the text and the world. *)

From Stdlib Require Import SpecFloat.
From S2P Require Export Text GraphStore Tickets VectorIndex.
From S2P Require Import Fleet.

(** ** The bodies *)

Record memory_tier := mkMemoryTier { mt_name : string; mt_content : string }.
Record topic := mkTopic { tp_slug : string; tp_bullets : list string }.
Record turn := mkTurn { tn_role : string; tn_text : string }.
Record session := mkSession { ss_name : string; ss_turns : list turn }.

(** ** Text *)

Definition split_paragraphs (text : string) : list string :=
  filter (λ p, p ≠ "") (trim <$> split_blank text).

Definition prepend_header (header : string) (pieces : list string) : list string :=
  match pieces with
  | first :: rest => (header +:+ newline_str +:+ first) :: rest
  | [] => [header]
  end.

(** ** Chunk keys *)

Definition CHUNK_SEP : Ascii.ascii := Ascii.ascii_of_nat 31.
Definition OVERFETCH : N := 8.

Definition chunk_key (parent : RecordKey) (ordinal : N) : RecordKey :=
  mkKey (key_namespace parent) (key_collection parent)
    (key_id parent +:+ String CHUNK_SEP (dec ordinal)).

Definition parent_key (chunk : RecordKey) : RecordKey * N :=
  match rsplit_once CHUNK_SEP (key_id chunk) with
  | Some (id, ord) =>
      (mkKey (key_namespace chunk) (key_collection chunk) id, default 0%N (parse_usize ord))
  | None => (chunk, 0%N)
  end.

(** ** Chunks *)

Section chunks.
Context `{SerdeJson} `{!RecordCodec memory_tier, !RecordCodec topic, !RecordCodec session,
  !RecordCodec ticket, !RecordCodec ticket_event}.

Definition chunk (r : record) : Result (option (list string)) :=
  match rec_kind r with
  | MemoryTier =>
      t ← from_body (A:=memory_tier) (rec_body r);
      Ok (Some (prepend_header (mt_name t) (split_paragraphs (mt_content t))))
  | Topic =>
      t ← from_body (A:=topic) (rec_body r);
      Ok (Some (prepend_header (tp_slug t) (tp_bullets t)))
  | Session =>
      s ← from_body (A:=session) (rec_body r);
      Ok (Some (prepend_header (ss_name s) (tn_text <$> ss_turns s)))
  | Ticket =>
      t ← from_body (A:=ticket) (rec_body r);
      Ok (Some ((tk_title t +:+ newline_str +:+ String.concat " " (tk_labels t)) ::
        split_paragraphs (tb_markdown (tk_body t))))
  | TicketEvent =>
      e ← from_body (A:=ticket_event) (rec_body r);
      Ok (Some [te_body e])
  | Checkpoint | GraphManifest | VectorManifest | Tombstone | Person | IdentityBinding
  | RoleGrant | ChannelConfig | LinkToken | AuditEntry => Ok None
  end.

Definition knowledge_text (r : record) : option string :=
  match chunk r with
  | Ok (Some cs) => Some (String.concat newline_str cs)
  | _ => None
  end.
End chunks.

(** ** The vector index a store is built on *)

Record VectorIndex (W : Type) := mkVectorIndex {
  vi_upsert : RecordKey → vector → M W CoreError unit;
  vi_remove : RecordKey → M W CoreError unit;
  vi_query : vector → N → KeyPrefix → M W CoreError (list Match);
  vi_upsert_many : list entry → M W CoreError unit;
  vi_keys : KeyPrefix → M W CoreError (list RecordKey)
}.
Arguments mkVectorIndex {W}.
Arguments vi_upsert {W} v k x w : rename.
Arguments vi_remove {W} v k w : rename.
Arguments vi_query {W} v q k filt w : rename.
Arguments vi_upsert_many {W} v items w : rename.
Arguments vi_keys {W} v filt w : rename.

(** The in-memory index, somewhere in the world. *)
Definition memory_index `{HashOrder} {W} (l : Lens W index) : VectorIndex W :=
  mkVectorIndex
    (λ k v, zoom l (Memory_upsert k v))
    (λ k, zoom l (Memory_remove k))
    (λ q k filt w, (Memory_query q (N.to_nat k) filt (lens_get l w), w))
    (λ items, zoom l (Memory_upsert_many items))
    (λ filt w, (Ok (Memory_keys filt (lens_get l w)), w)).

Record Hit := mkHit { hit_record : record; hit_score : spec_float }.
Record ChunkHit := mkChunkHit {
  ch_record : record; ch_score : spec_float; ch_ordinal : N; ch_text : string
}.

(** [f32::max]: a number before a NaN; of two zeros, the positive one, a choice
    Rust leaves open. *)
Definition f32_max (a b : spec_float) : spec_float :=
  match a, b with
  | S754_nan, _ => b
  | _, S754_nan => a
  | _, _ => if decide (total_key a < total_key b)%Z then b else a
  end.

(** [a..b]. *)
Definition ordinals (a b : N) : list N :=
  N.of_nat <$> seq (N.to_nat a) (N.to_nat b - N.to_nat a).

(** ** The store *)

Abbreviation chunk_counts := (gmap RecordKey N).

Section knowledge.
Context `{SerdeJson} `{!RecordCodec memory_tier, !RecordCodec topic, !RecordCodec session,
  !RecordCodec ticket, !RecordCodec ticket_event} {W : Type}.
(** [Embedder::embed]. *)
Context (store : Store W) (ix : VectorIndex W) (embed : string → W → Result vector).

Abbreviation action := (M (chunk_counts * W) CoreError).

Definition on_world {A} (m : M W CoreError A) : action A := zoom lens_snd m.
Definition the_counts : action chunk_counts := λ s, (Ok s.1, s).
Definition set_counts (c : chunk_counts) : action unit := λ s, (Ok tt, (c, s.2)).

Definition embed_text (text : string) : M W CoreError vector := λ w, (embed text w, w).

(** [new]. *)
Definition knowledge_new : chunk_counts := ∅.

Definition count_chunk (counts : chunk_counts) (key : RecordKey) : chunk_counts :=
  let '(parent, ordinal) := parent_key key in
  <[parent := N.max (default 0%N (counts !! parent)) (u64_succ ordinal)]> counts.

(** [open]. *)
Definition knowledge_open : M W CoreError chunk_counts :=
  keys ← vi_keys ix KeyPrefix_default;
  mret (foldl count_chunk ∅ keys).

Definition ingest (key : RecordKey) : action bool :=
  o ← on_world (st_get store key);
  match o with
  | None => mret false
  | Some r =>
      cs ← lift (chunk r);
      match cs with
      | None => mret false
      | Some chunks =>
          counts ← the_counts;
          let len := N.of_nat (length chunks) in
          _ ← foldM (λ _ ordinal, on_world (vi_remove ix (chunk_key key ordinal))) tt
            (ordinals len (default 0%N (counts !! key)));
          items ← foldM (λ items p,
              v ← on_world (embed_text p.2); mret (items ++ [(chunk_key key p.1, v)])) []
            (imap (λ i text, (N.of_nat i, text)) chunks);
          _ ← (match items with [] => mret tt | _ => on_world (vi_upsert_many ix items) end);
          counts ← the_counts;
          _ ← set_counts (<[key := len]> counts);
          mret true
      end
  end.

Definition remove (key : RecordKey) : action unit :=
  counts ← the_counts;
  _ ← foldM (λ _ ordinal, on_world (vi_remove ix (chunk_key key ordinal))) tt
    (ordinals 0 (default 0%N (counts !! key)));
  counts ← the_counts;
  set_counts (delete key counts).

(** *** Queries *)

Definition best_score (best : gmap RecordKey spec_float) (m : Match) : gmap RecordKey spec_float :=
  let parent := (parent_key (m_key m)).1 in
  <[parent := match best !! parent with Some s => f32_max s (m_score m) | None => m_score m end]> best.

(** The parents by their best score: a stable sort of a [BTreeMap]'s items, whose
    ties stay in the order of their keys. *)
Definition rank_parents (matches : list Match) : list Match :=
  merge_sort (@ole _ by_score)
    ((λ p, mkMatch p.1 p.2) <$> btree_items (foldl best_score ∅ matches)).

Definition saturating_mul (a b : N) : N := N.min (a * b) u64_max.

Definition resolve (ranked : list Match) : M W CoreError (list Hit) :=
  foldM (λ hits m,
    o ← st_get store (m_key m);
    mret (hits ++ match o with Some r => [mkHit r (m_score m)] | None => [] end)) [] ranked.

Definition query (text : string) (k : N) (filt : KeyPrefix) : M W CoreError (list Hit) :=
  if decide (k = 0%N) then mret [] else
  query_vec ← embed_text text;
  matches ← vi_query ix query_vec (saturating_mul k OVERFETCH) filt;
  resolve (take (N.to_nat k) (rank_parents matches)).

(** The neighborhood of [root] in a graph: it, its callers and its callees. *)
Definition neighborhood (graph : GraphStore) (root : string) : gset string :=
  {[root]} ∪ list_to_set (gs_callers_of graph root) ∪ list_to_set (gs_callees graph root).

Definition query_in_subgraph (text : string) (k : N) (graph : GraphStore) (root : string) :
    M W CoreError (list Hit) :=
  hits ← query text k KeyPrefix_default;
  mret (filter (λ h, key_id (rec_key (hit_record h)) ∈ neighborhood graph root) hits).

Definition query_chunks (text : string) (k : N) (filt : KeyPrefix) : M W CoreError (list ChunkHit) :=
  if decide (k = 0%N) then mret [] else
  query_vec ← embed_text text;
  matches ← vi_query ix query_vec k filt;
  foldM (λ hits m,
    let '(parent, ordinal) := parent_key (m_key m) in
    o ← st_get store parent;
    match o with
    | None => mret hits
    | Some r =>
        cs ← lift (chunk r);
        let text := default "" (cs ← cs; cs !! N.to_nat ordinal) in
        mret (hits ++ [mkChunkHit r (m_score m) ordinal text])
    end) [] matches.
End knowledge.
