(* ===== verification/KnowledgeSpec.v ===== *)
(** * KnowledgeSpec: the index mirrors the records

    Chunk keys read back; every successful ingest, removal and reopening keeps the
    index the chunks of the records last ingested; and a query ranks records by
    their best chunk. *)

From S2P Require Export Numerals Knowledge.
From S2P Require Import Fleet SampleStores.

(** ** Chunk keys *)

Lemma parent_chunk_key parent ordinal : (ordinal ≤ u64_max)%N →
  parent_key (chunk_key parent ordinal) = (parent, ordinal).
Proof.
  intros Hn. unfold parent_key, chunk_key. cbn [key_id key_namespace key_collection].
  rewrite rsplit_once_last by by apply dec_without. rewrite parse_usize_dec by done.
  by destruct parent.
Qed.

(** A chunk's key names its record and its place.  For every record key, its id
    holding the separator or not, and every ordinal a [usize] can be, the key of the
    chunk is read back as that record and that ordinal. *)
Theorem chunk_key_roundtrip (parent : RecordKey) (ordinal : N) :
  (ordinal ≤ u64_max)%N → parent_key (chunk_key parent ordinal) = (parent, ordinal).
Proof. apply parent_chunk_key. Qed.

Lemma chunk_key_roundtrip_witness :
  let tricky := mkKey "ns" "col" ("a" +:+ String CHUNK_SEP "7") in
  (u64_max ≤ u64_max)%N ∧ parent_key (chunk_key tricky u64_max) = (tricky, u64_max).
Proof. intros tricky. split; [lia|]. apply (chunk_key_roundtrip tricky u64_max). lia. Defined.

Lemma chunk_key_inj p i p' i' : (i ≤ u64_max)%N → (i' ≤ u64_max)%N →
  chunk_key p i = chunk_key p' i' → p = p' ∧ i = i'.
Proof.
  intros Hi Hi' Heq%(f_equal parent_key). rewrite !parent_chunk_key in Heq by done. by simplify_eq.
Qed.

(** ** What an index promises its clients *)

(** [entries] are the index's vectors; a call that succeeds did what it says, and no
    call touches the rest of the world. *)
Class VectorIndexLaws {W F} (ix : VectorIndex W) (entries : W → index) (frame : W → F) := {
  law_vi_remove k w : ∃ r w', vi_remove ix k w = (r, w') ∧ frame w' = frame w ∧
    (is_ok r = true → entries w' = delete k (entries w));
  law_vi_upsert_many items w : ∃ r w', vi_upsert_many ix items w = (r, w') ∧ frame w' = frame w ∧
    (is_ok r = true → entries w' = insert_all (entries w) items);
  law_vi_query q k filt w : ∃ r w', vi_query ix q k filt w = (r, w') ∧ frame w' = frame w ∧
    entries w' = entries w;
  law_vi_keys filt w : ∃ r w', vi_keys ix filt w = (r, w') ∧ frame w' = frame w ∧
    entries w' = entries w ∧
    ∀ ks, r = Ok ks → ∀ k, k ∈ ks ↔ is_Some (entries w !! k) ∧ prefix_matches filt k = true
}.

(** An index whose answers are exact. *)
Class ExactIndex {W} (ix : VectorIndex W) (entries : W → index) :=
  law_exact q k filt w ms : (vi_query ix q k filt w).1 = Ok ms →
    ms = take (N.to_nat k) (ranking q filt (entries w)).

Section memory.
Context `{HashOrder} {W F} (l : Lens W index) (frame : W → F) `{!LensLaws l frame}.

Lemma Memory_upsert_many_done items m m' :
  Memory_upsert_many items m = (Ok tt, m') → m' = insert_all m items.
Proof.
  unfold Memory_upsert_many. revert m. induction items as [|[k v] items IH]; intros m;
    [by intros [= <-]|].
  rewrite foldM_cons. cbn. unfold Memory_upsert. destruct (check_dim m (length v)); [apply IH|done].
Qed.

#[export] Instance memory_index_laws : VectorIndexLaws (memory_index l) (lens_get l) frame.
Proof.
  split.
  - intros k w. eexists _, _. split; [reflexivity|]. rewrite lens_frame. split; [done|].
    intros _. cbn. by rewrite lens_get_set.
  - intros items w. cbn. unfold zoom.
    destruct (Memory_upsert_many items (lens_get l w)) as [r m'] eqn:Hm.
    eexists _, _. split; [reflexivity|]. rewrite lens_frame, lens_get_set. split; [done|].
    destruct r as [[]|e]; [|done]. intros _. by apply Memory_upsert_many_done.
  - intros q k filt w. by eexists _, _.
  - intros filt w. eexists _, _. split_and!; [reflexivity|done|done|]. intros ks [= <-] k.
    unfold Memory_keys. rewrite list_elem_of_filter, list_elem_of_fmap. split.
    + intros [Hp ([k' v] & -> & Hin%elem_of_hash_iter)]. split; [by eexists|done].
    + intros [[v Hv] Hp]. split; [done|]. exists (k, v). by rewrite elem_of_hash_iter.
Qed.

#[export] Instance memory_index_exact : ExactIndex (memory_index l) (lens_get l).
Proof.
  intros q k filt w ms. cbn. unfold Memory_query. destruct (if decide _ then _ else _); [|done].
  cbn. intros [= <-]. f_equal. apply ranking_hash_order.
Qed.
End memory.

(** ** Loops that succeed *)

Lemma foldM_done {W E A B} (f : B → A → M W E B) (I : list A → B → W → Prop) l acc w acc' w' :
  foldM f acc l w = (Ok acc', w') → I [] acc w →
  (∀ done x acc w acc' w', I done acc w → x ∈ l → f acc x w = (Ok acc', w') →
     I (done ++ [x]) acc' w') →
  I l acc' w'.
Proof.
  intros Hrun H0 Hstep. assert (∀ todo done acc w, (∀ x, x ∈ todo → x ∈ l) → l = done ++ todo →
    foldM f acc todo w = (Ok acc', w') → I done acc w → I l acc' w') as Hgo.
  { induction todo as [|x todo IH]; intros done acc1 w1 Hsub Hl.
    - rewrite app_nil_r in Hl. subst. by intros [= <- <-].
    - rewrite foldM_cons. destruct (f acc1 x w1) as [[acc2|e] w2] eqn:Hf; [|done].
      intros Htodo HI. apply (IH (done ++ [x]) acc2 w2); [|by rewrite <-app_assoc|done|].
      + intros y Hy. apply Hsub. by right.
      + eapply Hstep; [done|apply Hsub; by left|done]. }
  by apply (Hgo l [] acc w).
Qed.

Lemma insert_all_other m items c : c ∉ items.*1 → insert_all m items !! c = m !! c.
Proof.
  unfold insert_all. revert m. induction items as [|[k v] items IH]; intros m; [done|].
  cbn. intros [Hk Hc]%not_elem_of_cons. rewrite IH by done. by apply lookup_insert_ne.
Qed.

Lemma insert_all_in m items c v : NoDup items.*1 → (c, v) ∈ items →
  insert_all m items !! c = Some v.
Proof.
  unfold insert_all. revert m. induction items as [|[k x] items IH]; intros m; [by intros _ ?%elem_of_nil|].
  cbn. intros [Hk Hnd]%NoDup_cons [[= <- <-]|Hin]%elem_of_cons; [|by apply IH].
  pose proof (insert_all_other (<[c := v]> m) items c Hk) as Heq. unfold insert_all in Heq.
  by rewrite Heq, lookup_insert_eq.
Qed.

(** ** The mirror *)

(** Every record ingested, with the vectors of its chunks. *)
Abbreviation mirror := (gmap RecordKey (list vector)).

Definition represents (m : index) (mi : mirror) : Prop := ∀ c v,
  m !! c = Some v ↔ ∃ p i vs, mi !! p = Some vs ∧ vs !! i = Some v ∧ c = chunk_key p (N.of_nat i).

Definition counts_ok (counts : chunk_counts) (mi : mirror) : Prop := ∀ p,
  default 0%N (counts !! p) = N.of_nat (length (default [] (mi !! p))).

(** What a [usize] can count. *)
Definition countable (mi : mirror) : Prop :=
  ∀ p vs, mi !! p = Some vs → (N.of_nat (length vs) ≤ u64_max)%N.

Lemma elem_of_ordinals a b o : o ∈ ordinals a b ↔ (a ≤ o ∧ o < b)%N.
Proof.
  unfold ordinals. rewrite list_elem_of_fmap. setoid_rewrite elem_of_seq. split.
  - intros (n & -> & ?). lia.
  - intros ?. exists (N.to_nat o). lia.
Qed.

Definition chunk_items (key : RecordKey) (vs : list vector) : list entry :=
  imap (λ i v, (chunk_key key (N.of_nat i), v)) vs.

Lemma elem_of_chunk_items key vs c v :
  (c, v) ∈ chunk_items key vs ↔ ∃ i, vs !! i = Some v ∧ c = chunk_key key (N.of_nat i).
Proof.
  unfold chunk_items. rewrite elem_of_lookup_imap. split.
  - intros (i & x & [= -> ->] & Hi). by exists i.
  - intros (i & Hi & ->). by exists i, v.
Qed.

Lemma NoDup_chunk_items key vs : (N.of_nat (length vs) ≤ u64_max)%N → NoDup (chunk_items key vs).*1.
Proof.
  intros Hl. unfold chunk_items. rewrite fmap_imap. apply NoDup_alt. intros i j x.
  rewrite !list_lookup_imap. destruct (vs !! i) eqn:Hi; [|done]. destruct (vs !! j) eqn:Hj; [|done].
  apply lookup_lt_Some in Hi, Hj. cbn. intros [= Hx] [= Hy]. rewrite <-Hy in Hx.
  apply chunk_key_inj in Hx as [_ Hx]; lia.
Qed.

(** Removing some of a record's chunks, and writing it anew. *)
Lemma represents_ingest m m1 mi key vs : represents m mi → countable mi →
  (N.of_nat (length vs) ≤ u64_max)%N →
  (∀ x, m1 !! x = if decide (x ∈ chunk_key key <$> ordinals (N.of_nat (length vs))
      (N.of_nat (length (default [] (mi !! key))))) then None else m !! x) →
  represents (insert_all m1 (chunk_items key vs)) (<[key := vs]> mi).
Proof.
  intros Hm Hc Hl Hm1 c v. assert (∀ p i vs0 i', mi !! p = Some vs0 → i < length vs0 → i' < length vs →
    chunk_key p (N.of_nat i) = chunk_key key (N.of_nat i') → p = key ∧ i = i') as Hinj.
  { intros p i vs0 i' Hp Hi Hi' Heq. specialize (Hc p vs0 Hp).
    apply chunk_key_inj in Heq as [-> Heq]; [|lia..]. split; [done|lia]. }
  destruct (decide (c ∈ (chunk_items key vs).*1)) as [Hin|Hout].
  - apply list_elem_of_fmap in Hin as ([c' x] & -> & Hin). cbn [fst].
    rewrite (insert_all_in _ _ c' x (NoDup_chunk_items key vs Hl) Hin).
    apply elem_of_chunk_items in Hin as (i & Hi & ->). pose proof (lookup_lt_Some _ _ _ Hi). split.
    + intros [= ->]. exists key, i, vs. by rewrite lookup_insert_eq.
    + intros (p & i' & vs' & [[<- <-]|[Hne Hp]]%lookup_insert_Some & Hv & Heq);
        pose proof (lookup_lt_Some _ _ _ Hv).
      * apply chunk_key_inj in Heq as [_ Heq]; [|lia..]. apply Nat2N.inj in Heq. congruence.
      * destruct (Hinj p i' vs' i) as [-> _]; done.
  - assert (∀ i, i < length vs → c ≠ chunk_key key (N.of_nat i)) as Hne.
    { intros i Hi ->. destruct (lookup_lt_is_Some_2 vs i Hi) as [x Hx]. apply Hout.
      apply list_elem_of_fmap. exists (chunk_key key (N.of_nat i), x). split; [done|].
      apply elem_of_chunk_items. by exists i. }
    rewrite insert_all_other, Hm1 by done. case_decide as Hr.
    + apply list_elem_of_fmap in Hr as (o & -> & Ho%elem_of_ordinals). split; [done|].
      intros (p & i & vs' & [[<- <-]|[Hnp Hp]]%lookup_insert_Some & Hv & Heq);
        pose proof (lookup_lt_Some _ _ _ Hv); [by destruct (Hne i)|].
      specialize (Hc p vs' Hp) as Hcp. destruct (mi !! key) as [vk|] eqn:Hk; cbn in Ho; [|lia].
      specialize (Hc key vk Hk). apply chunk_key_inj in Heq as [-> _]; [done|lia..].
    + rewrite (Hm c v). split.
      * intros (p & i & vs' & Hp & Hv & ->). pose proof (lookup_lt_Some _ _ _ Hv).
        exists p, i, vs'. split_and!; [|done..]. rewrite lookup_insert_ne; [done|]. intros ->.
        destruct (decide (i < length vs)) as [Hlt|Hge]; [by destruct (Hne i Hlt)|].
        apply Hr, list_elem_of_fmap. exists (N.of_nat i). split; [done|]. apply elem_of_ordinals.
        rewrite Hp. cbn. lia.
      * intros (p & i & vs' & [[<- <-]|[Hnp Hp]]%lookup_insert_Some & Hv & ->).
        -- by destruct (Hne i (lookup_lt_Some _ _ _ Hv)).
        -- by exists p, i, vs'.
Qed.

Lemma represents_remove m m1 mi key : represents m mi → countable mi →
  (∀ x, m1 !! x = if decide (x ∈ chunk_key key <$> ordinals 0
      (N.of_nat (length (default [] (mi !! key))))) then None else m !! x) →
  represents m1 (delete key mi).
Proof.
  intros Hm Hc Hm1 c v. rewrite Hm1. case_decide as Hr.
  - apply list_elem_of_fmap in Hr as (o & -> & Ho%elem_of_ordinals). split; [done|].
    intros (p & i & vs' & [Hnp Hp]%lookup_delete_Some & Hv & Heq).
    pose proof (lookup_lt_Some _ _ _ Hv). specialize (Hc p vs' Hp) as Hcp.
    destruct (mi !! key) as [vk|] eqn:Hk; cbn in Ho; [|lia].
    specialize (Hc key vk Hk). apply chunk_key_inj in Heq as [-> _]; [done|lia..].
  - rewrite (Hm c v). split.
    + intros (p & i & vs' & Hp & Hv & ->). pose proof (lookup_lt_Some _ _ _ Hv).
      exists p, i, vs'. split_and!; [|done..]. apply lookup_delete_Some. split; [|done]. intros <-.
      apply Hr, list_elem_of_fmap. exists (N.of_nat i). split; [done|]. apply elem_of_ordinals.
      rewrite Hp. cbn. lia.
    + intros (p & i & vs' & [_ Hp]%lookup_delete_Some & Hv & ->). by exists p, i, vs'.
Qed.

(** The counts an index's keys are read as. *)
Lemma counts_of_keys ks p n :
  (∀ k, k ∈ ks → ∃ q j, k = chunk_key q j ∧ (j < u64_max)%N) →
  (n < default 0 (foldl count_chunk ∅ ks !! p))%N ↔
    ∃ j, chunk_key p j ∈ ks ∧ (j < u64_max)%N ∧ (n ≤ j)%N.
Proof.
  induction ks as [|k ks IH] using rev_ind; intros Hks.
  { cbn. rewrite lookup_empty. cbn. split; [lia|]. by intros (j & ?%elem_of_nil & _). }
  rewrite foldl_app. cbn [foldl].
  destruct (Hks k) as (q & j & -> & Hj); [apply elem_of_app; right; left|].
  assert (∀ k, k ∈ ks → ∃ q j, k = chunk_key q j ∧ (j < u64_max)%N) as Hks'
    by (intros k Hk; apply Hks, elem_of_app; by left).
  specialize (IH Hks'). unfold count_chunk at 1. rewrite parent_chunk_key by lia.
  rewrite u64_succ_small by done. setoid_rewrite elem_of_app. setoid_rewrite list_elem_of_singleton.
  destruct (decide (p = q)) as [->|Hne].
  - rewrite lookup_insert_eq. cbn [default from_option].
    revert IH. generalize (default 0%N (foldl count_chunk ∅ ks !! q)). intros old IH. cbn [id]. split.
    + intros Hn. destruct (decide (n < old)%N) as [Hlt|Hge].
      * apply IH in Hlt as (j' & Hin & ?). exists j'. split; [by left|done].
      * exists j. split; [by right|]. split; [done|]. lia.
    + intros (j' & [Hin|Heq] & Hj' & Hn).
      * assert (n < old)%N by (apply IH; by exists j'). lia.
      * apply chunk_key_inj in Heq as [_ ->]; lia.
  - rewrite lookup_insert_ne by done. rewrite IH. split; intros (j' & Hin & Hj' & Hn);
      exists j'; (split; [|done]); [by left|]. destruct Hin as [|Heq]; [done|].
    by apply chunk_key_inj in Heq as [-> _]; [|lia..].
Qed.

Section refine.
Context `{Blake3} `{SerdeJson} `{!RecordCodec memory_tier, !RecordCodec topic, !RecordCodec session,
  !RecordCodec ticket, !RecordCodec ticket_event} {W : Type}.
Context (store : Store W) (ix : VectorIndex W) (embed : string → W → Result vector).
Context (contents : W → records) (entries : W → index) (cap : nat).
Context `{!StoreLaws store contents cap entries, !VectorIndexLaws ix entries contents}.

(** A [Vec] has no more elements than a [usize] counts. *)
Hypothesis chunks_fit : ∀ r cs, chunk r = Ok (Some cs) → (N.of_nat (length cs) ≤ u64_max)%N.

Definition embeds (text : string) (v : vector) : Prop := ∃ w, embed text w = Ok v.

Inductive KnowledgeOp := Ingest (key : RecordKey) | Remove (key : RecordKey) | Reopen.

(** A call on a handle; [Reopen] is a new handle on the same index. *)
Definition run_knowledge (op : KnowledgeOp) : M (chunk_counts * W) CoreError bool :=
  match op with
  | Ingest key => ingest store ix embed key
  | Remove key => _ ← Knowledge.remove ix key; mret true
  | Reopen => counts ← zoom lens_snd (knowledge_open ix); _ ← set_counts counts; mret true
  end.

(** What a successful call makes of the mirror. *)
Inductive mirror_step (rs : records) : KnowledgeOp → bool → mirror → mirror → Prop :=
  | MirrorIngest key r chunks vs mi :
      live (rs !! key) = Some r → chunk r = Ok (Some chunks) → Forall2 embeds chunks vs →
      mirror_step rs (Ingest key) true mi (<[key := vs]> mi)
  | MirrorSkip key mi :
      (∀ r, live (rs !! key) = Some r → chunk r = Ok None) →
      mirror_step rs (Ingest key) false mi mi
  | MirrorRemove key mi : mirror_step rs (Remove key) true mi (delete key mi)
  | MirrorReopen mi : mirror_step rs Reopen true mi mi.

(** The handle's counts and the index, as the mirror has them. *)
Definition mirrored (s : chunk_counts * W) (mi : mirror) : Prop :=
  represents (entries s.2) mi ∧ counts_ok s.1 mi ∧ countable mi.

Lemma removes_spec key os s s' :
  foldM (λ _ o, on_world (vi_remove ix (chunk_key key o))) tt os s = (Ok tt, s') →
  s'.1 = s.1 ∧ contents s'.2 = contents s.2 ∧
  ∀ x, entries s'.2 !! x = if decide (x ∈ chunk_key key <$> os) then None else entries s.2 !! x.
Proof.
  intros Hrun. eapply (foldM_done _ (λ done _ s1, s1.1 = s.1 ∧ contents s1.2 = contents s.2 ∧
    ∀ x, entries s1.2 !! x = if decide (x ∈ chunk_key key <$> done) then None
      else entries s.2 !! x)) in Hrun; [done|done|].
  intros done o acc [c w] acc' s2 (Hc & Hf & Hx) _. unfold on_world, zoom.
  destruct (law_vi_remove (entries:=entries) (frame:=contents) (chunk_key key o) w) as (r & w2 & Hr & Hf2 & He).
  cbn in *. rewrite Hr. intros [= -> <-]. cbn. specialize (He eq_refl).
  split_and!; [done|by rewrite Hf2|]. intros x. rewrite He, fmap_app.
  destruct (decide (chunk_key key o = x)) as [<-|Hne].
  - rewrite lookup_delete_eq, decide_True; [done|]. apply elem_of_app. right. left.
  - rewrite lookup_delete_ne, Hx by done. apply decide_ext.
    rewrite elem_of_app. cbn. rewrite list_elem_of_singleton. intuition congruence.
Qed.

Lemma embeds_spec key chunks s items s' :
  foldM (λ items p, v ← on_world (embed_text embed p.2); mret (items ++ [(chunk_key key p.1, v)])) []
    (imap (λ i text, (N.of_nat i, text)) chunks) s = (Ok items, s') →
  s' = s ∧ ∃ vs, Forall2 embeds chunks vs ∧
    items = chunk_items key vs.
Proof.
  intros Hrun. eapply (foldM_done _ (λ done items s1, s1 = s ∧ ∃ vs,
    Forall2 embeds done.*2 vs ∧ items = zip_with (λ p v, (chunk_key key p.1, v)) done vs)) in Hrun.
  - destruct Hrun as (-> & vs & Hvs & ->). split; [done|]. exists vs.
    assert ((imap (λ i text, (N.of_nat i, text)) chunks).*2 = chunks) as Hch.
    { rewrite fmap_imap. apply list_eq. intros i. rewrite list_lookup_imap.
      by destruct (chunks !! i). }
    rewrite Hch in Hvs. split; [done|]. apply list_eq. intros j.
    unfold chunk_items. rewrite lookup_zip_with, !list_lookup_imap. apply Forall2_length in Hvs.
    destruct (chunks !! j) eqn:Hc, (vs !! j) eqn:Hv; try done.
    apply lookup_ge_None in Hc. apply lookup_lt_Some in Hv. lia.
  - split; [done|]. by exists [].
  - intros done p items1 s1 items2 s2 (-> & vs & Hvs & ->) _. unfold on_world, zoom, embed_text.
    destruct s as [c w]. unfold mbind, M_bind. cbn. destruct (embed p.2 w) as [v|e] eqn:Hv; [|done]. intros [= <- <-].
    split; [done|]. exists (vs ++ [v]). rewrite fmap_app. split.
    + apply Forall2_app; [done|]. constructor; [by exists w|constructor].
    + rewrite zip_with_app; [done|]. apply Forall2_length in Hvs. by rewrite length_fmap in Hvs.
Qed.

Lemma run_on_store key s : ∃ w, on_world (st_get store key) s = (Ok (live (contents s.2 !! key)), (s.1, w)) ∧
  contents w = contents s.2 ∧ entries w = entries s.2.
Proof.
  destruct s as [c w]. unfold on_world, zoom. cbn.
  destruct (law_get (StoreLaws:=_) key w) as (w' & -> & Hc & He). by exists w'.
Qed.

Lemma ingest_refines key s b s' mi :
  ingest store ix embed key s = (Ok b, s') → mirrored s mi →
  contents s'.2 = contents s.2 ∧
  ∃ mi', mirror_step (contents s.2) (Ingest key) b mi mi' ∧ mirrored s' mi'.
Proof.
  intros Hrun (Hm & Hcounts & Hcount). unfold ingest in Hrun.
  apply bind_inv_ok in Hrun as (o & s1 & Hget & Hrun).
  destruct (run_on_store key s) as (w & Heq & Hc1 & He1). rewrite Heq in Hget.
  injection Hget as <- <-.
  destruct (live (contents s.2 !! key)) as [r|] eqn:Hlive.
  2: { injection Hrun as <- <-. split; [done|]. exists mi. split; [by apply MirrorSkip; rewrite Hlive|].
       split; [cbn; by rewrite He1|done]. }
  apply bind_inv_ok in Hrun as (cs & s1 & Hch & Hrun). injection Hch as Hch <-.
  destruct cs as [chunks|].
  2: { injection Hrun as <- <-. split; [done|]. exists mi. split.
       - apply MirrorSkip. rewrite Hlive. by intros r' [= <-].
       - split; [cbn; by rewrite He1|done]. }
  apply bind_inv_ok in Hrun as (counts & s1 & Hcs & Hrun). injection Hcs as <- <-. cbn zeta in Hrun.
  apply bind_inv_ok in Hrun as ([] & s1 & Hrem & Hrun).
  apply removes_spec in Hrem as (Hs1 & Hc2 & He2). cbn in Hs1, Hc2, He2.
  apply bind_inv_ok in Hrun as (items & s2 & Hemb & Hrun).
  apply embeds_spec in Hemb as (-> & vs & Hvs & ->).
  pose proof (Forall2_length _ _ _ Hvs) as Hlen.
  apply bind_inv_ok in Hrun as ([] & s3 & Hup & Hrun).
  assert (s3.1 = s1.1 ∧ contents s3.2 = contents s1.2 ∧
    entries s3.2 = insert_all (entries s1.2) (chunk_items key vs)) as (Hs3 & Hc3 & He3).
  { destruct (chunk_items key vs) as [|item items]; [by injection Hup as <-|].
    unfold on_world, zoom in Hup. destruct s1 as [c1 w1]. cbn in Hup.
    destruct (law_vi_upsert_many (entries:=entries) (frame:=contents) (item :: items) w1)
      as (r' & w2 & Hr & Hf & He). rewrite Hr in Hup. injection Hup as -> <-. cbn. auto. }
  apply bind_inv_ok in Hrun as (counts & s4 & Hcs & Hrun). injection Hcs as <- <-.
  injection Hrun as <- <-. cbn. split; [congruence|]. exists (<[key := vs]> mi).
  pose proof (chunks_fit r chunks Hch) as Hfit. rewrite Hlen in Hfit. split.
  { by eapply MirrorIngest. }
  split_and!.
  - cbn. rewrite He3. eapply (represents_ingest (entries s.2) _ mi); [done..|].
    intros x. rewrite He2, He1, Hlen, (Hcounts key). done.
  - intros p. cbn. rewrite Hs3, Hs1. destruct (decide (p = key)) as [->|Hne].
    + by rewrite !lookup_insert_eq, Hlen.
    + by rewrite !lookup_insert_ne.
  - intros p vs' [[<- <-]|[_ Hp]]%lookup_insert_Some; [done|by eapply Hcount].
Qed.

Lemma remove_refines key s s' mi :
  Knowledge.remove ix key s = (Ok tt, s') → mirrored s mi →
  contents s'.2 = contents s.2 ∧ mirrored s' (delete key mi).
Proof.
  intros Hrun (Hm & Hcounts & Hcount). unfold Knowledge.remove in Hrun.
  apply bind_inv_ok in Hrun as (counts & s1 & Hcs & Hrun). injection Hcs as <- <-.
  apply bind_inv_ok in Hrun as ([] & s1 & Hrem & Hrun).
  apply removes_spec in Hrem as (Hs1 & Hc2 & He2).
  apply bind_inv_ok in Hrun as (counts & s4 & Hcs & Hrun). injection Hcs as <- <-.
  injection Hrun as <-. cbn. split; [done|]. split_and!.
  - eapply (represents_remove (entries s.2)); [done..|]. intros x. cbn. by rewrite He2, (Hcounts key).
  - intros p. cbn. rewrite Hs1. destruct (decide (p = key)) as [->|Hne].
    + by rewrite !lookup_delete_eq.
    + by rewrite !lookup_delete_ne.
  - intros p vs' [_ Hp]%lookup_delete_Some. by eapply Hcount.
Qed.

Lemma open_refines w counts w' mi :
  knowledge_open ix w = (Ok counts, w') → represents (entries w) mi → countable mi →
  contents w' = contents w ∧ mirrored (counts, w') mi.
Proof.
  intros Hrun Hm Hcount. unfold knowledge_open in Hrun.
  destruct (law_vi_keys (entries:=entries) (frame:=contents) KeyPrefix_default w)
    as (r & w1 & Hr & Hf & He & Hks).
  apply bind_inv_ok in Hrun as (ks & w2 & Hkeys & Hrun). rewrite Hr in Hkeys.
  injection Hkeys as -> <-. injection Hrun as <- <-. specialize (Hks ks eq_refl).
  split; [done|]. split; [cbn; by rewrite He|]. split; [|done]. cbn.
  assert (∀ k, k ∈ ks ↔ ∃ p i vs, mi !! p = Some vs ∧ i < length vs ∧ k = chunk_key p (N.of_nat i)) as Hin.
  { intros k. rewrite Hks. split.
    - intros [[v (p & i & vs & Hp & Hv & ->)%Hm] _]. exists p, i, vs. split_and!; [done| |done].
      by eapply lookup_lt_Some.
    - intros (p & i & vs & Hp & Hi & ->). split; [|done].
      destruct (lookup_lt_is_Some_2 vs i Hi) as [v Hv]. exists v. apply Hm. by exists p, i, vs. }
  intros p. assert (∀ n, (n < default 0 (foldl count_chunk ∅ ks !! p))%N ↔
    (n < N.of_nat (length (default [] (mi !! p))))%N) as Hlt.
  { intros n. rewrite counts_of_keys.
    2: { intros k (q & i & vs & Hq & Hi & ->)%Hin. specialize (Hcount q vs Hq).
         exists q, (N.of_nat i). split; [done|lia]. }
    split.
    - intros (j & (q & i & vs & Hq & Hi & Heq)%Hin & Hj & Hn). specialize (Hcount q vs Hq) as Hcq.
      apply chunk_key_inj in Heq as [-> ->]; [|lia..]. rewrite Hq. cbn. lia.
    - intros Hn. destruct (mi !! p) as [vs|] eqn:Hp; cbn in Hn; [|lia].
      specialize (Hcount p vs Hp) as Hcp. exists n. split; [|lia]. apply Hin.
      exists p, (N.to_nat n), vs. split_and!; [done|lia|]. by rewrite N2Nat.id. }
  revert Hlt. generalize (default 0%N (foldl count_chunk ∅ ks !! p)). intros a Hlt.
  pose proof (Hlt a). pose proof (Hlt (N.of_nat (length (default [] (mi !! p))))). lia.
Qed.

(** C21: a knowledge store's index mirrors the records it ingested.  From a handle
    whose index holds exactly the vectors of its records' chunks and whose counts say
    so, a successful call leaves such a handle: ingesting a record makes its chunks,
    as it is now in the store, all that is indexed for it, however many were there
    before; removing one leaves none; a record that is absent or of a kind that is
    not indexed changes nothing; and a new handle on the index recovers the counts.
    No other record's chunks change, and no record. *)
Theorem knowledge_mirrors_records (op : KnowledgeOp) (s s' : chunk_counts * W) (b : bool) (mi : mirror) :
  run_knowledge op s = (Ok b, s') → mirrored s mi →
  contents s'.2 = contents s.2 ∧
  ∃ mi', mirror_step (contents s.2) op b mi mi' ∧ mirrored s' mi'.
Proof.
  destruct op as [key|key|]; cbn [run_knowledge]; intros Hrun Hs.
  - by apply (ingest_refines key).
  - apply bind_inv_ok in Hrun as ([] & s1 & Hrem & Hrun). injection Hrun as <- <-.
    destruct (remove_refines key s s1 mi Hrem Hs) as [Hc Hm]. split; [done|].
    exists (delete key mi). by split; [constructor|].
  - apply bind_inv_ok in Hrun as (counts & s1 & Hopen & Hrun).
    apply bind_inv_ok in Hrun as ([] & s2 & Hset & Hrun). injection Hrun as <- <-.
    injection Hset as <-. destruct s as [c w]. unfold zoom in Hopen. cbn in Hopen.
    destruct (knowledge_open ix w) as [r w1] eqn:Ho. injection Hopen as -> <-.
    destruct Hs as (Hm & _ & Hcount). cbn in Hm.
    destruct (open_refines w counts w1 mi Ho Hm Hcount) as [Hc Hmi]. cbn. split; [done|].
    exists mi. by split; [constructor|].
Qed.
End refine.
