(* ===== verification/KnowledgeQuery.v ===== *)
(** * KnowledgeQuery: a query ranks records by their best chunk

    Over an exact index in step with the records, [query] returns the records whose
    best chunk scores highest; and a concrete store, whose failed batch leaves chunks
    it does not count. *)

From Stdlib Require Import SpecFloat.
From S2P Require Export KnowledgeSpec.
From S2P Require Import SampleStores.

#[export] Instance spec_float_eq_dec : EqDecision spec_float.
Proof. solve_decision. Defined.
#[export] Instance Match_eq_dec : EqDecision Match.
Proof. solve_decision. Defined.

(** ** Best scores *)

Lemma f32_max_spec a b : is_finite a = true → is_finite b = true →
  is_finite (f32_max a b) = true ∧ (f32_max a b = a ∨ f32_max a b = b) ∧
  (total_key a ≤ total_key (f32_max a b))%Z ∧ (total_key b ≤ total_key (f32_max a b))%Z.
Proof.
  intros Ha Hb. assert (f32_max a b = if decide (total_key a < total_key b)%Z then b else a) as ->
    by (destruct a, b; done).
  case_decide; split_and!; try done; (by left) || (by right) || lia.
Qed.

Definition parent_of (m : Match) : RecordKey := (parent_key (m_key m)).1.

Lemma best_scores ms : Forall (λ m, is_finite (m_score m) = true) ms → ∀ p,
  match foldl best_score ∅ ms !! p with
  | Some s => is_finite s = true ∧ (∃ m, m ∈ ms ∧ parent_of m = p ∧ m_score m = s) ∧
      ∀ m, m ∈ ms → parent_of m = p → (total_key (m_score m) ≤ total_key s)%Z
  | None => ∀ m, m ∈ ms → parent_of m ≠ p
  end.
Proof.
  induction ms as [|m ms IH] using rev_ind; intros Hms p.
  { cbn. rewrite lookup_empty. by intros m ?%elem_of_nil. }
  apply Forall_app in Hms as [Hms Hm]. apply Forall_cons in Hm as [Hm _]. specialize (IH Hms).
  rewrite foldl_app. cbn [foldl]. unfold best_score at 1. fold (parent_of m).
  assert (∀ m', m' ∈ ms ++ [m] ↔ m' ∈ ms ∨ m' = m) as Hin'
    by (intros m'; by rewrite elem_of_app, list_elem_of_singleton).
  destruct (decide (parent_of m = p)) as [<-|Hne].
  - rewrite lookup_insert_eq. specialize (IH (parent_of m)).
    destruct (foldl best_score ∅ ms !! parent_of m) as [s|].
    + destruct IH as (Hs & (m0 & Hin & Hp & Heq) & Hmax).
      destruct (f32_max_spec s (m_score m) Hs Hm) as (Hf & Hor & Hl & Hr). split_and!; [done| |].
      * destruct Hor as [->| ->]; [exists m0|exists m]; rewrite Hin'; auto.
      * intros m' [Hm'| ->]%Hin' Hp'; [|done]. specialize (Hmax m' Hm' Hp'). lia.
    + split_and!; [done| |].
      * exists m. rewrite Hin'. auto.
      * intros m' [Hm'| ->]%Hin' Hp'; [|done]. by destruct (IH m' Hm').
  - rewrite lookup_insert_ne by done. specialize (IH p).
    destruct (foldl best_score ∅ ms !! p) as [s|].
    + destruct IH as (Hs & (m0 & Hin & Hp & Heq) & Hmax). split_and!; [done| |].
      * exists m0. rewrite Hin'. auto.
      * intros m' [Hm'| ->]%Hin'; [by apply Hmax|done].
    + intros m' [Hm'| ->]%Hin'; [by apply IH|done].
Qed.

Lemma elem_of_rank_parents ms x :
  x ∈ rank_parents ms ↔ foldl best_score ∅ ms !! m_key x = Some (m_score x).
Proof.
  unfold rank_parents. rewrite merge_sort_Permutation, list_elem_of_fmap. split.
  - by intros ([p s] & -> & Hin%elem_of_btree_items).
  - destruct x as [p s]. intros Hs. exists (p, s). by rewrite elem_of_btree_items.
Qed.

Lemma rank_parents_keys ms :
  m_key <$> rank_parents ms ≡ₚ btree_keys (foldl best_score ∅ ms).
Proof.
  unfold rank_parents. rewrite merge_sort_Permutation, <-list_fmap_compose.
  by rewrite <-fst_btree_items.
Qed.

(** ** Counting parents *)

Lemma length_by_parent {A} `{EqDecision B} (f : A → B) c (l : list A) (ps : list B) :
  (∀ x, x ∈ l → f x ∈ ps) → (∀ p, length (filter (λ x, f x = p) l) ≤ c) →
  length l ≤ c * length ps.
Proof.
  revert l. induction ps as [|p ps IH]; intros l Hl Hc.
  - destruct l as [|x l]; [cbn; lia|]. specialize (Hl x ltac:(left)). by apply elem_of_nil in Hl.
  - rewrite <-(filter_app_complement (λ x, f x = p) l), length_app. cbn [length].
    specialize (IH (filter (λ x, f x ≠ p) l)). rewrite Nat.mul_succ_r.
    specialize (Hc p) as Hp. assert (length (filter (λ x, f x ≠ p) l) ≤ c * length ps); [|lia].
    apply IH.
    + intros x [Hne Hx]%list_elem_of_filter. by apply Hl, elem_of_cons in Hx as [|].
    + intros q. etrans; [|apply (Hc q)]. rewrite list_filter_filter.
      rewrite (list_filter_iff _ (λ x, f x ≠ p ∧ f x = q)) by tauto.
      rewrite <-list_filter_filter. apply length_filter.
Qed.

(** ** Queries *)

Section query.
Context `{Blake3} `{SerdeJson} `{!RecordCodec memory_tier, !RecordCodec topic, !RecordCodec session,
  !RecordCodec ticket, !RecordCodec ticket_event} {W : Type}.
Context (store : Store W) (ix : VectorIndex W) (embed : string → W → Result vector).
Context (contents : W → records) (entries : W → index) (cap : nat).
Context `{!StoreLaws store contents cap entries, !VectorIndexLaws ix entries contents,
  !ExactIndex ix entries}.

(** A record's score: that of its best chunk. *)
Definition best_of (q : vector) (vs : list vector) (s : spec_float) : Prop :=
  (∃ v, v ∈ vs ∧ s = cosine q v) ∧ ∀ v, v ∈ vs → (total_key (cosine q v) ≤ total_key s)%Z.

(** The records a filtered query can find. *)
Definition searched (filt : KeyPrefix) (mi : mirror) : gset RecordKey :=
  dom (filter (λ p, p.2 ≠ [] ∧ prefix_matches filt p.1 = true) mi).

Lemma elem_of_searched filt mi p :
  p ∈ searched filt mi ↔ ∃ vs, mi !! p = Some vs ∧ vs ≠ [] ∧ prefix_matches filt p = true.
Proof.
  unfold searched. rewrite elem_of_dom. split.
  - intros [vs [Hp [Hne Hf]]%map_lookup_filter_Some]. by exists vs.
  - intros (vs & Hp & Hne & Hf). exists vs. by apply map_lookup_filter_Some.
Qed.

Context (q : vector) (filt : KeyPrefix) (m : index) (mi : mirror).
Hypothesis (Hm : represents m mi) (Hc : countable mi).

Lemma prefix_matches_chunk p i : prefix_matches filt (chunk_key p i) = prefix_matches filt p.
Proof. done. Qed.

Lemma elem_of_chunk_ranking x : x ∈ ranking q filt m ↔
  ∃ p i vs v, mi !! p = Some vs ∧ vs !! i = Some v ∧ prefix_matches filt p = true ∧
    x = mkMatch (chunk_key p (N.of_nat i)) (cosine q v).
Proof.
  rewrite elem_of_ranking. split.
  - intros (v & (p & i & vs & Hp & Hv & Hk)%Hm & Hf & Hs). exists p, i, vs, v.
    rewrite Hk, prefix_matches_chunk in Hf. split_and!; [done..|]. destruct x. cbn in *. by subst.
  - intros (p & i & vs & v & Hp & Hv & Hf & ->). exists v. cbn. split_and!; [|done..].
    apply Hm. by exists p, i, vs.
Qed.

Lemma chunk_parent p i vs v : mi !! p = Some vs → vs !! i = Some v →
  parent_of (mkMatch (chunk_key p (N.of_nat i)) (cosine q v)) = p.
Proof.
  intros Hp Hv. specialize (Hc p vs Hp). apply lookup_lt_Some in Hv.
  unfold parent_of. cbn [m_key]. rewrite parent_chunk_key by lia. done.
Qed.

Lemma ranking_finite n : Forall (λ x, is_finite (m_score x) = true) (take n (ranking q filt m)).
Proof.
  apply Forall_forall. intros x Hx. apply (subseteq_take n), elem_of_chunk_ranking in Hx.
  destruct Hx as (p & i & vs & v & _ & _ & _ & ->). apply cosine_finite.
Qed.

(** Nothing beyond the window scores above anything in it. *)
Lemma window_above n x y : x ∈ take n (ranking q filt m) → y ∈ ranking q filt m →
  y ∉ take n (ranking q filt m) → (total_key (m_score y) ≤ total_key (m_score x))%Z.
Proof.
  intros Hx Hy Hout. rewrite <-(take_drop n (ranking q filt m)) in Hy.
  apply elem_of_app in Hy as [|Hy]; [done|].
  pose proof (StronglySorted_take_drop _ n (ranking q filt m) x y (by_score_sorted _) Hx Hy) as Hle.
  apply ole_by_score in Hle. destruct Hle as [?|[? _]]; lia.
Qed.

Notation window n := (take n (ranking q filt m)).

Lemma elem_of_window n x : x ∈ window n → ∃ vs v, mi !! parent_of x = Some vs ∧ v ∈ vs ∧
  prefix_matches filt (parent_of x) = true ∧ m_score x = cosine q v.
Proof.
  intros Hx. apply (subseteq_take n), elem_of_chunk_ranking in Hx.
  destruct Hx as (p & i & vs & v & Hp & Hv & Hf & ->). exists vs, v.
  rewrite (chunk_parent p i vs v) by done. split_and!; try done. by eapply list_elem_of_lookup_2.
Qed.

Lemma ranked_score n x : x ∈ rank_parents (window n) → ∃ vs,
  mi !! m_key x = Some vs ∧ prefix_matches filt (m_key x) = true ∧ best_of q vs (m_score x).
Proof.
  intros Hx%elem_of_rank_parents. pose proof (best_scores _ (ranking_finite n) (m_key x)) as Hb.
  rewrite Hx in Hb. destruct Hb as (_ & (y & Hy & Hp & Hs) & Hmax).
  destruct (elem_of_window n y Hy) as (vs & v & Hvs & Hv & Hf & Hsv). rewrite Hp in Hvs, Hf.
  exists vs. split_and!; [done..|]. split; [exists v; by rewrite <-Hs|].
  intros v' [i Hi]%list_elem_of_lookup.
  set (z := mkMatch (chunk_key (m_key x) (N.of_nat i)) (cosine q v')).
  change (cosine q v') with (m_score z). assert (parent_of z = m_key x) as Hpz by (by eapply chunk_parent).
  destruct (decide (z ∈ window n)) as [Hz|Hz]; [by apply Hmax|].
  rewrite <-Hs. apply (window_above n y z); [done| |done].
  apply elem_of_chunk_ranking. by exists (m_key x), i, vs, v'.
Qed.

Lemma ranked_complete n k p vs s x :
  mi !! p = Some vs → prefix_matches filt p = true → best_of q vs s →
  p ∉ m_key <$> take k (rank_parents (window n)) → x ∈ take k (rank_parents (window n)) →
  (total_key s ≤ total_key (m_score x))%Z.
Proof.
  intros Hp Hf [(v & [i Hi]%list_elem_of_lookup & ->) _] Hout Hx.
  set (z := mkMatch (chunk_key p (N.of_nat i)) (cosine q v)).
  change (cosine q v) with (m_score z). assert (parent_of z = p) as Hpz by (by eapply chunk_parent).
  assert (z ∈ ranking q filt m) as Hz by (apply elem_of_chunk_ranking; by exists p, i, vs, v).
  pose proof (best_scores _ (ranking_finite n)) as Hb.
  pose proof (Hb p) as Hbp. destruct (foldl best_score ∅ (window n) !! p) as [sp|] eqn:Hsp.
  - assert (mkMatch p sp ∈ rank_parents (window n)) as Hin by (by apply elem_of_rank_parents).
    rewrite <-(take_drop k (rank_parents (window n))) in Hin. apply elem_of_app in Hin as [Hin|Hin].
    { destruct Hout. by apply (list_elem_of_fmap_2 m_key) in Hin. }
    pose proof (StronglySorted_take_drop _ k (rank_parents (window n)) x (mkMatch p sp)
      (by_score_sorted _) Hx Hin) as Hle. apply ole_by_score in Hle. cbn [m_score] in Hle.
    assert (total_key (m_score z) ≤ total_key sp)%Z; [|destruct Hle as [?|[? _]]; lia].
    destruct Hbp as (_ & (y & Hy & _ & Hys) & Hmax).
    destruct (decide (z ∈ window n)) as [Hzw|Hzw]; [by apply Hmax|].
    rewrite <-Hys. by apply (window_above n).
  - apply (subseteq_take k), elem_of_rank_parents in Hx. pose proof (Hb (m_key x)) as Hbx.
    rewrite Hx in Hbx. destruct Hbx as (_ & (y & Hy & _ & <-) & _).
    apply (window_above n); [done..|]. intros Hzw. by apply (Hbp z Hzw).
Qed.

Lemma NoDup_ranked n : NoDup (m_key <$> rank_parents (window n)).
Proof. rewrite rank_parents_keys. apply increasing_NoDup, btree_keys_increasing. Qed.

Lemma elem_of_ranked n p : p ∈ m_key <$> rank_parents (window n) ↔ ∃ x, x ∈ window n ∧ parent_of x = p.
Proof.
  rewrite rank_parents_keys, elem_of_btree_keys.
  pose proof (best_scores _ (ranking_finite n) p) as Hb.
  destruct (foldl best_score ∅ (window n) !! p) as [s|].
  - destruct Hb as (_ & (y & Hy & Hp & _) & _). split; [by exists y|by eexists].
  - split; [by intros [? ?]|]. intros (x & Hx & Hp). by destruct (Hb x Hx).
Qed.

Lemma per_parent n p : (∀ vs, mi !! p = Some vs → length vs ≤ 8) →
  length (filter (λ x, parent_of x = p) (window n)) ≤ 8.
Proof.
  intros Hp. rewrite <-(length_fmap m_key).
  trans (length ((λ i, chunk_key p (N.of_nat i)) <$> seq 0 8)); [|done].
  apply submseteq_length, NoDup_submseteq.
  - pose proof (NoDup_ranking q filt m) as Hnd.
    rewrite <-(take_drop n (ranking q filt m)), fmap_app in Hnd. apply NoDup_app in Hnd as [Hnd _].
    rewrite <-(filter_app_complement (λ x, parent_of x = p) (window n)), fmap_app in Hnd.
    by apply NoDup_app in Hnd as [? _].
  - intros k (x & -> & [Hx Hin]%list_elem_of_filter)%list_elem_of_fmap.
    apply (subseteq_take n), elem_of_chunk_ranking in Hin as (p' & i & vs & v & Hp' & Hv & _ & ->).
    rewrite (chunk_parent p' i vs v) in Hx by done. subst p'. apply list_elem_of_fmap.
    exists i. split; [done|]. apply elem_of_seq. apply lookup_lt_Some in Hv. specialize (Hp vs Hp'). lia.
Qed.

(** With no more chunks to a record than are fetched for it, as many records as asked
    for, or all there are. *)
Lemma ranked_length k : (∀ p vs, mi !! p = Some vs → length vs ≤ 8) →
  length (take k (rank_parents (window (8 * k)))) = k `min` size (searched filt mi).
Proof.
  intros Hchunks. rewrite length_take. set (ranked := rank_parents (window (8 * k))).
  assert (length ranked = size (list_to_set (m_key <$> ranked) : gset RecordKey)) as Hsize
    by (by rewrite size_list_to_set, length_fmap by apply NoDup_ranked).
  assert ((list_to_set (m_key <$> ranked) : gset RecordKey) ⊆ searched filt mi) as Hsub.
  { intros p [x [Hx Hp]]%elem_of_list_to_set%elem_of_ranked. apply elem_of_searched.
    destruct (elem_of_window _ x Hx) as (vs & v & Hvs & Hv & Hf & _). rewrite Hp in Hvs, Hf.
    exists vs. split_and!; [done| |done]. intros ->. by apply elem_of_nil in Hv. }
  pose proof (subseteq_size _ _ Hsub) as Hle. rewrite <-Hsize in Hle.
  destruct (decide (length (ranking q filt m) ≤ 8 * k)) as [Hall|Hmore].
  - assert (searched filt mi ⊆ list_to_set (m_key <$> ranked)) as Hsup; [|apply subseteq_size in Hsup; lia].
    intros p (vs & Hp & Hne & Hf)%elem_of_searched. apply elem_of_list_to_set, elem_of_ranked.
    destruct vs as [|v vs]; [done|]. exists (mkMatch (chunk_key p (N.of_nat 0)) (cosine q v)).
    split; [|by eapply (chunk_parent p 0)]. rewrite firstn_all2 by done.
    apply elem_of_chunk_ranking. by exists p, 0, (v :: vs), v.
  - assert (length (window (8 * k)) ≤ 8 * length (m_key <$> ranked)) as Hcover.
    { apply (length_by_parent parent_of); [intros x Hx; apply elem_of_ranked; by exists x|].
      intros p. apply per_parent, Hchunks. }
    rewrite length_take, length_fmap in Hcover. lia.
Qed.
End query.

Section results.
Context `{Blake3} `{SerdeJson} `{!RecordCodec memory_tier, !RecordCodec topic, !RecordCodec session,
  !RecordCodec ticket, !RecordCodec ticket_event} {W : Type}.
Context (store : Store W) (ix : VectorIndex W) (embed : string → W → Result vector).
Context (contents : W → records) (entries : W → index) (cap : nat).
Context `{!StoreLaws store contents cap entries, !VectorIndexLaws ix entries contents,
  !ExactIndex ix entries}.

(** The hit of a ranked key, if its record is there. *)
Definition hit_of (rs : records) (x : Match) : option Hit :=
  r ← live (rs !! m_key x); Some (mkHit r (m_score x)).

Lemma resolve_spec ranked w : ∃ w', resolve store ranked w = (Ok (omap (hit_of (contents w)) ranked), w') ∧
  contents w' = contents w.
Proof.
  unfold resolve. assert (∀ acc w, ∃ w', foldM (λ hits m, o ← st_get store (m_key m);
      mret (hits ++ match o with Some r => [mkHit r (m_score m)] | None => [] end)) acc ranked w =
    (Ok (acc ++ omap (hit_of (contents w)) ranked), w') ∧ contents w' = contents w) as Hgo.
  { induction ranked as [|x ranked IH]; intros acc w0.
    - exists w0. cbn. by rewrite app_nil_r.
    - destruct (law_get (StoreLaws:=_) (m_key x) w0) as (w1 & Hg & Hc & _).
      destruct (IH (acc ++ match live (contents w0 !! m_key x) with
        Some r => [mkHit r (m_score x)] | None => [] end) w1) as (w2 & Hr & Hc2).
      exists w2. rewrite Hc in Hr, Hc2. split; [|done].
      rewrite foldM_cons. erewrite bind_ok by exact Hg. etrans; [exact Hr|]. f_equal. f_equal.
      cbn [omap list_omap]. unfold hit_of at 2.
      destruct (live (contents w0 !! m_key x)); cbn; by rewrite <-app_assoc. }
  apply (Hgo [] w).
Qed.

(** C22: a query ranks records by their best chunk.  Over an exact index that mirrors
    the records ingested, [query] resolves a ranking of the records its filter
    matches: each once, no more than [k], by descending score, the score of each
    that of its best chunk against the query; nothing left out scores above anything
    in it; and when no record has more chunks than are fetched for each, it has [k]
    records, or all there are.  Every hit is the record as it is in the store now. *)
Theorem query_ranks_records (text : string) (k : N) (filt : KeyPrefix) (w w' : W)
    (hits : list Hit) (mi : mirror) :
  represents (entries w) mi → countable mi → k ≠ 0%N →
  query store ix embed text k filt w = (Ok hits, w') →
  contents w' = contents w ∧ ∃ q ranked, embed text w = Ok q ∧
    hits = omap (hit_of (contents w)) ranked ∧
    NoDup (m_key <$> ranked) ∧ length ranked ≤ N.to_nat k ∧ StronglySorted (@ole _ by_score) ranked ∧
    (∀ x, x ∈ ranked → ∃ vs, mi !! m_key x = Some vs ∧ prefix_matches filt (m_key x) = true ∧
      best_of q vs (m_score x)) ∧
    (∀ p vs s x, mi !! p = Some vs → prefix_matches filt p = true → best_of q vs s →
      p ∉ m_key <$> ranked → x ∈ ranked → (total_key s ≤ total_key (m_score x))%Z) ∧
    ((k * OVERFETCH ≤ u64_max)%N → (∀ p vs, mi !! p = Some vs → length vs ≤ N.to_nat OVERFETCH) →
      length ranked = N.to_nat k `min` size (searched filt mi)).
Proof.
  intros Hm Hc Hk Hrun. unfold query in Hrun. rewrite decide_False in Hrun by done.
  apply bind_inv_ok in Hrun as (q & w1 & Hq & Hrun). injection Hq as Hq <-.
  apply bind_inv_ok in Hrun as (ms & w1 & Hms & Hrun).
  pose proof (law_exact (ExactIndex:=_) q (saturating_mul k OVERFETCH) filt w ms) as Hexact.
  rewrite Hms in Hexact. specialize (Hexact eq_refl).
  destruct (law_vi_query (VectorIndexLaws:=_) q (saturating_mul k OVERFETCH) filt w) as (r & w2 & Hr & Hf & _).
  rewrite Hms in Hr. injection Hr as <- <-.
  set (ranked := take (N.to_nat k) (rank_parents ms)) in *.
  destruct (resolve_spec ranked w1) as (w2 & Hres & Hc2). rewrite Hres in Hrun. injection Hrun as <- <-.
  rewrite Hf in Hc2 |- *. split; [done|]. exists q, ranked. subst ms.
  split; [done|]. split; [done|]. split_and!.
  - unfold ranked. rewrite fmap_take. eapply sublist_NoDup; [by eapply NoDup_ranked|].
    apply sublist_take.
  - unfold ranked. rewrite length_take. lia.
  - apply StronglySorted_take, by_score_sorted.
  - intros x Hx%(subseteq_take (N.to_nat k)). by eapply ranked_score.
  - intros p vs s x. by eapply ranked_complete.
  - intros Hfit Hchunks. unfold ranked.
    assert (N.to_nat (saturating_mul k OVERFETCH) = 8 * N.to_nat k) as ->
      by (unfold saturating_mul, OVERFETCH in *; lia).
    by apply ranked_length.
Qed.
End results.

(** ** A concrete store *)

Section samples.
#[local] Existing Instance sample_hash.
#[local] Existing Instance ToyJson.toy.
#[local] Existing Instance sample_hash_order.

#[local] Instance sample_tier_codec : RecordCodec memory_tier := {
  codec_to_vec t := Ok (bytes_of_string (mt_name t));
  codec_from_slice b := Ok (mkMemoryTier (string_of_bytes b) "")
}.
(** A topic's slug stands for its JSON; it has two bullets. *)
#[local] Instance sample_topic_codec : RecordCodec topic := {
  codec_to_vec t := Ok (bytes_of_string (tp_slug t));
  codec_from_slice b := Ok (mkTopic (string_of_bytes b) ["one"; "two"])
}.
#[local] Instance sample_session_codec : RecordCodec session := {
  codec_to_vec s := Ok (bytes_of_string (ss_name s));
  codec_from_slice b := Ok (mkSession (string_of_bytes b) [])
}.
#[local] Instance no_ticket_codec : RecordCodec ticket := {
  codec_to_vec _ := Err "not used"; codec_from_slice _ := Err "not used"
}.
#[local] Instance no_event_codec : RecordCodec ticket_event := {
  codec_to_vec _ := Err "not used"; codec_from_slice _ := Err "not used"
}.

Lemma sample_chunks_fit r cs : chunk r = Ok (Some cs) → (N.of_nat (length cs) ≤ u64_max)%N.
Proof.
  assert (length cs ≤ 2 → (N.of_nat (length cs) ≤ u64_max)%N) as Hsmall by (unfold u64_max; lia).
  intros Hc. apply Hsmall. revert Hc. unfold chunk, from_body.
  destruct (rec_kind r), (rec_body r); try done; cbn; intros [= <-]; cbn; lia.
Qed.

Definition sample_w : Type := records * index.
Definition sample_k_store : Store sample_w := mem_store sample_wall (mkMemStore lens_fst 3 None).
Definition sample_k_index : VectorIndex sample_w := memory_index lens_snd.

#[local] Instance sample_k_store_laws : StoreLaws sample_k_store fst 3 snd.
Proof. exact (MemStore_laws sample_wall (mkMemStore lens_fst 3 None) snd). Qed.
#[local] Instance sample_k_index_laws : VectorIndexLaws sample_k_index snd fst.
Proof. exact (memory_index_laws lens_snd fst). Qed.
#[local] Instance sample_k_index_exact : ExactIndex sample_k_index snd.
Proof. exact (memory_index_exact lens_snd). Qed.

Definition sample_embed (text : string) (_ : sample_w) : Result vector := Ok (sample_floats 2).
(** An embedder of uneven dimensions. *)
Definition uneven_embed (text : string) (_ : sample_w) : Result vector :=
  Ok (if decide (text = "two") then sample_floats 1 else sample_floats 2).

Definition sample_topic : record := sample_record sample_key 1 "rust" [].
Definition sample_k_world : sample_w := ({[ sample_key := sample_topic ]}, ∅).

Lemma mirrored_empty c : mirrored (W:=sample_w) snd (∅, (c, ∅)) ∅.
Proof.
  split_and!.
  - intros k v. cbn. rewrite lookup_empty. split; [done|]. by intros (p & i & vs & Hp & _).
  - intros p. cbn. by rewrite !lookup_empty.
  - intros p vs. by rewrite lookup_empty.
Qed.

Lemma knowledge_mirrors_records_witness : ∃ s' mi',
  run_knowledge sample_k_store sample_k_index sample_embed (Ingest sample_key) (∅, sample_k_world) =
    (Ok true, s') ∧
  mirror_step sample_embed {[ sample_key := sample_topic ]} (Ingest sample_key) true ∅ mi' ∧
  mirrored snd s' mi'.
Proof.
  destruct (run_knowledge sample_k_store sample_k_index sample_embed (Ingest sample_key)
    (∅, sample_k_world)) as [r s'] eqn:Hrun.
  assert (r = Ok true) as -> by (apply (f_equal fst) in Hrun; revert Hrun; vm_compute; congruence).
  destruct (knowledge_mirrors_records sample_k_store sample_k_index sample_embed fst snd 3
    sample_chunks_fit (Ingest sample_key) (∅, sample_k_world) s' true ∅ Hrun (mirrored_empty _))
    as (_ & mi' & Hstep & Hm).
  exists s', mi'. exact (conj eq_refl (conj Hstep Hm)).
Defined.

Definition sample_ingested : result CoreError bool * (chunk_counts * sample_w) :=
  ingest sample_k_store sample_k_index sample_embed sample_key (∅, sample_k_world).
Definition sample_query (w : sample_w) : result CoreError (list Hit) * sample_w :=
  query sample_k_store sample_k_index sample_embed "q" 1 KeyPrefix_default w.

Lemma query_ranks_records_witness : ∃ hits w', length hits = 1 ∧
  fst w' = fst sample_ingested.2.2 ∧ sample_query sample_ingested.2.2 = (Ok hits, w').
Proof.
  assert (∃ hits, (sample_query sample_ingested.2.2).1 = Ok hits ∧ length hits = 1)
    as (hits & Hhits & Hlen) by (vm_compute; by eexists).
  assert (sample_ingested.1 = Ok true) as Hok by (vm_compute; reflexivity).
  revert Hhits Hok. destruct sample_ingested as [r s] eqn:Hrun. cbn [fst snd]. intros Hhits ->.
  destruct (ingest_refines sample_k_store sample_k_index sample_embed fst snd 3 sample_chunks_fit
    sample_key (∅, sample_k_world) true s ∅ Hrun (mirrored_empty _)) as (_ & mi & _ & Hm & _ & Hc).
  revert Hhits. destruct (sample_query s.2) as [q w'] eqn:Hq. cbn [fst]. intros ->.
  exists hits, w'. split; [done|]. split; [|reflexivity].
  exact (proj1 (query_ranks_records sample_k_store sample_k_index sample_embed fst snd 3 "q" 1
    KeyPrefix_default s.2 w' hits mi Hm Hc ltac:(discriminate) Hq)).
Defined.

(** A batch that fails leaves chunks the store does not count.  When the index
    refuses the second of a record's two chunks, for its dimension, the first stays
    indexed though [ingest] reports the failure; the handle has no count for the
    record, so removing it succeeds and removes nothing. *)
Theorem failed_batch_is_uncounted :
  let run := ingest sample_k_store sample_k_index uneven_embed sample_key (∅, sample_k_world) in
  let removed := Knowledge.remove sample_k_index sample_key run.2 in
  is_ok run.1 = false ∧ removed.1 = Ok tt ∧
  snd removed.2.2 !! chunk_key sample_key 0 = Some (sample_floats 2).
Proof. vm_compute. done. Qed.
End samples.
