(* ===== verification/Cli.v ===== *)
(** * Cli: the administrator's commands

    Models the commands of [gonzalo-cli]'s [lib.rs] other than indexing (for that see
    [Indexing]): listing, migrating files in, deleting, restoring, purging,
    resetting, collecting, sweeping, the durations an operator types, finding the
    parse worker, and the debouncer of [--watch].  The file store is any [Store];
    [std::fs] and the environment are arguments. *)

From S2P Require Export Knowledge Maintenance Undelete Gc Sync.
#[local] Open Scope Z_scope.
#[local] Open Scope nat_scope.

(** ** Durations *)

(** A Rust string's [{:?}]. *)
Class DebugString := debug : string → string.

Fixpoint span_digits (s : string) : string * string :=
  match s with
  | String a s' =>
      match digit_value a with
      | Some _ => let '(x, y) := span_digits s' in (String a x, y)
      | None => ("", s)
      end
  | "" => ("", "")
  end.

Definition unit_seconds (unit : string) : option N :=
  if decide (unit = "d") then Some 86400%N
  else if decide (unit = "h") then Some 3600%N
  else if decide (unit = "m") then Some 60%N
  else if decide (unit = "s") then Some 1%N
  else None.

Definition checked_mul (a b : N) : option N :=
  if decide (a * b ≤ u64_max)%N then Some (a * b)%N else None.

Section durations.
Context `{DebugString}.

Definition parse_duration (raw : string) : result string Duration :=
  let s := trim raw in
  let '(digits, unit) := span_digits s in
  if decide (unit = "") then Err (debug raw +:+ ": missing unit (use d, h, m or s, e.g. 30d)")
  else if decide (digits = "") then
    Err (debug raw +:+ ": expected a number before the unit, e.g. 30d")
  else
    per_unit ← ok_or (debug raw +:+ ": unknown unit " +:+ debug unit +:+ " (use d, h, m or s)")
      (unit_seconds unit);
    n ← ok_or (debug raw +:+ ": duration is too large") (parse_digits 0 digits);
    if decide (n = 0%N) then Err (debug raw +:+ ": horizon must be greater than zero")
    else
      secs ← ok_or (debug raw +:+ ": duration is too large") (checked_mul n per_unit);
      Ok (from_secs secs).

Record Horizon := mkHorizon { hz_raw : string; hz_duration : Duration }.

Definition parse_horizon (raw : string) : result string Horizon :=
  d ← parse_duration raw; Ok (mkHorizon (trim raw) d).
End durations.

(** ** Errors and exit codes *)

(** What [anyhow] carries: an error of the core, or a message. *)
Inductive CliError := CoreFailure (e : CoreError) | Bail (message : string).

Abbreviation cli W := (M W CliError).

Definition core {W A} (m : M W CoreError A) : cli W A := λ w,
  let '(r, w') := m w in (map_err CoreFailure r, w').

Definition CLI_AUTHOR : string := "gonzalo-cli".
Definition EXIT_CONFLICT : N := 3.

Definition reset_exit_code (report : ResetReport) : N :=
  if decide (reset_conflicts report = []) then 0%N else EXIT_CONFLICT.

Record SyncSummary := mkSyncSummary {
  sm_copied_to_a : nat; sm_copied_to_b : nat; sm_fast_forwarded : nat; sm_merged : nat;
  sm_conflicts : list RecordKey; sm_unconverged : list RecordKey
}.

Definition sync_exit_code (s : SyncSummary) : N :=
  if decide (sm_conflicts s = [] ∧ sm_unconverged s = []) then 0%N else EXIT_CONFLICT.

Definition summarize (r : SyncReport) : SyncSummary :=
  mkSyncSummary (length (copied_to_a r)) (length (copied_to_b r))
    (length (fast_forwarded_to_a r) + length (fast_forwarded_to_b r)) (length (merged r))
    (sc_key <$> conflicts r) (unconverged r).

Inductive DeleteOutcome := CliDeleted | CliConflict (current : Revision).

Record MigrateSummary := mkMigrateSummary { mg_imported : nat; mg_skipped : nat }.

(** ** Commands *)

Section commands.
Context `{Blake3} `{ManifestSerde} {W : Type}.
(** The file store of a root at a cap, its blobs, and the clock. *)
Context (open_at : nat → Store W) (blobs : BlobStore W) (clock_ms : W → Z) (clock : W → SystemTime).

Definition FsStore_default : Store W := open_at DEFAULT_ANCESTOR_CAP.

Definition open_store (cap : nat) : cli W (Store W) :=
  core (lift (cap ← validate_ancestor_cap cap; Ok (open_at cap))).

Definition cli_list (namespace collection : option string) : cli W (list RecordKey) :=
  core (st_list FsStore_default (mkPrefix namespace collection)).

Definition cli_get (ns col id : string) : cli W (option record) :=
  core (st_get FsStore_default (mkKey ns col id)).

(** Counts by ["namespace/collection"]. *)
Definition count_key (m : gmap string N) (k : RecordKey) : gmap string N :=
  let name := key_namespace k +:+ "/" +:+ key_collection k in
  <[name := (default 0%N (m !! name) + 1)%N]> m.

Definition cli_status : cli W (gmap string N) :=
  keys ← cli_list None None; mret (foldl count_key ∅ keys).

(** A file to import: the components of its path below the source, as bytes, and what
    reading it gives. *)
Definition source_file : Type := list bytes * result string bytes.

Definition rel_id (components : list bytes) : string :=
  String.concat "/" ((λ c, string_of_bytes (from_utf8_lossy c)) <$> components).

Definition migrated (key : RecordKey) (kind : RecordKind) (content : bytes) : record :=
  mkRecord key kind (Revision_initial content) None (Inline content)
    (mkMeta (Identity_new CLI_AUTHOR) "migrate" 0 0 ∅) [] [] None None None.

Definition migrate_file (namespace collection : string) (kind : RecordKind)
    (s : MigrateSummary) (file : source_file) : cli W MigrateSummary :=
  let key := mkKey namespace collection (rel_id file.1) in
  o ← core (st_get FsStore_default key);
  match o with
  | Some _ => mret (mkMigrateSummary (mg_imported s) (mg_skipped s + 1))
  | None =>
      content ← lift (map_err Bail file.2);
      res ← core (st_put FsStore_default (migrated key kind content) None);
      mret (match res with
            | Committed _ => mkMigrateSummary (mg_imported s + 1) (mg_skipped s)
            | PutConflicted _ => mkMigrateSummary (mg_imported s) (mg_skipped s + 1)
            end)
  end.

(** [files]: the sorted files below the source. *)
Definition migrate (files : list source_file) (namespace collection : string) (kind : RecordKind) :
    cli W MigrateSummary :=
  foldM (migrate_file namespace collection kind) (mkMigrateSummary 0 0) files.

Record GcSummary := mkGcSummary {
  gs_scanned : nat; gs_freed : nat; gs_retained : nat; gs_deferred : nat
}.

Definition cli_gc (min_age : Duration) : cli W GcSummary :=
  rs ← core (raw_records FsStore_default);
  live ← core (lift (live_blob_hashes rs));
  report ← core (λ w, sweep_blobs_with blobs live (mkSweepPolicy min_age (clock w)) w);
  mret (mkGcSummary (length rs) (length (freed report)) (retained report) (deferred report)).

Definition cli_delete (cap : nat) (namespace collection id : string) (expected : option Revision) :
    cli W DeleteOutcome :=
  store ← open_store cap;
  res ← core (st_delete_as store (mkKey namespace collection id) expected
    (Some (Identity_new CLI_AUTHOR)));
  mret (match res with
        | Deleted => CliDeleted
        | DeleteConflicted c => CliConflict (rec_revision (cf_current c))
        end).

Definition cli_undelete (cap : nat) (namespace collection id : string) : cli W Revision :=
  store ← open_store cap;
  core (λ w, undelete store blobs (mkKey namespace collection id) (clock_ms w)
    (Some (Identity_new CLI_AUTHOR)) w).

Definition cli_purge (cap : nat) (namespace collection id : string) : cli W Revision :=
  store ← open_store cap;
  let key := mkKey namespace collection id in
  o ← core (st_get_raw store key);
  match o with
  | None => throw (Bail ("record not found: " +:+ key_to_string key))
  | Some r =>
      if negb (is_tombstone r) then
        throw (Bail (key_to_string key +:+ " is live at revision " +:+
          pretty (rev_counter (rec_revision r)) +:+
          "; purge only discards an existing tombstone. To remove the record use `gonzalo delete`: " +:+
          "it keeps a restore window for manifest kinds, and purging that tombstone would discard it."))
      else
        res ← core (st_purge store key (rec_revision r));
        match res with
        | DeleteConflicted _ =>
            throw (Bail (key_to_string key +:+
              " changed while purging; nothing was removed, retry"))
        | Deleted => mret (rec_revision r)
        end
  end.

Definition cli_reset (cap : nat) (namespace : string) (collection : option string) :
    cli W ResetReport :=
  store ← open_store cap;
  core (reset_as store (mkPrefix (Some namespace) collection) (Some (Identity_new CLI_AUTHOR))).

Definition cli_collect (cap : nat) (namespace collection : option string) (horizon : Duration)
    (now : Z) : cli W CollectReport :=
  store ← open_store cap;
  core (collect store (mkPrefix namespace collection) horizon now).
End commands.

(** ** Syncing two roots *)

Definition sync_stores_with_cap `{Blake3} `{SerdeJson} {W} (open_a open_b : nat → Store W) (cap : nat) :
    cli W SyncSummary :=
  a ← open_store open_a cap;
  b ← open_store open_b cap;
  r ← core (sync a b);
  mret (summarize r).

(** ** The parse worker *)

Inductive WorkerSource := EnvSource | SiblingSource | PathSource.

Inductive ParseMode :=
  | Isolated (path : string) (source : WorkerSource)
  | InProcess (searched : list string).

Definition worker_file_name : string := "gonzalo-parse-worker".

(** The candidates in the order they are tried: the override, beside the executable,
    the entries of the search path; [within] is [Path::join] with the worker's name and
    [beside] is [with_file_name]. *)
Definition worker_candidates (env_override exe : option string) (search_path : list string)
    (beside within : string → string) : list (string * WorkerSource) :=
  match env_override with Some p => [(p, EnvSource)] | None => [] end ++
  match exe with Some e => [(beside e, SiblingSource)] | None => [] end ++
  ((λ d, (within d, PathSource)) <$> search_path).

Definition resolve_worker_from (is_file : string → bool) (env_override exe : option string)
    (search_path : list string) (beside within : string → string) : ParseMode :=
  let cs := worker_candidates env_override exe search_path beside within in
  match list_find (λ c, is_file c.1 = true) cs with
  | Some (_, (path, source)) => Isolated path source
  | None => InProcess (fst <$> cs)
  end.

Definition mode_worker (m : ParseMode) : option string :=
  match m with Isolated path _ => Some path | InProcess _ => None end.

Definition named_skips (paths : list string) : string :=
  match paths with
  | [] => ""
  | _ =>
      let listed := String.concat ", " (take 5 paths) in
      let more := length paths - 5 in
      if decide (0 < more) then listed +:+ ", and " +:+ pretty (N.of_nat more) +:+ " more" else listed
  end.

(** ** The debouncer *)

Record Debouncer := mkDebouncer { db_window : Duration; db_last_event : option Z }.

Definition Debouncer_new (window : Duration) : Debouncer := mkDebouncer window None.
Definition on_event (now : Z) (d : Debouncer) : Debouncer := mkDebouncer (db_window d) (Some now).
Definition is_pending (d : Debouncer) : bool := bool_decide (is_Some (db_last_event d)).
(** [duration_since] is zero for a later instant. *)
Definition is_due (now : Z) (d : Debouncer) : bool :=
  match db_last_event d with
  | Some t => bool_decide (Z.of_N (db_window d) ≤ Z.max 0 (now - t))%Z
  | None => false
  end.
Definition clear_pending (d : Debouncer) : Debouncer := mkDebouncer (db_window d) None.
