(* ===== verification/CliSpec.v ===== *)
(** * CliSpec: what the commands do

    Durations are exact, [purge] takes nothing but tombstones, [migrate] imports each
    file once, but not two whose names read alike. *)

From S2P Require Export Cli KnowledgeSpec.
From S2P Require Import SampleStores.

(** ** Durations *)

Section durations.
Context `{DebugString}.

(** The number some digits denote. *)
Definition digits_in_order : list Ascii.ascii := String.list_ascii_of_string "0123456789".

Definition digit_of (a : Ascii.ascii) : option N :=
  p ← list_find (λ d, d = a) digits_in_order; Some (N.of_nat p.1).
#[global] Arguments digit_of : simpl never.

Fixpoint decimal (acc : N) (s : string) : option N :=
  match s with
  | "" => Some acc
  | String a s' => d ← digit_of a; decimal (acc * 10 + d)%N s'
  end.

Lemma digit_value_of a : digit_value a = digit_of a.
Proof. destruct a as [[] [] [] [] [] [] [] []]; reflexivity. Qed.

(** What is called a day, an hour, a minute and a second. *)
Definition seconds_in (unit : string) (u : N) : Prop :=
  unit = "d" ∧ u = (24 * 60 * 60)%N ∨ unit = "h" ∧ u = (60 * 60)%N ∨
  unit = "m" ∧ u = 60%N ∨ unit = "s" ∧ u = 1%N.

Lemma unit_seconds_in unit u : unit_seconds unit = Some u ↔ seconds_in unit u.
Proof.
  unfold unit_seconds, seconds_in. repeat case_decide; subst; split;
    repeat match goal with
    | |- Some _ = Some _ → _ => intros [= <-]
    | |- _ ∨ _ → _ => intros [[? ->]|[[? ->]|[[? ->]|[? ->]]]]
    end; naive_solver.
Qed.

Lemma decimal_grows acc s n : decimal acc s = Some n → (acc ≤ n)%N.
Proof.
  revert acc. induction s as [|a s IH]; intros acc; cbn; [intros [= ->]; lia|].
  destruct (digit_of a) as [d|]; [|done]. cbn. intros Hn%IH. lia.
Qed.

(** Reading stops at the first overflow, and the number is too large then. *)
Lemma parse_digits_decimal acc s : (acc ≤ u64_max)%N →
  parse_digits acc s = n ← decimal acc s; if decide (n ≤ u64_max)%N then Some n else None.
Proof.
  revert acc. induction s as [|a s IH]; intros acc Hacc; cbn [parse_digits decimal].
  - cbn. by rewrite decide_True.
  - rewrite <-digit_value_of. destruct (digit_value a) as [d|]; [|done].
    cbn [mbind option_bind]. case_decide as Hd; [by apply IH|].
    destruct (decimal _ s) as [n|] eqn:Hn; [|done]. cbn. apply decimal_grows in Hn.
    rewrite decide_False; [done|]. lia.
Qed.

Lemma span_digits_app s : let '(x, y) := span_digits s in
  s = x +:+ y ∧ is_Some (decimal 0 x) ∧ (∀ a y', y = String a y' → digit_value a = None).
Proof.
  assert (∀ acc acc' t, is_Some (decimal acc t) → is_Some (decimal acc' t)) as Hany.
  { intros acc acc' t. revert acc acc'. induction t as [|a t IH]; intros acc acc'; cbn; [by eexists|].
    destruct (digit_of a); [|by intros [? ?]]. cbn. apply IH. }
  induction s as [|a s IH]; cbn; [split_and!; [done|by eexists|done]|].
  destruct (digit_value a) as [d|] eqn:Hd.
  - destruct (span_digits s) as [x y]. destruct IH as (-> & Hx & Hy). split_and!; [done| |done].
    cbn. rewrite <-digit_value_of, Hd. cbn. by eapply Hany.
  - split_and!; [done|by eexists|]. by intros ? ? [= <- _].
Qed.

Lemma span_digits_unique x y : is_Some (decimal 0 x) →
  (∀ a y', y = String a y' → digit_value a = None) → span_digits (x +:+ y) = (x, y).
Proof.
  assert (∀ acc, is_Some (decimal acc x) → (∀ a y', y = String a y' → digit_value a = None) →
    span_digits (x +:+ y) = (x, y)) as Hgo; [|by eauto].
  induction x as [|a x IH]; intros acc Hx Hy.
  - change ("" +:+ y) with y. destruct y as [|a y]; [done|]. cbn. by rewrite (Hy a y).
  - change (String a x +:+ y) with (String a (x +:+ y)). cbn in *.
    rewrite <-digit_value_of in Hx. destruct (digit_value a); [|by destruct Hx]. cbn in Hx. by rewrite (IH _ Hx Hy).
Qed.

Lemma unit_seconds_Some unit u : unit_seconds unit = Some u →
  unit ≠ "" ∧ (0 < u ≤ 86400)%N ∧ ∀ a y, unit = String a y → digit_value a = None.
Proof.
  unfold unit_seconds. repeat case_decide; subst; try done; intros [= <-];
    (split_and!; [done|done|done|]); by intros ? ? [= <- _].
Qed.

(** C33: a duration is exact or refused.  An operator's duration is read if and only
    if, without the white space around it, it is one or more digits and one of the
    units d, h, m and s (of 86,400, 3,600, 60 seconds and one), the number they
    denote, however long, is not zero, and that many units are no more seconds than
    64 bits hold; it is then exactly that many seconds, never one that wrapped. *)
Theorem parse_duration_exact (raw : string) (d : Duration) :
  parse_duration raw = Ok d ↔ ∃ digits unit u n,
    trim raw = digits +:+ unit ∧ digits ≠ "" ∧
    (unit = "d" ∧ u = 86400%N ∨ unit = "h" ∧ u = 3600%N ∨ unit = "m" ∧ u = 60%N ∨
     unit = "s" ∧ u = 1%N) ∧
    decimal 0 digits = Some n ∧ (0 < n)%N ∧ (n * u < 2 ^ 64)%N ∧ d = (n * u * 1000000000)%N.
Proof.
  unfold parse_duration. split.
  - pose proof (span_digits_app (trim raw)) as Hspan.
    destruct (span_digits (trim raw)) as [digits unit]. destruct Hspan as (Hraw & [n Hn] & _).
    repeat (case_decide; [done|]). destruct (unit_seconds unit) as [u|] eqn:Hu; [|done]. cbn.
    rewrite parse_digits_decimal by done. rewrite Hn. cbn. case_decide as Hmax; [|done]. cbn.
    case_decide as Hz; [done|]. unfold checked_mul. case_decide as Hmul; [|done]. cbn.
    intros [= <-]. exists digits, unit, u, n.
    split_and!; try done; [by apply unit_seconds_in|lia|unfold u64_max in Hmul; lia].
  - intros (digits & unit & u & n & -> & Hne & Hu%unit_seconds_in & Hn & Hpos & Hlt & ->).
    assert (n * u ≤ u64_max)%N as Hmul by (unfold u64_max; lia).
    destruct (unit_seconds_Some unit u Hu) as (Hunit & Hbound & Hfirst).
    rewrite span_digits_unique by (done || by eexists).
    rewrite !decide_False by done. rewrite Hu. cbn. rewrite parse_digits_decimal by done.
    rewrite Hn. cbn. rewrite decide_True by nia. cbn. rewrite decide_False by lia.
    unfold checked_mul. by rewrite decide_True.
Qed.
End durations.

Lemma core_run {W A} (m : M W CoreError A) w r w' : m w = (r, w') → core m w = (map_err CoreFailure r, w').
Proof. intros Hm. unfold core. by rewrite Hm. Qed.

(** ** Purging *)

Section commands.
Context `{Blake3} `{ManifestSerde} {W F : Type}.
Context (open_at : nat → Store W) (contents : W → records) (frame : W → F).
Context `{!∀ cap, StoreLaws (open_at cap) contents cap frame}.

(** [purge] discards a tombstone or nothing.  At a cap of at least one it
    physically removes the record of its key exactly when that is a tombstone, and
    answers its revision; a live record, an absent one and every other record are
    left as they are, and the command fails. *)
Theorem purge_discards_only_tombstones (cap : nat) (ns col id : string) (w : W) :
  cap ≠ 0 → let key := mkKey ns col id in
  ∃ res w', cli_purge open_at cap ns col id w = (res, w') ∧ frame w' = frame w ∧
    match contents w !! key with
    | Some r =>
        if is_tombstone r then res = Ok (rec_revision r) ∧ contents w' = delete key (contents w)
        else is_ok res = false ∧ contents w' = contents w
    | None => is_ok res = false ∧ contents w' = contents w
    end.
Proof.
  intros Hcap key. unfold cli_purge. fold key.
  assert (open_store open_at cap w = (Ok (open_at cap), w)) as Hopen.
  { unfold open_store, core, lift, validate_ancestor_cap. by rewrite decide_False. }
  rewrite (bind_ok _ _ _ _ _ Hopen).
  destruct (law_get_raw (StoreLaws:=_) (s:=open_at cap) key w) as (w1 & Hget & Hc1 & Hf1).
  pose proof (core_run _ _ _ _ Hget) as Hcore. cbn [map_err] in Hcore.
  rewrite (bind_ok _ _ _ _ _ Hcore).
  destruct (contents w !! key) as [r|] eqn:Hr; [|by eexists _, w1].
  destruct (is_tombstone r) eqn:Ht; cbn [negb]; [|by eexists _, w1].
  destruct (law_purge (StoreLaws:=_) (s:=open_at cap) key (rec_revision r) w1)
    as (res & w2 & Hp & Hf2 & Heq).
  pose proof (core_run _ _ _ _ Hp) as Hcp.
  rewrite Hc1, Hr in Heq. cbn in Heq. rewrite decide_True in Heq by done. cbn in Heq.
  injection Heq as -> Hc2. cbn [map_err] in Hcp. rewrite (bind_ok _ _ _ _ _ Hcp).
  eexists _, w2. split; [reflexivity|]. by rewrite Hf2.
Qed.

(** ** Importing files *)

Definition file_key (ns col : string) (f : source_file) : RecordKey := mkKey ns col (rel_id f.1).

(** A key [migrate] can write or leave: readable, and no deleted manifest. *)
Definition importable (ns col : string) (m : records) (f : source_file) : Prop :=
  is_ok f.2 = true ∧
  ∀ t k, m !! file_key ns col f = Some t → is_tombstone t = true →
    rec_deleted_kind t = Some k → is_manifest_kind k = false.

(** The record of a file's content. *)
Definition imports (kind : RecordKind) (f : source_file) (r : record) : Prop :=
  is_tombstone r = false ∧ rec_kind r = kind ∧ ∃ content, f.2 = Ok content ∧ rec_body r = Inline content.

Lemma migrate_file_spec ns col kind s f w :
  kind ≠ Tombstone → importable ns col (contents w) f →
  ∃ s' w', migrate_file open_at ns col kind s f w = (Ok s', w') ∧ frame w' = frame w ∧
    match live (contents w !! file_key ns col f) with
    | Some _ => s' = mkMigrateSummary (mg_imported s) (mg_skipped s + 1) ∧ contents w' = contents w
    | None => s' = mkMigrateSummary (mg_imported s + 1) (mg_skipped s) ∧
        ∃ r, contents w' = <[file_key ns col f := r]> (contents w) ∧ imports kind f r
    end.
Proof.
  intros Hkind [Hread Htomb]. unfold migrate_file. fold (file_key ns col f). set (key := file_key ns col f) in *.
  destruct (law_get (StoreLaws:=_) (s:=FsStore_default open_at) key w) as (w1 & Hget & Hc1 & Hf1).
  rewrite (bind_ok _ _ _ _ _ (core_run _ _ _ _ Hget)).
  destruct (live (contents w !! key)) as [r|] eqn:Hlive; [by eexists _, w1|].
  destruct (f.2) as [content|] eqn:Hcontent; [|done].
  destruct (law_put (StoreLaws:=_) (s:=FsStore_default open_at) (migrated key kind content) None w1)
    as (now & res & w2 & Hput & Hf2 & Heq).
  unfold mbind, M_bind, lift. cbn [map_err]. rewrite (core_run _ _ _ _ Hput).
  assert (∃ r, plan_put (contents w !! key) (migrated key kind content) None now DEFAULT_ANCESTOR_CAP = PutWrite r ∧
    rec_kind r = kind ∧ rec_body r = Inline content) as (r & Hplan & Hk & Hbody).
  { destruct (contents w !! key) as [t|] eqn:Ht; [destruct (is_tombstone t) eqn:Hdead|].
    - eexists. split; [apply plan_put_lands; split; [by apply bool_decide_eq_false|];
        eapply (lands_recreate _ _ _ _ t); [reflexivity|done|by intros k; apply Htomb|reflexivity]|done].
    - cbn in Hlive. by rewrite Hdead in Hlive.
    - eexists. split; [apply plan_put_lands; split; [by apply bool_decide_eq_false|]; by apply lands_create|done]. }
  cbn [rec_key migrated] in Heq. rewrite Hc1, Hplan in Heq. cbn in Heq. injection Heq as -> Hc2.
  cbn [map_err]. eexists _, w2. split; [reflexivity|]. split; [by rewrite Hf2|]. split; [done|].
  exists r. split; [done|]. split_and!; [by eapply plan_put_live|done|by exists content].
Qed.

(** What a run over some files leaves: the first file of each key that held no live
    record, and everything else as it was. *)
Record migrated_from (ns col : string) (kind : RecordKind) (files : list source_file)
    (m m' : records) : Prop := mkMigratedFrom {
  mf_others k : k ∉ (file_key ns col <$> files) → m' !! k = m !! k;
  mf_live k : is_Some (live (m !! k)) → m' !! k = m !! k;
  mf_first k i f : live (m !! k) = None → list_find (λ f, file_key ns col f = k) files = Some (i, f) →
    ∃ r, m' !! k = Some r ∧ imports kind f r
}.

Lemma imports_live kind f r : imports kind f r → live (Some r) = Some r.
Proof. intros (Hr & _). cbn. by rewrite Hr. Qed.

Lemma migrated_from_snoc ns col kind files f m m' r :
  migrated_from ns col kind files m m' → live (m' !! file_key ns col f) = None → imports kind f r →
  migrated_from ns col kind (files ++ [f]) m (<[file_key ns col f := r]> m').
Proof.
  intros [Hothers Hlive Hfirst] Hnone Hr. split.
  - intros k. rewrite fmap_app, not_elem_of_app. intros [Hk Hne]. cbn in Hne.
    rewrite lookup_insert_ne by set_solver. auto.
  - intros k Hk. rewrite lookup_insert_ne; [by apply Hlive|]. intros <-. rewrite (Hlive _ Hk) in Hnone.
    rewrite Hnone in Hk. by destruct Hk.
  - intros k i g Hk Hg. apply list_find_app_Some in Hg as [Hg|(_ & Hnot & Hg)].
    + destruct (Hfirst k i g Hk Hg) as (r' & Hr' & Himp). exists r'. split; [|done].
      rewrite lookup_insert_ne; [done|]. intros <-. by rewrite Hr', (imports_live _ _ _ Himp) in Hnone.
    + cbn in Hg. case_decide as Heq; [|done]. injection Hg as _ <-. subst k. exists r.
      by rewrite lookup_insert_eq.
Qed.

Lemma migrated_from_skip ns col kind files f m m' :
  migrated_from ns col kind files m m' → is_Some (live (m' !! file_key ns col f)) →
  migrated_from ns col kind (files ++ [f]) m m'.
Proof.
  intros [Hothers Hlive Hfirst] Hsome. split; [|done|].
  - intros k. rewrite fmap_app, not_elem_of_app. intros [Hk _]. auto.
  - intros k i g Hk Hg. apply list_find_app_Some in Hg as [Hg|(_ & Hnot%list_find_None & Hg)]; [by eapply Hfirst|].
    cbn in Hg. case_decide as Heq; [|done]. injection Hg as _ <-. subst k. exfalso.
    rewrite Hothers in Hsome; [rewrite Hk in Hsome; by destruct Hsome|].
    intros (g & Hg & Hin)%list_elem_of_fmap. rewrite Forall_forall in Hnot. by apply (Hnot g).
Qed.

Lemma migrated_from_all_live ns col kind files m m' f :
  migrated_from ns col kind files m m' → f ∈ files → is_Some (live (m' !! file_key ns col f)).
Proof.
  intros [Hothers Hlive Hfirst] Hin. destruct (live (m !! file_key ns col f)) as [r|] eqn:Hm.
  - rewrite Hlive; rewrite Hm; by eexists.
  - destruct (list_find_elem_of (λ g, file_key ns col g = file_key ns col f) files f Hin eq_refl) as [[i g] Hg].
    destruct (Hfirst _ i g Hm Hg) as (r & -> & Hr). rewrite (imports_live _ _ _ Hr). by eexists.
Qed.

Lemma migrate_run files ns col kind w : kind ≠ Tombstone → Forall (importable ns col (contents w)) files →
  ∃ s w', migrate open_at files ns col kind w = (Ok s, w') ∧ frame w' = frame w ∧
    mg_imported s + mg_skipped s = length files ∧
    migrated_from ns col kind files (contents w) (contents w') ∧
    (Forall (λ f, is_Some (live (contents w !! file_key ns col f))) files →
      mg_imported s = 0 ∧ contents w' = contents w).
Proof.
  intros Hkind Hall. unfold migrate.
  destruct (foldM_inv (migrate_file open_at ns col kind)
    (λ done s w', frame w' = frame w ∧ mg_imported s + mg_skipped s = length done ∧
      migrated_from ns col kind done (contents w) (contents w') ∧
      (Forall (λ f, is_Some (live (contents w !! file_key ns col f))) files →
        mg_imported s = 0 ∧ contents w' = contents w))
    files (mkMigrateSummary 0 0) w) as (s & w' & Hrun & HI); [| |by exists s, w'].
  { split_and!; [done|done| |done]. split; [done|done|]. by intros k i f _ ?. }
  intros dn f todo s w1 Hfiles (Hf1 & Hcount & Hfrom & Hagain).
  assert (f ∈ files) as Hin by (subst; set_solver).
  destruct (migrate_file_spec ns col kind s f w1) as (s2 & w2 & Hstep & Hf2 & Hres).
  { done. }
  { pose proof (proj1 (Forall_forall _ _) Hall f Hin) as [Hread Htomb]. split; [done|].
    intros t k Ht Hdead. pose proof (mf_others _ _ _ _ _ _ Hfrom) as Hothers.
    destruct (decide (file_key ns col f ∈ (file_key ns col <$> dn))) as [Hdone|Hdone];
      [|rewrite Hothers in Ht by done; eauto].
    apply list_elem_of_fmap in Hdone as (g & Hg & Hgin).
    pose proof (migrated_from_all_live ns col kind dn _ _ g Hfrom Hgin) as Hl.
    rewrite <-Hg, Ht in Hl. cbn in Hl. rewrite Hdead in Hl. by destruct Hl. }
  exists s2, w2. split; [done|]. split; [by rewrite Hf2|].
  destruct (live (contents w1 !! file_key ns col f)) as [r|] eqn:Hlive.
  - destruct Hres as [-> Hc]. rewrite Hc. rewrite length_app. cbn. split_and!; [lia| |done].
    apply migrated_from_skip; [done|]. by rewrite Hlive.
  - destruct Hres as (-> & r & Hc & Hr). rewrite Hc, length_app. cbn. split_and!; [lia| |].
    + by apply migrated_from_snoc.
    + intros Hagain'. destruct (Hagain Hagain') as [_ Hsame]. exfalso.
      pose proof (proj1 (Forall_forall _ _) Hagain' f Hin) as Hl. cbn in Hl. rewrite <-Hsame, Hlive in Hl.
      by destruct Hl.
Qed.

(** C32: [migrate] imports the first file of each name, once.  When every file reads,
    the kind is not [Tombstone] and no file's key holds a deleted manifest, it counts every file as imported or
    skipped; a record that was live, or that no file names, is untouched; a key that
    held none now holds a live record of the bytes of the first file whose path reads
    as that key, so every file's key is live; and a second run imports nothing, skips
    every file and changes nothing. *)
Theorem migrate_imports_once (files : list source_file) (ns col : string) (kind : RecordKind) (w : W) :
  kind ≠ Tombstone → Forall (importable ns col (contents w)) files →
  ∃ s w', migrate open_at files ns col kind w = (Ok s, w') ∧ frame w' = frame w ∧
    mg_imported s + mg_skipped s = length files ∧
    migrated_from ns col kind files (contents w) (contents w') ∧
    ∃ w'', migrate open_at files ns col kind w' = (Ok (mkMigrateSummary 0 (length files)), w'') ∧
      contents w'' = contents w'.
Proof.
  intros Hkind Hall. destruct (migrate_run files ns col kind w Hkind Hall) as (s & w1 & Hrun & Hf & Hcount & Hfrom & _).
  exists s, w1. do 4 (split; [done|]).
  destruct (migrate_run files ns col kind w1 Hkind) as ([i sk] & w2 & Hrun2 & _ & Hcount2 & _ & Hagain).
  { apply Forall_forall. intros f Hin. pose proof (proj1 (Forall_forall _ _) Hall f Hin) as [Hread _].
    split; [done|]. intros t k Ht Hdead. pose proof (migrated_from_all_live _ _ _ _ _ _ f Hfrom Hin) as Hl.
    rewrite Ht in Hl. cbn in Hl. rewrite Hdead in Hl. by destruct Hl. }
  destruct Hagain as [Hi Hsame]; [|].
  { apply Forall_forall. intros f Hin. by eapply migrated_from_all_live. }
  cbn in Hi, Hcount2. subst i. cbn in Hcount2. subst sk. by exists w2.
Qed.
End commands.

(** ** On a store *)

Section samples.
#[local] Existing Instance sample_hash.

Definition sample_open (cap : nat) : Store records := mem_store sample_wall (mkMemStore lens_id cap None).

#[local] Instance sample_open_laws (cap : nat) : StoreLaws (sample_open cap) id cap (λ _, tt).
Proof. exact (MemStore_laws sample_wall (mkMemStore lens_id cap None) (λ _, tt)). Qed.

Lemma purge_discards_only_tombstones_witness :
  1 ≠ 0 ∧ let key := mkKey "ns" "topic" "a" in
  ∃ res w', cli_purge sample_open 1 "ns" "topic" "a" ∅ = (res, w') ∧ tt = tt ∧
    match (∅ : records) !! key with
    | Some r =>
        if is_tombstone r then res = Ok (rec_revision r) ∧ w' = delete key ∅
        else is_ok res = false ∧ w' = ∅
    | None => is_ok res = false ∧ w' = ∅
    end.
Proof.
  split; [done|]. apply (purge_discards_only_tombstones sample_open id (λ _, tt) 1 "ns" "topic" "a" ∅). done.
Defined.

(** Two names that differ in a byte that is not UTF-8 read alike: the second file is
    skipped. *)
Definition colliding_files : list source_file :=
  [([[Byte.xff]], Ok [Byte.x61]); ([[Byte.xfe]], Ok [Byte.x62])].

Lemma migrate_imports_once_witness :
  Topic ≠ Tombstone ∧ Forall (importable "ns" "topic" (∅ : records)) colliding_files ∧
  ∃ s w', migrate sample_open colliding_files "ns" "topic" Topic ∅ = (Ok s, w') ∧ tt = tt ∧
    mg_imported s + mg_skipped s = 2 ∧
    migrated_from "ns" "topic" Topic colliding_files ∅ w' ∧
    ∃ w'', migrate sample_open colliding_files "ns" "topic" Topic w' = (Ok (mkMigrateSummary 0 2), w'') ∧
      w'' = w'.
Proof.
  assert (Forall (importable "ns" "topic" (∅ : records)) colliding_files) as Hall.
  { repeat constructor; by intros ? ? ?. }
  split; [done|]. split; [exact Hall|].
  by apply (migrate_imports_once sample_open id (λ _, tt) colliding_files "ns" "topic" Topic ∅).
Defined.

(** [migrate] drops the second of two distinct files. *)
Lemma migrate_drops_colliding_names :
  (migrate sample_open colliding_files "ns" "topic" Topic ∅).1 = Ok (mkMigrateSummary 1 1) ∧
  ((λ r, rec_body r) <$> (migrate sample_open colliding_files "ns" "topic" Topic ∅).2 !!
     mkKey "ns" "topic" (rel_id [[Byte.xfe]])) = Some (Inline [Byte.x61]).
Proof. split; vm_compute; reflexivity. Qed.
End samples.
