(* ===== verification/GitStore.v ===== *)
(** * GitStore: the git substrate

    Models [gonzalo-store-git]'s [lib.rs] and [diff.rs].  A record is a file of the
    working tree; every write is committed.  The files are those of [Filesystem],
    read and written by the store itself; the repository beside them is [libgit2]'s,
    and what the store asks of it is the class [Git2], whose documented behaviour
    [GitSpec] states as [Git2Laws].  A tree or an index is the files in it, by path
    below the root. *)

From S2P Require Export FsStore FsLayout Merge Tombstones.
#[local] Open Scope gonzalo_scope.

Abbreviation files := (gmap path bytes).

(** ** What the store asks of libgit2 *)

Inductive DeltaStatus :=
  | DUnmodified | DAdded | DDeleted | DModified | DRenamed | DCopied
  | DIgnored | DUntracked | DTypechange | DUnreadable | DConflicted.

#[export] Instance DeltaStatus_eq_dec : EqDecision DeltaStatus.
Proof. solve_decision. Defined.

Record Delta := mkDelta {
  dl_status : DeltaStatus;
  dl_new_file : option path;
  dl_old_file : option path
}.

Record MergeAnalysis := mkMergeAnalysis {
  an_up_to_date : bool;
  an_fast_forward : bool
}.

(** A call sees the files and the repository and may fail. *)
Abbreviation git G := (M (FileSystem * G) string).

Class Git2 (G Oid : Type) := {
  repo_open : path → git G unit;
  repo_init : path → git G unit;
  repo_index : git G files;
  index_read_tree : files → git G files;
  index_add_path : path → path → files → git G files;
  index_remove_path : path → files → git G files;
  index_add_frombuffer : path → bytes → files → git G files;
  index_write : files → git G unit;
  index_write_tree : files → git G Oid;
  find_tree : Oid → git G files;
  signature_now : git G unit;
  head_target : git G (option Oid);
  find_commit : Oid → git G Oid;
  commit_tree : Oid → git G files;
  commit : string → string → files → list Oid → git G Oid;
  merge_base : Oid → Oid → git G Oid;
  (** Two trees compared, and what a path of one holds: a file, or a directory. *)
  diff_tree_to_tree : option files → files → git G (list Delta);
  get_path : files → path → option (option bytes);
  diff_tree_to_workdir_with_index : files → git G (list Delta);
  (** References, remotes and the working tree. *)
  find_remote : string → git G unit;
  fetch : string → string → git G unit;
  find_reference : string → git G unit;
  fetch_head_commit : git G Oid;
  merge_analysis : Oid → git G MergeAnalysis;
  set_target : string → Oid → git G unit;
  set_head : string → git G unit;
  checkout_head_force : git G unit;
  checkout_tree_force : files → git G unit;
  (** The references the remote refused, with its messages. *)
  remote_push : string → string → git G (list (string * string));
  oid_from_str : string → result string Oid;
  oid_to_string : Oid → string;
  discover : path → git G unit
}.

Record GitStore := mkGitStore { gst_root : path; gst_cap : nat }.

Record PullConflict := mkPullConflict {
  pc_key : RecordKey;
  pc_local : record;
  pc_remote : record
}.

Record PullReport := mkPullReport {
  pr_fast_forwarded : bool;
  pr_advanced : list RecordKey;
  pr_merged : list RecordKey;
  pr_conflicts : list PullConflict
}.

Definition PullReport_default : PullReport := mkPullReport false [] [] [].

Definition push_advanced (k : RecordKey) (r : PullReport) : PullReport :=
  mkPullReport (pr_fast_forwarded r) (pr_advanced r ++ [k]) (pr_merged r) (pr_conflicts r).
Definition push_merged (k : RecordKey) (r : PullReport) : PullReport :=
  mkPullReport (pr_fast_forwarded r) (pr_advanced r) (pr_merged r ++ [k]) (pr_conflicts r).
Definition push_pull_conflict (c : PullConflict) (r : PullReport) : PullReport :=
  mkPullReport (pr_fast_forwarded r) (pr_advanced r) (pr_merged r) (pr_conflicts r ++ [c]).

Definition PutPlanner : Type :=
  option record → record → option Revision → Z → nat → PutPlan.

(** ** Files *)

Definition tryio {A B} (m : prog (result io_error A)) (f : A → prog (result io_error B)) :
    prog (result io_error B) :=
  m ≫= λ r, match r with Ok a => f a | Err e => Ret (Err e) end.

Definition write_atomic (p : path) (b : bytes) : prog (result io_error unit) :=
  let tmp := with_extension p "json.tmp" in
  tryio (raw (Create tmp)) (λ _,
  tryio (raw (WriteAll tmp b)) (λ _,
  tryio (raw (SyncAll tmp)) (λ _,
  tryio (raw (Rename tmp p)) (λ _,
  match p with [] => Ret (Ok tt) | _ => fsync_dir (parent p) end)))).

(** [with_extension], on the last component of a path that is joined. *)
Definition rel_path (key : RecordKey) : path :=
  let '(ns, col, file) := record_components key in path_join (path_join (components ns) col) file.

Definition path_for (root : path) (key : RecordKey) : path :=
  let '(ns, col, file) := record_components key in
  path_join (path_join (path_join root ns) col) file.

Definition LOCK_FILE : string := ".gonzalo-git.lock".

Definition lock_repo (root : path) : prog (Result path) :=
  let lock_path := path_join root LOCK_FILE in
  sys (OpenOrCreate lock_path) ;?
  sys (Flock lock_path) ;?
  Ret (Ok lock_path).

(** The key of a path of three components, the last one a record file's. *)
Definition key_from_path (p : path) : option RecordKey :=
  match to_string_lossy <$> p with
  | [ns; col; file] =>
      id ← str_strip_suffix ".json" file;
      Some (mkKey (decode_segment ns) (decode_segment col) (decode_segment id))
  | _ => None
  end.

Section git_store.
Context `{Blake3} `{SerdeJson} `{SerdeRecord} {G Oid : Type} `{Git2 G Oid}.
Abbreviation W := (FileSystem * G)%type.

Definition be {A} (m : git G A) : M W CoreError A := λ w, let '(r, w') := m w in (map_err Backend r, w').

(** A call whose failure is an answer. *)
Definition attempt {A} (m : git G A) : M W CoreError (result string A) := λ w,
  let '(r, w') := m w in (Ok r, w').

(** The store's own files. *)
Definition on_files {A} (p : prog (Result A)) : M W CoreError A := λ w,
  let '(r, fs) := exec p w.1 in (r, (fs, w.2)).

Definition git_now : M W CoreError Z := λ w,
  let '(t, fs) := exec clock w.1 in (Ok (now_ms t), (fs, w.2)).

(** The guard of [lock_repo], dropped at the end of the function. *)
Definition with_lock {A} (root : path) (body : M W CoreError A) : M W CoreError A := λ w,
  match on_files (lock_repo root) w with
  | (Ok lock, w1) =>
      let '(r, w2) := body w1 in (r, ((exec (Call (Unlock lock) (λ _, Ret tt)) w2.1).2, w2.2))
  | (Err e, w1) => (Err e, w1)
  end.

(** *** Opening *)

Definition GitStore_open (root : path) : M W CoreError GitStore :=
  on_files (sys (CreateDirAll root)) ≫= λ _,
  opened ← attempt (repo_open root);
  match opened with Ok _ => mret tt | Err _ => be (repo_init root) end ≫= λ _,
  mret (mkGitStore root DEFAULT_ANCESTOR_CAP).

Definition GitStore_with_ancestor_cap (s : GitStore) (cap : nat) : Result GitStore :=
  cap ← validate_ancestor_cap cap; Ok (mkGitStore (gst_root s) cap).

(** *** Committing *)

(** [head().ok().and_then(target).and_then(find_commit.ok())]. *)
Definition parent_commit : git G (list Oid) :=
  try_with head_target (λ r,
    match r with
    | Ok (Some oid) => try_with (find_commit oid) (λ c, mret (match c with Ok c => [c] | Err _ => [] end))
    | _ => mret []
    end).

(** What both commits do with the index they changed. *)
Definition commit_index (change : files → git G files) (root : path) (message : string) :
    M W CoreError unit :=
  be (repo_open root) ≫= λ _,
  index ← be repo_index;
  index ← be (change index);
  be (index_write index) ≫= λ _,
  tree_oid ← be (index_write_tree index);
  tree ← be (find_tree tree_oid);
  be signature_now ≫= λ _,
  parents ← be parent_commit;
  be (commit "HEAD" message tree parents) ≫= λ _, mret tt.

Definition commit_file (root rel : path) (message : string) : M W CoreError unit :=
  commit_index (index_add_path root rel) root message.

Definition commit_removal (root rel : path) (message : string) : M W CoreError unit :=
  commit_index (index_remove_path rel) root message.

(** *** One record *)

Definition git_read (root : path) (key : RecordKey) : M W CoreError (option record) :=
  on_files (read_current (path_for root key)).

Definition write_and_commit (root : path) (r : record) (message : string) : M W CoreError unit :=
  let rel := rel_path (rec_key r) in
  let abs := root ++ rel in
  on_files (with_parent abs (λ d, sys (CreateDirAll d))) ≫= λ _,
  bytes ← lift (map_err Serde (FsStore.to_vec_pretty r));
  on_files (write_atomic abs bytes ≫= λ r, Ret (backend r)) ≫= λ _,
  commit_file root rel message.

Definition remove_and_commit (root : path) (key : RecordKey) (message : string) : M W CoreError unit :=
  let rel := rel_path key in
  on_files (raw (RemoveFile (root ++ rel)) ≫= λ r,
    Ret match r with
        | Ok _ => Ok tt
        | Err ENOENT => Ok tt
        | Err e => Err (Backend (io_to_string e))
        end) ≫= λ _,
  commit_removal root rel message.

Definition git_put_locked (s : GitStore) (r : record) (expected : option Revision) (plan : PutPlanner) :
    M W CoreError PutResult :=
  with_lock (gst_root s) (
    let key := rec_key r in
    current ← git_read (gst_root s) key;
    now ← git_now;
    match plan current r expected now (gst_cap s) with
    | PutWrite stored =>
        write_and_commit (gst_root s) stored ("put " +:+ key_to_string key) ≫= λ _,
        mret (Committed (rec_revision stored))
    | PutConflict c => mret (PutConflicted c)
    | PutNotFound => throw (NotFound key)
    | PutRejected reason => throw (Invalid reason)
    end).

(** ** [impl Store for GitStore] *)

Definition git_get (s : GitStore) (key : RecordKey) : M W CoreError (option record) :=
  o ← git_read (gst_root s) key; mret (live o).

Definition git_put (s : GitStore) (r : record) (expected : option Revision) : M W CoreError PutResult :=
  git_put_locked s r expected plan_put.

Definition git_put_raw (s : GitStore) (r : record) (expected : option Revision) : M W CoreError PutResult :=
  git_put_locked s r expected plan_put_raw.

Definition git_delete_as (s : GitStore) (key : RecordKey) (expected : option Revision)
    (author : option Identity) : M W CoreError DeleteResult :=
  with_lock (gst_root s) (
    current ← git_read (gst_root s) key;
    now ← git_now;
    match plan_delete current expected now (gst_cap s) author with
    | DeleteWrite tombstone =>
        write_and_commit (gst_root s) tombstone ("delete " +:+ key_to_string key) ≫= λ _, mret Deleted
    | DeleteNoop => mret Deleted
    | DeleteConflict c => mret (DeleteConflicted c)
    end).

Definition git_get_raw (s : GitStore) (key : RecordKey) : M W CoreError (option record) :=
  git_read (gst_root s) key.

Definition git_purge (s : GitStore) (key : RecordKey) (expected : Revision) : M W CoreError DeleteResult :=
  with_lock (gst_root s) (
    current ← git_read (gst_root s) key;
    match plan_purge current expected with
    | PurgeRemove =>
        remove_and_commit (gst_root s) key ("purge " +:+ key_to_string key) ≫= λ _, mret Deleted
    | PurgeNoop => mret Deleted
    | PurgeConflict c => mret (DeleteConflicted c)
    end).

(** *** Listing *)

(** [!path.is_dir()]. *)
Definition no_dir (p : path) : prog bool :=
  raw (IsDir p) ≫= λ r, Ret match r with Ok d => negb d | Err _ => true end.

Definition git_collect_file (prefix : KeyPrefix) (ns_name col_name : string) (out : list RecordKey)
    (f : string) : list RecordKey :=
  match str_strip_suffix ".json" (to_string_lossy f) with
  | Some id =>
      let key := mkKey (decode_segment ns_name) (decode_segment col_name) (decode_segment id) in
      if prefix_matches prefix key then out ++ [key] else out
  | None => out
  end.

Definition git_collect_col (prefix : KeyPrefix) (ns_path : path) (ns_name : string)
    (out : list RecordKey) (col : string) : prog (Result (list RecordKey)) :=
  let col_path := ns_path ++ [col] in
  no_dir col_path ≫= λ skip : bool,
  if skip then Ret (Ok out)
  else
    files ←? sys (ReadDir col_path);
    Ret (Ok (foldl (git_collect_file prefix ns_name (to_string_lossy col)) out files)).

Definition git_collect_ns (prefix : KeyPrefix) (root : path) (out : list RecordKey) (ns : string) :
    prog (Result (list RecordKey)) :=
  let ns_name := to_string_lossy ns in
  let ns_path := root ++ [ns] in
  if decide (ns_name = ".git") then Ret (Ok out)
  else
    no_dir ns_path ≫= λ skip : bool,
    if skip then Ret (Ok out)
    else
      cols ←? sys (ReadDir ns_path);
      forp cols out (git_collect_col prefix ns_path ns_name).

Definition git_collect_keys (root : path) (prefix : KeyPrefix) : prog (Result (list RecordKey)) :=
  raw (ReadDir root) ≫= λ r,
  match r with
  | Ok namespaces => forp namespaces [] (git_collect_ns prefix root)
  | Err ENOENT => Ret (Ok [])
  | Err e => Ret (Err (Backend (io_to_string e)))
  end.

Definition is_listed (s : GitStore) (key : RecordKey) : prog bool :=
  read_current (path_for (gst_root s) key) ≫= λ r,
  Ret match r with
      | Ok (Some rec) => negb (is_tombstone rec)
      | Ok None => false
      | Err _ => true
      end.

Definition git_list (s : GitStore) (prefix : KeyPrefix) : M W CoreError (list RecordKey) :=
  on_files (keys ←? git_collect_keys (gst_root s) prefix;
    forp keys [] (λ out key,
      is_listed s key ≫= λ l : bool, Ret (Ok (if l then out ++ [key] else out)))).

Definition git_list_raw (s : GitStore) (prefix : KeyPrefix) : M W CoreError (list RecordKey) :=
  on_files (git_collect_keys (gst_root s) prefix).

Definition git_store (s : GitStore) : Store W :=
  mkStore (git_get s) (git_put s) (git_list s) (git_delete_as s) (git_get_raw s) (git_list_raw s)
    (git_put_raw s) (git_purge s).

(** ** Pulling and pushing *)

Definition stage_record (p : path) (r : record) (index : files) : M W CoreError files :=
  bytes ← lift (map_err Serde (FsStore.to_vec_pretty r)); be (index_add_frombuffer p bytes index).

Definition delta_path (d : Delta) : option path :=
  match dl_new_file d with Some p => Some p | None => dl_old_file d end.

Definition changed_paths_set (base : option files) (tree : files) : M W CoreError (gset path) :=
  deltas ← be (diff_tree_to_tree base tree); mret (list_to_set (omap delta_path deltas)).

Definition record_at (tree : option files) (p : path) : Result (option record) :=
  match tree with
  | None => Ok None
  | Some t =>
      match get_path t p with
      | None => Ok None
      | Some None => Err (Backend "record path is not a blob")
      | Some (Some b) => Some <$> map_err Serde (FsStore.from_slice b)
      end
  end.

Definition tree_blob (tree : files) (p : path) : option bytes := mjoin (get_path tree p).

Definition merged_record (local remote : record) (body : Body) (cap : nat) : record :=
  reconciled_record local remote body (Identity_new "gonzalo-merge") "git-pull" cap.

(** [match (local_rec, remote_rec)]: a record changed on both sides. *)
Definition merge_both (base_tree : option files) (cap : nat) (p : path) (key : RecordKey)
    (local remote : option record) (index : files) (report : PullReport) :
    M W CoreError (files * PullReport) :=
  match local, remote with
  | Some l, Some r =>
      if decide (rec_revision l = rec_revision r) then mret (index, report)
      else if decide (rec_revision l ∈ rec_ancestors r) then
        index ← stage_record p r index; mret (index, push_advanced key report)
      else if decide (rec_revision r ∈ rec_ancestors l) then mret (index, report)
      else if is_tombstone l && is_tombstone r then
        index ← stage_record p (tombstone_winner l r cap) index; mret (index, push_merged key report)
      else if is_tombstone l || is_tombstone r then
        mret (index, push_pull_conflict (mkPullConflict key l r) report)
      else if decide (rec_body l ≠ rec_body r) then
        b ← lift (record_at base_tree p);
        let base_body := match b with Some b => rec_body b | None => Inline [] end in
        match Merge.merge (merge_class (rec_kind l)) base_body (rec_body l) (rec_body r) with
        | Merged body =>
            index ← stage_record p (merged_record l r body cap) index; mret (index, push_merged key report)
        | NeedsResolution => mret (index, push_pull_conflict (mkPullConflict key l r) report)
        end
      else mret (index, report)
  | Some _, None => mret (index, report)
  | None, Some r => index ← stage_record p r index; mret (index, report)
  | None, None => mret (index, report)
  end.

(** One delta of the remote side. *)
Definition merge_delta (base_tree : option files) (local_tree remote_tree : files)
    (local_changed : gset path) (cap : nat) (st : files * PullReport) (delta : Delta) :
    M W CoreError (files * PullReport) :=
  match delta_path delta with
  | None => mret st
  | Some p =>
      if decide (p ∉ local_changed) then
        if decide (dl_status delta = DDeleted) then
          index ← be (index_remove_path p st.1); mret (index, st.2)
        else
          match tree_blob remote_tree p with
          | Some b => index ← be (index_add_frombuffer p b st.1); mret (index, st.2)
          | None => mret st
          end
      else
        match key_from_path p with
        | None => mret st
        | Some key =>
            l ← lift (record_at (Some local_tree) p);
            r ← lift (record_at (Some remote_tree) p);
            merge_both base_tree cap p key l r st.1 st.2
        end
  end.

(** [repo.merge_base], whose failure is no base, then its tree. *)
Definition base_tree_of (local_oid remote_oid : Oid) : M W CoreError (option files) :=
  base ← attempt (merge_base local_oid remote_oid);
  match base with
  | Ok base => c ← be (find_commit base); t ← be (commit_tree c); mret (Some t)
  | Err _ => mret None
  end.

(** The reconciled tree checked out, committed on both histories, and the branch moved. *)
Definition commit_merge (remote branch : string) (local_commit remote_commit : Oid)
    (st : files * PullReport) : M W CoreError PullReport :=
  tree_oid ← be (index_write_tree st.1);
  tree ← be (find_tree tree_oid);
  be (checkout_tree_force tree) ≫= λ _,
  be signature_now ≫= λ _,
  let refname := "refs/heads/" +:+ branch in
  be (commit refname ("merge " +:+ remote +:+ "/" +:+ branch) tree [local_commit; remote_commit]) ≫= λ _,
  be (set_head refname) ≫= λ _,
  mret st.2.

Definition merge_non_ff (remote branch : string) (remote_oid : Oid) (cap : nat) :
    M W CoreError PullReport :=
  head ← be head_target;
  local_oid ← lift (ok_or (Backend "local HEAD is unborn") head);
  local_commit ← be (find_commit local_oid);
  remote_commit ← be (find_commit remote_oid);
  local_tree ← be (commit_tree local_commit);
  remote_tree ← be (commit_tree remote_commit);
  base_tree ← base_tree_of local_oid remote_oid;
  index ← be repo_index;
  index ← be (index_read_tree local_tree);
  local_changed ← changed_paths_set base_tree local_tree;
  remote_diff ← be (diff_tree_to_tree base_tree remote_tree);
  st ← foldM (merge_delta base_tree local_tree remote_tree local_changed cap)
    (index, PullReport_default) remote_diff;
  commit_merge remote branch local_commit remote_commit st.

Definition git_pull (root : path) (remote branch : string) (cap : nat) : M W CoreError PullReport :=
  with_lock root (
    be (repo_open root) ≫= λ _,
    be (find_remote remote) ≫= λ _,
    be (fetch remote branch) ≫= λ _,
    be (find_reference "FETCH_HEAD") ≫= λ _,
    fetch_commit ← be fetch_head_commit;
    analysis ← be (merge_analysis fetch_commit);
    if an_up_to_date analysis then mret PullReport_default
    else if an_fast_forward analysis then
      let refname := "refs/heads/" +:+ branch in
      be (find_reference refname) ≫= λ _,
      be (set_target refname fetch_commit) ≫= λ _,
      be (set_head refname) ≫= λ _,
      be checkout_head_force ≫= λ _,
      mret (mkPullReport true [] [] [])
    else merge_non_ff remote branch fetch_commit cap).

Definition GitStore_pull (s : GitStore) (remote branch : string) : M W CoreError PullReport :=
  git_pull (gst_root s) remote branch (gst_cap s).

Definition git_push (root : path) (remote branch : string) : M W CoreError unit :=
  be (repo_open root) ≫= λ _,
  be (find_remote remote) ≫= λ _,
  let refspec := "refs/heads/" +:+ branch +:+ ":refs/heads/" +:+ branch in
  rejected ← be (remote_push remote refspec);
  match rejected with
  | [] => mret tt
  | _ =>
      throw (Backend ("push rejected by remote '" +:+ remote +:+ "': " +:+
        String.concat ", " ((λ x, x.1 +:+ ": " +:+ x.2) <$> rejected)))
  end.

(** ** The changed paths of a working tree *)

Record ChangedPaths := mkChangedPaths {
  ch_added : list string;
  ch_modified : list string;
  ch_deleted : list string
}.

Definition ChangedPaths_is_empty (c : ChangedPaths) : bool :=
  bool_decide (ch_added c = [] ∧ ch_modified c = [] ∧ ch_deleted c = []).

Definition is_git_repo (p : path) : M W CoreError bool :=
  r ← attempt (discover p); mret (is_ok r).

Definition head_commit (root : path) : M W CoreError string :=
  be (repo_open root) ≫= λ _,
  head ← be head_target;
  oid ← lift (ok_or (Backend "HEAD has no target commit") head);
  mret (oid_to_string oid).

(** [replace('\\', '/')] of the joined components. *)
Definition path_str (p : path) : string :=
  string_of_bytes ((λ b, if decide (b = Byte.x5c) then Byte.x2f else b) <$>
    bytes_of_string (to_string_lossy (String.concat "/" p))).

Definition add_delta (c : ChangedPaths) (d : Delta) : ChangedPaths :=
  let added (o : option path) (c : ChangedPaths) :=
    match o with
    | Some p => mkChangedPaths (ch_added c ++ [path_str p]) (ch_modified c) (ch_deleted c)
    | None => c
    end in
  let deleted (o : option path) (c : ChangedPaths) :=
    match o with
    | Some p => mkChangedPaths (ch_added c) (ch_modified c) (ch_deleted c ++ [path_str p])
    | None => c
    end in
  match dl_status d with
  | DAdded | DUntracked | DCopied => added (dl_new_file d) c
  | DDeleted => deleted (dl_old_file d) c
  | DModified | DTypechange =>
      match dl_new_file d with
      | Some p => mkChangedPaths (ch_added c) (ch_modified c ++ [path_str p]) (ch_deleted c)
      | None => c
      end
  | DRenamed => added (dl_new_file d) (deleted (dl_old_file d) c)
  | _ => c
  end.

(** [sort] and [dedup]. *)
Definition sorted_set (l : list string) : list string := btree_elements (list_to_set l).

Definition changed_paths (root : path) (base : string) : M W CoreError ChangedPaths :=
  be (repo_open root) ≫= λ _,
  base_oid ← lift (map_err (λ e, Backend ("bad base oid: " +:+ e)) (oid_from_str base));
  base_commit ← be (find_commit base_oid);
  base_tree ← be (commit_tree base_commit);
  diff ← be (diff_tree_to_workdir_with_index base_tree);
  let c := foldl add_delta (mkChangedPaths [] [] []) diff in
  mret (mkChangedPaths (sorted_set (ch_added c)) (sorted_set (ch_modified c)) (sorted_set (ch_deleted c))).
End git_store.
