(* ===== verification/GitFiles.v ===== *)
(** * GitFiles: what libgit2 documents, and the git store's files

    What a repository records ([GitView]: its index, references and commits), and what
    the calls [GitStore] makes do to it when they succeed: the theorems of [GitSpec]
    and [GitPull] assume these laws, and [GitSamples] has a repository that obeys them.
    Then what locking, reading, writing and removing do to a working tree that holds a
    map: the same layout as [FsStore]'s, with the repository's lock file beside the
    namespaces. *)

From S2P Require Export GitStore FsRefine.
#[local] Open Scope gonzalo_scope.

Record Commit (Oid : Type) := mkCommit {
  cm_message : string;
  cm_tree : files;
  cm_parents : list Oid
}.
Arguments mkCommit {Oid}.
Arguments cm_message {Oid}.
Arguments cm_tree {Oid}.
Arguments cm_parents {Oid}.

(** [HEAD] names a reference. *)
Class GitView (G Oid : Type) := {
  git_index : G → files;
  git_refs : G → gmap string Oid;
  git_head_name : G → string;
  git_commits : G → Oid → option (Commit Oid);
  git_workdir : G → path
}.

Section view.
Context `{GitView G Oid}.

Definition git_head (g : G) : option Oid := git_refs g !! git_head_name g.

(** The files of the commit [HEAD] leads to. *)
Definition head_files (g : G) : files :=
  match git_head g ≫= git_commits g with Some c => cm_tree c | None => ∅ end.

(** Commits are never lost, and a repository stays where it is. *)
Record keeps_commits (g g' : G) : Prop := mkKeeps {
  kept o c : git_commits g o = Some c → git_commits g' o = Some c;
  kept_workdir : git_workdir g' = git_workdir g
}.

#[export] Instance keeps_commits_preorder : PreOrder keeps_commits.
Proof.
  split; [by split|]. intros g1 g2 g3 [Hc Hw] [Hc' Hw']. split; [auto|congruence].
Qed.

(** Only objects were added. *)
Record quiet (g g' : G) : Prop := {
  quiet_index : git_index g' = git_index g;
  quiet_refs : git_refs g' = git_refs g;
  quiet_head : git_head_name g' = git_head_name g;
  quiet_commits : keeps_commits g g'
}.

#[export] Instance quiet_preorder : PreOrder quiet.
Proof.
  split; [by intros g; split|]. intros g1 g2 g3 [Hi Hr Hh Hc] [Hi' Hr' Hh' Hc'].
  split; [congruence..|by etrans].
Qed.

Definition resolve_ref (g : G) (name : string) : string :=
  if decide (name = "HEAD") then git_head_name g else name.
End view.

(** What a path of the working tree holds. *)
Definition read_file (fs : FileSystem) (p : path) : result io_error bytes := (exec_call (Read p) fs).1.

Class Git2Laws (G Oid : Type) `{Git2 G Oid} `{GitView G Oid} := {
  law_open root (w : FileSystem * G) : git_workdir w.2 = root → repo_open root w = (Ok tt, w);
  law_index (w : FileSystem * G) : repo_index w = (Ok (git_index w.2), w);
  law_read_tree t (w : FileSystem * G) : index_read_tree t w = (Ok t, w);
  law_add_path root rel b idx (w : FileSystem * G) :
    git_workdir w.2 = root → read_file w.1 (root ++ rel) = Ok b →
    ∃ g', index_add_path root rel idx w = (Ok (<[rel := b]> idx), (w.1, g')) ∧ quiet w.2 g';
  law_remove_path rel idx (w : FileSystem * G) :
    index_remove_path rel idx w = (Ok (delete rel idx), w);
  law_add_frombuffer rel b idx (w : FileSystem * G) :
    ∃ g', index_add_frombuffer rel b idx w = (Ok (<[rel := b]> idx), (w.1, g')) ∧ quiet w.2 g';
  law_index_write idx (w : FileSystem * G) :
    ∃ g', index_write idx w = (Ok tt, (w.1, g')) ∧ git_index g' = idx ∧
      git_refs g' = git_refs w.2 ∧ git_head_name g' = git_head_name w.2 ∧ keeps_commits w.2 g';
  law_write_tree idx (w : FileSystem * G) :
    ∃ t g', index_write_tree idx w = (Ok t, (w.1, g')) ∧ quiet w.2 g' ∧
      ∀ fs, find_tree t (fs, g') = (Ok idx, (fs, g'));
  law_signature (w : FileSystem * G) : signature_now w = (Ok tt, w);
  (** An unborn [HEAD] has no target. *)
  law_head (w : FileSystem * G) :
    ∃ r, head_target w = (r, w) ∧
      match git_head w.2 with Some o => r = Ok (Some o) | None => ∀ o, r ≠ Ok (Some o) end;
  law_head_commit g o : git_head g = Some o → is_Some (git_commits g o);
  law_find_commit o c (w : FileSystem * G) :
    git_commits w.2 o = Some c → find_commit o w = (Ok o, w);
  law_commit_tree o c (w : FileSystem * G) :
    git_commits w.2 o = Some c → commit_tree o w = (Ok (cm_tree c), w);
  (** The first parent is the tip the reference moves from. *)
  law_commit name msg t ps (w : FileSystem * G) :
    git_refs w.2 !! resolve_ref w.2 name = head ps → (∀ o, o ∈ ps → is_Some (git_commits w.2 o)) →
    ∃ o g', commit name msg t ps w = (Ok o, (w.1, g')) ∧ git_index g' = git_index w.2 ∧
      git_head_name g' = git_head_name w.2 ∧
      git_refs g' = <[resolve_ref w.2 name := o]> (git_refs w.2) ∧
      git_commits g' o = Some (mkCommit msg t ps) ∧ keeps_commits w.2 g';
  (** The paths on which two trees differ. *)
  law_diff base t (w : FileSystem * G) :
    ∃ l, diff_tree_to_tree base t w = (Ok l, w) ∧ NoDup (omap delta_path l) ∧
      (∀ p, p ∈ omap delta_path l ↔ default ∅ base !! p ≠ t !! p) ∧
      (∀ d p, d ∈ l → delta_path d = Some p → (dl_status d = DDeleted ↔ t !! p = None));
  law_get_path t p b : t !! p = Some b → get_path t p = Some (Some b);
  law_get_path_absent t p : (∀ q, is_Some (t !! q) → ¬ p `prefix_of` q) → get_path t p = None;
  law_merge_base a b (w : FileSystem * G) :
    ∃ r, merge_base a b w = (r, w) ∧ ∀ o, r = Ok o → is_Some (git_commits w.2 o);
  law_checkout_tree t (w : FileSystem * G) :
    ∃ fs' g', checkout_tree_force t w = (Ok tt, (fs', g')) ∧ git_index g' = t ∧
      git_refs g' = git_refs w.2 ∧ git_head_name g' = git_head_name w.2 ∧ keeps_commits w.2 g';
  law_set_head name (w : FileSystem * G) :
    ∃ g', set_head name w = (Ok tt, (w.1, g')) ∧ git_head_name g' = name ∧
      git_refs g' = git_refs w.2 ∧ git_index g' = git_index w.2 ∧ keeps_commits w.2 g'
}.

(** ** Files *)

Lemma rel_path_ok k : key_ok k → rel_path k = key_path k.
Proof.
  intros Hk. rewrite <-(app_nil_l (key_path k)), <-record_path_ok by done.
  unfold rel_path, record_path. destruct (record_components k) as [[ns col] f].
  f_equal. f_equal. unfold path_join. by destruct (is_absolute ns).
Qed.

Lemma path_for_ok root k : key_ok k → path_for root k = root ++ key_path k.
Proof. exact (record_path_ok root k). Qed.

Lemma lock_path_eq root : path_join root LOCK_FILE = root ++ [LOCK_FILE].
Proof. reflexivity. Qed.

Lemma lock_file_dot : dot ∈ bytes_of_string LOCK_FILE.
Proof. apply elem_of_cons. by left. Qed.

Section git_files.
Context `{Blake3} `{SerdeRecordLaws}.
Implicit Types (root : path) (fs : FileSystem) (m : records) (k : RecordKey).

(** A working tree: it holds a map and its root is there. *)
Definition worktree root fs m : Prop :=
  holds root (fs_now fs) m ∧ node_at (fs_now fs) root = Some Dir.

Lemma worktree_ext root fs fs' m : worktree root fs m → fs_now fs' = fs_now fs → worktree root fs' m.
Proof. unfold worktree. by intros ? ->. Qed.

Lemma holds_top_file root t m x d s u :
  holds root t m → node_at t root = Some Dir → dot ∈ bytes_of_string x → x ≠ ".." →
  holds root (<[root ++ [x] := File d s u]> t) m.
Proof.
  intros [Hp Hc [Hl Hr] Hrec] Hdir Hdot Hx.
  assert (root ++ [x] ≠ []) as Hne by (by destruct root). split; [done| | |].
  - apply closed_insert; [done| |done|by rewrite parent_snoc|].
    + unfold plain in *. rewrite not_elem_of_app, list_elem_of_singleton. by split.
    + rewrite node_at_ne by done. intros Hn%Hl. done.
  - split.
    + intros p n [[Heq <-]|[_ ?]]%lookup_insert_Some; [|by apply Hl].
      apply app_inv_head in Heq as <-. done.
    + intros q Hq d' s' u'. rewrite node_at_insert by done. rewrite decide_False; [by apply Hr|].
      intros <-. apply prefix_length in Hq. rewrite length_app in Hq. cbn in Hq. lia.
  - intros k r (? & ? & d' & s' & u' & Hn & Hd)%Hrec. split_and!; [done..|]. exists d', s', u'.
    rewrite lookup_insert_ne; [done|]. by intros ?%app_inv_head.
Qed.

Lemma top_dir root t p n : node_at t root = Some Dir → p ≠ [] →
  node_at (<[root ++ p := n]> t) root = Some Dir.
Proof.
  intros Hd Hp. rewrite node_at_insert by (by destruct root, p). rewrite decide_False; [done|].
  intros Heq. rewrite <-(app_nil_r root) in Heq at 2. by apply app_inv_head in Heq.
Qed.

(** ** The lock *)

Lemma exec_lock root fs m : worktree root fs m →
  ∃ fs', exec (lock_repo root) fs = (Ok (root ++ [LOCK_FILE]), fs') ∧ worktree root fs' m ∧
    fs_clock fs' = fs_clock fs.
Proof.
  intros [Hh Hd]. unfold lock_repo. rewrite lock_path_eq.
  assert (walk (fs_now fs) [] (root ++ [LOCK_FILE]) = Ok (root ++ [LOCK_FILE])) as Hwalk.
  { apply walk_in_dir; [apply Hh| | |by rewrite parent_snoc].
    - pose proof (holds_plain _ _ _ Hh). unfold plain in *.
      rewrite not_elem_of_app, list_elem_of_singleton. by split.
    - intros q y r d s u Heq. apply (holds_layout _ _ _ Hh).
      destruct r as [|z r _] using rev_ind; [by apply app_inj_tail in Heq as [-> _]|].
      change (y :: r ++ [z]) with ((y :: r) ++ [z]) in Heq. rewrite app_assoc in Heq.
      apply app_inj_tail in Heq as [-> _]. by exists (y :: r). }
  assert (∃ d s u, open_file fs (root ++ [LOCK_FILE]) false =
    (Ok tt, set_now fs (<[root ++ [LOCK_FILE] := File d s u]> (fs_now fs)))) as (d & s & u & Hopen).
  { unfold open_file. rewrite Hwalk, node_at_ne by (by destruct root).
    destruct (fs_now fs !! (root ++ [LOCK_FILE])) as [[|d s u]|] eqn:Hn.
    - apply (proj1 (holds_layout _ _ _ Hh)) in Hn. exfalso. exact (Hn lock_file_dot).
    - exists d, s, u. by rewrite insert_id, set_now_eta.
    - by eexists [], false, _. }
  rewrite exec_tryp, (exec_sys (OpenOrCreate (root ++ [LOCK_FILE])) fs _ _ Hopen). cbn. eexists. split; [reflexivity|].
  split; [|done]. split; [apply holds_top_file; [done..|apply lock_file_dot|done]|by apply top_dir].
Qed.

(** ** Reading *)

Lemma exec_git_read root k fs m : worktree root fs m → key_ok k →
  exec (read_current (path_for root k)) fs = (Ok (m !! k), fs).
Proof. intros [Hh _] Hk. rewrite path_for_ok by done. by apply exec_read. Qed.

Lemma read_record_file root k fs m r : worktree root fs m → m !! k = Some r →
  ∃ b, (exec_call (Read (root ++ key_path k)) fs).1 = Ok b ∧ FsStore.from_slice b = Ok r.
Proof.
  intros [Hh _] Hr. destruct (holds_record _ _ _ Hh _ _ Hr) as (Hk & _ & d & s & u & Hn & Hd).
  exists d. split; [|done].
  pose proof (call_look root k m Hk fs (file_name k) (File d s u) Hh (file_name_neq k ".." eq_refl) Hn) as Hl.
  change (key_dir k ++ [file_name k]) with (key_path k) in Hl. revert Hl.
  generalize (root ++ key_path k). intros p Hl. cbn. by rewrite Hl.
Qed.

(** ** Writing *)

Lemma exec_bind_io {A B} (m : prog (result io_error A)) (f : A → prog (result io_error B)) fs :
  exec (tryio m f) fs =
    match exec m fs with (Ok a, fs') => exec (f a) fs' | (Err e, fs') => (Err e, fs') end.
Proof. unfold tryio. rewrite exec_bind. by destruct (exec m fs) as [[] ?]. Qed.

Lemma write_atomic_durable p r b fs : FsStore.to_vec_pretty r = Ok b →
  exec (write_atomic p b ≫= λ r, Ret (backend r)) fs = exec (write_durable p r) fs.
Proof.
  intros Hb. unfold write_durable. rewrite Hb, exec_tryp. cbn [exec map_err].
  unfold write_atomic, sys. cbv zeta.
  repeat (rewrite exec_bind, exec_bind_io || rewrite exec_bind_io); rewrite ?exec_tryp.
  unfold raw. cbn [exec].
  destruct (exec_call (Create _) fs) as [[[]|e] fs1]; cbn [exec map_err]; [|done].
  rewrite exec_bind_io, exec_tryp. cbn [exec].
  destruct (exec_call (WriteAll _ _) fs1) as [[[]|e] fs2]; cbn [exec map_err]; [|done].
  rewrite exec_bind_io, exec_tryp. cbn [exec].
  destruct (exec_call (SyncAll _) fs2) as [[[]|e] fs3]; cbn [exec map_err]; [|done].
  rewrite exec_bind_io, exec_tryp. cbn [exec].
  destruct (exec_call (Rename _ _) fs3) as [[[]|e] fs4]; cbn [exec map_err]; [|done].
  unfold with_parent. destruct p; [done|]. by rewrite exec_bind.
Qed.

Lemma exec_write root k fs m r b :
  worktree root fs m → key_ok k → rec_key r = k → FsStore.to_vec_pretty r = Ok b →
  ∃ fs1 fs2,
    exec (with_parent (root ++ key_path k) (λ d, sys (CreateDirAll d))) fs = (Ok tt, fs1) ∧
    exec (write_atomic (root ++ key_path k) b ≫= λ r, Ret (backend r)) fs1 = (Ok tt, fs2) ∧
    worktree root fs2 (<[k := r]> m).
Proof.
  intros [Hh Hd] Hk Hr Hb.
  rewrite with_parent_ne, parent_key_path by apply key_path_ne.
  assert (Pre root k false false false m (fs_clock fs) fs) as Hpre by by split_and!.
  destruct (call_mkdirs root k false false false m (fs_clock fs) Hk fs
    (length (root ++ key_dir k)) Hpre) as (t & Hcall & Hgrown & Hdir).
  rewrite take_ge in Hcall, Hdir by done. exists (set_now fs t).
  rewrite (exec_sys _ _ _ _ Hcall). cbn [map_err].
  assert (holds root t m) as Ht by (by eapply holds_grown).
  pose proof (safe_write root k false false false m (<[k := r]> m) (fs_clock fs) Hk
    (λ b x fs', b = false → x = Ok tt ∧ holds root (fs_now fs') (<[k := r]> m)) r false (set_now fs t)) as Hsafe.
  apply safe_exec in Hsafe; [|split; [done|by intros ? ? _ [? _] _]|by split_and!|done..].
  rewrite <-(write_atomic_durable _ _ b _ Hb) in Hsafe.
  destruct (exec (write_atomic _ b ≫= _) (set_now fs t)) as [x fs2]. cbn in Hsafe.
  destruct (Hsafe eq_refl) as [-> Hfin]. exists fs2. split_and!; [done|done|]. split; [done|].
  destruct (decide (root = [])) as [->|Hne]; [done|]. rewrite node_at_ne by done.
  apply (key_dirs root _ _ k Hfin); [by rewrite lookup_insert_eq|by apply prefix_app_r|done].
Qed.

(** ** Removing *)

Lemma exec_remove root k fs m : worktree root fs m → is_Some (m !! k) →
  ∃ fs', exec_call (RemoveFile (root ++ key_path k)) fs = (Ok tt, fs') ∧
    worktree root fs' (delete k m).
Proof.
  intros [Hh Hd] [r Hr]. destruct (holds_record _ _ _ Hh _ _ Hr) as (Hk & _ & d & s & u & Hn & _).
  pose proof (call_look root k m Hk fs (file_name k) (File d s u) Hh (file_name_neq k ".." eq_refl) Hn) as Hl.
  change (key_dir k ++ [file_name k]) with (key_path k) in Hl.
  exists (set_now fs (delete (root ++ key_path k) (fs_now fs))). split.
  { revert Hl. generalize (root ++ key_path k). intros p Hl. cbn. by rewrite Hl. }
  split; [by apply holds_remove|]. cbn [fs_now set_now].
  rewrite node_at_delete by apply key_path_ne. rewrite decide_False; [done|].
  intros Heq. rewrite <-(app_nil_r root) in Heq at 2. by apply app_inv_head in Heq.
Qed.
End git_files.
