(* ===== verification/GitSpec.v ===== *)
(** * GitSpec: the git store against the reference store

    On a repository that obeys [Git2Laws], every call answers what [MemStore] answers,
    leaves the working tree and the tree of [HEAD] holding what [MemStore] holds, and
    a write that changes anything is one commit on top of the one before. *)

From S2P Require Export GitFiles.
#[local] Open Scope gonzalo_scope.

Section spec.
Context `{Blake3} `{SerdeJson} `{SerdeRecordLaws} {G Oid : Type} `{Git2Laws G Oid}.
Variable s : GitStore.
Notation root := (gst_root s).
Notation cap := (gst_cap s).
Abbreviation W := (FileSystem * G)%type.

(** A tree holds a map: the file of every record, and no file for an absent key. *)
Definition in_tree (t : files) (m : records) : Prop := ∀ k, key_ok k →
  match m !! k with
  | Some r => ∃ b, t !! key_path k = Some b ∧ FsStore.from_slice b = Ok r
  | None => t !! key_path k = None
  end.

(** A repository whose index and [HEAD] do. *)
Record git_tracks (g : G) (m : records) : Prop := mkGitTracks {
  gt_workdir : git_workdir g = root;
  gt_index : git_index g = head_files g;
  gt_tree : in_tree (head_files g) m
}.

Definition git_holds (w : W) (m : records) : Prop := worktree root w.1 m ∧ git_tracks w.2 m.

(** The commit a write makes. *)
Record committed (g g' : G) (message : string) (m' : records) : Prop := mkCommitted {
  cd_kept : keeps_commits g g';
  cd_tracks : git_tracks g' m';
  cd_commit : ∃ o, git_head g' = Some o ∧
    git_commits g' o = Some (mkCommit message (head_files g') (option_list (git_head g)))
}.

Lemma in_tree_insert t m k r b : key_ok k → in_tree t m → FsStore.from_slice b = Ok r →
  in_tree (<[key_path k := b]> t) (<[k := r]> m).
Proof.
  intros Hk Ht Hb k' Hk'. destruct (decide (k' = k)) as [->|Hne].
  - rewrite !lookup_insert_eq. by exists b.
  - rewrite !lookup_insert_ne; [by apply Ht| |done]. intros ?%(inj key_path). congruence.
Qed.

Lemma in_tree_delete t m k : key_ok k → in_tree t m →
  in_tree (delete (key_path k) t) (delete k m).
Proof.
  intros Hk Ht k' Hk'. destruct (decide (k' = k)) as [->|Hne].
  - by rewrite !lookup_delete_eq.
  - rewrite !lookup_delete_ne; [by apply Ht| |done]. intros ?%(inj key_path). congruence.
Qed.

(** ** Committing *)

Lemma be_ok {A} (m : git G A) (w : W) a w' : m w = (Ok a, w') → be m w = (Ok a, w').
Proof. intros Hm. unfold be. by rewrite Hm. Qed.

Lemma be_bind {A B} (m : git G A) (f : A → M W CoreError B) w a w' :
  m w = (Ok a, w') → mbind f (be m) w = f a w'.
Proof. intros Hm. by apply bind_ok, be_ok. Qed.

Lemma parent_commit_ok (w : W) : parent_commit w = (Ok (option_list (git_head w.2)), w).
Proof.
  unfold parent_commit, try_with. destruct (law_head w) as (r & -> & Hr).
  destruct (git_head w.2) as [o|] eqn:Ho.
  - subst r. destruct (law_head_commit _ _ Ho) as [c Hc]. by rewrite (law_find_commit _ c).
  - destruct r as [[o|]|]; [by destruct (Hr o)|done..].
Qed.

Lemma quiet_head_eq g g' : quiet g g' → git_head g' = git_head g.
Proof. intros [_ Hr Hh _]. unfold git_head. by rewrite Hr, Hh. Qed.

(** An index written and committed: its files are the tree of the new [HEAD]. *)
Lemma commit_index_ok change message (w : W) idx g1 :
  git_workdir w.2 = root → change (git_index w.2) w = (Ok idx, (w.1, g1)) → quiet w.2 g1 →
  ∃ g' o, commit_index change root message w = (Ok tt, (w.1, g')) ∧ keeps_commits w.2 g' ∧
    git_index g' = idx ∧ git_head g' = Some o ∧
    git_commits g' o = Some (mkCommit message idx (option_list (git_head w.2))).
Proof.
  intros Hroot Hchange Hq1. unfold commit_index.
  rewrite (be_bind _ _ _ _ _ (law_open root w Hroot)), (be_bind _ _ _ _ _ (law_index w)).
  rewrite (be_bind _ _ _ _ _ Hchange).
  destruct (law_index_write idx (w.1, g1)) as (g2 & Hw2 & Hi2 & Hr2 & Hh2 & Hk2).
  rewrite (be_bind _ _ _ _ _ Hw2). cbn [fst snd] in *.
  destruct (law_write_tree idx (w.1, g2)) as (t & g3 & Hw3 & Hq3 & Hfind).
  rewrite (be_bind _ _ _ _ _ Hw3), (be_bind _ _ _ _ _ (Hfind w.1)), (be_bind _ _ _ _ _ (law_signature _)).
  rewrite (be_bind _ _ _ _ _ (parent_commit_ok _)). cbn [fst snd] in *.
  assert (git_head g3 = git_head w.2) as Hhead.
  { rewrite (quiet_head_eq _ _ Hq3). unfold git_head. rewrite Hr2, Hh2. apply (quiet_head_eq _ _ Hq1). }
  destruct (law_commit "HEAD" message idx (option_list (git_head g3)) (w.1, g3))
    as (o & g4 & Hw4 & Hi4 & Hh4 & Hr4 & Hc4 & Hk4).
  { change (git_head g3 = head (option_list (git_head g3))). by destruct (git_head g3). }
  { intros o Ho. apply law_head_commit. cbn. destruct (git_head g3) as [x|]; [|by apply elem_of_nil in Ho].
    by apply (list_elem_of_singleton o x) in Ho as ->. }
  rewrite (be_bind _ _ _ _ _ Hw4). cbn [fst snd] in *. exists g4, o. split; [done|].
  split; [|split; [|split]].
  - etrans; [apply (quiet_commits _ _ Hq1)|]. etrans; [apply Hk2|]. etrans; [apply (quiet_commits _ _ Hq3)|done].
  - rewrite Hi4, (quiet_index _ _ Hq3). done.
  - unfold git_head. rewrite Hr4, Hh4. by rewrite lookup_insert_eq.
  - by rewrite Hc4, Hhead.
Qed.

Lemma head_files_commit g o c : git_head g = Some o → git_commits g o = Some c → head_files g = cm_tree c.
Proof. intros Ho Hc. unfold head_files. rewrite Ho. cbn. by rewrite Hc. Qed.

(** A commit of a changed index, as the store's state sees it. *)
Lemma commit_changes change message (w : W) idx g1 m m' :
  git_tracks w.2 m → change (git_index w.2) w = (Ok idx, (w.1, g1)) → quiet w.2 g1 → in_tree idx m' →
  ∃ g', commit_index change root message w = (Ok tt, (w.1, g')) ∧ committed w.2 g' message m'.
Proof.
  intros Hg Hchange Hq Htree. pose proof (gt_workdir _ _ Hg) as Hroot.
  destruct (commit_index_ok change message w idx g1 Hroot Hchange Hq) as (g' & o & Hrun & Hk & Hi & Ho & Hc).
  exists g'. split; [done|]. pose proof (head_files_commit _ _ _ Ho Hc) as Hfiles. cbn in Hfiles.
  split; [done| |exists o; by rewrite Hfiles].
  split; [by rewrite (kept_workdir _ _ Hk)|by rewrite Hfiles|by rewrite Hfiles].
Qed.

(** ** One record *)

Lemma on_files_bind {A B} (p : prog (Result A)) (f : A → M W CoreError B) (w : W) a fs :
  exec p w.1 = (Ok a, fs) → mbind f (on_files p) w = f a (fs, w.2).
Proof. intros Hp. apply bind_ok. unfold on_files. by rewrite Hp. Qed.

Lemma write_and_commit_ok r message fs g m :
  worktree root fs m → git_tracks g m → key_ok (rec_key r) →
  ∃ fs' g', write_and_commit root r message (fs, g) = (Ok tt, (fs', g')) ∧
    worktree root fs' (<[rec_key r := r]> m) ∧ committed g g' message (<[rec_key r := r]> m).
Proof.
  intros Hw Hg Hk. destruct (from_slice_to_vec r) as (b & Hto & _).
  destruct (exec_write root (rec_key r) fs m r b Hw Hk eq_refl Hto) as (fs1 & fs2 & Hdirs & Hwrite & Hw2).
  destruct (read_record_file root (rec_key r) fs2 _ r Hw2 (lookup_insert_eq _ _ _)) as (b' & Hread & Hb').
  destruct (law_add_path root (key_path (rec_key r)) b' (git_index g) (fs2, g) (gt_workdir _ _ Hg) Hread)
    as (g1 & Hadd & Hq).
  destruct (commit_changes (index_add_path root (key_path (rec_key r))) message (fs2, g) _ g1 m
    (<[rec_key r := r]> m) Hg Hadd Hq) as (g' & Hrun & Hc).
  { rewrite (gt_index _ _ Hg). by apply in_tree_insert, Hb'; [|apply (gt_tree _ _ Hg)]. }
  exists fs2, g'. unfold write_and_commit. rewrite rel_path_ok by done.
  rewrite (on_files_bind _ _ (fs, g) _ _ Hdirs), Hto. cbn [map_err]. unfold mbind at 1, M_bind at 1, lift.
  rewrite (on_files_bind _ _ (fs1, g) _ _ Hwrite). by split_and!.
Qed.

Lemma remove_and_commit_ok k message fs g m :
  worktree root fs m → git_tracks g m → is_Some (m !! k) → key_ok k →
  ∃ fs' g', remove_and_commit root k message (fs, g) = (Ok tt, (fs', g')) ∧
    worktree root fs' (delete k m) ∧ committed g g' message (delete k m).
Proof.
  intros Hw Hg Hm Hk. destruct (exec_remove root k fs m Hw Hm) as (fs1 & Hrm & Hw1).
  destruct (commit_changes (index_remove_path (key_path k)) message (fs1, g)
    (delete (key_path k) (git_index g)) g m (delete k m) Hg) as (g' & Hrun & Hc); [apply law_remove_path|done| |].
  { rewrite (gt_index _ _ Hg). by apply in_tree_delete, (gt_tree _ _ Hg). }
  exists fs1, g'. unfold remove_and_commit. rewrite rel_path_ok by done.
  erewrite (on_files_bind _ _ (fs, g)); [by split_and!|]. cbn [fst]. by rewrite (exec_raw_bind _ _ _ _ _ Hrm).
Qed.

(** The critical section: its body starts from the same map, at the same moment. *)
Lemma with_lock_ok {A} (body : M W CoreError A) (w : W) r m m' (Q : G → Prop) :
  git_holds w m →
  (∀ fs, worktree root fs m → fs_clock fs = fs_clock w.1 →
     ∃ fs' g', body (fs, w.2) = (r, (fs', g')) ∧ worktree root fs' m' ∧ Q g') →
  ∃ w', with_lock root body w = (r, w') ∧ worktree root w'.1 m' ∧ Q w'.2.
Proof.
  intros [Hw _] Hbody. destruct (exec_lock root w.1 m Hw) as (fs1 & Hlock & Hw1 & Hclock).
  destruct (Hbody fs1 Hw1 Hclock) as (fs2 & g2 & Hrun & Hw2 & HQ).
  unfold with_lock, on_files. rewrite Hlock, Hrun. eexists. split; [reflexivity|].
  split; [|done]. by eapply worktree_ext.
Qed.

Lemma git_read_bind {B} k (f : option record → M W CoreError B) fs g m :
  worktree root fs m → key_ok k → mbind f (git_read root k) (fs, g) = f (m !! k) (fs, g).
Proof. intros Hw Hk. unfold git_read. apply (on_files_bind _ _ (fs, g)). by apply exec_git_read. Qed.

(** What a write leaves: nothing was committed, or it was. *)
Definition landed (g g' : G) (message : string) (m m' : records) : Prop :=
  (g' = g ∧ m' = m) ∨ committed g g' message m'.

Lemma landed_tracks g g' message m m' : git_tracks g m → landed g g' message m m' → git_tracks g' m'.
Proof. by intros Hg [[-> ->]|Hc]; [|apply (cd_tracks _ _ _ _ Hc)]. Qed.

Lemma git_put_locked_ok plan r e (w : W) m :
  git_holds w m → key_ok (rec_key r) →
  (∀ c s now, plan c r e now cap = PutWrite s → rec_key s = rec_key r) →
  let '(res, m') := apply_put (plan (m !! rec_key r) r e (now_ms (fs_clock w.1)) cap) (rec_key r) m in
  ∃ w', git_put_locked s r e plan w = (res, w') ∧ worktree root w'.1 m' ∧
    landed w.2 w'.2 ("put " +:+ key_to_string (rec_key r)) m m'.
Proof.
  intros Hw Hk Hplan. destruct (apply_put _ _ _) as [res m'] eqn:Hap.
  unfold git_put_locked. cbv zeta.
  apply (with_lock_ok _ w res m m' (λ g', landed w.2 g' ("put " +:+ key_to_string (rec_key r)) m m') Hw).
  intros fs Hwt Hclock. rewrite (git_read_bind _ _ _ _ m) by done.
  erewrite bind_ok; [|reflexivity]. cbn [fst snd]. rewrite Hclock. revert Hap.
  destruct (plan (m !! rec_key r) r e _ cap) as [st|c| |reason] eqn:Hp; cbn; intros [= <- <-];
    try (by exists fs, w.2; split_and!; [..|left]).
  apply Hplan in Hp. rewrite <-Hp in *.
  destruct (write_and_commit_ok st ("put " +:+ key_to_string (rec_key st)) fs w.2 m Hwt (proj2 Hw) Hk)
    as (fs' & g' & Hrun & Hw' & Hc).
  exists fs', g'. rewrite (bind_ok _ _ _ _ _ Hrun). split_and!; [done..|by right].
Qed.

Lemma git_delete_ok k e a (w : W) m :
  git_holds w m → key_ok k →
  let '(res, m') := apply_delete (plan_delete (m !! k) e (now_ms (fs_clock w.1)) cap a) k m in
  ∃ w', git_delete_as s k e a w = (res, w') ∧ worktree root w'.1 m' ∧
    landed w.2 w'.2 ("delete " +:+ key_to_string k) m m'.
Proof.
  intros Hw Hk. destruct (apply_delete _ _ _) as [res m'] eqn:Hap. unfold git_delete_as.
  apply (with_lock_ok _ w res m m' (λ g', landed w.2 g' ("delete " +:+ key_to_string k) m m') Hw).
  intros fs Hwt Hclock. rewrite (git_read_bind _ _ _ _ m) by done.
  erewrite bind_ok; [|reflexivity]. cbn [fst snd]. rewrite Hclock. revert Hap.
  destruct (plan_delete (m !! k) e _ cap a) as [t| |c] eqn:Hp; cbn; intros [= <- <-];
    try (by exists fs, w.2; split_and!; [..|left]).
  apply plan_delete_write in Hp as (c & Hc & _ & _ & ->).
  apply (holds_record _ _ _ (proj1 Hwt)) in Hc as (_ & Hkey & _).
  rewrite <-Hkey, <-(tombstone_of_key c (now_ms (fs_clock w.1)) cap a) in *.
  destruct (write_and_commit_ok (tombstone_of c (now_ms (fs_clock w.1)) cap a)
    ("delete " +:+ key_to_string (rec_key (tombstone_of c (now_ms (fs_clock w.1)) cap a)))
    fs w.2 m Hwt (proj2 Hw) Hk) as (fs' & g' & Hrun & Hw' & Hcm).
  exists fs', g'. rewrite (bind_ok _ _ _ _ _ Hrun). split_and!; [done..|by right].
Qed.

Lemma git_purge_ok k e (w : W) m :
  git_holds w m → key_ok k →
  let '(res, m') := apply_purge (plan_purge (m !! k) e) k m in
  ∃ w', git_purge s k e w = (res, w') ∧ worktree root w'.1 m' ∧
    landed w.2 w'.2 ("purge " +:+ key_to_string k) m m'.
Proof.
  intros Hw Hk. destruct (apply_purge _ _ _) as [res m'] eqn:Hap. unfold git_purge.
  apply (with_lock_ok _ w res m m' (λ g', landed w.2 g' ("purge " +:+ key_to_string k) m m') Hw).
  intros fs Hwt _. rewrite (git_read_bind _ _ _ _ m) by done. revert Hap.
  destruct (plan_purge (m !! k) e) as [| |c] eqn:Hp; cbn; intros [= <- <-];
    try (by exists fs, w.2; split_and!; [..|left]).
  destruct (remove_and_commit_ok k ("purge " +:+ key_to_string k) fs w.2 m Hwt (proj2 Hw))
    as (fs' & g' & Hrun & Hw' & Hc); [|done|].
  { unfold plan_purge in Hp. destruct (m !! k); [by eexists|done]. }
  exists fs', g'. rewrite (bind_ok _ _ _ _ _ Hrun). split_and!; [done..|by right].
Qed.

(** ** Listing *)

(** The walk skips [.git], and is otherwise [FsStore]'s. *)
Lemma exec_git_collect_keys prefix fs m : worktree root fs m →
  exec (git_collect_keys root prefix) fs = exec (collect_keys root prefix) fs.
Proof.
  intros [Hh Hd]. rewrite (exec_collect_keys root fs m Hh). unfold git_collect_keys.
  assert (look (fs_now fs) root = Ok (root, Dir)) as Hlook.
  { rewrite look_plain, Hd; [done|apply Hh|apply Hh|]. intros q x r d s0 u Heq.
    apply (holds_layout _ _ _ Hh). by exists (x :: r). }
  rewrite (exec_raw_bind _ _ _ (Ok (children (fs_now fs) root)) fs) by (cbn; by rewrite Hlook).
  rewrite (exec_forp (λ ns, children (fs_now fs) (root ++ [ns]) ≫= col_keys (fs_now fs) root prefix ns)); [done|].
  intros ns acc Hns. unfold git_collect_ns. case_decide as Hgit; [|exact (exec_collect_ns root fs m Hh prefix ns acc Hns)].
  assert (children (fs_now fs) (root ++ [ns]) ≫= col_keys (fs_now fs) root prefix ns = []) as ->;
    [|by rewrite app_nil_r].
  destruct (_ ≫= _) as [|k l] eqn:E; [done|]. exfalso.
  assert (k ∈ children (fs_now fs) (root ++ [ns]) ≫= col_keys (fs_now fs) root prefix ns) as Hk
    by (rewrite E; by left).
  apply list_elem_of_bind in Hk as (col & Hk & _). apply (elem_of_col_keys root fs m Hh) in Hk as (_ & _ & Hdir).
  injection Hdir as <- _. rewrite to_string_lossy_ascii in Hgit by apply ascii_segment.
  apply (proj2 (segment_inert (key_namespace k))). rewrite Hgit. apply elem_of_cons. by left.
Qed.

Lemma git_lists prefix (w : W) m : git_holds w m →
  git_list_raw s prefix w = on_files (fs_list_raw (mkFsStore root cap) prefix) w ∧
  git_list s prefix w = on_files (fs_list (mkFsStore root cap) prefix) w.
Proof.
  intros [Hw _]. unfold git_list_raw, git_list, on_files, fs_list_raw, fs_list.
  rewrite !exec_tryp, (exec_git_collect_keys prefix w.1 m Hw). done.
Qed.

(** ** The store *)

(** The message of a write's commit. *)
Definition commit_message (op : StoreOp) : string :=
  match op with
  | OpPut r _ | OpPutRaw r _ => "put " +:+ key_to_string (rec_key r)
  | OpDelete k _ _ => "delete " +:+ key_to_string k
  | OpPurge k _ => "purge " +:+ key_to_string k
  | _ => ""
  end.

Lemma git_get_raw_ok k (w : W) m : git_holds w m → key_ok k → git_get_raw s k w = (Ok (m !! k), w).
Proof.
  intros [Hw _] Hk. unfold git_get_raw, git_read, on_files. rewrite (exec_git_read root k w.1 m Hw Hk).
  by destruct w.
Qed.

Lemma respond_landed {A} (f : A → Response) (run : W → A * W) res (w : W) g message m m' :
  git_tracks g m → (∃ w', run w = (res, w') ∧ worktree root w'.1 m' ∧ landed g w'.2 message m m') →
  let '(r, w') := respond f (run w) in
  r = f res ∧ git_holds w' m' ∧ landed g w'.2 message m m'.
Proof.
  intros Hg (w' & -> & Hw & Hl). cbn. split_and!; [done|split; [done|by eapply landed_tracks]|done].
Qed.

(** C5: the git store refines the reference store, one commit per write.  From a
    working tree and a [HEAD] that hold a map, every call on keys with paths of their
    own is answered as [MemStore] answers it, lists up to the order of the
    directories, and leaves both holding [MemStore]'s map; and either it left the
    repository as it was, the map with it, or it made one commit, named after the
    operation, whose only parent is the [HEAD] before, and lost none. *)
Theorem git_refines_memstore (op : StoreOp) (t : SystemTime) (w : W) (m : records) :
  git_holds w m → op_ok op →
  let '(r, w') := call_op (git_store s) op (set_clock w.1 t, w.2) in
  let '(r', m') := call_op (reference cap t) op m in
  same_response r r' ∧ git_holds w' m' ∧ landed w.2 w'.2 (commit_message op) m m'.
Proof.
  intros Hw Hop. set (w0 := (set_clock w.1 t, w.2)).
  assert (git_holds w0 m) as Hw0 by (destruct Hw; split; [by eapply worktree_ext|done]).
  destruct op as [k|r e|p|k e a|k|p|r e|k e];
    cbn [call_op git_store st_get st_put st_list st_delete_as st_get_raw st_list_raw st_put_raw st_purge
      reference mem_store].
  - unfold git_get, w0. rewrite (git_read_bind k _ _ _ m (proj1 Hw0) Hop). fold w0.
    unfold MemStore_get. cbn. rewrite get_live. split_and!; [apply same_refl|exact Hw0|by left].
  - unfold MemStore_put. rewrite mem_write_apply.
    pose proof (git_put_locked_ok plan_put r e w0 m Hw0 Hop ltac:(intros *; apply plan_put_key)) as Hput.
    cbn [w0 fst fs_clock set_clock] in Hput. destruct (apply_put _ _ _) as [res m'].
    apply (respond_landed RPut _ _ _ w.2) in Hput; [|apply Hw]. fold w0 in Hput |- *. unfold git_put.
    destruct (respond RPut (git_put_locked s r e plan_put w0)). destruct Hput as (-> & ? & ?). split_and!; [apply same_refl|done..].
  - destruct (git_lists p w0 m Hw0) as [_ ->]. unfold on_files.
    destruct (fs_list_spec root w0.1 m (proj1 (proj1 Hw0)) (mkFsStore root cap) p eq_refl) as (l & -> & Hnd & Hl).
    destruct (MemStore_list_spec (mkMemStore lens_id cap None) p m (holds_keyed _ _ _ (proj1 (proj1 Hw0))))
      as (l' & Hrun & Hnd'%increasing_NoDup & Hl').
    rewrite Hrun. cbn. split_and!; [|exact Hw0|by left]. apply same_keys, NoDup_Permutation; [done..|].
    intros k. by rewrite Hl, Hl'.
  - rewrite mem_delete_apply. pose proof (git_delete_ok k e a w0 m Hw0 Hop) as Hdel.
    cbn [w0 fst fs_clock set_clock] in Hdel. destruct (apply_delete _ _ _) as [res m'].
    apply (respond_landed RDelete _ _ _ w.2) in Hdel; [|apply Hw]. fold w0 in Hdel |- *.
    destruct (respond RDelete (git_delete_as s k e a w0)). destruct Hdel as (-> & ? & ?). split_and!; [apply same_refl|done..].
  - rewrite (git_get_raw_ok k w0 m Hw0 Hop). cbn. split_and!; [apply same_refl|exact Hw0|by left].
  - destruct (git_lists p w0 m Hw0) as [-> _]. unfold on_files.
    destruct (fs_list_raw_spec root w0.1 m (proj1 (proj1 Hw0)) (mkFsStore root cap) p eq_refl) as (l & -> & Hnd & Hl).
    cbn. split_and!; [|exact Hw0|by left]. apply same_keys, NoDup_Permutation; [done| |].
    + apply NoDup_filter, increasing_NoDup, btree_keys_increasing.
    + intros k. rewrite Hl, list_elem_of_filter, elem_of_btree_keys. naive_solver.
  - unfold MemStore_put_raw. rewrite mem_write_apply.
    pose proof (git_put_locked_ok plan_put_raw r e w0 m Hw0 Hop ltac:(intros *; apply plan_put_raw_key)) as Hput.
    cbn [w0 fst fs_clock set_clock] in Hput. destruct (apply_put _ _ _) as [res m'].
    apply (respond_landed RPut _ _ _ w.2) in Hput; [|apply Hw]. fold w0 in Hput |- *. unfold git_put_raw.
    destruct (respond RPut (git_put_locked s r e plan_put_raw w0)). destruct Hput as (-> & ? & ?). split_and!; [apply same_refl|done..].
  - rewrite mem_purge_apply. pose proof (git_purge_ok k e w0 m Hw0 Hop) as Hpurge.
    destruct (apply_purge _ _ _) as [res m'].
    apply (respond_landed RDelete _ _ _ w.2) in Hpurge; [|apply Hw]. fold w0 in Hpurge |- *.
    destruct (respond RDelete (git_purge s k e w0)). destruct Hpurge as (-> & ? & ?). split_and!; [apply same_refl|done..].
Qed.
End spec.

(** ** A commit that fails *)

Section faults.
Context `{Blake3} `{SerdeJson} `{SerdeRecordLaws} {G Oid : Type} `{Git2 G Oid}.
Variable s : GitStore.
Notation root := (gst_root s).

(** C38: a put whose commit fails is visible all the same.  Whatever libgit2 is, when
    its commit of a written record fails, say because another process holds the index,
    a put the planner accepts answers that error, but the record is in the working
    tree: the next read returns it, though no commit holds it and no push sends it. *)
Theorem failed_commit_stays_visible (r stored : record) (e : option Revision) (error : CoreError)
    (fs : FileSystem) (g : G) (m : records) :
  worktree root fs m → key_ok (rec_key r) →
  plan_put (m !! rec_key r) r e (now_ms (fs_clock fs)) (gst_cap s) = PutWrite stored →
  (∀ w, ∃ g', commit_file root (rel_path (rec_key r)) ("put " +:+ key_to_string (rec_key r)) w =
    (Err error, (w.1, g'))) →
  ∃ w', git_put s r e (fs, g) = (Err error, w') ∧
    git_get s (rec_key r) w' = (Ok (Some stored), w').
Proof.
  intros Hw Hk Hplan Hfail. pose proof (plan_put_key _ _ _ _ _ _ Hplan) as Hkey.
  pose proof (plan_put_live _ _ _ _ _ _ Hplan) as Hlive.
  destruct (exec_lock root fs m Hw) as (fs1 & Hlock & Hw1 & Hclock).
  destruct (from_slice_to_vec stored) as (b & Hto & _).
  destruct (exec_write root (rec_key r) fs1 m stored b Hw1 Hk Hkey Hto) as (fs2 & fs3 & Hdirs & Hwrite & Hw3).
  destruct (Hfail (fs3, g)) as [g' Hcommit].
  unfold git_put, git_put_locked, with_lock. unfold on_files at 1. cbn [fst snd]. rewrite Hlock.
  unfold git_read, mbind, M_bind. unfold on_files at 1. cbn [fst snd].
  rewrite (exec_git_read root _ fs1 m Hw1 Hk). unfold git_now. cbn [fst snd exec clock exec_call].
  rewrite Hclock, Hplan. unfold write_and_commit. rewrite Hkey. unfold mbind, M_bind.
  rewrite (rel_path_ok _ Hk) in *. unfold on_files at 1. cbn [fst snd]. rewrite Hdirs. unfold lift.
  rewrite Hto. cbn [map_err]. unfold on_files at 1. cbn [fst snd]. unfold mbind in Hwrite.
  rewrite Hwrite, Hcommit.
  eexists. split; [reflexivity|]. unfold git_get, git_read, mbind, M_bind, on_files. cbn [fst snd].
  rewrite (exec_git_read root _ _ (<[rec_key r := stored]> m)); [| |done].
  - rewrite lookup_insert_eq. cbn. by rewrite Hlive.
  - by eapply worktree_ext.
Qed.
End faults.
