(* ===== verification/GitPull.v ===== *)
(** * GitPull: what a pull makes of two histories

    A diverged pull decides every path of the two trees by itself: a path only one
    side changed takes that side, a record both changed is decided by [merge_both].
    The result is one commit with both histories as parents. *)

From S2P Require Export GitSpec.
#[local] Open Scope gonzalo_scope.

(** ** One record changed on both sides *)

(** What becomes of the file and what the report says. *)
Inductive Verdict :=
  | KeepLocal
  | TakeRemote (r : record)
  | Advance (r : record)
  | MergeInto (x : record)
  | Surface (l r : record).

Section pull.
Context `{Blake3} `{SerdeJson} `{SerdeRecordLaws} {G Oid : Type} `{Git2Laws G Oid}.
Abbreviation W := (FileSystem * G)%type.
Implicit Types (w : W) (base local remote t : files) (p : path).

Definition verdict (cap : nat) (base l r : option record) : Verdict :=
  match l, r with
  | Some l, Some r =>
      if decide (rec_revision l = rec_revision r) then KeepLocal
      else if decide (rec_revision l ∈ rec_ancestors r) then Advance r
      else if decide (rec_revision r ∈ rec_ancestors l) then KeepLocal
      else if is_tombstone l && is_tombstone r then MergeInto (tombstone_winner l r cap)
      else if is_tombstone l || is_tombstone r then Surface l r
      else if decide (rec_body l = rec_body r) then KeepLocal
      else match Merge.merge (merge_class (rec_kind l))
                   match base with Some b => rec_body b | None => Inline [] end
                   (rec_body l) (rec_body r) with
           | Merged body => MergeInto (merged_record l r body cap)
           | NeedsResolution => Surface l r
           end
  | None, Some r => TakeRemote r
  | _, None => KeepLocal
  end.

Definition encoded (r : record) (o : option bytes) : Prop :=
  ∃ b, o = Some b ∧ FsStore.from_slice b = Ok r.

(** The file a verdict leaves, [o] being the local one. *)
Definition rules (v : Verdict) (o o' : option bytes) : Prop :=
  match v with
  | KeepLocal | Surface _ _ => o' = o
  | TakeRemote x | Advance x | MergeInto x => encoded x o'
  end.

Definition report_verdict (v : Verdict) (key : RecordKey) (rep : PullReport) : PullReport :=
  match v with
  | KeepLocal | TakeRemote _ => rep
  | Advance _ => push_advanced key rep
  | MergeInto _ => push_merged key rep
  | Surface l r => push_pull_conflict (mkPullConflict key l r) rep
  end.

Lemma stage_record_ok p x t w : ∃ b g',
  stage_record p x t w = (Ok (<[p := b]> t), (w.1, g')) ∧ quiet w.2 g' ∧ FsStore.from_slice b = Ok x.
Proof.
  destruct (from_slice_to_vec x) as (b & Hto & Hb). unfold stage_record. rewrite Hto.
  destruct (law_add_frombuffer p b t w) as (g' & Hadd & Hq). exists b, g'.
  unfold mbind, M_bind, lift. cbn. by rewrite (be_ok _ _ _ _ Hadd).
Qed.

(** A staged record in a step of the loop. *)
Lemma stage_step p x t w (f : PullReport) : ∃ o g',
  (index ← stage_record p x t; mret (index, f)) w = (Ok (<[p := o]> t, f), (w.1, g')) ∧
  quiet w.2 g' ∧ FsStore.from_slice o = Ok x.
Proof.
  destruct (stage_record_ok p x t w) as (b & g' & Hrun & Hq & Hb). exists b, g'.
  by rewrite (bind_ok _ _ _ _ _ Hrun).
Qed.

(** What a step does to the index: at most the file of its path changes. *)
Definition stepped p (Q : option bytes → Prop) (t t' : files) : Prop :=
  (∀ q, q ≠ p → t' !! q = t !! q) ∧ Q (t' !! p).

Lemma stepped_insert p b t Q : Q (Some b) → stepped p Q t (<[p := b]> t).
Proof. intros HQ. split; [|by rewrite lookup_insert_eq]. intros q Hq. by rewrite lookup_insert_ne. Qed.

(** [merge_both] carries the verdict out. *)
Lemma merge_both_verdict base_tree cap p key l r t rep w (base : option record) :
  record_at base_tree p = Ok base →
  ∃ t' g', merge_both base_tree cap p key l r t rep w =
      (Ok (t', report_verdict (verdict cap base l r) key rep), (w.1, g')) ∧ quiet w.2 g' ∧
    stepped p (rules (verdict cap base l r) (t !! p)) t t'.
Proof.
  intros Hbase.
  assert (∃ t' g', (Ok (t, rep), w) = ((Ok (t', rep), (w.1, g')) : Result (files * PullReport) * W) ∧
    quiet w.2 g' ∧ stepped p (λ o', o' = t !! p) t t') as Hkeep by (exists t, w.2; by destruct w).
  destruct l as [l|], r as [r|]; cbn; try done.
  2: { destruct (stage_step p r t w rep) as (b & g' & -> & Hq & Hb). eexists _, g'.
       split_and!; [done..|apply stepped_insert; by exists b]. }
  case_decide as Hsame; [done|].
  case_decide as Hbehind.
  { destruct (stage_step p r t w (push_advanced key rep)) as (b & g' & -> & Hq & Hb). eexists _, g'.
    split_and!; [done..|apply stepped_insert; by exists b]. }
  case_decide as Hahead; [done|].
  destruct (is_tombstone l && is_tombstone r).
  { destruct (stage_step p (tombstone_winner l r cap) t w (push_merged key rep)) as (b & g' & -> & Hq & Hb).
    eexists _, g'. split_and!; [done..|apply stepped_insert; by exists b]. }
  destruct (is_tombstone l || is_tombstone r); [exists t, w.2; by destruct w|].
  destruct (decide (rec_body l = rec_body r)) as [Heq|Hne].
  { by rewrite decide_False by auto. }
  rewrite decide_True by done. rewrite Hbase. cbn. unfold mbind, M_bind, lift.
  destruct (Merge.merge _ _ _ _) as [body|]; [|exists t, w.2; by destruct w].
  destruct (stage_step p (merged_record l r body cap) t w (push_merged key rep)) as (b & g' & Hrun & Hq & Hb).
  unfold mbind, M_bind in Hrun. rewrite Hrun. eexists _, g'.
  split_and!; [done..|apply stepped_insert; by exists b].
Qed.

(** ** Every path *)

(** Every file of a tree is a record's, in a collection's directory. *)
Definition tree_ok (t : files) : Prop := ∀ p b, t !! p = Some b →
  length p = 3 ∧ ∃ r, FsStore.from_slice b = Ok r.

Definition decoded (t : files) p : option record :=
  b ← t !! p; match FsStore.from_slice b with Ok r => Some r | Err _ => None end.

Definition tree_of (base : option files) : files := default ∅ base.

Variables (base : option files) (local_tree remote_tree : files) (cap : nat).
Hypothesis Hlocal : tree_ok local_tree.
Hypothesis Hremote : tree_ok remote_tree.
Hypothesis Hbase : tree_ok (tree_of base).

Definition both_changed p : Prop :=
  tree_of base !! p ≠ local_tree !! p ∧ tree_of base !! p ≠ remote_tree !! p.

#[export] Instance both_changed_dec p : Decision (both_changed p).
Proof. unfold both_changed. apply _. Defined.

Definition path_verdict p : Verdict :=
  verdict cap (decoded (tree_of base) p) (decoded local_tree p) (decoded remote_tree p).

(** What a pull leaves at a path. *)
Definition path_outcome p (o : option bytes) : Prop :=
  (tree_of base !! p = remote_tree !! p → o = local_tree !! p) ∧
  (tree_of base !! p = local_tree !! p → o = remote_tree !! p) ∧
  (both_changed p →
    match key_from_path p with
    | Some _ => rules (path_verdict p) (local_tree !! p) o
    | None => o = local_tree !! p
    end).

Definition report_path (rep : PullReport) p : PullReport :=
  if decide (both_changed p) then
    match key_from_path p with Some key => report_verdict (path_verdict p) key rep | None => rep end
  else rep.

Lemma record_at_ok (t : option files) p : tree_ok (tree_of t) → length p = 3 →
  record_at t p = Ok (decoded (tree_of t) p).
Proof.
  intros Ht Hp. destruct t as [t|]; cbn in *; [|by unfold decoded; rewrite lookup_empty].
  unfold decoded. destruct (t !! p) as [b|] eqn:Hb.
  - rewrite (law_get_path _ _ _ Hb). destruct (Ht p b Hb) as [_ [r Hr]]. cbn. by rewrite Hr.
  - rewrite law_get_path_absent; [done|]. intros q [b' Hq] Hpre.
    destruct (Ht q b' Hq) as [Hlen _]. apply prefix_length_eq in Hpre; [|lia]. by subst q; congruence.
Qed.

Lemma changed_length t p : tree_ok t → tree_of base !! p ≠ t !! p → length p = 3.
Proof.
  intros Ht Hne. destruct (t !! p) as [b|] eqn:Hb; [by apply (Ht p b)|].
  destruct (tree_of base !! p) as [b|] eqn:Hb'; [by apply (Hbase p b)|done].
Qed.

Lemma outcome_one_sided p : tree_of base !! p = local_tree !! p → path_outcome p (remote_tree !! p).
Proof. intros Heq. split_and!; [congruence|done|]. by intros [[] _]. Qed.

(** One delta of the remote side. *)
Lemma merge_delta_ok (changed : gset path) d p t rep w :
  delta_path d = Some p → tree_of base !! p ≠ remote_tree !! p →
  (p ∈ changed ↔ tree_of base !! p ≠ local_tree !! p) → (dl_status d = DDeleted ↔ remote_tree !! p = None) →
  t !! p = local_tree !! p →
  ∃ t' g', merge_delta base local_tree remote_tree changed cap (t, rep) d w =
      (Ok (t', report_path rep p), (w.1, g')) ∧ quiet w.2 g' ∧ stepped p (path_outcome p) t t'.
Proof.
  intros Hd Hne Hchanged Hdel Htp. unfold merge_delta, report_path. rewrite Hd. cbn [fst snd].
  destruct (decide (tree_of base !! p = local_tree !! p)) as [Heq|Hboth].
  - rewrite decide_True by (rewrite Hchanged; naive_solver).
    rewrite (decide_False (P:=both_changed p)) by (by intros [[] _]).
    pose proof (outcome_one_sided p Heq) as Hout. case_decide as Hst.
    + rewrite (be_bind _ _ _ _ _ (law_remove_path p t w)). eexists _, w.2. split; [by destruct w|].
      split; [done|]. split; [intros q Hq; by rewrite lookup_delete_ne|].
      rewrite lookup_delete_eq. apply Hdel in Hst. by rewrite Hst in Hout.
    + destruct (remote_tree !! p) as [b|] eqn:Hb; [|by destruct Hst; apply Hdel].
      unfold tree_blob. rewrite (law_get_path _ _ _ Hb). cbn [mjoin option_join].
      destruct (law_add_frombuffer p b t w) as (g' & Hadd & Hq).
      rewrite (be_bind _ _ _ _ _ Hadd). eexists _, g'. split_and!; [done..|]. by apply stepped_insert.
  - rewrite decide_False by (rewrite Hchanged; naive_solver).
    rewrite (decide_True (P:=both_changed p)) by done.
    assert (length p = 3) as Hlen by (by apply (changed_length remote_tree)).
    assert (∀ o, (match key_from_path p with Some _ => rules (path_verdict p) (local_tree !! p) o
      | None => o = local_tree !! p end) → path_outcome p o) as Hout.
    { intros o Ho. split_and!; [congruence|congruence|done]. }
    destruct (key_from_path p) as [key|]; [|exists t, w.2; split_and!; [by destruct w|done|split; [done|by apply Hout]]].
    rewrite (record_at_ok (Some local_tree)), (record_at_ok (Some remote_tree)) by done.
    destruct (merge_both_verdict base cap p key (decoded local_tree p) (decoded remote_tree p) t rep w
      (decoded (tree_of base) p)) as (t' & g' & Hrun & Hq & Hother & Hrules); [by apply record_at_ok|].
    unfold mbind, M_bind, lift. cbv beta iota.
    change (tree_of (Some local_tree)) with local_tree. change (tree_of (Some remote_tree)) with remote_tree.
    rewrite Hrun. exists t', g'. split_and!; [done..|]. split; [done|]. apply Hout. by rewrite <-Htp.
Qed.

Lemma report_verdict_grows v key rep :
  (∀ k, k ∈ pr_advanced rep → k ∈ pr_advanced (report_verdict v key rep)) ∧
  (∀ k, k ∈ pr_merged rep → k ∈ pr_merged (report_verdict v key rep)) ∧
  (∀ c, c ∈ pr_conflicts rep → c ∈ pr_conflicts (report_verdict v key rep)).
Proof. destruct v; cbn; set_solver. Qed.

Lemma report_path_grows rep p :
  (∀ k, k ∈ pr_advanced rep → k ∈ pr_advanced (report_path rep p)) ∧
  (∀ k, k ∈ pr_merged rep → k ∈ pr_merged (report_path rep p)) ∧
  (∀ c, c ∈ pr_conflicts rep → c ∈ pr_conflicts (report_path rep p)).
Proof.
  unfold report_path. case_decide; [|done]. destruct (key_from_path p); [|done].
  apply report_verdict_grows.
Qed.

(** The loop over the remote side's deltas. *)
Lemma merge_deltas_ok (changed : gset path) ds w :
  NoDup (omap delta_path ds) →
  (∀ p, p ∈ omap delta_path ds ↔ tree_of base !! p ≠ remote_tree !! p) →
  (∀ d p, d ∈ ds → delta_path d = Some p → (dl_status d = DDeleted ↔ remote_tree !! p = None)) →
  (∀ p, p ∈ changed ↔ tree_of base !! p ≠ local_tree !! p) →
  ∃ t g', foldM (merge_delta base local_tree remote_tree changed cap) (local_tree, PullReport_default) ds w =
      (Ok (t, foldl report_path PullReport_default (omap delta_path ds)), (w.1, g')) ∧ quiet w.2 g' ∧
    ∀ p, path_outcome p (t !! p).
Proof.
  intros Hnd Hds Hdel Hchanged.
  destruct (foldM_inv (merge_delta base local_tree remote_tree changed cap)
    (λ dn st w', w'.1 = w.1 ∧ quiet w.2 w'.2 ∧ (∀ q, q ∉ omap delta_path dn → st.1 !! q = local_tree !! q) ∧
      (∀ q, q ∈ omap delta_path dn → path_outcome q (st.1 !! q)) ∧
      st.2 = foldl report_path PullReport_default (omap delta_path dn)) ds
    (local_tree, PullReport_default) w) as ([t rep] & [fs g'] & Hrun & Hfs & Hq & Hkept & Hout & Hrep).
  { split_and!; [done|done|done| |done]. by intros q ?%elem_of_nil. }
  { intros dn d todo [t rep] w1 Hsplit (Hfs & Hq & Hkept & Hout & Hrep). cbn [fst snd] in *.
    assert (d ∈ ds) as Hin by (rewrite Hsplit; set_solver).
    destruct (delta_path d) as [p|] eqn:Hp.
    2: { exists (t, rep), w1. unfold merge_delta. rewrite Hp, omap_app. cbn. rewrite Hp, app_nil_r. done. }
    assert (p ∈ omap delta_path ds) as Hpin by (apply list_elem_of_omap; by exists d).
    assert (p ∉ omap delta_path dn) as Hnew.
    { rewrite Hsplit, omap_app in Hnd. cbn in Hnd. rewrite Hp in Hnd.
      apply NoDup_app in Hnd as (_ & Hnot & _). intros ?%Hnot. set_solver. }
    destruct (merge_delta_ok changed d p t rep w1 Hp) as (t' & g2 & Hrun & Hq2 & Hother & Hpout);
      [by apply Hds|by apply Hchanged|by apply Hdel|by apply Hkept|].
    exists (t', report_path rep p), (w1.1, g2). rewrite omap_app. cbn. rewrite Hp. split_and!.
    - done.
    - done.
    - by etrans.
    - intros q [Hq1 Hq3]%not_elem_of_app. rewrite Hother by set_solver. by apply Hkept.
    - intros q [Hq1|Hq1]%elem_of_app; [|apply list_elem_of_singleton in Hq1 as ->; done].
      rewrite Hother by (by intros ->). by apply Hout.
    - rewrite foldl_app. cbn. by rewrite Hrep. }
  exists t, g'. cbn in *. subst. split_and!; [done..|]. intros p.
  destruct (decide (p ∈ omap delta_path ds)) as [Hin|Hnin]; [by apply Hout|].
  rewrite Hkept by done. assert (tree_of base !! p = remote_tree !! p) as Heq.
  { destruct (decide (tree_of base !! p = remote_tree !! p)) as [?|Hne]; [done|].
    by apply Hds in Hne. }
  split_and!; [done|congruence|]. by intros [_ []].
Qed.

(** What a record changed on both sides became. *)
Lemma report_records ps p key rep : p ∈ ps → both_changed p → key_from_path p = Some key →
  match path_verdict p with
  | KeepLocal | TakeRemote _ => True
  | Advance _ => key ∈ pr_advanced (foldl report_path rep ps)
  | MergeInto _ => key ∈ pr_merged (foldl report_path rep ps)
  | Surface l r => mkPullConflict key l r ∈ pr_conflicts (foldl report_path rep ps)
  end.
Proof.
  intros Hp Hboth Hkey.
  assert (∀ qs rep', match path_verdict p with
    | KeepLocal | TakeRemote _ => True
    | Advance _ => key ∈ pr_advanced rep'
    | MergeInto _ => key ∈ pr_merged rep'
    | Surface l r => mkPullConflict key l r ∈ pr_conflicts rep' end →
    match path_verdict p with
    | KeepLocal | TakeRemote _ => True
    | Advance _ => key ∈ pr_advanced (foldl report_path rep' qs)
    | MergeInto _ => key ∈ pr_merged (foldl report_path rep' qs)
    | Surface l r => mkPullConflict key l r ∈ pr_conflicts (foldl report_path rep' qs) end) as Hkeep.
  { induction qs as [|q qs IH]; intros rep' Hrep; [done|]. cbn. apply IH.
    destruct (report_path_grows rep' q) as (? & ? & ?). destruct (path_verdict p); auto. }
  revert rep. induction ps as [|q ps IH]; intros rep; [by apply elem_of_nil in Hp|].
  apply elem_of_cons in Hp as [<-|Hp]; [|by apply IH]. cbn. apply Hkeep.
  unfold report_path. rewrite decide_True, Hkey by done. destruct (path_verdict p); cbn; set_solver.
Qed.
End pull.

(** ** The pull *)

(** Where the record at a path both sides changed has gone. *)
Inductive accounted `{Blake3} `{SerdeRecord} (cap : nat) (key : RecordKey) (rep : PullReport)
    (l r : record) (kept_local : Prop) (o : option bytes) : Prop :=
  | AccSame : rec_revision l = rec_revision r → kept_local → accounted cap key rep l r kept_local o
  | AccAdvanced : rec_revision l ∈ rec_ancestors r → encoded r o → key ∈ pr_advanced rep →
      accounted cap key rep l r kept_local o
  | AccAhead : rec_revision r ∈ rec_ancestors l → kept_local → accounted cap key rep l r kept_local o
  | AccMerged x : encoded x o → rec_ancestors x = reconciled_ancestors (rec_revision x) l r cap →
      key ∈ pr_merged rep → accounted cap key rep l r kept_local o
  | AccConflict : kept_local → mkPullConflict key l r ∈ pr_conflicts rep →
      accounted cap key rep l r kept_local o
  | AccEqualBodies : is_tombstone l = false → is_tombstone r = false → rec_body l = rec_body r →
      kept_local → accounted cap key rep l r kept_local o.

Section theorem.
Context `{Blake3} `{SerdeJson} `{SerdeRecordLaws} {G Oid : Type} `{Git2Laws G Oid}.
Abbreviation W := (FileSystem * G)%type.

(** The tree of the merge base, if there is one. *)
Definition base_of (w : W) (local remote : Oid) : option files :=
  match (merge_base local remote w).1 with
  | Ok o => cm_tree <$> git_commits w.2 o
  | Err _ => None
  end.

Lemma base_tree_of_ok (w : W) local remote :
  base_tree_of local remote w = (Ok (base_of w local remote), w).
Proof.
  unfold base_tree_of, base_of, attempt. destruct (law_merge_base local remote w) as (r & Hr & Hc).
  unfold mbind at 1, M_bind at 1. rewrite Hr. destruct r as [o|e]; [|done]. cbn.
  destruct (Hc o eq_refl) as [c Ho]. rewrite Ho, (be_bind _ _ _ _ _ (law_find_commit _ c w Ho)).
  by rewrite (be_bind _ _ _ _ _ (law_commit_tree _ c w Ho)).
Qed.

Lemma verdict_accounted (base : option files) (cap : nat) (p : path) (key : RecordKey) (L R : files)
    (l r : record) (rep : PullReport) (o : option bytes) :
  decoded L p = Some l → decoded R p = Some r →
  (match path_verdict base L R cap p with
   | KeepLocal | TakeRemote _ => True
   | Advance _ => key ∈ pr_advanced rep
   | MergeInto _ => key ∈ pr_merged rep
   | Surface l r => mkPullConflict key l r ∈ pr_conflicts rep
   end) →
  rules (path_verdict base L R cap p) (L !! p) o →
  accounted cap key rep l r (o = L !! p) o.
Proof.
  unfold path_verdict. intros -> ->. unfold verdict.
  case_decide; [by intros _ ?; apply AccSame|]. case_decide; [by intros ??; apply AccAdvanced|].
  case_decide; [by intros _ ?; apply AccAhead|].
  destruct (is_tombstone l && is_tombstone r); [intros ??; by eapply AccMerged|].
  destruct (is_tombstone l || is_tombstone r) eqn:Ht; [by intros ??; apply AccConflict|].
  apply orb_false_elim in Ht as [Hl Hr]. case_decide; [by intros _ ?; apply AccEqualBodies|].
  destruct (Merge.merge _ _ _ _); [intros ??; by eapply AccMerged|by intros ??; apply AccConflict].
Qed.

(** What a pull leaves in the repository [w]. *)
Record reconciled (cap : nat) (message : string) (w : W) (local remote : Oid) (cl cr : Commit Oid)
    (rep : PullReport) (w' : W) (t : files) : Prop := mkReconciled {
  rc_commit : ∃ o, git_head w'.2 = Some o ∧
    git_commits w'.2 o = Some (mkCommit message t [local; remote]);
  rc_kept : keeps_commits w.2 w'.2;
  rc_index : git_index w'.2 = t;
  rc_worktree : ∃ g, quiet w.2 g ∧ w'.1 = (checkout_tree_force t (w.1, g)).2.1;
  rc_paths p : path_outcome (base_of w local remote) (cm_tree cl) (cm_tree cr) cap p (t !! p);
  rc_records p key l r : both_changed (base_of w local remote) (cm_tree cl) (cm_tree cr) p →
    key_from_path p = Some key → decoded (cm_tree cl) p = Some l → decoded (cm_tree cr) p = Some r →
    accounted cap key rep l r (t !! p = cm_tree cl !! p) (t !! p)
}.

(** The merged index, checked out and committed. *)
Lemma commit_merge_ok (remote branch : string) (w : W) g1 local fetched cl cr t rep :
  git_head w.2 = Some local → git_head_name w.2 = "refs/heads/" +:+ branch →
  git_commits w.2 local = Some cl → git_commits w.2 fetched = Some cr → quiet w.2 g1 →
  ∃ w', commit_merge remote branch local fetched (t, rep) (w.1, g1) = (Ok rep, w') ∧
    (∃ o, git_head w'.2 = Some o ∧
      git_commits w'.2 o = Some (mkCommit ("merge " +:+ remote +:+ "/" +:+ branch) t [local; fetched])) ∧
    keeps_commits w.2 w'.2 ∧ git_index w'.2 = t ∧
    ∃ g2, quiet w.2 g2 ∧ w'.1 = (checkout_tree_force t (w.1, g2)).2.1.
Proof.
  intros Hhead Hname Hl Hr Hq1. unfold commit_merge. cbn [fst snd].
  destruct (law_write_tree t (w.1, g1)) as (toid & g2 & Hwt & Hq2 & Hfind).
  rewrite (be_bind _ _ _ _ _ Hwt), (be_bind _ _ _ _ _ (Hfind _)).
  destruct (law_checkout_tree t (w.1, g2)) as (fs & g3 & Hco & Hi3 & Hr3 & Hn3 & Hk3).
  rewrite (be_bind _ _ _ _ _ Hco), (be_bind _ _ _ _ _ (law_signature _)). cbn [fst snd] in *.
  assert (quiet w.2 g2) as Hq by (by etrans).
  assert (keeps_commits w.2 g3) as Hk by (etrans; [apply (quiet_commits _ _ Hq)|done]).
  assert (resolve_ref g3 ("refs/heads/" +:+ branch) = git_head_name w.2) as Hresolve
    by (unfold resolve_ref; by rewrite decide_False).
  destruct (law_commit ("refs/heads/" +:+ branch) ("merge " +:+ remote +:+ "/" +:+ branch) t [local; fetched]
    (fs, g3)) as (o & g4 & Hc & Hi4 & Hn4 & Hr4 & Ho4 & Hk4); cbn [fst snd] in *.
  { rewrite Hresolve, Hr3, (quiet_refs _ _ Hq). done. }
  { intros x [->|[->|[]%elem_of_nil]%elem_of_cons]%elem_of_cons; eexists; by apply Hk. }
  rewrite (be_bind _ _ _ _ _ Hc). cbn [fst snd].
  destruct (law_set_head ("refs/heads/" +:+ branch) (fs, g4)) as (g5 & Hsh & Hn5 & Hr5 & Hi5 & Hk5).
  rewrite (be_bind _ _ _ _ _ Hsh). cbn [fst snd] in *.
  exists (fs, g5). split; [reflexivity|]. cbn [fst snd]. split_and!.
  - exists o. split; [|by apply Hk5]. unfold git_head. rewrite Hn5, Hr5, Hr4, Hresolve, <-Hname.
    by rewrite lookup_insert_eq.
  - etrans; [done|]. by etrans.
  - by rewrite Hi5, Hi4.
  - exists g2. by rewrite Hco.
Qed.

(** C6: a diverged pull reconciles every record.  When [HEAD] is on the branch pulled
    and the trees hold records, the pull succeeds with one commit whose parents are
    the local and the fetched head, loses no commit, and leaves the index at its tree
    and the working tree as a forced checkout of it leaves that.  A path one side changed is that side's; a record both changed is the
    remote's and reported when it was behind, a record that carries both histories and
    reported, the local one with both sides surfaced, or the local one because it has
    the same revision, descends from the remote's or has its body. *)
Theorem pull_reconciles (remote branch : string) (cap : nat) (w : W) (local fetched : Oid)
    (cl cr : Commit Oid) :
  git_head w.2 = Some local → git_head_name w.2 = "refs/heads/" +:+ branch →
  git_commits w.2 local = Some cl → git_commits w.2 fetched = Some cr →
  tree_ok (cm_tree cl) → tree_ok (cm_tree cr) → tree_ok (tree_of (base_of w local fetched)) →
  ∃ rep w' t, merge_non_ff remote branch fetched cap w = (Ok rep, w') ∧
    reconciled cap ("merge " +:+ remote +:+ "/" +:+ branch) w local fetched cl cr rep w' t.
Proof.
  intros Hhead Hname Hl Hr Hokl Hokr Hokb. unfold merge_non_ff.
  destruct (law_head w) as (h & Hh & Hht). rewrite Hhead in Hht. subst h.
  rewrite (be_bind _ _ _ _ _ Hh). unfold mbind at 1, M_bind at 1, lift at 1. cbn [ok_or].
  rewrite (be_bind _ _ _ _ _ (law_find_commit _ _ w Hl)), (be_bind _ _ _ _ _ (law_find_commit _ _ w Hr)).
  rewrite (be_bind _ _ _ _ _ (law_commit_tree _ _ w Hl)), (be_bind _ _ _ _ _ (law_commit_tree _ _ w Hr)).
  rewrite (bind_ok _ _ _ _ _ (base_tree_of_ok w local fetched)).
  rewrite (be_bind _ _ _ _ _ (law_index w)), (be_bind _ _ _ _ _ (law_read_tree _ w)).
  set (base := base_of w local fetched) in *.
  destruct (law_diff base (cm_tree cl) w) as (dl & Hdl & _ & Hchanged & _).
  destruct (law_diff base (cm_tree cr) w) as (dr & Hdr & Hnd & Hds & Hdel).
  assert (changed_paths_set base (cm_tree cl) w = (Ok (list_to_set (omap delta_path dl)), w)) as Hset
    by (unfold changed_paths_set; by rewrite (be_bind _ _ _ _ _ Hdl)).
  rewrite (bind_ok _ _ _ _ _ Hset), (be_bind _ _ _ _ _ Hdr).
  destruct (merge_deltas_ok base (cm_tree cl) (cm_tree cr) cap Hokl Hokr Hokb
    (list_to_set (omap delta_path dl)) dr w Hnd) as (t & g1 & Hloop & Hq1 & Hpaths);
    [done|done|intros p; rewrite elem_of_list_to_set; apply Hchanged|].
  rewrite (bind_ok _ _ _ _ _ Hloop).   destruct (commit_merge_ok remote branch w g1 local fetched cl cr t
    (foldl (report_path base (cm_tree cl) (cm_tree cr) cap) PullReport_default (omap delta_path dr))
    Hhead Hname Hl Hr Hq1) as (w' & Hrun & Hcommit & Hk & Hi & Hwork).
  eexists _, w', t. split; [exact Hrun|]. split; [done..|].
  intros p key l r Hboth Hkey Hdl' Hdr'. destruct (Hpaths p) as (_ & _ & Hrules).
  specialize (Hrules Hboth). rewrite Hkey in Hrules.
  eapply (verdict_accounted base cap p key); [done..| |exact Hrules].
  refine (report_records base (cm_tree cl) (cm_tree cr) cap Hokl Hokr Hokb _ p key _ _ Hboth Hkey).
  apply Hds, Hboth.
Qed.
End theorem.
