(* ===== verification/GitSamples.v ===== *)
(** * GitSamples: a repository, and the git theorems at work in it

    A repository whose objects are named by themselves: a commit is its message, its
    tree and its parents.  It obeys [Git2Laws]. *)

From S2P Require Export GitPull FsSamples.
From S2P Require Import Merge.
#[local] Open Scope gonzalo_scope.

(** ** A repository *)

Inductive SampleOid := SObj (message : string) (tree : files) (parents : list SampleOid).

Record SampleGit := mkSampleGit {
  sg_index : files;
  sg_refs : gmap string SampleOid;
  sg_head : string;
  sg_dir : path;
  sg_base : option SampleOid
}.

Definition obj_tree (o : SampleOid) : files := let 'SObj _ t _ := o in t.

Definition sg_set_index (t : files) (g : SampleGit) : SampleGit :=
  mkSampleGit t (sg_refs g) (sg_head g) (sg_dir g) (sg_base g).
Definition sg_set_ref (n : string) (o : SampleOid) (g : SampleGit) : SampleGit :=
  mkSampleGit (sg_index g) (<[n := o]> (sg_refs g)) (sg_head g) (sg_dir g) (sg_base g).
Definition sg_set_head (n : string) (g : SampleGit) : SampleGit :=
  mkSampleGit (sg_index g) (sg_refs g) n (sg_dir g) (sg_base g).

#[export] Instance sample_view : GitView SampleGit SampleOid := {
  git_index := sg_index;
  git_refs := sg_refs;
  git_head_name := sg_head;
  git_commits _ o := let 'SObj msg t ps := o in Some (mkCommit msg t ps);
  git_workdir := sg_dir
}.

(** A call that only answers, and one that only changes the repository. *)
Definition answer {A} (r : FileSystem * SampleGit → result string A) : git SampleGit A := λ w, (r w, w).
Definition change {A} (a : A) (f : SampleGit → SampleGit) : git SampleGit A := λ w, (Ok a, (w.1, f w.2)).

Definition sample_diff (base : option files) (t : files) : list Delta :=
  (λ p, mkDelta (if decide (t !! p = None) then DDeleted
                 else if decide (default ∅ base !! p = None) then DAdded else DModified) (Some p) (Some p)) <$>
    filter (λ p, default ∅ base !! p ≠ t !! p) (elements (dom (default ∅ base) ∪ dom t)).

Definition sample_get_path (t : files) (p : path) : option (option bytes) :=
  match t !! p with
  | Some b => Some (Some b)
  | None => if decide (Exists (λ q, p `prefix_of` q) (elements (dom t))) then Some None else None
  end.

(** The files of the tree before go, those of the new one come. *)
Definition sample_checkout (dir : path) (before t : files) (fs : FileSystem) : FileSystem :=
  set_now fs (map_fold (λ p b, <[dir ++ p := File b false (fs_clock fs)]>)
    (map_fold (λ p _, delete (dir ++ p)) (fs_now fs) before) t).

#[export] Instance sample_git : Git2 SampleGit SampleOid := {
  repo_open root := answer (λ w, if decide (sg_dir w.2 = root) then Ok tt else Err "not a repository");
  repo_init _ := answer (λ _, Err "exists");
  repo_index := answer (λ w, Ok (sg_index w.2));
  index_read_tree t := answer (λ _, Ok t);
  index_add_path root rel idx := answer (λ w,
    match read_file w.1 (root ++ rel) with Ok b => Ok (<[rel := b]> idx) | Err e => Err (io_to_string e) end);
  index_remove_path rel idx := answer (λ _, Ok (delete rel idx));
  index_add_frombuffer rel b idx := answer (λ _, Ok (<[rel := b]> idx));
  index_write idx := change tt (sg_set_index idx);
  index_write_tree idx := answer (λ _, Ok (SObj "" idx []));
  find_tree o := answer (λ _, Ok (obj_tree o));
  signature_now := answer (λ _, Ok tt);
  head_target := answer (λ w, match git_head w.2 with Some o => Ok (Some o) | None => Err "unborn" end);
  find_commit o := answer (λ _, Ok o);
  commit_tree o := answer (λ _, Ok (obj_tree o));
  commit name msg t ps := λ w, (Ok (SObj msg t ps), (w.1, sg_set_ref (resolve_ref w.2 name) (SObj msg t ps) w.2));
  merge_base _ _ := answer (λ w, ok_or "unrelated" (sg_base w.2));
  diff_tree_to_tree base t := answer (λ _, Ok (sample_diff base t));
  get_path := sample_get_path;
  diff_tree_to_workdir_with_index _ := answer (λ _, Ok []);
  find_remote _ := answer (λ _, Ok tt);
  fetch _ _ := answer (λ _, Ok tt);
  find_reference _ := answer (λ _, Ok tt);
  fetch_head_commit := answer (λ _, Err "nothing fetched");
  merge_analysis _ := answer (λ _, Ok (mkMergeAnalysis false false));
  set_target n o := change tt (sg_set_ref n o);
  set_head n := change tt (sg_set_head n);
  checkout_head_force := answer (λ _, Ok tt);
  checkout_tree_force t := λ w,
    (Ok tt, (sample_checkout (sg_dir w.2) (head_files w.2) t w.1, sg_set_index t w.2));
  remote_push _ _ := answer (λ _, Ok []);
  oid_from_str _ := Err "not an oid";
  oid_to_string o := let 'SObj msg _ _ := o in msg;
  discover _ := answer (λ _, Ok tt)
}.

Lemma sample_quiet (g : SampleGit) : quiet g g.
Proof. done. Qed.

Lemma sample_diff_paths base t : omap delta_path (sample_diff base t) =
  filter (λ p, default ∅ base !! p ≠ t !! p) (elements (dom (default ∅ base) ∪ dom t)).
Proof. unfold sample_diff. induction (filter _ _) as [|p l IH]; cbn; [done|by rewrite IH]. Qed.

Lemma elem_of_sample_diff base t p : p ∈ omap delta_path (sample_diff base t) ↔ default ∅ base !! p ≠ t !! p.
Proof.
  rewrite sample_diff_paths, list_elem_of_filter, elem_of_elements, elem_of_union, !elem_of_dom.
  split; [by intros []|]. intros Hne. split; [done|].
  destruct (default ∅ base !! p) as [b|]; [left; by eexists|]. destruct (t !! p); [right; by eexists|done].
Qed.

#[export] Instance sample_git_laws : Git2Laws SampleGit SampleOid.
Proof.
  split; cbn; unfold answer, change.
  - intros root w <-. by rewrite decide_True.
  - done.
  - done.
  - intros root rel b idx [fs g] _ Hb. exists g. cbn in *. by rewrite Hb.
  - done.
  - intros rel b idx [fs g]. by exists g.
  - intros idx w. eexists. by split_and!.
  - intros idx [fs g]. by exists (SObj "" idx []), g.
  - done.
  - intros [fs g]. eexists. split; [reflexivity|]. unfold git_head. cbn.
    by destruct (sg_refs g !! sg_head g).
  - intros g [msg t ps] _. by eexists.
  - by intros [] c w.
  - intros [msg t ps] c w [= <-]. done.
  - intros name msg t ps [fs g] _ _. eexists _, _. by split_and!.
  - intros base t w. eexists. split; [reflexivity|]. split_and!.
    + rewrite sample_diff_paths. apply NoDup_filter, NoDup_elements.
    + intros p. apply elem_of_sample_diff.
    + unfold sample_diff. intros d p (q & -> & _)%list_elem_of_fmap [= <-]. cbn. by repeat case_decide.
  - intros t p b Hb. unfold sample_get_path. by rewrite Hb.
  - intros t p Hnone. unfold sample_get_path. destruct (t !! p) as [b|] eqn:Hb.
    + destruct (Hnone p); [rewrite Hb; by eexists|reflexivity].
    + rewrite decide_False; [done|]. rewrite Exists_exists. intros (q & Hq & Hpre).
      apply elem_of_elements, elem_of_dom in Hq. by apply (Hnone q).
  - intros a b [fs g]. cbn. eexists. split; [reflexivity|]. intros [] _. by eexists.
  - intros t [fs g]. eexists _, _. by split_and!.
  - intros name [fs g]. eexists. by split_and!.
Qed.

(** ** Witnesses *)

Section witnesses.
#[local] Existing Instance sample_hash.
#[local] Existing Instance ToyJson.toy.

Definition sample_git_store : GitStore := mkGitStore sample_root 3.
Definition fresh_git : SampleGit := mkSampleGit ∅ ∅ "refs/heads/main" sample_root None.

Lemma sample_worktree : worktree sample_root sample_fs ∅.
Proof. split; [apply sample_holds|reflexivity]. Qed.

Lemma fresh_git_holds : git_holds sample_git_store (sample_fs, fresh_git) ∅.
Proof. split; [apply sample_worktree|]. split; [done|done|]. by intros k _. Qed.

(** The first record of a fresh repository is its first commit. *)
Lemma git_refines_memstore_witness :
  git_holds sample_git_store (sample_fs, fresh_git) ∅ ∧ op_ok sample_write ∧
  ∃ r w', call_op (git_store sample_git_store) sample_write (set_clock sample_fs 5, fresh_git) = (r, w') ∧
    git_holds sample_git_store w' (call_op (reference 3 5) sample_write ∅).2.
Proof.
  split; [exact fresh_git_holds|]. split; [exact sample_key_ok|].
  pose proof (git_refines_memstore sample_git_store sample_write 5 (sample_fs, fresh_git) ∅
    fresh_git_holds sample_key_ok) as Hrun.
  cbn [fst snd] in Hrun. destruct (call_op (git_store _) _ _) as [r w'].
  change (gst_cap sample_git_store) with 3 in Hrun.
  destruct (call_op (reference 3 5) sample_write ∅) as [r' m']. exists r, w'. split; [done|apply Hrun].
Defined.

(** A repository that cannot be opened: a commit always fails. *)
Definition broken_git : Git2 SampleGit SampleOid :=
  match sample_git with
  | Build_Git2 _ _ f1 f2 f3 f4 f5 f6 f7 f8 f9 f10 f11 f12 f13 f14 f15 f16 f17 f18 f19 f20 f21 f22 f23 f24 f25
      f26 f27 f28 f29 f30 f31 f32 =>
      Build_Git2 _ _ (λ _, answer (λ _, Err "too many open files")) f2 f3 f4 f5 f6 f7 f8 f9 f10 f11 f12 f13
        f14 f15 f16 f17 f18 f19 f20 f21 f22 f23 f24 f25 f26 f27 f28 f29 f30 f31 f32
  end.

Definition first_record : record := sample_record sample_key 0 "v0" [].

Definition stored_first : record :=
  match plan_put None first_record None (now_ms (fs_clock sample_fs)) 3 with
  | PutWrite s => s
  | _ => first_record
  end.

Lemma failed_commit_stays_visible_witness :
  plan_put ((∅ : records) !! rec_key first_record) first_record None (now_ms (fs_clock sample_fs)) 3 =
    PutWrite stored_first ∧
  ∃ w', git_put (H2 := broken_git) sample_git_store first_record None (sample_fs, fresh_git) =
      (Err (Backend "too many open files"), w') ∧
    git_get sample_git_store (rec_key first_record) w' = (Ok (Some stored_first), w').
Proof.
  assert (plan_put ((∅ : records) !! rec_key first_record) first_record None (now_ms (fs_clock sample_fs)) 3 =
    PutWrite stored_first) as Hplan by reflexivity.
  split; [exact Hplan|].
  apply (failed_commit_stays_visible (H3 := broken_git) sample_git_store first_record stored_first None
    (Backend "too many open files") sample_fs fresh_git ∅ sample_worktree sample_key_ok Hplan).
  intros [fs g]. exists g. reflexivity.
Defined.

(** *** A pull *)

(** Both sides labelled one record, each its own way. *)
Definition labelled (n : N) (h l : string) : record :=
  set_meta (sample_record sample_key n "v" [sample_rev 0 "v"])
    (mkMeta (Identity_new h) "test" 5 7 {[ l := h ]}) .
Definition at_rev (h : string) (r : record) : record :=
  mkRecord (rec_key r) (rec_kind r) (sample_rev 1 h) (rec_parent r) (rec_body r) (rec_meta r)
    (rec_links r) (rec_ancestors r) None None None.

Definition pull_base : record := sample_record sample_key 0 "v" [].
Definition pull_local : record := at_rev "ours" (labelled 1 "alice" "mine").
Definition pull_remote : record := at_rev "theirs" (labelled 1 "bob" "theirs").

Definition tree_with (r : record) : files := {[ key_path (rec_key r) := to_bits r ]}.

Definition base_commit : SampleOid := SObj "put" (tree_with pull_base) [].
Definition local_commit : SampleOid := SObj "put" (tree_with pull_local) [base_commit].
Definition remote_commit : SampleOid := SObj "put" (tree_with pull_remote) [base_commit].

Definition diverged_git : SampleGit :=
  mkSampleGit (tree_with pull_local) {[ "refs/heads/main" := local_commit ]} "refs/heads/main" sample_root
    (Some base_commit).

Definition pulled (rep : PullReport) (w' : FileSystem * SampleGit) (t : files) : Prop :=
  reconciled 3 ("merge " +:+ "origin" +:+ "/" +:+ "main") (sample_fs, diverged_git) local_commit remote_commit
    (mkCommit "put" (tree_with pull_local) [base_commit]) (mkCommit "put" (tree_with pull_remote) [base_commit])
    rep w' t.

Lemma tree_with_ok r : tree_ok (tree_with r).
Proof.
  intros p b. unfold tree_with. intros [<- <-]%lookup_singleton_Some. split; [done|]. exists r. cbn. by rewrite from_bits_to_bits.
Qed.

Lemma pull_reconciles_witness :
  git_head diverged_git = Some local_commit ∧
  ∃ rep w' t, merge_non_ff "origin" "main" remote_commit 3 (sample_fs, diverged_git) = (Ok rep, w') ∧
    pulled rep w' t.
Proof.
  split; [reflexivity|].
  apply (pull_reconciles "origin" "main" 3 (sample_fs, diverged_git) local_commit remote_commit
    (mkCommit "put" (tree_with pull_local) [base_commit]) (mkCommit "put" (tree_with pull_remote) [base_commit]));
    [reflexivity..|exact (tree_with_ok _)|exact (tree_with_ok _)|exact (tree_with_ok pull_base)].
Defined.

(** That pull keeps the local label, drops the remote one and reports nothing;
    [reconciled_record], which [sync] uses, keeps both. *)
Lemma pull_drops_labels :
  (merge_non_ff "origin" "main" remote_commit 3 (sample_fs, diverged_git)).1 = Ok PullReport_default ∧
  head_files (merge_non_ff "origin" "main" remote_commit 3 (sample_fs, diverged_git)).2.2 =
    tree_with pull_local ∧
  meta_labels (rec_meta (merged_record pull_local pull_remote (rec_body pull_local) 3)) !! "theirs" = Some "bob".
Proof. split_and!; vm_compute; reflexivity. Qed.
End witnesses.
