(* ===== verification/Mcp.v ===== *)
(** * Mcp: the tools an agent calls

    Models [gonzalo-mcp]'s [lib.rs] and the flags of its [main.rs]: a call names a tool
    and passes a JSON object, and is answered from the service's store and code graph
    with a payload or with a tool error.  The descriptions and schemas of the tools are
    text for the agent and are not modelled; what a payload holds is, not how it is
    printed.  JSON itself, its printing and its reading are [serde_json]'s. *)

From S2P Require Export GraphViews Http Sync.

(** ** Arguments *)

(** [serde_json::Value]; a number with its value as a [u64], if it has one. *)
Inductive json :=
  | JNull | JBool (b : bool) | JNumber (as_u64 : option N) (text : string)
  | JString (s : string) | JArray (l : list json) | JObject (l : list (string * json)).

Class McpSerde := {
  json_display : json → string;
  kind_from_name : string → option RecordKind;
  revision_from_value : json → result string Revision
}.

Definition ToolArgs : Type := option (gmap string json).

Definition arg (args : ToolArgs) (key : string) : option json := m ← args; m !! key.

Definition as_str (v : json) : option string := match v with JString s => Some s | _ => None end.

Definition str_arg (args : ToolArgs) (key : string) : result string string :=
  ok_or ("missing required string argument '" +:+ key +:+ "'") (arg args key ≫= as_str).

Definition record_key_args (args : ToolArgs) : result string RecordKey :=
  ns ← str_arg args "namespace";
  col ← str_arg args "collection";
  id ← str_arg args "id";
  Ok (mkKey ns col id).

Definition view_args (args : ToolArgs) : result string (string * string * string) :=
  repo ← str_arg args "repo"; view ← str_arg args "view_id"; name ← str_arg args "name";
  Ok (repo, view, name).

Definition selector_args (args : ToolArgs) : result string (string * string) :=
  repo ← str_arg args "repo"; view ← str_arg args "view_id"; Ok (repo, view).

Definition diff_args (args : ToolArgs) : result string (string * string * string) :=
  repo ← str_arg args "repo"; a ← str_arg args "view_a"; b ← str_arg args "view_b"; Ok (repo, a, b).

Section args.
Context `{McpSerde}.

(** An unknown kind is refused, not defaulted. *)
Definition kind_arg (args : ToolArgs) : result string RecordKind :=
  match arg args "kind" ≫= as_str with
  | None => Ok Topic
  | Some raw => ok_or ("unknown record kind '" +:+ raw +:+ "'") (kind_from_name raw)
  end.

Definition expected_revision_arg (args : ToolArgs) : result string (option Revision) :=
  match arg args "expected_revision" with
  | None | Some JNull => Ok None
  | Some raw =>
      r ← map_err (λ e, "expected_revision is not a revision: " +:+ e) (revision_from_value raw);
      Ok (Some r)
  end.

Definition usize_arg (args : ToolArgs) (key : string) (default : N) : result string N :=
  match arg args key with
  | None | Some JNull => Ok default
  | Some (JNumber (Some n) _) => Ok n
  | Some v => Err ("argument '" +:+ key +:+ "' must be a non-negative integer, got " +:+ json_display v)
  end.

Definition bool_arg (args : ToolArgs) (key : string) (default : bool) : result string bool :=
  match arg args key with
  | None | Some JNull => Ok default
  | Some (JBool b) => Ok b
  | Some v => Err ("argument '" +:+ key +:+ "' must be a boolean, got " +:+ json_display v)
  end.

Definition opt_str_arg (args : ToolArgs) (key : string) : result string (option string) :=
  match arg args key with
  | None | Some JNull => Ok None
  | Some (JString s) => Ok (Some s)
  | Some v => Err ("argument '" +:+ key +:+ "' must be a string, got " +:+ json_display v)
  end.

Definition ranking_arg (args : ToolArgs) : result string Ranking :=
  raw ← str_arg args "by";
  if decide (raw = "fan_in") then Ok FanIn
  else if decide (raw = "fan_out") then Ok FanOut
  else if decide (raw = "definitions") then Ok Definitions
  else Err ("unknown ranking '" +:+ raw +:+ "': expected one of fan_in, fan_out, definitions").

Definition all_kinds : list SymbolKind :=
  [Function; Struct; Enum; Trait; Impl; Module_; Const; Static; TypeAlias; Class_; Interface].

Definition parse_kind (raw : string) : result string SymbolKind :=
  ok_or ("unknown kind '" +:+ raw +:+ "'")
    (snd <$> list_find (λ k, SymbolKind_as_str k = raw) all_kinds).

Definition filter_args (args : ToolArgs) : result string SymbolFilter :=
  prefix ← opt_str_arg args "path_prefix";
  needle ← opt_str_arg args "name_contains";
  raw ← opt_str_arg args "kind";
  kind ← match raw with Some raw => k ← parse_kind raw; Ok (Some k) | None => Ok None end;
  Ok (mkSymbolFilter prefix kind needle).
End args.

(** ** Results *)

(** What a successful call returns, before it is printed. *)
Inductive ToolPayload :=
  | PStatus (root : string) (views : nat)
  | PDegraded (root : string) (error : string)
  | PViews (l : list ViewSummary)
  | PDiff (d : GraphDiff)
  | POverview (o : ViewOverview)
  | PRanked (l : Page RankedSymbol)
  | PPage (l : Page (Located Symbol))
  | PSymbols (l : list (Located Symbol))
  | PReferences (l : list (Located Reference))
  | PImpact (r : option ImpactReport)
  | PCallGraph (tool : string) (names : list string) (modules : option (list string))
      (definition_count : nat) (defined_in : option (list string))
  | PNode (definitions : list (Located Symbol)) (callers callees : list string)
  | PKeys (l : list string)
  | PRecord (r : record)
  | PCommitted (key : string) (revision : Revision)
  | PNotCommitted (key : string) (current : record)
  | PDeleted (key : string)
  | PNotDeleted (key : string) (current : record).

Inductive CallToolResult := Success (p : ToolPayload) | ToolError (msg : string).

Inductive Dispatched := Answer (r : CallToolResult) | MethodNotFound.

Definition CoreError_display (e : CoreError) : string :=
  match e with
  | NotFound key => "record not found: " +:+ key_to_string key
  | Serde msg => "serialization error: " +:+ msg
  | Invalid msg => "invalid request: " +:+ msg
  | Backend msg => "backend error: " +:+ msg
  end.

Definition MAX_DEFINED_IN : nat := 10.
Definition DEFAULT_TOP_LIMIT : N := 20.
Definition DEFAULT_LIST_LIMIT : N := 100.

Record GonzaloMcp (W : Type) := mkMcp { mcp_service : Service W; mcp_root : string; mcp_writes : bool }.
Arguments mkMcp {W}.
Arguments mcp_service {W}.
Arguments mcp_root {W}.
Arguments mcp_writes {W}.

Definition GonzaloMcp_new {W} (service : Service W) (root : string) : GonzaloMcp W :=
  mkMcp service root false.
Definition with_writes {W} (writes : bool) (m : GonzaloMcp W) : GonzaloMcp W :=
  mkMcp (mcp_service m) (mcp_root m) writes.

(** The names of the tools advertised. *)
Definition tool_names (writes : bool) : list string :=
  ["status"; "search"; "node"; "callers"; "callees"; "impact"; "explore"; "diff"; "overview"; "top";
   "list"; "views"; "unreferenced"; "record_get"; "record_list"] ++
  if writes then ["record_put"; "record_delete"] else [].

(** ** The tools *)

Section mcp.
Context `{Blake3, ManifestSerde, SliceSerde, Sqlite, McpSerde} {W : Type}.
Context (mcp : GonzaloMcp W) (files : gmap string ViewFiles) (open_existing : Db → result string Db).

Abbreviation svc := (mcp_service mcp).
Abbreviation call A := (W → A * W).

(** The service's code graph: its store, its blobs, the graphs of its root. *)
Definition on_view {A} (q : Store W → BlobStore W → option string → M W CoreError A) : M W CoreError A :=
  q (svc_store svc) (svc_blobs svc) (svc_graph_root svc).

Definition svc_graph_views : M W CoreError (list ViewSummary) :=
  graph_views (svc_store svc) (svc_graph_root svc) files.
Definition svc_view_exists (repo view : string) : M W CoreError bool :=
  view_exists (svc_store svc) (svc_graph_root svc) files repo view.

Definition svc_query {A} (q : GraphStore → A) (repo view : string) : M W CoreError A :=
  graph_query (svc_store svc) (svc_blobs svc) (svc_graph_root svc) files open_existing q repo view.

(** [self.result]. *)
Definition answer_with {A} (m : M W CoreError A) (p : A → ToolPayload) : call Dispatched := λ w,
  let '(r, w') := m w in
  (Answer (match r with Ok a => Success (p a) | Err e => ToolError (CoreError_display e) end), w').

(** [match args { Ok(t) => .., Err(msg) => return Ok(tool_error(msg)) }]. *)
Definition or_tool_error {A} (r : result string A) (k : A → call Dispatched) : call Dispatched :=
  match r with Ok a => k a | Err msg => λ w, (Answer (ToolError msg), w) end.

(** A store error answered as a tool error. *)
Definition or_store_error {A} (m : M W CoreError A) (k : A → call Dispatched) : call Dispatched := λ w,
  let '(r, w') := m w in
  match r with Ok a => k a w' | Err e => (Answer (ToolError (CoreError_display e)), w') end.

Definition status_json : call ToolPayload := λ w,
  let '(r, w') := svc_graph_views w in
  (match r with
   | Ok views => PStatus (mcp_root mcp) (length views)
   | Err e => PDegraded (mcp_root mcp) (CoreError_display e)
   end, w').

Definition unknown_view_error (repo view : string) : call (option CallToolResult) := λ w,
  let '(r, w1) := svc_view_exists repo view w in
  match r with
  | Ok true => (None, w1)
  | Ok false =>
      let '(r, w2) := svc_graph_views w1 in
      let known :=
        match r with
        | Ok [] => "none — run `gonzalo index` first"
        | Ok views => String.concat ", " ((λ v, vs_repo v +:+ "/" +:+ vs_view_id v) <$> views)
        | Err e => "<could not list views: " +:+ CoreError_display e +:+ ">"
        end in
      (Some (ToolError ("no indexed view '" +:+ repo +:+ "/" +:+ view +:+
         "'. This is a selector error, not an empty result. Indexed views: " +:+ known +:+
         ". Call `views` to list them.")), w2)
  | Err e => (Some (ToolError (CoreError_display e)), w1)
  end.

(** [if let Some(err) = unknown_view_error(..) { return Ok(err) }]. *)
Definition if_known (repo view : string) (k : call Dispatched) : call Dispatched := λ w,
  let '(err, w') := unknown_view_error repo view w in
  match err with Some e => (Answer e, w') | None => k w' end.

Definition mcp_meta : Meta := Meta_new (Identity_new "gonzalo-mcp") "mcp".

(** The record [record_put] writes. *)
Definition put_record_of (key : RecordKey) (kind : RecordKind) (body : string)
    (expected : option Revision) : record :=
  let r := Record_create key kind (Inline (bytes_of_string body)) mcp_meta in
  match expected with
  | Some rev =>
      mkRecord (rec_key r) (rec_kind r) (rec_revision r) (Some rev) (rec_body r) (rec_meta r) (rec_links r)
        (rec_ancestors r) (rec_deleted_at r) (rec_deleted_blob r) (rec_deleted_kind r)
  | None => r
  end.

Definition record_list_tool (args : ToolArgs) : call Dispatched :=
  or_tool_error (str_arg args "namespace") (λ ns,
  answer_with (svc_list svc (mkPrefix (Some ns) (arg args "collection" ≫= as_str)))
    (λ keys, PKeys (key_to_string <$> keys))).

Definition record_get_tool (args : ToolArgs) : call Dispatched :=
  or_tool_error (record_key_args args) (λ key,
  or_store_error (svc_get svc key) (λ o w,
    (Answer (match o with
             | None => ToolError ("no record at " +:+ key_to_string key)
             | Some r => Success (PRecord r)
             end), w))).

Definition record_put_tool (args : ToolArgs) : call Dispatched :=
  or_tool_error (record_key_args args) (λ key,
  or_tool_error (str_arg args "body") (λ body,
  or_tool_error (kind_arg args) (λ kind,
  or_tool_error (expected_revision_arg args) (λ expected,
  answer_with (svc_put svc (put_record_of key kind body expected) expected) (λ res,
    match res with
    | Committed rev => PCommitted (key_to_string key) rev
    | PutConflicted c => PNotCommitted (key_to_string key) (cf_current c)
    end))))).

Definition record_delete_tool (args : ToolArgs) : call Dispatched :=
  or_tool_error (record_key_args args) (λ key,
  answer_with (svc_delete_as svc key None None) (λ res,
    match res with
    | Deleted => PDeleted (key_to_string key)
    | DeleteConflicted c => PNotDeleted (key_to_string key) (cf_current c)
    end)).

Definition record_tool (name : string) (args : ToolArgs) : call Dispatched :=
  if decide (name = "record_list") then record_list_tool args
  else if decide (name = "record_get") then record_get_tool args
  else if decide (name = "record_put") then record_put_tool args
  else if decide (name = "record_delete") then record_delete_tool args
  else λ w, (MethodNotFound, w).

Definition aggregate (name repo view : string) (args : ToolArgs) : call Dispatched :=
  if decide (name = "overview") then
    or_tool_error (usize_arg args "largest" DEFAULT_TOP_LIMIT) (λ n,
    answer_with (svc_query (λ g, overview g (N.to_nat n)) repo view) POverview)
  else if decide (name = "top") then
    or_tool_error (ranking_arg args) (λ ranking,
    or_tool_error (usize_arg args "limit" DEFAULT_TOP_LIMIT) (λ n,
    answer_with (svc_query (λ g, GraphStore.top g ranking (N.to_nat n)) repo view) PRanked))
  else if decide (name = "list") then
    or_tool_error (filter_args args) (λ filter,
    or_tool_error (usize_arg args "limit" DEFAULT_LIST_LIMIT) (λ n,
    answer_with (svc_query (λ g, list_symbols g filter (N.to_nat n)) repo view) PPage))
  else if decide (name = "unreferenced") then
    or_tool_error (filter_args args) (λ filter,
    or_tool_error (bool_arg args "exclude_tests" true) (λ exclude_tests,
    or_tool_error (usize_arg args "limit" DEFAULT_LIST_LIMIT) (λ n,
    answer_with (svc_query (λ g, unreferenced g filter exclude_tests (N.to_nat n)) repo view) PPage)))
  else λ w, (MethodNotFound, w).

(** [scope.is_function()]. *)
Definition is_function (s : FromScope) : bool := bool_decide (s = InFunction).

(** The names, split by what the caller is for [callers]. *)
Definition call_names (tool repo view sym : string) :
    M W CoreError (list string * option (list string)) :=
  if decide (tool = "callers") then
    scoped ← svc_query (λ g, callers_scoped g sym) repo view;
    mret ((filter (λ x, is_function x.2 = true) scoped).*1,
          Some (filter (λ x, is_function x.2 = false) scoped).*1)
  else
    names ← svc_query (λ g, gs_callees g sym) repo view; mret (names, None).

Definition call_graph (repo view sym tool : string) : call Dispatched :=
  or_store_error (call_names tool repo view sym) (λ '(names, modules),
  or_store_error (svc_query (λ g, gs_definitions g sym) repo view) (λ defs w,
    let paths := dedup (sort (loc_path <$> defs)) in
    (Answer (Success (PCallGraph tool names modules (length defs)
       (if decide (length paths ≤ MAX_DEFINED_IN) then Some paths else None))), w))).

Definition node_tool (repo view sym : string) : call Dispatched :=
  or_store_error (svc_query (λ g, gs_definitions g sym) repo view) (λ defs,
  or_store_error (svc_query (λ g, gs_callers_of g sym) repo view) (λ callers,
  or_store_error (svc_query (λ g, gs_callees g sym) repo view) (λ callees w,
    (Answer (Success (PNode defs callers callees)), w)))).

Definition impact_tool (repo view sym : string) (args : ToolArgs) : call Dispatched :=
  or_tool_error (usize_arg args "max_depth" 0) (λ n,
  let max_depth := if decide (n = 0%N) then None else Some (N.to_nat n) in
  answer_with (graph_impact (svc_store svc) (svc_blobs svc) (svc_graph_root svc) files open_existing
    repo view sym max_depth) PImpact).

Definition symbol_tool (name repo view sym : string) (args : ToolArgs) : call Dispatched :=
  if decide (name = "search") then
    answer_with (svc_query (λ g, gs_definitions g sym) repo view) PSymbols
  else if decide (name = "callers" ∨ name = "callees") then call_graph repo view sym name
  else if decide (name = "impact") then impact_tool repo view sym args
  else if decide (name = "explore") then
    answer_with (svc_query (λ g, gs_references_to g sym) repo view) PReferences
  else if decide (name = "node") then node_tool repo view sym
  else λ w, (MethodNotFound, w).

Definition dispatch (name : string) (args : ToolArgs) : call Dispatched :=
  if decide (name = "status") then λ w, let '(p, w') := status_json w in (Answer (Success p), w')
  else if decide (name = "views") then answer_with svc_graph_views PViews
  else if decide (name = "diff") then
    or_tool_error (diff_args args) (λ '(repo, view_a, view_b),
    if_known repo view_a (if_known repo view_b
      (answer_with (graph_diff (svc_store svc) (svc_blobs svc) (svc_graph_root svc) files open_existing
         repo view_a view_b) PDiff)))
  else if decide (name ∈ ["overview"; "top"; "list"; "unreferenced"]) then
    or_tool_error (selector_args args) (λ '(repo, view),
    if_known repo view (aggregate name repo view args))
  else if decide (name ∈ ["record_get"; "record_list"] ∨
                  mcp_writes mcp = true ∧ name ∈ ["record_put"; "record_delete"]) then
    record_tool name args
  else if decide (name ∉ ["search"; "node"; "callers"; "callees"; "impact"; "explore"]) then
    λ w, (MethodNotFound, w)
  else
    or_tool_error (view_args args) (λ '(repo, view, sym),
    if_known repo view (symbol_tool name repo view sym args)).
End mcp.

(** ** The command line *)

Definition flag (args : list string) (name : string) : bool := bool_decide (name ∈ args).

(** The value of [--name value], or of [--name=value]. *)
Fixpoint value (args : list string) (name : string) : option string :=
  match args with
  | [] => None
  | a :: args' =>
      if decide (a = name) then head args'
      else match Http.strip_prefix name a ≫= Http.strip_prefix "=" with
           | Some v => Some v
           | None => value args' name
           end
  end.
