(* ===== verification/McpSpec.v ===== *)
(** * McpSpec: what an agent's tools may do

    A server started without writes changes nothing; the tools it runs are those it
    advertises; a graph tool answers from a view that exists or not at all; and what an
    update through [record_put] does to a record's revision. *)

From S2P Require Export Mcp.
From S2P Require Import SampleStores IndexingSpec GraphSamples Merge.

Section spec.
Context `{Blake3, ManifestSerde, SliceSerde, Sqlite, McpSerde} {W F : Type}.
Context (mcp : GonzaloMcp W) (files : gmap string ViewFiles) (open_existing : Db → result string Db).
Context (contents : W → records) (bl : W → gmap ContentHash (bytes * Z)) (rest : W → F) (cap : nat).
Context `{!StoreLaws (svc_store (mcp_service mcp)) contents cap (λ w, (bl w, rest w))}.
Context `{!BlobStoreLaws (svc_blobs (mcp_service mcp)) bl (λ w, (contents w, rest w))}.

Abbreviation svc := (mcp_service mcp).
Abbreviation store := (svc_store svc).
Abbreviation blobs := (svc_blobs svc).

(** ** Calls that only read *)

Definition same_state (w w' : W) : Prop := contents w' = contents w ∧ bl w' = bl w ∧ rest w' = rest w.

#[local] Instance same_state_preorder : PreOrder same_state.
Proof. split; [done|]. intros x y z (? & ? & ?) (? & ? & ?). split_and!; congruence. Qed.

Definition reads {A} (m : W → A * W) : Prop := ∀ w, keyed (contents w) → same_state w (m w).2.

Lemma reads_keyed {A} (m : W → A * W) w : reads m → keyed (contents w) → keyed (contents (m w).2).
Proof. intros Hm Hk. destruct (Hm w Hk) as (-> & _). done. Qed.

Lemma reads_pure {A} (a : A) : reads (λ w, (a, w)).
Proof. by intros w _. Qed.

Lemma reads_bind {E A B} (m : M W E A) (f : A → M W E B) :
  reads m → (∀ a, reads (f a)) → reads (mbind f m).
Proof.
  intros Hm Hf w Hk. pose proof (Hm w Hk) as Hw. pose proof (reads_keyed m w Hm Hk) as Hk1.
  unfold mbind, M_bind. destruct (m w) as [[a|e] w1]; cbn in *; [|done].
  etrans; [exact Hw|by apply Hf].
Qed.

Lemma reads_foldM {E A B} (f : B → A → M W E B) l acc : (∀ b a, reads (f b a)) → reads (foldM f acc l).
Proof.
  intros Hf. revert acc. induction l as [|x l IH]; intros acc; [apply reads_pure|].
  apply (reads_bind (f acc x)); [done|exact IH].
Qed.

Lemma reads_get k : reads (st_get store k).
Proof. intros w _. destruct (law_get (s:=store) k w) as (w' & -> & ? & [= ? ?]). by split_and!. Qed.

Lemma reads_list p : reads (st_list store p).
Proof.
  intros w Hk. destruct (law_list (s:=store) p w Hk) as (l & w' & -> & ? & [= ? ?] & _). by split_and!.
Qed.

Lemma reads_blob h : reads (bs_get_blob blobs h).
Proof. intros w _. destruct (law_get_blob (b:=blobs) h w) as (w' & -> & [= ? ?] & ?). by split_and!. Qed.

Lemma reads_assemble m : reads (assemble blobs m).
Proof.
  apply reads_foldM. intros s [p h]. apply reads_bind; [apply reads_blob|]. intros [b|]; [|apply reads_pure].
  apply reads_bind; [apply reads_pure|]. intros g. apply reads_pure.
Qed.

Lemma reads_view repo v : reads (view store blobs (svc_graph_root svc) files open_existing repo v).
Proof.
  unfold view. destruct (_ ≫= vf_db); [apply reads_bind; intros; apply reads_pure|].
  apply reads_bind; [|intros m; apply reads_bind; [apply reads_assemble|intros; apply reads_pure]].
  apply reads_bind; [apply reads_get|]. intros []; apply reads_pure.
Qed.

Lemma reads_query {A} (q : GraphStore → A) repo v : reads (svc_query mcp files open_existing q repo v).
Proof. apply reads_bind; [apply reads_view|intros; apply reads_pure]. Qed.

Lemma reads_graph_views : reads (svc_graph_views mcp files).
Proof.
  apply reads_bind; [apply reads_list|]. intros keys.
  apply reads_bind; [|intros; apply reads_pure]. apply reads_foldM. intros out k.
  apply reads_bind; [apply reads_get|]. intros [r|]; [|apply reads_pure].
  apply reads_bind; [apply reads_pure|]. intros. apply reads_pure.
Qed.

Lemma reads_view_exists repo v : reads (svc_view_exists mcp files repo v).
Proof.
  unfold svc_view_exists, view_exists. destruct (_ ≫= vf_db); [apply reads_pure|].
  apply reads_bind; [apply reads_get|intros; apply reads_pure].
Qed.

Lemma reads_answer {A} (m : M W CoreError A) p : reads m → reads (answer_with m p).
Proof. intros Hm w Hk. specialize (Hm w Hk). unfold answer_with. by destruct (m w). Qed.

Lemma reads_or_tool_error {A} (r : result string A) (k : A → W → Dispatched * W) :
  (∀ a, reads (k a)) → reads (or_tool_error r k).
Proof. intros Hk. destruct r; [apply Hk|apply reads_pure]. Qed.

Lemma reads_or_store_error {A} (m : M W CoreError A) (k : A → W → Dispatched * W) :
  reads m → (∀ a, reads (k a)) → reads (or_store_error m k).
Proof.
  intros Hm Hf w Hk. pose proof (Hm w Hk) as Hw. pose proof (reads_keyed m w Hm Hk) as Hk1.
  unfold or_store_error. destruct (m w) as [[a|e] w1]; cbn in *; [|done]. etrans; [exact Hw|by apply Hf].
Qed.

Lemma reads_if_known repo v (k : W → Dispatched * W) : reads k → reads (if_known mcp files repo v k).
Proof.
  intros Hf w Hk. unfold if_known, unknown_view_error.
  pose proof (reads_view_exists repo v w Hk) as Hw. pose proof (reads_keyed _ w (reads_view_exists repo v) Hk) as Hk1.
  destruct (svc_view_exists mcp files repo v w) as [[[]|e] w1]; cbn in *; [by etrans; [|apply Hf]| |done].
  pose proof (reads_graph_views w1 Hk1) as Hw2.
  destruct (svc_graph_views mcp files w1) as [[[|]|] w2]; cbn in *; by etrans.
Qed.

#[local] Hint Resolve reads_pure reads_query reads_graph_views reads_answer reads_or_tool_error
  reads_or_store_error reads_if_known reads_get reads_list reads_view reads_bind : mcp.

Lemma reads_aggregate name repo v args : reads (aggregate mcp files open_existing name repo v args).
Proof. unfold aggregate. repeat case_decide; eauto 10 with mcp. Qed.

Lemma reads_call_graph name repo v sym : reads (call_graph mcp files open_existing repo v sym name).
Proof.
  apply reads_or_store_error.
  - unfold call_names. case_decide; (apply reads_bind; [apply reads_query|intros; apply reads_pure]).
  - intros [names modules]. apply reads_or_store_error; [apply reads_query|intros; apply reads_pure].
Qed.

Lemma reads_symbol name repo v sym args : reads (symbol_tool mcp files open_existing name repo v sym args).
Proof.
  unfold symbol_tool. case_decide; [eauto with mcp|]. case_decide; [apply reads_call_graph|].
  case_decide; [apply reads_or_tool_error; intros n; apply reads_answer, reads_query|].
  case_decide; [eauto with mcp|]. case_decide; [|apply reads_pure].
  do 3 (apply reads_or_store_error; [apply reads_query|intros ?]). apply reads_pure.
Qed.

Lemma reads_record_tools args :
  reads (record_list_tool mcp args) ∧ reads (record_get_tool mcp args).
Proof.
  split.
  - apply reads_or_tool_error. intros ns. apply reads_answer, reads_list.
  - apply reads_or_tool_error. intros k. apply reads_or_store_error; [apply reads_get|intros; apply reads_pure].
Qed.

(** C23: without writes the tools change nothing.  On a server not started with writes,
    whatever tool an agent names and whatever it passes, every record and every blob
    of the store is as it was. *)
Theorem mcp_without_writes_is_read_only (name : string) (args : ToolArgs) (w : W) :
  mcp_writes mcp = false → keyed (contents w) →
  same_state w (dispatch mcp files open_existing name args w).2.
Proof.
  intros Hoff. revert w. change (reads (dispatch mcp files open_existing name args)). unfold dispatch.
  case_decide. { intros w Hk. pose proof (reads_graph_views w Hk) as Hw. unfold status_json.
    by destruct (svc_graph_views mcp files w). }
  case_decide; [eauto with mcp|].
  case_decide. { apply reads_or_tool_error. intros [[repo a] b]. do 2 apply reads_if_known.
    apply reads_answer, reads_bind; [apply reads_view|]. intros g.
    apply reads_bind; [apply reads_view|intros; apply reads_pure]. }
  case_decide. { apply reads_or_tool_error. intros [repo v]. apply reads_if_known, reads_aggregate. }
  case_decide as Hrec.
  { destruct Hrec as [Hrec|[? _]]; [|congruence]. unfold record_tool. destruct (reads_record_tools args).
    repeat case_decide; subst; auto; set_solver. }
  case_decide; [apply reads_pure|]. apply reads_or_tool_error. intros [[repo v] sym].
  apply reads_if_known, reads_symbol.
Qed.

(** ** What is advertised runs *)

Definition answers (m : W → Dispatched * W) : Prop := ∀ w, (m w).1 ≠ MethodNotFound.

Lemma answers_answer {A} (m : M W CoreError A) p : answers (answer_with m p).
Proof. intros w. unfold answer_with. by destruct (m w). Qed.

Lemma answers_or_tool_error {A} (r : result string A) (k : A → W → Dispatched * W) :
  (∀ a, answers (k a)) → answers (or_tool_error r k).
Proof. intros Hk. destruct r; [apply Hk|by intros w]. Qed.

Lemma answers_or_store_error {A} (m : M W CoreError A) (k : A → W → Dispatched * W) :
  (∀ a, answers (k a)) → answers (or_store_error m k).
Proof. intros Hk w. unfold or_store_error. destruct (m w) as [[a|e] w1]; [apply Hk|done]. Qed.

Lemma answers_if_known repo v (k : W → Dispatched * W) : answers k → answers (if_known mcp files repo v k).
Proof. intros Hk w. unfold if_known. destruct (unknown_view_error mcp files repo v w) as [[|] w1]; [done|apply Hk]. Qed.

Lemma answers_aggregate name repo v args : name ∈ ["overview"; "top"; "list"; "unreferenced"] →
  answers (aggregate mcp files open_existing name repo v args).
Proof.
  intros Hname. unfold aggregate.
  repeat (case_decide; [repeat (apply answers_or_tool_error; intros ?); apply answers_answer|]). set_solver.
Qed.

Lemma answers_symbol name repo v sym args :
  name ∈ ["search"; "node"; "callers"; "callees"; "impact"; "explore"] →
  answers (symbol_tool mcp files open_existing name repo v sym args).
Proof.
  intros Hname. unfold symbol_tool. case_decide; [apply answers_answer|].
  case_decide. { apply answers_or_store_error. intros [??]. by apply answers_or_store_error. }
  case_decide; [apply answers_or_tool_error; intros ?; apply answers_answer|].
  case_decide; [apply answers_answer|]. case_decide; [by do 3 (apply answers_or_store_error; intros ?)|].
  set_solver.
Qed.

Lemma answers_record name args : name ∈ ["record_get"; "record_list"; "record_put"; "record_delete"] →
  answers (record_tool mcp name args).
Proof.
  intros Hname. unfold record_tool. case_decide; [apply answers_or_tool_error; intros ?; apply answers_answer|].
  case_decide. { apply answers_or_tool_error. intros ?. apply answers_or_store_error. by intros [] ?. }
  case_decide; [repeat (apply answers_or_tool_error; intros ?); apply answers_answer|].
  case_decide; [apply answers_or_tool_error; intros ?; apply answers_answer|]. set_solver.
Qed.

(** The server runs exactly the tools it advertises.  Whatever the arguments, a
    call is answered, with a payload or a tool error, if and only if the tool is in the
    list the server advertises, the record writes among them only when it was started
    with writes; any other name is an unknown method. *)
Theorem mcp_runs_what_it_advertises (name : string) (args : ToolArgs) (w : W) :
  (dispatch mcp files open_existing name args w).1 = MethodNotFound ↔
  name ∉ tool_names (mcp_writes mcp).
Proof.
  assert (name ∈ tool_names (mcp_writes mcp) ∧ answers (dispatch mcp files open_existing name args) ∨
    name ∉ tool_names (mcp_writes mcp) ∧ ∀ w, (dispatch mcp files open_existing name args w).1 = MethodNotFound)
    as [[Hin Hall]|[Hnot Hnone]]; [|split; [by intros ?%Hall|done]|by split].
  unfold dispatch, tool_names. destruct (decide (name = "status")) as [->|Hstatus].
  { left. split; [set_solver|]. intros w0. by destruct (status_json mcp files w0). }
  case_decide; [left; split; [set_solver|apply answers_answer]|].
  case_decide.
  { left. split; [set_solver|]. apply answers_or_tool_error. intros [[??]?].
    do 2 apply answers_if_known. apply answers_answer. }
  case_decide.
  { left. split; [set_solver|]. apply answers_or_tool_error. intros [??].
    by apply answers_if_known, answers_aggregate. }
  case_decide as Hrec.
  { left. split; [destruct Hrec as [?|[-> ?]]; set_solver|]. apply answers_record. set_solver. }
  destruct (decide (name ∈ ["search"; "node"; "callers"; "callees"; "impact"; "explore"])) as [Hsym|Hsym].
  - left. split; [set_solver|]. rewrite decide_False by (by intros ?). apply answers_or_tool_error.
    intros [[??]?]. by apply answers_if_known, answers_symbol.
  - right. rewrite decide_True by done. split; [|done]. destruct (mcp_writes mcp); set_solver.
Qed.

(** ** Selectors *)

(** The views a call of a graph tool selects. *)
Definition selects (name : string) (args : ToolArgs) : list (string * string) :=
  if decide (name = "diff") then
    match diff_args args with Ok (repo, a, b) => [(repo, a); (repo, b)] | Err _ => [] end
  else match selector_args args with Ok s => [s] | Err _ => [] end.

Definition graph_tools : list string :=
  ["search"; "node"; "callers"; "callees"; "impact"; "explore"; "diff"; "overview"; "top"; "list";
   "unreferenced"].

Abbreviation view_known := (known contents (svc_graph_root svc) files).

Lemma known_same repo v w w' : same_state w w' → view_known repo v w' → view_known repo v w.
Proof. intros (Hc & _). unfold known. by rewrite Hc. Qed.

Lemma if_known_success repo v (k : W → Dispatched * W) w p : keyed (contents w) →
  (if_known mcp files repo v k w).1 = Answer (Success p) →
  view_known repo v w ∧ ∃ w', same_state w w' ∧ (k w').1 = Answer (Success p).
Proof.
  intros Hk. unfold if_known, unknown_view_error.
  pose proof (reads_view_exists repo v w Hk) as Hw. unfold svc_view_exists, view_exists in *.
  destruct (files_of (svc_graph_root svc) files repo v ≫= vf_db) as [db|] eqn:Hdb.
  { cbn in *. intros Hp. split; [left; rewrite Hdb; by eexists|]. by exists w. }
  destruct (law_get (s:=store) (Manifest_key repo v) w) as (w1 & Hget & _).
  unfold mbind, M_bind in *. rewrite Hget in *. cbn in *. destruct (live _) as [r|] eqn:Hlive; cbn in *.
  - intros Hp. split; [right; rewrite Hlive; by eexists|]. by exists w1.
  - by destruct (svc_graph_views mcp files w1) as [[[|]|] w2].
Qed.

(** C24: a graph tool answers from an indexed view or not at all.  When a tool that
    takes a view succeeds, the call selected a view, and every view it selected has a
    graph file or a live manifest: a mistyped selector is an error, never an empty
    answer. *)
Theorem mcp_answers_only_known_views (name : string) (args : ToolArgs) (w : W) (p : ToolPayload) :
  keyed (contents w) → name ∈ graph_tools →
  (dispatch mcp files open_existing name args w).1 = Answer (Success p) →
  selects name args ≠ [] ∧ Forall (λ s, view_known s.1 s.2 w) (selects name args).
Proof.
  intros Hk Hname. unfold dispatch, selects.
  rewrite (decide_False (P:=name = "status")) by set_solver. rewrite (decide_False (P:=name = "views")) by set_solver.
  destruct (decide (name = "diff")) as [_|Hdiff].
  { unfold or_tool_error. destruct (diff_args args) as [[[repo a] b]|e]; [|done].
    intros (Ha & w1 & Hw1 & Hp)%if_known_success; [|done]. destruct Hw1 as (Hc1 & Hrest).
    apply if_known_success in Hp as (Hb & _); [|by rewrite Hc1].
    split; [done|]. rewrite !Forall_cons, Forall_nil. split_and!; [done| |done].
    by eapply (known_same _ _ w w1). }
  destruct (decide (name ∈ ["overview"; "top"; "list"; "unreferenced"])) as [_|Hagg].
  { unfold or_tool_error. destruct (selector_args args) as [[repo v]|e]; [|done].
    intros (Hv & _)%if_known_success; [|done]. split; [done|].
    by rewrite Forall_singleton. }
  rewrite decide_False by set_solver. case_decide; [done|].
  unfold or_tool_error, view_args, selector_args, mbind, result_bind.
  destruct (str_arg args "repo") as [repo|]; [|done]. destruct (str_arg args "view_id") as [v|]; [|done].
  destruct (str_arg args "name") as [sym|]; [|done].
  intros (Hv & _)%if_known_success; [|done]. split; [done|].
  by rewrite Forall_singleton.
Qed.
End spec.

(** ** In use *)

Section samples.
#[local] Existing Instance sample_hash.
#[local] Existing Instance sample_serde.
#[local] Existing Instance sample_slices.
#[local] Existing Instance sample_sqlite.
#[local] Existing Instance sample_index_store_laws.
#[local] Existing Instance sample_index_blobs_laws.
#[local] Existing Instance ToyJson.toy.

(** A revision as [record_get] prints it. *)
Definition revision_json (r : Revision) : json :=
  JObject [("counter", JNumber (Some (rev_counter r)) ""); ("hash", JString (hash_hex (rev_hash r)))].

#[local] Instance sample_mcp_serde : McpSerde := {
  json_display _ := "";
  kind_from_name raw := if decide (raw = "Topic") then Some Topic else None;
  revision_from_value v :=
    match v with
    | JObject [(_, JNumber (Some n) _); (_, JString h)] => Ok (mkRevision n (mkHash h))
    | _ => Err "not a revision"
    end
}.

Definition sample_mcp (writes : bool) : GonzaloMcp sample_world :=
  with_writes writes (GonzaloMcp_new (mkService store_a sample_blobs (Some "/graph") DEFAULT_MAX_BLOB_SIZE) "/root").

Definition key_args : gmap string json :=
  {[ "namespace" := JString "ns"; "collection" := JString "col"; "id" := JString "id" ]}.

(** [record_put] as an agent calls it. *)
Definition agent_put (body : string) (expected : option Revision) (w : sample_world) :
    Dispatched * sample_world :=
  dispatch (sample_mcp true) ∅ Ok "record_put"
    (Some (<["expected_revision" := match expected with Some r => revision_json r | None => JNull end]>
      (<["body" := JString body]> key_args))) w.

Definition revision_at (w : sample_world) : option Revision := rec_revision <$> w.1.1 !! sample_key.
Definition body_at (m : records) : option Body := rec_body <$> m !! sample_key.

(** An agent creates a record, edits it, lets it sync to another store, then edits it
    back, each time passing the revision it read. *)
Definition edited : sample_world :=
  let w1 := (agent_put "v0" None sample_empty).2 in (agent_put "v1" (revision_at w1) w1).2.
Definition synced : sample_world := (sync store_a store_b edited).2.
Definition edited_back : sample_world := (agent_put "v0" (revision_at synced) synced).2.

(** An edit back through [record_put] is undone by the next sync.  An update by
    [record_put] is given the revision of a first version, not the one after the
    revision it replaces: an agent that creates a record, edits it, and after a sync
    edits it back has its write committed, and [sync] from the other store then finds
    the record behind, fast-forwards it to the edit before and reports no conflict. *)
Theorem mcp_edit_back_is_undone :
  body_at edited_back.1.1 = Some (sample_body "v0") ∧
  revision_at edited_back = Some (Revision_initial (bytes_of_string "v0")) ∧
  (∃ rev, (agent_put "v0" (revision_at synced) synced).1 = Answer (Success (PCommitted "ns/col/id" rev))) ∧
  let '(report, w) := sync store_b store_a edited_back in
  body_at w.1.1 = Some (sample_body "v1") ∧
  (fast_forwarded_to_b <$> report) = Ok [sample_key] ∧ (conflicts <$> report) = Ok [].
Proof.
  split_and!; [vm_compute; reflexivity..| |].
  - eexists. vm_compute. reflexivity.
  - vm_compute. split_and!; reflexivity.
Qed.

Lemma sample_empty_keyed : keyed sample_empty.1.1.
Proof. intros k r Hr. cbn in Hr. by rewrite lookup_empty in Hr. Qed.

Lemma mcp_without_writes_is_read_only_witness :
  keyed sample_empty.1.1 ∧
  (dispatch (sample_mcp false) ∅ Ok "record_put" (Some key_args) sample_empty).2.1.1 = sample_empty.1.1.
Proof.
  split; [exact sample_empty_keyed|].
  exact (proj1 (mcp_without_writes_is_read_only (sample_mcp false) ∅ Ok (λ w : sample_world, w.1.1)
    (λ w, w.2) (λ w, w.1.2) 32 "record_put" (Some key_args) sample_empty eq_refl sample_empty_keyed)).
Defined.

Definition view_query : ToolArgs :=
  Some {[ "repo" := JString "repo"; "view_id" := JString "main"; "name" := JString "f" ]}.

Lemma mcp_answers_only_known_views_witness :
  (dispatch (sample_mcp false) sample_disk Ok "search" view_query sample_empty).1 =
    Answer (Success (PSymbols [])) ∧
  selects "search" view_query = [("repo", "main")] ∧
  Forall (λ s, known (λ w : sample_world, w.1.1) (Some "/graph") sample_disk s.1 s.2 sample_empty)
    (selects "search" view_query).
Proof.
  assert ((dispatch (sample_mcp false) sample_disk Ok "search" view_query sample_empty).1 =
    Answer (Success (PSymbols []))) as Hrun by (vm_compute; reflexivity).
  split; [exact Hrun|]. split; [reflexivity|].
  refine (proj2 (mcp_answers_only_known_views (sample_mcp false) sample_disk Ok (λ w : sample_world, w.1.1)
    (λ w, w.2) (λ w, w.1.2) 32 "search" view_query sample_empty (PSymbols []) sample_empty_keyed _ Hrun)).
  apply elem_of_cons. by left.
Defined.
End samples.
