(* ===== verification/ParsePool.v ===== *)
(** * ParsePool: parsing in workers that may crash

    Models [gonzalo-parse]'s [lib.rs] and its worker.  A worker is a process that
    answers each request line with one line, in order; the pool keeps one per slot, in
    flight at most once, replaces one that dies and gives up on one that hangs.  What a
    worker does with its next request is the environment's choice ([Fate]); the grammar
    and the JSON are parameters.  A worker's pipes are the requests written to it whose
    answers have not been read. *)

From S2P Require Export CodeModel Prelude.

Record ParseRequest := mkParseRequest { pq_language : Language; pq_source : string }.

Inductive ParseError :=
  | SpawnFailed (msg : string) | WorkerDied | TimedOut | Protocol (msg : string).

#[export] Instance ParseError_eq_dec : EqDecision ParseError.
Proof. solve_decision. Defined.

Record Worker := mkWorker { wk_unread : list ParseRequest }.

Record ParserPool := mkParserPool {
  pl_slots : list (option Worker);
  pl_next : N
}.

Definition usize_modulus : N := 2 ^ 64.

(** [size.max(1)] empty slots. *)
Definition ParserPool_new (size : nat) : ParserPool := mkParserPool (replicate (Nat.max size 1) None) 0.

Definition pool_size (p : ParserPool) : nat := length (pl_slots p).

(** What happens to one attempt: the process cannot be started, answers, dies, does not
    answer in time, or the caller drops the call while it waits. *)
Inductive Fate := NoSpawn (msg : string) | Answers | Dies | Hangs | Dropped.

(** How an attempt ends: with a result, to be tried again, or not at all. *)
Inductive Attempt (A : Type) := Finished (r : result ParseError A) | Retry (e : ParseError) | Gone.
Arguments Finished {A}.
Arguments Retry {A}.
Arguments Gone {A}.

Section pool.
Context {CodeGraph : Type}.
(** The line a worker answers a request with, as the pool reads it. *)
Context (build : ParseRequest → result string CodeGraph).

(** [roundtrip] by a worker that answers: the request is written, the first unread
    line is read. *)
Definition roundtrip (w : Worker) (req : ParseRequest) : result ParseError CodeGraph * Worker :=
  match wk_unread w ++ [req] with
  | first :: rest => (map_err Protocol (build first), mkWorker rest)
  | [] => (Err WorkerDied, w)
  end.

(** One turn of the loop on a slot. *)
Definition attempt_parse (slot : option Worker) (req : ParseRequest) (fate : Fate) :
    Attempt CodeGraph * option Worker :=
  let w := default (mkWorker []) slot in
  match slot, fate with
  | None, NoSpawn msg => (Finished (Err (SpawnFailed msg)), None)
  | _, Dies | _, NoSpawn _ => (Retry WorkerDied, None)
  | _, Hangs => (Finished (Err TimedOut), None)
  | _, Dropped => (Gone, Some (mkWorker (wk_unread w ++ [req])))
  | _, Answers =>
      match roundtrip w req with
      | (Ok g, w') => (Finished (Ok g), Some w')
      | (Err e, _) => (Retry e, None)
      end
  end.

(** [for _ in 0..2]; [None] is a call that was dropped. *)
Fixpoint parse_slot (attempts : list Fate) (slot : option Worker) (req : ParseRequest)
    (last_err : ParseError) : option (result ParseError CodeGraph) * option Worker :=
  match attempts with
  | [] => (Some (Err last_err), slot)
  | fate :: attempts' =>
      match attempt_parse slot req fate with
      | (Finished r, slot') => (Some r, slot')
      | (Gone, slot') => (None, slot')
      | (Retry e, slot') => parse_slot attempts' slot' req e
      end
  end.

(** [fates] are those of the two attempts. *)
Definition parse (p : ParserPool) (req : ParseRequest) (fates : Fate * Fate) :
    option (result ParseError CodeGraph) * ParserPool :=
  let idx := N.to_nat (pl_next p mod N.of_nat (pool_size p)) in
  let slot := default None (pl_slots p !! idx) in
  let '(r, slot') := parse_slot [fates.1; fates.2] slot req WorkerDied in
  (r, mkParserPool (<[idx := slot']> (pl_slots p)) ((pl_next p + 1) mod usize_modulus)).

(** ** Theorems *)

(** A slot in step: whatever its worker was asked, it has answered and was read. *)
Definition in_step (slot : option Worker) : Prop :=
  match slot with Some w => wk_unread w = [] | None => True end.

Definition pool_in_step (p : ParserPool) : Prop := pl_slots p ≠ [] ∧ Forall in_step (pl_slots p).

Lemma new_in_step size : pool_in_step (ParserPool_new size).
Proof.
  split; [|by apply Forall_replicate]. cbn. destruct (Nat.max size 1) eqn:E; [lia|done].
Qed.

(** Two attempts on a slot in step. *)
Lemma parse_slot_in_step f1 f2 slot req : in_step slot → f1 ≠ Dropped → f2 ≠ Dropped →
  ∃ r slot', parse_slot [f1; f2] slot req WorkerDied = (Some r, slot') ∧ in_step slot' ∧
    (∀ g, r = Ok g → build req = Ok g) ∧
    (∀ g, build req = Ok g → f1 = Answers ∨ f1 = Dies ∧ f2 = Answers → r = Ok g) ∧
    (f1 = Hangs ∨ f1 = Dies ∧ f2 = Hangs → r = Err TimedOut ∧ slot' = None) ∧
    (f1 = Dies → f2 = Dies → r = Err WorkerDied).
Proof.
  intros Hstep Hf1 Hf2. cbn [parse_slot]. unfold attempt_parse, roundtrip.
  assert (wk_unread (default (mkWorker []) slot) = []) as -> by (by destruct slot as [[]|]).
  destruct (build req) as [g|e] eqn:Hb;
    destruct slot, f1; try done; cbn; rewrite ?Hb; cbn;
    try (destruct f2; try done; cbn; rewrite ?Hb; cbn);
    (eexists _, _; split; [reflexivity|]); split_and!; try done; naive_solver.
Qed.

(** C25: the pool answers each parse with its own request's graph.  While no call is
    dropped, a pool in step stays in step: a parse that succeeds returns the graph of
    the source it was asked about; it succeeds when the worker answers, or dies and a
    fresh one answers; a hang is not retried and costs the worker, two deaths are an
    error, and every call returns. *)
Theorem pool_answers_in_step (p : ParserPool) (req : ParseRequest) (f1 f2 : Fate) :
  pool_in_step p → f1 ≠ Dropped → f2 ≠ Dropped →
  ∃ r p', parse p req (f1, f2) = (Some r, p') ∧ pool_in_step p' ∧ pool_size p' = pool_size p ∧
    (∀ g, r = Ok g → build req = Ok g) ∧
    (∀ g, build req = Ok g → f1 = Answers ∨ f1 = Dies ∧ f2 = Answers → r = Ok g) ∧
    (f1 = Hangs ∨ f1 = Dies ∧ f2 = Hangs → r = Err TimedOut) ∧
    (f1 = Dies → f2 = Dies → r = Err WorkerDied).
Proof.
  intros [Hne Hall] Hf1 Hf2. unfold parse. cbn [fst snd].
  set (idx := N.to_nat _). set (slot := default None (pl_slots p !! idx)).
  assert (in_step slot) as Hslot.
  { unfold slot. destruct (pl_slots p !! idx) as [o|] eqn:Ho; [|done]. cbn.
    rewrite Forall_lookup in Hall. by eapply Hall. }
  destruct (parse_slot_in_step f1 f2 slot req Hslot Hf1 Hf2)
    as (r & slot' & Hrun & Hs & Hok & Hlive & Hhang & Hdead).
  rewrite Hrun. eexists r, _. split; [done|]. split; [split; cbn|].
  - intros E%(f_equal length). rewrite length_insert in E. by destruct (pl_slots p).
  - by apply Forall_insert.
  - split; [unfold pool_size; cbn; by rewrite length_insert|].
    split_and!; try done. intros Hh. by apply Hhang.
Qed.

(** A dropped parse puts its worker out of step for good.  When the caller drops a
    call that is waiting, the worker stays in its slot with the answer still to come:
    with one worker, the next parse, of whatever source, returns the graph of the
    dropped one as its own, and leaves the worker one answer behind again. *)
Theorem dropped_parse_answers_the_next (dropped req : ParseRequest) (f2 f2' : Fate) (g : CodeGraph) :
  build dropped = Ok g →
  let '(r1, p1) := parse (ParserPool_new 1) dropped (Dropped, f2) in
  let '(r2, p2) := parse p1 req (Answers, f2') in
  r1 = None ∧ r2 = Some (Ok g) ∧ pl_slots p2 = [Some (mkWorker [req])].
Proof. intros Hg. vm_compute. by rewrite Hg. Qed.
End pool.

(** ** The version a worker reports *)

(** What running the worker with [--extraction-version] comes to. *)
Inductive Probe := ProbeHung | ProbeBusy | ProbeError | ProbeRan (success : bool) (stdout : bytes).

Definition BUSY_RETRIES : nat := 4.

(** [attempts] left, each taking the next probe; [read] is [from_utf8], [trim] and
    [parse::<u32>]. *)
Fixpoint worker_extraction_version (read : bytes → option N) (attempts : nat) (probes : nat → Probe) :
    option N :=
  match probes 0 with
  | ProbeBusy =>
      match attempts with
      | O => None
      | S attempts' => worker_extraction_version read attempts' (λ n, probes (S n))
      end
  | ProbeHung | ProbeError => None
  | ProbeRan success stdout => if success then read stdout else None
  end.

(** ** Witnesses *)

Definition sample_request (s : string) : ParseRequest := mkParseRequest Rust s.

Lemma pool_answers_in_step_witness :
  ∃ r p', parse (λ q, Ok (pq_source q)) (ParserPool_new 2) (sample_request "fn a() {}") (Dies, Answers) =
    (Some r, p') ∧ r = Ok "fn a() {}" ∧ pool_in_step p'.
Proof.
  destruct (pool_answers_in_step (λ q, Ok (pq_source q)) (ParserPool_new 2) (sample_request "fn a() {}")
    Dies Answers (new_in_step 2)) as (r & p' & Hrun & Hstep & _ & _ & Hok & _); [done|done|].
  exists r, p'. split; [exact Hrun|]. split; [|exact Hstep]. apply Hok; [reflexivity|by right].
Defined.

Lemma dropped_parse_answers_the_next_witness :
  let '(r1, p1) := parse (λ q, Ok (pq_source q)) (ParserPool_new 1) (sample_request "a") (Dropped, Dies) in
  let '(r2, p2) := parse (λ q, Ok (pq_source q)) p1 (sample_request "b") (Answers, Dies) in
  r1 = None ∧ r2 = Some (Ok "a") ∧ pl_slots p2 = [Some (mkWorker [sample_request "b"])].
Proof.
  exact (dropped_parse_answers_the_next (λ q, Ok (pq_source q)) (sample_request "a") (sample_request "b")
    Dies Dies "a" eq_refl).
Defined.
