(* ===== verification/TicketHttp.v ===== *)
(** * TicketHttp: what the ticket connectors share

    The requests a connector makes, the way it fails on a response, and the URLs and
    JSON it builds: the parts of [gonzalo-ticket-github], [-jira], [-linear], [-gitlab]
    and [-asana] that are the same in all of them, and [provider_error] of
    [gonzalo-ticket]'s [source.rs].  The HTTP client is a function, [send]; URLs are
    built as the [url] crate builds them and JSON as [serde_json] does. *)

From S2P Require Export Text Filesystem CodeModel Tickets.

Inductive HttpMethod := HttpGet | HttpPost | HttpPut | HttpPatch.

(** An absolute URL: its path segments, unless it cannot be a base, and its query. *)
Record TicketUrl := mkTicketUrl {
  tu_origin : string;
  tu_path : option (list string);
  tu_query : list (string * string)
}.

Inductive HttpAuth :=
  | NoAuth | BearerAuth (token : string) | BasicAuth (user password : string)
  | HeaderAuth (name value : string).

Record TicketRequest `{SerdeJson} := mkTicketRequest {
  tq_method : HttpMethod;
  tq_url : TicketUrl;
  tq_auth : HttpAuth;
  tq_body : option Value
}.
Arguments mkTicketRequest {_}.

(** A response: its status, its headers that are text, and its body, which may fail
    to arrive. *)
Record TicketResponse := mkTicketResponse {
  ts_status : N;
  ts_header : string → option string;
  ts_body : result string bytes
}.

(** [Url::parse], and the decoding of a body by [text()]. *)
Class TicketWire := {
  parse_url : string → result string TicketUrl;
  body_as_text : bytes → string
}.

(** More of [serde_json::Value] than merging needs. *)
Class JsonValues `{SerdeJson} := {
  json_string : string → Value;
  json_number : N → Value;
  json_bool : bool → Value;
  json_array : list Value → Value;
  value_as_str : Value → option string;
  value_as_array : Value → option (list Value);
  value_display : Value → string;
  as_str_string s : value_as_str (json_string s) = Some s;
  as_array_array l : value_as_array (json_array l) = Some l;
  as_object_array l : as_object (json_array l) = None;
  value_size_item v l x : value_as_array v = Some l → x ∈ l → value_size x < value_size v
}.

(** [json!({ .. })]. *)
Definition json_object `{SerdeJson} (fields : list (string * Value)) : Value :=
  Object (list_to_map fields).

(** [Value::get]. *)
Definition value_field `{SerdeJson} (name : string) (v : Value) : option Value :=
  m ← as_object v; m !! name.

(** ** Errors *)

Definition MAX_ERROR_BODY : nat := 512.

(** A byte that continues a UTF-8 character. *)
Definition continues (b : Byte.byte) : bool :=
  bool_decide (128 ≤ Byte.to_N b ∧ Byte.to_N b < 192)%N.

(** The first [n] characters, when there are more. *)
Fixpoint cut_chars (n : nat) (b : bytes) : option bytes :=
  match b with
  | [] => None
  | x :: b =>
      if continues x then cons x <$> cut_chars n b
      else match n with 0 => Some [] | S n => cons x <$> cut_chars n b end
  end.

Definition ellipsis : bytes := [Byte.xe2; Byte.x80; Byte.xa6].

Definition provider_error (status : N) (body : string) : SourceError :=
  let body := trim body in
  let returned := "provider returned " +:+ pretty status in
  if decide (body = "") then SourceBackend returned
  else
    let shown := match cut_chars MAX_ERROR_BODY (bytes_of_string body) with
                 | Some cut => string_of_bytes (cut ++ ellipsis)
                 | None => body
                 end in
    SourceBackend (returned +:+ ": " +:+ shown).

(** ** Requests *)

Section http.
Context `{SerdeJson} `{TicketWire} {W : Type} (send : TicketRequest → M W string TicketResponse).

Definition is_success (status : N) : bool := bool_decide (200 ≤ status ∧ status < 300)%N.

Definition check_status (r : TicketResponse) : result SourceError TicketResponse :=
  if is_success (ts_status r) then Ok r
  else Err (provider_error (ts_status r)
         match ts_body r with Ok b => body_as_text b | Err _ => "" end).

(** [send().await.map_err(be)?.check_status().await?]. *)
Definition exchange (r : TicketRequest) : M W SourceError TicketResponse :=
  resp ← convert SourceBackend (send r); lift (check_status resp).

(** [resp.json().await.map_err(be)?]. *)
Definition json_of {A} (decode : bytes → result string A) (resp : TicketResponse) :
    M W SourceError A :=
  lift (b ← map_err SourceBackend (ts_body resp); map_err SourceBackend (decode b)).

Definition ask {A} (decode : bytes → result string A) (r : TicketRequest) : M W SourceError A :=
  resp ← exchange r; json_of decode resp.

(** A request whose answer is not read. *)
Definition tell (r : TicketRequest) : M W SourceError unit := _ ← exchange r; mret tt.
End http.

(** ** URLs *)

(** [path_segments_mut], which fails with [error], and [extend]. *)
Definition extend_url `{UrlCrate} (error : string) (url : TicketUrl) (segments : list string) :
    result SourceError TicketUrl :=
  path ← ok_or (SourceBackend error) (tu_path url);
  Ok (mkTicketUrl (tu_origin url) (Some (extend_segments path segments)) (tu_query url)).

Definition append_query (pairs : list (string * string)) (url : TicketUrl) : TicketUrl :=
  mkTicketUrl (tu_origin url) (tu_path url) (tu_query url ++ pairs).

(** ** Text *)

(** [text[prefix.len()..]] of a text that starts with the prefix, and [strip_prefix]. *)
Definition without_prefix (prefix text : string) : string :=
  String.substring (String.length prefix) (String.length text - String.length prefix) text.

Definition strip_prefix_of (prefix text : string) : option string :=
  if starts_with prefix text then Some (without_prefix prefix text) else None.

Definition ascii_lowercase (s : string) : string :=
  string_of_bytes (ascii_lower <$> bytes_of_string s).

(** The number after the last [#] of a uid, or the uid itself. *)
Definition number_of_uid (what uid : string) : result SourceError N :=
  let n := match rsplit_once (Ascii.ascii_of_byte Byte.x23) uid with Some (_, n) => n | None => uid end in
  ok_or (SourceBackend ("cannot parse " +:+ what +:+ " from uid " +:+ uid)) (parse_usize n).

Definition Markdown_body (text : option string) : TicketBody :=
  mkTicketBody (default "" text) Markdown None.

(** [mapping.by_value.get(name).copied().unwrap_or_else(fallback)]. *)
Definition mapped_category (mapping : option StateMapping) (name : string) (fallback : StateCategory) :
    StateCategory :=
  default fallback (m ← mapping; by_value m !! name).

Definition push_comments : Capabilities := mkCapabilities true false false false false false true.
