(* ===== verification/TrackerSources.v ===== *)
(** * TrackerSources: tickets from Jira, Linear, GitLab and Asana

    Models the [mapping.rs] and [source.rs] of [gonzalo-ticket-jira],
    [gonzalo-ticket-linear], [gonzalo-ticket-gitlab] and [gonzalo-ticket-asana]: what
    each API answers with, the ticket it becomes, and the source over HTTP. *)

From S2P Require Export TicketHttp.
From S2P Require Import Fleet.

(** ** Jira: issues over REST, moved by transitions *)

(** ** Issues as the API gives them *)

Record JiraNamed := mkJiraNamed { jn_name : string }.
Record JiraUser := mkJiraUser { ju_display_name : string; ju_account_id : option string }.
Record JiraProject := mkJiraProject { jp_key : string; jp_name : string }.
Record JiraStatus := mkJiraStatus { js_name : string; js_id : string; js_category_key : string }.

Record JiraFields `{SerdeJson} := mkJiraFields {
  jf_summary : string;
  jf_description : option Value;
  jf_status : JiraStatus;
  jf_issuetype : option JiraNamed;
  jf_priority : option JiraNamed;
  jf_assignee : option JiraUser;
  jf_reporter : option JiraUser;
  jf_labels : list string;
  jf_project : option JiraProject;
  jf_resolution : option JiraNamed
}.
Arguments mkJiraFields {_}.

Record JiraIssue `{SerdeJson} := mkJiraIssue { ji_key : string; ji_id : string; ji_fields : JiraFields }.
Arguments mkJiraIssue {_}.

Record Transition := mkTransition { tr_id : string; tr_name : string; tr_category_key : string }.

Record SearchResponse `{SerdeJson} := mkSearchResponse {
  sr_issues : list JiraIssue; sr_next_page_token : option string
}.
Arguments mkSearchResponse {_}.

(** [serde_json] reading the three answers. *)
Class JiraSerde `{SerdeJson} := {
  search_from_slice : bytes → result string SearchResponse;
  jira_issue_from_slice : bytes → result string JiraIssue;
  transitions_from_slice : bytes → result string (list Transition)
}.

(** ** The mapping *)

Definition category_from_status_category (key : string) : StateCategory :=
  if decide (key = "indeterminate") then InProgress
  else if decide (key = "done") then Done
  else Open.

Definition resolution_from_name (name : string) : Resolution :=
  let n := ascii_lowercase name in
  if decide (n ∈ ["done"; "fixed"]) then ResolvedDone
  else if decide (n ∈ ["won't do"; "wont do"; "won't fix"; "wontfix"]) then WontDo
  else if decide (n = "duplicate") then DuplicateOf
  else if decide (n ∈ ["cannot reproduce"; "cannot reproduce it"]) then CannotReproduce
  else if decide (n = "invalid") then InvalidTicket
  else OtherResolution name.

Definition priority_from_name (name : string) : PriorityLevel :=
  let n := ascii_lowercase name in
  if decide (n ∈ ["highest"; "critical"; "blocker"]) then Urgent
  else if decide (n = "high") then High
  else if decide (n = "low") then Low
  else if decide (n ∈ ["lowest"; "trivial"]) then PriorityNone
  else Medium.

Definition jira_actor (user : JiraUser) (role : ActorRole) : Actor :=
  mkActor role (default (ju_display_name user) (ju_account_id user)) (Some (ju_display_name user)).

Section mapping.
Context `{SerdeJson} `{!JsonValues}.

(** The text of an ADF node; every call is on a smaller value. *)
Fixpoint collect_text (fuel : nat) (node : Value) (out : string) : string :=
  match fuel with
  | 0 => out
  | S fuel =>
      match as_object node with
      | Some map =>
          let out := match map !! "text" ≫= value_as_str with Some t => out +:+ t | None => out end in
          let out := match map !! "content" with Some c => collect_text fuel c out | None => out end in
          match map !! "type" ≫= value_as_str with
          | Some ty => if decide (ty ∈ ["paragraph"; "heading"]) then out +:+ newline_str else out
          | None => out
          end
      | None =>
          match value_as_array node with
          | Some items => foldl (λ out item, collect_text fuel item out) out items
          | None => out
          end
      end
  end.

Definition adf_to_text (node : Value) : string :=
  trim_end (collect_text (S (value_size node)) node "").

Definition jira_issue_to_ticket (mapping : option StateMapping) (issue : JiraIssue) : ticket :=
  let f := ji_fields issue in
  let status := jf_status f in
  mkTicket Jira (ji_key issue) (ji_key issue)
    (match jf_issuetype f with Some t => jn_name t | None => "issue" end)
    (jf_summary f)
    (mkState (mapped_category mapping (js_name status)
                (category_from_status_category (js_category_key status)))
       ((λ r, resolution_from_name (jn_name r)) <$> jf_resolution f)
       (js_name status) (Some (js_id status)))
    ((λ p, mkPriority (priority_from_name (jn_name p)) (Some (jn_name p))) <$> jf_priority f)
    (match jf_assignee f with Some a => [jira_actor a Assignee] | None => [] end ++
     match jf_reporter f with Some r => [jira_actor r Submitter] | None => [] end)
    (jf_labels f)
    (match jf_project f with
     | Some p => [mkContainer "project" (jp_key p) (Some (jp_name p)) true]
     | None => []
     end)
    []
    (match jf_description f with
     | Some adf => mkTicketBody (adf_to_text adf) Adf (Some (value_display adf))
     | None => mkTicketBody "" Adf None
     end)
    {["jira_id" := json_string (ji_id issue)]}.
End mapping.

(** ** Transitions *)

Definition target_status_category (target : StateCategory) : string :=
  match target with
  | InProgress | Pending => "indeterminate"
  | Done | Canceled => "done"
  | _ => "new"
  end.

Definition is_cancel_intent (status_name : string) : bool :=
  let name := ascii_lowercase status_name in
  existsb (λ needle, contains needle name)
    ["cancel"; "won't do"; "wont do"; "will not do"; "reject"; "abandon"; "discard"].

Definition choose_transition (transitions : list Transition) (target : StateCategory) :
    option Transition :=
  let want := target_status_category target in
  let candidates := filter (λ t, tr_category_key t = want) transitions in
  first ← head candidates;
  let preferred :=
    match target with
    | Canceled => Tickets.find (λ t, is_cancel_intent (tr_name t)) candidates
    | Done => Tickets.find (λ t, negb (is_cancel_intent (tr_name t))) candidates
    | _ => None
    end in
  Some (default first preferred).

(** ** The source *)

Definition JIRA_FIELDS : list string :=
  ["summary"; "description"; "status"; "issuetype"; "priority"; "assignee"; "reporter"; "labels";
   "project"; "resolution"].

Record JiraSource := mkJiraSource {
  jira_base : TicketUrl;
  jira_email : string;
  jira_token : string;
  jira_mapping : option StateMapping;
  jira_jql : string
}.

Definition JiraSource_new `{TicketWire} (site email token : string) : result SourceError JiraSource :=
  base ← map_err SourceBackend (parse_url site);
  Ok (mkJiraSource base email token None "order by updated asc").

Definition jira_with_mapping (m : StateMapping) (s : JiraSource) : JiraSource :=
  mkJiraSource (jira_base s) (jira_email s) (jira_token s) (Some m) (jira_jql s).
Definition jira_with_jql (jql : string) (s : JiraSource) : JiraSource :=
  mkJiraSource (jira_base s) (jira_email s) (jira_token s) (jira_mapping s) jql.

Section source.
Context `{SerdeJson} `{!JsonValues} `{TicketWire} `{UrlCrate} `{!JiraSerde} {W : Type}.
Context (send : TicketRequest → M W string TicketResponse) (s : JiraSource).

Definition jira_url (segments : list string) : result SourceError TicketUrl :=
  extend_url "site URL cannot be a base" (jira_base s) segments.

Definition jira_request (method : HttpMethod) (url : TicketUrl) (body : option Value) : TicketRequest :=
  mkTicketRequest method url (BasicAuth (jira_email s) (jira_token s)) body.

Definition jira_search_body (cursor : Cursor) : Value :=
  json_object (
    match cursor with Some token => [("nextPageToken", json_string token)] | None => [] end ++
    [("jql", json_string (jira_jql s)); ("fields", json_array (json_string <$> JIRA_FIELDS));
     ("maxResults", json_number 100)]).

Definition jira_fetch_changed (cursor : Cursor) : M W SourceError Page :=
  url ← lift (jira_url ["rest"; "api"; "3"; "search"; "jql"]);
  search ← ask send search_from_slice (jira_request HttpPost url (Some (jira_search_body cursor)));
  mret (mkPage (jira_issue_to_ticket (jira_mapping s) <$> sr_issues search) (sr_next_page_token search)).

Definition jira_get (uid : string) : M W SourceError ticket :=
  url ← lift (jira_url ["rest"; "api"; "3"; "issue"; uid]);
  let url := append_query [("fields", String.concat "," JIRA_FIELDS)] url in
  issue ← ask send jira_issue_from_slice (jira_request HttpGet url None);
  mret (jira_issue_to_ticket (jira_mapping s) issue).

Definition jira_transition_body (t : Transition) : Value :=
  json_object [("transition", json_object [("id", json_string (tr_id t))])].

Definition jira_set_state (uid : string) (target : StateCategory) : M W SourceError unit :=
  url ← lift (jira_url ["rest"; "api"; "3"; "issue"; uid; "transitions"]);
  available ← ask send transitions_from_slice (jira_request HttpGet url None);
  t ← lift (ok_or (SourceBackend ("no available transition into statusCategory '" +:+
      target_status_category target +:+ "' for " +:+ uid)) (choose_transition available target));
  tell send (jira_request HttpPost url (Some (jira_transition_body t))).

Definition jira_comment_body (text : string) : Value :=
  json_object [("body", json_object [("type", json_string "doc"); ("version", json_number 1);
    ("content", json_array [json_object [("type", json_string "paragraph");
      ("content", json_array [json_object [("type", json_string "text");
        ("text", json_string text)]])]])])].

Definition jira_comment (uid text : string) : M W SourceError unit :=
  url ← lift (jira_url ["rest"; "api"; "3"; "issue"; uid; "comment"]);
  tell send (jira_request HttpPost url (Some (jira_comment_body text))).

Definition jira_source : TicketSource W :=
  mkSource (mkCapabilities true true false false false false true)
    jira_fetch_changed jira_get jira_set_state jira_comment.
End source.

(** ** Linear: GraphQL, with errors under a success status and writes declined in silence *)

Record LinearState := mkLinearState { ls_name : string; ls_type : string }.
Record LinearNamed := mkLinearNamed { ln_name : string }.
Record LinearUser := mkLinearUser { lu_display_name : string }.
Record LinearTeam := mkLinearTeam { lt_key : string; lt_name : string }.

(** [li_priority] is a [u8]. *)
Record LinearIssue := mkLinearIssue {
  lis_id : string;
  lis_identifier : string;
  lis_title : string;
  lis_description : option string;
  lis_priority : N;
  lis_state : LinearState;
  lis_assignee : option LinearUser;
  lis_creator : option LinearUser;
  lis_labels : list LinearNamed;
  lis_team : option LinearTeam;
  lis_project : option LinearNamed
}.

Record WorkflowState := mkWorkflowState { ws_id : string; ws_type : string }.

(** A GraphQL answer: [data], if any, and the messages of [errors]. *)
Record LinearResponse (A : Type) := mkLinearResponse {
  lr_data : option A; lr_errors : list string
}.
Arguments mkLinearResponse {A}.
Arguments lr_data {A}.
Arguments lr_errors {A}.

Record IssueConnection := mkIssueConnection {
  ic_has_next_page : bool; ic_end_cursor : option string; ic_nodes : list LinearIssue
}.

(** [serde_json] reading the answers: a page of issues, an issue, the workflow states
    of its team, and the success flag of a mutation. *)
Class LinearSerde := {
  issues_from_slice : bytes → result string (LinearResponse IssueConnection);
  linear_issue_from_slice : bytes → result string (LinearResponse (option LinearIssue));
  team_states_from_slice : bytes → result string (LinearResponse (option (list WorkflowState)));
  update_from_slice : bytes → result string (LinearResponse bool);
  comment_from_slice : bytes → result string (LinearResponse bool)
}.

(** ** The mapping *)

Definition category_from_state_type (type_ : string) : StateCategory :=
  if decide (type_ = "triage") then Triage
  else if decide (type_ = "backlog") then Backlog
  else if decide (type_ = "started") then InProgress
  else if decide (type_ = "completed") then Done
  else if decide (type_ = "canceled") then Canceled
  else Open.

Definition linear_priority_level (p : N) : PriorityLevel :=
  match p with
  | 1 => Urgent
  | 2 => High
  | 3 => Medium
  | 4 => Low
  | _ => PriorityNone
  end%N.

Definition linear_actor (user : LinearUser) (role : ActorRole) : Actor :=
  mkActor role (lu_display_name user) (Some (lu_display_name user)).

Definition linear_issue_to_ticket `{SerdeJson} (mapping : option StateMapping) (issue : LinearIssue) :
    ticket :=
  let state := lis_state issue in
  mkTicket Linear (lis_id issue) (lis_identifier issue) "issue" (lis_title issue)
    (mkState (mapped_category mapping (ls_name state) (category_from_state_type (ls_type state)))
       None (ls_name state) None)
    (Some (mkPriority (linear_priority_level (lis_priority issue)) (Some (pretty (lis_priority issue)))))
    (match lis_assignee issue with Some a => [linear_actor a Assignee] | None => [] end ++
     match lis_creator issue with Some c => [linear_actor c Submitter] | None => [] end)
    (ln_name <$> lis_labels issue)
    (match lis_team issue with
     | Some t => [mkContainer "team" (lt_key t) (Some (lt_name t)) true]
     | None => []
     end ++
     match lis_project issue with
     | Some p => [mkContainer "project" (ln_name p) (Some (ln_name p)) false]
     | None => []
     end)
    [] (Markdown_body (lis_description issue)) ∅.

(** ** The source *)

Definition target_state_type (target : StateCategory) : string :=
  match target with
  | Triage => "triage"
  | Backlog => "backlog"
  | InProgress | Pending => "started"
  | Done => "completed"
  | Canceled => "canceled"
  | Open => "unstarted"
  end.

Definition check_success (success : bool) (op : string) : result SourceError unit :=
  if success then Ok tt else Err (SourceBackend ("linear " +:+ op +:+ " reported success: false")).

Definition LINEAR_ENDPOINT : string := "https://api.linear.app/graphql".

Definition ISSUE_FIELDS : string :=
  "id identifier title description priority state { name type } assignee { displayName } creator { displayName } labels { nodes { name } } team { key name } project { name }".

Record LinearSource := mkLinearSource {
  lin_endpoint : TicketUrl; lin_api_key : string; lin_mapping : option StateMapping
}.

Definition Linear_with_endpoint `{TicketWire} (endpoint api_key : string) :
    result SourceError LinearSource :=
  url ← map_err SourceBackend (parse_url endpoint); Ok (mkLinearSource url api_key None).
Definition LinearSource_new `{TicketWire} (api_key : string) : result SourceError LinearSource :=
  Linear_with_endpoint LINEAR_ENDPOINT api_key.
Definition linear_with_mapping (m : StateMapping) (s : LinearSource) : LinearSource :=
  mkLinearSource (lin_endpoint s) (lin_api_key s) (Some m).

Section source.
Context `{SerdeJson} `{!JsonValues} `{TicketWire} `{LinearSerde} {W : Type}.
Context (send : TicketRequest → M W string TicketResponse) (s : LinearSource).

Definition linear_request (query : string) (variables : Value) : TicketRequest :=
  mkTicketRequest HttpPost (lin_endpoint s) (HeaderAuth "authorization" (lin_api_key s))
    (Some (json_object [("query", json_string query); ("variables", variables)])).

Definition linear_query {A} (decode : bytes → result string (LinearResponse A)) (query : string)
    (variables : Value) : M W SourceError A :=
  gql ← ask send decode (linear_request query variables);
  lift (match lr_errors gql with
        | [] => ok_or (SourceBackend "linear graphql: empty data") (lr_data gql)
        | errors => Err (SourceBackend ("linear graphql: " +:+ String.concat "; " errors))
        end).

Definition ISSUES_QUERY : string :=
  "query($after: String) { issues(first: 100, after: $after) { pageInfo { hasNextPage endCursor } nodes { "
    +:+ ISSUE_FIELDS +:+ " } } }".
Definition ISSUE_QUERY : string := "query($id: String!) { issue(id: $id) { " +:+ ISSUE_FIELDS +:+ " } }".
Definition STATES_QUERY : string :=
  "query($id: String!) { issue(id: $id) { team { states { nodes { id type } } } } }".
Definition UPDATE_MUTATION : string :=
  "mutation($id: String!, $sid: String!) { issueUpdate(id: $id, input: { stateId: $sid }) { success } }".
Definition COMMENT_MUTATION : string :=
  "mutation($id: String!, $body: String!) { commentCreate(input: { issueId: $id, body: $body }) { success } }".

Definition linear_fetch_changed (cursor : Cursor) : M W SourceError Page :=
  data ← linear_query issues_from_slice ISSUES_QUERY
    (json_object [("after", match cursor with Some c => json_string c | None => Null end)]);
  mret (mkPage (linear_issue_to_ticket (lin_mapping s) <$> ic_nodes data)
          (if ic_has_next_page data then ic_end_cursor data else None)).

Definition linear_get (uid : string) : M W SourceError ticket :=
  data ← linear_query linear_issue_from_slice ISSUE_QUERY (json_object [("id", json_string uid)]);
  issue ← lift (ok_or (SourceBackend ("no linear issue " +:+ uid)) data);
  mret (linear_issue_to_ticket (lin_mapping s) issue).

Definition linear_set_state (uid : string) (target : StateCategory) : M W SourceError unit :=
  data ← linear_query team_states_from_slice STATES_QUERY (json_object [("id", json_string uid)]);
  states ← lift (ok_or (SourceBackend ("no linear issue " +:+ uid)) data);
  let want := target_state_type target in
  state ← lift (ok_or (SourceBackend ("team has no workflow state of type '" +:+ want +:+ "'"))
    (Tickets.find (λ st, bool_decide (ws_type st = want)) states));
  success ← linear_query update_from_slice UPDATE_MUTATION
    (json_object [("id", json_string uid); ("sid", json_string (ws_id state))]);
  lift (check_success success "issueUpdate").

Definition linear_comment (uid text : string) : M W SourceError unit :=
  success ← linear_query comment_from_slice COMMENT_MUTATION
    (json_object [("id", json_string uid); ("body", json_string text)]);
  lift (check_success success "commentCreate").

Definition linear_source : TicketSource W :=
  mkSource push_comments linear_fetch_changed linear_get linear_set_state linear_comment.
End source.

(** ** GitLab: an intrinsic state, refined by scoped labels while the issue is open *)

Record GlUser := mkGlUser { gl_username : string }.

Record GlIssue := mkGlIssue {
  gl_iid : N;
  gl_title : string;
  gl_description : option string;
  gl_state : string;
  gl_labels : list string;
  gl_assignees : list GlUser;
  gl_author : option GlUser;
  gl_issue_type : option string;
  gl_reference : option string
}.

Class GitLabSerde := {
  gl_issues_from_slice : bytes → result string (list GlIssue);
  gl_issue_from_slice : bytes → result string GlIssue
}.

(** ** The mapping *)

Definition gl_resolve_state (issue_state : string) (labels : list string)
    (mapping : option StateMapping) : StateCategory * string :=
  if decide (issue_state = "closed") then (Done, issue_state)
  else
    match mapping with
    | Some m =>
        match signal m with
        | ScopedLabel prefix =>
            match Tickets.find (starts_with prefix) labels with
            | Some label => (category_of m (without_prefix prefix label), label)
            | None => (Open, issue_state)
            end
        | _ => (Open, issue_state)
        end
    | None => (Open, issue_state)
    end.

Definition gl_actor (user : GlUser) (role : ActorRole) : Actor := mkActor role (gl_username user) None.

Definition gl_issue_to_ticket `{SerdeJson} (project : string) (mapping : option StateMapping)
    (issue : GlIssue) : ticket :=
  let '(category, raw_name) := gl_resolve_state (gl_state issue) (gl_labels issue) mapping in
  let display := "#" +:+ dec (gl_iid issue) in
  mkTicket GitLab
    (match gl_reference issue with Some full => full | None => project +:+ display end)
    display (default "issue" (gl_issue_type issue)) (gl_title issue)
    (mkState category None raw_name None) None
    (((λ a, gl_actor a Assignee) <$> gl_assignees issue) ++
     match gl_author issue with Some a => [gl_actor a Submitter] | None => [] end)
    (gl_labels issue) [mkContainer "project" project None true] []
    (Markdown_body (gl_description issue)) ∅.

(** ** The source *)

Definition GITLAB_BASE : string := "https://gitlab.com".

Record GitLabSource := mkGitLabSource {
  gls_base : TicketUrl; gls_project : string; gls_token : string; gls_mapping : option StateMapping
}.

Definition GitLab_with_base `{TicketWire} (base project token : string) :
    result SourceError GitLabSource :=
  url ← map_err SourceBackend (parse_url base); Ok (mkGitLabSource url project token None).
Definition GitLabSource_new `{TicketWire} (project token : string) : result SourceError GitLabSource :=
  GitLab_with_base GITLAB_BASE project token.
Definition gitlab_with_mapping (m : StateMapping) (s : GitLabSource) : GitLabSource :=
  mkGitLabSource (gls_base s) (gls_project s) (gls_token s) (Some m).

Definition terminal (target : StateCategory) : bool := bool_decide (target = Done ∨ target = Canceled).

Section source.
Context `{SerdeJson} `{!JsonValues} `{TicketWire} `{UrlCrate} `{GitLabSerde} {W : Type}.
Context (send : TicketRequest → M W string TicketResponse) (s : GitLabSource).

(** The project is one segment, so its slashes are encoded. *)
Definition gl_issues_url (trailing : list string) : result SourceError TicketUrl :=
  extend_url "base URL cannot be a base" (gls_base s)
    (["api"; "v4"; "projects"] ++ [gls_project s] ++ ["issues"] ++ trailing).

Definition gl_request (method : HttpMethod) (url : TicketUrl) (body : option Value) : TicketRequest :=
  mkTicketRequest method url (HeaderAuth "PRIVATE-TOKEN" (gls_token s)) body.

Definition gl_page_query (cursor : Cursor) : list (string * string) :=
  [("scope", "all"); ("per_page", "100"); ("order_by", "updated_at"); ("sort", "asc");
   ("page", default "1" cursor)].

Definition next_page_header (resp : TicketResponse) : option string :=
  v ← ts_header resp "x-next-page"; if decide (v = "") then None else Some v.

Definition gitlab_fetch_changed (cursor : Cursor) : M W SourceError Page :=
  url ← lift (gl_issues_url []);
  resp ← exchange send (gl_request HttpGet (append_query (gl_page_query cursor) url) None);
  issues ← json_of gl_issues_from_slice resp;
  mret (mkPage (gl_issue_to_ticket (gls_project s) (gls_mapping s) <$> issues) (next_page_header resp)).

Definition issue_iid (uid : string) : result SourceError N := number_of_uid "iid" uid.

Definition gitlab_get (uid : string) : M W SourceError ticket :=
  n ← lift (issue_iid uid);
  url ← lift (gl_issues_url [dec n]);
  issue ← ask send gl_issue_from_slice (gl_request HttpGet url None);
  mret (gl_issue_to_ticket (gls_project s) (gls_mapping s) issue).

Definition scoped_mapping (mapping : option StateMapping) : bool :=
  match mapping with Some m => match signal m with ScopedLabel _ => true | _ => false end | None => false end.

Definition gitlab_set_state (uid : string) (target : StateCategory) : M W SourceError unit :=
  if negb (terminal target) && scoped_mapping (gls_mapping s) then
    throw (Unsupported "non-terminal set_state under a scoped-label mapping (workflow label write-back not implemented)")
  else
    n ← lift (issue_iid uid);
    url ← lift (gl_issues_url [dec n]);
    tell send (gl_request HttpPut url
      (Some (json_object [("state_event", json_string (if terminal target then "close" else "reopen"))]))).

Definition gitlab_comment (uid text : string) : M W SourceError unit :=
  n ← lift (issue_iid uid);
  url ← lift (gl_issues_url [dec n; "notes"]);
  tell send (gl_request HttpPost url (Some (json_object [("body", json_string text)]))).

Definition gitlab_source : TicketSource W :=
  mkSource push_comments gitlab_fetch_changed gitlab_get gitlab_set_state gitlab_comment.
End source.

(** ** Asana: a completed flag, the section of the first project or a custom field *)

Record AsanaUser := mkAsanaUser { au_name : string }.
Record AsanaNamedGid := mkAsanaNamedGid { ag_gid : string; ag_name : option string }.
Record AsanaMembership := mkAsanaMembership {
  am_project : option AsanaNamedGid; am_section : option AsanaNamedGid
}.
Record AsanaNamed := mkAsanaNamed { an_name : string }.
(** [ac_enum_value] is the enum's object, whose name may be missing. *)
Record AsanaCustomField := mkAsanaCustomField {
  ac_gid : string; ac_enum_value : option (option string); ac_display_value : option string
}.

Record AsanaTask := mkAsanaTask {
  at_gid : string;
  at_name : string;
  at_notes : option string;
  at_html_notes : option string;
  at_completed : bool;
  at_assignee : option AsanaUser;
  at_created_by : option AsanaUser;
  at_memberships : list AsanaMembership;
  at_custom_fields : list AsanaCustomField;
  at_tags : list AsanaNamed;
  at_permalink_url : option string
}.

(** The answers: a page of tasks with the offset of the next, and one task. *)
Class AsanaSerde := {
  tasks_from_slice : bytes → result string (list AsanaTask * option (option string));
  task_from_slice : bytes → result string AsanaTask
}.

(** ** The mapping *)

Definition primary_section (task : AsanaTask) : option string :=
  m ← head (at_memberships task); s ← am_section m; ag_name s.

Definition custom_field_value (task : AsanaTask) (id : string) : option string :=
  c ← Tickets.find (λ c, bool_decide (ac_gid c = id)) (at_custom_fields task);
  match mjoin (ac_enum_value c) with Some name => Some name | None => ac_display_value c end.

Definition asana_intrinsic (task : AsanaTask) : StateCategory * string :=
  if at_completed task then (Done, "completed") else (Open, "incomplete").

Definition asana_resolve_state (task : AsanaTask) (mapping : option StateMapping) :
    StateCategory * string :=
  match mapping with
  | None => asana_intrinsic task
  | Some m =>
      match signal m with
      | Completed =>
          let raw := if at_completed task then "true" else "false" in (category_of m raw, raw)
      | Section_ =>
          match primary_section task with
          | Some section => (category_of m section, section)
          | None => asana_intrinsic task
          end
      | CustomField id =>
          match custom_field_value task id with
          | Some value => (category_of m value, value)
          | None => asana_intrinsic task
          end
      | _ => asana_intrinsic task
      end
  end.

Definition membership_container (i : nat) (m : AsanaMembership) : option Container :=
  p ← am_project m; Some (mkContainer "project" (ag_gid p) (ag_name p) (bool_decide (i = 0))).

Definition task_to_ticket `{SerdeJson} `{!JsonValues} (mapping : option StateMapping)
    (task : AsanaTask) : ticket :=
  let '(category, raw_name) := asana_resolve_state task mapping in
  mkTicket Asana (at_gid task) (at_gid task) "task" (at_name task)
    (mkState category None raw_name None) None
    (match at_assignee task with Some a => [mkActor Assignee (au_name a) None] | None => [] end ++
     match at_created_by task with Some c => [mkActor Submitter (au_name c) None] | None => [] end)
    (an_name <$> at_tags task)
    (omap id (imap membership_container (at_memberships task)))
    []
    (match at_html_notes task with
     | Some html => mkTicketBody (default "" (at_notes task)) Html (Some html)
     | None => mkTicketBody (default "" (at_notes task)) PlainText None
     end)
    (match at_permalink_url task with
     | Some url => {["permalink_url" := json_string url]}
     | None => ∅
     end).

(** ** The source *)

Definition ASANA_BASE : string := "https://app.asana.com/api/1.0".

Definition OPT_FIELDS : string :=
  "name,notes,html_notes,completed,assignee.name,created_by.name,memberships.project.name,memberships.project.gid,memberships.section.name,memberships.section.gid,custom_fields.gid,custom_fields.enum_value.name,custom_fields.display_value,tags.name,permalink_url".

Record AsanaSource := mkAsanaSource {
  as_base : TicketUrl; as_project : string; as_token : string; as_mapping : option StateMapping
}.

Definition Asana_with_base `{TicketWire} (base project token : string) :
    result SourceError AsanaSource :=
  url ← map_err SourceBackend (parse_url base); Ok (mkAsanaSource url project token None).
Definition AsanaSource_new `{TicketWire} (project token : string) : result SourceError AsanaSource :=
  Asana_with_base ASANA_BASE project token.
Definition asana_with_mapping (m : StateMapping) (s : AsanaSource) : AsanaSource :=
  mkAsanaSource (as_base s) (as_project s) (as_token s) (Some m).

(** [Done] and [Canceled] complete a task. *)
Definition completes (target : StateCategory) : bool := bool_decide (target = Done ∨ target = Canceled).

Section source.
Context `{SerdeJson} `{!JsonValues} `{TicketWire} `{UrlCrate} `{AsanaSerde} {W : Type}.
Context (send : TicketRequest → M W string TicketResponse) (s : AsanaSource).

Definition asana_url (segments : list string) : result SourceError TicketUrl :=
  extend_url "base URL cannot be a base" (as_base s) segments.

Definition asana_request (method : HttpMethod) (url : TicketUrl) (body : option Value) : TicketRequest :=
  mkTicketRequest method url (BearerAuth (as_token s)) body.

Definition asana_page_query (cursor : Cursor) : list (string * string) :=
  [("project", as_project s); ("opt_fields", OPT_FIELDS); ("limit", "100")] ++
  match cursor with Some offset => [("offset", offset)] | None => [] end.

Definition asana_fetch_changed (cursor : Cursor) : M W SourceError Page :=
  url ← lift (asana_url ["tasks"]);
  list ← ask send tasks_from_slice
    (asana_request HttpGet (append_query (asana_page_query cursor) url) None);
  mret (mkPage (task_to_ticket (as_mapping s) <$> list.1) (mjoin list.2)).

Definition asana_get (uid : string) : M W SourceError ticket :=
  url ← lift (asana_url ["tasks"; uid]);
  task ← ask send task_from_slice
    (asana_request HttpGet (append_query [("opt_fields", OPT_FIELDS)] url) None);
  mret (task_to_ticket (as_mapping s) task).

Definition field_mapping (mapping : option StateMapping) : bool :=
  match mapping with
  | Some m => match signal m with Section_ | CustomField _ => true | _ => false end
  | None => false
  end.

Definition asana_set_state (uid : string) (target : StateCategory) : M W SourceError unit :=
  if negb (completes target) && field_mapping (as_mapping s) then
    throw (Unsupported "non-terminal set_state under a section/custom-field mapping (section/custom-field write-back not implemented)")
  else
    url ← lift (asana_url ["tasks"; uid]);
    tell send (asana_request HttpPut url
      (Some (json_object [("data", json_object [("completed", json_bool (completes target))])]))).

Definition asana_comment (uid text : string) : M W SourceError unit :=
  url ← lift (asana_url ["tasks"; uid; "stories"]);
  tell send (asana_request HttpPost url
    (Some (json_object [("data", json_object [("text", json_string text)])]))).

Definition asana_source : TicketSource W :=
  mkSource (mkCapabilities true false true true false false true)
    asana_fetch_changed asana_get asana_set_state asana_comment.
End source.
