(* ===== verification/GitHubSource.v ===== *)
(** * GitHubSource: tickets from GitHub

    Models [gonzalo-ticket-github]: the issues of a repository over the REST API
    ([mapping.rs], [source.rs]), followed from page to page by the [Link] header, and
    the issues on a project board over GraphQL ([project_mapping.rs],
    [project_source.rs]), whose cards a call moves. *)

From S2P Require Export TicketHttp.
From S2P Require Import Fleet.

(** ** Issues of a repository *)

Record GhUser := mkGhUser { gh_login : string }.
Record GhLabel := mkGhLabel { gh_label_name : string }.

Record GhIssue `{SerdeJson} := mkGhIssue {
  gh_number : N;
  gh_node_id : string;
  gh_title : string;
  gh_body : option string;
  gh_state : string;
  gh_state_reason : option string;
  gh_labels : list GhLabel;
  gh_assignees : list GhUser;
  gh_user : option GhUser;
  gh_html_url : string;
  gh_pull_request : option Value
}.
Arguments mkGhIssue {_}.

Class GitHubSerde `{SerdeJson} := {
  gh_issues_from_slice : bytes → result string (list GhIssue);
  gh_issue_from_slice : bytes → result string GhIssue
}.

Definition is_pull_request `{SerdeJson} (i : GhIssue) : bool := bool_decide (is_Some (gh_pull_request i)).

Definition normalize_state (state : string) (reason : option string) :
    StateCategory * option Resolution :=
  if decide (state = "open") then (Open, None)
  else if decide (state = "closed") then
    if decide (reason = Some "not_planned") then (Canceled, Some WontDo) else (Done, Some ResolvedDone)
  else (Open, None).

Definition login_actor (user : GhUser) (role : ActorRole) : Actor := mkActor role (gh_login user) None.

Definition gh_uid (owner_repo : string) (number : N) : string := owner_repo +:+ "#" +:+ dec number.

Definition gh_issue_to_ticket `{SerdeJson} `{!JsonValues} (owner_repo : string) (issue : GhIssue) : ticket :=
  let '(category, resolution) := normalize_state (gh_state issue) (gh_state_reason issue) in
  mkTicket GitHub (gh_uid owner_repo (gh_number issue)) ("#" +:+ dec (gh_number issue)) "issue"
    (gh_title issue)
    (mkState category resolution (gh_state issue) (Some (gh_node_id issue))) None
    (((λ a, login_actor a Assignee) <$> gh_assignees issue) ++
     match gh_user issue with Some u => [login_actor u Submitter] | None => [] end)
    (gh_label_name <$> gh_labels issue) [mkContainer "repo" owner_repo None true] []
    (Markdown_body (gh_body issue)) {["html_url" := json_string (gh_html_url issue)]}.

(** *** The [Link] header *)

Definition byte_char (b : Byte.byte) : Ascii.ascii := Ascii.ascii_of_byte b.

Definition trim_quotes (s : string) : string :=
  let q := [[Byte.x22]] in
  let b := strip_all (String.length s) q (bytes_of_string s) in
  string_of_bytes (reverse (strip_all (length b) q (reverse b))).

(** [split_whitespace]: the pieces between white space that are not empty. *)
Fixpoint words (fuel : nat) (word rest : bytes) : list string :=
  let flush := match word with [] => [] | _ => [string_of_bytes (reverse word)] end in
  match fuel with
  | 0 => flush
  | S fuel =>
      match strip_any whitespace rest, rest with
      | Some rest, _ => flush ++ words fuel [] rest
      | None, x :: rest => words fuel (x :: word) rest
      | None, [] => flush
      end
  end.

Definition split_whitespace (s : string) : list string :=
  words (S (String.length s)) [] (bytes_of_string s).

(** Whether a parameter of a link is [rel] with [next] among its relations. *)
Definition rel_next (param : string) : bool :=
  match strip_prefix_of "rel=" param with
  | Some rel => existsb (λ r, bool_decide (r = "next")) (split_whitespace (trim_quotes rel))
  | None => false
  end.

Definition next_of_part (part : string) : option string :=
  match trim <$> split_char (byte_char Byte.x3b) part with
  | [] => None
  | first :: params =>
      url ← strip_prefix_of "<" first ≫= str_strip_suffix ">";
      if existsb rel_next params then Some url else None
  end.

Definition parse_next_link (header : string) : option string :=
  head (omap next_of_part (split_char (byte_char Byte.x2c) header)).

(** *** The source *)

Definition API_ROOT : string := "https://api.github.com".
Definition ACCEPT : string := "application/vnd.github+json".

Record GitHubSource := mkGitHubSource {
  ghs_api_root : TicketUrl;
  ghs_owner : string;
  ghs_repo : string;
  ghs_owner_repo : string;
  ghs_token : option string
}.

(** [str::split_once]. *)
Fixpoint split_once (c : Ascii.ascii) (s : string) : option (string * string) :=
  match s with
  | "" => None
  | String a s' =>
      if decide (a = c) then Some ("", s')
      else match split_once c s' with Some (x, y) => Some (String a x, y) | None => None end
  end.

Definition GitHub_build `{TicketWire} (owner_repo : string) (token : option string) (api_root : string) :
    result SourceError GitHubSource :=
  parts ← ok_or (SourceBackend ("expected owner/repo, got " +:+ owner_repo))
    (split_once slash_char owner_repo);
  root ← map_err SourceBackend (parse_url api_root);
  Ok (mkGitHubSource root parts.1 parts.2 owner_repo token).
Definition GitHubSource_new `{TicketWire} (owner_repo : string) : result SourceError GitHubSource :=
  GitHub_build owner_repo None API_ROOT.
Definition GitHub_with_token `{TicketWire} (owner_repo token : string) : result SourceError GitHubSource :=
  GitHub_build owner_repo (Some token) API_ROOT.

Section source.
Context `{SerdeJson} `{!JsonValues} `{TicketWire} `{UrlCrate} `{!GitHubSerde} {W : Type}.
Context (send : TicketRequest → M W string TicketResponse) (s : GitHubSource).

Definition gh_issues_url (trailing : list string) : result SourceError TicketUrl :=
  extend_url "api root cannot be a base" (ghs_api_root s)
    (["repos"; ghs_owner s; ghs_repo s; "issues"] ++ trailing).

(** Every request also accepts [ACCEPT]. *)
Definition gh_request (method : HttpMethod) (url : TicketUrl) (body : option Value) : TicketRequest :=
  mkTicketRequest method url (match ghs_token s with Some t => BearerAuth t | None => NoAuth end) body.

Definition gh_first_query : list (string * string) :=
  [("state", "all"); ("per_page", "100"); ("sort", "updated"); ("direction", "asc")].

(** The first page's URL, or the one the last page carried forward. *)
Definition gh_cursor_url (cursor : Cursor) : result SourceError TicketUrl :=
  match cursor with
  | Some next => map_err SourceBackend (parse_url next)
  | None => url ← gh_issues_url []; Ok (append_query gh_first_query url)
  end.

Definition github_fetch_changed (cursor : Cursor) : M W SourceError Page :=
  url ← lift (gh_cursor_url cursor);
  resp ← exchange send (gh_request HttpGet url None);
  let next := ts_header resp "link" ≫= parse_next_link in
  issues ← json_of gh_issues_from_slice resp;
  mret (mkPage (gh_issue_to_ticket (ghs_owner_repo s) <$>
                  filter (λ i, is_pull_request i = false) issues) next).

Definition issue_number (uid : string) : result SourceError N := number_of_uid "issue number" uid.

Definition github_get (uid : string) : M W SourceError ticket :=
  n ← lift (issue_number uid);
  url ← lift (gh_issues_url [dec n]);
  issue ← ask send gh_issue_from_slice (gh_request HttpGet url None);
  mret (gh_issue_to_ticket (ghs_owner_repo s) issue).

Definition gh_target (target : StateCategory) : string * option string :=
  match target with
  | Done => ("closed", Some "completed")
  | Canceled => ("closed", Some "not_planned")
  | _ => ("open", None)
  end.

Definition gh_state_body (target : StateCategory) : Value :=
  let '(state, reason) := gh_target target in
  json_object (match reason with Some r => [("state_reason", json_string r)] | None => [] end ++
               [("state", json_string state)]).

Definition github_set_state (uid : string) (target : StateCategory) : M W SourceError unit :=
  n ← lift (issue_number uid);
  url ← lift (gh_issues_url [dec n]);
  tell send (gh_request HttpPatch url (Some (gh_state_body target))).

Definition github_comment (uid text : string) : M W SourceError unit :=
  n ← lift (issue_number uid);
  url ← lift (gh_issues_url [dec n; "comments"]);
  tell send (gh_request HttpPost url (Some (json_object [("body", json_string text)]))).

Definition github_source : TicketSource W :=
  mkSource push_comments github_fetch_changed github_get github_set_state github_comment.
End source.

(** ** The project board *)

Record GqlStatus := mkGqlStatus { gq_name : option string; gq_option_id : option string }.

Record GqlContent := mkGqlContent {
  gq_typename : string;
  gq_number : option N;
  gq_title : option string;
  gq_body : option string;
  gq_repository : option string;
  gq_labels : option (list GhLabel);
  gq_assignees : option (list GhUser);
  gq_author : option GhUser
}.

Record GqlItem := mkGqlItem { gq_status : option GqlStatus; gq_content : option GqlContent }.

Record GqlItems := mkGqlItems {
  gq_has_next_page : bool; gq_end_cursor : option string; gq_nodes : list GqlItem
}.

(** An answer: the items of the board, if there is data, and the errors' messages. *)
Record GqlResponse := mkGqlResponse { gq_data : option GqlItems; gq_errors : list string }.

Record LookupOption := mkLookupOption { lo_id : string; lo_name : string }.
Record LookupField := mkLookupField { lf_id : string; lf_options : list LookupOption }.
Record LookupItem := mkLookupItem {
  lki_id : string; lki_project_id : string; lki_project_number : N; lki_field : option LookupField
}.

(** [lk_items]: the items of [data.repository.issue], if all three are there. *)
Record ItemLookupResponse := mkItemLookup { lk_items : option (list LookupItem); lk_errors : list string }.

Record ItemCoords := mkItemCoords {
  co_item_id : string; co_project_id : string; co_field_id : string; co_option_id : string
}.

Class GqlSerde `{SerdeJson} := {
  board_from_slice : bytes → result string GqlResponse;
  value_from_slice : bytes → result string Value;
  lookup_from_value : Value → result string ItemLookupResponse
}.

Definition item_to_ticket `{SerdeJson} (mapping : StateMapping) (item : GqlItem) : option ticket :=
  content ← gq_content item;
  if decide (gq_typename content ≠ "Issue") then None
  else
    number ← gq_number content;
    repo ← gq_repository content;
    let raw_status := default "" (s ← gq_status item; gq_name s) in
    Some (mkTicket GitHub (gh_uid repo number) ("#" +:+ dec number) "issue"
      (default "" (gq_title content))
      (mkState (category_of mapping raw_status) None raw_status (s ← gq_status item; gq_option_id s)) None
      (((λ u, login_actor u Assignee) <$> default [] (gq_assignees content)) ++
       match gq_author content with Some u => [login_actor u Submitter] | None => [] end)
      (gh_label_name <$> default [] (gq_labels content)) [mkContainer "repo" repo None true] []
      (Markdown_body (gq_body content)) ∅).

Definition graphql_error (errors : list string) : SourceError :=
  SourceBackend ("github graphql: " +:+ String.concat "; " errors).

Definition items_or_error (parsed : GqlResponse) : result SourceError GqlItems :=
  match gq_errors parsed with
  | [] => ok_or (SourceBackend "github graphql: response had no data") (gq_data parsed)
  | errors => Err (graphql_error errors)
  end.

(** [{:?}] of a string, and of a category and the columns it is ambiguous in. *)
Class DebugTexts := {
  debug_string : string → string;
  debug_category : StateCategory → string;
  debug_strings : list string → string
}.

Definition resolve_item `{DebugTexts} (resp : ItemLookupResponse) (project_number : N) (column : string) :
    result SourceError ItemCoords :=
  match lk_errors resp with
  | [] =>
      nodes ← ok_or (SourceBackend "issue not found") (lk_items resp);
      item ← ok_or (SourceBackend ("issue is not on project #" +:+ pretty project_number))
        (Tickets.find (λ n, bool_decide (lki_project_number n = project_number)) nodes);
      field ← ok_or (SourceBackend "project has no Status single-select field") (lki_field item);
      opt ← ok_or (SourceBackend ("no Status option named " +:+ debug_string column +:+ " on project #" +:+
                     pretty project_number))
        (Tickets.find (λ o, eq_ignore_ascii_case (lo_name o) column) (lf_options field));
      Ok (mkItemCoords (lki_id item) (lki_project_id item) (lf_id field) (lo_id opt))
  | errors => Err (graphql_error errors)
  end.

Definition reverse_error `{DebugTexts} (e : ReverseError) : SourceError :=
  match e with
  | Unmapped _ => Unsupported "set_state: no column maps to target category"
  | Ambiguous c columns =>
      SourceBackend ("set_state: category " +:+ debug_category c +:+ " maps to multiple columns " +:+
        debug_strings columns +:+ "; configure set_targets")
  end.

Definition parse_board_uid (uid : string) : result SourceError (string * string * N) :=
  let expected := SourceBackend ("expected owner/repo#number, got " +:+ uid) in
  p ← ok_or expected (rsplit_once (byte_char Byte.x23) uid);
  r ← ok_or expected (split_once slash_char p.1);
  n ← ok_or (SourceBackend ("bad issue number in uid " +:+ uid)) (parse_usize p.2);
  Ok (r.1, r.2, n).

Record GitHubProjectSource := mkProjectSource {
  gps_endpoint : TicketUrl;
  gps_org : string;
  gps_project_number : N;
  gps_token : string;
  gps_mapping : StateMapping;
  gps_set_targets : gmap StateCategory string
}.

(** [GRAPHQL_URL] and the three queries, as sent. *)
Definition GRAPHQL_URL : string := "https://api.github.com/graphql".

Definition quoted (s : string) : string := String (byte_char Byte.x22) s +:+ String (byte_char Byte.x22) "".

Definition BOARD_QUERY : string :=
  "
query($org: String!, $number: Int!, $cursor: String) {
  organization(login: $org) {
    projectV2(number: $number) {
      items(first: 100, after: $cursor) {
        pageInfo { hasNextPage endCursor }
        nodes {
          fieldValueByName(name: " +:+ quoted "Status" +:+ ") {
            ... on ProjectV2ItemFieldSingleSelectValue { name optionId }
          }
          content {
            __typename
            ... on Issue {
              number title body
              repository { nameWithOwner }
              labels(first: 20) { nodes { name } }
              assignees(first: 10) { nodes { login } }
              author { login }
            }
          }
        }
      }
    }
  }
}".

Definition PROJECT_ITEM_QUERY : string :=
  "
query($owner: String!, $repo: String!, $number: Int!) {
  repository(owner: $owner, name: $repo) {
    issue(number: $number) {
      projectItems(first: 20) {
        nodes {
          id
          project {
            id
            number
            field(name: " +:+ quoted "Status" +:+ ") {
              ... on ProjectV2SingleSelectField { id options { id name } }
            }
          }
        }
      }
    }
  }
}".

Definition SET_OPTION_MUTATION : string :=
  "
mutation($project: ID!, $item: ID!, $field: ID!, $option: String!) {
  updateProjectV2ItemFieldValue(input: {
    projectId: $project, itemId: $item, fieldId: $field,
    value: { singleSelectOptionId: $option }
  }) { projectV2Item { id } }
}".

(** [endpoint] is [GRAPHQL_URL], parsed when a request is sent. *)
Definition GitHubProjectSource_new (endpoint : TicketUrl) (org : string) (number : N) (token : string)
    (mapping : StateMapping) : GitHubProjectSource :=
  mkProjectSource endpoint org number token mapping ∅.
Definition with_write_targets (targets : gmap StateCategory string) (s : GitHubProjectSource) :
    GitHubProjectSource :=
  mkProjectSource (gps_endpoint s) (gps_org s) (gps_project_number s) (gps_token s) (gps_mapping s) targets.

Section board.
Context `{SerdeJson} `{!JsonValues} `{TicketWire} `{DebugTexts} `{!GqlSerde} {W : Type}.
Context (send : TicketRequest → M W string TicketResponse) (s : GitHubProjectSource).

Definition graphql_body (query : string) (variables : list (string * Value)) : Value :=
  json_object [("query", json_string query); ("variables", json_object variables)].

Definition board_body (after : option string) : Value :=
  graphql_body BOARD_QUERY
    [("org", json_string (gps_org s)); ("number", json_number (gps_project_number s));
     ("cursor", match after with Some c => json_string c | None => Null end)].

Definition board_request (body : Value) : TicketRequest :=
  mkTicketRequest HttpPost (gps_endpoint s) (BearerAuth (gps_token s)) (Some body).

(** [fetch_all]'s loop, at most [fuel] pages; [None] is out of fuel. *)
Fixpoint fetch_pages (fuel : nat) (after : option string) (out : list ticket) :
    M W SourceError (option (list ticket)) :=
  match fuel with
  | 0 => mret None
  | S fuel =>
      parsed ← ask send board_from_slice (board_request (board_body after));
      items ← lift (items_or_error parsed);
      let out := out ++ omap (item_to_ticket (gps_mapping s)) (gq_nodes items) in
      if gq_has_next_page items then
        match gq_end_cursor items with
        | Some c => fetch_pages fuel (Some c) out
        | None => mret (Some out)
        end
      else mret (Some out)
  end.

Definition fetch_all (fuel : nat) : M W SourceError (option (list ticket)) := fetch_pages fuel None [].

(** Running out of fuel has no answer in the code; here it is an error. *)
Definition fetched (fuel : nat) : M W SourceError (list ticket) :=
  o ← fetch_all fuel; lift (ok_or (SourceBackend "out of fuel") o).

Definition board_fetch_changed (fuel : nat) (_ : Cursor) : M W SourceError Page :=
  ts ← fetched fuel; mret (mkPage ts None).

Definition board_get (fuel : nat) (uid : string) : M W SourceError ticket :=
  ts ← fetched fuel;
  lift (ok_or (SourceBackend ("ticket " +:+ uid +:+ " not found on board"))
    (Tickets.find (λ t, bool_decide (tk_uid t = uid)) ts)).

Definition project_item_body (owner repo : string) (number : N) : Value :=
  graphql_body PROJECT_ITEM_QUERY
    [("owner", json_string owner); ("repo", json_string repo); ("number", json_number number)].

Definition set_option_body (c : ItemCoords) : Value :=
  graphql_body SET_OPTION_MUTATION
    [("project", json_string (co_project_id c)); ("item", json_string (co_item_id c));
     ("field", json_string (co_field_id c)); ("option", json_string (co_option_id c))].

(** The errors in the answer to the mutation. *)
Definition mutation_result (resp : Value) : result SourceError unit :=
  match value_field "errors" resp ≫= value_as_array with
  | None | Some [] => Ok tt
  | Some errors =>
      let msg := String.concat "; "
        (omap (λ e, value_field "message" e ≫= value_as_str) errors) in
      Err (SourceBackend ("github graphql: " +:+
        if decide (msg = "") then pretty (N.of_nat (length errors)) +:+ " error(s) with no message" else msg))
  end.

Definition board_set_state (uid : string) (target : StateCategory) : M W SourceError unit :=
  column ← lift (map_err reverse_error (column_for (gps_mapping s) target (gps_set_targets s)));
  p ← lift (parse_board_uid uid);
  let '(owner, repo, number) := p in
  v ← ask send value_from_slice (board_request (project_item_body owner repo number));
  lookup ← lift (map_err SourceBackend (lookup_from_value v));
  coords ← lift (resolve_item lookup (gps_project_number s) column);
  resp ← ask send value_from_slice (board_request (set_option_body coords));
  lift (mutation_result resp).

Definition board_source (fuel : nat) : TicketSource W :=
  mkSource (mkCapabilities true false false false false false false)
    (board_fetch_changed fuel) (board_get fuel) board_set_state
    (λ _ _, throw (Unsupported "comment")).
End board.
