(* ===== verification/TicketConfig.v ===== *)
(** * TicketConfig: connections, and the commands that use them

    Models [gonzalo-ticket-config]'s [lib.rs], the registry that turns the connections
    of a configuration into ticket sources, and the ticket commands of [gonzalo-cli]'s
    [lib.rs].  The environment, the file and the TOML parser are arguments; building an
    HTTP client is taken to succeed. *)

From S2P Require Export GitHubSource.

Record Connection := mkConnection {
  cn_name : string;
  cn_provider : string;
  cn_org : string;
  cn_project : N;
  cn_token_env : string;
  cn_state_map : gmap string string;
  cn_set_targets : gmap string string
}.

Inductive ConfigError :=
  | ConfigRead (path error : string)
  | ConfigParse (error : string)
  | MissingEnv (conn var : string)
  | UnknownProvider (conn provider : string)
  | BadCategory (conn value : string).

Definition parse_category (s : string) : option StateCategory :=
  if decide (s = "triage") then Some Triage
  else if decide (s = "backlog") then Some Backlog
  else if decide (s = "open") then Some Open
  else if decide (s = "in_progress") then Some InProgress
  else if decide (s = "pending") then Some Pending
  else if decide (s = "done") then Some Done
  else if decide (s = "canceled") then Some Canceled
  else None.

Definition config_category (conn : Connection) (value : string) : result ConfigError StateCategory :=
  ok_or (BadCategory (cn_name conn) value) (parse_category value).

(** One entry of [state_map]. *)
Definition state_map_entry (conn : Connection) (acc : gmap string StateCategory * StateCategory)
    (kv : string * string) : result ConfigError (gmap string StateCategory * StateCategory) :=
  cat ← config_category conn kv.2;
  Ok (if decide (kv.1 = "default") then (acc.1, cat) else (<[kv.1 := cat]> acc.1, acc.2)).

Definition state_mapping (conn : Connection) : result ConfigError StateMapping :=
  r ← foldl (λ acc kv, acc ← acc; state_map_entry conn acc kv) (Ok (∅, Open))
    (btree_items (cn_state_map conn));
  Ok (mkStateMapping NativeStatus r.1 r.2).

Definition write_targets (conn : Connection) : result ConfigError (gmap StateCategory string) :=
  foldl (λ acc kv, acc ← acc; cat ← config_category conn kv.1; Ok (<[cat := kv.2]> acc)) (Ok ∅)
    (btree_items (cn_set_targets conn)).

Section config.
(** [std::env::var], [read_to_string] and [toml::from_str]. *)
Context (env : string → option string) (read_file : string → result string string)
  (config_from_toml : string → result string (list Connection)) (graphql : TicketUrl).

Definition parse_config (text : string) : result ConfigError (list Connection) :=
  map_err ConfigParse (config_from_toml text).

Definition load_config (path : string) : result ConfigError (list Connection) :=
  text ← map_err (ConfigRead path) (read_file path); parse_config text.

Definition build_source (conn : Connection) : result ConfigError GitHubProjectSource :=
  token ← ok_or (MissingEnv (cn_name conn) (cn_token_env conn)) (env (cn_token_env conn));
  if decide (cn_provider conn = "github-projects") then
    mapping ← state_mapping conn;
    targets ← write_targets conn;
    Ok (with_write_targets targets
          (GitHubProjectSource_new graphql (cn_org conn) (cn_project conn) token mapping))
  else Err (UnknownProvider (cn_name conn) (cn_provider conn)).

Fixpoint sources (connections : list Connection) :
    result ConfigError (list (string * GitHubProjectSource)) :=
  match connections with
  | [] => Ok []
  | c :: connections =>
      s ← build_source c; rest ← sources connections; Ok ((cn_name c, s) :: rest)
  end.

(** ** The commands *)

Inductive TicketError :=
  | ConfigFailure (e : ConfigError)
  | SyncFailure (connection : string) (e : IngestError)
  | MoveFailure (e : SourceError)
  | TicketBail (message : string).

Definition select_connection `{DebugTexts} (connections : list Connection) (name : option string) :
    result TicketError Connection :=
  match name with
  | Some n =>
      ok_or (TicketBail ("no connection named " +:+ debug_string n))
        (Tickets.find (λ c, bool_decide (cn_name c = n)) connections)
  | None =>
      match connections with
      | [one] => Ok one
      | [] => Err (TicketBail "no connections configured")
      | _ => Err (TicketBail "multiple connections configured; pass --connection <name>")
      end
  end.

Section commands.
Context `{Blake3} `{Lowercase} `{SerdeJson} `{!RecordCodec ticket} `{!JsonValues} `{TicketWire}
  `{DebugTexts} `{!GqlSerde} {W : Type}.
Context (send : TicketRequest → M W string TicketResponse) (store : Store W) (fuel : nat).

(** One connection; its record keys are scoped by its name. *)
Definition sync_connection (author : string) (reports : list (string * IngestSummary))
    (named : string * GitHubProjectSource) : M W TicketError (list (string * IngestSummary)) :=
  o ← convert (SyncFailure named.1) (ingest fuel (board_source send named.2 fuel) store author (Some named.1));
  summary ← lift (ok_or (TicketBail "out of fuel") o);
  mret (reports ++ [(named.1, summary)]).

Definition ticket_sync (config_path author : string) : M W TicketError (list (string * IngestSummary)) :=
  connections ← lift (map_err ConfigFailure (load_config config_path));
  named ← lift (map_err ConfigFailure (sources connections));
  foldM (sync_connection author) [] named.

Definition ticket_move (config_path : string) (connection : option string) (uid category : string) :
    M W TicketError unit :=
  cat ← lift (ok_or (TicketBail ("unknown state category " +:+ debug_string category))
    (parse_category category));
  connections ← lift (map_err ConfigFailure (load_config config_path));
  conn ← lift (select_connection connections connection);
  s ← lift (map_err ConfigFailure (build_source conn));
  convert MoveFailure (board_set_state send s uid cat).
End commands.
End config.
