(* ===== verification/ConnectorSpec.v ===== *)
(** * ConnectorSpec: what the connectors promise the ticket layer

    The text they exchange, links and uids, reads back; an ingest over GitHub's pages
    mirrors every issue and no pull request; what a state written to Jira, GitLab,
    Asana or a project board reads back as.  The theorems are tried on a provider in
    miniature: a JSON with numbers and arrays, a URL crate that only appends, and a wire
    that takes a URL for its text. *)

From S2P Require Export TrackerSources GitHubSource.
From S2P Require Import Fleet SampleStores FsLayout Numerals TicketHttp.

(** ** Text that is exchanged *)

(** ** Trimming *)

(** No member of [ws] begins with [x]. *)
Definition opaque_to (ws : list bytes) (x : Byte.byte) : bool :=
  forallb (λ w, match w with y :: _ => negb (bool_decide (y = x)) | [] => false end) ws.

Lemma strip_any_opaque ws x s : opaque_to ws x = true → strip_any ws (x :: s) = None.
Proof.
  intros Hx. unfold strip_any. destruct (list_find _ ws) as [[i w]|] eqn:Hf; [|done].
  apply list_find_Some in Hf as (Hw & Ht & _). apply list_elem_of_lookup_2 in Hw.
  unfold opaque_to in Hx. rewrite forallb_forall in Hx.
  specialize (Hx w (proj1 (list_elem_of_In _ _) Hw)). destruct w as [|y w]; [done|].
  apply negb_true_iff, bool_decide_eq_false in Hx. cbn in Ht. by injection Ht as -> _.
Qed.

Lemma strip_all_opaque fuel ws x s : opaque_to ws x = true → strip_all fuel ws (x :: s) = x :: s.
Proof. intros Hx. destruct fuel; [done|]. cbn. by rewrite strip_any_opaque. Qed.

(** Trimming only takes blanks in front of text that begins and ends with neither. *)
Lemma trim_enclosed (pre : string) x (mid : bytes) y :
  pre ∈ [""; " "] → opaque_to whitespace x = true → opaque_to (reverse <$> whitespace) y = true →
  trim (pre +:+ string_of_bytes (x :: mid ++ [y])) = string_of_bytes (x :: mid ++ [y]).
Proof.
  intros Hpre Hx Hy. unfold trim, trim_bytes.
  assert (strip_all (length (bytes_of_string (pre +:+ string_of_bytes (x :: mid ++ [y])))) whitespace
    (bytes_of_string (pre +:+ string_of_bytes (x :: mid ++ [y]))) = x :: mid ++ [y]) as ->.
  { rewrite bytes_of_string_app, bytes_of_string_of_bytes.
    apply elem_of_cons in Hpre as [->|Hpre]; [by apply strip_all_opaque|].
    apply list_elem_of_singleton in Hpre as ->.
    change (bytes_of_string " ") with [Byte.x20]. cbn [app length strip_all].
    replace (strip_any whitespace (Byte.x20 :: x :: mid ++ [y])) with (Some (x :: mid ++ [y]))
      by reflexivity.
    by rewrite strip_any_opaque. }
  rewrite reverse_cons, reverse_snoc. cbn [app]. rewrite strip_all_opaque by done.
  cbn [reverse]. f_equal. change (y :: reverse mid ++ [x]) with ([y] ++ reverse mid ++ [x]).
  by rewrite !reverse_app, reverse_involutive.
Qed.

(** ** Separators *)

Lemma split_single_app c s t : split_char c s = [s] → split_char c t = [t] →
  split_char c (s +:+ t) = [s +:+ t].
Proof.
  intros Hs Ht. induction s as [|a s IH]; [done|].
  change (String a s +:+ t) with (String a (s +:+ t)). cbn [split_char] in *. case_decide; [done|].
  destruct (split_char c s) as [|x l] eqn:Hx; [by apply split_char_not_nil in Hx|].
  injection Hs as -> ->. by rewrite IH.
Qed.

Lemma starts_with_app p s : starts_with p (p +:+ s) = true.
Proof.
  unfold starts_with. induction p as [|a p IH]; [by destruct s|].
  change (String a p +:+ s) with (String a (p +:+ s)). cbn. by destruct (Ascii.ascii_dec a a).
Qed.

Lemma substring_all s : String.substring 0 (String.length s) s = s.
Proof. induction s as [|a s IH]; [done|]. cbn. by rewrite IH. Qed.

Lemma without_prefix_app p s : without_prefix p (p +:+ s) = s.
Proof.
  unfold without_prefix. rewrite string_length_app, Nat.add_comm, Nat.add_sub.
  induction p as [|a p IH]; [apply substring_all|exact IH].
Qed.

Lemma strip_prefix_of_app p s : strip_prefix_of p (p +:+ s) = Some s.
Proof. unfold strip_prefix_of. by rewrite starts_with_app, without_prefix_app. Qed.

(** ** The [Link] header *)

(** A link, and a header of links, as GitHub writes them. *)
Definition link_entry (link : string * string) : string :=
  "<" +:+ link.1 +:+ ">; rel=" +:+ quoted link.2.

Definition link_header (links : list (string * string)) : string :=
  String.concat ", " (link_entry <$> links).

(** A URL in a header has neither separator; GitHub's relations are four. *)
Definition link_ok (link : string * string) : Prop :=
  split_char (byte_char Byte.x2c) link.1 = [link.1] ∧
  split_char (byte_char Byte.x3b) link.1 = [link.1] ∧
  link.2 ∈ ["next"; "prev"; "first"; "last"].

Lemma next_of_entry pre link : pre ∈ [""; " "] → link_ok link →
  next_of_part (pre +:+ link_entry link) = if decide (link.2 = "next") then Some link.1 else None.
Proof.
  destruct link as [u rel]. intros Hpre (_ & Hu & Hrel). cbn [fst snd] in *.
  unfold next_of_part, link_entry. cbn [fst snd].
  assert (trim (pre +:+ "<" +:+ u +:+ ">") = "<" +:+ u +:+ ">") as Htrim.
  { pose proof (trim_enclosed pre Byte.x3c (bytes_of_string u) Byte.x3e Hpre eq_refl eq_refl) as Ht.
    assert (string_of_bytes (Byte.x3c :: bytes_of_string u ++ [Byte.x3e]) = "<" +:+ u +:+ ">") as Hs.
    { rewrite <-(string_of_bytes_of_string ("<" +:+ u +:+ ">")), !bytes_of_string_app. done. }
    by rewrite Hs in Ht. }
  assert (split_char (byte_char Byte.x3b) (pre +:+ "<" +:+ u +:+ ">") = [pre +:+ "<" +:+ u +:+ ">"]) as Hsplit.
  { apply split_single_app; [by repeat (apply elem_of_cons in Hpre as [->|Hpre]; [done|]);
      apply elem_of_nil in Hpre|]. by apply split_single_app, split_single_app. }
  replace (pre +:+ "<" +:+ u +:+ ">; rel=" +:+ quoted rel) with
    ((pre +:+ "<" +:+ u +:+ ">") +:+ String (byte_char Byte.x3b) (" rel=" +:+ quoted rel))
    by by rewrite !string_app_assoc.
  rewrite split_char_app, Hsplit. cbn [app fmap list_fmap]. rewrite Htrim.
  rewrite strip_prefix_of_app. cbn [mbind option_bind]. rewrite str_strip_suffix_app.
  repeat (apply elem_of_cons in Hrel as [->|Hrel]; [by vm_compute|]). by apply elem_of_nil in Hrel.
Qed.

Lemma entry_no_comma pre link : pre ∈ [""; " "] → link_ok link →
  split_char (byte_char Byte.x2c) (pre +:+ link_entry link) = [pre +:+ link_entry link].
Proof.
  intros Hpre (Hu & _ & Hrel). apply split_single_app.
  { by repeat (apply elem_of_cons in Hpre as [->|Hpre]; [done|]); apply elem_of_nil in Hpre. }
  unfold link_entry. do 3 (apply split_single_app; [done|]).
  by repeat (apply elem_of_cons in Hrel as [->|Hrel]; [done|]); apply elem_of_nil in Hrel.
Qed.

(** The first link whose relation is [next]. *)
Definition next_link (links : list (string * string)) : option string :=
  fst <$> Tickets.find (λ l, bool_decide (l.2 = "next")) links.

Lemma next_link_cons link links : next_link (link :: links) =
  if decide (link.2 = "next") then Some link.1 else next_link links.
Proof.
  unfold next_link, Tickets.find. rewrite filter_cons.
  destruct (decide (link.2 = "next")) as [Hl|Hl]; case_decide as Hc; try done.
  - by rewrite bool_decide_eq_true in Hc.
  - by apply bool_decide_eq_true in Hc.
Qed.

Lemma head_omap_cons {A B} (f : A → option B) x l :
  head (omap f (x :: l)) = match f x with Some y => Some y | None => head (omap f l) end.
Proof. cbn. by destruct (f x). Qed.

(** The next page is found wherever its link stands among the others. *)
Lemma parse_next_link_header links : Forall link_ok links →
  parse_next_link (link_header links) = next_link links.
Proof.
  unfold parse_next_link, link_header.
  assert (∀ pre, pre ∈ [""; " "] → Forall link_ok links →
    head (omap next_of_part (split_char (byte_char Byte.x2c) (pre +:+ String.concat ", " (link_entry <$> links)))) =
    next_link links) as Hgen; [|intros Hok; apply (Hgen ""); [by left|done]].
  induction links as [|link links IH]; intros pre Hpre Hok.
  { by repeat (apply elem_of_cons in Hpre as [->|Hpre]; [by vm_compute|]); apply elem_of_nil in Hpre. }
  apply Forall_cons in Hok as [Hl Hok]. rewrite next_link_cons.
  destruct links as [|link' links].
  - cbn [fmap list_fmap String.concat]. rewrite entry_no_comma by done.
    rewrite head_omap_cons, next_of_entry by done. by case_decide.
  - replace (pre +:+ String.concat ", " (link_entry <$> link :: link' :: links)) with
      ((pre +:+ link_entry link) +:+ String (byte_char Byte.x2c)
         (" " +:+ String.concat ", " (link_entry <$> link' :: links)))
      by (cbn [fmap list_fmap String.concat]; by rewrite !string_app_assoc).
    rewrite split_char_app, entry_no_comma by done. cbn [app].
    rewrite head_omap_cons, next_of_entry by done. case_decide; [done|].
    apply IH; [by right; left|done].
Qed.

(** ** Uids *)

Lemma issue_number_uid owner_repo n : (n ≤ u64_max)%N → issue_number (gh_uid owner_repo n) = Ok n.
Proof.
  intros Hn. unfold issue_number, number_of_uid, gh_uid.
  change ("#" +:+ dec n) with (String (Ascii.ascii_of_byte Byte.x23) (dec n)).
  rewrite rsplit_once_last by by apply dec_without. by rewrite parse_usize_dec.
Qed.

Lemma parse_board_uid_uid owner repo n : split_once slash_char owner = None → (n ≤ u64_max)%N →
  parse_board_uid (gh_uid (owner +:+ "/" +:+ repo) n) = Ok (owner, repo, n).
Proof.
  intros Ho Hn. unfold parse_board_uid, gh_uid.
  change ("#" +:+ dec n) with (String (Ascii.ascii_of_byte Byte.x23) (dec n)).
  unfold byte_char. rewrite rsplit_once_last by by apply dec_without. cbn [ok_or mbind result_bind fst snd].
  assert (split_once slash_char (owner +:+ "/" +:+ repo) = Some (owner, repo)) as ->.
  { induction owner as [|a o IH]; [done|].
    change (String a o +:+ "/" +:+ repo) with (String a (o +:+ "/" +:+ repo)).
    cbn [split_once] in *. case_decide; [done|].
    destruct (split_once slash_char o) as [[]|]; [done|]. by rewrite IH. }
  cbn [ok_or mbind result_bind fst snd]. by rewrite parse_usize_dec.
Qed.

(** ** A provider in miniature *)

Unset Elimination Schemes.
Inductive wire_json :=
  | WNull | WBool (b : bool) | WNum (n : N) | WStr (s : string)
  | WArr (l : list wire_json) | WObj (m : gmap string wire_json).
Set Elimination Schemes.

Fixpoint wire_size (v : wire_json) : nat :=
  match v with
  | WArr l => S (foldr (λ x n, wire_size x + n) 0 l)
  | WObj m => S (map_fold (λ _ x n, wire_size x + n) 0 m)
  | _ => 1
  end.

Fixpoint wire_eq_dec (v1 v2 : wire_json) {struct v1} : Decision (v1 = v2).
Proof.
  refine (match v1, v2 with
  | WNull, WNull => left eq_refl
  | WBool b1, WBool b2 => cast_if (decide (b1 = b2))
  | WNum n1, WNum n2 => cast_if (decide (n1 = n2))
  | WStr s1, WStr s2 => cast_if (decide (s1 = s2))
  | WArr l1, WArr l2 => cast_if (@decide (l1 = l2) (@list_eq_dec _ (λ x y, wire_eq_dec x y) l1 l2))
  | WObj m1, WObj m2 =>
      cast_if (@decide (m1 = m2) (@gmap_eq_dec _ _ _ _ (λ x y, wire_eq_dec x y) m1 m2))
  | _, _ => right _
  end); clear wire_eq_dec; abstract congruence.
Defined.

#[export] Instance wire_eq_decision : EqDecision wire_json := wire_eq_dec.

Definition wire_fields (v : wire_json) : option (gmap string wire_json) :=
  match v with WObj m => Some m | _ => None end.
Definition wire_items (v : wire_json) : option (list wire_json) :=
  match v with WArr l => Some l | _ => None end.

Lemma wire_size_field v m k x : wire_fields v = Some m → m !! k = Some x → wire_size x < wire_size v.
Proof.
  destruct v; try done. intros [= ->] Hk. simpl.
  rewrite (map_fold_delete_L (λ _ x n, wire_size x + n) 0 k x m); [lia| |done]. intros; lia.
Qed.

Lemma wire_size_item v l x : wire_items v = Some l → x ∈ l → wire_size x < wire_size v.
Proof.
  destruct v as [| | | |l'|]; try done. intros [= ->]. simpl. induction 1; simpl; lia.
Qed.

#[local] Instance wire_serde : SerdeJson.
Proof.
  refine {| Value := wire_json; Null := WNull; Object := WObj; as_object := wire_fields;
            from_slice _ := None; to_vec _ := None; value_size := wire_size |}; try done.
  exact wire_size_field.
Defined.

#[local] Instance wire_values : JsonValues.
Proof.
  refine {| json_string := WStr; json_number := WNum; json_bool := WBool; json_array := WArr;
            value_as_str v := match v with WStr s => Some s | _ => None end;
            value_as_array := wire_items; value_display _ := "" |}; try done.
  exact wire_size_item.
Defined.

(** A URL is its text; the body of a response is its text. *)
#[local] Instance wire_urls : TicketWire := {
  parse_url s := Ok (mkTicketUrl s (Some []) []);
  body_as_text := string_of_bytes
}.

#[local] Instance wire_crate : UrlCrate.
Proof. by refine {| extend_segments base segs := base ++ kept_segments segs |}. Defined.

(** ** Requests that are answered *)

Section served.
Context `{SerdeJson} `{TicketWire} {W : Type} (send : TicketRequest → M W string TicketResponse).

(** The request is answered with success and a body that reads as [a]. *)
Definition serves {A} (decode : bytes → result string A) (r : TicketRequest) (a : A) (w w' : W) : Prop :=
  ∃ resp b, send r w = (Ok resp, w') ∧ is_success (ts_status resp) = true ∧
    ts_body resp = Ok b ∧ decode b = Ok a.

Definition accepts (r : TicketRequest) (w w' : W) : Prop :=
  ∃ resp, send r w = (Ok resp, w') ∧ is_success (ts_status resp) = true.

Lemma exchange_ok r w resp w' : send r w = (Ok resp, w') → is_success (ts_status resp) = true →
  exchange send r w = (Ok resp, w').
Proof.
  intros Hs Hok. unfold exchange, convert, mbind, M_bind, lift, check_status. rewrite Hs. cbn.
  by rewrite Hok.
Qed.

Lemma ask_ok {A} (decode : bytes → result string A) r a w w' :
  serves decode r a w w' → ask send decode r w = (Ok a, w').
Proof.
  intros (resp & b & Hs & Hok & Hb & Hd). unfold ask.
  rewrite (bind_ok _ _ _ _ _ (exchange_ok _ _ _ _ Hs Hok)). unfold json_of, lift. rewrite Hb. cbn.
  by rewrite Hd.
Qed.

Lemma tell_ok r w w' : accepts r w w' → tell send r w = (Ok tt, w').
Proof.
  intros (resp & Hs & Hok). unfold tell.
  by rewrite (bind_ok _ _ _ _ _ (exchange_ok _ _ _ _ Hs Hok)).
Qed.
End served.

(** ** GitHub *)

Section github.
Context `{Blake3} `{Lowercase} `{SerdeJson} `{!RecordCodec ticket} `{!JsonValues} `{TicketWire}
  `{UrlCrate} `{!GitHubSerde} {W F : Type}.
Context (store : Store W) (contents : W → records) (cap : nat) (frame : W → F).
Context `{!StoreLaws store contents cap frame}.
Context (s : GitHubSource) (author : string) (scope : option string).
(** GitHub's answers, and the URL it gives page [i] in its [Link] headers. *)
Context (respond : TicketRequest → result string TicketResponse) (next_url : nat → string).

Definition over_http {W'} : TicketRequest → M W' string TicketResponse := λ r w, (respond r, w).

Definition cursor_of (i : nat) : Cursor := match i with 0 => None | S _ => Some (next_url i) end.

(** The tickets of a page. *)
Definition page_issues (page : list GhIssue) : list ticket :=
  gh_issue_to_ticket (ghs_owner_repo s) <$> filter (λ i, is_pull_request i = false) page.

(** GitHub answers with [pages], each but the last linking to the next. *)
Definition github_serves (pages : list (list GhIssue)) : Prop :=
  (∀ i, S (S i) < length pages → next_url (S i) ≠ next_url (S (S i))) ∧
  ∀ i page, pages !! i = Some page → ∃ url resp b links,
    gh_cursor_url s (cursor_of i) = Ok url ∧ respond (gh_request s HttpGet url None) = Ok resp ∧
    is_success (ts_status resp) = true ∧ ts_body resp = Ok b ∧ gh_issues_from_slice b = Ok page ∧
    ts_header resp "link" = link_header <$> links ∧ from_option (Forall link_ok) True links ∧
    links ≫= next_link = if decide (S i < length pages) then Some (next_url (S i)) else None.

Definition fetched_page (c : Cursor) : result SourceError Tickets.Page :=
  (github_fetch_changed (W:=unit) over_http s c tt).1.

Lemma github_lists : lists (github_source (W:=W) over_http s) fetched_page.
Proof.
  intros c w. cbn [fetch_changed github_source]. unfold fetched_page, github_fetch_changed, exchange, json_of,
    convert, over_http, mbind, M_bind, lift.
  destruct (gh_cursor_url s c); [|done]. destruct (respond _); [|done]. cbn.
  destruct (check_status _); [|done]. cbn. by repeat case_match.
Qed.

Lemma fetched_page_at pages i page : github_serves pages → pages !! i = Some page →
  fetched_page (cursor_of i) = Ok (Tickets.mkPage (page_issues page)
    (if decide (S i < length pages) then Some (next_url (S i)) else None)).
Proof.
  intros [_ Hserves] Hi. destruct (Hserves i page Hi)
    as (url & resp & b & links & Hurl & Hresp & Hok & Hb & Hpage & Hlink & Hlinks & Hnext).
  unfold fetched_page, github_fetch_changed. rewrite Hurl.
  unfold mbind at 1, M_bind at 1, lift at 1.
  rewrite (bind_ok _ _ _ _ _ (exchange_ok over_http _ tt resp tt ltac:(unfold over_http; by rewrite Hresp) Hok)).
  unfold json_of, lift, mbind, M_bind. rewrite Hb. cbn. rewrite Hpage. cbn. f_equal. f_equal.
  rewrite Hlink. etrans; [|exact Hnext]. destruct links as [links|]; [|done]. cbn.
  by rewrite parse_next_link_header.
Qed.

Lemma tickets_from_pages pages n i : github_serves pages → i < length pages → length pages - i ≤ n →
  tickets_from fetched_page n (cursor_of i) = Some (concat (page_issues <$> drop i pages)).
Proof.
  intros Hserves. revert i. induction n as [|n IH]; intros i Hi Hn; [lia|].
  destruct (lookup_lt_is_Some_2 pages i Hi) as [page Hpage]. cbn [tickets_from].
  rewrite (fetched_page_at pages i page) by done. rewrite (drop_S _ _ _ Hpage). cbn [fmap list_fmap concat].
  cbn [Tickets.page_next Tickets.page_tickets]. case_decide as Hlast.
  - rewrite bool_decide_eq_false_2 by done. rewrite bool_decide_eq_false_2.
    + cbn [orb]. change (Some (next_url (S i))) with (cursor_of (S i)). by rewrite IH by lia.
    + destruct Hserves as [Hne _]. destruct i as [|i]; [done|]. intros [= Heq]. by apply (Hne i); [lia|].
  - rewrite bool_decide_eq_true_2 by done. cbn [orb].
    by rewrite (drop_ge pages (S i)) by lia; rewrite app_nil_r.
Qed.

Lemma record_keys_NoDup issues : NoDup (gh_number <$> issues) → Forall (λ i, (gh_number i ≤ u64_max)%N) issues →
  NoDup ((λ t, record_key t scope) <$> (gh_issue_to_ticket (ghs_owner_repo s) <$> issues)).
Proof.
  intros Hnd Hmax. rewrite <-list_fmap_compose. induction issues as [|i issues IH]; [constructor|].
  cbn [fmap list_fmap] in *. apply NoDup_cons in Hnd as [Hi Hnd]. apply Forall_cons in Hmax as [Hmi Hmax].
  constructor; [|by apply IH]. intros (j & Hj & Hin)%list_elem_of_fmap. apply Hi.
  apply list_elem_of_fmap. exists j. split; [|done].
  assert ((gh_number j ≤ u64_max)%N) as Hmj by (by rewrite Forall_forall in Hmax; apply Hmax).
  cbn in Hj. unfold record_key, gh_issue_to_ticket in Hj.
  destruct (normalize_state (gh_state i) _), (normalize_state (gh_state j) _). cbn in Hj.
  injection Hj as Hj. assert (gh_uid (ghs_owner_repo s) (gh_number i) = gh_uid (ghs_owner_repo s) (gh_number j)) as Hu.
  { unfold scoped_uid in Hj. destruct scope; [|done]. apply (f_equal bytes_of_string) in Hj.
    rewrite !bytes_of_string_app in Hj. do 2 apply app_inv_head in Hj. by apply bytes_of_string_inj. }
  apply (f_equal issue_number) in Hu. rewrite !issue_number_uid in Hu by done. by injection Hu.
Qed.
(** C32: an ingest over GitHub's REST API mirrors the repository.  However the issues are
    cut into pages, and wherever the link to the next page stands in the [Link] header,
    every issue that is not a pull request is read once and stored under its own key as
    what it says now; pull requests are not stored, every other record is as it was, and
    the summary counts one outcome for each issue. *)
Theorem github_ingest_mirrors_issues pages fuel w : pages ≠ [] → github_serves pages → length pages ≤ fuel →
  let issues := concat ((λ page, filter (λ i, is_pull_request i = false) page) <$> pages) in
  let ts := gh_issue_to_ticket (ghs_owner_repo s) <$> issues in
  keyed (contents w) → NoDup (gh_number <$> issues) → Forall (λ i, (gh_number i ≤ u64_max)%N) issues →
  Forall (λ t, acceptable scope (contents w) t ∧ serializes t) ts →
  ∃ w', ingest fuel (github_source over_http s) store author scope w =
      (Ok (Some (summary_of scope (contents w) ts)), w') ∧
    keyed (contents w') ∧ Forall (mirrored scope (contents w) (contents w')) ts ∧
    ∀ k, (key_namespace k ≠ "tickets" ∨ k ∉ (λ t, record_key t scope) <$> ts) →
      contents w' !! k = contents w !! k.
Proof.
  intros Hne Hserves Hfuel issues ts Hkeyed Hnd Hmax Hok.
  assert (concat (page_issues <$> pages) = ts) as Hts.
  { unfold ts, issues, page_issues. clear. by induction pages as [|p ps IH]; [|cbn; rewrite fmap_app, <-IH]. }
  destruct (ingest_mirrors_source store contents cap frame (github_source over_http s) fetched_page
    author scope (length pages) fuel ts w) as (w' & Hrun & _ & Hk & Hm & Ho); [| |done..| |done|by eauto 6].
  - exact github_lists.
  - rewrite <-Hts. change None with (cursor_of 0). change pages with (drop 0 pages) at 2.
    apply tickets_from_pages; [done| |lia]. destruct pages; [done|cbn; lia].
  - by apply record_keys_NoDup.
Qed.
End github.

Section github_witness.
#[local] Existing Instance sample_hash.
#[local] Existing Instance wire_serde.
#[local] Existing Instance wire_values.
#[local] Existing Instance wire_urls.
#[local] Existing Instance wire_crate.
#[local] Instance lowercase_wire : Lowercase := id.
#[local] Instance title_codec : RecordCodec ticket := {
  codec_to_vec t := Ok (bytes_of_string (tk_title t));
  codec_from_slice _ := Err "not used"
}.

Definition two_issue (n : N) (title : string) (pr : option wire_json) : GhIssue :=
  mkGhIssue n "node" title None "closed" (Some "not_planned") [] [] None "" pr.

Definition two_pages : list (list GhIssue) :=
  [[two_issue 1 "one" None; two_issue 2 "pull" (Some WNull)]; [two_issue 3 "three" None]].

#[local] Instance two_serde : GitHubSerde := {
  gh_issues_from_slice b := ok_or "no page" (two_pages !! length b);
  gh_issue_from_slice _ := Err "not used"
}.

Definition two_github : GitHubSource := mkGitHubSource (mkTicketUrl "api" (Some []) []) "o" "r" "o/r" None.

(** The first page links to the second, after a link to the last; a page's body is as
    long as its number. *)
Definition two_respond (r : TicketRequest) : result string TicketResponse :=
  if decide (tu_origin (tq_url r) = "p2") then Ok (mkTicketResponse 200 (λ _, None) (Ok [Byte.x00]))
  else Ok (mkTicketResponse 200
    (λ h, if decide (h = "link") then Some (link_header [("p9", "last"); ("p2", "next")]) else None) (Ok [])).

Lemma two_serves : github_serves two_github two_respond (λ _, "p2") two_pages.
Proof.
  split; [intros i Hi; cbn in Hi; lia|]. intros [|[|i]] page; [| |done]; intros [= <-].
  - eexists _, _, _, (Some [("p9", "last"); ("p2", "next")]). split_and!; try reflexivity.
    apply (bool_decide_unpack _). vm_compute. exact I.
  - by eexists _, _, _, None.
Qed.

Lemma github_ingest_mirrors_issues_witness :
  ∃ w', ingest 2 (github_source (over_http two_respond) two_github) sample_store "sync" None ∅
      = (Ok (Some (mkSummary 2 0 0)), w') ∧
    Forall (mirrored None ∅ w') (gh_issue_to_ticket "o/r" <$> [two_issue 1 "one" None; two_issue 3 "three" None]).
Proof.
  destruct (github_ingest_mirrors_issues sample_store id 3 (λ _, tt) two_github "sync" None two_respond
    (λ _, "p2") two_pages 2 ∅) as (w' & Hrun & _ & Hm & _).
  - discriminate.
  - exact two_serves.
  - cbn. lia.
  - by intros ??.
  - apply (bool_decide_unpack _). vm_compute. exact I.
  - apply (bool_decide_unpack _). vm_compute. exact I.
  - repeat constructor; intros ??; discriminate.
  - exists w'. split; [exact Hrun|exact Hm].
Defined.
End github_witness.

(** ** Jira *)

Section jira.
Context `{SerdeJson} `{!JsonValues} `{TicketWire} `{UrlCrate} `{!JiraSerde} {W : Type}.
Context (send : TicketRequest → M W string TicketResponse) (s : JiraSource).

(** The category a written category reads back as: Jira has three. *)
Definition jira_coarse (target : StateCategory) : StateCategory :=
  match target with
  | InProgress | Pending => InProgress
  | Done | Canceled => Done
  | _ => Open
  end.

Lemma choose_transition_spec ts target :
  match choose_transition ts target with
  | None => ∀ t, t ∈ ts → tr_category_key t ≠ target_status_category target
  | Some t => t ∈ ts ∧ tr_category_key t = target_status_category target ∧
      (target = Canceled → is_cancel_intent (tr_name t) = true ∨
        ∀ t', t' ∈ ts → tr_category_key t' = "done" → is_cancel_intent (tr_name t') = false) ∧
      (target = Done → is_cancel_intent (tr_name t) = false ∨
        ∀ t', t' ∈ ts → tr_category_key t' = "done" → is_cancel_intent (tr_name t') = true)
  end.
Proof.
  unfold choose_transition.
  set (candidates := filter (λ t, tr_category_key t = target_status_category target) ts).
  assert (∀ t, t ∈ candidates ↔ tr_category_key t = target_status_category target ∧ t ∈ ts) as Hc
    by (intros t; unfold candidates; by rewrite list_elem_of_filter).
  destruct candidates as [|first rest] eqn:Hcand; cbn [head mbind option_bind].
  { intros t Ht Hk. specialize (Hc t) as [_ Hc]. by apply not_elem_of_nil in Hc. }
  rewrite <-Hcand in *. assert (first ∈ candidates) as Hfirst by (rewrite Hcand; left).
  pose proof (find_spec (λ t, is_cancel_intent (tr_name t)) candidates) as Hcancel.
  pose proof (find_spec (λ t, negb (is_cancel_intent (tr_name t))) candidates) as Hkeep.
  destruct target; cbn [default target_status_category] in *; try (apply Hc in Hfirst as []; by split_and!).
  - clear Hcancel. destruct (Tickets.find _ candidates) as [t|]; cbn [default].
    + destruct Hkeep as [[? ?]%Hc ?%negb_true_iff]. split_and!; try done. by left.
    + apply Hc in Hfirst as [??]. split_and!; try done. right. intros t' Ht' Hk.
      apply negb_false_iff, Hkeep, Hc. done.
  - clear Hkeep. destruct (Tickets.find _ candidates) as [t|]; cbn [default].
    + destruct Hcancel as [[? ?]%Hc ?]. split_and!; try done. by left.
    + apply Hc in Hfirst as [??]. split_and!; try done. right. intros t' Ht' Hk.
      apply Hcancel, Hc. done.
Qed.

(** A state written to Jira is the one asked for, up to Jira's three categories.  Of
    the transitions Jira offers, the one taken leads into the target's status category;
    for a cancellation it is one named like a cancellation if there is any, and for
    [Done] one that is not.  When none leads there, the error names the category and
    nothing is posted.  Without a mapping, an issue in the status the transition leads to
    reads back as [Open], [InProgress] or [Done]: a cancellation reads back as done. *)
Theorem jira_set_state_takes_the_transition uid target url available w w1 :
  jira_url s ["rest"; "api"; "3"; "issue"; uid; "transitions"] = Ok url →
  serves send transitions_from_slice (jira_request s HttpGet url None) available w w1 →
  match choose_transition available target with
  | Some t => t ∈ available ∧ tr_category_key t = target_status_category target ∧
      (target = Canceled → is_cancel_intent (tr_name t) = true ∨
        ∀ t', t' ∈ available → tr_category_key t' = "done" → is_cancel_intent (tr_name t') = false) ∧
      (target = Done → is_cancel_intent (tr_name t) = false ∨
        ∀ t', t' ∈ available → tr_category_key t' = "done" → is_cancel_intent (tr_name t') = true) ∧
      (∀ w2, accepts send (jira_request s HttpPost url (Some (jira_transition_body t))) w1 w2 →
        jira_set_state send s uid target w = (Ok tt, w2)) ∧
      (∀ issue, js_category_key (jf_status (ji_fields issue)) = tr_category_key t →
        state_category (tk_state (jira_issue_to_ticket None issue)) = jira_coarse target)
  | None => (∀ t, t ∈ available → tr_category_key t ≠ target_status_category target) ∧
      jira_set_state send s uid target w =
        (Err (SourceBackend ("no available transition into statusCategory '" +:+
           target_status_category target +:+ "' for " +:+ uid)), w1)
  end.
Proof.
  intros Hurl Hserves. pose proof (choose_transition_spec available target) as Hspec.
  assert (∀ t : option Transition, choose_transition available target = t →
    jira_set_state send s uid target w =
    (t ← lift (ok_or (SourceBackend ("no available transition into statusCategory '" +:+
        target_status_category target +:+ "' for " +:+ uid)) t);
     tell send (jira_request s HttpPost url (Some (jira_transition_body t)))) w1) as Hrun.
  { intros t <-. unfold jira_set_state. rewrite Hurl. unfold mbind at 1, M_bind at 1, lift at 1.
    by rewrite (bind_ok _ _ _ _ _ (ask_ok _ _ _ _ _ _ Hserves)). }
  destruct (choose_transition available target) as [t|]; rewrite (Hrun _ eq_refl); [|by split].
  destruct Hspec as (? & Hkey & ? & ?). split_and!; [done..| |].
  - intros w2 Hacc. by apply (tell_ok send) in Hacc.
  - intros issue Hissue. cbn. unfold mapped_category. cbn. rewrite Hissue, Hkey. by destruct target.
Qed.
End jira.

Section jira_witness.
#[local] Existing Instance wire_serde.
#[local] Existing Instance wire_values.
#[local] Existing Instance wire_urls.
#[local] Existing Instance wire_crate.

Definition offered : list Transition :=
  [mkTransition "11" "Cancelled" "done"; mkTransition "21" "Resolve" "done";
   mkTransition "31" "Start" "indeterminate"].

#[local] Instance offered_serde : JiraSerde := {
  search_from_slice _ := Err "not used";
  jira_issue_from_slice _ := Err "not used";
  transitions_from_slice _ := Ok offered
}.

Definition one_jira : JiraSource := mkJiraSource (mkTicketUrl "site" (Some []) []) "e" "t" None "".

(** The world is the list of requests. *)
Definition logged (r : TicketRequest) : M (list (TicketRequest (H := wire_serde))) string TicketResponse :=
  λ w, (Ok (mkTicketResponse 200 (λ _, None) (Ok [])), w ++ [r]).

Lemma jira_set_state_takes_the_transition_witness :
  ∃ w, jira_set_state logged one_jira "P-1" Done [] = (Ok tt, w) ∧
    choose_transition offered Done = Some (mkTransition "21" "Resolve" "done") ∧
    is_cancel_intent "Cancelled" = true.
Proof.
  pose proof (jira_set_state_takes_the_transition logged one_jira "P-1" Done
    (mkTicketUrl "site" (Some ["rest"; "api"; "3"; "issue"; "P-1"; "transitions"]) []) offered [] _
    eq_refl ltac:(by eexists _, _)) as (_ & _ & _ & _ & Hrun & _).
  eexists. split; [apply Hrun; by eexists|]. by vm_compute.
Defined.
End jira_witness.

(** ** GitLab and Asana *)

Section flags.
Context `{SerdeJson} `{!JsonValues} `{TicketWire} `{UrlCrate} `{GitLabSerde} `{AsanaSerde} {W : Type}.
Context (send : TicketRequest → M W string TicketResponse).

(** GitLab only accepts the states it can show.  Under a scoped-label mapping a state
    that is not terminal is refused before any request; otherwise the issue is closed for
    a terminal state and reopened for the others, and, whatever its labels and whatever
    the mapping, a closed issue reads back as done, and a reopened one as open. *)
Theorem gitlab_state_reads_back (s : GitLabSource) uid target n url w w1 :
  issue_iid uid = Ok n → gl_issues_url s [dec n] = Ok url →
  accepts send (gl_request s HttpPut url (Some (json_object
    [("state_event", json_string (if terminal target then "close" else "reopen"))]))) w w1 →
  if negb (terminal target) && scoped_mapping (gls_mapping s)
  then ∃ op, gitlab_set_state send s uid target w = (Err (Unsupported op), w)
  else gitlab_set_state send s uid target w = (Ok tt, w1) ∧
    ∀ issue, gl_state issue = (if terminal target then "closed" else "opened") →
      state_category (tk_state (gl_issue_to_ticket (gls_project s) (gls_mapping s) issue)) =
      if terminal target then Done else Open.
Proof.
  intros Hn Hurl Hacc. unfold gitlab_set_state, gl_issue_to_ticket, gl_resolve_state.
  destruct (terminal target) eqn:Ht, (scoped_mapping (gls_mapping s)) eqn:Hs; cbn [negb andb]; try by eexists.
  all: split; [rewrite Hn; unfold mbind, M_bind, lift; rewrite Hurl; by apply (tell_ok send)|].
  all: intros issue ->; try done.
  cbn. unfold scoped_mapping in Hs. destruct (gls_mapping s) as [m|]; [|done]. by destruct (signal m).
Qed.

Lemma find_first {A} (p : A → bool) before x after :
  (∀ y, y ∈ before → p y = false) → p x = true → Tickets.find p (before ++ x :: after) = Some x.
Proof.
  intros Hb Hx. unfold Tickets.find. rewrite filter_app.
  assert (filter (λ y, p y = true) before = []) as ->.
  { destruct (filter _ before) as [|y l] eqn:E; [done|].
    assert (y ∈ filter (λ y, p y = true) before) as [Hy Hin]%list_elem_of_filter
      by (rewrite E; by left). by rewrite Hb in Hy. }
  by rewrite filter_cons_True.
Qed.

(** The section or value that a completed task shows under a mapping. *)
Definition shows_field (m : StateMapping) (task : AsanaTask) (x : string) : Prop :=
  (signal m = Section_ ∧ ∃ project gid others,
     at_memberships task =
       mkAsanaMembership project (Some (mkAsanaNamedGid gid (Some x))) :: others) ∨
  (∃ id before c after, signal m = CustomField id ∧
     at_custom_fields task = before ++ c :: after ∧
     (∀ c', c' ∈ before → ac_gid c' ≠ id) ∧ ac_gid c = id ∧
     (ac_enum_value c = Some (Some x) ∨
      (∀ y, ac_enum_value c ≠ Some (Some y)) ∧ ac_display_value c = Some x)).

Lemma shown_field_category m task x c : shows_field m task x → by_value m !! x = Some c →
  state_category (tk_state (task_to_ticket (Some m) task)) = c.
Proof.
  intros Hshow Hx. assert (category_of m x = c) as Hcat by (unfold category_of; by rewrite Hx).
  unfold task_to_ticket, asana_resolve_state.
  destruct Hshow as [(-> & p & g & others & Hm)|(id & before & fld & after & -> & Hf & Hb & Hid & Hv)].
  - unfold primary_section. by rewrite Hm.
  - assert (custom_field_value task id = Some x) as ->; [|done].
    unfold custom_field_value. rewrite Hf, (find_first _ before fld after).
    + cbn. destruct Hv as [->|[Hne Hd]]; [done|].
      destruct (ac_enum_value fld) as [[y|]|]; [by destruct (Hne y)|done..].
    + intros y Hy. by apply bool_decide_eq_false, Hb.
    + by apply bool_decide_eq_true.
Qed.

(** C39: Asana accepts a terminal state that it does not show.  [Done] and [Canceled]
    are sent as a completed task and succeed under every mapping.  Every other state
    is refused before any request when a section or a custom field decides the state,
    and sent as a task that is not completed otherwise.  But a completed task whose
    section, or whose value in the field, the mapping has in a category reads back in
    that category, whichever it is; only without a mapping does it read back as
    done. *)
Theorem asana_completed_task_keeps_its_field (s : AsanaSource) uid url w :
  asana_url s ["tasks"; uid] = Ok url →
  let completed flag := asana_request s HttpPut url
    (Some (json_object [("data", json_object [("completed", json_bool flag)])])) in
  (∀ target w1, target = Done ∨ target = Canceled → accepts send (completed true) w w1 →
     asana_set_state send s uid target w = (Ok tt, w1)) ∧
  (∀ target m, target ≠ Done → target ≠ Canceled → as_mapping s = Some m →
     (signal m = Section_ ∨ ∃ id, signal m = CustomField id) →
     ∃ op, asana_set_state send s uid target w = (Err (Unsupported op), w)) ∧
  (∀ target w1, target ≠ Done → target ≠ Canceled →
     (∀ m, as_mapping s = Some m → signal m ≠ Section_ ∧ ∀ id, signal m ≠ CustomField id) →
     accepts send (completed false) w w1 →
     asana_set_state send s uid target w = (Ok tt, w1)) ∧
  (∀ task, at_completed task = true →
     match as_mapping s with
     | None => state_category (tk_state (task_to_ticket None task)) = Done
     | Some m => ∀ x c, shows_field m task x → by_value m !! x = Some c →
         state_category (tk_state (task_to_ticket (Some m) task)) = c
     end).
Proof.
  intros Hurl completed. unfold asana_set_state.
  assert (∀ flag w1, accepts send (completed flag) w w1 →
    (url ← lift (asana_url s ["tasks"; uid]); tell send (asana_request s HttpPut url
      (Some (json_object [("data", json_object [("completed", json_bool flag)])])))) w = (Ok tt, w1))
    as Hsend.
  { intros flag w1 Hacc. rewrite Hurl. unfold mbind, M_bind, lift. by apply (tell_ok send). }
  split_and!.
  - intros target w1 Ht Hacc. assert (completes target = true) as -> by (by destruct Ht as [->| ->]).
    by apply Hsend.
  - intros target m Hd Hc Hm Hsig. assert (completes target = false) as -> by (by destruct target).
    assert (field_mapping (as_mapping s) = true) as ->; [|by eexists].
    rewrite Hm. cbn. by destruct Hsig as [->|[id ->]].
  - intros target w1 Hd Hc Hm Hacc.
    assert (completes target = false) as -> by (by destruct target).
    assert (field_mapping (as_mapping s) = false) as ->; [|by apply Hsend].
    destruct (as_mapping s) as [m|]; [|done]. destruct (Hm m eq_refl) as [Hns Hnc]. cbn.
    destruct (signal m) as [| | | |id|]; try done; by destruct (Hnc id).
  - intros task Htask. destruct (as_mapping s) as [m|].
    + intros x c. apply shown_field_category.
    + unfold task_to_ticket. cbn. unfold asana_intrinsic. by rewrite Htask.
Qed.
End flags.

Section flags_witness.
#[local] Existing Instance wire_serde.
#[local] Existing Instance wire_values.
#[local] Existing Instance wire_urls.
#[local] Existing Instance wire_crate.

Definition one_gitlab : GitLabSource :=
  mkGitLabSource (mkTicketUrl "site" (Some []) []) "g/p" "t"
    (Some (mkStateMapping (ScopedLabel "workflow::") {["doing" := InProgress]} Open)).

Lemma gitlab_state_reads_back_witness :
  ∃ w, gitlab_set_state logged one_gitlab "g/p#7" Done [] = (Ok tt, w) ∧
    state_category (tk_state (gl_issue_to_ticket "g/p" (gls_mapping one_gitlab)
      (mkGlIssue 7 "t" None "closed" ["workflow::doing"] [] None None None))) = Done.
Proof.
  destruct (gitlab_state_reads_back logged one_gitlab "g/p#7" Done 7
    (mkTicketUrl "site" (Some ["api"; "v4"; "projects"; "g/p"; "issues"; "7"]) []) [] _
    eq_refl ltac:(by vm_compute) ltac:(by eexists)) as [Hrun Hread].
  eexists. split; [exact Hrun|by apply Hread].
Defined.

Definition one_asana : AsanaSource :=
  mkAsanaSource (mkTicketUrl "site" (Some []) []) "p" "t"
    (Some (mkStateMapping Section_ {["Doing" := InProgress]} Open)).

(** A task in the section [Doing], once completed. *)
Definition doing_task : AsanaTask :=
  mkAsanaTask "7" "task" None None true None None
    [mkAsanaMembership None (Some (mkAsanaNamedGid "1" (Some "Doing")))] [] [] None.

(** The same task with the value [Doing] in the field [f], which decides the state. *)
Definition field_asana : AsanaSource :=
  mkAsanaSource (mkTicketUrl "site" (Some []) []) "p" "t"
    (Some (mkStateMapping (CustomField "f") {["Doing" := InProgress]} Open)).
Definition field_task : AsanaTask :=
  mkAsanaTask "7" "task" None None true None None []
    [mkAsanaCustomField "e" (Some (Some "Else")) None;
     mkAsanaCustomField "f" (Some (Some "Doing")) None] [] None.

Lemma asana_completed_task_keeps_its_field_witness :
  (∃ w, asana_set_state logged one_asana "7" Done [] = (Ok tt, w)) ∧
  (∃ w, asana_set_state logged field_asana "7" Canceled [] = (Ok tt, w)) ∧
  (∃ op, asana_set_state logged field_asana "7" InProgress [] = (Err (Unsupported op), [])) ∧
  state_category (tk_state (task_to_ticket (as_mapping one_asana) doing_task)) = InProgress ∧
  state_category (tk_state (task_to_ticket (as_mapping field_asana) field_task)) = InProgress.
Proof.
  destruct (asana_completed_task_keeps_its_field logged one_asana "7"
    (mkTicketUrl "site" (Some ["tasks"; "7"]) []) [] ltac:(by vm_compute))
    as (Hdone & _ & _ & Hread).
  destruct (asana_completed_task_keeps_its_field logged field_asana "7"
    (mkTicketUrl "site" (Some ["tasks"; "7"]) []) [] ltac:(by vm_compute))
    as (Hcancel & Hrefuse & _ & Hread').
  split_and!.
  - eexists. apply Hdone; [by left|by eexists].
  - eexists. apply Hcancel; [by right|by eexists].
  - eapply Hrefuse; [done|done|reflexivity|]. right. by eexists.
  - apply (Hread doing_task eq_refl "Doing" InProgress); [|by vm_compute].
    left. split; [done|]. by eexists _, _, _.
  - apply (Hread' field_task eq_refl "Doing" InProgress); [|by vm_compute].
    right. exists "f", [mkAsanaCustomField "e" (Some (Some "Else")) None],
      (mkAsanaCustomField "f" (Some (Some "Doing")) None), [].
    split_and!; [done|done| |done|by left]. by intros ? ->%list_elem_of_singleton.
Defined.
End flags_witness.

(** ** The project board *)

(** No two columns of a mapping are equal but for ASCII case. *)
Definition columns_distinct (m : StateMapping) : Prop :=
  ∀ x y c c', by_value m !! x = Some c → by_value m !! y = Some c' → eq_ignore_ascii_case x y = true → x = y.

Lemma column_for_maps m target overrides col : column_for m target overrides = Ok col →
  overrides !! target = None → by_value m !! col = Some target.
Proof.
  unfold column_for. intros Hcol Ho. rewrite Ho, (increasing_sort_id _ (increasing_fst_filter _ _)) in Hcol.
  enough (∃ c, by_value m !! col = Some c ∧ c = target) as (c & ? & ->) by done.
  apply (elem_of_fst_filter (by_value m) (λ kc, kc.2 = target)).
  destruct (filter _ _).*1 as [|col' [|]]; try done. injection Hcol as ->. by left.
Qed.

(** A column's name reads as the column's category, whatever its case. *)
Lemma category_of_column m col raw target : columns_distinct m → by_value m !! col = Some target →
  eq_ignore_ascii_case raw col = true → category_of m raw = target.
Proof.
  intros Hd Hcol Heq. unfold category_of. destruct (by_value m !! raw) as [c|] eqn:Hraw.
  { rewrite (Hd raw col _ _ Hraw Hcol Heq) in Hraw. congruence. }
  pose proof (find_spec (λ kc, eq_ignore_ascii_case kc.1 raw) (btree_items (by_value m))) as Hf.
  unfold eq_ignore_ascii_case in *. apply bool_decide_eq_true in Heq.
  destruct (Tickets.find _ _) as [[x c]|]; cbn.
  - destruct Hf as [Hin%elem_of_btree_items Hx%bool_decide_eq_true]. cbn in Hx.
    assert (x = col) as -> by (eapply Hd; [done..|]; apply bool_decide_eq_true; by etrans).
    by rewrite Hcol in Hin; injection Hin.
  - specialize (Hf (col, target) ltac:(by apply elem_of_btree_items)). cbn in Hf.
    by apply bool_decide_eq_false in Hf.
Qed.

Section board.
Context `{SerdeJson} `{!JsonValues} `{TicketWire} `{DebugTexts} `{!GqlSerde} {W : Type}.
Context (send : TicketRequest → M W string TicketResponse) (s : GitHubProjectSource).

Lemma resolve_item_ok lookup number col c : resolve_item lookup number col = Ok c →
  ∃ nodes node field o, lk_errors lookup = [] ∧ lk_items lookup = Some nodes ∧ node ∈ nodes ∧
    lki_project_number node = number ∧ lki_field node = Some field ∧ o ∈ lf_options field ∧
    eq_ignore_ascii_case (lo_name o) col = true ∧
    c = mkItemCoords (lki_id node) (lki_project_id node) (lf_id field) (lo_id o).
Proof.
  unfold resolve_item. destruct (lk_errors lookup); [|done]. destruct (lk_items lookup) as [nodes|]; [|done].
  cbn [ok_or mbind result_bind].
  pose proof (find_spec (λ n, bool_decide (lki_project_number n = number)) nodes) as Hn.
  destruct (Tickets.find _ nodes) as [node|]; [|done]. cbn [ok_or mbind result_bind].
  destruct Hn as [? ?%bool_decide_eq_true]. destruct (lki_field node) as [field|] eqn:Hf; [|done].
  cbn [ok_or mbind result_bind].
  pose proof (find_spec (λ o, eq_ignore_ascii_case (lo_name o) col) (lf_options field)) as Ho.
  destruct (Tickets.find _ (lf_options field)) as [o|]; [|done]. destruct Ho. intros [= <-].
  by exists nodes, node, field, o.
Qed.

(** Moving a card.  A move asks GitHub for the card of the issue the uid names and
    puts it into the column of the target category: the mutation names the card on this
    board and the option whose name is the column's, but for case, and its errors are the
    move's.  When the issue, its card, the field or the option is missing, the move fails
    with no mutation sent.  If the column was found in the mapping and no two columns
    differ only in case, the card in that option reads back as the target category. *)
Theorem board_move_reads_back owner repo n target col v lookup w w1 :
  column_for (gps_mapping s) target (gps_set_targets s) = Ok col →
  split_once slash_char owner = None → (n ≤ u64_max)%N →
  serves send value_from_slice (board_request s (project_item_body owner repo n)) v w w1 →
  lookup_from_value v = Ok lookup →
  let move := board_set_state send s (gh_uid (owner +:+ "/" +:+ repo) n) target in
  match resolve_item lookup (gps_project_number s) col with
  | Err e => move w = (Err e, w1)
  | Ok c => ∃ nodes node field o, lk_items lookup = Some nodes ∧ node ∈ nodes ∧
      lki_project_number node = gps_project_number s ∧ lki_field node = Some field ∧ o ∈ lf_options field ∧
      c = mkItemCoords (lki_id node) (lki_project_id node) (lf_id field) (lo_id o) ∧
      (∀ resp w2, serves send value_from_slice (board_request s (set_option_body c)) resp w1 w2 →
        move w = (mutation_result resp, w2)) ∧
      (gps_set_targets s !! target = None → columns_distinct (gps_mapping s) →
        ∀ item t, item_to_ticket (gps_mapping s) item = Some t →
          (st ← gq_status item; gq_name st) = Some (lo_name o) → state_category (tk_state t) = target)
  end.
Proof.
  intros Hcol Howner Hn Hserves Hlookup move.
  assert (∀ r, resolve_item lookup (gps_project_number s) col = r → move w =
    (coords ← lift r; resp ← ask send value_from_slice (board_request s (set_option_body coords));
     lift (mutation_result resp)) w1) as Hmove.
  { intros r <-. unfold move, board_set_state. rewrite Hcol, parse_board_uid_uid by done.
    unfold mbind at 1, M_bind at 1, lift at 1. cbn [map_err]. unfold mbind at 1, M_bind at 1, lift at 1.
    rewrite (bind_ok _ _ _ _ _ (ask_ok _ _ _ _ _ _ Hserves)). rewrite Hlookup.
    by unfold mbind at 1, M_bind at 1, lift at 1. }
  destruct (resolve_item _ _ _) as [c|e] eqn:Hres; rewrite (Hmove _ eq_refl); [|done].
  destruct (resolve_item_ok _ _ _ _ Hres) as (nodes & node & field & o & _ & ? & ? & ? & ? & ? & Ho & ->).
  exists nodes, node, field, o. split_and!; [done..| |].
  - intros resp w2 Hresp. unfold mbind at 1, M_bind at 1, lift at 1.
    by rewrite (bind_ok _ _ _ _ _ (ask_ok _ _ _ _ _ _ Hresp)).
  - intros Hnone Hd item t Ht Hname. unfold item_to_ticket in Ht.
    destruct (gq_content item) as [content|]; [|done]. cbn [mbind option_bind] in Ht.
    case_decide; [done|]. destruct (gq_number content), (gq_repository content); try done.
    cbn [mbind option_bind] in Ht, Hname. injection Ht as <-. cbn. rewrite Hname. cbn.
    eapply category_of_column; [done|by eapply column_for_maps|done].
Qed.
End board.

Section board_witness.
#[local] Existing Instance wire_serde.
#[local] Existing Instance wire_values.
#[local] Existing Instance wire_urls.
#[local] Instance quoting : DebugTexts := {
  debug_string := quoted; debug_category _ := ""; debug_strings := String.concat ", "
}.

Definition board_lookup : ItemLookupResponse :=
  mkItemLookup (Some [mkLookupItem "I9" "P9" 9 None;
    mkLookupItem "I4" "P4" 4 (Some (mkLookupField "F" [mkLookupOption "o1" "Todo";
      mkLookupOption "o2" "In Progress"]))]) [].

#[local] Instance board_serde : GqlSerde := {
  board_from_slice _ := Err "not used";
  value_from_slice _ := Ok WNull;
  lookup_from_value _ := Ok board_lookup
}.

Definition one_board : GitHubProjectSource :=
  mkProjectSource (mkTicketUrl GRAPHQL_URL (Some []) []) "org" 4 "t"
    (mkStateMapping NativeStatus {["in progress" := InProgress]} Open) ∅.

Lemma board_move_reads_back_witness :
  ∃ w, board_set_state logged one_board "o/r#7" InProgress [] = (Ok tt, w) ∧
    (w !! 1 ≫= tq_body) = Some (set_option_body (mkItemCoords "I4" "P4" "F" "o2")) ∧
    category_of (gps_mapping one_board) "In Progress" = InProgress.
Proof.
  pose proof (board_move_reads_back logged one_board "o" "r" 7 InProgress "in progress" WNull
    board_lookup [] _ ltac:(by vm_compute) eq_refl ltac:(by vm_compute) ltac:(by eexists _, _) eq_refl)
    as (nodes & node & field & o & _ & _ & _ & _ & _ & _ & Hmove & _).
  assert (gh_uid ("o" +:+ "/" +:+ "r") 7 = "o/r#7") as Huid by by vm_compute. rewrite Huid in Hmove.
  eexists. split; [apply (Hmove WNull); by eexists _, _|]. split; [|by vm_compute].
  cbn [app lookup list_lookup mbind option_bind tq_body board_request]. do 2 f_equal.
Defined.
End board_witness.
