(* ===== verification/Routes.v ===== *)
(** * Routes: everything the daemon serves over HTTP

    [http.rs]'s [SERVED_OPERATIONS] as a whole: the record, replication, purge, blob
    and probe routes of [Http], and here the ticket-sync and code-graph routes with
    [service.rs]'s [ticket_sync] behind the former and [GraphViews] behind the
    latter, under the same middleware.  What any request may change and any response
    may show is stated over all of them. *)

From S2P Require Import SampleStores GraphSamples ConnectorSpec.
From S2P Require Export GraphViews TicketConfig Http.

(** ** The service *)

Inductive TicketSyncError :=
  | BadRequest (message : string)
  | Internal (message : string).

(** [ConfigError]'s [Display]. *)
Definition config_error_text `{DebugTexts} (e : ConfigError) : string :=
  match e with
  | ConfigRead path error => "reading config " +:+ path +:+ ": " +:+ error
  | ConfigParse error => "parsing config: " +:+ error
  | MissingEnv conn var => "connection " +:+ conn +:+ ": env var " +:+ var +:+ " is not set"
  | UnknownProvider conn provider =>
      "connection " +:+ conn +:+ ": unknown provider " +:+ provider
  | BadCategory conn value =>
      "connection " +:+ conn +:+ ": unknown state category " +:+ debug_string value
  end.

(** Building the HTTP client is taken to succeed, so that nothing is [Source]. *)
Definition classify_config_err `{DebugTexts} (e : ConfigError) : TicketSyncError :=
  BadRequest (config_error_text e).

(** ** Requests and responses *)

Record GraphQuery := mkGraphQuery { gq_repo : string; gq_view : string; gq_symbol : string }.

Inductive ServedRequest :=
  | Core (req : Request)
  | TicketSync (conn : Connection)
  | GraphDefinitions (q : GraphQuery)
  | GraphReferences (q : GraphQuery)
  | GraphCallers (q : GraphQuery)
  | GraphCallees (q : GraphQuery)
  | GraphImpact (q : GraphQuery).

Definition served_path (req : ServedRequest) : string :=
  match req with
  | Core req => request_path req
  | TicketSync _ => "/v1/tickets/sync"
  | GraphDefinitions _ => "/v1/graph/definitions"
  | GraphReferences _ => "/v1/graph/references"
  | GraphCallers _ => "/v1/graph/callers"
  | GraphCallees _ => "/v1/graph/callees"
  | GraphImpact _ => "/v1/graph/impact"
  end.

(** The query of a graph route. *)
Definition graph_query_of (req : ServedRequest) : option GraphQuery :=
  match req with
  | GraphDefinitions q | GraphReferences q | GraphCallers q | GraphCallees q | GraphImpact q =>
      Some q
  | Core _ | TicketSync _ => None
  end.

Inductive ServedPayload :=
  | Plain (pl : Payload)
  | JsonSummary (s : IngestSummary)
  | JsonSymbols (items : list (Located Symbol))
  | JsonReferences (items : list (Located Reference))
  | JsonNames (names : list string).

Record ServedResponse := mkServed { served_status : N; served_payload : ServedPayload }.

Definition plain_response (r : Response) : ServedResponse :=
  mkServed (status r) (Plain (payload r)).

(** ** Handlers *)

Section routes.
Context `{Blake3} `{PurgeSerde} `{ManifestSerde, SliceSerde, Sqlite} `{Lowercase} `{SerdeJson}.
Context `{!RecordCodec ticket} `{!JsonValues} `{TicketWire} `{DebugTexts} `{!GqlSerde}.
Context {W : Type} (svc : Service W) (send : TicketRequest → M W string TicketResponse).
Context (env : string → option string) (graphql : TicketUrl) (fuel : nat).
Context (files : gmap string ViewFiles) (open_existing : Db → result string Db).

(** Running out of fuel has no answer in the code; here it is an internal error. *)
Definition svc_ticket_sync (conn : Connection) (author : string) :
    M W TicketSyncError IngestSummary :=
  source ← lift (map_err classify_config_err (build_source env graphql conn));
  o ← convert (λ _, Internal "ingest failed")
        (ingest fuel (board_source send source fuel) (svc_store svc) author (Some (cn_name conn)));
  lift (ok_or (Internal "out of fuel") o).

Definition ticket_sync_route (p : Principal) (conn : Connection) : W → ServedResponse * W := λ w,
  if negb (allows p Write "tickets") then (plain_response (forbidden p Write "tickets"), w)
  else match svc_ticket_sync conn "gonzalod" w with
       | (Ok summary, w') => (mkServed OK (JsonSummary summary), w')
       | (Err (BadRequest m), w') => (mkServed BAD_REQUEST (Plain (Text m)), w')
       | (Err (Internal m), w') => (plain_response (server_error m), w')
       end.

Definition graph_authz (p : Principal) (repo : string) : option Response :=
  if negb (allows p Read repo) then Some (forbidden p Read repo) else None.

Definition graph_route {A} (p : Principal) (q : GraphQuery)
    (ask : string → string → string → M W CoreError A) (json : A → ServedPayload) :
    W → ServedResponse * W := λ w,
  match graph_authz p (gq_repo q) with
  | Some denied => (plain_response denied, w)
  | None =>
      match ask (gq_repo q) (gq_view q) (gq_symbol q) w with
      | (Ok items, w') => (mkServed OK (json items), w')
      | (Err e, w') => (plain_response (server_error e), w')
      end
  end.

(** [graph_impact_names] is given the fuel that [resolved_impact] needs. *)
Definition impact_names (repo view name : string) : M W CoreError (list string) :=
  o ← graph_impact_names (svc_store svc) (svc_blobs svc) (svc_graph_root svc) files
        open_existing repo view name;
  lift (ok_or (Backend "out of fuel") o).

Definition served_handle (p : option Principal) (req : ServedRequest) : W → ServedResponse * W :=
  let with_principal f := match p with
    | Some p => f p
    | None => λ w, (plain_response (mkResponse INTERNAL_SERVER_ERROR
        (Text "Missing request extension")), w)
    end in
  let asked {A} (ask : Store W → BlobStore W → option string → gmap string ViewFiles →
      (Db → result string Db) → string → string → string → M W CoreError A) :=
    ask (svc_store svc) (svc_blobs svc) (svc_graph_root svc) files open_existing in
  match req with
  | Core req => λ w, let '(resp, w') := handle svc p req w in (plain_response resp, w')
  | TicketSync conn => with_principal (λ p, ticket_sync_route p conn)
  | GraphDefinitions q =>
      with_principal (λ p, graph_route p q (asked graph_definitions) JsonSymbols)
  | GraphReferences q =>
      with_principal (λ p, graph_route p q (asked graph_references_to) JsonReferences)
  | GraphCallers q => with_principal (λ p, graph_route p q (asked graph_callers_of) JsonNames)
  | GraphCallees q => with_principal (λ p, graph_route p q (asked graph_callees) JsonNames)
  | GraphImpact q => with_principal (λ p, graph_route p q impact_names JsonNames)
  end.

(** The middleware around all of them. *)
Definition served_router (auth : Auth) (authorization : option string) (req : ServedRequest) :
    W → ServedResponse * W := λ w,
  if is_probe_path (served_path req) then served_handle None req w
  else match authenticate auth (bearer authorization) with
       | Some principal => served_handle (Some principal) req w
       | None => (plain_response (mkResponse UNAUTHORIZED NoBody), w)
       end.
End routes.

(** ** What a run may change

    [runs R m Q]: from a store whose records are under their own keys, [m] moves the
    world within [R], whatever its outcome, and what it returns meets [Q]. *)

Section runs.
Context {W : Type} (contents : W → records).
Implicit Types R : W → W → Prop.

Definition keeps_keyed R : Prop := ∀ w w', R w w' → keyed (contents w) → keyed (contents w').

Definition runs {E A} R (m : M W E A) (Q : A → Prop) : Prop := ∀ w, keyed (contents w) →
  R w (m w).2 ∧ ∀ a, (m w).1 = Ok a → Q a.

Context R `{!PreOrder R} (HR : keeps_keyed R).

Lemma runs_ret {E A} (a : A) (Q : A → Prop) : Q a → runs R (mret (M := M W E) a) Q.
Proof. intros Ha w _. split; [done|]. by intros ? [= <-]. Qed.

Lemma runs_lift {E A} (r : result E A) (Q : A → Prop) : (∀ a, r = Ok a → Q a) → runs R (lift r) Q.
Proof. by intros Hr w _. Qed.

Lemma runs_then {E A B} (m : M W E A) (f : A → M W E B) P Q :
  runs R m P → (∀ a, P a → runs R (f a) Q) → runs R (m ≫= f) Q.
Proof using PreOrder0 HR.
  intros Hm Hf w Hk. destruct (Hm w Hk) as [Hw Ha]. unfold mbind, M_bind.
  destruct (m w) as [[a|e] w1]; cbn in *; [|done].
  destruct (Hf a (Ha a eq_refl) w1 (HR _ _ Hw Hk)) as [Hw2 HQ]. split; [by etrans|done].
Qed.

Lemma runs_convert {E E' A} (g : E → E') (m : M W E A) Q : runs R m Q → runs R (convert g m) Q.
Proof.
  intros Hm w Hk. destruct (Hm w Hk) as [Hw Ha]. unfold convert.
  destruct (m w) as [[a|e] w1]; cbn in *; (split; [done|]); [|done]. intros ? [= <-]. by apply Ha.
Qed.

Lemma runs_foldM {E A B} (f : B → A → M W E B) acc l :
  (∀ b a, a ∈ l → runs R (f b a) (λ _, True)) → runs R (foldM f acc l) (λ _, True).
Proof using PreOrder0 HR.
  revert acc. induction l as [|x l IH]; intros acc Hf; [by apply runs_ret|].
  apply (runs_then (f acc x) _ (λ _, True)); [apply Hf; by left|]. intros b _.
  apply IH. intros b' a Ha. apply Hf. by right.
Qed.

Lemma runs_any {E A} (m : M W E A) : (∀ w, R w (m w).2) → runs R m (λ _, True).
Proof. by intros Hm w _. Qed.

Lemma runs_result {E A} (m : M W E A) Q w r w' :
  runs R m Q → keyed (contents w) → m w = (r, w') → R w w'.
Proof. intros Hm Hk Hrun. by destruct (Hm w Hk) as [Hw _]; rewrite Hrun in Hw. Qed.
End runs.

(** ** The board and the store under a sync *)

Section syncs.
Context `{Blake3} `{Lowercase} `{SerdeJson} `{!RecordCodec ticket} `{!JsonValues} `{TicketWire}.
Context `{DebugTexts} `{!GqlSerde} {W F : Type} (svc : Service W).
Context (contents : W → records) (bl : W → gmap ContentHash (bytes * Z)) (rest : W → F).
Context (cap : nat) (kok : RecordKey → Prop) (hok : string → Prop).
Context `{!RouteLaws svc contents bl rest cap kok hok}.
Context (send : TicketRequest → M W string TicketResponse).

(** GitHub's answers are not in the stores. *)
Context (send_apart : ∀ r w, contents (send r w).2 = contents w ∧ bl (send r w).2 = bl w).

(** Nothing but records of the namespace [tickets] may differ. *)
Definition tickets_only (w w' : W) : Prop :=
  (∀ k, key_namespace k ≠ "tickets" → contents w' !! k = contents w !! k) ∧ bl w' = bl w ∧
  (keyed (contents w) → keyed (contents w')).

#[local] Instance tickets_only_preorder : PreOrder tickets_only.
Proof.
  split; [done|]. intros x y z (Hk & Hb & Hy) (Hk' & Hb' & Hz). split_and!; [|congruence|auto].
  intros k Hn. by rewrite Hk', Hk.
Qed.

Lemma tickets_only_keyed : keeps_keyed contents tickets_only.
Proof. by intros w w' (_ & _ & Hk). Qed.

Lemma tickets_only_same w w' : contents w' = contents w → bl w' = bl w → tickets_only w w'.
Proof. unfold tickets_only. by intros -> ->. Qed.

Abbreviation stays := (runs contents tickets_only).
Abbreviation bound := (runs_then contents tickets_only tickets_only_keyed).
Abbreviation returned := (runs_ret contents tickets_only).
Abbreviation lifted := (runs_lift contents tickets_only).

Lemma stays_ask {A} (decode : bytes → result string A) r : stays (ask send decode r) (λ _, True).
Proof using send_apart.
  apply (bound _ _ (λ _, True)); [|intros resp _; by apply lifted].
  apply (bound _ _ (λ _, True)); [|intros resp _; by apply lifted].
  apply runs_convert, runs_any. intros w. by apply tickets_only_same; apply send_apart.
Qed.

Definition from_github (t : ticket) : Prop := tk_provider t = GitHub.

Lemma board_tickets_from_github m (l : list GqlItem) : Forall from_github (omap (item_to_ticket m) l).
Proof.
  induction l as [|i l IH]; cbn; [done|].
  destruct (item_to_ticket m i) as [t|] eqn:Ht; [|done]. constructor; [|done]. revert Ht.
  unfold item_to_ticket. destruct (gq_content i) as [c|]; [|done]. cbn [mbind option_bind].
  case_decide; [done|]. destruct (gq_number c) as [n|]; [|done].
  destruct (gq_repository c) as [r|]; [|done]. cbn [mbind option_bind].
  intros Heq%(inj Some). subst t. reflexivity.
Qed.

Lemma stays_pages s fuel after out : Forall from_github out →
  stays (fetch_pages send s fuel after out) (λ o, ∀ ts, o = Some ts → Forall from_github ts).
Proof using send_apart.
  revert after out. induction fuel as [|fuel IH]; intros after out Hout; cbn [fetch_pages].
  { by apply returned. }
  apply (bound _ _ (λ _, True)); [apply stays_ask|]. intros parsed _.
  apply (bound _ _ (λ _, True)); [by apply lifted|]. intros items _. cbv zeta.
  assert (Forall from_github (out ++ omap (item_to_ticket (gps_mapping s)) (gq_nodes items))) as Hall
    by (apply Forall_app_2; [done|apply board_tickets_from_github]).
  destruct (gq_has_next_page items); [destruct (gq_end_cursor items)|];
    [by apply IH|apply returned; [done..|]|apply returned; [done..|]]; by intros ts [= <-].
Qed.

Lemma stays_fetch s fuel cursor :
  stays (fetch_changed (board_source send s fuel) cursor)
    (λ page, Forall from_github (page_tickets page)).
Proof using send_apart.
  apply (bound _ _ (Forall from_github)); [|intros ts Hts; by apply returned].
  apply (bound _ _ _ _ (stays_pages s fuel None [] ltac:(done))). intros o Ho.
  apply lifted. destruct o as [ts|]; [|done]. intros ? [= <-]. by apply Ho.
Qed.

Context (name : string) (Hkok : ∀ uid, kok (mkKey "tickets" "github" (name +:+ "/" +:+ uid))).

Lemma github_key t : from_github t →
  kok (record_key t (Some name)) ∧ key_namespace (record_key t (Some name)) = "tickets".
Proof using Hkok. intros Ht. unfold record_key. rewrite Ht. cbn. split; [apply Hkok|done]. Qed.

Lemma stays_get k : kok k →
  stays (st_get (svc_store svc) k) (λ o, ∀ r, o = Some r → rec_key r = k).
Proof using RouteLaws0.
  intros Hok w Hk. destruct (route_get k w Hok) as (w' & -> & Hc & [= Hb _]). cbn.
  split; [by apply tickets_only_same|]. intros o [= <-] r [Hr _]%live_Some. by apply Hk.
Qed.

Lemma stays_put r e : kok (rec_key r) → key_namespace (rec_key r) = "tickets" →
  stays (st_put (svc_store svc) r e) (λ _, True).
Proof using RouteLaws0.
  intros Hok Hns w Hk. destruct (route_put r e w Hok) as (now & res & w' & -> & [= Hb _] & Heq).
  cbn. split; [|done]. destruct (plan_put _ _ _ _ _) as [s|c| |] eqn:Hp; injection Heq as _ Hc;
    try by apply tickets_only_same.
  apply plan_put_key in Hp. unfold tickets_only. rewrite Hc. split_and!; [|done|].
  - intros k Hne. by rewrite lookup_insert_ne by congruence.
  - intros Hkeyed k x. destruct (decide (rec_key r = k)) as [<-|Hne].
    + rewrite lookup_insert_eq. by intros [= <-].
    + rewrite lookup_insert_ne by done. apply Hkeyed.
Qed.

Lemma stays_upsert t author : from_github t →
  stays (upsert (svc_store svc) t author (Some name)) (λ _, True).
Proof using RouteLaws0 Hkok.
  intros Ht. destruct (github_key t Ht) as [Hok Hns]. unfold upsert. cbv zeta.
  apply (bound _ _ (λ _, True)); [by apply lifted|]. intros body _.
  apply (bound _ _ (λ o, ∀ r, o = Some r → rec_key r = record_key t (Some name)));
    [by apply runs_convert, stays_get|]. intros existing Hex.
  match goal with |- context [if ?b then _ else _] => destruct b end; [by apply returned|].
  apply (bound _ _ (λ _, True)); [|intros [] _; by (apply returned || apply lifted)].
  apply runs_convert, stays_put;
    (destruct existing as [c|]; [cbn; by rewrite (Hex c eq_refl)|done]).
Qed.

Lemma stays_ingest s fuel n author summary cursor :
  stays (ingest_from fuel (board_source send s n) (svc_store svc) author (Some name) summary cursor)
    (λ _, True).
Proof using RouteLaws0 Hkok send_apart.
  revert summary cursor. induction fuel as [|fuel IH]; intros summary cursor; cbn [ingest_from].
  { by apply returned. }
  apply (bound _ _ (λ page, Forall from_github (page_tickets page)));
    [apply runs_convert, stays_fetch|]. intros page Hpage.
  apply (bound _ _ (λ _, True)).
  - apply runs_foldM; [apply _|apply tickets_only_keyed|]. intros acc t Hin.
    apply (bound _ _ (λ _, True)); [|intros o _; by apply returned].
    apply stays_upsert. by apply (proj1 (Forall_forall _ _) Hpage).
  - intros summary' _. destruct (_ || _); [by apply returned|apply IH].
Qed.
End syncs.

(** ** Graph queries only read *)

Section reads.
Context `{Blake3, ManifestSerde, SliceSerde, Sqlite} {W F : Type} (svc : Service W).
Context (contents : W → records) (bl : W → gmap ContentHash (bytes * Z)) (rest : W → F).
Context (cap : nat) (kok : RecordKey → Prop) (hok : string → Prop).
Context `{!RouteLaws svc contents bl rest cap kok hok}.
Context (files : gmap string ViewFiles) (open_existing : Db → result string Db).

Definition unmoved (w w' : W) : Prop := contents w' = contents w ∧ bl w' = bl w.

#[local] Instance unmoved_preorder : PreOrder unmoved.
Proof. split; [done|]. intros x y z (? & ?) (? & ?). split; congruence. Qed.

Lemma unmoved_keyed : keeps_keyed contents unmoved.
Proof. by intros w w' [-> _]. Qed.

Abbreviation stays := (runs contents unmoved).
Abbreviation bound := (runs_then contents unmoved unmoved_keyed).
Abbreviation returned := (runs_ret contents unmoved).
Abbreviation lifted := (runs_lift contents unmoved).

Lemma unmoved_assemble m : stays (assemble (svc_blobs svc) m) (λ _, True).
Proof using RouteLaws0.
  apply runs_foldM; [apply _|apply unmoved_keyed|]. intros s [p h] _.
  apply (bound _ _ (λ _, True)); [apply runs_any; intros w; apply route_get_blob_reads|].
  intros [b|] _; [|by apply returned].
  apply (bound _ _ (λ _, True)); [by apply lifted|]. intros g _. by apply returned.
Qed.

Lemma unmoved_view repo v : kok (Manifest_key repo v) →
  stays (view (svc_store svc) (svc_blobs svc) (svc_graph_root svc) files open_existing repo v)
    (λ _, True).
Proof using RouteLaws0.
  intros Hok. unfold view. destruct (_ ≫= vf_db).
  { apply (bound _ _ (λ _, True)); [by apply lifted|]. intros db' _. by apply returned. }
  apply (bound _ _ (λ _, True)).
  - apply (bound _ _ (λ _, True)); [|intros [r|] _; by apply lifted].
    apply runs_any. intros w. destruct (route_get (Manifest_key repo v) w Hok)
      as (w' & -> & Hc & [= Hb _]). by split.
  - intros m _. apply (bound _ _ (λ _, True)); [apply unmoved_assemble|].
    intros s _. by apply returned.
Qed.

Lemma unmoved_query {A} (q : GraphStore → A) repo v : kok (Manifest_key repo v) →
  stays (graph_query (svc_store svc) (svc_blobs svc) (svc_graph_root svc) files open_existing q
    repo v) (λ _, True).
Proof using RouteLaws0.
  intros Hok. apply (bound _ _ (λ _, True)); [by apply unmoved_view|]. intros g _. by apply returned.
Qed.

Lemma unmoved_impact repo v name : kok (Manifest_key repo v) →
  stays (impact_names svc files open_existing repo v name) (λ _, True).
Proof using RouteLaws0.
  intros Hok. apply (bound _ _ (λ _, True)); [|intros o _; by apply lifted].
  apply (bound _ _ (λ _, True)); [by apply unmoved_query|]. intros o _. by apply returned.
Qed.

Lemma graph_route_unmoved {A} p q (ask : string → string → string → M W CoreError A) json w resp w' :
  keyed (contents w) → stays (ask (gq_repo q) (gq_view q) (gq_symbol q)) (λ _, True) →
  graph_route p q ask json w = (resp, w') → unmoved w w'.
Proof.
  intros Hk Hask. unfold graph_route. destruct (graph_authz p _); [by intros [= _ <-]|].
  destruct (ask _ _ _ w) as [r w1] eqn:Hrun. intros Heq.
  assert (w' = w1) as -> by (by destruct r; injection Heq).
  eapply runs_result; [exact Hask|done|exact Hrun].
Qed.
End reads.

(** ** Scopes *)

(** What a response shows of records, keys and graphs. *)
Definition served_records (pl : ServedPayload) : list record :=
  match pl with Plain pl => shown_records pl | _ => [] end.
Definition served_keys (pl : ServedPayload) : list RecordKey :=
  match pl with Plain pl => shown_keys pl | _ => [] end.
Definition shows_graph (pl : ServedPayload) : bool :=
  match pl with JsonSymbols _ | JsonReferences _ | JsonNames _ => true | _ => false end.

Definition on_raw_route (req : ServedRequest) : bool :=
  match req with Core req => is_raw_route req | _ => false end.
Definition conditionally_writes (req : ServedRequest) : bool :=
  match req with Core req => is_conditional_write req | _ => false end.

(** The keys and the hash that a request is about are some that the stores keep
    their contract at. *)
Definition served_addressed (kok : RecordKey → Prop) (hok : string → Prop) (req : ServedRequest) :
    Prop :=
  match req with
  | Core req => addressed kok hok req
  | TicketSync conn => ∀ uid, kok (mkKey "tickets" "github" (cn_name conn +:+ "/" +:+ uid))
  | GraphDefinitions q | GraphReferences q | GraphCallers q | GraphCallees q | GraphImpact q =>
      kok (Manifest_key (gq_repo q) (gq_view q))
  end.

Section scopes.
Context `{Blake3} `{PurgeSerde} `{ManifestSerde, SliceSerde, Sqlite} `{Lowercase} `{SerdeJson}.
Context `{!RecordCodec ticket} `{!JsonValues} `{TicketWire} `{DebugTexts} `{!GqlSerde}.
Context {W F : Type} (svc : Service W) (send : TicketRequest → M W string TicketResponse).
Context (env : string → option string) (graphql : TicketUrl) (fuel : nat).
Context (files : gmap string ViewFiles) (open_existing : Db → result string Db).
Context (contents : W → records) (bl : W → gmap ContentHash (bytes * Z)) (rest : W → F).
Context (cap : nat) (kok : RecordKey → Prop) (hok : string → Prop).
Context `{!RouteLaws svc contents bl rest cap kok hok}.
Context (send_apart : ∀ r w, contents (send r w).2 = contents w ∧ bl (send r w).2 = bl w).
Implicit Types w : W.

#[local] Existing Instance tickets_only_preorder.
Abbreviation lifted := (runs_lift contents (tickets_only contents bl)).
Abbreviation serve := (served_router svc send env graphql fuel files open_existing).

Lemma serve_core auth hdr req w : serve auth hdr (Core req) w =
  (let '(resp, w') := router svc auth hdr req w in (plain_response resp, w')).
Proof.
  unfold served_router, router. cbn [served_path served_handle].
  destruct (is_probe_path _); [done|]. by destruct (authenticate _ _).
Qed.

Lemma core_or_other req : (∃ r, req = Core r) ∨ ∀ r, req ≠ Core r.
Proof. destruct req as [r| | | | | |]; [left; by exists r|by right..]. Qed.

(** The other routes, which are not probes. *)
Lemma serve_other auth hdr req w : (∀ r, req ≠ Core r) → serve auth hdr req w =
  match authenticate auth (bearer hdr) with
  | Some p => served_handle svc send env graphql fuel files open_existing (Some p) req w
  | None => (plain_response (mkResponse UNAUTHORIZED NoBody), w)
  end.
Proof. intros Hr. unfold served_router. destruct req as [r| | | | | |]; [by destruct (Hr r)|done..]. Qed.

Lemma sync_moves_tickets p conn w resp w' :
  keyed (contents w) → served_addressed kok hok (TicketSync conn) →
  ticket_sync_route svc send env graphql fuel p conn w = (resp, w') →
  w' = w ∨ allows p Write "tickets" = true ∧ tickets_only contents bl w w'.
Proof using RouteLaws0 send_apart.
  intros Hk Hok. unfold ticket_sync_route. destruct (allows p Write "tickets"); [|intros [= _ <-]; by left].
  cbn [negb]. destruct (svc_ticket_sync _ _ _ _ _ _ _ w) as [r w1] eqn:Hrun. intros Heq.
  right. split; [done|].
  assert (w' = w1) as -> by (by destruct r as [|[]]; injection Heq).
  revert Hrun. apply (runs_result contents _ _ (λ _, True)); [|done].
  apply (runs_then contents _ (tickets_only_keyed contents bl) _ _ (λ _, True)); [by apply lifted|].
  intros src _. apply (runs_then contents _ (tickets_only_keyed contents bl) _ _ (λ _, True)).
  - apply runs_convert. by eapply stays_ingest.
  - intros o _. by apply lifted.
Qed.

Lemma graph_unmoved p req q w resp w' :
  keyed (contents w) → served_addressed kok hok req → graph_query_of req = Some q →
  served_handle svc send env graphql fuel files open_existing (Some p) req w = (resp, w') →
  unmoved contents bl w w'.
Proof using RouteLaws0.
  intros Hk Hok Hq. destruct req; try done; injection Hq as ->; cbn [served_handle];
    (eapply graph_route_unmoved; [done|]);
    first [by eapply unmoved_impact | by eapply unmoved_query].
Qed.

(** *** What the other routes show *)

Definition says_nothing (pl : ServedPayload) : Prop :=
  ∃ pl0, pl = Plain pl0 ∧ shown_records pl0 = [] ∧ shown_keys pl0 = [] ∧ shows_blobs pl0 = false.

Lemma graph_route_shows {A} p q (ask : string → string → string → M W CoreError A) json w resp w' :
  graph_route p q ask json w = (resp, w') →
  says_nothing (served_payload resp) ∨
  allows p Read (gq_repo q) = true ∧ ∃ items, served_payload resp = json items.
Proof.
  unfold graph_route, graph_authz. destruct (allows p Read (gq_repo q)); cbn [negb].
  - destruct (ask _ _ _ w) as [[items|e] w1]; intros [= <- _]; [right; eauto|left].
    by eexists; split_and!.
  - intros [= <- _]. left. by eexists; split_and!.
Qed.

Lemma sync_route_shows p conn w resp w' :
  ticket_sync_route svc send env graphql fuel p conn w = (resp, w') →
  says_nothing (served_payload resp) ∨ ∃ s, served_payload resp = JsonSummary s.
Proof.
  unfold ticket_sync_route. destruct (allows p Write "tickets"); cbn [negb].
  - destruct (svc_ticket_sync _ _ _ _ _ _ _ w) as [[s|[m|m]] w1]; intros [= <- _];
      [right; eauto|left..]; by eexists; split_and!.
  - intros [= <- _]. left. by eexists; split_and!.
Qed.

Lemma other_routes_show p req w resp w' :
  (∀ r, req ≠ Core r) →
  served_handle svc send env graphql fuel files open_existing (Some p) req w = (resp, w') →
  says_nothing (served_payload resp) ∨ (∃ s, served_payload resp = JsonSummary s) ∨
  shows_graph (served_payload resp) = true ∧
    ∃ q, graph_query_of req = Some q ∧ allows p Read (gq_repo q) = true.
Proof.
  intros Hne. destruct req as [r|conn|q|q|q|q|q]; [by destruct (Hne r)|..]; cbn [served_handle].
  { intros [?|?]%sync_route_shows; auto. }
  all: intros [?|(Ha & items & Hpl)]%graph_route_shows; [by left|right; right];
    rewrite Hpl; split; [done|]; by exists q.
Qed.

(** C14: writing takes the write scope.  Whatever a request to the daemon's HTTP routes
    asks (records, replication, purge, blobs, ticket sync, graph queries) and whoever
    sends it, if its token does not grant write on a namespace then no record of that
    namespace is created, edited, deleted or purged, and without write on [_blobs] no
    blob is added or removed.  A request that authenticates as nobody changes nothing
    and, unless it is a health probe, is answered 401.  The request names keys and a
    hash at which the stores keep their contract: [FsStore] does not at a blob hash
    that is a path, which can reach a record's file
    ([FsBlobs.blob_hash_reaches_records]). *)
Theorem requests_respect_write_scopes auth hdr req ns w resp w' :
  keyed (contents w) → served_addressed kok hok req → serve auth hdr req w = (resp, w') →
  (∀ p, authenticate auth (bearer hdr) = Some p → allows p Write ns = false) →
  (∀ k, key_namespace k = ns → contents w' !! k = contents w !! k) ∧
  (ns = BLOB_NS → bl w' = bl w) ∧
  (authenticate auth (bearer hdr) = None →
     contents w' = contents w ∧ bl w' = bl w ∧
     (req ≠ Core Healthz → req ≠ Core Readyz →
      resp = plain_response (mkResponse UNAUTHORIZED NoBody) ∧ w' = w)).
Proof using RouteLaws0 send_apart.
  intros Hk Hok Hrun Hns. destruct (core_or_other req) as [[r ->]|Hne].
  - rewrite serve_core in Hrun. destruct (router svc auth hdr r w) as [resp0 w0] eqn:Hr.
    injection Hrun as <- ->.
    destruct (router_write_scopes _ _ _ _ _ _ _ auth hdr r ns w resp0 w' Hk Hok Hr Hns)
      as (Hm & Hb & Hanon).
    split_and!; [done..|]. intros Hnone. destruct (Hanon Hnone) as (? & ? & H401).
    split_and!; [done..|]. intros Hh Hrz. destruct H401 as [-> ->]; [congruence..|done].
  - rewrite serve_other in Hrun by done.
    destruct (authenticate auth (bearer hdr)) as [p|]; [|by injection Hrun as <- <-].
    specialize (Hns p eq_refl). destruct (graph_query_of req) as [q|] eqn:Hq.
    + by destruct (graph_unmoved p req q w resp w' Hk Hok Hq Hrun) as [-> ->].
    + destruct req as [r|conn| | | | |]; try done; [by destruct (Hne r)|].
      destruct (sync_moves_tickets p conn w resp w' Hk Hok Hrun) as [->|[Ha (Ht & -> & _)]]; [done|].
      split_and!; [|done..]. intros k <-. apply Ht. intros Hk'. congruence.
Qed.

(** C15: reading takes the read scope.  Every record that a response of the daemon's
    HTTP routes carries is stored, and the request's token grants read on its
    namespace, except that a put or a delete that lost against a newer revision is
    answered with the current record to a caller that has write there; every listed
    key is of a namespace the token can read, also when the listing spans all
    namespaces; blob contents and hashes are those of stored blobs and take read on
    [_blobs]; an answer about a repository's graph takes read on the repository.  Off
    the replication routes, no tombstone and no tombstoned key is ever shown.  A
    request that authenticates as nobody is shown nothing.  The request names keys and
    a hash at which the stores keep their contract, as for writes. *)
Theorem responses_respect_read_scopes auth hdr req w resp w' :
  keyed (contents w) → served_addressed kok hok req → serve auth hdr req w = (resp, w') →
  let may p a ns := authenticate auth (bearer hdr) = Some p ∧ allows p a ns = true in
  let pl := served_payload resp in
  (∀ r, r ∈ served_records pl →
     contents w !! rec_key r = Some r ∧
     (is_tombstone r = true → on_raw_route req = true) ∧
     ∃ p, may p Read (key_namespace (rec_key r)) ∨
          conditionally_writes req = true ∧ may p Write (key_namespace (rec_key r))) ∧
  (∀ k, k ∈ served_keys pl →
     (∃ p, may p Read (key_namespace k)) ∧
     ∃ r, contents w !! k = Some r ∧ (is_tombstone r = true → on_raw_route req = true)) ∧
  (∀ c, pl = Plain (OctetStream c) →
     (∃ p, may p Read BLOB_NS) ∧
     ∃ h t, req = Core (GetBlob h) ∧ bl w !! mkHash h = Some (c, t)) ∧
  (∀ l, pl = Plain (JsonBlobEntries l) →
     (∃ p, may p Read BLOB_NS) ∧ ∀ e, e ∈ l → is_Some (bl w !! be_hash e)) ∧
  (shows_graph pl = true →
     ∃ p q, graph_query_of req = Some q ∧ may p Read (gq_repo q)).
Proof using RouteLaws0.
  intros Hk Hok Hrun may pl. destruct (core_or_other req) as [[r ->]|Hne].
  - rewrite serve_core in Hrun. destruct (router svc auth hdr r w) as [resp0 w0] eqn:Hr.
    injection Hrun as <- ->. subst pl. cbn [served_payload plain_response served_records served_keys
      shows_graph on_raw_route conditionally_writes].
    destruct (router_read_scopes _ _ _ _ _ _ _ auth hdr r w resp0 w' Hk Hok Hr)
      as (Hrecs & Hkeys & Hblobs).
    split_and!; [exact Hrecs|exact Hkeys| | |done].
    + intros c [= Hc]. rewrite Hc in Hblobs. destruct (Hblobs eq_refl) as (Hp & h & t & -> & Hb).
      split; [exact Hp|]. by exists h, t.
    + intros l [= Hl]. rewrite Hl in Hblobs. by destruct (Hblobs eq_refl).
  - assert (served_records pl = [] ∧ served_keys pl = [] ∧ (∀ c, pl ≠ Plain (OctetStream c)) ∧
      (∀ l, pl ≠ Plain (JsonBlobEntries l)) ∧
      (shows_graph pl = true → ∃ p q, graph_query_of req = Some q ∧ may p Read (gq_repo q)))
      as (Hr & Hkeys & Hc & Hl & Hg).
    2: { rewrite Hr, Hkeys. split_and!; [by intros ? ?%elem_of_nil..| | |done];
           intros x Hx; by (destruct (Hc x) || destruct (Hl x)). }
    rewrite serve_other in Hrun by done. subst pl may.
    destruct (authenticate auth (bearer hdr)) as [p|]; [|by injection Hrun as <- <-].
    destruct (other_routes_show p req w resp w' Hne Hrun)
      as [(pl & -> & Hr & Hkeys & Hb)|[[x ->]|(Hg & q & Hq & Ha)]].
    + cbn [served_records served_keys shows_graph]. rewrite Hr, Hkeys.
      split_and!; [done..| | |done]; by intros x [= ->].
    + by split_and!.
    + destruct (served_payload resp); try done; split_and!; try done; intros _; by exists p, q.
Qed.
End scopes.

(** ** A daemon to ask *)

Section witnesses.
#[local] Existing Instance sample_hash.
#[local] Existing Instance sample_purge_serde.
#[local] Existing Instance sample_serde.
#[local] Existing Instance sample_slices.
#[local] Existing Instance sample_sqlite.
#[local] Existing Instance wire_serde.
#[local] Existing Instance wire_values.
#[local] Existing Instance wire_urls.
#[local] Existing Instance lowercase_wire.
#[local] Existing Instance title_codec.
#[local] Existing Instance quoting.
#[local] Instance sample_routes_any :
  RouteLaws sample_service (λ w, w.1.1) (λ w, w.2) (λ w, w.1.2) 32 any_key any_hash :=
  sample_routes any_key any_hash I.

(** GitHub answers every request with a board of one issue. *)
Definition one_issue : GqlItem :=
  mkGqlItem None (Some (mkGqlContent "Issue" (Some 7%N) (Some "seven") None (Some "o/r")
    None None None)).
#[local] Instance one_issue_serde : GqlSerde := {
  board_from_slice _ := Ok (mkGqlResponse (Some (mkGqlItems false None [one_issue])) []);
  value_from_slice _ := Ok WNull;
  lookup_from_value _ := Err "not used"
}.

Definition github (r : TicketRequest) : M sample_world string TicketResponse :=
  λ w, (Ok (mkTicketResponse 200 (λ _, None) (Ok [])), w).

Definition board_connection : Connection :=
  mkConnection "board" "github-projects" "org" 4 "TOKEN" ∅ ∅.

(** The bot may sync tickets; mallory may read [ns]. *)
Definition routes_auth : Auth :=
  Enabled (<["b" := Principal_new "bot" [] ["tickets"]]>
             {["m" := Principal_new "mallory" ["ns"] ["other"]]}).

(** A view of [ns] was indexed. *)
Definition ns_disk : gmap string ViewFiles :=
  {[ view_db_path "/graph" "ns" "main" := mkViewFiles (Some empty_db) None None ]}.
Definition graph_service : Service sample_world :=
  mkService store_a sample_blobs (Some "/graph") DEFAULT_MAX_BLOB_SIZE.

#[local] Instance graph_routes_any :
  RouteLaws graph_service (λ w, w.1.1) (λ w, w.2) (λ w, w.1.2) 32 any_key any_hash.
Proof.
  exact (lawful_routes graph_service (λ w, w.1.1) (λ w, w.2) (λ w, w.1.2) 32 any_key any_hash
    (StoreLaws0 := store_a_laws (λ p, (p.2, p.1)))
    (BlobStoreLaws0 := sample_blobs_laws (λ p, (p.1, p.2))) I).
Qed.

Definition served (token : string) (req : ServedRequest) (w : sample_world) :
    ServedResponse * sample_world :=
  served_router graph_service github (λ _, Some "secret") (mkTicketUrl GRAPHQL_URL (Some []) []) 2
    ns_disk Ok routes_auth (Some ("Bearer " +:+ token)) req w.

Lemma served_eq token req w : served token req w = ((served token req w).1, (served token req w).2).
Proof. apply surjective_pairing. Qed.

(** Mallory's put in a namespace she may only read changes nothing there; the bot's
    sync stores the ticket and leaves that namespace alone. *)
Lemma requests_respect_write_scopes_witness :
  (served "m" (Core (sample_put "alice")) (world_of sample_live)).2.1.1 !! sample_key
    = Some sample_live ∧
  (served "b" (TicketSync board_connection) (world_of sample_live)).2.1.1 !! sample_key
    = Some sample_live ∧
  is_Some ((served "b" (TicketSync board_connection) (world_of sample_live)).2.1.1
    !! mkKey "tickets" "github" "board/o/r#7").
Proof.
  split_and!; [| |vm_compute; by eexists].
  - refine (proj1 (requests_respect_write_scopes graph_service github _ _ _ ns_disk Ok
      (λ w, w.1.1) (λ w, w.2) (λ w, w.1.2) 32 any_key any_hash ltac:(by intros ? ?) routes_auth _
      (Core (sample_put "alice")) "ns" (world_of sample_live) _ _ (keyed_singleton sample_live) I
      (served_eq "m" _ _) _) sample_key eq_refl).
    intros p [= <-]. reflexivity.
  - refine (proj1 (requests_respect_write_scopes graph_service github _ _ _ ns_disk Ok
      (λ w, w.1.1) (λ w, w.2) (λ w, w.1.2) 32 any_key any_hash ltac:(by intros ? ?) routes_auth _
      (TicketSync board_connection) "ns" (world_of sample_live) _ _ (keyed_singleton sample_live)
      (λ _, I) (served_eq "b" _ _) _) sample_key eq_refl).
    intros p [= <-]. reflexivity.
Defined.

(** Mallory can read the record, which is no tombstone, and ask about [ns]. *)
Lemma responses_respect_read_scopes_witness :
  let get := Core (GetRecord "ns" "col" "id") in
  let ask := GraphDefinitions (mkGraphQuery "ns" "main" "f") in
  served_records (served_payload (served "m" get (world_of sample_live)).1) = [sample_live] ∧
  (is_tombstone sample_live = true → on_raw_route get = true) ∧
  shows_graph (served_payload (served "m" ask (world_of sample_live)).1) = true ∧
  ∃ p q, graph_query_of ask = Some q ∧
    authenticate routes_auth (Some "m") = Some p ∧ allows p Read (gq_repo q) = true.
Proof.
  intros get ask.
  assert (shows_graph (served_payload (served "m" ask (world_of sample_live)).1) = true) as Hshow
    by (vm_compute; reflexivity).
  split_and!; [vm_compute; reflexivity| |exact Hshow|].
  - refine (proj1 (proj2 (proj1 (responses_respect_read_scopes graph_service github _ _ _ ns_disk Ok
      (λ w, w.1.1) (λ w, w.2) (λ w, w.1.2) 32 any_key any_hash routes_auth _ get
      (world_of sample_live) _ _ (keyed_singleton sample_live) I (served_eq "m" _ _))
      sample_live _))).
    vm_compute. left.
  - exact (proj2 (proj2 (proj2 (proj2 (responses_respect_read_scopes graph_service github _ _ _
      ns_disk Ok (λ w, w.1.1) (λ w, w.2) (λ w, w.1.2) 32 any_key any_hash routes_auth _ ask
      (world_of sample_live) _ _ (keyed_singleton sample_live) I (served_eq "m" _ _))))) Hshow).
Defined.
End witnesses.
