(* ===== verification/Extract.v ===== *)
(** * Extract: trees, and what their nodes define or call

    A tree-sitter tree as [gonzalo-graph]'s [builder.rs] uses it: nodes with a kind,
    their text, the rows they span and the field they have in their parent; and the
    language table: which nodes define a symbol and its name, which are calls, what they
    call, whether through a receiver, and under which qualifier.  Which tree a source has
    is the grammar's.  A function that looks at a node's ancestors is given them, the
    nearest first. *)

From S2P Require Export Text CodeModel.

(** A node's own data.  [n_text] is [utf8_text], which is [None] where the bytes are not
    UTF-8; [n_id] tells the nodes of a tree apart; rows count from zero. *)
Record node_info := mkInfo {
  n_kind : string;
  n_named : bool;
  n_field : option string;
  n_text : option string;
  n_start_row : N;
  n_end_row : N;
  n_id : N
}.

Unset Elimination Schemes.
Inductive node := Node (info : node_info) (cs : list node).
Set Elimination Schemes.

Section node_ind.
Context (P : node → Prop) (step : ∀ i cs, Forall P cs → P (Node i cs)).

Fixpoint node_ind (n : node) : P n :=
  match n with
  | Node i cs => step i cs
      ((fix go (cs : list node) : Forall P cs :=
          match cs with
          | [] => Forall_nil_2 _
          | c :: cs => Forall_cons_2 _ _ _ (node_ind c) (go cs)
          end) cs)
  end.
End node_ind.

(** ** What a node says of itself *)

Definition info_of (n : node) : node_info := match n with Node i _ => i end.
Definition children (n : node) : list node := match n with Node _ cs => cs end.

Definition kind (n : node) : string := n_kind (info_of n).
Definition node_text (n : node) : option string := n_text (info_of n).
Definition node_id (n : node) : N := n_id (info_of n).

(** Lines count from one. *)
Definition start_line (n : node) : N := n_start_row (info_of n) + 1.
Definition end_line (n : node) : N := n_end_row (info_of n) + 1.

(** [matches!(node.kind(), ..)]. *)
Definition kind_in (kinds : list string) (n : node) : bool := bool_decide (kind n ∈ kinds).

Definition in_field (name : string) (n : node) : bool :=
  bool_decide (n_field (info_of n) = Some name).

(** ** Children *)

(** [f] of the first child in the field, with [f] applied where a recursion sees that it
    is applied to a child. *)
Definition on_field {A} (f : node → A) (name : string) : list node → option A :=
  fix go cs :=
    match cs with
    | [] => None
    | c :: cs => if in_field name c then Some (f c) else go cs
    end.

Definition child_by_field_name (name : string) (n : node) : option node :=
  on_field id name (children n).

Definition children_by_field_name (name : string) (n : node) : list node :=
  filter (λ c, in_field name c = true) (children n).

Definition named_children (n : node) : list node :=
  filter (λ c, n_named (info_of c) = true) (children n).

(** [node.named_child(0)]. *)
Definition first_named_child (n : node) : option node := head (named_children n).

(** The text of the child in a field. *)
Definition field_text (name : string) (n : node) : option string :=
  c ← child_by_field_name name n; node_text c.

Definition find_child (p : node → bool) (cs : list node) : option node :=
  head (filter (λ c, p c = true) cs).

Lemma on_field_child {A} (f : node → A) name n :
  on_field f name (children n) = f <$> child_by_field_name name n.
Proof.
  unfold child_by_field_name. induction (children n) as [|c cs IH]; [done|]. cbn.
  by destruct (in_field name c).
Qed.

Lemma on_field_some {A} (f : node → A) name cs x : on_field f name cs = Some x →
  ∃ c, c ∈ cs ∧ in_field name c = true ∧ x = f c.
Proof.
  induction cs as [|c cs IH]; [done|]. cbn. destruct (in_field name c) eqn:Hc.
  - intros [= <-]. exists c. by split; [left|].
  - intros (c' & ? & ?)%IH. exists c'. by split; [right|].
Qed.

(** ** All the nodes *)

(** A node and everything under it, in the order of the source. *)
Fixpoint preorder (n : node) : list node :=
  match n with Node _ cs => n :: concat (map preorder cs) end.

Lemma preorder_eq n : preorder n = n :: concat (preorder <$> children n).
Proof. by destruct n. Qed.

Lemma preorder_self n : n ∈ preorder n.
Proof. rewrite preorder_eq. by left. Qed.

Lemma elem_of_preorder n m : m ∈ preorder n ↔ m = n ∨ ∃ c, c ∈ children n ∧ m ∈ preorder c.
Proof.
  rewrite preorder_eq, elem_of_cons, list_elem_of_In, in_concat. f_equiv. split.
  - intros (l & (c & -> & Hc)%list_elem_of_In%list_elem_of_fmap & Hm%list_elem_of_In). by exists c.
  - intros (c & Hc & Hm). exists (preorder c).
    split; apply list_elem_of_In; [by apply list_elem_of_fmap_2|done].
Qed.

Definition assoc {A} (k : string) (table : list (string * A)) : option A :=
  snd <$> head (filter (λ e, e.1 = k) table).

(** ** Identifiers *)

Definition is_identifier : node → bool := kind_in ["identifier"; "simple_identifier"].

(** The last identifier in the subtree, depth first. *)
Fixpoint last_identifier (n : node) : option string :=
  match n with
  | Node i cs =>
      foldl (λ result c, match last_identifier c with Some name => Some name | None => result end)
        (if is_identifier n then node_text n else None) cs
  end.

Definition trailing_path_segment (n : node) : option string :=
  match field_text "name" n with Some t => Some t | None => node_text n end.

(** [rsplit("::").next()] of a name, if it has a separator. *)
Fixpoint after_colons (s : string) : option string :=
  match s with
  | "" => None
  | String a s' =>
      match after_colons s', s' with
      | Some r, _ => Some r
      | None, String b r =>
          if decide (a = Ascii.ascii_of_byte Byte.x3a ∧ b = Ascii.ascii_of_byte Byte.x3a) then Some r else None
      | None, "" => None
      end
  end.

Definition owner_key (name : string) : string :=
  let base := trim (default name (head (split_char (Ascii.ascii_of_byte Byte.x3c) name))) in
  trim (default base (after_colons base)).

Definition establishes_ownership (k : SymbolKind) : bool :=
  match k with
  | Impl | Class_ | Interface | Trait | Struct | Enum | Module_ => true
  | _ => false
  end.

(** Named or not. *)
Definition child_of_kind (k : string) (n : node) : option node := find_child (kind_in [k]) (children n).

Definition name_field (n : node) : option string := field_text "name" n.

Definition name_or_key (n : node) : option string :=
  match name_field n with Some t => Some t | None => field_text "key" n end.

(** ** Elixir *)

Definition ELIXIR_DEFS : list string := ["def"; "defp"; "defmacro"; "defmacrop"; "defmodule"].

Definition elixir_target_name (n : node) : option string :=
  target ← child_by_field_name "target" n; last_identifier target.

Definition elixir_defined_name (n : node) : option string :=
  args ← child_of_kind "arguments" n;
  head ← first_named_child args;
  if kind_in ["call"] head then elixir_target_name head
  else match last_identifier head with Some name => Some name | None => node_text head end.

Definition defines_elixir (n : node) : bool :=
  match elixir_target_name n with Some t => bool_decide (t ∈ ELIXIR_DEFS) | None => false end.

Definition elixir_is_def_head (above : list node) (n : node) : bool :=
  match above with
  | args :: rest =>
      kind_in ["arguments"] args && bool_decide (node_id <$> first_named_child args = Some (node_id n)) &&
      match rest with
      | def_call :: _ => kind_in ["call"] def_call && defines_elixir def_call
      | [] => false
      end
  | [] => false
  end.

(** ** JavaScript and its relatives *)

#[export] Instance Language_eq_dec : EqDecision Language.
Proof. solve_decision. Defined.

Definition is_js (l : Language) : bool := bool_decide (l ∈ [JavaScript; TypeScript; Tsx]).

(** [starts_with(char::is_uppercase)], which is Unicode's. *)
Class Uppercase := starts_uppercase : string → bool.

Definition js_is_wrapper_call `{Uppercase} (call : node) : bool :=
  match child_by_field_name "function" call with
  | None => false
  | Some callee =>
      if kind_in ["identifier"] callee then true
      else if kind_in ["member_expression"] callee then
        match child_by_field_name "object" callee with
        | Some object =>
            kind_in ["identifier"] object &&
            match node_text object with Some name => starts_uppercase name | None => false end
        | None => false
        end
      else false
  end.

Fixpoint js_binds_a_function `{Uppercase} (depth : nat) (n : node) : bool :=
  if kind_in ["arrow_function"; "function_expression"; "generator_function"] n then true
  else
    match depth with
    | 0 => false
    | S depth =>
        kind_in ["call_expression"] n && js_is_wrapper_call n &&
        match child_by_field_name "arguments" n with
        | Some args => existsb (js_binds_a_function depth) (named_children args)
        | None => false
        end
    end.

Definition js_item_kind `{Uppercase} (n : node) : option SymbolKind :=
  if kind_in ["function_declaration"; "generator_function_declaration"; "method_definition"] n
  then Some Function
  else if kind_in ["class_declaration"; "abstract_class_declaration"] n then Some Class_
  else if kind_in ["variable_declarator"; "public_field_definition"; "pair"] n then
    value ← child_by_field_name "value" n;
    if js_binds_a_function 3 value then Some Function else None
  else None.

(** ** Swift, Kotlin and C *)

Definition swift_type_kind (n : node) : SymbolKind :=
  match kind <$> child_by_field_name "declaration_kind" n with
  | Some "struct" => Struct
  | Some "enum" => Enum
  | _ => Class_
  end.

Definition kotlin_class_kind (n : node) : SymbolKind :=
  if existsb (kind_in ["interface"]) (children n) then Interface else Class_.

Definition c_item_kind (k : string) : option SymbolKind :=
  assoc k [("function_definition", Function); ("struct_specifier", Struct); ("enum_specifier", Enum);
           ("type_definition", TypeAlias)].

(** The chain of [declarator] fields down to a name. *)
Fixpoint c_declarator_name (n : node) : option string :=
  match n with
  | Node i cs =>
      if kind_in ["identifier"; "field_identifier"; "type_identifier"; "qualified_identifier"] n
      then node_text n
      else mjoin (on_field c_declarator_name "declarator" cs)
  end.

(** ** Items *)

Definition or_else {A} (o o' : option A) : option A := match o with Some x => Some x | None => o' end.

Definition item_kind `{Uppercase} (l : Language) (n : node) : option SymbolKind :=
  let by_kind table := assoc (kind n) table in
  match l with
  | Rust => by_kind [("function_item", Function); ("struct_item", Struct); ("enum_item", Enum);
      ("trait_item", Trait); ("impl_item", Impl); ("mod_item", Module_); ("const_item", Const);
      ("static_item", Static); ("type_item", TypeAlias)]
  | Python => by_kind [("function_definition", Function); ("class_definition", Class_)]
  | JavaScript => js_item_kind n
  | TypeScript | Tsx => or_else (js_item_kind n)
      (by_kind [("interface_declaration", Interface); ("type_alias_declaration", TypeAlias);
                ("enum_declaration", Enum)])
  | Go => by_kind [("function_declaration", Function); ("method_declaration", Function);
      ("struct_type", Struct); ("interface_type", Interface); ("const_spec", Const); ("var_spec", Static)]
  | Java => by_kind [("class_declaration", Class_); ("interface_declaration", Interface);
      ("enum_declaration", Enum); ("method_declaration", Function); ("constructor_declaration", Function)]
  | CSharp => by_kind [("class_declaration", Class_); ("interface_declaration", Interface);
      ("struct_declaration", Struct); ("enum_declaration", Enum); ("method_declaration", Function);
      ("constructor_declaration", Function)]
  | C => c_item_kind (kind n)
  | Cpp => or_else (c_item_kind (kind n))
      (by_kind [("class_specifier", Class_); ("namespace_definition", Module_)])
  | Ruby => by_kind [("method", Function); ("singleton_method", Function); ("class", Class_);
      ("module", Module_)]
  | Php => by_kind [("function_definition", Function); ("method_declaration", Function);
      ("class_declaration", Class_); ("interface_declaration", Interface); ("trait_declaration", Trait);
      ("enum_declaration", Enum)]
  | Bash => by_kind [("function_definition", Function)]
  | Kotlin => by_kind [("function_declaration", Function); ("class_declaration", kotlin_class_kind n);
      ("object_declaration", Class_)]
  | Swift => by_kind [("function_declaration", Function); ("class_declaration", swift_type_kind n);
      ("protocol_declaration", Interface)]
  | Lua => by_kind [("function_declaration", Function)]
  | Scala => by_kind [("function_definition", Function); ("function_declaration", Function);
      ("class_definition", Class_); ("object_definition", Class_); ("trait_definition", Trait);
      ("enum_definition", Enum)]
  | Elixir => t ← elixir_target_name n;
      assoc t [("defmodule", Module_); ("def", Function); ("defp", Function); ("defmacro", Function);
               ("defmacrop", Function)]
  end.

Definition item_name (l : Language) (above : list node) (n : node) (k : SymbolKind) : option string :=
  match l, k with
  | Rust, Impl => field_text "type" n
  | Go, (Struct | Interface) => p ← head above; field_text "name" p
  | (C | Cpp), (Function | TypeAlias) => c_declarator_name n
  | (JavaScript | TypeScript | Tsx), Function => name_or_key n
  | Elixir, _ => elixir_defined_name n
  | _, _ => name_field n
  end.

(** ** Calls *)

Definition is_call (l : Language) (k : string) : bool :=
  bool_decide (k ∈
    match l with
    | Rust | JavaScript | TypeScript | Tsx | Go | C | Cpp => ["call_expression"]
    | Python => ["call"]
    | Java => ["method_invocation"]
    | CSharp => ["invocation_expression"]
    | Ruby => ["call"]
    | Php => ["function_call_expression"; "member_call_expression"; "nullsafe_member_call_expression";
              "scoped_call_expression"]
    | Bash => ["command"]
    | Kotlin | Swift | Scala => ["call_expression"]
    | Lua => ["function_call"]
    | Elixir => ["call"]
    end).

Definition by_call_node (l : Language) (call : node) : bool :=
  match l with
  | Php => kind_in ["member_call_expression"; "nullsafe_member_call_expression"] call
  | Java => bool_decide (is_Some (child_by_field_name "object" call))
  | Ruby => bool_decide (is_Some (child_by_field_name "receiver" call))
  | _ => false
  end.

Definition member_like (l : Language) (callee : node) : bool :=
  match l with
  | Rust | Scala | C | Cpp => kind_in ["field_expression"] callee
  | Python => kind_in ["attribute"] callee
  | JavaScript | TypeScript | Tsx => kind_in ["member_expression"] callee
  | CSharp => kind_in ["member_access_expression"] callee
  | Kotlin | Swift => kind_in ["navigation_expression"] callee
  | Lua => kind_in ["dot_index_expression"; "method_index_expression"] callee
  | _ => false
  end.

Definition callee_kind (l : Language) (call : node) : RefKind :=
  if by_call_node l call then Method
  else
    let callee := match l with
                  | Kotlin | Swift => first_named_child call
                  | Lua => child_by_field_name "name" call
                  | _ => child_by_field_name "function" call
                  end in
    match callee with
    | None => Free
    | Some callee => if member_like l callee then Method else Free
    end.

Definition callee_qualifier (l : Language) (call : node) : option string :=
  let scoped path_kind scope_field :=
    callee ← child_by_field_name "function" call;
    if kind_in [path_kind] callee
    then scope ← child_by_field_name scope_field callee; trailing_path_segment scope
    else None in
  match l with
  | Php =>
      if kind_in ["scoped_call_expression"] call
      then scope ← child_by_field_name "scope" call; trailing_path_segment scope
      else None
  | Rust => scoped "scoped_identifier" "path"
  | Cpp => scoped "qualified_identifier" "scope"
  | _ => None
  end.

(** The field that holds the name, by the kind of the callee; its text otherwise. *)
Definition call_name (l : Language) (func : node) : option string :=
  let by_kind table :=
    match assoc (kind func) table with Some field => field_text field func | None => node_text func end in
  match l with
  | Rust => by_kind [("scoped_identifier", "name"); ("field_expression", "field")]
  | Python => by_kind [("attribute", "attribute")]
  | JavaScript | TypeScript | Tsx => by_kind [("member_expression", "property")]
  | Go => by_kind [("selector_expression", "field")]
  | CSharp => by_kind [("member_access_expression", "name")]
  | C | Cpp => by_kind [("field_expression", "field"); ("qualified_identifier", "name")]
  | Scala => last_identifier func
  | _ => node_text func
  end.

Definition function_name (l : Language) (call : node) : option string :=
  func ← child_by_field_name "function" call; call_name l func.

Definition callee_name (l : Language) (above : list node) (call : node) : option string :=
  match l with
  | Java | Bash => field_text "name" call
  | Ruby => field_text "method" call
  | Kotlin | Swift => callee ← first_named_child call; last_identifier callee
  | Lua => n ← child_by_field_name "name" call; last_identifier n
  | Php => if kind_in ["function_call_expression"] call then function_name l call
           else field_text "name" call
  | Elixir =>
      name ← elixir_target_name call;
      if negb (bool_decide (name ∈ ELIXIR_DEFS)) && negb (elixir_is_def_head above call)
      then Some name else None
  | _ => function_name l call
  end.

(** ** Names a call mentions *)

(** The bare names among the arguments, one wrapper deep, with their lines. *)
Definition bare_argument (child : node) : option node :=
  if is_identifier child then Some child
  else if decide (length (named_children child) = 1)
  then leaf ← first_named_child child; if is_identifier leaf then Some leaf else None
  else None.

Definition named_line (n : node) : option (string * N) :=
  name ← node_text n; Some (name, start_line n).

Definition value_args (call : node) : list (string * N) :=
  match child_by_field_name "arguments" call with
  | None => []
  | Some args => omap (λ child, leaf ← bare_argument child; named_line leaf) (named_children args)
  end.

(** A parenthesised token tree. *)
Definition is_argument_tree (n : node) : bool :=
  kind_in ["token_tree"] n && match node_text n with Some t => starts_with "(" t | None => false end.

(** The identifiers followed by their arguments, in a list of siblings. *)
Fixpoint token_calls (cs : list node) : list (string * N) :=
  match cs with
  | [] => []
  | child :: cs =>
      match cs with
      | next :: _ =>
          if kind_in ["identifier"] child && is_argument_tree next
          then option_list (named_line child) ++ token_calls cs
          else token_calls cs
      | [] => []
      end
  end.

Definition macro_arg_calls (l : Language) (n : node) : list (string * N) :=
  if bool_decide (l = Rust) && kind_in ["token_tree"] n then token_calls (children n) else [].

Definition module_binding_name `{Uppercase} (l : Language) (n : node) : option string :=
  if is_js l && kind_in ["variable_declarator"; "pair"; "public_field_definition"] n then
    value ← child_by_field_name "value" n;
    if js_binds_a_function 3 value then None else name_or_key n
  else None.
