(* ===== verification/ExtractWalk.v ===== *)
(** * ExtractWalk: imports, receivers, and the walk from a tree to a slice

    Models the imports of [gonzalo-graph]'s [builder.rs], language by language, the types
    that the body of a Rust function writes down for the receivers of its calls, and
    [walk] and [build].  The parser is a parameter: it gives the root of a source's tree,
    or fails. *)

From S2P Require Export Extract.

(** ** Paths as text *)

(** [trim_matches] of ASCII characters. *)
Definition trim_matches (chars : list Byte.byte) (s : string) : string :=
  let ws := (λ b, [b]) <$> chars in
  let b := strip_all (String.length s) ws (bytes_of_string s) in
  string_of_bytes (reverse (strip_all (length b) ws (reverse b))).

Definition path_stem (part : string) : string :=
  match rsplit_once dot_char part with Some (stem, _) => stem | None => part end.

(** The parts between slashes, but for [dropped] ones, without extensions. *)
Definition path_segments (dropped : list string) (s : string) : list string :=
  filter (λ p, p ≠ "") (path_stem <$> filter (λ p, p ∉ dropped) (split_char slash_char s)).

Definition include_segments (raw : string) : list string :=
  path_segments [""; "."; ".."] (trim_matches [Byte.x22; Byte.x3c; Byte.x3e] raw).

Definition js_module_segments (raw : string) : list string :=
  path_segments [""; "."; ".."; "@"; "~"] (trim_matches [Byte.x27; Byte.x22; Byte.x60] raw).

(** ** Rust *)

(** Relative markers name no module. *)
Fixpoint rust_path_segments (n : node) : list string :=
  match n with
  | Node i cs =>
      if kind_in ["scoped_identifier"] n then
        default [] (on_field rust_path_segments "path" cs) ++ option_list (field_text "name" n)
      else if kind_in ["crate"; "self"; "super"] n then []
      else match node_text n with Some t => if contains ":" t then [] else [t] | None => [] end
  end.

Definition import_at (line : N) (path : list string) (name : string) : Import := mkImport name path 0 line.

(** A [use] tree under a prefix. *)
Fixpoint collect_rust_uses (n : node) (prefix : list string) : list Import :=
  match n with
  | Node i cs =>
      let line := start_line n in
      if kind_in ["scoped_identifier"] n then
        let segments := rust_path_segments n in
        option_list (import_at line (prefix ++ removelast segments) <$> last segments)
      else if kind_in ["use_as_clause"] n then
        let segments := default [] (on_field rust_path_segments "path" cs) in
        option_list (import_at line (prefix ++ removelast segments) <$> field_text "alias" n)
      else if kind_in ["scoped_use_list"] n then
        let path := prefix ++ default [] (on_field rust_path_segments "path" cs) in
        default [] (on_field (λ list, collect_rust_uses list path) "list" cs)
      else if kind_in ["use_list"] n then
        concat (map (λ c, if n_named (info_of c) then collect_rust_uses c prefix else []) cs)
      else if kind_in ["identifier"] n then option_list (import_at line prefix <$> node_text n)
      else []
  end.

Definition rust_imports (n : node) : list Import :=
  if kind_in ["use_declaration"] n
  then default [] ((λ argument, collect_rust_uses argument []) <$> child_by_field_name "argument" n)
  else [].

(** ** Python *)

Fixpoint python_module_segments (n : node) : list string :=
  match n with
  | Node i cs =>
      concat (map (λ c,
        if negb (n_named (info_of c)) then []
        else if kind_in ["identifier"] c then option_list (node_text c)
        else if kind_in ["dotted_name"] c then python_module_segments c
        else []) cs)
  end.

Fixpoint count_char (c : Ascii.ascii) (s : string) : nat :=
  match s with
  | "" => 0
  | String a s => (if decide (a = c) then 1 else 0) + count_char c s
  end.

Definition import_depth (module_name : option node) : nat :=
  match
    (m ← module_name;
     if kind_in ["relative_import"] m then prefix ← child_of_kind "import_prefix" m; node_text prefix else None)
  with
  | Some dots => count_char dot_char dots
  | None => 0
  end.

Definition python_import_name (child : node) : option string :=
  if kind_in ["aliased_import"] child then field_text "alias" child else node_text child.

Definition python_imports (n : node) : list Import :=
  if kind_in ["import_from_statement"] n then
    let module_name := child_by_field_name "module_name" n in
    let path := default [] (python_module_segments <$> module_name) in
    (λ name, mkImport name path (import_depth module_name) (start_line n)) <$>
      omap python_import_name (children_by_field_name "name" n)
  else [].

(** ** Java and Kotlin *)

Fixpoint java_path_segments (n : node) : list string :=
  match n with
  | Node i cs =>
      if kind_in ["scoped_identifier"] n then
        default [] (on_field java_path_segments "scope" cs) ++ option_list (field_text "name" n)
      else match node_text n with Some t => if contains "." t then [] else [t] | None => [] end
  end.

Definition java_imports (n : node) : list Import :=
  if kind_in ["import_declaration"] n then
    match child_of_kind "asterisk" n, or_else (child_of_kind "scoped_identifier" n) (child_of_kind "identifier" n) with
    | None, Some path =>
        let segments := java_path_segments path in
        option_list (import_at (start_line n) (removelast segments) <$> last segments)
    | _, _ => []
    end
  else [].

Definition ends_with (suffix s : string) : bool :=
  bool_decide (string_of_bytes (drop (String.length s - String.length suffix) (bytes_of_string s)) = suffix).

Definition kotlin_imports (n : node) : list Import :=
  if kind_in ["import"] n then
    if match node_text n with Some t => ends_with ".*" (trim_end t) | None => false end then []
    else
      match child_of_kind "qualified_identifier" n with
      | None => []
      | Some qualified =>
          let segments := omap node_text (named_children qualified) in
          let alias := a ← find_child (kind_in ["identifier"]) (named_children n); node_text a in
          option_list (import_at (start_line n) (removelast segments) <$> or_else alias (last segments))
      end
  else [].

(** ** C, and the JavaScript family *)

(** An include brings in a file, and no name. *)
Definition include_imports (n : node) : list Import :=
  if kind_in ["preproc_include"] n then
    let path := default [] (include_segments <$> field_text "path" n) in
    if decide (path = []) then [] else [import_at (start_line n) path ""]
  else [].

Definition require_source (declarator : node) : option (list string) :=
  value ← child_by_field_name "value" declarator;
  if kind_in ["call_expression"] value then
    callee ← child_by_field_name "function" value;
    if kind_in ["identifier"] callee && bool_decide (node_text callee = Some "require") then
      args ← child_by_field_name "arguments" value;
      argument ← first_named_child args;
      if kind_in ["string"] argument then
        text ← node_text argument;
        let segments := js_module_segments text in
        if decide (segments = []) then None else Some segments
      else None
    else None
  else None.

Definition require_property (child : node) : option string :=
  if kind_in ["shorthand_property_identifier_pattern"] child then node_text child
  else if kind_in ["pair_pattern"] child then field_text "value" child
  else None.

Definition require_bound_names (declarator : node) : list string :=
  match child_by_field_name "name" declarator with
  | None => []
  | Some pattern =>
      if kind_in ["identifier"] pattern then option_list (node_text pattern)
      else if kind_in ["object_pattern"] pattern then omap require_property (named_children pattern)
      else []
  end.

Fixpoint collect_js_import_names (n : node) (path : list string) (line : N) : list Import :=
  match n with
  | Node i cs =>
      concat (map (λ c,
        if negb (n_named (info_of c)) then []
        else if kind_in ["import_specifier"] c then
          option_list (import_at line path <$>
            (name ← or_else (child_by_field_name "alias" c) (child_by_field_name "name" c); node_text name))
        else if kind_in ["identifier"] c then option_list (import_at line path <$> node_text c)
        else if kind_in ["import_clause"; "named_imports"] c then collect_js_import_names c path line
        else []) cs)
  end.

Definition js_imports (n : node) : list Import :=
  if kind_in ["variable_declarator"] n then
    match require_source n with
    | Some path => import_at (start_line n) path <$> require_bound_names n
    | None => []
    end
  else if kind_in ["import_statement"] n then
    collect_js_import_names n (default [] (js_module_segments <$> field_text "source" n)) (start_line n)
  else [].

Definition imports_at (l : Language) (n : node) : list Import :=
  match l with
  | Rust => rust_imports n
  | Python => python_imports n
  | Java => java_imports n
  | Kotlin => kotlin_imports n
  | C | Cpp => include_imports n
  | JavaScript | TypeScript | Tsx => js_imports n
  | _ => []
  end.

(** ** Types of receivers in Rust *)

Fixpoint rust_type_name (n : node) : option string :=
  match n with
  | Node i cs =>
      if kind_in ["type_identifier"] n then node_text n
      else if kind_in ["reference_type"] n then mjoin (on_field rust_type_name "type" cs)
      else if kind_in ["generic_type"; "scoped_type_identifier"] n then
        mjoin (or_else (on_field rust_type_name "type" cs) (on_field rust_type_name "name" cs))
      else None
  end.

Fixpoint rust_value_type (n : node) : option string :=
  match n with
  | Node i cs =>
      if kind_in ["call_expression"] n then
        func ← child_by_field_name "function" n;
        if kind_in ["scoped_identifier"] func
        then path ← child_by_field_name "path" func; trailing_path_segment path
        else None
      else if kind_in ["struct_expression"] n then
        name ← child_by_field_name "name" n; rust_type_name name
      else if kind_in ["reference_expression"] n then mjoin (on_field rust_value_type "value" cs)
      else None
  end.

Definition find_map {A B} (f : A → option B) (l : list A) : option B := head (omap f l).

Fixpoint first_type_identifier (n : node) : option string :=
  match n with
  | Node i cs =>
      if kind_in ["type_identifier"] n then node_text n else find_map first_type_identifier cs
  end.

Definition rust_type_parameters (func : node) : gset string :=
  match child_by_field_name "type_parameters" func with
  | Some params => list_to_set (omap first_type_identifier (named_children params))
  | None => ∅
  end.

(** The name and the type that a [let] writes, unless the type is a parameter. *)
Definition let_binding (generics : gset string) (n : node) : option (string * string) :=
  if kind_in ["let_declaration"] n then
    pattern ← child_by_field_name "pattern" n;
    if kind_in ["identifier"] pattern then
      name ← node_text pattern;
      ty ← or_else (t ← child_by_field_name "type" n; rust_type_name t)
                   (v ← child_by_field_name "value" n; rust_value_type v);
      if decide (ty ∈ generics) then None else Some (name, ty)
    else None
  else None.

Definition record_type (out : gmap string string) (binding : option (string * string)) : gmap string string :=
  match binding with Some (name, ty) => <[name := ty]> out | None => out end.

(** Nested functions have tables of their own. *)
Fixpoint collect_rust_lets (generics : gset string) (n : node) (out : gmap string string) : gmap string string :=
  match n with
  | Node i cs =>
      foldl (λ out c,
        if kind_in ["function_item"] c then out
        else collect_rust_lets generics c (record_type out (let_binding generics c))) out cs
  end.

Definition parameter_binding (generics : gset string) (param : node) : option (string * string) :=
  pattern ← child_by_field_name "pattern" param;
  ty ← child_by_field_name "type" param;
  name ← node_text pattern;
  ty ← rust_type_name ty;
  if decide (ty ∈ generics) then None else Some (name, ty).

Definition rust_receiver_types (func : node) : gmap string string :=
  let generics := rust_type_parameters func in
  let out :=
    match child_by_field_name "parameters" func with
    | Some params => foldl record_type ∅ (parameter_binding generics <$> named_children params)
    | None => ∅
    end in
  match child_by_field_name "body" func with
  | Some body => collect_rust_lets generics body out
  | None => out
  end.

Definition rust_receiver_name (call : node) : option string :=
  func ← child_by_field_name "function" call;
  if kind_in ["field_expression"] func then
    value ← child_by_field_name "value" func;
    if kind_in ["identifier"; "self"] value then node_text value else None
  else None.

(** ** The walk *)

(** What a node inherits from the subtree above it. *)
Record Inherited := mkInherited {
  in_enclosing : option string;
  in_scope : FromScope;
  in_owner : option string;
  in_receivers : gmap string string
}.

Section walk.
Context `{Uppercase} (l : Language).

(** The item a node defines, with its name. *)
Definition item_of (above : list node) (n : node) : option (SymbolKind * string) :=
  k ← item_kind l n; name ← item_name l above n k; Some (k, name).

(** A symbol's owner is the one around it. *)
Definition symbol_of (above : list node) (n : node) (inh : Inherited) : option Symbol :=
  (λ it, mkSymbol it.2 it.1 (start_line n) (end_line n) (in_owner inh)) <$> item_of above n.

(** What an item changes for the nodes under it. *)
Definition enter_item (above : list node) (n : node) (inh : Inherited) : Inherited :=
  match item_of above n with
  | None => inh
  | Some (k, name) =>
      let inh :=
        if decide (k = Function) then
          mkInherited (Some name) InFunction (in_owner inh)
            (if decide (l = Rust) then rust_receiver_types n else in_receivers inh)
        else inh in
      if establishes_ownership k
      then mkInherited (in_enclosing inh) (in_scope inh) (Some (owner_key name)) (in_receivers inh)
      else inh
  end.

Definition qualifier_of (n : node) (inh : Inherited) (k : RefKind) : option string :=
  match k with
  | Value => None
  | Method =>
      if decide (l = Rust) then
        recv ← rust_receiver_name n;
        if decide (recv = "self") then in_owner inh else in_receivers inh !! recv
      else None
  | Free => callee_qualifier l n
  end.

(** The reference of a call. *)
Definition call_of (above : list node) (n : node) (inh : Inherited) : option Reference :=
  if is_call l (kind n) then
    name ← callee_name l above n;
    let k := callee_kind l n in
    Some (mkReference name (in_enclosing inh) (start_line n) k (qualifier_of n inh k) (in_scope inh))
  else None.

(** A binding of a module names the calls in its initializer. *)
Definition enter_binding (n : node) (inh : Inherited) : Inherited :=
  if bool_decide (in_enclosing inh = None ∨ in_scope inh = InModule) then
    match module_binding_name l n with
    | Some name => mkInherited (Some name) InModule (in_owner inh) (in_receivers inh)
    | None => inh
    end
  else inh.

Definition mention (inh : Inherited) (k : RefKind) (nl : string * N) : Reference :=
  mkReference nl.1 (in_enclosing inh) nl.2 k None (in_scope inh).

(** The names a node mentions beside the call it makes. *)
Definition mentions_of (n : node) (inh : Inherited) : list Reference :=
  (mention inh Value <$> if is_call l (kind n) then value_args n else []) ++
  (mention inh Free <$> macro_arg_calls l n).

(** What one node adds, and what its children inherit. *)
Definition visit (above : list node) (n : node) (inh : Inherited) : CodeGraph * Inherited :=
  let symbols := option_list (symbol_of above n inh) in
  let inh := enter_item above n inh in
  let calls := option_list (call_of above n inh) in
  let inh := enter_binding n inh in
  (mkCodeGraph symbols (calls ++ mentions_of n inh) (imports_at l n), inh).

Definition graph_push (g g' : CodeGraph) : CodeGraph :=
  mkCodeGraph (cg_symbols g ++ cg_symbols g') (cg_references g ++ cg_references g')
    (cg_imports g ++ cg_imports g').

Fixpoint walk (n : node) (above : list node) (inh : Inherited) (graph : CodeGraph) : CodeGraph :=
  match n with
  | Node i cs =>
      let r := visit above n inh in
      foldl (λ graph c, walk c (n :: above) r.2 graph) (graph_push graph r.1) cs
  end.

Definition top : Inherited := mkInherited None InFunction None ∅.

Definition empty_graph : CodeGraph := mkCodeGraph [] [] [].

(** [parse] is tree-sitter with the language's grammar. *)
Definition build (parse : Language → string → option node) (src : string) : CodeGraph :=
  match parse l src with
  | None => empty_graph
  | Some root => walk root [] top empty_graph
  end.
End walk.

Definition build_rust `{Uppercase} (parse : Language → string → option node) (src : string) : CodeGraph :=
  build Rust parse src.
