(* ===== verification/ExtractSpec.v ===== *)
(** * ExtractSpec: what a slice holds

    The walk adds up what each node contributes, and what a node contributes depends only
    on the nodes above it: a slice is a comprehension over the positions of its tree. *)

From S2P Require Export ExtractWalk.

(** ** Positions *)

(** A node with what is above it, the nearest first. *)
Definition position : Type := list node * node.

Fixpoint positions (n : node) (above : list node) : list position :=
  match n with Node _ cs => (above, n) :: concat (map (λ c, positions c (n :: above)) cs) end.

Lemma positions_eq n above :
  positions n above = (above, n) :: concat ((λ c, positions c (n :: above)) <$> children n).
Proof. by destruct n. Qed.

Lemma positions_preorder n above : (positions n above).*2 = preorder n.
Proof.
  revert above. induction n as [i cs IH]. intros above. rewrite positions_eq, preorder_eq, fmap_cons.
  cbn [snd children]. f_equal. generalize (Node i cs :: above) as above'.
  induction IH as [|c cs Hc _ IH]; intros above'; [done|]. rewrite !fmap_cons. cbn [concat].
  by rewrite fmap_app, Hc, IH.
Qed.

Section spec.
Context `{Uppercase} (l : Language).

(** ** Adding slices *)

Lemma graph_push_nil g : graph_push empty_graph g = g.
Proof. by destruct g. Qed.

Lemma graph_push_assoc g1 g2 g3 : graph_push (graph_push g1 g2) g3 = graph_push g1 (graph_push g2 g3).
Proof. unfold graph_push. cbn. by rewrite <-!(assoc_L (++)). Qed.

Definition graph_sum (gs : list CodeGraph) : CodeGraph := foldr graph_push empty_graph gs.

Lemma graph_sum_cons g gs : graph_sum (g :: gs) = graph_push g (graph_sum gs).
Proof. done. Qed.

Lemma graph_sum_app gs1 gs2 : graph_sum (gs1 ++ gs2) = graph_push (graph_sum gs1) (graph_sum gs2).
Proof.
  induction gs1 as [|g gs1 IH]; [by rewrite graph_push_nil|].
  rewrite <-app_comm_cons, !graph_sum_cons, IH. by rewrite graph_push_assoc.
Qed.

Lemma graph_sum_symbols gs : cg_symbols (graph_sum gs) = gs ≫= cg_symbols.
Proof. induction gs as [|g gs IH]; [done|]. rewrite graph_sum_cons, bind_cons, <-IH. done. Qed.
Lemma graph_sum_references gs : cg_references (graph_sum gs) = gs ≫= cg_references.
Proof. induction gs as [|g gs IH]; [done|]. rewrite graph_sum_cons, bind_cons, <-IH. done. Qed.
Lemma graph_sum_imports gs : cg_imports (graph_sum gs) = gs ≫= cg_imports.
Proof. induction gs as [|g gs IH]; [done|]. rewrite graph_sum_cons, bind_cons, <-IH. done. Qed.

(** ** A slice as a sum over positions *)

(** What is inherited under the given ancestors. *)
Fixpoint inherited (above : list node) : Inherited :=
  match above with
  | [] => top
  | p :: above => (visit l above p (inherited above)).2
  end.

Definition contribution (p : position) : CodeGraph := (visit l p.1 p.2 (inherited p.1)).1.

Lemma walk_contributions n above g :
  walk l n above (inherited above) g = graph_push g (graph_sum (contribution <$> positions n above)).
Proof.
  revert above g. induction n as [i cs IH]. intros above g. cbn [walk].
  change ((visit l above (Node i cs) (inherited above)).2) with (inherited (Node i cs :: above)).
  change (visit l above (Node i cs) (inherited above)).1 with (contribution (above, Node i cs)).
  rewrite positions_eq, fmap_cons, graph_sum_cons, <-graph_push_assoc. cbn [children].
  generalize (Node i cs :: above) as above'. generalize (graph_push g (contribution (above, Node i cs))) as g'.
  induction IH as [|c cs Hc _ IH]; intros g' above'.
  { cbn. unfold graph_push. cbn. rewrite !app_nil_r. by destruct g'. }
  rewrite fmap_cons. cbn [foldl concat]. by rewrite Hc, IH, fmap_app, graph_sum_app, graph_push_assoc.
Qed.

(** ** Everything is counted, once *)

(** A symbol without its owner, a reference without what it is attributed to. *)
Definition symbol_face (s : Symbol) := (sym_kind s, sym_name s, sym_start_line s, sym_end_line s).
Definition reference_face (r : Reference) := (ref_name r, ref_line r, ref_kind r).

Definition item_face (p : position) :=
  (λ it, (it.1, it.2, start_line p.2, end_line p.2)) <$> item_of l p.1 p.2.

(** The call a node is, the names it hands over, the calls in a macro's tokens. *)
Definition mention_faces (p : position) : list (string * N * RefKind) :=
  (if is_call l (kind p.2) then
     option_list ((λ name, (name, start_line p.2, callee_kind l p.2)) <$> callee_name l p.1 p.2) ++
     ((λ nl, (nl.1, nl.2, Value)) <$> value_args p.2)
   else []) ++
  ((λ nl, (nl.1, nl.2, Free)) <$> macro_arg_calls l p.2).

Lemma bind_fmap {A B C} (f : A → B) (g : B → list C) xs : (f <$> xs) ≫= g = xs ≫= (λ x, g (f x)).
Proof. induction xs as [|x xs IH]; [done|]. by rewrite fmap_cons, !bind_cons, IH. Qed.

Lemma fmap_bind {A B C} (f : A → list B) (g : B → C) xs : g <$> (xs ≫= f) = xs ≫= (λ x, g <$> f x).
Proof. induction xs as [|x xs IH]; [done|]. by rewrite !bind_cons, fmap_app, IH. Qed.

Lemma omap_bind {A B} (f : A → option B) xs : omap f xs = xs ≫= (λ x, option_list (f x)).
Proof. induction xs as [|x xs IH]; [done|]. rewrite bind_cons, <-IH. cbn. by destruct (f x). Qed.

Lemma option_list_fmap {A B} (f : A → B) (o : option A) : option_list (f <$> o) = f <$> option_list o.
Proof. by destruct o. Qed.

Lemma bind_ext_in {A B} (f g : A → list B) xs : (∀ x, x ∈ xs → f x = g x) → xs ≫= f = xs ≫= g.
Proof.
  induction xs as [|x xs IH]; [done|]. intros Hfg. rewrite !bind_cons, (Hfg x) by left.
  by rewrite IH by (intros; apply Hfg; by right).
Qed.

(** ** What a call is attributed to *)

(** The innermost function around a node, itself included, with where it stands. *)
Fixpoint nearest_function (chain : list node) : option (position * string) :=
  match chain with
  | [] => None
  | n :: above =>
      match item_of l above n with
      | Some (Function, name) => Some ((above, n), name)
      | _ => nearest_function above
      end
  end.

Fixpoint nearest_binding (chain : list node) : option string :=
  match chain with
  | [] => None
  | n :: above =>
      match module_binding_name l n with
      | Some name => Some name
      | None => nearest_binding above
      end
  end.

Fixpoint nearest_owner (chain : list node) : option (position * string) :=
  match chain with
  | [] => None
  | n :: above =>
      match item_of l above n with
      | Some (k, name) => if establishes_ownership k then Some ((above, n), name) else nearest_owner above
      | None => nearest_owner above
      end
  end.

(** The function around it, else the module binding around it, else nothing. *)
Definition attribution (chain : list node) : option string * FromScope :=
  match nearest_function chain, nearest_binding chain with
  | Some f, _ => (Some f.2, InFunction)
  | None, Some b => (Some b, InModule)
  | None, None => (None, InFunction)
  end.

Definition attributed (inh : Inherited) := (in_enclosing inh, in_scope inh).

Lemma enter_item_attributed above n inh : attributed (enter_item l above n inh) =
  match item_of l above n with Some (Function, name) => (Some name, InFunction) | _ => attributed inh end.
Proof.
  unfold enter_item, attributed. destruct (item_of l above n) as [[k name]|]; [|done].
  by destruct k.
Qed.

Lemma enter_binding_attributed n inh : attributed (enter_binding l n inh) =
  if bool_decide (in_enclosing inh = None ∨ in_scope inh = InModule) then
    match module_binding_name l n with Some b => (Some b, InModule) | None => attributed inh end
  else attributed inh.
Proof. unfold enter_binding. case_bool_decide; [|done]. by destruct (module_binding_name l n). Qed.

Lemma enter_item_owner above n inh : in_owner (enter_item l above n inh) =
  match item_of l above n with
  | Some (k, name) => if establishes_ownership k then Some (owner_key name) else in_owner inh
  | None => in_owner inh
  end.
Proof. unfold enter_item. destruct (item_of l above n) as [[[] name]|]; done. Qed.

Lemma enter_binding_owner n inh : in_owner (enter_binding l n inh) = in_owner inh.
Proof. unfold enter_binding. case_bool_decide; [|done]. by destruct (module_binding_name l n). Qed.

Lemma inherited_attributed chain : attributed (inherited chain) = attribution chain.
Proof.
  induction chain as [|n above IH]; [done|]. cbn [inherited visit snd].
  rewrite enter_binding_attributed. pose proof (enter_item_attributed above n (inherited above)) as Hi.
  rewrite IH in Hi. destruct (enter_item l above n (inherited above)) as [e s o r].
  unfold attributed, attribution in *. cbn [in_enclosing in_scope nearest_function nearest_binding] in *.
  destruct (item_of l above n) as [[[] name]|], (nearest_function above), (nearest_binding above);
    injection Hi as -> ->; by destruct (module_binding_name l n).
Qed.

Lemma inherited_owner chain : in_owner (inherited chain) = (λ o, owner_key o.2) <$> nearest_owner chain.
Proof.
  induction chain as [|n above IH]; [done|]. cbn [inherited visit snd nearest_owner].
  rewrite enter_binding_owner, enter_item_owner, IH.
  destruct (item_of l above n) as [[k name]|]; [|done]. by destruct (establishes_ownership k).
Qed.

(** ** A slice in closed form *)

Lemma call_binds_nothing n : is_call l (kind n) = true → module_binding_name l n = None.
Proof.
  intros Hc%bool_decide_eq_true. unfold module_binding_name, kind_in.
  destruct l; try done; apply list_elem_of_singleton in Hc; by rewrite Hc.
Qed.

Lemma call_attributed n inh : is_call l (kind n) = true →
  enter_binding l n inh = inh.
Proof. intros Hc. unfold enter_binding. rewrite call_binds_nothing by done. by case_bool_decide. Qed.

Definition whole_symbol (s : Symbol) := (symbol_face s, sym_owner s).
Definition attributed_reference (r : Reference) := (reference_face r, (ref_from r, ref_from_scope r)).

Lemma contribution_references p : attributed_reference <$> cg_references (contribution p) =
  (λ f, (f, attribution (p.2 :: p.1))) <$> mention_faces p.
Proof.
  destruct p as [above n]. unfold contribution. cbn [visit fst snd cg_references].
  pose proof (inherited_attributed (n :: above)) as Hin. cbn [inherited visit snd] in Hin.
  set (inh := enter_item l above n (inherited above)) in *. unfold mention_faces, call_of, mentions_of.
  cbn [fst snd]. rewrite <-Hin. unfold attributed. rewrite !fmap_app, (assoc_L (++)).
  f_equal; [|by rewrite <-!list_fmap_compose].
  destruct (is_call l (kind n)) eqn:Hc; [|done]. rewrite call_attributed by done. rewrite fmap_app.
  f_equal; [by destruct (callee_name l above n)|by rewrite <-!list_fmap_compose].
Qed.

(** C36: extraction is lexical, misses nothing and counts nothing twice.  The slice of a
    source has, in the order of the source, exactly one symbol for every node that
    defines a named item, one call for every call node with a callee, one value reference
    for every bare name among a call's arguments, one call for every call in a macro's
    tokens, and the imports of every import node.  A symbol's owner is the innermost type
    or module strictly around it.  A reference is attributed to the innermost function
    around it, to the innermost binding of the module when there is no function, and to
    nothing when there is neither. *)
Theorem extraction_is_lexical parse src root : parse l src = Some root →
  whole_symbol <$> cg_symbols (build l parse src) =
    omap (λ p, (λ f, (f, (λ o, owner_key o.2) <$> nearest_owner p.1)) <$> item_face p) (positions root []) ∧
  attributed_reference <$> cg_references (build l parse src) =
    positions root [] ≫= (λ p, (λ f, (f, attribution (p.2 :: p.1))) <$> mention_faces p) ∧
  cg_imports (build l parse src) = preorder root ≫= imports_at l ∧
  (positions root []).*2 = preorder root.
Proof.
  intros Hparse. unfold build. rewrite Hparse. change top with (inherited []).
  rewrite walk_contributions, graph_push_nil. split_and!.
  - rewrite graph_sum_symbols, bind_fmap, fmap_bind, omap_bind. apply bind_ext_in. intros [above n] _.
    cbn. rewrite <-option_list_fmap, <-inherited_owner. f_equal. unfold symbol_of, item_face. cbn.
    by destruct (item_of _ _ _).
  - rewrite graph_sum_references, bind_fmap, fmap_bind. apply bind_ext_in. intros p _.
    apply contribution_references.
  - by rewrite graph_sum_imports, bind_fmap, <-(positions_preorder root []), bind_fmap.
  - apply positions_preorder.
Qed.

(** ** Lines *)

(** The rows of a node are in order, and hold those of its children. *)
Definition within (c p : node) : Prop := (start_line p ≤ start_line c ∧ end_line c ≤ end_line p)%N.
Definition rows_nested (root : node) : Prop :=
  ∀ p, p ∈ preorder root → (start_line p ≤ end_line p)%N ∧ ∀ c, c ∈ children p → within c p.

Lemma within_trans a b c : within a b → within b c → within a c.
Proof. unfold within. lia. Qed.

Lemma preorder_trans a b c : a ∈ preorder b → b ∈ preorder c → a ∈ preorder c.
Proof.
  intros Ha. revert b Ha. induction c as [i cs IH]. intros b Ha [->|(d & Hd & Hb)]%elem_of_preorder; [done|].
  apply elem_of_preorder. right. exists d. split; [done|]. cbn in Hd. rewrite Forall_forall in IH. by apply (IH d Hd b).
Qed.

Lemma child_in_preorder c n : c ∈ children n → c ∈ preorder n.
Proof. intros Hc. apply elem_of_preorder. right. exists c. split; [done|apply preorder_self]. Qed.

Lemma rows_nested_sub root n : rows_nested root → n ∈ preorder root → rows_nested n.
Proof. intros Hr Hn p Hp. apply Hr. by eapply preorder_trans. Qed.

Lemma preorder_within n m : rows_nested n → m ∈ preorder n → within m n.
Proof.
  revert m. induction n as [i cs IH]. intros m Hr [->|(c & Hc & Hm)]%elem_of_preorder; [done|].
  cbn in Hc. rewrite Forall_forall in IH. apply within_trans with c.
  - apply IH; [done| |done]. by eapply rows_nested_sub, child_in_preorder.
  - by apply (Hr _ (preorder_self _)).
Qed.

Definition in_lines (line : N) (n : node) : Prop := (start_line n ≤ line ∧ line ≤ end_line n)%N.

Lemma preorder_in_lines n m : rows_nested n → m ∈ preorder n → in_lines (start_line m) n.
Proof.
  intros Hr Hm. destruct (preorder_within n m Hr Hm). destruct (Hr m Hm) as [? _]. unfold in_lines. lia.
Qed.

Lemma named_children_sub c n : c ∈ named_children n → c ∈ preorder n.
Proof. intros [_ Hc]%list_elem_of_filter. by apply child_in_preorder. Qed.

Lemma first_named_sub c n : first_named_child n = Some c → c ∈ preorder n.
Proof. intros Hc%head_Some_elem_of. by apply named_children_sub. Qed.

Lemma field_sub name c n : child_by_field_name name n = Some c → c ∈ preorder n.
Proof. intros (c' & Hc & _ & ->)%on_field_some. by apply child_in_preorder. Qed.

Lemma value_args_sub n name line : (name, line) ∈ value_args n → ∃ m, m ∈ preorder n ∧ line = start_line m.
Proof.
  unfold value_args. destruct (child_by_field_name "arguments" n) as [args|] eqn:Ha; [|by intros ?%elem_of_nil].
  intros (child & Hchild & Hm)%list_elem_of_omap. apply bind_Some in Hm as (leaf & Hleaf & Hn).
  unfold named_line in Hn. apply bind_Some in Hn as (t & _ & [= <- <-]). exists leaf. split; [|done].
  apply preorder_trans with args; [|by apply field_sub in Ha].
  apply preorder_trans with child; [|by apply named_children_sub]. unfold bare_argument in Hleaf.
  destruct (is_identifier child); [injection Hleaf as <-; apply preorder_self|]. case_decide; [|done].
  apply bind_Some in Hleaf as (leaf' & Hl & Hif). destruct (is_identifier leaf'); [|done].
  injection Hif as <-. by apply first_named_sub.
Qed.

Lemma token_calls_sub cs name line : (name, line) ∈ token_calls cs → ∃ m, m ∈ cs ∧ line = start_line m.
Proof.
  induction cs as [|c cs IH]; [by intros ?%elem_of_nil|]. cbn. destruct cs as [|next cs].
  { by intros ?%elem_of_nil. }
  intros Hin. assert ((name, line) ∈ option_list (named_line c) ∨ (name, line) ∈ token_calls (next :: cs)) as [Hc|Hc].
  { destruct (_ && _); [by apply elem_of_app in Hin|by right]. }
  - unfold named_line in Hc. destruct (node_text c); cbn in Hc; [|by apply elem_of_nil in Hc].
    apply list_elem_of_singleton in Hc as [= _ ->]. exists c. split; [left|done].
  - destruct (IH Hc) as (m & ? & ?). exists m. split; [by right|done].
Qed.

Lemma mention_in_lines p f : rows_nested p.2 → f ∈ mention_faces p → in_lines f.1.2 p.2.
Proof.
  destruct p as [above n]. cbn [snd]. intros Hr. unfold mention_faces. cbn [fst snd].
  assert (∀ name line, (name, line) ∈ value_args n ∨ (name, line) ∈ macro_arg_calls l n → in_lines line n) as Hnl.
  { intros name line [(m & Hm & ->)%value_args_sub|Hm]; [by apply preorder_in_lines|].
    unfold macro_arg_calls in Hm. destruct (_ && _); [|by apply elem_of_nil in Hm].
    apply token_calls_sub in Hm as (m & Hm & ->). by apply preorder_in_lines, child_in_preorder. }
  intros [Hf|([name line] & -> & Hf)%list_elem_of_fmap]%elem_of_app; [|by apply (Hnl name); right].
  destruct (is_call l (kind n)); [|by apply elem_of_nil in Hf].
  apply elem_of_app in Hf as [Hf|([name line] & -> & Hf)%list_elem_of_fmap]; [|by apply (Hnl name); left].
  destruct (callee_name l above n); cbn in Hf; [|by apply elem_of_nil in Hf].
  apply list_elem_of_singleton in Hf as ->. apply preorder_in_lines; [done|apply preorder_self].
Qed.

(** ** What is above a position *)

Lemma positions_up m above p : p ∈ positions m above →
  p = (above, m) ∨ ∃ q a, p.1 = q :: a ∧ (a, q) ∈ positions m above ∧ p.2 ∈ children q.
Proof.
  revert above. induction m as [i cs IH]. intros above Hin.
  rewrite positions_eq, elem_of_cons, list_elem_of_In, in_concat in Hin.
  destruct Hin as [->|(ps & (c & -> & Hc)%list_elem_of_In%list_elem_of_fmap & Hp%list_elem_of_In)]; [by left|right].
  cbn [children] in Hc. rewrite Forall_forall in IH.
  assert (∀ q, q ∈ positions c (Node i cs :: above) → q ∈ positions (Node i cs) above) as Hsub.
  { intros q Hq. rewrite positions_eq, elem_of_cons, list_elem_of_In, in_concat. right.
    eexists. split; [|by apply list_elem_of_In]. apply list_elem_of_In, list_elem_of_fmap. by exists c. }
  destruct (IH c Hc _ Hp) as [->|(q & a & Hq & Ha & Hn)].
  - exists (Node i cs), above. split_and!; [done| |done]. rewrite positions_eq. by left.
  - exists q, a. split_and!; [done|by apply Hsub|done].
Qed.

(** The nodes around a position stand at positions too, and hold its rows. *)
Lemma around root above n pre q a : rows_nested root → (above, n) ∈ positions root [] →
  n :: above = pre ++ q :: a → (a, q) ∈ positions root [] ∧ within n q.
Proof.
  intros Hr. revert above n. induction pre as [|x pre IH]; intros above n Hp.
  { intros [= -> ->]. by split. }
  cbn [app]. intros Heq. injection Heq as <- Heq. destruct (positions_up _ _ _ Hp) as [[= -> ->]|(q' & a' & Hq & Ha & Hn)].
  { by destruct pre. }
  cbn [fst snd] in *. rewrite Hq in Heq. destruct (IH a' q' Ha Heq) as [Hpos Hw]. split; [done|].
  apply within_trans with q'; [|done]. eapply Hr; [|done].
  rewrite <-(positions_preorder root []). apply list_elem_of_fmap. by exists (a', q').
Qed.

Lemma nearest_function_spec chain q f : nearest_function chain = Some (q, f) →
  ∃ pre, chain = pre ++ q.2 :: q.1 ∧ item_of l q.1 q.2 = Some (Function, f).
Proof.
  induction chain as [|n above IH]; [done|]. cbn [nearest_function].
  destruct (item_of l above n) as [[k name]|] eqn:Hi.
  - destruct k; try (intros (pre & -> & Hf)%IH; by exists (n :: pre)).
    intros [= <- <-]. by exists [].
  - intros (pre & -> & Hf)%IH. by exists (n :: pre).
Qed.

Lemma nearest_owner_spec chain q name : nearest_owner chain = Some (q, name) →
  ∃ pre k, chain = pre ++ q.2 :: q.1 ∧ item_of l q.1 q.2 = Some (k, name) ∧ establishes_ownership k = true.
Proof.
  induction chain as [|n above IH]; [done|]. cbn [nearest_owner].
  destruct (item_of l above n) as [[k name']|] eqn:Hi; [destruct (establishes_ownership k) eqn:Hk|].
  - intros [= <- <-]. by exists [], k.
  - intros (pre & k' & -> & Ho)%IH. by exists (n :: pre), k'.
  - intros (pre & k' & -> & Ho)%IH. by exists (n :: pre), k'.
Qed.

Lemma build_sum parse src root : parse l src = Some root →
  build l parse src = graph_sum (contribution <$> positions root []).
Proof.
  intros Hparse. unfold build. rewrite Hparse. change top with (inherited []).
  by rewrite walk_contributions, graph_push_nil.
Qed.

Lemma symbol_at gs p k name : p ∈ gs → item_of l p.1 p.2 = Some (k, name) →
  ∃ s, s ∈ cg_symbols (graph_sum (contribution <$> gs)) ∧
    sym_kind s = k ∧ sym_name s = name ∧ sym_start_line s = start_line p.2 ∧ sym_end_line s = end_line p.2.
Proof.
  intros Hp Hi. exists (mkSymbol name k (start_line p.2) (end_line p.2) (in_owner (inherited p.1))).
  split; [|done]. rewrite graph_sum_symbols, bind_fmap. apply list_elem_of_bind. exists p. split; [|done].
  cbn. unfold symbol_of. rewrite Hi. by left.
Qed.

(** C35: names and lines agree.  When the rows of a tree are nested, a reference that is
    attributed to a function names a function of the same slice, and lies within its
    lines; and a symbol that has an owner lies within the lines of a type or module of
    the same slice whose name, without its path and its generics, is that owner. *)
Theorem attributions_are_in_the_slice parse src root : parse l src = Some root → rows_nested root →
  let g := build l parse src in
  (∀ r f, r ∈ cg_references g → ref_from r = Some f → ref_from_scope r = InFunction →
    ∃ s, s ∈ cg_symbols g ∧ sym_kind s = Function ∧ sym_name s = f ∧
      (sym_start_line s ≤ ref_line r ≤ sym_end_line s)%N) ∧
  (∀ s o, s ∈ cg_symbols g → sym_owner s = Some o →
    ∃ s', s' ∈ cg_symbols g ∧ establishes_ownership (sym_kind s') = true ∧ owner_key (sym_name s') = o ∧
      (sym_start_line s' ≤ sym_start_line s ∧ sym_end_line s ≤ sym_end_line s')%N).
Proof.
  intros Hparse Hr g. unfold g. rewrite (build_sum _ _ _ Hparse). split.
  - intros r f Hin Hfrom Hscope.
    rewrite graph_sum_references, bind_fmap in Hin. apply list_elem_of_bind in Hin as ([above n] & Hin & Hp).
    apply (list_elem_of_fmap_2 attributed_reference) in Hin. rewrite contribution_references in Hin.
    apply list_elem_of_fmap in Hin as (face & Heq & Hface). cbn [fst snd] in Heq.
    assert (n ∈ preorder root) as Hn.
    { rewrite <-(positions_preorder root []). apply list_elem_of_fmap. by exists (above, n). }
    apply mention_in_lines in Hface; [|by eapply rows_nested_sub].
    unfold attributed_reference in Heq. injection Heq as <- Ha.
    unfold attribution in Ha. rewrite Hfrom, Hscope in Ha.
    destruct (nearest_function (n :: above)) as [[q f']|] eqn:Hnf;
      [|by destruct (nearest_binding _)]. injection Ha as ->.
    destruct (nearest_function_spec _ _ _ Hnf) as (pre & Hchain & Hi).
    destruct (around root above n pre q.2 q.1 Hr Hp Hchain) as [Hq [? ?]].
    destruct (symbol_at (positions root []) q _ _ ltac:(by destruct q) Hi) as (s & Hs & Hsk & Hsn & Hs1 & Hs2).
    exists s. split_and!; [done..| |]; unfold in_lines in *; cbn in *; lia.
  - intros s o Hin Ho. rewrite graph_sum_symbols, bind_fmap in Hin.
    apply list_elem_of_bind in Hin as ([above n] & Hin & Hp). cbn in Hin. unfold symbol_of in Hin. cbn in Hin.
    destruct (item_of l above n) as [[k name]|]; cbn in Hin; [|by apply elem_of_nil in Hin].
    apply list_elem_of_singleton in Hin as ->. cbn in Ho |- *. rewrite inherited_owner in Ho.
    destruct (nearest_owner above) as [[q oname]|] eqn:Hno; [|done]. injection Ho as <-.
    destruct (nearest_owner_spec _ _ _ Hno) as (pre & k' & -> & Hi & Hk').
    destruct (around root _ n (n :: pre) q.2 q.1 Hr Hp ltac:(done)) as [Hq [? ?]].
    destruct (symbol_at (positions root []) q _ _ ltac:(by destruct q) Hi) as (s & Hs & <- & <- & Hs1 & Hs2).
    exists s. split_and!; [done..| |]; rewrite ?Hs1, ?Hs2; lia.
Qed.
End spec.

(** ** C and C++ *)

(** What only the C++ grammar has, and the table reads. *)
Definition CPP_ONLY : list string := ["class_specifier"; "namespace_definition"; "qualified_identifier"].

Section headers.
Context `{Uppercase}.

Lemma assoc_not_in {A} k (table : list (string * A)) : k ∉ table.*1 → assoc k table = None.
Proof.
  intros Hk. unfold assoc. induction table as [|[k' x] table IH]; [done|].
  rewrite fmap_cons, not_elem_of_cons in Hk. rewrite filter_cons, decide_False by (cbn in *; intros ->; tauto).
  exact (IH (proj2 Hk)).
Qed.

Lemma item_of_cpp above n : kind n ∉ CPP_ONLY → item_of C above n = item_of Cpp above n.
Proof.
  intros Hk. unfold item_of, item_kind.
  rewrite (assoc_not_in (kind n) [("class_specifier", Class_); ("namespace_definition", Module_)]) by set_solver.
  by destruct (c_item_kind (kind n)) as [[]|].
Qed.

Lemma qualifier_cpp n : (∀ c, c ∈ children n → kind c ∉ CPP_ONLY) → callee_qualifier Cpp n = None.
Proof.
  intros Hc. unfold callee_qualifier. destruct (child_by_field_name "function" n) as [callee|] eqn:Hf; [|done].
  apply on_field_some in Hf as (c & Hin & _ & ->). cbn. unfold kind_in.
  rewrite bool_decide_eq_false_2; [done|]. intros Hq%list_elem_of_singleton. apply (Hc c Hin). rewrite Hq. set_solver.
Qed.

Lemma visit_cpp above n inh : (∀ m, m = n ∨ m ∈ children n → kind m ∉ CPP_ONLY) →
  visit C above n inh = visit Cpp above n inh.
Proof.
  intros Hk. assert (item_of C above n = item_of Cpp above n) as Hi by (apply item_of_cpp, Hk; by left).
  assert (callee_qualifier Cpp n = None) as Hq by (apply qualifier_cpp; intros c Hc; apply Hk; by right).
  assert (∀ inh, call_of C above n inh = call_of Cpp above n inh) as Hcall.
  { intros inh'. unfold call_of, qualifier_of. change (is_call C (kind n)) with (is_call Cpp (kind n)).
    change (callee_name C above n) with (callee_name Cpp above n).
    change (callee_kind C n) with (callee_kind Cpp n). rewrite Hq.
    done. }
  unfold visit, symbol_of, enter_item. by rewrite Hi, Hcall.
Qed.

(** A C header reads alike under either table.  On a tree with no class specifier,
    no namespace and no qualified name, extraction as C++ gives the slice that extraction
    as C gives, so a header, which always goes through C++, loses nothing by it. *)
Theorem c_reads_as_cpp root above inh g : (∀ n, n ∈ preorder root → kind n ∉ CPP_ONLY) →
  walk C root above inh g = walk Cpp root above inh g.
Proof.
  revert above inh g. induction root as [i cs IH]. intros above inh g Hk. cbn [walk].
  rewrite visit_cpp.
  2: { intros m [->|Hm]; apply Hk; [apply preorder_self|by apply child_in_preorder]. }
  assert (Forall (λ c, ∀ n, n ∈ preorder c → kind n ∉ CPP_ONLY) cs) as Hcs.
  { apply Forall_forall. intros c Hc n Hn. apply Hk. eapply preorder_trans; [done|by apply child_in_preorder]. }
  generalize (graph_push g (visit Cpp above (Node i cs) inh).1) as g'.
  generalize (visit Cpp above (Node i cs) inh).2 as inh'. generalize (Node i cs :: above) as above'.
  clear Hk. induction IH as [|c cs Hc _ IH]; intros above' inh' g'; [done|].
  apply Forall_cons in Hcs as [Hkc Hcs]. cbn [foldl]. rewrite Hc by done. by apply IH.
Qed.
End headers.

(** ** Receivers in Rust *)

(** The bindings that write a type under a node, in order, nested functions left out. *)
Fixpoint bindings_under (generics : gset string) (n : node) : list (string * string) :=
  match n with
  | Node _ cs =>
      concat (map (λ c, if kind_in ["function_item"] c then []
                        else option_list (let_binding generics c) ++ bindings_under generics c) cs)
  end.

Definition record_all (out : gmap string string) (bs : list (string * string)) : gmap string string :=
  foldl (λ out b, <[b.1 := b.2]> out) out bs.

Lemma record_all_app out bs1 bs2 : record_all out (bs1 ++ bs2) = record_all (record_all out bs1) bs2.
Proof. apply foldl_app. Qed.

Lemma record_type_all out o : record_type out o = record_all out (option_list o).
Proof. by destruct o as [[]|]. Qed.

Lemma record_types_all out os : foldl record_type out os = record_all out (omap id os).
Proof.
  revert out. induction os as [|[[]|] os IH]; intros out; [done| |]; cbn [foldl omap list_omap id]; rewrite IH; done.
Qed.

Lemma collect_rust_lets_all generics n out :
  collect_rust_lets generics n out = record_all out (bindings_under generics n).
Proof.
  revert out. induction n as [i cs IH]. intros out. cbn [collect_rust_lets bindings_under]. revert out.
  induction IH as [|c cs Hc _ IH]; intros out; [done|]. cbn [foldl map concat].
  rewrite IH, record_all_app. f_equal. destruct (kind_in _ c); [done|].
  by rewrite Hc, record_type_all, record_all_app.
Qed.

Lemma record_all_lookup out bs w : record_all out bs !! w =
  match last (filter (λ b, b.1 = w) bs) with Some b => Some b.2 | None => out !! w end.
Proof.
  induction bs as [|[x ty] bs IH] using rev_ind; [done|]. rewrite record_all_app, filter_app.
  cbn [record_all foldl fst snd]. rewrite filter_cons, filter_nil. case_decide as Hx; cbn in Hx.
  - subst. by rewrite last_snoc, lookup_insert_eq.
  - by rewrite app_nil_r, lookup_insert_ne.
Qed.

(** What a function's parameters and body write down. *)
Definition written_types (func : node) : list (string * string) :=
  let generics := rust_type_parameters func in
  match child_by_field_name "parameters" func with
  | Some params => omap (parameter_binding generics) (named_children params)
  | None => []
  end ++
  match child_by_field_name "body" func with
  | Some body => bindings_under generics body
  | None => []
  end.

(** The type of a receiver.  Inside a Rust function a name has the type of the last
    binding of it that writes one, a parameter or a [let] anywhere in the body but in a
    nested function.  The bindings that write none count for nothing: a name that was
    rebound to a value whose type would have to be inferred keeps the type it had, and a
    call before a [let] has the type that the [let] writes. *)
Theorem receivers_take_the_last_written_type func w :
  rust_receiver_types func !! w = snd <$> last (filter (λ b, b.1 = w) (written_types func)).
Proof.
  unfold rust_receiver_types, written_types. set (generics := rust_type_parameters func).
  transitivity (record_all ∅
    (match child_by_field_name "parameters" func with
     | Some params => omap (parameter_binding generics) (named_children params)
     | None => []
     end ++
     match child_by_field_name "body" func with
     | Some body => bindings_under generics body
     | None => []
     end) !! w).
  - f_equal. rewrite record_all_app.
    assert (∀ xs, foldl record_type ∅ (parameter_binding generics <$> xs) =
      record_all ∅ (omap (parameter_binding generics) xs)) as Hps.
    { intros xs. rewrite record_types_all. f_equal. induction xs as [|x xs IH]; [done|].
      cbn. rewrite <-IH. by destruct (parameter_binding generics x). }
    destruct (child_by_field_name "parameters" func), (child_by_field_name "body" func);
      by rewrite ?Hps, ?collect_rust_lets_all.
  - rewrite record_all_lookup. by destruct (last _).
Qed.

(** ** Trees to try it on *)

Section witnesses.
#[local] Instance ascii_uppercase : Uppercase := λ s,
  match s with String a _ => bool_decide (65 ≤ Ascii.N_of_ascii a ≤ 90)%N | "" => false end.

#[local] Instance within_dec c p : Decision (within c p).
Proof. unfold within. apply _. Defined.

Lemma rows_nested_Forall root :
  Forall (λ p, (start_line p ≤ end_line p)%N ∧ Forall (λ c, within c p) (children p)) (preorder root) →
  rows_nested root.
Proof.
  rewrite Forall_forall. intros Hr p Hp. destruct (Hr p Hp) as [? Hc]. split; [done|].
  rewrite Forall_forall in Hc. exact Hc.
Qed.

(** A node on rows [a] to [b], in a field unless that is empty. *)
Definition tree (field kind text : string) (a b id : N) (cs : list node) : node :=
  Node (mkInfo kind true (if decide (field = "") then None else Some field) (Some text) a b id) cs.

(** [impl Widget { fn f(w: Widget) { let w = make(); w.get(); } }], a line each. *)
Definition rebinding_body : node :=
  tree "body" "block" "" 1 4 10
    [tree "" "let_declaration" "" 2 2 11
       [tree "pattern" "identifier" "w" 2 2 12 [];
        tree "value" "call_expression" "" 2 2 13 [tree "function" "identifier" "make" 2 2 14 []]];
     tree "" "call_expression" "" 3 3 15
       [tree "function" "field_expression" "" 3 3 16
          [tree "value" "identifier" "w" 3 3 17 []; tree "field" "field_identifier" "get" 3 3 18 []]]].

Definition rebinding_fn : node :=
  tree "" "function_item" "" 1 4 4
    [tree "name" "identifier" "f" 1 1 5 [];
     tree "parameters" "parameters" "" 1 1 6
       [tree "" "parameter" "" 1 1 7
          [tree "pattern" "identifier" "w" 1 1 8 []; tree "type" "type_identifier" "Widget" 1 1 9 []]];
     rebinding_body].

Definition rebinding : node :=
  tree "" "source_file" "" 0 5 0
    [tree "" "impl_item" "" 0 5 1
       [tree "type" "type_identifier" "Widget" 0 0 2 [];
        tree "body" "declaration_list" "" 0 5 3 [rebinding_fn]]].

Definition gives (root : node) (_ : Language) (_ : string) : option node := Some root.

(** [w] is what [make] returned, and still a [Widget]. *)
Example rebound_receiver : build_rust (gives rebinding) "" =
  mkCodeGraph [mkSymbol "Widget" Impl 1 6 None; mkSymbol "f" Function 2 5 (Some "Widget")]
    [mkReference "make" (Some "f") 3 Free None InFunction;
     mkReference "get" (Some "f") 4 Method (Some "Widget") InFunction] [].
Proof. vm_compute. reflexivity. Qed.

Lemma extraction_is_lexical_witness :
  whole_symbol <$> cg_symbols (build Rust (gives rebinding) "") =
    [((Impl, "Widget", 1%N, 6%N), None); ((Function, "f", 2%N, 5%N), Some "Widget")].
Proof.
  rewrite (proj1 (extraction_is_lexical Rust (gives rebinding) "" rebinding eq_refl)). vm_compute. reflexivity.
Defined.

Lemma attributions_are_in_the_slice_witness :
  ∃ s, s ∈ cg_symbols (build Rust (gives rebinding) "") ∧ sym_kind s = Function ∧ sym_name s = "f" ∧
    (sym_start_line s ≤ 4 ≤ sym_end_line s)%N.
Proof.
  assert (rows_nested rebinding) as Hr by (apply rows_nested_Forall, (bool_decide_unpack _); vm_compute; exact I).
  apply (proj1 (attributions_are_in_the_slice Rust (gives rebinding) "" rebinding eq_refl Hr)
    (mkReference "get" (Some "f") 4 Method (Some "Widget") InFunction) "f"); [|done..].
  apply (bool_decide_unpack _). vm_compute. exact I.
Defined.

(** [int helper(void) { return other(); }] *)
Definition c_header : node :=
  tree "" "translation_unit" "" 0 0 0
    [tree "" "function_definition" "" 0 0 1
       [tree "declarator" "function_declarator" "" 0 0 2 [tree "declarator" "identifier" "helper" 0 0 3 []];
        tree "body" "compound_statement" "" 0 0 4
          [tree "" "call_expression" "" 0 0 5 [tree "function" "identifier" "other" 0 0 6 []]]]].

Lemma c_reads_as_cpp_witness :
  walk Cpp c_header [] top empty_graph =
    mkCodeGraph [mkSymbol "helper" Function 1 1 None]
      [mkReference "other" (Some "helper") 1 Free None InFunction] [].
Proof.
  assert (Forall (λ n, kind n ∉ CPP_ONLY) (preorder c_header)) as Hk
    by (apply (bool_decide_unpack _); vm_compute; exact I).
  rewrite Forall_forall in Hk. rewrite <-(c_reads_as_cpp c_header [] top empty_graph Hk). vm_compute. reflexivity.
Defined.
End witnesses.
